(* ===== verification/_CoqProject ===== *)
-Q . S2P
Prelude.v
GoStrings.v
Execution.v
Judge.v
JudgeProps.v
HealthStats.v
Config.v
Credential.v
Ledger.v
Fair.v
FairShare.v
Checkpoint.v
Registry.v
RegistryInvariant.v
RegistryReach.v
RegistryGroups.v
RegistrySafety.v
RegistryProps.v
RegistryHealth.v
Routing.v
Iterator.v
IteratorProps.v
Inspect.v
RouteIndex.v
RouteProps.v
RoutingProps.v
InspectProps.v
Mutations.v
Upstream.v
Effects.v
Attempts.v
AttemptsStep.v
Usage.v
Money.v
PriceTable.v
Quote.v
QuoteProps.v
Observation.v
AccessQuota.v
AccessQuotaInv.v
AccessQuotaProps.v
QuotaCheckpoint.v
Affinity.v
RateLimit.v
RpmStore.v
RpmPersist.v
RedactToken.v
RedactTokenSpec.v
RedactRestore.v
RedactText.v
RedactTextProps.v
RedactStream.v
RedactStreamSpec.v
Release.v
Bindings.v
BindingsProps.v
BindingsOwner.v
Refresh.v
RefreshProps.v
RefreshRuntime.v
HttpRoute.v
HttpRouteProps.v
HttpMethod.v
Lifecycle.v
Idempotency.v
IdempotencyProps.v
IdempotencyApplied.v
Threads.v
StageRows.v
Stages.v
StageConnect.v
StageProtocol.v
StageProps.v
JsonText.v
Override.v
OverrideNodes.v
OverrideProps.v
ControlAuth.v
SseEvents.v
StreamObserver.v
