(* ===== verification/Prelude.v ===== *)
(** A verification library for the gateway's decision logic.

    * The program

    The program is an AI gateway written in Go.  A request arrives with an access key, is
    admitted or refused, is routed to one of several upstream credentials, is retried on
    another one when the first fails, and is finally priced and charged to the access key.
    The parts that decide are modelled; the HTTP and database code and most JSON around them is not.

    How the parts interact, in the order a request meets them:

    - configuration: [internal/state] compiles the groups into route indexes, catalog and
      group views, an immutable snapshot that every request works with;
    - admission: [internal/ratelimit] (requests per minute and unfinished requests) and
      [internal/accessquota] (estimated cost per access key) admit the request or announce
      when to come back; [internal/rpm] counts it;
    - routing: [internal/scheduler] evaluates the query against the snapshot and builds an
      iterator over its targets.  Each [Next] reads the candidates of the credential registry of
      [internal/state], keeps the highest allowed priority and route mode, and lets the weighted
      fair selection choose a credential, which [internal/affinity] may prefer; the scheduling
      ledger inside the registry remembers how much each credential has served;
    - forwarding: [internal/parameteroverride] edits the request's body by the rules of the group;
      the gateway finds the events of the answer's stream and shows them to its observers;
    - failover: the gateway forwards the attempt, judges its result with [internal/health]
      (category, retry, effect), applies the effect to the registry and to the credential's
      statistics under the mutation coordinator, and asks the iterator again or answers;
    - completion: [internal/usage] accumulates the reported tokens, [internal/pricing] turns
      them into a receipt, [internal/gateway] binds both to an observation,
      [internal/requestlog] checks it before storing it, and the quota runtime is charged;
    - the edges: [internal/platform/httproute] decides which module answers a path and in which
      order handlers run, [internal/httplifecycle] which requests a shutdown waits for;
      [internal/requestredact] and [internal/platform/encryption] hide parts of a text before it
      leaves and restore them in the answer; [internal/resourcebinding] and the binding index of
      [internal/state] keep the resources of a provider with the credential that made them;
      [internal/subscription] refreshes the credentials of subscriptions;
    - the control plane: [internal/control] authenticates its callers and locks out peers that fail
      too often, commits a change of the configuration together with a
      record of it, then publishes prices, credentials and configuration from the tables, and
      makes up for what a failure or a restart left undone; it obtains the credentials of
      subscriptions through stages, without a lock while the provider is asked;
    - restarts: the ledger, the registry's health state, the statistics, the quota states and
      the request rates are saved as checkpoints and restored into whatever configuration is
      loaded then.

    * Files

    Shared: [Prelude] (64-bit integers, results, maps, instants, tactics, the state monad of the
    code that works on a database) and [GoStrings] (the functions of [strings], [strconv],
    [net/http] and [time] the code calls).

    Contracts and judgement ([internal/execution], [internal/protocol], [internal/health]):
    - [Execution]: operations, route modes and requirements, dispatch states, error evidence and
      its validation ([contracts.go], [validation.go], [websocket.go], [protocol.go]);
    - [Judge], [JudgeProps]: [JudgeExecution] of [execution_judge.go] with the classification,
      the rate-limit headers of [ratelimit.go] and the custom rules of [error_rules.go];
    - [HealthStats]: the rolling statistics of [stats.go] and their checkpoint;
    - [Mutations]: [Do] and [DoMany] of [mutation.go] as threads that lock stripes.

    Scheduling ([internal/state], [internal/scheduler]):
    - [Config]: the data of the snapshot and the methods of a resolved target ([snapshot.go],
      [channel.go], [connection.go]);
    - [Credential]: the entries, references, weights and model cooldowns ([registry.go],
      [runtime_view.go], [weight.go], [model_cooldown.go]);
    - [Ledger]: [SchedulingState] of [scheduling.go] and
      [model_rotation.go] as the record [SchedulingLedger] with one function per method; the
      step relation [ledger_step] and the invariant [ledger_ok];
    - [Fair], [FairShare]: [selectCredential] of [fair.go], stage by stage, its specification,
      and the service it gives over many selections;
    - [Checkpoint]: [CaptureCheckpoint] and [RestoreCheckpoint] of
      [scheduling_checkpoint.go];
    - [Registry]: every method of [CredentialRegistry], mutating ones first;
      [RegistryInvariant], [RegistryReach], [RegistryGroups], [RegistrySafety]: the invariant,
      operation by operation, and the transition system of all methods; [RegistryProps],
      [RegistryHealth]: what the methods achieve;
    - [RouteIndex], [RouteProps]: the routing part of [Compile] of [snapshot.go], and what the
      compiled indexes contain;
    - [Routing], [RoutingProps]: [evaluateTargets] of [inspect.go] and the targets the
      scheduler keeps of it ([scheduler.go]);
    - [Iterator], [IteratorProps]: [Iterator] of [scheduler.go].  The
      registry is used through the class [CredentialSource], as the Go code uses an interface;
      the properties are proved against [CredentialSourceLaws], which the registry satisfies;
    - [Inspect], [InspectProps]: the inspection report of [inspect.go] and its agreement with
      the iterator.

    Failover ([internal/gateway]):
    - [Upstream]: the result of an attempt, its contract check, its evidence and judgement, and
      the reasons shown to clients ([execution_boundary.go], [stream_observation.go],
      [forward.go], [reason.go]);
    - [Effects]: applying a decision to the credentials ([handler.go]), and whom it reaches;
    - [Attempts]: the loop [executeAttempts] of [handler.go], one iteration being the function
      [turn] of an environment [Turn]; [AttemptsStep]: its invariant, how an
      iteration keeps it, and what a request can rely on;
    - [SseEvents]: the events of a stream that arrives in pieces, and the rewriting of an event
      ([stream_observation.go], [stream_rewrite.go]); [StreamObserver]: the observer of the
      forwarder and what it concludes of a stream.

    Parameter overrides ([internal/parameteroverride]):
    - [JsonText]: the syntax of JSON documents with their blanks, its parser, what a document says
      at a path, and the encoder;
    - [Override]: the compilation of the rules ([rules.go]) and the editor of a body ([request.go]);
      [OverrideNodes]: the invariant of the editor's nodes and what a scan finds; [OverrideProps]:
      the rules on the meaning of documents, and that the editor implements them.

    Charging ([internal/usage], [internal/pricing], [internal/usagecost], parts of
    [internal/gateway] and [internal/requestlog]):
    - [Usage]: checked token arithmetic, diagnostics, the accumulator;
    - [Money]: nano-USD amounts and price multipliers, with their decimal texts;
    - [PriceTable]: rules, their validation, lookup;
    - [Quote], [QuoteProps]: pricing a usage result, receipts and their validation;
    - [Observation]: what the gateway binds and what the request log accepts.

    Limits and rates ([internal/accessquota], [internal/ratelimit], [internal/affinity],
    [internal/rpm]):
    - [AccessQuota], [AccessQuotaInv], [AccessQuotaProps]: the quota runtime, its invariant,
      decisions and completions; [QuotaCheckpoint]: restart from persisted states, the
      flush loop of [worker.go], the writer of [access_quota_checkpoint.go] and the rules' tables of
      [access_key_cost_limits.go] interleaved with admissions, completions and publications;
    - [RateLimit]: the sliding window and the counters;
    - [Affinity]: the bounded cache and the derivation of its keys;
    - [RpmStore], [RpmPersist]: the request rates of [store.go], and the checkpoint
      worker of [rpm_checkpoint.go] interleaved with requests and failing writes.

    Redaction ([internal/requestredact], [internal/platform/encryption], [internal/gateway]):
    - [RedactToken], [RedactTokenSpec]: tokens and their encoding, their
      candidates in a text and the restoring of a text ([redaction.go]); [RedactRestore]: the
      restoring of a text as a whole;
    - [RedactText], [RedactTextProps]: the rewriting of a text by the rules ([redact.go]);
    - [RedactStream], [RedactStreamSpec]: the restoring of a text that
      arrives in pieces ([redaction_restore_token_stream.go]) and its agreement with the whole.

    Resources and credentials of subscriptions:
    - [Bindings], [BindingsProps], [BindingsOwner]: [response_bindings.go], the table behind it
      ([internal/resourcebinding/store.go]), the gateway's use of both ([native_resources.go]) and
      the restoring of a checkpoint ([internal/app/runtime_checkpoint.go]);
    - [Refresh]: [credential_manager.go] with the rows and the entries of the loader;
      [RefreshProps]: how often a secret is sent; [RefreshRuntime]: what a refresh leaves behind.

    The control plane ([internal/control], [internal/state/manager.go]):
    - [Idempotency]: [idempotency_operation.go], [operation_recovery.go] and
      [idempotency_digest.go], with its identifiers and digests; [IdempotencyProps]: the
      table of operations; [IdempotencyApplied]: what the stages of an operation achieve;
    - [ControlAuth]: the authentication of [auth.go] and the lockout of [auth_limiter.go];
    - [Threads]: programs that run beside each other on a database, and the logic of protocols for
      them; [StageRows], [Stages], [StageConnect]: the handlers of [credential_stages.go],
      [discover_subscription.go], [credential_connections.go] and [oauth_callback.go] as such
      programs; [StageProtocol]: the protocol of a stage and that every handler follows it;
      [StageProps]: what follows for the whole system.

    The server:
    - [HttpRoute], [HttpRouteProps]: the validation of route modules, namespaces, chains and
      unknown paths ([registry.go] of [internal/platform/httproute]); [HttpMethod]:
      binding, the guard of static paths and unknown methods;
    - [Lifecycle]: the coordinator of [internal/httplifecycle];
    - [Release]: the versions and the selection of [internal/releasecheck].

    * Conventions

    A method that holds its lock for its whole duration is one function from state to state;
    concurrency is then the interleaving of such steps, and the step relations ([ledger_step],
    [registry_step], [ck_step], [cache_step], [rpm_step], [mutation_step], [resource_step],
    [refresh_step], [lifecycle_step], [control_step], [stage_step]) quantify over every
    interleaving.  The failover loop reads what other requests do from its environment: each
    [Turn] carries their effect on the credentials before the selection, before the credential is
    read and while the upstream works, and the theorems hold for every effect that keeps the
    registry's invariant.  The refresh of a credential and an operation of the control plane are
    state-passing computations over the database and the registry: every query takes the next of a
    list of outcomes, one of which is to be committed although it fails; a process that dies in the middle leaves what a run leaves
    whose remaining queries all fail.  The handlers of the stages hold no lock: they are trees of
    actions ([prog]), each of which may be followed by actions of any other handler; a transaction
    is one action and is atomic, and the identifiers drawn at random are distinct.
    A Go error is a constructor of the component's error type in a [result]; its text is not
    kept.  A nil dereference or an index out of range is an error value of its own, so that
    its absence is a theorem.  Readings of the clock are arguments.  A Go map is a [gmap];
    where the code iterates over one, the order is either irrelevant to the result by proof, an
    argument the theorems quantify over, or the result is sorted first, as in the code.  Pointers
    to entries that are assigned through are written back under their key.

    * What the theorems show

    - Failover: a request is always answered, within its limits on attempts; it is sent again
      only when that is safe; the answer is that of an attempt or names a refusal that happened.  [Next] selects only
      what is offered, untried, permitted and available, never repeats a credential, respects
      priorities and route modes, and gives up only when nothing usable is left.
    - Judgement: every decision is valid, cooldowns lie in the future, blame falls on what the
      evidence names; effects reach only the credential they belong to, and consecutive failures
      blacklist at the threshold.  Changes of a credential are serialised without deadlock.
    - Routing: the compiled indexes hold exactly the declared routes, once and in order; a compiled
      snapshot never makes the scheduler panic or meet an inconsistency; a selection is among what
      the inspection report offers, and there is one when the report offers anything and nothing
      else restricts the request.
    - Fairness: selections share traffic in proportion to the weights within one allocation,
      newcomers start level, nobody is chosen for too long in a row, the order of the
      candidates is irrelevant, the two-word progress arithmetic is exact.
    - Consistency: in every reachable state of the ledger, of the registry, of the quota
      runtime, of the affinity cache and of the counters the redundant representations agree
      and every stored value passes its own validation; no nil entry is ever met.
    - Persistence: checkpoints of the ledger, of the health state, of the statistics, of the
      quotas and of the request rates restore or keep what was saved, and restoring arbitrary data
      keeps the invariants.
    - Overrides: an edited body is a JSON document that says what the rules applied to the original
      say; the model, the streaming and storing flags and all fields no rule names say what they said.
    - Streams: however a stream is cut, the observers see its events once and in order and the
      bytes pass unchanged, and what the gateway concludes of a stream is what its events say; a rewritten event differs in its payload only, where its lines end alike.
    - Charging: each kind of token is charged at the price of its tier, rounded to the nearest
      nano-dollar, and the receipt is their sum; receipts revalidate without the table, printed amounts parse back, and every bound observation is storable.
    - Redaction: a redacted text restores to the text, whole or in pieces cut anywhere, when the
      text held no token before and stays within 32 MiB, and nothing that a rule matches leaves in
      the clear.  In one case the stream fails on a text the whole restores: a length field that
      claims more than the valid token after it.
    - Bindings: the index is bounded and never panics; while the table answers, a recorded
      resource keeps its owner, also across restarts that restore a checkpoint.
    - Refreshing: a secret of a subscription is sent once unless the provider said that it was
      not used; a refresh ends with the new secret stored and served, with the credential out of
      service, or, after an answer that allows another try, with the credential as it was and
      cooling down, whatever queries fail.
    - Control: a mutation is committed once per idempotency key, its answers agree, no operation
      overtakes an unfinished one, and a success means that what is in force is what was committed.
    - Access: the administration API admits exactly the requests whose credential grants the route,
      and the lockout decides as the peer's own history says.
    - Stages: whatever interleaves or fails, an authorisation code is exchanged at most once, only the
      latest secret is refreshed and nothing is sent after an end; ended stages hold no secret, and
      connecting stages leaves exactly the promised credentials.
    - The server: every route of a protected module authenticates, namespaces have one owner, the
      methods of a 405 are exact, and a shutdown refuses, cancels and drains.
    - Limits: decisions of the windows, of the quotas and of the counters are exact, also when
      limits change, and the announced waiting times suffice; quota charges reach the table of
      states for every rule that still exists, whatever publications, edits of rules and failing
      writes come between; request counts are in the table or in memory while there is room.

    * Bounds and fuel

    Unsigned and signed 64-bit arithmetic wraps ([u64], [i64]) or reports its carry
    ([add64]).  Theorems about long runs assume room explicitly: the selections of a run fit
    in the remaining sequence numbers and progress, the cache's counter is below [2^64], versions of
    secrets stay below [2^64 - 1].  Some
    loops carry fuel: [formatFuel] gets one more than the binary logarithm of the number,
    [bsearch] one more than the length of the list, [evict] the length of the list;
    [formatNat_fuel], [bsearch_bracket] and [evict_take] show that this is enough.  The loops over
    a text get one more than its length ([restoreLoop], [tokenSpansLoop]), twice its length and one
    ([pushStringLoop]) or the length of the part they span ([spanBase64]); [searchLoop] gets one
    more than the number of spans, [pushLoop] one more than the bytes pending, the parser and the
    scan of a document ([parseValue], [eachLoop]) one more than the length of the text, [expireLoop] and [evictLoop] the number of bindings and one
    more.  The theorems about them conclude that a result is returned, never only that it is
    right.  The failover
    loop consumes a list of [Turn]s; [request_always_answered] shows that two per captured
    credential and one more are enough.

    * Parameters

    The keyed digest of the encryption service is a parameter of the key derivation of
    [Affinity]; the isolation theorem assumes only that it separates the two materials at hand.
    The class [GoText] holds the Unicode lower-casing and the time layouts of the Go library the
    judgement uses; its theorems assume nothing about them.  What the channel registry resolves a
    group to, and the group's resolved settings, are fields of [GroupConfig]; the theorems about
    compiled snapshots assume that resolved modes are valid and that a channel lists each client
    protocol once ([channel_ok]).  The cipher of the tokens ([AESSIV]), regular expressions
    ([Regexp]), the URL parser, the digest of resource identifiers, the encryption service and the
    decoding of proxies ([SubscriptionPlatform]) and the patterns the HTTP engine accepts
    ([ginAccepts]), the JSON canonicalisation and the hash of the digests ([DigestPlatform]) and
    what other parts of the control plane compute of the tables ([ControlPlane]) and the services
    behind the stages ([StagePlatform]), the scanner of JSON values, the codec of JSON strings and the
    parsing of floats ([JsonScanner], [StringCodec], [FloatText]), the digests, keys and address
    prefixes behind the authentication ([ControlServer]) and the observers of a stream are classes or arguments; the theorems name what they
    assume of them, and each witness instantiates them.

    * Not modelled

    JSON encodings and decodings (checkpoints, receipts, prices, custom rules, provider
    payloads) other than those of the parameter overrides, and therefore the walk of the redaction
    over documents and event streams; the
    resolution of settings and channels and the remaining parts of [Compile] (access keys,
    automatic models, proxies, audits); preparing and forwarding requests, telemetry and the bytes
    written to clients; the classifiers of the dialects; the WebSocket turn and
    the live and transparent handlers of the gateway, which are I/O around the modelled decisions;
    the dispatch of the HTTP engine; and the I/O layers: execution back ends, dialects, the rest of
    the administration API, storage, catalog, provider drivers, front end. *)
From stdpp Require Export base gmap strings list sorting fin_maps.
From Stdlib Require Export ZArith Lia.

#[export] Set Default Goal Selector "!".

(** * Machine integers

    Go's [uint], [uint64], [int] and [int64] are 64 bits wide on every platform the
    program is built for.  A value is a [Z]; arithmetic that can leave the range is
    written with an explicit wrap. *)

Declare Scope go_scope.
Delimit Scope go_scope with go.

Definition two64 : Z := 18446744073709551616.
Definition maxUint64 : Z := 18446744073709551615.
Definition maxInt64 : Z := 9223372036854775807.
Definition minInt64 : Z := -9223372036854775808.

Definition u64 (z : Z) : Z := z `mod` two64.
Definition i64 (z : Z) : Z := (z + 9223372036854775808) `mod` two64 - 9223372036854775808.

Definition is_u64 (z : Z) : Prop := (0 <= z <= maxUint64)%Z.
Definition is_i64 (z : Z) : Prop := (minInt64 <= z <= maxInt64)%Z.

Notation "x +u y" := (u64 (x + y)%Z) (at level 50, left associativity) : go_scope.
Notation "x +i y" := (i64 (x + y)%Z) (at level 50, left associativity) : go_scope.

(** [bits.Add64 x y carry] of [math/bits]: the sum modulo [2^64] and the carry out. *)
Definition add64 (x y carry : Z) : Z * Z :=
  let s := (x + y + carry)%Z in (u64 s, (s / two64)%Z).

(** The unsigned quotient of [bits.Div64 hi lo y], defined for [hi < y]. *)
Definition div64 (hi lo y : Z) : Z := ((hi * two64 + lo) / y)%Z.

Create HintDb gohints.
Create Rewrite HintDb gohints.

Ltac unfold_ints :=
  unfold is_u64, is_i64, u64, i64, add64, two64, maxUint64, maxInt64, minInt64 in *.

(** [zb] turns the boolean integer comparisons in the context into propositions. *)
Ltac zb :=
  repeat match goal with
  | H : (_ =? _)%Z = true |- _ => apply Z.eqb_eq in H
  | H : (_ =? _)%Z = false |- _ => apply Z.eqb_neq in H
  | H : (_ <? _)%Z = true |- _ => apply Z.ltb_lt in H
  | H : (_ <? _)%Z = false |- _ => apply Z.ltb_ge in H
  | H : (_ <=? _)%Z = true |- _ => apply Z.leb_le in H
  | H : (_ <=? _)%Z = false |- _ => apply Z.leb_gt in H
  | H : (_ && _) = true |- _ => apply andb_true_iff in H as [? ?]
  | H : (_ || _) = false |- _ => apply orb_false_iff in H as [? ?]
  | H : negb _ = true |- _ => apply negb_true_iff in H
  | H : negb _ = false |- _ => apply negb_false_iff in H
  end.

(** [case_if] splits on the first conditional of the goal and simplifies its test. *)
Ltac case_if :=
  match goal with
  | |- context [if ?b then _ else _] =>
      match type of b with
      | bool => let E := fresh "E" in destruct b eqn:E; zb
      end
  end.

(** [case_if_in H] does the same for a hypothesis. *)
Ltac case_if_in H :=
  match type of H with
  | context [if ?b then _ else _] =>
      match type of b with
      | bool => let E := fresh "E" in destruct b eqn:E; zb
      end
  end.

(** * Errors

    A Go function that returns an [error] returns a [result]: the error is a value of
    the component's own error type. *)

Inductive result (E A : Type) : Type :=
| Ok (a : A)
| Err (e : E).
Arguments Ok {E A} a.
Arguments Err {E A} e.

Definition is_ok {E A} (r : result E A) : bool :=
  match r with Ok _ => true | Err _ => false end.

(** Sequencing of the early return [if err != nil { return err }]. *)
Notation "'try!' x := c 'in' k" :=
  (match c with Ok x => k | Err e => Err e end)
  (at level 10, x pattern, c at level 100, k at level 200) : go_scope.

(** * Go maps

    A Go map is a [gmap]; reading an absent key gives the zero value of the type. *)

Definition mget {K A} `{Countable K} (zero : A) (m : gmap K A) (k : K) : A :=
  default zero (m !! k).

Definition mhas {K A} `{Countable K} (m : gmap K A) (k : K) : bool :=
  bool_decide (is_Some (m !! k)).

(** The entries of a map in the order of iteration.  Go leaves that order unspecified:
    [map_to_list] is one such order, and the theorems about ordered results are stated
    either after the sort the code applies or for every permutation. *)
Definition mentries {K A} `{Countable K} (m : gmap K A) : list (K * A) := map_to_list m.

Definition opt_eqb {A} `{EqDecision A} (x y : option A) : bool := bool_decide (x = y).

Definition isSome {A} (o : option A) : bool := match o with Some _ => true | None => false end.
Definition isNil {A} (o : option A) : bool := match o with Some _ => false | None => true end.

(** * Instants and durations

    A [time.Time] is the number of nanoseconds since Go's zero instant (January 1 of
    year 1, UTC), so [IsZero] is [= 0], [After] is [>], [Before] is [<] and [Equal] is
    [=].  A [time.Duration] is a number of nanoseconds. *)

Definition isZeroTime (t : Z) : bool := (t =? 0)%Z.
Definition nanosecond : Z := 1.
Definition millisecond : Z := 1000000.
Definition second : Z := 1000000000.
Definition minute : Z := 60000000000.
Definition unixEpoch : Z := 62135596800000000000.

(** [Time.Sub] saturates at the bounds of [time.Duration]. *)
Definition timeSub (a b : Z) : Z := Z.max minInt64 (Z.min maxInt64 (a - b)).
Definition unixSec (t : Z) : Z := ((t - unixEpoch) / second)%Z.
Definition unixMilli (t : Z) : Z := ((t - unixEpoch) / millisecond)%Z.

(** * Lists *)

Lemma filter_ext_in {A} (P1 P2 : A -> Prop) `{!forall x, Decision (P1 x)} `{!forall x, Decision (P2 x)} (l : list A) :
  (forall x, x ∈ l -> P1 x <-> P2 x) -> filter P1 l = filter P2 l.
Proof.
  induction l as [|x l IH]; intros Hl; [done|]. rewrite !filter_cons.
  rewrite IH by (intros; apply Hl; by constructor).
  specialize (Hl x ltac:(constructor)).
  destruct (decide (P1 x)), (decide (P2 x)); tauto || done.
Qed.

Lemma NoDup_fmap_filter {A B} (f : A -> B) (P : A -> Prop) `{!forall x, Decision (P x)} (l : list A) :
  NoDup (f <$> l) -> NoDup (f <$> filter P l).
Proof.
  induction l as [|x l IH]; [done|]. rewrite fmap_cons, NoDup_cons, filter_cons. intros [Hx Hl].
  destruct (decide (P x)); [|by apply IH]. rewrite fmap_cons. constructor; [|by apply IH].
  rewrite list_elem_of_fmap in *. intros (y & Ey & [_ Hy]%list_elem_of_filter). apply Hx. eauto.
Qed.

Lemma filter_all_in {A} (P : A -> Prop) `{!forall x, Decision (P x)} (l : list A) :
  (forall x, x ∈ l -> P x) -> filter P l = l.
Proof.
  induction l as [|x l IH]; intros Hl; [done|]. rewrite filter_cons, decide_True by (apply Hl; constructor).
  f_equal. apply IH. intros; apply Hl; by constructor.
Qed.

(** What every turn of a loop keeps holds at its end. *)
Lemma fold_left_inv {A B} (P : A -> Prop) (f : A -> B -> A) (l : list B) a :
  P a -> (forall a b, b ∈ l -> P a -> P (f a b)) -> P (fold_left f l a).
Proof.
  revert a. induction l as [|b l IH]; intros a Ha Hf; [done|]. cbn. apply IH.
  - apply Hf; [constructor|done].
  - intros a' b' Hb. apply Hf. by constructor.
Qed.

(** * A state monad

    For the code that works on a database and on shared objects: the notation, and
    preservation of predicates on the state by its computations. *)

Definition stateM (S A : Type) : Type := S -> A * S.
Definition ret {S A} (a : A) : stateM S A := fun s => (a, s).
Definition bindIO {S A B} (m : stateM S A) (k : A -> stateM S B) : stateM S B := fun s => let '(a, s1) := m s in k a s1.

Notation "'do!' x := m 'in' k" := (bindIO m (fun x => k))
  (at level 10, x pattern, m at level 100, k at level 200) : go_scope.

Local Open Scope go_scope.

Section Predicates.
Context {S : Type}.
Implicit Types I J K : S -> Prop.

(** The computation keeps the predicate. *)
Definition pres {A} I (m : stateM S A) : Prop := forall s, I s -> I (m s).2.

(** From one predicate to another. *)
Definition leads {A} I J (m : stateM S A) : Prop := forall s, I s -> J (m s).2.

Lemma leads_bind {A B} I K J (m : stateM S A) (k : A -> stateM S B) :
  leads I K m -> (forall a, leads K J (k a)) -> leads I J (do! x := m in k x).
Proof. intros Hm Hk s Hs. specialize (Hm s Hs). unfold bindIO. destruct (m s) as [a s1]. by apply Hk. Qed.

Lemma leads_pres {A} I J I' (m : stateM S A) :
  pres I' m -> (forall s, I s -> I' s) -> (forall s, I' s -> J s) -> leads I J m.
Proof. intros Hm H1 H2 s Hs. apply H2, Hm, H1, Hs. Qed.

Lemma pres_bind {A B} I (m : stateM S A) (k : A -> stateM S B) : pres I m -> (forall a, pres I (k a)) -> pres I (do! x := m in k x).
Proof. intros Hm Hk s Hs. specialize (Hm s Hs). unfold bindIO. destruct (m s) as [a s1]. by apply Hk. Qed.

Lemma pres_ret {A} I (a : A) : pres I (ret a).
Proof. by intros s Hs. Qed.

Lemma pres_if {A} I (b : bool) (m n : stateM S A) : pres I m -> pres I n -> pres I (if b then m else n).
Proof. by destruct b. Qed.

End Predicates.

Create HintDb refresh.
#[export] Hint Resolve pres_bind pres_ret pres_if : refresh.
#[export] Hint Extern 5 (pres _ (fun _ => _)) => progress cbv beta : refresh.
