(* ===== verification/GoStrings.v ===== *)
(** The operations on Go strings the modelled code uses ([strings], [strconv],
    [unicode]).  A Go string is a sequence of bytes and a Rocq [string] is one too;
    the definitions work on [list ascii], the bytes in order. *)
From Stdlib Require Import Ascii.
From S2P Require Import Prelude.

Local Open Scope Z_scope.

Definition byteZ (c : ascii) : Z := Z.of_N (N_of_ascii c).
Definition bytes_of (s : string) : list ascii := String.list_ascii_of_string s.
Definition of_bytes (l : list ascii) : string := String.string_of_list_ascii l.

Lemma bytes_of_of_bytes l : bytes_of (of_bytes l) = l.
Proof. apply String.list_ascii_of_string_of_list_ascii. Qed.

Lemma of_bytes_bytes_of s : of_bytes (bytes_of s) = s.
Proof. apply String.string_of_list_ascii_of_string. Qed.

Lemma of_bytes_inj l l' : of_bytes l = of_bytes l' -> l = l'.
Proof. intros H. by rewrite <- (bytes_of_of_bytes l), H, bytes_of_of_bytes. Qed.

Lemma bytes_of_inj s s' : bytes_of s = bytes_of s' -> s = s'.
Proof. intros H. by rewrite <- (of_bytes_bytes_of s), H, of_bytes_bytes_of. Qed.

Lemma byteZ_range c : 0 <= byteZ c < 256.
Proof.
  unfold byteZ. split; [lia|].
  pose proof (N_ascii_bounded c). lia.
Qed.

(** [len(s)] in bytes. *)
Definition slen (s : string) : Z := Z.of_nat (length (bytes_of s)).

(** ** Whitespace: [strings.TrimSpace]

    [unicode.IsSpace] holds of six ASCII bytes, of U+0085 and U+00A0 (two UTF-8 bytes)
    and of the U+1680, U+2000-200A, U+2028, U+2029, U+202F, U+205F and U+3000 (three). *)
Definition space1 (c : ascii) : bool :=
  let b := byteZ c in (9 <=? b) && (b <=? 13) || (b =? 32).
Definition space2 (a b : ascii) : bool :=
  (byteZ a =? 194) && ((byteZ b =? 133) || (byteZ b =? 160)).
Definition space3 (a b c : ascii) : bool :=
  let x := byteZ a in let y := byteZ b in let z := byteZ c in
  (x =? 225) && (y =? 154) && (z =? 128)
  || (x =? 226) && (y =? 128) &&
     ((128 <=? z) && (z <=? 138) || (z =? 168) || (z =? 169) || (z =? 175))
  || (x =? 226) && (y =? 129) && (z =? 159)
  || (x =? 227) && (y =? 128) && (z =? 128).

Fixpoint trimLeftSpace (l : list ascii) : list ascii :=
  match l with
  | a :: l1 =>
      if space1 a then trimLeftSpace l1
      else match l1 with
      | b :: l2 =>
          if space2 a b then trimLeftSpace l2
          else match l2 with
          | c :: l3 => if space3 a b c then trimLeftSpace l3 else l
          | [] => l
          end
      | [] => l
      end
  | [] => []
  end.

(** The same from the right end, on the reversed bytes. *)
Fixpoint trimSpaceRev (l : list ascii) : list ascii :=
  match l with
  | a :: l1 =>
      if space1 a then trimSpaceRev l1
      else match l1 with
      | b :: l2 =>
          if space2 b a then trimSpaceRev l2
          else match l2 with
          | c :: l3 => if space3 c b a then trimSpaceRev l3 else l
          | [] => l
          end
      | [] => l
      end
  | [] => []
  end.

Definition TrimSpace (s : string) : string :=
  of_bytes (reverse (trimSpaceRev (reverse (trimLeftSpace (bytes_of s))))).

(** ** Decimal digits *)
Definition isDigit (c : ascii) : bool := (48 <=? byteZ c) && (byteZ c <=? 57).
Definition digitVal (c : ascii) : Z := byteZ c - 48.
Definition digitChar (d : Z) : ascii := ascii_of_N (Z.to_N (48 + d)).

(** The number a digit string denotes, most significant digit first. *)
Definition digitsVal (l : list ascii) : Z :=
  fold_left (fun acc c => 10 * acc + digitVal c) l 0.

(** [strconv.FormatInt n 10] for [n >= 0]: the fuel bounds the number of digits. *)
Fixpoint formatFuel (fuel : nat) (n : Z) : list ascii :=
  match fuel with
  | O => []
  | S f => if n <? 10 then [digitChar n]
           else formatFuel f (n / 10) ++ [digitChar (n `mod` 10)]
  end.
Definition formatNat (n : Z) : list ascii := formatFuel (S (Z.to_nat (Z.log2 n))) n.

(** [strings.Repeat("0", n)]. *)
Definition zeros (n : nat) : list ascii := replicate n "0"%char.

(** [strings.TrimRight(s, "0")] and [strings.TrimLeft(s, "0")]. *)
Fixpoint trimLeftZeros (l : list ascii) : list ascii :=
  match l with
  | c :: l' => if bool_decide (c = "0"%char) then trimLeftZeros l' else l
  | [] => []
  end.
Definition trimRightZeros (l : list ascii) : list ascii := reverse (trimLeftZeros (reverse l)).

(** [strings.Cut(s, sep)] for a one-byte separator: before, after, found. *)
Fixpoint cutAt (sep : ascii) (l : list ascii) : list ascii * list ascii * bool :=
  match l with
  | [] => ([], [], false)
  | c :: l' => if bool_decide (c = sep) then ([], l', true)
               else let '(before, after, found) := cutAt sep l' in (c :: before, after, found)
  end.

Definition containsByte (sep : ascii) (l : list ascii) : bool := bool_decide (sep ∈ l).

(** ** Lemmas *)

Lemma digitChar_byte d : 0 <= d <= 9 -> byteZ (digitChar d) = 48 + d.
Proof.
  intros Hd. unfold byteZ, digitChar.
  rewrite N_ascii_embedding; lia.
Qed.

Lemma digitChar_digit d : 0 <= d <= 9 -> isDigit (digitChar d) = true.
Proof.
  intros Hd. unfold isDigit. rewrite digitChar_byte by done.
  apply andb_true_intro; split; apply Z.leb_le; lia.
Qed.

Lemma digitVal_digitChar d : 0 <= d <= 9 -> digitVal (digitChar d) = d.
Proof. intros Hd. unfold digitVal. rewrite digitChar_byte by done. lia. Qed.

Lemma digitVal_range c : isDigit c = true -> 0 <= digitVal c <= 9.
Proof. unfold isDigit, digitVal. intros H. zb. lia. Qed.

Lemma digitsVal_fold l acc :
  fold_left (fun acc c => 10 * acc + digitVal c) l acc
  = acc * 10 ^ Z.of_nat (length l) + digitsVal l.
Proof.
  unfold digitsVal. revert acc. induction l as [|c l IH]; intros acc; cbn [fold_left length].
  { rewrite Z.pow_0_r. lia. }
  rewrite IH, (IH (10 * 0 + digitVal c)).
  rewrite Nat2Z.inj_succ, Z.pow_succ_r by lia. lia.
Qed.

Lemma digitsVal_app l l' :
  digitsVal (l ++ l') = digitsVal l * 10 ^ Z.of_nat (length l') + digitsVal l'.
Proof. unfold digitsVal. rewrite fold_left_app. by rewrite digitsVal_fold. Qed.

Lemma digitsVal_zeros n : digitsVal (zeros n) = 0.
Proof.
  induction n as [|n IH]; [done|]. unfold zeros in *. cbn [replicate].
  change ("0"%char :: replicate n "0"%char) with (["0"%char] ++ replicate n "0"%char).
  rewrite digitsVal_app, IH. by rewrite Z.mul_comm, Z.mul_0_r.
Qed.

Lemma digitsVal_nonneg l : forallb isDigit l = true -> 0 <= digitsVal l < 10 ^ Z.of_nat (length l).
Proof.
  induction l as [|c l IH] using rev_ind; intros H; [cbn; lia|].
  rewrite forallb_app in H. cbn [forallb] in H. zb.
  rewrite digitsVal_app, length_app. cbn [length].
  rewrite Nat2Z.inj_add, Z.pow_add_r by lia.
  change (digitsVal [c]) with (10 * 0 + digitVal c).
  pose proof (digitVal_range c ltac:(done)). specialize (IH ltac:(done)).
  change (Z.of_nat 1) with 1. rewrite Z.pow_1_r. lia.
Qed.

Lemma formatFuel_spec fuel n :
  0 <= n < 10 ^ Z.of_nat fuel ->
  forallb isDigit (formatFuel fuel n) = true /\ digitsVal (formatFuel fuel n) = n.
Proof.
  revert n. induction fuel as [|f IH]; intros n Hn.
  { cbn in Hn. assert (n = 0) as -> by lia. done. }
  cbn [formatFuel]. destruct (n <? 10) eqn:E; zb.
  - cbn [forallb]. rewrite digitChar_digit by lia. split; [done|].
    change (digitsVal [digitChar n]) with (10 * 0 + digitVal (digitChar n)).
    rewrite digitVal_digitChar by lia. lia.
  - assert (0 <= n `mod` 10 <= 9) as Hm by (pose proof (Z.mod_pos_bound n 10); lia).
    destruct (IH (n / 10)) as [Hd Hv].
    { split; [apply Z.div_pos; lia|]. apply Z.div_lt_upper_bound; [lia|].
      rewrite Nat2Z.inj_succ, Z.pow_succ_r in Hn by lia. lia. }
    rewrite forallb_app, Hd. cbn [forallb]. rewrite digitChar_digit by lia. split; [done|].
    rewrite digitsVal_app, Hv. cbn [length]. change (Z.of_nat 1) with 1.
    change (digitsVal [digitChar (n `mod` 10)]) with (10 * 0 + digitVal (digitChar (n `mod` 10))).
    rewrite digitVal_digitChar by lia. rewrite Z.pow_1_r.
    pose proof (Z.div_mod n 10). lia.
Qed.

Lemma formatNat_fuel n : 0 <= n -> n < 10 ^ Z.of_nat (S (Z.to_nat (Z.log2 n))).
Proof.
  intros Hn. rewrite Nat2Z.inj_succ, Z2Nat.id by apply Z.log2_nonneg.
  destruct (decide (n = 0)) as [->|Hz]; [done|].
  pose proof (Z.log2_spec n ltac:(lia)) as [_ Hlt].
  eapply Z.lt_le_trans; [exact Hlt|]. apply Z.pow_le_mono_l.
  pose proof (Z.log2_nonneg n). lia.
Qed.

Lemma formatNat_digits n : 0 <= n -> forallb isDigit (formatNat n) = true.
Proof. intros Hn. apply formatFuel_spec. split; [done|by apply formatNat_fuel]. Qed.

Lemma formatNat_val n : 0 <= n -> digitsVal (formatNat n) = n.
Proof. intros Hn. apply formatFuel_spec. split; [done|by apply formatNat_fuel]. Qed.

Lemma formatNat_nonempty n : formatNat n <> [].
Proof.
  unfold formatNat. cbn [formatFuel]. case_if; [done|]. intros H.
  by apply app_eq_nil in H as [_ H].
Qed.

Lemma formatFuel_length fuel n k :
  0 <= n < 10 ^ Z.of_nat k -> (1 <= k)%nat -> (length (formatFuel fuel n) <= k)%nat.
Proof.
  revert n k. induction fuel as [|f IH]; intros n k Hn Hk; cbn [formatFuel]; [cbn; lia|].
  destruct (n <? 10) eqn:E; zb; [done|].
  destruct k as [|[|k]]; [lia| |].
  { change (10 ^ Z.of_nat 1) with 10 in Hn. lia. }
  rewrite length_app. cbn [length].
  assert (length (formatFuel f (n / 10)) <= S k)%nat; [|lia].
  apply IH; [|lia]. split; [apply Z.div_pos; lia|]. apply Z.div_lt_upper_bound; [lia|].
  rewrite Nat2Z.inj_succ, Z.pow_succ_r in Hn by lia. lia.
Qed.

Lemma formatNat_length n k :
  0 <= n < 10 ^ Z.of_nat k -> (1 <= k)%nat -> (length (formatNat n) <= k)%nat.
Proof. apply formatFuel_length. Qed.

Lemma trimLeftZeros_split l :
  exists n, l = zeros n ++ trimLeftZeros l.
Proof.
  induction l as [|c l [n IH]]; [by exists O|]. cbn [trimLeftZeros].
  case_bool_decide as Hc; [|by exists O]. subst. exists (S n).
  unfold zeros in *. cbn [replicate app]. by f_equal.
Qed.

Lemma reverse_zeros n : reverse (zeros n) = zeros n.
Proof. apply reverse_replicate. Qed.

Lemma trimRightZeros_split l :
  exists n, l = trimRightZeros l ++ zeros n.
Proof.
  destruct (trimLeftZeros_split (reverse l)) as [n Hn]. exists n.
  apply (f_equal reverse) in Hn. rewrite reverse_involutive, reverse_app, reverse_zeros in Hn.
  done.
Qed.

(** Dropping the trailing zeros and padding back to the same width restores the text. *)
Lemma trimRightZeros_pad l :
  trimRightZeros l ++ zeros (length l - length (trimRightZeros l)) = l.
Proof.
  destruct (trimRightZeros_split l) as [n Hn].
  assert (n = length l - length (trimRightZeros l))%nat as <-; [|done].
  rewrite Hn at 1. rewrite length_app. unfold zeros. rewrite length_replicate. lia.
Qed.

Lemma trimRightZeros_length l : (length (trimRightZeros l) <= length l)%nat.
Proof.
  destruct (trimRightZeros_split l) as [n Hn]. rewrite Hn at 2. rewrite length_app. lia.
Qed.

Lemma trimLeftZeros_val l : digitsVal (trimLeftZeros l) = digitsVal l.
Proof.
  destruct (trimLeftZeros_split l) as [n Hn]. rewrite Hn at 2.
  rewrite digitsVal_app, digitsVal_zeros. lia.
Qed.

Lemma forallb_sublist {A} (f : A -> bool) l l' :
  forallb f (l ++ l') = true -> forallb f l = true /\ forallb f l' = true.
Proof. rewrite forallb_app. apply andb_true_iff. Qed.

Lemma cutAt_none sep l : sep ∉ l -> cutAt sep l = (l, [], false).
Proof.
  induction l as [|c l IH]; intros H; [done|]. cbn [cutAt].
  rewrite not_elem_of_cons in H. destruct H as [Hc Hl].
  rewrite bool_decide_eq_false_2 by congruence. by rewrite IH.
Qed.

Lemma cutAt_first sep l l' : sep ∉ l -> cutAt sep (l ++ sep :: l') = (l, l', true).
Proof.
  induction l as [|c l IH]; intros H; cbn [cutAt app].
  { by rewrite bool_decide_eq_true_2. }
  rewrite not_elem_of_cons in H. destruct H as [Hc Hl].
  rewrite bool_decide_eq_false_2 by congruence. by rewrite IH.
Qed.


Lemma digits_no_byte c l : forallb isDigit l = true -> isDigit c = false -> c ∉ l.
Proof.
  intros Hl Hc Hin. rewrite forallb_forall in Hl.
  apply list_elem_of_In, Hl in Hin. congruence.
Qed.

(** ** Texts that [TrimSpace] leaves alone *)

Lemma digit_not_space c : isDigit c = true -> space1 c = false.
Proof.
  unfold isDigit, space1. intros H. zb.
  rewrite (proj2 (Z.leb_gt _ 13)) by lia. rewrite (proj2 (Z.eqb_neq _ 32)) by lia.
  by rewrite andb_false_r.
Qed.

Lemma space2_digit a b : isDigit a = true \/ isDigit b = true -> space2 a b = false.
Proof.
  unfold isDigit, space2. intros [H|H]; zb.
  - by rewrite (proj2 (Z.eqb_neq _ _)) by lia.
  - rewrite (proj2 (Z.eqb_neq _ 133)), (proj2 (Z.eqb_neq _ 160)) by lia.
    by rewrite andb_false_r.
Qed.

Lemma space3_digit a b c : isDigit a = true \/ isDigit c = true -> space3 a b c = false.
Proof.
  unfold isDigit, space3. intros [H|H]; zb.
  - rewrite (proj2 (Z.eqb_neq _ 225)), (proj2 (Z.eqb_neq _ 226)), (proj2 (Z.eqb_neq _ 227)) by lia.
    done.
  - rewrite (proj2 (Z.eqb_neq (byteZ c) 128)), (proj2 (Z.eqb_neq (byteZ c) 168)),
      (proj2 (Z.eqb_neq (byteZ c) 169)), (proj2 (Z.eqb_neq (byteZ c) 175)),
      (proj2 (Z.eqb_neq (byteZ c) 159)), (proj2 (Z.leb_gt 128 _)) by lia.
    by rewrite ?andb_false_r.
Qed.

Lemma trimLeftSpace_digit c l : isDigit c = true -> trimLeftSpace (c :: l) = c :: l.
Proof.
  intros Hc. cbn [trimLeftSpace]. rewrite digit_not_space by done.
  destruct l as [|b [|d l]]; [done| |];
    rewrite ?space2_digit, ?space3_digit by auto; done.
Qed.

Lemma trimSpaceRev_digit c l : isDigit c = true -> trimSpaceRev (c :: l) = c :: l.
Proof.
  intros Hc. cbn [trimSpaceRev]. rewrite digit_not_space by done.
  destruct l as [|b [|d l]]; [done| |];
    rewrite ?space2_digit, ?space3_digit by auto; done.
Qed.

(** A text that starts and ends with a digit has no surrounding whitespace. *)
Lemma TrimSpace_digits c l d :
  isDigit c = true -> isDigit d = true -> TrimSpace (of_bytes (c :: l ++ [d])) = of_bytes (c :: l ++ [d]).
Proof.
  intros Hc Hd. unfold TrimSpace. rewrite bytes_of_of_bytes, trimLeftSpace_digit by done.
  f_equal. change (c :: l ++ [d]) with ((c :: l) ++ [d]). rewrite reverse_snoc.
  rewrite trimSpaceRev_digit by done.
  by rewrite reverse_cons, reverse_involutive.
Qed.

Lemma TrimSpace_digit1 c : isDigit c = true -> TrimSpace (of_bytes [c]) = of_bytes [c].
Proof.
  intros Hc. unfold TrimSpace. rewrite bytes_of_of_bytes, trimLeftSpace_digit by done.
  change (reverse [c]) with [c]. by rewrite trimSpaceRev_digit.
Qed.

(** The whole-text form: first and last byte are digits. *)
Lemma TrimSpace_ends l :
  (exists c l', l = c :: l' /\ isDigit c = true) -> (exists d l', l = l' ++ [d] /\ isDigit d = true) ->
  TrimSpace (of_bytes l) = of_bytes l.
Proof.
  intros (c & l1 & -> & Hc) (d & l2 & Hl & Hd).
  destruct l2 as [|x l2]; cbn in Hl; injection Hl as -> ->.
  - by apply TrimSpace_digit1.
  - by apply TrimSpace_digits.
Qed.

(** * Text functions

    More of Go's text functions ([strings], [strconv], [unicode/utf8], [net/http], [time]), used
    by the execution contract and the health judgement.

    Functions that need the Unicode tables or the layouts of the [time] package are fields of
    a class: the developments that use them hold for every such function. *)

(** * Substrings *)

Fixpoint hasPrefixBytes (p l : list ascii) : bool :=
  match p, l with
  | [], _ => true
  | a :: p', b :: l' => bool_decide (a = b) && hasPrefixBytes p' l'
  | _ :: _, [] => false
  end.

Lemma hasPrefixBytes_spec p l : hasPrefixBytes p l = true <-> exists r, l = p ++ r.
Proof.
  revert l. induction p as [|a p IH]; intros l; cbn; [naive_solver|].
  destruct l as [|b l]; [split; [done|intros [r [=]]]|].
  rewrite andb_true_iff, bool_decide_eq_true, IH. split.
  - intros [-> [r ->]]. by exists r.
  - intros [r [= -> ->]]. eauto.
Qed.

Definition HasPrefix (s p : string) : bool := hasPrefixBytes (bytes_of p) (bytes_of s).
Definition HasSuffix (s p : string) : bool := hasPrefixBytes (reverse (bytes_of p)) (reverse (bytes_of s)).

Fixpoint containsBytes (l sub : list ascii) : bool :=
  hasPrefixBytes sub l || match l with [] => false | _ :: l' => containsBytes l' sub end.

Definition Contains (s sub : string) : bool := containsBytes (bytes_of s) (bytes_of sub).

Definition TrimSuffix (s suffix : string) : string :=
  if HasSuffix s suffix then of_bytes (take (length (bytes_of s) - length (bytes_of suffix)) (bytes_of s)) else s.

(** [strings.Join] with a separator. *)
Fixpoint joinWith (sep : string) (l : list string) : string :=
  match l with
  | [] => EmptyString
  | [s] => s
  | s :: l' => String.append s (String.append sep (joinWith sep l'))
  end.

(** * [strconv.ParseInt(s, 10, 64)] *)

Definition parseDigits (l : list ascii) : option Z :=
  if match l with [] => true | _ => negb (forallb isDigit l) end then None else Some (digitsVal l).

Definition inInt64 (z : Z) : bool := (minInt64 <=? z) && (z <=? maxInt64).

Definition ParseInt64 (s : string) : option Z :=
  let value :=
    match bytes_of s with
    | c :: l =>
        if byteZ c =? 45 then Z.opp <$> parseDigits l
        else if byteZ c =? 43 then parseDigits l
        else parseDigits (c :: l)
    | [] => None
    end in
  match value with Some z => if inInt64 z then Some z else None | None => None end.

Lemma ParseInt64_range s z : ParseInt64 s = Some z -> is_i64 z.
Proof.
  unfold ParseInt64, inInt64, is_i64. destruct (match bytes_of s with [] => _ | _ => _ end) as [v|]; [|done].
  case_if; [|done]. intros [= <-]. lia.
Qed.

(** * UTF-8 *)

Definition cont (c : ascii) : bool := (128 <=? byteZ c) && (byteZ c <=? 191).

(** The width of the first rune: an invalid byte is a rune of its own. *)
Definition runeWidth (l : list ascii) : nat :=
  match l with
  | a :: l1 =>
      let x := byteZ a in
      match l1 with
      | b :: l2 =>
          let y := byteZ b in
          if (194 <=? x) && (x <=? 223) && cont b then 2%nat
          else
            match l2 with
            | c :: l3 =>
                if ((x =? 224) && (160 <=? y) && (y <=? 191) || (225 <=? x) && (x <=? 236) && cont b
                    || (x =? 237) && (128 <=? y) && (y <=? 159) || (238 <=? x) && (x <=? 239) && cont b) && cont c
                then 3%nat
                else
                  match l3 with
                  | d :: _ =>
                      if ((x =? 240) && (144 <=? y) && (y <=? 191) || (241 <=? x) && (x <=? 243) && cont b
                          || (x =? 244) && (128 <=? y) && (y <=? 143)) && cont c && cont d
                      then 4%nat else 1%nat
                  | [] => 1%nat
                  end
            | [] => 1%nat
            end
      | [] => 1%nat
      end
  | [] => 0%nat
  end.

(** [utf8.RuneCountInString]: [skip] bytes of the current rune are left. *)
Fixpoint runesFrom (skip : nat) (l : list ascii) : Z :=
  match l with
  | [] => 0
  | _ :: l' => match skip with O => 1 + runesFrom (runeWidth l - 1) l' | S n => runesFrom n l' end
  end.
Definition RuneCountInString (s : string) : Z := runesFrom 0 (bytes_of s).

(** Whether a rune satisfies [unicode.IsControl]: the C0 and C1 controls and DEL.  The byte
    0xC2 only ever starts a rune, so the two-byte controls are found wherever they stand. *)
Fixpoint controlBytes (l : list ascii) : bool :=
  match l with
  | [] => false
  | a :: l' =>
      (byteZ a <=? 31) || (byteZ a =? 127)
      || (byteZ a =? 194) && match l' with b :: _ => (128 <=? byteZ b) && (byteZ b <=? 159) | [] => false end
      || controlBytes l'
  end.
Definition containsControl (s : string) : bool := controlBytes (bytes_of s).

(** * Header names *)

(** The characters [validHTTPToken] refuses besides controls and non-ASCII. *)
Definition separator (c : ascii) : bool :=
  bool_decide (byteZ c ∈ [40; 41; 60; 62; 64; 44; 59; 58; 92; 34; 47; 91; 93; 63; 61; 123; 125; 32; 9]).

Definition validHTTPToken (s : string) : bool :=
  match bytes_of s with
  | [] => false
  | l => forallb (fun c => negb ((byteZ c <=? 31) || (127 <=? byteZ c) || separator c)) l
  end.

Definition lowerByte (c : ascii) : ascii :=
  if (65 <=? byteZ c) && (byteZ c <=? 90) then ascii_of_N (Z.to_N (byteZ c + 32)) else c.
Definition upperByte (c : ascii) : ascii :=
  if (97 <=? byteZ c) && (byteZ c <=? 122) then ascii_of_N (Z.to_N (byteZ c - 32)) else c.

(** [http.CanonicalHeaderKey]: a name that is not a token is left alone. *)
Fixpoint canonicalBytes (upper : bool) (l : list ascii) : list ascii :=
  match l with
  | [] => []
  | c :: l' => (if upper then upperByte c else lowerByte c) :: canonicalBytes (byteZ c =? 45) l'
  end.
Definition CanonicalHeaderKey (s : string) : string :=
  if validHTTPToken s then of_bytes (canonicalBytes true (bytes_of s)) else s.

(** An HTTP header: a map from names to the list of their values. *)
Abbreviation Header := (gmap string (list string)) (only parsing).

(** * Unicode and time layouts *)

Class GoText := {
  ToLower : string -> string;
  EqualFold : string -> string -> bool;
  httpParseTime : string -> option Z;
  parseRFC3339 : string -> option Z;
  parseDuration : string -> option Z
}.

(** The same on ASCII, with no time layouts: enough for concrete examples. *)
Definition asciiText : GoText := {|
  ToLower := fun s => of_bytes (lowerByte <$> bytes_of s);
  EqualFold := fun s t => bool_decide ((lowerByte <$> bytes_of s) = (lowerByte <$> bytes_of t));
  httpParseTime := fun _ => None;
  parseRFC3339 := fun _ => None;
  parseDuration := fun _ => None
|}.

(** ** Strings in byte order *)

Lemma ltb_not_le x y : String.ltb x y = true <-> ~ String.le y x.
Proof.
  unfold String.ltb, String.le, String.leb. rewrite (String.compare_antisym y x).
  destruct (String.compare x y); cbn; naive_solver.
Qed.

Lemma ltb_false_le x y : String.ltb x y = false <-> String.le y x.
Proof.
  unfold String.ltb, String.le, String.leb. rewrite (String.compare_antisym y x).
  destruct (String.compare x y); cbn; naive_solver.
Qed.
