(* ===== verification/Execution.v ===== *)
(** The provider-neutral execution contract ([internal/execution], with the identifiers of
    [internal/protocol]): protocols, operations, route modes, the
    evidence of a failed attempt, the terminal result of an attempt, and their validation.

    Go's string enumerations stay strings.  The [Clone] methods copy values and have no
    counterpart.  A [ValidationError] is its field name and its reason. *)
From S2P Require Import Prelude GoStrings.
From Stdlib Require Import Ascii.

Local Open Scope Z_scope.
Local Open Scope go_scope.

Definition strEq (a b : string) : bool := bool_decide (a = b).
Definition oneOf (s : string) (l : list string) : bool := bool_decide (s ∈ l).

(** * Protocols ([internal/protocol]) *)

Abbreviation Protocol := string (only parsing).
Definition NativeServices : Protocol := "native-services".
Definition TransparentHTTP : Protocol := "transparent-http".
Definition OpenAICompletions : Protocol := "openai-completions".
Definition OpenAIResponses : Protocol := "openai-responses".
Definition OpenAIImages : Protocol := "openai-images".
Definition OpenAIEmbeddings : Protocol := "openai-embeddings".
Definition CodexLive : Protocol := "codex-live".

Definition protocolValid (p : Protocol) : bool :=
  oneOf p
    [OpenAICompletions; OpenAIResponses; OpenAIImages; OpenAIEmbeddings; CodexLive; "rerank"; "decisions"; "anthropic";
     "gemini"; "gemini-embeddings"; "cohere-embeddings"; "audio-speech"; "mistral"; NativeServices; TransparentHTTP]%string.

(** * Operations *)

Abbreviation Operation := string (only parsing).

Definition OperationTransparentRequest : Operation := "transparent_request".
Definition OperationResourceCreate : Operation := "resource_create".
Definition OperationResourceRead : Operation := "resource_read".
Definition OperationResourceDelete : Operation := "resource_delete".
Definition OperationResourceCancel : Operation := "resource_cancel".
Definition OperationChatCompletion : Operation := "chat_completion".
Definition OperationResponsesCreate : Operation := "responses_create".
Definition OperationResponsesRetrieve : Operation := "responses_retrieve".
Definition OperationResponsesDelete : Operation := "responses_delete".
Definition OperationResponsesCancel : Operation := "responses_cancel".
Definition OperationResponsesInputItems : Operation := "responses_input_items".
Definition OperationResponsesCompact : Operation := "responses_compact".
Definition OperationResponsesInputTokens : Operation := "responses_input_tokens".
Definition OperationCountTokens : Operation := "count_tokens".
Definition OperationResponsesPassthrough : Operation := "responses_passthrough".
Definition OperationWebSearch : Operation := "web_search".
Definition OperationImagesGenerate : Operation := "images_generate".
Definition OperationImagesEdit : Operation := "images_edit".
Definition OperationEmbeddingsCreate : Operation := "embeddings_create".
Definition OperationLiveCall : Operation := "live_call".
Definition OperationRerank : Operation := "rerank".
Definition OperationDecisionsCreate : Operation := "decisions_create".
Definition OperationAudioSpeech : Operation := "audio_speech".
Definition OperationMistralOCR : Operation := "mistral_ocr".
Definition OperationMistralFIM : Operation := "mistral_fim".
Definition OperationMistralAudioTranscription : Operation := "mistral_audio_transcription".
Definition OperationMistralAudioSpeech : Operation := "mistral_audio_speech".
Definition OperationMistralModeration : Operation := "mistral_moderation".
Definition OperationMistralChatModeration : Operation := "mistral_chat_moderation".
Definition OperationMistralClassification : Operation := "mistral_classification".
Definition OperationMistralVoices : Operation := "mistral_voices".
Definition OperationMistralRealtimeTranscription : Operation := "mistral_realtime_transcription".
Definition OperationListModels : Operation := "list_models".
Definition OperationProbe : Operation := "probe".

Definition operationValid (o : Operation) : bool :=
  oneOf o
    [OperationTransparentRequest; OperationResourceCreate; OperationResourceRead; OperationResourceDelete;
     OperationResourceCancel; OperationChatCompletion; OperationResponsesCreate; OperationResponsesRetrieve;
     OperationResponsesDelete; OperationResponsesCancel; OperationResponsesInputItems; OperationResponsesCompact;
     OperationResponsesInputTokens; OperationCountTokens; OperationResponsesPassthrough; OperationWebSearch;
     OperationImagesGenerate; OperationImagesEdit; OperationEmbeddingsCreate; OperationLiveCall; OperationRerank;
     OperationDecisionsCreate; OperationAudioSpeech; OperationMistralOCR; OperationMistralFIM;
     OperationMistralAudioTranscription; OperationMistralAudioSpeech; OperationMistralModeration;
     OperationMistralChatModeration; OperationMistralClassification; OperationMistralVoices;
     OperationMistralRealtimeTranscription; OperationListModels; OperationProbe].

Inductive ReplayPolicyKind := ReplayPolicyLegacy | ReplayPolicyRequireRejectedBeforeProcessing.

#[export] Instance replayPolicyKind_eq : EqDecision ReplayPolicyKind.
Proof. solve_decision. Defined.

Definition ReplayPolicy (o : Operation) : ReplayPolicyKind :=
  if oneOf o
       [OperationTransparentRequest; OperationResourceCreate; OperationResourceDelete; OperationResourceCancel;
        OperationImagesGenerate; OperationImagesEdit; OperationEmbeddingsCreate; OperationRerank;
        OperationDecisionsCreate; OperationLiveCall; OperationAudioSpeech; OperationMistralOCR; OperationMistralFIM;
        OperationMistralAudioTranscription; OperationMistralAudioSpeech; OperationMistralModeration;
        OperationMistralChatModeration; OperationMistralClassification; OperationMistralRealtimeTranscription]
  then ReplayPolicyRequireRejectedBeforeProcessing else ReplayPolicyLegacy.

Definition UsesModelCooldown (o : Operation) : bool :=
  oneOf o
    [OperationChatCompletion; OperationResponsesCreate; OperationResponsesCompact; OperationImagesGenerate;
     OperationImagesEdit; OperationEmbeddingsCreate; OperationRerank; OperationDecisionsCreate; OperationAudioSpeech;
     OperationMistralOCR; OperationMistralFIM; OperationMistralAudioTranscription; OperationMistralAudioSpeech;
     OperationMistralModeration; OperationMistralChatModeration; OperationMistralClassification;
     OperationMistralRealtimeTranscription].

(** * Route modes *)

Abbreviation RouteMode := string (only parsing).
Definition RouteNative : RouteMode := "native".
Definition RouteConverted : RouteMode := "converted".
Definition routeModeValid (m : RouteMode) : bool := strEq m RouteNative || strEq m RouteConverted.

Abbreviation RouteRequirement := string (only parsing).
Definition RouteRequirementAny : RouteRequirement := "any".
Definition RouteRequirementNative : RouteRequirement := "native".
Definition Normalize (r : RouteRequirement) : RouteRequirement := if strEq r "" then RouteRequirementAny else r.
Definition requirementValid (r : RouteRequirement) : bool :=
  oneOf (Normalize r) [RouteRequirementAny; RouteRequirementNative].
Definition Allows (r : RouteRequirement) (mode : RouteMode) : bool :=
  if negb (routeModeValid mode) || negb (requirementValid r) then false
  else strEq (Normalize r) RouteRequirementAny || strEq mode RouteNative.

(** * Storage of Responses, and websocket capabilities ([websocket.go]) *)

Abbreviation ResponsesStorePreference := string (only parsing).
Definition ResponsesStorePreferenceNone : ResponsesStorePreference := "".
Definition ResponsesStorePreferencePreferStored : ResponsesStorePreference := "prefer_stored".
Definition ResponsesStorePreferenceRequireStored : ResponsesStorePreference := "require_stored".
Definition storePreferenceValid (p : ResponsesStorePreference) : bool :=
  strEq p ResponsesStorePreferenceNone || strEq p ResponsesStorePreferencePreferStored
  || strEq p ResponsesStorePreferenceRequireStored.

Record WebsocketCapabilities := mkWebsocket {
  ws_Native : bool;
  ws_Continuation : bool;
  ws_StoredResponses : bool;
  ws_Prewarm : bool;
  ws_Multiplex : bool
}.

Definition Supports (c required : WebsocketCapabilities) : bool :=
  ws_Native c && (negb (ws_Continuation required) || ws_Continuation c)
  && (negb (ws_StoredResponses required) || ws_StoredResponses c)
  && (negb (ws_Prewarm required) || ws_Prewarm c) && (negb (ws_Multiplex required) || ws_Multiplex c).

(** * Evidence *)

Abbreviation DispatchState := string (only parsing).
Definition DispatchNotSent : DispatchState := "not_sent".
Definition DispatchMaybeSent : DispatchState := "maybe_sent".
Definition DispatchLocal : DispatchState := "local".
Definition dispatchValid (s : DispatchState) : bool := oneOf s [DispatchNotSent; DispatchMaybeSent; DispatchLocal].

Abbreviation ErrorOrigin := string (only parsing).
Definition ErrorOriginClient : ErrorOrigin := "client".
Definition ErrorOriginUpstream : ErrorOrigin := "upstream".
Definition ErrorOriginDownstream : ErrorOrigin := "downstream".
Definition ErrorOriginInternal : ErrorOrigin := "internal".
Definition originValid (o : ErrorOrigin) : bool :=
  oneOf o [""%string; ErrorOriginClient; ErrorOriginUpstream; ErrorOriginDownstream; ErrorOriginInternal].

Abbreviation ErrorScope := string (only parsing).
Definition ErrorScopeRequest : ErrorScope := "request".
Definition ErrorScopeModel : ErrorScope := "model".
Definition ErrorScopeCredential : ErrorScope := "credential".
Definition ErrorScopeGroup : ErrorScope := "group".
Definition scopeValid (s : ErrorScope) : bool :=
  oneOf s [""%string; ErrorScopeRequest; ErrorScopeModel; ErrorScopeCredential; ErrorScopeGroup].

Abbreviation ErrorKind := string (only parsing).
Definition ErrorKindTransport : ErrorKind := "transport".
Definition ErrorKindTimeout : ErrorKind := "timeout".
Definition ErrorKindCanceled : ErrorKind := "canceled".
Definition ErrorKindHTTP : ErrorKind := "http".
Definition ErrorKindProvider : ErrorKind := "provider".
Definition ErrorKindInvalidRequest : ErrorKind := "invalid_request".
Definition ErrorKindConversionUnsupported : ErrorKind := "conversion_unsupported".
Definition ErrorKindInternal : ErrorKind := "internal".
Definition kindValid (k : ErrorKind) : bool :=
  oneOf k [ErrorKindTransport; ErrorKindTimeout; ErrorKindCanceled; ErrorKindHTTP; ErrorKindProvider;
           ErrorKindInvalidRequest; ErrorKindConversionUnsupported; ErrorKindInternal].

Abbreviation FailureHint := string (only parsing).
Definition FailureHintInvalidCredential : FailureHint := "invalid_credential".
Definition FailureHintRefreshRequired : FailureHint := "refresh_required".
Definition FailureHintRefreshUnavailable : FailureHint := "refresh_temporarily_unavailable".
Definition FailureHintReauthorizationRequired : FailureHint := "reauthorization_required".
Definition FailureHintRateLimited : FailureHint := "rate_limited".
Definition FailureHintRequestRejected : FailureHint := "request_rejected".
Definition FailureHintCandidateUnavailable : FailureHint := "candidate_unavailable".
Definition FailureHintModelUnavailable : FailureHint := "model_unavailable".
Definition FailureHintHostError : FailureHint := "host_error".
Definition hintValid (h : FailureHint) : bool :=
  oneOf h [""%string; FailureHintInvalidCredential; FailureHintRefreshRequired; FailureHintRefreshUnavailable;
           FailureHintReauthorizationRequired; FailureHintRateLimited; FailureHintRequestRejected;
           FailureHintCandidateUnavailable; FailureHintModelUnavailable; FailureHintHostError].

Abbreviation ReplaySafety := string (only parsing).
Definition ReplaySafetyUnknown : ReplaySafety := "unknown".
Definition ReplaySafetyRejectedBeforeProcessing : ReplaySafety := "rejected_before_processing".
Definition replaySafetyValid (s : ReplaySafety) : bool :=
  strEq s "" || strEq s ReplaySafetyUnknown || strEq s ReplaySafetyRejectedBeforeProcessing.

Record ErrorEvidence := mkEvidence {
  ee_Kind : ErrorKind;
  ee_Hint : FailureHint;
  ee_OriginHint : ErrorOrigin;
  ee_ScopeHint : ErrorScope;
  ee_StatusCode : Z;
  ee_Type : string;
  ee_Code : string;
  ee_Summary : string;
  ee_RequestID : string;
  ee_RetryAfter : Z;
  ee_ReplaySafety : ReplaySafety;
  ee_Header : Header
}.

(** * Validation *)

Definition MaxErrorSummaryLength : Z := 4096.

Record ValidationError := mkValidationError { ve_Field : string; ve_Reason : string }.

Definition validHTTPStatus (statusCode : Z) : bool := (100 <=? statusCode) && (statusCode <=? 599).
Definition validOptionalHTTPStatus (statusCode : Z) : bool := (statusCode =? 0) || validHTTPStatus statusCode.

(** Whether a header value has a carriage return, a line feed or a NUL. *)
Definition unsafeValue (s : string) : bool :=
  existsb (fun c => (byteZ c =? 13) || (byteZ c =? 10) || (byteZ c =? 0)) (bytes_of s).

Definition validateHeader (h : Header) : bool :=
  forallb (fun kv => validHTTPToken kv.1 && negb (existsb unsafeValue kv.2)) (mentries h).

Definition safeHeaderName (name : string) : bool :=
  let canonical := CanonicalHeaderKey name in
  oneOf canonical ["Retry-After"; "Request-Id"; "X-Request-Id"; "X-Generation-Id"; "Traceparent"]%string
  || HasPrefix canonical "Ratelimit-" || HasPrefix canonical "X-Ratelimit-".

Definition validateSafeEvidenceHeader (h : Header) : bool :=
  validateHeader h && forallb (fun kv => safeHeaderName kv.1) (mentries h).

(** The checks of a [Validate] method in order: the first that fails is the error. *)
Fixpoint firstError (checks : list (bool * (string * string))) : option ValidationError :=
  match checks with
  | [] => None
  | (bad, (field, reason)) :: rest => if bad then Some (mkValidationError field reason) else firstError rest
  end.

Definition refuse (bad : bool) (field reason : string) : bool * (string * string) := (bad, (field, reason)).
Arguments refuse bad%_bool_scope field%_string_scope reason%_string_scope.

Definition evidenceValidate (e : ErrorEvidence) : option ValidationError :=
  firstError
    [refuse (negb (kindValid (ee_Kind e))) "error.kind" "unsupported value";
     refuse (negb (hintValid (ee_Hint e))) "error.hint" "unsupported value";
     refuse (negb (originValid (ee_OriginHint e))) "error.origin_hint" "unsupported value";
     refuse (negb (scopeValid (ee_ScopeHint e))) "error.scope_hint" "unsupported value";
     refuse (negb (replaySafetyValid (ee_ReplaySafety e))) "error.replay_safety" "unsupported value";
     refuse (negb (validOptionalHTTPStatus (ee_StatusCode e))) "error.status_code" "must be zero or a valid HTTP status";
     refuse (strEq (TrimSpace (ee_Summary e)) "") "error.summary" "must not be empty";
     refuse (MaxErrorSummaryLength <? RuneCountInString (ee_Summary e)) "error.summary" "exceeds maximum length";
     refuse (containsControl (ee_Summary e)) "error.summary" "must be a single safe line";
     refuse (containsControl (ee_Type e)) "error.type" "contains control characters";
     refuse (containsControl (ee_Code e)) "error.code" "contains control characters";
     refuse (containsControl (ee_RequestID e)) "error.request_id" "contains control characters";
     refuse (ee_RetryAfter e <? 0) "error.retry_after" "must not be negative";
     refuse (negb (validateSafeEvidenceHeader (ee_Header e))) "error.header" "contains a non-safe header"].

Definition validateResultMetadata (dispatchState : DispatchState) (responseStarted : bool) (statusCode : Z) (header : Header)
    (upstreamRequestID : string) (evidence : option ErrorEvidence) : option ValidationError :=
  let headerSet := negb (size header =? 0)%nat in
  let requestIDSet := negb (strEq upstreamRequestID "") in
  match firstError
    [refuse (negb (dispatchValid dispatchState)) "dispatch_state" "unsupported value";
     refuse ((0 <? statusCode) && negb responseStarted) "response_started" "must be true when status_code is present";
     refuse (negb responseStarted && (headerSet || requestIDSet)) "response_started" "must be true when upstream response metadata is present";
     refuse (responseStarted && negb (validHTTPStatus statusCode)) "status_code" "response_started requires a valid HTTP status";
     refuse (strEq dispatchState DispatchNotSent && (responseStarted || negb (statusCode =? 0) || headerSet || requestIDSet)) "dispatch_state" "not_sent cannot contain upstream response metadata";
     refuse (responseStarted && negb (strEq dispatchState DispatchMaybeSent) && negb (strEq dispatchState DispatchLocal)) "dispatch_state" "response_started requires maybe_sent or local";
     refuse (negb (validateHeader header)) "header" "contains an invalid name or value";
     refuse (containsControl upstreamRequestID) "upstream_request_id" "contains control characters"] with
  | Some e => Some e
  | None =>
      match evidence with
      | None =>
          firstError [refuse (negb responseStarted || (statusCode <? 200) || (300 <=? statusCode)) "error" "is required unless a started response has a 2xx status"]
      | Some e =>
          match evidenceValidate e with
          | Some err => Some err
          | None =>
              firstError
                [refuse ((0 <? ee_StatusCode e) && negb responseStarted) "error.status_code" "requires response_started";
                 refuse (responseStarted && negb (ee_StatusCode e =? 0) && negb (ee_StatusCode e =? statusCode)) "error.status_code" "must match result status_code"]
          end
      end
  end.

(** [request_rejection.go] *)
Definition ExplicitRequestRejection `{GoText} (typeValue codeValue message : string) : bool :=
  let listed value :=
    oneOf (ToLower (TrimSpace value)) ["context_length_exceeded"; "invalid_parameter"; "content_policy_violation"]%string in
  if listed typeValue || listed codeValue then true
  else if negb (EqualFold (TrimSpace typeValue) "invalid_request_error") || negb (strEq (TrimSpace codeValue) "") then false
  else
    let message := ToLower (TrimSpace message) in
    strEq (TrimSuffix message ".") "prompt is too long" || HasPrefix message "prompt is too long:".

(** * Lemmas *)

Lemma strEq_true a b : strEq a b = true <-> a = b.
Proof. unfold strEq. by rewrite bool_decide_eq_true. Qed.
Lemma strEq_false a b : strEq a b = false <-> a <> b.
Proof. unfold strEq. by rewrite bool_decide_eq_false. Qed.
Lemma strEq_refl a : strEq a a = true.
Proof. by apply strEq_true. Qed.

Lemma firstError_none checks : firstError checks = None -> forall b, b ∈ checks.*1 -> b = false.
Proof.
  induction checks as [|[bad [f r]] rest IH]; cbn; [intros _ b Hb; by apply elem_of_nil in Hb|].
  destruct bad; [done|]. intros H b [->|Hb]%elem_of_cons; [done|by apply IH].
Qed.


(** What validated evidence guarantees. *)
Record evidence_ok (e : ErrorEvidence) : Prop := {
  eo_kind : kindValid (ee_Kind e) = true;
  eo_hint : hintValid (ee_Hint e) = true;
  eo_origin : originValid (ee_OriginHint e) = true;
  eo_scope : scopeValid (ee_ScopeHint e) = true;
  eo_safety : replaySafetyValid (ee_ReplaySafety e) = true;
  eo_status : ee_StatusCode e = 0 \/ 100 <= ee_StatusCode e <= 599;
  eo_retry : 0 <= ee_RetryAfter e
}.

Lemma evidenceValidate_ok e : evidenceValidate e = None -> evidence_ok e.
Proof.
  unfold evidenceValidate, refuse, firstError, validOptionalHTTPStatus, validHTTPStatus.
  repeat match goal with |- (if ?b then _ else _) = None -> _ => destruct b eqn:?; [done|] end.
  intros _. zb. split; try done.
  match goal with H : (_ =? 0) || _ = true |- _ => apply orb_true_iff in H as [H|H] end; zb; lia.
Qed.
