(* ===== verification/Judge.v ===== *)
(** The health judgement ([internal/health]): from the evidence of one upstream attempt to a
    retry directive and at most one effect on the runtime state ([classification.go],
    [decision.go], [error_rules.go], [ratelimit.go], [execution_judge.go]). *)
From S2P Require Import Prelude GoStrings Execution.
From Stdlib Require Import Ascii.

Local Open Scope Z_scope.
Local Open Scope go_scope.

(** * Categories, directives and effects *)

Inductive FailureCategory :=
| FailureCategoryAmbiguous | FailureCategoryOK | FailureCategoryRateLimited | FailureCategoryModelUnavailable
| FailureCategoryInvalidKey | FailureCategoryUpstreamHostError | FailureCategoryClientError
| FailureCategoryConversionUnsupported | FailureCategoryDownstreamCancel | FailureCategoryAuthenticationRequired.

#[export] Instance failureCategory_eq : EqDecision FailureCategory.
Proof. solve_decision. Defined.

Definition categoryString (c : FailureCategory) : string :=
  match c with
  | FailureCategoryAmbiguous => "ambiguous"
  | FailureCategoryOK => "ok"
  | FailureCategoryRateLimited => "rate_limited"
  | FailureCategoryModelUnavailable => "model_unavailable"
  | FailureCategoryInvalidKey => "invalid_key"
  | FailureCategoryUpstreamHostError => "upstream_host_error"
  | FailureCategoryClientError => "client_error"
  | FailureCategoryConversionUnsupported => "conversion_unsupported"
  | FailureCategoryDownstreamCancel => "downstream_cancel"
  | FailureCategoryAuthenticationRequired => "authentication_required"
  end.

Definition EmptyResponseCode : string := "upstream_empty_response".

Inductive Action := ActionTerminate | ActionRetry | ActionCooldownCredential | ActionFailCredential | ActionSkipGroup.

Abbreviation RetryDirective := string (only parsing).
Definition RetryNone : RetryDirective := "none".
Definition RetryRefreshCredential : RetryDirective := "refresh_credential".
Definition RetryNextCandidate : RetryDirective := "next_candidate".

Abbreviation Effect := string (only parsing).
Definition EffectNone : Effect := "none".
Definition EffectCooldownCredential : Effect := "cooldown_credential".
Definition EffectCooldownModel : Effect := "cooldown_model".
Definition EffectRecordCredentialFailure : Effect := "record_credential_failure".
Definition EffectSkipGroup : Effect := "skip_group".

Definition retryValid (r : RetryDirective) : bool := oneOf r [RetryNone; RetryRefreshCredential; RetryNextCandidate].
Definition effectValid (e : Effect) : bool :=
  oneOf e [EffectNone; EffectCooldownCredential; EffectCooldownModel; EffectRecordCredentialFailure; EffectSkipGroup].

Record Decision_ := mkDecision {
  d_Category : FailureCategory;
  d_Origin : ErrorOrigin;
  d_Scope : ErrorScope;
  d_Retry : RetryDirective;
  d_Effect : Effect;
  d_CooldownUntil : Z;
  d_RuleID : string
}.

Definition withRetry (r : RetryDirective) (d : Decision_) : Decision_ :=
  mkDecision (d_Category d) (d_Origin d) (d_Scope d) r (d_Effect d) (d_CooldownUntil d) (d_RuleID d).
Definition withScope (s : ErrorScope) (d : Decision_) : Decision_ :=
  mkDecision (d_Category d) (d_Origin d) s (d_Retry d) (d_Effect d) (d_CooldownUntil d) (d_RuleID d).
Definition withEffect (e : Effect) (until : Z) (d : Decision_) : Decision_ :=
  mkDecision (d_Category d) (d_Origin d) (d_Scope d) (d_Retry d) e until (d_RuleID d).
Definition withRuleID (r : string) (d : Decision_) : Decision_ :=
  mkDecision (d_Category d) (d_Origin d) (d_Scope d) (d_Retry d) (d_Effect d) (d_CooldownUntil d) r.

(** The constructor [decision]: no deadline. *)
Definition decision (category : FailureCategory) (origin : ErrorOrigin) (scope : ErrorScope) (retry : RetryDirective)
    (effect : Effect) (ruleID : string) : Decision_ := mkDecision category origin scope retry effect 0 ruleID.
Arguments decision category origin%_string_scope scope%_string_scope retry effect ruleID%_string_scope.

Definition ShouldRetry (d : Decision_) : bool :=
  strEq (d_Retry d) RetryRefreshCredential || strEq (d_Retry d) RetryNextCandidate.

Definition LegacyAction (d : Decision_) : Action :=
  if strEq (d_Effect d) EffectCooldownCredential then ActionCooldownCredential
  else if strEq (d_Effect d) EffectRecordCredentialFailure then ActionFailCredential
  else if strEq (d_Effect d) EffectSkipGroup then ActionSkipGroup
  else if ShouldRetry d then ActionRetry else ActionTerminate.

Definition ruleByte (c : ascii) : bool :=
  (97 <=? byteZ c) && (byteZ c <=? 122) || (48 <=? byteZ c) && (byteZ c <=? 57)
  || (byteZ c =? 46) || (byteZ c =? 95) || (byteZ c =? 45).

Definition isCooldown (e : Effect) : bool := strEq e EffectCooldownCredential || strEq e EffectCooldownModel.

(** The category is a value of its type, so [Category.Valid] holds.  Only ASCII characters are
    allowed in a rule, so testing the bytes is testing the runes. *)
Definition decisionValidate (d : Decision_) : option string :=
  if negb (originValid (d_Origin d)) then Some "failure origin is invalid"
  else if negb (scopeValid (d_Scope d)) then Some "failure scope is invalid"
  else if negb (retryValid (d_Retry d)) then Some "retry directive is invalid"
  else if negb (effectValid (d_Effect d)) then Some "effect is invalid"
  else if strEq (TrimSpace (d_RuleID d)) "" then Some "rule ID is required"
  else if 128 <? slen (d_RuleID d) then Some "rule ID exceeds maximum length"
  else if negb (forallb ruleByte (bytes_of (d_RuleID d))) then Some "rule ID contains an invalid character"
  else if isCooldown (d_Effect d) && isZeroTime (d_CooldownUntil d) then Some "cooldown requires a deadline"
  else if negb (isCooldown (d_Effect d)) && negb (isZeroTime (d_CooldownUntil d))
  then Some "cooldown deadline requires a cooldown effect"
  else None%string.

(** * Reset headers ([ratelimit.go]) *)

Section text.
Context `{GoText}.

Definition maxRateLimitResetDelay : Z := 60 * minute.

(** The values of the headers whose lower-case name matches, in the order of the map. *)
Definition matchingHeaderValues (h : Header) (matches : string -> bool) : list string :=
  concat ((fun kv => if matches (ToLower kv.1) then kv.2 else []) <$> mentries h).

(** One value of the loop of [ParseExplicitRetryAfter]; the zero instant is none. *)
Definition explicitStep (now latest : Z) (value : string) : Z :=
  let value := TrimSpace value in
  let consider until := if (now <? until) && (latest <? until) then until else latest in
  match ParseInt64 value with
  | Some seconds =>
      if (seconds <=? 0) || (Z.quot maxInt64 second <? seconds) then latest else consider (now + seconds * second)
  | None => match httpParseTime value with Some until => consider until | None => latest end
  end.

Definition ParseExplicitRetryAfter (h : Header) (now : Z) : option Z :=
  let latest := fold_left (explicitStep now) (matchingHeaderValues h (fun name => strEq name "retry-after")) 0 in
  if isZeroTime latest then None else Some latest.

Definition parseRetryAfter (value : string) (now : Z) : option Z :=
  let trimmed := TrimSpace value in
  match ParseInt64 trimmed with
  | Some seconds =>
      if (seconds <=? 0) || (Z.quot maxRateLimitResetDelay second <? seconds) then None else Some (now + seconds * second)
  | None => httpParseTime trimmed
  end.

Definition parseResetValue (value : string) (now : Z) : option Z :=
  let trimmed := TrimSpace value in
  match parseRFC3339 trimmed with
  | Some reset => Some reset
  | None =>
      match parseDuration trimmed with
      | Some duration => if (duration <=? 0) || (maxRateLimitResetDelay <? duration) then None else Some (now + duration)
      | None =>
          match ParseInt64 trimmed with
          | None => None
          | Some numeric =>
              if 1000000000000 <=? numeric then Some (unixEpoch + numeric * millisecond)
              else if 1000000000 <=? numeric then Some (unixEpoch + numeric * second)
              else if (0 <? numeric) && (numeric <=? Z.quot maxRateLimitResetDelay second) then Some (now + numeric * second)
              else None
          end
      end
  end.

Definition resetStep (now : Z) (retryAfter : bool) (latest : Z) (value : string) : Z :=
  match (if retryAfter then parseRetryAfter value now else parseResetValue value now) with
  | None => latest
  | Some reset =>
      if negb (now <? reset) || (now + maxRateLimitResetDelay <? reset) then latest
      else if isZeroTime latest || (latest <? reset) then reset else latest
  end.

Definition latestValidReset (values : list string) (now : Z) (retryAfter : bool) : option Z :=
  let latest := fold_left (resetStep now retryAfter) values 0 in
  if isZeroTime latest then None else Some latest.

Definition resetFamilies (h : Header) : list (list string * bool) :=
  [(matchingHeaderValues h (fun name => strEq name "retry-after"), true);
   (matchingHeaderValues h (fun name => HasPrefix name "anthropic-ratelimit-" && HasSuffix name "-reset"), false);
   (matchingHeaderValues h (fun name => strEq name "x-ratelimit-reset" || HasPrefix name "x-ratelimit-reset-"), false)].

Fixpoint firstReset (families : list (list string * bool)) (now : Z) : option Z :=
  match families with
  | [] => None
  | (values, retryAfter) :: rest =>
      match latestValidReset values now retryAfter with Some reset => Some reset | None => firstReset rest now end
  end.

Definition ParseRateLimitReset (h : Header) (now : Z) : option Z := firstReset (resetFamilies h) now.

(** * Custom rules ([error_rules.go]) *)

Record ErrorRule := mkRule {
  er_StatusCodes : list Z;
  er_Keywords : list string;
  er_Retry : RetryDirective;
  er_Effect : Effect;
  er_CooldownSeconds : Z
}.

Record ErrorRules := mkRules { entries : list ErrorRule; source : string }.

Definition noRules : ErrorRules := mkRules [] "".

Inductive RuleError :=
| TooManyRules
| InvalidStatusCode (index : Z)
| MissingCondition (index : Z)
| InvalidRetry (index : Z)
| InvalidEffect (index : Z)
| CooldownMismatch (index : Z).

(** The loop over the status codes: [None] when one is out of range. *)
Fixpoint dedupCodes (codes : list Z) (acc : list Z) : option (list Z) :=
  match codes with
  | [] => Some acc
  | code :: rest =>
      if (code <? 200) || (599 <? code) then None
      else dedupCodes rest (if bool_decide (code ∈ acc) then acc else acc ++ [code])
  end.

Fixpoint dedupKeywords (keywords : list string) (seen : gset string) (acc : list string) : list string :=
  match keywords with
  | [] => acc
  | keyword :: rest =>
      let keyword := TrimSpace keyword in
      let lower := ToLower keyword in
      if strEq keyword "" || bool_decide (lower ∈ seen) then dedupKeywords rest seen acc
      else dedupKeywords rest ({[lower]} ∪ seen) (acc ++ [keyword])
  end.

Definition compileRule (index : Z) (entry : ErrorRule) : result RuleError ErrorRule :=
  match dedupCodes (er_StatusCodes entry) [] with
  | None => Err (InvalidStatusCode index)
  | Some codes =>
      let keywords := dedupKeywords (er_Keywords entry) ∅ [] in
      if bool_decide (codes = []) && bool_decide (keywords = []) then Err (MissingCondition index)
      else if negb (strEq (er_Retry entry) RetryNone) && negb (strEq (er_Retry entry) RetryNextCandidate)
      then Err (InvalidRetry index)
      else if negb (effectValid (er_Effect entry)) then Err (InvalidEffect index)
      else
        let cooldown := isCooldown (er_Effect entry) in
        if cooldown && ((er_CooldownSeconds entry <=? 0) || (Z.quot maxInt64 second <? er_CooldownSeconds entry))
           || negb cooldown && negb (er_CooldownSeconds entry =? 0)
        then Err (CooldownMismatch index)
        else Ok (mkRule codes keywords (er_Retry entry) (er_Effect entry) (er_CooldownSeconds entry))
  end.

Fixpoint compileRulesFrom (index : Z) (rules : list ErrorRule) : result RuleError (list ErrorRule) :=
  match rules with
  | [] => Ok []
  | entry :: rest =>
      try! e := compileRule index entry in
      try! es := compileRulesFrom (index + 1) rest in
      Ok (e :: es)
  end.

(** [CompileErrorRules] after the JSON round trip that produces the entries. *)
Definition CompileErrorRules (rules : list ErrorRule) (src : string) : result RuleError ErrorRules :=
  if (100 <? Z.of_nat (length rules)) || negb (strEq src "global") && negb (strEq src "group") then Err TooManyRules
  else try! es := compileRulesFrom 1 rules in Ok (mkRules es src).

(** * The attempt *)

(** The error of the downstream side, as far as [errors.Is] distinguishes it. *)
Inductive DownstreamError := DownstreamNone | DownstreamCanceled | DownstreamDeadlineExceeded | DownstreamOther.

Record ExecutionAttempt := mkAttempt {
  at_DispatchState : DispatchState;
  at_StatusCode : Z;
  at_Header : Header;
  at_Evidence : option ErrorEvidence;
  at_DownstreamCommitted : bool;
  at_DownstreamErr : DownstreamError;
  at_Now : Z
}.

Record DecisionContext := mkContext {
  cx_ErrorRules : ErrorRules;
  cx_DefaultRateLimitCooldown : Z;
  cx_CredentialRefreshable : bool;
  cx_Method : string;
  cx_Operation : Operation
}.

Definition isSuccessStatus (statusCode : Z) : bool := (200 <=? statusCode) && (statusCode <? 300).

(** [ResponseStarted] of an attempt with evidence. *)
Definition responseStarted (a : ExecutionAttempt) (e : ErrorEvidence) : bool :=
  negb (at_StatusCode a =? 0) || negb (ee_StatusCode e =? 0).

(** The status code of the attempt, or of its evidence. *)
Definition statusOf (a : ExecutionAttempt) (e : ErrorEvidence) : Z :=
  if at_StatusCode a =? 0 then ee_StatusCode e else at_StatusCode a.

Definition originForEvidence (e : ErrorEvidence) : ErrorOrigin :=
  if negb (strEq (ee_OriginHint e) "") then ee_OriginHint e
  else if oneOf (ee_Kind e) [ErrorKindTransport; ErrorKindTimeout; ErrorKindHTTP; ErrorKindProvider] then ErrorOriginUpstream
  else if strEq (ee_Kind e) ErrorKindCanceled then ErrorOriginDownstream
  else if oneOf (ee_Kind e) [ErrorKindConversionUnsupported; ErrorKindInternal] then ErrorOriginInternal
  else if strEq (ee_Kind e) ErrorKindInvalidRequest then ErrorOriginClient
  else ""%string.

Definition originForDispatch (dispatch : DispatchState) : ErrorOrigin :=
  if strEq dispatch DispatchLocal then ErrorOriginInternal
  else if strEq dispatch DispatchMaybeSent || strEq dispatch DispatchNotSent then ErrorOriginUpstream
  else ""%string.

Definition scopeOrDefault (value fallback : ErrorScope) : ErrorScope := if negb (strEq value "") then value else fallback.

Definition containsAny (value : string) (markers : list string) : bool := existsb (Contains value) markers.

Definition retryUnlessExplicitlyUnknown (e : ErrorEvidence) : RetryDirective :=
  if strEq (ee_ReplaySafety e) ReplaySafetyUnknown then RetryNone else RetryNextCandidate.

Definition requestMayReplayAfterResponse (cx : DecisionContext) : bool :=
  if EqualFold (cx_Method cx) "GET" || EqualFold (cx_Method cx) "HEAD" then true
  else oneOf (cx_Operation cx)
         [OperationChatCompletion; OperationResponsesCreate; OperationResponsesCompact; OperationResponsesRetrieve;
          OperationResponsesInputItems; OperationResponsesInputTokens; OperationCountTokens; OperationListModels].

Definition isHTTPOrProvider (e : ErrorEvidence) : bool :=
  strEq (ee_Kind e) ErrorKindHTTP || strEq (ee_Kind e) ErrorKindProvider.

Definition retryableUpstreamResponse (a : ExecutionAttempt) (e : ErrorEvidence) : bool :=
  if negb (strEq (originForEvidence e) ErrorOriginUpstream) || strEq (ee_ReplaySafety e) ReplaySafetyUnknown then false
  else if strEq (ee_Kind e) ErrorKindHTTP then
    let status := statusOf a e in isSuccessStatus status || (400 <=? status) && (status <=? 599)
  else if strEq (ee_Kind e) ErrorKindProvider then
    if oneOf (ee_Code e) ["upstream_protocol_error"; "upstream_response_incomplete"]%string then false
    else responseStarted a e
  else false.
End text.

(** * Classification *)

Section judge.
Context `{GoText}.

Definition rateLimitMarkers : list string :=
  ["rate_limit"; "rate limit"; "too_many_requests"; "quota_exceeded"; "resource_exhausted"; "throttl"]%string.
Definition modelMarkers : list string :=
  ["model_not_found"; "model not found"; "model_not_available"; "model unavailable"; "deployment_not_found";
   "unsupported_model"]%string.
Definition credentialMarkers : list string :=
  ["invalid_api_key"; "api_key_invalid"; "authentication_error"; "authentication failed"; "invalid credential";
   "api key not valid"]%string.

(** The switch on the hint. *)
Definition categoryForHint (hint : FailureHint) : option FailureCategory :=
  if strEq hint FailureHintInvalidCredential then Some FailureCategoryInvalidKey
  else if oneOf hint [FailureHintRefreshRequired; FailureHintReauthorizationRequired] then Some FailureCategoryAuthenticationRequired
  else if strEq hint FailureHintRateLimited then Some FailureCategoryRateLimited
  else if strEq hint FailureHintRequestRejected then Some FailureCategoryClientError
  else if strEq hint FailureHintCandidateUnavailable then Some FailureCategoryModelUnavailable
  else if strEq hint FailureHintModelUnavailable then Some FailureCategoryModelUnavailable
  else if strEq hint FailureHintHostError then Some FailureCategoryUpstreamHostError
  else None.

Definition classifyExecutionEvidence (a : ExecutionAttempt) (e : ErrorEvidence) : FailureCategory :=
  let statusCode := statusOf a e in
  if (statusCode =? 401) && strEq (ee_ReplaySafety e) ReplaySafetyUnknown && strEq (ee_Hint e) "" then FailureCategoryAmbiguous
  else
    match categoryForHint (ee_Hint e) with
    | Some category => category
    | None =>
        if ExplicitRequestRejection (ee_Type e) (ee_Code e) (ee_Summary e) then FailureCategoryClientError
        else
          let markers := ToLower (joinWith " " [ee_Type e; ee_Code e; ee_Summary e]) in
          if (statusCode =? 429) || containsAny markers rateLimitMarkers then FailureCategoryRateLimited
          else if statusCode =? 401 then FailureCategoryInvalidKey
          else if containsAny markers modelMarkers then FailureCategoryModelUnavailable
          else if containsAny markers credentialMarkers then FailureCategoryInvalidKey
          else if (500 <=? statusCode) && (statusCode <=? 599) then FailureCategoryUpstreamHostError
          else if strEq (ee_Kind e) ErrorKindInvalidRequest then FailureCategoryClientError
          else FailureCategoryAmbiguous
    end.

(** * Decisions by category *)

Definition transientCapacityDecision (a : ExecutionAttempt) (e : ErrorEvidence) : option Decision_ :=
  if negb (strEq (at_DispatchState a) DispatchMaybeSent) || negb (strEq (ee_ReplaySafety e) ReplaySafetyRejectedBeforeProcessing)
     || negb (strEq (originForEvidence e) ErrorOriginUpstream) || negb (isHTTPOrProvider e)
  then None
  else
    let codeValue := ToLower (TrimSpace (ee_Code e)) in
    let overloaded := strEq codeValue "server_is_overloaded" in
    let rateLimited := strEq codeValue "rate_limit_exceeded" in
    if Bool.eqb overloaded rateLimited then None
    else
      let category := if rateLimited then FailureCategoryRateLimited else FailureCategoryUpstreamHostError in
      Some (decision category ErrorOriginUpstream (ee_ScopeHint e) RetryNextCandidate EffectNone "candidate.transient_capacity").

Definition rateLimitDecision (a : ExecutionAttempt) (e : ErrorEvidence) (cx : DecisionContext) : Decision_ :=
  let scope := ee_ScopeHint e in
  let retry := retryUnlessExplicitlyUnknown e in
  let usesModel := UsesModelCooldown (cx_Operation cx) in
  let modelScoped := usesModel && (strEq scope "" || strEq scope ErrorScopeModel) in
  if strEq scope "" && operationValid (cx_Operation cx) && negb usesModel then
    decision FailureCategoryRateLimited (originForEvidence e) ErrorScopeRequest retry EffectNone "rate_limit.operation_no_cooldown"
  else if strEq scope ErrorScopeRequest || strEq scope ErrorScopeModel && negb modelScoped then
    decision FailureCategoryRateLimited (originForEvidence e) scope RetryNone EffectNone "rate_limit.scoped"
  else
    let ruleID := if strEq scope ErrorScopeCredential then "rate_limit.credential.default_cooldown"%string
                  else "legacy.http_429_credential_cooldown"%string in
    let '(scope, effect, ruleID) :=
      if modelScoped then (ErrorScopeModel, EffectCooldownModel, "rate_limit.model.default_cooldown"%string)
      else (scope, EffectCooldownCredential, ruleID) in
    let result until ruleID := mkDecision FailureCategoryRateLimited (originForEvidence e) scope retry effect until ruleID in
    if 0 <? ee_RetryAfter e then result (at_Now a + ee_RetryAfter e) "rate_limit.retry_after"%string
    else
      let header := if (size (at_Header a) =? 0)%nat then ee_Header e else at_Header a in
      let default := result (at_Now a + cx_DefaultRateLimitCooldown cx) ruleID in
      if modelScoped then
        match ParseExplicitRetryAfter header (at_Now a) with
        | Some until => result until "rate_limit.retry_after"%string
        | None => default
        end
      else
        match ParseRateLimitReset header (at_Now a) with
        | Some until => result until "rate_limit.reset_header"%string
        | None => default
        end.

Definition authenticationDecision (a : ExecutionAttempt) (e : ErrorEvidence) (cx : DecisionContext) : Decision_ :=
  let auth retry ruleID :=
    decision FailureCategoryAuthenticationRequired ErrorOriginUpstream ErrorScopeCredential retry EffectNone ruleID in
  if strEq (at_DispatchState a) DispatchMaybeSent && negb (strEq (ee_ReplaySafety e) ReplaySafetyRejectedBeforeProcessing)
  then auth RetryNone "auth.replay_unsafe"%string
  else if strEq (ee_Hint e) FailureHintRefreshRequired then
    if cx_CredentialRefreshable cx && strEq (ee_ReplaySafety e) ReplaySafetyRejectedBeforeProcessing
    then auth RetryRefreshCredential "auth.refresh_required"%string
    else auth RetryNextCandidate "auth.refresh_unavailable"%string
  else auth RetryNextCandidate "auth.reauthorization_required"%string.

Definition ambiguousRuleID (e : ErrorEvidence) : string :=
  if strEq (ee_Code e) "upstream_sse_error" then "stream.provider_error"
  else if strEq (ee_Code e) "upstream_stream_terminated" then "stream.upstream_terminated"
  else if strEq (ee_Code e) "upstream_protocol_error" then "stream.protocol_error"
  else if strEq (ee_Code e) "upstream_stream_idle_timeout" then "stream.idle_timeout"
  else if strEq (ee_Code e) "upstream_response_incomplete" then "stream.provider_incomplete"
  else "fallback.ambiguous"%string.

(** The rule of a missing model for operations that are not replayed freely. *)
Definition modelUnavailableRuleID (o : Operation) : string :=
  if strEq o OperationDecisionsCreate then "decisions.model_unavailable"
  else if strEq o OperationRerank then "rerank.model_unavailable"
  else if strEq o OperationEmbeddingsCreate then "embeddings.model_unavailable"
  else "images.model_unavailable"%string.

Definition resourceOperation (o : Operation) : bool :=
  oneOf o [OperationResponsesRetrieve; OperationResponsesDelete; OperationResponsesCancel; OperationResponsesInputItems;
           OperationResponsesPassthrough].

Definition hostErrorDecision (a : ExecutionAttempt) (e : ErrorEvidence) (cx : DecisionContext) : Decision_ :=
  let '(retry, ruleID) :=
    if strEq (ee_ReplaySafety e) ReplaySafetyRejectedBeforeProcessing
    then (RetryNextCandidate, "upstream.host_error.rejected_before_processing"%string)
    else if retryableUpstreamResponse a e && requestMayReplayAfterResponse cx
    then (RetryNextCandidate, "upstream.host_error.response_retry"%string)
    else (RetryNone, "upstream.host_error.replay_unsafe"%string) in
  decision FailureCategoryUpstreamHostError (originForEvidence e) (scopeOrDefault (ee_ScopeHint e) ErrorScopeGroup)
    retry EffectSkipGroup ruleID.

Definition ambiguousDecision (category : FailureCategory) (a : ExecutionAttempt) (e : ErrorEvidence) (cx : DecisionContext)
  : Decision_ :=
  let origin := originForEvidence e in
  let scope := ee_ScopeHint e in
  let ruleID := ambiguousRuleID e in
  if retryableUpstreamResponse a e then
    if negb (requestMayReplayAfterResponse cx) && negb (strEq (ee_ReplaySafety e) ReplaySafetyRejectedBeforeProcessing)
    then decision category origin scope RetryNone EffectNone "safety.operation_replay_unsafe"
    else
      let ruleID := if strEq ruleID "fallback.ambiguous" then "fallback.upstream_response"%string else ruleID in
      decision category origin scope RetryNextCandidate EffectNone ruleID
  else decision category origin scope RetryNone EffectNone ruleID.

Definition decisionForExecutionCategory (category : FailureCategory) (a : ExecutionAttempt) (e : ErrorEvidence)
    (cx : DecisionContext) : Decision_ :=
  match transientCapacityDecision a e with
  | Some d => d
  | None =>
      let origin := originForEvidence e in
      let scope := ee_ScopeHint e in
      if bool_decide (category = FailureCategoryModelUnavailable) && resourceOperation (cx_Operation cx) then
        decision category origin scope RetryNone EffectNone "model.resource_unavailable"
      else if strEq (ee_Hint e) FailureHintCandidateUnavailable then
        if strEq (ee_ReplaySafety e) ReplaySafetyUnknown
        then decision category origin scope RetryNone EffectNone "safety.replay_unknown"
        else decision category origin (scopeOrDefault scope ErrorScopeModel) RetryNextCandidate EffectNone "candidate.unavailable"
      else
        match category with
        | FailureCategoryRateLimited => rateLimitDecision a e cx
        | FailureCategoryModelUnavailable =>
            let ruleID :=
              if bool_decide (ReplayPolicy (cx_Operation cx) = ReplayPolicyRequireRejectedBeforeProcessing)
              then modelUnavailableRuleID (cx_Operation cx) else "model.unavailable"%string in
            decision category origin (scopeOrDefault scope ErrorScopeModel) (retryUnlessExplicitlyUnknown e) EffectNone ruleID
        | FailureCategoryInvalidKey =>
            decision category origin (scopeOrDefault scope ErrorScopeCredential) (retryUnlessExplicitlyUnknown e)
              EffectRecordCredentialFailure "auth.invalid_credential"
        | FailureCategoryAuthenticationRequired => authenticationDecision a e cx
        | FailureCategoryUpstreamHostError => hostErrorDecision a e cx
        | FailureCategoryConversionUnsupported =>
            decision category ErrorOriginInternal (scopeOrDefault scope ErrorScopeGroup) RetryNone EffectSkipGroup
              "conversion.unsupported"
        | FailureCategoryClientError =>
            decision category origin (scopeOrDefault scope ErrorScopeRequest) RetryNone EffectNone "fallback.http_client_error"
        | FailureCategoryOK => decision category origin scope RetryNone EffectNone "success.upstream_response"
        | _ => ambiguousDecision category a e cx
        end
  end.

(** * Custom rules applied *)

Definition ruleMatches (a : ExecutionAttempt) (e : ErrorEvidence) (r : ErrorRule) : bool :=
  let fields := [ToLower (ee_Code e); ToLower (ee_Type e); ToLower (ee_Summary e)] in
  (bool_decide (er_StatusCodes r = []) || bool_decide (statusOf a e ∈ er_StatusCodes r))
  && (bool_decide (er_Keywords r = [])
      || existsb (fun keyword => existsb (fun field => Contains field (ToLower keyword)) fields) (er_Keywords r)).

(** The evidence a custom rule may not overrule. *)
Definition rulesExempt (rules : ErrorRules) (base : Decision_) (a : ExecutionAttempt) (e : ErrorEvidence) : bool :=
  bool_decide (entries rules = []) || negb (strEq (d_Origin base) ErrorOriginUpstream)
  || bool_decide (d_Category base = FailureCategoryClientError)
  || bool_decide (d_Category base = FailureCategoryAuthenticationRequired)
  || strEq (ee_Hint e) FailureHintRefreshUnavailable || negb (responseStarted a e) || negb (isHTTPOrProvider e)
  || strEq (d_RuleID base) "model.resource_unavailable" || strEq (d_RuleID base) "rate_limit.scoped"
  || strEq (ee_Code e) "upstream_protocol_error" || strEq (ee_Code e) "upstream_response_incomplete".

(** [fmt.Sprintf("custom.%s.%d", source, index+1)] *)
Definition customRuleID (src : string) (index : nat) : string :=
  of_bytes (bytes_of "custom." ++ bytes_of src ++ bytes_of "." ++ formatNat (Z.of_nat index + 1)).

Definition applyRule (src : string) (index : nat) (r : ErrorRule) (base : Decision_) (a : ExecutionAttempt) (e : ErrorEvidence)
    (cx : DecisionContext) : Decision_ :=
  let result := decision (d_Category base) (d_Origin base) (d_Scope base) (er_Retry r) (er_Effect r) (customRuleID src index) in
  let result :=
    if strEq (er_Effect r) EffectCooldownCredential || strEq (er_Effect r) EffectRecordCredentialFailure
    then withScope ErrorScopeCredential result
    else if strEq (er_Effect r) EffectCooldownModel then
      if UsesModelCooldown (cx_Operation cx) then withScope ErrorScopeModel result
      else withRuleID "safety.operation_no_model_cooldown" (withEffect EffectNone 0 result)
    else if strEq (er_Effect r) EffectSkipGroup then withScope ErrorScopeGroup result
    else result in
  let result :=
    if isCooldown (d_Effect result)
    then withEffect (d_Effect result) (at_Now a + er_CooldownSeconds r * second) result else result in
  if negb (strEq (d_Retry result) RetryNone) then
    if negb (retryableUpstreamResponse a e) then withRuleID "safety.replay_unknown" (withRetry RetryNone result)
    else if negb (requestMayReplayAfterResponse cx) && negb (strEq (ee_ReplaySafety e) ReplaySafetyRejectedBeforeProcessing)
    then withRuleID "safety.operation_replay_unsafe" (withRetry RetryNone result)
    else result
  else result.

(** The first matching rule, with its position. *)
Fixpoint firstMatch (index : nat) (a : ExecutionAttempt) (e : ErrorEvidence) (rules : list ErrorRule) : option (nat * ErrorRule) :=
  match rules with
  | [] => None
  | r :: rest => if ruleMatches a e r then Some (index, r) else firstMatch (S index) a e rest
  end.

Definition applyRules (rules : ErrorRules) (base : Decision_) (a : ExecutionAttempt) (e : ErrorEvidence) (cx : DecisionContext)
  : Decision_ :=
  if rulesExempt rules base a e then base
  else
    match firstMatch 0 a e (entries rules) with
    | None => base
    | Some (index, r) => applyRule (source rules) index r base a e cx
    end.

(** * Safety constraints *)

Definition constrainOperationReplay (d : Decision_) (a : ExecutionAttempt) (e : ErrorEvidence) (cx : DecisionContext) : Decision_ :=
  if strEq (d_Retry d) RetryNone || negb (strEq (at_DispatchState a) DispatchMaybeSent)
     || negb (bool_decide (ReplayPolicy (cx_Operation cx) = ReplayPolicyRequireRejectedBeforeProcessing))
  then d
  else if strEq (ee_ReplaySafety e) ReplaySafetyRejectedBeforeProcessing then d
  else withRuleID "safety.operation_replay_unsafe" (withRetry RetryNone d).

Definition trustedCommittedCredentialEffect (d : Decision_) (e : ErrorEvidence) : bool :=
  if negb (strEq (d_Scope d) ErrorScopeCredential) then false
  else if strEq (ee_ScopeHint e) ErrorScopeCredential then true
  else strEq (d_Effect d) EffectRecordCredentialFailure && strEq (ee_Hint e) FailureHintInvalidCredential.

Definition constrainCommittedDecision (d : Decision_) (a : ExecutionAttempt) (e : ErrorEvidence) : Decision_ :=
  if negb (at_DownstreamCommitted a) then d
  else
    let d1 := withRetry RetryNone d in
    let d2 :=
      if strEq (d_Effect d) EffectCooldownModel then
        if negb (strEq (ee_Hint e) FailureHintRateLimited) || strEq (ee_OriginHint e) ErrorOriginInternal
           || strEq (ee_OriginHint e) ErrorOriginDownstream
        then withEffect EffectNone 0 d1 else d1
      else if strEq (d_Effect d) EffectCooldownCredential || strEq (d_Effect d) EffectRecordCredentialFailure then
        if negb (trustedCommittedCredentialEffect d1 e) then withEffect EffectNone 0 d1 else d1
      else withEffect EffectNone 0 d1 in
    if bool_decide (d_Category d2 = FailureCategoryRateLimited) && strEq (d_Effect d2) EffectCooldownCredential
    then withRuleID "rate_limit.credential.committed" d2
    else if negb (strEq (d_Retry d) (d_Retry d2)) || negb (strEq (d_Effect d) (d_Effect d2))
    then withRuleID "safety.committed" d2 else d2.

(** * The judgement *)

Definition canceledModelCooldown (a : ExecutionAttempt) (cx : DecisionContext) : option Decision_ :=
  match at_Evidence a with
  | None => None
  | Some e =>
      if negb (strEq (at_DispatchState a) DispatchMaybeSent) || negb (UsesModelCooldown (cx_Operation cx))
         || negb (strEq (ee_Hint e) FailureHintRateLimited) || negb (isHTTPOrProvider e)
         || negb (strEq (ee_ScopeHint e) "") && negb (strEq (ee_ScopeHint e) ErrorScopeModel)
         || negb (strEq (ee_OriginHint e) "") && negb (strEq (ee_OriginHint e) ErrorOriginUpstream)
      then None
      else
        let d := withRetry RetryNone (decisionForExecutionCategory FailureCategoryRateLimited a e cx) in
        if strEq (d_Effect d) EffectCooldownModel then Some d else None
  end.

Definition refreshTemporarilyUnavailableDecision (a : ExecutionAttempt) (e : ErrorEvidence) (cx : DecisionContext) : Decision_ :=
  let '(category, ruleID) :=
    if ee_StatusCode e =? 429 then (FailureCategoryRateLimited, "auth.refresh_rate_limited"%string)
    else (FailureCategoryUpstreamHostError, "auth.refresh_temporarily_unavailable"%string) in
  let cooldown := if cx_DefaultRateLimitCooldown cx <=? 0 then minute else cx_DefaultRateLimitCooldown cx in
  let cooldown := if 0 <? ee_RetryAfter e then ee_RetryAfter e else cooldown in
  mkDecision category ErrorOriginUpstream ErrorScopeCredential RetryNextCandidate EffectCooldownCredential
    (at_Now a + cooldown) ruleID.

Definition candidatePreparationDecision (e : ErrorEvidence) : option Decision_ :=
  let prepared effect :=
    Some (decision FailureCategoryAmbiguous ErrorOriginInternal (ee_ScopeHint e) RetryNextCandidate effect
            (String.append "candidate." (ee_Code e))) in
  if negb (strEq (ee_OriginHint e) ErrorOriginInternal) then None
  else if oneOf (ee_Code e) ["credential_decrypt_failed"; "credential_normalization_failed"; "credential_proxy_prepare_failed"]%string
  then if negb (strEq (ee_ScopeHint e) ErrorScopeCredential) then None else prepared EffectNone
  else if strEq (ee_Code e) "group_proxy_prepare_failed"
  then if negb (strEq (ee_ScopeHint e) ErrorScopeGroup) then None else prepared EffectSkipGroup
  else None.

Definition normalizeDecisionContext (cx : DecisionContext) : DecisionContext :=
  if cx_DefaultRateLimitCooldown cx <=? 0
  then mkContext (cx_ErrorRules cx) minute (cx_CredentialRefreshable cx) (cx_Method cx) (cx_Operation cx) else cx.

Definition withReplaySafety (s : ReplaySafety) (e : ErrorEvidence) : ErrorEvidence :=
  mkEvidence (ee_Kind e) (ee_Hint e) (ee_OriginHint e) (ee_ScopeHint e) (ee_StatusCode e) (ee_Type e) (ee_Code e)
    (ee_Summary e) (ee_RequestID e) (ee_RetryAfter e) s (ee_Header e).

(** Evidence of a request that was not sent. *)
Definition notSentDecision (a : ExecutionAttempt) (e : ErrorEvidence) (cx : DecisionContext) : Decision_ :=
  match candidatePreparationDecision e with
  | Some d => d
  | None =>
      if strEq (ee_Hint e) FailureHintRefreshRequired then authenticationDecision a e cx
      else if strEq (ee_Hint e) FailureHintRefreshUnavailable then refreshTemporarilyUnavailableDecision a e cx
      else if strEq (ee_Hint e) FailureHintReauthorizationRequired then
        decision FailureCategoryAuthenticationRequired ErrorOriginUpstream ErrorScopeCredential RetryNextCandidate EffectNone
          "auth.reauthorization_required"
      else if strEq (ee_Kind e) ErrorKindHTTP then
        if strEq (originForEvidence e) ErrorOriginUpstream && (400 <=? ee_StatusCode e) && (ee_StatusCode e <=? 599) then
          let e' := withReplaySafety ReplaySafetyRejectedBeforeProcessing e in
          let d := decisionForExecutionCategory (classifyExecutionEvidence a e') a e' cx in
          constrainCommittedDecision (applyRules (cx_ErrorRules cx) d a e' cx) a e'
        else
          decision FailureCategoryAmbiguous (originForEvidence e) (ee_ScopeHint e) RetryNone EffectNone "fallback.not_sent"
      else if strEq (ee_Kind e) ErrorKindTransport || strEq (ee_Kind e) ErrorKindTimeout then
        decision FailureCategoryUpstreamHostError ErrorOriginUpstream ErrorScopeGroup RetryNextCandidate EffectSkipGroup
          "transport.not_sent"
      else if strEq (ee_Kind e) ErrorKindConversionUnsupported then
        decision FailureCategoryConversionUnsupported ErrorOriginInternal ErrorScopeGroup RetryNextCandidate EffectSkipGroup
          "conversion.not_sent"
      else if strEq (ee_Kind e) ErrorKindInvalidRequest then
        decision FailureCategoryClientError (originForEvidence e) (scopeOrDefault (ee_ScopeHint e) ErrorScopeRequest) RetryNone
          EffectNone "request.invalid_before_dispatch"
      else
        decision FailureCategoryAmbiguous (originForEvidence e) (ee_ScopeHint e) RetryNone EffectNone "fallback.not_sent"
  end.

(** Evidence of a request that may have reached the upstream. *)
Definition maybeSentDecision (a : ExecutionAttempt) (e : ErrorEvidence) (cx : DecisionContext) : Decision_ :=
  if negb (responseStarted a e) && (strEq (ee_Kind e) ErrorKindTransport || strEq (ee_Kind e) ErrorKindTimeout) then
    decision FailureCategoryAmbiguous ErrorOriginUpstream (ee_ScopeHint e) RetryNone EffectNone "transport.outcome_unknown"
  else if (100 <=? at_StatusCode a) && (at_StatusCode a <? 200) then
    decision FailureCategoryAmbiguous ErrorOriginUpstream ErrorScopeRequest RetryNone EffectNone
      "safety.final_informational_response"
  else
    let d := decisionForExecutionCategory (classifyExecutionEvidence a e) a e cx in
    let d := applyRules (cx_ErrorRules cx) d a e cx in
    let d := if strEq (ee_ReplaySafety e) ReplaySafetyUnknown && strEq (d_RuleID d) "fallback.ambiguous"
             then withRuleID "safety.replay_unknown" d else d in
    let d := constrainOperationReplay d a e cx in
    constrainCommittedDecision d a e.

Definition evidenceDecision (a : ExecutionAttempt) (e : ErrorEvidence) (cx : DecisionContext) : Decision_ :=
  if strEq (ee_Kind e) ErrorKindCanceled then
    decision FailureCategoryDownstreamCancel ErrorOriginDownstream ErrorScopeRequest RetryNone EffectNone
      "safety.execution_canceled"
  else if strEq (ee_Code e) EmptyResponseCode then
    constrainCommittedDecision
      (decision FailureCategoryAmbiguous ErrorOriginUpstream ErrorScopeRequest RetryNextCandidate EffectNone
         "content.empty_response") a e
  else if strEq (at_DispatchState a) DispatchNotSent then notSentDecision a e cx
  else if negb (strEq (at_DispatchState a) DispatchMaybeSent) then
    decision FailureCategoryAmbiguous (originForEvidence e) (ee_ScopeHint e) RetryNone EffectNone
      "fallback.invalid_dispatch_state"
  else maybeSentDecision a e cx.

Definition JudgeExecution (a : ExecutionAttempt) (cx : DecisionContext) : Decision_ :=
  let cx := normalizeDecisionContext cx in
  let canceled category ruleID :=
    match canceledModelCooldown a cx with
    | Some d => d
    | None => decision category ErrorOriginDownstream ErrorScopeRequest RetryNone EffectNone ruleID
    end in
  match at_DownstreamErr a with
  | DownstreamCanceled | DownstreamDeadlineExceeded => canceled FailureCategoryDownstreamCancel "safety.downstream_cancel"%string
  | DownstreamOther => canceled FailureCategoryAmbiguous "safety.downstream_write_failed"%string
  | DownstreamNone =>
      match at_Evidence a with
      | None =>
          if at_DownstreamCommitted a && isSuccessStatus (at_StatusCode a) then
            decision FailureCategoryOK ErrorOriginUpstream "" RetryNone EffectNone "success.committed_stream"
          else if dispatchValid (at_DispatchState a) && isSuccessStatus (at_StatusCode a) then
            decision FailureCategoryOK ErrorOriginUpstream "" RetryNone EffectNone "success.upstream_response"
          else
            decision FailureCategoryAmbiguous (originForDispatch (at_DispatchState a)) "" RetryNone EffectNone
              "fallback.missing_evidence"
      | Some e => evidenceDecision a e cx
      end
  end.
End judge.
