(* ===== verification/JudgeProps.v ===== *)
(** Properties of the health judgement ([Judge]): every decision is well formed, requests are
    only replayed when that is safe, a response the client has started to read is never
    retried, and custom rules cannot overrule any of it. *)
From S2P Require Import Prelude GoStrings Execution Judge.
From Stdlib Require Import Ascii.

Local Open Scope Z_scope.
Local Open Scope go_scope.

(** * Well-formed decisions *)

Definition ruleOK (r : string) : bool :=
  negb (strEq (TrimSpace r) "") && (slen r <=? 128) && forallb ruleByte (bytes_of r).

Record decision_ok (now : Z) (d : Decision_) : Prop := {
  do_origin : originValid (d_Origin d) = true;
  do_scope : scopeValid (d_Scope d) = true;
  do_retry : retryValid (d_Retry d) = true;
  do_effect : effectValid (d_Effect d) = true;
  do_rule : ruleOK (d_RuleID d) = true;
  do_cooldown : if isCooldown (d_Effect d) then now < d_CooldownUntil d else d_CooldownUntil d = 0
}.

Lemma decision_ok_validates now d : 0 <= now -> decision_ok now d -> decisionValidate d = None.
Proof.
  intros Hn [Ho Hs Hr He Hu Hc]. unfold decisionValidate, ruleOK in *. zb. rewrite Ho, Hs, Hr, He. cbn.
  rewrite H, H0. cbn. assert ((128 <? slen (d_RuleID d)) = false) as -> by (apply Z.ltb_ge; lia).
  destruct (isCooldown (d_Effect d)); cbn.
  - unfold isZeroTime. destruct (Z.eqb_spec (d_CooldownUntil d) 0); [lia|done].
  - by rewrite Hc.
Qed.

Lemma decision_ok_plain now category origin scope retry effect rule :
  originValid origin = true -> scopeValid scope = true -> retryValid retry = true -> effectValid effect = true ->
  ruleOK rule = true -> isCooldown effect = false -> decision_ok now (decision category origin scope retry effect rule).
Proof. intros. split; cbn; try done. by rewrite H4. Qed.

Lemma withRetry_none_ok now d : decision_ok now d -> decision_ok now (withRetry RetryNone d).
Proof. intros []. by split. Qed.
Lemma withRuleID_ok now r d : ruleOK r = true -> decision_ok now d -> decision_ok now (withRuleID r d).
Proof. intros ? []. by split. Qed.
Lemma withEffect_none_ok now d : decision_ok now d -> decision_ok now (withEffect EffectNone 0 d).
Proof. intros []. by split. Qed.
Lemma withScope_ok now s d : scopeValid s = true -> decision_ok now d -> decision_ok now (withScope s d).
Proof. intros ? []. by split. Qed.

(** A well-formed rule set: what [CompileErrorRules] returns, or none at all. *)
Record rule_wf (r : ErrorRule) : Prop := {
  rw_retry : er_Retry r = RetryNone \/ er_Retry r = RetryNextCandidate;
  rw_effect : effectValid (er_Effect r) = true;
  rw_cooldown : if isCooldown (er_Effect r) then 0 < er_CooldownSeconds r <= Z.quot maxInt64 second else er_CooldownSeconds r = 0
}.

Record rules_wf (rules : ErrorRules) : Prop := {
  rs_rules : Forall rule_wf (entries rules);
  rs_length : (length (entries rules) <= 100)%nat;
  rs_source : entries rules = [] \/ source rules = "global"%string \/ source rules = "group"%string
}.

Section props.
Context `{GoText}.

Lemma compileRule_wf i r r' : compileRule i r = Ok r' -> rule_wf r'.
Proof.
  unfold compileRule. destruct (dedupCodes _ _); [|done]. repeat (case_if; [done|]). intros [= <-].
  split; cbn; [|done|].
  - rewrite !andb_false_iff, !negb_false_iff, !strEq_true in E0. tauto.
  - zb. destruct (isCooldown (er_Effect r)); cbn in *; zb; lia.
Qed.

Lemma compileRulesFrom_wf i rs rs' : compileRulesFrom i rs = Ok rs' -> Forall rule_wf rs' /\ length rs' = length rs.
Proof.
  revert i rs'. induction rs as [|r rs IH]; intros i rs'; cbn; [by intros [= <-]|].
  destruct (compileRule i r) as [e|] eqn:Er; [|done]. destruct (compileRulesFrom (i + 1) rs) as [es|] eqn:Es; [|done].
  intros [= <-]. destruct (IH _ _ Es) as [Hf Hl]. split; [constructor; [by eapply compileRule_wf|done]|cbn; lia].
Qed.

Lemma CompileErrorRules_wf rs src rules : CompileErrorRules rs src = Ok rules -> rules_wf rules.
Proof.
  unfold CompileErrorRules. case_if; [done|]. destruct (compileRulesFrom 1 rs) as [es|] eqn:Es; [|done]. intros [= <-].
  destruct (compileRulesFrom_wf _ _ _ Es) as [Hf Hl]. zb. split; cbn; [done|lia|].
  right. rewrite andb_false_iff, !negb_false_iff, !strEq_true in H1. done.
Qed.

Lemma noRules_wf : rules_wf noRules.
Proof. split; cbn; [constructor|lia|by left]. Qed.

(** The identifiers of custom rules. *)
Lemma customRuleID_ok src i :
  (src = "global"%string \/ src = "group"%string) -> (i < 100)%nat -> ruleOK (customRuleID src i) = true.
Proof.
  intros Hs Hi. do 100 (destruct i as [|i]; [destruct Hs as [-> | ->]; vm_compute; reflexivity|]). lia.
Qed.

(** * The reset headers *)

Lemma explicitStep_future now latest v : latest = 0 \/ now < latest -> explicitStep now latest v = 0 \/ now < explicitStep now latest v.
Proof. intros Hl. unfold explicitStep. repeat case_match; zb; auto. Qed.

Lemma ParseExplicitRetryAfter_future h now t : ParseExplicitRetryAfter h now = Some t -> now < t.
Proof.
  unfold ParseExplicitRetryAfter. set (vs := matchingHeaderValues _ _).
  assert (Hf : forall l, l = 0 \/ now < l -> fold_left (explicitStep now) vs l = 0 \/ now < fold_left (explicitStep now) vs l).
  { induction vs as [|v vs IH]; intros l Hl; cbn; [done|]. apply IH. by apply explicitStep_future. }
  specialize (Hf 0 ltac:(by left)). unfold isZeroTime. case_if; [done|]. intros [= <-]. lia.
Qed.

Lemma resetStep_window now ra latest v :
  latest = 0 \/ now < latest <= now + maxRateLimitResetDelay ->
  resetStep now ra latest v = 0 \/ now < resetStep now ra latest v <= now + maxRateLimitResetDelay.
Proof. intros Hl. unfold resetStep. destruct (if ra then _ else _); [|done]. case_if; [done|]. case_if; [zb; lia|done]. Qed.

Lemma latestValidReset_window vs now ra t : latestValidReset vs now ra = Some t -> now < t <= now + maxRateLimitResetDelay.
Proof.
  unfold latestValidReset.
  assert (Hf : forall l, l = 0 \/ now < l <= now + maxRateLimitResetDelay ->
             fold_left (resetStep now ra) vs l = 0 \/ now < fold_left (resetStep now ra) vs l <= now + maxRateLimitResetDelay).
  { induction vs as [|v vs IH]; intros l Hl; cbn; [done|]. apply IH. by apply resetStep_window. }
  specialize (Hf 0 ltac:(by left)). unfold isZeroTime. case_if; [done|]. intros [= <-]. lia.
Qed.

Lemma ParseRateLimitReset_window h now t : ParseRateLimitReset h now = Some t -> now < t <= now + maxRateLimitResetDelay.
Proof.
  unfold ParseRateLimitReset. induction (resetFamilies h) as [|[vs ra] fs IH]; cbn; [done|].
  destruct (latestValidReset vs now ra) eqn:E; [|done]. intros [= <-]. by eapply latestValidReset_window.
Qed.

(** * Every branch of the judgement is well formed *)

Lemma originForEvidence_ok e : evidence_ok e -> originValid (originForEvidence e) = true.
Proof. intros He. unfold originForEvidence. repeat (case_if; try done). apply He. Qed.

Lemma scopeOrDefault_ok v f : scopeValid v = true -> scopeValid f = true -> scopeValid (scopeOrDefault v f) = true.
Proof. intros. unfold scopeOrDefault. by case_if. Qed.

Lemma retryUnless_ok e : retryValid (retryUnlessExplicitlyUnknown e) = true.
Proof. unfold retryUnlessExplicitlyUnknown. by case_if. Qed.

Ltac plain :=
  apply decision_ok_plain;
  first [done | by apply originForEvidence_ok | by apply eo_scope | by apply scopeOrDefault_ok; [apply eo_scope|]
        | apply retryUnless_ok | by repeat case_if].

Lemma rateLimitDecision_ok a e cx :
  evidence_ok e -> 0 < cx_DefaultRateLimitCooldown cx -> decision_ok (at_Now a) (rateLimitDecision a e cx).
Proof.
  intros He Hc. pose proof (originForEvidence_ok e He) as Ho. pose proof (eo_scope e He) as Hs. unfold rateLimitDecision.
  case_if; [plain|]. case_if; [plain|].
  set (ruleID := if strEq (ee_ScopeHint e) ErrorScopeCredential then _ else _).
  assert (Hr : ruleOK ruleID = true) by (subst ruleID; by case_if).
  set (modelScoped := _ && _). destruct (if modelScoped then _ else _) as [[scope effect] rule] eqn:Em.
  assert (Hx : scopeValid scope = true /\ effectValid effect = true /\ isCooldown effect = true /\ ruleOK rule = true)
    by (destruct modelScoped; injection Em as <- <- <-; done).
  destruct Hx as (X1 & X2 & X3 & X4).
  assert (Hd : forall until r, at_Now a < until -> ruleOK r = true ->
             decision_ok (at_Now a) (mkDecision FailureCategoryRateLimited (originForEvidence e) scope
               (retryUnlessExplicitlyUnknown e) effect until r)).
  { intros t r Hu Hr0. split; cbn; try done; [apply retryUnless_ok|by rewrite X3]. }
  case_if; [apply Hd; [lia|done]|]. destruct modelScoped.
  - destruct (ParseExplicitRetryAfter _ _) as [t|] eqn:Et; apply Hd; try done; [by apply ParseExplicitRetryAfter_future in Et|lia].
  - destruct (ParseRateLimitReset _ _) as [t|] eqn:Et; apply Hd; try done; [apply ParseRateLimitReset_window in Et; lia|lia].
Qed.

Lemma authenticationDecision_ok a e cx : decision_ok (at_Now a) (authenticationDecision a e cx).
Proof. unfold authenticationDecision. repeat case_if; plain. Qed.

Lemma hostErrorDecision_ok a e cx : evidence_ok e -> decision_ok (at_Now a) (hostErrorDecision a e cx).
Proof. intros He. unfold hostErrorDecision. repeat case_if; plain. Qed.

Lemma ambiguousRuleID_ok e : ruleOK (ambiguousRuleID e) = true.
Proof. unfold ambiguousRuleID. by repeat case_if. Qed.

Lemma ambiguousDecision_ok c a e cx : evidence_ok e -> decision_ok (at_Now a) (ambiguousDecision c a e cx).
Proof.
  intros He. pose proof (ambiguousRuleID_ok e). unfold ambiguousDecision. repeat case_if; plain.
Qed.

Lemma modelUnavailableRuleID_ok o : ruleOK (modelUnavailableRuleID o) = true.
Proof. unfold modelUnavailableRuleID. by repeat case_if. Qed.

Lemma transientCapacityDecision_ok a e d :
  evidence_ok e -> transientCapacityDecision a e = Some d -> decision_ok (at_Now a) d.
Proof. intros He. unfold transientCapacityDecision. case_if; [done|]. case_if; [done|]. intros [= <-]. plain. Qed.

Lemma decisionForExecutionCategory_ok c a e cx :
  evidence_ok e -> 0 < cx_DefaultRateLimitCooldown cx -> decision_ok (at_Now a) (decisionForExecutionCategory c a e cx).
Proof.
  intros He Hc. unfold decisionForExecutionCategory.
  destruct (transientCapacityDecision a e) as [d|] eqn:Et; [by eapply transientCapacityDecision_ok|].
  case_if; [plain|]. case_if; [case_if; plain|].
  pose proof (modelUnavailableRuleID_ok (cx_Operation cx)).
  destruct c; try plain; auto using rateLimitDecision_ok, authenticationDecision_ok, hostErrorDecision_ok, ambiguousDecision_ok.
Qed.

Lemma firstMatch_spec i a e rs j r : firstMatch i a e rs = Some (j, r) -> r ∈ rs /\ (i <= j < i + length rs)%nat.
Proof.
  revert i. induction rs as [|x rs IH]; intros i; cbn; [done|]. case_if.
  - intros [= <- <-]. split; [constructor|lia].
  - intros Hm. apply IH in Hm as [Hin Hj]. split; [by constructor|lia].
Qed.

Lemma applyRules_ok rules base a e cx :
  rules_wf rules -> decision_ok (at_Now a) base -> decision_ok (at_Now a) (applyRules rules base a e cx).
Proof.
  intros [Hw Hl Hs] Hb. unfold applyRules. case_if; [done|].
  destruct (firstMatch 0 a e (entries rules)) as [[i r]|] eqn:Em; [|done].
  apply firstMatch_spec in Em as [Hin Hi]. rewrite Forall_forall in Hw. destruct (Hw r Hin) as [Hr He Hc].
  assert (Hid : ruleOK (customRuleID (source rules) i) = true).
  { apply customRuleID_ok; [|lia]. destruct Hs as [Hs|Hs]; [|done]. rewrite Hs in Hi. cbn in Hi. lia. }
  destruct Hb as [B1 B2 B3 B4 B5 B6].
  assert (Hrv : retryValid (er_Retry r) = true) by (by destruct Hr as [-> | ->]).
  unfold applyRule. cbv zeta. set (base1 := if _ || _ then withScope _ _ else _).
  set (d := if isCooldown (d_Effect base1) then _ else _).
  assert (Hd : decision_ok (at_Now a) d).
  { assert (H1 : d_Effect base1 = er_Effect r \/ d_Effect base1 = EffectNone) by (subst base1; repeat case_if; cbn; auto).
    assert (H2 : originValid (d_Origin base1) = true /\ scopeValid (d_Scope base1) = true /\ retryValid (d_Retry base1) = true
                 /\ effectValid (d_Effect base1) = true /\ ruleOK (d_RuleID base1) = true /\ d_CooldownUntil base1 = 0)
      by (subst base1; repeat case_if; cbn; done).
    destruct H2 as (? & ? & ? & ? & ? & H0). subst d. destruct (isCooldown (d_Effect base1)) eqn:Ec.
    - split; cbn; try done. rewrite Ec. destruct H1 as [H1|H1]; rewrite H1 in Ec; [|done]. rewrite Ec in Hc. unfold second. lia.
    - split; try done. by rewrite Ec. }
  repeat case_if; auto; by apply withRuleID_ok, withRetry_none_ok.
Qed.

Lemma constrainOperationReplay_ok d a e cx : decision_ok (at_Now a) d -> decision_ok (at_Now a) (constrainOperationReplay d a e cx).
Proof. intros Hd. unfold constrainOperationReplay. repeat case_if; auto. by apply withRuleID_ok, withRetry_none_ok. Qed.

Lemma constrainCommittedDecision_ok d a e : decision_ok (at_Now a) d -> decision_ok (at_Now a) (constrainCommittedDecision d a e).
Proof.
  intros Hd. unfold constrainCommittedDecision. case_if; [done|]. cbv zeta. set (d2 := if strEq (d_Effect d) _ then _ else _).
  assert (H2 : decision_ok (at_Now a) d2).
  { apply withRetry_none_ok in Hd. subst d2. repeat case_if; auto using withEffect_none_ok. }
  repeat case_if; auto; by apply withRuleID_ok.
Qed.

Lemma withReplaySafety_ok s e : replaySafetyValid s = true -> evidence_ok e -> evidence_ok (withReplaySafety s e).
Proof. intros ? []. by split. Qed.

Lemma candidatePreparationDecision_ok now e d :
  evidence_ok e -> candidatePreparationDecision e = Some d -> decision_ok now d.
Proof.
  intros He. unfold candidatePreparationDecision. case_if; [done|]. destruct (oneOf (ee_Code e) _) eqn:Eo.
  - case_if; [done|]. intros [= <-]. unfold oneOf in Eo. apply bool_decide_eq_true in Eo.
    repeat (apply elem_of_cons in Eo as [-> |Eo]; [plain|]). by apply elem_of_nil in Eo.
  - destruct (strEq (ee_Code e) _) eqn:Es; [|done]. case_if; [done|]. intros [= <-]. apply strEq_true in Es as ->. plain.
Qed.

Lemma refreshDecision_ok a e cx : evidence_ok e -> decision_ok (at_Now a) (refreshTemporarilyUnavailableDecision a e cx).
Proof.
  intros He. unfold refreshTemporarilyUnavailableDecision.
  assert (Hd : forall c k r, 0 < k -> ruleOK r = true -> decision_ok (at_Now a)
             (mkDecision c ErrorOriginUpstream ErrorScopeCredential RetryNextCandidate EffectCooldownCredential (at_Now a + k) r)).
  { intros c k r Hk Hr. split; try done. change (at_Now a < at_Now a + k). lia. }
  repeat case_if; apply Hd; try done; lia.
Qed.

Lemma normalize_positive cx : 0 < cx_DefaultRateLimitCooldown (normalizeDecisionContext cx).
Proof. unfold normalizeDecisionContext. case_if; [unfold minute; cbn|]; lia. Qed.

Lemma normalize_rules cx : cx_ErrorRules (normalizeDecisionContext cx) = cx_ErrorRules cx.
Proof. unfold normalizeDecisionContext. by case_if. Qed.

Lemma normalize_operation cx : cx_Operation (normalizeDecisionContext cx) = cx_Operation cx.
Proof. unfold normalizeDecisionContext. by case_if. Qed.

Lemma notSentDecision_ok a e cx :
  evidence_ok e -> rules_wf (cx_ErrorRules cx) -> 0 < cx_DefaultRateLimitCooldown cx -> decision_ok (at_Now a) (notSentDecision a e cx).
Proof.
  intros He Hr Hc. unfold notSentDecision.
  destruct (candidatePreparationDecision e) as [d|] eqn:Ed; [by eapply candidatePreparationDecision_ok|].
  case_if; [apply authenticationDecision_ok|]. case_if; [by apply refreshDecision_ok|]. case_if; [plain|].
  case_if; [case_if; [|plain]|repeat (case_if; [plain|]); plain].
  apply constrainCommittedDecision_ok, applyRules_ok; [done|]. apply decisionForExecutionCategory_ok; [|done].
  by apply withReplaySafety_ok.
Qed.

Lemma maybeSentDecision_ok a e cx :
  evidence_ok e -> rules_wf (cx_ErrorRules cx) -> 0 < cx_DefaultRateLimitCooldown cx -> decision_ok (at_Now a) (maybeSentDecision a e cx).
Proof.
  intros He Hr Hc. unfold maybeSentDecision. case_if; [plain|]. case_if; [plain|].
  apply constrainCommittedDecision_ok, constrainOperationReplay_ok.
  assert (Hd : decision_ok (at_Now a) (applyRules (cx_ErrorRules cx)
                 (decisionForExecutionCategory (classifyExecutionEvidence a e) a e cx) a e cx))
    by (apply applyRules_ok; [done|by apply decisionForExecutionCategory_ok]).
  case_if; [by apply withRuleID_ok|done].
Qed.

Lemma evidenceDecision_ok a e cx :
  evidence_ok e -> rules_wf (cx_ErrorRules cx) -> 0 < cx_DefaultRateLimitCooldown cx -> decision_ok (at_Now a) (evidenceDecision a e cx).
Proof.
  intros He Hr Hc. unfold evidenceDecision. case_if; [plain|]. case_if; [apply constrainCommittedDecision_ok; plain|].
  case_if; [by apply notSentDecision_ok|]. case_if; [plain|]. by apply maybeSentDecision_ok.
Qed.

Lemma canceledModelCooldown_ok a cx d :
  (forall e, at_Evidence a = Some e -> evidence_ok e) -> 0 < cx_DefaultRateLimitCooldown cx ->
  canceledModelCooldown a cx = Some d -> decision_ok (at_Now a) d /\ d_Retry d = RetryNone /\ d_Effect d = EffectCooldownModel.
Proof.
  intros He Hc. unfold canceledModelCooldown. destruct (at_Evidence a) as [e|]; [|done]. case_if; [done|]. case_if; [|done].
  intros [= <-]. split_and!; [|done|by apply strEq_true].
  apply withRetry_none_ok, decisionForExecutionCategory_ok; auto.
Qed.

Lemma judge_ok a cx :
  (forall e, at_Evidence a = Some e -> evidence_ok e) -> rules_wf (cx_ErrorRules cx) ->
  decision_ok (at_Now a) (JudgeExecution a cx).
Proof.
  intros He Hr. unfold JudgeExecution. cbv zeta. pose proof (normalize_positive cx) as Hp. rewrite <- normalize_rules in Hr.
  assert (Hcan : forall c r, ruleOK r = true -> decision_ok (at_Now a)
     match canceledModelCooldown a (normalizeDecisionContext cx) with
     | Some d => d | None => decision c ErrorOriginDownstream ErrorScopeRequest RetryNone EffectNone r end).
  { intros c r Hr0. destruct (canceledModelCooldown _ _) as [d|] eqn:Ec; [|plain]. by apply (canceledModelCooldown_ok _ _ _ He Hp Ec). }
  destruct (at_DownstreamErr a); try (by apply Hcan).
  destruct (at_Evidence a) as [e|]; [by apply evidenceDecision_ok; auto|].
  repeat (case_if; [plain|]). apply decision_ok_plain; try done. unfold originForDispatch. by repeat case_if.
Qed.

(** * When a request is replayed *)

Lemma retryable_safety a e : retryableUpstreamResponse a e = true -> ee_ReplaySafety e <> ReplaySafetyUnknown.
Proof. unfold retryableUpstreamResponse. intros Hr Hu. by rewrite Hu, strEq_refl, orb_true_r in Hr. Qed.

Lemma retryUnless_safety e : retryUnlessExplicitlyUnknown e <> RetryNone -> ee_ReplaySafety e <> ReplaySafetyUnknown.
Proof. intros Hr Hu. apply Hr. unfold retryUnlessExplicitlyUnknown. by rewrite Hu. Qed.

Lemma rejected_safety e : strEq (ee_ReplaySafety e) ReplaySafetyRejectedBeforeProcessing = true -> ee_ReplaySafety e <> ReplaySafetyUnknown.
Proof. intros Hs%strEq_true. by rewrite Hs. Qed.

(** A decision for a request that may have been sent asks for a retry only when the outcome
    is not explicitly unknown. *)
Lemma decisionForExecutionCategory_safety c a e cx :
  at_DispatchState a = DispatchMaybeSent -> d_Retry (decisionForExecutionCategory c a e cx) <> RetryNone ->
  ee_ReplaySafety e <> ReplaySafetyUnknown.
Proof.
  intros Hd. unfold decisionForExecutionCategory, transientCapacityDecision.
  destruct (_ || _ || _ || _) eqn:Et.
  2: { apply orb_false_iff in Et as [Et _]. apply orb_false_iff in Et as [Et _]. apply orb_false_iff in Et as [_ Et].
       apply negb_false_iff in Et. intros _. by apply rejected_safety. }
  case_if; [done|]. case_if; [case_if; [done|intros _ Hu; by rewrite Hu in E1]|].
  destruct c; try done.
  - unfold ambiguousDecision. case_if; [|done]. intros _. by eapply retryable_safety.
  - unfold rateLimitDecision. case_if; [apply retryUnless_safety|]. case_if; [done|]. set (m := _ && _). destruct (if m then _ else _) as [[sc ef] ru].
    repeat case_match; cbn; apply retryUnless_safety.
  - apply retryUnless_safety.
  - apply retryUnless_safety.
  - unfold hostErrorDecision. case_if; [intros _; by apply rejected_safety|]. case_if; [|done]. zb. intros _. by eapply retryable_safety.
  - unfold ambiguousDecision. case_if; [|done]. intros _. by eapply retryable_safety.
  - unfold authenticationDecision. rewrite Hd, strEq_refl. cbn [andb]. case_if; [done|]. intros _.
    by apply rejected_safety.
Qed.

Lemma applyRule_safety src i r base a e cx : d_Retry (applyRule src i r base a e cx) <> RetryNone -> retryableUpstreamResponse a e = true.
Proof.
  unfold applyRule. cbv zeta. set (d := if isCooldown _ then _ else _). destruct (strEq (d_Retry d) RetryNone) eqn:Er; cbn [negb].
  - apply strEq_true in Er. by rewrite Er.
  - destruct (retryableUpstreamResponse a e); [done|]. cbn. done.
Qed.

Lemma applyRules_safety rules base a e cx :
  (d_Retry base <> RetryNone -> ee_ReplaySafety e <> ReplaySafetyUnknown) ->
  d_Retry (applyRules rules base a e cx) <> RetryNone -> ee_ReplaySafety e <> ReplaySafetyUnknown.
Proof.
  intros Hb. unfold applyRules. case_if; [done|]. destruct (firstMatch _ _ _ _) as [[i r]|]; [|done].
  intros Hr%applyRule_safety. by eapply retryable_safety.
Qed.

Lemma constrainOperation_safety d a e cx :
  at_DispatchState a = DispatchMaybeSent -> d_Retry (constrainOperationReplay d a e cx) <> RetryNone ->
  d_Retry d <> RetryNone
  /\ (ReplayPolicy (cx_Operation cx) = ReplayPolicyRequireRejectedBeforeProcessing ->
      ee_ReplaySafety e = ReplaySafetyRejectedBeforeProcessing).
Proof.
  intros Hd. unfold constrainOperationReplay. rewrite Hd, strEq_refl, orb_false_r.
  destruct (strEq (d_Retry d) RetryNone) eqn:Er; [apply strEq_true in Er; by rewrite Er|]. cbn [orb].
  apply strEq_false in Er. case_bool_decide as Hp; cbn [negb]; [|by auto].
  destruct (strEq (ee_ReplaySafety e) _) eqn:Es; [|done]. apply strEq_true in Es. auto.
Qed.

Lemma constrainCommitted_retry d a e : d_Retry (constrainCommittedDecision d a e) <> RetryNone ->
  at_DownstreamCommitted a = false /\ constrainCommittedDecision d a e = d.
Proof.
  unfold constrainCommittedDecision. destruct (at_DownstreamCommitted a); [|done]. cbn [negb]. cbv zeta.
  repeat case_if; cbn; done.
Qed.

(** * Who is blamed *)

(** Categories that say nothing against the credential, the model or the group. *)
Definition blameless (c : FailureCategory) : bool :=
  match c with
  | FailureCategoryOK | FailureCategoryClientError | FailureCategoryDownstreamCancel | FailureCategoryAuthenticationRequired => true
  | _ => false
  end.

(** What holds of a decision without custom rules, and of every later stage. *)
Definition fair_blame (rules : ErrorRules) (d : Decision_) : Prop :=
  (blameless (d_Category d) = true -> d_Effect d = EffectNone)
  /\ (entries rules = [] -> d_Effect d = EffectRecordCredentialFailure -> d_Category d = FailureCategoryInvalidKey).

Lemma fair_blame_none rules d : d_Effect d = EffectNone -> fair_blame rules d.
Proof. intros He. split; rewrite He; done. Qed.

Lemma decisionForExecutionCategory_blame rules c a e cx : fair_blame rules (decisionForExecutionCategory c a e cx).
Proof.
  unfold decisionForExecutionCategory, transientCapacityDecision.
  destruct (_ || _ || _ || _); [|destruct (Bool.eqb _ _); [|by apply fair_blame_none]];
    (case_if; [by apply fair_blame_none|]; case_if; [case_if; by apply fair_blame_none|]; destruct c; try (by split); try (by apply fair_blame_none)).
  all: unfold ambiguousDecision, rateLimitDecision, authenticationDecision, hostErrorDecision.
  all: repeat case_match; simplify_eq; by split.
Qed.

Lemma classify_category a e :
  classifyExecutionEvidence a e <> FailureCategoryOK /\ classifyExecutionEvidence a e <> FailureCategoryDownstreamCancel
  /\ classifyExecutionEvidence a e <> FailureCategoryConversionUnsupported.
Proof.
  unfold classifyExecutionEvidence, categoryForHint. repeat case_match; simplify_eq; done.
Qed.

Lemma decisionForExecutionCategory_category c a e cx :
  d_Category (decisionForExecutionCategory c a e cx) = c
  \/ d_Category (decisionForExecutionCategory c a e cx) = FailureCategoryRateLimited
  \/ d_Category (decisionForExecutionCategory c a e cx) = FailureCategoryUpstreamHostError.
Proof.
  unfold decisionForExecutionCategory, transientCapacityDecision.
  destruct (_ || _ || _ || _); [|destruct (Bool.eqb _ _); [|case_if; auto]];
    (case_if; [auto|]; case_if; [case_if; auto|]; destruct c; auto; left).
  all: unfold ambiguousDecision, rateLimitDecision, authenticationDecision, hostErrorDecision; repeat case_match; done.
Qed.

Lemma applyRules_category rules base a e cx : d_Category (applyRules rules base a e cx) = d_Category base.
Proof.
  unfold applyRules. case_if; [done|]. destruct (firstMatch _ _ _ _) as [[i r]|]; [|done]. unfold applyRule. cbv zeta.
  repeat case_if; done.
Qed.

Lemma applyRules_blame rules base a e cx :
  fair_blame rules base -> d_Category base <> FailureCategoryOK -> d_Category base <> FailureCategoryDownstreamCancel ->
  fair_blame rules (applyRules rules base a e cx).
Proof.
  intros [B1 B2] Hok Hdc. split.
  - rewrite applyRules_category. intros Hb. specialize (B1 Hb). unfold applyRules.
    assert (rulesExempt rules base a e = true) as ->; [|done].
    unfold rulesExempt. destruct (d_Category base); try done; cbn; rewrite ?orb_true_r; done.
  - intros Hn. unfold applyRules. assert (rulesExempt rules base a e = true) as ->; [|by apply B2].
    unfold rulesExempt. by rewrite Hn.
Qed.

Lemma constrainCommitted_blame rules d a e : fair_blame rules d -> fair_blame rules (constrainCommittedDecision d a e).
Proof.
  intros Hb. unfold constrainCommittedDecision. case_if; [done|]. cbv zeta.
  repeat case_if; first [by apply fair_blame_none | done].
Qed.

Lemma sent_decision_blame rules c a e cx :
  c <> FailureCategoryOK -> c <> FailureCategoryDownstreamCancel ->
  fair_blame rules (applyRules rules (decisionForExecutionCategory c a e cx) a e cx).
Proof.
  intros H1 H2. apply applyRules_blame; [apply decisionForExecutionCategory_blame|..];
    destruct (decisionForExecutionCategory_category c a e cx) as [-> |[-> | ->]]; done.
Qed.

Lemma evidenceDecision_blame a e cx : fair_blame (cx_ErrorRules cx) (evidenceDecision a e cx).
Proof.
  destruct (classify_category a e) as (C1 & C2 & _). unfold evidenceDecision. case_if; [by apply fair_blame_none|].
  case_if; [by apply constrainCommitted_blame, fair_blame_none|]. case_if; [|case_if; [by apply fair_blame_none|]].
  - unfold notSentDecision, candidatePreparationDecision, authenticationDecision, refreshTemporarilyUnavailableDecision.
    set (e' := withReplaySafety _ e). destruct (classify_category a e') as (D1 & D2 & _).
    repeat case_match; simplify_eq; first [by apply fair_blame_none | by split | by apply constrainCommitted_blame, sent_decision_blame].
  - unfold maybeSentDecision. case_if; [by apply fair_blame_none|]. case_if; [by apply fair_blame_none|].
    apply constrainCommitted_blame.
    pose proof (sent_decision_blame (cx_ErrorRules cx) _ a e cx C1 C2) as Hs. unfold constrainOperationReplay.
    repeat case_if; done.
Qed.
End props.

(** * After the response has reached the client *)

Lemma constrainCommitted_effect d0 a e :
  at_DownstreamCommitted a = true ->
  let d := constrainCommittedDecision d0 a e in
  d_Effect d = EffectNone \/ d_Effect d = EffectCooldownModel /\ ee_Hint e = FailureHintRateLimited
  \/ d_Scope d = ErrorScopeCredential /\ (ee_ScopeHint e = ErrorScopeCredential
     \/ d_Effect d = EffectRecordCredentialFailure /\ ee_Hint e = FailureHintInvalidCredential).
Proof.
  intros Hc d. subst d. unfold constrainCommittedDecision. rewrite Hc. cbn [negb]. cbv zeta.
  set (P := fun d => d_Effect d = EffectNone \/ d_Effect d = EffectCooldownModel /\ ee_Hint e = FailureHintRateLimited
    \/ d_Scope d = ErrorScopeCredential /\ (ee_ScopeHint e = ErrorScopeCredential
       \/ d_Effect d = EffectRecordCredentialFailure /\ ee_Hint e = FailureHintInvalidCredential)).
  set (d2 := if strEq (d_Effect d0) EffectCooldownModel then _ else _).
  enough (Hp : P d2) by (repeat case_if; exact Hp).
  subst d2. unfold trustedCommittedCredentialEffect. destruct (strEq (d_Effect d0) EffectCooldownModel) eqn:E1.
  - apply strEq_true in E1. destruct (strEq (ee_Hint e) FailureHintRateLimited) eqn:E2; [|by left]. apply strEq_true in E2.
    case_if; [by left|]. right; left. by cbn.
  - case_if; [|by left]. cbn [d_Scope withRetry]. destruct (strEq (d_Scope d0) ErrorScopeCredential) eqn:E2; [|by left].
    apply strEq_true in E2. destruct (strEq (ee_ScopeHint e) ErrorScopeCredential) eqn:E3; cbn [negb];
      [apply strEq_true in E3; right; right; by auto|].
    destruct (strEq (d_Effect (withRetry RetryNone d0)) EffectRecordCredentialFailure) eqn:E4; [|by left].
    destruct (strEq (ee_Hint e) FailureHintInvalidCredential) eqn:E5; [|by left]. apply strEq_true in E4, E5.
    right; right. by auto.
Qed.

(** * The theorems *)

(** Rules as the configuration holds them: none, or compiled. *)
Definition compiledRules `{GoText} (rules : ErrorRules) : Prop :=
  rules = noRules \/ exists rs src, CompileErrorRules rs src = Ok rules.

Lemma compiledRules_wf `{GoText} rules : compiledRules rules -> rules_wf rules.
Proof. intros [-> |(rs & src & Hc)]; [apply noRules_wf|by eapply CompileErrorRules_wf]. Qed.

Definition validEvidence (a : ExecutionAttempt) : Prop := forall e, at_Evidence a = Some e -> evidenceValidate e = None.

(** C7: Every judgement is a valid decision.  For an attempt whose evidence passes the
    contract's validation, and with no custom rules or compiled ones, the decision passes its
    own validation on every branch, and a cooldown always ends after the attempt: retry-after
    values, reset headers, custom and default durations never yield an instant in the past. *)
Theorem judge_decision_valid `{GoText} a cx :
  validEvidence a -> compiledRules (cx_ErrorRules cx) -> 0 <= at_Now a ->
  let d := JudgeExecution a cx in
  decisionValidate d = None /\ (isCooldown (d_Effect d) = true -> at_Now a < d_CooldownUntil d).
Proof.
  intros He Hr Hn d. assert (Hok : decision_ok (at_Now a) d).
  { apply judge_ok; [|by apply compiledRules_wf]. intros e Ee. by apply evidenceValidate_ok, He. }
  split; [by eapply decision_ok_validates|]. intros Hc. pose proof (do_cooldown _ _ Hok) as Hd. by rewrite Hc in Hd.
Qed.

(** What has to hold before a request is sent again after attempt [a]. *)
Definition replay_safe (a : ExecutionAttempt) (cx : DecisionContext) : Prop :=
  at_DownstreamErr a = DownstreamNone
  /\ exists e, at_Evidence a = Some e
     /\ (ee_Code e = EmptyResponseCode /\ at_DownstreamCommitted a = false
         \/ at_DispatchState a = DispatchNotSent
         \/ at_DispatchState a = DispatchMaybeSent /\ at_DownstreamCommitted a = false
            /\ ee_ReplaySafety e <> ReplaySafetyUnknown
            /\ (responseStarted a e = true \/ ee_Kind e <> ErrorKindTransport /\ ee_Kind e <> ErrorKindTimeout)
            /\ (ReplayPolicy (cx_Operation cx) = ReplayPolicyRequireRejectedBeforeProcessing ->
                ee_ReplaySafety e = ReplaySafetyRejectedBeforeProcessing)).

Lemma judge_retry_safe `{GoText} a cx : d_Retry (JudgeExecution a cx) <> RetryNone -> replay_safe a cx.
Proof.
  unfold replay_safe, JudgeExecution. cbv zeta. set (cx' := normalizeDecisionContext cx).
  assert (Hcan : forall c r, d_Retry match canceledModelCooldown a cx' with
     | Some d => d | None => decision c ErrorOriginDownstream ErrorScopeRequest RetryNone EffectNone r end = RetryNone).
  { intros c r. unfold canceledModelCooldown. repeat case_match; simplify_eq; done. }
  destruct (at_DownstreamErr a); try (by rewrite Hcan). intros Hr. split; [done|]. revert Hr.
  destruct (at_Evidence a) as [e|]; [|by repeat case_if]. intros Hr. exists e. split; [done|].
  revert Hr. unfold evidenceDecision. case_if; [done|]. destruct (strEq (ee_Code e) EmptyResponseCode) eqn:Ec.
  { apply strEq_true in Ec. intros [Hc _]%constrainCommitted_retry. by left. }
  destruct (strEq (at_DispatchState a) DispatchNotSent) eqn:En; [apply strEq_true in En; intros _; by right; left|].
  destruct (strEq (at_DispatchState a) DispatchMaybeSent) eqn:Em; [apply strEq_true in Em; cbn [negb]|done].
  unfold maybeSentDecision. destruct (negb (responseStarted a e) && _) eqn:Et; [done|]. case_if; [done|].
  intros Hr. destruct (constrainCommitted_retry _ _ _ Hr) as [Hcom Heq]. rewrite Heq in Hr.
  destruct (constrainOperation_safety _ _ _ _ Em Hr) as [Hr' Hpol].
  right; right. split_and!; [done|done| | |].
  - apply (applyRules_safety (cx_ErrorRules cx') (decisionForExecutionCategory (classifyExecutionEvidence a e) a e cx') a e cx').
    + by apply decisionForExecutionCategory_safety.
    + by case_if_in Hr'.
  - apply andb_false_iff in Et as [Et|Et]; [left; by apply negb_false_iff|right].
    by rewrite orb_false_iff, !strEq_false in Et.
  - intros Hp. apply Hpol. unfold cx'. by rewrite normalize_operation.
Qed.

(** A request is replayed only when that is safe.  A retry is only asked for when the client
    is still there and evidence was given; and then either the upstream answered with nothing
    at all, or the request was never sent, or it may have been sent and: nothing has reached
    the client, the outcome is not explicitly unknown, it is not a broken connection without a
    response, and an operation that must not run twice has been rejected before processing.
    Custom rules cannot widen this. *)
Theorem judge_replay_safe `{GoText} a cx :
  d_Retry (JudgeExecution a cx) <> RetryNone ->
  at_DownstreamErr a = DownstreamNone
  /\ exists e, at_Evidence a = Some e
     /\ (ee_Code e = EmptyResponseCode /\ at_DownstreamCommitted a = false
         \/ at_DispatchState a = DispatchNotSent
         \/ at_DispatchState a = DispatchMaybeSent /\ at_DownstreamCommitted a = false
            /\ ee_ReplaySafety e <> ReplaySafetyUnknown
            /\ (responseStarted a e = true \/ ee_Kind e <> ErrorKindTransport /\ ee_Kind e <> ErrorKindTimeout)
            /\ (ReplayPolicy (cx_Operation cx) = ReplayPolicyRequireRejectedBeforeProcessing ->
                ee_ReplaySafety e = ReplaySafetyRejectedBeforeProcessing)).
Proof. apply judge_retry_safe. Qed.

(** Blame falls where it belongs.  A success, a client error, a cancelled request and a
    credential that needs a new login never cool down or fail anything; without custom rules
    only an invalid key counts as a credential failure; and once a response has reached the
    client, only explicitly rate-limited models and explicitly blamed credentials are affected,
    and the group is never skipped. *)
Theorem judge_blames_fairly `{GoText} a cx :
  let d := JudgeExecution a cx in
  (blameless (d_Category d) = true -> d_Effect d = EffectNone)
  /\ (entries (cx_ErrorRules cx) = [] -> d_Effect d = EffectRecordCredentialFailure -> d_Category d = FailureCategoryInvalidKey)
  /\ (forall e, at_Evidence a = Some e -> at_DownstreamErr a = DownstreamNone -> at_DownstreamCommitted a = true ->
      at_DispatchState a <> DispatchNotSent ->
      d_Effect d = EffectNone
      \/ d_Effect d = EffectCooldownModel /\ ee_Hint e = FailureHintRateLimited
      \/ d_Scope d = ErrorScopeCredential
         /\ (ee_ScopeHint e = ErrorScopeCredential
             \/ d_Effect d = EffectRecordCredentialFailure /\ ee_Hint e = FailureHintInvalidCredential)).
Proof.
  assert (Hcan : forall c r, fair_blame (cx_ErrorRules cx) match canceledModelCooldown a (normalizeDecisionContext cx) with
     | Some d => d | None => decision c ErrorOriginDownstream ErrorScopeRequest RetryNone EffectNone r end).
  { intros c r. unfold canceledModelCooldown. repeat case_match; simplify_eq; try (by apply fair_blame_none).
    pose proof (decisionForExecutionCategory_blame (cx_ErrorRules cx) FailureCategoryRateLimited a e (normalizeDecisionContext cx)). done. }
  intros d. assert (Hb : fair_blame (cx_ErrorRules cx) d).
  { subst d. unfold JudgeExecution. cbv zeta. destruct (at_DownstreamErr a); try (by apply Hcan).
    destruct (at_Evidence a) as [e|]; [rewrite <- normalize_rules; apply evidenceDecision_blame|].
    repeat case_if; by apply fair_blame_none. }
  destruct Hb as [H1 H2]. split_and!; [done|done|]. intros e Ee Hd Hc Hn. subst d. unfold JudgeExecution. cbv zeta. rewrite Hd, Ee.
  assert (Hcom : forall d0, let d := constrainCommittedDecision d0 a e in
     d_Effect d = EffectNone \/ d_Effect d = EffectCooldownModel /\ ee_Hint e = FailureHintRateLimited
     \/ d_Scope d = ErrorScopeCredential /\ (ee_ScopeHint e = ErrorScopeCredential
        \/ d_Effect d = EffectRecordCredentialFailure /\ ee_Hint e = FailureHintInvalidCredential)).
  { intros d0. apply (constrainCommitted_effect d0 a e Hc). }
  unfold evidenceDecision. case_if; [by left|]. case_if; [apply Hcom|]. case_if; [by apply strEq_true in E1|].
  case_if; [by left|]. unfold maybeSentDecision. case_if; [by left|]. case_if; [by left|]. apply Hcom.
Qed.

(** * Concrete attempts *)

#[local] Existing Instance asciiText.

Definition exNow : Z := unixEpoch + 1000 * second.
Definition exLimited : ErrorEvidence :=
  mkEvidence ErrorKindHTTP "" "" "" 429 "" "rate_limit_exceeded" "Too many requests" "" 0 "" {[ "Retry-After" := ["30"] ]}%string.
Definition exContext (rules : ErrorRules) (o : Operation) : DecisionContext := mkContext rules 0 false "POST" o.
Definition exAttempt (dispatch : DispatchState) (committed : bool) (e : ErrorEvidence) : ExecutionAttempt :=
  mkAttempt dispatch (ee_StatusCode e) ∅ (Some e) committed DownstreamNone exNow.
Definition exBroken : ErrorEvidence :=
  mkEvidence ErrorKindTransport "" "" "" 0 "" "" "connection reset" "" 0 "" ∅.

Lemma exAttempt_valid dispatch committed e : evidenceValidate e = None -> validEvidence (exAttempt dispatch committed e).
Proof. by intros He x [= <-]. Qed.

(** The header's half minute is used for the model; a custom rule replaces it by its own. *)
Lemma judge_decision_valid_witness :
  let d0 := JudgeExecution (exAttempt DispatchMaybeSent false exLimited) (exContext noRules OperationChatCompletion) in
  d_Effect d0 = EffectCooldownModel /\ d_CooldownUntil d0 = exNow + 30 * second /\ decisionValidate d0 = None.
Proof.
  split_and!; [by vm_compute..|].
  apply (judge_decision_valid (exAttempt DispatchMaybeSent false exLimited) (exContext noRules OperationChatCompletion));
    [by apply exAttempt_valid; vm_compute|by left|by vm_compute].
Defined.

Example custom_rule_example :
  exists rules, CompileErrorRules [mkRule [429; 429] [" rate_limit "; "RATE_LIMIT"] RetryNextCandidate EffectCooldownCredential 90]%string "group" = Ok rules
  /\ let d := JudgeExecution (exAttempt DispatchMaybeSent false exLimited) (exContext rules OperationChatCompletion) in
     d_Effect d = EffectCooldownCredential /\ d_CooldownUntil d = exNow + 90 * second /\ d_RuleID d = "custom.group.1"%string.
Proof. eexists. split; [by vm_compute|]. by vm_compute. Qed.

(** A rate-limited chat is retried elsewhere and an image generation is not. *)
Lemma judge_replay_safe_witness :
  d_Retry (JudgeExecution (exAttempt DispatchMaybeSent false exLimited) (exContext noRules OperationImagesEdit)) = RetryNone
  /\ d_Retry (JudgeExecution (exAttempt DispatchMaybeSent false exBroken) (exContext noRules OperationChatCompletion)) = RetryNone
  /\ (exists e, at_Evidence (exAttempt DispatchMaybeSent false exLimited) = Some e /\ ee_ReplaySafety e <> ReplaySafetyUnknown).
Proof.
  split_and!; [by vm_compute..|].
  destruct (judge_replay_safe (exAttempt DispatchMaybeSent false exLimited) (exContext noRules OperationChatCompletion))
    as (_ & e & Ee & [[Hc _]|[Hn|Hs]]); [by vm_compute|by injection Ee as <-|done|].
  exists e. split; [done|by apply Hs].
Defined.
