(* ===== verification/HealthStats.v ===== *)
(** Rolling health statistics per credential ([internal/health/stats.go] and
    [runtime_checkpoint.go]): five one-minute buckets, the current streak of failures, and
    their checkpoint.  The store's mutex makes each method atomic. *)
From S2P Require Import Prelude GoStrings Execution Judge.

Local Open Scope Z_scope.
Local Open Scope go_scope.

(** * Data *)

Definition statsBucketCount : Z := 5.
Definition statsBucketWidth : Z := minute.

Record CredentialStats := mkStats {
  cs_Success : Z;
  cs_Failure : Z;
  cs_Problem : Z;
  cs_ConsecutiveFailure : Z;
  cs_ConsecutiveProblem : Z;
  cs_LastFailureCategory : FailureCategory;
  cs_LastStatusCode : Z
}.

Record statsBucket := mkSBucket { sb_minute : Z; sb_valid : bool; sb_success : Z; sb_failure : Z; sb_problem : Z }.

Record credentialStatsWindow := mkSWindow {
  sw_buckets : list statsBucket;
  sw_consecutiveFailure : Z;
  sw_consecutiveProblem : Z;
  sw_lastEventAt : Z;
  sw_lastEventRecorded : bool;
  sw_lastFailureCategory : FailureCategory;
  sw_lastStatusCode : Z
}.

Abbreviation StatsStore := (gmap Z credentialStatsWindow) (only parsing).

Inductive statsEvent := statsEventSuccess | statsEventFailure | statsEventProblem.

#[export] Instance statsEvent_eq : EqDecision statsEvent.
Proof. solve_decision. Defined.

Definition NewStatsStore : StatsStore := ∅.

Definition emptyBucket : statsBucket := mkSBucket 0 false 0 0 0.
Definition emptyStatsWindow : credentialStatsWindow :=
  mkSWindow (replicate 5 emptyBucket) 0 0 0 false FailureCategoryAmbiguous 0.

(** * Recording *)

(** [at.UnixNano() / int64(statsBucketWidth)] *)
Definition statsMinute (t : Z) : Z := Z.quot (i64 (t - unixEpoch)) statsBucketWidth.

Definition statsBucketSlot (m : Z) : nat :=
  let slot := Z.rem m statsBucketCount in
  Z.to_nat (if slot <? 0 then slot + statsBucketCount else slot).

Definition countEvent (event : statsEvent) (b : statsBucket) : statsBucket :=
  match event with
  | statsEventSuccess => mkSBucket (sb_minute b) (sb_valid b) (sb_success b +u 1) (sb_failure b) (sb_problem b)
  | statsEventFailure => mkSBucket (sb_minute b) (sb_valid b) (sb_success b) (sb_failure b +u 1) (sb_problem b +u 1)
  | statsEventProblem => mkSBucket (sb_minute b) (sb_valid b) (sb_success b) (sb_failure b) (sb_problem b +u 1)
  end.

(** The streaks and the last failure, after an event that is not older than the last one. *)
Definition streak (event : statsEvent) (category : FailureCategory) (statusCode t : Z) (w : credentialStatsWindow)
  : credentialStatsWindow :=
  match event with
  | statsEventSuccess => mkSWindow (sw_buckets w) 0 0 t true FailureCategoryAmbiguous 0
  | statsEventFailure =>
      mkSWindow (sw_buckets w) (sw_consecutiveFailure w +u 1) (sw_consecutiveProblem w +u 1) t true category statusCode
  | statsEventProblem =>
      mkSWindow (sw_buckets w) (sw_consecutiveFailure w) (sw_consecutiveProblem w +u 1) t true category statusCode
  end.

Definition withBuckets (bs : list statsBucket) (w : credentialStatsWindow) : credentialStatsWindow :=
  mkSWindow bs (sw_consecutiveFailure w) (sw_consecutiveProblem w) (sw_lastEventAt w) (sw_lastEventRecorded w)
    (sw_lastFailureCategory w) (sw_lastStatusCode w).

Definition recordWindow (event : statsEvent) (category : FailureCategory) (statusCode t : Z) (w : credentialStatsWindow)
  : credentialStatsWindow :=
  let m := statsMinute t in
  let slot := statsBucketSlot m in
  let bucket := default emptyBucket (sw_buckets w !! slot) in
  if sb_valid bucket && (m <? sb_minute bucket) then w
  else
    let bucket := if negb (sb_valid bucket) || (sb_minute bucket <? m) then mkSBucket m true 0 0 0 else bucket in
    let w := withBuckets (<[slot := countEvent event bucket]> (sw_buckets w)) w in
    if sw_lastEventRecorded w && (t <? sw_lastEventAt w) then w else streak event category statusCode t w.

Definition record (s : StatsStore) (credentialID : Z) (event : statsEvent) (category : FailureCategory) (statusCode t : Z)
  : StatsStore :=
  if credentialID =? 0 then s
  else <[credentialID := recordWindow event category statusCode t (mget emptyStatsWindow s credentialID)]> s.

Definition RecordSuccess (s : StatsStore) (credentialID t : Z) : StatsStore :=
  record s credentialID statsEventSuccess FailureCategoryOK 0 t.
Definition RecordFailure (s : StatsStore) (credentialID : Z) (category : FailureCategory) (statusCode t : Z) : StatsStore :=
  record s credentialID statsEventFailure category statusCode t.
Definition RecordProblem (s : StatsStore) (credentialID : Z) (category : FailureCategory) (statusCode t : Z) : StatsStore :=
  record s credentialID statsEventProblem category statusCode t.

Definition statsReset (s : StatsStore) (credentialID : Z) : StatsStore :=
  if credentialID =? 0 then s else delete credentialID s.

Definition clearProblem (w : credentialStatsWindow) : credentialStatsWindow :=
  mkSWindow (sw_buckets w) 0 0 (sw_lastEventAt w) (sw_lastEventRecorded w) FailureCategoryAmbiguous 0.

Definition ClearProblemState (s : StatsStore) (credentialID : Z) : StatsStore :=
  if credentialID =? 0 then s
  else match s !! credentialID with None => s | Some w => <[credentialID := clearProblem w]> s end.

(** * Reading *)

Definition zeroStats : CredentialStats := mkStats 0 0 0 0 0 FailureCategoryAmbiguous 0.

Definition addBucket (first current : Z) (acc : CredentialStats) (b : statsBucket) : CredentialStats :=
  if negb (sb_valid b) || (sb_minute b <? first) || (current <? sb_minute b) then acc
  else mkStats (cs_Success acc +u sb_success b) (cs_Failure acc +u sb_failure b) (cs_Problem acc +u sb_problem b)
         (cs_ConsecutiveFailure acc) (cs_ConsecutiveProblem acc) (cs_LastFailureCategory acc) (cs_LastStatusCode acc).

Definition statsSnapshot (s : StatsStore) (credentialID now : Z) : CredentialStats :=
  if credentialID =? 0 then zeroStats
  else
    match s !! credentialID with
    | None => zeroStats
    | Some w =>
        let current := statsMinute now in
        fold_left (addBucket (current - (statsBucketCount - 1)) current) (sw_buckets w)
          (mkStats 0 0 0 (sw_consecutiveFailure w) (sw_consecutiveProblem w) (sw_lastFailureCategory w) (sw_lastStatusCode w))
    end.

(** * The checkpoint *)

Record StatsRuntimeCheckpoint := mkStatsCheckpoint {
  sc_CredentialID : Z;
  sc_Buckets : list statsBucket;
  sc_ConsecutiveFailure : Z;
  sc_ConsecutiveProblem : Z;
  sc_LastEventAt : Z;
  sc_LastEventRecorded : bool;
  sc_LastFailureCategory : FailureCategory;
  sc_LastStatusCode : Z
}.

Definition captureWindow (kv : Z * credentialStatsWindow) : StatsRuntimeCheckpoint :=
  let w := kv.2 in
  mkStatsCheckpoint kv.1 (sw_buckets w) (sw_consecutiveFailure w) (sw_consecutiveProblem w) (sw_lastEventAt w)
    (sw_lastEventRecorded w) (sw_lastFailureCategory w) (sw_lastStatusCode w).

Definition checkpointOrder (a b : StatsRuntimeCheckpoint) : Prop := sc_CredentialID a <= sc_CredentialID b.
#[export] Instance checkpointOrder_dec : RelDecision checkpointOrder.
Proof. intros a b. unfold checkpointOrder. apply _. Defined.

Definition CaptureStatsCheckpoint (s : StatsStore) : list StatsRuntimeCheckpoint :=
  merge_sort checkpointOrder (captureWindow <$> mentries s).

Definition restoreBucket (bs : list statsBucket) (b : statsBucket) : list statsBucket :=
  if negb (sb_valid b) then bs
  else <[statsBucketSlot (sb_minute b) := mkSBucket (sb_minute b) true (sb_success b) (sb_failure b) (sb_problem b)]> bs.

Definition restoreWindow (c : StatsRuntimeCheckpoint) : credentialStatsWindow :=
  mkSWindow (fold_left restoreBucket (sc_Buckets c) (replicate 5 emptyBucket)) (sc_ConsecutiveFailure c)
    (sc_ConsecutiveProblem c) (sc_LastEventAt c) (sc_LastEventRecorded c) (sc_LastFailureCategory c) (sc_LastStatusCode c).

Definition restoreStats (acc : StatsStore * Z) (c : StatsRuntimeCheckpoint) : StatsStore * Z :=
  if (sc_CredentialID c =? 0) || (statsBucketCount <? Z.of_nat (length (sc_Buckets c))) then acc
  else (<[sc_CredentialID c := restoreWindow c]> acc.1, acc.2 + 1).

Definition RestoreStatsCheckpoint (s : StatsStore) (cs : list StatsRuntimeCheckpoint) : StatsStore * Z :=
  fold_left restoreStats cs (s, 0).

(** * The slot of a minute *)

Lemma slot_mod m : statsBucketSlot m = Z.to_nat (m mod 5).
Proof.
  unfold statsBucketSlot, statsBucketCount. f_equal.
  pose proof (Z.quot_rem m 5 ltac:(lia)). pose proof (Z.div_mod m 5 ltac:(lia)). pose proof (Z.mod_pos_bound m 5 ltac:(lia)).
  pose proof (Z.rem_bound_abs m 5 ltac:(lia)). destruct (Z.ltb_spec (Z.rem m 5) 0); lia.
Qed.

Lemma slot_range m : (statsBucketSlot m < 5)%nat.
Proof. rewrite slot_mod. pose proof (Z.mod_pos_bound m 5 ltac:(lia)). lia. Qed.

(** Minutes of one slot are five apart. *)
Lemma slot_gap m n : statsBucketSlot m = statsBucketSlot n -> m < n -> m + 5 <= n.
Proof.
  rewrite !slot_mod. intros E Hlt. pose proof (Z.mod_pos_bound m 5 ltac:(lia)). pose proof (Z.mod_pos_bound n 5 ltac:(lia)).
  pose proof (Z.div_mod m 5 ltac:(lia)). pose proof (Z.div_mod n 5 ltac:(lia)). nia.
Qed.

(** * What the statistics count

    The five minutes of a snapshot hold
    exactly the recorded events, in whatever order they arrived, and the checkpoint restores
    every window. *)

(** * The log of one credential *)

Inductive statsOp := OpEvent (event : statsEvent) (category : FailureCategory) (statusCode t : Z) | OpClear.

Definition isSuccess (e : statsEvent) : bool := match e with statsEventSuccess => true | _ => false end.
Definition isFailure (e : statsEvent) : bool := match e with statsEventFailure => true | _ => false end.
Definition isProblem (e : statsEvent) : bool := negb (isSuccess e).

(** The number of events in the minutes from [lo] to [hi] that [sel] selects. *)
Definition countOf (sel : statsEvent -> bool) (lo hi : Z) (log : list statsOp) : Z :=
  foldr (fun op acc => match op with
    | OpEvent e _ _ t => if sel e && ((lo <=? statsMinute t) && (statsMinute t <=? hi)) then acc + 1 else acc
    | OpClear => acc end) 0 log.

Lemma countOf_snoc sel lo hi log op :
  countOf sel lo hi (log ++ [op]) = countOf sel lo hi log + countOf sel lo hi [op].
Proof.
  unfold countOf. rewrite foldr_app. cbn. set (x := match op with OpEvent _ _ _ _ => _ | OpClear => _ end).
  induction log as [|o log IH]; cbn; [lia|]. rewrite IH. destruct o; [|done]. case_if; lia.
Qed.

Lemma countOf_cons sel lo hi op log :
  countOf sel lo hi (op :: log) = match op with
    | OpEvent e _ _ t => if sel e && ((lo <=? statsMinute t) && (statsMinute t <=? hi)) then countOf sel lo hi log + 1 else countOf sel lo hi log
    | OpClear => countOf sel lo hi log end.
Proof. done. Qed.
Arguments countOf : simpl never.

(** The minutes of the log. *)
Definition minutes (log : list statsOp) : list Z :=
  omap (fun op => match op with OpEvent _ _ _ t => Some (statsMinute t) | OpClear => None end) log.

Lemma countOf_none sel lo hi log : (forall m, m ∈ minutes log -> m < lo \/ hi < m) -> countOf sel lo hi log = 0.
Proof.
  induction log as [|o log IH]; intros Hm; [done|]. rewrite countOf_cons. destruct o as [e c s t|]; cbn in *.
  - rewrite IH by (intros m Hin; apply Hm; by constructor).
    destruct (Hm (statsMinute t) ltac:(constructor)); destruct (Z.leb_spec lo (statsMinute t)), (Z.leb_spec (statsMinute t) hi);
      try lia; by rewrite ?andb_false_r.
  - by apply IH.
Qed.

Lemma countOf_five sel m log :
  countOf sel (m - 4) m log =
  countOf sel (m - 4) (m - 4) log + countOf sel (m - 3) (m - 3) log + countOf sel (m - 2) (m - 2) log
  + countOf sel (m - 1) (m - 1) log + countOf sel m m log.
Proof.
  induction log as [|o log IH]; [done|]. rewrite !countOf_cons. destruct o as [e c s t|]; [|done].
  destruct (sel e); cbn [andb]; [|done]. set (x := statsMinute t).
  repeat match goal with |- context [?a <=? ?b] => destruct (Z.leb_spec a b) end; cbn [andb]; lia.
Qed.

(** * The buckets *)

Definition bucket_ok (log : list statsOp) (slot : nat) (b : statsBucket) : Prop :=
  if sb_valid b then
    statsBucketSlot (sb_minute b) = slot /\ sb_minute b ∈ minutes log
    /\ (forall m, m ∈ minutes log -> statsBucketSlot m = slot -> m <= sb_minute b)
    /\ sb_success b = u64 (countOf isSuccess (sb_minute b) (sb_minute b) log)
    /\ sb_failure b = u64 (countOf isFailure (sb_minute b) (sb_minute b) log)
    /\ sb_problem b = u64 (countOf isProblem (sb_minute b) (sb_minute b) log)
  else b = emptyBucket /\ (forall m, m ∈ minutes log -> statsBucketSlot m <> slot).

Record window_ok (log : list statsOp) (w : credentialStatsWindow) : Prop := {
  wk_len : length (sw_buckets w) = 5%nat;
  wk_bucket : forall i b, sw_buckets w !! i = Some b -> bucket_ok log i b
}.

Lemma minutes_snoc log e c s t : minutes (log ++ [OpEvent e c s t]) = minutes log ++ [statsMinute t].
Proof. unfold minutes. by rewrite omap_app. Qed.

Lemma countOf_other sel lo hi log e c s t :
  statsMinute t < lo \/ hi < statsMinute t -> countOf sel lo hi (log ++ [OpEvent e c s t]) = countOf sel lo hi log.
Proof.
  intros Hm. rewrite countOf_snoc, (countOf_none sel lo hi [_]); [lia|]. intros m Hin. cbn in Hin.
  apply list_elem_of_singleton in Hin. by subst.
Qed.

(** An event of another minute leaves a bucket that is not older than it alone. *)
Lemma bucket_ok_other log i b e c s t :
  bucket_ok log i b -> statsBucketSlot (statsMinute t) <> i \/ sb_valid b = true /\ statsMinute t < sb_minute b ->
  bucket_ok (log ++ [OpEvent e c s t]) i b.
Proof.
  unfold bucket_ok. rewrite minutes_snoc. destruct (sb_valid b).
  - intros (H1 & H2 & H3 & H4 & H5 & H6) Hm.
    assert (Hne : statsMinute t < sb_minute b \/ sb_minute b < statsMinute t).
    { destruct Hm as [Hm|[_ Hm]]; [|lia]. destruct (Z.lt_trichotomy (statsMinute t) (sb_minute b)) as [?|[E|?]]; [lia| |lia]. congruence. }
    rewrite !countOf_other by done. split_and!; try done; [apply elem_of_app; by left|].
    intros m [Hin| ->%list_elem_of_singleton]%elem_of_app Hs; [by apply H3|]. destruct Hm as [Hm|[_ Hm]]; [done|lia].
  - intros [H1 H2] [Hm|[Hf _]]; [|done]. split; [done|]. intros m [Hin| ->%list_elem_of_singleton]%elem_of_app; auto.
Qed.

Lemma u64_succ x : u64 (u64 x + 1) = u64 (x + 1).
Proof. unfold u64. by rewrite Z.add_mod_idemp_l by done. Qed.

Lemma countOf_here sel e c s t : countOf sel (statsMinute t) (statsMinute t) [OpEvent e c s t] = if sel e then 1 else 0.
Proof. rewrite countOf_cons, Z.leb_refl. by destruct (sel e). Qed.

(** The bucket that takes an event. *)
Lemma bucket_ok_count log i b e c s t :
  bucket_ok log i b -> statsBucketSlot (statsMinute t) = i -> (sb_valid b && (statsMinute t <? sb_minute b)) = false ->
  bucket_ok (log ++ [OpEvent e c s t]) i
    (countEvent e (if negb (sb_valid b) || (sb_minute b <? statsMinute t) then mkSBucket (statsMinute t) true 0 0 0 else b)).
Proof.
  intros Hb Hs Hd. set (m := statsMinute t) in *. set (b' := if _ || _ then _ else _).
  assert (Hb' : sb_valid b' = true /\ sb_minute b' = m
     /\ (forall n, n ∈ minutes log -> statsBucketSlot n = i -> n <= m)
     /\ sb_success b' = u64 (countOf isSuccess m m log) /\ sb_failure b' = u64 (countOf isFailure m m log)
     /\ sb_problem b' = u64 (countOf isProblem m m log)).
  { subst b'. unfold bucket_ok in Hb. destruct (sb_valid b) eqn:Ev; cbn [negb orb andb] in *.
    - destruct Hb as (H1 & H2 & H3 & H4 & H5 & H6). apply Z.ltb_ge in Hd. destruct (Z.ltb_spec (sb_minute b) m) as [Hlt|Hge].
      + assert (Hz : forall sel, countOf sel m m log = 0).
        { intros sel. apply countOf_none. intros n Hn. destruct (decide (statsBucketSlot n = i)) as [E|E].
          - specialize (H3 n Hn E). lia.
          - destruct (Z.lt_trichotomy n m) as [?|[->|?]]; [by left|done|by right]. }
        rewrite !Hz. split_and!; try done. intros n Hn E. specialize (H3 n Hn E). lia.
      + assert (sb_minute b = m) as <- by lia. done.
    - destruct Hb as [-> H2].
      assert (Hz : forall sel, countOf sel m m log = 0).
      { intros sel. apply countOf_none. intros n Hn. destruct (Z.lt_trichotomy n m) as [?|[->|?]]; [by left| |by right].
        by destruct (H2 m Hn). }
      rewrite !Hz. split_and!; try done. intros n Hn E. by destruct (H2 n Hn). }
  clearbody b'. destruct Hb' as (V & M & X & S1 & S2 & S3). unfold bucket_ok. rewrite minutes_snoc.
  assert (V' : sb_valid (countEvent e b') = true) by (by destruct e).
  assert (M' : sb_minute (countEvent e b') = m) by (by destruct e). rewrite V', M'.
  split_and!; [done|apply elem_of_app; right; constructor| | | |].
  - intros n [Hn| ->%list_elem_of_singleton]%elem_of_app E; [by apply X|done].
  - rewrite countOf_snoc. unfold m. rewrite countOf_here. fold m.
    destruct e; cbn; rewrite S1, ?Z.add_0_r; [apply u64_succ|done..].
  - rewrite countOf_snoc. unfold m. rewrite countOf_here. fold m.
    destruct e; cbn; rewrite S2, ?Z.add_0_r; [done|apply u64_succ|done].
  - rewrite countOf_snoc. unfold m. rewrite countOf_here. fold m.
    destruct e; cbn; rewrite S3, ?Z.add_0_r; [done|apply u64_succ..].
Qed.

Lemma withBuckets_buckets bs w : sw_buckets (withBuckets bs w) = bs.
Proof. done. Qed.
Lemma streak_buckets e c s t w : sw_buckets (streak e c s t w) = sw_buckets w.
Proof. by destruct e. Qed.

Lemma recordWindow_ok log w e c s t : window_ok log w -> window_ok (log ++ [OpEvent e c s t]) (recordWindow e c s t w).
Proof.
  intros [Hl Hb]. unfold recordWindow. cbv zeta. set (slot := statsBucketSlot (statsMinute t)).
  assert (Hs : (slot < 5)%nat) by apply slot_range.
  destruct (lookup_lt_is_Some_2 (sw_buckets w) slot ltac:(lia)) as [b Eb]. rewrite Eb. change (default emptyBucket (Some b)) with b.
  pose proof (Hb slot b Eb) as Hbk.
  destruct (sb_valid b && (statsMinute t <? sb_minute b)) eqn:Ed.
  - split; [done|]. intros i b0 E0. apply bucket_ok_other; [by apply Hb|].
    destruct (decide (i = slot)) as [->|Hne]; [right|left; by apply not_eq_sym].
    rewrite Eb in E0. injection E0 as <-. by zb.
  - set (nb := countEvent _ _).
    assert (H5 : window_ok (log ++ [OpEvent e c s t]) (withBuckets (<[slot := nb]> (sw_buckets w)) w)).
    { split; [cbn; by rewrite length_insert|]. cbn. intros i b0. destruct (decide (i = slot)) as [->|Hne].
      - rewrite list_lookup_insert_eq by lia. intros [= <-]. by apply bucket_ok_count.
      - rewrite list_lookup_insert_ne by done. intros E0. apply bucket_ok_other; [by apply Hb|left; by apply not_eq_sym]. }
    case_if; [done|]. destruct H5 as [L B]. split; by rewrite streak_buckets.
Qed.

Lemma clear_ok log w : window_ok log w -> window_ok (log ++ [OpClear]) (clearProblem w).
Proof.
  intros [Hl Hb]. split; [done|]. cbn. intros i b E. specialize (Hb i b E). unfold bucket_ok in *.
  assert (Hm : minutes (log ++ [OpClear]) = minutes log) by (unfold minutes; rewrite omap_app; cbn; apply app_nil_r).
  rewrite Hm. destruct (sb_valid b); [|done]. rewrite !countOf_snoc, !(countOf_cons _ _ _ OpClear). cbn. by rewrite !Z.add_0_r.
Qed.

(** * The snapshot *)

(** What one bucket contributes to a counter of the snapshot. *)
Definition part (field : statsBucket -> Z) (cm : Z) (b : statsBucket) : Z :=
  if negb (sb_valid b) || (sb_minute b <? cm - 4) || (cm <? sb_minute b) then 0 else field b.

Lemma u64_idem_l x y : u64 (u64 x + y) = u64 (x + y).
Proof. unfold u64. by rewrite Z.add_mod_idemp_l by done. Qed.
Lemma u64_idem_r x y : u64 (x + u64 y) = u64 (x + y).
Proof. unfold u64. by rewrite Z.add_mod_idemp_r by done. Qed.
Lemma u64_u64 x : u64 (u64 x) = u64 x.
Proof. unfold u64. by rewrite Z.mod_mod by done. Qed.

Lemma u64_mid x y z : u64 (x + (u64 y + z)) = u64 (x + (y + z)).
Proof. by rewrite <- (u64_idem_r x (u64 y + z)), u64_idem_l, u64_idem_r. Qed.

Lemma u64_sum5 a b c d e : u64 (u64 a + (u64 b + (u64 c + (u64 d + u64 e)))) = u64 (a + b + c + d + e).
Proof.
  rewrite u64_idem_l, u64_mid, (Z.add_assoc a b), u64_mid, (Z.add_assoc (a + b) c), u64_mid, (Z.add_assoc (a + b + c) d).
  apply u64_idem_r.
Qed.

Definition sumOf (f : statsBucket -> Z) (bs : list statsBucket) : Z := foldr (fun b acc => f b + acc) 0 bs.

Lemma fold_addBucket cm bs acc :
  cs_Success acc = u64 (cs_Success acc) -> cs_Failure acc = u64 (cs_Failure acc) -> cs_Problem acc = u64 (cs_Problem acc) ->
  let r := fold_left (addBucket (cm - 4) cm) bs acc in
  cs_Success r = u64 (cs_Success acc + sumOf (part sb_success cm) bs)
  /\ cs_Failure r = u64 (cs_Failure acc + sumOf (part sb_failure cm) bs)
  /\ cs_Problem r = u64 (cs_Problem acc + sumOf (part sb_problem cm) bs)
  /\ cs_ConsecutiveFailure r = cs_ConsecutiveFailure acc /\ cs_ConsecutiveProblem r = cs_ConsecutiveProblem acc
  /\ cs_LastFailureCategory r = cs_LastFailureCategory acc /\ cs_LastStatusCode r = cs_LastStatusCode acc.
Proof.
  revert acc. induction bs as [|b bs IH]; intros acc A1 A2 A3; [cbn; rewrite !Z.add_0_r; done|]. cbn [fold_left].
  assert (Hadd : let a := addBucket (cm - 4) cm acc b in
    cs_Success a = u64 (cs_Success acc + part sb_success cm b) /\ cs_Failure a = u64 (cs_Failure acc + part sb_failure cm b)
    /\ cs_Problem a = u64 (cs_Problem acc + part sb_problem cm b)
    /\ cs_ConsecutiveFailure a = cs_ConsecutiveFailure acc /\ cs_ConsecutiveProblem a = cs_ConsecutiveProblem acc
    /\ cs_LastFailureCategory a = cs_LastFailureCategory acc /\ cs_LastStatusCode a = cs_LastStatusCode acc).
  { unfold addBucket, part. destruct (_ || _ || _); cbn; rewrite ?Z.add_0_r; done. }
  destruct Hadd as (B1 & B2 & B3 & B4 & B5 & B6 & B7).
  destruct (IH (addBucket (cm - 4) cm acc b)) as (C1 & C2 & C3 & C4 & C5 & C6 & C7); [rewrite ?B1, ?B2, ?B3; symmetry; apply u64_u64..|].
  cbn. rewrite C1, C2, C3, C4, C5, C6, C7, B1, B2, B3, B4, B5, B6, B7, !u64_idem_l, !Z.add_assoc. done.
Qed.

(** A bucket stands for the one minute of its slot in the window. *)
Lemma part_count sel field log i b cm m :
  bucket_ok log i b -> (sb_valid b = true -> field b = u64 (countOf sel (sb_minute b) (sb_minute b) log)) ->
  (forall n, n ∈ minutes log -> n <= cm) -> statsBucketSlot m = i -> cm - 4 <= m <= cm ->
  part field cm b = u64 (countOf sel m m log).
Proof.
  intros Hb Hf Hcm Hm Hr. unfold part, bucket_ok in *. destruct (sb_valid b) eqn:Ev; cbn [negb orb].
  - destruct Hb as (H1 & H2 & H3 & _). specialize (Hf eq_refl). pose proof (Hcm _ H2).
    destruct (Z.lt_trichotomy (sb_minute b) m) as [Hlt|[Heq|Hgt]].
    + pose proof (slot_gap (sb_minute b) m ltac:(congruence) Hlt).
      assert ((sb_minute b <? cm - 4) = true) as -> by (apply Z.ltb_lt; lia). cbn [orb].
      rewrite countOf_none; [done|]. intros n Hn. destruct (decide (statsBucketSlot n = i)) as [E|E].
      * specialize (H3 n Hn E). lia.
      * destruct (Z.lt_trichotomy n m) as [?|[->|?]]; [by left|done|by right].
    + assert ((sb_minute b <? cm - 4) = false) as -> by (apply Z.ltb_ge; lia).
      assert ((cm <? sb_minute b) = false) as -> by (apply Z.ltb_ge; lia). cbn [orb]. by rewrite Hf, Heq.
    + pose proof (slot_gap m (sb_minute b) ltac:(congruence) Hgt). lia.
  - destruct Hb as [_ H2]. rewrite countOf_none; [done|]. intros n Hn.
    destruct (Z.lt_trichotomy n m) as [?|[->|?]]; [by left| |by right]. by destruct (H2 m Hn).
Qed.

(** The minute of slot [i] among the five that end with [cm]. *)
Definition slotMinute (cm i : Z) : Z := cm - (cm - i) mod 5.

Lemma slotMinute_range cm i : cm - 4 <= slotMinute cm i <= cm.
Proof. unfold slotMinute. pose proof (Z.mod_pos_bound (cm - i) 5 ltac:(lia)). lia. Qed.

Lemma slotMinute_slot cm i : 0 <= i < 5 -> statsBucketSlot (slotMinute cm i) = Z.to_nat i.
Proof.
  intros Hi. rewrite slot_mod. unfold slotMinute. f_equal.
  rewrite (Z.mod_eq (cm - i) 5) by lia. replace (cm - (cm - i - 5 * ((cm - i) / 5))) with (i + (cm - i) / 5 * 5) by lia.
  rewrite Z.mod_add by lia. apply Z.mod_small. lia.
Qed.

Lemma sum_slots (f : Z -> Z) cm :
  f (slotMinute cm 0) + f (slotMinute cm 1) + f (slotMinute cm 2) + f (slotMinute cm 3) + f (slotMinute cm 4)
  = f (cm - 4) + f (cm - 3) + f (cm - 2) + f (cm - 1) + f cm.
Proof.
  unfold slotMinute. pose proof (Z.mod_pos_bound cm 5 ltac:(lia)) as Hr.
  assert (Hk : forall i, (cm - i) mod 5 = (cm mod 5 - i) mod 5) by (intros; by rewrite Zminus_mod_idemp_l).
  rewrite !Hk.
  assert (cm mod 5 = 0 \/ cm mod 5 = 1 \/ cm mod 5 = 2 \/ cm mod 5 = 3 \/ cm mod 5 = 4) as [E|[E|[E|[E|E]]]] by lia;
    rewrite E;
    repeat match goal with |- context [(?a - ?b) mod 5] => let v := eval vm_compute in ((a - b) mod 5) in change ((a - b) mod 5) with v end;
    rewrite ?Z.sub_0_r; lia.
Qed.

Lemma window_sum sel field log w cm :
  window_ok log w -> (forall i b, sw_buckets w !! i = Some b -> sb_valid b = true -> field b = u64 (countOf sel (sb_minute b) (sb_minute b) log)) ->
  (forall n, n ∈ minutes log -> n <= cm) ->
  u64 (sumOf (part field cm) (sw_buckets w)) = u64 (countOf sel (cm - 4) cm log).
Proof.
  intros [Hl Hb] Hf Hcm. rewrite countOf_five.
  assert (Hp : forall i b, sw_buckets w !! i = Some b -> (i < 5)%nat -> part field cm b = u64 (countOf sel (slotMinute cm (Z.of_nat i)) (slotMinute cm (Z.of_nat i)) log)).
  { intros i b E Hi. eapply (part_count sel field log i b cm); [by apply Hb|by eapply Hf|done| |apply slotMinute_range].
    rewrite slotMinute_slot by lia. lia. }
  destruct (sw_buckets w) as [|b0 [|b1 [|b2 [|b3 [|b4 [|]]]]]]; try discriminate Hl.
  unfold sumOf. cbn [foldr].
  rewrite (Hp 0%nat b0), (Hp 1%nat b1), (Hp 2%nat b2), (Hp 3%nat b3), (Hp 4%nat b4) by (done || lia). cbn [Z.of_nat Pos.of_succ_nat Pos.succ].
  rewrite Z.add_0_r. set (f := fun m => countOf sel m m log).
  change (u64 (u64 (f (slotMinute cm 0)) + (u64 (f (slotMinute cm 1)) + (u64 (f (slotMinute cm 2)) + (u64 (f (slotMinute cm 3)) + u64 (f (slotMinute cm 4))))))
          = u64 (f (cm - 4) + f (cm - 3) + f (cm - 2) + f (cm - 1) + f cm)).
  rewrite <- (sum_slots f cm). apply u64_sum5.
Qed.

(** * Streaks *)

Definition failuresSince (log : list statsOp) : Z :=
  fold_left (fun acc op => match op with OpEvent statsEventFailure _ _ _ => acc + 1 | OpEvent statsEventProblem _ _ _ => acc | _ => 0 end) log 0.
Definition problemsSince (log : list statsOp) : Z :=
  fold_left (fun acc op => match op with OpEvent statsEventSuccess _ _ _ | OpClear => 0 | OpEvent _ _ _ _ => acc + 1 end) log 0.

Definition times (log : list statsOp) : list Z :=
  omap (fun op => match op with OpEvent _ _ _ t => Some t | OpClear => None end) log.

(** Events recorded in the order they happened, at instants [UnixNano] can represent. *)
Definition chronological (log : list statsOp) : Prop :=
  StronglySorted Z.le (times log) /\ Forall (fun t => is_i64 (t - unixEpoch)) (times log).

Lemma times_snoc log e c s t : times (log ++ [OpEvent e c s t]) = times log ++ [t].
Proof. unfold times. by rewrite omap_app. Qed.
Lemma times_clear log : times (log ++ [OpClear]) = times log.
Proof. unfold times. rewrite omap_app. apply app_nil_r. Qed.

Lemma minutes_times log m : m ∈ minutes log -> exists t, t ∈ times log /\ m = statsMinute t.
Proof.
  unfold minutes, times. rewrite list_elem_of_omap. intros (op & Hin & E). destruct op as [e c s t|]; [|done].
  injection E as <-. exists t. split; [|done]. apply list_elem_of_omap. by exists (OpEvent e c s t).
Qed.

Lemma chronological_snoc log e c s t :
  chronological (log ++ [OpEvent e c s t]) -> chronological log /\ (forall u, u ∈ times log -> u <= t /\ statsMinute u <= statsMinute t).
Proof.
  unfold chronological. rewrite times_snoc. intros [Hs Hf]. apply Forall_app in Hf as [Hf1 Hf2].
  assert (Hle : forall u, u ∈ times log -> u <= t).
  { intros u Hu. clear Hf1. induction (times log) as [|x l IH]; [by apply elem_of_nil in Hu|].
    cbn in Hs. inversion Hs as [|? ? Hs' Hall]; subst. apply elem_of_cons in Hu as [->|Hu]; [|by apply IH].
    rewrite Forall_forall in Hall. apply Hall, elem_of_app. right. constructor. }
  split; [split; [|done]|].
  - clear -Hs. induction (times log) as [|x l IH]; [constructor|]. cbn in Hs. inversion Hs as [|? ? Hs' Hall]; subst.
    constructor; [by apply IH|]. by apply Forall_app in Hall as [? _].
  - intros u Hu. split; [by apply Hle|]. specialize (Hle u Hu). rewrite Forall_forall in Hf1. pose proof (Hf1 u Hu) as Hu64.
    rewrite Forall_singleton in Hf2. unfold statsMinute, is_i64, i64, minInt64, maxInt64, two64, statsBucketWidth, minute in *.
    cbv beta in *. rewrite !Z.mod_small by lia. apply Z.quot_le_mono; lia.
Qed.

Record streak_ok (log : list statsOp) (w : credentialStatsWindow) : Prop := {
  sk_failure : sw_consecutiveFailure w = u64 (failuresSince log);
  sk_problem : sw_consecutiveProblem w = u64 (problemsSince log);
  sk_last : sw_lastEventRecorded w = true -> sw_lastEventAt w ∈ times log
}.

Lemma recordWindow_streak log w e c s t :
  window_ok log w -> streak_ok log w -> chronological (log ++ [OpEvent e c s t]) ->
  streak_ok (log ++ [OpEvent e c s t]) (recordWindow e c s t w).
Proof.
  intros [Hl Hb] [F P L] Hc. destruct (chronological_snoc _ _ _ _ _ Hc) as [_ Hle].
  unfold recordWindow. cbv zeta. set (slot := statsBucketSlot (statsMinute t)).
  destruct (lookup_lt_is_Some_2 (sw_buckets w) slot ltac:(rewrite Hl; apply slot_range)) as [b Eb]. rewrite Eb.
  change (default emptyBucket (Some b)) with b. pose proof (Hb slot b Eb) as Hbk.
  assert ((sb_valid b && (statsMinute t <? sb_minute b)) = false) as ->.
  { unfold bucket_ok in Hbk. destruct (sb_valid b); [|done]. destruct Hbk as (_ & Hin & _). apply minutes_times in Hin as (u & Hu & ->).
    apply Z.ltb_ge. by apply Hle. }
  set (nb := countEvent _ _). cbn [sw_lastEventRecorded sw_lastEventAt withBuckets].
  assert ((sw_lastEventRecorded w && (t <? sw_lastEventAt w)) = false) as ->.
  { destruct (sw_lastEventRecorded w); [|done]. apply Z.ltb_ge. by apply Hle, L. }
  split; unfold failuresSince, problemsSince in *; rewrite ?fold_left_app; [| |rewrite times_snoc; destruct e; cbn; intros _; apply elem_of_app; right; constructor].
  - destruct e; cbn; rewrite ?F; [done|apply u64_succ|done].
  - destruct e; cbn; rewrite ?P; [done|apply u64_succ..].
Qed.

Lemma clear_streak log w : streak_ok log w -> streak_ok (log ++ [OpClear]) (clearProblem w).
Proof.
  intros [F P L]. split; unfold failuresSince, problemsSince in *; rewrite ?fold_left_app, ?times_clear; done.
Qed.

(** * The store *)

Definition StatsSystem : Type := StatsStore * gmap Z (list statsOp).

Inductive stats_step (y : StatsSystem) : StatsSystem -> Prop :=
| ss_record id event category statusCode t : id <> 0 ->
    stats_step y (record y.1 id event category statusCode t, <[id := mget [] y.2 id ++ [OpEvent event category statusCode t]]> y.2)
| ss_reset id : id <> 0 -> stats_step y (statsReset y.1 id, delete id y.2)
| ss_clear id w : y.1 !! id = Some w -> stats_step y (ClearProblemState y.1 id, <[id := mget [] y.2 id ++ [OpClear]]> y.2).

Definition stats_reach : StatsSystem -> Prop := rtc stats_step (NewStatsStore, ∅).

Record stats_ok (y : StatsSystem) : Prop := {
  st_zero : y.1 !! 0 = None;
  st_window : forall id w, y.1 !! id = Some w ->
      window_ok (mget [] y.2 id) w /\ (chronological (mget [] y.2 id) -> streak_ok (mget [] y.2 id) w);
  st_none : forall id, y.1 !! id = None -> mget [] y.2 id = []
}.

Lemma empty_window_ok : window_ok [] emptyStatsWindow /\ streak_ok [] emptyStatsWindow.
Proof.
  split; [split; [done|]|by split]. cbn [sw_buckets emptyStatsWindow]. intros i b Hb. apply lookup_replicate in Hb as [-> _].
  unfold bucket_ok. cbn. split; [done|]. intros m Hm. by apply elem_of_nil in Hm.
Qed.

Lemma mget_insert_eq {A} (z : A) (m : gmap Z A) k v : mget z (<[k := v]> m) k = v.
Proof. unfold mget. by rewrite lookup_insert_eq. Qed.
Lemma mget_insert_ne {A} (z : A) (m : gmap Z A) k k' v : k <> k' -> mget z (<[k := v]> m) k' = mget z m k'.
Proof. intros. unfold mget. by rewrite lookup_insert_ne. Qed.

Lemma chronological_clear log : chronological (log ++ [OpClear]) -> chronological log.
Proof. unfold chronological. by rewrite times_clear. Qed.

Lemma stats_step_ok y y' : stats_step y y' -> stats_ok y -> stats_ok y'.
Proof.
  destruct y as [s logs]. intros Hstep [Hz Hw Hn]. cbn in *. destruct Hstep as [id e c st t Hid|id Hid|id w Ew]; cbn in *.
  - unfold record. destruct (Z.eqb_spec id 0); [done|]. split; cbn.
    + by rewrite lookup_insert_ne.
    + intros id' w'. destruct (decide (id' = id)) as [->|Hne].
      2: { rewrite lookup_insert_ne, mget_insert_ne by done. apply Hw. }
      rewrite lookup_insert_eq, mget_insert_eq. intros [= <-].
      assert (H0 : window_ok (mget [] logs id) (mget emptyStatsWindow s id)
                   /\ (chronological (mget [] logs id) -> streak_ok (mget [] logs id) (mget emptyStatsWindow s id))).
      { destruct (s !! id) as [w|] eqn:E.
        - assert (mget emptyStatsWindow s id = w) as -> by (unfold mget; by rewrite E). by apply Hw.
        - assert (mget emptyStatsWindow s id = emptyStatsWindow) as -> by (unfold mget; by rewrite E). rewrite Hn by done.
          split; [apply empty_window_ok|intros _; apply empty_window_ok]. }
      destruct H0 as [H1 H2]. split; [by apply recordWindow_ok|]. intros Hc.
      apply recordWindow_streak; [done| |done]. by apply H2, (chronological_snoc _ _ _ _ _ Hc).
    + intros id'. destruct (decide (id' = id)) as [->|Hne]; [by rewrite lookup_insert_eq|].
      rewrite lookup_insert_ne, mget_insert_ne by done. apply Hn.
  - unfold statsReset. destruct (Z.eqb_spec id 0); [done|]. split; cbn.
    + by rewrite lookup_delete_ne.
    + intros id' w'. destruct (decide (id' = id)) as [->|Hne]; [by rewrite lookup_delete_eq|].
      rewrite lookup_delete_ne by done. unfold mget. rewrite lookup_delete_ne by done. apply Hw.
    + intros id'. unfold mget. destruct (decide (id' = id)) as [->|Hne]; [by rewrite !lookup_delete_eq|].
      rewrite !lookup_delete_ne by done. apply Hn.
  - unfold ClearProblemState. destruct (Z.eqb_spec id 0); [congruence|]. rewrite Ew. split; cbn.
    + by rewrite lookup_insert_ne.
    + intros id' w'. destruct (decide (id' = id)) as [->|Hne].
      2: { rewrite lookup_insert_ne, mget_insert_ne by done. apply Hw. }
      rewrite lookup_insert_eq, mget_insert_eq. intros [= <-]. destruct (Hw id w Ew) as [H1 H2].
      split; [by apply clear_ok|]. intros Hc. by apply clear_streak, H2, chronological_clear.
    + intros id'. destruct (decide (id' = id)) as [->|Hne]; [by rewrite lookup_insert_eq|].
      rewrite lookup_insert_ne, mget_insert_ne by done. apply Hn.
Qed.

Lemma stats_reach_ok y : stats_reach y -> stats_ok y.
Proof.
  intros Hr. revert Hr. apply (rtc_ind_r (fun y => stats_ok y)); [by split|]. intros a b _ Hab Ha. by eapply stats_step_ok.
Qed.

(** The rolling counters are exact.  Whatever order events were recorded in, a snapshot at a
    minute not before any of them counts exactly the successes, failures and problems of the
    last five minutes (modulo 2^64); and when events were recorded in the order they happened,
    its streaks are the failures and problems since the last success or clearing. *)
Theorem stats_snapshot_exact s logs id now :
  stats_reach (s, logs) -> id <> 0 ->
  (forall m, m ∈ minutes (mget [] logs id) -> m <= statsMinute now) ->
  let log := mget [] logs id in
  let r := statsSnapshot s id now in
  let cm := statsMinute now in
  cs_Success r = u64 (countOf isSuccess (cm - 4) cm log)
  /\ cs_Failure r = u64 (countOf isFailure (cm - 4) cm log)
  /\ cs_Problem r = u64 (countOf isProblem (cm - 4) cm log)
  /\ (chronological log -> cs_ConsecutiveFailure r = u64 (failuresSince log) /\ cs_ConsecutiveProblem r = u64 (problemsSince log)).
Proof.
  intros Hr Hid Hcm. apply stats_reach_ok in Hr as [Hz Hw Hn]. cbn in *. unfold statsSnapshot.
  destruct (Z.eqb_spec id 0); [done|]. destruct (s !! id) as [w|] eqn:Es.
  - destruct (Hw id w Es) as [Hok Hst]. set (log := mget [] logs id) in *. set (cm := statsMinute now) in *.
    change (cm - (statsBucketCount - 1)) with (cm - 4).
    destruct (fold_addBucket cm (sw_buckets w) (mkStats 0 0 0 (sw_consecutiveFailure w) (sw_consecutiveProblem w)
      (sw_lastFailureCategory w) (sw_lastStatusCode w)) eq_refl eq_refl eq_refl) as (R1 & R2 & R3 & R4 & R5 & _).
    rewrite R1, R2, R3, R4, R5. cbn [cs_Success cs_Failure cs_Problem cs_ConsecutiveFailure cs_ConsecutiveProblem]. rewrite !Z.add_0_l.
    pose proof (wk_bucket _ _ Hok) as Hb. unfold bucket_ok in Hb.
    rewrite (window_sum isSuccess sb_success log w cm), (window_sum isFailure sb_failure log w cm), (window_sum isProblem sb_problem log w cm);
      try done; try (intros i b Eb Ev; specialize (Hb i b Eb); rewrite Ev in Hb; by destruct Hb as (? & ? & ? & ? & ? & ?)).
    split_and!; try done. intros Hc. by destruct (Hst Hc).
  - rewrite (Hn id Es). done.
Qed.

(** * The checkpoint *)

Lemma restore_buckets log w : window_ok log w -> fold_left restoreBucket (sw_buckets w) (replicate 5 emptyBucket) = sw_buckets w.
Proof.
  intros [Hl Hb]. destruct (sw_buckets w) as [|b0 [|b1 [|b2 [|b3 [|b4 [|]]]]]]; try discriminate Hl.
  assert (Hr : forall i b, [b0; b1; b2; b3; b4] !! i = Some b -> forall l, l !! i = Some emptyBucket -> restoreBucket l b = <[i := b]> l).
  { intros i b E l Hli. specialize (Hb i b E). unfold bucket_ok, restoreBucket in *. destruct (sb_valid b) eqn:Ev; cbn [negb].
    - destruct Hb as [-> _]. f_equal. destruct b. cbn in *. by subst.
    - destruct Hb as [-> _]. by rewrite list_insert_id. }
  cbn [fold_left]. by rewrite (Hr 0%nat b0), (Hr 1%nat b1), (Hr 2%nat b2), (Hr 3%nat b3), (Hr 4%nat b4).
Qed.

Lemma restore_captured (l : list (Z * credentialStatsWindow)) (s : StatsStore) n :
  NoDup l.*1 ->
  (forall kv, kv ∈ l -> kv.1 <> 0 /\ (length (sw_buckets kv.2) <= 5)%nat /\ restoreWindow (captureWindow kv) = kv.2) ->
  fold_left restoreStats (captureWindow <$> l) (s, n) = (foldl (fun m kv => <[kv.1 := kv.2]> m) s l, n + Z.of_nat (length l)).
Proof.
  revert s n. induction l as [|[k w] l IH]; intros s n Hnd Hl; [cbn; by rewrite Z.add_0_r|].
  rewrite fmap_cons in *. apply NoDup_cons in Hnd as [Hk Hnd]. cbn [fold_left foldl].
  destruct (Hl (k, w) ltac:(constructor)) as (H1 & H2 & H3). unfold restoreStats at 2. cbn [sc_CredentialID captureWindow sc_Buckets fst snd].
  destruct (Z.eqb_spec k 0); [done|]. cbn in H2.
  assert ((statsBucketCount <? Z.of_nat (length (sw_buckets w))) = false) as -> by (apply Z.ltb_ge; unfold statsBucketCount; lia).
  cbn [orb]. rewrite H3. rewrite IH; [|done|intros kv Hin; apply Hl; by constructor]. cbn. f_equal. lia.
Qed.

Lemma foldl_insert_map (l : list (Z * credentialStatsWindow)) (m : StatsStore) k :
  NoDup l.*1 ->
  foldl (fun m kv => <[kv.1 := kv.2]> m) m l !! k = match list_find (fun kv => kv.1 = k) l with Some (_, kv) => Some kv.2 | None => m !! k end.
Proof.
  revert m. induction l as [|[i w] l IH]; intros m Hnd; [done|]. rewrite fmap_cons in Hnd. apply NoDup_cons in Hnd as [Hi Hnd].
  cbn. rewrite IH by done. case_decide as E; cbn in *.
  - subst. destruct (list_find _ l) as [[j kv]|] eqn:Ef; [|by rewrite lookup_insert_eq].
    apply list_find_Some in Ef as (Ej & Ek & _). destruct Hi. apply list_elem_of_fmap. exists kv. split; [done|by eapply list_elem_of_lookup_2].
  - destruct (list_find _ l) as [[j kv]|]; [done|]. by rewrite lookup_insert_ne.
Qed.

(** The statistics survive a restart.  In every reachable state, restoring the captured
    checkpoint into a new store gives back every window, bucket by bucket, and reports their
    number. *)
Theorem stats_checkpoint_roundtrip s logs :
  stats_reach (s, logs) -> RestoreStatsCheckpoint NewStatsStore (CaptureStatsCheckpoint s) = (s, Z.of_nat (size s)).
Proof.
  intros Hr. apply stats_reach_ok in Hr as [Hz Hw Hn]. cbn in *. unfold RestoreStatsCheckpoint, CaptureStatsCheckpoint.
  set (ms := merge_sort _ _). assert (Hms : ms ≡ₚ map captureWindow (mentries s)) by apply merge_sort_Permutation.
  destruct (Permutation_map_inv captureWindow (mentries s) Hms) as (l & El & Hp). rewrite El. change (map captureWindow l) with (captureWindow <$> l).
  assert (Hnd : NoDup l.*1) by (rewrite <- Hp; apply NoDup_fst_map_to_list).
  assert (Hin : forall k w, (k, w) ∈ l <-> s !! k = Some w) by (intros; rewrite <- Hp; apply elem_of_map_to_list).
  rewrite restore_captured; [|done|].
  - f_equal; [|rewrite <- Hp; unfold mentries; rewrite length_map_to_list; lia]. apply map_eq. intros k. rewrite foldl_insert_map by done.
    destruct (list_find _ l) as [[j [k' w]]|] eqn:Ef.
    + apply list_find_Some in Ef as (Ej & Ek & _). cbn in Ek. subst k'. symmetry. apply Hin. by eapply list_elem_of_lookup_2.
    + unfold NewStatsStore. rewrite lookup_empty. destruct (s !! k) as [w|] eqn:Es; [|done]. apply Hin in Es. rewrite list_find_None, Forall_forall in Ef.
      by destruct (Ef (k, w) Es).
  - intros [k w] Hkw. apply Hin in Hkw. destruct (Hw k w Hkw) as [Hok _]. cbn [fst snd]. split_and!.
    + intros ->. congruence.
    + by rewrite (wk_len _ _ Hok).
    + unfold restoreWindow, captureWindow.
      cbn [sc_Buckets sc_ConsecutiveFailure sc_ConsecutiveProblem sc_LastEventAt sc_LastEventRecorded sc_LastFailureCategory sc_LastStatusCode snd].
      rewrite (restore_buckets _ w Hok). by destruct w.
Qed.

(** * A concrete history: a failure, a success two minutes later, and a late report. *)

Definition exT (sec : Z) : Z := unixEpoch + sec * second.
Definition exS1 : StatsSystem :=
  (record NewStatsStore 7 statsEventFailure FailureCategoryInvalidKey 401 (exT 600),
   <[7 := [OpEvent statsEventFailure FailureCategoryInvalidKey 401 (exT 600)]]> ∅).
Definition exS2 : StatsSystem :=
  (record exS1.1 7 statsEventProblem FailureCategoryRateLimited 429 (exT 730),
   <[7 := mget [] exS1.2 7 ++ [OpEvent statsEventProblem FailureCategoryRateLimited 429 (exT 730)]]> exS1.2).
Definition exS3 : StatsSystem :=
  (record exS2.1 7 statsEventFailure FailureCategoryInvalidKey 401 (exT 640),
   <[7 := mget [] exS2.2 7 ++ [OpEvent statsEventFailure FailureCategoryInvalidKey 401 (exT 640)]]> exS2.2).

Lemma exS3_reach : stats_reach exS3.
Proof.
  refine (rtc_r _ exS2 _ (rtc_r _ exS1 _ (rtc_r _ _ _ (rtc_refl _ _) _) _) _).
  - exact (ss_record (NewStatsStore, ∅) 7 statsEventFailure FailureCategoryInvalidKey 401 (exT 600) ltac:(done)).
  - exact (ss_record exS1 7 statsEventProblem FailureCategoryRateLimited 429 (exT 730) ltac:(done)).
  - exact (ss_record exS2 7 statsEventFailure FailureCategoryInvalidKey 401 (exT 640) ltac:(done)).
Qed.

Lemma stats_snapshot_exact_witness :
  let r := statsSnapshot exS3.1 7 (exT 840) in cs_Failure r = 2 /\ cs_Problem r = 3 /\ cs_ConsecutiveProblem r = 2.
Proof.
  destruct (stats_snapshot_exact exS3.1 exS3.2 7 (exT 840) exS3_reach ltac:(done)) as (_ & H2 & H3 & _).
  - intros m Hm. assert (Hx : minutes (mget [] exS3.2 7) = [10; 12; 10]) by (by vm_compute). rewrite Hx in Hm.
    assert (statsMinute (exT 840) = 14) as -> by (by vm_compute). set_unfold in Hm. lia.
  - cbv zeta. rewrite H2, H3. split_and!; vm_compute; reflexivity.
Defined.

Lemma stats_checkpoint_roundtrip_witness :
  RestoreStatsCheckpoint NewStatsStore (CaptureStatsCheckpoint exS3.1) = (exS3.1, 1).
Proof. exact (stats_checkpoint_roundtrip exS3.1 exS3.2 exS3_reach). Defined.
