(* ===== verification/Config.v ===== *)
(** The configuration snapshot as the decision logic reads it ([internal/state/snapshot.go],
    [internal/channel/channel.go], [internal/connection]): groups, access keys, the targets a
    channel resolves to and the three route indexes.

    Fields that no modelled function reads are left out of the records.  The [Clone] helpers
    copy slices and pointers and are the identity on values. *)
From S2P Require Import Prelude GoStrings Execution Judge.

Local Open Scope Z_scope.
Local Open Scope go_scope.

(** * Shared settings *)

(** The backoff after a refresh of a credential that may be retried, when the provider names none. *)
Definition DefaultRefreshFailureCooldown : Z := 10 * minute.

(** * Resolved targets *)

Abbreviation ResponsesStoreHandling := string (only parsing).
Definition ResponsesStoreHandlingNone : ResponsesStoreHandling := "".
Definition ResponsesStoreHandlingUpstreamManaged : ResponsesStoreHandling := "upstream_managed".
Definition ResponsesStoreHandlingStateless : ResponsesStoreHandling := "stateless".

(** A channel's model-aware resolver maps the upstream model and the declared mode to the mode
    of the route. *)
Abbreviation RouteResolver := (string -> RouteMode -> RouteMode) (only parsing).

Record ResolvedTarget := mkResolved {
  tg_ResponsesWebsocket : WebsocketCapabilities;
  tg_ChannelID : string;
  tg_modes : gmap string (gmap string RouteMode);
  tg_resolvers : gmap (string * string) RouteResolver;
  tg_responsesStoreHandlings : gmap (string * string) ResponsesStoreHandling
}.

Definition Mode (t : ResolvedTarget) (clientProtocol : Protocol) (o : Operation) : option RouteMode :=
  match tg_modes t !! clientProtocol with
  | Some byOperation => byOperation !! o
  | None => None
  end.

Definition responsesStoreHandling (t : ResolvedTarget) (clientProtocol : Protocol) (o : Operation) : ResponsesStoreHandling :=
  mget "" (tg_responsesStoreHandlings t) (clientProtocol, o).

Definition ModeForModel (t : ResolvedTarget) (clientProtocol : Protocol) (o : Operation) (upstreamModel : string)
  : option RouteMode :=
  match Mode t clientProtocol o with
  | None => None
  | Some mode =>
      match tg_resolvers t !! (clientProtocol, o) with
      | Some resolver =>
          let resolved := resolver upstreamModel mode in
          if negb (routeModeValid resolved) then None else Some resolved
      | None => Some mode
      end
  end.

Definition lifecycleOperations : list Operation :=
  [OperationResponsesRetrieve; OperationResponsesDelete; OperationResponsesCancel; OperationResponsesInputItems].

Definition SupportsResponsesLifecycle (t : ResolvedTarget) : bool :=
  forallb (fun o => match Mode t OpenAIResponses o with Some mode => strEq mode RouteNative | None => false end)
    lifecycleOperations.

(** The operations a target declares, in string order. *)
Definition Operations (t : ResolvedTarget) (clientProtocol : Protocol) : list Operation :=
  merge_sort String.le (map_to_list (mget ∅ (tg_modes t) clientProtocol)).*1.

Definition WithTransparentHTTP (t : ResolvedTarget) : ResolvedTarget :=
  mkResolved (tg_ResponsesWebsocket t) (tg_ChannelID t)
    (<[TransparentHTTP := {[OperationTransparentRequest := RouteNative]}]> (tg_modes t))
    (tg_resolvers t) (tg_responsesStoreHandlings t).

(** * Groups *)

Record ModelConfig := mkModelConfig { mc_ID : string; mc_Alias : string }.

Definition externalModelName (m : ModelConfig) : string :=
  let alias := TrimSpace (mc_Alias m) in
  if negb (bool_decide (alias = EmptyString)) then alias else TrimSpace (mc_ID m).

Record GroupCatalogView := mkCatalogView {
  gc_Priority : Z;
  gc_ID : Z;
  gc_Name : string;
  gc_Enabled : bool;
  gc_WeightManual : option Z
}.

Definition APIKeyConnection : string := "api_key".
Definition SubscriptionConnection : string := "subscription".
Definition connectionNormalize (value : string) : string := TrimSpace value.

Definition CodexLiveOff : string := "off".

Record GroupView := mkGroupView {
  gv_AccountPool : string;
  gv_AccountConcurrencyLimit : Z;
  gv_AccountRPMLimit : Z;
  gv_ErrorRules : ErrorRules;
  gv_Priority : Z;
  gv_ID : Z;
  gv_ConnectionType : string;
  gv_Models : list ModelConfig;
  gv_BlacklistThreshold : Z;
  gv_CodexLiveMode : string;
  gv_ResponsesWebsocketEnabled : bool;
  gv_WeightManual : option Z
}.

(** [Settings.RouteStrategy]. *)
Inductive RouteStrategy :=
| RouteStrategyNativeFirst
| RouteStrategyWeightedMix.

(** * Access keys *)

Definition AccessKeyStatusActive : string := "active".
Definition AccessKeyStatusDisabled : string := "disabled".

(** Nil sets are empty sets: only their lengths and members are read.  [fs_Transparent] is the
    group list of the transparent scope, [None] for nil. *)
Record FilterSet := mkFilters {
  fs_Transparent : option (list Z);
  fs_AllowModelLessResources : bool;
  fs_GroupsRestricted : bool;
  fs_Groups : gset Z;
  fs_Protocols : gset string;
  fs_Models : gset string
}.

Definition AllowsGroup (f : FilterSet) (groupID : Z) : bool :=
  if negb (fs_GroupsRestricted f) && bool_decide (fs_Groups f = ∅) then true
  else bool_decide (groupID ∈ fs_Groups f).

Record AccessKeyView := mkAccessKeyView {
  ak_ID : Z;
  ak_Status : string;
  ak_Filters : FilterSet
}.

(** * Routes and the snapshot *)

Record RouteTarget := mkRouteTarget {
  rt_GroupID : Z;
  rt_UpstreamModelID : string;
  rt_Mode : RouteMode;
  rt_ResolvedTarget : ResolvedTarget
}.

Definition NoModelRouteKey : string := "".

(** Targets by client protocol, operation and external model. *)
Abbreviation ExecutionCandidateIndex := (gmap string (gmap string (gmap string (list RouteTarget)))) (only parsing).
Abbreviation WildcardIndex := (gmap string (gmap string (list RouteTarget))) (only parsing).

Record ConfigSnapshot := mkSnapshot {
  snap_RouteStrategy : RouteStrategy;
  snap_Revision : Z;
  snap_ExecutionCandidates : ExecutionCandidateIndex;
  snap_ExecutionRouteCatalog : ExecutionCandidateIndex;
  snap_WildcardCandidates : WildcardIndex;
  snap_GroupCatalog : gmap Z GroupCatalogView;
  snap_Groups : gmap Z GroupView
}.
