(* ===== verification/Credential.v ===== *)
(** The credential data of [internal/state]: entries, references, runtime views, manual
    weights and per-model cooldowns ([registry.go], [runtime_view.go], [weight.go] and the
    helpers of [model_cooldown.go]).

    The Go functions that only copy a value ([cloneWeight], [cloneFloat],
    [cloneModelCooldowns]) have no counterpart: values here are immutable, so a copy is the
    value itself, and a nil map and an empty map are the same [gmap]. *)
From S2P Require Import Prelude GoStrings.
From Stdlib Require Import SpecFloat.

Local Open Scope Z_scope.

#[export] Instance spec_float_eq_dec : EqDecision spec_float.
Proof. solve_decision. Defined.

(** * Statuses *)

Inductive CredentialStatus :=
| StatusActive
| StatusDisabled
| StatusOther (s : string).

#[export] Instance CredentialStatus_eq_dec : EqDecision CredentialStatus.
Proof. solve_decision. Defined.

Definition statusValid (s : CredentialStatus) : bool :=
  match s with StatusActive | StatusDisabled => true | StatusOther _ => false end.

Inductive CredentialAuthState :=
| AuthUnset
| AuthReady
| AuthRefreshing
| AuthReauthorizationRequired
| AuthOutcomeUnknown
| AuthOther (s : string).

#[export] Instance CredentialAuthState_eq_dec : EqDecision CredentialAuthState.
Proof. solve_decision. Defined.

(** The empty string stands for [ready]. *)
Definition authNormalize (a : CredentialAuthState) : CredentialAuthState :=
  match a with AuthUnset => AuthReady | _ => a end.

Definition authValid (a : CredentialAuthState) : bool :=
  match authNormalize a with
  | AuthReady | AuthRefreshing | AuthReauthorizationRequired | AuthOutcomeUnknown => true
  | _ => false
  end.

(** * Records *)

Record CredentialEntry := mkEntry {
  ent_Name : string;
  ent_ID : Z;
  ent_GroupID : Z;
  ent_Version : Z;
  ent_IdentityGeneration : Z;
  ent_Fingerprint : string;
  ent_WeightManual : option Z;
  ent_Status : CredentialStatus;
  ent_AuthState : CredentialAuthState;
  ent_CooldownUntil : Z;
  ent_ModelCooldowns : gmap string Z;
  ent_ModelCooldownGeneration : Z;
  ent_Blacklisted : bool;
  ent_FailureCount : Z;
  ent_FailureGeneration : Z;
  ent_EncryptedValue : string;
  ent_EncryptedProxy : string;
  ent_ProxyFingerprint : string;
  ent_quotaRemaining : option spec_float;
  ent_quotaResetAt : Z
}.

Record CredentialMeta := mkMeta {
  meta_ID : Z;
  meta_GroupID : Z;
  meta_Version : Z;
  meta_IdentityGeneration : Z;
  meta_WeightManual : option Z;
  meta_ModelCooldowns : gmap string Z
}.

Record CredentialRef := mkRef {
  ref_Name : string;
  ref_ID : Z;
  ref_GroupID : Z;
  ref_Version : Z;
  ref_IdentityGeneration : Z;
  ref_Fingerprint : string;
  ref_EncryptedValue : string;
  ref_EncryptedProxy : string;
  ref_ProxyFingerprint : string;
  ref_FailureGeneration : Z;
  ref_ModelCooldownGeneration : Z
}.

Record CredentialRuntimeView := mkView {
  view_ID : Z;
  view_GroupID : Z;
  view_Version : Z;
  view_IdentityGeneration : Z;
  view_WeightManual : option Z;
  view_Status : CredentialStatus;
  view_AuthState : CredentialAuthState;
  view_CooldownUntil : Z;
  view_ModelCooldowns : gmap string Z;
  view_Blacklisted : bool;
  view_FailureCount : Z;
  view_QuotaRemaining : option spec_float;
  view_QuotaResetAt : Z
}.

(** * Field updates *)

Definition withName (x : string) (e : CredentialEntry) : CredentialEntry :=
  let 'mkEntry _ i g v ig fp w st au cd mc mg bl fc fg ev ep pf qr qt := e in
  mkEntry x i g v ig fp w st au cd mc mg bl fc fg ev ep pf qr qt.

Definition withSecret (v' : Z) (fp' ev' : string) (e : CredentialEntry) : CredentialEntry :=
  let 'mkEntry n i g _ ig _ w st _ cd mc mg bl fc fg _ ep pf qr qt := e in
  mkEntry n i g v' ig fp' w st AuthReady cd mc mg bl fc fg ev' ep pf qr qt.

Definition withWeight (x : option Z) (e : CredentialEntry) : CredentialEntry :=
  let 'mkEntry n i g v ig fp _ st au cd mc mg bl fc fg ev ep pf qr qt := e in
  mkEntry n i g v ig fp x st au cd mc mg bl fc fg ev ep pf qr qt.

Definition withStatus (x : CredentialStatus) (e : CredentialEntry) : CredentialEntry :=
  let 'mkEntry n i g v ig fp w _ au cd mc mg bl fc fg ev ep pf qr qt := e in
  mkEntry n i g v ig fp w x au cd mc mg bl fc fg ev ep pf qr qt.

Definition withAuthState (x : CredentialAuthState) (e : CredentialEntry) : CredentialEntry :=
  let 'mkEntry n i g v ig fp w st _ cd mc mg bl fc fg ev ep pf qr qt := e in
  mkEntry n i g v ig fp w st x cd mc mg bl fc fg ev ep pf qr qt.

Definition withCooldown (x : Z) (e : CredentialEntry) : CredentialEntry :=
  let 'mkEntry n i g v ig fp w st au _ mc mg bl fc fg ev ep pf qr qt := e in
  mkEntry n i g v ig fp w st au x mc mg bl fc fg ev ep pf qr qt.

Definition withModelCooldowns (x : gmap string Z) (g' : Z) (e : CredentialEntry) : CredentialEntry :=
  let 'mkEntry n i g v ig fp w st au cd _ _ bl fc fg ev ep pf qr qt := e in
  mkEntry n i g v ig fp w st au cd x g' bl fc fg ev ep pf qr qt.

(** The blacklist flag, the failure count and the failure generation change together. *)
Definition withFailure (bl' : bool) (fc' fg' : Z) (e : CredentialEntry) : CredentialEntry :=
  let 'mkEntry n i g v ig fp w st au cd mc mg _ _ _ ev ep pf qr qt := e in
  mkEntry n i g v ig fp w st au cd mc mg bl' fc' fg' ev ep pf qr qt.

Definition withQuota (qr' : option spec_float) (qt' : Z) (e : CredentialEntry) : CredentialEntry :=
  let 'mkEntry n i g v ig fp w st au cd mc mg bl fc fg ev ep pf _ _ := e in
  mkEntry n i g v ig fp w st au cd mc mg bl fc fg ev ep pf qr' qt'.

(** * Weights *)

Definition DefaultWeight : Z := 50.
Definition MaxWeight : Z := 100.

Definition manualWeightValid (w : option Z) : bool :=
  match w with Some x => (0 <=? x) && (x <=? MaxWeight) | None => true end.

Definition ConfiguredWeight (w : option Z) : Z :=
  match w with None => DefaultWeight | Some x => x end.

(** * Runtime views *)

Definition AuthReadyView (v : CredentialRuntimeView) : bool :=
  bool_decide (authNormalize (view_AuthState v) = AuthReady).

Inductive CredentialRuntimeState :=
| RuntimeAvailable
| RuntimeDisabled
| RuntimeBlacklisted
| RuntimeCooldown.

#[export] Instance CredentialRuntimeState_eq_dec : EqDecision CredentialRuntimeState.
Proof. solve_decision. Defined.

Definition RuntimeState (v : CredentialRuntimeView) (now : Z) : CredentialRuntimeState :=
  if negb (bool_decide (view_Status v = StatusActive)) then RuntimeDisabled
  else if view_Blacklisted v then RuntimeBlacklisted
  else if now <? view_CooldownUntil v then RuntimeCooldown
  else RuntimeAvailable.

Definition runtimeView (e : CredentialEntry) : CredentialRuntimeView :=
  mkView (ent_ID e) (ent_GroupID e) (ent_Version e) (ent_IdentityGeneration e)
    (ent_WeightManual e) (ent_Status e) (authNormalize (ent_AuthState e)) (ent_CooldownUntil e)
    (ent_ModelCooldowns e) (ent_Blacklisted e) (ent_FailureCount e)
    (ent_quotaRemaining e) (ent_quotaResetAt e).

Definition refOf (e : CredentialEntry) : CredentialRef :=
  mkRef (ent_Name e) (ent_ID e) (ent_GroupID e) (ent_Version e) (ent_IdentityGeneration e)
    (ent_Fingerprint e) (ent_EncryptedValue e) (ent_EncryptedProxy e) (ent_ProxyFingerprint e)
    (ent_FailureGeneration e) (ent_ModelCooldownGeneration e).

Definition metaOf (e : CredentialEntry) : CredentialMeta :=
  mkMeta (ent_ID e) (ent_GroupID e) (ent_Version e) (ent_IdentityGeneration e)
    (ent_WeightManual e) (ent_ModelCooldowns e).

(** Schedulable now: the test of [collectCredentialCandidatesLocked]. *)
Definition schedulable (e : CredentialEntry) (now : Z) : bool :=
  bool_decide (RuntimeState (runtimeView e) now = RuntimeAvailable)
  && bool_decide (authNormalize (ent_AuthState e) = AuthReady).

(** * Copies made by configuration replacement *)

Definition cloneCredentialEntry (e : CredentialEntry) : CredentialEntry :=
  withFailure (ent_Blacklisted e) (ent_FailureCount e) 0 e.

Definition samePersistedCredentialConfig (l r : CredentialEntry) : bool :=
  bool_decide (ent_ID l = ent_ID r) && bool_decide (ent_GroupID l = ent_GroupID r)
  && bool_decide (ent_Version l = ent_Version r)
  && bool_decide (ent_IdentityGeneration l = ent_IdentityGeneration r)
  && bool_decide (ent_Fingerprint l = ent_Fingerprint r)
  && bool_decide (ent_Status l = ent_Status r)
  && bool_decide (ent_EncryptedValue l = ent_EncryptedValue r)
  && bool_decide (ent_EncryptedProxy l = ent_EncryptedProxy r)
  && bool_decide (ent_ProxyFingerprint l = ent_ProxyFingerprint r)
  && match ent_WeightManual l, ent_WeightManual r with
     | Some a, Some b => a =? b
     | None, None => true
     | _, _ => false
     end.

(** * Model cooldowns *)

Definition pruneModelCooldowns (limits : gmap string Z) (now : Z) : gmap string Z :=
  filter (fun kv => kv.1 <> EmptyString /\ now < kv.2) limits.

Definition preserveModelCooldowns (next : CredentialEntry) (previous : option CredentialEntry)
  : CredentialEntry :=
  match previous with
  | None => next
  | Some p =>
      if bool_decide (ent_ID next = ent_ID p) && bool_decide (ent_GroupID next = ent_GroupID p)
         && bool_decide (ent_IdentityGeneration next = ent_IdentityGeneration p)
      then withModelCooldowns (ent_ModelCooldowns p) (ent_ModelCooldownGeneration p) next
      else withModelCooldowns ∅ (u64 (ent_ModelCooldownGeneration p + 1)) next
  end.

(** * The part of an entry its registry key and scheduling member depend on *)

Definition sameIdentity (e e' : CredentialEntry) : Prop :=
  ent_ID e = ent_ID e' /\ ent_GroupID e = ent_GroupID e'
  /\ ent_IdentityGeneration e = ent_IdentityGeneration e'.

#[export] Instance sameIdentity_equiv : Equivalence sameIdentity.
Proof. unfold sameIdentity. split; red; intuition congruence. Qed.

(** Every field update above keeps the identity. *)
Ltac solve_identity := intros []; repeat split.

Lemma withName_identity x e : sameIdentity (withName x e) e.
Proof. revert e; solve_identity. Qed.
Lemma withSecret_identity v f s e : sameIdentity (withSecret v f s e) e.
Proof. revert e; solve_identity. Qed.
Lemma withWeight_identity x e : sameIdentity (withWeight x e) e.
Proof. revert e; solve_identity. Qed.
Lemma withStatus_identity x e : sameIdentity (withStatus x e) e.
Proof. revert e; solve_identity. Qed.
Lemma withAuthState_identity x e : sameIdentity (withAuthState x e) e.
Proof. revert e; solve_identity. Qed.
Lemma withCooldown_identity x e : sameIdentity (withCooldown x e) e.
Proof. revert e; solve_identity. Qed.
Lemma withModelCooldowns_identity x g e : sameIdentity (withModelCooldowns x g e) e.
Proof. revert e; solve_identity. Qed.
Lemma withFailure_identity b c g e : sameIdentity (withFailure b c g e) e.
Proof. revert e; solve_identity. Qed.
Lemma withQuota_identity q t e : sameIdentity (withQuota q t e) e.
Proof. revert e; solve_identity. Qed.

#[export] Hint Resolve withName_identity withSecret_identity withWeight_identity
  withStatus_identity withAuthState_identity withCooldown_identity
  withModelCooldowns_identity withFailure_identity withQuota_identity : gohints.

Lemma sameIdentity_refl e : sameIdentity e e.
Proof. reflexivity. Qed.
Lemma sameIdentity_trans e1 e2 e3 : sameIdentity e1 e2 -> sameIdentity e2 e3 -> sameIdentity e1 e3.
Proof. intros; by etrans. Qed.
#[export] Hint Resolve sameIdentity_refl sameIdentity_trans : gohints.

Lemma clone_identity e : sameIdentity (cloneCredentialEntry e) e.
Proof. apply withFailure_identity. Qed.

Lemma preserve_identity e p : sameIdentity (preserveModelCooldowns e p) e.
Proof.
  unfold preserveModelCooldowns. destruct p; [|reflexivity].
  case_if; apply withModelCooldowns_identity.
Qed.
#[export] Hint Resolve clone_identity preserve_identity : gohints.

Lemma lookup_prune_Some limits now m t :
  pruneModelCooldowns limits now !! m = Some t
  <-> limits !! m = Some t /\ m <> EmptyString /\ now < t.
Proof. unfold pruneModelCooldowns. by rewrite map_lookup_filter_Some. Qed.

Lemma prune_idemp limits now :
  pruneModelCooldowns (pruneModelCooldowns limits now) now = pruneModelCooldowns limits now.
Proof.
  apply map_eq. intros m. apply option_eq. intros t. rewrite !lookup_prune_Some. naive_solver.
Qed.

(** A credential is schedulable exactly when it is active, not blacklisted, past its
    cooldown and authorised. *)
Lemma schedulable_spec e now :
  schedulable e now = true
  <-> ent_Status e = StatusActive /\ ent_Blacklisted e = false
      /\ ent_CooldownUntil e <= now /\ authNormalize (ent_AuthState e) = AuthReady.
Proof.
  unfold schedulable, RuntimeState, runtimeView. cbn.
  rewrite andb_true_iff, !bool_decide_eq_true.
  case_bool_decide; cbn; [|naive_solver].
  destruct (ent_Blacklisted e); [naive_solver|].
  case_if; naive_solver lia.
Qed.
