(* ===== verification/Ledger.v ===== *)
(** The scheduling ledger of [internal/state]: the 128-bit progress coordinates, the
    members, the group facts and the model rotation ([scheduling.go],
    [model_rotation.go]).  Every method of [SchedulingState] runs under its mutex, so each
    is one state transformer on [SchedulingLedger]. *)
From S2P Require Import Prelude GoStrings Config Credential.

Local Open Scope Z_scope.

(** * Progress coordinates *)

Record SchedulingProgress := mkProgress { Whole : Z; Fraction : Z }.

#[export] Instance SchedulingProgress_eq_dec : EqDecision SchedulingProgress.
Proof. solve_decision. Defined.

Definition zeroProgress : SchedulingProgress := mkProgress 0 0.

(** [Compare] returns Go's -1, 0 or 1 as a [comparison]. *)
Definition progressCompare (p q : SchedulingProgress) : comparison :=
  match Whole p ?= Whole q with
  | Eq => Fraction p ?= Fraction q
  | c => c
  end.

Definition Advance (p : SchedulingProgress) (weight : Z) : SchedulingProgress * bool :=
  if weight =? 0 then (p, false)
  else
    let '(fraction, carry) :=
      if weight =? 1 then (Fraction p, 1)
      else add64 (Fraction p) (div64 1 0 weight) 0 in
    let '(whole, carry') := add64 (Whole p) carry 0 in
    (mkProgress whole fraction, carry' =? 0).

(** * Members and the ledger *)

Record SchedulingMember := mkMember {
  mem_ID : Z;
  mem_GroupID : Z;
  mem_IdentityGeneration : Z;
  mem_Progress : SchedulingProgress;
  mem_LastSelected : Z;
  mem_Pending : bool;
  mem_suspended : bool;
  mem_cooldownUntil : Z
}.

Definition memSetPending (b : bool) (m : SchedulingMember) : SchedulingMember :=
  mkMember (mem_ID m) (mem_GroupID m) (mem_IdentityGeneration m) (mem_Progress m)
    (mem_LastSelected m) b (mem_suspended m) (mem_cooldownUntil m).

Definition memSetSelected (p : SchedulingProgress) (seq : Z) (m : SchedulingMember) : SchedulingMember :=
  mkMember (mem_ID m) (mem_GroupID m) (mem_IdentityGeneration m) p
    seq (mem_Pending m) (mem_suspended m) (mem_cooldownUntil m).

Definition Admit (baseline : SchedulingProgress) (m : SchedulingMember) : SchedulingMember :=
  mkMember (mem_ID m) (mem_GroupID m) (mem_IdentityGeneration m)
    (match progressCompare (mem_Progress m) baseline with Lt => baseline | _ => mem_Progress m end)
    (mem_LastSelected m) false false (mem_cooldownUntil m).

(** [GroupModelKey]: the group and the external model name. *)
Abbreviation GroupModelKey := (Z * string)%type.

Record SchedulingLedger := mkLedger {
  Members : gmap Z SchedulingMember;
  ModelCursors : gmap GroupModelKey (list string);
  LGroups : gmap Z bool;
  GroupPriorities : gmap Z Z;
  GroupRevision : Z;
  GroupsKnown : bool;
  Started : bool;
  Watermark : SchedulingProgress;
  Sequence : Z;
  LastMember : Z;
  Consecutive : Z
}.

Definition NewSchedulingState : SchedulingLedger :=
  mkLedger ∅ ∅ ∅ ∅ 0 false false zeroProgress 0 0 0.

Definition setMembers (ms : gmap Z SchedulingMember) (d : SchedulingLedger) : SchedulingLedger :=
  mkLedger ms (ModelCursors d) (LGroups d) (GroupPriorities d) (GroupRevision d) (GroupsKnown d)
    (Started d) (Watermark d) (Sequence d) (LastMember d) (Consecutive d).

Definition setLast (last consecutive : Z) (d : SchedulingLedger) : SchedulingLedger :=
  mkLedger (Members d) (ModelCursors d) (LGroups d) (GroupPriorities d) (GroupRevision d)
    (GroupsKnown d) (Started d) (Watermark d) (Sequence d) last consecutive.

Definition setCursors (cs : gmap GroupModelKey (list string)) (d : SchedulingLedger) : SchedulingLedger :=
  mkLedger (Members d) cs (LGroups d) (GroupPriorities d) (GroupRevision d)
    (GroupsKnown d) (Started d) (Watermark d) (Sequence d) (LastMember d) (Consecutive d).

(** * Credential synchronisation *)

(** A view that must not receive traffic; [now] is the reading of [time.Now]. *)
Definition viewSuspended (v : CredentialRuntimeView) (now : Z) : bool :=
  negb (bool_decide (view_Status v = StatusActive)) || view_Blacklisted v
  || (negb (bool_decide (view_AuthState v = AuthReady))
      && negb (bool_decide (view_AuthState v = AuthUnset))
      && negb (bool_decide (view_AuthState v = AuthRefreshing)))
  || match view_WeightManual v with Some w => w <=? 0 | None => false end
  || (now <? view_CooldownUntil v).

Definition memberMatches (m : option SchedulingMember) (gid gen : Z) : bool :=
  match m with
  | None => false
  | Some m => (mem_GroupID m =? gid) && (mem_IdentityGeneration m =? gen)
  end.

Definition freshMember (d : SchedulingLedger) (v : CredentialRuntimeView) : SchedulingMember :=
  mkMember (view_ID v) (view_GroupID v) (view_IdentityGeneration v) zeroProgress 0
    (Started d || GroupsKnown d && negb (mget false (LGroups d) (view_GroupID v))) false 0.

(** The last lines of [syncCredentialLocked]: pending on a suspension or a new cooldown. *)
Definition syncMember (v : CredentialRuntimeView) (now : Z) (m : SchedulingMember) : SchedulingMember :=
  let suspended := viewSuspended v now in
  let pending :=
    if suspended || mem_suspended m
       || negb (isZeroTime (view_CooldownUntil v)) && negb (view_CooldownUntil v =? mem_cooldownUntil m)
    then true else mem_Pending m in
  mkMember (mem_ID m) (mem_GroupID m) (mem_IdentityGeneration m) (mem_Progress m)
    (mem_LastSelected m) pending suspended (view_CooldownUntil v).

Definition syncCredentialLocked (d : SchedulingLedger) (v : CredentialRuntimeView) (now : Z)
  : SchedulingLedger :=
  match Members d !! view_ID v with
  | Some m =>
      if memberMatches (Some m) (view_GroupID v) (view_IdentityGeneration v) then
        setMembers (<[view_ID v := syncMember v now m]> (Members d)) d
      else
        let d' := setMembers (<[view_ID v := syncMember v now (freshMember d v)]> (Members d)) d in
        if LastMember d =? view_ID v then setLast 0 0 d' else d'
  | None =>
      let d' := setMembers (<[view_ID v := syncMember v now (freshMember d v)]> (Members d)) d in
      if LastMember d =? view_ID v then setLast 0 0 d' else d'
  end.

Definition SyncCredential := syncCredentialLocked.

Definition removeLocked (d : SchedulingLedger) (id : Z) : SchedulingLedger :=
  let d' := setMembers (delete id (Members d)) d in
  if LastMember d =? id then setLast 0 0 d' else d'.

Definition Remove := removeLocked.

(** [clock id] is the reading of [time.Now] while credential [id] is synchronised: the
    code reads the clock once per view and the views have distinct identifiers. *)
Definition syncAll (d : SchedulingLedger) (views : list CredentialRuntimeView) (clock : Z -> Z)
  : SchedulingLedger :=
  fold_left (fun d v => syncCredentialLocked d v (clock (view_ID v))) views d.

Definition SyncCredentials (d : SchedulingLedger) (groupID : Z) (views : list CredentialRuntimeView)
    (clock : Z -> Z) : SchedulingLedger :=
  let seen : gset Z := list_to_set (view_ID <$> views) in
  let d1 := syncAll d views clock in
  let dropped := filter (fun p : Z * SchedulingMember =>
    ~ (groupID <> 0 /\ mem_GroupID p.2 <> groupID) /\ p.1 ∉ seen) (mentries (Members d1)) in
  fold_left removeLocked dropped.*1 d1.

(** * Model rotation *)

(** [slices.BinarySearch]: the insertion point by halving; [fuel] bounds the halvings. *)
Fixpoint bsearch (fuel : nat) (l : list string) (target : string) (i j : nat) : nat :=
  match fuel with
  | O => i
  | S f =>
      if (i <? j)%nat then
        let h := Nat.div2 (i + j) in
        match l !! h with
        | Some x => if String.ltb x target then bsearch f l target (S h) j else bsearch f l target i h
        | None => i
        end
      else i
  end.

Definition BinarySearch (l : list string) (target : string) : nat * bool :=
  let i := bsearch (S (length l)) l target 0 (length l) in
  (i, bool_decide (l !! i = Some target)).

(** The loop of [SelectModel]: the first available model of the queue goes to its end. *)
Fixpoint rotate (models order : list string) : option (string * list string) :=
  match order with
  | [] => None
  | m :: rest =>
      if (BinarySearch models m).2 then Some (m, rest ++ [m])
      else match rotate models rest with
           | Some (sel, rest') => Some (sel, m :: rest')
           | None => None
           end
  end.

Definition SelectModel (d : SchedulingLedger) (groupID : Z) (externalModel : string)
    (models : list string) : SchedulingLedger * string :=
  match models with
  | [] => (d, EmptyString)
  | first :: _ =>
      let key := (groupID, externalModel) in
      match rotate models (mget [] (ModelCursors d) key) with
      | Some (sel, order') => (setCursors (<[key := order']> (ModelCursors d)) d, sel)
      | None => (d, first)
      end
  end.

(** One pass of [reconcileModelOrder]: keep the models still remaining, each once. *)
Fixpoint takeRemaining (l : list string) (remaining : gset string) : list string * gset string :=
  match l with
  | [] => ([], remaining)
  | m :: l' =>
      if bool_decide (m ∈ remaining) then
        let '(out, r) := takeRemaining l' (remaining ∖ {[m]}) in (m :: out, r)
      else takeRemaining l' remaining
  end.

Definition reconcileModelOrder (previous configured : list string) : list string :=
  let '(kept, r) := takeRemaining previous (list_to_set configured) in
  kept ++ (takeRemaining configured r).1.

Definition groupModelNames (g : GroupView) : list string :=
  remove_dups (externalModelName <$> gv_Models g).

(** The upstream models published under one external name, trimmed, in configured order. *)
Definition modelsNamed (g : GroupView) (name : string) : list string :=
  (fun m => TrimSpace (mc_ID m)) <$>
    filter (fun m => externalModelName m = name) (gv_Models g).

Definition groupCursors (old : gmap GroupModelKey (list string)) (gid : Z) (g : GroupView)
  : list (GroupModelKey * list string) :=
  omap (fun name =>
    let models := modelsNamed g name in
    if (1 <? length models)%nat then
      Some ((gid, name), reconcileModelOrder (mget [] old (gid, name)) (merge_sort String.le models))
    else None) (groupModelNames g).

Definition catalogDisabled (snapshot : ConfigSnapshot) (gid : Z) : bool :=
  match snap_GroupCatalog snapshot !! gid with Some g => negb (gc_Enabled g) | None => false end.

Definition syncModelCursorsLocked (d : SchedulingLedger) (snapshot : ConfigSnapshot) : SchedulingLedger :=
  let kept := filter (fun kv : GroupModelKey * list string =>
    catalogDisabled snapshot kv.1.1 = true) (ModelCursors d) in
  let fresh := mentries (snap_Groups snapshot) ≫= (fun p => groupCursors (ModelCursors d) p.1 p.2) in
  setCursors (list_to_map fresh ∪ kept) d.

(** * Group synchronisation *)

Definition groupSchedulable (snapshot : ConfigSnapshot) (id : Z) (g : GroupCatalogView) : bool :=
  gc_Enabled g
  && match snap_Groups snapshot !! id with Some gv => (0 <? length (gv_Models gv))%nat | None => false end
  && match gc_WeightManual g with None => true | Some w => 0 <? w end.

Definition priorityChanged (d : SchedulingLedger) (snapshot : ConfigSnapshot) : bool :=
  existsb (fun p : Z * GroupCatalogView =>
    match GroupPriorities d !! p.1 with
    | Some previous => negb (previous =? gc_Priority p.2)
    | None => false
    end) (mentries (snap_GroupCatalog snapshot)).

(** [SyncGroups]; a nil snapshot is [None]. *)
Definition SyncGroups (d : SchedulingLedger) (snapshot : option ConfigSnapshot) : SchedulingLedger :=
  match snapshot with
  | None => d
  | Some s =>
      if GroupsKnown d && (snap_Revision s <=? GroupRevision d) then d
      else
        let groups := map_imap (fun id g => Some (groupSchedulable s id g)) (snap_GroupCatalog s) in
        let changed := priorityChanged d s in
        let members := (fun m => if changed || negb (mget false groups (mem_GroupID m))
                                 then memSetPending true m else m) <$> Members d in
        syncModelCursorsLocked
          (mkLedger members (ModelCursors d) groups (gc_Priority <$> snap_GroupCatalog s)
             (snap_Revision s) true (Started d) (Watermark d) (Sequence d) (LastMember d) (Consecutive d))
          s
  end.

(** * The coordinate as one number *)

Definition pval (p : SchedulingProgress) : Z := Whole p * two64 + Fraction p.

Definition progress_wf (p : SchedulingProgress) : Prop := is_u64 (Whole p) /\ is_u64 (Fraction p).

(** The step one allocation of weight [w] adds. *)
Definition stepOf (w : Z) : Z := two64 / w.

(** [Compare] orders the coordinates as the 128-bit numbers they denote. *)
Lemma progressCompare_pval p q :
  progress_wf p -> progress_wf q -> progressCompare p q = (pval p ?= pval q).
Proof.
  unfold progress_wf, progressCompare, pval. unfold_ints. intros [Hp1 Hp2] [Hq1 Hq2].
  destruct (Z.compare_spec (Whole p) (Whole q)) as [E|E|E]; symmetry.
  - rewrite E. apply Z.add_compare_mono_l.
  - apply Z.compare_lt_iff. lia.
  - apply Z.compare_gt_iff. lia.
Qed.

Lemma progressCompare_refl p : progressCompare p p = Eq.
Proof. unfold progressCompare. by rewrite !Z.compare_refl. Qed.

Lemma pval_range p : progress_wf p -> 0 <= pval p < two64 * two64.
Proof. unfold progress_wf, pval. unfold_ints. lia. Qed.

Lemma pval_inj p q : progress_wf p -> progress_wf q -> pval p = pval q -> p = q.
Proof.
  destruct p as [a b], q as [c d]. unfold progress_wf, pval. unfold_ints. cbn.
  intros [? ?] [? ?] ?. assert (a = c) as -> by lia. f_equal. lia.
Qed.

Lemma stepOf_bounds w : 1 <= w -> 0 <= stepOf w <= two64.
Proof.
  intros Hw. unfold stepOf, two64. split; [apply Z.div_pos; lia|].
  apply Z.div_le_upper_bound; lia.
Qed.

Lemma stepOf_pos w : 1 <= w <= two64 -> 1 <= stepOf w.
Proof. intros Hw. unfold stepOf. apply Z.div_le_lower_bound; lia. Qed.

(** Exact stepping: one [Advance] adds [stepOf weight] to the 128-bit coordinate modulo
    [2^128], and reports success exactly when nothing was lost. *)
Lemma Advance_pval p w :
  progress_wf p -> 1 <= w ->
  let '(q, ok) := Advance p w in
  progress_wf q /\ pval q = (pval p + stepOf w) `mod` (two64 * two64)
  /\ (ok = true <-> pval p + stepOf w < two64 * two64).
Proof.
  intros Hp Hw. pose proof (stepOf_bounds w Hw) as Hs. pose proof (pval_range p Hp) as Hr.
  unfold Advance. rewrite (proj2 (Z.eqb_neq w 0)) by lia.
  assert (exists f c, (if w =? 1 then (Fraction p, 1) else add64 (Fraction p) (div64 1 0 w) 0) = (f, c)
            /\ is_u64 f /\ 0 <= c <= 1 /\ c * two64 + f = Fraction p + stepOf w) as (f & c & -> & Hf & Hc & E).
  { destruct Hp as [_ Hf]. destruct (w =? 1) eqn:Ew; zb.
    - subst. exists (Fraction p), 1. unfold stepOf. rewrite Z.div_1_r. repeat split; try apply Hf; lia.
    - exists (u64 (Fraction p + stepOf w)), ((Fraction p + stepOf w) / two64).
      unfold add64, div64. rewrite Z.mul_1_l, !Z.add_0_r. fold (stepOf w).
      split; [done|]. unfold_ints.
      pose proof (Z.div_mod (Fraction p + stepOf w) 18446744073709551616).
      pose proof (Z.mod_pos_bound (Fraction p + stepOf w) 18446744073709551616).
      assert ((Fraction p + stepOf w) / 18446744073709551616 < 2) by (apply Z.div_lt_upper_bound; lia).
      assert (0 <= (Fraction p + stepOf w) / 18446744073709551616) by (apply Z.div_pos; lia).
      lia. }
  unfold add64. rewrite Z.add_0_r. set (s := Whole p + c).
  assert (0 <= s < 2 * two64) as Hs2 by (destruct Hp as [[? ?] _]; unfold_ints; lia).
  pose proof (Z.div_mod s two64 ltac:(done)) as Hdm.
  pose proof (Z.mod_pos_bound s two64 ltac:(done)) as Hmb.
  assert (pval p + stepOf w = (s / two64) * (two64 * two64) + ((s `mod` two64) * two64 + f)) as Hsum.
  { unfold pval in *. subst s. nia. }
  assert (0 <= (s `mod` two64) * two64 + f < two64 * two64) as Hlow.
  { unfold is_u64, maxUint64 in Hf. unfold two64 in *. nia. }
  assert (0 <= s / two64 <= 1) as Hq.
  { split; [apply Z.div_pos; unfold two64 in *; lia|].
    assert (s / two64 < 2); [apply Z.div_lt_upper_bound; unfold two64 in *; lia|lia]. }
  repeat split.
  - apply Hmb.
  - unfold u64. cbn. unfold maxUint64, two64 in *. lia.
  - apply Hf.
  - apply Hf.
  - unfold pval at 1. cbn [Whole Fraction]. unfold u64. rewrite Hsum, (Z.add_comm (_ * (two64 * two64))), Z.mod_add by done.
    by rewrite (Z.mod_small _ _ Hlow).
  - intros Hz. zb. unfold two64 in *. nia.
  - intros Hlt. apply Z.eqb_eq. unfold two64 in *. nia.
Qed.

(** Model rotation inside a group: the binary search over the available models, the
    queue of upstream models kept per external name, and its reconciliation with a new
    configuration ([SelectModel] and [reconcileModelOrder] of [model_rotation.go]). *)

Local Close Scope Z_scope.

(** * Strings in byte order *)

(** * Binary search *)

(** Everything before [i] is below the target and everything from [j] on is not. *)
Definition bracket (l : list string) (t : string) (i j : nat) : Prop :=
  (forall k x, k < i -> l !! k = Some x -> ~ String.le t x)
  /\ (forall k x, j <= k -> l !! k = Some x -> String.le t x).

Lemma sorted_lookup_le l i j x y :
  StronglySorted String.le l -> i <= j -> l !! i = Some x -> l !! j = Some y -> String.le x y.
Proof.
  intros Hs Hij Hi Hj. destruct (decide (i = j)) as [->|]; [by simplify_eq|].
  eapply (StronglySorted_app_1_elem_of _ (take (S i) l) (drop (S i) l)).
  - by rewrite take_drop.
  - apply list_elem_of_lookup. exists i. rewrite lookup_take_lt; [done|lia].
  - apply list_elem_of_lookup. exists (j - S i). rewrite lookup_drop. by replace (S i + (j - S i)) with j by lia.
Qed.

Lemma bsearch_bracket fuel l t i j :
  StronglySorted String.le l -> i <= j -> j <= length l -> j - i < fuel ->
  bracket l t i j -> let r := bsearch fuel l t i j in bracket l t r r.
Proof.
  intros Hs. revert i j. induction fuel as [|f IH]; intros i j Hij Hj Hf [Hlo Hhi]; [lia|].
  cbn [bsearch]. destruct (Nat.ltb_spec i j) as [Hlt|]; [|replace j with i in Hhi by lia; done].
  set (h := Nat.div2 (i + j)).
  assert (i <= h < j) as Hh.
  { subst h. rewrite Nat.div2_div. split; [apply Nat.div_le_lower_bound; lia|apply Nat.Div0.div_lt_upper_bound; lia]. }
  destruct (lookup_lt_is_Some_2 l h) as [x Hx]; [lia|]. rewrite Hx.
  destruct (String.ltb x t) eqn:E.
  - rewrite ltb_not_le in E. apply IH; try lia. split; [|done].
    intros k y Hk Hy Hty. apply E. etrans; [exact Hty|].
    eapply sorted_lookup_le; [done| |exact Hy|exact Hx]. lia.
  - rewrite ltb_false_le in E. apply IH; try lia. split; [done|].
    intros k y Hk Hy. etrans; [exact E|]. by eapply sorted_lookup_le.
Qed.

(** On a sorted list the search finds the target exactly when it is present. *)
Lemma BinarySearch_found l t :
  StronglySorted String.le l -> (BinarySearch l t).2 = true <-> t ∈ l.
Proof.
  intros Hs. unfold BinarySearch. cbn [snd]. rewrite bool_decide_eq_true.
  pose proof (bsearch_bracket (S (length l)) l t 0 (length l) Hs) as H.
  cbv zeta in H. set (r := bsearch _ _ _ _ _) in *.
  destruct H as [Hlo Hhi]; [lia..| |].
  { split; [lia|]. intros k x Hk Hx. apply lookup_lt_Some in Hx. lia. }
  split; [apply list_elem_of_lookup_2|]. intros [k Hk]%list_elem_of_lookup.
  destruct (decide (k < r)) as [Hkr|Hkr]; [by destruct (Hlo k t Hkr Hk)|].
  destruct (decide (k = r)) as [->|]; [done|].
  destruct (lookup_lt_is_Some_2 l r) as [x Hx]; [apply lookup_lt_Some in Hk; lia|].
  assert (x = t) as ->; [|done]. apply (anti_symm String.le).
  - eapply sorted_lookup_le; [done| |exact Hx|exact Hk]. lia.
  - by eapply Hhi.
Qed.

(** * The rotation queue *)

Lemma rotate_spec models order sel order' :
  rotate models order = Some (sel, order') ->
  exists pre post, order = pre ++ sel :: post /\ order' = pre ++ post ++ [sel]
    /\ (BinarySearch models sel).2 = true
    /\ Forall (fun m => (BinarySearch models m).2 = false) pre.
Proof.
  revert order'. induction order as [|m rest IH]; intros order' H; [done|]. cbn [rotate] in H.
  destruct (BinarySearch models m).2 eqn:E.
  { simplify_eq. exists [], rest. repeat split; done. }
  destruct (rotate models rest) as [[s r]|]; [|done]. simplify_eq.
  destruct (IH r eq_refl) as (pre & post & -> & -> & Hs & Hpre).
  exists (m :: pre), post. repeat split; try done. by constructor.
Qed.

Lemma rotate_None models order :
  rotate models order = None <-> Forall (fun m => (BinarySearch models m).2 = false) order.
Proof.
  induction order as [|m rest IH]; cbn [rotate]; [done|]. rewrite Forall_cons.
  destruct (BinarySearch models m).2; [naive_solver|].
  destruct (rotate models rest) as [[s r]|]; naive_solver.
Qed.

Lemma rotate_Permutation models order sel order' :
  rotate models order = Some (sel, order') -> order' ≡ₚ order.
Proof.
  intros (pre & post & -> & -> & _)%rotate_spec. rewrite app_assoc, <- Permutation_cons_append.
  by rewrite Permutation_middle.
Qed.

(** The queue of a key after a selection is a permutation of the queue before. *)
Lemma SelectModel_cursor d gid ext models k :
  mget [] (ModelCursors (SelectModel d gid ext models).1) k ≡ₚ mget [] (ModelCursors d) k.
Proof.
  unfold SelectModel. destruct models as [|first models]; [done|].
  destruct (rotate _ _) as [[sel order']|] eqn:E; [|done]. cbn.
  apply rotate_Permutation in E. unfold mget in *. rewrite lookup_insert.
  case_decide; [by subst|done].
Qed.

(** [n] selections in a row with the same available models: the final ledger and the
    models chosen, first choice first. *)
Fixpoint selectMany (d : SchedulingLedger) (gid : Z) (ext : string) (models : list string) (n : nat)
  : SchedulingLedger * list string :=
  match n with
  | O => (d, [])
  | S n' =>
      let '(d1, m) := SelectModel d gid ext models in
      let '(d2, ms) := selectMany d1 gid ext models n' in (d2, m :: ms)
  end.

Lemma SelectModel_all d gid ext models m rest :
  StronglySorted String.le models -> mget [] (ModelCursors d) (gid, ext) = m :: rest -> m ∈ models ->
  SelectModel d gid ext models = (setCursors (<[(gid, ext) := rest ++ [m]]> (ModelCursors d)) d, m).
Proof.
  intros Hs Ho Hm. unfold SelectModel. destruct models as [|first models]; [by apply not_elem_of_nil in Hm|].
  rewrite Ho. cbn [rotate]. by rewrite (proj2 (BinarySearch_found _ m Hs)).
Qed.

Lemma selectMany_queue gid ext models pre post d :
  StronglySorted String.le models -> Forall (.∈ models) pre ->
  mget [] (ModelCursors d) (gid, ext) = pre ++ post ->
  let '(d', ms) := selectMany d gid ext models (length pre) in
  ms = pre /\ mget [] (ModelCursors d') (gid, ext) = post ++ pre.
Proof.
  intros Hs. revert post d. induction pre as [|m pre IH]; intros post d Hall Ho.
  { cbn in *. by rewrite app_nil_r. }
  apply Forall_cons in Hall as [Hm Hall]. cbn [length selectMany app] in *.
  rewrite (SelectModel_all d gid ext models m (pre ++ post)) by done.
  specialize (IH (post ++ [m]) (setCursors (<[(gid, ext):=(pre ++ post) ++ [m]]> (ModelCursors d)) d) Hall).
  destruct (selectMany _ _ _ _ _) as [d2 ms].
  destruct IH as [-> ->]; [|by rewrite <- app_assoc].
  unfold mget. cbn. by rewrite lookup_insert_eq, <- app_assoc.
Qed.

(** * Reconciliation with a configuration *)

Lemma takeRemaining_spec l r :
  let '(out, r') := takeRemaining l r in
  NoDup out /\ (forall m, m ∈ out <-> m ∈ l /\ m ∈ r) /\ r' = r ∖ list_to_set l.
Proof.
  revert r. induction l as [|m l IH]; intros r; cbn [takeRemaining].
  { split; [constructor|]. split; [set_solver|]. set_solver. }
  case_bool_decide as Hm.
  - specialize (IH (r ∖ {[m]})). destruct (takeRemaining l _) as [out r'].
    destruct IH as (Hnd & Hout & ->). split; [|split].
    + constructor; [|done]. rewrite Hout. set_solver.
    + intros x. rewrite elem_of_cons, Hout, elem_of_cons.
      destruct (decide (x = m)) as [->|]; set_solver.
    + set_solver.
  - specialize (IH r). destruct (takeRemaining l r) as [out r'].
    destruct IH as (Hnd & Hout & ->). split; [done|split; [|set_solver]].
    intros x. rewrite Hout, elem_of_cons. split; [naive_solver|]. intros [[->|] ?]; naive_solver.
Qed.

Lemma takeRemaining_NoDup l r :
  NoDup l -> (takeRemaining l r).1 = filter (.∈ r) l.
Proof.
  revert r. induction l as [|m l IH]; intros r Hnd; [done|].
  apply NoDup_cons in Hnd as [Hm Hnd]. cbn [takeRemaining]. rewrite filter_cons.
  case_bool_decide as Hr; [rewrite decide_True by done|rewrite decide_False by done; by apply IH].
  specialize (IH (r ∖ {[m]}) Hnd). destruct (takeRemaining l _) as [out r']. cbn in *. f_equal.
  rewrite IH. apply filter_ext_in. intros x Hx. set_solver.
Qed.

Lemma reconcile_NoDup prev conf : NoDup (reconcileModelOrder prev conf).
Proof.
  unfold reconcileModelOrder.
  pose proof (takeRemaining_spec prev (list_to_set conf)) as H1.
  destruct (takeRemaining prev _) as [kept r]. destruct H1 as (Hk & Hin & ->).
  pose proof (takeRemaining_spec conf (list_to_set conf ∖ list_to_set prev)) as H2.
  destruct (takeRemaining conf _) as [new r']. destruct H2 as (Hn & Hin2 & _). cbn.
  apply NoDup_app. split; [done|]. split; [|done].
  intros x. rewrite Hin, Hin2. set_solver.
Qed.

Lemma reconcile_elem prev conf m : m ∈ reconcileModelOrder prev conf <-> m ∈ conf.
Proof.
  unfold reconcileModelOrder.
  pose proof (takeRemaining_spec prev (list_to_set conf)) as H1.
  destruct (takeRemaining prev _) as [kept r]. destruct H1 as (_ & Hin & ->).
  pose proof (takeRemaining_spec conf (list_to_set conf ∖ list_to_set prev)) as H2.
  destruct (takeRemaining conf _) as [new r']. destruct H2 as (_ & Hin2 & _). cbn.
  rewrite elem_of_app, Hin, Hin2, elem_of_difference, !elem_of_list_to_set.
  destruct (decide (m ∈ prev)); tauto.
Qed.

Lemma reconcile_prefix prev conf :
  NoDup prev -> NoDup conf ->
  reconcileModelOrder prev conf = filter (.∈ conf) prev ++ filter (.∉ prev) conf.
Proof.
  intros Hp Hc. unfold reconcileModelOrder.
  pose proof (takeRemaining_spec prev (list_to_set conf)) as H1.
  pose proof (takeRemaining_NoDup prev (list_to_set conf) Hp) as H2.
  destruct (takeRemaining prev _) as [kept r]. destruct H1 as (_ & _ & ->). cbn in H2. subst kept.
  rewrite takeRemaining_NoDup by done. f_equal.
  - apply filter_ext_in. set_solver.
  - apply filter_ext_in. set_solver.
Qed.

Lemma takeRemaining_sublist l r : (takeRemaining l r).1 `sublist_of` l.
Proof.
  revert r. induction l as [|m l IH]; intros r; [constructor|]. cbn [takeRemaining]. case_bool_decide.
  - specialize (IH (r ∖ {[m]})). destruct (takeRemaining l _). by constructor.
  - by constructor.
Qed.

(** * Properties *)

(** A selection serves the earliest queued model that is available now and moves only
    it to the end of the queue, so every other model keeps its turn; a credential whose
    available models are all unknown to the queue gets its first one and no turn is spent. *)
Theorem model_selection d gid ext models first rest :
  StronglySorted String.le models -> models = first :: rest ->
  let q := mget [] (ModelCursors d) (gid, ext) in
  let '(d', m) := SelectModel d gid ext models in
  m ∈ models
  /\ ((exists pre post, q = pre ++ m :: post /\ (forall x, x ∈ pre -> x ∉ models)
        /\ mget [] (ModelCursors d') (gid, ext) = pre ++ post ++ [m])
      \/ ((forall x, x ∈ q -> x ∉ models) /\ m = first /\ d' = d)).
Proof.
  intros Hs Hm. cbv zeta. unfold SelectModel. rewrite Hm, <- Hm.
  assert (forall l, Forall (fun x => (BinarySearch models x).2 = false) l -> forall x, x ∈ l -> x ∉ models) as Hout.
  { intros l Hl x Hx Hin. rewrite Forall_forall in Hl. specialize (Hl x Hx).
    by rewrite (proj2 (BinarySearch_found models x Hs)) in Hl. }
  destruct (rotate models _) as [[sel order']|] eqn:E.
  - apply rotate_spec in E as (pre & post & E & -> & Hsel & Hpre).
    split; [by apply BinarySearch_found|]. left. exists pre, post. split; [done|]. split; [by apply Hout|].
    unfold mget. cbn. by rewrite lookup_insert_eq.
  - apply rotate_None in E. split; [subst; constructor|]. right. split; [by apply Hout|done].
Qed.

(** A queue of three models of which the first is not available. *)
Definition exQueue : SchedulingLedger := setCursors {[ (7%Z, "gpt"%string) := ["a"; "b"; "c"]%string ]} NewSchedulingState.

Lemma sorted_bc : StronglySorted String.le ["b"; "c"]%string.
Proof. repeat constructor. Qed.

Lemma model_selection_witness : (SelectModel exQueue 7 "gpt" ["b"; "c"]%string).2 ∈ ["b"; "c"]%string
  /\ mget [] (ModelCursors (SelectModel exQueue 7 "gpt" ["b"; "c"]%string).1) (7%Z, "gpt"%string) = ["a"; "c"; "b"]%string.
Proof.
  split; [|vm_compute; reflexivity].
  pose proof (model_selection exQueue 7 "gpt" ["b"; "c"]%string "b"%string ["c"]%string sorted_bc eq_refl) as H.
  destruct (SelectModel _ _ _ _) as [d' m]. exact (proj1 H).
Defined.

(** Round robin.  When every queued model is available, one full turn of selections
    serves each queued model exactly once, in queue order, and leaves the queue as it was. *)
Theorem model_round_robin d gid ext models :
  StronglySorted String.le models ->
  let q := mget [] (ModelCursors d) (gid, ext) in
  Forall (.∈ models) q ->
  let '(d', ms) := selectMany d gid ext models (length q) in
  ms = q /\ mget [] (ModelCursors d') (gid, ext) = q.
Proof.
  intros Hs q Hq. pose proof (selectMany_queue gid ext models q [] d Hs Hq) as H.
  destruct (selectMany _ _ _ _ _). apply H. by rewrite app_nil_r.
Qed.

Lemma sorted_abc : StronglySorted String.le ["a"; "b"; "c"]%string.
Proof. repeat constructor. Qed.

Lemma model_round_robin_witness :
  (selectMany exQueue 7 "gpt" ["a"; "b"; "c"]%string 3).2 = ["a"; "b"; "c"]%string.
Proof.
  pose proof (model_round_robin exQueue 7 "gpt" ["a"; "b"; "c"]%string sorted_abc) as H.
  change (selectMany exQueue 7 "gpt" ["a"; "b"; "c"]%string 3) with
    (selectMany exQueue 7 "gpt" ["a"; "b"; "c"]%string (length (mget [] (ModelCursors exQueue) (7%Z, "gpt"%string)))).
  cbv zeta in H. destruct (selectMany _ _ _ _ _) as [d' ms]. apply H.
  apply (bool_decide_unpack _). vm_compute. exact I.
Defined.

(** Reconciliation keeps turns.  After a configuration change the queue holds exactly
    the configured models, each once; the models already queued come first, in their old
    order, and the new ones follow in configured order. *)
Theorem reconcile_keeps_turns previous configured :
  NoDup previous ->
  let o := reconcileModelOrder previous configured in
  NoDup o /\ (forall m, m ∈ o <-> m ∈ configured)
  /\ exists new, o = filter (.∈ configured) previous ++ new /\ new `sublist_of` configured.
Proof.
  intros Hp. split; [apply reconcile_NoDup|]. split; [intros; apply reconcile_elem|].
  unfold reconcileModelOrder. pose proof (takeRemaining_NoDup previous (list_to_set configured) Hp) as H.
  destruct (takeRemaining previous _) as [kept r]. cbn in H. subst kept.
  exists (takeRemaining configured r).1. split; [|apply takeRemaining_sublist]. f_equal.
  apply filter_ext_in. intros x _. by rewrite elem_of_list_to_set.
Qed.

Lemma reconcile_keeps_turns_witness :
  NoDup (reconcileModelOrder ["c"; "x"; "a"]%string ["a"; "b"; "c"]%string)
  /\ reconcileModelOrder ["c"; "x"; "a"]%string ["a"; "b"; "c"]%string = ["c"; "a"; "b"]%string.
Proof.
  split; [|vm_compute; reflexivity].
  apply (reconcile_keeps_turns ["c"; "x"; "a"]%string ["a"; "b"; "c"]%string).
  apply (bool_decide_unpack _). vm_compute. exact I.
Defined.
