(* ===== verification/Fair.v ===== *)
(** The weighted fair selection of one credential ([internal/scheduler/fair.go]) over the
    scheduling ledger.  The closure passed to [WithLock] is one atomic transformer of the
    ledger; its stages are separate definitions, composed in [selectCredential]. *)
From S2P Require Import Prelude GoStrings Config Credential Ledger.

Local Open Scope Z_scope.

(** * Weights and candidates *)

Record weightedCredential := mkWeighted { wc_meta : CredentialMeta; wc_weight : Z }.

Definition wid (c : weightedCredential) : Z := meta_ID (wc_meta c).

Definition zeroWeighted : weightedCredential := mkWeighted (mkMeta 0 0 0 0 None ∅) 0.

(** [effectiveWeight] of [inspect.go]: the product of the two configured weights. *)
Definition effectiveWeight (groupManual credentialManual : option Z) : Z :=
  let groupWeight := ConfiguredWeight groupManual in
  let credentialWeight := ConfiguredWeight credentialManual in
  if (groupWeight <=? 0) || (credentialWeight <=? 0) then 0
  else i64 (groupWeight * credentialWeight).

(** * The stages of [selectCredential] *)

Definition isEligible (d : SchedulingLedger) (c : weightedCredential) : bool :=
  memberMatches (Members d !! wid c) (meta_GroupID (wc_meta c)) (meta_IdentityGeneration (wc_meta c)).

Definition eligibleCandidates (d : SchedulingLedger) (cs : list weightedCredential)
  : list weightedCredential := filter (fun c => isEligible d c = true) cs.

(** The leading progress among the admitted candidates, the watermark when there is none. *)
Definition baselineStep (d : SchedulingLedger) (acc : SchedulingProgress * bool) (c : weightedCredential)
  : SchedulingProgress * bool :=
  match Members d !! wid c with
  | Some m =>
      if negb (mem_Pending m)
         && (negb acc.2 || match progressCompare (mem_Progress m) acc.1 with Gt => true | _ => false end)
      then (mem_Progress m, true) else acc
  | None => acc
  end.

Definition baselineOf (d : SchedulingLedger) (eligible : list weightedCredential) : SchedulingProgress :=
  (fold_left (baselineStep d) eligible (Watermark d, false)).1.

(** Admission needs a group that is not suspended and a snapshot no older than the
    ledger's group facts; [rev] is the iterator's snapshot revision, [None] without one. *)
Definition mayAdmit (d : SchedulingLedger) (rev : option Z) (m : SchedulingMember) : bool :=
  mem_Pending m && (negb (GroupsKnown d) || mget false (LGroups d) (mem_GroupID m))
  && match rev with Some r => GroupRevision d <=? r | None => false end.

Definition admitStep (rev : option Z) (baseline : SchedulingProgress) (d : SchedulingLedger)
    (c : weightedCredential) : SchedulingLedger :=
  match Members d !! wid c with
  | Some m => if mayAdmit d rev m then setMembers (<[wid c := Admit baseline m]> (Members d)) d else d
  | None => d
  end.

Definition admitAll (rev : option Z) (baseline : SchedulingProgress) (d : SchedulingLedger)
    (eligible : list weightedCredential) : SchedulingLedger :=
  fold_left (admitStep rev baseline) eligible d.

Definition less (d : SchedulingLedger) (l r : weightedCredential) : bool :=
  match Members d !! wid l, Members d !! wid r with
  | Some a, Some b =>
      match progressCompare (mem_Progress a) (mem_Progress b) with
      | Lt => true
      | Gt => false
      | Eq => if negb (mem_LastSelected a =? mem_LastSelected b)
              then mem_LastSelected a <? mem_LastSelected b
              else mem_ID a <? mem_ID b
      end
  | _, _ => false
  end.

Definition leastCandidate (d : SchedulingLedger) (cs : list weightedCredential) : weightedCredential :=
  match cs with
  | [] => zeroWeighted
  | c0 :: rest => fold_left (fun first c => if less d c first then c else first) rest c0
  end.

Definition preferredCandidate (eligible : list weightedCredential) (preferred : Z)
  : option weightedCredential := List.find (fun c => wid c =? preferred) eligible.

(** The best candidate other than [first]; the zero value's identifier is 0. *)
Definition alternativeTo (d : SchedulingLedger) (eligible : list weightedCredential)
    (first : weightedCredential) : weightedCredential :=
  fold_left (fun alt c =>
    if negb (wid c =? wid first) && ((wid alt =? 0) || less d c alt) then c else alt)
    eligible zeroWeighted.

Definition consecutiveLimit (first alt : weightedCredential) : Z :=
  99 + Z.quot (wc_weight first + wc_weight alt - 1) (wc_weight alt).

Definition limitConsecutive (d : SchedulingLedger) (eligible : list weightedCredential)
    (first : weightedCredential) (preferredFound : bool) : weightedCredential :=
  if negb preferredFound && (LastMember d =? wid first) && (1 <? length eligible)%nat
     && (100 <=? Consecutive d)
  then let alt := alternativeTo d eligible first in
       if consecutiveLimit first alt <=? Consecutive d then alt else first
  else first.

(** [99+state.MaxWeight*state.MaxWeight]. *)
Definition consecutiveCap : Z := 99 + MaxWeight * MaxWeight.

(** The bookkeeping of the chosen member; on overflow nothing is charged. *)
Definition charge (d : SchedulingLedger) (first : weightedCredential)
  : SchedulingLedger * option CredentialMeta :=
  match Members d !! wid first with
  | None => (d, None)
  | Some m =>
      let '(next, ok) := Advance (mem_Progress m) (u64 (wc_weight first)) in
      if negb ok then (d, None)
      else
        let seq := u64 (Sequence d + 1) in
        let members := <[wid first := memSetSelected next seq m]> (Members d) in
        let water := match progressCompare next (Watermark d) with Gt => next | _ => Watermark d end in
        let '(last, consecutive) :=
          if negb (LastMember d =? mem_ID m) then (mem_ID m, 1)
          else if Consecutive d <? consecutiveCap then (LastMember d, Consecutive d + 1)
          else (LastMember d, Consecutive d) in
        (mkLedger members (ModelCursors d) (LGroups d) (GroupPriorities d) (GroupRevision d)
           (GroupsKnown d) true water seq last consecutive, Some (wc_meta first))
  end.

(** The candidate the ledger settles on, after admission. *)
Definition pickCandidate (d : SchedulingLedger) (eligible : list weightedCredential) (preferred : Z)
  : weightedCredential :=
  let '(first, found) :=
    match preferredCandidate eligible preferred with
    | Some c => (c, true)
    | None => (leastCandidate d eligible, false)
    end in
  limitConsecutive d eligible first found.

Definition selectCredential (d : SchedulingLedger) (rev : option Z)
    (candidates : list weightedCredential) (preferred : Z) : SchedulingLedger * option CredentialMeta :=
  let eligible := eligibleCandidates d candidates in
  let baseline := baselineOf d eligible in
  if (length eligible =? 0)%nat || (Sequence d =? maxUint64) then (d, None)
  else
    let d1 := admitAll rev baseline d eligible in
    charge d1 (pickCandidate d1 eligible preferred).

(** * The ledger invariant *)

Record ledger_ok (d : SchedulingLedger) : Prop := {
  ok_id : forall id m, Members d !! id = Some m -> mem_ID m = id /\ is_u64 id /\ id <> 0;
  ok_progress : forall id m, Members d !! id = Some m -> progress_wf (mem_Progress m);
  ok_watermark : progress_wf (Watermark d);
  ok_below : forall id m, Members d !! id = Some m -> pval (mem_Progress m) <= pval (Watermark d);
  ok_sequence : is_u64 (Sequence d);
  ok_selected : forall id m, Members d !! id = Some m -> 0 <= mem_LastSelected m <= Sequence d;
  ok_last : LastMember d <> 0 -> is_Some (Members d !! LastMember d);
  ok_consecutive : 0 <= Consecutive d <= consecutiveCap
}.

(** The candidates of one request: distinct, non-zero 64-bit identifiers, positive weights
    that fit the product of two manual weights. *)
Record candidates_ok (cs : list weightedCredential) : Prop := {
  cs_nodup : NoDup (wid <$> cs);
  cs_id : forall c, c ∈ cs -> is_u64 (wid c) /\ wid c <> 0;
  cs_weight : forall c, c ∈ cs -> 1 <= wc_weight c <= MaxWeight * MaxWeight
}.

(** * Selection order as one number *)

Definition memberOf (d : SchedulingLedger) (c : weightedCredential) : SchedulingMember :=
  default (mkMember 0 0 0 zeroProgress 0 false false 0) (Members d !! wid c).

(** The 128-bit coordinate of a candidate's member. *)
Definition cval (d : SchedulingLedger) (c : weightedCredential) : Z := pval (mem_Progress (memberOf d c)).

(** Progress first, then the last allocation, then the identifier. *)
Definition rank (d : SchedulingLedger) (c : weightedCredential) : Z :=
  (cval d c * two64 + mem_LastSelected (memberOf d c)) * two64 + wid c.

Lemma eligible_member d c :
  isEligible d c = true -> Members d !! wid c = Some (memberOf d c).
Proof.
  unfold isEligible, memberOf. destruct (Members d !! wid c); [done|]. done.
Qed.

Lemma less_rank d a b :
  ledger_ok d -> isEligible d a = true -> isEligible d b = true ->
  less d a b = (rank d a <? rank d b).
Proof.
  intros Hok Ha%eligible_member Hb%eligible_member. unfold less. rewrite Ha, Hb.
  destruct (ok_id d Hok _ _ Ha) as (Ia & Ra & _), (ok_id d Hok _ _ Hb) as (Ib & Rb & _).
  pose proof (ok_selected d Hok _ _ Ha) as Sa. pose proof (ok_selected d Hok _ _ Hb) as Sb.
  pose proof (ok_sequence d Hok) as Hs.
  rewrite progressCompare_pval by eauto using ok_progress.
  fold (cval d a). fold (cval d b). unfold rank.
  set (x := cval d a). set (y := cval d b). set (la := mem_LastSelected _) in *.
  set (lb := mem_LastSelected (memberOf d b)) in *.
  rewrite Ia, Ib. unfold_ints. symmetry.
  destruct (Z.compare_spec x y); [|apply Z.ltb_lt; lia|apply Z.ltb_ge; lia].
  case_if; symmetry.
  - destruct (Z.ltb_spec la lb); symmetry; [apply Z.ltb_lt|apply Z.ltb_ge]; lia.
  - destruct (Z.ltb_spec (wid a) (wid b)); symmetry; [apply Z.ltb_lt|apply Z.ltb_ge]; lia.
Qed.

(** * Least elements *)

(** The left-to-right minimum of a list under an integer key. *)
Definition minBy {A} (k : A -> Z) (c0 : A) (rest : list A) : A :=
  fold_left (fun first c => if k c <? k first then c else first) rest c0.

Lemma minBy_spec {A} (k : A -> Z) c0 rest :
  minBy k c0 rest ∈ c0 :: rest /\ forall c, c ∈ c0 :: rest -> k (minBy k c0 rest) <= k c.
Proof.
  unfold minBy. revert c0. induction rest as [|x rest IH]; intros c0.
  { split; [constructor|]. intros c ->%list_elem_of_singleton. done. }
  cbn [fold_left]. destruct (IH (if k x <? k c0 then x else c0)) as [Hin Hle]. split.
  - apply elem_of_cons in Hin as [->|Hin]; [|set_solver]. case_if; set_solver.
  - intros c Hc. rewrite !elem_of_cons in Hc.
    pose proof (Hle _ (list_elem_of_here _ _)) as Hhd.
    destruct Hc as [->|[->|Hc]]; [case_if; lia..|]. apply Hle. set_solver.
Qed.


Lemma wid_inj cs a b : NoDup (wid <$> cs) -> a ∈ cs -> b ∈ cs -> wid a = wid b -> a = b.
Proof.
  intros Hnd [i Hi]%list_elem_of_lookup [j Hj]%list_elem_of_lookup E.
  assert (i = j) as ->; [|congruence].
  eapply (NoDup_lookup (wid <$> cs)); [done|..]; rewrite list_lookup_fmap; [by rewrite Hi|].
  rewrite Hj. cbn. by rewrite E.
Qed.

Lemma rank_inj d a b :
  ledger_ok d -> isEligible d a = true -> isEligible d b = true -> rank d a = rank d b -> wid a = wid b.
Proof.
  intros Hok Ha%eligible_member Hb%eligible_member E.
  pose proof (ok_id d Hok _ _ Ha) as (_ & Ra & _). pose proof (ok_id d Hok _ _ Hb) as (_ & Rb & _).
  unfold rank in E. unfold_ints.
  set (x := cval d a * _ + _) in *. set (y := cval d b * _ + _) in *. lia.
Qed.

Lemma leastCandidate_minBy d c0 rest :
  ledger_ok d -> Forall (fun c => isEligible d c = true) (c0 :: rest) ->
  leastCandidate d (c0 :: rest) = minBy (rank d) c0 rest.
Proof.
  intros Hok Hall. cbn [leastCandidate]. unfold minBy. revert c0 Hall.
  induction rest as [|x rest IH]; intros c0 Hall; [done|]. cbn [fold_left].
  rewrite !Forall_cons in Hall. destruct Hall as (H0 & Hx & Hrest).
  rewrite less_rank by done. apply IH. case_if; by constructor.
Qed.

Lemma leastCandidate_spec d cs :
  ledger_ok d -> Forall (fun c => isEligible d c = true) cs -> cs <> [] ->
  leastCandidate d cs ∈ cs /\ forall c, c ∈ cs -> rank d (leastCandidate d cs) <= rank d c.
Proof.
  intros Hok Hall Hne. destruct cs as [|c0 rest]; [done|].
  rewrite leastCandidate_minBy by done. apply minBy_spec.
Qed.

Lemma eligibleCandidates_all d cs : Forall (fun c => isEligible d c = true) (eligibleCandidates d cs).
Proof. apply Forall_forall. intros c. unfold eligibleCandidates. rewrite list_elem_of_filter. tauto. Qed.

Lemma least_unique d cs a b :
  ledger_ok d -> NoDup (wid <$> cs) -> Forall (fun c => isEligible d c = true) cs ->
  a ∈ cs -> b ∈ cs -> (forall c, c ∈ cs -> rank d a <= rank d c) ->
  (forall c, c ∈ cs -> rank d b <= rank d c) -> a = b.
Proof.
  intros Hok Hnd Hall Ha Hb Hla Hlb. rewrite Forall_forall in Hall.
  apply (wid_inj cs); [done..|]. apply (rank_inj d); [auto..|].
  specialize (Hla b Hb). specialize (Hlb a Ha). lia.
Qed.

Lemma leastCandidate_perm d cs cs' :
  ledger_ok d -> NoDup (wid <$> cs) -> Forall (fun c => isEligible d c = true) cs -> cs ≡ₚ cs' ->
  leastCandidate d cs = leastCandidate d cs'.
Proof.
  intros Hok Hnd Hall Hp. destruct cs as [|c0 cs0]; [by apply Permutation_nil_l in Hp as ->|].
  destruct (leastCandidate_spec d (c0 :: cs0)) as [Hi Hl]; [done..|].
  destruct (leastCandidate_spec d cs') as [Hi' Hl']; [done|by rewrite <- Hp| |].
  { intros ->. by apply Permutation_nil_r in Hp. }
  eapply least_unique; [done|exact Hnd|done|done|by rewrite Hp|done|].
  intros c Hc. apply Hl'. by rewrite <- Hp.
Qed.

(** The alternative is the least candidate among those with another identifier. *)
Lemma alternativeTo_least d cs first :
  (forall c, c ∈ cs -> wid c <> 0) ->
  alternativeTo d cs first = leastCandidate d (filter (fun c => wid c <> wid first) cs).
Proof.
  unfold alternativeTo. intros Hnz.
  assert (forall alt, wid alt <> 0 ->
    fold_left (fun alt c => if negb (wid c =? wid first) && ((wid alt =? 0) || less d c alt) then c else alt) cs alt
    = fold_left (fun f c => if less d c f then c else f) (filter (fun c => wid c <> wid first) cs) alt) as Hgen.
  { induction cs as [|c cs IH]; intros alt Ha; [done|]. cbn [fold_left]. rewrite filter_cons.
    assert (forall x, x ∈ cs -> wid x <> 0) as Hnz' by (intros; apply Hnz; by constructor).
    destruct (Z.eqb_spec (wid c) (wid first)) as [E|E]; cbn [negb andb].
    - rewrite decide_False by tauto. by apply IH.
    - rewrite decide_True by done. cbn [fold_left]. rewrite (proj2 (Z.eqb_neq _ 0)) by done. cbn [orb].
      apply IH; [done|]. case_if; [apply Hnz; constructor|done]. }
  induction cs as [|c cs IH]; [done|]. cbn [fold_left]. rewrite filter_cons.
  assert (forall x, x ∈ cs -> wid x <> 0) as Hnz' by (intros; apply Hnz; by constructor).
  destruct (Z.eqb_spec (wid c) (wid first)) as [E|E]; cbn [negb andb].
  - rewrite decide_False by tauto. apply IH; [done|]. intros alt Ha.
    specialize (Hgen alt Ha). cbn [fold_left] in Hgen. rewrite filter_cons, decide_False in Hgen by tauto.
    rewrite (proj2 (Z.eqb_eq _ _) E) in Hgen. exact Hgen.
  - rewrite decide_True by done. cbn [leastCandidate orb].
    specialize (Hgen c (Hnz c ltac:(constructor))). cbn [fold_left] in Hgen.
    rewrite filter_cons, decide_True in Hgen by done. cbn [fold_left] in Hgen.
    rewrite (proj2 (Z.eqb_neq (wid c) 0)) in Hgen by (apply Hnz; constructor).
    rewrite (proj2 (Z.eqb_neq (wid c) (wid first))) in Hgen by done. cbn [negb andb orb] in Hgen.
    change (wid zeroWeighted =? 0) with true. cbn [orb].
    destruct (less d c c); exact Hgen.
Qed.

(** * The admission baseline *)

Definition settled (d : SchedulingLedger) (c : weightedCredential) : Prop :=
  isEligible d c = true /\ mem_Pending (memberOf d c) = false.

(** [b] is what the scan has found after the candidates [cs], starting from [b0]. *)
Definition baseline_spec (d : SchedulingLedger) (b0 : SchedulingProgress) (has0 : bool)
    (cs : list weightedCredential) (b : SchedulingProgress) (has : bool) : Prop :=
  (has = false /\ has0 = false /\ b = b0 /\ forall c, c ∈ cs -> ~ settled d c)
  \/ (has = true
      /\ ((has0 = true /\ b = b0) \/ exists c, c ∈ cs /\ settled d c /\ b = mem_Progress (memberOf d c))
      /\ (has0 = true -> pval b0 <= pval b)
      /\ forall c, c ∈ cs -> settled d c -> cval d c <= pval b).

Lemma baseline_fold d b0 has0 cs :
  ledger_ok d -> progress_wf b0 -> Forall (fun c => isEligible d c = true) cs ->
  let '(b, has) := fold_left (baselineStep d) cs (b0, has0) in
  progress_wf b /\ baseline_spec d b0 has0 cs b has.
Proof.
  intros Hok. revert b0 has0. induction cs as [|c cs IH]; intros b0 has0 Hb Hall.
  { cbn. split; [done|]. destruct has0; [right|left]; naive_solver set_solver. }
  apply Forall_cons in Hall as [Hc Hall]. cbn [fold_left].
  pose proof (eligible_member d c Hc) as Hm. pose proof (ok_progress d Hok _ _ Hm) as Hwf.
  unfold baselineStep at 2. rewrite Hm. cbn [fst snd].
  rewrite progressCompare_pval by done. fold (cval d c).
  destruct (mem_Pending (memberOf d c)) eqn:Hp; cbn [negb andb].
  - specialize (IH b0 has0 Hb Hall). destruct (fold_left _ _ _) as [b has]. destruct IH as [Hbw IH].
    split; [done|]. unfold baseline_spec, settled in *.
    destruct IH as [(?&?&?&?)|(?&?&?&?)]; [left|right]; repeat split; try done.
    + intros x [->|Hx]%elem_of_cons; naive_solver congruence.
    + naive_solver set_solver.
    + intros x [->|Hx]%elem_of_cons [? ?]; [congruence|auto].
  - assert (settled d c) as Hset by done.
    destruct (negb has0 || _) eqn:Hcond.
    + specialize (IH (mem_Progress (memberOf d c)) true Hwf Hall). destruct (fold_left _ _ _) as [b has].
      destruct IH as [Hbw IH]. split; [done|].
      destruct IH as [(_&?&_)|(?&Hsrc&Hge&Hmax)]; [done|]. right. specialize (Hge eq_refl).
      split; [done|]. split; [|split].
      * right. destruct Hsrc as [[_ ->]|(x&Hx&?&->)]; [exists c|exists x]; split; try done; set_solver.
      * intros ->. cbn in Hcond. destruct (Z.compare_spec (cval d c) (pval b0)); [done..|]. 
        unfold cval in *. lia.
      * intros x [->|Hx]%elem_of_cons Hsx; [done|auto].
    + apply orb_false_iff in Hcond as [Hh Hcmp]. apply negb_false_iff in Hh as ->.
      specialize (IH b0 true Hb Hall). destruct (fold_left _ _ _) as [b has]. destruct IH as [Hbw IH].
      split; [done|]. destruct IH as [(_&?&_)|(?&Hsrc&Hge&Hmax)]; [done|]. right. specialize (Hge eq_refl).
      split; [done|]. split; [|split; [done|]].
      * destruct Hsrc as [[_ ->]|(x&Hx&?&->)]; [by left|right]. exists x. split; [set_solver|done].
      * intros x [->|Hx]%elem_of_cons Hsx; [|auto].
        destruct (Z.compare_spec (cval d c) (pval b0)); [lia..|done].
Qed.

Lemma baselineOf_spec d cs :
  ledger_ok d -> Forall (fun c => isEligible d c = true) cs ->
  progress_wf (baselineOf d cs) /\ pval (baselineOf d cs) <= pval (Watermark d)
  /\ exists has, baseline_spec d (Watermark d) false cs (baselineOf d cs) has.
Proof.
  intros Hok Hall. unfold baselineOf.
  pose proof (baseline_fold d (Watermark d) false cs Hok (ok_watermark d Hok) Hall) as H.
  destruct (fold_left _ _ _) as [b has]. cbn. destruct H as [Hwf Hs]. split; [done|]. split; [|eauto].
  destruct Hs as [(_&_&->&_)|(_&[[? _]|(c&Hc&[He _]&->)]&_)]; [done..|].
  eapply ok_below; [done|]. by apply eligible_member.
Qed.

Lemma baselineOf_perm d cs cs' :
  ledger_ok d -> Forall (fun c => isEligible d c = true) cs -> cs ≡ₚ cs' ->
  baselineOf d cs = baselineOf d cs'.
Proof.
  intros Hok Hall Hp.
  destruct (baselineOf_spec d cs) as (Hw & _ & has & Hs); [done..|].
  destruct (baselineOf_spec d cs') as (Hw' & _ & has' & Hs'); [done|by rewrite <- Hp|].
  apply pval_inj; [done..|].
  destruct Hs as [(_&_&->&Hno)|(_&[[? _]|(c&Hc&Hcs&Eb)]&_&Hmax)]; [|done|];
  destruct Hs' as [(_&_&->&Hno')|(_&[[? _]|(c'&Hc'&Hcs'&Eb')]&_&Hmax')]; try done.
  - destruct (Hno c'); [by rewrite Hp|done].
  - destruct (Hno' c); [by rewrite <- Hp|done].
  - specialize (Hmax c' ltac:(by rewrite Hp) Hcs'). specialize (Hmax' c ltac:(by rewrite <- Hp) Hcs).
    unfold cval in *. rewrite <- Eb in Hmax'. rewrite <- Eb' in Hmax. lia.
Qed.

(** * Admission *)

Lemma admitStep_fields rev b d c :
  let d' := admitStep rev b d c in
  ModelCursors d' = ModelCursors d /\ LGroups d' = LGroups d /\ GroupPriorities d' = GroupPriorities d
  /\ GroupRevision d' = GroupRevision d /\ GroupsKnown d' = GroupsKnown d /\ Started d' = Started d
  /\ Watermark d' = Watermark d /\ Sequence d' = Sequence d
  /\ LastMember d' = LastMember d /\ Consecutive d' = Consecutive d.
Proof. unfold admitStep. destruct (Members d !! wid c); [case_if|]; done. Qed.

(** What admission does to one member. *)
Definition admitMember (d : SchedulingLedger) (rev : option Z) (b : SchedulingProgress)
    (m : SchedulingMember) : SchedulingMember := if mayAdmit d rev m then Admit b m else m.

Lemma mayAdmit_Admit d rev b m : mayAdmit d rev (Admit b m) = false.
Proof. done. Qed.

Lemma admitAll_members rev b d cs :
  admitAll rev b d cs
  = setMembers (map_imap (fun id m => Some (if decide (id ∈ wid <$> cs) then admitMember d rev b m else m))
                  (Members d)) d.
Proof.
  unfold admitAll. revert d. induction cs as [|c cs IH]; intros d; cbn [fold_left].
  { destruct d; unfold setMembers; cbn. f_equal. apply map_eq. intros i. rewrite map_lookup_imap.
    destruct (_ !! i); done. }
  rewrite IH. clear IH. unfold admitStep, setMembers.
  destruct (Members d !! wid c) as [m|] eqn:Hm; [case_if|]; cbn; f_equal;
    apply map_eq; intros i; rewrite !map_lookup_imap.
  - rewrite lookup_insert. destruct (decide (wid c = i)) as [<-|Hne].
    + rewrite Hm. cbn. rewrite (decide_True (P := wid c ∈ wid c :: _)) by constructor.
      unfold admitMember. rewrite E. f_equal. by destruct (decide _).
    + destruct (Members d !! i); [|done]. cbn. f_equal.
      rewrite (decide_ext (i ∈ wid c :: _) (i ∈ wid <$> cs)); [done|]. rewrite elem_of_cons. naive_solver.
  - destruct (Members d !! i) as [m'|] eqn:Hi; [|done]. cbn. f_equal.
    destruct (decide (wid c = i)) as [<-|Hne].
    + rewrite (decide_True (P := wid c ∈ wid c :: _)) by constructor. simplify_eq.
      unfold admitMember. rewrite E. by destruct (decide _).
    + rewrite (decide_ext (i ∈ wid c :: _) (i ∈ wid <$> cs)); [done|]. rewrite elem_of_cons. naive_solver.
  - destruct (Members d !! i) as [m'|] eqn:Hi; [|done]. cbn. f_equal.
    rewrite (decide_ext (i ∈ wid c :: _) (i ∈ wid <$> cs)); [done|]. rewrite elem_of_cons. naive_solver congruence.
Qed.

Lemma admitAll_perm rev b d cs cs' : cs ≡ₚ cs' -> admitAll rev b d cs = admitAll rev b d cs'.
Proof.
  intros Hp. rewrite !admitAll_members. f_equal. apply map_eq. intros i. rewrite !map_lookup_imap.
  destruct (Members d !! i); [|done]. cbn. f_equal.
  rewrite (decide_ext (i ∈ wid <$> cs) (i ∈ wid <$> cs')); [done|]. by rewrite Hp.
Qed.

Lemma admitAll_lookup rev b d cs id :
  Members (admitAll rev b d cs) !! id
  = (fun m => if decide (id ∈ wid <$> cs) then admitMember d rev b m else m) <$> Members d !! id.
Proof.
  rewrite admitAll_members. cbn. rewrite map_lookup_imap. by destruct (Members d !! id).
Qed.

Lemma admitMember_same d rev b m :
  mem_ID (admitMember d rev b m) = mem_ID m /\ mem_GroupID (admitMember d rev b m) = mem_GroupID m
  /\ mem_IdentityGeneration (admitMember d rev b m) = mem_IdentityGeneration m
  /\ mem_LastSelected (admitMember d rev b m) = mem_LastSelected m.
Proof. unfold admitMember. case_if; done. Qed.

Lemma admitMember_progress d rev b m :
  progress_wf (mem_Progress m) -> progress_wf b ->
  progress_wf (mem_Progress (admitMember d rev b m))
  /\ pval (mem_Progress (admitMember d rev b m)) <= Z.max (pval (mem_Progress m)) (pval b).
Proof.
  intros Hm Hb. unfold admitMember, Admit. case_if; cbn; [|split; [done|lia]].
  rewrite progressCompare_pval by done.
  destruct (Z.compare_spec (pval (mem_Progress m)) (pval b)); split; try done; lia.
Qed.

Lemma isEligible_admit rev b d cs c : isEligible (admitAll rev b d cs) c = isEligible d c.
Proof.
  unfold isEligible. rewrite admitAll_lookup. destruct (Members d !! wid c) as [m|]; [|done]. cbn.
  destruct (decide _); [|done]. by destruct (admitMember_same d rev b m) as (_&->&->&_).
Qed.

Lemma admitAll_ok rev d cs :
  ledger_ok d -> Forall (fun c => isEligible d c = true) cs ->
  ledger_ok (admitAll rev (baselineOf d cs) d cs).
Proof.
  intros Hok Hall. destruct (baselineOf_spec d cs Hok Hall) as (Hb & Hbw & _).
  assert (forall id m', Members (admitAll rev (baselineOf d cs) d cs) !! id = Some m' ->
    exists m, Members d !! id = Some m /\ mem_ID m' = mem_ID m /\ mem_LastSelected m' = mem_LastSelected m
      /\ progress_wf (mem_Progress m') /\ pval (mem_Progress m') <= pval (Watermark d)) as Hm.
  { intros id m' H. rewrite admitAll_lookup in H. destruct (Members d !! id) as [m|] eqn:E; [|done].
    cbn in H. simplify_eq. exists m. split; [done|].
    pose proof (ok_progress d Hok _ _ E). pose proof (ok_below d Hok _ _ E).
    destruct (decide _); [|done].
    destruct (admitMember_same d rev (baselineOf d cs) m) as (->&_&_&->).
    destruct (admitMember_progress d rev (baselineOf d cs) m) as [? ?]; [done..|].
    split; [done|]. split; [done|]. split; [done|lia]. }
  rewrite admitAll_members in *. cbn in Hm. destruct Hok as [? ? ? ? ? ? Hl ?]. split; cbn; try done.
  - intros id m' (m & E & -> & _)%Hm. eauto.
  - intros id m' (m & E & _ & _ & ? & _)%Hm. done.
  - intros id m' (m & E & _ & _ & _ & ?)%Hm. done.
  - intros id m' (m & E & _ & -> & _)%Hm. eauto.
  - intros Hne. destruct (Hl Hne) as [m E]. rewrite map_lookup_imap, E. by eexists.
Qed.

(** * Charging the chosen member *)

(** A member charged up to [next], the watermark raised over it and the sequence advanced
    keep the ledger's invariant. *)
Lemma charged_ok d id m next water consecutive :
  ledger_ok d -> Members d !! id = Some m -> Sequence d < maxUint64 ->
  progress_wf next -> progress_wf water ->
  pval next <= pval water -> pval (Watermark d) <= pval water ->
  0 <= consecutive <= consecutiveCap ->
  ledger_ok (mkLedger (<[id := memSetSelected next (Sequence d + 1) m]> (Members d)) (ModelCursors d)
    (LGroups d) (GroupPriorities d) (GroupRevision d) (GroupsKnown d) true water (Sequence d + 1) id
    consecutive).
Proof.
  intros Hok Hm Hseq Hn Hww Hnw Hdw Hcc. pose proof (ok_sequence d Hok) as Hs.
  destruct (ok_id d Hok _ _ Hm) as (Hid & Hu & Hnz). split; cbn; try done.
  - intros x m'. rewrite lookup_insert. case_decide; [|by apply ok_id]. intros; simplify_eq. cbn. auto.
  - intros x m'. rewrite lookup_insert. case_decide; [|by apply ok_progress]. intros; simplify_eq. done.
  - intros x m'. rewrite lookup_insert. case_decide; [intros; simplify_eq; done|].
    intros Hx. pose proof (ok_below d Hok _ _ Hx). lia.
  - unfold_ints. lia.
  - intros x m'. rewrite lookup_insert. case_decide; [intros; simplify_eq; cbn; unfold_ints; lia|].
    intros Hx. pose proof (ok_selected d Hok _ _ Hx). lia.
  - intros _. rewrite lookup_insert_eq. by eexists.
Qed.

(** The facts an allocation establishes. *)
Lemma charge_spec d c :
  ledger_ok d -> isEligible d c = true -> 1 <= wc_weight c <= MaxWeight * MaxWeight ->
  Sequence d < maxUint64 ->
  let '(d', sel) := charge d c in
  ledger_ok d' /\
  match sel with
  | Some m => m = wc_meta c /\ cval d c + stepOf (wc_weight c) < two64 * two64
      /\ cval d' c = cval d c + stepOf (wc_weight c)
      /\ mem_LastSelected (memberOf d' c) = Sequence d + 1
      /\ (forall id, id <> wid c -> Members d' !! id = Members d !! id)
      /\ (forall x, isEligible d' x = isEligible d x)
      /\ (forall x, mem_Pending (memberOf d' x) = mem_Pending (memberOf d x))
      /\ Sequence d' = Sequence d + 1 /\ LastMember d' = wid c
      /\ pval (Watermark d') <= pval (Watermark d) + stepOf (wc_weight c)
      /\ Consecutive d' = (if LastMember d =? wid c then Z.min consecutiveCap (Consecutive d + 1) else 1)
  | None => d' = d /\ two64 * two64 <= cval d c + stepOf (wc_weight c)
  end.
Proof.
  intros Hok Hc Hw Hseq. pose proof (eligible_member d c Hc) as Hm.
  pose proof (ok_progress d Hok _ _ Hm) as Hp. pose proof (ok_sequence d Hok) as Hs.
  destruct (ok_id d Hok _ _ Hm) as (Hid & Hu & Hnz). pose proof (ok_consecutive d Hok) as Hcc.
  unfold charge. rewrite Hm. replace (u64 (wc_weight c)) with (wc_weight c)
    by (unfold u64; rewrite Z.mod_small; unfold two64, MaxWeight in *; lia).
  pose proof (Advance_pval (mem_Progress (memberOf d c)) (wc_weight c) Hp ltac:(lia)) as HA.
  destruct (Advance _ _) as [next ok]. destruct HA as (Hnw & Hnv & Hnok). fold (cval d c) in *.
  destruct ok; cbn [negb]; cycle 1.
  { split; [done|]. split; [done|]. destruct (Z.le_gt_cases (two64 * two64) (cval d c + stepOf (wc_weight c))); [done|].
    naive_solver. }
  assert (cval d c + stepOf (wc_weight c) < two64 * two64) as Hlt by tauto.
  pose proof (pval_range _ Hp) as Hpr. pose proof (stepOf_bounds (wc_weight c) ltac:(lia)) as Hst.
  rewrite Z.mod_small in Hnv by (unfold cval in *; lia).
  replace (u64 (Sequence d + 1)) with (Sequence d + 1)
    by (unfold u64; rewrite Z.mod_small; [done|]; unfold_ints; lia).
  rewrite Hid. rewrite progressCompare_pval by eauto using ok_watermark.
  set (water := match _ with Gt => next | _ => Watermark d end).
  assert (progress_wf water /\ pval next <= pval water /\ pval (Watermark d) <= pval water
          /\ pval water <= pval (Watermark d) + stepOf (wc_weight c)) as (Hww & Hnw' & Hww' & Hwb).
  { subst water. pose proof (ok_watermark d Hok). pose proof (ok_below d Hok _ _ Hm). fold (cval d c) in *.
    destruct (Z.compare_spec (pval next) (pval (Watermark d)));
      (split; [done|split; [lia|split; lia]]). }
  set (lc := if negb _ then _ else _).
  assert (lc = (wid c, if LastMember d =? wid c then Z.min consecutiveCap (Consecutive d + 1) else 1)) as ->.
  { subst lc. destruct (Z.eqb_spec (LastMember d) (wid c)) as [->|]; cbn; [|done].
    case_if; f_equal; lia. }
  cbn [fst snd]. split.
  - apply charged_ok; [done..|]. unfold consecutiveCap, MaxWeight in *. case_if; lia.
  - repeat split; try done.
    + unfold cval, memberOf. cbn. rewrite lookup_insert_eq. cbn. done.
    + unfold memberOf. cbn. by rewrite lookup_insert_eq.
    + intros id Hne. cbn. by rewrite lookup_insert_ne.
    + intros x. unfold isEligible. cbn. rewrite lookup_insert. case_decide as E; [|done].
      rewrite <- E, Hm. done.
    + intros x. unfold memberOf. cbn. rewrite lookup_insert. case_decide as E; [|done].
      rewrite <- E. cbn. unfold memberOf in *. by destruct (Members d !! wid c).
Qed.

(** * Picking a candidate *)

(** The eligible candidates of a request, as [pickCandidate] receives them. *)
Record pool_ok (d : SchedulingLedger) (el : list weightedCredential) : Prop := {
  pool_ledger : ledger_ok d;
  pool_cands : candidates_ok el;
  pool_eligible : Forall (fun c => isEligible d c = true) el;
  pool_nonempty : el <> []
}.

Lemma preferredCandidate_Some el p c :
  preferredCandidate el p = Some c -> c ∈ el /\ wid c = p.
Proof.
  unfold preferredCandidate. intros [Hin Heq]%List.find_some. zb.
  split; [by apply list_elem_of_In|done].
Qed.

Lemma preferredCandidate_None el p :
  preferredCandidate el p = None <-> forall c, c ∈ el -> wid c <> p.
Proof.
  unfold preferredCandidate. split.
  - intros Hn c Hc. apply list_elem_of_In in Hc. by apply Z.eqb_neq, (List.find_none _ _ Hn).
  - intros H. destruct (List.find _ el) as [c|] eqn:E; [|done].
    apply List.find_some in E as [Hin Heq]. zb. destruct (H c); [by apply list_elem_of_In|done].
Qed.

Lemma preferredCandidate_perm el el' p :
  NoDup (wid <$> el) -> el ≡ₚ el' -> preferredCandidate el p = preferredCandidate el' p.
Proof.
  intros Hnd Hp. destruct (preferredCandidate el p) as [c|] eqn:E.
  - apply preferredCandidate_Some in E as [Hc Hw].
    destruct (preferredCandidate el' p) as [c'|] eqn:E'.
    + apply preferredCandidate_Some in E' as [Hc' Hw']. f_equal.
      apply (wid_inj el); [done..|by rewrite Hp|congruence].
    + rewrite preferredCandidate_None in E'. destruct (E' c); [by rewrite <- Hp|done].
  - rewrite preferredCandidate_None in E. symmetry. apply preferredCandidate_None.
    intros c Hc. apply E. by rewrite Hp.
Qed.

(** Two candidates: the alternative exists, differs from [first] and is the least other. *)
Lemma alternativeTo_spec d el first :
  pool_ok d el -> first ∈ el -> (1 < length el)%nat ->
  alternativeTo d el first ∈ el /\ wid (alternativeTo d el first) <> wid first
  /\ forall c, c ∈ el -> wid c <> wid first -> rank d (alternativeTo d el first) <= rank d c.
Proof.
  intros [Hok [Hnd Hid _] Hall _] Hf Hlen.
  rewrite alternativeTo_least by (intros; by apply Hid).
  set (fl := filter (fun c => wid c <> wid first) el).
  assert (forall c, c ∈ fl <-> c ∈ el /\ wid c <> wid first) as Hfl
    by (intros c; unfold fl; rewrite list_elem_of_filter; tauto).
  destruct (leastCandidate_spec d fl) as [Hi Hl]; [done| | |].
  - rewrite Forall_forall in *. intros c Hc. by apply Hall, Hfl.
  - intros Hnil. destruct el as [|a [|b el]]; cbn in Hlen; [lia..|].
    assert (forall c, c ∈ a :: b :: el -> wid c = wid first) as Hsame.
    { intros c Hc. destruct (decide (wid c = wid first)); [done|].
      assert (c ∈ fl) as Hin by by apply Hfl. rewrite Hnil in Hin. by apply not_elem_of_nil in Hin. }
    cbn in Hnd. apply NoDup_cons in Hnd as [Hna _]. apply Hna.
    rewrite (Hsame a), <- (Hsame b) by set_solver. constructor.
  - apply Hfl in Hi as [? ?]. repeat split; try done. intros c ? ?. apply Hl. by apply Hfl.
Qed.

Lemma limitConsecutive_in d el first found :
  pool_ok d el -> first ∈ el -> limitConsecutive d el first found ∈ el.
Proof.
  intros Hp Hf. unfold limitConsecutive. case_if; [|done]. case_if; [|done].
  apply alternativeTo_spec; [done..|]. apply Nat.ltb_lt. done.
Qed.

Lemma pickCandidate_in d el p : pool_ok d el -> pickCandidate d el p ∈ el.
Proof.
  intros Hp. unfold pickCandidate. destruct (preferredCandidate el p) as [c|] eqn:E.
  - apply preferredCandidate_Some in E as [Hc _]. by apply limitConsecutive_in.
  - apply limitConsecutive_in; [done|]. by apply leastCandidate_spec; [apply Hp..|apply Hp].
Qed.

(** An eligible preferred candidate is taken as it is. *)
Lemma pickCandidate_preferred d el p c :
  preferredCandidate el p = Some c -> pickCandidate d el p = c.
Proof. unfold pickCandidate. intros ->. done. Qed.

(** Below one hundred consecutive allocations the least candidate is taken. *)
Lemma pickCandidate_least d el p :
  preferredCandidate el p = None -> Consecutive d < 100 -> pickCandidate d el p = leastCandidate d el.
Proof.
  intros Hn Hc. unfold pickCandidate, limitConsecutive. rewrite Hn.
  rewrite (proj2 (Z.leb_gt 100 _)) by done. by rewrite andb_false_r.
Qed.

Lemma limitConsecutive_perm d el el' first found :
  pool_ok d el -> el ≡ₚ el' -> limitConsecutive d el first found = limitConsecutive d el' first found.
Proof.
  intros Hp Hperm. unfold limitConsecutive.
  rewrite (Permutation_length Hperm).
  assert (alternativeTo d el first = alternativeTo d el' first) as ->; [|done].
  destruct Hp as [Hok [Hnd Hid _] Hall _].
  rewrite !alternativeTo_least by (intros c Hc; apply Hid; first [done | by rewrite Hperm]).
  apply leastCandidate_perm; [done| | |by rewrite Hperm].
  - by apply NoDup_fmap_filter.
  - rewrite Forall_forall in *. intros c [_ Hc]%list_elem_of_filter. auto.
Qed.

Lemma pickCandidate_perm d el el' p :
  pool_ok d el -> el ≡ₚ el' -> pickCandidate d el p = pickCandidate d el' p.
Proof.
  intros Hp Hperm. pose proof Hp as [Hok [Hnd _ _] Hall _]. unfold pickCandidate.
  rewrite <- (preferredCandidate_perm el el' p) by done.
  rewrite <- (leastCandidate_perm d el el') by done.
  destruct (preferredCandidate el p); by apply limitConsecutive_perm.
Qed.

(** * The whole selection *)

Lemma candidates_ok_filter (P : weightedCredential -> Prop) `{!forall x, Decision (P x)} cs :
  candidates_ok cs -> candidates_ok (filter P cs).
Proof.
  intros [Hnd Hid Hw]. split.
  - by apply NoDup_fmap_filter.
  - intros c [_ Hc]%list_elem_of_filter. auto.
  - intros c [_ Hc]%list_elem_of_filter. auto.
Qed.

(** The ledger after admission. *)
Definition admitted (d : SchedulingLedger) (rev : option Z) (cs : list weightedCredential)
  : SchedulingLedger :=
  admitAll rev (baselineOf d (eligibleCandidates d cs)) d (eligibleCandidates d cs).

Lemma selectCredential_unfold d rev cs p :
  ledger_ok d -> candidates_ok cs -> eligibleCandidates d cs <> [] -> Sequence d < maxUint64 ->
  pool_ok (admitted d rev cs) (eligibleCandidates d cs)
  /\ selectCredential d rev cs p
     = charge (admitted d rev cs) (pickCandidate (admitted d rev cs) (eligibleCandidates d cs) p).
Proof.
  intros Hok Hcs Hne Hs. unfold admitted. split.
  - split; [by apply admitAll_ok, eligibleCandidates_all|by apply candidates_ok_filter| |done].
    eapply Forall_impl; [apply eligibleCandidates_all|]. intros c Hc. cbn. by rewrite isEligible_admit.
  - unfold selectCredential. destruct (eligibleCandidates d cs) as [|c el]; [done|]. cbn [length Nat.eqb orb].
    by rewrite (proj2 (Z.eqb_neq _ _)) by lia.
Qed.

Lemma selectCredential_idle d rev cs p :
  eligibleCandidates d cs = [] \/ Sequence d = maxUint64 -> selectCredential d rev cs p = (d, None).
Proof.
  unfold selectCredential. intros [->| ->]; [done|]. by rewrite Z.eqb_refl, orb_true_r.
Qed.

Lemma admitted_scalars d rev cs :
  Sequence (admitted d rev cs) = Sequence d /\ Watermark (admitted d rev cs) = Watermark d
  /\ LastMember (admitted d rev cs) = LastMember d /\ Consecutive (admitted d rev cs) = Consecutive d.
Proof. unfold admitted. rewrite admitAll_members. done. Qed.

Lemma eligibleCandidates_elem d cs c :
  c ∈ eligibleCandidates d cs <-> c ∈ cs /\ isEligible d c = true.
Proof. unfold eligibleCandidates. rewrite list_elem_of_filter. tauto. Qed.

(** Either the ledger cannot allocate at all, or [charge_spec] holds of the picked candidate. *)
Lemma selectCredential_cases d rev cs p :
  ledger_ok d -> candidates_ok cs ->
  ((eligibleCandidates d cs = [] \/ Sequence d = maxUint64) /\ selectCredential d rev cs p = (d, None))
  \/ (eligibleCandidates d cs <> [] /\ Sequence d < maxUint64 /\
      exists c, c = pickCandidate (admitted d rev cs) (eligibleCandidates d cs) p
        /\ c ∈ eligibleCandidates d cs /\ 1 <= wc_weight c <= MaxWeight * MaxWeight
        /\ pool_ok (admitted d rev cs) (eligibleCandidates d cs)
        /\ isEligible (admitted d rev cs) c = true
        /\ selectCredential d rev cs p = charge (admitted d rev cs) c).
Proof.
  intros Hok Hcs. destruct (decide (eligibleCandidates d cs = [])) as [|Hne].
  { left. split; [by left|]. apply selectCredential_idle. by left. }
  destruct (decide (Sequence d = maxUint64)) as [|Hs].
  { left. split; [by right|]. apply selectCredential_idle. by right. }
  right. pose proof (ok_sequence d Hok) as Hr.
  assert (Sequence d < maxUint64) as Hs' by (unfold_ints; lia).
  destruct (selectCredential_unfold d rev cs p) as [Hpool ->]; [done..|].
  split; [done|]. split; [done|]. eexists. split; [done|].
  pose proof (pickCandidate_in _ _ p Hpool) as Hin.
  split; [done|]. split; [by apply (cs_weight _ (pool_cands _ _ Hpool))|].
  split; [done|]. split; [|done].
  pose proof (pool_eligible _ _ Hpool) as Hall. rewrite Forall_forall in Hall. auto.
Qed.

(** C-invariant: every selection preserves the ledger invariant. *)
Lemma selectCredential_preserves d rev cs p :
  ledger_ok d -> candidates_ok cs -> ledger_ok (selectCredential d rev cs p).1.
Proof.
  intros Hok Hcs. destruct (selectCredential_cases d rev cs p) as [[_ ->]|H]; [done..|].
  destruct H as (_ & Hs & c & _ & _ & Hw & Hpool & He & ->).
  pose proof (charge_spec (admitted d rev cs) c (pool_ledger _ _ Hpool) He Hw) as HC.
  rewrite (proj1 (admitted_scalars d rev cs)) in HC. specialize (HC Hs).
  destruct (charge _ _) as [d' sel]. by destruct HC.
Qed.

(** The outcome of a selection does not depend on the order of the candidates. *)
Lemma selectCredential_order d rev cs cs' p :
  ledger_ok d -> candidates_ok cs -> cs ≡ₚ cs' ->
  selectCredential d rev cs p = selectCredential d rev cs' p.
Proof.
  intros Hok Hcs Hp.
  assert (eligibleCandidates d cs ≡ₚ eligibleCandidates d cs') as Hel
    by (unfold eligibleCandidates; by rewrite Hp).
  assert (baselineOf d (eligibleCandidates d cs) = baselineOf d (eligibleCandidates d cs')) as Hb.
  { apply baselineOf_perm; [done|apply eligibleCandidates_all|done]. }
  unfold selectCredential. rewrite <- (Permutation_length Hel), <- Hb, <- (admitAll_perm rev _ d _ _ Hel).
  destruct (_ || _) eqn:E; [done|]. apply orb_false_iff in E as [En Es]. apply Nat.eqb_neq in En. zb.
  pose proof (ok_sequence d Hok) as Hr. fold (admitted d rev cs).
  destruct (selectCredential_unfold d rev cs p) as [Hpool _]; [done..| |unfold_ints; lia|].
  { intros Hnil. by rewrite Hnil in En. }
  by rewrite (pickCandidate_perm _ _ _ p Hpool Hel).
Qed.
