(* ===== verification/FairShare.v ===== *)
(** Steady-state behaviour of the fair selection: a fixed set of admitted candidates is
    served in proportion to the weights, and the consecutive limiter never fires. *)
From S2P Require Import Prelude GoStrings Config Credential Ledger Fair.

Local Open Scope Z_scope.

(** Every operation on the scheduling ledger preserves [ledger_ok]: credential and group
    synchronisation, removal, model selection. *)

Lemma progress_wf_zero : progress_wf zeroProgress.
Proof. unfold progress_wf. unfold_ints. cbn. lia. Qed.
#[export] Hint Resolve progress_wf_zero : gohints.

Lemma ledger_ok_new : ledger_ok NewSchedulingState.
Proof.
  split; cbn; try done; try (intros id m H; by rewrite lookup_empty in H).
Qed.

(** Replacing one member by one with the same bounds keeps the invariant. *)
Lemma ledger_ok_insert d id m :
  ledger_ok d -> mem_ID m = id -> is_u64 id -> id <> 0 -> progress_wf (mem_Progress m) ->
  pval (mem_Progress m) <= pval (Watermark d) -> 0 <= mem_LastSelected m <= Sequence d ->
  ledger_ok (setMembers (<[id := m]> (Members d)) d).
Proof.
  intros [Hid Hp Hw Hb Hs Hsel Hl Hc] E Hu Hnz Hwf Hle Hls. split; cbn; try done.
  - intros i x. rewrite lookup_insert. case_decide; [|apply Hid]. intros; simplify_eq. done.
  - intros i x. rewrite lookup_insert. case_decide; [|apply Hp]. intros; simplify_eq. done.
  - intros i x. rewrite lookup_insert. case_decide; [|apply Hb]. intros; simplify_eq. done.
  - intros i x. rewrite lookup_insert. case_decide; [|apply Hsel]. intros; simplify_eq. done.
  - intros H. rewrite lookup_insert. case_decide; [by eexists|by apply Hl].
Qed.

Lemma ledger_ok_resetLast d : ledger_ok d -> ledger_ok (setLast 0 0 d).
Proof. intros [Hid Hp Hw Hb Hs Hsel Hl Hc]. split; cbn; done. Qed.

Lemma ledger_ok_update d f :
  ledger_ok d ->
  (forall m, mem_ID (f m) = mem_ID m /\ mem_Progress (f m) = mem_Progress m
             /\ mem_LastSelected (f m) = mem_LastSelected m) ->
  ledger_ok (setMembers (f <$> Members d) d).
Proof.
  intros [Hid Hp Hw Hb Hs Hsel Hl Hc] Hf. split; cbn; try done;
    try (intros i x; rewrite lookup_fmap; destruct (Members d !! i) as [m|] eqn:E; [|done];
         cbn; intros; simplify_eq; destruct (Hf m) as (H1 & H2 & H3); rewrite ?H1, ?H2, ?H3; eauto).
  intros H. rewrite lookup_fmap. destruct (Hl H) as [m ->]. by eexists.
Qed.

Lemma syncMember_same v now m :
  mem_ID (syncMember v now m) = mem_ID m /\ mem_Progress (syncMember v now m) = mem_Progress m
  /\ mem_LastSelected (syncMember v now m) = mem_LastSelected m.
Proof. done. Qed.

Lemma pval_zero_le d : ledger_ok d -> pval zeroProgress <= pval (Watermark d).
Proof. intros Hok. pose proof (pval_range _ (ok_watermark d Hok)). unfold pval in *. cbn. lia. Qed.

Lemma syncCredential_ok d v now :
  ledger_ok d -> is_u64 (view_ID v) -> view_ID v <> 0 -> ledger_ok (syncCredentialLocked d v now).
Proof.
  intros Hok Hu Hnz. pose proof (ok_sequence d Hok) as Hs.
  assert (ledger_ok (setMembers (<[view_ID v := syncMember v now (freshMember d v)]> (Members d)) d)) as Hfresh.
  { apply ledger_ok_insert; cbn; try done; [by apply pval_zero_le|unfold_ints; lia]. }
  unfold syncCredentialLocked. destruct (Members d !! view_ID v) as [m|] eqn:E.
  - destruct (memberMatches _ _ _).
    + apply ledger_ok_insert; cbn; try done; eauto using ok_progress, ok_below, ok_selected.
      by apply (ok_id d Hok _ _ E).
    + case_if; [by apply ledger_ok_resetLast|done].
  - case_if; [by apply ledger_ok_resetLast|done].
Qed.

Lemma removeLocked_ok d id : ledger_ok d -> ledger_ok (removeLocked d id).
Proof.
  intros [Hid Hp Hw Hb Hs Hsel Hl Hc]. unfold removeLocked.
  destruct (Z.eqb_spec (LastMember d) id) as [E|E]; split; cbn; try done;
    try (intros i x [_ H]%lookup_delete_Some; eauto).
  intros H. rewrite lookup_delete_ne by done. by apply Hl.
Qed.

Lemma syncAll_ok d views clock :
  ledger_ok d -> (forall v, v ∈ views -> is_u64 (view_ID v) /\ view_ID v <> 0) ->
  ledger_ok (syncAll d views clock).
Proof.
  intros Hok Hv. unfold syncAll. apply fold_left_inv; [done|]. intros a v Hin Ha. by apply syncCredential_ok; [|apply Hv..].
Qed.

Lemma SyncCredentials_ok d gid views clock :
  ledger_ok d -> (forall v, v ∈ views -> is_u64 (view_ID v) /\ view_ID v <> 0) ->
  ledger_ok (SyncCredentials d gid views clock).
Proof.
  intros Hok Hv. unfold SyncCredentials. apply fold_left_inv; [by apply syncAll_ok|].
  intros a id _. apply removeLocked_ok.
Qed.

Lemma ledger_ok_facts d ms cs gs ps rev known :
  ledger_ok (setMembers ms d) ->
  ledger_ok (mkLedger ms cs gs ps rev known (Started d) (Watermark d) (Sequence d) (LastMember d) (Consecutive d)).
Proof. intros [Hid Hp Hw Hb Hs Hsel Hl Hc]. split; done. Qed.

Lemma SyncGroups_ok d s : ledger_ok d -> ledger_ok (SyncGroups d s).
Proof.
  intros Hok. destruct s as [s|]; [|done]. unfold SyncGroups. case_if; [done|].
  unfold syncModelCursorsLocked, setCursors. cbn.
  apply (ledger_ok_facts d), ledger_ok_update; [done|]. intros m. case_if; done.
Qed.

Lemma SelectModel_ok d gid ext models : ledger_ok d -> ledger_ok (SelectModel d gid ext models).1.
Proof.
  intros [Hid Hp Hw Hb Hs Hsel Hl Hc]. unfold SelectModel. destruct models; [done|].
  destruct (rotate _ _) as [[]|]; done.
Qed.

#[export] Hint Resolve ledger_ok_new syncCredential_ok removeLocked_ok SyncCredentials_ok
  SyncGroups_ok SelectModel_ok selectCredential_preserves : gohints.

(** * The ledger as a transition system

    The operations the program performs on the ledger, in any interleaving: each holds
    the mutex for its whole duration. *)
Inductive ledger_step : SchedulingLedger -> SchedulingLedger -> Prop :=
| step_sync d v now : is_u64 (view_ID v) -> view_ID v <> 0 -> ledger_step d (SyncCredential d v now)
| step_sync_all d gid views clock :
    (forall v, v ∈ views -> is_u64 (view_ID v) /\ view_ID v <> 0) ->
    ledger_step d (SyncCredentials d gid views clock)
| step_remove d id : ledger_step d (Remove d id)
| step_groups d s : ledger_step d (SyncGroups d s)
| step_model d gid ext models : ledger_step d (SelectModel d gid ext models).1
| step_select d rev cs p : candidates_ok cs -> ledger_step d (selectCredential d rev cs p).1.

Lemma ledger_step_ok d d' : ledger_step d d' -> ledger_ok d -> ledger_ok d'.
Proof. intros [] Hok; unfold SyncCredential, Remove; auto with gohints. Qed.


(** * A concrete ledger for the witnesses: two active credentials of one group *)

Definition exView (id w : Z) : CredentialRuntimeView :=
  mkView id 1 1 1 (Some w) StatusActive AuthReady 0 ∅ false 0 None 0.

Definition exLedger : SchedulingLedger :=
  SyncCredential (SyncCredential NewSchedulingState (exView 1 1) 5) (exView 2 3) 5.

Definition exCandidate (id w : Z) : weightedCredential := mkWeighted (mkMeta id 1 1 1 (Some w) ∅) w.

Definition exCandidates : list weightedCredential := [exCandidate 1 1; exCandidate 2 3].

Lemma exLedger_ok : ledger_ok exLedger.
Proof. apply syncCredential_ok; [apply syncCredential_ok; [apply ledger_ok_new|..]|..]; done. Qed.

Lemma exCandidates_ok : candidates_ok exCandidates.
Proof.
  split.
  - by apply (bool_decide_unpack _).
  - intros c Hc. unfold exCandidates in Hc. rewrite !elem_of_cons in Hc.
    destruct Hc as [->|[->|Hc]]; [done..|by apply not_elem_of_nil in Hc].
  - intros c Hc. unfold exCandidates in Hc. rewrite !elem_of_cons in Hc.
    destruct Hc as [->|[->|Hc]]; [done..|by apply not_elem_of_nil in Hc].
Qed.

(** In every state the ledger reaches from a new one, by any interleaving of
    credential synchronisation, removal, group synchronisation, model rotation and
    selection, the members are keyed by their identifiers, no progress exceeds the
    watermark, no member was selected after the current sequence, the last member is
    present and the consecutive count is within its cap. *)
Theorem ledger_reachable_ok d : rtc ledger_step NewSchedulingState d -> ledger_ok d.
Proof.
  apply (rtc_ind_r (fun d => ledger_ok d)); [apply ledger_ok_new|].
  intros d1 d2 _ Hstep Hok. by eapply ledger_step_ok.
Qed.

Lemma ledger_reachable_ok_witness : ledger_ok exLedger.
Proof.
  apply ledger_reachable_ok. eapply rtc_l; [|eapply rtc_l; [|apply rtc_refl]].
  - apply (step_sync NewSchedulingState (exView 1 1) 5); done.
  - apply (step_sync _ (exView 2 3) 5); done.
Defined.

(** [n] selections in a row without a preferred credential: the final ledger and the
    identifiers served, in order.  The run stops at the first refusal. *)
Fixpoint runSelections (d : SchedulingLedger) (rev : option Z) (cs : list weightedCredential) (n : nat)
  : SchedulingLedger * list Z :=
  match n with
  | O => (d, [])
  | S n' =>
      match selectCredential d rev cs 0 with
      | (d1, Some m) => let '(d2, ids) := runSelections d1 rev cs n' in (d2, meta_ID m :: ids)
      | (d1, None) => (d1, [])
      end
  end.

Lemma runSelections_ok d rev cs n :
  ledger_ok d -> candidates_ok cs -> ledger_ok (runSelections d rev cs n).1.
Proof.
  intros Hok Hcs. revert d Hok. induction n as [|n IH]; intros d Hok; [done|]. cbn [runSelections].
  pose proof (selectCredential_preserves d rev cs 0 Hok Hcs) as Hok1.
  destruct (selectCredential d rev cs 0) as [d1 [m|]]; [|done].
  specialize (IH d1 Hok1). by destruct (runSelections d1 rev cs n).
Qed.

Definition served (c : weightedCredential) (ids : list Z) : Z :=
  Z.of_nat (length (filter (fun i => i = wid c) ids)).

(** Every candidate is admitted, none is ahead of another by more than its own step, and
    a run of allocations to one member has moved it past the others. *)
Record steady (d : SchedulingLedger) (cs : list weightedCredential) : Prop := {
  st_ok : ledger_ok d;
  st_cs : candidates_ok cs;
  st_settled : forall c, c ∈ cs -> settled d c;
  st_stride : forall a b, a ∈ cs -> b ∈ cs -> cval d a - stepOf (wc_weight a) <= cval d b;
  st_run : forall f a, f ∈ cs -> a ∈ cs -> LastMember d = wid f -> wid a <> wid f ->
    cval d a - stepOf (wc_weight a) + Consecutive d * stepOf (wc_weight f) <= cval d f
}.

(** The arithmetic of the limiter: a member that is still the least after [c] consecutive
    allocations has not reached the limit. *)
Lemma limit_not_reached wf wa c :
  1 <= wf <= MaxWeight * MaxWeight -> 1 <= wa <= MaxWeight * MaxWeight ->
  c * stepOf wf <= stepOf wa -> c < 99 + Z.quot (wf + wa - 1) wa.
Proof.
  unfold MaxWeight. intros Hf Ha Hc. rewrite Z.quot_div_nonneg by lia.
  set (q := (wf + wa - 1) / wa). set (sf := stepOf wf) in *. set (sa := stepOf wa) in *.
  assert (wf <= q * wa) as Hq.
  { subst q. pose proof (Z.div_mod (wf + wa - 1) wa ltac:(lia)).
    pose proof (Z.mod_pos_bound (wf + wa - 1) wa ltac:(lia)). nia. }
  assert (two64 - wf < sf * wf) as Hsf.
  { subst sf. unfold stepOf. pose proof (Z.div_mod two64 wf ltac:(lia)).
    pose proof (Z.mod_pos_bound two64 wf ltac:(lia)). nia. }
  assert (sa * wa <= two64) as Hsa.
  { subst sa. unfold stepOf. pose proof (Z.mul_div_le two64 wa ltac:(lia)). lia. }
  assert (0 <= q) by (subst q; apply Z.div_pos; lia).
  assert (0 < sf) as Hsf0 by (subst sf; unfold stepOf; apply Z.div_str_pos; unfold two64; lia).
  destruct (Z.lt_ge_cases c (99 + q)) as [|Hge]; [done|exfalso].
  assert ((99 + q) * sf <= sa) as H1 by nia.
  assert ((99 * wa + wf) * sf <= sa * wa) as H2 by nia.
  assert ((99 * wa + wf) * (sf * wf) <= two64 * wf) as H3 by nia.
  assert ((99 * wa + wf) * (two64 - wf) < two64 * wf) as H4 by nia.
  unfold two64 in *. nia.
Qed.

Lemma steady_eligible d cs : steady d cs -> eligibleCandidates d cs = cs.
Proof.
  intros Hst. apply filter_all_in. intros c Hc. by apply (st_settled d cs Hst).
Qed.

Lemma steady_admitted d rev cs : steady d cs -> admitted d rev cs = d.
Proof.
  intros Hst. unfold admitted. rewrite steady_eligible, admitAll_members by done.
  transitivity (setMembers (Members d) d); [|by destruct d]. f_equal.
  apply map_eq. intros i. rewrite map_lookup_imap. destruct (Members d !! i) as [m|] eqn:E; [|done].
  cbn. f_equal. destruct (decide _) as [Hi|]; [|done].
  apply list_elem_of_fmap in Hi as (c & -> & Hc). destruct (st_settled d cs Hst c Hc) as [_ Hp].
  unfold memberOf in Hp. rewrite E in Hp. cbn in Hp. unfold admitMember, mayAdmit. by rewrite Hp.
Qed.

(** In the steady state the least candidate is picked: the limiter does not fire. *)
Lemma steady_pick d cs : steady d cs -> cs <> [] -> pickCandidate d cs 0 = leastCandidate d cs.
Proof.
  intros Hst Hne. destruct Hst as [Hok Hcs Hset Hstride Hrun].
  assert (pool_ok d cs) as Hpool.
  { split; [done..| |done]. apply Forall_forall. intros c Hc. apply Hset, Hc. }
  assert (preferredCandidate cs 0 = None) as Hnone.
  { apply preferredCandidate_None. intros c Hc. by apply (cs_id _ Hcs). }
  destruct (leastCandidate_spec d cs) as [Hin Hle]; [apply Hpool..|].
  unfold pickCandidate. rewrite Hnone. unfold limitConsecutive. set (f := leastCandidate d cs) in *.
  destruct (_ && _) eqn:E; [|done]. zb. destruct (_ <=? Consecutive d) eqn:El; [exfalso; zb|done].
  match goal with H : (1 <? _)%nat = true |- _ => apply Nat.ltb_lt in H; rename H into Hlen end.
  destruct (alternativeTo_spec d cs f) as (Ha & Hne' & _); [done..|].
  set (a := alternativeTo d cs f) in *. unfold consecutiveLimit in El.
  match goal with H : LastMember d = _ |- _ => pose proof (Hrun f a Hin Ha H Hne') as Hr end.
  assert (cval d f <= cval d a) as Hfa.
  { specialize (Hle a Ha). unfold rank in Hle.
    pose proof (eligible_member d f (proj1 (Hset f Hin))) as Hmf.
    pose proof (eligible_member d a (proj1 (Hset a Ha))) as Hma.
    pose proof (ok_selected d Hok _ _ Hmf). pose proof (ok_selected d Hok _ _ Hma).
    pose proof (ok_sequence d Hok). pose proof (cs_id _ Hcs f Hin) as [? _].
    pose proof (cs_id _ Hcs a Ha) as [? _]. unfold_ints. lia. }
  pose proof (limit_not_reached (wc_weight f) (wc_weight a) (Consecutive d)
    (cs_weight _ Hcs f Hin) (cs_weight _ Hcs a Ha) ltac:(lia)). lia.
Qed.

(** Room for [n] more allocations in both counters. *)
Definition headroom (d : SchedulingLedger) (n : nat) : Prop :=
  Sequence d + Z.of_nat n <= maxUint64 /\ pval (Watermark d) + Z.of_nat n * two64 < two64 * two64.

Lemma served_cons c i ids : served c (i :: ids) = (if decide (i = wid c) then 1 else 0) + served c ids.
Proof. unfold served. rewrite filter_cons. destruct (decide _); cbn [length]; lia. Qed.

Lemma rank_le_cval d cs a b :
  steady d cs -> a ∈ cs -> b ∈ cs -> rank d a <= rank d b -> cval d a <= cval d b.
Proof.
  intros [Hok Hcs Hset _ _] Ha Hb Hle. unfold rank in Hle.
  pose proof (ok_selected d Hok _ _ (eligible_member d a (proj1 (Hset a Ha)))).
  pose proof (ok_selected d Hok _ _ (eligible_member d b (proj1 (Hset b Hb)))).
  pose proof (ok_sequence d Hok). pose proof (cs_id _ Hcs a Ha) as [? _].
  pose proof (cs_id _ Hcs b Hb) as [? _]. unfold_ints. lia.
Qed.

(** One steady step: the least candidate is served and the state stays steady. *)
Lemma steady_step d rev cs n :
  steady d cs -> cs <> [] -> headroom d (S n) ->
  exists c d', c ∈ cs /\ selectCredential d rev cs 0 = (d', Some (wc_meta c)) /\ steady d' cs
    /\ headroom d' n
    /\ forall x, x ∈ cs -> cval d' x = cval d x + (if decide (wid c = wid x) then stepOf (wc_weight x) else 0).
Proof.
  intros Hst Hne [Hs Hw]. pose proof Hst as [Hok Hcs Hset Hstride Hrun].
  destruct (selectCredential_unfold d rev cs 0) as [Hpool Hsel]; [done..|by rewrite steady_eligible|lia|].
  rewrite steady_admitted, steady_eligible in Hsel by done. rewrite steady_pick in Hsel by done.
  destruct (leastCandidate_spec d cs) as [Hin Hle]; [done| |done|].
  { apply Forall_forall. intros c Hc. by apply Hset. }
  set (c := leastCandidate d cs) in *.
  pose proof (charge_spec d c Hok (proj1 (Hset c Hin)) (cs_weight _ Hcs c Hin) ltac:(lia)) as HC.
  rewrite Hsel. destruct (charge d c) as [d' sel]. destruct HC as [Hok' HC].
  pose proof (stepOf_bounds (wc_weight c) (proj1 (cs_weight _ Hcs c Hin))) as Hstep.
  pose proof (ok_below d Hok _ _ (eligible_member d c (proj1 (Hset c Hin)))) as Hbelow.
  fold (cval d c) in Hbelow. destruct sel as [m|]; [|destruct HC as [_ HC]; unfold two64 in *; lia].
  destruct HC as (-> & _ & Hcv & _ & Hother & Helig & Hpend & Hseq & Hlast & Hwater & Hcons).
  assert (forall x, x ∈ cs -> cval d' x = cval d x + (if decide (wid c = wid x) then stepOf (wc_weight x) else 0)) as Hval.
  { intros x Hx. destruct (decide (wid c = wid x)) as [E|E].
    - rewrite <- (wid_inj cs c x (cs_nodup _ Hcs)) by done. done.
    - unfold cval, memberOf. rewrite Hother by done. lia. }
  assert (forall x, x ∈ cs -> cval d c <= cval d x) as Hmin.
  { intros x Hx. apply (rank_le_cval d cs); auto. }
  assert (forall x, x ∈ cs -> 0 <= stepOf (wc_weight x)) as Hpos.
  { intros x Hx. pose proof (cs_weight _ Hcs x Hx). pose proof (stepOf_bounds (wc_weight x)). lia. }
  exists c, d'. split; [done|]. split; [done|]. split; [|split; [|done]].
  - split; [done..| | |].
    + intros x Hx. destruct (Hset x Hx) as [He Hp]. split; [by rewrite Helig|by rewrite Hpend].
    + intros a b Ha Hb. rewrite !Hval by done. specialize (Hstride a b Ha Hb).
      pose proof (Hmin b Hb). pose proof (Hpos a Ha). pose proof (Hpos b Hb).
      destruct (decide (wid c = wid a)) as [E|E]; [|destruct (decide _); lia].
      rewrite <- (wid_inj cs c a (cs_nodup _ Hcs)) in * by done. destruct (decide _); lia.
    + intros f a Hf Ha Hlf Hna. rewrite Hlast in Hlf. rewrite !Hval by done.
      rewrite <- (wid_inj cs c f (cs_nodup _ Hcs)) in * by done.
      rewrite (decide_False (P := wid c = wid a)), (decide_True (P := wid c = wid c)) by congruence.
      rewrite Hcons.
      pose proof (Hstride a c Ha Hin). pose proof (Hpos c Hin).
      destruct (Z.eqb_spec (LastMember d) (wid c)) as [El|]; [|lia].
      pose proof (Hrun c a Hin Ha El Hna). pose proof (ok_consecutive d Hok).
      assert (Z.min consecutiveCap (Consecutive d + 1) * stepOf (wc_weight c)
              <= (Consecutive d + 1) * stepOf (wc_weight c)) by (apply Z.mul_le_mono_nonneg_r; lia).
      lia.
  - split; lia.
Qed.

(** A whole run from a steady state. *)
Lemma steady_run d rev cs n :
  steady d cs -> cs <> [] -> headroom d n ->
  let '(d', ids) := runSelections d rev cs n in
  length ids = n /\ steady d' cs
  /\ forall c, c ∈ cs -> cval d' c = cval d c + served c ids * stepOf (wc_weight c).
Proof.
  revert d. induction n as [|n IH]; intros d Hst Hne Hh; cbn [runSelections].
  { split; [done|]. split; [done|]. intros c _. unfold served. cbn. lia. }
  destruct (steady_step d rev cs n Hst Hne Hh) as (c & d1 & Hc & -> & Hst1 & Hh1 & Hval).
  specialize (IH d1 Hst1 Hne Hh1). destruct (runSelections d1 rev cs n) as [d2 ids].
  destruct IH as (Hlen & Hst2 & Hv). split; [by cbn; rewrite Hlen|]. split; [done|].
  intros x Hx. rewrite served_cons, Hv, Hval by done. fold (wid c).
  destruct (decide (wid c = wid x)); lia.
Qed.

(** Candidates that start level, with no run in progress, are steady. *)
Lemma level_steady d cs :
  ledger_ok d -> candidates_ok cs -> (forall c, c ∈ cs -> settled d c) ->
  (forall a b, a ∈ cs -> b ∈ cs -> cval d a = cval d b) ->
  (forall c, c ∈ cs -> wid c <> LastMember d) -> steady d cs.
Proof.
  intros Hok Hcs Hset Hlevel Hlast. split; [done..| |].
  - intros a b Ha Hb. rewrite (Hlevel a b) by done. pose proof (cs_weight _ Hcs a Ha).
    pose proof (stepOf_bounds (wc_weight a)). lia.
  - intros f a Hf _ Hl. by destruct (Hlast f Hf).
Qed.

(** * Properties *)

(** C2: Weighted fairness.  Take admitted candidates with distinct identifiers, level
    progress and no allocation run in progress.  Then any number of selections that the
    counters have room for all succeed, and the number of times each candidate was served,
    multiplied by its step [2^64/weight], exceeds that of any other candidate by at most
    one step of its own: traffic is shared in proportion to the weights, with a deviation
    of at most one allocation. *)
Theorem fair_weighted_shares d rev cs n :
  ledger_ok d -> candidates_ok cs -> cs <> [] -> (forall c, c ∈ cs -> settled d c) ->
  (forall a b, a ∈ cs -> b ∈ cs -> cval d a = cval d b) ->
  (forall c, c ∈ cs -> wid c <> LastMember d) -> headroom d n ->
  let ids := (runSelections d rev cs n).2 in
  length ids = n
  /\ forall a b, a ∈ cs -> b ∈ cs ->
       served a ids * stepOf (wc_weight a) <= served b ids * stepOf (wc_weight b) + stepOf (wc_weight a).
Proof.
  intros Hok Hcs Hne Hset Hlevel Hlast Hh. cbv zeta.
  pose proof (steady_run d rev cs n (level_steady d cs Hok Hcs Hset Hlevel Hlast) Hne Hh) as Hrun.
  destruct (runSelections d rev cs n) as [d' ids]. destruct Hrun as (Hlen & Hst & Hv).
  split; [done|]. intros a b Ha Hb. cbn [snd].
  pose proof (st_stride d' cs Hst a b Ha Hb) as Hs. rewrite !Hv in Hs by done.
  rewrite (Hlevel a b Ha Hb) in Hs. lia.
Qed.

Lemma in_exCandidates c : c ∈ exCandidates -> c = exCandidate 1 1 \/ c = exCandidate 2 3.
Proof. unfold exCandidates. rewrite !elem_of_cons, elem_of_nil. tauto. Qed.

Lemma fair_weighted_shares_witness :
  (runSelections exLedger None exCandidates 8).2 = [1; 2; 2; 2; 2; 1; 2; 2]
  /\ length (runSelections exLedger None exCandidates 8).2 = 8%nat.
Proof.
  split; [vm_compute; reflexivity|].
  apply (fair_weighted_shares exLedger None exCandidates 8).
  - apply exLedger_ok.
  - apply exCandidates_ok.
  - done.
  - intros c [->| ->]%in_exCandidates; split; vm_compute; reflexivity.
  - intros a b [->| ->]%in_exCandidates [->| ->]%in_exCandidates; vm_compute; reflexivity.
  - intros c [->| ->]%in_exCandidates; vm_compute; discriminate.
  - split; vm_compute; congruence.
Defined.

(** The selection does not depend on the order in which the candidates are listed:
    Go's unspecified map iteration order over the credential buckets changes neither the
    credential chosen nor any part of the ledger. *)
Theorem selection_order_independent d rev cs cs' p :
  ledger_ok d -> candidates_ok cs -> cs ≡ₚ cs' ->
  selectCredential d rev cs p = selectCredential d rev cs' p.
Proof. apply selectCredential_order. Qed.

Lemma selection_order_independent_witness :
  selectCredential exLedger None exCandidates 0 = selectCredential exLedger None (reverse exCandidates) 0.
Proof.
  apply selection_order_independent; [apply exLedger_ok|apply exCandidates_ok|].
  symmetry. apply reverse_Permutation.
Defined.

(** A selection over at least one eligible candidate succeeds while the sequence and
    the watermark have room; the credential returned is one of the candidates, its ledger
    member matches it in group and identity generation, and it is charged exactly one
    step of its weight, every other member keeping the progress admission gave it. *)
Theorem selection_succeeds d rev cs p :
  ledger_ok d -> candidates_ok cs -> eligibleCandidates d cs <> [] -> headroom d 1 ->
  exists c d', c ∈ cs /\ isEligible d c = true
    /\ selectCredential d rev cs p = (d', Some (wc_meta c))
    /\ cval d' c = cval (admitted d rev cs) c + stepOf (wc_weight c)
    /\ (forall id, id <> wid c -> Members d' !! id = Members (admitted d rev cs) !! id)
    /\ Sequence d' = Sequence d + 1 /\ LastMember d' = wid c.
Proof.
  intros Hok Hcs Hne [Hseq Hwater]. destruct (selectCredential_cases d rev cs p) as [[[?|?] _]|H]; [done..|lia|].
  destruct H as (_ & Hs & c & _ & Hc & Hw & Hpool & He & ->).
  apply eligibleCandidates_elem in Hc as [Hc Hel]. destruct (admitted_scalars d rev cs) as (E1 & E2 & _).
  pose proof (charge_spec (admitted d rev cs) c (pool_ledger _ _ Hpool) He Hw) as HC.
  rewrite E1 in HC. specialize (HC Hs). destruct (charge _ _) as [d' sel]. destruct HC as [_ HC].
  pose proof (ok_below _ (pool_ledger _ _ Hpool) _ _ (eligible_member _ _ He)) as Hb. rewrite E2 in Hb.
  fold (cval (admitted d rev cs) c) in Hb. pose proof (stepOf_bounds (wc_weight c) ltac:(lia)).
  destruct sel as [m|]; [|destruct HC as [_ HC]; lia].
  destruct HC as (-> & _ & Hcv & _ & Hother & _ & _ & Hsq & Hlast & _). eauto 10.
Qed.

Lemma selection_succeeds_witness :
  exists c d', c ∈ exCandidates /\ selectCredential exLedger (Some 1) exCandidates 0 = (d', Some (wc_meta c)).
Proof.
  destruct (selection_succeeds exLedger (Some 1) exCandidates 0) as (c & d' & Hc & _ & Hs & _).
  - apply exLedger_ok.
  - apply exCandidates_ok.
  - vm_compute. discriminate.
  - split; vm_compute; congruence.
  - exists c, d'. split; [exact Hc|exact Hs].
Defined.

(** One allocation of the picked candidate leaves its run within the limit towards the
    alternative. *)
Lemma pick_run_bounded d1 el p c1 n :
  pool_ok d1 el -> (1 < length el)%nat -> preferredCandidate el p = None ->
  c1 = pickCandidate d1 el p ->
  n = (if LastMember d1 =? wid c1 then Z.min consecutiveCap (Consecutive d1 + 1) else 1) ->
  exists a, a ∈ el /\ wid a <> wid c1 /\ n <= consecutiveLimit c1 a.
Proof.
  intros Hpool Hlen Hpref Hpick ->.
  assert (c1 ∈ el) as Hin by (rewrite Hpick; by apply pickCandidate_in).
  assert (forall x, x ∈ el -> 100 <= consecutiveLimit c1 x) as Hge.
  { intros x Hx. pose proof (cs_weight _ (pool_cands _ _ Hpool) x Hx).
    pose proof (cs_weight _ (pool_cands _ _ Hpool) c1 Hin). unfold consecutiveLimit.
    rewrite Z.quot_div_nonneg by lia.
    assert (1 <= (wc_weight c1 + wc_weight x - 1) / wc_weight x) by (apply Z.div_le_lower_bound; lia). lia. }
  destruct (alternativeTo_spec d1 el c1 Hpool Hin Hlen) as (Ha & Hne & _).
  exists (alternativeTo d1 el c1). split; [done|]. split; [done|].
  specialize (Hge _ Ha). unfold pickCandidate in Hpick. rewrite Hpref in Hpick.
  set (f := leastCandidate d1 el) in *. unfold limitConsecutive in Hpick.
  destruct (LastMember d1 =? wid f) eqn:Elast; cbn [negb andb] in Hpick;
    [|subst c1; rewrite Elast; lia].
  rewrite (proj2 (Nat.ltb_lt _ _) Hlen) in Hpick. cbn [andb] in Hpick.
  destruct (100 <=? Consecutive d1) eqn:E100; zb; cbn [andb] in Hpick.
  - destruct (_ <=? Consecutive d1) eqn:El; zb; subst c1.
    + assert (f ∈ el) as Hf by (apply leastCandidate_spec; apply Hpool).
      destruct (alternativeTo_spec d1 el f Hpool Hf Hlen) as (_ & Hnf & _).
      rewrite (proj2 (Z.eqb_neq (LastMember d1) _)) by congruence. lia.
    + rewrite (proj2 (Z.eqb_eq (LastMember d1) _)) by done. lia.
  - subst c1. rewrite (proj2 (Z.eqb_eq (LastMember d1) _)) by done. lia.
Qed.

(** No monopoly.  Without an eligible preferred credential, and with at least two
    eligible candidates, the number of consecutive allocations of the credential just
    chosen is at most [99 + ceil(w/w')] for some other eligible candidate, where [w] and
    [w'] are the two weights: the others are always reached. *)
Theorem consecutive_bounded d rev cs p c d' :
  ledger_ok d -> candidates_ok cs -> (1 < length (eligibleCandidates d cs))%nat ->
  preferredCandidate (eligibleCandidates d cs) p = None -> c ∈ cs ->
  selectCredential d rev cs p = (d', Some (wc_meta c)) ->
  exists a, a ∈ cs /\ isEligible d a = true /\ wid a <> wid c
    /\ Consecutive d' <= 99 + (wc_weight c + wc_weight a - 1) / wc_weight a.
Proof.
  intros Hok Hcs Hlen Hpref Hc Hsel.
  destruct (selectCredential_cases d rev cs p) as [[_ H]|H]; [done..|by rewrite H in Hsel|].
  destruct H as (_ & Hs & c1 & Hpick & Hin & Hw & Hpool & He & E). rewrite E in Hsel. clear E.
  pose proof (charge_spec (admitted d rev cs) c1 (pool_ledger _ _ Hpool) He Hw) as HC.
  rewrite (proj1 (admitted_scalars d rev cs)), Hsel in HC.
  destruct (HC Hs) as (_ & Hm & _ & _ & _ & _ & _ & _ & _ & _ & _ & Hcons). clear HC.
  assert (c = c1) as ->.
  { apply (wid_inj cs); [apply Hcs|done| |unfold wid; congruence]. by apply eligibleCandidates_elem in Hin as [? _]. }
  destruct (pick_run_bounded (admitted d rev cs) (eligibleCandidates d cs) p c1 (Consecutive d'))
    as (a & Ha & Hne & Hle); [done..|].
  apply eligibleCandidates_elem in Ha as [Ha Hela]. exists a. repeat split; try done.
  unfold consecutiveLimit in Hle. pose proof (cs_weight _ Hcs a Ha).
  rewrite Z.quot_div_nonneg in Hle by lia. done.
Qed.

Lemma consecutive_bounded_witness :
  exists a, a ∈ exCandidates /\ wid a <> 2
    /\ Consecutive (runSelections exLedger None exCandidates 4).1 <= 99 + (3 + wc_weight a - 1) / wc_weight a.
Proof.
  destruct (consecutive_bounded (runSelections exLedger None exCandidates 3).1 None exCandidates 0
    (exCandidate 2 3) (runSelections exLedger None exCandidates 4).1) as (a & Ha & _ & Hne & Hle).
  - apply (runSelections_ok exLedger None exCandidates 3 exLedger_ok exCandidates_ok).
  - apply exCandidates_ok.
  - vm_compute. lia.
  - vm_compute. reflexivity.
  - unfold exCandidates. rewrite !elem_of_cons. tauto.
  - vm_compute. reflexivity.
  - exists a. split; [exact Ha|]. split; [exact Hne|exact Hle].
Defined.

(** A newcomer gets no backlog.  A pending candidate whose group is schedulable is
    admitted by the next selection: it is no longer pending, it starts no earlier than the
    leading admitted candidate (the watermark when there is none), never moves backwards
    and never passes the watermark. *)
Theorem admission_levels d rev cs c :
  ledger_ok d -> c ∈ eligibleCandidates d cs ->
  mayAdmit d rev (memberOf d c) = true ->
  let d1 := admitted d rev cs in
  mem_Pending (memberOf d1 c) = false /\ cval d c <= cval d1 c <= pval (Watermark d)
  /\ (forall b, b ∈ eligibleCandidates d cs -> settled d b -> cval d b <= cval d1 c)
  /\ ((forall b, b ∈ eligibleCandidates d cs -> ~ settled d b) -> cval d1 c = pval (Watermark d)).
Proof.
  intros Hok Hc Hmay. cbv zeta. pose proof (eligibleCandidates_all d cs) as Hall.
  pose proof (proj2 (proj1 (eligibleCandidates_elem d cs c) Hc)) as He. pose proof (eligible_member d c He) as Hm.
  destruct (baselineOf_spec d _ Hok Hall) as (Hbwf & Hbw & has & Hspec). set (b := baselineOf d _) in *.
  assert (memberOf (admitted d rev cs) c = Admit b (memberOf d c)) as E.
  { unfold memberOf at 1, admitted. rewrite admitAll_lookup, Hm. cbn.
    rewrite decide_True by (by apply list_elem_of_fmap_2). unfold admitMember. by rewrite Hmay. }
  assert (cval (admitted d rev cs) c = Z.max (cval d c) (pval b)) as Ecv.
  { unfold cval. rewrite E. unfold Admit. cbn. rewrite progressCompare_pval by eauto using ok_progress.
    destruct (Z.compare_spec (pval (mem_Progress (memberOf d c))) (pval b)); lia. }
  pose proof (ok_below d Hok _ _ Hm) as Hb. fold (cval d c) in Hb. rewrite E, Ecv.
  split; [done|]. split; [lia|]. destruct Hspec as [(_ & _ & -> & Hno)|(_ & Hsrc & _ & Hsup)]; split.
  - intros x Hx Hst. by destruct (Hno x Hx).
  - intros _. lia.
  - intros x Hx Hst. specialize (Hsup x Hx Hst). lia.
  - intros Hno. destruct Hsrc as [[? _]|(x & Hx & Hst & _)]; [done|]. by destruct (Hno x Hx).
Qed.

(** One more credential, synchronised once the ledger has been used. *)
Definition exJoined : SchedulingLedger := SyncCredential (runSelections exLedger None exCandidates 5).1 (exView 3 2) 5.

Lemma exJoined_ok : ledger_ok exJoined.
Proof. apply syncCredential_ok; [apply runSelections_ok; [apply exLedger_ok|apply exCandidates_ok]|done|done]. Qed.

Lemma admission_levels_witness :
  mem_Pending (memberOf exJoined (exCandidate 3 2)) = true
  /\ cval exJoined (exCandidate 1 1) <= cval (admitted exJoined (Some 1) [exCandidate 1 1; exCandidate 3 2]) (exCandidate 3 2).
Proof.
  split; [vm_compute; reflexivity|].
  destruct (admission_levels exJoined (Some 1) [exCandidate 1 1; exCandidate 3 2] (exCandidate 3 2)) as (_ & _ & H & _).
  - apply exJoined_ok.
  - apply eligibleCandidates_elem. split; [rewrite !elem_of_cons; tauto|vm_compute; reflexivity].
  - vm_compute. reflexivity.
  - apply H; [|split; vm_compute; reflexivity].
    apply eligibleCandidates_elem. split; [constructor|vm_compute; reflexivity].
Defined.

(** The two-word progress arithmetic is exact.  [Advance] by a positive weight adds
    [2^64/weight] to the 128-bit coordinate, carries included, and fails exactly when the
    coordinate would no longer fit; [Compare] orders coordinates as those numbers. *)
Theorem progress_arithmetic p q w :
  progress_wf p -> progress_wf q -> 1 <= w <= maxUint64 ->
  progressCompare p q = (pval p ?= pval q)
  /\ let '(r, ok) := Advance p w in
     progress_wf r /\ (ok = true <-> pval p + two64 / w < two64 * two64)
     /\ (ok = true -> pval r = pval p + two64 / w).
Proof.
  intros Hp Hq Hw. split; [by apply progressCompare_pval|].
  pose proof (Advance_pval p w Hp ltac:(lia)) as H. destruct (Advance p w) as [r ok].
  destruct H as (Hr & E & Hok). fold (stepOf w). split; [done|]. split; [done|].
  intros Ht. rewrite E. apply Z.mod_small. pose proof (pval_range p Hp).
  pose proof (stepOf_bounds w ltac:(lia)). apply Hok in Ht. lia.
Qed.

Lemma progress_arithmetic_witness :
  Advance (mkProgress 4 maxUint64) 3 = (mkProgress 5 6148914691236517204, true)
  /\ progressCompare (mkProgress 4 maxUint64) (mkProgress 5 0) = Lt.
Proof.
  split; [vm_compute; reflexivity|].
  destruct (progress_arithmetic (mkProgress 4 maxUint64) (mkProgress 5 0) 3) as [-> _].
  - split; split; vm_compute; discriminate.
  - split; split; vm_compute; discriminate.
  - split; vm_compute; discriminate.
  - vm_compute. reflexivity.
Defined.
