(* ===== verification/Checkpoint.v ===== *)
(** Saving and restoring the scheduling ledger across a restart
    ([internal/state/scheduling_checkpoint.go]). *)
From S2P Require Import Prelude GoStrings Config Credential Ledger Fair FairShare.

Local Open Scope Z_scope.

Record SchedulingMemberCheckpoint := mkMemberCheckpoint {
  mcp_ID : Z;
  mcp_GroupID : Z;
  mcp_IdentityGeneration : Z;
  mcp_Progress : SchedulingProgress;
  mcp_LastSelected : Z;
  mcp_Pending : bool
}.

Record ModelCursorCheckpoint := mkCursorCheckpoint {
  ccp_GroupID : Z;
  ccp_ExternalModel : string;
  ccp_Order : list string
}.

Record SchedulingCheckpoint := mkCheckpoint {
  cp_Version : Z;
  cp_Watermark : SchedulingProgress;
  cp_Sequence : Z;
  cp_LastMember : Z;
  cp_Consecutive : Z;
  cp_Members : list SchedulingMemberCheckpoint;
  cp_ModelCursors : list ModelCursorCheckpoint
}.

(** The orders of the two [sort.Slice] calls. *)
Definition memberOrder (a b : SchedulingMemberCheckpoint) : Prop := mcp_ID a <= mcp_ID b.
Definition cursorOrder (a b : ModelCursorCheckpoint) : Prop :=
  if bool_decide (ccp_GroupID a = ccp_GroupID b)
  then String.le (ccp_ExternalModel a) (ccp_ExternalModel b)
  else ccp_GroupID a < ccp_GroupID b.

#[export] Instance memberOrder_dec : RelDecision memberOrder.
Proof. intros a b. unfold memberOrder. apply _. Defined.
#[export] Instance cursorOrder_dec : RelDecision cursorOrder.
Proof. intros a b. unfold cursorOrder. destruct (bool_decide _); apply _. Defined.

Definition captureMember (m : SchedulingMember) : SchedulingMemberCheckpoint :=
  mkMemberCheckpoint (mem_ID m) (mem_GroupID m) (mem_IdentityGeneration m) (mem_Progress m)
    (mem_LastSelected m) (mem_Pending m).

Definition captureCursor (kv : GroupModelKey * list string) : ModelCursorCheckpoint :=
  mkCursorCheckpoint kv.1.1 kv.1.2 kv.2.

Definition CaptureCheckpoint (d : SchedulingLedger) : SchedulingCheckpoint :=
  mkCheckpoint 1 (Watermark d) (Sequence d) (LastMember d) (Consecutive d)
    (merge_sort memberOrder (captureMember <$> (mentries (Members d)).*2))
    (merge_sort cursorOrder
       (captureCursor <$> filter (fun kv => (0 < length kv.2)%nat) (mentries (ModelCursors d)))).

Definition restoreCursors (cs : gmap GroupModelKey (list string)) (saved : list ModelCursorCheckpoint)
  : gmap GroupModelKey (list string) :=
  fold_left (fun cs s =>
    let key := (ccp_GroupID s, ccp_ExternalModel s) in
    match cs !! key with
    | Some configured => <[key := reconcileModelOrder (ccp_Order s) configured]> cs
    | None => cs
    end) saved cs.

(** The saved member fits the loaded one and the checkpoint's own bounds. *)
Definition savedFits (cp : SchedulingCheckpoint) (s : SchedulingMemberCheckpoint) (m : option SchedulingMember)
  : bool :=
  memberMatches m (mcp_GroupID s) (mcp_IdentityGeneration s)
  && (mcp_LastSelected s <=? cp_Sequence cp)
  && match progressCompare (mcp_Progress s) (cp_Watermark cp) with Gt => false | _ => true end.

Definition restoredMember (d : SchedulingLedger) (s : SchedulingMemberCheckpoint) (m : SchedulingMember)
  : SchedulingMember :=
  mkMember (mem_ID m) (mem_GroupID m) (mem_IdentityGeneration m) (mcp_Progress s) (mcp_LastSelected s)
    (mcp_Pending s || mem_suspended m || GroupsKnown d && negb (mget false (LGroups d) (mem_GroupID m)))
    (mem_suspended m) (mem_cooldownUntil m).

Definition restoreStep (cp : SchedulingCheckpoint) (acc : SchedulingLedger * gset Z * Z)
    (s : SchedulingMemberCheckpoint) : SchedulingLedger * gset Z * Z :=
  let '(d, seen, n) := acc in
  match Members d !! mcp_ID s with
  | Some m =>
      if negb (savedFits cp s (Some m)) then acc
      else if bool_decide (mcp_ID s ∈ seen) then acc
      else
        let d1 := setMembers (<[mcp_ID s := restoredMember d s m]> (Members d)) d in
        let d2 := if (mcp_ID s =? cp_LastMember cp) && (cp_Consecutive cp <=? consecutiveCap)
                  then setLast (mcp_ID s) (cp_Consecutive cp) d1 else d1 in
        (d2, {[mcp_ID s]} ∪ seen, n + 1)
  | None => acc
  end.

(** The new ledger and the number of members restored. *)
Definition RestoreCheckpoint (d : SchedulingLedger) (cp : SchedulingCheckpoint) : SchedulingLedger * Z :=
  if negb (cp_Version cp =? 1) || (cp_Sequence cp =? maxUint64) || (Whole (cp_Watermark cp) =? maxUint64)
  then (d, 0)
  else
    let d1 := mkLedger (memSetPending true <$> Members d) (restoreCursors (ModelCursors d) (cp_ModelCursors cp))
      (LGroups d) (GroupPriorities d) (GroupRevision d) (GroupsKnown d)
      (negb (cp_Sequence cp =? 0)) (cp_Watermark cp) (cp_Sequence cp) 0 0 in
    let '(d2, _, n) := fold_left (restoreStep cp) (cp_Members cp) (d1, ∅, 0) in
    (d2, n).

(** * Sorting *)

#[export] Instance memberOrder_trans : Transitive memberOrder.
Proof. intros a b c. unfold memberOrder. lia. Qed.
#[export] Instance memberOrder_total : Total memberOrder.
Proof. intros a b. unfold memberOrder. lia. Qed.
#[export] Instance cursorOrder_trans : Transitive cursorOrder.
Proof.
  intros a b c. unfold cursorOrder. do 3 case_bool_decide; try lia. intros. by etrans.
Qed.
#[export] Instance cursorOrder_total : Total cursorOrder.
Proof.
  intros a b. unfold cursorOrder. do 2 case_bool_decide; try lia.
  apply (total String.le).
Qed.

Lemma capture_members_elem d s :
  s ∈ cp_Members (CaptureCheckpoint d) <-> exists id m, Members d !! id = Some m /\ s = captureMember m.
Proof.
  cbn. rewrite merge_sort_Permutation, list_elem_of_fmap. unfold mentries. split.
  - intros (m & -> & ([id x] & -> & Hx)%list_elem_of_fmap). apply elem_of_map_to_list in Hx. eauto.
  - intros (id & m & Hm & ->). exists m. split; [done|]. apply list_elem_of_fmap. exists (id, m).
    split; [done|]. by apply elem_of_map_to_list.
Qed.

Lemma capture_members_ids d : 
  ledger_ok d -> mcp_ID <$> cp_Members (CaptureCheckpoint d) ≡ₚ (mentries (Members d)).*1.
Proof.
  intros Hok. cbn. rewrite merge_sort_Permutation, <- !list_fmap_compose. apply reflexive_eq.
  apply list_fmap_ext. intros i [id m] H. cbn. apply list_elem_of_lookup_2, elem_of_map_to_list in H.
  by apply (ok_id d Hok).
Qed.

Lemma capture_cursors_elem d s :
  s ∈ cp_ModelCursors (CaptureCheckpoint d)
  <-> exists k o, ModelCursors d !! k = Some o /\ o <> [] /\ s = captureCursor (k, o).
Proof.
  cbn. rewrite merge_sort_Permutation, list_elem_of_fmap. unfold mentries. split.
  - intros ([k o] & -> & [Hlen Hx]%list_elem_of_filter). apply elem_of_map_to_list in Hx.
    exists k, o. split; [done|]. split; [|done]. intros ->. cbn in Hlen. lia.
  - intros (k & o & Hm & Hne & ->). exists (k, o). split; [done|]. apply list_elem_of_filter.
    split; [destruct o; [done|cbn; lia]|]. by apply elem_of_map_to_list.
Qed.

(** * Restoring *)

Definition sameFacts (d d' : SchedulingLedger) : Prop :=
  ModelCursors d' = ModelCursors d /\ LGroups d' = LGroups d /\ GroupsKnown d' = GroupsKnown d
  /\ Watermark d' = Watermark d /\ Sequence d' = Sequence d /\ Started d' = Started d.

#[export] Instance sameFacts_preorder : PreOrder sameFacts.
Proof. unfold sameFacts. split; red; intuition congruence. Qed.

(** One accepted member. *)
Lemma restoreStep_accept cp d seen n s m :
  Members d !! mcp_ID s = Some m -> savedFits cp s (Some m) = true -> mcp_ID s ∉ seen ->
  exists d', restoreStep cp (d, seen, n) s = (d', {[mcp_ID s]} ∪ seen, n + 1)
    /\ sameFacts d d' /\ Members d' = <[mcp_ID s := restoredMember d s m]> (Members d)
    /\ (LastMember d', Consecutive d')
       = if (mcp_ID s =? cp_LastMember cp) && (cp_Consecutive cp <=? consecutiveCap)
         then (mcp_ID s, cp_Consecutive cp) else (LastMember d, Consecutive d).
Proof.
  intros Hm Hf Hs. unfold restoreStep. rewrite Hm, Hf. cbn [negb].
  rewrite bool_decide_eq_false_2 by done. eexists. split; [done|].
  destruct (_ && _); done.
Qed.

Lemma restoredMember_facts d d' s m :
  sameFacts d d' -> restoredMember d' s m = restoredMember d s m.
Proof. intros (_ & Hg & Hk & _). unfold restoredMember. by rewrite Hg, Hk. Qed.

Lemma restore_fold cp l d seen n :
  NoDup (mcp_ID <$> l) ->
  (forall s, s ∈ l -> savedFits cp s (Members d !! mcp_ID s) = true /\ mcp_ID s ∉ seen) ->
  let '(d', _, n') := fold_left (restoreStep cp) l (d, seen, n) in
  n' = n + Z.of_nat (length l) /\ sameFacts d d'
  /\ (forall s m, s ∈ l -> Members d !! mcp_ID s = Some m ->
        Members d' !! mcp_ID s = Some (restoredMember d s m))
  /\ (forall id, id ∉ mcp_ID <$> l -> Members d' !! id = Members d !! id)
  /\ (LastMember d', Consecutive d')
     = if decide (cp_LastMember cp ∈ mcp_ID <$> l /\ cp_Consecutive cp <= consecutiveCap)
       then (cp_LastMember cp, cp_Consecutive cp) else (LastMember d, Consecutive d).
Proof.
  revert d seen n. induction l as [|s l IH]; intros d seen n Hnd Hfit.
  { cbn. split; [lia|]. split; [done|]. split; [set_solver|]. split; [done|].
    rewrite decide_False; [done|]. intros [H _]. by apply not_elem_of_nil in H. }
  rewrite fmap_cons, NoDup_cons in Hnd. destruct Hnd as [Hs Hnd]. cbn [fold_left].
  destruct (Hfit s) as [Hf Hseen]; [constructor|].
  destruct (Members d !! mcp_ID s) as [m|] eqn:Hm; [|done].
  destruct (restoreStep_accept cp d seen n s m) as (d1 & -> & Hfacts & Hmem & Hlast); [done..|].
  assert (forall s', s' ∈ l -> mcp_ID s' <> mcp_ID s) as Hother.
  { intros s' Hs' E. apply Hs. rewrite <- E. by apply list_elem_of_fmap_2. }
  specialize (IH d1 ({[mcp_ID s]} ∪ seen) (n + 1) Hnd).
  destruct (fold_left _ l _) as [[d2 seen2] n2].
  destruct IH as (Hn & Hfacts2 & Hin & Hout & Hl2).
  { intros s' Hs'. destruct (Hfit s') as [Hf' Hseen']; [by constructor|].
    rewrite Hmem, lookup_insert_ne by (apply not_eq_sym; auto). split; [done|].
    pose proof (Hother s' Hs'). set_solver. }
  split; [cbn [length]; lia|]. split; [by etrans|]. split; [|split].
  - intros s' m' [->|Hs']%elem_of_cons Hm'.
    + rewrite Hout, Hmem, lookup_insert_eq by done. congruence.
    + rewrite (Hin s' m') by (rewrite ?Hmem, ?lookup_insert_ne by (apply not_eq_sym; auto); done).
      by rewrite (restoredMember_facts d d1).
  - intros id Hid. rewrite fmap_cons, not_elem_of_cons in Hid. destruct Hid as [Hne Hid].
    rewrite Hout, Hmem by done. by rewrite lookup_insert_ne.
  - rewrite Hl2, Hlast, fmap_cons. destruct (Z.eqb_spec (mcp_ID s) (cp_LastMember cp)) as [E|E]; cbn [andb].
    + destruct (Z.leb_spec (cp_Consecutive cp) consecutiveCap).
      * rewrite (decide_True (P := cp_LastMember cp ∈ mcp_ID s :: _ /\ _)) by (rewrite E; split; [constructor|done]).
        rewrite E. by destruct (decide _).
      * by rewrite !decide_False by lia.
    + apply decide_ext. rewrite elem_of_cons. naive_solver.
Qed.

(** Every captured member fits the ledger it was captured from. *)
Lemma capture_fits d s m' :
  ledger_ok d -> s ∈ cp_Members (CaptureCheckpoint d) ->
  memberMatches m' (mcp_GroupID s) (mcp_IdentityGeneration s) = true ->
  savedFits (CaptureCheckpoint d) s m' = true.
Proof.
  intros Hok (id & m & Hm & ->)%capture_members_elem Hmm. unfold savedFits. rewrite Hmm. cbn.
  rewrite (proj2 (Z.leb_le _ _)) by apply (ok_selected d Hok _ _ Hm). cbn.
  rewrite progressCompare_pval by eauto using ok_progress, ok_watermark.
  pose proof (ok_below d Hok _ _ Hm). by destruct (Z.compare_spec (pval (mem_Progress m)) (pval (Watermark d))); try lia.
Qed.

(** Reconciling a queue with the same set of models, listed in any order, restores it. *)
Lemma filter_none_in {A} (P : A -> Prop) `{!forall x, Decision (P x)} (l : list A) :
  (forall x, x ∈ l -> ~ P x) -> filter P l = [].
Proof.
  induction l as [|x l IH]; intros Hl; [done|]. rewrite filter_cons, decide_False by (apply Hl; constructor).
  apply IH. intros; apply Hl; by constructor.
Qed.

Lemma reconcile_same prev conf :
  NoDup prev -> NoDup conf -> (forall m, m ∈ conf <-> m ∈ prev) -> reconcileModelOrder prev conf = prev.
Proof.
  intros Hp Hc Heq. rewrite reconcile_prefix by done.
  rewrite (filter_all_in (.∈ conf)) by (intros; by apply Heq).
  rewrite (filter_none_in (.∉ prev)), app_nil_r; [done|]. intros x Hx Hn. apply Hn. by apply Heq.
Qed.

Definition cursorKey (s : ModelCursorCheckpoint) : GroupModelKey := (ccp_GroupID s, ccp_ExternalModel s).

Lemma restoreCursors_spec cs saved :
  NoDup (cursorKey <$> saved) ->
  (forall s conf, s ∈ saved -> cs !! cursorKey s = Some conf ->
     restoreCursors cs saved !! cursorKey s = Some (reconcileModelOrder (ccp_Order s) conf))
  /\ (forall k, k ∉ cursorKey <$> saved -> restoreCursors cs saved !! k = cs !! k).
Proof.
  unfold restoreCursors. revert cs. induction saved as [|s saved IH]; intros cs Hnd.
  { split; [intros s conf H; by apply not_elem_of_nil in H|done]. }
  rewrite fmap_cons, NoDup_cons in Hnd. destruct Hnd as [Hs Hnd]. cbn [fold_left].
  fold (cursorKey s). set (cs1 := match cs !! cursorKey s with Some _ => _ | None => cs end).
  destruct (IH cs1 Hnd) as [Hin Hout].
  assert (forall k, k <> cursorKey s -> cs1 !! k = cs !! k) as Hk.
  { intros k Hne. subst cs1. destruct (cs !! cursorKey s); [by rewrite lookup_insert_ne|done]. }
  split.
  - intros s' conf [->|Hs']%elem_of_cons Hc.
    + rewrite Hout by done. subst cs1. by rewrite Hc, lookup_insert_eq.
    + apply Hin; [done|]. rewrite Hk; [done|]. intros E. apply Hs. rewrite <- E. by apply list_elem_of_fmap_2.
  - intros k Hkn. rewrite fmap_cons, not_elem_of_cons in Hkn. destruct Hkn as [Hne Hkn].
    rewrite Hout by done. by apply Hk.
Qed.

Lemma capture_cursor_keys d : NoDup (cursorKey <$> cp_ModelCursors (CaptureCheckpoint d)).
Proof.
  cbn. rewrite merge_sort_Permutation, <- list_fmap_compose.
  rewrite (list_fmap_ext _ fst); [|intros i [[] ?] ?; done].
  apply NoDup_fmap_filter. apply NoDup_fst_map_to_list.
Qed.

(** The ledger [d0] of a restarted process whose configuration is the one [d] ran with:
    the same members, and the same rotated models under every key. *)
Record reloaded (d d0 : SchedulingLedger) : Prop := {
  rl_members : forall id, match Members d !! id, Members d0 !! id with
    | Some m, Some m0 => mem_GroupID m = mem_GroupID m0 /\ mem_IdentityGeneration m = mem_IdentityGeneration m0
    | None, None => True
    | _, _ => False
    end;
  rl_id : forall id m0, Members d0 !! id = Some m0 -> mem_ID m0 = id;
  rl_cursors : forall k, match ModelCursors d !! k, ModelCursors d0 !! k with
    | Some o, Some c => o <> [] /\ NoDup o /\ NoDup c /\ forall m, m ∈ c <-> m ∈ o
    | None, None => True
    | _, _ => False
    end
}.

Lemma restoreCursors_reloaded d d0 :
  reloaded d d0 ->
  restoreCursors (ModelCursors d0) (cp_ModelCursors (CaptureCheckpoint d)) = ModelCursors d.
Proof.
  intros [_ _ Hc]. destruct (restoreCursors_spec (ModelCursors d0) _ (capture_cursor_keys d)) as [Hin Hout].
  apply map_eq. intros k. specialize (Hc k).
  destruct (ModelCursors d !! k) as [o|] eqn:E, (ModelCursors d0 !! k) as [c|] eqn:E0; try done.
  - destruct Hc as (Hne & Hno & Hnc & Hmem). destruct k as [g x].
    etransitivity; [apply (Hin (captureCursor ((g, x), o)) c); [|done]|].
    + apply capture_cursors_elem. eauto.
    + cbn. by rewrite reconcile_same.
  - rewrite Hout; [done|]. intros (s & Ek & (k' & o & Ho & _ & ->)%capture_cursors_elem)%list_elem_of_fmap.
    destruct k'. cbn in Ek. unfold cursorKey in Ek. cbn in Ek. simplify_eq.
Qed.

(** The state [RestoreCheckpoint] starts the member loop from. *)
Definition restoreStart (d : SchedulingLedger) (cp : SchedulingCheckpoint) : SchedulingLedger :=
  mkLedger (memSetPending true <$> Members d) (restoreCursors (ModelCursors d) (cp_ModelCursors cp))
    (LGroups d) (GroupPriorities d) (GroupRevision d) (GroupsKnown d)
    (negb (cp_Sequence cp =? 0)) (cp_Watermark cp) (cp_Sequence cp) 0 0.

Lemma RestoreCheckpoint_run d cp :
  cp_Version cp = 1 -> cp_Sequence cp <> maxUint64 -> Whole (cp_Watermark cp) <> maxUint64 ->
  RestoreCheckpoint d cp
  = let '(d2, _, n) := fold_left (restoreStep cp) (cp_Members cp) (restoreStart d cp, ∅, 0) in (d2, n).
Proof.
  intros Hv Hs Hw. unfold RestoreCheckpoint. rewrite Hv.
  by rewrite (proj2 (Z.eqb_neq (cp_Sequence cp) _)), (proj2 (Z.eqb_neq (Whole _) _)) by done.
Qed.

(** * Safety of restoring arbitrary saved data *)

(** The fields as decoded: 64-bit numbers, nothing else assumed. *)
Record checkpoint_decoded (cp : SchedulingCheckpoint) : Prop := {
  dc_water : progress_wf (cp_Watermark cp);
  dc_seq : is_u64 (cp_Sequence cp);
  dc_cons : is_u64 (cp_Consecutive cp);
  dc_members : forall s, s ∈ cp_Members cp -> progress_wf (mcp_Progress s) /\ is_u64 (mcp_LastSelected s)
}.

Lemma restoreStep_ok cp d seen n s :
  checkpoint_decoded cp -> s ∈ cp_Members cp -> ledger_ok d ->
  Watermark d = cp_Watermark cp -> Sequence d = cp_Sequence cp ->
  let '(d', _, _) := restoreStep cp (d, seen, n) s in
  ledger_ok d' /\ Watermark d' = cp_Watermark cp /\ Sequence d' = cp_Sequence cp.
Proof.
  intros Hdec Hs Hok Hw Hq. unfold restoreStep. destruct (Members d !! mcp_ID s) as [m|] eqn:Hm; [|done].
  destruct (savedFits cp s (Some m)) eqn:Hf; cbn [negb]; [|done].
  case_bool_decide; [done|].
  destruct (dc_members cp Hdec s Hs) as [Hp Hl]. destruct (ok_id d Hok _ _ Hm) as (Hid & Hu & Hnz).
  unfold savedFits in Hf. zb.
  assert (pval (mcp_Progress s) <= pval (cp_Watermark cp)) as Hle.
  { match goal with H : match progressCompare _ _ with _ => _ end = true |- _ => rename H into Hcmp end.
    rewrite progressCompare_pval in Hcmp by (auto using dc_water).
    by destruct (Z.compare_spec (pval (mcp_Progress s)) (pval (cp_Watermark cp))); try lia. }
  assert (ledger_ok (setMembers (<[mcp_ID s := restoredMember d s m]> (Members d)) d)) as Hok1.
  { apply ledger_ok_insert; cbn; try done; [by rewrite Hw|unfold_ints; lia]. }
  split; [|destruct (_ && _); done].
  destruct (_ && _) eqn:E; [|done]. zb. pose proof (dc_cons cp Hdec) as Hc.
  destruct Hok1 as [? ? ? ? ? ? ? ?]. split; cbn in *; try done.
  - intros _. rewrite lookup_insert_eq. by eexists.
  - unfold_ints. lia.
Qed.

Lemma restore_fold_ok cp l d seen n :
  checkpoint_decoded cp -> (forall s, s ∈ l -> s ∈ cp_Members cp) -> ledger_ok d ->
  Watermark d = cp_Watermark cp -> Sequence d = cp_Sequence cp ->
  let '(d', _, _) := fold_left (restoreStep cp) l (d, seen, n) in ledger_ok d'.
Proof.
  intros Hdec. revert d seen n. induction l as [|s l IH]; intros d seen n Hl Hok Hw Hq; [done|].
  cbn [fold_left]. pose proof (restoreStep_ok cp d seen n s Hdec (Hl s ltac:(constructor)) Hok Hw Hq) as Hstep.
  destruct (restoreStep _ _ _) as [[d1 seen1] n1]. destruct Hstep as (Hok1 & Hw1 & Hq1).
  apply IH; try done. intros x Hx. apply Hl. by constructor.
Qed.

(** * Properties *)

(** The members of a captured checkpoint fit the reloaded ledger they are restored into. *)
Lemma reloaded_fits d d0 s :
  ledger_ok d -> reloaded d d0 -> s ∈ cp_Members (CaptureCheckpoint d) ->
  savedFits (CaptureCheckpoint d) s
    (Members (restoreStart d0 (CaptureCheckpoint d)) !! mcp_ID s) = true.
Proof.
  intros Hok [Hm _ _] Hs. apply capture_fits; [done..|].
  apply capture_members_elem in Hs as (id & m & Hid & ->). cbn. rewrite lookup_fmap.
  destruct (ok_id d Hok _ _ Hid) as (-> & _). specialize (Hm id). rewrite Hid in Hm.
  destruct (Members d0 !! id) as [m0|]; [|done]. destruct Hm as [-> ->]. cbn. by rewrite !Z.eqb_refl.
Qed.

Lemma capture_last d :
  ledger_ok d -> LastMember d ∈ mcp_ID <$> cp_Members (CaptureCheckpoint d) <-> LastMember d <> 0.
Proof.
  intros Hok. rewrite capture_members_ids by done. unfold mentries. split.
  - intros ([id m] & -> & Hin%elem_of_map_to_list)%list_elem_of_fmap. by apply (ok_id d Hok _ _ Hin).
  - intros Hnz. destruct (ok_last d Hok Hnz) as [m Hm]. apply list_elem_of_fmap.
    exists (LastMember d, m). split; [done|]. by apply elem_of_map_to_list.
Qed.

(** Restart.  Restoring the checkpoint of a ledger into the ledger a restarted process
    loads from the same configuration restores every member: progress, last selection,
    watermark, sequence and the model queues are what they were, the last member and its
    run too; a member is pending when it was, or when it is suspended, or its group is. *)
Theorem checkpoint_roundtrip d d0 :
  ledger_ok d -> reloaded d d0 -> Sequence d <> maxUint64 -> Whole (Watermark d) <> maxUint64 ->
  let '(d', n) := RestoreCheckpoint d0 (CaptureCheckpoint d) in
  n = Z.of_nat (size (Members d))
  /\ Watermark d' = Watermark d /\ Sequence d' = Sequence d /\ ModelCursors d' = ModelCursors d
  /\ LastMember d' = LastMember d /\ (LastMember d <> 0 -> Consecutive d' = Consecutive d)
  /\ forall id m m0, Members d !! id = Some m -> Members d0 !! id = Some m0 ->
       Members d' !! id = Some (mkMember id (mem_GroupID m) (mem_IdentityGeneration m)
         (mem_Progress m) (mem_LastSelected m)
         (mem_Pending m || mem_suspended m0 || GroupsKnown d0 && negb (mget false (LGroups d0) (mem_GroupID m)))
         (mem_suspended m0) (mem_cooldownUntil m0)).
Proof.
  intros Hok Hrl Hs Hw. rewrite RestoreCheckpoint_run by done. set (cp := CaptureCheckpoint d).
  pose proof (restore_fold cp (cp_Members cp) (restoreStart d0 cp) ∅ 0) as HF.
  destruct (fold_left _ _ _) as [[d' seen] n].
  destruct HF as (Hn & (Hc & Hg & Hk & Hwm & Hsq & _) & Hin & _ & Hlast).
  { subst cp. rewrite (capture_members_ids d Hok). apply NoDup_fst_map_to_list. }
  { intros s Hin. split; [by apply reloaded_fits|set_solver]. }
  split; [|split; [done|split; [done|split; [|split; [|split]]]]].
  - rewrite Hn, Z.add_0_l. subst cp. f_equal. rewrite <- (length_fmap mcp_ID), (Permutation_length (capture_members_ids d Hok)).
    unfold mentries. rewrite length_fmap. apply length_map_to_list.
  - rewrite Hc. by apply restoreCursors_reloaded.
  - destruct (decide _) as [[Hl _]|Hl]; [by injection Hlast|]. injection Hlast as -> _.
    destruct (decide (LastMember d = 0)) as [->|Hnz]; [done|]. destruct Hl.
    split; [by apply capture_last|apply (ok_consecutive d Hok)].
  - intros Hnz. rewrite decide_True in Hlast; [by injection Hlast|].
    split; [by apply capture_last|apply (ok_consecutive d Hok)].
  - intros id m m0 Hm Hm0. destruct (ok_id d Hok _ _ Hm) as (E & _).
    pose proof (rl_members d d0 Hrl id) as HM. rewrite Hm, Hm0 in HM. destruct HM as [Eg Ei].
    pose proof (Hin (captureMember m) (memSetPending true m0)) as HI. cbn in HI. rewrite E in HI.
    rewrite HI; [|apply capture_members_elem; eauto|by rewrite lookup_fmap, Hm0].
    unfold restoredMember. cbn. by rewrite Eg, Ei, (rl_id d d0 Hrl _ _ Hm0).
Qed.

(** The ledger a restarted process loads for [exLedger]: fresh members. *)
Definition exRan : SchedulingLedger := (selectCredential exLedger None exCandidates 0).1.

Lemma exRan_ok : ledger_ok exRan.
Proof. apply selectCredential_preserves; [apply exLedger_ok|apply exCandidates_ok]. Qed.

Lemma exRan_reloaded : reloaded exRan exLedger.
Proof.
  assert (Members exRan = <[1 := mkMember 1 1 1 (mkProgress 1 0) 1 false false 0]>
                            (<[2 := mkMember 2 1 1 zeroProgress 0 false false 0]> ∅)) as Er by (vm_compute; reflexivity).
  assert (Members exLedger = <[1 := mkMember 1 1 1 zeroProgress 0 false false 0]>
                               (<[2 := mkMember 2 1 1 zeroProgress 0 false false 0]> ∅)) as El by (vm_compute; reflexivity).
  split.
  - intros id. rewrite Er, El, !lookup_insert, lookup_empty. by repeat case_decide.
  - intros id m. rewrite El, !lookup_insert, lookup_empty. repeat case_decide; naive_solver.
  - intros k. assert (ModelCursors exRan = ∅ /\ ModelCursors exLedger = ∅) as [-> ->] by (split; vm_compute; reflexivity).
    by rewrite lookup_empty.
Qed.

Lemma checkpoint_roundtrip_witness :
  (RestoreCheckpoint exLedger (CaptureCheckpoint exRan)).2 = 2
  /\ Sequence (RestoreCheckpoint exLedger (CaptureCheckpoint exRan)).1 = 1.
Proof.
  pose proof (checkpoint_roundtrip exRan exLedger exRan_ok exRan_reloaded) as H.
  destruct (RestoreCheckpoint _ _) as [d' n].
  destruct H as (Hn & _ & Hs & _); [vm_compute; discriminate..|]. split; [exact Hn|exact Hs].
Defined.

(** Restoring is safe for any saved data.  Whatever well-typed checkpoint is read back
    (duplicated members, progress past the watermark, foreign groups, stale identity
    generations), restoring it into a freshly loaded ledger yields a ledger that satisfies
    the scheduling invariant. *)
Theorem checkpoint_restore_safe d cp :
  ledger_ok d -> checkpoint_decoded cp ->
  (forall id m, Members d !! id = Some m -> mem_Progress m = zeroProgress /\ mem_LastSelected m = 0) ->
  ledger_ok (RestoreCheckpoint d cp).1.
Proof.
  intros Hok Hdec Hfresh. unfold RestoreCheckpoint. destruct (_ || _); [done|].
  fold (restoreStart d cp).
  assert (ledger_ok (restoreStart d cp)) as Hstart.
  { destruct Hdec as [Hw Hq _ _]. pose proof (pval_range _ Hw). destruct Hok as [Hid _ _ _ _ _ _ _].
    split; cbn; try done; intros i x; rewrite lookup_fmap; destruct (Members d !! i) as [m|] eqn:E; try done;
      cbn; intros; simplify_eq; cbn; destruct (Hfresh i m E) as [Ep El]; rewrite ?Ep, ?El; eauto with gohints.
    + unfold pval in *. cbn. lia.
    + unfold_ints. lia. }
  pose proof (restore_fold_ok cp (cp_Members cp) (restoreStart d cp) ∅ 0 Hdec (fun _ H => H) Hstart eq_refl eq_refl) as HF.
  by destruct (fold_left _ _ _) as [[d' seen] n].
Qed.

(** A hostile checkpoint: a duplicated member ahead of the watermark. *)
Definition exHostile : SchedulingCheckpoint :=
  let bad := mkMemberCheckpoint 1 1 1 (mkProgress 9 0) 1 false in
  mkCheckpoint 1 (mkProgress 2 0) 3 1 7 [bad; mkMemberCheckpoint 2 1 1 (mkProgress 1 0) 2 false; bad] [].

Lemma exHostile_decoded : checkpoint_decoded exHostile.
Proof.
  split; [split; done|done|done|]. intros s. cbn. rewrite !elem_of_cons, elem_of_nil.
  intros [->|[->|[->|[]]]]; repeat split; done.
Qed.

Lemma exLedger_fresh id m :
  Members exLedger !! id = Some m -> mem_Progress m = zeroProgress /\ mem_LastSelected m = 0.
Proof.
  assert (map_Forall (fun _ m => mem_Progress m = zeroProgress /\ mem_LastSelected m = 0) (Members exLedger)) as H
    by (apply (bool_decide_unpack _); vm_compute; exact I).
  apply H.
Qed.

Lemma checkpoint_restore_safe_witness :
  (RestoreCheckpoint exLedger exHostile).2 = 1 /\ ledger_ok (RestoreCheckpoint exLedger exHostile).1.
Proof.
  split; [vm_compute; reflexivity|].
  apply checkpoint_restore_safe; [apply exLedger_ok|apply exHostile_decoded|apply exLedger_fresh].
Defined.
