(* ===== verification/Registry.v ===== *)
(** The credential registry of [internal/state] ([registry.go], [model_cooldown.go],
    [runtime_checkpoint.go], [runtime_view.go]): the credentials of every group, the
    index from credential to group, and the scheduling ledger they are mirrored in.

    Every method holds the registry's lock for its whole duration, so each is one
    transformer of [CredentialRegistry].  A bucket is a [gmap]; an entry reached through a
    pointer and assigned to is written back under its key ([mutate]).  The readings of
    [time.Now] made while members are synchronised are arguments: one instant for a
    method that synchronises one credential, a clock indexed by the credential for a
    method that synchronises several.  A nil pointer dereference is the error [GoPanic]. *)
From Stdlib Require Import SpecFloat.
From S2P Require Import Prelude GoStrings Config Credential Ledger.

Local Open Scope Z_scope.
Local Open Scope go_scope.

Record CredentialRegistry := mkRegistry {
  buckets : gmap Z (gmap Z CredentialEntry);
  credentialGroups : gmap Z Z;
  scheduling : SchedulingLedger
}.

Inductive RegistryError :=
| CredentialIDRequired
| GroupIDRequired
| CredentialIDsRequired
| EntriesRequired
| InvalidStatus
| InvalidAuthState
| InvalidWeight
| EncryptedValueRequired
| ProxyIdentityIncomplete
| VersionRequired
| IdentityGenerationRequired
| FingerprintRequired
| DuplicateID (id : Z)
| WrongGroup (id : Z)
| AlreadyInGroup (id : Z)
| NotFound (id : Z)
| GoPanic.

Definition NewCredentialRegistry : CredentialRegistry := mkRegistry ∅ ∅ NewSchedulingState.

(** * Access *)

(** [r.buckets[groupID]]: nil, that is empty, when the group has no bucket. *)
Definition bucketOf (r : CredentialRegistry) (g : Z) : gmap Z CredentialEntry := mget ∅ (buckets r) g.
Definition lookupEntry (r : CredentialRegistry) (g id : Z) : option CredentialEntry := bucketOf r g !! id.

Definition entryLocked (r : CredentialRegistry) (id : Z) : option CredentialEntry :=
  match credentialGroups r !! id with
  | None => None
  | Some g => lookupEntry r g id
  end.

Definition setScheduling (d : SchedulingLedger) (r : CredentialRegistry) : CredentialRegistry :=
  mkRegistry (buckets r) (credentialGroups r) d.

(** [r.buckets[g][id] = e], creating the bucket when it is nil. *)
Definition storeEntry (g id : Z) (e : CredentialEntry) (r : CredentialRegistry) : CredentialRegistry :=
  mkRegistry (<[g := <[id := e]> (bucketOf r g)]> (buckets r)) (credentialGroups r) (scheduling r).

(** The assignment through the pointer [entryLocked] returned. *)
Definition mutate (id : Z) (e : CredentialEntry) (r : CredentialRegistry) : CredentialRegistry :=
  match credentialGroups r !! id with Some g => storeEntry g id e r | None => r end.

(** [r.scheduling.SyncCredential(runtimeView(entry))]. *)
Definition syncEntry (e : CredentialEntry) (now : Z) (r : CredentialRegistry) : CredentialRegistry :=
  setScheduling (SyncCredential (scheduling r) (runtimeView e) now) r.

Definition syncSchedulingGroupLocked (r : CredentialRegistry) (g : Z) (clock : Z -> Z) : CredentialRegistry :=
  setScheduling (SyncCredentials (scheduling r) g (runtimeView <$> (mentries (bucketOf r g)).*2) clock) r.

(** * Validation *)

Definition validateEntry (e : CredentialEntry) : result RegistryError unit :=
  if ent_ID e =? 0 then Err CredentialIDRequired
  else if ent_GroupID e =? 0 then Err GroupIDRequired
  else if negb (statusValid (ent_Status e)) then Err InvalidStatus
  else if negb (authValid (ent_AuthState e)) then Err InvalidAuthState
  else if negb (manualWeightValid (ent_WeightManual e)) then Err InvalidWeight
  else if bool_decide (ent_EncryptedValue e = EmptyString) then Err EncryptedValueRequired
  else if xorb (bool_decide (ent_EncryptedProxy e = EmptyString))
               (bool_decide (ent_ProxyFingerprint e = EmptyString)) then Err ProxyIdentityIncomplete
  else if ent_Version e =? 0 then Err VersionRequired
  else if ent_IdentityGeneration e =? 0 then Err IdentityGenerationRequired
  else if bool_decide (TrimSpace (ent_Fingerprint e) = EmptyString) then Err FingerprintRequired
  else Ok tt.

Fixpoint validateFrom (seen : gset Z) (entries : list CredentialEntry) : result RegistryError unit :=
  match entries with
  | [] => Ok tt
  | e :: rest =>
      try! _ := validateEntry e in
      if bool_decide (ent_ID e ∈ seen) then Err (DuplicateID (ent_ID e))
      else validateFrom ({[ent_ID e]} ∪ seen) rest
  end.

Definition ValidateCredentialEntries (entries : list CredentialEntry) : result RegistryError unit :=
  validateFrom ∅ entries.

(** The loops that require every entry to belong to [g], in the input and in the index. *)
Definition entriesOfGroup (g : Z) (entries : list CredentialEntry) : result RegistryError unit :=
  match List.find (fun e => negb (ent_GroupID e =? g)) entries with
  | Some e => Err (WrongGroup (ent_ID e))
  | None => Ok tt
  end.

Definition notElsewhere (r : CredentialRegistry) (g : Z) (entries : list CredentialEntry)
  : result RegistryError unit :=
  match List.find (fun e => match credentialGroups r !! ent_ID e with
                            | Some g' => negb (g' =? g)
                            | None => false
                            end) entries with
  | Some e => Err (AlreadyInGroup (ent_ID e))
  | None => Ok tt
  end.

Fixpoint validateIDsFrom (r : CredentialRegistry) (g : Z) (seen : gset Z) (ids : list Z)
  : result RegistryError unit :=
  match ids with
  | [] => Ok tt
  | id :: rest =>
      if id =? 0 then Err CredentialIDRequired
      else if bool_decide (id ∈ seen) then Err (DuplicateID id)
      else match credentialGroups r !! id with
           | None => Err (NotFound id)
           | Some g' =>
               if negb (g' =? g) then Err (WrongGroup id)
               else if isNil (lookupEntry r g id) then Err (NotFound id)
               else validateIDsFrom r g ({[id]} ∪ seen) rest
           end
  end.

Definition validateGroupCredentialIDsLocked (r : CredentialRegistry) (g : Z) (ids : list Z)
  : result RegistryError unit :=
  if g =? 0 then Err GroupIDRequired
  else match ids with [] => Err CredentialIDsRequired | _ => validateIDsFrom r g ∅ ids end.

(** * Whole-set and whole-group replacement *)

Definition buildBuckets (entries : list CredentialEntry) : gmap Z (gmap Z CredentialEntry) :=
  fold_left (fun b e =>
    <[ent_GroupID e := <[ent_ID e := cloneCredentialEntry e]> (mget ∅ b (ent_GroupID e))]> b) entries ∅.

Definition buildGroups (entries : list CredentialEntry) : gmap Z Z :=
  fold_left (fun m e => <[ent_ID e := ent_GroupID e]> m) entries ∅.

(** [preserveModelCooldowns] on every new entry, against the entry of the same key. *)
Definition preserveAll (r : CredentialRegistry) (b : gmap Z (gmap Z CredentialEntry))
  : gmap Z (gmap Z CredentialEntry) :=
  map_imap (fun g bucket =>
    Some (map_imap (fun id e => Some (preserveModelCooldowns e (lookupEntry r g id))) bucket)) b.

Definition ReplaceCredentials (r : CredentialRegistry) (entries : list CredentialEntry) (clock : Z -> Z)
  : result RegistryError CredentialRegistry :=
  try! _ := ValidateCredentialEntries entries in
  Ok (mkRegistry (preserveAll r (buildBuckets entries)) (buildGroups entries)
        (SyncCredentials (scheduling r) 0 (runtimeView <$> entries) clock)).

Definition importStep (g : Z) (clock : Z -> Z) (r : CredentialRegistry) (e : CredentialEntry)
  : CredentialRegistry :=
  let cloned := preserveModelCooldowns (cloneCredentialEntry e) (lookupEntry r g (ent_ID e)) in
  let r1 := storeEntry g (ent_ID e) cloned r in
  let r2 := mkRegistry (buckets r1) (<[ent_ID e := g]> (credentialGroups r1)) (scheduling r1) in
  syncEntry cloned (clock (ent_ID e)) r2.

Definition ApplyCredentialImport (r : CredentialRegistry) (g : Z) (entries : list CredentialEntry)
    (clock : Z -> Z) : result RegistryError CredentialRegistry :=
  if g =? 0 then Err GroupIDRequired
  else
    try! _ := ValidateCredentialEntries entries in
    try! _ := entriesOfGroup g entries in
    try! _ := notElsewhere r g entries in
    Ok (fold_left (importStep g clock) entries r).

(** The entries are copied as they are; a key that is missing would be a nil dereference. *)
Fixpoint collectEntries (r : CredentialRegistry) (g : Z) (ids : list Z)
  : result RegistryError (list CredentialEntry) :=
  match ids with
  | [] => Ok []
  | id :: rest =>
      match lookupEntry r g id with
      | None => Err GoPanic
      | Some e => try! es := collectEntries r g rest in Ok (e :: es)
      end
  end.

Definition SnapshotGroupCredentialEntriesExact (r : CredentialRegistry) (g : Z) (ids : list Z)
  : result RegistryError (list CredentialEntry) :=
  try! _ := validateGroupCredentialIDsLocked r g ids in collectEntries r g ids.

Definition restoreExactStep (g : Z) (clock : Z -> Z) (r : CredentialRegistry) (e : CredentialEntry)
  : CredentialRegistry :=
  let r1 := storeEntry g (ent_ID e) e r in
  let r2 := mkRegistry (buckets r1) (<[ent_ID e := g]> (credentialGroups r1)) (scheduling r1) in
  syncEntry e (clock (ent_ID e)) r2.

Definition RestoreGroupCredentialEntriesExact (r : CredentialRegistry) (g : Z)
    (entries : list CredentialEntry) (clock : Z -> Z) : result RegistryError CredentialRegistry :=
  if g =? 0 then Err GroupIDRequired
  else match entries with
  | [] => Err EntriesRequired
  | _ =>
      try! _ := ValidateCredentialEntries entries in
      try! _ := entriesOfGroup g entries in
      try! _ := notElsewhere r g entries in
      Ok (fold_left (restoreExactStep g clock) entries r)
  end.

Definition matchesGroupLocked (r : CredentialRegistry) (g : Z) (entries : list CredentialEntry) : bool :=
  (size (bucketOf r g) =? length entries)%nat
  && forallb (fun desired =>
       match lookupEntry r g (ent_ID desired) with
       | None => false
       | Some existing =>
           bool_decide (ent_Name existing = ent_Name desired)
           && samePersistedCredentialConfig existing desired
       end) entries.

Definition MatchesGroup (r : CredentialRegistry) (g : Z) (entries : list CredentialEntry) : bool :=
  if (g =? 0) || negb (is_ok (ValidateCredentialEntries entries)) then false
  else if negb (is_ok (entriesOfGroup g entries)) then false
  else matchesGroupLocked r g entries.

(** One entry of the reconciled bucket: unchanged configuration keeps its runtime state. *)
Definition reconcileEntry (previous : gmap Z CredentialEntry) (desired : CredentialEntry) : CredentialEntry :=
  match previous !! ent_ID desired with
  | Some existing =>
      if samePersistedCredentialConfig existing desired then withName (ent_Name desired) existing
      else preserveModelCooldowns (cloneCredentialEntry desired) (Some existing)
  | None => cloneCredentialEntry desired
  end.

Definition reconcileBucket (previous : gmap Z CredentialEntry) (entries : list CredentialEntry)
  : gmap Z CredentialEntry :=
  fold_left (fun m e => <[ent_ID e := reconcileEntry previous e]> m) entries ∅.

Definition reconcileWith (r : CredentialRegistry) (g : Z) (next : gmap Z CredentialEntry) (clock : Z -> Z)
  : CredentialRegistry :=
  let previous := bucketOf r g in
  let groups := filter (fun kv : Z * Z => previous !! kv.1 = None) (credentialGroups r) in
  let r1 := if (size next =? 0)%nat
            then mkRegistry (delete g (buckets r)) groups (scheduling r)
            else mkRegistry (<[g := next]> (buckets r)) (((fun _ => g) <$> next) ∪ groups) (scheduling r) in
  syncSchedulingGroupLocked r1 g clock.

Definition ReconcileGroup (r : CredentialRegistry) (g : Z) (entries : list CredentialEntry) (clock : Z -> Z)
  : result RegistryError (CredentialRegistry * bool) :=
  if g =? 0 then Err GroupIDRequired
  else
    try! _ := ValidateCredentialEntries entries in
    try! _ := entriesOfGroup g entries in
    try! _ := notElsewhere r g entries in
    if matchesGroupLocked r g entries then Ok (r, false)
    else Ok (reconcileWith r g (reconcileBucket (bucketOf r g) entries) clock, true).

(** * Removal *)

(** [delete(r.buckets[g], id)]; [prune] then drops a bucket left empty. *)
Definition deleteEntry (g id : Z) (r : CredentialRegistry) : CredentialRegistry :=
  mkRegistry (alter (delete id) g (buckets r)) (credentialGroups r) (scheduling r).

Definition dropEmptyBucket (g : Z) (r : CredentialRegistry) : CredentialRegistry :=
  if (size (bucketOf r g) =? 0)%nat
  then mkRegistry (delete g (buckets r)) (credentialGroups r) (scheduling r) else r.

Definition unindex (id : Z) (r : CredentialRegistry) : CredentialRegistry :=
  mkRegistry (buckets r) (delete id (credentialGroups r)) (Remove (scheduling r) id).

Definition RemoveCredential (r : CredentialRegistry) (id : Z) : CredentialRegistry * bool :=
  match credentialGroups r !! id with
  | None => (r, false)
  | Some g => (unindex id (dropEmptyBucket g (deleteEntry g id r)), true)
  end.

Definition RemoveGroupCredentials (r : CredentialRegistry) (g : Z) (ids : list Z)
  : result RegistryError CredentialRegistry :=
  try! _ := validateGroupCredentialIDsLocked r g ids in
  Ok (dropEmptyBucket g (fold_left (fun r id => unindex id (deleteEntry g id r)) ids r)).

Definition RemoveGroup (r : CredentialRegistry) (g : Z) : CredentialRegistry * bool :=
  if g =? 0 then (r, false)
  else match buckets r !! g with
  | None => (r, false)
  | Some bucket =>
      let r1 := fold_left (fun r id => unindex id r) (mentries bucket).*1 r in
      (mkRegistry (delete g (buckets r1)) (credentialGroups r1) (scheduling r1), true)
  end.

(** * Configuration updates *)

Definition UpdateCredentialName (r : CredentialRegistry) (g id : Z) (name : string)
  : CredentialRegistry * bool :=
  match entryLocked r id with
  | Some e => if ent_GroupID e =? g then (mutate id (withName name e) r, true) else (r, false)
  | None => (r, false)
  end.

Definition statusStep (g : Z) (status : CredentialStatus) (clock : Z -> Z)
    (acc : result RegistryError CredentialRegistry) (id : Z) : result RegistryError CredentialRegistry :=
  try! r := acc in
  match lookupEntry r g id with
  | None => Err GoPanic
  | Some e => let e' := withStatus status e in Ok (syncEntry e' (clock id) (storeEntry g id e' r))
  end.

Definition UpdateGroupCredentialStatuses (r : CredentialRegistry) (g : Z) (ids : list Z)
    (status : CredentialStatus) (clock : Z -> Z) : result RegistryError CredentialRegistry :=
  if negb (statusValid status) then Err InvalidStatus
  else
    try! _ := validateGroupCredentialIDsLocked r g ids in
    fold_left (statusStep g status clock) ids (Ok r).

Definition SetCredentialStatus (r : CredentialRegistry) (id : Z) (status : CredentialStatus) (now : Z)
  : result RegistryError CredentialRegistry :=
  if negb (statusValid status) then Err InvalidStatus
  else match credentialGroups r !! id with
  | None => Err (NotFound id)
  | Some g =>
      match lookupEntry r g id with
      | None => Err GoPanic
      | Some e => let e' := withStatus status e in Ok (syncEntry e' now (storeEntry g id e' r))
      end
  end.

Definition UpdateCredentialConfig (r : CredentialRegistry) (id : Z) (status : CredentialStatus)
    (weight : option Z) (now : Z) : result RegistryError CredentialRegistry :=
  if negb (statusValid status) then Err InvalidStatus
  else if negb (manualWeightValid weight) then Err InvalidWeight
  else match entryLocked r id with
  | None => Err (NotFound id)
  | Some e => let e' := withWeight weight (withStatus status e) in Ok (syncEntry e' now (mutate id e' r))
  end.

(** The scheduling ledger is not synchronised by a secret rotation. *)
Definition ReplaceCredentialSecretIfMatch (r : CredentialRegistry) (id expectedVersion nextVersion : Z)
    (fingerprint encryptedValue : string) : CredentialRegistry * bool :=
  if (id =? 0) || (expectedVersion =? 0) || (nextVersion <=? expectedVersion)
     || bool_decide (TrimSpace fingerprint = EmptyString) || bool_decide (encryptedValue = EmptyString)
  then (r, false)
  else match entryLocked r id with
  | Some e =>
      if ent_Version e =? expectedVersion
      then (mutate id (withSecret nextVersion fingerprint encryptedValue e) r, true) else (r, false)
  | None => (r, false)
  end.

Definition SetCredentialAuthState (r : CredentialRegistry) (id : Z) (a : CredentialAuthState) (now : Z)
  : CredentialRegistry * bool :=
  if negb (authValid a) then (r, false)
  else match entryLocked r id with
  | None => (r, false)
  | Some e =>
      let e1 := withAuthState (authNormalize a) e in
      let e2 := if bool_decide (authNormalize a = AuthReady) then e1 else withQuota None 0 e1 in
      (mutate id e2 (syncEntry e1 now r), true)
  end.

(** * Health *)

Definition SetCooldownWithChange (r : CredentialRegistry) (id until now : Z)
  : CredentialRegistry * (bool * bool) :=
  match entryLocked r id with
  | None => (r, (false, false))
  | Some e =>
      if until <=? ent_CooldownUntil e then (r, (true, false))
      else let e' := withCooldown until e in (syncEntry e' now (mutate id e' r), (true, true))
  end.

Definition SetCooldown (r : CredentialRegistry) (id until now : Z) : CredentialRegistry * bool :=
  let '(r', res) := SetCooldownWithChange r id until now in (r', res.1).

Definition SetCooldownWithChangeIfVersion (r : CredentialRegistry) (id expectedVersion until now : Z)
  : CredentialRegistry * (bool * bool) :=
  match entryLocked r id with
  | None => (r, (false, false))
  | Some e =>
      if negb (ent_Version e =? expectedVersion) then (r, (false, false))
      else if until <=? ent_CooldownUntil e then (r, (true, false))
      else let e' := withCooldown until e in (syncEntry e' now (mutate id e' r), (true, true))
  end.

Definition ClearCooldownIfMatch (r : CredentialRegistry) (id expected now : Z) : CredentialRegistry * bool :=
  if isZeroTime expected then (r, false)
  else match entryLocked r id with
  | None => (r, false)
  | Some e =>
      if ent_CooldownUntil e =? expected
      then let e' := withCooldown 0 e in (syncEntry e' now (mutate id e' r), true) else (r, false)
  end.

Definition nextFailure (e : CredentialEntry) : Z := u64 (ent_FailureGeneration e + 1).

Definition SetBlacklistedWithChange (r : CredentialRegistry) (id now : Z)
  : CredentialRegistry * (bool * bool) :=
  match entryLocked r id with
  | None => (r, (false, false))
  | Some e =>
      if ent_Blacklisted e then (r, (true, false))
      else let e' := withFailure true (ent_FailureCount e) (nextFailure e) e in
           (syncEntry e' now (mutate id e' r), (true, true))
  end.

Definition SetBlacklisted (r : CredentialRegistry) (id now : Z) : CredentialRegistry * bool :=
  let '(r', res) := SetBlacklistedWithChange r id now in (r', res.1).

Definition RestoreRuntimeState (r : CredentialRegistry) (id now : Z) : CredentialRegistry * bool :=
  match entryLocked r id with
  | None => (r, false)
  | Some e =>
      let e' := withFailure false 0 (nextFailure e) (withCooldown 0 e) in
      (syncEntry e' now (mutate id e' r), true)
  end.

Definition IncrFailure (r : CredentialRegistry) (id : Z) : CredentialRegistry * (Z * bool) :=
  match entryLocked r id with
  | None => (r, (0, false))
  | Some e =>
      let n := i64 (ent_FailureCount e + 1) in
      (mutate id (withFailure (ent_Blacklisted e) n (nextFailure e) e) r, (n, true))
  end.

Definition ClearFailure (r : CredentialRegistry) (id : Z) : CredentialRegistry * bool :=
  match entryLocked r id with
  | None => (r, false)
  | Some e =>
      if negb (ent_FailureCount e =? 0)
      then (mutate id (withFailure (ent_Blacklisted e) 0 (nextFailure e) e) r, true) else (r, true)
  end.

Definition Recover (r : CredentialRegistry) (id now : Z) : CredentialRegistry * bool :=
  match entryLocked r id with
  | None => (r, false)
  | Some e =>
      let e' := if ent_Blacklisted e || negb (ent_FailureCount e =? 0)
                then withFailure false 0 (nextFailure e) e else e in
      (syncEntry e' now (mutate id e' r), true)
  end.

(** The test of [restoreRuntimeStateIfMatch]: the credential that was tested is still the
    one in the registry, unchanged in identity, secret, proxy and failure generation. *)
Definition recoverable (ref : CredentialRef) (cooldown : option Z) (e : CredentialEntry) : bool :=
  bool_decide (ent_Status e = StatusActive) && ent_Blacklisted e
  && (ent_GroupID e =? ref_GroupID ref) && (ent_Version e =? ref_Version ref)
  && (ent_IdentityGeneration e =? ref_IdentityGeneration ref)
  && bool_decide (ent_Fingerprint e = ref_Fingerprint ref)
  && bool_decide (ent_EncryptedValue e = ref_EncryptedValue ref)
  && bool_decide (ent_EncryptedProxy e = ref_EncryptedProxy ref)
  && bool_decide (ent_ProxyFingerprint e = ref_ProxyFingerprint ref)
  && (ent_FailureGeneration e =? ref_FailureGeneration ref)
  && match cooldown with Some c => ent_CooldownUntil e =? c | None => true end.

Definition restoreRuntimeStateIfMatch (r : CredentialRegistry) (ref : CredentialRef) (cooldown : option Z)
    (now : Z) : CredentialRegistry * bool :=
  match credentialGroups r !! ref_ID ref with
  | None => (r, false)
  | Some g =>
      if negb (g =? ref_GroupID ref) then (r, false)
      else match lookupEntry r g (ref_ID ref) with
      | None => (r, false)
      | Some e =>
          if negb (recoverable ref cooldown e) then (r, false)
          else
            let e1 := if isSome cooldown then withCooldown 0 e else e in
            let e' := withFailure false 0 (nextFailure e) e1 in
            (syncEntry e' now (storeEntry g (ref_ID ref) e' r), true)
      end
  end.

Definition RecoverIfMatch (r : CredentialRegistry) (ref : CredentialRef) (now : Z)
  : CredentialRegistry * bool := restoreRuntimeStateIfMatch r ref None now.

Definition RestoreRuntimeStateIfMatch (r : CredentialRegistry) (ref : CredentialRef) (cooldownUntil now : Z)
  : CredentialRegistry * bool := restoreRuntimeStateIfMatch r ref (Some cooldownUntil) now.

(** * Model cooldowns *)

Definition SetModelCooldown (r : CredentialRegistry) (ref : CredentialRef) (model : string) (until now : Z)
  : CredentialRegistry * (bool * bool) :=
  if bool_decide (model = EmptyString) || negb (bool_decide (TrimSpace model = model)) || (until <=? now)
  then (r, (false, false))
  else match entryLocked r (ref_ID ref) with
  | None => (r, (false, false))
  | Some e =>
      if negb (ent_GroupID e =? ref_GroupID ref)
         || negb (ent_IdentityGeneration e =? ref_IdentityGeneration ref)
         || negb (ent_ModelCooldownGeneration e =? ref_ModelCooldownGeneration ref)
      then (r, (false, false))
      else
        let pruned := pruneModelCooldowns (ent_ModelCooldowns e) now in
        let gen := ent_ModelCooldownGeneration e in
        if until <=? mget 0 pruned model
        then (mutate (ref_ID ref) (withModelCooldowns pruned gen e) r, (true, false))
        else (mutate (ref_ID ref) (withModelCooldowns (<[model := until]> pruned) gen e) r, (true, true))
  end.

(** Reading the limits of one credential removes the expired ones. *)
Definition ModelCooldownsOf (r : CredentialRegistry) (id now : Z) : CredentialRegistry * gmap string Z :=
  match entryLocked r id with
  | None => (r, ∅)
  | Some e =>
      let pruned := pruneModelCooldowns (ent_ModelCooldowns e) now in
      (mutate id (withModelCooldowns pruned (ent_ModelCooldownGeneration e) e) r, pruned)
  end.

Definition ClearModelCooldowns (r : CredentialRegistry) (id : Z) : CredentialRegistry * bool :=
  match entryLocked r id with
  | None => (r, false)
  | Some e => (mutate id (withModelCooldowns ∅ (u64 (ent_ModelCooldownGeneration e + 1)) e) r, true)
  end.

Definition expireEntry (now : Z) (e : CredentialEntry) : CredentialEntry :=
  withModelCooldowns (pruneModelCooldowns (ent_ModelCooldowns e) now) (ent_ModelCooldownGeneration e) e.

Definition ExpireModelCooldowns (r : CredentialRegistry) (now : Z) : CredentialRegistry :=
  mkRegistry (fmap (M := gmap Z) (expireEntry now) <$> buckets r) (credentialGroups r) (scheduling r).

(** The rest of the credential registry: the read-only queries, the candidate collection
    used by the scheduler, the runtime checkpoint and the quota observation
    ([registry.go], [runtime_view.go], [runtime_checkpoint.go]). *)

(** * The order of every [sort.Slice] here: by group, then by identifier *)

Definition byGroupAndID {A} (key : A -> Z * Z) (a b : A) : Prop :=
  (key a).1 < (key b).1 \/ ((key a).1 = (key b).1 /\ (key a).2 <= (key b).2).

#[export] Instance byGroupAndID_dec {A} (key : A -> Z * Z) : RelDecision (byGroupAndID key).
Proof. intros a b. unfold byGroupAndID. apply _. Defined.
#[export] Instance byGroupAndID_total {A} (key : A -> Z * Z) : Total (byGroupAndID key).
Proof. intros a b. unfold byGroupAndID. lia. Qed.
#[export] Instance byGroupAndID_trans {A} (key : A -> Z * Z) : Transitive (byGroupAndID key).
Proof. intros a b c. unfold byGroupAndID. lia. Qed.

Definition refKey (x : CredentialRef) : Z * Z := (ref_GroupID x, ref_ID x).
Definition metaKey (x : CredentialMeta) : Z * Z := (meta_GroupID x, meta_ID x).
Definition viewKey (x : CredentialRuntimeView) : Z * Z := (view_GroupID x, view_ID x).

(** Every entry, bucket by bucket. *)
Definition allEntries (r : CredentialRegistry) : list CredentialEntry :=
  (mentries (buckets r)).*2 ≫= (fun bucket => (mentries bucket).*2).

Definition groupEntries (r : CredentialRegistry) (g : Z) : list CredentialEntry := (mentries (bucketOf r g)).*2.

(** * Queries *)

Definition CredentialAuthStateOf (r : CredentialRegistry) (id : Z) : option CredentialAuthState :=
  authNormalize ∘ ent_AuthState <$> entryLocked r id.

(** The index is followed without a nil test: a missing entry would be a nil dereference. *)
Definition EncryptedCredentialData (r : CredentialRegistry) (id : Z) : result RegistryError (option string) :=
  match credentialGroups r !! id with
  | None => Ok None
  | Some g =>
      match lookupEntry r g id with Some e => Ok (Some (ent_EncryptedValue e)) | None => Err GoPanic end
  end.

Definition usable (e : CredentialEntry) : bool :=
  bool_decide (ent_Status e = StatusActive) && bool_decide (authNormalize (ent_AuthState e) = AuthReady).

Definition ActiveEncryptedCredentialData (r : CredentialRegistry) (id expectedGroup : Z) : option string :=
  match credentialGroups r !! id with
  | None => None
  | Some g =>
      if negb (g =? expectedGroup) then None
      else match lookupEntry r g id with
      | None => None
      | Some e => if usable e then Some (ent_EncryptedValue e) else None
      end
  end.

Definition CaptureActiveCredentialRefs (r : CredentialRegistry) (groupIDs : list Z) : list CredentialRef :=
  let selected : gset Z := list_to_set (filter (fun g => g <> 0) groupIDs) in
  merge_sort (byGroupAndID refKey)
    (refOf <$> filter (fun e => usable e = true) (elements selected ≫= groupEntries r)).

Definition sameTarget (ref : CredentialRef) (e : CredentialEntry) : bool :=
  (ent_ID e =? ref_ID ref) && (ent_GroupID e =? ref_GroupID ref) && (ent_Version e =? ref_Version ref)
  && (ent_IdentityGeneration e =? ref_IdentityGeneration ref)
  && bool_decide (ent_Fingerprint e = ref_Fingerprint ref)
  && bool_decide (ent_EncryptedValue e = ref_EncryptedValue ref)
  && bool_decide (ent_EncryptedProxy e = ref_EncryptedProxy ref)
  && bool_decide (ent_ProxyFingerprint e = ref_ProxyFingerprint ref).

(** The failure generation is not compared. *)
Definition ActiveEncryptedCredentialDataIfMatch (r : CredentialRegistry) (ref : CredentialRef) : option string :=
  match credentialGroups r !! ref_ID ref with
  | None => None
  | Some g =>
      if negb (g =? ref_GroupID ref) then None
      else match lookupEntry r g (ref_ID ref) with
      | None => None
      | Some e => if sameTarget ref e && usable e then Some (ent_EncryptedValue e) else None
      end
  end.

Definition ActiveCredentialIDs (r : CredentialRegistry) : list Z :=
  merge_sort Z.le (ent_ID <$> filter (fun e => ent_Status e = StatusActive) (allEntries r)).

Definition CredentialRefOf (r : CredentialRegistry) (id : Z) : option CredentialRef := refOf <$> entryLocked r id.

Definition CredentialCooldownUntil (r : CredentialRegistry) (id : Z) : option Z :=
  ent_CooldownUntil <$> entryLocked r id.

Definition BlacklistedCredentials (r : CredentialRegistry) : list CredentialRef :=
  merge_sort (byGroupAndID refKey)
    (refOf <$> filter (fun e => ent_Status e = StatusActive /\ ent_Blacklisted e = true) (allEntries r)).

Definition Snapshot (r : CredentialRegistry) : list CredentialRuntimeView :=
  merge_sort (byGroupAndID viewKey) (runtimeView <$> allEntries r).

(** * Candidates *)

(** [excluded] is the caller's callback, [None] for nil. *)
Definition notExcluded (excluded : option (Z -> bool)) (id : Z) : bool :=
  match excluded with Some f => negb (f id) | None => true end.

Definition collectCredentialCandidatesLocked (r : CredentialRegistry) (groupIDs : list Z)
    (excluded : option (Z -> bool)) (now : Z) : list CredentialMeta :=
  groupIDs ≫= (fun g =>
    metaOf <$> filter (fun e => notExcluded excluded (ent_ID e) && schedulable e now = true) (groupEntries r g)).

Definition CollectCredentialCandidates (r : CredentialRegistry) (groupIDs : list Z)
    (excluded : option (Z -> bool)) (now : Z) : list CredentialMeta :=
  merge_sort (byGroupAndID metaKey)
    (filter (fun m => notExcluded excluded (meta_ID m) = true)
       (collectCredentialCandidatesLocked r groupIDs None now)).

(** The callback runs while the registry's read lock pins identities and weights; it may
    change the scheduling ledger only. *)
Definition WithCredentialCandidates {A} (r : CredentialRegistry) (groupIDs : list Z)
    (excluded : option (Z -> bool)) (now : Z)
    (fn : SchedulingLedger -> list CredentialMeta -> SchedulingLedger * A) : CredentialRegistry * A :=
  let '(d, a) := fn (scheduling r) (collectCredentialCandidatesLocked r groupIDs excluded now) in
  (setScheduling d r, a).

(** * Runtime checkpoint *)

Record CredentialRuntimeCheckpoint := mkRuntimeCheckpoint {
  rcp_ID : Z;
  rcp_GroupID : Z;
  rcp_CooldownUntil : Z;
  rcp_Blacklisted : bool;
  rcp_FailureCount : Z;
  rcp_IdentityGeneration : Z;
  rcp_ModelCooldowns : gmap string Z
}.

Definition captureEntry (e : CredentialEntry) : CredentialRuntimeCheckpoint :=
  mkRuntimeCheckpoint (ent_ID e) (ent_GroupID e) (ent_CooldownUntil e) (ent_Blacklisted e)
    (ent_FailureCount e) (ent_IdentityGeneration e) (ent_ModelCooldowns e).

Definition rcpKey (x : CredentialRuntimeCheckpoint) : Z * Z := (rcp_GroupID x, rcp_ID x).

Definition CaptureRuntimeCheckpoint (r : CredentialRegistry) (now : Z)
  : CredentialRegistry * list CredentialRuntimeCheckpoint :=
  let r1 := ExpireModelCooldowns r now in
  (r1, merge_sort (byGroupAndID rcpKey) (captureEntry <$> allEntries r1)).

(** The health a checkpoint gives an entry; [now] expires the restored model cooldowns. *)
Definition restoreHealth (c : CredentialRuntimeCheckpoint) (now : Z) (e : CredentialEntry) : CredentialEntry :=
  let e1 := withFailure (rcp_Blacklisted c) (rcp_FailureCount c) (ent_FailureGeneration e)
              (withCooldown (rcp_CooldownUntil c) e) in
  if rcp_IdentityGeneration c =? ent_IdentityGeneration e
  then withModelCooldowns (pruneModelCooldowns (rcp_ModelCooldowns c) now) (ent_ModelCooldownGeneration e) e1
  else e1.

(** One checkpoint; [now] and [now'] are the two clock readings of the iteration. *)
Definition restoreRuntimeStep (acc : CredentialRegistry * Z)
    (x : CredentialRuntimeCheckpoint * (Z * Z)) : CredentialRegistry * Z :=
  let '(r, n) := acc in
  let '(c, (now, now')) := x in
  if (rcp_ID c =? 0) || (rcp_GroupID c =? 0) || (rcp_FailureCount c <? 0) then acc
  else match credentialGroups r !! rcp_ID c with
  | None => acc
  | Some g =>
      if negb (g =? rcp_GroupID c) then acc
      else match lookupEntry r g (rcp_ID c) with
      | None => acc
      | Some e =>
          let e' := restoreHealth c now e in
          (syncEntry e' now' (storeEntry g (rcp_ID c) e' r), n + 1)
      end
  end.

(** [clock i] gives the readings of the [i]-th iteration. *)
Definition RestoreRuntimeCheckpoint (r : CredentialRegistry) (cps : list CredentialRuntimeCheckpoint)
    (clock : nat -> Z * Z) : CredentialRegistry * Z :=
  fold_left restoreRuntimeStep (imap (fun i c => (c, clock i)) cps) (r, 0).

(** * Quota observation

    IEEE binary64 numbers are [spec_float]s of precision 53 and maximal exponent 1024. *)

Definition sfOne : spec_float := S754_finite false 4503599627370496 (-52).
Definition sfZero : spec_float := S754_zero false.
Definition sfIsNaN (x : spec_float) : bool := match x with S754_nan => true | _ => false end.
Definition sfIsInf (x : spec_float) : bool := match x with S754_infinity _ => true | _ => false end.
Definition sfSignbit (x : spec_float) : bool :=
  match x with S754_zero s | S754_infinity s | S754_finite s _ _ => s | S754_nan => false end.

(** [math.Min] and [math.Max], special cases included. *)
Definition mathMin (x y : spec_float) : spec_float :=
  if bool_decide (x = S754_infinity true) || bool_decide (y = S754_infinity true) then S754_infinity true
  else if sfIsNaN x || sfIsNaN y then S754_nan
  else if SFeqb x sfZero && SFeqb x y then (if sfSignbit x then x else y)
  else if SFltb x y then x else y.

Definition mathMax (x y : spec_float) : spec_float :=
  if bool_decide (x = S754_infinity false) || bool_decide (y = S754_infinity false) then S754_infinity false
  else if sfIsNaN x || sfIsNaN y then S754_nan
  else if SFeqb x sfZero && SFeqb x y then (if sfSignbit x then y else x)
  else if SFltb y x then x else y.

Record QuotaWindow := mkQuotaWindow {
  qw_Scope : string;
  qw_State : string;
  qw_Limit : option spec_float;
  qw_Remaining : option spec_float;
  qw_Utilization : option spec_float;
  qw_ResetAtMS : option Z
}.

Definition clampUnit (x : spec_float) : spec_float := mathMax sfZero (mathMin sfOne x).

Definition quotaWindowRemainingRatio (w : QuotaWindow) : option spec_float :=
  if bool_decide (qw_State w = "exhausted"%string) then Some sfZero
  else match qw_Utilization w with
  | Some u => Some (clampUnit (SFsub 53 1024 sfOne u))
  | None =>
      match qw_Remaining w, qw_Limit w with
      | Some rem, Some lim => if SFltb sfZero lim then Some (clampUnit (SFdiv 53 1024 rem lim)) else None
      | _, _ => None
      end
  end.

Definition SetCredentialQuotaObservation (r : CredentialRegistry) (id : Z) (remaining : option spec_float)
    (resetAt : Z) : CredentialRegistry * bool :=
  if id =? 0 then (r, false)
  else if match remaining with
          | Some x => sfIsNaN x || sfIsInf x || SFltb x sfZero || SFltb sfOne x || isZeroTime resetAt
          | None => false
          end then (r, false)
  else match entryLocked r id with
  | None => (r, false)
  | Some e =>
      (mutate id (withQuota remaining (match remaining with Some _ => resetAt | None => 0 end) e) r, true)
  end.

(** The tightest account window: the least ratio, among equals the latest reset. *)
Definition quotaStep (acc : option spec_float * Z) (w : QuotaWindow) : option spec_float * Z :=
  if negb (bool_decide (qw_Scope w = "account"%string)) then acc
  else match qw_ResetAtMS w with
  | None => acc
  | Some reset =>
      match quotaWindowRemainingRatio w with
      | None => acc
      | Some value =>
          match acc.1 with
          | None => (Some value, reset)
          | Some best =>
              if SFltb value best then (Some value, reset)
              else if SFeqb value best && (acc.2 <? reset) then (Some best, reset) else acc
          end
      end
  end.

(** The nil receiver test has no counterpart: the registry exists. *)
Definition ApplyQuotaWindows (r : CredentialRegistry) (id : Z) (windows : list QuotaWindow)
  : CredentialRegistry * bool :=
  if id =? 0 then (r, false)
  else
    let '(remaining, resetAtMS) := fold_left quotaStep windows (None, 0) in
    match remaining with
    | Some x =>
        if resetAtMS =? 0 then SetCredentialQuotaObservation r id None 0
        else SetCredentialQuotaObservation r id (Some x) (unixEpoch + resetAtMS * millisecond)
    | None => SetCredentialQuotaObservation r id None 0
    end.
