(* ===== verification/RegistryInvariant.v ===== *)
(** The registry's invariant: the buckets, the index and the scheduling ledger describe the
    same credentials, every entry passes validation, and every operation keeps it so. *)
From S2P Require Import Prelude GoStrings Config Credential Ledger Fair FairShare Registry.

Local Open Scope Z_scope.

(** * Abstraction: the two-level index is one map from identifiers to entries *)

Definition entries_of (r : CredentialRegistry) : gmap Z CredentialEntry :=
  map_imap (fun id g => lookupEntry r g id) (credentialGroups r).

Lemma entries_of_lookup r id : entries_of r !! id = entryLocked r id.
Proof.
  unfold entries_of, entryLocked. rewrite map_lookup_imap. by destruct (credentialGroups r !! id).
Qed.

Record index_ok (r : CredentialRegistry) : Prop := {
  ix_bucket : forall g b, buckets r !! g = Some b -> b <> ∅;
  ix_entry : forall g id e, lookupEntry r g id = Some e ->
    ent_ID e = id /\ ent_GroupID e = g /\ credentialGroups r !! id = Some g;
  ix_group : forall id g, credentialGroups r !! id = Some g -> is_Some (lookupEntry r g id)
}.

(** The ledger holds a member for exactly the credentials of the registry, with the same
    group and identity generation. *)
Definition mirrors (d : SchedulingLedger) (es : gmap Z CredentialEntry) : Prop :=
  forall id, match es !! id with
    | Some e => memberMatches (Members d !! id) (ent_GroupID e) (ent_IdentityGeneration e) = true
    | None => Members d !! id = None
    end.

Record registry_ok (r : CredentialRegistry) : Prop := {
  rg_index : index_ok r;
  rg_valid : forall id e, entryLocked r id = Some e -> validateEntry e = Ok tt /\ is_u64 id;
  rg_mirror : mirrors (scheduling r) (entries_of r);
  rg_ledger : ledger_ok (scheduling r)
}.

(** * Validation *)

Lemma validateEntry_id e : validateEntry e = Ok tt -> ent_ID e <> 0 /\ ent_GroupID e <> 0.
Proof. unfold validateEntry. repeat case_if; try done. Qed.

Lemma validateFrom_ok seen es :
  validateFrom seen es = Ok tt <->
  Forall (fun e => validateEntry e = Ok tt) es /\ NoDup (ent_ID <$> es)
  /\ (forall e, e ∈ es -> ent_ID e ∉ seen).
Proof.
  revert seen. induction es as [|e es IH]; intros seen; cbn [validateFrom].
  { split; [|done]. intros _. split; [done|]. split; [constructor|]. intros e He. by apply not_elem_of_nil in He. }
  rewrite Forall_cons, fmap_cons, NoDup_cons. destruct (validateEntry e) as [[]|err]; [|naive_solver].
  case_bool_decide as Hs.
  - split; [done|]. intros (_ & _ & H). destruct (H e); [constructor|done].
  - rewrite IH. setoid_rewrite elem_of_cons. split.
    + intros (Hv & Hnd & Hout). split; [done|]. split; [|set_solver]. split; [|done].
      intros (x & Ex & Hx)%list_elem_of_fmap. specialize (Hout x Hx). rewrite <- Ex in Hout. set_solver.
    + intros ((_ & Hv) & (Hn & Hnd) & Hout). split; [done|]. split; [done|]. intros x Hx.
      rewrite not_elem_of_union, not_elem_of_singleton. split; [|apply Hout; by right].
      intros E. apply Hn. rewrite <- E. by apply list_elem_of_fmap_2.
Qed.

Lemma Validate_ok es :
  ValidateCredentialEntries es = Ok tt <->
  Forall (fun e => validateEntry e = Ok tt) es /\ NoDup (ent_ID <$> es).
Proof. unfold ValidateCredentialEntries. rewrite validateFrom_ok. set_solver. Qed.

Lemma Validate_result es : ValidateCredentialEntries es = Ok tt \/ exists err, ValidateCredentialEntries es = Err err.
Proof. destruct (ValidateCredentialEntries es) as [[]|err]; eauto. Qed.

Lemma find_none_Forall {A} (f : A -> bool) l : List.find f l = None <-> Forall (fun x => f x = false) l.
Proof.
  induction l as [|x l IH]; cbn [List.find]; [done|]. rewrite Forall_cons.
  destruct (f x) eqn:E; [naive_solver|]. naive_solver.
Qed.

Lemma entriesOfGroup_ok g es : entriesOfGroup g es = Ok tt <-> Forall (fun e => ent_GroupID e = g) es.
Proof.
  unfold entriesOfGroup. transitivity (List.find (fun e => negb (ent_GroupID e =? g)) es = None).
  { destruct (List.find _ es); naive_solver. }
  rewrite find_none_Forall. apply Forall_proper; [|done]. intros e. rewrite negb_false_iff. apply Z.eqb_eq.
Qed.

Lemma notElsewhere_ok r g es :
  notElsewhere r g es = Ok tt
  <-> Forall (fun e => forall g', credentialGroups r !! ent_ID e = Some g' -> g' = g) es.
Proof.
  unfold notElsewhere. set (f := fun e : CredentialEntry => match credentialGroups r !! ent_ID e with
    | Some g' => negb (g' =? g) | None => false end).
  transitivity (List.find f es = None); [destruct (List.find f es); naive_solver|].
  rewrite find_none_Forall. apply Forall_proper; [|done]. intros e. subst f. cbn beta.
  destruct (credentialGroups r !! ent_ID e) as [g'|]; [|naive_solver].
  rewrite negb_false_iff, Z.eqb_eq. naive_solver.
Qed.

(** * The index *)

Lemma entryLocked_spec r id e :
  index_ok r -> entryLocked r id = Some e <-> exists g, lookupEntry r g id = Some e.
Proof.
  intros Hix. unfold entryLocked. split.
  - destruct (credentialGroups r !! id) as [g|]; [eauto|done].
  - intros [g Hg]. destruct (ix_entry r Hix _ _ _ Hg) as (_ & _ & ->). done.
Qed.

Lemma entryLocked_group r id e :
  index_ok r -> entryLocked r id = Some e ->
  credentialGroups r !! id = Some (ent_GroupID e) /\ lookupEntry r (ent_GroupID e) id = Some e /\ ent_ID e = id.
Proof.
  intros Hix. unfold entryLocked. destruct (credentialGroups r !! id) as [g|] eqn:E; [|done].
  intros He. destruct (ix_entry r Hix _ _ _ He) as (<- & <- & _). done.
Qed.

Lemma entryLocked_None r id : index_ok r -> entryLocked r id = None <-> credentialGroups r !! id = None.
Proof.
  intros Hix. unfold entryLocked. destruct (credentialGroups r !! id) as [g|] eqn:E; [|done].
  destruct (ix_group r Hix _ _ E) as [e ->]. done.
Qed.

Lemma lookupEntry_store g id e r g' id' :
  lookupEntry (storeEntry g id e r) g' id'
  = if decide (g' = g /\ id' = id) then Some e else lookupEntry r g' id'.
Proof.
  unfold lookupEntry, bucketOf, storeEntry, mget. cbn. rewrite lookup_insert.
  destruct (decide (g = g')) as [->|Hg]; cbn.
  - rewrite lookup_insert. destruct (decide (id = id')) as [->|Hi].
    + by rewrite decide_True by done.
    + by rewrite decide_False by naive_solver.
  - by rewrite decide_False by naive_solver.
Qed.

(** Storing an entry under its own keys, with its index entry. *)
Definition putEntry (e : CredentialEntry) (r : CredentialRegistry) : CredentialRegistry :=
  let r1 := storeEntry (ent_GroupID e) (ent_ID e) e r in
  mkRegistry (buckets r1) (<[ent_ID e := ent_GroupID e]> (credentialGroups r1)) (scheduling r1).

Lemma putEntry_ok e r :
  index_ok r -> (forall g, credentialGroups r !! ent_ID e = Some g -> g = ent_GroupID e) ->
  index_ok (putEntry e r) /\ entries_of (putEntry e r) = <[ent_ID e := e]> (entries_of r).
Proof.
  intros Hix Hg.
  assert (forall g id, lookupEntry (putEntry e r) g id
    = if decide (g = ent_GroupID e /\ id = ent_ID e) then Some e else lookupEntry r g id) as Hl
    by (intros; apply lookupEntry_store).
  split.
  - split.
    + intros g b. cbn. rewrite lookup_insert. case_decide as Eg; [|by apply (ix_bucket r Hix)].
      intros [= <-]. apply insert_non_empty.
    + intros g id x. rewrite Hl. cbn [putEntry credentialGroups]. case_decide as Ed.
      * destruct Ed as [-> ->]. intros [= <-]. by rewrite lookup_insert_eq.
      * intros Hx. destruct (ix_entry r Hix _ _ _ Hx) as (E1 & E2 & E3). split; [done|]. split; [done|].
        rewrite lookup_insert_ne; [done|]. intros E. subst id. apply Ed. split; [|done]. rewrite <- E in E3. by apply Hg in E3.
    + intros id g. cbn [putEntry credentialGroups storeEntry]. rewrite Hl, lookup_insert. case_decide as Ei.
      * intros [= <-]. subst. rewrite decide_True by done. by eexists.
      * intros Hx. rewrite decide_False by naive_solver. by apply (ix_group r Hix).
  - apply map_eq. intros id. rewrite entries_of_lookup. unfold entryLocked. cbn [putEntry credentialGroups storeEntry].
    rewrite !lookup_insert. case_decide as Ei.
    + subst. rewrite Hl. by rewrite decide_True by done.
    + rewrite entries_of_lookup. unfold entryLocked. destruct (credentialGroups r !! id); [|done].
      rewrite Hl. by rewrite decide_False by naive_solver.
Qed.

(** Assigning through an entry pointer is storing under the same keys. *)
Lemma mutate_put r id e e' :
  index_ok r -> entryLocked r id = Some e -> sameIdentity e' e ->
  mutate id e' r = putEntry e' r /\ storeEntry (ent_GroupID e) id e' r = putEntry e' r
  /\ forall g, credentialGroups r !! ent_ID e' = Some g -> g = ent_GroupID e'.
Proof.
  intros Hix He (E1 & E2 & E3). destruct (entryLocked_group r id e Hix He) as (Hg & _ & Eid).
  assert (storeEntry (ent_GroupID e) id e' r = putEntry e' r) as E.
  { unfold putEntry, storeEntry. cbn. rewrite E1, E2, Eid. f_equal. by rewrite insert_id. }
  split; [|split; [done|]].
  - unfold mutate. by rewrite Hg.
  - intros g. rewrite E1, E2, Eid. congruence.
Qed.

(** * The ledger mirrors the entries *)

Lemma sync_members d v now id :
  Members (SyncCredential d v now) !! id
  = if decide (id = view_ID v) then Members (SyncCredential d v now) !! view_ID v else Members d !! id.
Proof.
  case_decide as E; [by subst|]. unfold SyncCredential, syncCredentialLocked.
  destruct (Members d !! view_ID v) as [m|]; [destruct (memberMatches _ _ _)|]; [|case_if|case_if];
    cbn; by rewrite lookup_insert_ne.
Qed.

Lemma sync_matches d v now :
  memberMatches (Members (SyncCredential d v now) !! view_ID v) (view_GroupID v) (view_IdentityGeneration v) = true.
Proof.
  unfold SyncCredential, syncCredentialLocked. destruct (Members d !! view_ID v) as [m|].
  - destruct (memberMatches (Some m) _ _) eqn:E; [|case_if]; cbn; rewrite lookup_insert_eq; cbn;
      [done|by rewrite !Z.eqb_refl..].
  - case_if; cbn; rewrite lookup_insert_eq; cbn; by rewrite !Z.eqb_refl.
Qed.

Lemma mirrors_sync d es e now :
  mirrors d es -> mirrors (SyncCredential d (runtimeView e) now) (<[ent_ID e := e]> es).
Proof.
  intros Hm id. rewrite sync_members. cbn [view_ID runtimeView]. rewrite lookup_insert.
  destruct (decide (ent_ID e = id)) as [<-|Hne].
  - rewrite decide_True by done. apply sync_matches.
  - rewrite decide_False by done. apply Hm.
Qed.

Lemma mirrors_same d es e e' :
  mirrors d es -> es !! ent_ID e' = Some e -> sameIdentity e' e -> mirrors d (<[ent_ID e' := e']> es).
Proof.
  intros Hm He (E1 & E2 & E3) id. rewrite lookup_insert. case_decide; [|apply Hm].
  subst id. rewrite E2, E3. specialize (Hm (ent_ID e')). by rewrite He in Hm.
Qed.

Lemma remove_members d id i : Members (Remove d id) !! i = if decide (i = id) then None else Members d !! i.
Proof.
  unfold Remove, removeLocked. case_if; cbn; rewrite lookup_delete; by repeat case_decide.
Qed.

Lemma mirrors_remove d es id : mirrors d es -> mirrors (Remove d id) (delete id es).
Proof.
  intros Hm i. rewrite remove_members, lookup_delete. destruct (decide (id = i)) as [->|].
  - by rewrite decide_True.
  - rewrite decide_False by done. apply Hm.
Qed.

(** * Updates of one entry *)

Lemma registry_ok_new : registry_ok NewCredentialRegistry.
Proof.
  split.
  - split; cbn.
    + intros g b H. by rewrite lookup_empty in H.
    + intros g id e H. unfold lookupEntry, bucketOf, mget in H. cbn in H. by rewrite !lookup_empty in H.
    + intros id g H. by rewrite lookup_empty in H.
  - intros id e H. unfold entryLocked in H. cbn in H. by rewrite lookup_empty in H.
  - intros id. rewrite entries_of_lookup. unfold entryLocked. cbn. by rewrite !lookup_empty.
  - apply ledger_ok_new.
Qed.

Lemma entryLocked_put e r id :
  index_ok r -> (forall g, credentialGroups r !! ent_ID e = Some g -> g = ent_GroupID e) ->
  entryLocked (putEntry e r) id = if decide (id = ent_ID e) then Some e else entryLocked r id.
Proof.
  intros Hix Hg. rewrite <- !entries_of_lookup. destruct (putEntry_ok e r Hix Hg) as [_ ->].
  rewrite lookup_insert. by repeat case_decide.
Qed.

(** Storing a valid entry and synchronising its member; [sync_with] is the entry whose view
    is synchronised, which may differ from the one stored in runtime fields only. *)
Lemma put_sync_ok e r now :
  registry_ok r -> (forall g, credentialGroups r !! ent_ID e = Some g -> g = ent_GroupID e) ->
  validateEntry e = Ok tt -> is_u64 (ent_ID e) -> registry_ok (syncEntry e now (putEntry e r)).
Proof.
  intros [Hix Hv Hm Hl] Hg Hve Hu. destruct (putEntry_ok e r Hix Hg) as [Hix' Hes].
  split.
  - destruct Hix'. by split.
  - intros id x. change (entryLocked (syncEntry e now (putEntry e r)) id) with (entryLocked (putEntry e r) id).
    rewrite entryLocked_put by done. case_decide; [|apply Hv]. intros; simplify_eq. done.
  - change (entries_of (syncEntry e now (putEntry e r))) with (entries_of (putEntry e r)).
    rewrite Hes. by apply mirrors_sync.
  - apply syncCredential_ok; [done|done|]. by apply validateEntry_id in Hve as [? _].
Qed.

Lemma put_same_ok r id e e' :
  registry_ok r -> entryLocked r id = Some e -> sameIdentity e' e -> validateEntry e' = Ok tt ->
  registry_ok (putEntry e' r).
Proof.
  intros Hok He Hs Hve. pose proof Hok as [Hix Hv Hm Hl].
  destruct (mutate_put r id e e' Hix He Hs) as (_ & _ & Hg).
  destruct (putEntry_ok e' r Hix Hg) as [Hix' Hes].
  assert (ent_ID e' = id) as Eid.
  { destruct Hs as (-> & _). by destruct (entryLocked_group r id e Hix He) as (_ & _ & ?). }
  split; [done| | |done].
  - intros i x. rewrite entryLocked_put by done. case_decide; [|apply Hv].
    intros; simplify_eq. split; [done|]. by apply (Hv (ent_ID x) e).
  - rewrite Hes. apply (mirrors_same _ _ e); [done| |done]. by rewrite entries_of_lookup, Eid.
Qed.

Lemma sync_same_ok r id e e' now :
  registry_ok r -> entryLocked r id = Some e -> sameIdentity e' e -> registry_ok (syncEntry e' now r).
Proof.
  intros [Hix Hv Hm Hl] He (E1 & E2 & E3). destruct (entryLocked_group r id e Hix He) as (_ & _ & Eid).
  destruct (Hv id e He) as [Hve Hu]. split.
  - destruct Hix. by split.
  - apply Hv.
  - intros i. change (entries_of (syncEntry e' now r)) with (entries_of r). cbn [scheduling syncEntry setScheduling].
    rewrite sync_members. cbn [view_ID runtimeView]. rewrite E1, Eid. case_decide; [|apply Hm].
    subst i. rewrite entries_of_lookup, He.
    pose proof (sync_matches (scheduling r) (runtimeView e') now) as H. cbn [view_ID view_GroupID view_IdentityGeneration runtimeView] in H.
    by rewrite E1, E2, E3, Eid in H.
  - apply syncCredential_ok; [done|cbn; by rewrite E1, Eid|]. cbn. rewrite E1. by apply validateEntry_id in Hve as [? _].
Qed.

(** The shape of most methods: find the entry, replace it by one of the same identity,
    optionally synchronise it. *)
Lemma mutate_ok r id e e' :
  registry_ok r -> entryLocked r id = Some e -> sameIdentity e' e -> validateEntry e' = Ok tt ->
  registry_ok (mutate id e' r).
Proof.
  intros Hok He Hs Hv. destruct (mutate_put r id e e' (rg_index r Hok) He Hs) as (-> & _ & _). by eapply put_same_ok.
Qed.

Lemma mutate_sync_ok r id e e' now :
  registry_ok r -> entryLocked r id = Some e -> sameIdentity e' e -> validateEntry e' = Ok tt ->
  registry_ok (syncEntry e' now (mutate id e' r)).
Proof.
  intros Hok He Hs Hv. destruct (mutate_put r id e e' (rg_index r Hok) He Hs) as (-> & _ & Hg).
  destruct (rg_valid r Hok id e He) as [_ Hu]. apply put_sync_ok; [done..|].
  destruct Hs as (-> & _). by destruct (entryLocked_group r id e (rg_index r Hok) He) as (_ & _ & ->).
Qed.

Lemma mutate_store r id e e' :
  registry_ok r -> entryLocked r id = Some e -> storeEntry (ent_GroupID e) id e' r = mutate id e' r.
Proof.
  intros Hok He. destruct (entryLocked_group r id e (rg_index r Hok) He) as (Hg & _). unfold mutate. by rewrite Hg.
Qed.

Lemma entryLocked_mutate r id e e' i :
  registry_ok r -> entryLocked r id = Some e -> sameIdentity e' e ->
  entryLocked (mutate id e' r) i = if decide (i = id) then Some e' else entryLocked r i.
Proof.
  intros Hok He Hs. destruct (mutate_put r id e e' (rg_index r Hok) He Hs) as (-> & _ & Hg).
  rewrite entryLocked_put by (done || apply Hok). destruct Hs as (-> & _).
  by destruct (entryLocked_group r id e (rg_index r Hok) He) as (_ & _ & ->).
Qed.

(** * Validity of the updated entries *)

Lemma validate_failure b c g e : validateEntry (withFailure b c g e) = validateEntry e.
Proof. by destruct e. Qed.
Lemma validate_name n e : validateEntry (withName n e) = validateEntry e.
Proof. by destruct e. Qed.
Lemma validate_cooldown t e : validateEntry (withCooldown t e) = validateEntry e.
Proof. by destruct e. Qed.
Lemma validate_models m g e : validateEntry (withModelCooldowns m g e) = validateEntry e.
Proof. by destruct e. Qed.
Lemma validate_quota q t e : validateEntry (withQuota q t e) = validateEntry e.
Proof. by destruct e. Qed.
Lemma validate_clone e : validateEntry (cloneCredentialEntry e) = validateEntry e.
Proof. apply validate_failure. Qed.
Lemma validate_preserve e p : validateEntry (preserveModelCooldowns e p) = validateEntry e.
Proof. unfold preserveModelCooldowns. destruct p; [|done]. case_if; apply validate_models. Qed.

#[export] Hint Rewrite validate_failure validate_name validate_cooldown validate_models validate_quota
  validate_clone validate_preserve : gohints.

Lemma validateEntry_spec e :
  validateEntry e = Ok tt <->
  ent_ID e <> 0 /\ ent_GroupID e <> 0 /\ statusValid (ent_Status e) = true /\ authValid (ent_AuthState e) = true
  /\ manualWeightValid (ent_WeightManual e) = true /\ ent_EncryptedValue e <> EmptyString
  /\ (ent_EncryptedProxy e = EmptyString <-> ent_ProxyFingerprint e = EmptyString)
  /\ ent_Version e <> 0 /\ ent_IdentityGeneration e <> 0 /\ TrimSpace (ent_Fingerprint e) <> EmptyString.
Proof.
  unfold validateEntry.
  repeat match goal with |- context [if ?b =? 0 then _ else _] => destruct (Z.eqb_spec b 0) end; try naive_solver;
  destruct (statusValid (ent_Status e)); cbn [negb]; try naive_solver;
  destruct (authValid (ent_AuthState e)); cbn [negb]; try naive_solver;
  destruct (manualWeightValid (ent_WeightManual e)); cbn [negb]; try naive_solver;
  repeat case_bool_decide; cbn [xorb]; naive_solver.
Qed.

Lemma validate_status s e : validateEntry e = Ok tt -> statusValid s = true -> validateEntry (withStatus s e) = Ok tt.
Proof. rewrite !validateEntry_spec. destruct e. cbn. tauto. Qed.
Lemma validate_weight w e : validateEntry e = Ok tt -> manualWeightValid w = true -> validateEntry (withWeight w e) = Ok tt.
Proof. rewrite !validateEntry_spec. destruct e. cbn. tauto. Qed.
Lemma validate_auth a e : validateEntry e = Ok tt -> authValid a = true -> validateEntry (withAuthState (authNormalize a) e) = Ok tt.
Proof. rewrite !validateEntry_spec. destruct e, a; cbn; naive_solver. Qed.
Lemma validate_secret v f s e :
  validateEntry e = Ok tt -> v <> 0 -> TrimSpace f <> EmptyString -> s <> EmptyString ->
  validateEntry (withSecret v f s e) = Ok tt.
Proof. rewrite !validateEntry_spec. destruct e. cbn. naive_solver. Qed.
#[export] Hint Resolve validate_status validate_weight validate_auth validate_secret : gohints.

(** * Every method preserves the invariant *)

(** One entry replaced by another of the same identity, with or without synchronisation. *)
Ltac solve_update Hok :=
  match goal with
  | |- context [entryLocked ?r ?id] =>
      let He := fresh "He" in let Hve := fresh "Hve" in let Hu := fresh "Hu" in
      destruct (entryLocked r id) as [?|] eqn:He; [|done];
      destruct (rg_valid r Hok _ _ He) as [Hve Hu];
      repeat case_if; cbn [fst snd]; try done;
      try (eapply mutate_sync_ok || eapply mutate_ok);
      try exact Hok; try exact He; eauto with gohints;
      autorewrite with gohints; eauto with gohints
  end.

Section Preservation.
Variable r : CredentialRegistry.
Hypothesis Hok : registry_ok r.

Lemma UpdateCredentialName_ok g id n : registry_ok (UpdateCredentialName r g id n).1.
Proof. unfold UpdateCredentialName. solve_update Hok. Qed.
Lemma SetCooldownWithChange_ok id t now : registry_ok (SetCooldownWithChange r id t now).1.
Proof. unfold SetCooldownWithChange. solve_update Hok. Qed.
Lemma SetCooldownWithChangeIfVersion_ok id v t now : registry_ok (SetCooldownWithChangeIfVersion r id v t now).1.
Proof. unfold SetCooldownWithChangeIfVersion. solve_update Hok. Qed.
Lemma ClearCooldownIfMatch_ok id t now : registry_ok (ClearCooldownIfMatch r id t now).1.
Proof. unfold ClearCooldownIfMatch. case_if; [done|]. solve_update Hok. Qed.
Lemma SetBlacklistedWithChange_ok id now : registry_ok (SetBlacklistedWithChange r id now).1.
Proof. unfold SetBlacklistedWithChange. solve_update Hok. Qed.
Lemma RestoreRuntimeState_ok id now : registry_ok (RestoreRuntimeState r id now).1.
Proof. unfold RestoreRuntimeState. solve_update Hok. Qed.
Lemma IncrFailure_ok id : registry_ok (IncrFailure r id).1.
Proof. unfold IncrFailure. solve_update Hok. Qed.
Lemma ClearFailure_ok id : registry_ok (ClearFailure r id).1.
Proof. unfold ClearFailure. solve_update Hok. Qed.
Lemma Recover_ok id now : registry_ok (Recover r id now).1.
Proof. unfold Recover. solve_update Hok. Qed.
Lemma ModelCooldownsOf_ok id now : registry_ok (ModelCooldownsOf r id now).1.
Proof. unfold ModelCooldownsOf. solve_update Hok. Qed.
Lemma ClearModelCooldowns_ok id : registry_ok (ClearModelCooldowns r id).1.
Proof. unfold ClearModelCooldowns. solve_update Hok. Qed.
Lemma SetModelCooldown_ok ref m t now : registry_ok (SetModelCooldown r ref m t now).1.
Proof. unfold SetModelCooldown. destruct (_ || _); [done|]. solve_update Hok. Qed.
Lemma SetQuota_ok id q t : registry_ok (SetCredentialQuotaObservation r id q t).1.
Proof. unfold SetCredentialQuotaObservation. do 2 (case_if; [done|]). solve_update Hok. Qed.
Lemma ApplyQuotaWindows_ok id ws : registry_ok (ApplyQuotaWindows r id ws).1.
Proof.
  unfold ApplyQuotaWindows. case_if; [done|]. destruct (fold_left _ _ _) as [[x|] t]; [case_if|]; apply SetQuota_ok.
Qed.

Lemma ReplaceSecret_ok id v v' f s : 0 <= v -> registry_ok (ReplaceCredentialSecretIfMatch r id v v' f s).1.
Proof.
  intros Hv. unfold ReplaceCredentialSecretIfMatch. destruct (_ || _) eqn:E; [done|]. zb.
  repeat match goal with H : bool_decide _ = false |- _ => apply bool_decide_eq_false in H end.
  solve_update Hok. apply validate_secret; [done|lia|done|done].
Qed.

Lemma SetCredentialAuthState_ok id a now : registry_ok (SetCredentialAuthState r id a now).1.
Proof.
  unfold SetCredentialAuthState. destruct (authValid a) eqn:Ea; cbn [negb]; [|done].
  destruct (entryLocked r id) as [e|] eqn:He; [|done]. destruct (rg_valid r Hok _ _ He) as [Hve Hu].
  cbn [fst]. eapply (mutate_ok _ id e).
  - eapply sync_same_ok; eauto with gohints.
  - exact He.
  - case_bool_decide; eauto with gohints.
  - case_bool_decide; autorewrite with gohints; eauto with gohints.
Qed.

Lemma UpdateCredentialConfig_ok id s w now r' :
  UpdateCredentialConfig r id s w now = Ok r' -> registry_ok r'.
Proof.
  unfold UpdateCredentialConfig. destruct (statusValid s) eqn:Es; cbn [negb]; [|done].
  destruct (manualWeightValid w) eqn:Ew; cbn [negb]; [|done].
  destruct (entryLocked r id) as [e|] eqn:He; [|done]. destruct (rg_valid r Hok _ _ He) as [Hve Hu].
  intros [= <-]. eapply mutate_sync_ok; [done|exact He|eauto with gohints..].
Qed.

(** A status update succeeds on every indexed credential: the entry pointer is not nil. *)
Lemma status_store g id s now :
  statusValid s = true -> credentialGroups r !! id = Some g ->
  exists e, lookupEntry r g id = Some e
    /\ registry_ok (syncEntry (withStatus s e) now (storeEntry g id (withStatus s e) r)).
Proof.
  intros Hs Hg. destruct (ix_group r (rg_index r Hok) _ _ Hg) as [e He]. exists e. split; [done|].
  destruct (ix_entry r (rg_index r Hok) _ _ _ He) as (_ & Eg & _).
  assert (entryLocked r id = Some e) as Hel by (unfold entryLocked; by rewrite Hg).
  rewrite <- Eg, (mutate_store r id e) by done.
  destruct (rg_valid r Hok _ _ Hel) as [Hve Hu]. eapply mutate_sync_ok; eauto with gohints.
Qed.

Lemma restoreIfMatch_ok ref c now : registry_ok (restoreRuntimeStateIfMatch r ref c now).1.
Proof.
  unfold restoreRuntimeStateIfMatch. destruct (credentialGroups r !! ref_ID ref) as [g|] eqn:Hg; [|done].
  case_if; [done|]. destruct (lookupEntry r g (ref_ID ref)) as [e|] eqn:He; [|done].
  case_if; [done|]. cbn [fst].
  assert (entryLocked r (ref_ID ref) = Some e) as Hel by (unfold entryLocked; by rewrite Hg).
  destruct (ix_entry r (rg_index r Hok) _ _ _ He) as (_ & Eg & _). rewrite <- Eg, (mutate_store r (ref_ID ref) e) by done.
  destruct (rg_valid r Hok _ _ Hel) as [Hve Hu].
  eapply mutate_sync_ok; [done|exact Hel|case_if; eauto with gohints|].
  case_if; autorewrite with gohints; done.
Qed.
End Preservation.
