(* ===== verification/RegistryReach.v ===== *)
(** The methods of the registry that change several credentials at once: import,
    replacement, reconciliation, removal, restoring.  Together with [RegistryInvariant]
    this covers every method, so the invariant holds in every reachable state. *)
From S2P Require Import Prelude GoStrings Config Credential Ledger Fair FairShare Checkpoint Registry RegistryInvariant.

Local Open Scope Z_scope.

(** * Synchronising a set of members *)

Lemma syncAll_members d views clock :
  NoDup (view_ID <$> views) ->
  (forall v, v ∈ views -> memberMatches (Members (syncAll d views clock) !! view_ID v)
                            (view_GroupID v) (view_IdentityGeneration v) = true)
  /\ (forall id, id ∉ view_ID <$> views -> Members (syncAll d views clock) !! id = Members d !! id).
Proof.
  unfold syncAll. revert d. induction views as [|v views IH]; intros d Hnd.
  { split; [intros v Hv; by apply not_elem_of_nil in Hv|done]. }
  rewrite fmap_cons, NoDup_cons in Hnd. destruct Hnd as [Hv Hnd]. cbn [fold_left].
  fold (SyncCredential d v (clock (view_ID v))). destruct (IH (SyncCredential d v (clock (view_ID v))) Hnd) as [Hin Hout].
  split.
  - intros x [->|Hx]%elem_of_cons; [|by apply Hin]. rewrite Hout by done. apply sync_matches.
  - intros id. rewrite fmap_cons, not_elem_of_cons. intros [Hne Hid]. rewrite Hout by done.
    rewrite sync_members. by rewrite decide_False.
Qed.

Lemma remove_fold_members ids d id :
  Members (fold_left removeLocked ids d) !! id = if decide (id ∈ ids) then None else Members d !! id.
Proof.
  revert d. induction ids as [|x ids IH]; intros d; cbn [fold_left].
  { by rewrite decide_False by apply not_elem_of_nil. }
  rewrite IH. fold (Remove d x). rewrite remove_members.
  destruct (decide (id ∈ ids)); [by rewrite decide_True by set_solver|].
  destruct (decide (id = x)); [rewrite decide_True by set_solver|rewrite decide_False by set_solver]; done.
Qed.

Lemma SyncCredentials_members d g views clock :
  NoDup (view_ID <$> views) ->
  (forall v, v ∈ views -> memberMatches (Members (SyncCredentials d g views clock) !! view_ID v)
                            (view_GroupID v) (view_IdentityGeneration v) = true)
  /\ (forall id, id ∉ view_ID <$> views -> Members (SyncCredentials d g views clock) !! id
        = match Members d !! id with
          | Some m => if decide (g <> 0 /\ mem_GroupID m <> g) then Some m else None
          | None => None
          end).
Proof.
  intros Hnd. destruct (syncAll_members d views clock Hnd) as [Hin Hout].
  unfold SyncCredentials. set (d1 := syncAll d views clock) in *.
  set (dropped := filter _ _).
  assert (forall id, id ∈ dropped.*1 <-> exists m, Members d1 !! id = Some m
            /\ ~ (g <> 0 /\ mem_GroupID m <> g) /\ id ∉ view_ID <$> views) as Hdrop.
  { intros id. subst dropped. rewrite list_elem_of_fmap. setoid_rewrite list_elem_of_filter. split.
    - intros ([i m] & -> & (Hc & Hs) & Hm%elem_of_map_to_list). cbn in *. exists m. set_solver.
    - intros (m & Hm & Hc & Hs). exists (id, m). split; [done|]. split; [|by apply elem_of_map_to_list].
      cbn. set_solver. }
  split.
  - intros v Hv. rewrite remove_fold_members, decide_False; [by apply Hin|].
    rewrite Hdrop. intros (m & _ & _ & Hn). apply Hn. by apply list_elem_of_fmap_2.
  - intros id Hid. rewrite remove_fold_members. specialize (Hout id Hid).
    destruct (decide (id ∈ dropped.*1)) as [Hd|Hd].
    + apply Hdrop in Hd as (m & Hm & Hc & _). rewrite <- Hout, Hm. by rewrite decide_False.
    + rewrite Hout. destruct (Members d !! id) as [m|]; [|done].
      destruct (decide _) as [|Hc]; [done|]. destruct Hd. apply Hdrop. eauto.
Qed.

(** * Storing a list of entries *)

(** Every entry is stored as [f old e], where [old] is the entry it replaces. *)
Definition putAll (f : option CredentialEntry -> CredentialEntry -> CredentialEntry) (clock : Z -> Z)
    (r : CredentialRegistry) (es : list CredentialEntry) : CredentialRegistry :=
  fold_left (fun r e => let x := f (lookupEntry r (ent_GroupID e) (ent_ID e)) e in
                        syncEntry x (clock (ent_ID e)) (putEntry x r)) es r.

Definition keeps_identity (f : option CredentialEntry -> CredentialEntry -> CredentialEntry) : Prop :=
  forall o e, sameIdentity (f o e) e /\ validateEntry (f o e) = validateEntry e.

Definition placeable (r : CredentialRegistry) (e : CredentialEntry) : Prop :=
  validateEntry e = Ok tt /\ is_u64 (ent_ID e)
  /\ forall g, credentialGroups r !! ent_ID e = Some g -> g = ent_GroupID e.

Lemma lookup_placeable r e :
  registry_ok r -> placeable r e -> lookupEntry r (ent_GroupID e) (ent_ID e) = entryLocked r (ent_ID e).
Proof.
  intros Hok (_ & _ & Hg). unfold entryLocked. destruct (credentialGroups r !! ent_ID e) as [g|] eqn:E.
  - by rewrite (Hg g).
  - destruct (lookupEntry r (ent_GroupID e) (ent_ID e)) as [x|] eqn:Hx; [|done].
    destruct (ix_entry r (rg_index r Hok) _ _ _ Hx) as (_ & _ & ?). congruence.
Qed.

Lemma put_step f clock r e :
  keeps_identity f -> registry_ok r -> placeable r e ->
  let x := f (lookupEntry r (ent_GroupID e) (ent_ID e)) e in
  let r' := syncEntry x (clock (ent_ID e)) (putEntry x r) in
  registry_ok r' /\ credentialGroups r' = <[ent_ID e := ent_GroupID e]> (credentialGroups r)
  /\ forall id, entryLocked r' id
       = if decide (id = ent_ID e) then Some (f (entryLocked r (ent_ID e)) e) else entryLocked r id.
Proof.
  intros Hf Hok Hp. pose proof Hp as (Hv & Hu & Hg). cbv zeta.
  rewrite (lookup_placeable r e) by done. set (x := f _ e). destruct (Hf (entryLocked r (ent_ID e)) e) as [(E1 & E2 & _) Ev].
  fold x in E1, E2, Ev. assert (forall g, credentialGroups r !! ent_ID x = Some g -> g = ent_GroupID x) as Hgx
    by (rewrite E1, E2; done).
  split; [|split].
  - apply put_sync_ok; [done|done|by rewrite Ev|by rewrite E1].
  - cbn. by rewrite E1, E2.
  - intros id. change (entryLocked (syncEntry x (clock (ent_ID e)) (putEntry x r)) id) with (entryLocked (putEntry x r) id).
    rewrite entryLocked_put by (done || apply Hok). by rewrite E1.
Qed.

Lemma putAll_ok f clock r es :
  keeps_identity f -> registry_ok r -> NoDup (ent_ID <$> es) -> Forall (placeable r) es ->
  registry_ok (putAll f clock r es)
  /\ (forall e, e ∈ es -> entryLocked (putAll f clock r es) (ent_ID e) = Some (f (entryLocked r (ent_ID e)) e))
  /\ (forall id, id ∉ ent_ID <$> es -> entryLocked (putAll f clock r es) id = entryLocked r id).
Proof.
  intros Hf. unfold putAll. revert r. induction es as [|e es IH]; intros r Hok Hnd Hpl.
  { split; [done|]. split; [intros e He; by apply not_elem_of_nil in He|done]. }
  rewrite fmap_cons, NoDup_cons in Hnd. destruct Hnd as [He Hnd]. apply Forall_cons in Hpl as [Hp Hpl].
  cbn [fold_left]. destruct (put_step f clock r e Hf Hok Hp) as (Hok1 & Hgr & Hent). cbv zeta in Hok1, Hgr, Hent.
  set (r1 := syncEntry _ _ _) in *.
  assert (forall x, x ∈ es -> ent_ID x <> ent_ID e) as Hne.
  { intros x Hx E. apply He. rewrite <- E. by apply list_elem_of_fmap_2. }
  destruct (IH r1 Hok1 Hnd) as (Hok2 & Hin & Hout).
  { rewrite Forall_forall in *. intros x Hx. destruct (Hpl x Hx) as (Hv & Hu & Hg). split; [done|]. split; [done|].
    intros g. rewrite Hgr, lookup_insert_ne by (apply not_eq_sym; auto). apply Hg. }
  split; [done|]. split.
  - intros x [->|Hx]%elem_of_cons.
    + rewrite Hout, Hent by done. by rewrite decide_True.
    + rewrite Hin, Hent by done. by rewrite decide_False by auto.
  - intros id. rewrite fmap_cons, not_elem_of_cons. intros [Hn Hid]. rewrite Hout, Hent by done. by rewrite decide_False.
Qed.

(** The guards of the group methods, as one condition on the entries. *)
Definition group_entries_ok (r : CredentialRegistry) (g : Z) (es : list CredentialEntry) : Prop :=
  ValidateCredentialEntries es = Ok tt /\ entriesOfGroup g es = Ok tt /\ notElsewhere r g es = Ok tt.

Definition typed_entries (es : list CredentialEntry) : Prop := Forall (fun e => is_u64 (ent_ID e)) es.

Lemma group_entries_placeable r g es :
  typed_entries es -> group_entries_ok r g es ->
  NoDup (ent_ID <$> es) /\ Forall (placeable r) es /\ Forall (fun e => ent_GroupID e = g) es.
Proof.
  intros Hu ([Hv Hnd]%Validate_ok & Hg%entriesOfGroup_ok & He%notElsewhere_ok).
  split; [done|]. split; [|done]. unfold typed_entries in Hu. rewrite Forall_forall in *.
  intros e Hin. split; [auto|]. split; [auto|]. intros g' Hg'. rewrite (Hg e Hin). by apply (He e).
Qed.

Definition importEntry (o : option CredentialEntry) (e : CredentialEntry) : CredentialEntry :=
  preserveModelCooldowns (cloneCredentialEntry e) o.

Lemma importEntry_keeps : keeps_identity importEntry.
Proof.
  intros o e. unfold importEntry. split; [eauto with gohints|]. by autorewrite with gohints.
Qed.

Lemma exact_keeps : keeps_identity (fun _ e => e).
Proof. by split. Qed.

Lemma import_putAll g clock es r :
  Forall (fun e => ent_GroupID e = g) es ->
  fold_left (importStep g clock) es r = putAll importEntry clock r es.
Proof.
  unfold putAll. revert r. induction es as [|e es IH]; intros r Hg; [done|]. apply Forall_cons in Hg as [Eg Hg].
  subst g. cbn [fold_left]. rewrite <- IH by done.
  destruct (importEntry_keeps (lookupEntry r (ent_GroupID e) (ent_ID e)) e) as [(E1 & E2 & _) _].
  assert (importStep (ent_GroupID e) clock r e
          = let x := importEntry (lookupEntry r (ent_GroupID e) (ent_ID e)) e in
            syncEntry x (clock (ent_ID e)) (putEntry x r)) as ->; [|done].
  unfold importStep, putEntry. cbv zeta. by rewrite E1, E2.
Qed.

Lemma restoreExact_putAll g clock es r :
  Forall (fun e => ent_GroupID e = g) es ->
  fold_left (restoreExactStep g clock) es r = putAll (fun _ e => e) clock r es.
Proof.
  unfold putAll. revert r. induction es as [|e es IH]; intros r Hg; [done|]. apply Forall_cons in Hg as [Eg Hg].
  subst g. cbn [fold_left]. by rewrite <- IH by done.
Qed.

Lemma ApplyCredentialImport_Ok r g es clock r' :
  ApplyCredentialImport r g es clock = Ok r' ->
  g <> 0 /\ group_entries_ok r g es /\ r' = fold_left (importStep g clock) es r.
Proof.
  unfold ApplyCredentialImport, group_entries_ok. case_if; [done|].
  destruct (ValidateCredentialEntries es) as [[]|]; [|done]. destruct (entriesOfGroup g es) as [[]|]; [|done].
  destruct (notElsewhere r g es) as [[]|]; [|done]. intros [= <-]. done.
Qed.

Lemma RestoreExact_Ok r g es clock r' :
  RestoreGroupCredentialEntriesExact r g es clock = Ok r' ->
  g <> 0 /\ es <> [] /\ group_entries_ok r g es /\ r' = fold_left (restoreExactStep g clock) es r.
Proof.
  unfold RestoreGroupCredentialEntriesExact, group_entries_ok. case_if; [done|]. destruct es as [|e es]; [done|].
  destruct (ValidateCredentialEntries _) as [[]|]; [|done]. destruct (entriesOfGroup g _) as [[]|]; [|done].
  destruct (notElsewhere r g _) as [[]|]; [|done]. intros [= <-]. done.
Qed.

Lemma ApplyCredentialImport_ok r g es clock r' :
  registry_ok r -> typed_entries es -> ApplyCredentialImport r g es clock = Ok r' -> registry_ok r'.
Proof.
  intros Hok Hu (_ & Hes & ->)%ApplyCredentialImport_Ok.
  destruct (group_entries_placeable r g es Hu Hes) as (Hnd & Hpl & Hg).
  rewrite import_putAll by done. by apply putAll_ok; [apply importEntry_keeps|..].
Qed.

Lemma RestoreExact_ok r g es clock r' :
  registry_ok r -> typed_entries es -> RestoreGroupCredentialEntriesExact r g es clock = Ok r' -> registry_ok r'.
Proof.
  intros Hok Hu (_ & _ & Hes & ->)%RestoreExact_Ok.
  destruct (group_entries_placeable r g es Hu Hes) as (Hnd & Hpl & Hg).
  rewrite restoreExact_putAll by done. by apply putAll_ok; [apply exact_keeps|..].
Qed.

(** * Changing entries in place, keys unchanged *)

Definition mapEntries (f : Z -> Z -> CredentialEntry -> CredentialEntry) (b : gmap Z (gmap Z CredentialEntry))
  : gmap Z (gmap Z CredentialEntry) :=
  map_imap (fun g bucket => Some (map_imap (fun id e => Some (f g id e)) bucket)) b.

Lemma mapEntries_lookup f r d g id :
  lookupEntry (mkRegistry (mapEntries f (buckets r)) (credentialGroups r) d) g id = f g id <$> lookupEntry r g id.
Proof.
  unfold lookupEntry, bucketOf, mget, mapEntries. cbn. rewrite map_lookup_imap.
  destruct (buckets r !! g) as [b|]; cbn; [|by rewrite !lookup_empty].
  rewrite map_lookup_imap. by destruct (b !! id).
Qed.

Lemma mapEntries_index f r d :
  index_ok r -> (forall g id e, sameIdentity (f g id e) e) ->
  let r' := mkRegistry (mapEntries f (buckets r)) (credentialGroups r) d in
  index_ok r' /\ forall id, entryLocked r' id = (fun e => f (ent_GroupID e) id e) <$> entryLocked r id.
Proof.
  intros Hix Hf. cbv zeta. split.
  - split.
    + intros g b. cbn. unfold mapEntries. rewrite map_lookup_imap.
      destruct (buckets r !! g) as [b0|] eqn:E; [|done]. cbn. intros [= <-] He.
      apply (ix_bucket r Hix g b0 E). apply map_eq. intros i. rewrite lookup_empty.
      apply (f_equal (.!! i)) in He. rewrite map_lookup_imap, lookup_empty in He. by destruct (b0 !! i).
    + intros g id e. rewrite mapEntries_lookup. destruct (lookupEntry r g id) as [e0|] eqn:E; [|done].
      cbn. intros [= <-]. destruct (Hf g id e0) as (-> & -> & _). by apply (ix_entry r Hix).
    + intros id g Hg. rewrite mapEntries_lookup. destruct (ix_group r Hix id g Hg) as [e ->]. by eexists.
  - intros id. unfold entryLocked. cbn [credentialGroups]. destruct (credentialGroups r !! id) as [g|] eqn:E; [|done].
    rewrite mapEntries_lookup. destruct (lookupEntry r g id) as [e|] eqn:He; [|done].
    destruct (ix_entry r Hix _ _ _ He) as (_ & Eg & _). cbn. by rewrite Eg.
Qed.

Lemma Expire_mapEntries r now :
  ExpireModelCooldowns r now
  = mkRegistry (mapEntries (fun _ _ => expireEntry now) (buckets r)) (credentialGroups r) (scheduling r).
Proof.
  unfold ExpireModelCooldowns, mapEntries. f_equal. apply map_eq. intros g.
  rewrite lookup_fmap, map_lookup_imap. destruct (buckets r !! g) as [b|]; [|done]. cbn. f_equal.
  apply map_eq. intros i. rewrite lookup_fmap, map_lookup_imap. by destruct (b !! i).
Qed.

Lemma expireEntry_identity now e : sameIdentity (expireEntry now e) e.
Proof. apply withModelCooldowns_identity. Qed.

Lemma Expire_entries r now id :
  index_ok r -> entryLocked (ExpireModelCooldowns r now) id = expireEntry now <$> entryLocked r id.
Proof.
  intros Hix. rewrite Expire_mapEntries.
  apply (proj2 (mapEntries_index (fun _ _ => expireEntry now) r _ Hix (fun _ _ => expireEntry_identity now))).
Qed.

Lemma Expire_ok r now : registry_ok r -> registry_ok (ExpireModelCooldowns r now).
Proof.
  intros [Hix Hv Hm Hl]. split; [| | |done].
  - rewrite Expire_mapEntries. apply mapEntries_index; [done|]. intros _ _. apply expireEntry_identity.
  - intros id e. rewrite Expire_entries by done. destruct (entryLocked r id) as [x|] eqn:E; [|done].
    cbn. intros [= <-]. unfold expireEntry. autorewrite with gohints. by apply Hv.
  - intros id. specialize (Hm id). rewrite entries_of_lookup in Hm |- *. rewrite Expire_entries by done.
    destruct (entryLocked r id) as [x|]; [|done]. cbn. by destruct (expireEntry_identity now x) as (_ & -> & ->).
Qed.

(** * Replacing every credential *)

(** A ledger synchronised with the views of a whole set of entries mirrors them. *)
Lemma mirrors_replace d (es : gmap Z CredentialEntry) views clock :
  NoDup (view_ID <$> views) ->
  (forall id e, es !! id = Some e -> exists v, v ∈ views /\ view_ID v = id
     /\ view_GroupID v = ent_GroupID e /\ view_IdentityGeneration v = ent_IdentityGeneration e) ->
  (forall id, es !! id = None -> id ∉ view_ID <$> views) ->
  mirrors (SyncCredentials d 0 views clock) es.
Proof.
  intros Hnd Hin Hout id. destruct (SyncCredentials_members d 0 views clock Hnd) as [Hs Hn].
  destruct (es !! id) as [e|] eqn:E.
  - destruct (Hin id e E) as (v & Hv & <- & <- & <-). by apply Hs.
  - rewrite Hn by auto. destruct (Members d !! id); [|done]. by rewrite decide_False by naive_solver.
Qed.

(** The buckets and the index built from a list of entries. *)
Definition built (es : list CredentialEntry) : CredentialRegistry :=
  mkRegistry (buildBuckets es) (buildGroups es) NewSchedulingState.

Lemma built_fold es :
  built es = fold_left (fun r e => putEntry (cloneCredentialEntry e) r) es NewCredentialRegistry.
Proof.
  unfold built, buildBuckets, buildGroups, NewCredentialRegistry.
  generalize (∅ : gmap Z (gmap Z CredentialEntry)) (∅ : gmap Z Z).
  induction es as [|e es IH]; intros b m; [done|]. cbn [fold_left].
  rewrite IH. f_equal. unfold putEntry, storeEntry, bucketOf. cbn.
  by destruct (clone_identity e) as (-> & -> & _).
Qed.

Lemma built_ok es :
  NoDup (ent_ID <$> es) ->
  index_ok (built es)
  /\ (forall e, e ∈ es -> entryLocked (built es) (ent_ID e) = Some (cloneCredentialEntry e))
  /\ (forall id, id ∉ ent_ID <$> es -> entryLocked (built es) id = None).
Proof.
  intros Hnd. rewrite built_fold.
  assert (forall r, index_ok r -> (forall e, e ∈ es -> credentialGroups r !! ent_ID e = None) ->
    let r' := fold_left (fun r e => putEntry (cloneCredentialEntry e) r) es r in
    index_ok r' /\ (forall e, e ∈ es -> entryLocked r' (ent_ID e) = Some (cloneCredentialEntry e))
    /\ (forall id, id ∉ ent_ID <$> es -> entryLocked r' id = entryLocked r id)) as H.
  { induction es as [|e es IH]; intros r Hix Hfresh; cbn [fold_left].
    { split; [done|]. split; [intros e He; by apply not_elem_of_nil in He|done]. }
    rewrite fmap_cons, NoDup_cons in Hnd. destruct Hnd as [He Hnd].
    destruct (clone_identity e) as (E1 & E2 & _).
    assert (forall g, credentialGroups r !! ent_ID (cloneCredentialEntry e) = Some g
                      -> g = ent_GroupID (cloneCredentialEntry e)) as Hg.
    { intros g. rewrite E1, (Hfresh e) by constructor. done. }
    destruct (putEntry_ok _ r Hix Hg) as [Hix1 _].
    destruct (IH Hnd (putEntry (cloneCredentialEntry e) r) Hix1) as (Hix2 & Hin & Hout).
    { intros x Hx. cbn. rewrite E1, lookup_insert_ne; [apply Hfresh; by constructor|].
      intros E. apply He. rewrite E. by apply list_elem_of_fmap_2. }
    split; [done|]. split.
    - intros x [->|Hx]%elem_of_cons; [|by apply Hin]. rewrite Hout by done.
      rewrite entryLocked_put by done. by rewrite decide_True.
    - intros id. rewrite fmap_cons, not_elem_of_cons. intros [Hne Hid]. rewrite Hout by done.
      rewrite entryLocked_put by done. by rewrite decide_False by congruence. }
  destruct (H NewCredentialRegistry (rg_index _ registry_ok_new)) as (H1 & H2 & H3).
  { intros e _. cbn. apply lookup_empty. }
  split; [done|]. split; [done|]. intros id Hid. rewrite H3 by done. unfold entryLocked. cbn. by rewrite lookup_empty.
Qed.

Lemma ReplaceCredentials_entries r es clock r' :
  ReplaceCredentials r es clock = Ok r' ->
  index_ok r' /\ ValidateCredentialEntries es = Ok tt
  /\ (forall e, e ∈ es -> entryLocked r' (ent_ID e)
        = Some (importEntry (lookupEntry r (ent_GroupID e) (ent_ID e)) e))
  /\ (forall id, id ∉ ent_ID <$> es -> entryLocked r' id = None)
  /\ scheduling r' = SyncCredentials (scheduling r) 0 (runtimeView <$> es) clock.
Proof.
  unfold ReplaceCredentials. destruct (ValidateCredentialEntries es) as [[]|] eqn:Hv; [|done]. intros [= <-].
  apply Validate_ok in Hv as Hv'. destruct Hv' as [_ Hnd]. destruct (built_ok es Hnd) as (Hix & Hin & Hout).
  destruct (mapEntries_index (fun g id e => preserveModelCooldowns e (lookupEntry r g id)) (built es)
    (SyncCredentials (scheduling r) 0 (runtimeView <$> es) clock) Hix) as [Hix' He'].
  { intros. apply preserve_identity. }
  cbv zeta in He'. split; [exact Hix'|]. split; [done|]. split; [|split; [|done]].
  - intros e He. etransitivity; [apply He'|]. rewrite Hin by done. cbn. unfold importEntry.
    by destruct (clone_identity e) as (_ & -> & _).
  - intros id Hid. etransitivity; [apply He'|]. by rewrite Hout.
Qed.

Lemma ReplaceCredentials_ok r es clock r' :
  registry_ok r -> typed_entries es -> ReplaceCredentials r es clock = Ok r' -> registry_ok r'.
Proof.
  intros Hok Hu H. destruct (ReplaceCredentials_entries r es clock r' H) as (Hix & Hv & Hin & Hout & Hsch).
  apply Validate_ok in Hv as [Hve Hnd].
  assert (forall id, id ∈ ent_ID <$> es \/ entryLocked r' id = None) as Hcase.
  { intros id. destruct (decide (id ∈ ent_ID <$> es)); [by left|right; by apply Hout]. }
  unfold typed_entries in Hu. rewrite Forall_forall in Hve, Hu. split; [done| | |].
  - intros id e He. destruct (Hcase id) as [(x & -> & Hx)%list_elem_of_fmap|]; [|congruence].
    rewrite Hin in He by done. simplify_eq. split; [|auto]. unfold importEntry. autorewrite with gohints. auto.
  - rewrite Hsch. apply mirrors_replace.
    + by rewrite <- list_fmap_compose.
    + intros id e. rewrite entries_of_lookup. intros He.
      destruct (Hcase id) as [(x & -> & Hx)%list_elem_of_fmap|]; [|congruence].
      rewrite Hin in He by done. simplify_eq. exists (runtimeView x). split; [by apply list_elem_of_fmap_2|].
      by destruct (importEntry_keeps (lookupEntry r (ent_GroupID x) (ent_ID x)) x) as [(_ & -> & ->) _].
    + intros id. rewrite entries_of_lookup, <- list_fmap_compose. intros Hn (x & -> & Hx)%list_elem_of_fmap.
      cbn in Hn. by rewrite Hin in Hn.
  - rewrite Hsch. apply SyncCredentials_ok; [apply Hok|]. intros v (e & -> & He)%list_elem_of_fmap. cbn.
    split; [auto|]. by apply (validateEntry_id e), Hve.
Qed.
