(* ===== verification/RegistryGroups.v ===== *)
(** Group reconciliation and removal in the registry, and the transition system of every
    registry method. *)
From S2P Require Import Prelude GoStrings Config Credential Ledger Fair FairShare Checkpoint Registry RegistryInvariant RegistryReach.

Local Open Scope Z_scope.

(** * Reconciliation *)

Lemma reconcileBucket_lookup prev es :
  NoDup (ent_ID <$> es) ->
  (forall e, e ∈ es -> reconcileBucket prev es !! ent_ID e = Some (reconcileEntry prev e))
  /\ (forall id, id ∉ ent_ID <$> es -> reconcileBucket prev es !! id = None).
Proof.
  unfold reconcileBucket. intros Hnd.
  assert (forall m : gmap Z CredentialEntry,
    (forall e, e ∈ es -> fold_left (fun m e => <[ent_ID e := reconcileEntry prev e]> m) es m !! ent_ID e
       = Some (reconcileEntry prev e))
    /\ (forall id, id ∉ ent_ID <$> es ->
         fold_left (fun m e => <[ent_ID e := reconcileEntry prev e]> m) es m !! id = m !! id)) as H.
  { induction es as [|e es IH]; intros m; [split; [intros e He; by apply not_elem_of_nil in He|done]|].
    rewrite fmap_cons, NoDup_cons in Hnd. destruct Hnd as [He Hnd]. cbn [fold_left].
    destruct (IH Hnd (<[ent_ID e := reconcileEntry prev e]> m)) as [Hin Hout]. split.
    - intros x [->|Hx]%elem_of_cons; [|by apply Hin]. by rewrite Hout, lookup_insert_eq.
    - intros id. rewrite fmap_cons, not_elem_of_cons. intros [Hn Hid]. by rewrite Hout, lookup_insert_ne by congruence. }
  destruct (H ∅) as [H1 H2]. split; [done|]. intros id Hid. rewrite H2 by done. apply lookup_empty.
Qed.

Lemma same_identity_config l r0 : samePersistedCredentialConfig l r0 = true -> sameIdentity l r0.
Proof.
  unfold samePersistedCredentialConfig, sameIdentity. intros H. zb.
  repeat match goal with H : bool_decide _ = true |- _ => apply bool_decide_eq_true in H end. done.
Qed.

Lemma reconcileEntry_identity prev e : sameIdentity (reconcileEntry prev e) e.
Proof.
  unfold reconcileEntry. destruct (prev !! ent_ID e) as [x|]; [|eauto with gohints].
  destruct (samePersistedCredentialConfig x e) eqn:E; [|eauto with gohints].
  etrans; [apply withName_identity|]. by apply same_identity_config.
Qed.

(** The registry after a reconciliation, both for an empty and a non-empty bucket. *)
Lemma reconcileWith_lookup r g next clock :
  let r' := reconcileWith r g next clock in
  (forall g' id, lookupEntry r' g' id = if decide (g' = g) then next !! id else lookupEntry r g' id)
  /\ (forall id, credentialGroups r' !! id
        = match next !! id with
          | Some _ => Some g
          | None => if decide (lookupEntry r g id = None) then credentialGroups r !! id else None
          end).
Proof.
  cbv zeta. unfold reconcileWith, syncSchedulingGroupLocked. set (groups := filter _ _).
  assert (forall id, groups !! id = if decide (lookupEntry r g id = None) then credentialGroups r !! id else None) as Hgr.
  { intros id. subst groups. rewrite map_lookup_filter. destruct (credentialGroups r !! id) as [x|]; cbn.
    - unfold lookupEntry. destruct (decide (bucketOf r g !! id = None)); [by rewrite option_guard_True|by rewrite option_guard_False].
    - by destruct (decide _). }
  destruct (Nat.eqb_spec (size next) 0) as [E|E].
  - apply map_size_empty_iff in E as ->. split.
    + intros g' id. unfold lookupEntry, bucketOf, mget. cbn. rewrite lookup_delete.
      destruct (decide (g = g')) as [->|]; [by rewrite decide_True|by rewrite decide_False].
    + intros id. cbn. by rewrite lookup_empty, Hgr.
  - split.
    + intros g' id. unfold lookupEntry, bucketOf, mget. cbn. rewrite lookup_insert.
      destruct (decide (g = g')) as [->|]; [by rewrite decide_True|by rewrite decide_False].
    + intros id. cbn. rewrite lookup_union, lookup_fmap, Hgr.
      by destruct (next !! id), (decide _), (credentialGroups r !! id).
Qed.

Lemma reconcileWith_buckets r g next clock g' b :
  buckets (reconcileWith r g next clock) !! g' = Some b -> (g' = g /\ b = next /\ next <> ∅) \/ buckets r !! g' = Some b.
Proof.
  unfold reconcileWith, syncSchedulingGroupLocked. destruct (Nat.eqb_spec (size next) 0) as [E|E]; cbn.
  - intros [_ H]%lookup_delete_Some. by right.
  - intros [[-> ->]|[_ H]]%lookup_insert_Some; [left|by right]. split; [done|]. split; [done|]. intros ->. by apply E.
Qed.

Lemma reconcileWith_entries r g next clock :
  registry_ok r ->
  (forall id e, next !! id = Some e -> ent_ID e = id /\ ent_GroupID e = g
     /\ forall g', credentialGroups r !! id = Some g' -> g' = g) ->
  let r' := reconcileWith r g next clock in
  index_ok r'
  /\ forall id, entryLocked r' id
       = match next !! id with
         | Some e => Some e
         | None => match entryLocked r id with
                   | Some e => if decide (ent_GroupID e = g) then None else Some e
                   | None => None
                   end
         end.
Proof.
  intros Hok Hnext. pose proof (rg_index r Hok) as Hix.
  destruct (reconcileWith_lookup r g next clock) as [Hl Hg]. cbv zeta in *. split.
  - split.
    + intros g' b [(_ & -> & ?)|H]%reconcileWith_buckets; [done|by apply (ix_bucket r Hix g')].
    + intros g' id e. rewrite Hl, Hg. case_decide as Eg.
      * subst g'. intros He. rewrite He. by destruct (Hnext id e He) as (-> & -> & _).
      * intros He. destruct (ix_entry r Hix _ _ _ He) as (-> & -> & Hi). split; [done|]. split; [done|].
        destruct (next !! id) as [x|] eqn:En.
        { destruct (Hnext id x En) as (_ & _ & Hn). by apply Hn in Hi. }
        rewrite decide_True; [done|]. destruct (lookupEntry r g id) as [y|] eqn:Ey; [|done].
        destruct (ix_entry r Hix _ _ _ Ey) as (_ & _ & ?). congruence.
    + intros id g'. rewrite Hl, Hg. destruct (next !! id) as [x|].
      * intros [= <-]. rewrite decide_True by done. by eexists.
      * case_decide as En; [|done]. intros Hi. destruct (ix_group r Hix _ _ Hi) as [y Hy].
        rewrite decide_False; [by eexists|]. intros ->. congruence.
  - intros id. unfold entryLocked at 1. rewrite Hg. destruct (next !! id) as [x|] eqn:En.
    + by rewrite Hl, decide_True.
    + unfold entryLocked. destruct (credentialGroups r !! id) as [g'|] eqn:Hi; [|by case_decide].
      destruct (ix_group r Hix _ _ Hi) as [y Hy]. rewrite Hy. destruct (ix_entry r Hix _ _ _ Hy) as (_ & Ey & _).
      destruct (decide (g' = g)) as [->|Hne].
      * rewrite decide_False by congruence. by rewrite decide_True.
      * rewrite decide_True; [|destruct (lookupEntry r g id) as [z|] eqn:Ez; [|done];
          destruct (ix_entry r Hix _ _ _ Ez) as (_ & _ & ?); congruence].
        rewrite Hl, (decide_False (P := g' = g)), (decide_False (P := ent_GroupID y = g)) by congruence. done.
Qed.

Lemma reconcileWith_mirrors r g next clock :
  registry_ok r -> g <> 0 ->
  (forall id e, next !! id = Some e -> ent_ID e = id /\ ent_GroupID e = g
     /\ forall g', credentialGroups r !! id = Some g' -> g' = g) ->
  mirrors (scheduling (reconcileWith r g next clock)) (entries_of (reconcileWith r g next clock)).
Proof.
  intros Hok Hg Hnext id. rewrite entries_of_lookup.
  destruct (reconcileWith_entries r g next clock Hok Hnext) as [_ ->].
  set (views := runtimeView <$> (mentries next).*2).
  assert (scheduling (reconcileWith r g next clock) = SyncCredentials (scheduling r) g views clock) as ->.
  { unfold reconcileWith, syncSchedulingGroupLocked, bucketOf, mget. subst views.
    destruct (Nat.eqb_spec (size next) 0) as [E|E]; cbn; [|by rewrite lookup_insert_eq].
    apply map_size_empty_iff in E as ->. by rewrite lookup_delete_eq. }
  assert (view_ID <$> views = (mentries next).*1) as Hids.
  { subst views. rewrite <- !list_fmap_compose. apply list_fmap_ext. intros i [k e] H. cbn.
    apply list_elem_of_lookup_2, elem_of_map_to_list in H. by apply Hnext. }
  assert (NoDup (view_ID <$> views)) as Hnd by (rewrite Hids; apply NoDup_fst_map_to_list).
  assert (forall i, i ∈ view_ID <$> views <-> is_Some (next !! i)) as Hmem.
  { intros i. rewrite Hids, list_elem_of_fmap. split.
    - intros ([k e] & -> & H%elem_of_map_to_list). by exists e.
    - intros [e H]. exists (i, e). split; [done|]. by apply elem_of_map_to_list. }
  destruct (SyncCredentials_members (scheduling r) g views clock Hnd) as [Hin Hout].
  destruct (next !! id) as [e|] eqn:En.
  - destruct (Hnext id e En) as (<- & _ & _). apply (Hin (runtimeView e)). subst views.
    apply list_elem_of_fmap_2, list_elem_of_fmap. exists (ent_ID e, e). split; [done|]. by apply elem_of_map_to_list.
  - rewrite Hout by (rewrite Hmem, En; by intros [? ?]).
    pose proof (rg_mirror r Hok id) as Hm. rewrite entries_of_lookup in Hm.
    destruct (entryLocked r id) as [e|] eqn:Ee; [|by rewrite Hm].
    destruct (Members (scheduling r) !! id) as [m|]; [|done]. cbn in Hm. zb.
    destruct (decide (ent_GroupID e = g)); [by rewrite decide_False by naive_solver|].
    rewrite decide_True by (split; [done|congruence]). cbn.
    match goal with H1 : mem_GroupID m = _, H2 : mem_IdentityGeneration m = _ |- _ => rewrite H1, H2 end.
    by rewrite !Z.eqb_refl.
Qed.

Lemma ReconcileGroup_Ok r g es clock r' changed :
  ReconcileGroup r g es clock = Ok (r', changed) ->
  g <> 0 /\ group_entries_ok r g es /\ changed = negb (matchesGroupLocked r g es)
  /\ r' = if changed then reconcileWith r g (reconcileBucket (bucketOf r g) es) clock else r.
Proof.
  unfold ReconcileGroup, group_entries_ok. case_if; [done|].
  destruct (ValidateCredentialEntries es) as [[]|]; [|done]. destruct (entriesOfGroup g es) as [[]|]; [|done].
  destruct (notElsewhere r g es) as [[]|]; [|done].
  destruct (matchesGroupLocked r g es); intros [= <- <-]; done.
Qed.

Lemma reconcileBucket_keys r g es :
  typed_entries es -> group_entries_ok r g es ->
  forall id e, reconcileBucket (bucketOf r g) es !! id = Some e ->
  ent_ID e = id /\ ent_GroupID e = g /\ forall g', credentialGroups r !! id = Some g' -> g' = g.
Proof.
  intros Hu Hes id e He. destruct (group_entries_placeable r g es Hu Hes) as (Hnd & Hpl & Hg).
  destruct (reconcileBucket_lookup (bucketOf r g) es Hnd) as [Hin Hout].
  destruct (decide (id ∈ ent_ID <$> es)) as [(x & -> & Hx)%list_elem_of_fmap|Hn]; [|by rewrite Hout in He].
  rewrite Hin in He by done. simplify_eq. rewrite Forall_forall in Hpl, Hg.
  destruct (reconcileEntry_identity (bucketOf r g) x) as (-> & -> & _). destruct (Hpl x Hx) as (_ & _ & H).
  rewrite (Hg x Hx) in *. done.
Qed.

Lemma reconcileEntry_valid prev e :
  (forall x, prev !! ent_ID e = Some x -> validateEntry x = Ok tt) -> validateEntry e = Ok tt ->
  validateEntry (reconcileEntry prev e) = Ok tt.
Proof.
  intros Hp He. unfold reconcileEntry. destruct (prev !! ent_ID e) as [x|]; [|by autorewrite with gohints].
  case_if; autorewrite with gohints; auto.
Qed.

Lemma ReconcileGroup_ok r g es clock r' changed :
  registry_ok r -> typed_entries es -> ReconcileGroup r g es clock = Ok (r', changed) -> registry_ok r'.
Proof.
  intros Hok Hu (Hg & Hes & _ & ->)%ReconcileGroup_Ok. destruct changed; [|done].
  pose proof (reconcileBucket_keys r g es Hu Hes) as Hkeys. set (next := reconcileBucket _ _) in *.
  destruct (reconcileWith_entries r g next clock Hok Hkeys) as [Hix Hent]. cbv zeta in *.
  destruct (group_entries_placeable r g es Hu Hes) as (Hnd & Hpl & _).
  destruct (reconcileBucket_lookup (bucketOf r g) es Hnd) as [Hin Hout]. rewrite Forall_forall in Hpl.
  assert (forall id e, next !! id = Some e -> validateEntry e = Ok tt /\ is_u64 id) as Hnv.
  { intros id e He. destruct (decide (id ∈ ent_ID <$> es)) as [(x & -> & Hx)%list_elem_of_fmap|Hn];
      [|subst next; by rewrite Hout in He].
    subst next. rewrite Hin in He by done. simplify_eq. destruct (Hpl x Hx) as (Hvx & Hux & _).
    split; [|done]. apply reconcileEntry_valid; [|done]. intros y Hy.
    apply (rg_valid r Hok (ent_ID x)). apply entryLocked_spec; [apply Hok|]. by exists g. }
  split; [done| | |].
  - intros id e. rewrite Hent. destruct (next !! id) as [x|] eqn:En.
    + intros [= <-]. by apply Hnv.
    + destruct (entryLocked r id) as [y|] eqn:Ey; [|done]. case_decide; [done|]. intros [= <-]. by apply (rg_valid r Hok).
  - by apply reconcileWith_mirrors.
  - unfold reconcileWith, syncSchedulingGroupLocked. set (r1 := if (size next =? 0)%nat then _ else _).
    assert (scheduling r1 = scheduling r) as -> by (subst r1; by case_if).
    apply SyncCredentials_ok; [apply Hok|]. intros v (e & -> & (p & -> & Hp)%list_elem_of_fmap)%list_elem_of_fmap.
    destruct p as [k e]. apply elem_of_map_to_list in Hp. cbn.
    assert (next !! k = Some e) as He.
    { subst r1. destruct (Nat.eqb_spec (size next) 0) as [E|E]; unfold bucketOf, mget in Hp; cbn in Hp.
      - by rewrite lookup_delete_eq in Hp.
      - by rewrite lookup_insert_eq in Hp. }
    destruct (Hnv k e He) as [Hv Hk]. destruct (Hkeys k e He) as (<- & _). split; [done|].
    by apply validateEntry_id in Hv as [? _].
Qed.

(** * Removal *)

(** What every removal does to the three components. *)
Record removed (r r' : CredentialRegistry) (g : Z) (ids : list Z) : Prop := {
  rm_lookup : forall g' id, lookupEntry r' g' id
    = if decide (g' = g /\ id ∈ ids) then None else lookupEntry r g' id;
  rm_groups : forall id, credentialGroups r' !! id = if decide (id ∈ ids) then None else credentialGroups r !! id;
  rm_members : forall id, Members (scheduling r') !! id
    = if decide (id ∈ ids) then None else Members (scheduling r) !! id;
  rm_ledger : ledger_ok (scheduling r) -> ledger_ok (scheduling r')
}.

Lemma removed_ok r r' g ids :
  registry_ok r -> removed r r' g ids -> (forall id, id ∈ ids -> credentialGroups r !! id = Some g) ->
  (forall g' b, buckets r' !! g' = Some b -> b <> ∅) ->
  registry_ok r' /\ forall id, entryLocked r' id = if decide (id ∈ ids) then None else entryLocked r id.
Proof.
  intros [Hix Hv Hm Hl] [Rl Rg Rm Rled] Hids Hne.
  assert (forall id, entryLocked r' id = if decide (id ∈ ids) then None else entryLocked r id) as Hent.
  { intros id. unfold entryLocked. rewrite Rg. case_decide; [done|].
    destruct (credentialGroups r !! id) as [g'|]; [|done]. rewrite Rl. by rewrite decide_False by naive_solver. }
  split; [|done]. split.
  - split; [done| |].
    + intros g' id e. rewrite Rl, Rg. case_decide as Ed; [done|]. intros He.
      destruct (ix_entry r Hix _ _ _ He) as (-> & -> & Hi). split; [done|]. split; [done|].
      rewrite decide_False; [done|]. intros Hin. apply Ed. split; [|done]. specialize (Hids id Hin). congruence.
    + intros id g'. rewrite Rg, Rl. case_decide; [done|]. intros Hi. rewrite decide_False by naive_solver.
      by apply (ix_group r Hix).
  - intros id e. rewrite Hent. case_decide; [done|]. apply Hv.
  - intros id. specialize (Hm id). rewrite entries_of_lookup in Hm |- *. rewrite Hent, Rm. by case_decide.
  - auto.
Qed.

Lemma removed_refl r g : removed r r g [].
Proof.
  split; try done; intros; rewrite decide_False; try done; set_solver.
Qed.

Lemma deleteEntry_lookup r g id g' id' :
  lookupEntry (deleteEntry g id r) g' id' = if decide (g' = g /\ id' = id) then None else lookupEntry r g' id'.
Proof.
  unfold lookupEntry, bucketOf, mget, deleteEntry. cbn. rewrite lookup_alter.
  destruct (decide (g = g')) as [->|Hg]; [|by rewrite decide_False by naive_solver].
  destruct (buckets r !! g') as [b|]; cbn; [|rewrite !lookup_empty; by case_decide].
  rewrite lookup_delete. destruct (decide (id = id')) as [->|]; [by rewrite decide_True|by rewrite decide_False by naive_solver].
Qed.

(** One more identifier taken out of the group. *)
Lemma removed_step r r' g ids id :
  removed r r' g ids -> removed r (unindex id (deleteEntry g id r')) g (ids ++ [id]).
Proof.
  intros [Rl Rg Rm Rled]. split.
  - intros g' i. change (lookupEntry (unindex id (deleteEntry g id r')) g' i) with (lookupEntry (deleteEntry g id r') g' i).
    rewrite deleteEntry_lookup, Rl. repeat case_decide; set_solver.
  - intros i. cbn. rewrite lookup_delete, Rg. repeat case_decide; set_solver.
  - intros i. cbn [unindex scheduling]. rewrite remove_members. cbn [deleteEntry scheduling]. rewrite Rm.
    repeat case_decide; set_solver.
  - intros H. cbn [unindex scheduling deleteEntry]. apply removeLocked_ok. auto.
Qed.

Lemma removed_fold r g ids : removed r (fold_left (fun r id => unindex id (deleteEntry g id r)) ids r) g ids.
Proof.
  assert (forall ids done r', removed r r' g done ->
    removed r (fold_left (fun r id => unindex id (deleteEntry g id r)) ids r') g (done ++ ids)) as H.
  { clear ids. induction ids as [|id ids IH]; intros dn r' Hr; cbn [fold_left]; [by rewrite app_nil_r|].
    rewrite cons_middle, app_assoc. apply IH. by apply removed_step. }
  apply (H ids [] r), removed_refl.
Qed.

Lemma fold_delete_buckets g ids r g' :
  g' <> g -> buckets (fold_left (fun r id => unindex id (deleteEntry g id r)) ids r) !! g' = buckets r !! g'.
Proof.
  intros Hne. revert r. induction ids as [|id ids IH]; intros r; [done|]. cbn [fold_left]. rewrite IH. cbn.
  by rewrite lookup_alter_ne.
Qed.

(** Dropping an empty bucket changes no lookup. *)
Lemma dropEmpty_lookup r g g' id : lookupEntry (dropEmptyBucket g r) g' id = lookupEntry r g' id.
Proof.
  unfold dropEmptyBucket. destruct (Nat.eqb_spec (size (bucketOf r g)) 0) as [E|]; [|done].
  apply map_size_empty_iff in E. unfold lookupEntry, bucketOf, mget in *. cbn. rewrite lookup_delete.
  case_decide; [|done]. subst. rewrite E. cbn. by rewrite !lookup_empty.
Qed.

Lemma dropEmpty_scalars r g :
  credentialGroups (dropEmptyBucket g r) = credentialGroups r /\ scheduling (dropEmptyBucket g r) = scheduling r.
Proof. unfold dropEmptyBucket. by case_if. Qed.

Lemma dropEmpty_buckets r g g' b :
  (forall x b', x <> g -> buckets r !! x = Some b' -> b' <> ∅) ->
  buckets (dropEmptyBucket g r) !! g' = Some b -> b <> ∅.
Proof.
  intros Hne. unfold dropEmptyBucket. destruct (Nat.eqb_spec (size (bucketOf r g)) 0) as [E|E].
  - cbn. intros [Hg H]%lookup_delete_Some. by apply (Hne g').
  - intros H. destruct (decide (g' = g)) as [->|]; [|by apply (Hne g')]. intros ->. apply E.
    unfold bucketOf, mget. by rewrite H.
Qed.

Lemma removed_drop r r' g ids : removed r r' g ids -> removed r (dropEmptyBucket g r') g ids.
Proof.
  intros [Rl Rg Rm Rled]. destruct (dropEmpty_scalars r' g) as [E1 E2]. split.
  - intros g' id. by rewrite dropEmpty_lookup.
  - by rewrite E1.
  - by rewrite E2.
  - by rewrite E2.
Qed.
