(* ===== verification/RegistrySafety.v ===== *)
(** The registry as a transition system: every method, in any interleaving, keeps the
    invariant and never dereferences a nil entry. *)
From S2P Require Import Prelude GoStrings Config Credential Ledger Fair FairShare Checkpoint Registry RegistryInvariant RegistryReach RegistryGroups.

Local Open Scope Z_scope.

(** * The identifier lists of the group methods *)

Lemma validateIDsFrom_ok r g seen ids :
  validateIDsFrom r g seen ids = Ok tt <->
  Forall (fun id => id <> 0 /\ credentialGroups r !! id = Some g /\ is_Some (lookupEntry r g id)) ids
  /\ NoDup ids /\ (forall id, id ∈ ids -> id ∉ seen).
Proof.
  revert seen. induction ids as [|id ids IH]; intros seen; cbn [validateIDsFrom].
  { split; [|done]. intros _. split; [done|]. split; [constructor|]. set_solver. }
  rewrite Forall_cons, NoDup_cons. destruct (Z.eqb_spec id 0); [naive_solver|].
  case_bool_decide as Hs; [split; [done|]; intros (_ & _ & H); destruct (H id); [constructor|done]|].
  destruct (credentialGroups r !! id) as [g'|]; [|naive_solver].
  destruct (Z.eqb_spec g' g) as [->|]; cbn [negb]; [|naive_solver].
  destruct (lookupEntry r g id) as [e|]; cbn [isNil]; [|split; [done|intros ((( _ & _ & [? ?]) & _) & _); done]].
  rewrite IH. split.
  - intros (Hf & Hnd & Hout). split; [split; [by repeat split|done]|]. split; [|set_solver].
    split; [|done]. intros Hin. specialize (Hout id Hin). set_solver.
  - intros ((_ & Hf) & (Hn & Hnd) & Hout). split; [done|]. split; [done|]. set_solver.
Qed.

Lemma validateIDs_ok r g ids :
  validateGroupCredentialIDsLocked r g ids = Ok tt <->
  g <> 0 /\ ids <> [] /\ NoDup ids
  /\ Forall (fun id => id <> 0 /\ credentialGroups r !! id = Some g /\ is_Some (lookupEntry r g id)) ids.
Proof.
  unfold validateGroupCredentialIDsLocked. destruct (Z.eqb_spec g 0); [naive_solver|].
  destruct ids as [|id ids]; [naive_solver|]. rewrite validateIDsFrom_ok. set_solver.
Qed.

Lemma validateIDs_never_panics r g ids : validateGroupCredentialIDsLocked r g ids <> Err GoPanic.
Proof.
  unfold validateGroupCredentialIDsLocked. case_if; [done|]. destruct ids as [|i0 l]; [done|].
  generalize (i0 :: l) as ids. intros ids. generalize (∅ : gset Z). induction ids as [|id ids IH]; intros seen; cbn [validateIDsFrom]; [done|].
  case_if; [done|]. case_bool_decide; [done|]. destruct (credentialGroups r !! id); [|done].
  case_if; [done|]. case_if; [done|]. apply IH.
Qed.

(** * Removal *)

Lemma RemoveCredential_spec r id :
  registry_ok r ->
  registry_ok (RemoveCredential r id).1
  /\ forall i, entryLocked (RemoveCredential r id).1 i = if decide (i = id) then None else entryLocked r i.
Proof.
  intros Hok. unfold RemoveCredential. destruct (credentialGroups r !! id) as [g|] eqn:Hg; cbn [fst].
  - assert (unindex id (dropEmptyBucket g (deleteEntry g id r)) = dropEmptyBucket g (unindex id (deleteEntry g id r))) as E.
    { unfold dropEmptyBucket. change (bucketOf (unindex id (deleteEntry g id r)) g) with (bucketOf (deleteEntry g id r) g).
      by case_if. }
    rewrite E. pose proof (removed_drop _ _ _ _ (removed_step r r g [] id (removed_refl r g))) as Hr. cbn [app] in Hr.
    destruct (removed_ok r _ g [id] Hok Hr) as [H1 H2].
    + intros i ->%list_elem_of_singleton. done.
    + intros g' b. apply dropEmpty_buckets. intros x b' Hx. cbn. rewrite lookup_alter_ne by done.
      apply (ix_bucket r (rg_index r Hok)).
    + split; [done|]. intros i. rewrite H2. apply decide_ext. apply list_elem_of_singleton.
  - split; [done|]. intros i. case_decide; [|done]. subst. by apply entryLocked_None; [apply Hok|].
Qed.

Lemma RemoveGroupCredentials_spec r g ids r' :
  registry_ok r -> RemoveGroupCredentials r g ids = Ok r' ->
  registry_ok r' /\ removed r r' g ids
  /\ forall i, entryLocked r' i = if decide (i ∈ ids) then None else entryLocked r i.
Proof.
  intros Hok. unfold RemoveGroupCredentials. destruct (validateGroupCredentialIDsLocked r g ids) as [[]|] eqn:Hv; [|done].
  intros [= <-]. apply validateIDs_ok in Hv as (_ & _ & _ & Hf). rewrite Forall_forall in Hf.
  pose proof (removed_drop _ _ _ _ (removed_fold r g ids)) as Hr.
  destruct (removed_ok r _ g ids Hok Hr) as [H1 H2]; [intros i Hi; by apply Hf| |exact (conj H1 (conj Hr H2))].
  intros g' b. apply dropEmpty_buckets. intros x b' Hx. rewrite fold_delete_buckets by done.
  apply (ix_bucket r (rg_index r Hok)).
Qed.

Lemma unindex_fold ids r :
  let r' := fold_left (fun r id => unindex id r) ids r in
  buckets r' = buckets r
  /\ (forall i, credentialGroups r' !! i = if decide (i ∈ ids) then None else credentialGroups r !! i)
  /\ (forall i, Members (scheduling r') !! i = if decide (i ∈ ids) then None else Members (scheduling r) !! i)
  /\ (ledger_ok (scheduling r) -> ledger_ok (scheduling r')).
Proof.
  cbv zeta. revert r. induction ids as [|id ids IH]; intros r; cbn [fold_left].
  { split; [done|]. split; [|split; [|done]]; intros i; by rewrite decide_False by apply not_elem_of_nil. }
  destruct (IH (unindex id r)) as (-> & H2 & H3 & H4). split; [done|]. split; [|split].
  - intros i. rewrite H2. cbn. rewrite lookup_delete. repeat case_decide; set_solver.
  - intros i. rewrite H3. cbn [unindex scheduling]. rewrite remove_members. repeat case_decide; set_solver.
  - intros Hl. apply H4. cbn. by apply removeLocked_ok.
Qed.

(** The keys of a group's bucket. *)
Lemma bucket_keys r g bucket i :
  buckets r !! g = Some bucket -> i ∈ (mentries bucket).*1 <-> is_Some (lookupEntry r g i).
Proof.
  intros Hb. unfold lookupEntry, bucketOf, mget. rewrite Hb, list_elem_of_fmap. cbn. split.
  - intros ([k e] & -> & H%elem_of_map_to_list). by exists e.
  - intros [e He]. exists (i, e). split; [done|]. by apply elem_of_map_to_list.
Qed.

Lemma RemoveGroup_spec r g :
  registry_ok r ->
  registry_ok (RemoveGroup r g).1
  /\ forall i, entryLocked (RemoveGroup r g).1 i
       = match entryLocked r i with
         | Some e => if decide (ent_GroupID e = g /\ g <> 0) then None else Some e
         | None => None
         end.
Proof.
  intros Hok. pose proof (rg_index r Hok) as Hix. unfold RemoveGroup.
  assert (forall i e, entryLocked r i = Some e -> lookupEntry r (ent_GroupID e) i = Some e) as Hle
    by (intros i e He; by apply entryLocked_group).
  destruct (Z.eqb_spec g 0) as [->|Hg]; cbn [fst].
  { split; [done|]. intros i. destruct (entryLocked r i); [|done]. by rewrite decide_False by tauto. }
  destruct (buckets r !! g) as [bucket|] eqn:Hb; cbn [fst].
  - set (ids := (mentries bucket).*1).
    assert (forall i, i ∈ ids <-> is_Some (lookupEntry r g i)) as Hids by (intros; by apply bucket_keys).
    set (r1 := fold_left _ ids r).
    destruct (unindex_fold ids r) as (E1 & E2 & E3 & E4). fold r1 in E1, E2, E3, E4.
    assert (removed r (mkRegistry (delete g (buckets r1)) (credentialGroups r1) (scheduling r1)) g ids) as Hr.
    { split; [|done|done|done]. intros g' i. unfold lookupEntry at 1, bucketOf, mget. cbn. rewrite E1, lookup_delete.
      destruct (decide (g = g')) as [<-|Hne]; cbn.
      - rewrite lookup_empty. case_decide as Hd; [done|]. destruct (lookupEntry r g i) eqn:El; [|done].
        destruct Hd. split; [done|]. apply Hids. by eexists.
      - by rewrite decide_False by naive_solver. }
    destruct (removed_ok r _ g ids Hok Hr) as [H1 H2].
    + intros i [e He]%Hids. by apply (ix_entry r Hix) in He as (_ & _ & ?).
    + intros g' b. cbn. rewrite E1. intros [_ H]%lookup_delete_Some. by apply (ix_bucket r Hix g').
    + split; [done|]. intros i. rewrite H2. destruct (entryLocked r i) as [e|] eqn:He; [|by case_decide].
      apply decide_ext. rewrite Hids. split.
      * intros [x Hx]. apply (ix_entry r Hix) in Hx as (_ & _ & Hx).
        destruct (entryLocked_group r i e Hix He) as (Hgi & _). naive_solver congruence.
      * intros [<- _]. exists e. by apply Hle.
  - split; [done|]. intros i. destruct (entryLocked r i) as [e|] eqn:He; [|done].
    rewrite decide_False; [done|]. intros [<- _]. specialize (Hle i e He).
    unfold lookupEntry, bucketOf, mget in Hle. rewrite Hb in Hle. cbn in Hle. by rewrite lookup_empty in Hle.
Qed.

(** * Status updates *)

Lemma SetCredentialStatus_ok r id s now :
  registry_ok r ->
  match SetCredentialStatus r id s now with
  | Ok r' => registry_ok r'
  | Err e => e <> GoPanic
  end.
Proof.
  intros Hok. unfold SetCredentialStatus. destruct (statusValid s) eqn:Es; cbn [negb]; [|done].
  destruct (credentialGroups r !! id) as [g|] eqn:Hg; [|done].
  destruct (status_store r Hok g id s now Es Hg) as (e & -> & H). done.
Qed.

Lemma status_fold_ok g s clock ids r :
  registry_ok r -> statusValid s = true -> Forall (fun id => credentialGroups r !! id = Some g) ids ->
  exists r', fold_left (statusStep g s clock) ids (Ok r) = Ok r' /\ registry_ok r'.
Proof.
  intros Hok Hs. revert r Hok. induction ids as [|id ids IH]; intros r Hok Hf; [by exists r|].
  apply Forall_cons in Hf as [Hg Hf]. cbn [fold_left statusStep].
  destruct (status_store r Hok g id s (clock id) Hs Hg) as (e & -> & H). by apply IH.
Qed.

Lemma UpdateGroupStatuses_ok r g ids s clock :
  registry_ok r ->
  match UpdateGroupCredentialStatuses r g ids s clock with
  | Ok r' => registry_ok r'
  | Err e => e <> GoPanic
  end.
Proof.
  intros Hok. unfold UpdateGroupCredentialStatuses. destruct (statusValid s) eqn:Es; cbn [negb]; [|done].
  destruct (validateGroupCredentialIDsLocked r g ids) as [[]|] eqn:Hv.
  - apply validateIDs_ok in Hv as (_ & _ & _ & Hf).
    destruct (status_fold_ok g s clock ids r Hok Es) as (r' & -> & H); [|done].
    eapply Forall_impl; [exact Hf|]. by intros x (? & ? & ?).
  - intros ->. by apply (validateIDs_never_panics r g ids).
Qed.

Lemma collectEntries_ok r g ids :
  Forall (fun id => is_Some (lookupEntry r g id)) ids ->
  exists es, collectEntries r g ids = Ok es /\ Forall2 (fun id e => lookupEntry r g id = Some e) ids es.
Proof.
  induction ids as [|id ids IH]; intros Hf; [by exists []|]. apply Forall_cons in Hf as [[e He] Hf].
  destruct (IH Hf) as (es & E & Hes). cbn [collectEntries]. rewrite He, E. exists (e :: es). split; [done|]. by constructor.
Qed.

Lemma SnapshotExact_spec r g ids :
  match SnapshotGroupCredentialEntriesExact r g ids with
  | Ok es => validateGroupCredentialIDsLocked r g ids = Ok tt /\ Forall2 (fun id e => lookupEntry r g id = Some e) ids es
  | Err e => e <> GoPanic
  end.
Proof.
  unfold SnapshotGroupCredentialEntriesExact.
  destruct (validateGroupCredentialIDsLocked r g ids) as [[]|] eqn:Hv.
  - pose proof Hv as (_ & _ & _ & Hf)%validateIDs_ok. destruct (collectEntries_ok r g ids) as (es & -> & H); [|done].
    eapply Forall_impl; [exact Hf|]. by intros x (? & ? & ?).
  - intros ->. by apply (validateIDs_never_panics r g ids).
Qed.

(** * The runtime checkpoint *)

Lemma restoreHealth_identity c now e : sameIdentity (restoreHealth c now e) e.
Proof. unfold restoreHealth. case_if; eauto 6 with gohints. Qed.

Lemma restoreHealth_valid c now e : validateEntry (restoreHealth c now e) = validateEntry e.
Proof. unfold restoreHealth. case_if; by autorewrite with gohints. Qed.

Lemma restoreRuntimeStep_ok acc x : registry_ok acc.1 -> registry_ok (restoreRuntimeStep acc x).1.
Proof.
  destruct acc as [r n], x as [c [now now']]. cbn [fst]. intros Hok. unfold restoreRuntimeStep.
  case_if; [done|]. destruct (credentialGroups r !! rcp_ID c) as [g|] eqn:Hg; [|done]. case_if; [done|].
  destruct (lookupEntry r g (rcp_ID c)) as [e|] eqn:He; [|done]. cbn [fst].
  assert (entryLocked r (rcp_ID c) = Some e) as Hel by (unfold entryLocked; by rewrite Hg).
  destruct (ix_entry r (rg_index r Hok) _ _ _ He) as (_ & Eg & _). rewrite <- Eg, (mutate_store r (rcp_ID c) e) by done.
  eapply mutate_sync_ok; [done|exact Hel|apply restoreHealth_identity|].
  rewrite restoreHealth_valid. by apply (rg_valid r Hok _ _ Hel).
Qed.

Lemma RestoreRuntimeCheckpoint_ok r cps clock : registry_ok r -> registry_ok (RestoreRuntimeCheckpoint r cps clock).1.
Proof.
  intros Hok. unfold RestoreRuntimeCheckpoint. apply (fold_left_inv (fun acc => registry_ok acc.1)); [done|].
  intros acc x _. apply restoreRuntimeStep_ok.
Qed.

(** * Operations on the ledger alone *)

(** What the scheduler and the configuration publisher do to the ledger of a registry:
    nothing that adds, removes or renames a member. *)
Definition sameMembers (d d' : SchedulingLedger) : Prop :=
  forall id, match Members d !! id, Members d' !! id with
    | Some m, Some m' => mem_GroupID m' = mem_GroupID m /\ mem_IdentityGeneration m' = mem_IdentityGeneration m
    | None, None => True
    | _, _ => False
    end.

Lemma mirrors_sameMembers d d' es : sameMembers d d' -> mirrors d es -> mirrors d' es.
Proof.
  intros Hs Hm id. specialize (Hs id). specialize (Hm id).
  destruct (es !! id) as [e|]; destruct (Members d !! id), (Members d' !! id); try done.
  cbn in *. destruct Hs as [-> ->]. done.
Qed.

Lemma setScheduling_ok r d :
  registry_ok r -> sameMembers (scheduling r) d -> ledger_ok d -> registry_ok (setScheduling d r).
Proof.
  intros [Hix Hv Hm Hl] Hs Hd. split; [destruct Hix; by split|exact Hv| |done]. by eapply mirrors_sameMembers.
Qed.

Lemma sameMembers_refl d : sameMembers d d.
Proof. intros id. by destruct (Members d !! id). Qed.

Lemma SyncGroups_sameMembers d s : sameMembers d (SyncGroups d s).
Proof.
  unfold SyncGroups. destruct s as [s|]; [|apply sameMembers_refl]. case_if; [apply sameMembers_refl|].
  intros id. cbn. rewrite lookup_fmap. destruct (Members d !! id); [|done]. cbn. by case_if.
Qed.

Lemma SelectModel_sameMembers d g x ms : sameMembers d (SelectModel d g x ms).1.
Proof.
  unfold SelectModel. destruct ms; [apply sameMembers_refl|]. destruct (rotate _ _) as [[]|]; intros id; cbn; by destruct (Members d !! id).
Qed.

Lemma admitted_sameMembers d rev cs : sameMembers d (admitted d rev cs).
Proof.
  intros id. unfold admitted. rewrite admitAll_lookup. destruct (Members d !! id) as [m|]; [|done]. cbn.
  destruct (decide _); [|done]. by destruct (admitMember_same d rev (baselineOf d (eligibleCandidates d cs)) m) as (_ & -> & -> & _).
Qed.

Lemma charge_sameMembers d c : sameMembers d (charge d c).1.
Proof.
  unfold charge. destruct (Members d !! wid c) as [m|] eqn:Hm; [|apply sameMembers_refl].
  destruct (Advance _ _) as [next ok]. case_if; [apply sameMembers_refl|].
  destruct (if negb _ then _ else _) as [l n]. intros id. cbn. rewrite lookup_insert. case_decide.
  - subst id. by rewrite Hm.
  - by destruct (Members d !! id).
Qed.

Lemma sameMembers_trans d1 d2 d3 : sameMembers d1 d2 -> sameMembers d2 d3 -> sameMembers d1 d3.
Proof.
  intros H1 H2 id. specialize (H1 id). specialize (H2 id).
  destruct (Members d1 !! id), (Members d2 !! id), (Members d3 !! id); naive_solver congruence.
Qed.

Lemma selectCredential_sameMembers d rev cs p : sameMembers d (selectCredential d rev cs p).1.
Proof.
  unfold selectCredential. case_if; [apply sameMembers_refl|].
  eapply sameMembers_trans; [apply (admitted_sameMembers d rev cs)|apply charge_sameMembers].
Qed.

Lemma restoreStep_sameMembers cp acc s : sameMembers acc.1.1 (restoreStep cp acc s).1.1.
Proof.
  destruct acc as [[d seen] n]. unfold restoreStep. destruct (Members d !! mcp_ID s) as [m|] eqn:E; [|apply sameMembers_refl].
  destruct (savedFits _ _ _); cbn [negb]; [|apply sameMembers_refl]. case_bool_decide; [apply sameMembers_refl|]. cbn [fst]. intros id.
  assert (forall d' : SchedulingLedger, Members d' = <[mcp_ID s := restoredMember d s m]> (Members d) ->
    match Members d !! id, Members d' !! id with
    | Some m, Some m' => mem_GroupID m' = mem_GroupID m /\ mem_IdentityGeneration m' = mem_IdentityGeneration m
    | None, None => True | _, _ => False end) as Hd; [|apply Hd; by case_if]. intros d' ->.
  destruct (decide (id = mcp_ID s)) as [->|Hne]; [by rewrite E, lookup_insert_eq|]. rewrite lookup_insert_ne by done. by destruct (Members d !! id).
Qed.

Lemma RestoreCheckpoint_sameMembers d cp : sameMembers d (RestoreCheckpoint d cp).1.
Proof.
  unfold RestoreCheckpoint. destruct (_ || _); [apply sameMembers_refl|]. fold (restoreStart d cp).
  assert (sameMembers d (restoreStart d cp)) as H0 by (intros id; cbn; rewrite lookup_fmap; by destruct (Members d !! id)).
  pose proof (fold_left_inv (fun acc => sameMembers d acc.1.1) (restoreStep cp) (cp_Members cp) (restoreStart d cp, ∅, 0) H0
    (fun acc s _ Hacc => sameMembers_trans _ _ _ Hacc (restoreStep_sameMembers cp acc s))) as Hf.
  by destruct (fold_left _ _ _) as [[d2 seen] n].
Qed.

(** Nothing has been selected yet. *)
Definition unselected (d : SchedulingLedger) : Prop :=
  forall id m, Members d !! id = Some m -> mem_Progress m = zeroProgress /\ mem_LastSelected m = 0.

(** * Reachable states

    The saved ledger is restored at start-up, after the configuration has been loaded and
    before the first selection. *)

Inductive registry_step : CredentialRegistry -> CredentialRegistry -> Prop :=
| rs_replace r es clock r' : typed_entries es -> ReplaceCredentials r es clock = Ok r' -> registry_step r r'
| rs_import r g es clock r' : typed_entries es -> ApplyCredentialImport r g es clock = Ok r' -> registry_step r r'
| rs_restore_exact r g es clock r' :
    typed_entries es -> RestoreGroupCredentialEntriesExact r g es clock = Ok r' -> registry_step r r'
| rs_reconcile r g es clock r' b :
    typed_entries es -> ReconcileGroup r g es clock = Ok (r', b) -> registry_step r r'
| rs_name r g id n : registry_step r (UpdateCredentialName r g id n).1
| rs_remove r id : registry_step r (RemoveCredential r id).1
| rs_statuses r g ids s clock r' : UpdateGroupCredentialStatuses r g ids s clock = Ok r' -> registry_step r r'
| rs_remove_ids r g ids r' : RemoveGroupCredentials r g ids = Ok r' -> registry_step r r'
| rs_remove_group r g : registry_step r (RemoveGroup r g).1
| rs_status r id s now r' : SetCredentialStatus r id s now = Ok r' -> registry_step r r'
| rs_config r id s w now r' : UpdateCredentialConfig r id s w now = Ok r' -> registry_step r r'
| rs_secret r id v v' f s : 0 <= v -> registry_step r (ReplaceCredentialSecretIfMatch r id v v' f s).1
| rs_auth r id a now : registry_step r (SetCredentialAuthState r id a now).1
| rs_quota r id ws : registry_step r (ApplyQuotaWindows r id ws).1
| rs_cooldown r id t now : registry_step r (SetCooldownWithChange r id t now).1
| rs_cooldown_version r id v t now : registry_step r (SetCooldownWithChangeIfVersion r id v t now).1
| rs_clear_cooldown r id t now : registry_step r (ClearCooldownIfMatch r id t now).1
| rs_blacklist r id now : registry_step r (SetBlacklistedWithChange r id now).1
| rs_restore_state r id now : registry_step r (RestoreRuntimeState r id now).1
| rs_failure r id : registry_step r (IncrFailure r id).1
| rs_clear_failure r id : registry_step r (ClearFailure r id).1
| rs_recover r id now : registry_step r (Recover r id now).1
| rs_restore_match r ref c now : registry_step r (restoreRuntimeStateIfMatch r ref c now).1
| rs_model_cooldown r ref m t now : registry_step r (SetModelCooldown r ref m t now).1
| rs_read_models r id now : registry_step r (ModelCooldownsOf r id now).1
| rs_clear_models r id : registry_step r (ClearModelCooldowns r id).1
| rs_expire r now : registry_step r (ExpireModelCooldowns r now)
| rs_restore_runtime r cps clock : registry_step r (RestoreRuntimeCheckpoint r cps clock).1
| rs_restore_scheduling r cp :
    checkpoint_decoded cp -> unselected (scheduling r) -> registry_step r (setScheduling (RestoreCheckpoint (scheduling r) cp).1 r)
| rs_groups r s : registry_step r (setScheduling (SyncGroups (scheduling r) s) r)
| rs_model r g x ms : registry_step r (setScheduling (SelectModel (scheduling r) g x ms).1 r)
| rs_select r rev cs p :
    candidates_ok cs -> registry_step r (setScheduling (selectCredential (scheduling r) rev cs p).1 r).

Lemma registry_step_ok r r' : registry_step r r' -> registry_ok r -> registry_ok r'.
Proof.
  intros Hs Hok. destruct Hs.
  - by eapply ReplaceCredentials_ok.
  - by eapply ApplyCredentialImport_ok.
  - by eapply RestoreExact_ok.
  - by eapply ReconcileGroup_ok.
  - by apply UpdateCredentialName_ok.
  - by apply RemoveCredential_spec.
  - pose proof (UpdateGroupStatuses_ok r g ids s clock Hok) as H'. by rewrite H in H'.
  - by eapply RemoveGroupCredentials_spec.
  - by apply RemoveGroup_spec.
  - pose proof (SetCredentialStatus_ok r id s now Hok) as H'. by rewrite H in H'.
  - by eapply UpdateCredentialConfig_ok.
  - by apply ReplaceSecret_ok.
  - by apply SetCredentialAuthState_ok.
  - by apply ApplyQuotaWindows_ok.
  - by apply SetCooldownWithChange_ok.
  - by apply SetCooldownWithChangeIfVersion_ok.
  - by apply ClearCooldownIfMatch_ok.
  - by apply SetBlacklistedWithChange_ok.
  - by apply RestoreRuntimeState_ok.
  - by apply IncrFailure_ok.
  - by apply ClearFailure_ok.
  - by apply Recover_ok.
  - by apply restoreIfMatch_ok.
  - by apply SetModelCooldown_ok.
  - by apply ModelCooldownsOf_ok.
  - by apply ClearModelCooldowns_ok.
  - by apply Expire_ok.
  - by apply RestoreRuntimeCheckpoint_ok.
  - apply setScheduling_ok; [done|apply RestoreCheckpoint_sameMembers|by apply checkpoint_restore_safe; [apply Hok|..]].
  - apply setScheduling_ok; [done|apply SyncGroups_sameMembers|apply SyncGroups_ok, Hok].
  - apply setScheduling_ok; [done|apply SelectModel_sameMembers|apply SelectModel_ok, Hok].
  - apply setScheduling_ok; [done|apply selectCredential_sameMembers|by apply selectCredential_preserves; [apply Hok|]].
Qed.
