(* ===== verification/RegistryProps.v ===== *)
(** Properties of the credential registry: reachable states, candidate collection,
    reconciliation, exact restore, stale references, cooldowns. *)
From S2P Require Import Prelude GoStrings Config Credential Ledger Fair FairShare Checkpoint Registry RegistryInvariant RegistryReach RegistryGroups RegistrySafety.

Local Open Scope Z_scope.

(** * A concrete registry for the witnesses *)

Definition exEntry (id g : Z) (fp : string) : CredentialEntry :=
  mkEntry "key" id g 1 1 fp None StatusActive AuthReady 0 ∅ 0 false 0 0 "enc" "" "" None 0.

Definition exEntries : list CredentialEntry := [exEntry 1 7 "fp1"; exEntry 2 7 "fp2"; exEntry 3 8 "fp3"].

Definition exRegistry : CredentialRegistry :=
  match ReplaceCredentials NewCredentialRegistry exEntries (fun _ => 5) with
  | Ok r => r
  | Err _ => NewCredentialRegistry
  end.

Lemma exEntries_typed : typed_entries exEntries.
Proof. unfold typed_entries, exEntries. repeat constructor; done. Qed.

Lemma exRegistry_ok : registry_ok exRegistry.
Proof.
  apply (ReplaceCredentials_ok NewCredentialRegistry exEntries (fun _ => 5)).
  - apply registry_ok_new.
  - apply exEntries_typed.
  - vm_compute. reflexivity.
Qed.

(** * Reachable states *)

(** C3: In every state reachable from an empty registry by any interleaving of its methods
    and of the scheduler's operations, the restoring of saved states included, the buckets, the credential index and the scheduling
    ledger describe the same credentials: every entry is stored under its own group and
    identifier and passes validation, no bucket is empty, every indexed credential has an
    entry, and the ledger has a member of the same group and identity generation for exactly
    these credentials. *)
Theorem registry_reachable_ok r : rtc registry_step NewCredentialRegistry r -> registry_ok r.
Proof.
  apply (rtc_ind_r (fun r => registry_ok r)); [apply registry_ok_new|].
  intros r1 r2 _ Hstep Hok. by eapply registry_step_ok.
Qed.

Lemma registry_reachable_ok_witness : registry_ok (IncrFailure exRegistry 2).1.
Proof.
  apply registry_reachable_ok. eapply rtc_l; [|eapply rtc_l; [|apply rtc_refl]].
  - apply (rs_replace NewCredentialRegistry exEntries (fun _ => 5) exRegistry); [apply exEntries_typed|vm_compute; reflexivity].
  - apply rs_failure.
Defined.

(** No nil dereference.  Four methods follow the index to an entry without testing it;
    in a state that satisfies the invariant none of them panics. *)
Theorem registry_never_panics r g id ids s now clock :
  registry_ok r ->
  SetCredentialStatus r id s now <> Err GoPanic
  /\ UpdateGroupCredentialStatuses r g ids s clock <> Err GoPanic
  /\ SnapshotGroupCredentialEntriesExact r g ids <> Err GoPanic
  /\ EncryptedCredentialData r id <> Err GoPanic.
Proof.
  intros Hok. split; [|split; [|split]].
  - pose proof (SetCredentialStatus_ok r id s now Hok) as H. intros E. by rewrite E in H.
  - pose proof (UpdateGroupStatuses_ok r g ids s clock Hok) as H. intros E. by rewrite E in H.
  - pose proof (SnapshotExact_spec r g ids) as H. intros E. by rewrite E in H.
  - unfold EncryptedCredentialData. destruct (credentialGroups r !! id) as [x|] eqn:Hg; [|done].
    by destruct (ix_group r (rg_index r Hok) _ _ Hg) as [e ->].
Qed.

Lemma registry_never_panics_witness :
  SetCredentialStatus exRegistry 2 StatusDisabled 5 <> Err GoPanic
  /\ is_ok (SetCredentialStatus exRegistry 2 StatusDisabled 5) = true.
Proof.
  split; [|vm_compute; reflexivity].
  apply (registry_never_panics exRegistry 7 2 [2] StatusDisabled 5 (fun _ => 5) exRegistry_ok).
Defined.

(** * Candidates *)

Lemma groupEntries_elem r g e : index_ok r -> e ∈ groupEntries r g <-> lookupEntry r g (ent_ID e) = Some e.
Proof.
  intros Hix. unfold groupEntries, lookupEntry. rewrite list_elem_of_fmap. split.
  - intros ([id x] & -> & H%elem_of_map_to_list). cbn. by destruct (ix_entry r Hix g id x H) as (-> & _).
  - intros H. exists (ent_ID e, e). split; [done|]. by apply elem_of_map_to_list.
Qed.

Lemma groupEntries_ids r g : index_ok r -> NoDup (ent_ID <$> groupEntries r g).
Proof.
  intros Hix. unfold groupEntries. rewrite <- list_fmap_compose.
  rewrite (list_fmap_ext _ fst); [apply NoDup_fst_map_to_list|].
  intros i [id x] H. cbn. apply list_elem_of_lookup_2, elem_of_map_to_list in H. by destruct (ix_entry r Hix g id x H) as (-> & _).
Qed.

Lemma collect_elem r gids excluded now m :
  index_ok r ->
  m ∈ collectCredentialCandidatesLocked r gids excluded now
  <-> exists e, entryLocked r (ent_ID e) = Some e /\ ent_GroupID e ∈ gids
        /\ notExcluded excluded (ent_ID e) = true /\ schedulable e now = true /\ m = metaOf e.
Proof.
  intros Hix. unfold collectCredentialCandidatesLocked. rewrite list_elem_of_bind. split.
  - intros (g & (e & -> & [H He]%list_elem_of_filter)%list_elem_of_fmap & Hg). zb.
    apply groupEntries_elem in He; [|done]. destruct (ix_entry r Hix _ _ _ He) as (_ & Eg & _).
    exists e. split; [apply entryLocked_spec; [done|eauto]|]. by rewrite Eg.
  - intros (e & He & Hg & Hx & Hs & ->). exists (ent_GroupID e). split; [|done].
    apply list_elem_of_fmap. exists e. split; [done|]. apply list_elem_of_filter. rewrite Hx, Hs. split; [done|].
    apply groupEntries_elem; [done|]. by apply entryLocked_group.
Qed.

Lemma collect_ids r gids excluded now :
  index_ok r -> NoDup gids -> NoDup (meta_ID <$> collectCredentialCandidatesLocked r gids excluded now).
Proof.
  intros Hix. unfold collectCredentialCandidatesLocked. induction gids as [|g gids IH]; intros Hnd; [constructor|].
  apply NoDup_cons in Hnd as [Hg Hnd]. rewrite bind_cons, fmap_app.
  apply NoDup_app. split; [|split; [|by apply IH]].
  - rewrite <- list_fmap_compose. apply NoDup_fmap_filter. by apply groupEntries_ids.
  - intros id (m & -> & (e & -> & [_ He]%list_elem_of_filter)%list_elem_of_fmap)%list_elem_of_fmap.
    apply groupEntries_elem in He; [|done]. destruct (ix_entry r Hix _ _ _ He) as (_ & Eg & _).
    intros (m & Em & Hm)%list_elem_of_fmap. fold (collectCredentialCandidatesLocked r gids excluded now) in Hm.
    apply collect_elem in Hm as (e' & He' & Hg' & _ & _ & ->); [|done]. cbn in Em.
    assert (entryLocked r (ent_ID e) = Some e) as Hel by (apply entryLocked_spec; [done|eauto]).
    rewrite <- Em, Hel in He'. by simplify_eq.
Qed.

(** Candidate collection is exact.  The candidates of a list of distinct groups are,
    sorted by group and identifier and without repetition, the credentials of those groups
    that are active, authorised, not blacklisted, past their cooldown and not excluded. *)
Theorem candidates_exact r gids excluded now :
  registry_ok r -> NoDup gids ->
  let ms := CollectCredentialCandidates r gids excluded now in
  StronglySorted (byGroupAndID metaKey) ms /\ NoDup (meta_ID <$> ms)
  /\ ms ≡ₚ collectCredentialCandidatesLocked r gids excluded now
  /\ forall m, m ∈ ms <-> exists id e, entryLocked r id = Some e /\ ent_GroupID e ∈ gids
       /\ notExcluded excluded id = true /\ ent_Status e = StatusActive /\ ent_Blacklisted e = false
       /\ ent_CooldownUntil e <= now /\ authNormalize (ent_AuthState e) = AuthReady /\ m = metaOf e.
Proof.
  intros Hok Hnd. pose proof (rg_index r Hok) as Hix. cbv zeta.
  assert (CollectCredentialCandidates r gids excluded now ≡ₚ collectCredentialCandidatesLocked r gids excluded now) as Hp.
  { unfold CollectCredentialCandidates. rewrite merge_sort_Permutation. apply NoDup_Permutation.
    - apply (NoDup_fmap_1 meta_ID), NoDup_fmap_filter. by apply collect_ids.
    - apply (NoDup_fmap_1 meta_ID). by apply collect_ids.
    - intros m. rewrite list_elem_of_filter, !collect_elem by done. naive_solver. }
  split; [|split; [|split; [done|]]].
  - apply Sorted_StronglySorted; [apply _|]. apply (Sorted_merge_sort (byGroupAndID metaKey)).
  - rewrite Hp. by apply collect_ids.
  - intros m. rewrite Hp, collect_elem by done. setoid_rewrite schedulable_spec. split.
    + intros (e & He & H). exists (ent_ID e), e. naive_solver.
    + intros (id & e & He & H). destruct (entryLocked_group r id e Hix He) as (_ & _ & Eid). exists e. rewrite Eid. naive_solver.
Qed.

Lemma candidates_exact_witness :
  NoDup (meta_ID <$> CollectCredentialCandidates exRegistry [8; 7] (Some (fun id => id =? 1)) 5)
  /\ meta_ID <$> CollectCredentialCandidates exRegistry [8; 7] (Some (fun id => id =? 1)) 5 = [2; 3].
Proof.
  split; [|vm_compute; reflexivity].
  apply (candidates_exact exRegistry [8; 7] (Some (fun id => id =? 1)) 5 exRegistry_ok).
  apply (bool_decide_unpack _). vm_compute. exact I.
Defined.

(** * Reconciliation *)

Lemma samePersisted_spec l x :
  samePersistedCredentialConfig l x = true <->
  ent_ID l = ent_ID x /\ ent_GroupID l = ent_GroupID x /\ ent_Version l = ent_Version x
  /\ ent_IdentityGeneration l = ent_IdentityGeneration x /\ ent_Fingerprint l = ent_Fingerprint x
  /\ ent_Status l = ent_Status x /\ ent_EncryptedValue l = ent_EncryptedValue x
  /\ ent_EncryptedProxy l = ent_EncryptedProxy x /\ ent_ProxyFingerprint l = ent_ProxyFingerprint x
  /\ ent_WeightManual l = ent_WeightManual x.
Proof.
  unfold samePersistedCredentialConfig. rewrite !andb_true_iff, !bool_decide_eq_true.
  destruct (ent_WeightManual l) as [a|], (ent_WeightManual x) as [b|]; rewrite ?Z.eqb_eq; naive_solver.
Qed.

(** A reconciled entry carries the desired configuration. *)
Lemma reconcileEntry_config prev e :
  ent_Name (reconcileEntry prev e) = ent_Name e /\ samePersistedCredentialConfig (reconcileEntry prev e) e = true.
Proof.
  unfold reconcileEntry. destruct (prev !! ent_ID e) as [x|].
  - destruct (samePersistedCredentialConfig x e) eqn:E.
    + split; [by destruct x|]. rewrite samePersisted_spec in *. by destruct x.
    + unfold preserveModelCooldowns. split.
      * case_if; by destruct e.
      * rewrite samePersisted_spec. case_if; by destruct e.
  - split; [by destruct e|]. rewrite samePersisted_spec. by destruct e.
Qed.

Lemma reconcileBucket_size prev es : NoDup (ent_ID <$> es) -> size (reconcileBucket prev es) = length es.
Proof.
  intros Hnd. destruct (reconcileBucket_lookup prev es Hnd) as [Hin Hout].
  assert (dom (reconcileBucket prev es) = list_to_set (ent_ID <$> es) :> gset Z) as Hd.
  2: { by rewrite <- size_dom, Hd, size_list_to_set, length_fmap. }
  apply set_eq. intros id. rewrite elem_of_dom, elem_of_list_to_set. split.
  - intros [x Hx]. destruct (decide (id ∈ ent_ID <$> es)); [done|]. by rewrite Hout in Hx.
  - intros (e & -> & He)%list_elem_of_fmap. rewrite Hin by done. by eexists.
Qed.

Lemma matchesGroup_spec r g es :
  matchesGroupLocked r g es = true <->
  size (bucketOf r g) = length es
  /\ forall e, e ∈ es -> exists x, lookupEntry r g (ent_ID e) = Some x /\ ent_Name x = ent_Name e
                                   /\ samePersistedCredentialConfig x e = true.
Proof.
  unfold matchesGroupLocked. rewrite andb_true_iff, Nat.eqb_eq, forallb_forall. split.
  - intros [Hs Hf]. split; [done|]. intros e He. apply list_elem_of_In, Hf in He.
    destruct (lookupEntry r g (ent_ID e)) as [x|]; [|done]. zb. exists x. by rewrite bool_decide_eq_true in *.
  - intros [Hs Hf]. split; [done|]. intros e He%list_elem_of_In. destruct (Hf e He) as (x & -> & -> & ->).
    by rewrite bool_decide_eq_true_2.
Qed.

Lemma withName_same e n : ent_Name e = n -> withName n e = e.
Proof. destruct e. cbn. by intros <-. Qed.

Lemma reconciled_matches r g es clock r' b :
  registry_ok r -> typed_entries es -> ReconcileGroup r g es clock = Ok (r', b) ->
  matchesGroupLocked r' g es = true /\ group_entries_ok r' g es.
Proof.
  intros Hok Hu (Hg & Hes & Eb & ->)%ReconcileGroup_Ok. destruct b; [|by destruct (matchesGroupLocked r g es)].
  destruct (group_entries_placeable r g es Hu Hes) as (Hnd & _ & _).
  destruct (reconcileWith_lookup r g (reconcileBucket (bucketOf r g) es) clock) as [Hl Hgr]. cbv zeta in *.
  set (r' := reconcileWith _ _ _ _) in *.
  destruct (reconcileBucket_lookup (bucketOf r g) es Hnd) as [Hin _].
  assert (bucketOf r' g = reconcileBucket (bucketOf r g) es) as Hb.
  { apply map_eq. intros i. specialize (Hl g i). unfold lookupEntry in Hl. by rewrite decide_True in Hl. }
  split.
  - apply matchesGroup_spec. split; [rewrite Hb; by apply reconcileBucket_size|].
    intros e He. exists (reconcileEntry (bucketOf r g) e). rewrite Hl, decide_True by done. split; [by apply Hin|].
    apply reconcileEntry_config.
  - destruct Hes as (H1 & H2 & _). split; [done|]. split; [done|]. apply notElsewhere_ok, Forall_forall.
    intros e He g'. rewrite Hgr, Hin by done. congruence.
Qed.

(** Reconciliation converges.  After a successful reconciliation the group matches the
    given entries; repeating it changes nothing; the credentials of other groups are
    untouched; and a credential whose persisted configuration was already equal keeps its
    whole runtime state (cooldowns, blacklist, failures, quota), only its name is updated. *)
Theorem reconcile_converges r g es clock r' b clock' :
  registry_ok r -> typed_entries es -> ReconcileGroup r g es clock = Ok (r', b) ->
  MatchesGroup r' g es = true
  /\ ReconcileGroup r' g es clock' = Ok (r', false)
  /\ (forall id x, entryLocked r id = Some x -> ent_GroupID x <> g -> entryLocked r' id = Some x)
  /\ (forall e x, e ∈ es -> entryLocked r (ent_ID e) = Some x -> samePersistedCredentialConfig x e = true ->
        entryLocked r' (ent_ID e) = Some (withName (ent_Name e) x)).
Proof.
  intros Hok Hu H. destruct (reconciled_matches r g es clock r' b Hok Hu H) as [Hm Hes'].
  pose proof H as (Hg & Hes & Eb & Er)%ReconcileGroup_Ok. pose proof Hes' as (H1 & H2 & H3).
  split; [|split; [|split]].
  - unfold MatchesGroup. rewrite H1, H2, Hm. cbn. by rewrite (proj2 (Z.eqb_neq g 0)).
  - unfold ReconcileGroup. rewrite (proj2 (Z.eqb_neq g 0)) by done. by rewrite H1, H2, H3, Hm.
  - intros id x Hx Hne. destruct b; [|by subst r']. subst r'.
    pose proof (reconcileBucket_keys r g es Hu Hes) as Hkeys.
    destruct (reconcileWith_entries r g _ clock Hok Hkeys) as [_ ->].
    destruct (reconcileBucket _ es !! id) as [y|] eqn:Ey; [|by rewrite Hx, decide_False].
    destruct (Hkeys id y Ey) as (_ & _ & Hk). destruct (entryLocked_group r id x (rg_index r Hok) Hx) as (Hi & _).
    by apply Hk in Hi.
  - intros e x He Hx Hs. destruct (entryLocked_group r _ x (rg_index r Hok) Hx) as (_ & Hlx & _).
    assert (ent_GroupID x = g) as Egx.
    { apply same_identity_config in Hs as (_ & -> & _). destruct (group_entries_placeable r g es Hu Hes) as (_ & _ & Hf).
      rewrite Forall_forall in Hf. auto. }
    rewrite Egx in Hlx. destruct b; subst r'.
    + destruct (group_entries_placeable r g es Hu Hes) as (Hnd & _ & _).
      destruct (reconcileBucket_lookup (bucketOf r g) es Hnd) as [Hin _].
      destruct (reconcileWith_entries r g _ clock Hok (reconcileBucket_keys r g es Hu Hes)) as [_ ->].
      rewrite Hin by done. unfold reconcileEntry. unfold lookupEntry in Hlx. by rewrite Hlx, Hs.
    + apply matchesGroup_spec in Hm as [_ Hf]. destruct (Hf e He) as (y & Hy & Hn & _).
      rewrite Hlx in Hy. simplify_eq. by rewrite withName_same.
Qed.

(** Credential 1 failed once before the reconciliation and keeps its failure count. *)
Lemma reconcile_converges_witness :
  let r := (IncrFailure exRegistry 1).1 in
  match ReconcileGroup r 7 [exEntry 1 7 "fp1"] (fun _ => 9) with
  | Ok (r', b) => b = true /\ MatchesGroup r' 7 [exEntry 1 7 "fp1"] = true
                  /\ (ent_FailureCount <$> entryLocked r' 1) = Some 1 /\ entryLocked r' 2 = None
  | Err _ => False
  end.
Proof.
  cbv zeta. destruct (ReconcileGroup (IncrFailure exRegistry 1).1 7 [exEntry 1 7 "fp1"] (fun _ => 9)) as [[r' b]|err] eqn:E.
  - split; [|split].
    + vm_compute in E. congruence.
    + apply (reconcile_converges (IncrFailure exRegistry 1).1 7 [exEntry 1 7 "fp1"] (fun _ => 9) r' b (fun _ => 9)).
      * apply IncrFailure_ok, exRegistry_ok.
      * repeat constructor; done.
      * exact E.
    + vm_compute in E. injection E as <- <-. split; vm_compute; reflexivity.
  - vm_compute in E. discriminate E.
Defined.
