(* ===== verification/RegistryHealth.v ===== *)
(** Properties of the registry's health state: exact restore, stale probe results,
    cooldowns, and the runtime checkpoint across a restart. *)
From S2P Require Import Prelude GoStrings Config Credential Ledger Fair FairShare Checkpoint Registry RegistryInvariant RegistryReach RegistryGroups RegistrySafety RegistryProps.

Local Open Scope Z_scope.

(** * The representation of a set of entries is unique *)

Lemma lookupEntry_iff r g id e :
  index_ok r -> lookupEntry r g id = Some e <-> entryLocked r id = Some e /\ ent_GroupID e = g.
Proof.
  intros Hix. split.
  - intros H. split; [apply entryLocked_spec; eauto|]. by apply (ix_entry r Hix) in H as (_ & ? & _).
  - intros [H <-]. by apply entryLocked_group.
Qed.

Lemma index_unique r r' :
  index_ok r -> index_ok r' -> (forall id, entryLocked r id = entryLocked r' id) ->
  buckets r = buckets r' /\ credentialGroups r = credentialGroups r'.
Proof.
  intros Hix Hix' He.
  assert (forall g id, lookupEntry r g id = lookupEntry r' g id) as Hl.
  { intros g id. apply option_eq. intros e. rewrite !lookupEntry_iff by done. by rewrite He. }
  assert (forall x y, index_ok x -> (forall g id, lookupEntry x g id = lookupEntry y g id) ->
    forall g b, buckets x !! g = Some b -> is_Some (buckets y !! g)) as Hsome.
  { intros x y Hx Hxy g b Hb. destruct (map_choose b (ix_bucket x Hx g b Hb)) as (i & e & Hi).
    specialize (Hxy g i). unfold lookupEntry, bucketOf, mget in Hxy. rewrite Hb in Hxy. cbn in Hxy.
    destruct (buckets y !! g); [by eexists|]. cbn in Hxy. by rewrite Hi, lookup_empty in Hxy. }
  split.
  - apply map_eq. intros g. destruct (buckets r !! g) as [b|] eqn:E.
    + destruct (Hsome r r' Hix Hl g b E) as [b' E']. rewrite E'. f_equal. apply map_eq. intros i.
      specialize (Hl g i). unfold lookupEntry, bucketOf, mget in Hl. by rewrite E, E' in Hl.
    + destruct (buckets r' !! g) as [b'|] eqn:E'; [|done].
      destruct (Hsome r' r Hix' (fun g i => eq_sym (Hl g i)) g b' E') as [? ?]. congruence.
  - apply map_eq. intros id. specialize (He id).
    destruct (entryLocked r id) as [e|] eqn:E.
    + apply entryLocked_group in E as (-> & _); [|done]. symmetry in He. by apply entryLocked_group in He as (-> & _).
    + apply entryLocked_None in E as ->; [|done]. symmetry in He. by apply entryLocked_None in He as ->.
Qed.

(** Undo is exact.  Credentials captured with the exact snapshot, removed, and restored
    with the exact restore leave the registry's credentials as they were, bucket by bucket
    and entry by entry, failure generations and runtime health included; the restore
    cannot fail. *)
Theorem exact_restore_roundtrip r g ids es r1 clock :
  registry_ok r -> SnapshotGroupCredentialEntriesExact r g ids = Ok es ->
  RemoveGroupCredentials r g ids = Ok r1 ->
  exists r2, RestoreGroupCredentialEntriesExact r1 g es clock = Ok r2 /\ registry_ok r2
    /\ buckets r2 = buckets r /\ credentialGroups r2 = credentialGroups r.
Proof.
  intros Hok Hsnap Hrem. pose proof (rg_index r Hok) as Hix.
  pose proof (SnapshotExact_spec r g ids) as Hspec. rewrite Hsnap in Hspec. destruct Hspec as [Hv Hes].
  apply validateIDs_ok in Hv as (Hg & Hne & Hnd & _).
  destruct (RemoveGroupCredentials_spec r g ids r1 Hok Hrem) as (Hok1 & [_ Rg _ _] & Hent1).
  assert (ent_ID <$> es = ids) as Hids.
  { clear - Hes Hix. induction Hes as [|id e ids es He _ IH]; [done|]. rewrite fmap_cons, IH.
    by destruct (ix_entry r Hix _ _ _ He) as (-> & _). }
  assert (forall e, e ∈ es -> entryLocked r (ent_ID e) = Some e /\ ent_GroupID e = g) as Hel.
  { intros e [i Hi]%list_elem_of_lookup. destruct (Forall2_lookup_r _ _ _ _ _ Hes Hi) as (id & _ & He).
    apply lookupEntry_iff in He as He'; [|done]. by destruct (ix_entry r Hix _ _ _ He) as (-> & _). }
  assert (typed_entries es /\ group_entries_ok r1 g es) as [Hu Hge].
  { split; [apply Forall_forall; intros e He; by apply (rg_valid r Hok _ e), Hel|]. split; [|split].
    - apply Validate_ok. rewrite Hids. split; [|done]. apply Forall_forall. intros e He. by apply (rg_valid r Hok (ent_ID e)), Hel.
    - apply entriesOfGroup_ok, Forall_forall. intros e He. by apply Hel.
    - apply notElsewhere_ok, Forall_forall. intros e He g'. rewrite Rg, decide_True; [done|].
      rewrite <- Hids. by apply list_elem_of_fmap_2. }
  destruct (group_entries_placeable r1 g es Hu Hge) as (Hnd' & Hpl & Hgs).
  destruct (putAll_ok (fun _ e => e) clock r1 es exact_keeps Hok1 Hnd' Hpl) as (Hok2 & Hin & Hout).
  exists (putAll (fun _ e => e) clock r1 es). split; [|split; [done|]].
  - unfold RestoreGroupCredentialEntriesExact. rewrite (proj2 (Z.eqb_neq g 0)) by done.
    destruct es as [|e0 es0] eqn:Ees; [by rewrite <- Hids in Hne|]. rewrite <- Ees in *.
    destruct Hge as (-> & -> & ->). by rewrite restoreExact_putAll.
  - apply index_unique; [apply Hok2|done|]. intros id. destruct (decide (id ∈ ids)) as [Hi|Hi].
    + rewrite <- Hids in Hi. apply list_elem_of_fmap in Hi as (e & -> & He). rewrite Hin by done.
      symmetry. by apply Hel.
    + rewrite Hout by (by rewrite Hids). by rewrite Hent1, decide_False.
Qed.

Lemma exact_restore_roundtrip_witness :
  let r := (IncrFailure exRegistry 2).1 in
  match SnapshotGroupCredentialEntriesExact r 7 [2], RemoveGroupCredentials r 7 [2] with
  | Ok es, Ok r1 => exists r2, RestoreGroupCredentialEntriesExact r1 7 es (fun _ => 6) = Ok r2 /\ buckets r2 = buckets r
  | _, _ => False
  end.
Proof.
  cbv zeta. destruct (SnapshotGroupCredentialEntriesExact (IncrFailure exRegistry 2).1 7 [2]) as [es|] eqn:E1;
    [|vm_compute in E1; discriminate E1].
  destruct (RemoveGroupCredentials (IncrFailure exRegistry 2).1 7 [2]) as [r1|] eqn:E2; [|vm_compute in E2; discriminate E2].
  destruct (exact_restore_roundtrip (IncrFailure exRegistry 2).1 7 [2] es r1 (fun _ => 6)) as (r2 & H1 & _ & H2 & _).
  - apply IncrFailure_ok, exRegistry_ok.
  - exact E1.
  - exact E2.
  - exists r2. split; [exact H1|exact H2].
Defined.

(** * Stale probe results *)

Lemma restore_refused r ref c now :
  (forall e, entryLocked r (ref_ID ref) = Some e -> recoverable ref c e = false) ->
  restoreRuntimeStateIfMatch r ref c now = (r, false).
Proof.
  intros H. unfold restoreRuntimeStateIfMatch, entryLocked in *.
  destruct (credentialGroups r !! ref_ID ref) as [g|]; [|done]. case_if; [done|].
  destruct (lookupEntry r g (ref_ID ref)) as [e|]; [|done]. by rewrite (H e).
Qed.

Lemma recoverable_generation ref c e : ent_FailureGeneration e <> ref_FailureGeneration ref -> recoverable ref c e = false.
Proof.
  intros H. unfold recoverable. rewrite (proj2 (Z.eqb_neq _ _) H). by rewrite andb_false_r.
Qed.

Lemma recoverable_version ref c e : ent_Version e <> ref_Version ref -> recoverable ref c e = false.
Proof. intros H. unfold recoverable. rewrite (proj2 (Z.eqb_neq _ _) H). by rewrite !andb_false_r. Qed.

Lemma nextFailure_ne e : is_u64 (ent_FailureGeneration e) -> nextFailure e <> ent_FailureGeneration e.
Proof.
  unfold nextFailure. unfold_ints. intros H E.
  destruct (decide (ent_FailureGeneration e = 18446744073709551615)) as [Em|Em].
  - rewrite Em in E. vm_compute in E. done.
  - rewrite Z.mod_small in E by lia. lia.
Qed.

Section Stale.
Variables (r : CredentialRegistry) (id now : Z) (e : CredentialEntry) (c : option Z).
Hypotheses (Hok : registry_ok r) (He : entryLocked r id = Some e).

(** The probe result obtained with the reference of [e] changes nothing in [r1]. *)
Definition probe_refused (r1 : CredentialRegistry) : Prop := restoreRuntimeStateIfMatch r1 (refOf e) c now = (r1, false).

Lemma refused_mutate e' :
  sameIdentity e' e -> recoverable (refOf e) c e' = false -> probe_refused (mutate id e' r).
Proof.
  intros Hs Hr. apply restore_refused. intros x. cbn. destruct (entryLocked_group r id e (rg_index r Hok) He) as (_ & _ & ->).
  rewrite (entryLocked_mutate r id e) by done. rewrite decide_True by done. congruence.
Qed.

Lemma refused_sync e' : probe_refused (mutate id e' r) -> probe_refused (syncEntry e' now (mutate id e' r)).
Proof.
  unfold probe_refused, restoreRuntimeStateIfMatch. cbn [credentialGroups syncEntry setScheduling].
  change (lookupEntry (syncEntry e' now (mutate id e' r))) with (lookupEntry (mutate id e' r)).
  destruct (credentialGroups (mutate id e' r) !! _) as [g|]; [|done]. case_if; [done|].
  destruct (lookupEntry (mutate id e' r) g _) as [x|]; [|done]. case_if; [done|]. intros [=].
Qed.

Lemma refused_failure b n t : is_u64 (ent_FailureGeneration e) ->
  sameIdentity t e -> probe_refused (mutate id (withFailure b n (nextFailure e) t) r).
Proof.
  intros Hu Ht. apply refused_mutate; [etrans; [apply withFailure_identity|done]|].
  apply recoverable_generation. replace (ent_FailureGeneration _) with (nextFailure e) by (by destruct t).
  by apply nextFailure_ne.
Qed.
End Stale.

(** A stale probe result is ignored.  A recovery test captures a reference to the
    credential; if in the meantime the credential failed again, was blacklisted, was
    restored or recovered, had its secret replaced, or was removed, applying the result of
    the test changes nothing. *)
Theorem stale_probe_ignored r id e c now :
  registry_ok r -> entryLocked r id = Some e -> is_u64 (ent_FailureGeneration e) ->
  let refused := probe_refused now e c in
  refused (IncrFailure r id).1
  /\ (ent_Blacklisted e = false -> refused (SetBlacklistedWithChange r id now).1)
  /\ refused (RestoreRuntimeState r id now).1
  /\ (ent_Blacklisted e = true -> refused (Recover r id now).1)
  /\ (forall v fp s, (ReplaceCredentialSecretIfMatch r id (ent_Version e) v fp s).2 = true ->
        refused (ReplaceCredentialSecretIfMatch r id (ent_Version e) v fp s).1)
  /\ refused (RemoveCredential r id).1.
Proof.
  intros Hok He Hu refused. subst refused.
  split; [|split; [|split; [|split; [|split]]]].
  - unfold IncrFailure. rewrite He. by apply refused_failure.
  - intros Hb. unfold SetBlacklistedWithChange. rewrite He, Hb. by apply refused_sync, refused_failure.
  - unfold RestoreRuntimeState. rewrite He. apply refused_sync, refused_failure; [done..|apply withCooldown_identity].
  - intros Hb. unfold Recover. rewrite He, Hb. by apply refused_sync, refused_failure.
  - intros v fp s. unfold ReplaceCredentialSecretIfMatch. destruct (_ || _) eqn:E; [done|]. zb.
    rewrite He, Z.eqb_refl. intros _. cbn [fst]. apply refused_mutate; [done..|apply withSecret_identity|].
    apply recoverable_version. replace (ent_Version _) with v by (by destruct e). cbn. lia.
  - apply restore_refused. intros x. cbn. destruct (entryLocked_group r id e (rg_index r Hok) He) as (_ & _ & ->).
    rewrite (proj2 (RemoveCredential_spec r id Hok)). by rewrite decide_True.
Qed.

(** A blacklisted credential fails once more while it is being tested. *)
Lemma stale_probe_ignored_witness :
  let r := (SetBlacklistedWithChange exRegistry 2 5).1 in
  match entryLocked r 2 with
  | Some e => (RecoverIfMatch r (refOf e) 6).2 = true
              /\ RecoverIfMatch (IncrFailure r 2).1 (refOf e) 6 = ((IncrFailure r 2).1, false)
  | None => False
  end.
Proof.
  cbv zeta. destruct (entryLocked (SetBlacklistedWithChange exRegistry 2 5).1 2) as [e|] eqn:E; [|vm_compute in E; discriminate E].
  split.
  - vm_compute in E. injection E as <-. vm_compute. reflexivity.
  - apply (stale_probe_ignored (SetBlacklistedWithChange exRegistry 2 5).1 2 e None 6).
    + apply SetBlacklistedWithChange_ok, exRegistry_ok.
    + exact E.
    + vm_compute in E. injection E as <-. split; vm_compute; discriminate.
Defined.

(** * Cooldowns *)

(** Cooldowns only extend.  Setting a credential's cooldown leaves the later of the two
    deadlines, whatever the order of concurrent reports; setting a model's cooldown with the
    reference of the current credential does the same for that model, drops the expired
    limits of the others and keeps the live ones. *)
Theorem cooldowns_only_extend r id e until now m :
  registry_ok r -> entryLocked r id = Some e -> 0 <= now ->
  m <> EmptyString -> TrimSpace m = m -> now < until ->
  (let '(r', (found, changed)) := SetCooldownWithChange r id until now in
   found = true /\ changed = (ent_CooldownUntil e <? until)
   /\ forall i, entryLocked r' i
        = if decide (i = id) then Some (withCooldown (Z.max (ent_CooldownUntil e) until) e) else entryLocked r i)
  /\ (let '(r', (found, changed)) := SetModelCooldown r (refOf e) m until now in
      let live := pruneModelCooldowns (ent_ModelCooldowns e) now in
      found = true /\ changed = (mget 0 live m <? until)
      /\ forall i, entryLocked r' i
           = if decide (i = id)
             then Some (withModelCooldowns (<[m := Z.max (mget 0 live m) until]> live) (ent_ModelCooldownGeneration e) e)
             else entryLocked r i).
Proof.
  intros Hok He Hnow Hm Htrim Hu. destruct (entryLocked_group r id e (rg_index r Hok) He) as (_ & _ & Eid). split.
  - unfold SetCooldownWithChange. rewrite He. destruct (Z.leb_spec until (ent_CooldownUntil e)).
    + split; [done|]. split; [symmetry; by apply Z.ltb_ge|]. intros i. case_decide; [|done]. subst i.
      rewrite Z.max_l by lia. rewrite He. by destruct e.
    + split; [done|]. split; [symmetry; by apply Z.ltb_lt|]. intros i.
      rewrite Z.max_r by lia.
      change (entryLocked (syncEntry (withCooldown until e) now (mutate id (withCooldown until e) r)) i)
        with (entryLocked (mutate id (withCooldown until e) r) i).
      by apply (entryLocked_mutate r id e); [..|apply withCooldown_identity].
  - unfold SetModelCooldown. rewrite bool_decide_eq_false_2, bool_decide_eq_true_2 by done.
    rewrite (proj2 (Z.leb_gt until now)) by done. cbn [orb negb ref_ID refOf]. rewrite Eid, He. cbn [ref_GroupID ref_IdentityGeneration ref_ModelCooldownGeneration refOf].
    rewrite !Z.eqb_refl. cbn [negb orb]. set (live := pruneModelCooldowns _ now).
    destruct (Z.leb_spec until (mget 0 live m)) as [Hle|Hlt].
    + split; [done|]. split; [symmetry; by apply Z.ltb_ge|]. intros i. rewrite Z.max_l by lia.
      rewrite (insert_id live m); [by apply (entryLocked_mutate r id e); [..|apply withModelCooldowns_identity]|].
      unfold mget in *. destruct (live !! m) as [t|]; [done|]. cbn in Hle. lia.
    + split; [done|]. split; [symmetry; by apply Z.ltb_lt|]. intros i. rewrite Z.max_r by lia.
      by apply (entryLocked_mutate r id e); [..|apply withModelCooldowns_identity].
Qed.

Lemma cooldowns_only_extend_witness :
  match entryLocked exRegistry 1 with
  | Some e => (SetCooldownWithChange exRegistry 1 50 10).2 = (true, true)
              /\ (SetModelCooldown exRegistry (refOf e) "gpt-5" 50 10).2 = (true, true)
  | None => False
  end.
Proof.
  destruct (entryLocked exRegistry 1) as [e|] eqn:E; [|vm_compute in E; discriminate E].
  destruct (cooldowns_only_extend exRegistry 1 e 50 10 "gpt-5") as [H1 H2].
  - apply exRegistry_ok.
  - exact E.
  - lia.
  - discriminate.
  - vm_compute. reflexivity.
  - lia.
  - destruct (SetCooldownWithChange exRegistry 1 50 10) as [r1 [f1 c1]].
    destruct (SetModelCooldown exRegistry (refOf e) "gpt-5" 50 10) as [r2 [f2 c2]].
    destruct H1 as (-> & -> & _), H2 as (-> & -> & _). vm_compute in E. injection E as <-. split; vm_compute; reflexivity.
Defined.

(** * The runtime checkpoint across a restart *)

Lemma allEntries_elem r e : index_ok r -> e ∈ allEntries r <-> entryLocked r (ent_ID e) = Some e.
Proof.
  intros Hix. unfold allEntries. rewrite list_elem_of_bind. split.
  - intros (b & (p & -> & Hp)%list_elem_of_fmap & ([g x] & -> & Hb%elem_of_map_to_list)%list_elem_of_fmap).
    destruct p as [id e']. apply elem_of_map_to_list in Hp. cbn in *.
    assert (lookupEntry r g id = Some e') as Hl by (unfold lookupEntry, bucketOf, mget; by rewrite Hb).
    destruct (ix_entry r Hix _ _ _ Hl) as (-> & _). apply entryLocked_spec; [done|by exists g].
  - intros He. destruct (entryLocked_group r _ e Hix He) as (_ & Hl & _). unfold lookupEntry, bucketOf, mget in Hl.
    destruct (buckets r !! ent_GroupID e) as [b|] eqn:Hb; [|cbn in Hl; by rewrite lookup_empty in Hl]. cbn in Hl.
    exists b. split; apply list_elem_of_fmap; [exists (ent_ID e, e)|exists (ent_GroupID e, b)];
      (split; [done|by apply elem_of_map_to_list]).
Qed.

Lemma allEntries_nodup r : index_ok r -> NoDup (ent_ID <$> allEntries r).
Proof.
  intros Hix. unfold allEntries. set (bs := mentries (buckets r)).
  assert (forall g b, (g, b) ∈ bs -> forall id e, b !! id = Some e -> ent_ID e = id /\ ent_GroupID e = g) as Hb.
  { intros g b H%elem_of_map_to_list id e He. assert (lookupEntry r g id = Some e) as Hl
      by (unfold lookupEntry, bucketOf, mget; by rewrite H). by destruct (ix_entry r Hix _ _ _ Hl) as (-> & -> & _). }
  assert (NoDup bs.*1) as Hnd by apply NoDup_fst_map_to_list.
  assert (forall g b id e, (g, b) ∈ bs -> b !! id = Some e -> entryLocked r id = Some e) as Hin.
  { intros g b id e H%elem_of_map_to_list He. apply entryLocked_spec; [done|]. exists g.
    unfold lookupEntry, bucketOf, mget. by rewrite H. }
  clearbody bs. induction bs as [|[g b] bs IH]; [constructor|].
  rewrite fmap_cons, NoDup_cons in Hnd. destruct Hnd as [Hg Hnd]. rewrite fmap_cons, bind_cons, fmap_app. cbn [snd].
  apply NoDup_app. split; [|split].
  - rewrite <- list_fmap_compose, (list_fmap_ext _ fst); [apply NoDup_fst_map_to_list|].
    intros i [k e] H. cbn. apply list_elem_of_lookup_2, elem_of_map_to_list in H. by eapply Hb; [constructor|].
  - intros id (e & -> & ([k e'] & -> & He%elem_of_map_to_list)%list_elem_of_fmap)%list_elem_of_fmap. cbn [snd].
    intros (x & Ex & (b' & (p & -> & Hp)%list_elem_of_fmap & ([g' b''] & -> & Hb')%list_elem_of_fmap)%list_elem_of_bind)%list_elem_of_fmap.
    destruct p as [k' x']. apply elem_of_map_to_list in Hp. cbn in *.
    destruct (Hb g b ltac:(constructor) k e' He) as [E1 E2]. destruct (Hb g' b'' ltac:(by constructor) k' x' Hp) as [E3 E4].
    pose proof (Hin g b k e' ltac:(constructor) He). pose proof (Hin g' b'' k' x' ltac:(by constructor) Hp).
    assert (k = k') as Ek by congruence. rewrite Ek in *. assert (e' = x') as Ee by congruence. rewrite Ee in *.
    assert (g = g') as Egg by congruence. apply Hg, list_elem_of_fmap. by exists (g', b'').
  - apply IH; [|done|]; intros; [eapply Hb|eapply Hin]; try (constructor; eassumption); eassumption.
Qed.

(** Each checkpoint is for a credential of the loaded registry. *)
Definition fits (r0 : CredentialRegistry) (c : CredentialRuntimeCheckpoint) : Prop :=
  rcp_ID c <> 0 /\ rcp_GroupID c <> 0 /\ 0 <= rcp_FailureCount c
  /\ exists e0, entryLocked r0 (rcp_ID c) = Some e0 /\ ent_GroupID e0 = rcp_GroupID c.

Lemma restoreRuntimeStep_fits r n c t t' e0 :
  registry_ok r -> rcp_ID c <> 0 -> rcp_GroupID c <> 0 -> 0 <= rcp_FailureCount c ->
  entryLocked r (rcp_ID c) = Some e0 -> ent_GroupID e0 = rcp_GroupID c ->
  exists r', restoreRuntimeStep (r, n) (c, (t, t')) = (r', n + 1) /\ registry_ok r'
    /\ forall i, entryLocked r' i = if decide (i = rcp_ID c) then Some (restoreHealth c t e0) else entryLocked r i.
Proof.
  intros Hok H1 H2 H3 He Eg. pose proof (restoreRuntimeStep_ok (r, n) (c, (t, t')) Hok) as Hok'.
  unfold restoreRuntimeStep in *. rewrite (proj2 (Z.eqb_neq (rcp_ID c) 0)), (proj2 (Z.eqb_neq (rcp_GroupID c) 0)),
    (proj2 (Z.ltb_ge _ 0)) in * by done. cbn [orb] in *.
  destruct (entryLocked_group r _ e0 (rg_index r Hok) He) as (Hg & Hl & _). rewrite Hg, Eg, Z.eqb_refl in *. cbn [negb] in *.
  rewrite Hl in *. cbn [fst] in Hok'. eexists. split; [done|]. split; [done|]. intros i. rewrite <- Eg, (mutate_store r _ e0) by done.
  change (entryLocked (syncEntry (restoreHealth c t e0) t' (mutate (rcp_ID c) (restoreHealth c t e0) r)) i)
    with (entryLocked (mutate (rcp_ID c) (restoreHealth c t e0) r) i).
  by apply (entryLocked_mutate r _ e0); [..|apply restoreHealth_identity].
Qed.

Lemma restoreRuntime_fold r n (xs : list (CredentialRuntimeCheckpoint * (Z * Z))) :
  registry_ok r -> NoDup (rcp_ID <$> xs.*1) -> Forall (fits r) xs.*1 ->
  let '(r', n') := fold_left restoreRuntimeStep xs (r, n) in
  registry_ok r' /\ n' = n + Z.of_nat (length xs)
  /\ (forall c t t' e0, (c, (t, t')) ∈ xs -> entryLocked r (rcp_ID c) = Some e0 ->
        entryLocked r' (rcp_ID c) = Some (restoreHealth c t e0))
  /\ (forall id, id ∉ rcp_ID <$> xs.*1 -> entryLocked r' id = entryLocked r id).
Proof.
  revert r n. induction xs as [|[c [t t']] xs IH]; intros r n Hok Hnd Hf; cbn [fold_left].
  { split; [done|]. split; [cbn; lia|]. split; [intros c t t' e0 H; by apply not_elem_of_nil in H|done]. }
  rewrite !fmap_cons, NoDup_cons in Hnd. cbn [fst] in Hnd. destruct Hnd as [Hc Hnd].
  rewrite fmap_cons, Forall_cons in Hf. destruct Hf as [(H1 & H2 & H3 & e0 & He & Eg) Hf].
  destruct (restoreRuntimeStep_fits r n c t t' e0) as (r1 & -> & Hok1 & Hent); [done..|].
  assert (forall c', c' ∈ xs.*1 -> rcp_ID c' <> rcp_ID c) as Hne.
  { intros c' Hc' E. apply Hc. rewrite <- E. by apply list_elem_of_fmap_2. }
  specialize (IH r1 (n + 1) Hok1 Hnd). destruct (fold_left _ xs _) as [r2 n2]. destruct IH as (Hok2 & Hn & Hin & Hout).
  { rewrite Forall_forall in *. intros c' Hc'. destruct (Hf c' Hc') as (? & ? & ? & x & Hx & ?).
    split; [done|]. split; [done|]. split; [done|]. exists x. rewrite Hent, decide_False by auto. done. }
  split; [done|]. split; [cbn [length]; lia|]. split.
  - intros c' u u' x [E|Hx]%elem_of_cons Hl.
    + simplify_eq. rewrite Hout, Hent by done. rewrite decide_True by done. cbn in He. congruence.
    + apply Hin with (1 := Hx). rewrite Hent, decide_False; [done|]. apply Hne. by apply (list_elem_of_fmap_2 fst) in Hx.
  - intros id. rewrite !fmap_cons, not_elem_of_cons. cbn [fst]. intros [Hn' Hid]. rewrite Hout, Hent by done. by rewrite decide_False.
Qed.

(** The registry [r0] of a restarted process that loaded the credentials [r] had. *)
Definition reloadedCredentials (r r0 : CredentialRegistry) : Prop :=
  forall id, match entryLocked r id, entryLocked r0 id with
    | Some e, Some e0 => ent_GroupID e0 = ent_GroupID e /\ ent_IdentityGeneration e0 = ent_IdentityGeneration e
    | None, None => True
    | _, _ => False
    end.

Lemma prune_prune m a b : pruneModelCooldowns (pruneModelCooldowns m a) b = pruneModelCooldowns m (Z.max a b).
Proof.
  apply map_eq. intros i. apply option_eq. intros t. rewrite !lookup_prune_Some. naive_solver lia.
Qed.

Lemma imap_fst {A B} (l : list A) (f : nat -> B) : (imap (fun i c => (c, f i)) l).*1 = l.
Proof.
  revert f. induction l as [|x l IH]; intros f; [done|]. rewrite imap_cons, fmap_cons. cbn [fst]. f_equal. apply IH.
Qed.

Lemma capture_runtime_elem r now c :
  registry_ok r ->
  c ∈ (CaptureRuntimeCheckpoint r now).2
  <-> exists e, entryLocked r (ent_ID e) = Some e /\ c = captureEntry (expireEntry now e).
Proof.
  intros Hok. pose proof (rg_index r Hok) as Hix. pose proof (rg_index _ (Expire_ok r now Hok)) as Hix1.
  unfold CaptureRuntimeCheckpoint. cbn [snd]. rewrite merge_sort_Permutation, list_elem_of_fmap. split.
  - intros (e1 & -> & H%allEntries_elem); [|done]. rewrite Expire_entries in H by done.
    destruct (entryLocked r (ent_ID e1)) as [e|] eqn:E; [|done]. cbn in H. injection H as <-. exists e.
    split; [|done]. by destruct (expireEntry_identity now e) as (<- & _).
  - intros (e & He & ->). exists (expireEntry now e). split; [done|]. apply allEntries_elem; [done|].
    destruct (expireEntry_identity now e) as (-> & _). by rewrite Expire_entries, He.
Qed.

Lemma expired_length r now : registry_ok r -> length (allEntries (ExpireModelCooldowns r now)) = length (allEntries r).
Proof.
  intros Hok. pose proof (rg_index r Hok) as Hix. pose proof (rg_index _ (Expire_ok r now Hok)) as Hix1.
  rewrite <- (length_fmap ent_ID (allEntries r)), <- (length_fmap ent_ID). apply Permutation_length.
  apply NoDup_Permutation; [by apply allEntries_nodup..|]. intros id. rewrite !list_elem_of_fmap. split.
  - intros (x & -> & H%allEntries_elem); [|done]. rewrite Expire_entries in H by done.
    destruct (entryLocked r (ent_ID x)) as [e|] eqn:E; [|done]. exists e.
    destruct (entryLocked_group r _ e Hix E) as (_ & _ & Ei). rewrite <- Ei in E. split; [done|]. by apply allEntries_elem.
  - intros (e & -> & H%allEntries_elem); [|done]. exists (expireEntry now e).
    destruct (expireEntry_identity now e) as (Ei & _). split; [done|]. apply allEntries_elem; [done|].
    by rewrite Ei, Expire_entries, H.
Qed.

(** Restart keeps health.  A runtime checkpoint captured from one registry and restored
    into the registry a restarted process loads with the same credentials restores every
    one of them: cooldown, blacklist and failure count are what they were, the model
    cooldowns are those still running when the checkpoint is read back, and the persisted
    configuration and the failure generation are those of the loaded registry. *)
Theorem runtime_checkpoint_roundtrip r r0 now clock :
  registry_ok r -> registry_ok r0 -> reloadedCredentials r r0 ->
  (forall id e, entryLocked r id = Some e -> 0 <= ent_FailureCount e) ->
  let '(r', n) := RestoreRuntimeCheckpoint r0 (CaptureRuntimeCheckpoint r now).2 clock in
  registry_ok r' /\ n = Z.of_nat (length (allEntries r))
  /\ forall id e e0, entryLocked r id = Some e -> entryLocked r0 id = Some e0 -> exists i,
       entryLocked r' id = Some
         (withModelCooldowns (pruneModelCooldowns (ent_ModelCooldowns e) (Z.max now (clock i).1))
            (ent_ModelCooldownGeneration e0)
            (withFailure (ent_Blacklisted e) (ent_FailureCount e) (ent_FailureGeneration e0)
               (withCooldown (ent_CooldownUntil e) e0))).
Proof.
  intros Hok Hok0 Hrl Hfc. pose proof (rg_index r Hok) as Hix.
  assert (length (CaptureRuntimeCheckpoint r now).2 = length (allEntries r)) as Hlen.
  { unfold CaptureRuntimeCheckpoint. cbn [snd]. rewrite (Permutation_length (merge_sort_Permutation _ _)), length_fmap.
    by apply expired_length. }
  assert (NoDup (rcp_ID <$> (CaptureRuntimeCheckpoint r now).2)) as Hnd.
  { unfold CaptureRuntimeCheckpoint. cbn [snd]. rewrite merge_sort_Permutation, <- list_fmap_compose.
    apply allEntries_nodup, (Expire_ok r now Hok). }
  pose proof (fun c => capture_runtime_elem r now c Hok) as Hcps.
  set (cps := (CaptureRuntimeCheckpoint r now).2) in *. unfold RestoreRuntimeCheckpoint.
  pose proof (restoreRuntime_fold r0 0 (imap (fun i c => (c, clock i)) cps)) as HF. rewrite imap_fst, length_imap in HF.
  destruct (fold_left _ _ _) as [r' n]. destruct HF as (Hok' & Hn & Hin & _); [done..| |].
  - apply Forall_forall. intros c (e & He & ->)%Hcps. destruct (rg_valid r Hok _ _ He) as [Hv _].
    apply validateEntry_id in Hv as [? ?]. specialize (Hrl (ent_ID e)). rewrite He in Hrl.
    destruct (entryLocked r0 (ent_ID e)) as [e0|] eqn:E0; [|done]. pose proof (Hfc _ _ He).
    destruct e. cbn in *. split; [done|]. split; [done|]. split; [done|]. exists e0. naive_solver.
  - split; [done|]. split; [lia|]. intros id e e0 He He0. specialize (Hrl id). rewrite He, He0 in Hrl. destruct Hrl as [Eg Ei].
    destruct (entryLocked_group r id e Hix He) as (_ & _ & Eid).
    assert (captureEntry (expireEntry now e) ∈ cps) as [i Hi]%list_elem_of_lookup by (apply Hcps; exists e; by rewrite Eid).
    exists i. specialize (Hin (captureEntry (expireEntry now e)) (clock i).1 (clock i).2 e0).
    replace (rcp_ID (captureEntry (expireEntry now e))) with id in Hin by (by destruct e). rewrite Hin.
    + f_equal. rewrite <- prune_prune. unfold restoreHealth. destruct e, e0; cbn in *. subst. by rewrite Z.eqb_refl.
    + apply list_elem_of_lookup. exists i. rewrite list_lookup_imap, Hi. cbn. by destruct (clock i).
    + done.
Qed.

Lemma exRegistry_reloaded : reloadedCredentials exRegistry exRegistry.
Proof. intros id. by destruct (entryLocked exRegistry id). Qed.

Lemma runtime_checkpoint_roundtrip_witness :
  (RestoreRuntimeCheckpoint exRegistry (CaptureRuntimeCheckpoint exRegistry 5).2 (fun _ => (6, 6))).2 = 3.
Proof.
  pose proof (runtime_checkpoint_roundtrip exRegistry exRegistry 5 (fun _ => (6, 6)) exRegistry_ok exRegistry_ok
    exRegistry_reloaded) as H.
  destruct (RestoreRuntimeCheckpoint exRegistry (CaptureRuntimeCheckpoint exRegistry 5).2 (fun _ => (6, 6))) as [r' n].
  destruct H as (_ & -> & _).
  - intros id e He. assert (map_Forall (fun _ e => ent_FailureCount e = 0) (entries_of exRegistry)) as Hf
      by (apply (bool_decide_unpack _); vm_compute; exact I).
    rewrite (Hf id e); [lia|]. rewrite entries_of_lookup. exact He.
  - vm_compute. reflexivity.
Defined.
