(* ===== verification/Routing.v ===== *)
(** Resolving a query to route targets ([internal/scheduler]: [evaluateTargets] of [inspect.go],
    [normalizeQuery], [filterTargetsWithReason] and [CandidateGroupIDsForQuery] of
    [scheduler.go]). *)
From S2P Require Import Prelude GoStrings Execution Judge Config Credential.

Local Open Scope Z_scope.
Local Open Scope go_scope.

(** * Reasons and errors *)

Abbreviation ReasonCode := string (only parsing).
Definition ReasonAccessKeyDisabled : ReasonCode := "access_key_disabled".
Definition ReasonProtocolFiltered : ReasonCode := "protocol_filtered".
Definition ReasonModelFiltered : ReasonCode := "model_filtered".
Definition ReasonModelRequiredByFilter : ReasonCode := "model_required_by_filter".
Definition ReasonOperationUnsupported : ReasonCode := "operation_unsupported".
Definition ReasonNativeRouteRequired : ReasonCode := "native_route_required".
Definition ReasonNoRouteTarget : ReasonCode := "no_route_target".
Definition ReasonGroupDisabled : ReasonCode := "group_disabled".
Definition ReasonCodexLiveDisabled : ReasonCode := "codex_live_disabled".
Definition ReasonWebsocketDisabled : ReasonCode := "websocket_disabled".
Definition ReasonGroupFiltered : ReasonCode := "group_filtered".
Definition ReasonNoAvailableGroup : ReasonCode := "no_available_group".

(** [IndexOutOfRange] is a panic of the program, [ErrInconsistentSnapshot] an error value. *)
Inductive SchedulerError := IndexOutOfRange | ErrInconsistentSnapshot.

(** * Queries *)

Record Query := mkQuery {
  q_ClientProtocol : Protocol;
  q_Operation : Operation;
  q_RouteRequirement : RouteRequirement;
  q_ResponsesStorePreference : ResponsesStorePreference;
  q_ExternalModel : option string;
  q_AccessKey : AccessKeyView;
  q_AllowedCredentialIDs : option (gset Z);
  q_PreferredCredentialID : Z;
  q_AllowedCredentialRefs : option (gmap Z CredentialRef);
  q_ResponsesWebsocket : option WebsocketCapabilities
}.

Record normalizedQuery := mkNormalized {
  nq_clientProtocol : Protocol;
  nq_operation : Operation;
  nq_routeRequirement : RouteRequirement;
  nq_responsesStorePreference : ResponsesStorePreference;
  nq_responsesWebsocket : option WebsocketCapabilities;
  nq_externalModel : option string;
  nq_accessKey : AccessKeyView;
  nq_allowedCredentialIDs : option (gset Z)
}.

Definition normalizeQuery (q : Query) : normalizedQuery :=
  let operation :=
    if strEq (q_Operation q) "" then
      if strEq (q_ClientProtocol q) OpenAIImages then q_Operation q
      else if strEq (q_ClientProtocol q) OpenAIResponses then
        match q_ExternalModel q with None => OperationResponsesRetrieve | Some _ => OperationResponsesCreate end
      else OperationChatCompletion
    else q_Operation q in
  mkNormalized (q_ClientProtocol q) operation (Normalize (q_RouteRequirement q)) (q_ResponsesStorePreference q)
    (q_ResponsesWebsocket q) (q_ExternalModel q) (q_AccessKey q) (q_AllowedCredentialIDs q).

Abbreviation filtersOf nq := (ak_Filters (nq_accessKey nq)).

Definition allowsModelLessResources (nq : normalizedQuery) : bool :=
  if negb (fs_AllowModelLessResources (filtersOf nq)) || isSome (nq_externalModel nq)
     || negb (strEq (nq_clientProtocol nq) NativeServices) then false
  else oneOf (nq_operation nq)
    [OperationResourceCreate; OperationResourceRead; OperationResourceDelete; OperationResourceCancel].

(** * One route *)

(** Whether the route satisfies the query, whether it downgrades storage, and why not. *)
Definition routeRequirementSatisfied (nq : normalizedQuery) (route : RouteTarget) : bool * bool * ReasonCode :=
  let yes := (true, false, ""%string) in
  let native := (false, false, ReasonNativeRouteRequired) in
  let isNative := strEq (rt_Mode route) RouteNative in
  let handling := responsesStoreHandling (rt_ResolvedTarget route) OpenAIResponses OperationResponsesCreate in
  if negb (Allows (nq_routeRequirement nq) (rt_Mode route)) then native
  else match nq_responsesWebsocket nq with
  | Some required =>
      if strEq (nq_clientProtocol nq) OpenAIResponses && strEq (nq_operation nq) OperationResponsesCreate && isNative
         && Supports (tg_ResponsesWebsocket (rt_ResolvedTarget route)) required
      then yes else native
  | None =>
      if negb (strEq (nq_operation nq) OperationResponsesCreate) then yes
      else if strEq (nq_responsesStorePreference nq) ResponsesStorePreferenceRequireStored then
        if isNative && strEq handling ResponsesStoreHandlingUpstreamManaged then yes else native
      else if strEq (Normalize (nq_routeRequirement nq)) RouteRequirementNative then
        if SupportsResponsesLifecycle (rt_ResolvedTarget route) then yes else native
      else if negb (strEq (nq_responsesStorePreference nq) ResponsesStorePreferencePreferStored) then yes
      else if strEq handling ResponsesStoreHandlingUpstreamManaged then yes
      else if strEq handling ResponsesStoreHandlingStateless then (true, true, ""%string)
      else (false, false, ReasonOperationUnsupported)
  end.

Record targetDecision := mkTargetDecision {
  td_target : RouteTarget;
  td_group : GroupCatalogView;
  td_requirementOK : bool;
  td_responsesStoreDowngraded : bool;
  td_included : bool;
  td_reason : ReasonCode
}.

(** The client names the model of a live call. *)
Definition clientSelectedLiveModel (nq : normalizedQuery) : bool :=
  strEq (nq_clientProtocol nq) CodexLive && strEq (nq_operation nq) OperationLiveCall.

Definition modelKeyOf (nq : normalizedQuery) : string :=
  match nq_externalModel nq with
  | Some m => if negb (clientSelectedLiveModel nq) then m else NoModelRouteKey
  | None => NoModelRouteKey
  end.

Definition groupFilteredOut (nq : normalizedQuery) (groupID : Z) : bool :=
  let f := filtersOf nq in
  let filtered := if fs_GroupsRestricted f || negb (bool_decide (fs_Groups f = ∅))
                  then negb (bool_decide (groupID ∈ fs_Groups f)) else false in
  if strEq (nq_clientProtocol nq) TransparentHTTP
  then filtered || negb (bool_decide (groupID ∈ default [] (fs_Transparent f)))
  else filtered.

Definition withUpstream (model : string) (t : RouteTarget) : RouteTarget :=
  mkRouteTarget (rt_GroupID t) model (rt_Mode t) (rt_ResolvedTarget t).

(** Why an otherwise suitable target is left out; empty when it is not. *)
Definition exclusionReason (snapshot : ConfigSnapshot) (nq : normalizedQuery) (group : GroupCatalogView) (groupID : Z)
    (requirementOK : bool) (requirementReason : ReasonCode) : option ReasonCode :=
  let view := snap_Groups snapshot !! groupID in
  if negb requirementOK then Some requirementReason
  else if negb (gc_Enabled group) then Some ReasonGroupDisabled
  else if clientSelectedLiveModel nq && strEq (from_option gv_CodexLiveMode ""%string view) CodexLiveOff
  then Some ReasonCodexLiveDisabled
  else if groupFilteredOut nq groupID then Some ReasonGroupFiltered
  else if isSome (nq_responsesWebsocket nq) && negb (from_option gv_ResponsesWebsocketEnabled false view)
  then Some ReasonWebsocketDisabled
  else None.

(** A wildcard route takes the requested model, and the mode its target has for it. *)
Definition wildcardRoute (nq : normalizedQuery) (wildcard : bool) (route : RouteTarget) : option RouteTarget :=
  if wildcard then
    match ModeForModel (rt_ResolvedTarget route) (nq_clientProtocol nq) (nq_operation nq) (modelKeyOf nq) with
    | Some mode => Some (mkRouteTarget (rt_GroupID route) (modelKeyOf nq) mode (rt_ResolvedTarget route))
    | None => None
    end
  else Some route.

Definition evaluateRoute (snapshot : ConfigSnapshot) (nq : normalizedQuery) (wildcard : bool) (route : RouteTarget)
  : result SchedulerError (option targetDecision) :=
  match snap_GroupCatalog snapshot !! rt_GroupID route with
  | None => Err ErrInconsistentSnapshot
  | Some group =>
      match wildcardRoute nq wildcard route with
      | None => Ok None
      | Some route =>
          let '(requirementOK, downgraded, requirementReason) := routeRequirementSatisfied nq route in
          let target :=
            match nq_externalModel nq with
            | Some m => if clientSelectedLiveModel nq then withUpstream m route else route
            | None => route
            end in
          let excluded := exclusionReason snapshot nq group (rt_GroupID route) requirementOK requirementReason in
          Ok (Some (mkTargetDecision target group requirementOK downgraded (negb (isSome excluded)) (default "" excluded)))
      end
  end.

Fixpoint evaluateRoutes (snapshot : ConfigSnapshot) (nq : normalizedQuery) (wildcard : bool) (routes : list RouteTarget)
  : result SchedulerError (list targetDecision) :=
  match routes with
  | [] => Ok []
  | route :: rest =>
      try! d := evaluateRoute snapshot nq wildcard route in
      try! ds := evaluateRoutes snapshot nq wildcard rest in
      Ok (match d with Some d => d :: ds | None => ds end)
  end.

(** * All routes of a query *)

(** The refusals that need no route. *)
Definition queryRefused (nq : normalizedQuery) : option ReasonCode :=
  let f := filtersOf nq in
  if strEq (ak_Status (nq_accessKey nq)) AccessKeyStatusDisabled then Some ReasonAccessKeyDisabled
  else if strEq (nq_clientProtocol nq) TransparentHTTP && negb (isSome (fs_Transparent f)) then Some ReasonProtocolFiltered
  else if negb (bool_decide (fs_Protocols f = ∅)) && negb (bool_decide (nq_clientProtocol nq ∈ fs_Protocols f))
  then Some ReasonProtocolFiltered
  else if negb (bool_decide (fs_Models f = ∅)) && negb (allowsModelLessResources nq)
          && negb (isSome (nq_externalModel nq)) then Some ReasonModelRequiredByFilter
  else if negb (bool_decide (fs_Models f = ∅)) && negb (allowsModelLessResources nq)
          && negb (bool_decide (default "" (nq_externalModel nq) ∈ fs_Models f)) then Some ReasonModelFiltered
  else if negb (protocolValid (nq_clientProtocol nq)) || negb (operationValid (nq_operation nq))
          || negb (requirementValid (nq_routeRequirement nq)) || negb (storePreferenceValid (nq_responsesStorePreference nq))
  then Some ReasonOperationUnsupported
  else None.

(** The routes to evaluate and whether they are wildcards, or the reason there are none. *)
Definition routesOf (snapshot : ConfigSnapshot) (index : ExecutionCandidateIndex) (nq : normalizedQuery) (allowWildcard : bool)
  : ReasonCode + (bool * list RouteTarget) :=
  let modelKey := modelKeyOf nq in
  let byOperation := mget ∅ index (nq_clientProtocol nq) in
  let byModel := byOperation !! nq_operation nq in
  let routes := match byModel with Some m => mget [] m modelKey | None => [] end in
  let candidates := mget [] (mget ∅ (snap_WildcardCandidates snapshot) (nq_clientProtocol nq)) (nq_operation nq) in
  if bool_decide (routes = []) && allowWildcard && negb (strEq modelKey NoModelRouteKey)
     && negb (clientSelectedLiveModel nq) && negb (bool_decide (candidates = []))
  then inr (true, candidates)
  else if bool_decide (byOperation = ∅) then inl ReasonNoRouteTarget
  else if negb (isSome byModel) then inl ReasonOperationUnsupported
  else if bool_decide (routes = []) then inl ReasonNoRouteTarget
  else inr (false, routes).

(** The reason when no target is included; [decisions[0]] panics on an empty slice. *)
Definition staticReasonOf (ds : list targetDecision) : result SchedulerError ReasonCode :=
  if existsb td_included ds then Ok ""%string
  else match ds with
  | [] => Err IndexOutOfRange
  | d :: rest =>
      if forallb (fun d' => strEq (td_reason d') (td_reason d)) rest then Ok (td_reason d) else Ok ReasonNoAvailableGroup
  end.

Definition evaluateTargets (snapshot : option ConfigSnapshot) (index : ExecutionCandidateIndex) (nq : normalizedQuery)
    (allowWildcard : bool) : result SchedulerError (list targetDecision * ReasonCode) :=
  match snapshot with
  | None => Err ErrInconsistentSnapshot
  | Some snapshot =>
      match queryRefused nq with
      | Some reason => Ok ([], reason)
      | None =>
          match routesOf snapshot index nq allowWildcard with
          | inl reason => Ok ([], reason)
          | inr (wildcard, routes) =>
              try! ds := evaluateRoutes snapshot nq wildcard routes in
              try! reason := staticReasonOf ds in
              Ok (ds, reason)
          end
      end
  end.

(** * What the scheduler keeps *)

Record candidateTarget := mkTarget {
  ct_target : RouteTarget;
  ct_group : GroupView;
  ct_responsesStoreDowngraded : bool
}.

Definition candidateOf (snapshot : ConfigSnapshot) (d : targetDecision) : option candidateTarget :=
  if negb (td_included d) then None
  else match snap_Groups snapshot !! rt_GroupID (td_target d) with
  | Some group => Some (mkTarget (td_target d) group (td_responsesStoreDowngraded d))
  | None => None
  end.

(** An error value of the evaluation gives no targets; a panic propagates. *)
Definition filterTargetsWithReason (snapshot : option ConfigSnapshot) (q : Query)
  : result SchedulerError (list candidateTarget * ReasonCode) :=
  match snapshot with
  | None => Ok ([], ""%string)
  | Some sn =>
      match evaluateTargets (Some sn) (snap_ExecutionCandidates sn) (normalizeQuery q) true with
      | Ok (ds, reason) => Ok (omap (candidateOf sn) ds, reason)
      | Err ErrInconsistentSnapshot => Ok ([], ""%string)
      | Err IndexOutOfRange => Err IndexOutOfRange
      end
  end.

(** The groups whose credentials are captured for the query, each once, in route order. *)
Definition CandidateGroupIDsForQuery (snapshot : option ConfigSnapshot) (q : Query) : result SchedulerError (list Z) :=
  match snapshot with
  | None => Ok []
  | Some sn =>
      match evaluateTargets (Some sn) (snap_ExecutionCandidates sn) (normalizeQuery q) true with
      | Ok (ds, _) =>
          Ok (fold_left (fun acc d => if td_included d && negb (bool_decide (rt_GroupID (td_target d) ∈ acc))
                                      then acc ++ [rt_GroupID (td_target d)] else acc) ds [])
      | Err ErrInconsistentSnapshot => Ok []
      | Err IndexOutOfRange => Err IndexOutOfRange
      end
  end.
