(* ===== verification/Iterator.v ===== *)
(** The scheduler's iterator ([internal/scheduler/scheduler.go] and [fair.go]): the failover
    sequence of one request.  An iterator is built from the targets a query resolves to, and
    each [Next] picks one credential and one upstream model among those not tried yet.

    The credentials come from an interface, as in the source: [CredentialSource] is its
    operations and [CredentialSourceLaws] what the iterator relies on.  The iterator's own
    state is explicit, and so is the source's: [Next] takes both and returns both. *)
From S2P Require Import Prelude GoStrings Execution Config Routing Credential Ledger Fair Registry RegistrySafety.

Local Open Scope Z_scope.
Local Open Scope go_scope.

(** * The interface *)

Class CredentialSource (S : Type) := {
  SchedulingStateOf : S -> SchedulingLedger;
  putSchedulingState : SchedulingLedger -> S -> S;
  (** The candidates handed to the callback of [WithCredentialCandidates]. *)
  candidatesUnderLock : S -> list Z -> option (Z -> bool) -> Z -> list CredentialMeta
}.

(** * Data *)

Record candidatePool := mkPool {
  targetsByGroup : gmap Z (list candidateTarget);
  groupIDsByMode : gmap string (list Z);
  priorityLimit : option Z;
  lowerPriority : bool
}.

Definition newCandidatePool : candidatePool := mkPool ∅ ∅ None false.

Record Iterator := mkIterator {
  it_snapshot : option ConfigSnapshot;
  it_operation : Operation;
  it_query : Query;
  it_regular : candidatePool;
  it_storeDowngraded : candidatePool;
  it_routeModeTiers : list (list RouteMode);
  it_allowedCredentialIDs : option (gset Z);
  it_preferredCredentialID : Z;
  it_tried : gset Z;
  it_skippedGroups : gset Z;
  it_allowedCredentialRefs : option (gmap Z (Z * Z));
  it_staticReason : ReasonCode
}.

(** [iterator.query.ExternalModel]. *)
Definition it_externalModel (it : Iterator) : option string := q_ExternalModel (it_query it).

Record Selection := mkSelection {
  sel_CredentialID : Z;
  sel_GroupID : Z;
  sel_ChannelID : string;
  sel_RouteMode : RouteMode;
  sel_UpstreamModelID : option string;
  sel_Group : GroupView;
  sel_ResponsesStoreDowngraded : bool
}.

(** * Construction *)

Definition upstreamOrder (a b : candidateTarget) : Prop :=
  String.le (rt_UpstreamModelID (ct_target a)) (rt_UpstreamModelID (ct_target b)).

#[export] Instance upstreamOrder_dec : RelDecision upstreamOrder.
Proof. intros a b. unfold upstreamOrder. apply _. Defined.

Definition addTarget (p : candidatePool) (t : candidateTarget) : candidatePool :=
  let g := rt_GroupID (ct_target t) in
  let mode := rt_Mode (ct_target t) in
  let ids := mget [] (groupIDsByMode p) mode in
  mkPool (<[g := mget [] (targetsByGroup p) g ++ [t]]> (targetsByGroup p))
    (if bool_decide (g ∈ ids) then groupIDsByMode p else <[mode := ids ++ [g]]> (groupIDsByMode p))
    (priorityLimit p) (lowerPriority p).

Definition sortTargets (p : candidatePool) : candidatePool :=
  mkPool (merge_sort upstreamOrder <$> targetsByGroup p) (groupIDsByMode p) (priorityLimit p) (lowerPriority p).

Definition buildPool (downgraded : bool) (targets : list candidateTarget) : candidatePool :=
  sortTargets (fold_left addTarget
    (filter (fun t => ct_responsesStoreDowngraded t = downgraded) targets) newCandidatePool).

Definition routeModeTiers (snapshot : option ConfigSnapshot) : list (list RouteMode) :=
  match snapshot with
  | Some s =>
      match snap_RouteStrategy s with
      | RouteStrategyWeightedMix => [[RouteNative; RouteConverted]]
      | RouteStrategyNativeFirst => [[RouteNative]; [RouteConverted]]
      end
  | None => [[RouteNative]; [RouteConverted]]
  end.

Definition cloneCredentialIdentities (refs : option (gmap Z CredentialRef)) : option (gmap Z (Z * Z)) :=
  match refs with
  | Some m => Some ((fun ref => (ref_GroupID ref, ref_IdentityGeneration ref)) <$> m)
  | None => None
  end.

(** The iterator over the targets of the query.  Construction publishes the snapshot's groups to
    the scheduling ledger. *)
Definition buildIterator {S} `{CredentialSource S} (snapshot : option ConfigSnapshot) (s : S) (q : Query)
    (targets : list candidateTarget) (staticReason : ReasonCode) : Iterator * S :=
  (mkIterator snapshot (nq_operation (normalizeQuery q)) q (buildPool false targets) (buildPool true targets)
     (routeModeTiers snapshot) (q_AllowedCredentialIDs q) (q_PreferredCredentialID q) ∅ ∅
     (cloneCredentialIdentities (q_AllowedCredentialRefs q)) staticReason,
   putSchedulingState (SyncGroups (SchedulingStateOf s) snapshot) s).

Definition newWithClock {S} `{CredentialSource S} (snapshot : option ConfigSnapshot) (s : S) (q : Query)
  : result SchedulerError (Iterator * S) :=
  try! r := filterTargetsWithReason snapshot q in Ok (buildIterator snapshot s q r.1 r.2).

Definition setTried (tried : gset Z) (it : Iterator) : Iterator :=
  mkIterator (it_snapshot it) (it_operation it) (it_query it) (it_regular it) (it_storeDowngraded it)
    (it_routeModeTiers it) (it_allowedCredentialIDs it) (it_preferredCredentialID it) tried
    (it_skippedGroups it) (it_allowedCredentialRefs it) (it_staticReason it).

Definition poolOf (it : Iterator) (downgraded : bool) : candidatePool :=
  if downgraded then it_storeDowngraded it else it_regular it.

Definition setPool (downgraded : bool) (p : candidatePool) (it : Iterator) : Iterator :=
  mkIterator (it_snapshot it) (it_operation it) (it_query it)
    (if downgraded then it_regular it else p) (if downgraded then p else it_storeDowngraded it)
    (it_routeModeTiers it) (it_allowedCredentialIDs it) (it_preferredCredentialID it) (it_tried it)
    (it_skippedGroups it) (it_allowedCredentialRefs it) (it_staticReason it).

Definition setPriority (limit : option Z) (lower : bool) (p : candidatePool) : candidatePool :=
  mkPool (targetsByGroup p) (groupIDsByMode p) limit lower.

Definition SkipGroup (it : Iterator) (g : Z) : Iterator :=
  if g =? 0 then it
  else mkIterator (it_snapshot it) (it_operation it) (it_query it) (it_regular it) (it_storeDowngraded it)
    (it_routeModeTiers it) (it_allowedCredentialIDs it) (it_preferredCredentialID it) (it_tried it)
    ({[g]} ∪ it_skippedGroups it) (it_allowedCredentialRefs it) (it_staticReason it).

Definition AdvancePriority (it : Iterator) (sel : Selection) : Iterator :=
  let downgraded := sel_ResponsesStoreDowngraded sel in
  setPool downgraded (setPriority (Some (gv_Priority (sel_Group sel))) true (poolOf it downgraded)) it.

(** * Candidates of one pool *)

Definition modelCooldownUntil (limits : gmap string Z) (model : string) (o : Operation) (now : Z) : Z :=
  if negb (UsesModelCooldown o) || bool_decide (model = EmptyString) || (mget 0 limits model <=? now) then 0
  else mget 0 limits model.

Definition targetAvailable (it : Iterator) (t : candidateTarget) (c : CredentialMeta) (modes : list RouteMode)
    (now : Z) : bool :=
  bool_decide (rt_Mode (ct_target t) ∈ modes)
  && negb (now <? modelCooldownUntil (meta_ModelCooldowns c) (rt_UpstreamModelID (ct_target t)) (it_operation it) now).

(** The groups of several modes, each once, in the order they are first met. *)
Definition uniqueGroups (p : candidatePool) (modes : list RouteMode) : list Z :=
  fold_left (fun acc g => if bool_decide (g ∈ acc) then acc else acc ++ [g])
    (modes ≫= (fun m => mget [] (groupIDsByMode p) m)) [].

Definition permitted (it : Iterator) (c : CredentialMeta) : bool :=
  match it_allowedCredentialIDs it with Some ids => bool_decide (meta_ID c ∈ ids) | None => true end
  && match it_allowedCredentialRefs it with
     | Some refs => match refs !! meta_ID c with
                    | Some (g, gen) => (g =? meta_GroupID c) && (gen =? meta_IdentityGeneration c)
                    | None => false
                    end
     | None => true
     end
  && negb (bool_decide (meta_GroupID c ∈ it_skippedGroups it)).

(** The first available target of the credential's group gives its weight. *)
Definition weigh (it : Iterator) (p : candidatePool) (modes : list RouteMode) (now : Z) (c : CredentialMeta)
  : option weightedCredential :=
  if negb (permitted it c) then None
  else match List.find (fun t => targetAvailable it t c modes now) (mget [] (targetsByGroup p) (meta_GroupID c)) with
  | None => None
  | Some t =>
      let weight := effectiveWeight (gv_WeightManual (ct_group t)) (meta_WeightManual c) in
      if 0 <? weight then Some (mkWeighted c weight) else None
  end.

Definition weightedPool {S} `{CredentialSource S} (it : Iterator) (s : S) (p : candidatePool)
    (modes : list RouteMode) (now : Z) : list weightedCredential :=
  omap (weigh it p modes now)
    (candidatesUnderLock s (uniqueGroups p modes) (Some (fun id => bool_decide (id ∈ it_tried it))) now).

(** [snapshot.Groups[id].Priority]; a group that is absent has the zero priority. *)
Definition groupPriority (it : Iterator) (g : Z) : Z :=
  match it_snapshot it with
  | Some s => match snap_Groups s !! g with Some v => gv_Priority v | None => 0 end
  | None => 0
  end.

(** The scan of [priorityCandidates]: the highest priority within the limit and, after a
    failure, the highest one strictly below it. *)
Definition priorityStep (it : Iterator) (p : candidatePool) (acc : option Z * option Z) (c : weightedCredential)
  : option Z * option Z :=
  let value := groupPriority it (meta_GroupID (wc_meta c)) in
  match priorityLimit p with
  | Some limit =>
      if limit <? value then acc
      else
        (match acc.1 with Some x => if x <? value then Some value else acc.1 | None => Some value end,
         if lowerPriority p && (value <? limit)
         then match acc.2 with Some x => if x <? value then Some value else acc.2 | None => Some value end
         else acc.2)
  | None => (match acc.1 with Some x => if x <? value then Some value else acc.1 | None => Some value end, acc.2)
  end.

Definition priorityCandidates (it : Iterator) (p : candidatePool) (cs : list weightedCredential)
  : list weightedCredential :=
  match fold_left (priorityStep it p) cs (None, None) with
  | (None, _) => []
  | (Some priority, lower) =>
      let chosen := default priority lower in
      filter (fun c => groupPriority it (meta_GroupID (wc_meta c)) = chosen) cs
  end.

(** * Picking a credential and a model *)

Definition targetsFor (it : Iterator) (p : candidatePool) (modes : list RouteMode) (c : CredentialMeta) (now : Z)
  : list candidateTarget :=
  filter (fun t => targetAvailable it t c modes now = true) (mget [] (targetsByGroup p) (meta_GroupID c)).

Definition tierEligible (it : Iterator) (p : candidatePool) (modes : list RouteMode) (now : Z)
    (cs : list weightedCredential) : list weightedCredential :=
  filter (fun c => existsb (fun t => targetAvailable it t (wc_meta c) modes now)
                     (mget [] (targetsByGroup p) (meta_GroupID (wc_meta c))) = true) cs.

Definition snapshotRevision (it : Iterator) : option Z := snap_Revision <$> it_snapshot it.

(** [models[0]] and [targets[0]] are index expressions: on an empty slice they panic. *)
Definition selectTarget (it : Iterator) (p : candidatePool) (modes : list RouteMode) (c : CredentialMeta)
    (now : Z) (d : SchedulingLedger) : result SchedulerError (SchedulingLedger * candidateTarget) :=
  let targets := mget [] (targetsByGroup p) (meta_GroupID c) in
  let models := (fun t => rt_UpstreamModelID (ct_target t)) <$> targetsFor it p modes c now in
  match models with
  | [] => Err IndexOutOfRange
  | first :: _ =>
      let '(d', model) :=
        match it_externalModel it with
        | Some x => SelectModel d (meta_GroupID c) x models
        | None => (d, first)
        end in
      match List.find (fun t => bool_decide (rt_UpstreamModelID (ct_target t) = model)) targets with
      | Some t => Ok (d', t)
      | None => match targets with t :: _ => Ok (d', t) | [] => Err IndexOutOfRange end
      end
  end.

(** The tiers in order; the first that yields a credential decides. *)
Fixpoint tryTiers (it : Iterator) (p : candidatePool) (tiers : list (list RouteMode)) (now : Z)
    (cs : list weightedCredential) (d : SchedulingLedger)
  : result SchedulerError (SchedulingLedger * option (CredentialMeta * candidateTarget)) :=
  match tiers with
  | [] => Ok (d, None)
  | modes :: rest =>
      let eligible := tierEligible it p modes now cs in
      match selectCredential d (snapshotRevision it) eligible (it_preferredCredentialID it) with
      | (d1, None) => tryTiers it p rest now cs d1
      | (d1, Some c) => try! r := selectTarget it p modes c now d1 in Ok (r.1, Some (c, r.2))
      end
  end.

Definition newSelection (c : CredentialMeta) (t : candidateTarget) : Selection :=
  mkSelection (meta_ID c) (meta_GroupID c) (tg_ChannelID (rt_ResolvedTarget (ct_target t))) (rt_Mode (ct_target t))
    (if bool_decide (rt_UpstreamModelID (ct_target t) = EmptyString) then None
     else Some (rt_UpstreamModelID (ct_target t)))
    (ct_group t) (ct_responsesStoreDowngraded t).

Definition allModes : list RouteMode := [RouteNative; RouteConverted].

(** One pool of [Next]: [None] when it has nothing to offer. *)
Definition nextFrom {S} `{CredentialSource S} (downgraded : bool) (it : Iterator) (s : S) (now : Z)
  : result SchedulerError (Iterator * S * option Selection) :=
  let p := poolOf it downgraded in
  let cs := priorityCandidates it p (weightedPool it s p allModes now) in
  try! r := tryTiers it p (it_routeModeTiers it) now cs (SchedulingStateOf s) in
  let s' := putSchedulingState r.1 s in
  match r.2 with
  | None => Ok (it, s', None)
  | Some (c, t) =>
      let it1 := setTried ({[meta_ID c]} ∪ it_tried it) it in
      let it2 := match priorityLimit p with
                 | Some _ => setPool downgraded (setPriority (Some (gv_Priority (ct_group t))) false p) it1
                 | None => it1
                 end in
      Ok (it2, s', Some (newSelection c t))
  end.

(** [now] and [now'] are the clock readings for the two pools.  No selection is the error
    [ErrExhausted] of the source; what the attempts did to the ledger stays. *)
Definition Next {S} `{CredentialSource S} (it : Iterator) (s : S) (now now' : Z)
  : result SchedulerError (Iterator * S * option Selection) :=
  try! r := nextFrom false it s now in
  match r with
  | (it1, s1, Some sel) => Ok (it1, s1, Some sel)
  | (it1, s1, None) => nextFrom true it1 s1 now'
  end.

(** * Replaying on the same credential *)

Definition replayStep (it : Iterator) (sel : Selection) (ref : CredentialRef) (now now' : Z)
    (acc : SchedulingLedger * bool) (meta : CredentialMeta) : SchedulingLedger * bool :=
  if negb (meta_ID meta =? ref_ID ref) || negb (meta_IdentityGeneration meta =? ref_IdentityGeneration ref) then acc
  else if match sel_UpstreamModelID sel with
          | Some m => now' <? modelCooldownUntil (meta_ModelCooldowns meta) m (it_operation it) now
          | None => false
          end then acc
  else
    let weight := effectiveWeight (gv_WeightManual (sel_Group sel)) (meta_WeightManual meta) in
    if 0 <? weight then
      let '(d', res) := selectCredential acc.1 (snapshotRevision it) [mkWeighted meta weight] (ref_ID ref) in
      (d', isSome res)
    else acc.

(** [t] is the clock reading for the candidates; [now] and [now'] are the two readings made
    for the one candidate that matches the reference. *)
Definition ChargeReplay {S} `{CredentialSource S} (it : Iterator) (s : S) (sel : Selection) (ref : CredentialRef)
    (t now now' : Z) : S * bool :=
  if negb (ref_ID ref =? sel_CredentialID sel) || negb (ref_GroupID ref =? sel_GroupID sel) then (s, false)
  else
    let '(d, charged) := fold_left (replayStep it sel ref now now')
      (candidatesUnderLock s [ref_GroupID ref] None t) (SchedulingStateOf s, false) in
    (putSchedulingState d s, charged).
