(* ===== verification/IteratorProps.v ===== *)
(** Properties of the scheduler's iterator, proved against the laws of the credential
    source; the credential registry is an instance of them. *)
From S2P Require Import Prelude GoStrings Execution Judge Config Credential Ledger Fair FairShare Registry RegistryInvariant RegistryReach RegistryGroups RegistrySafety RegistryProps Routing Iterator.

Local Open Scope Z_scope.

(** * What the iterator relies on *)

Class CredentialSourceLaws (S : Type) `{CredentialSource S} := {
  src_ok : S -> Prop;
  src_ledger_ok : forall s, src_ok s -> ledger_ok (SchedulingStateOf s);
  src_nodup : forall s gids ex now, src_ok s -> NoDup gids -> NoDup (meta_ID <$> candidatesUnderLock s gids ex now);
  src_member : forall s gids ex now m, src_ok s -> m ∈ candidatesUnderLock s gids ex now ->
    is_u64 (meta_ID m) /\ meta_ID m <> 0 /\ manualWeightValid (meta_WeightManual m) = true
    /\ meta_GroupID m ∈ gids /\ notExcluded ex (meta_ID m) = true
    /\ memberMatches (Members (SchedulingStateOf s) !! meta_ID m) (meta_GroupID m) (meta_IdentityGeneration m) = true;
  src_put_ok : forall s d, src_ok s -> sameMembers (SchedulingStateOf s) d -> ledger_ok d -> src_ok (putSchedulingState d s);
  src_get_put : forall s d, SchedulingStateOf (putSchedulingState d s) = d;
  src_frame : forall s d gids ex now, candidatesUnderLock (putSchedulingState d s) gids ex now = candidatesUnderLock s gids ex now
}.

#[export] Instance registry_source : CredentialSource CredentialRegistry := {
  SchedulingStateOf := scheduling;
  putSchedulingState := setScheduling;
  candidatesUnderLock := collectCredentialCandidatesLocked
}.

#[export] Instance registry_source_laws : CredentialSourceLaws CredentialRegistry.
Proof.
  refine {| src_ok := registry_ok |}.
  - apply rg_ledger.
  - intros s gids ex now Hok. apply collect_ids, Hok.
  - intros s gids ex now m Hok Hm. pose proof (rg_index s Hok) as Hix.
    apply collect_elem in Hm as (e & He & Hg & Hx & _ & ->); [|done]. destruct (rg_valid s Hok _ _ He) as [Hv Hu].
    pose proof (rg_mirror s Hok (ent_ID e)) as Hm. rewrite entries_of_lookup, He in Hm.
    apply validateEntry_spec in Hv as (? & _ & _ & _ & Hw & _). cbn. done.
  - intros s d. apply setScheduling_ok.
  - done.
  - done.
Defined.

(** * Well-formed pools *)

Abbreviation upstream t := (rt_UpstreamModelID (ct_target t)).

(** The targets of one group: distinct upstream models in order, one group view with a
    valid weight. *)
Record targets_wf (dg : bool) (g : Z) (ts : list candidateTarget) : Prop := {
  tw_sorted : StronglySorted upstreamOrder ts;
  tw_nodup : NoDup ((fun t => upstream t) <$> ts);
  tw_target : forall t, t ∈ ts -> rt_GroupID (ct_target t) = g /\ ct_responsesStoreDowngraded t = dg
    /\ manualWeightValid (gv_WeightManual (ct_group t)) = true;
  tw_group : forall t t', t ∈ ts -> t' ∈ ts -> ct_group t = ct_group t'
}.

Definition pool_wf (dg : bool) (p : candidatePool) : Prop :=
  forall g ts, targetsByGroup p !! g = Some ts -> targets_wf dg g ts.

Record iterator_ok (it : Iterator) : Prop := {
  it_pools : forall dg, pool_wf dg (poolOf it dg);
  it_tiers : it_routeModeTiers it = [[RouteNative]; [RouteConverted]]
             \/ it_routeModeTiers it = [[RouteNative; RouteConverted]]
}.

Lemma pool_targets dg p g : pool_wf dg p -> targets_wf dg g (mget [] (targetsByGroup p) g).
Proof.
  intros Hp. unfold mget. destruct (targetsByGroup p !! g) as [ts|] eqn:E; [by apply Hp|].
  cbn. split; [constructor|constructor| |]; intros t; [intros Ht|intros t' Ht]; by apply not_elem_of_nil in Ht.
Qed.

Lemma uniqueGroups_nodup p modes : NoDup (uniqueGroups p modes).
Proof.
  unfold uniqueGroups. apply (fold_left_inv (fun acc => NoDup acc)); [constructor|].
  intros acc g _ Ha. case_bool_decide as Hg; [done|]. apply NoDup_app. split; [done|]. split; [|apply NoDup_singleton].
  intros x Hx ->%list_elem_of_singleton. done.
Qed.

(** * Candidates *)

Lemma weigh_Some it p modes now c w :
  weigh it p modes now c = Some w ->
  wc_meta w = c /\ permitted it c = true /\ 0 < wc_weight w
  /\ exists t, t ∈ mget [] (targetsByGroup p) (meta_GroupID c) /\ targetAvailable it t c modes now = true
       /\ wc_weight w = effectiveWeight (gv_WeightManual (ct_group t)) (meta_WeightManual c).
Proof.
  unfold weigh. destruct (permitted it c); cbn [negb]; [|done].
  destruct (List.find _ _) as [t|] eqn:E; [|done]. case_if; [|done]. intros [= <-].
  apply List.find_some in E as [Hin Ha]. apply list_elem_of_In in Hin. eauto 10.
Qed.

Lemma effectiveWeight_bound g c :
  manualWeightValid g = true -> manualWeightValid c = true -> effectiveWeight g c <= MaxWeight * MaxWeight.
Proof.
  unfold effectiveWeight, manualWeightValid, ConfiguredWeight, MaxWeight, DefaultWeight. intros Hg Hc.
  case_if; [lia|]. zb. unfold i64, two64. destruct g as [x|], c as [y|]; zb; rewrite Z.mod_small; nia.
Qed.

Lemma omap_ids {A} (f : CredentialMeta -> option A) (k : A -> Z) (l : list CredentialMeta) :
  (forall m a, f m = Some a -> k a = meta_ID m) -> NoDup (meta_ID <$> l) -> NoDup (k <$> omap f l).
Proof.
  intros Hf. induction l as [|m l IH]; [done|]. rewrite fmap_cons, NoDup_cons. intros [Hm Hnd]. cbn.
  destruct (f m) as [a|] eqn:E; [|by apply IH]. rewrite fmap_cons. constructor; [|by apply IH].
  rewrite (Hf m a E). intros (b & Eb & (m' & Hm' & Hb)%list_elem_of_omap)%list_elem_of_fmap.
  apply Hm. rewrite Eb, (Hf m' b Hb). by apply list_elem_of_fmap_2.
Qed.

(** * Priorities *)

Abbreviation prio it c := (groupPriority it (meta_GroupID (wc_meta c))).

(** Within the limit, and strictly below it after a failure. *)
Definition within (p : candidatePool) (v : Z) : Prop :=
  match priorityLimit p with Some limit => v <= limit | None => True end.
Definition below (p : candidatePool) (v : Z) : Prop :=
  match priorityLimit p with Some limit => lowerPriority p = true /\ v < limit | None => False end.

(** [o] is the greatest element of [vs] that satisfies [P], if any does. *)
Definition greatest (P : Z -> Prop) (vs : list Z) (o : option Z) : Prop :=
  match o with
  | None => forall v, v ∈ vs -> ~ P v
  | Some b => b ∈ vs /\ P b /\ forall v, v ∈ vs -> P v -> v <= b
  end.

Lemma greatest_snoc (P : Z -> Prop) vs o v :
  greatest P vs o ->
  (P v -> greatest P (vs ++ [v]) (match o with Some x => if x <? v then Some v else o | None => Some v end))
  /\ (~ P v -> greatest P (vs ++ [v]) o).
Proof.
  unfold greatest. intros Ho.
  assert (forall y, y ∈ vs ++ [v] <-> y ∈ vs \/ y = v) as Hin
    by (intros y; by rewrite elem_of_app, list_elem_of_singleton).
  split; intros Hv.
  - destruct o as [x|].
    + destruct Ho as (Hx & Px & Hle). destruct (Z.ltb_spec x v); (split; [apply Hin; tauto|]); (split; [done|]).
      * intros y [Hy| ->]%Hin Py; [specialize (Hle y Hy Py)|]; lia.
      * intros y [Hy| ->]%Hin Py; [by apply Hle|lia].
    + split; [apply Hin; tauto|]. split; [done|]. intros y [Hy| ->]%Hin Py; [by destruct (Ho y Hy)|lia].
  - destruct o as [x|]; [|intros y [Hy| ->]%Hin; [by apply Ho|done]].
    destruct Ho as (Hx & Px & Hle). split; [apply Hin; tauto|]. split; [done|].
    intros y [Hy| ->]%Hin Py; [by apply Hle|done].
Qed.

Lemma priority_scan it p cs :
  let '(best, low) := fold_left (priorityStep it p) cs (None, None) in
  greatest (within p) ((fun c => prio it c) <$> cs) best /\ greatest (below p) ((fun c => prio it c) <$> cs) low.
Proof.
  induction cs as [|c cs IH] using rev_ind.
  { cbn. split; intros v Hv; by apply not_elem_of_nil in Hv. }
  rewrite fold_left_app, fmap_app. cbn [fold_left fmap list_fmap]. destruct (fold_left _ cs _) as [best low].
  destruct IH as [Hb Hl]. apply (greatest_snoc _ _ _ (prio it c)) in Hb as [Hb1 Hb2].
  apply (greatest_snoc _ _ _ (prio it c)) in Hl as [Hl1 Hl2]. unfold priorityStep, within, below in *. cbn [fst snd].
  destruct (priorityLimit p) as [limit|]; [|split; [by apply Hb1|by apply Hl2; tauto]].
  destruct (Z.ltb_spec limit (prio it c)).
  - split; [apply Hb2; lia|apply Hl2; lia].
  - split; [by apply Hb1|]. destruct (lowerPriority p); cbn [andb]; [|apply Hl2; naive_solver].
    destruct (Z.ltb_spec (prio it c) limit); [by apply Hl1|apply Hl2; lia].
Qed.

Lemma priorityCandidates_spec it p cs :
  (forall c, c ∈ priorityCandidates it p cs ->
     c ∈ cs /\ within p (prio it c)
     /\ (forall c', c' ∈ cs -> below p (prio it c') -> below p (prio it c) /\ prio it c' <= prio it c)
     /\ ((forall c', c' ∈ cs -> ~ below p (prio it c')) -> forall c', c' ∈ cs -> within p (prio it c') -> prio it c' <= prio it c))
  /\ (priorityCandidates it p cs = [] <-> forall c, c ∈ cs -> ~ within p (prio it c)).
Proof.
  unfold priorityCandidates. pose proof (priority_scan it p cs) as H. destruct (fold_left _ _ _) as [best low].
  destruct H as [Hb Hl].
  assert (forall c, c ∈ cs -> prio it c ∈ (fun c => prio it c) <$> cs) as Hin
    by (intros c Hc; by apply (list_elem_of_fmap_2 (fun c => prio it c))).
  destruct best as [b|].
  - destruct Hb as (Hbin & Hbw & Hbmax). split.
    + intros c [E Hc]%list_elem_of_filter. split; [done|]. destruct low as [l|]; cbn in E.
      * destruct Hl as (_ & Hlb & Hlmax). rewrite E. split; [|split].
        -- unfold within, below in *. destruct (priorityLimit p); [lia|done].
        -- intros c' Hc' Hb'. split; [done|]. apply Hlmax; [by apply Hin|done].
        -- intros Hno. exfalso. apply (Hno c Hc). by rewrite E.
      * rewrite E. split; [done|]. split.
        -- intros c' Hc' Hb'. by destruct (Hl _ (Hin c' Hc')).
        -- intros _ c' Hc' Hw'. apply Hbmax; [by apply Hin|done].
    + split.
      * intros Hnil. exfalso.
        assert (exists c, c ∈ cs /\ prio it c = default b low) as (c & Hc & E).
        { destruct low as [l|]; cbn; [destruct Hl as (Hlin & _)|];
            [apply list_elem_of_fmap in Hlin as (c & -> & Hc)|apply list_elem_of_fmap in Hbin as (c & -> & Hc)]; eauto. }
        eapply not_elem_of_nil. rewrite <- Hnil. by apply list_elem_of_filter.
      * intros Hno. apply list_elem_of_fmap in Hbin as (c & -> & Hc). by destruct (Hno c Hc).
  - split; [intros c Hc; by apply not_elem_of_nil in Hc|]. split; [|done]. intros _ c Hc. by apply Hb, Hin.
Qed.

(** Priorities are respected.  The candidates of an attempt all belong to one priority
    level: the highest one within the limit or, after a retryable failure, the highest one
    strictly below the level that failed, as long as there is one; the set is empty only
    when no candidate is within the limit. *)
Theorem failover_priority it p cs :
  (forall c, c ∈ priorityCandidates it p cs ->
     c ∈ cs /\ within p (prio it c)
     /\ (forall c', c' ∈ cs -> below p (prio it c') -> below p (prio it c) /\ prio it c' <= prio it c)
     /\ ((forall c', c' ∈ cs -> ~ below p (prio it c')) -> forall c', c' ∈ cs -> within p (prio it c') -> prio it c' <= prio it c))
  /\ (priorityCandidates it p cs = [] <-> forall c, c ∈ cs -> ~ within p (prio it c)).
Proof. apply priorityCandidates_spec. Qed.

Section WithSource.
Context {S : Type} `{CredentialSourceLaws S}.

Lemma weightedPool_elem it s p modes now w :
  w ∈ weightedPool it s p modes now ->
  wc_meta w ∈ candidatesUnderLock s (uniqueGroups p modes) (Some (fun id => bool_decide (id ∈ it_tried it))) now
  /\ weigh it p modes now (wc_meta w) = Some w.
Proof.
  unfold weightedPool. intros (c & Hc & Hw)%list_elem_of_omap. destruct (weigh_Some _ _ _ _ _ _ Hw) as (E & _).
  by rewrite E.
Qed.

Lemma weightedPool_ok dg it s p modes now :
  pool_wf dg p -> src_ok s -> candidates_ok (weightedPool it s p modes now).
Proof.
  intros Hp Hs. split.
  - unfold weightedPool. apply omap_ids; [|apply src_nodup; [done|apply uniqueGroups_nodup]].
    intros m w Hw. unfold wid. by destruct (weigh_Some _ _ _ _ _ _ Hw) as (-> & _).
  - intros w [Hc _]%weightedPool_elem. by destruct (src_member s _ _ _ _ Hs Hc) as (? & ? & _).
  - intros w [Hc Hw]%weightedPool_elem. destruct (weigh_Some _ _ _ _ _ _ Hw) as (_ & _ & Hpos & t & Ht & _ & E).
    destruct (src_member s _ _ _ _ Hs Hc) as (_ & _ & Hv & _).
    destruct (tw_target _ _ _ (pool_targets dg p _ Hp) t Ht) as (_ & _ & Hg). split; [lia|].
    rewrite E. by apply effectiveWeight_bound.
Qed.

Lemma priorityCandidates_filter it p cs :
  exists P (_ : forall c, Decision (P c)), priorityCandidates it p cs = filter P cs.
Proof.
  unfold priorityCandidates. destruct (fold_left _ _ _) as [[x|] l]; [by eexists _, _|].
  exists (fun _ => False), _. induction cs as [|c cs IH]; [done|]. rewrite filter_cons. by rewrite decide_False by tauto.
Qed.

Lemma priorityCandidates_sub it p cs c : c ∈ priorityCandidates it p cs -> c ∈ cs.
Proof. destruct (priorityCandidates_filter it p cs) as (P & D & ->). by intros [_ ?]%list_elem_of_filter. Qed.

Lemma priorityCandidates_ok it p cs : candidates_ok cs -> candidates_ok (priorityCandidates it p cs).
Proof. intros Hcs. destruct (priorityCandidates_filter it p cs) as (P & D & ->). by apply candidates_ok_filter. Qed.

Lemma tierEligible_elem it p modes now cs c :
  c ∈ tierEligible it p modes now cs <->
  c ∈ cs /\ exists t, t ∈ mget [] (targetsByGroup p) (meta_GroupID (wc_meta c))
                      /\ targetAvailable it t (wc_meta c) modes now = true.
Proof.
  unfold tierEligible. rewrite list_elem_of_filter, existsb_exists. setoid_rewrite list_elem_of_In. tauto.
Qed.

(** * Targets *)

Lemma SelectModel_in d g x ms first rest :
  StronglySorted String.le ms -> ms = first :: rest -> (SelectModel d g x ms).2 ∈ ms.
Proof.
  intros Hs Hm. unfold SelectModel. rewrite Hm, <- Hm. destruct (rotate _ _) as [[sel o]|] eqn:E; cbn [snd].
  - apply rotate_spec in E as (_ & _ & _ & _ & Hf & _). by apply BinarySearch_found.
  - subst. constructor.
Qed.

Lemma sorted_models ts (P : candidateTarget -> Prop) `{!forall t, Decision (P t)} :
  StronglySorted upstreamOrder ts -> StronglySorted String.le ((fun t => upstream t) <$> filter P ts).
Proof.
  induction 1 as [|t ts Hs IH Hall]; [constructor|]. rewrite filter_cons. destruct (decide (P t)); [|done].
  rewrite fmap_cons. constructor; [done|]. apply Forall_forall. intros m (t' & -> & [_ Ht']%list_elem_of_filter)%list_elem_of_fmap.
  rewrite Forall_forall in Hall. by apply (Hall t').
Qed.

Lemma upstream_inj ts t t' :
  NoDup ((fun t => upstream t) <$> ts) -> t ∈ ts -> t' ∈ ts -> upstream t = upstream t' -> t = t'.
Proof.
  intros Hnd [i Hi]%list_elem_of_lookup [j Hj]%list_elem_of_lookup E. assert (i = j) as ->; [|congruence].
  eapply (NoDup_lookup _); [exact Hnd|..]; rewrite list_lookup_fmap; [by rewrite Hi|]. rewrite Hj. cbn. by rewrite E.
Qed.

(** A credential with an available target gets one, and no index is out of range. *)
Lemma selectTarget_spec dg it p modes c now d t0 :
  pool_wf dg p -> t0 ∈ mget [] (targetsByGroup p) (meta_GroupID c) -> targetAvailable it t0 c modes now = true ->
  exists d' t, selectTarget it p modes c now d = Ok (d', t) /\ t ∈ mget [] (targetsByGroup p) (meta_GroupID c)
    /\ targetAvailable it t c modes now = true /\ sameMembers d d' /\ (ledger_ok d -> ledger_ok d')
    /\ Sequence d' = Sequence d /\ Watermark d' = Watermark d.
Proof.
  intros Hp Ht0 Ha0. pose proof (pool_targets dg p (meta_GroupID c) Hp) as [Hsort Hnd _ _].
  unfold selectTarget, targetsFor. set (ts := mget [] (targetsByGroup p) (meta_GroupID c)) in *.
  set (avail := filter _ ts). set (models := (fun t => rt_UpstreamModelID (ct_target t)) <$> avail).
  assert (upstream t0 ∈ models) as Hm0
    by (apply (list_elem_of_fmap_2 (fun t => upstream t)), list_elem_of_filter; done).
  destruct models as [|first rest] eqn:Em; [by apply not_elem_of_nil in Hm0|].
  assert (exists d' model, (match it_externalModel it with Some x => SelectModel d (meta_GroupID c) x (first :: rest)
            | None => (d, first) end) = (d', model) /\ model ∈ models /\ sameMembers d d' /\ (ledger_ok d -> ledger_ok d')
            /\ Sequence d' = Sequence d /\ Watermark d' = Watermark d)
    as (d' & model & -> & Hmodel & Hsm & Hlo & Hsq & Hw).
  { rewrite Em. destruct (it_externalModel it) as [x|].
    - destruct (SelectModel d (meta_GroupID c) x (first :: rest)) as [d' model] eqn:Es. exists d', model.
      pose proof (SelectModel_sameMembers d (meta_GroupID c) x (first :: rest)) as H1.
      pose proof (SelectModel_ok d (meta_GroupID c) x (first :: rest)) as H2.
      pose proof (SelectModel_in d (meta_GroupID c) x (first :: rest) first rest) as H3. rewrite Es in H1, H2, H3.
      split; [done|]. split; [apply H3; [|done]|]. { rewrite <- Em. by apply sorted_models. }
      split; [done|]. split; [done|]. unfold SelectModel in Es. destruct (rotate _ _) as [[]|]; by simplify_eq.
    - exists d, first. split; [done|]. split; [constructor|]. split; [apply sameMembers_refl|done]. }
  subst models. apply list_elem_of_fmap in Hmodel as (t & -> & [Ha Ht]%list_elem_of_filter).
  destruct (List.find _ ts) as [t1|] eqn:Ef.
  - apply List.find_some in Ef as [Hin1%list_elem_of_In Eb]. apply bool_decide_eq_true in Eb.
    rewrite (upstream_inj ts t1 t) by done. eauto 10.
  - apply (List.find_none _ _) with (x := t) in Ef; [|by apply list_elem_of_In].
    by rewrite bool_decide_eq_true_2 in Ef.
Qed.

(** * One tier *)

Lemma select_result d rev cs p :
  ledger_ok d -> candidates_ok cs ->
  let '(d', o) := selectCredential d rev cs p in
  ledger_ok d' /\ sameMembers d d'
  /\ match o with
     | Some m => exists c, c ∈ cs /\ wc_meta c = m
     | None => Sequence d' = Sequence d /\ Watermark d' = Watermark d
               /\ (headroom d 1 -> eligibleCandidates d cs = [])
     end.
Proof.
  intros Hok Hcs. pose proof (selectCredential_preserves d rev cs p Hok Hcs) as Hok'.
  pose proof (selectCredential_sameMembers d rev cs p) as Hsm.
  destruct (selectCredential_cases d rev cs p) as [[Hidle E]|Hc]; [done..| |].
  - rewrite E in *. split; [done|]. split; [done|]. split; [done|]. split; [done|].
    intros [Hs _]. destruct Hidle as [|Hm]; [done|]. lia.
  - destruct Hc as (_ & Hs & c & _ & Hin & Hw & Hpool & He & E). rewrite E in *.
    destruct (admitted_scalars d rev cs) as (E1 & E2 & _).
    pose proof (charge_spec (admitted d rev cs) c (pool_ledger _ _ Hpool) He Hw) as HC. rewrite E1 in HC. specialize (HC Hs).
    destruct (charge _ _) as [d' [m|]]; cbn [fst] in *; (split; [done|]); (split; [done|]); destruct HC as [_ HC].
    + destruct HC as (-> & _). apply eligibleCandidates_elem in Hin as [Hin _]. eauto.
    + destruct HC as [-> Hov]. split; [done|]. split; [done|]. intros [_ Hw']. exfalso.
      pose proof (ok_below _ (pool_ledger _ _ Hpool) _ _ (eligible_member _ _ He)) as Hb. rewrite E2 in Hb.
      fold (cval (admitted d rev cs) c) in Hb. pose proof (stepOf_bounds (wc_weight c) ltac:(lia)). lia.
Qed.

(** Candidates whose ledger member matches, as the source guarantees. *)
Definition matched (d : SchedulingLedger) (cs : list weightedCredential) : Prop :=
  forall c, c ∈ cs -> isEligible d c = true.

Lemma matched_same d d' cs : sameMembers d d' -> matched d cs -> matched d' cs.
Proof.
  intros Hs Hm c Hc. specialize (Hm c Hc). specialize (Hs (wid c)). unfold isEligible in *.
  destruct (Members d !! wid c), (Members d' !! wid c); try done. cbn in *. by destruct Hs as [-> ->].
Qed.

Lemma matched_eligible d cs : matched d cs -> eligibleCandidates d cs = cs.
Proof. intros Hm. apply filter_all_in. exact Hm. Qed.

(** The outcome of the tiers: no index is out of range, a selection names a candidate and
    an available target of some tier, and with room in the counters no selection means that
    no candidate has a target in any tier. *)
Lemma tryTiers_spec dg it p tiers now cs d :
  pool_wf dg p -> candidates_ok cs -> ledger_ok d -> matched d cs ->
  exists d' o, tryTiers it p tiers now cs d = Ok (d', o) /\ ledger_ok d' /\ sameMembers d d'
    /\ match o with
       | Some (c, t) => exists pre modes post w, tiers = pre ++ modes :: post
           /\ w ∈ tierEligible it p modes now cs /\ wc_meta w = c
           /\ t ∈ mget [] (targetsByGroup p) (meta_GroupID c) /\ targetAvailable it t c modes now = true
           /\ (headroom d 1 -> forall ms, ms ∈ pre -> tierEligible it p ms now cs = [])
       | None => Sequence d' = Sequence d /\ Watermark d' = Watermark d
                 /\ (headroom d 1 -> forall ms, ms ∈ tiers -> tierEligible it p ms now cs = [])
       end.
Proof.
  intros Hp Hcs. revert d. induction tiers as [|modes tiers IH]; intros d Hok Hm; cbn [tryTiers].
  { exists d, None. split; [done|]. split; [done|]. split; [apply sameMembers_refl|]. split; [done|]. split; [done|].
    intros _ ms Hms. by apply not_elem_of_nil in Hms. }
  pose proof (select_result d (snapshotRevision it) (tierEligible it p modes now cs) (it_preferredCredentialID it) Hok
    (candidates_ok_filter _ _ Hcs)) as HS.
  assert (eligibleCandidates d (tierEligible it p modes now cs) = tierEligible it p modes now cs) as Hel.
  { apply matched_eligible. intros c [Hc _]%tierEligible_elem. by apply Hm. }
  destruct (selectCredential _ _ _ _) as [d1 [c|]]; destruct HS as (Hok1 & Hs1 & HS).
  - destruct HS as (w & Hw & Ew). pose proof Hw as (_ & t0 & Ht0 & Ha0)%tierEligible_elem. rewrite Ew in Ht0, Ha0.
    destruct (selectTarget_spec dg it p modes c now d1 t0 Hp Ht0 Ha0) as (d2 & t & -> & Ht & Ha & Hs2 & Hok2 & _).
    exists d2, (Some (c, t)). split; [done|]. split; [auto|]. split; [by eapply sameMembers_trans|].
    exists [], modes, tiers, w. repeat (split; [done|]). intros _ ms Hms. by apply not_elem_of_nil in Hms.
  - destruct HS as (Es & Ew & Hempty). destruct (IH d1 Hok1 (matched_same d d1 cs Hs1 Hm)) as (d2 & o & -> & Hok2 & Hs2 & Ho).
    exists d2, o. split; [done|]. split; [done|]. split; [by eapply sameMembers_trans|].
    assert (headroom d 1 -> headroom d1 1) as Hh by (unfold headroom; by rewrite Es, Ew).
    destruct o as [[c t]|].
    + destruct Ho as (pre & ms & post & w & -> & Hw & E & Ht & Ha & Hpre).
      exists (modes :: pre), ms, post, w. repeat (split; [done|]). intros Hr ms' [->|Hin]%elem_of_cons.
      * rewrite <- Hel. by apply Hempty.
      * by apply Hpre; [apply Hh|].
    + destruct Ho as (E1 & E2 & Hrest). split; [congruence|]. split; [congruence|]. intros Hr ms [->|Hin]%elem_of_cons.
      * rewrite <- Hel. by apply Hempty.
      * by apply Hrest; [apply Hh|].
Qed.

(** * One pool *)

Definition poolCandidates (it : Iterator) (s : S) (dg : bool) (now : Z) : list weightedCredential :=
  priorityCandidates it (poolOf it dg) (weightedPool it s (poolOf it dg) allModes now).

(** The selection names a current candidate and one of its available targets. *)
Definition valid_selection (it : Iterator) (s : S) (dg : bool) (now : Z) (sel : Selection) : Prop :=
  exists c t, sel = newSelection c t
    /\ c ∈ candidatesUnderLock s (uniqueGroups (poolOf it dg) allModes) (Some (fun id => bool_decide (id ∈ it_tried it))) now
    /\ permitted it c = true
    /\ t ∈ mget [] (targetsByGroup (poolOf it dg)) (meta_GroupID c)
    /\ targetAvailable it t c allModes now = true
    /\ 0 < effectiveWeight (gv_WeightManual (ct_group t)) (meta_WeightManual c).

Lemma tiers_modes it modes m : iterator_ok it -> modes ∈ it_routeModeTiers it -> m ∈ modes -> m ∈ allModes.
Proof.
  intros [_ [E|E]] Hm Hin; rewrite E in Hm; unfold allModes.
  - rewrite !elem_of_cons, elem_of_nil in Hm. destruct Hm as [->|[->|[]]]; set_solver.
  - apply list_elem_of_singleton in Hm as ->. set_solver.
Qed.

Lemma available_modes it t c modes modes' now :
  (forall m, m ∈ modes -> m ∈ modes') -> targetAvailable it t c modes now = true -> targetAvailable it t c modes' now = true.
Proof.
  unfold targetAvailable. intros Hm [Ha Hc]%andb_true_iff. apply bool_decide_eq_true in Ha.
  rewrite Hc, bool_decide_eq_true_2; [done|auto].
Qed.

Lemma poolCandidates_matched it s dg now :
  iterator_ok it -> src_ok s ->
  candidates_ok (poolCandidates it s dg now) /\ matched (SchedulingStateOf s) (poolCandidates it s dg now).
Proof.
  intros Hit Hs. split; [by eapply priorityCandidates_ok, weightedPool_ok; [apply Hit|]|].
  intros c [Hc _]%priorityCandidates_sub%weightedPool_elem.
  by destruct (src_member s _ _ _ _ Hs Hc) as (_ & _ & _ & _ & _ & ?).
Qed.

Lemma iterator_ok_step it dg (c : option Z) limit lower tried :
  iterator_ok it ->
  iterator_ok (match c with
               | Some _ => setPool dg (setPriority limit lower (poolOf it dg)) (setTried tried it)
               | None => setTried tried it
               end).
Proof.
  intros [Hp Ht]. destruct c as [x|]; (split; [|done]); intros b.
  - destruct dg, b; cbn; apply (Hp true) || apply (Hp false).
  - destruct b; [apply (Hp true)|apply (Hp false)].
Qed.

Lemma nextFrom_spec dg it s now :
  iterator_ok it -> src_ok s ->
  exists it' s' o, nextFrom dg it s now = Ok (it', s', o) /\ src_ok s' /\ iterator_ok it'
    /\ (forall gids ex t, candidatesUnderLock s' gids ex t = candidatesUnderLock s gids ex t)
    /\ match o with
       | Some sel => valid_selection it s dg now sel /\ it_tried it' = {[sel_CredentialID sel]} ∪ it_tried it
           /\ exists pre modes post, it_routeModeTiers it = pre ++ modes :: post /\ sel_RouteMode sel ∈ modes
                /\ (headroom (SchedulingStateOf s) 1 -> forall ms, ms ∈ pre ->
                      tierEligible it (poolOf it dg) ms now (poolCandidates it s dg now) = [])
       | None => it' = it /\ (headroom (SchedulingStateOf s) 1 ->
                                poolCandidates it s dg now = [] /\ headroom (SchedulingStateOf s') 1)
       end.
Proof.
  intros Hit Hs. destruct (poolCandidates_matched it s dg now Hit Hs) as [Hcs Hm].
  destruct (tryTiers_spec dg it (poolOf it dg) (it_routeModeTiers it) now _ _ (it_pools it Hit dg) Hcs (src_ledger_ok s Hs) Hm)
    as (d' & o & E & Hok' & Hsm & Ho).
  unfold nextFrom. fold (poolCandidates it s dg now). rewrite E. cbn [fst snd].
  assert (src_ok (putSchedulingState d' s)) as Hs' by (by apply src_put_ok).
  destruct o as [[c t]|].
  - eexists _, _, (Some (newSelection c t)). split; [done|]. split; [done|].
    split; [by apply (iterator_ok_step it dg (priorityLimit (poolOf it dg)))|]. split; [intros; apply src_frame|].
    destruct Ho as (pre & modes & post & w & Et & Hw & Ew & Ht & Ha & Hpre).
    pose proof Hw as [Hwin _]%tierEligible_elem. apply priorityCandidates_sub, weightedPool_elem in Hwin as [Hc Hwe].
    destruct (weigh_Some _ _ _ _ _ _ Hwe) as (_ & Hperm & Hpos & t0 & Ht0 & _ & Ewt). rewrite Ew in *.
    split; [|split].
    + exists c, t. split; [done|]. split; [done|]. split; [done|]. split; [done|]. split.
      * eapply available_modes; [|exact Ha]. intros m. apply (tiers_modes it); [done|]. rewrite Et. set_solver.
      * rewrite (tw_group _ _ _ (pool_targets dg _ (meta_GroupID c) (it_pools it Hit dg)) t t0) by done. lia.
    + cbn. by destruct (priorityLimit (poolOf it dg)).
    + exists pre, modes, post. split; [done|]. split; [|done]. cbn. unfold targetAvailable in Ha.
      apply andb_true_iff in Ha as [Ha _]. by apply bool_decide_eq_true in Ha.
  - exists it, (putSchedulingState d' s), None. split; [done|]. split; [done|]. split; [done|]. split; [intros; apply src_frame|].
    split; [done|]. intros Hh. destruct Ho as (E1 & E2 & Hempty). specialize (Hempty Hh).
    split; [|rewrite src_get_put; unfold headroom in *; by rewrite E1, E2].
    destruct (poolCandidates it s dg now) as [|w ws] eqn:Ew; [done|]. exfalso.
    assert (w ∈ poolCandidates it s dg now) as Hw by (rewrite Ew; constructor).
    pose proof Hw as [_ Hwe]%priorityCandidates_sub%weightedPool_elem.
    destruct (weigh_Some _ _ _ _ _ _ Hwe) as (_ & _ & _ & t & Ht & Ha & _).
    assert (exists ms, ms ∈ it_routeModeTiers it /\ rt_Mode (ct_target t) ∈ ms) as (ms & Hms & Hmode).
    { unfold targetAvailable in Ha. apply andb_true_iff in Ha as [Ha _]. apply bool_decide_eq_true in Ha.
      unfold allModes in Ha. destruct (it_tiers it Hit) as [->| ->]; [|by exists allModes; split; [constructor|]].
      rewrite !elem_of_cons, elem_of_nil in Ha. destruct Ha as [Ea|[Ea|[]]]; rewrite Ea;
        [exists [RouteNative]|exists [RouteConverted]]; set_solver. }
    specialize (Hempty ms Hms). eapply not_elem_of_nil. rewrite <- Hempty. apply tierEligible_elem.
    split; [constructor|]. exists t. split; [done|]. unfold targetAvailable in *.
    apply andb_true_iff in Ha as [_ Hc]. by rewrite Hc, bool_decide_eq_true_2.
Qed.

Lemma valid_selection_tried it s dg now sel :
  src_ok s -> valid_selection it s dg now sel -> sel_CredentialID sel ∉ it_tried it.
Proof.
  intros Hs (c & t & -> & Hc & _). destruct (src_member s _ _ _ _ Hs Hc) as (_ & _ & _ & _ & Hx & _). cbn in *.
  apply negb_true_iff in Hx. by apply bool_decide_eq_false in Hx.
Qed.

Lemma valid_selection_frame it s s' dg now sel :
  (forall gids ex t, candidatesUnderLock s' gids ex t = candidatesUnderLock s gids ex t) ->
  valid_selection it s' dg now sel -> valid_selection it s dg now sel.
Proof. intros Hf (c & t & -> & Hc & H'). rewrite Hf in Hc. by exists c, t. Qed.

(** What [Next] keeps of the request. *)
Definition same_request (it it' : Iterator) : Prop :=
  it_allowedCredentialRefs it' = it_allowedCredentialRefs it /\ it_allowedCredentialIDs it' = it_allowedCredentialIDs it
  /\ it_snapshot it' = it_snapshot it /\ it_query it' = it_query it /\ it_staticReason it' = it_staticReason it.

Lemma nextFrom_request dg it s now it' s' o : nextFrom dg it s now = Ok (it', s', o) -> same_request it it'.
Proof.
  unfold nextFrom. destruct (tryTiers _ _ _ _ _ _) as [[d [[c t]|]]|]; cbn; [|by intros [= <- _ _]|done].
  destruct (priorityLimit _); by intros [= <- _ _].
Qed.

Lemma Next_spec it s now now' :
  iterator_ok it -> src_ok s ->
  exists it' s' o, Next it s now now' = Ok (it', s', o) /\ src_ok s' /\ iterator_ok it' /\ same_request it it'
    /\ match o with
       | Some sel => (valid_selection it s false now sel \/ valid_selection it s true now' sel)
                     /\ (sel_CredentialID sel ∉ it_tried it) /\ it_tried it' = {[sel_CredentialID sel]} ∪ it_tried it
       | None => it' = it
       end.
Proof.
  intros Hit Hs. unfold Next. destruct (nextFrom_spec false it s now Hit Hs) as (it1 & s1 & o1 & E1 & Hs1 & Hit1 & Hf & Ho).
  pose proof (nextFrom_request _ _ _ _ _ _ _ E1) as Hr. rewrite E1. destruct o1 as [sel|].
  - exists it1, s1, (Some sel). split; [done|]. split; [done|]. split; [done|]. split; [done|]. destruct Ho as (Hv & Et & _).
    split; [by left|]. split; [eapply valid_selection_tried; [|exact Hv]; done|done].
  - destruct Ho as [-> _]. destruct (nextFrom_spec true it s1 now' Hit Hs1) as (it2 & s2 & o2 & E2 & Hs2 & Hit2 & _ & Ho2).
    rewrite E2. exists it2, s2, o2. split; [done|]. split; [done|]. split; [done|]. split; [by eapply nextFrom_request|].
    destruct o2 as [sel|]; [|by destruct Ho2].
    destruct Ho2 as (Hv & Et & _). split; [right; by eapply valid_selection_frame|].
    split; [eapply valid_selection_tried; [|exact Hv]; done|done].
Qed.

(** C5: Every attempt is sound.  [Next] never indexes out of range; a selection names a
    credential that the source offers now for a group of the query, that the request has
    not tried, that its restrictions permit and whose group it has not skipped, together
    with a target of that group whose model is not cooling down and whose weight is
    positive; the credential is then marked as tried, and the source's invariant holds. *)
Theorem next_sound it s now now' :
  iterator_ok it -> src_ok s ->
  exists it' s' o, Next it s now now' = Ok (it', s', o) /\ src_ok s' /\ iterator_ok it'
    /\ match o with
       | Some sel => (valid_selection it s false now sel \/ valid_selection it s true now' sel)
                     /\ (sel_CredentialID sel ∉ it_tried it) /\ it_tried it' = {[sel_CredentialID sel]} ∪ it_tried it
       | None => it' = it
       end.
Proof.
  intros Hit Hs. destruct (Next_spec it s now now' Hit Hs) as (it' & s' & o & H1 & H2 & H3 & _ & H4). by exists it', s', o.
Qed.

(** * Failover *)

(** One request: attempts in sequence, between which the request may skip a group or lower
    the priority, and other requests change the source in any way that keeps its invariant. *)
Inductive failover : Iterator -> S -> list Z -> Prop :=
| fo_done it s : failover it s []
| fo_skip it s g ids : failover (SkipGroup it g) s ids -> failover it s ids
| fo_lower it s sel ids : failover (AdvancePriority it sel) s ids -> failover it s ids
| fo_others it s s' ids : src_ok s' -> failover it s' ids -> failover it s ids
| fo_next it s now now' it' s' sel ids :
    Next it s now now' = Ok (it', s', Some sel) -> failover it' s' ids ->
    failover it s (sel_CredentialID sel :: ids).

Lemma SkipGroup_ok it g : iterator_ok it -> iterator_ok (SkipGroup it g) /\ it_tried (SkipGroup it g) = it_tried it.
Proof. intros [Hp Ht]. unfold SkipGroup. case_if; [done|]. split; [|done]. split; [exact Hp|done]. Qed.

Lemma AdvancePriority_ok it sel :
  iterator_ok it -> iterator_ok (AdvancePriority it sel) /\ it_tried (AdvancePriority it sel) = it_tried it.
Proof.
  intros [Hp Ht]. split; [|done]. split; [|done]. intros b. unfold AdvancePriority.
  destruct (sel_ResponsesStoreDowngraded sel), b; cbn; apply (Hp true) || apply (Hp false).
Qed.

Lemma failover_fresh it s ids :
  failover it s ids -> iterator_ok it -> src_ok s -> NoDup ids /\ forall id, id ∈ ids -> id ∉ it_tried it.
Proof.
  induction 1 as [it s|it s g ids _ IH|it s sel ids _ IH|it s s' ids Hs' _ IH|it s now now' it' s' sel ids HN _ IH]; intros Hit Hs.
  - split; [constructor|]. set_solver.
  - destruct (SkipGroup_ok it g Hit) as [Hit' E]. rewrite <- E. by apply IH.
  - destruct (AdvancePriority_ok it sel Hit) as [Hit' E]. rewrite <- E. by apply IH.
  - by apply IH.
  - destruct (Next_spec it s now now' Hit Hs) as (it1 & s1 & o1 & E1 & Hs' & Hit' & _ & Ho).
    rewrite E1 in HN. simplify_eq. destruct Ho as (_ & Hn & Et).
    destruct (IH Hit' Hs') as [Hnd Hout]. rewrite Et in Hout. split.
    + constructor; [|done]. intros Hin. specialize (Hout _ Hin). set_solver.
    + intros id [->|Hin]%elem_of_cons; [done|]. specialize (Hout _ Hin). set_solver.
Qed.

(** Failover never repeats.  However a request interleaves its attempts with skipped
    groups and lowered priorities, and whatever other requests and the configuration do to
    the source in between, no credential is attempted twice. *)
Theorem failover_never_repeats it s ids :
  iterator_ok it -> src_ok s -> failover it s ids -> NoDup ids.
Proof. intros Hit Hs Hf. by apply (failover_fresh it s ids). Qed.

Lemma Next_exhausted it s now now' it' s' :
  iterator_ok it -> src_ok s -> headroom (SchedulingStateOf s) 1 ->
  Next it s now now' = Ok (it', s', None) ->
  forall dg w, w ∈ weightedPool it s (poolOf it dg) allModes (if dg then now' else now) ->
    exists limit, priorityLimit (poolOf it dg) = Some limit /\ limit < prio it w.
Proof.
  intros Hit Hs Hh HN.
  assert (poolCandidates it s false now = [] /\ poolCandidates it s true now' = []) as [H1 H2].
  { revert HN. unfold Next. destruct (nextFrom_spec false it s now Hit Hs) as (it1 & s1 & o1 & -> & Hs1 & _ & Hf & Ho).
    destruct o1 as [sel|]; [done|]. destruct Ho as [-> Hempty]. destruct (Hempty Hh) as [H1 Hh1].
    destruct (nextFrom_spec true it s1 now' Hit Hs1) as (it2 & s2 & o2 & E2 & _ & _ & _ & Ho2). rewrite E2.
    intros [= -> -> ->]. destruct Ho2 as [_ H2]. destruct (H2 Hh1) as [H3 _]. split; [done|].
    unfold poolCandidates, weightedPool in *. by rewrite Hf in H3. }
  intros dg w Hw.
  assert (~ within (poolOf it dg) (prio it w)) as Hn.
  { destruct dg; [exact (proj1 (proj2 (priorityCandidates_spec it _ _)) H2 w Hw)|
      exact (proj1 (proj2 (priorityCandidates_spec it _ _)) H1 w Hw)]. }
  unfold within in Hn. destruct (priorityLimit (poolOf it dg)) as [limit|]; [|tauto]. exists limit. split; [done|lia].
Qed.

(** C38: Exhaustion is genuine.  When [Next] reports exhaustion while the ledger's counters
    have room, every credential that either pool could still offer (untried, permitted, with
    an available target and a positive weight) belongs to a group above the priority the
    request has been limited to; without a limit there is none. *)
Theorem exhaustion_genuine it s now now' it' s' :
  iterator_ok it -> src_ok s -> headroom (SchedulingStateOf s) 1 ->
  Next it s now now' = Ok (it', s', None) ->
  forall dg w, w ∈ weightedPool it s (poolOf it dg) allModes (if dg then now' else now) ->
    exists limit, priorityLimit (poolOf it dg) = Some limit /\ limit < prio it w.
Proof. apply Next_exhausted. Qed.

(** Native first.  With the native-first strategy a request is converted only when no
    candidate of the chosen priority has an available native target. *)
Theorem native_first it s dg now it' s' sel :
  iterator_ok it -> src_ok s -> headroom (SchedulingStateOf s) 1 ->
  it_routeModeTiers it = [[RouteNative]; [RouteConverted]] ->
  nextFrom dg it s now = Ok (it', s', Some sel) -> sel_RouteMode sel = RouteConverted ->
  tierEligible it (poolOf it dg) [RouteNative] now (poolCandidates it s dg now) = [].
Proof.
  intros Hit Hs Hh Ht HN Hmode. destruct (nextFrom_spec dg it s now Hit Hs) as (it1 & s1 & o1 & E & _ & _ & _ & Ho).
  rewrite E in HN. simplify_eq. destruct Ho as (_ & _ & pre & modes & post & Et & Hin & Hpre).
  rewrite Ht in Et. apply Hpre; [done|]. rewrite Hmode in Hin.
  destruct pre as [|x pre]; cbn in Et; simplify_eq; [by apply list_elem_of_singleton in Hin|]. constructor.
Qed.
End WithSource.

(** Iterators built from a configuration are well formed, and a concrete request over the
    registry runs through the properties of the iterator. *)

(** * Construction *)

(** What configuration compilation guarantees of the targets of one query: an upstream model
    is mapped once per group, the group views are those of one snapshot, weights are valid. *)
Record targets_ok (targets : list candidateTarget) : Prop := {
  tg_nodup : NoDup ((fun t => (rt_GroupID (ct_target t), rt_UpstreamModelID (ct_target t))) <$> targets);
  tg_group : forall t t', t ∈ targets -> t' ∈ targets -> rt_GroupID (ct_target t) = rt_GroupID (ct_target t') ->
    ct_group t = ct_group t';
  tg_weight : forall t, t ∈ targets -> manualWeightValid (gv_WeightManual (ct_group t)) = true
}.

Lemma addTarget_fold ts p g :
  mget [] (targetsByGroup (fold_left addTarget ts p)) g
  = mget [] (targetsByGroup p) g ++ filter (fun t => rt_GroupID (ct_target t) = g) ts.
Proof.
  revert p. induction ts as [|t ts IH]; intros p; cbn [fold_left]; [by rewrite app_nil_r|].
  rewrite IH, filter_cons. unfold addTarget at 1, mget. cbn. rewrite lookup_insert.
  destruct (decide (rt_GroupID (ct_target t) = g)) as [->|]; cbn; [by rewrite <- app_assoc|done].
Qed.

#[export] Instance upstreamOrder_trans : Transitive upstreamOrder.
Proof. intros a b c. unfold upstreamOrder. apply transitivity. Qed.
#[export] Instance upstreamOrder_total : Total upstreamOrder.
Proof. intros a b. unfold upstreamOrder. apply (total String.le). Qed.

Lemma buildPool_wf dg targets : targets_ok targets -> pool_wf dg (buildPool dg targets).
Proof.
  intros [Hnd Hg Hw] g ts Hts. unfold buildPool, sortTargets in Hts. cbn in Hts. rewrite lookup_fmap in Hts.
  set (mine := filter (fun t => ct_responsesStoreDowngraded t = dg) targets) in *.
  pose proof (addTarget_fold mine newCandidatePool g) as Hf. unfold mget in Hf. cbn in Hf. rewrite lookup_empty in Hf.
  destruct (targetsByGroup (fold_left addTarget mine newCandidatePool) !! g) as [raw|]; [|done].
  cbn in Hf, Hts. subst raw. injection Hts as <-.
  assert (forall t, t ∈ merge_sort upstreamOrder (filter (fun t => rt_GroupID (ct_target t) = g) mine)
            <-> rt_GroupID (ct_target t) = g /\ ct_responsesStoreDowngraded t = dg /\ t ∈ targets) as Hin.
  { intros t. rewrite merge_sort_Permutation, list_elem_of_filter. subst mine. rewrite list_elem_of_filter. done. }
  split.
  - apply Sorted_StronglySorted; [apply _|]. apply (Sorted_merge_sort upstreamOrder).
  - rewrite merge_sort_Permutation. subst mine. clear - Hnd.
    induction targets as [|t targets IH]; [constructor|]. rewrite fmap_cons, NoDup_cons in Hnd. destruct Hnd as [Ht Hnd].
    rewrite filter_cons. destruct (decide (ct_responsesStoreDowngraded t = dg)); [|by apply IH].
    rewrite filter_cons. destruct (decide (rt_GroupID (ct_target t) = g)) as [Eg|]; [|by apply IH].
    rewrite fmap_cons. constructor; [|by apply IH].
    intros (t' & Eu & [Eg' [_ Ht']%list_elem_of_filter]%list_elem_of_filter)%list_elem_of_fmap. apply Ht.
    apply list_elem_of_fmap. exists t'. by rewrite Eu, Eg, Eg'.
  - intros t (? & ? & ?)%Hin. auto.
  - intros t t' (E & _ & Ht)%Hin (E' & _ & Ht')%Hin. apply Hg; [done..|congruence].
Qed.

(** A new iterator is well formed, and publishing the snapshot's groups keeps the source. *)
Lemma buildIterator_ok {S} `{CredentialSourceLaws S} snapshot (s : S) q targets reason :
  targets_ok targets -> src_ok s ->
  iterator_ok (buildIterator snapshot s q targets reason).1 /\ src_ok (buildIterator snapshot s q targets reason).2.
Proof.
  intros Ht Hs. unfold buildIterator. cbn [fst snd]. split.
  - split.
    + intros dg. destruct dg; apply buildPool_wf, Ht.
    + cbn. unfold routeModeTiers. destruct snapshot as [sn|]; [destruct (snap_RouteStrategy sn)|]; auto.
  - apply src_put_ok; [done|apply SyncGroups_sameMembers|by apply SyncGroups_ok, src_ledger_ok].
Qed.

(** * A concrete request: two groups, the first with the higher priority *)

Definition exGroup (id priority : Z) : GroupView := 
  mkGroupView "" 0 0 noRules priority id APIKeyConnection [mkModelConfig "m" "gpt"] 3 "direct" false None.

Definition exResolved : ResolvedTarget := mkResolved (mkWebsocket false false false false false) "openai" ∅ ∅ ∅.

Definition exSnapshot : ConfigSnapshot :=
  mkSnapshot RouteStrategyNativeFirst 1 ∅ ∅ ∅
    {[ 7 := mkCatalogView 20 7 "a" true None; 8 := mkCatalogView 10 8 "b" true None ]}
    {[ 7 := exGroup 7 20; 8 := exGroup 8 10 ]}.

Definition exTarget (g priority : Z) (mode : string) : candidateTarget :=
  mkTarget (mkRouteTarget g "m" mode exResolved) (exGroup g priority) false.

Definition exTargets : list candidateTarget := [exTarget 7 20 RouteNative; exTarget 8 10 RouteConverted].

Definition exFilters : FilterSet := mkFilters None false false ∅ ∅ ∅.
Definition exQueryFor (model : option string) (allowed : option (gset Z)) : Query :=
  mkQuery OpenAICompletions OperationChatCompletion "" "" model (mkAccessKeyView 1 "active" exFilters) allowed 0 None None.
Definition exQuery : Query := exQueryFor (Some "gpt"%string) None.

Definition exIterator : Iterator := (buildIterator (Some exSnapshot) exRegistry exQuery exTargets "").1.
Definition exSource : CredentialRegistry := (buildIterator (Some exSnapshot) exRegistry exQuery exTargets "").2.

Lemma exTargets_ok : targets_ok exTargets.
Proof.
  split.
  - apply (bool_decide_unpack _). vm_compute. exact I.
  - intros t t' Ht Ht'. unfold exTargets in *. rewrite !elem_of_cons, elem_of_nil in Ht, Ht'.
    destruct Ht as [->|[->|[]]], Ht' as [->|[->|[]]]; done.
  - intros t Ht. unfold exTargets in *. rewrite !elem_of_cons, elem_of_nil in Ht. destruct Ht as [->|[->|[]]]; done.
Qed.

Lemma exRegistry_src : src_ok exRegistry.
Proof. exact exRegistry_ok. Qed.

Lemma exIterator_ok : iterator_ok exIterator /\ src_ok exSource.
Proof. apply (buildIterator_ok (Some exSnapshot) exRegistry exQuery exTargets "" exTargets_ok exRegistry_src). Qed.

(** The group of the first attempt's credential; 0 when there is none. *)
Definition nextGroup (it : Iterator) (s : CredentialRegistry) : Z :=
  match Next it s 9 9 with
  | Ok (_, _, Some sel) => sel_GroupID sel
  | _ => 0
  end.

Lemma next_sound_witness :
  nextGroup exIterator exSource = 7
  /\ exists it' s' o, Next exIterator exSource 9 9 = Ok (it', s', o) /\ registry_ok s'.
Proof.
  split; [vm_compute; reflexivity|].
  destruct (next_sound exIterator exSource 9 9 (proj1 exIterator_ok) (proj2 exIterator_ok)) as (it' & s' & o & E & Hs & _).
  exists it', s', o. split; [exact E|exact Hs].
Defined.

(** Two attempts, the second after lowering the priority: another credential, of group 8. *)
Lemma failover_never_repeats_witness :
  match Next exIterator exSource 9 9 with
  | Ok (it1, s1, Some sel1) =>
      match Next (AdvancePriority it1 sel1) s1 9 9 with
      | Ok (_, _, Some sel2) => sel_GroupID sel2 = 8 /\ NoDup [sel_CredentialID sel1; sel_CredentialID sel2]
      | _ => False
      end
  | _ => False
  end.
Proof.
  destruct (Next exIterator exSource 9 9) as [[[it1 s1] [sel1|]]|] eqn:E1; [|vm_compute in E1; discriminate E1..].
  destruct (Next (AdvancePriority it1 sel1) s1 9 9) as [[[it2 s2] [sel2|]]|] eqn:E2.
  - split.
    + vm_compute in E1. injection E1 as <- <- <-. vm_compute in E2. injection E2 as <- <- <-. reflexivity.
    + apply (failover_never_repeats exIterator exSource); [exact (proj1 exIterator_ok)|exact (proj2 exIterator_ok)|].
      eapply fo_next; [exact E1|]. apply (fo_lower _ _ sel1). eapply fo_next; [exact E2|]. apply fo_done.
  - vm_compute in E1. injection E1 as <- <- <-. vm_compute in E2. discriminate E2.
  - vm_compute in E1. injection E1 as <- <- <-. vm_compute in E2. discriminate E2.
Defined.

(** A request that may only use credential 9, which does not exist. *)
Definition exStuck : Iterator :=
  (buildIterator (Some exSnapshot) exRegistry (exQueryFor None (Some {[ 9 ]})) exTargets "").1.

Lemma exStuck_ok : iterator_ok exStuck.
Proof.
  apply (buildIterator_ok (Some exSnapshot) exRegistry (exQueryFor None (Some {[ 9 ]})) exTargets ""
    exTargets_ok exRegistry_src).
Qed.

Lemma exhaustion_genuine_witness :
  match Next exStuck exSource 9 9 with
  | Ok (_, _, None) => forall w, w ∈ weightedPool exStuck exSource (poolOf exStuck false) allModes 9 ->
                         exists limit, priorityLimit (poolOf exStuck false) = Some limit /\ limit < prio exStuck w
  | _ => False
  end.
Proof.
  destruct (Next exStuck exSource 9 9) as [[[it' s'] [sel|]]|] eqn:E; [vm_compute in E; discriminate E| |vm_compute in E; discriminate E].
  intros w Hw. apply (exhaustion_genuine exStuck exSource 9 9 it' s' exStuck_ok (proj2 exIterator_ok)) with (dg := false).
  - split; vm_compute; congruence.
  - exact E.
  - exact Hw.
Defined.

(** The native group is skipped, so the request is converted. *)
Lemma native_first_witness :
  match nextFrom false (SkipGroup exIterator 7) exSource 9 with
  | Ok (_, _, Some sel) =>
      sel_RouteMode sel = RouteConverted
      /\ tierEligible (SkipGroup exIterator 7) (poolOf (SkipGroup exIterator 7) false) [RouteNative] 9
           (poolCandidates (SkipGroup exIterator 7) exSource false 9) = []
  | _ => False
  end.
Proof.
  destruct (nextFrom false (SkipGroup exIterator 7) exSource 9) as [[[it' s'] [sel|]]|] eqn:E;
    [|vm_compute in E; discriminate E..].
  assert (sel_RouteMode sel = RouteConverted) as Hm by (vm_compute in E; injection E as <- <- <-; reflexivity).
  split; [exact Hm|].
  apply (native_first (SkipGroup exIterator 7) exSource false 9 it' s' sel).
  - apply SkipGroup_ok. exact (proj1 exIterator_ok).
  - exact (proj2 exIterator_ok).
  - split; vm_compute; congruence.
  - vm_compute. reflexivity.
  - exact E.
  - exact Hm.
Defined.
