(* ===== verification/Inspect.v ===== *)
(** The route inspection report ([internal/scheduler/inspect.go]) and the explanation of an
    exhausted iterator by cooldowns ([CooldownUntil] of [model_cooldown.go]). *)
From S2P Require Import Prelude GoStrings Execution Judge Config Routing Credential Ledger Fair Registry RegistrySafety Iterator.

Local Open Scope Z_scope.
Local Open Scope go_scope.

Definition ReasonNoCredentials : ReasonCode := "no_credentials".
Definition ReasonGroupWeightZero : ReasonCode := "group_weight_zero".
Definition ReasonCredentialDisabled : ReasonCode := "credential_disabled".
Definition ReasonCredentialAuthUnavailable : ReasonCode := "credential_auth_unavailable".
Definition ReasonCredentialBlacklisted : ReasonCode := "credential_blacklisted".
Definition ReasonCredentialCooldown : ReasonCode := "credential_cooldown".
Definition ReasonModelCooldown : ReasonCode := "model_cooldown".
Definition ReasonCredentialWeightZero : ReasonCode := "credential_weight_zero".
Definition ReasonCredentialNotAllowed : ReasonCode := "credential_not_allowed".
Definition ReasonNoAvailableCredential : ReasonCode := "no_available_credential".

Record CredentialInspection := mkCredentialInspection {
  ci_CredentialID : Z;
  ci_Available : bool;
  ci_Reason : ReasonCode;
  ci_WeightManual : option Z;
  ci_EffectiveWeight : Z;
  ci_CooldownUntil : Z
}.

Record GroupInspection := mkGroupInspection {
  gi_Priority : Z;
  gi_GroupID : Z;
  gi_GroupName : string;
  gi_ChannelID : string;
  gi_RouteMode : RouteMode;
  gi_RouteRequirementSatisfied : bool;
  gi_UpstreamModelID : option string;
  gi_WeightManual : option Z;
  gi_Included : bool;
  gi_Routable : bool;
  gi_Reason : ReasonCode;
  gi_Credentials : list CredentialInspection
}.

Record Inspection := mkInspection {
  in_ClientProtocol : Protocol;
  in_Operation : Operation;
  in_RouteRequirement : RouteRequirement;
  in_ExternalModel : option string;
  in_Routable : bool;
  in_Reason : ReasonCode;
  in_Groups : list GroupInspection
}.

(** * One credential *)

Definition weightZero (w : option Z) : bool := match w with Some x => x =? 0 | None => false end.

Definition inspectCredential (group : GroupCatalogView) (credential : CredentialRuntimeView) (allowed : option (gset Z))
    (now : Z) (model : string) (o : Operation) : CredentialInspection :=
  let refused reason := mkCredentialInspection (view_ID credential) false reason (view_WeightManual credential) 0 0 in
  let cooling reason until := mkCredentialInspection (view_ID credential) false reason (view_WeightManual credential) 0 until in
  let modelUntil := modelCooldownUntil (view_ModelCooldowns credential) model o now in
  if weightZero (gc_WeightManual group) then refused ReasonGroupWeightZero
  else if match allowed with Some ids => negb (bool_decide (view_ID credential ∈ ids)) | None => false end
  then refused ReasonCredentialNotAllowed
  else if negb (bool_decide (view_Status credential = StatusActive)) then refused ReasonCredentialDisabled
  else if negb (AuthReadyView credential) then refused ReasonCredentialAuthUnavailable
  else if weightZero (view_WeightManual credential) then refused ReasonCredentialWeightZero
  else match RuntimeState credential now with
  | RuntimeBlacklisted => refused ReasonCredentialBlacklisted
  | RuntimeCooldown =>
      cooling ReasonCredentialCooldown
        (if view_CooldownUntil credential <? modelUntil then modelUntil else view_CooldownUntil credential)
  | RuntimeAvailable | RuntimeDisabled =>
      if now <? modelUntil then cooling ReasonModelCooldown modelUntil
      else mkCredentialInspection (view_ID credential) true "" (view_WeightManual credential)
             (effectiveWeight (gc_WeightManual group) (view_WeightManual credential)) 0
  end.

(** * The report *)

Definition viewIDOrder (a b : CredentialRuntimeView) : Prop := view_ID a <= view_ID b.
#[export] Instance viewIDOrder_dec : RelDecision viewIDOrder.
Proof. intros a b. unfold viewIDOrder. apply _. Defined.

(** The credentials of one group, by identifier. *)
Definition credentialsOfGroup (credentials : list CredentialRuntimeView) (groupID : Z) : list CredentialRuntimeView :=
  merge_sort viewIDOrder (filter (fun v => view_GroupID v = groupID) credentials).

Definition optionalModel (value : string) : option string := if strEq value "" then None else Some value.

Definition usableCredential (c : CredentialInspection) : bool := ci_Available c && (0 <? ci_EffectiveWeight c).

Definition inspectGroup (nq : normalizedQuery) (credentials : list CredentialRuntimeView) (now : Z) (d : targetDecision)
  : GroupInspection :=
  let report routable reason cs :=
    mkGroupInspection (gc_Priority (td_group d)) (gc_ID (td_group d)) (gc_Name (td_group d))
      (tg_ChannelID (rt_ResolvedTarget (td_target d))) (rt_Mode (td_target d)) (td_requirementOK d)
      (optionalModel (rt_UpstreamModelID (td_target d))) (gc_WeightManual (td_group d)) (td_included d) routable reason cs in
  if negb (td_included d) then report false (td_reason d) []
  else
    let mine := credentialsOfGroup credentials (gc_ID (td_group d)) in
    let cs := (fun v => inspectCredential (td_group d) v (nq_allowedCredentialIDs nq) now
                          (rt_UpstreamModelID (td_target d)) (nq_operation nq)) <$> mine in
    let routable := existsb usableCredential cs in
    let reason :=
      if weightZero (gc_WeightManual (td_group d)) then ReasonGroupWeightZero
      else if bool_decide (mine = []) then ReasonNoCredentials
      else if negb routable then ReasonNoAvailableCredential
      else td_reason d in
    report routable reason cs.

Definition Inspect (snapshot : option ConfigSnapshot) (credentials : list CredentialRuntimeView) (q : Query) (now : Z)
  : result SchedulerError Inspection :=
  let nq := normalizeQuery q in
  let report routable reason groups :=
    mkInspection (nq_clientProtocol nq) (nq_operation nq) (nq_routeRequirement nq) (nq_externalModel nq) routable reason groups in
  match snapshot with
  | None => Err ErrInconsistentSnapshot
  | Some sn =>
      if strEq (ak_Status (nq_accessKey nq)) AccessKeyStatusDisabled then Ok (report false ReasonAccessKeyDisabled [])
      else if existsb (fun v => negb (isSome (snap_GroupCatalog sn !! view_GroupID v))) credentials
      then Err ErrInconsistentSnapshot
      else
        try! r := evaluateTargets (Some sn) (snap_ExecutionRouteCatalog sn) nq false in
        let groups := inspectGroup nq credentials now <$> r.1 in
        if existsb gi_Routable groups then Ok (report true "" groups)
        else Ok (report false (if negb (strEq r.2 "") then r.2 else ReasonNoAvailableCredential) groups)
  end.

(** * The end of the cooldowns *)

Definition coolingReason (r : ReasonCode) : bool := strEq r ReasonCredentialCooldown || strEq r ReasonModelCooldown.

(** The scan of [CooldownUntil]; the zero instant stands for nothing found yet. *)
Definition earliestStep (earliest : Z) (c : CredentialInspection) : Z :=
  if negb (coolingReason (ci_Reason c)) then earliest
  else if isZeroTime earliest || (ci_CooldownUntil c <? earliest) then ci_CooldownUntil c else earliest.

Definition earliestCooldown (groups : list GroupInspection) : Z :=
  fold_left (fun acc g => if negb (gi_Included g) then acc else fold_left earliestStep (gi_Credentials g) acc) groups 0.

(** [credentials] is the registry's snapshot.  A panic of the evaluation propagates, an error
    value means that nothing is known. *)
Definition CooldownUntil (it : Iterator) (credentials : list CredentialRuntimeView) (now : Z)
  : result SchedulerError (option Z) :=
  match Inspect (it_snapshot it) credentials (it_query it) now with
  | Err IndexOutOfRange => Err IndexOutOfRange
  | Err ErrInconsistentSnapshot => Ok None
  | Ok report =>
      if in_Routable report then Ok None
      else
        let earliest := earliestCooldown (in_Groups report) in
        Ok (if isZeroTime earliest then None else Some earliest)
  end.
