(* ===== verification/RouteIndex.v ===== *)
(** Compiling groups into route indexes ([Compile] of [internal/state/snapshot.go], restricted
    to what routing reads: the group part of [validateCompileInput], the catalog, the group
    views, the three route indexes and the shared account limits).

    What the channel registry resolves a group's channel and parameters to, and the group's
    resolved settings, are fields of [GroupConfig]. *)
From S2P Require Import Prelude GoStrings Execution Judge Config Routing Credential.

Local Open Scope Z_scope.
Local Open Scope go_scope.

Definition Codex : string := "codex".
Definition CodexLiveModelID : string := "gpt-live-1-codex".

Record GroupConfig := mkGroupConfig {
  gcf_ID : Z;
  gcf_Name : string;
  gcf_Enabled : bool;
  gcf_Priority : Z;
  gcf_ChannelID : string;
  gcf_ConnectionType : string;
  gcf_Models : list ModelConfig;
  gcf_WeightManual : option Z;
  (** [registry.Resolve] and [registry.Get]. *)
  gcf_Target : ResolvedTarget;
  gcf_ClientProtocols : list Protocol;
  (** The resolved settings. *)
  gcf_TransparentProxy : bool;
  gcf_TransparentModels : bool;
  gcf_ErrorRules : ErrorRules;
  gcf_BlacklistThreshold : Z;
  gcf_CodexLiveMode : string;
  gcf_ResponsesWebsocketEnabled : bool;
  gcf_AccountPool : string;
  gcf_AccountConcurrencyLimit : Z;
  gcf_AccountRPMLimit : Z
}.

Inductive CompileError :=
| GroupIDRequired
| DuplicateGroup (groupID : Z)
| WeightOutOfRange (groupID : Z)
| ModelIDRequired (groupID : Z)
| DuplicateMapping (groupID : Z) (external upstream : string)
| NoLiveRoute (groupID : Z)
| NoRouteMode (groupID : Z) (clientProtocol : Protocol) (o : Operation)
| UnsupportedOperation (groupID : Z) (o : Operation).

(** * Validation of the groups *)

Fixpoint validateModels (groupID : Z) (models : list ModelConfig) (seen : gset (string * string))
  : result CompileError unit :=
  match models with
  | [] => Ok tt
  | m :: rest =>
      let mapping := (externalModelName m, TrimSpace (mc_ID m)) in
      if strEq (TrimSpace (mc_ID m)) "" then Err (ModelIDRequired groupID)
      else if bool_decide (mapping ∈ seen) then Err (DuplicateMapping groupID mapping.1 (mc_ID m))
      else validateModels groupID rest ({[mapping]} ∪ seen)
  end.

Fixpoint validateGroups (groups : list GroupConfig) (seen : gset Z) : result CompileError unit :=
  match groups with
  | [] => Ok tt
  | g :: rest =>
      if gcf_ID g =? 0 then Err GroupIDRequired
      else if bool_decide (gcf_ID g ∈ seen) then Err (DuplicateGroup (gcf_ID g))
      else if negb (manualWeightValid (gcf_WeightManual g)) then Err (WeightOutOfRange (gcf_ID g))
      else try! _ := validateModels (gcf_ID g) (gcf_Models g) ∅ in
           validateGroups rest ({[gcf_ID g]} ∪ seen)
  end.

(** * The routes of one group *)

Record RouteEntry := mkRouteEntry {
  re_protocol : Protocol;
  re_operation : Operation;
  re_model : string;
  re_target : RouteTarget
}.

Definition hiddenOperation (o : Operation) : bool :=
  oneOf o [OperationListModels; OperationProbe; OperationLiveCall; OperationTransparentRequest].

Definition lifecycleOperation (o : Operation) : bool := oneOf o lifecycleOperations.

Definition resourceOrPassthrough (o : Operation) : bool :=
  oneOf o [OperationResourceCreate; OperationResourceRead; OperationResourceDelete; OperationResourceCancel;
           OperationResponsesPassthrough; OperationMistralVoices].

Definition modelOperation (o : Operation) : bool :=
  oneOf o
    [OperationChatCompletion; OperationResponsesCreate; OperationResponsesCompact; OperationResponsesInputTokens;
     OperationWebSearch; OperationCountTokens; OperationImagesGenerate; OperationImagesEdit; OperationEmbeddingsCreate;
     OperationRerank; OperationDecisionsCreate; OperationAudioSpeech; OperationMistralOCR; OperationMistralFIM;
     OperationMistralAudioTranscription; OperationMistralAudioSpeech; OperationMistralModeration;
     OperationMistralChatModeration; OperationMistralClassification; OperationMistralRealtimeTranscription].

Fixpoint modelEntries (g : GroupConfig) (p : Protocol) (o : Operation) (models : list ModelConfig)
  : result CompileError (list RouteEntry) :=
  match models with
  | [] => Ok []
  | m :: rest =>
      if strEq (gcf_ChannelID g) Codex && strEq (mc_ID m) CodexLiveModelID then modelEntries g p o rest
      else match ModeForModel (gcf_Target g) p o (mc_ID m) with
      | None => Err (NoRouteMode (gcf_ID g) p o)
      | Some mode =>
          try! es := modelEntries g p o rest in
          Ok (mkRouteEntry p o (externalModelName m) (mkRouteTarget (gcf_ID g) (TrimSpace (mc_ID m)) mode (gcf_Target g)) :: es)
      end
  end.

Definition noModelEntry (g : GroupConfig) (p : Protocol) (o : Operation) (mode : RouteMode) : RouteEntry :=
  mkRouteEntry p o NoModelRouteKey (mkRouteTarget (gcf_ID g) "" mode (gcf_Target g)).

Definition operationEntries (g : GroupConfig) (p : Protocol) (o : Operation) : result CompileError (list RouteEntry) :=
  if hiddenOperation o then Ok []
  else match Mode (gcf_Target g) p o with
  | None => Err (NoRouteMode (gcf_ID g) p o)
  | Some mode =>
      if lifecycleOperation o then Ok [noModelEntry g p o mode]
      else if resourceOrPassthrough o then
        try! es := modelEntries g p o (gcf_Models g) in Ok (noModelEntry g p o mode :: es)
      else if modelOperation o then modelEntries g p o (gcf_Models g)
      else Err (UnsupportedOperation (gcf_ID g) o)
  end.

(** Results of a list of fallible computations, in order. *)
Fixpoint collect {A} (f : A -> result CompileError (list RouteEntry)) (l : list A) : result CompileError (list RouteEntry) :=
  match l with
  | [] => Ok []
  | x :: rest => try! es := f x in try! more := collect f rest in Ok (es ++ more)
  end.

(** The entries [appendExecutionTargets] appends for a group, in order. *)
Definition executionEntries (g : GroupConfig) : result CompileError (list RouteEntry) :=
  let transparent :=
    if gcf_TransparentProxy g
    then [mkRouteEntry TransparentHTTP OperationTransparentRequest NoModelRouteKey
            (mkRouteTarget (gcf_ID g) "" RouteNative (WithTransparentHTTP (gcf_Target g)))]
    else [] in
  try! live :=
    (if strEq (gcf_ChannelID g) Codex then
       match Mode (gcf_Target g) CodexLive OperationLiveCall with
       | None => Err (NoLiveRoute (gcf_ID g))
       | Some mode => Ok [noModelEntry g CodexLive OperationLiveCall mode]
       end
     else Ok []) in
  if bool_decide (gcf_Models g = []) then Ok (transparent ++ live)
  else
    try! rest := collect (fun p => collect (operationEntries g p) (Operations (gcf_Target g) p)) (gcf_ClientProtocols g) in
    Ok (transparent ++ live ++ rest).

(** The entries [appendWildcardTargets] appends for a group, in order. *)
Definition wildcardEntry (g : GroupConfig) (p : Protocol) (o : Operation) : option RouteEntry :=
  if modelOperation o
  then (fun mode => mkRouteEntry p o "" (mkRouteTarget (gcf_ID g) "" mode (gcf_Target g))) <$> Mode (gcf_Target g) p o
  else None.

Definition wildcardEntries (g : GroupConfig) : list RouteEntry :=
  gcf_ClientProtocols g ≫= (fun p => omap (wildcardEntry g p) (Operations (gcf_Target g) p)).

(** * The indexes *)

Definition appendExecutionTarget (ix : ExecutionCandidateIndex) (e : RouteEntry) : ExecutionCandidateIndex :=
  let byOperation := mget ∅ ix (re_protocol e) in
  let byModel := mget ∅ byOperation (re_operation e) in
  let targets := mget [] byModel (re_model e) ++ [re_target e] in
  <[re_protocol e := <[re_operation e := <[re_model e := targets]> byModel]> byOperation]> ix.

Definition appendWildcardTarget (ix : WildcardIndex) (e : RouteEntry) : WildcardIndex :=
  let byOperation := mget ∅ ix (re_protocol e) in
  let targets := mget [] byOperation (re_operation e) ++ [re_target e] in
  <[re_protocol e := <[re_operation e := targets]> byOperation]> ix.

(** Native routes first, then by group, then by upstream model. *)
Definition routeLess (a b : RouteTarget) : bool :=
  if negb (strEq (rt_Mode a) (rt_Mode b)) then strEq (rt_Mode a) RouteNative
  else if negb (rt_GroupID a =? rt_GroupID b) then rt_GroupID a <? rt_GroupID b
  else String.ltb (rt_UpstreamModelID a) (rt_UpstreamModelID b).

Definition routeOrder (a b : RouteTarget) : Prop := routeLess b a = false.
#[export] Instance routeOrder_dec : RelDecision routeOrder.
Proof. intros a b. unfold routeOrder. apply _. Defined.

Definition sortExecutionRouteIndex (ix : ExecutionCandidateIndex) : ExecutionCandidateIndex :=
  (fun byOperation : gmap string (gmap string (list RouteTarget)) =>
     (fun byModel : gmap string (list RouteTarget) => merge_sort routeOrder <$> byModel) <$> byOperation) <$> ix.

(** * Shared account limits *)

(** The smaller of the positive limits; zero means no limit. *)
Definition tighter (current limit : Z) : Z :=
  if (0 <? limit) && ((current =? 0) || (limit <? current)) then limit else current.

Definition poolStep (accounts : gmap string (Z * Z)) (v : GroupView) : gmap string (Z * Z) :=
  if strEq (gv_AccountPool v) "" then accounts
  else
    let value := mget (0, 0) accounts (gv_AccountPool v) in
    <[gv_AccountPool v := (tighter value.1 (gv_AccountConcurrencyLimit v), tighter value.2 (gv_AccountRPMLimit v))]> accounts.

Definition withAccountLimits (concurrency rpm : Z) (v : GroupView) : GroupView :=
  mkGroupView (gv_AccountPool v) concurrency rpm (gv_ErrorRules v) (gv_Priority v) (gv_ID v) (gv_ConnectionType v)
    (gv_Models v) (gv_BlacklistThreshold v) (gv_CodexLiveMode v) (gv_ResponsesWebsocketEnabled v) (gv_WeightManual v).

(** [order] is the order in which the runtime iterates over the map. *)
Definition resolveSharedAccountLimits (order : list GroupView) (groups : gmap Z GroupView) : gmap Z GroupView :=
  let accounts := fold_left poolStep order ∅ in
  (fun v => if strEq (gv_AccountPool v) "" then v
            else let value := mget (0, 0) accounts (gv_AccountPool v) in withAccountLimits value.1 value.2 v) <$> groups.

(** * Compilation *)

Definition catalogView (g : GroupConfig) : GroupCatalogView :=
  mkCatalogView (gcf_Priority g) (gcf_ID g) (gcf_Name g) (gcf_Enabled g) (gcf_WeightManual g).

Definition groupView (g : GroupConfig) : GroupView :=
  mkGroupView (gcf_AccountPool g) (gcf_AccountConcurrencyLimit g) (gcf_AccountRPMLimit g) (gcf_ErrorRules g)
    (gcf_Priority g) (gcf_ID g) (connectionNormalize (gcf_ConnectionType g)) (gcf_Models g) (gcf_BlacklistThreshold g)
    (gcf_CodexLiveMode g) (gcf_ResponsesWebsocketEnabled g) (gcf_WeightManual g).

(** The indexes and views under construction. *)
Record Building := mkBuilding {
  bd_candidates : ExecutionCandidateIndex;
  bd_catalogRoutes : ExecutionCandidateIndex;
  bd_wildcards : WildcardIndex;
  bd_catalog : gmap Z GroupCatalogView;
  bd_groups : gmap Z GroupView
}.

Definition compileGroup (b : Building) (g : GroupConfig) : result CompileError Building :=
  let catalog := <[gcf_ID g := catalogView g]> (bd_catalog b) in
  try! es := executionEntries g in
  let catalogRoutes := fold_left appendExecutionTarget es (bd_catalogRoutes b) in
  if negb (gcf_Enabled g) then Ok (mkBuilding (bd_candidates b) catalogRoutes (bd_wildcards b) catalog (bd_groups b))
  else
    let wildcards :=
      if gcf_TransparentModels g && strEq (connectionNormalize (gcf_ConnectionType g)) APIKeyConnection
      then fold_left appendWildcardTarget (wildcardEntries g) (bd_wildcards b) else bd_wildcards b in
    Ok (mkBuilding (fold_left appendExecutionTarget es (bd_candidates b)) catalogRoutes wildcards catalog
          (<[gcf_ID g := groupView g]> (bd_groups b))).

Fixpoint compileGroups (b : Building) (groups : list GroupConfig) : result CompileError Building :=
  match groups with
  | [] => Ok b
  | g :: rest => try! b' := compileGroup b g in compileGroups b' rest
  end.

(** [order] stands for the iteration over the compiled groups.  The revision is assigned when the
    snapshot is published. *)
Definition Compile (strategy : RouteStrategy) (groups : list GroupConfig) (order : gmap Z GroupView -> list GroupView)
  : result CompileError ConfigSnapshot :=
  try! _ := validateGroups groups ∅ in
  try! b := compileGroups (mkBuilding ∅ ∅ ∅ ∅ ∅) groups in
  Ok (mkSnapshot strategy 0 (sortExecutionRouteIndex (bd_candidates b)) (sortExecutionRouteIndex (bd_catalogRoutes b))
        (bd_wildcards b) (bd_catalog b) (resolveSharedAccountLimits (order (bd_groups b)) (bd_groups b))).
