(* ===== verification/RouteProps.v ===== *)
(** Compiled route indexes contain exactly the routes the enabled groups declare, each once, and
    the shared account limits do not depend on the order of iteration. *)
From S2P Require Import Prelude GoStrings Execution Judge Config Routing Credential RouteIndex.

Local Open Scope Z_scope.

(** * Reading an index *)

Definition routesAt (ix : ExecutionCandidateIndex) (p o m : string) : list RouteTarget :=
  mget [] (mget ∅ (mget ∅ ix p) o) m.
Definition wildcardsAt (ix : WildcardIndex) (p o : string) : list RouteTarget := mget [] (mget ∅ ix p) o.

Definition entriesAt (p o m : string) (es : list RouteEntry) : list RouteTarget :=
  re_target <$> filter (fun e => re_protocol e = p /\ re_operation e = o /\ re_model e = m) es.
Definition entriesFor (p o : string) (es : list RouteEntry) : list RouteTarget :=
  re_target <$> filter (fun e => re_protocol e = p /\ re_operation e = o) es.

Lemma mget_insert {K A} `{Countable K} (z : A) (m : gmap K A) k v k' :
  mget z (<[k := v]> m) k' = if decide (k = k') then v else mget z m k'.
Proof. unfold mget. rewrite lookup_insert. by case_decide. Qed.

Lemma mget_fmap {K A B} `{Countable K} (f : A -> B) (z : A) (m : gmap K A) k : mget (f z) (f <$> m) k = f (mget z m k).
Proof. unfold mget. rewrite lookup_fmap. by destruct (m !! k). Qed.

Lemma routesAt_append ix e p o m :
  routesAt (appendExecutionTarget ix e) p o m = routesAt ix p o m ++ entriesAt p o m [e].
Proof.
  unfold routesAt, appendExecutionTarget, entriesAt. rewrite mget_insert, filter_cons, filter_nil.
  destruct (decide (re_protocol e = p)) as [<-|Hp]; [|rewrite decide_False by tauto; by rewrite app_nil_r].
  rewrite mget_insert. destruct (decide (re_operation e = o)) as [<-|Ho]; [|rewrite decide_False by tauto; by rewrite app_nil_r].
  rewrite mget_insert. destruct (decide (re_model e = m)) as [<-|Hm]; [|rewrite decide_False by tauto; by rewrite app_nil_r].
  by rewrite decide_True.
Qed.

Lemma wildcardsAt_append ix e p o :
  wildcardsAt (appendWildcardTarget ix e) p o = wildcardsAt ix p o ++ entriesFor p o [e].
Proof.
  unfold wildcardsAt, appendWildcardTarget, entriesFor. rewrite mget_insert, filter_cons, filter_nil.
  destruct (decide (re_protocol e = p)) as [<-|Hp]; [|rewrite decide_False by tauto; by rewrite app_nil_r].
  rewrite mget_insert. destruct (decide (re_operation e = o)) as [<-|Ho]; [|rewrite decide_False by tauto; by rewrite app_nil_r].
  by rewrite decide_True.
Qed.

Lemma entriesAt_app p o m l1 l2 : entriesAt p o m (l1 ++ l2) = entriesAt p o m l1 ++ entriesAt p o m l2.
Proof. unfold entriesAt. by rewrite filter_app, fmap_app. Qed.
Lemma entriesFor_app p o l1 l2 : entriesFor p o (l1 ++ l2) = entriesFor p o l1 ++ entriesFor p o l2.
Proof. unfold entriesFor. by rewrite filter_app, fmap_app. Qed.

Lemma routesAt_fold es ix p o m :
  routesAt (fold_left appendExecutionTarget es ix) p o m = routesAt ix p o m ++ entriesAt p o m es.
Proof.
  revert ix. induction es as [|e es IH]; intros ix; cbn [fold_left]; [by rewrite app_nil_r|].
  rewrite IH, routesAt_append, <- app_assoc. f_equal. symmetry. apply (entriesAt_app p o m [e] es).
Qed.

Lemma wildcardsAt_fold es ix p o :
  wildcardsAt (fold_left appendWildcardTarget es ix) p o = wildcardsAt ix p o ++ entriesFor p o es.
Proof.
  revert ix. induction es as [|e es IH]; intros ix; cbn [fold_left]; [by rewrite app_nil_r|].
  rewrite IH, wildcardsAt_append, <- app_assoc. f_equal. symmetry. apply (entriesFor_app p o [e] es).
Qed.

Lemma routesAt_sort ix p o m : routesAt (sortExecutionRouteIndex ix) p o m = merge_sort routeOrder (routesAt ix p o m).
Proof.
  unfold routesAt, sortExecutionRouteIndex.
  rewrite <- (mget_fmap (merge_sort routeOrder) []). f_equal.
  rewrite <- (mget_fmap (fun byModel : gmap string (list RouteTarget) => merge_sort routeOrder <$> byModel) ∅).
  rewrite fmap_empty. f_equal.
  by rewrite <- (mget_fmap (fun byOperation : gmap string (gmap string (list RouteTarget)) =>
     (fun byModel : gmap string (list RouteTarget) => merge_sort routeOrder <$> byModel) <$> byOperation) ∅), fmap_empty.
Qed.

(** * The routes a group declares *)

Definition live_model (g : GroupConfig) (m : ModelConfig) : Prop := gcf_ChannelID g = Codex /\ mc_ID m = CodexLiveModelID.

Definition declares_model (g : GroupConfig) (p o : string) (e : RouteEntry) : Prop :=
  exists m mode, m ∈ gcf_Models g /\ ~ live_model g m /\ ModeForModel (gcf_Target g) p o (mc_ID m) = Some mode
    /\ e = mkRouteEntry p o (externalModelName m) (mkRouteTarget (gcf_ID g) (TrimSpace (mc_ID m)) mode (gcf_Target g)).

Definition declares_operation (g : GroupConfig) (p o : string) (e : RouteEntry) : Prop :=
  hiddenOperation o = false
  /\ ((lifecycleOperation o || resourceOrPassthrough o = true /\ exists mode, Mode (gcf_Target g) p o = Some mode /\ e = noModelEntry g p o mode)
      \/ (lifecycleOperation o = false /\ resourceOrPassthrough o || modelOperation o = true /\ declares_model g p o e)).

Definition transparentEntry (g : GroupConfig) : RouteEntry :=
  mkRouteEntry TransparentHTTP OperationTransparentRequest NoModelRouteKey
    (mkRouteTarget (gcf_ID g) "" RouteNative (WithTransparentHTTP (gcf_Target g))).

(** A group declares its transparent route when it is enabled, its live route when it is a Codex
    group and, once it has models, every visible operation of its client protocols: the resource
    operations without a model and the others for each of its models. *)
Definition declares (g : GroupConfig) (e : RouteEntry) : Prop :=
  (gcf_TransparentProxy g = true /\ e = transparentEntry g)
  \/ (gcf_ChannelID g = Codex /\ exists mode, Mode (gcf_Target g) CodexLive OperationLiveCall = Some mode
        /\ e = noModelEntry g CodexLive OperationLiveCall mode)
  \/ (gcf_Models g <> [] /\ exists p o, p ∈ gcf_ClientProtocols g /\ is_Some (Mode (gcf_Target g) p o) /\ declares_operation g p o e).

Lemma modelEntries_spec g p o models es :
  modelEntries g p o models = Ok es ->
  forall e, e ∈ es <-> exists m mode, m ∈ models /\ ~ live_model g m /\ ModeForModel (gcf_Target g) p o (mc_ID m) = Some mode
    /\ e = mkRouteEntry p o (externalModelName m) (mkRouteTarget (gcf_ID g) (TrimSpace (mc_ID m)) mode (gcf_Target g)).
Proof.
  revert es. induction models as [|m models IH]; intros es; cbn.
  { intros [= <-] e. split; [by intros ?%not_elem_of_nil|]. intros (m & _ & Hm & _). by apply not_elem_of_nil in Hm. }
  destruct (strEq (gcf_ChannelID g) Codex && strEq (mc_ID m) CodexLiveModelID) eqn:El.
  { intros Hes e. rewrite (IH es Hes). apply andb_true_iff in El as [Ec%strEq_true Em%strEq_true].
    split; intros (m' & mode & Hm & Hl & H); exists m', mode; [split; [by right|done]|].
    apply elem_of_cons in Hm as [-> |Hm]; [by destruct Hl|done]. }
  assert (~ live_model g m) as Hl.
  { intros [Ec Em]. rewrite (proj2 (strEq_true _ _) Ec), (proj2 (strEq_true _ _) Em) in El. done. }
  destruct (ModeForModel _ _ _ _) as [mode|] eqn:Em; [|done].
  destruct (modelEntries g p o models) as [es'|] eqn:Ees; [|done]. intros [= <-] e.
  rewrite elem_of_cons, (IH es' eq_refl). split.
  - intros [-> |(m' & mode' & Hm & H)]; [exists m, mode|exists m', mode']; (split; [by constructor|done]).
  - intros (m' & mode' & [-> |Hm]%elem_of_cons & Hl' & Em' & ->); [left; congruence|right; eauto 10].
Qed.

Lemma operationEntries_spec g p o es :
  operationEntries g p o = Ok es -> forall e, e ∈ es <-> declares_operation g p o e.
Proof.
  unfold operationEntries, declares_operation, declares_model. destruct (hiddenOperation o) eqn:Eh.
  { intros [= <-] e. split; [by intros ?%not_elem_of_nil|intros [? _]; done]. }
  destruct (Mode _ p o) as [mode|] eqn:Em; [|done].
  destruct (lifecycleOperation o) eqn:El; cbn [orb].
  { intros [= <-] e. rewrite list_elem_of_singleton. naive_solver. }
  destruct (resourceOrPassthrough o) eqn:Er; cbn [orb].
  { destruct (modelEntries g p o _) as [es'|] eqn:Ees; [|done]. intros [= <-] e.
    rewrite elem_of_cons, (modelEntries_spec _ _ _ _ _ Ees). naive_solver. }
  destruct (modelOperation o) eqn:Eo; [|done]. intros Ees e. rewrite (modelEntries_spec _ _ _ _ _ Ees). naive_solver.
Qed.

Lemma collect_spec {A} (f : A -> result CompileError (list RouteEntry)) l es :
  collect f l = Ok es -> forall e, e ∈ es <-> exists x es', x ∈ l /\ f x = Ok es' /\ e ∈ es'.
Proof.
  revert es. induction l as [|x l IH]; intros es; cbn.
  { intros [= <-] e. split; [by intros ?%not_elem_of_nil|intros (? & _ & ?%not_elem_of_nil & _); done]. }
  destruct (f x) as [es1|] eqn:E1; [|done]. destruct (collect f l) as [es2|]; [|done]. intros [= <-] e.
  rewrite elem_of_app, (IH es2 eq_refl). split.
  - intros [He|(y & es' & Hy & H)]; [exists x, es1|exists y, es']; (split; [by constructor|done]).
  - intros (y & es' & [-> |Hy]%elem_of_cons & Hf & He); [left; congruence|right; eauto].
Qed.

Lemma collect_ok {A} (f : A -> result CompileError (list RouteEntry)) l es x :
  collect f l = Ok es -> x ∈ l -> exists es', f x = Ok es'.
Proof.
  revert es. induction l as [|y l IH]; intros es; cbn; [by intros _ ?%not_elem_of_nil|].
  destruct (f y) as [es1|] eqn:E1; [|done]. destruct (collect f l) as [es2|]; [|done]. intros _.
  intros [-> |Hx]%elem_of_cons; eauto.
Qed.

Lemma Operations_elem t p o : o ∈ Operations t p <-> is_Some (Mode t p o).
Proof.
  unfold Operations, Mode, mget. rewrite merge_sort_Permutation, list_elem_of_fmap. split.
  - intros ([k v] & -> & Hk%elem_of_map_to_list). cbn. destruct (tg_modes t !! p); cbn in Hk; [eauto|]. by rewrite lookup_empty in Hk.
  - intros [mode Hm]. exists (o, mode). split; [done|]. apply elem_of_map_to_list. by destruct (tg_modes t !! p).
Qed.

Lemma executionEntries_spec g es :
  executionEntries g = Ok es -> forall e, e ∈ es <-> declares g e.
Proof.
  unfold executionEntries, declares. fold (transparentEntry g).
  set (live := if strEq _ _ then _ else Ok []). intros Hes e.
  assert (Hlive : exists l, live = Ok l /\ forall e, e ∈ l <-> gcf_ChannelID g = Codex
            /\ exists mode, Mode (gcf_Target g) CodexLive OperationLiveCall = Some mode /\ e = noModelEntry g CodexLive OperationLiveCall mode).
  { subst live. destruct (strEq (gcf_ChannelID g) Codex) eqn:Ec.
    - destruct (Mode _ _ _) as [mode|] eqn:Em; [|done]. eexists. split; [done|]. intros e'. rewrite list_elem_of_singleton.
      apply strEq_true in Ec. naive_solver.
    - eexists. split; [done|]. intros e'. split; [by intros ?%not_elem_of_nil|].
      intros [Ec' _]. by rewrite (proj2 (strEq_true _ _) Ec') in Ec. }
  destruct Hlive as (l & -> & Hl).
  assert (Ht : forall e', e' ∈ (if gcf_TransparentProxy g then [transparentEntry g] else [])
             <-> gcf_TransparentProxy g = true /\ e' = transparentEntry g).
  { intros e'. destruct (gcf_TransparentProxy g); [rewrite list_elem_of_singleton; naive_solver|].
    split; [by intros ?%not_elem_of_nil|intros [? _]; done]. }
  destruct (bool_decide (gcf_Models g = [])) eqn:Em.
  { apply bool_decide_eq_true in Em. injection Hes as <-. rewrite elem_of_app, Ht, Hl. naive_solver. }
  apply bool_decide_eq_false in Em. destruct (collect _ (gcf_ClientProtocols g)) as [rest|] eqn:Er; [|done].
  injection Hes as <-. rewrite !elem_of_app, Ht, Hl, (collect_spec _ _ _ Er). split; (intros [H|[H|H]]; [by left|by right; left|right; right]).
  - destruct H as (p & es' & Hp & Hc & He). apply (collect_spec _ _ _ Hc) in He as (o & es'' & Ho & Hoe & He).
    split; [done|]. exists p, o. split; [done|]. split; [by apply Operations_elem|]. by apply (operationEntries_spec g p o es'').
  - destruct H as (_ & p & o & Hp & Ho%Operations_elem & Hd). destruct (collect_ok _ _ _ p Er Hp) as [es' Hes'].
    exists p, es'. split; [done|]. split; [done|]. apply (collect_spec _ _ _ Hes').
    destruct (collect_ok _ _ _ o Hes' Ho) as [es'' He'']. exists o, es''. split; [done|]. split; [done|].
    by apply (operationEntries_spec g p o es'').
Qed.

(** * Every route is declared once *)

Definition mapping (m : ModelConfig) : string * string := (externalModelName m, TrimSpace (mc_ID m)).

Record models_ok (models : list ModelConfig) : Prop := {
  mo_nodup : NoDup (mapping <$> models);
  mo_id : forall m, m ∈ models -> TrimSpace (mc_ID m) <> EmptyString
}.

Lemma validateModels_ok g models seen :
  validateModels g models seen = Ok tt -> models_ok models /\ forall m, m ∈ models -> mapping m ∉ seen.
Proof.
  revert seen. induction models as [|m models IH]; intros seen; cbn.
  { intros _. split; [split; [constructor|]|]; by intros ? ?%not_elem_of_nil. }
  destruct (strEq (TrimSpace (mc_ID m)) "") eqn:Ei; [done|]. apply strEq_false in Ei.
  case_bool_decide as Hs; [done|]. intros [[Hn Hi] Hd]%IH. split; [split|].
  - rewrite fmap_cons. constructor; [|done]. intros (m' & Em & Hm)%list_elem_of_fmap. apply (Hd m' Hm), elem_of_union_l, elem_of_singleton. by rewrite <- Em.
  - intros m' [-> |Hm]%elem_of_cons; auto.
  - intros m' [-> |Hm]%elem_of_cons; [done|]. intros Hin. by apply (Hd m' Hm), elem_of_union_r.
Qed.

Lemma externalModelName_nonempty m : TrimSpace (mc_ID m) <> EmptyString -> externalModelName m <> EmptyString.
Proof. unfold externalModelName. case_bool_decide; cbn; auto. Qed.

Definition ekey (e : RouteEntry) : string * string * (string * string) :=
  (re_protocol e, re_operation e, (re_model e, rt_UpstreamModelID (re_target e))).

Lemma collect_nodup {A} (f : A -> result CompileError (list RouteEntry)) (tag : string * string * (string * string) -> A) l es :
  NoDup l -> collect f l = Ok es ->
  (forall x es', x ∈ l -> f x = Ok es' -> NoDup (ekey <$> es') /\ forall e, e ∈ es' -> tag (ekey e) = x) ->
  NoDup (ekey <$> es).
Proof.
  revert es. induction l as [|x l IH]; intros es Hnd Hc Hf; cbn in Hc; [injection Hc as <-; constructor|].
  destruct (f x) as [es1|] eqn:E1; [|done]. destruct (collect f l) as [es2|] eqn:E2; [|done]. injection Hc as <-.
  apply NoDup_cons in Hnd as [Hx Hnd]. rewrite fmap_app. apply NoDup_app. split; [apply (Hf x); [by constructor|done]|]. split.
  - intros k (e & -> & He)%list_elem_of_fmap (e' & Ek & He')%list_elem_of_fmap.
    apply (collect_spec _ _ _ E2) in He' as (y & es' & Hy & Hfy & He').
    pose proof (proj2 (Hf x es1 ltac:(by constructor) E1) e He) as T1.
    pose proof (proj2 (Hf y es' ltac:(by constructor) Hfy) e' He') as T2. rewrite <- Ek in T2. congruence.
  - apply IH; [done|done|]. intros y es' Hy. apply Hf. by constructor.
Qed.

Lemma modelEntries_nodup g p o models es :
  models_ok models -> modelEntries g p o models = Ok es -> NoDup (ekey <$> es).
Proof.
  intros [Hn _]. revert es. induction models as [|m models IH]; intros es; cbn; [intros [= <-]; constructor|].
  rewrite fmap_cons, NoDup_cons in Hn. destruct Hn as [Hm Hn].
  destruct (_ && _); [by apply IH|]. destruct (ModeForModel _ _ _ _) as [mode|]; [|done].
  destruct (modelEntries g p o models) as [es'|] eqn:E; [|done]. intros [= <-]. rewrite fmap_cons. constructor; [|by apply IH].
  intros (e & Ek & He)%list_elem_of_fmap. apply (modelEntries_spec _ _ _ _ _ E) in He as (m' & mode' & Hm' & _ & _ & ->).
  apply Hm, list_elem_of_fmap. exists m'. split; [|done]. unfold ekey, mapping in *. cbn in Ek. congruence.
Qed.

Lemma operationEntries_nodup g p o es :
  models_ok (gcf_Models g) -> operationEntries g p o = Ok es ->
  NoDup (ekey <$> es) /\ forall e, e ∈ es -> (ekey e).1 = (p, o).
Proof.
  intros Hok Hes. split.
  - revert Hes. unfold operationEntries. destruct (hiddenOperation o); [intros [= <-]; constructor|].
    destruct (Mode _ p o) as [mode|]; [|done]. destruct (lifecycleOperation o); [intros [= <-]; apply NoDup_singleton|].
    destruct (resourceOrPassthrough o).
    + destruct (modelEntries g p o _) as [es'|] eqn:E; [|done]. intros [= <-]. rewrite fmap_cons.
      constructor; [|by eapply modelEntries_nodup]. intros (e & Ek & He)%list_elem_of_fmap.
      apply (modelEntries_spec _ _ _ _ _ E) in He as (m & mode' & Hm & _ & _ & ->).
      unfold ekey in Ek. cbn in Ek. injection Ek as _ Eu. by apply (mo_id _ Hok m Hm).
    + destruct (modelOperation o); [by apply modelEntries_nodup|done].
  - intros e He. apply (operationEntries_spec _ _ _ _ Hes) in He
      as (_ & [(_ & mode & _ & ->)|(_ & _ & m & mode & _ & _ & _ & ->)]); done.
Qed.

Lemma Operations_nodup t p : NoDup (Operations t p).
Proof. unfold Operations. rewrite merge_sort_Permutation. apply NoDup_fst_map_to_list. Qed.

Record group_ok (g : GroupConfig) : Prop := {
  go_id : gcf_ID g <> 0;
  go_weight : manualWeightValid (gcf_WeightManual g) = true;
  go_models : models_ok (gcf_Models g)
}.

Lemma executionEntries_nodup g es :
  group_ok g -> NoDup (gcf_ClientProtocols g) -> executionEntries g = Ok es -> NoDup (ekey <$> es).
Proof.
  intros [_ _ Hm] Hp. unfold executionEntries.
  set (tr := if gcf_TransparentProxy g then _ else []). set (live := if strEq _ _ then _ else Ok []).
  assert (Htr : forall e, e ∈ tr -> (ekey e).1 = (TransparentHTTP, OperationTransparentRequest)).
  { subst tr. destruct (gcf_TransparentProxy g); [by intros e ->%list_elem_of_singleton|by intros e ?%not_elem_of_nil]. }
  assert (Htn : NoDup (ekey <$> tr)) by (subst tr; destruct (gcf_TransparentProxy g); [apply NoDup_singleton|constructor]).
  assert (Hlive : forall l, live = Ok l -> NoDup (ekey <$> l) /\ forall e, e ∈ l -> (ekey e).1 = (CodexLive, OperationLiveCall)).
  { subst live. intros l. destruct (strEq _ _); [|intros [= <-]; split; [constructor|by intros e ?%not_elem_of_nil]].
    destruct (Mode _ _ _); [|done]. intros [= <-]. split; [apply NoDup_singleton|by intros e ->%list_elem_of_singleton]. }
  assert (Hdis : forall l1 l2 k1, NoDup (ekey <$> l1) -> NoDup (ekey <$> l2) -> (forall e, e ∈ l1 -> (ekey e).1 = k1) ->
            (forall e, e ∈ l2 -> (ekey e).1 <> k1) -> NoDup (ekey <$> l1 ++ l2)).
  { intros l1 l2 k1 H1 H2 Hk1 Hk2. rewrite fmap_app. apply NoDup_app. split; [done|]. split; [|done].
    intros k (e & -> & He)%list_elem_of_fmap (e' & Ek & He')%list_elem_of_fmap.
    apply (Hk2 e' He'). by rewrite <- Ek, (Hk1 e He). }
  destruct live as [l|]; [|done]. destruct (Hlive l eq_refl) as [Hln Hlk].
  case_bool_decide as Em; [intros [= <-]; eapply Hdis; [done|done|done|]; by intros e ->%Hlk|].
  destruct (collect _ (gcf_ClientProtocols g)) as [rest|] eqn:Er; [|done]. intros [= <-].
  assert (Hhid : forall e, e ∈ rest -> hiddenOperation (re_operation e) = false).
  { intros e (p & es' & _ & He' & He)%(collect_spec _ _ _ Er). apply (collect_spec _ _ _ He') in He as (o & es'' & _ & Ho & He).
    apply (operationEntries_spec _ _ _ _ Ho) in He as (Hh & [(_ & mode & _ & ->)|(_ & _ & m & mode & _ & _ & _ & ->)]); done. }
  assert (Hrest : NoDup (ekey <$> rest)).
  { eapply (collect_nodup _ (fun k => k.1.1)); [exact Hp|exact Er|]. intros p es' _ Hes'. split.
    - eapply (collect_nodup _ (fun k => k.1.2)); [apply Operations_nodup|exact Hes'|].
      intros o es'' _ Ho. destruct (operationEntries_nodup g p o es'' Hm Ho) as [Hn Hk]. split; [done|].
      intros e He. by rewrite (Hk e He).
    - intros e (o & es'' & _ & Ho & He)%(collect_spec _ _ _ Hes').
      by rewrite (proj2 (operationEntries_nodup g p o es'' Hm Ho) e He). }
  eapply Hdis; [done| |done|].
  - eapply Hdis; [done|done|done|]. intros e He Ek. specialize (Hhid e He).
    assert (re_operation e = OperationLiveCall) as Eo by (apply (f_equal snd) in Ek; exact Ek). by rewrite Eo in Hhid.
  - intros e [He|He]%elem_of_app; [by rewrite (Hlk e He)|]. intros Ek. specialize (Hhid e He).
    assert (re_operation e = OperationTransparentRequest) as Eo by (apply (f_equal snd) in Ek; exact Ek). by rewrite Eo in Hhid.
Qed.

(** * All groups *)

Lemma validateGroups_ok gs seen :
  validateGroups gs seen = Ok tt ->
  Forall group_ok gs /\ NoDup (gcf_ID <$> gs) /\ forall g, g ∈ gs -> gcf_ID g ∉ seen.
Proof.
  revert seen. induction gs as [|g gs IH]; intros seen; cbn.
  { intros _. split; [constructor|]. split; [constructor|by intros ? ?%not_elem_of_nil]. }
  destruct (Z.eqb_spec (gcf_ID g) 0) as [|Hz]; [done|]. case_bool_decide as Hs; [done|].
  destruct (manualWeightValid _) eqn:Ew; [|done]. cbn [negb].
  destruct (validateModels _ _ _) as [[]|] eqn:Em; [|done]. apply validateModels_ok in Em as [Hm _].
  intros (Hok & Hnd & Hd)%IH. split; [constructor; [by split|done]|]. split.
  - constructor; [|done]. intros (g' & Eg & Hg)%list_elem_of_fmap.
    apply (Hd g' Hg), elem_of_union_l, elem_of_singleton. done.
  - intros g' [-> |Hg]%elem_of_cons; [done|]. intros Hin. by apply (Hd g' Hg), elem_of_union_r.
Qed.

Definition entriesOf (g : GroupConfig) : list RouteEntry := match executionEntries g with Ok es => es | Err _ => [] end.

Definition wildcardGroup (g : GroupConfig) : Prop :=
  gcf_Enabled g = true /\ gcf_TransparentModels g = true /\ connectionNormalize (gcf_ConnectionType g) = APIKeyConnection.

#[export] Instance wildcardGroup_dec g : Decision (wildcardGroup g).
Proof. unfold wildcardGroup. apply _. Defined.

Definition insertAll {A} (f : GroupConfig -> A) (gs : list GroupConfig) (m : gmap Z A) : gmap Z A :=
  fold_left (fun m g => <[gcf_ID g := f g]> m) gs m.

Definition enabledGroups (gs : list GroupConfig) : list GroupConfig := filter (fun g => gcf_Enabled g = true) gs.

Record compiled_building (b : Building) (gs : list GroupConfig) (b' : Building) : Prop := {
  cb_entries : forall g, g ∈ gs -> executionEntries g = Ok (entriesOf g);
  cb_catalogRoutes : forall p o m, routesAt (bd_catalogRoutes b') p o m
    = routesAt (bd_catalogRoutes b) p o m ++ (gs ≫= (fun g => entriesAt p o m (entriesOf g)));
  cb_candidates : forall p o m, routesAt (bd_candidates b') p o m
    = routesAt (bd_candidates b) p o m ++ (enabledGroups gs ≫= (fun g => entriesAt p o m (entriesOf g)));
  cb_wildcards : forall p o, wildcardsAt (bd_wildcards b') p o
    = wildcardsAt (bd_wildcards b) p o ++ (filter wildcardGroup gs ≫= (fun g => entriesFor p o (wildcardEntries g)));
  cb_catalog : bd_catalog b' = insertAll catalogView gs (bd_catalog b);
  cb_groups : bd_groups b' = insertAll groupView (enabledGroups gs) (bd_groups b)
}.

Lemma compileGroup_spec b g b' : compileGroup b g = Ok b' -> compiled_building b [g] b'.
Proof.
  unfold compileGroup. destruct (executionEntries g) as [es|] eqn:E; [|done].
  assert (Ho : entriesOf g = es) by (unfold entriesOf; by rewrite E).
  destruct (gcf_Enabled g) eqn:En; cbn [negb].
  - assert (Hen : enabledGroups [g] = [g]) by (unfold enabledGroups; by rewrite filter_cons, decide_True).
    assert (Hw : filter wildcardGroup [g] = if gcf_TransparentModels g && strEq (connectionNormalize (gcf_ConnectionType g)) APIKeyConnection then [g] else []).
    { rewrite filter_cons, filter_nil. destruct (gcf_TransparentModels g && _) eqn:Es.
      - apply andb_true_iff in Es as [Et Es%strEq_true]. by rewrite decide_True by done.
      - rewrite decide_False; [done|]. intros (_ & Et & Ec). by rewrite Et, Ec in Es. }
    intros [= <-]. split; cbn [bd_candidates bd_catalogRoutes bd_wildcards bd_catalog bd_groups].
    + intros g' ->%list_elem_of_singleton. by rewrite Ho.
    + intros p o m. rewrite routesAt_fold. cbn. by rewrite app_nil_r, Ho.
    + intros p o m. rewrite routesAt_fold, Hen. cbn. by rewrite app_nil_r, Ho.
    + intros p o. rewrite Hw. destruct (_ && _); cbn; [|by rewrite app_nil_r]. by rewrite wildcardsAt_fold, app_nil_r.
    + done.
    + by rewrite Hen.
  - assert (Hen : enabledGroups [g] = []) by (unfold enabledGroups; rewrite filter_cons, decide_False; [done|congruence]).
    intros [= <-]. split; cbn [bd_candidates bd_catalogRoutes bd_wildcards bd_catalog bd_groups].
    + intros g' ->%list_elem_of_singleton. by rewrite Ho.
    + intros p o m. rewrite routesAt_fold. cbn. by rewrite app_nil_r, Ho.
    + intros p o m. rewrite Hen. cbn. by rewrite app_nil_r.
    + intros p o. rewrite filter_cons, decide_False by (intros [? _]; congruence). cbn. by rewrite app_nil_r.
    + done.
    + by rewrite Hen.
Qed.

Lemma compiled_building_app b b1 b2 gs1 gs2 :
  compiled_building b gs1 b1 -> compiled_building b1 gs2 b2 -> compiled_building b (gs1 ++ gs2) b2.
Proof.
  intros H1 H2. split.
  - intros g [Hg|Hg]%elem_of_app; [by apply H1|by apply H2].
  - intros p o m. by rewrite (cb_catalogRoutes _ _ _ H2), (cb_catalogRoutes _ _ _ H1), bind_app, app_assoc.
  - intros p o m. unfold enabledGroups. rewrite filter_app, bind_app, app_assoc.
    by rewrite (cb_candidates _ _ _ H2), (cb_candidates _ _ _ H1).
  - intros p o. by rewrite (cb_wildcards _ _ _ H2), (cb_wildcards _ _ _ H1), filter_app, bind_app, app_assoc.
  - rewrite (cb_catalog _ _ _ H2), (cb_catalog _ _ _ H1). unfold insertAll. by rewrite fold_left_app.
  - unfold enabledGroups. rewrite filter_app. rewrite (cb_groups _ _ _ H2), (cb_groups _ _ _ H1). unfold insertAll.
    by rewrite fold_left_app.
Qed.

Lemma compileGroups_spec b gs b' : compileGroups b gs = Ok b' -> compiled_building b gs b'.
Proof.
  revert b. induction gs as [|g gs IH]; intros b; cbn.
  { intros [= <-]. split; try done; [by intros ? ?%not_elem_of_nil|..]; intros; cbn; by rewrite app_nil_r. }
  destruct (compileGroup b g) as [b1|] eqn:E; [|done]. intros H.
  apply (compiled_building_app b b1 b' [g] gs); [by apply compileGroup_spec|by apply IH].
Qed.

Lemma insertAll_lookup {A} (f : GroupConfig -> A) gs m id :
  NoDup (gcf_ID <$> gs) ->
  forall v, insertAll f gs m !! id = Some v <->
    (exists g, g ∈ gs /\ gcf_ID g = id /\ v = f g) \/ ((forall g, g ∈ gs -> gcf_ID g <> id) /\ m !! id = Some v).
Proof.
  revert m. induction gs as [|g gs IH]; intros m Hnd v.
  { cbn. split; [intros H; right; split; [by intros ? ?%not_elem_of_nil|done]|]. by intros [(g & ?%not_elem_of_nil & _)|[_ ?]]. }
  rewrite fmap_cons, NoDup_cons in Hnd. destruct Hnd as [Hg Hnd].
  change (insertAll f (g :: gs) m) with (insertAll f gs (<[gcf_ID g := f g]> m)).
  rewrite IH by done. rewrite lookup_insert. split.
  - intros [(g' & Hg' & H)|[Hn Hl]]; [left; exists g'; split; [by constructor|done]|].
    case_decide as Ei; [left; exists g; split; [by constructor|]; by simplify_eq|].
    right. split; [|done]. intros g' [-> |?]%elem_of_cons; auto.
  - intros [(g' & [-> |Hg']%elem_of_cons & Eid & ->)|[Hn Hl]]; [|left; eauto|].
    + right. split; [|by rewrite decide_True]. intros g'' Hg'' Eid'. apply Hg, list_elem_of_fmap. exists g''. by rewrite Eid, Eid'.
    + right. split; [intros g' Hg'; apply Hn; by constructor|]. rewrite decide_False; [done|]. apply Hn. constructor.
Qed.

(** * The compiled snapshot *)

Definition targetKey (t : RouteTarget) : Z * string := (rt_GroupID t, rt_UpstreamModelID t).

Lemma entriesAt_elem p o m es t : t ∈ entriesAt p o m es <-> mkRouteEntry p o m t ∈ es.
Proof.
  unfold entriesAt. rewrite list_elem_of_fmap. split.
  - intros (e & -> & [(<- & <- & <-) He]%list_elem_of_filter). by destruct e.
  - intros He. exists (mkRouteEntry p o m t). split; [done|]. by apply list_elem_of_filter.
Qed.

Lemma declares_group g e : declares g e -> rt_GroupID (re_target e) = gcf_ID g.
Proof.
  intros [[_ ->]|[(_ & mode & _ & ->)|(_ & p & o & _ & _ & _ & [(_ & mode & _ & ->)|(_ & _ & m & mode & _ & _ & _ & ->)])]]; done.
Qed.

Lemma bind_nodup {A B C} (f : A -> list B) (k : B -> C) (tag : C -> Z) (ids : A -> Z) (l : list A) :
  NoDup (ids <$> l) -> (forall x, x ∈ l -> NoDup (k <$> f x) /\ forall y, y ∈ f x -> tag (k y) = ids x) ->
  NoDup (k <$> (l ≫= f)).
Proof.
  induction l as [|x l IH]; intros Hnd Hf; [constructor|]. rewrite fmap_cons, NoDup_cons in Hnd. destruct Hnd as [Hx Hnd].
  rewrite bind_cons, fmap_app. apply NoDup_app. split; [apply Hf; constructor|]. split.
  - intros c (y & -> & Hy)%list_elem_of_fmap (y' & Ek & (x' & Hy' & Hx')%list_elem_of_bind)%list_elem_of_fmap.
    apply Hx, list_elem_of_fmap. exists x'. split; [|done].
    rewrite <- (proj2 (Hf x' ltac:(by constructor)) y' Hy'), <- Ek. symmetry. by apply (Hf x ltac:(constructor)).
  - apply IH; [done|]. intros y Hy. apply Hf. by constructor.
Qed.

Lemma entriesAt_keys p o m es :
  NoDup (ekey <$> es) -> NoDup (targetKey <$> entriesAt p o m es).
Proof.
  intros Hn. unfold entriesAt. rewrite <- list_fmap_compose.
  induction es as [|e es IH]; [constructor|]. rewrite fmap_cons, NoDup_cons in Hn. destruct Hn as [He Hn].
  rewrite filter_cons. case_decide as Hd; [|by apply IH]. rewrite fmap_cons. constructor; [|by apply IH].
  intros (e' & Ek & [Hd' He']%list_elem_of_filter)%list_elem_of_fmap. apply He, list_elem_of_fmap. exists e'. split; [|done].
  destruct Hd as (E1 & E2 & E3), Hd' as (E1' & E2' & E3'). unfold ekey. cbn in Ek. injection Ek as _ Eu.
  congruence.
Qed.

(** What a compiled snapshot contains. *)
Record compiled_snapshot (gs : list GroupConfig) (sn : ConfigSnapshot) : Prop := {
  cs_candidates : forall p o m t, t ∈ routesAt (snap_ExecutionCandidates sn) p o m
    <-> exists g, g ∈ gs /\ gcf_Enabled g = true /\ declares g (mkRouteEntry p o m t);
  cs_catalogRoutes : forall p o m t, t ∈ routesAt (snap_ExecutionRouteCatalog sn) p o m
    <-> exists g, g ∈ gs /\ declares g (mkRouteEntry p o m t);
  cs_wildcards : forall p o t, t ∈ wildcardsAt (snap_WildcardCandidates sn) p o
    <-> exists g mode, g ∈ gs /\ wildcardGroup g /\ p ∈ gcf_ClientProtocols g /\ modelOperation o = true
         /\ Mode (gcf_Target g) p o = Some mode /\ t = mkRouteTarget (gcf_ID g) "" mode (gcf_Target g);
  cs_nodup : forall p o m, NoDup (targetKey <$> routesAt (snap_ExecutionCandidates sn) p o m)
    /\ NoDup (targetKey <$> routesAt (snap_ExecutionRouteCatalog sn) p o m);
  cs_wildcard_nodup : forall p o, NoDup (rt_GroupID <$> wildcardsAt (snap_WildcardCandidates sn) p o);
  cs_catalog : forall id c, snap_GroupCatalog sn !! id = Some c <-> exists g, g ∈ gs /\ gcf_ID g = id /\ c = catalogView g;
  cs_groups : forall id v, snap_Groups sn !! id = Some v ->
    exists g c r, g ∈ gs /\ gcf_Enabled g = true /\ gcf_ID g = id /\ v = withAccountLimits c r (groupView g);
  cs_enabled : forall g, g ∈ gs -> gcf_Enabled g = true -> is_Some (snap_Groups sn !! gcf_ID g);
  cs_sorted : forall p o m, Sorted routeOrder (routesAt (snap_ExecutionCandidates sn) p o m)
    /\ Sorted routeOrder (routesAt (snap_ExecutionRouteCatalog sn) p o m);
  cs_wildcard_order : forall p o, (rt_GroupID <$> wildcardsAt (snap_WildcardCandidates sn) p o) `sublist_of` (gcf_ID <$> gs)
}.

Lemma strEq_swap a b : strEq a b = strEq b a.
Proof. destruct (strEq b a) eqn:E; [apply strEq_true in E as ->; apply strEq_refl|apply strEq_false; apply strEq_false in E; congruence]. Qed.

(** Any two routes are ordered one way. *)
#[export] Instance routeOrder_total : Total routeOrder.
Proof.
  intros a b. unfold routeOrder, routeLess. rewrite (strEq_swap (rt_Mode b)). destruct (strEq (rt_Mode a) (rt_Mode b)) eqn:Em; cbn.
  - rewrite (Z.eqb_sym (rt_GroupID b)). destruct (Z.eqb_spec (rt_GroupID a) (rt_GroupID b)) as [_|Hg]; cbn.
    + rewrite !ltb_false_le. apply (total String.le).
    + rewrite !Z.ltb_ge. lia.
  - destruct (strEq (rt_Mode a) RouteNative) eqn:Ea; [|by right]. left. apply strEq_true in Ea. rewrite Ea in Em. apply strEq_false in Em.
    apply strEq_false. congruence.
Qed.

Lemma sublist_once {A} (x : A) l : NoDup l -> (forall y, y ∈ l -> y = x) -> l `sublist_of` [x].
Proof.
  destruct l as [|y l]; intros Hn H; [apply sublist_nil_l|]. rewrite (H y) by constructor. destruct l as [|z l]; [done|].
  apply NoDup_cons in Hn as [Hn _]. destruct Hn. rewrite (H y), (H z) by (repeat constructor). constructor.
Qed.

Lemma fmap_filter_sublist {A B} (P : A -> Prop) `{forall x, Decision (P x)} (f : A -> B) l : (f <$> filter P l) `sublist_of` (f <$> l).
Proof. induction l as [|x l IH]; [done|]. rewrite filter_cons. case_decide; cbn; by constructor. Qed.

Lemma sublist_bind {A B C} (f : A -> list B) (key : B -> C) (id : A -> C) (l : list A) :
  (forall x, x ∈ l -> (key <$> f x) `sublist_of` [id x]) -> (key <$> (l ≫= f)) `sublist_of` (id <$> l).
Proof.
  induction l as [|x l IH]; intros H; [done|]. cbn. rewrite fmap_app. apply (sublist_app _ [id x]); [apply H; by constructor|].
  apply IH. intros y Hy. apply H. by constructor.
Qed.

Lemma wildcardEntry_Some g p o e :
  wildcardEntry g p o = Some e <->
  exists mode, modelOperation o = true /\ Mode (gcf_Target g) p o = Some mode
    /\ e = mkRouteEntry p o "" (mkRouteTarget (gcf_ID g) "" mode (gcf_Target g)).
Proof.
  unfold wildcardEntry. destruct (modelOperation o); [|naive_solver]. destruct (Mode (gcf_Target g) p o); naive_solver.
Qed.

Lemma wildcardEntries_elem g p o t :
  t ∈ entriesFor p o (wildcardEntries g) <->
  exists mode, p ∈ gcf_ClientProtocols g /\ modelOperation o = true /\ Mode (gcf_Target g) p o = Some mode
    /\ t = mkRouteTarget (gcf_ID g) "" mode (gcf_Target g).
Proof.
  unfold entriesFor, wildcardEntries. rewrite list_elem_of_fmap. split.
  - intros (e & -> & [[Ep Eo] (q & (x & Hx & (mode & Hm & Emd & ->)%wildcardEntry_Some)%list_elem_of_omap & Hq)%list_elem_of_bind]%list_elem_of_filter).
    cbn in Ep, Eo. subst q x. eauto 10.
  - intros (mode & Hp & Hm & Emd & ->). eexists (mkRouteEntry p o "" _). split; [done|]. apply list_elem_of_filter. split; [done|].
    apply list_elem_of_bind. exists p. split; [|done]. apply list_elem_of_omap. exists o.
    split; [by apply Operations_elem|]. apply wildcardEntry_Some. eauto.
Qed.

(** A group offers a protocol and an operation at most once as a wildcard. *)
Lemma wildcardProtocol_once g p o q :
  NoDup (rt_GroupID <$> entriesFor p o (omap (wildcardEntry g q) (Operations (gcf_Target g) q)))
  /\ (q <> p -> entriesFor p o (omap (wildcardEntry g q) (Operations (gcf_Target g) q)) = []).
Proof.
  split.
  - pose proof (Operations_nodup (gcf_Target g) q) as Hn. induction (Operations (gcf_Target g) q) as [|x l IH]; [constructor|].
    apply NoDup_cons in Hn as [Hx Hn]. cbn [omap list_omap]. specialize (IH Hn).
    destruct (wildcardEntry g q x) as [e|] eqn:Ee; [|done]. apply wildcardEntry_Some in Ee as (mode & _ & _ & ->).
    unfold entriesFor. rewrite filter_cons. case_decide as Hd; [|done]. rewrite !fmap_cons. constructor; [|done].
    intros (t & _ & (e' & _ & [[_ Eo] (y & Hy & He')%list_elem_of_omap]%list_elem_of_filter)%list_elem_of_fmap)%list_elem_of_fmap.
    apply wildcardEntry_Some in He' as (mode' & _ & _ & ->). destruct Hd as [_ Hd]. cbn in Hd, Eo. congruence.
  - intros Hq. apply elem_of_nil_inv. intros t (e & _ & [[Ep _] (y & _ & He)%list_elem_of_omap]%list_elem_of_filter)%list_elem_of_fmap.
    by apply wildcardEntry_Some in He as (mode & _ & _ & ->).
Qed.

Lemma wildcardEntries_once g p o : NoDup (gcf_ClientProtocols g) -> NoDup (rt_GroupID <$> entriesFor p o (wildcardEntries g)).
Proof.
  unfold wildcardEntries. induction (gcf_ClientProtocols g) as [|q ps IH]; [constructor|]. intros [Hq Hps]%NoDup_cons.
  rewrite bind_cons, entriesFor_app, fmap_app. destruct (wildcardProtocol_once g p o q) as [Hn He].
  destruct (decide (q = p)) as [->|Hne]; [|rewrite He by done; by apply IH].
  assert (entriesFor p o (ps ≫= (fun p0 => omap (wildcardEntry g p0) (Operations (gcf_Target g) p0))) = []) as ->;
    [|by rewrite app_nil_r].
  clear - Hq. induction ps as [|q ps IH]; [done|]. rewrite bind_cons, entriesFor_app, IH by (intros ?; apply Hq; by constructor).
  destruct (wildcardProtocol_once g p o q) as [_ ->]; [done|]. intros ->. apply Hq. constructor.
Qed.

Lemma routes_elem gs p o m t :
  (forall g, g ∈ gs -> executionEntries g = Ok (entriesOf g)) ->
  t ∈ (gs ≫= (fun g => entriesAt p o m (entriesOf g))) <-> exists g, g ∈ gs /\ declares g (mkRouteEntry p o m t).
Proof.
  intros He. rewrite list_elem_of_bind. split.
  - intros (g & Ht%entriesAt_elem & Hg). exists g. split; [done|]. by apply (executionEntries_spec g _ (He g Hg)).
  - intros (g & Hg & Hd). exists g. split; [|done]. apply entriesAt_elem. by apply (executionEntries_spec g _ (He g Hg)).
Qed.

Lemma routes_nodup gs p o m :
  (forall g, g ∈ gs -> executionEntries g = Ok (entriesOf g)) -> Forall group_ok gs -> NoDup (gcf_ID <$> gs) ->
  (forall g, g ∈ gs -> NoDup (gcf_ClientProtocols g)) ->
  NoDup (targetKey <$> (gs ≫= (fun g => entriesAt p o m (entriesOf g)))).
Proof.
  intros He Hok Hid Hp. eapply (bind_nodup _ _ fst gcf_ID); [exact Hid|]. intros g Hg. split.
  - apply entriesAt_keys. eapply executionEntries_nodup; [|by apply Hp|by apply He]. by eapply Forall_forall in Hok.
  - intros t Ht%entriesAt_elem. apply (executionEntries_spec g _ (He g Hg)) in Ht. by apply declares_group in Ht.
Qed.

Lemma Compile_compiled strategy gs order sn :
  (forall g, g ∈ gs -> NoDup (gcf_ClientProtocols g)) -> Compile strategy gs order = Ok sn ->
  Forall group_ok gs /\ compiled_snapshot gs sn.
Proof.
  intros Hp. unfold Compile. destruct (validateGroups gs ∅) as [[]|] eqn:Ev; [|done].
  apply validateGroups_ok in Ev as (Hok & Hid & _). destruct (compileGroups _ gs) as [b|] eqn:Eb; [|done].
  apply compileGroups_spec in Eb as [He Hcr Hc Hw Hcat Hg]. intros [= <-]. split; [done|].
  assert (Hsub : forall g, g ∈ enabledGroups gs <-> g ∈ gs /\ gcf_Enabled g = true).
  { intros g. unfold enabledGroups. rewrite list_elem_of_filter. tauto. }
  assert (Hide : NoDup (gcf_ID <$> enabledGroups gs)) by (by apply NoDup_fmap_filter).
  assert (Hbase : forall p o m, routesAt ∅ p o m = []) by (intros; unfold routesAt, mget; by rewrite !lookup_empty).
  assert (Hwbase : forall p o, wildcardsAt ∅ p o = []) by (intros; unfold wildcardsAt, mget; by rewrite !lookup_empty).
  split; cbn [snap_ExecutionCandidates snap_ExecutionRouteCatalog snap_WildcardCandidates snap_GroupCatalog snap_Groups].
  - intros p o m t. rewrite routesAt_sort, merge_sort_Permutation, Hc. cbn [bd_candidates]. rewrite Hbase. cbn [app].
    rewrite routes_elem by (intros g [? _]%Hsub; by apply He). setoid_rewrite Hsub. naive_solver.
  - intros p o m t. rewrite routesAt_sort, merge_sort_Permutation, Hcr. cbn [bd_catalogRoutes]. rewrite Hbase. by apply routes_elem.
  - intros p o t. rewrite Hw. cbn [bd_wildcards]. rewrite Hwbase. cbn [app].
    rewrite list_elem_of_bind. setoid_rewrite wildcardEntries_elem. setoid_rewrite list_elem_of_filter. naive_solver.
  - intros p o m. rewrite !routesAt_sort, !merge_sort_Permutation, Hc, Hcr. cbn [bd_candidates bd_catalogRoutes].
    rewrite !Hbase. cbn [app]. split; [|by apply routes_nodup].
    apply routes_nodup; [intros g [? _]%Hsub; by apply He| |done|intros g [? _]%Hsub; by apply Hp].
    apply Forall_forall. intros g [Hin _]%Hsub. by eapply Forall_forall in Hok.
  - intros p o. rewrite Hw. cbn [bd_wildcards]. rewrite Hwbase. cbn [app].
    eapply (bind_nodup _ rt_GroupID (fun z => z) gcf_ID); [by apply NoDup_fmap_filter|].
    intros g [_ Hin]%list_elem_of_filter. split; [by apply wildcardEntries_once, Hp|].
    by intros t (mode & _ & _ & _ & ->)%wildcardEntries_elem.
  - intros id c. rewrite Hcat, insertAll_lookup by done. cbn [bd_catalog]. split; [|by left].
    intros [H|[_ H]]; [done|by rewrite lookup_empty in H].
  - intros id v. unfold resolveSharedAccountLimits. rewrite lookup_fmap, Hg.
    destruct (insertAll _ _ _ !! id) as [v0|] eqn:El; [|done]. cbn. intros [= <-].
    apply insertAll_lookup in El as [(g & [Hin Hen]%Hsub & Eid & ->)|[_ H]]; [|cbn [bd_groups] in H; by rewrite lookup_empty in H|done].
    destruct (strEq _ _); [exists g, (gcf_AccountConcurrencyLimit g), (gcf_AccountRPMLimit g)|eexists g, _, _]; done.
  - intros g Hin Hen. unfold resolveSharedAccountLimits. rewrite lookup_fmap, fmap_is_Some, Hg.
    exists (groupView g). apply insertAll_lookup; [done|]. left. exists g. split; [by apply Hsub|done].
  - intros p o m. rewrite !routesAt_sort. split; apply Sorted_merge_sort, _.
  - intros p o. rewrite Hw. cbn [bd_wildcards]. rewrite Hwbase. cbn [app].
    etransitivity; [|apply (fmap_filter_sublist wildcardGroup)]. apply sublist_bind.
    intros g [_ Hin]%list_elem_of_filter. apply sublist_once; [by apply wildcardEntries_once, Hp|].
    intros id (t & -> & (mode & _ & _ & _ & ->)%wildcardEntries_elem)%list_elem_of_fmap. done.
Qed.

(** ** The order of the routes *)

(** Native routes first, then by group, then by upstream model. *)
Definition routeBefore (a b : RouteTarget) : Prop :=
  rt_Mode a = RouteNative /\ rt_Mode b = RouteConverted
  \/ rt_Mode a = rt_Mode b
     /\ (rt_GroupID a < rt_GroupID b
         \/ rt_GroupID a = rt_GroupID b /\ String.le (rt_UpstreamModelID a) (rt_UpstreamModelID b) /\ rt_UpstreamModelID a <> rt_UpstreamModelID b).

#[export] Instance routeBefore_trans : Transitive routeBefore.
Proof.
  intros a b c [[Ha Hb]|[Em Hab]] [[Hb' Hc]|[Em' Hbc]]; try (left; split; congruence). right. split; [congruence|].
  destruct Hab as [H1|(E1 & L1 & N1)], Hbc as [H2|(E2 & L2 & N2)]; [left; lia|left; lia|left; lia|].
  right. split_and!; [congruence|by etransitivity|]. intros E. rewrite E in L1. apply N2. by apply (anti_symm String.le).
Qed.

Lemma routeLess_before a b : routeModeValid (rt_Mode a) = true -> routeModeValid (rt_Mode b) = true ->
  targetKey a <> targetKey b -> routeOrder a b -> routeBefore a b.
Proof.
  unfold routeModeValid, routeOrder, routeLess, targetKey, routeBefore. intros Ha Hb Hk. rewrite (strEq_swap (rt_Mode b)).
  destruct (strEq (rt_Mode a) (rt_Mode b)) eqn:Em; cbn [negb].
  - apply strEq_true in Em. rewrite (Z.eqb_sym (rt_GroupID b)). destruct (Z.eqb_spec (rt_GroupID a) (rt_GroupID b)) as [Eg|Hg]; cbn [negb].
    + rewrite ltb_false_le. intros Hle. right. split; [done|]. right. split_and!; [done|done|]. congruence.
    + rewrite Z.ltb_ge. intros ?. right. split; [done|]. left. lia.
  - apply strEq_false in Em. intros Hn%strEq_false. left.
    apply orb_true_iff in Ha as [Ha%strEq_true|Ha%strEq_true], Hb as [Hb%strEq_true|Hb%strEq_true]; (congruence || done).
Qed.

Lemma sorted_before l : Forall (fun t => routeModeValid (rt_Mode t) = true) l -> NoDup (targetKey <$> l) -> Sorted routeOrder l -> StronglySorted routeBefore l.
Proof.
  intros Hv Hn Hs. apply Sorted_StronglySorted; [intros x y z; apply routeBefore_trans|].
  induction Hs as [|a l Hs IH Hd]; [constructor|]. apply Forall_cons in Hv as [Ha Hv]. rewrite fmap_cons in Hn. apply NoDup_cons in Hn as [Hna Hn].
  constructor; [by apply IH|]. destruct Hd as [|b l' Hab]; constructor. apply Forall_cons in Hv as [Hb _]. apply routeLess_before; [done|done| |done].
  intros E. apply Hna. rewrite E. by constructor.
Qed.

(** Every declared mode is one of the two. *)
Definition modes_valid (g : GroupConfig) : Prop := forall p o mode, Mode (gcf_Target g) p o = Some mode -> routeModeValid mode = true.

Lemma declares_valid g p o m t : modes_valid g -> declares g (mkRouteEntry p o m t) -> routeModeValid (rt_Mode t) = true.
Proof.
  intros Hv [[_ E]|[(_ & mode & Em & E)|(_ & p' & o' & _ & _ & _ & [(_ & mode & Em & E)|(_ & _ & mo & mode & _ & _ & Em & E)])]].
  - by injection E as _ _ _ ->.
  - injection E as _ _ _ ->. by eapply Hv.
  - injection E as _ _ _ ->. by eapply Hv.
  - injection E as _ _ _ ->. cbn. unfold ModeForModel in Em. destruct (Mode _ p' o') as [md|] eqn:Emd; [|done].
    destruct (tg_resolvers _ !! _); [|injection Em as <-; by eapply Hv]. destruct (routeModeValid _) eqn:Er; [|done]. by injection Em as <-.
Qed.

(** C6: Compilation publishes exactly the declared routes, once and in order, where each
    channel lists its client protocols once.  In a compiled snapshot the candidate index holds, for each protocol, operation and model, the routes that the
    enabled groups declare and nothing else, the route catalog those of all groups, each group and
    upstream model at most once and, where the channels declare valid modes, native routes before
    converted ones and then by group and by upstream model; the wildcard index holds one route per
    transparent API-key group and declared model operation, in the order of the groups; and every
    group is in the catalog under its own identifier. *)
Theorem compiled_routes_exact strategy gs order sn :
  (forall g, g ∈ gs -> NoDup (gcf_ClientProtocols g)) -> Compile strategy gs order = Ok sn ->
  (forall p o m t, t ∈ routesAt (snap_ExecutionCandidates sn) p o m
     <-> exists g, g ∈ gs /\ gcf_Enabled g = true /\ declares g (mkRouteEntry p o m t))
  /\ (forall p o m t, t ∈ routesAt (snap_ExecutionRouteCatalog sn) p o m
     <-> exists g, g ∈ gs /\ declares g (mkRouteEntry p o m t))
  /\ (forall p o m, NoDup (targetKey <$> routesAt (snap_ExecutionCandidates sn) p o m)
        /\ NoDup (targetKey <$> routesAt (snap_ExecutionRouteCatalog sn) p o m)
        /\ NoDup (rt_GroupID <$> wildcardsAt (snap_WildcardCandidates sn) p o))
  /\ ((forall g, g ∈ gs -> modes_valid g) -> forall p o m,
        StronglySorted routeBefore (routesAt (snap_ExecutionCandidates sn) p o m)
        /\ StronglySorted routeBefore (routesAt (snap_ExecutionRouteCatalog sn) p o m))
  /\ (forall p o t, t ∈ wildcardsAt (snap_WildcardCandidates sn) p o
     <-> exists g mode, g ∈ gs /\ wildcardGroup g /\ p ∈ gcf_ClientProtocols g /\ modelOperation o = true
          /\ Mode (gcf_Target g) p o = Some mode /\ t = mkRouteTarget (gcf_ID g) "" mode (gcf_Target g))
  /\ (forall p o, (rt_GroupID <$> wildcardsAt (snap_WildcardCandidates sn) p o) `sublist_of` (gcf_ID <$> gs))
  /\ (forall id c, snap_GroupCatalog sn !! id = Some c <-> exists g, g ∈ gs /\ gcf_ID g = id /\ c = catalogView g).
Proof.
  intros Hp Hc. destruct (Compile_compiled _ _ _ _ Hp Hc) as [_ [H1 H2 H3 H4 H5 H6 _ _ H7 H8]].
  split; [done|]. split; [done|]. split; [intros p o m; destruct (H4 p o m); auto|]. split; [|done].
  intros Hv p o m. destruct (H4 p o m), (H7 p o m). split; (apply sorted_before; [|done|done]); apply Forall_forall; intros t Ht.
  - apply H1 in Ht as (g & Hg & _ & Hd). eapply declares_valid; [by apply Hv|done].
  - apply H2 in Ht as (g & Hg & Hd). eapply declares_valid; [by apply Hv|done].
Qed.

(** * Shared account limits *)

(** [x] is the smallest positive limit among the groups of the pool, zero when there is none. *)
Definition tightest (limit : GroupView -> Z) (pool : string) (views : list GroupView) (x : Z) : Prop :=
  (x = 0 /\ forall v, v ∈ views -> gv_AccountPool v = pool -> limit v <= 0)
  \/ (0 < x /\ (exists v, v ∈ views /\ gv_AccountPool v = pool /\ limit v = x)
      /\ forall v, v ∈ views -> gv_AccountPool v = pool -> 0 < limit v -> x <= limit v).

Lemma tightest_snoc limit pool views v x :
  tightest limit pool views x ->
  tightest limit pool (views ++ [v]) (if decide (gv_AccountPool v = pool) then tighter x (limit v) else x).
Proof.
  assert (Hin : forall u, u ∈ views ++ [v] <-> u ∈ views \/ u = v)
    by (intros u; by rewrite elem_of_app, list_elem_of_singleton).
  unfold tightest, tighter. intros [[-> Hz]|(Hx & (u & Hu & Ep & Eu) & Hle)]; case_decide as Ev.
  - destruct (Z.ltb_spec 0 (limit v)); cbn.
    + right. split; [done|]. split; [exists v; split; [apply Hin; tauto|done]|].
      intros u [Hu| ->]%Hin Hp Hl; [specialize (Hz u Hu Hp)|]; lia.
    + left. split; [done|]. intros u [Hu| ->]%Hin Hp; [by apply Hz|done].
  - left. split; [done|]. intros u [Hu| ->]%Hin Hp; [by apply Hz|done].
  - right. destruct (Z.ltb_spec 0 (limit v)), (Z.eqb_spec x 0), (Z.ltb_spec (limit v) x); cbn; try lia;
      (split; [lia|]); (split; [|intros w [Hw| ->]%Hin Hp Hl; [specialize (Hle w Hw Hp Hl)|]; lia]).
    + exists v. split; [apply Hin; tauto|done].
    + exists u. split; [apply Hin; tauto|done].
    + exists u. split; [apply Hin; tauto|done].
  - right. split; [done|]. split; [exists u; split; [apply Hin; tauto|done]|].
    intros w [Hw| ->]%Hin Hp Hl; [by apply Hle|done].
Qed.

Lemma pool_limits views pool :
  pool <> EmptyString ->
  let value := mget (0, 0) (fold_left poolStep views ∅) pool in
  tightest gv_AccountConcurrencyLimit pool views value.1 /\ tightest gv_AccountRPMLimit pool views value.2.
Proof.
  intros Hp. cbv zeta. induction views as [|v views IH] using rev_ind.
  { cbn. unfold mget. rewrite lookup_empty. split; left; (split; [done|by intros ? ?%not_elem_of_nil]). }
  rewrite fold_left_app. cbn [fold_left]. unfold poolStep at 1 3. destruct IH as [IH1 IH2].
  apply (tightest_snoc _ _ _ v) in IH1, IH2. destruct (strEq (gv_AccountPool v) "") eqn:Es.
  - apply strEq_true in Es. rewrite decide_False in IH1, IH2 by congruence. done.
  - rewrite mget_insert. case_decide as Ep; [|done]. by subst pool.
Qed.

(** Groups that share an upstream account share its tightest limits, whatever the order.
    For every order in which the groups of the snapshot are visited, each group of a pool ends
    up with the smallest positive concurrency and request limit configured in the pool (none if
    no group sets one), groups without a pool keep their own, and nothing else changes. *)
Theorem account_limits_shared groups order :
  order ≡ₚ (map_to_list groups).*2 ->
  forall id v, groups !! id = Some v ->
    exists c r, resolveSharedAccountLimits order groups !! id = Some (withAccountLimits c r v)
      /\ (gv_AccountPool v = EmptyString -> c = gv_AccountConcurrencyLimit v /\ r = gv_AccountRPMLimit v)
      /\ (gv_AccountPool v <> EmptyString ->
          tightest gv_AccountConcurrencyLimit (gv_AccountPool v) (map_to_list groups).*2 c
          /\ tightest gv_AccountRPMLimit (gv_AccountPool v) (map_to_list groups).*2 r).
Proof.
  intros Ho id v Hv. unfold resolveSharedAccountLimits. rewrite lookup_fmap, Hv. cbn [fmap option_fmap option_map].
  assert (Hperm : forall limit pool x, tightest limit pool order x -> tightest limit pool (map_to_list groups).*2 x).
  { intros limit pool x. unfold tightest. setoid_rewrite Ho. done. }
  destruct (strEq (gv_AccountPool v) "") eqn:Es.
  - apply strEq_true in Es. exists (gv_AccountConcurrencyLimit v), (gv_AccountRPMLimit v).
    split; [by destruct v|]. split; [done|]. intros Hn. by destruct Hn.
  - apply strEq_false in Es. destruct (pool_limits order (gv_AccountPool v) Es) as [H1 H2].
    eexists _, _. split; [done|]. split; [intros E; by destruct Es|]. intros _. split; by apply Hperm.
Qed.

(** * A concrete configuration: two groups offering the same model, and one shared account *)

Definition exResolvedTarget : ResolvedTarget :=
  mkResolved (mkWebsocket false false false false false) "openai"
    {[ OpenAICompletions := {[ OperationChatCompletion := RouteNative; OperationListModels := RouteNative ]} ]} ∅ ∅.

Definition exGroupConfig (id limit : Z) : GroupConfig :=
  mkGroupConfig id "group" true 20 "openai" "api_key" [mkModelConfig "m" "gpt"] None exResolvedTarget [OpenAICompletions]
    false true noRules 3 "direct" false "account" limit 0.

Definition exGroups : list GroupConfig := [exGroupConfig 7 5; exGroupConfig 8 3].
Definition anyOrder (m : gmap Z GroupView) : list GroupView := (map_to_list m).*2.
Definition exCompiled : ConfigSnapshot :=
  match Compile RouteStrategyNativeFirst exGroups anyOrder with Ok sn => sn | Err _ => mkSnapshot RouteStrategyNativeFirst 0 ∅ ∅ ∅ ∅ ∅ end.

Lemma exGroups_protocols g : g ∈ exGroups -> NoDup (gcf_ClientProtocols g).
Proof. unfold exGroups. rewrite !elem_of_cons, elem_of_nil. intros [-> |[-> |[]]]; apply NoDup_singleton. Qed.

Lemma exGroups_modes g : g ∈ exGroups -> modes_valid g.
Proof.
  unfold exGroups. rewrite !elem_of_cons, elem_of_nil. intros Hg p o mode. assert (gcf_Target g = exResolvedTarget) as -> by (by destruct Hg as [-> |[-> |[]]]).
  unfold Mode. cbn [tg_modes exResolvedTarget]. rewrite lookup_singleton. case_decide; [|done].
  rewrite lookup_insert. case_decide; [by intros [= <-]|]. rewrite lookup_singleton. case_decide; [by intros [= <-]|done].
Qed.

Lemma compiled_routes_exact_witness :
  targetKey <$> routesAt (snap_ExecutionCandidates exCompiled) OpenAICompletions OperationChatCompletion "gpt" = [(7, "m"%string); (8, "m"%string)]
  /\ (forall t, t ∈ routesAt (snap_ExecutionCandidates exCompiled) OpenAICompletions OperationChatCompletion "gpt" ->
       exists g, g ∈ exGroups /\ gcf_Enabled g = true
         /\ declares g (mkRouteEntry OpenAICompletions OperationChatCompletion "gpt" t))
  /\ StronglySorted routeBefore (routesAt (snap_ExecutionCandidates exCompiled) OpenAICompletions OperationChatCompletion "gpt").
Proof.
  split; [vm_compute; reflexivity|].
  destruct (compiled_routes_exact RouteStrategyNativeFirst exGroups anyOrder exCompiled exGroups_protocols) as (H & _ & _ & Hs & _); [vm_compute; reflexivity|].
  split; [intros t; apply H|]. apply Hs. exact exGroups_modes.
Defined.

Definition exShared : gmap Z GroupView := {[ 7 := groupView (exGroupConfig 7 5); 8 := groupView (exGroupConfig 8 3) ]}.

Lemma account_limits_shared_witness :
  gv_AccountConcurrencyLimit <$> resolveSharedAccountLimits (anyOrder exShared) exShared !! 7 = Some 3
  /\ exists c r, resolveSharedAccountLimits (anyOrder exShared) exShared !! 7 = Some (withAccountLimits c r (groupView (exGroupConfig 7 5))).
Proof.
  split; [vm_compute; reflexivity|].
  destruct (account_limits_shared exShared (anyOrder exShared) (reflexivity _) 7 (groupView (exGroupConfig 7 5))) as (c & r & E & _);
    [vm_compute; reflexivity|]. exists c, r. exact E.
Defined.
