(* ===== verification/RoutingProps.v ===== *)
(** Routing over a compiled configuration: every query resolves without error to a well-formed
    iterator, the captured credentials cover its groups, and the inspection report agrees with
    what the scheduler does. *)
From S2P Require Import Prelude GoStrings Execution Judge Config Routing Credential Ledger Fair FairShare Registry RegistryInvariant RegistryReach RegistryGroups RegistrySafety RegistryProps Iterator IteratorProps Inspect RouteIndex RouteProps.

Local Open Scope Z_scope.

(** * Channels *)

(** What the channel registry guarantees of the target it resolves a group to: declared modes are
    valid and its resolvers return valid modes. *)
Record target_sound (t : ResolvedTarget) : Prop := {
  ts_modes : forall p o mode, Mode t p o = Some mode -> routeModeValid mode = true;
  ts_resolvers : forall p o resolver m mode, tg_resolvers t !! (p, o) = Some resolver ->
    routeModeValid mode = true -> routeModeValid (resolver m mode) = true
}.

Record channel_ok (g : GroupConfig) : Prop := {
  ch_target : target_sound (gcf_Target g);
  ch_protocols : NoDup (gcf_ClientProtocols g)
}.

Lemma ModeForModel_total t p o m mode :
  target_sound t -> Mode t p o = Some mode -> exists mode', ModeForModel t p o m = Some mode'.
Proof.
  intros [Hm Hr] E. unfold ModeForModel. rewrite E. destruct (tg_resolvers t !! (p, o)) as [resolver|] eqn:Er; [|eauto].
  rewrite (Hr p o resolver m mode Er (Hm p o mode E)). cbn. eauto.
Qed.

(** * One route *)

Definition liveTarget (nq : normalizedQuery) (r : RouteTarget) : RouteTarget :=
  match nq_externalModel nq with
  | Some m => if clientSelectedLiveModel nq then withUpstream m r else r
  | None => r
  end.

Lemma evaluateRoute_Some sn nq w r d :
  evaluateRoute sn nq w r = Ok (Some d) ->
  snap_GroupCatalog sn !! rt_GroupID r = Some (td_group d)
  /\ (exists r', wildcardRoute nq w r = Some r' /\ td_target d = liveTarget nq r')
  /\ rt_GroupID (td_target d) = rt_GroupID r
  /\ (td_included d = true -> gc_Enabled (td_group d) = true).
Proof.
  unfold evaluateRoute. destruct (snap_GroupCatalog sn !! rt_GroupID r) as [group|]; [|done].
  destruct (wildcardRoute nq w r) as [r'|] eqn:Ew; [|done].
  assert (rt_GroupID r' = rt_GroupID r) as Eg.
  { revert Ew. unfold wildcardRoute. destruct w; [|by intros [= ->]]. destruct (ModeForModel _ _ _ _); [|done]. by intros [= <-]. }
  destruct (routeRequirementSatisfied nq r') as [[ok dg] reason]. intros [= <-]. cbn [td_group td_target td_included].
  split; [done|]. split; [by exists r'|]. split.
  - destruct (nq_externalModel nq), (clientSelectedLiveModel nq); done.
  - unfold exclusionReason. destruct ok; cbn; [|done]. by destruct (gc_Enabled group).
Qed.

Lemma evaluateRoutes_elem sn nq w routes ds :
  evaluateRoutes sn nq w routes = Ok ds -> forall d, d ∈ ds <-> exists r, r ∈ routes /\ evaluateRoute sn nq w r = Ok (Some d).
Proof.
  revert ds. induction routes as [|r routes IH]; intros ds; cbn.
  { intros [= <-] d. split; [by intros ?%not_elem_of_nil|intros (r & ?%not_elem_of_nil & _); done]. }
  destruct (evaluateRoute sn nq w r) as [o|] eqn:E; [|done]. destruct (evaluateRoutes sn nq w routes) as [ds'|]; [|done].
  intros [= <-] d. assert (Hd : d ∈ match o with Some d => d :: ds' | None => ds' end <-> o = Some d \/ d ∈ ds').
  { destruct o as [d0|]; [rewrite elem_of_cons|]; naive_solver. }
  rewrite Hd, (IH ds' eq_refl). split.
  - intros [-> |(r' & Hr & H)]; [exists r|exists r']; (split; [by constructor|done]).
  - intros (r' & [-> |Hr]%elem_of_cons & H); [left; congruence|right; eauto].
Qed.

Lemma evaluateRoutes_total sn nq w routes :
  (forall r, r ∈ routes -> exists o, evaluateRoute sn nq w r = Ok o) -> exists ds, evaluateRoutes sn nq w routes = Ok ds.
Proof.
  induction routes as [|r routes IH]; intros Hr; cbn; [eauto|]. destruct (Hr r ltac:(constructor)) as [o ->].
  destruct IH as [ds ->]; [intros r' Hr'; apply Hr; by constructor|]. eauto.
Qed.

Lemma evaluateRoutes_nodup {K} sn nq w routes ds (k : RouteTarget -> K) :
  evaluateRoutes sn nq w routes = Ok ds -> NoDup (k <$> routes) ->
  (forall r r' d d', r ∈ routes -> r' ∈ routes -> evaluateRoute sn nq w r = Ok (Some d) -> evaluateRoute sn nq w r' = Ok (Some d') ->
     targetKey (td_target d) = targetKey (td_target d') -> k r = k r') ->
  NoDup ((fun d => targetKey (td_target d)) <$> ds).
Proof.
  revert ds. induction routes as [|r routes IH]; intros ds He Hn Hk; cbn in He; [injection He as <-; constructor|].
  rewrite fmap_cons, NoDup_cons in Hn. destruct Hn as [Hr Hn].
  destruct (evaluateRoute sn nq w r) as [o|] eqn:E; [|done]. destruct (evaluateRoutes sn nq w routes) as [ds'|] eqn:E'; [|done].
  injection He as <-. assert (NoDup ((fun d => targetKey (td_target d)) <$> ds')) as Hds'.
  { apply IH; [done|done|]. intros r1 r2 d1 d2 H1 H2. apply Hk; by constructor. }
  destruct o as [d|]; [|done]. rewrite fmap_cons. constructor; [|done].
  intros (d' & Ek & Hd')%list_elem_of_fmap. apply (evaluateRoutes_elem _ _ _ _ _ E') in Hd' as (r' & Hr' & Er').
  apply Hr, list_elem_of_fmap. exists r'. split; [|done]. eapply Hk; [constructor|by constructor|exact E|exact Er'|exact Ek].
Qed.

(** * The routes of a query *)

Lemma routesAt_byModel (ix : ExecutionCandidateIndex) p o m :
  match mget ∅ ix p !! o with Some byModel => mget [] byModel m | None => [] end = routesAt ix p o m.
Proof.
  unfold routesAt. generalize (mget ∅ ix p). intros byOp. unfold mget.
  destruct (byOp !! o); cbn; [done|]. by rewrite lookup_empty.
Qed.

Lemma routesOf_inr sn ix nq allow w routes :
  routesOf sn ix nq allow = inr (w, routes) ->
  routes <> [] /\ ((w = false /\ routes = routesAt ix (nq_clientProtocol nq) (nq_operation nq) (modelKeyOf nq))
    \/ (w = true /\ allow = true /\ routesAt ix (nq_clientProtocol nq) (nq_operation nq) (modelKeyOf nq) = []
        /\ clientSelectedLiveModel nq = false
        /\ routes = wildcardsAt (snap_WildcardCandidates sn) (nq_clientProtocol nq) (nq_operation nq))).
Proof.
  unfold routesOf. fold (wildcardsAt (snap_WildcardCandidates sn) (nq_clientProtocol nq) (nq_operation nq)).
  rewrite routesAt_byModel. destruct (bool_decide _ && allow && _ && _ && _) eqn:Ew.
  - intros [= <- <-]. rewrite !andb_true_iff, !negb_true_iff, bool_decide_eq_true, bool_decide_eq_false in Ew.
    destruct Ew as [[[[E1 ->] _] E3] E4]. split; [done|]. right. done.
  - destruct (bool_decide (mget ∅ ix _ = ∅)); [done|]. destruct (isSome _); cbn [negb]; [|done].
    destruct (bool_decide (routesAt _ _ _ _ = [])) eqn:Er; [done|]. apply bool_decide_eq_false in Er.
    intros [= <- <-]. split; [done|]. by left.
Qed.

Lemma routesOf_exact sn ix nq allow :
  routesAt ix (nq_clientProtocol nq) (nq_operation nq) (modelKeyOf nq) <> [] ->
  routesOf sn ix nq allow = inr (false, routesAt ix (nq_clientProtocol nq) (nq_operation nq) (modelKeyOf nq)).
Proof.
  intros Hne. unfold routesOf. rewrite routesAt_byModel. rewrite (bool_decide_eq_false_2 (routesAt _ _ _ _ = [])) by done.
  cbn [andb]. rewrite <- routesAt_byModel in Hne. destruct (mget ∅ ix _ !! nq_operation nq) as [byModel|] eqn:E; [|done].
  rewrite bool_decide_eq_false_2; [done|]. intros E0. by rewrite E0, lookup_empty in E.
Qed.

(** * Queries over a compiled snapshot *)

Lemma NoDup_fmap_coarse {A B C} (f : A -> B) (g : A -> C) (l : list A) :
  NoDup (f <$> l) -> (forall x y, x ∈ l -> y ∈ l -> g x = g y -> f x = f y) -> NoDup (g <$> l).
Proof.
  induction l as [|x l IH]; intros Hn Hc; [constructor|]. rewrite fmap_cons, NoDup_cons in Hn. destruct Hn as [Hx Hn].
  rewrite fmap_cons. constructor; [|apply IH; [done|]; intros; apply Hc; [by constructor|by constructor|done]].
  intros (y & Ey & Hy)%list_elem_of_fmap. apply Hx, list_elem_of_fmap. exists y. split; [|done].
  apply Hc; [constructor|by constructor|done].
Qed.

Lemma omap_targets_nodup sn (ds : list targetDecision) :
  NoDup ((fun d => targetKey (td_target d)) <$> ds) ->
  NoDup ((fun t => (rt_GroupID (ct_target t), rt_UpstreamModelID (ct_target t))) <$> omap (candidateOf sn) ds).
Proof.
  induction ds as [|d ds IH]; [constructor|]. rewrite fmap_cons, NoDup_cons. intros [Hd Hn]. cbn [omap list_omap].
  destruct (candidateOf sn d) as [t|] eqn:E; [|by apply IH]. rewrite fmap_cons. constructor; [|by apply IH].
  assert (Hct : forall d t, candidateOf sn d = Some t -> ct_target t = td_target d).
  { intros d' t' Ht. unfold candidateOf in Ht. case_if_in Ht; [done|]. destruct (snap_Groups sn !! _); [|done]. by injection Ht as <-. }
  intros (t' & Ek & (d' & Hd' & Ht')%list_elem_of_omap)%list_elem_of_fmap. apply Hd, list_elem_of_fmap. exists d'.
  split; [|done]. by rewrite (Hct _ _ E), (Hct _ _ Ht') in Ek.
Qed.

Section compiled.
Context (gs : list GroupConfig) (sn : ConfigSnapshot).
Context (Hgroups : Forall group_ok gs) (Hchannels : Forall channel_ok gs) (Hcomp : compiled_snapshot gs sn).

Lemma group_catalog g : g ∈ gs -> snap_GroupCatalog sn !! gcf_ID g = Some (catalogView g).
Proof. intros Hg. apply (cs_catalog gs sn Hcomp). eauto. Qed.

(** A route of one of the indexes belongs to a configured group, and a wildcard route has a mode
    for every model. *)
Definition routed (w : bool) (nq : normalizedQuery) (r : RouteTarget) : Prop :=
  exists g, g ∈ gs /\ rt_GroupID r = gcf_ID g
    /\ (w = true -> exists mode, ModeForModel (rt_ResolvedTarget r) (nq_clientProtocol nq) (nq_operation nq) (modelKeyOf nq) = Some mode).

Lemma routed_evaluates w nq r : routed w nq r -> exists d, evaluateRoute sn nq w r = Ok (Some d) /\ exists g, g ∈ gs /\ td_group d = catalogView g /\ rt_GroupID (td_target d) = gcf_ID g.
Proof.
  intros (g & Hg & Eg & Hw).
  assert (exists d, evaluateRoute sn nq w r = Ok (Some d)) as [d Hd].
  { unfold evaluateRoute. rewrite Eg, (group_catalog g Hg). unfold wildcardRoute.
    destruct w; [destruct (Hw eq_refl) as [mode ->]|]; destruct (routeRequirementSatisfied _ _) as [[ok dg] reason]; eauto. }
  exists d. split; [done|]. exists g. split; [done|]. destruct (evaluateRoute_Some _ _ _ _ _ Hd) as (Hc & _ & Et & _).
  rewrite Eg, (group_catalog g Hg) in Hc. split; congruence.
Qed.

Lemma candidates_routed nq w routes r :
  routesOf sn (snap_ExecutionCandidates sn) nq true = inr (w, routes) -> r ∈ routes -> routed w nq r.
Proof.
  intros [_ [[-> ->]|(-> & _ & _ & _ & ->)]]%routesOf_inr Hr.
  - apply (cs_candidates gs sn Hcomp) in Hr as (g & Hg & _ & Hd%declares_group). exists g. done.
  - apply (cs_wildcards gs sn Hcomp) in Hr as (g & mode & Hg & _ & _ & _ & Em & ->). exists g. split; [done|]. split; [done|].
    intros _. cbn [rt_ResolvedTarget]. eapply ModeForModel_total; [|exact Em]. eapply Forall_forall in Hchannels as [? _]; done.
Qed.

Lemma catalog_routed nq w routes r :
  routesOf sn (snap_ExecutionRouteCatalog sn) nq false = inr (w, routes) -> r ∈ routes ->
  routed w nq r /\ w = false /\ routes = routesAt (snap_ExecutionRouteCatalog sn) (nq_clientProtocol nq) (nq_operation nq) (modelKeyOf nq).
Proof.
  intros [_ [[-> ->]|(_ & ? & _)]]%routesOf_inr Hr; [|done].
  pose proof Hr as (g & Hg & Hd%declares_group)%(cs_catalogRoutes gs sn Hcomp). split; [|done]. by exists g.
Qed.

(** Evaluation over routed targets succeeds, and lists their decisions. *)
Lemma evaluateTargets_total ix nq allow :
  (forall w routes r, routesOf sn ix nq allow = inr (w, routes) -> r ∈ routes -> routed w nq r) ->
  exists ds reason, evaluateTargets (Some sn) ix nq allow = Ok (ds, reason)
    /\ match queryRefused nq, routesOf sn ix nq allow with
       | None, inr (w, routes) => evaluateRoutes sn nq w routes = Ok ds
       | _, _ => ds = []
       end.
Proof.
  intros Hr. unfold evaluateTargets. destruct (queryRefused nq) as [reason|]; [eauto|].
  destruct (routesOf sn ix nq allow) as [reason|[w routes]] eqn:E; [eauto|].
  destruct (evaluateRoutes_total sn nq w routes) as [ds Eds].
  { intros r Hin. destruct (routed_evaluates w nq r (Hr w routes r eq_refl Hin)) as (d & Hd & _). eauto. }
  rewrite Eds. assert (ds <> []) as Hne.
  { apply routesOf_inr in E as [Hne _]. destruct routes as [|r routes']; [done|].
    destruct (routed_evaluates w nq r (Hr w _ r eq_refl ltac:(constructor))) as (d & Hd & _).
    intros ->. eapply not_elem_of_nil. apply (evaluateRoutes_elem _ _ _ _ _ Eds). exists r. split; [constructor|exact Hd]. }
  unfold staticReasonOf. destruct (existsb td_included ds); [eauto|]. destruct ds as [|d ds]; [done|]. case_if; eauto.
Qed.

Lemma no_model_upstream p o r : r ∈ routesAt (snap_ExecutionCandidates sn) p o NoModelRouteKey -> rt_UpstreamModelID r = EmptyString.
Proof.
  intros (g & Hg & _ & Hd)%(cs_candidates gs sn Hcomp). eapply Forall_forall in Hgroups as [_ _ Hm]; [|exact Hg].
  destruct Hd as [[_ E]|[(_ & mode & _ & E)|(_ & p' & o' & _ & _ & _ & [(_ & mode & _ & E)|(_ & _ & m & mode & Hin & _ & _ & E)])]];
    unfold transparentEntry, noModelEntry in E; injection E; intros; subst; try done.
  destruct (externalModelName_nonempty m); [by apply (mo_id _ Hm)|]. done.
Qed.

Lemma candidate_decisions nq :
  exists ds reason, evaluateTargets (Some sn) (snap_ExecutionCandidates sn) nq true = Ok (ds, reason)
    /\ NoDup ((fun d => targetKey (td_target d)) <$> ds)
    /\ (forall d, d ∈ ds -> exists w routes r, routesOf sn (snap_ExecutionCandidates sn) nq true = inr (w, routes)
          /\ r ∈ routes /\ evaluateRoute sn nq w r = Ok (Some d)).
Proof.
  destruct (evaluateTargets_total (snap_ExecutionCandidates sn) nq true) as (ds & reason & E & Hds).
  { intros w routes r. apply candidates_routed. }
  exists ds, reason. split; [done|]. destruct (queryRefused nq).
  { subst ds. split; [constructor|by intros ? ?%not_elem_of_nil]. }
  destruct (routesOf sn _ nq true) as [?|[w routes]] eqn:Er; [subst ds; split; [constructor|by intros ? ?%not_elem_of_nil]|].
  split; [|intros d (r & Hr & H)%(evaluateRoutes_elem _ _ _ _ _ Hds); eauto 10].
  assert (Hgid : forall r r' d d', evaluateRoute sn nq w r = Ok (Some d) -> evaluateRoute sn nq w r' = Ok (Some d') ->
            targetKey (td_target d) = targetKey (td_target d') -> rt_GroupID r = rt_GroupID r').
  { intros r r' d d' (_ & _ & <- & _)%evaluateRoute_Some (_ & _ & <- & _)%evaluateRoute_Some [= ? _]. done. }
  pose proof Er as [_ [[-> ->]|(-> & _ & _ & _ & ->)]]%routesOf_inr.
  - destruct (clientSelectedLiveModel nq) eqn:El.
    + assert (modelKeyOf nq = NoModelRouteKey) as Ek by (unfold modelKeyOf; rewrite El; by destruct (nq_externalModel nq)).
      eapply (evaluateRoutes_nodup _ _ _ _ _ rt_GroupID Hds); [|intros; by eapply Hgid].
      eapply NoDup_fmap_coarse; [apply (cs_nodup gs sn Hcomp)|]. intros x y Hx Hy Eg. rewrite Ek in Hx, Hy.
      unfold targetKey. by rewrite Eg, (no_model_upstream _ _ _ Hx), (no_model_upstream _ _ _ Hy).
    + eapply (evaluateRoutes_nodup _ _ _ _ _ targetKey Hds); [apply (cs_nodup gs sn Hcomp)|].
      assert (Hsame : forall r d, evaluateRoute sn nq false r = Ok (Some d) -> td_target d = r).
      { intros r d (_ & (r' & [= ->] & ->) & _)%evaluateRoute_Some. unfold liveTarget. rewrite El. by destruct (nq_externalModel nq). }
      intros r r' d d' _ _ <-%Hsame <-%Hsame. done.
  - eapply (evaluateRoutes_nodup _ _ _ _ _ rt_GroupID Hds); [apply (cs_wildcard_nodup gs sn Hcomp)|intros; by eapply Hgid].
Qed.

Lemma candidateOf_Some d t :
  candidateOf sn d = Some t -> td_included d = true /\ ct_target t = td_target d
    /\ ct_responsesStoreDowngraded t = td_responsesStoreDowngraded d /\ snap_Groups sn !! rt_GroupID (td_target d) = Some (ct_group t).
Proof. unfold candidateOf. destruct (td_included d); [|done]. destruct (snap_Groups sn !! _) eqn:Eg; [|done]. by intros [= <-]. Qed.

Lemma candidate_targets_ok q :
  exists ds reason, evaluateTargets (Some sn) (snap_ExecutionCandidates sn) (normalizeQuery q) true = Ok (ds, reason)
    /\ filterTargetsWithReason (Some sn) q = Ok (omap (candidateOf sn) ds, reason)
    /\ targets_ok (omap (candidateOf sn) ds).
Proof.
  destruct (candidate_decisions (normalizeQuery q)) as (ds & reason & E & Hnd & Hd). exists ds, reason. split; [done|].
  split; [unfold filterTargetsWithReason; by rewrite E|]. split; [by apply omap_targets_nodup| |].
  - intros t t' (d & _ & (_ & Et & _ & Hg)%candidateOf_Some)%list_elem_of_omap (d' & _ & (_ & Et' & _ & Hg')%candidateOf_Some)%list_elem_of_omap Eg.
    rewrite Et, Et' in Eg. rewrite Eg in Hg. congruence.
  - intros t (d & _ & (_ & _ & _ & Hg)%candidateOf_Some)%list_elem_of_omap.
    apply (cs_groups gs sn Hcomp) in Hg as (g & c & r & Hg & _ & _ & ->). eapply Forall_forall in Hgroups as [_ Hw _]; [|exact Hg].
    exact Hw.
Qed.
End compiled.
