(* ===== verification/InspectProps.v ===== *)
(** The scheduler over a compiled configuration: construction always succeeds, the credential
    scope covers the targets, and the inspection report predicts the first selection. *)
From S2P Require Import Prelude GoStrings Execution Judge Config Routing Credential Ledger Fair FairShare Registry RegistryInvariant RegistryReach RegistryGroups RegistrySafety RegistryProps RegistryHealth Iterator IteratorProps Inspect RouteIndex RouteProps RoutingProps.

Local Open Scope Z_scope.

(** * Membership in the pools *)

Lemma buildPool_elem dg targets g t :
  t ∈ mget [] (targetsByGroup (buildPool dg targets)) g
  <-> t ∈ targets /\ rt_GroupID (ct_target t) = g /\ ct_responsesStoreDowngraded t = dg.
Proof.
  unfold buildPool, sortTargets. cbn [targetsByGroup].
  assert (E : forall m : gmap Z (list candidateTarget), mget [] (merge_sort upstreamOrder <$> m) g = merge_sort upstreamOrder (mget [] m g))
    by (intros m; exact (mget_fmap (merge_sort upstreamOrder) [] m g)).
  rewrite E, merge_sort_Permutation, addTarget_fold. unfold mget at 1, newCandidatePool. cbn [targetsByGroup].
  rewrite lookup_empty. cbn. rewrite !list_elem_of_filter. tauto.
Qed.

Lemma addTarget_groups ts p g m :
  g ∈ mget [] (groupIDsByMode (fold_left addTarget ts p)) m
  <-> g ∈ mget [] (groupIDsByMode p) m \/ exists t, t ∈ ts /\ rt_GroupID (ct_target t) = g /\ rt_Mode (ct_target t) = m.
Proof.
  revert p. induction ts as [|t ts IH]; intros p; cbn [fold_left].
  { split; [by left|]. intros [H|(t & ?%not_elem_of_nil & _)]; done. }
  rewrite IH. assert (Hone : g ∈ mget [] (groupIDsByMode (addTarget p t)) m
    <-> g ∈ mget [] (groupIDsByMode p) m \/ rt_GroupID (ct_target t) = g /\ rt_Mode (ct_target t) = m).
  { unfold addTarget. cbn [groupIDsByMode]. case_bool_decide as Hin.
    - split; [by left|]. intros [H|[<- <-]]; done.
    - rewrite mget_insert. case_decide as Em; [rewrite elem_of_app, list_elem_of_singleton; subst m; naive_solver|naive_solver]. }
  rewrite Hone. split.
  - intros [[H|[Hg Hm]]|(t' & Ht & H)]; [by left|right; exists t|right; exists t']; (split; [by constructor|done]).
  - intros [H|(t' & [-> |Ht]%elem_of_cons & H)]; [by left; left|by left; right|right; eauto].
Qed.

Lemma uniqueGroups_elem p modes g : g ∈ uniqueGroups p modes <-> exists m, m ∈ modes /\ g ∈ mget [] (groupIDsByMode p) m.
Proof.
  unfold uniqueGroups. set (l := modes ≫= _).
  assert (H : forall acc, g ∈ fold_left (fun acc g => if bool_decide (g ∈ acc) then acc else acc ++ [g]) l acc <-> g ∈ acc \/ g ∈ l).
  { induction l as [|x l IH]; intros acc; cbn [fold_left]; [set_solver|]. rewrite IH, elem_of_cons.
    case_bool_decide; [naive_solver|]. rewrite elem_of_app, list_elem_of_singleton. naive_solver. }
  rewrite H. subst l. rewrite list_elem_of_bind, elem_of_nil. naive_solver.
Qed.

Lemma pool_groups dg targets t :
  t ∈ targets -> ct_responsesStoreDowngraded t = dg -> rt_Mode (ct_target t) ∈ allModes ->
  rt_GroupID (ct_target t) ∈ uniqueGroups (buildPool dg targets) allModes.
Proof.
  intros Ht Hd Hm. apply uniqueGroups_elem. exists (rt_Mode (ct_target t)). split; [done|].
  unfold buildPool, sortTargets. cbn [groupIDsByMode]. apply addTarget_groups. right. exists t.
  by rewrite list_elem_of_filter.
Qed.

Lemma Allows_valid req mode : Allows req mode = true -> mode ∈ allModes.
Proof.
  unfold Allows, routeModeValid, allModes. intros H. rewrite !elem_of_cons, elem_of_nil.
  destruct (strEq mode RouteNative) eqn:E1; [apply strEq_true in E1; tauto|].
  destruct (strEq mode RouteConverted) eqn:E2; [apply strEq_true in E2; tauto|]. done.
Qed.

Lemma included_mode sn nq w r d :
  evaluateRoute sn nq w r = Ok (Some d) -> td_included d = true -> rt_Mode (td_target d) ∈ allModes.
Proof.
  unfold evaluateRoute. destruct (snap_GroupCatalog sn !! _) as [group|]; [|done].
  destruct (wildcardRoute nq w r) as [r'|]; [|done].
  destruct (routeRequirementSatisfied nq r') as [[ok dg] reason] eqn:Er. intros [= <-]. cbn [td_included td_target].
  unfold exclusionReason. destruct ok; cbn; [|done]. intros _.
  assert (rt_Mode r' ∈ allModes) as Hm.
  { revert Er. unfold routeRequirementSatisfied. destruct (Allows _ _) eqn:Ea; [|by intros [=]]. by intros _; eapply Allows_valid. }
  by destruct (nq_externalModel nq), (clientSelectedLiveModel nq).
Qed.

Lemma buildPool_unlimited dg targets : priorityLimit (buildPool dg targets) = None.
Proof.
  unfold buildPool, sortTargets. cbn [priorityLimit].
  by apply (fold_left_inv (fun p => priorityLimit p = None)).
Qed.

(** * Construction *)

Lemma scope_elem (ds : list targetDecision) acc g :
  g ∈ fold_left (fun acc d => if td_included d && negb (bool_decide (rt_GroupID (td_target d) ∈ acc))
                             then acc ++ [rt_GroupID (td_target d)] else acc) ds acc
  <-> g ∈ acc \/ exists d, d ∈ ds /\ td_included d = true /\ rt_GroupID (td_target d) = g.
Proof.
  revert acc. induction ds as [|d ds IH]; intros acc; cbn [fold_left].
  { split; [by left|]. intros [H|(d & ?%not_elem_of_nil & _)]; done. }
  rewrite IH. assert (Hone : g ∈ (if td_included d && negb (bool_decide (rt_GroupID (td_target d) ∈ acc))
                   then acc ++ [rt_GroupID (td_target d)] else acc)
      <-> g ∈ acc \/ td_included d = true /\ rt_GroupID (td_target d) = g).
  { destruct (td_included d); cbn [andb]; [|naive_solver]. case_bool_decide; cbn [negb]; [naive_solver|].
    rewrite elem_of_app, list_elem_of_singleton. naive_solver. }
  rewrite Hone. split.
  - intros [[H|H]|(d' & Hd & H)]; [by left|right; exists d|right; exists d']; (split; [by constructor|done]).
  - intros [H|(d' & [-> |Hd]%elem_of_cons & H)]; [by left; left|by left; right|right; eauto].
Qed.

(** C24: Any configuration that compiles, of channels that list each protocol once with valid modes,
    can be scheduled.  For every query, the evaluation of
    routes over a compiled snapshot, for candidates and for the catalog of the inspection, gives
    decisions: it neither reports an inconsistent snapshot nor panics.  The iterator is built from
    those decisions and well formed, so that all its guarantees apply; and the groups whose
    credentials are captured for the query are exactly the groups the iterator can select. *)
Theorem compiled_scheduler_ready {S} `{CredentialSourceLaws S} strategy gs order sn (s : S) q :
  Forall channel_ok gs -> Compile strategy gs order = Ok sn -> src_ok s ->
  is_ok (evaluateTargets (Some sn) (snap_ExecutionCandidates sn) (normalizeQuery q) true) = true
  /\ is_ok (evaluateTargets (Some sn) (snap_ExecutionRouteCatalog sn) (normalizeQuery q) false) = true
  /\ exists it s' ids, newWithClock (Some sn) s q = Ok (it, s') /\ iterator_ok it /\ src_ok s'
    /\ CandidateGroupIDsForQuery (Some sn) q = Ok ids
    /\ forall g, g ∈ ids <-> exists dg t, t ∈ mget [] (targetsByGroup (poolOf it dg)) g.
Proof.
  intros Hch Hc Hs. apply Compile_compiled in Hc as [Hok Hcomp]; [|by intros g Hg; eapply Forall_forall in Hch as [_ ?]].
  destruct (candidate_targets_ok gs sn Hok Hch Hcomp q) as (ds & reason & E & Ef & Ht).
  rewrite E. split; [done|]. split.
  { destruct (evaluateTargets_total gs sn Hcomp (snap_ExecutionRouteCatalog sn) (normalizeQuery q) false) as (ds' & reason' & -> & _); [|done].
    intros w routes rt Er Hin. by eapply (catalog_routed gs sn Hcomp) in Er as [? _]. }
  unfold newWithClock, CandidateGroupIDsForQuery. rewrite Ef, E. cbn [fst snd].
  destruct (buildIterator_ok (Some sn) s q _ reason Ht Hs) as [Hit Hs'].
  eexists _, _, _. split; [done|]. split; [exact Hit|]. split; [exact Hs'|]. split; [done|].
  intros g. rewrite scope_elem, elem_of_nil. unfold buildIterator. cbn [fst].
  assert (Hpool : forall dg t, t ∈ mget [] (targetsByGroup (poolOf (buildIterator (Some sn) s q (omap (candidateOf sn) ds) reason).1 dg)) g
            <-> t ∈ omap (candidateOf sn) ds /\ rt_GroupID (ct_target t) = g /\ ct_responsesStoreDowngraded t = dg).
  { intros dg t. destruct dg; apply buildPool_elem. }
  setoid_rewrite Hpool. split.
  - intros [[]|(d & Hd & Hi & <-)]. destruct (candidate_decisions gs sn Hok Hch Hcomp (normalizeQuery q)) as (ds' & reason' & E' & _ & Hds).
    rewrite E in E'. injection E' as <- <-. destruct (Hds d Hd) as (w & routes & r & Er & Hr & Hev).
    destruct (routed_evaluates gs sn Hcomp w _ r (candidates_routed gs sn Hch Hcomp _ _ _ _ Er Hr)) as (d0 & Hd0 & g0 & Hg0 & Eg0 & Eid).
    rewrite Hev in Hd0. injection Hd0 as <-. destruct (evaluateRoute_Some _ _ _ _ _ Hev) as (_ & _ & _ & Hen).
    specialize (Hen Hi). rewrite Eg0 in Hen. destruct (cs_enabled gs sn Hcomp g0 Hg0 Hen) as [v Hv].
    exists (td_responsesStoreDowngraded d), (mkTarget (td_target d) v (td_responsesStoreDowngraded d)). split; [|done].
    apply list_elem_of_omap. exists d. split; [done|]. unfold candidateOf. by rewrite Hi, Eid, Hv.
  - intros (dg & t & (d & Hd & (Hi & Et & _ & _)%candidateOf_Some)%list_elem_of_omap & <- & _). right. exists d. by rewrite Et.
Qed.

(** * The inspection report and the first selection *)

(** The credential can serve a target with this group weight and upstream model now. *)
Definition servable (r : CredentialRegistry) (nq : normalizedQuery) (now : Z) (groupWeight : option Z) (t : RouteTarget)
    (e : CredentialEntry) : Prop :=
  entryLocked r (ent_ID e) = Some e /\ ent_GroupID e = rt_GroupID t /\ schedulable e now = true
  /\ (forall ids, nq_allowedCredentialIDs nq = Some ids -> ent_ID e ∈ ids)
  /\ modelCooldownUntil (ent_ModelCooldowns e) (rt_UpstreamModelID t) (nq_operation nq) now <= now
  /\ 0 < effectiveWeight groupWeight (ent_WeightManual e).

Lemma effectiveWeight_nonzero g c : 0 < effectiveWeight g c -> weightZero g = false /\ weightZero c = false.
Proof.
  unfold effectiveWeight, ConfiguredWeight, weightZero. intros H. destruct (_ || _) eqn:E; [lia|].
  apply orb_false_iff in E as [E1 E2]. apply Z.leb_gt in E1, E2.
  destruct g as [x|], c as [y|]; split; try done; apply Z.eqb_neq; lia.
Qed.

Lemma inspect_usable group e allowed now model o :
  usableCredential (inspectCredential group (runtimeView e) allowed now model o) = true
  <-> schedulable e now = true /\ (forall ids, allowed = Some ids -> ent_ID e ∈ ids)
      /\ modelCooldownUntil (ent_ModelCooldowns e) model o now <= now
      /\ 0 < effectiveWeight (gc_WeightManual group) (ent_WeightManual e).
Proof.
  rewrite schedulable_spec. unfold inspectCredential, usableCredential, RuntimeState, AuthReadyView, runtimeView.
  cbn [view_ID view_WeightManual view_Status view_AuthState view_Blacklisted view_CooldownUntil view_ModelCooldowns].
  assert (En : forall a, authNormalize (authNormalize a) = authNormalize a) by (by intros []). rewrite En.
  split.
  - destruct (weightZero (gc_WeightManual group)); [done|].
    destruct (match allowed with Some ids => _ | None => false end) eqn:Ea; [done|].
    case_bool_decide as Es; cbn [negb]; [|done]. case_bool_decide as Eau; cbn [negb]; [|done].
    destruct (weightZero (ent_WeightManual e)); [done|]. destruct (ent_Blacklisted e); [done|].
    destruct (Z.ltb_spec now (ent_CooldownUntil e)); [done|].
    destruct (Z.ltb_spec now (modelCooldownUntil (ent_ModelCooldowns e) model o now)); [done|]. cbn. intros Hw. zb.
    split; [done|]. split; [|lia]. intros ids ->. by apply negb_false_iff, bool_decide_eq_true in Ea.
  - intros ((Es & Eb & Ec & Eau) & Ha & Hm & Hw). destruct (effectiveWeight_nonzero _ _ Hw) as [-> ->].
    assert (match allowed with Some ids => negb (bool_decide (ent_ID e ∈ ids)) | None => false end = false) as ->.
    { destruct allowed as [ids|]; [|done]. by rewrite bool_decide_eq_true_2 by auto. }
    rewrite Es, Eau, Eb. cbn. destruct (Z.ltb_spec now (ent_CooldownUntil e)); [lia|].
    destruct (Z.ltb_spec now (modelCooldownUntil (ent_ModelCooldowns e) model o now)); [lia|]. cbn. by apply Z.ltb_lt.
Qed.

Lemma Snapshot_elem r v : index_ok r -> v ∈ Snapshot r <-> exists e, entryLocked r (ent_ID e) = Some e /\ v = runtimeView e.
Proof.
  intros Hix. unfold Snapshot. rewrite merge_sort_Permutation, list_elem_of_fmap.
  setoid_rewrite allEntries_elem; [|done]. naive_solver.
Qed.

Lemma inspectGroup_routable r nq now d :
  index_ok r ->
  gi_Routable (inspectGroup nq (Snapshot r) now d) = true
  <-> td_included d = true /\ exists e, entryLocked r (ent_ID e) = Some e /\ ent_GroupID e = gc_ID (td_group d)
       /\ usableCredential (inspectCredential (td_group d) (runtimeView e) (nq_allowedCredentialIDs nq) now
                              (rt_UpstreamModelID (td_target d)) (nq_operation nq)) = true.
Proof.
  intros Hix. unfold inspectGroup. destruct (td_included d); cbn [negb gi_Routable]; [|naive_solver].
  rewrite existsb_exists. split.
  - intros (c & Hc%list_elem_of_In & Hu). apply list_elem_of_fmap in Hc as (v & -> & Hv). unfold credentialsOfGroup in Hv.
    rewrite merge_sort_Permutation, list_elem_of_filter, Snapshot_elem in Hv by done. destruct Hv as (Eg & e & He & ->).
    split; [done|]. by exists e.
  - intros (_ & e & He & Eg & Hu). eexists. split; [|exact Hu]. apply list_elem_of_In, list_elem_of_fmap. exists (runtimeView e).
    split; [done|]. unfold credentialsOfGroup. rewrite merge_sort_Permutation, list_elem_of_filter, Snapshot_elem by done. eauto.
Qed.

Lemma fresh_pool_servable sn (r : CredentialRegistry) q targets reason dg now :
  registry_ok r -> targets_ok targets -> q_AllowedCredentialRefs q = None ->
  let it := (buildIterator (Some sn) r q targets reason).1 in
  let r' := (buildIterator (Some sn) r q targets reason).2 in
  (exists w, w ∈ weightedPool it r' (poolOf it dg) allModes now)
  <-> exists t e, t ∈ targets /\ ct_responsesStoreDowngraded t = dg /\ rt_Mode (ct_target t) ∈ allModes
       /\ servable r (normalizeQuery q) now (gv_WeightManual (ct_group t)) (ct_target t) e.
Proof.
  intros Hok Ht Hrefs it r'. pose proof (rg_index r Hok) as Hix.
  assert (Hpool : forall g t, t ∈ mget [] (targetsByGroup (poolOf it dg)) g
            <-> t ∈ targets /\ rt_GroupID (ct_target t) = g /\ ct_responsesStoreDowngraded t = dg)
    by (intros g t; destruct dg; apply buildPool_elem).
  assert (Hcand : forall gids ex m, m ∈ candidatesUnderLock r' gids ex now <-> m ∈ collectCredentialCandidatesLocked r gids ex now) by done.
  assert (Hperm : forall e, permitted it (metaOf e) = true <-> forall ids, nq_allowedCredentialIDs (normalizeQuery q) = Some ids -> ent_ID e ∈ ids).
  { intros e. unfold permitted, it, buildIterator. cbn. rewrite Hrefs. cbn. rewrite !andb_true_r.
    unfold normalizeQuery. cbn. destruct (q_AllowedCredentialIDs q) as [ids|]; [rewrite bool_decide_eq_true|]; naive_solver. }
  assert (Hav : forall t e, targetAvailable it t (metaOf e) allModes now = true
    <-> rt_Mode (ct_target t) ∈ allModes
        /\ modelCooldownUntil (ent_ModelCooldowns e) (rt_UpstreamModelID (ct_target t)) (nq_operation (normalizeQuery q)) now <= now).
  { intros t e. unfold targetAvailable. rewrite andb_true_iff, bool_decide_eq_true, negb_true_iff, Z.ltb_ge. done. }
  split.
  - intros (w & [Hc Hw]%weightedPool_elem). apply Hcand in Hc. apply (collect_elem r _ _ _ _ Hix) in Hc as (e & He & _ & _ & Hs & Em).
    rewrite Em in Hw. apply weigh_Some in Hw as (_ & Hp & Hpos & t & (Hin & Hg & Hd)%Hpool & [Hm Hcd]%Hav & Ew).
    exists t, e. split; [done|]. split; [done|]. split; [done|]. rewrite Ew in Hpos.
    split; [done|]. split; [by rewrite Hg|]. split; [done|]. split; [by apply Hperm|]. split; [done|exact Hpos].
  - intros (t & e & Hin & Hd & Hm & He & Hg & Hs & Ha & Hcd & Hpos).
    destruct (List.find (fun t => targetAvailable it t (metaOf e) allModes now)
                (mget [] (targetsByGroup (poolOf it dg)) (meta_GroupID (metaOf e)))) as [t'|] eqn:Ef.
    + assert (weigh it (poolOf it dg) allModes now (metaOf e)
        = Some (mkWeighted (metaOf e) (effectiveWeight (gv_WeightManual (ct_group t')) (meta_WeightManual (metaOf e))))) as Hw.
      { unfold weigh. rewrite (proj2 (Hperm e) Ha), Ef. cbn [negb].
        apply List.find_some in Ef as [(Hin' & Hg' & _)%list_elem_of_In%Hpool _].
        rewrite (tg_group _ Ht t' t Hin' Hin) by (rewrite Hg'; exact Hg). cbn [metaOf meta_WeightManual].
        by rewrite (proj2 (Z.ltb_lt _ _) Hpos). }
      eexists. unfold weightedPool. apply list_elem_of_omap. exists (metaOf e). split; [|exact Hw]. apply Hcand, collect_elem; [done|].
      exists e. split; [done|]. split; [rewrite Hg|done].
      destruct dg; apply pool_groups; done.
    + exfalso. assert (Hin' : t ∈ mget [] (targetsByGroup (poolOf it dg)) (meta_GroupID (metaOf e))) by (apply Hpool; done).
      apply list_elem_of_In in Hin'. pose proof (List.find_none _ _ Ef t Hin') as Hn. cbn beta in Hn.
      by rewrite (proj2 (Hav t e)) in Hn.
Qed.

Lemma valid_selection_pool {S} `{CredentialSourceLaws S} it (s : S) dg now sel :
  iterator_ok it -> valid_selection it s dg now sel -> exists w, w ∈ weightedPool it s (poolOf it dg) allModes now.
Proof.
  intros Hit (c & t & _ & Hc & Hp & Ht & Ha & Hw).
  destruct (List.find (fun t => targetAvailable it t c allModes now) (mget [] (targetsByGroup (poolOf it dg)) (meta_GroupID c)))
    as [t'|] eqn:Ef.
  - eexists (mkWeighted c _). unfold weightedPool. apply list_elem_of_omap. exists c. split; [exact Hc|].
    unfold weigh. rewrite Hp, Ef. cbn [negb]. apply List.find_some in Ef as [Ht'%list_elem_of_In _].
    rewrite (tw_group _ _ _ (pool_targets dg _ _ (it_pools it Hit dg)) t' t Ht' Ht), (proj2 (Z.ltb_lt _ _) Hw). done.
  - exfalso. apply list_elem_of_In in Ht. pose proof (List.find_none _ _ Ef t Ht) as Hn. cbn beta in Hn. by rewrite Ha in Hn.
Qed.

(** A fresh iterator selects something exactly when one of its targets is servable. *)
Lemma fresh_next sn (r : CredentialRegistry) q targets reason now :
  registry_ok r -> targets_ok targets -> q_AllowedCredentialRefs q = None ->
  let it := (buildIterator (Some sn) r q targets reason).1 in
  let r' := (buildIterator (Some sn) r q targets reason).2 in
  headroom (SchedulingStateOf r') 1 ->
  exists it2 r2 o, Next it r' now now = Ok (it2, r2, o)
    /\ (isSome o = true <-> exists t e, t ∈ targets /\ rt_Mode (ct_target t) ∈ allModes
          /\ servable r (normalizeQuery q) now (gv_WeightManual (ct_group t)) (ct_target t) e).
Proof.
  intros Hok Ht Hrefs it r' Hh. assert (src_ok r) as Hsrc by exact Hok.
  destruct (buildIterator_ok (Some sn) r q targets reason Ht Hsrc) as [Hit Hr'].
  fold it in Hit. fold r' in Hr'. destruct (Next_spec it r' now now Hit Hr') as (it2 & r2 & o & E & _ & _ & _ & Ho).
  exists it2, r2, o. split; [done|]. split.
  - destruct o as [sel|]; [|done]. intros _. destruct Ho as [[Hv|Hv] _];
      apply (valid_selection_pool it r' _ now sel Hit) in Hv; apply fresh_pool_servable in Hv; try done;
      destruct Hv as (t & e & Hin & _ & Hm & Hs); eauto.
  - intros (t & e & Hin & Hm & Hs). destruct o as [sel|]; [done|]. exfalso.
    destruct (proj2 (fresh_pool_servable sn r q targets reason (ct_responsesStoreDowngraded t) now Hok Ht Hrefs)) as [w Hw]; [eauto 10|].
    destruct (Next_exhausted it r' now now it2 r2 Hit Hr' Hh E (ct_responsesStoreDowngraded t) w) as (limit & Hl & _).
    { by destruct (ct_responsesStoreDowngraded t). }
    assert (priorityLimit (poolOf it (ct_responsesStoreDowngraded t)) = None) as Hnone
      by (destruct (ct_responsesStoreDowngraded t); apply buildPool_unlimited).
    congruence.
Qed.

Lemma decision_servable gs sn r nq now d e :
  compiled_snapshot gs sn -> (exists g, g ∈ gs /\ td_group d = catalogView g /\ rt_GroupID (td_target d) = gcf_ID g) ->
  forall v, snap_Groups sn !! rt_GroupID (td_target d) = Some v ->
  servable r nq now (gc_WeightManual (td_group d)) (td_target d) e <-> servable r nq now (gv_WeightManual v) (td_target d) e.
Proof.
  intros Hcomp (g & Hg & Ec & Eid) v Hv. apply (cs_groups gs sn Hcomp) in Hv as (g' & c & k & Hg' & _ & Eid' & ->).
  assert (catalogView g = catalogView g') as Eg.
  { apply (inj Some). rewrite <- (group_catalog gs sn Hcomp g Hg), <- (group_catalog gs sn Hcomp g' Hg'). congruence. }
  rewrite Ec, Eg. done.
Qed.

(** The report says routable exactly when an included decision over the catalog is servable. *)
Lemma Inspect_routable gs sn r q now report :
  Forall group_ok gs -> Forall channel_ok gs -> compiled_snapshot gs sn -> registry_ok r ->
  Inspect (Some sn) (Snapshot r) q now = Ok report ->
  in_Routable report = true
  <-> queryRefused (normalizeQuery q) = None
      /\ exists rt d e, rt ∈ routesAt (snap_ExecutionRouteCatalog sn) (nq_clientProtocol (normalizeQuery q))
                        (nq_operation (normalizeQuery q)) (modelKeyOf (normalizeQuery q))
         /\ evaluateRoute sn (normalizeQuery q) false rt = Ok (Some d) /\ td_included d = true
         /\ servable r (normalizeQuery q) now (gc_WeightManual (td_group d)) (td_target d) e.
Proof.
  intros Hok Hch Hcomp Hr. pose proof (rg_index r Hr) as Hix. unfold Inspect. set (nq := normalizeQuery q).
  destruct (strEq _ AccessKeyStatusDisabled) eqn:Es.
  { intros [= <-]. cbn. split; [done|]. intros [Hq _]. unfold queryRefused in Hq. by rewrite Es in Hq. }
  destruct (existsb _ _); [done|].
  destruct (evaluateTargets_total gs sn Hcomp (snap_ExecutionRouteCatalog sn) nq false) as (ds & reason & E & Hds).
  { intros w routes rt Er Hin. by eapply (catalog_routed gs sn Hcomp) in Er as [? _]. }
  rewrite E. cbn [fst snd]. intros Hrep.
  assert (in_Routable report = existsb gi_Routable (inspectGroup nq (Snapshot r) now <$> ds)) as ->
    by (destruct (existsb gi_Routable _); by injection Hrep as <-).
  rewrite existsb_exists. setoid_rewrite <- list_elem_of_In. setoid_rewrite list_elem_of_fmap. split.
  - intros (gi & (d & -> & Hd) & Hrt). apply inspectGroup_routable in Hrt as (Hi & e & He & Eg & Hu); [|done].
    destruct (queryRefused nq); [subst ds; by apply not_elem_of_nil in Hd|]. split; [done|].
    destruct (routesOf sn _ nq false) as [?|[w routes]] eqn:Er; [subst ds; by apply not_elem_of_nil in Hd|].
    apply (evaluateRoutes_elem _ _ _ _ _ Hds) in Hd as (rt & Hin & Hev).
    destruct (catalog_routed gs sn Hcomp _ _ _ _ Er Hin) as (Hrtd & -> & Eroutes). rewrite Eroutes in Hin.
    exists rt, d, e. split; [done|]. split; [done|]. split; [done|]. apply inspect_usable in Hu as (H1 & H2 & H3 & H4).
    destruct (routed_evaluates gs sn Hcomp false nq rt Hrtd) as (d' & Hev' & g & _ & Ec & Eid). rewrite Hev in Hev'. injection Hev' as <-.
    split; [done|]. split; [by rewrite Eg, Ec, Eid|done].
  - intros (Hq & rt & d & e & Hin & Hev & Hi & He & Eg & H1 & H2 & H3 & H4). rewrite Hq in Hds.
    rewrite (routesOf_exact sn _ nq false) in Hds by (intros Hn; rewrite Hn in Hin; by apply not_elem_of_nil in Hin).
    eexists. split; [exists d; split; [done|]; apply (evaluateRoutes_elem _ _ _ _ _ Hds); eauto|].
    apply inspectGroup_routable; [done|]. split; [done|]. exists e. split; [done|].
    destruct (catalog_routed gs sn Hcomp nq false _ rt (routesOf_exact sn _ nq false ltac:(intros Hn; rewrite Hn in Hin; by apply not_elem_of_nil in Hin)) Hin) as [Hrtd _].
    destruct (routed_evaluates gs sn Hcomp false nq rt Hrtd) as (d' & Hev' & g & _ & Ec & Eid). rewrite Hev in Hev'. injection Hev' as <-.
    split; [by rewrite Eg, Ec, Eid|]. by apply inspect_usable.
Qed.

(** The decisions over the catalog that matter are those over the candidates, and conversely when
    no wildcard group answers. *)
Section agreement.
Context (gs : list GroupConfig) (sn : ConfigSnapshot) (r : CredentialRegistry) (nq : normalizedQuery) (now : Z) (ds : list targetDecision).
Context (Hch : Forall channel_ok gs) (Hcomp : compiled_snapshot gs sn).
Context (Hds : match queryRefused nq, routesOf sn (snap_ExecutionCandidates sn) nq true with
               | None, inr (w, routes) => evaluateRoutes sn nq w routes = Ok ds
               | _, _ => ds = []
               end).

Definition catalog_servable : Prop :=
  queryRefused nq = None
  /\ exists rt d e, rt ∈ routesAt (snap_ExecutionRouteCatalog sn) (nq_clientProtocol nq) (nq_operation nq) (modelKeyOf nq)
     /\ evaluateRoute sn nq false rt = Ok (Some d) /\ td_included d = true
     /\ servable r nq now (gc_WeightManual (td_group d)) (td_target d) e.

Definition candidate_servable : Prop :=
  exists t e, t ∈ omap (candidateOf sn) ds /\ rt_Mode (ct_target t) ∈ allModes
    /\ servable r nq now (gv_WeightManual (ct_group t)) (ct_target t) e.

Lemma catalog_candidate : catalog_servable -> candidate_servable.
Proof using Hch Hcomp Hds.
  intros (Hq & rt & d & e & Hin & Hev & Hi & Hs). rewrite Hq in Hds.
  destruct (evaluateRoute_Some _ _ _ _ _ Hev) as (Hcat & _ & Egr & Hen). specialize (Hen Hi).
  apply (cs_catalogRoutes gs sn Hcomp) in Hin as (g & Hg & Hd). pose proof (declares_group _ _ Hd) as Eg. cbn in Eg.
  rewrite Eg, (group_catalog gs sn Hcomp g Hg) in Hcat. injection Hcat as Ecat. rewrite <- Ecat in Hen.
  assert (Hin : rt ∈ routesAt (snap_ExecutionCandidates sn) (nq_clientProtocol nq) (nq_operation nq) (modelKeyOf nq))
    by (apply (cs_candidates gs sn Hcomp); eauto).
  rewrite (routesOf_exact sn _ nq true) in Hds by (intros Hn; rewrite Hn in Hin; by apply not_elem_of_nil in Hin).
  destruct (cs_enabled gs sn Hcomp g Hg Hen) as [v Hv].
  exists (mkTarget (td_target d) v (td_responsesStoreDowngraded d)), e. split; [|split].
  - apply list_elem_of_omap. exists d. split; [apply (evaluateRoutes_elem _ _ _ _ _ Hds); eauto|].
    unfold candidateOf. by rewrite Hi, Egr, Eg, Hv.
  - by eapply included_mode.
  - eapply (decision_servable gs sn); [exact Hcomp| | |exact Hs]; cbn; [exists g; split_and!; congruence|by rewrite Egr, Eg].
Qed.

Lemma candidate_catalog :
  wildcardsAt (snap_WildcardCandidates sn) (nq_clientProtocol nq) (nq_operation nq) = [] -> candidate_servable -> catalog_servable.
Proof using Hch Hcomp Hds.
  intros Hw (t & e & (d & Hd & (Hi & Et & _ & Hv)%candidateOf_Some)%list_elem_of_omap & Hm & Hs).
  unfold catalog_servable. destruct (queryRefused nq); [subst ds; by apply not_elem_of_nil in Hd|]. split; [done|].
  destruct (routesOf sn _ nq true) as [?|[w routes]] eqn:Er; [subst ds; by apply not_elem_of_nil in Hd|].
  apply (evaluateRoutes_elem _ _ _ _ _ Hds) in Hd as (rt & Hin & Hev).
  destruct (routed_evaluates gs sn Hcomp w nq rt (candidates_routed gs sn Hch Hcomp _ _ _ _ Er Hin)) as (d' & Hev' & g & Hg & Ec & Eid).
  rewrite Hev in Hev'. injection Hev' as <-.
  apply routesOf_inr in Er as [Hne [[-> ->]|(-> & _ & _ & _ & ->)]]; [|by rewrite Hw in Hne].
  exists rt, d, e. split; [|split; [done|]; split; [done|]].
  - apply (cs_candidates gs sn Hcomp) in Hin as (g' & Hg' & _ & Hd'). apply (cs_catalogRoutes gs sn Hcomp). eauto.
  - rewrite Et in Hs. eapply (decision_servable gs sn); [exact Hcomp|eauto|exact Hv|exact Hs].
Qed.
End agreement.

(** C25: The inspection report predicts the scheduler.  For a compiled configuration, a query that
    is not bound to captured credentials, the same instant, and counters of the ledger with room
    for one more selection: when the report says that the query
    is routable, the first selection of a fresh iterator succeeds; and unless the query can fall
    back to wildcard groups, which the report does not consider, a successful first selection means
    that the report says routable. *)
Theorem inspection_predicts_selection strategy gs order sn (r : CredentialRegistry) q now it r' report :
  Forall channel_ok gs -> Compile strategy gs order = Ok sn -> registry_ok r -> q_AllowedCredentialRefs q = None ->
  newWithClock (Some sn) r q = Ok (it, r') -> headroom (scheduling r') 1 ->
  Inspect (Some sn) (Snapshot r) q now = Ok report ->
  exists it2 r2 o, Next it r' now now = Ok (it2, r2, o)
    /\ (in_Routable report = true -> isSome o = true)
    /\ (wildcardsAt (snap_WildcardCandidates sn) (nq_clientProtocol (normalizeQuery q)) (nq_operation (normalizeQuery q)) = [] ->
        isSome o = true -> in_Routable report = true).
Proof.
  intros Hch Hc Hr Hrefs HN Hh HI. apply Compile_compiled in Hc as [Hok Hcomp]; [|by intros g Hg; eapply Forall_forall in Hch as [_ ?]].
  destruct (candidate_targets_ok gs sn Hok Hch Hcomp q) as (ds & reason & E & Ef & Ht).
  unfold newWithClock in HN. rewrite Ef in HN. cbn [fst snd] in HN. injection HN as <- <-.
  destruct (fresh_next sn r q _ reason now Hr Ht Hrefs Hh) as (it2 & r2 & o & EN & Ho).
  exists it2, r2, o. split; [exact EN|]. rewrite Ho, (Inspect_routable gs sn r q now report Hok Hch Hcomp Hr HI). clear Ho EN Hh HI.
  destruct (evaluateTargets_total gs sn Hcomp (snap_ExecutionCandidates sn) (normalizeQuery q) true) as (ds' & reason' & E' & Hds).
  { intros w routes rt. by apply candidates_routed. }
  rewrite E in E'. injection E' as <- <-. split.
  - by apply (catalog_candidate gs sn r (normalizeQuery q) now ds).
  - by apply (candidate_catalog gs sn r (normalizeQuery q) now ds).
Qed.

(** * The concrete configuration over the concrete registry *)

Lemma exTarget_sound : target_sound exResolvedTarget.
Proof.
  split.
  - intros p o mode. unfold Mode. cbn [tg_modes exResolvedTarget]. rewrite lookup_singleton. case_decide; [|done].
    rewrite lookup_insert. case_decide; [by intros [= <-]|]. rewrite lookup_singleton. case_decide; [by intros [= <-]|done].
  - intros p o resolver m mode H. cbn [tg_resolvers exResolvedTarget] in H. by rewrite lookup_empty in H.
Qed.

Lemma exGroups_channels : Forall channel_ok exGroups.
Proof.
  apply Forall_forall. intros g Hg. split; [|by apply exGroups_protocols]. unfold exGroups in Hg.
  rewrite !elem_of_cons, elem_of_nil in Hg. destruct Hg as [-> |[-> |[]]]; exact exTarget_sound.
Qed.

Lemma exCompile : Compile RouteStrategyNativeFirst exGroups anyOrder = Ok exCompiled.
Proof. vm_compute. reflexivity. Qed.

Lemma compiled_scheduler_ready_witness :
  CandidateGroupIDsForQuery (Some exCompiled) exQuery = Ok [7; 8]
  /\ exists it s', newWithClock (Some exCompiled) exRegistry exQuery = Ok (it, s') /\ iterator_ok it.
Proof.
  split; [vm_compute; reflexivity|].
  destruct (compiled_scheduler_ready RouteStrategyNativeFirst exGroups anyOrder exCompiled exRegistry exQuery
              exGroups_channels exCompile exRegistry_src) as (_ & _ & it & s' & ids & E & Hit & _).
  exists it, s'. split; [exact E|exact Hit].
Defined.

Lemma inspection_predicts_selection_witness :
  match newWithClock (Some exCompiled) exRegistry exQuery, Inspect (Some exCompiled) (Snapshot exRegistry) exQuery 9 with
  | Ok (it, r'), Ok report =>
      in_Routable report = true /\ exists it2 r2 o, Next it r' 9 9 = Ok (it2, r2, o) /\ isSome o = true
  | _, _ => False
  end.
Proof.
  destruct (newWithClock (Some exCompiled) exRegistry exQuery) as [[it r']|] eqn:E1; [|vm_compute in E1; discriminate E1].
  destruct (Inspect (Some exCompiled) (Snapshot exRegistry) exQuery 9) as [report|] eqn:E2; [|vm_compute in E2; discriminate E2].
  assert (in_Routable report = true) as Hr by (vm_compute in E2; injection E2 as <-; reflexivity).
  split; [exact Hr|].
  destruct (inspection_predicts_selection RouteStrategyNativeFirst exGroups anyOrder exCompiled exRegistry exQuery 9 it r' report)
    as (it2 & r2 & o & EN & Ho & _).
  - exact exGroups_channels.
  - exact exCompile.
  - exact exRegistry_ok.
  - reflexivity.
  - exact E1.
  - vm_compute in E1. injection E1 as <- <-. split; vm_compute; congruence.
  - exact E2.
  - exists it2, r2, o. split; [exact EN|exact (Ho Hr)].
Defined.
