(* ===== verification/Mutations.v ===== *)
(** The locks that serialise changes of a credential's runtime state and configuration
    ([internal/health/mutation.go]): [Do] and [DoMany] of the mutation coordinator as threads
    that lock stripes, run their function and unlock.

    The function is one step here; the functions passed to the coordinator in the sources do not
    call it again.  A lock is granted in any order among the waiting threads. *)
From S2P Require Import Prelude.

Local Open Scope Z_scope.

(** * The stripes of a call *)

Definition mutationStripeCount : Z := 64.

Definition stripeOf (credentialID : Z) : Z := credentialID mod mutationStripeCount.

(** The deduplication by [selected], in the order of the identifiers. *)
Definition selectStripes (credentialIDs : list Z) : list Z :=
  fold_left (fun indexes id => if bool_decide (stripeOf id ∈ indexes) then indexes else indexes ++ [stripeOf id])
    credentialIDs [].

(** The order in which [DoMany] locks; [Do] is the case of one identifier. *)
Definition lockOrder (credentialIDs : list Z) : list Z := merge_sort Z.le (selectStripes credentialIDs).

(** * Threads *)

Record Thread := mkThread {
  th_ids : list Z;
  (** Still to lock, in order. *)
  th_pending : list Z;
  (** Locked, the last one first: the order of unlocking. *)
  th_held : list Z;
  th_ran : bool
}.

Record MutationCoordinator := mkCoordinator {
  mx_stripes : gmap Z nat;
  mx_threads : list Thread
}.

Definition NewMutationCoordinator : MutationCoordinator := mkCoordinator ∅ [].

Definition DoMany (credentialIDs : list Z) : Thread := mkThread credentialIDs (lockOrder credentialIDs) [] false.
Definition Do (credentialID : Z) : Thread := mkThread [credentialID] [stripeOf credentialID] [] false.

Definition setThread (t : nat) (th : Thread) (s : MutationCoordinator) : MutationCoordinator :=
  mkCoordinator (mx_stripes s) (<[t := th]> (mx_threads s)).

(** A step of a call that has begun. *)
Inductive mutation_step : MutationCoordinator -> MutationCoordinator -> Prop :=
| ms_lock s t ids i rest held :
    mx_threads s !! t = Some (mkThread ids (i :: rest) held false) -> mx_stripes s !! i = None ->
    mutation_step s (mkCoordinator (<[i := t]> (mx_stripes s)) (<[t := mkThread ids rest (i :: held) false]> (mx_threads s)))
| ms_run s t ids held :
    mx_threads s !! t = Some (mkThread ids [] held false) ->
    mutation_step s (setThread t (mkThread ids [] held true) s)
| ms_unlock s t ids i held :
    mx_threads s !! t = Some (mkThread ids [] (i :: held) true) ->
    mutation_step s (mkCoordinator (delete i (mx_stripes s)) (<[t := mkThread ids [] held true]> (mx_threads s))).

(** Calls begin at any time. *)
Inductive coordinator_reach : MutationCoordinator -> Prop :=
| mr_new : coordinator_reach NewMutationCoordinator
| mr_do s id : coordinator_reach s -> coordinator_reach (mkCoordinator (mx_stripes s) (mx_threads s ++ [Do id]))
| mr_many s ids : coordinator_reach s -> coordinator_reach (mkCoordinator (mx_stripes s) (mx_threads s ++ [DoMany ids]))
| mr_step s s' : coordinator_reach s -> mutation_step s s' -> coordinator_reach s'.

Definition finished (th : Thread) : Prop := th_ran th = true /\ th_held th = [].

(** The thread is about to run its function. *)
Definition inside (th : Thread) : Prop := th_ran th = false /\ th_pending th = [].

(** * The invariant *)

Record thread_ok (th : Thread) : Prop := {
  to_sorted : StronglySorted Z.lt (th_pending th);
  to_above : forall h p, h ∈ th_held th -> p ∈ th_pending th -> h < p;
  to_range : forall p, p ∈ th_pending th -> p < mutationStripeCount;
  to_nodup : NoDup (th_held th);
  to_ran : th_ran th = true -> th_pending th = [];
  to_covers : th_ran th = false -> forall id, id ∈ th_ids th -> stripeOf id ∈ th_held th \/ stripeOf id ∈ th_pending th
}.

Record coordinator_ok (s : MutationCoordinator) : Prop := {
  co_threads : forall t th, mx_threads s !! t = Some th -> thread_ok th;
  co_locks : forall i t, mx_stripes s !! i = Some t <-> exists th, mx_threads s !! t = Some th /\ i ∈ th_held th
}.

Lemma selectStripes_spec ids : NoDup (selectStripes ids) /\ forall i, i ∈ selectStripes ids <-> exists id, id ∈ ids /\ i = stripeOf id.
Proof.
  unfold selectStripes. induction ids as [|id ids [IH1 IH2]] using rev_ind.
  { cbn. split; [constructor|]. set_solver. }
  rewrite fold_left_app. cbn [fold_left]. set (acc := fold_left _ ids []) in *. case_bool_decide as Hin.
  - split; [done|]. intros i. rewrite IH2. split; [set_solver|]. intros (id' & [H| ->%list_elem_of_singleton]%elem_of_app & ->); [eauto|].
    by apply IH2.
  - split.
    + apply NoDup_app. split; [done|]. split; [|apply NoDup_singleton]. by intros x Hx ->%list_elem_of_singleton.
    + intros i. rewrite elem_of_app, IH2, list_elem_of_singleton. set_solver.
Qed.

Lemma sorted_lt (l : list Z) : StronglySorted Z.le l -> NoDup l -> StronglySorted Z.lt l.
Proof.
  induction 1 as [|x l Hs IH Hx]; [constructor|]. intros [Hnin Hnd]%NoDup_cons. constructor; [by apply IH|].
  apply Forall_forall. intros y Hy. eapply Forall_forall in Hx; [|exact Hy]. assert (x <> y) by (by intros ->). lia.
Qed.

Lemma stripeOf_range id : stripeOf id < mutationStripeCount.
Proof. unfold stripeOf, mutationStripeCount. apply Z.mod_pos_bound. lia. Qed.

Lemma lockOrder_spec ids :
  StronglySorted Z.lt (lockOrder ids) /\ (forall id, id ∈ ids -> stripeOf id ∈ lockOrder ids)
  /\ forall i, i ∈ lockOrder ids -> i < mutationStripeCount.
Proof.
  destruct (selectStripes_spec ids) as [Hnd Hin]. pose proof (merge_sort_Permutation Z.le (selectStripes ids)) as Hp.
  unfold lockOrder. split; [|split].
  - apply sorted_lt; [apply (StronglySorted_merge_sort Z.le)|by rewrite Hp].
  - intros id Hid. rewrite Hp. apply Hin. eauto.
  - intros i Hi. rewrite Hp in Hi. apply Hin in Hi as (id & _ & ->). apply stripeOf_range.
Qed.

Lemma begin_ok s ids order :
  coordinator_ok s -> StronglySorted Z.lt order -> (forall id, id ∈ ids -> stripeOf id ∈ order) ->
  (forall i, i ∈ order -> i < mutationStripeCount) ->
  coordinator_ok (mkCoordinator (mx_stripes s) (mx_threads s ++ [mkThread ids order [] false])).
Proof.
  intros [Ht Hl] Hs Hc Hr. split; cbn.
  - intros t th [Hth|(Hlen & Hth)]%lookup_app_Some; [by apply (Ht t)|]. apply list_lookup_singleton_Some in Hth as [_ <-].
    split; cbn; try done; [set_solver|constructor|]. intros _ id Hid. right. by apply Hc.
  - intros i t. rewrite Hl. split.
    + intros (th & Hth & Hi). exists th. split; [by apply lookup_app_l_Some|done].
    + intros (th & [Hth|(Hlen & Hth)]%lookup_app_Some & Hi); [eauto|]. apply list_lookup_singleton_Some in Hth as [_ <-]. set_solver.
Qed.

Lemma insert_thread (l : list Thread) t th th' u x :
  l !! t = Some th -> <[t := th']> l !! u = Some x <-> (u = t /\ x = th') \/ (u <> t /\ l !! u = Some x).
Proof.
  intros Ht. destruct (decide (u = t)) as [-> |Hne].
  - rewrite list_lookup_insert_eq by (by eapply lookup_lt_Some). naive_solver.
  - rewrite list_lookup_insert_ne by done. naive_solver.
Qed.

(** Replacing the thread [t] together with the locks it holds. *)
Lemma replace_ok s t th th' locks :
  coordinator_ok s -> mx_threads s !! t = Some th -> thread_ok th' ->
  (forall i u, locks !! i = Some u <-> (u = t /\ i ∈ th_held th') \/ (u <> t /\ mx_stripes s !! i = Some u)) ->
  coordinator_ok (mkCoordinator locks (<[t := th']> (mx_threads s))).
Proof.
  intros [Ht Hl] Hth Hok Hlocks. split; cbn.
  - intros u x. rewrite (insert_thread _ _ _ _ _ _ Hth). intros [[-> ->]|[_ Hx]]; [done|by apply (Ht u)].
  - intros i u. rewrite Hlocks, Hl. setoid_rewrite (insert_thread _ _ _ _ _ _ Hth). naive_solver.
Qed.

Lemma mutation_step_ok s s' : coordinator_ok s -> mutation_step s s' -> coordinator_ok s'.
Proof.
  intros Hok Hstep. pose proof Hok as [Ht Hl].
  destruct Hstep as [s t ids i rest held Hth Hfree|s t ids held Hth|s t ids i held Hth];
    pose proof (Ht _ _ Hth) as [H1 H2 Hr H3 H4 H5]; cbn in *.
  - apply StronglySorted_inv in H1 as [H1 Hi]. rewrite Forall_forall in Hi. eapply replace_ok; [done|exact Hth| |].
    + split; cbn; try done; [|by intros p Hp; apply Hr; constructor|constructor; [|done]|].
      * intros h p [-> |Hh]%elem_of_cons Hp; [by apply Hi|]. apply H2; [done|by constructor].
      * intros Hh. specialize (H2 i i Hh ltac:(constructor)). lia.
      * intros _ id Hid. destruct (H5 eq_refl id Hid) as [Hh|[-> |Hp]%elem_of_cons];
          [left; by constructor|left; constructor|by right].
    + intros j u. cbn. rewrite lookup_insert_Some, elem_of_cons. split.
      * intros [[-> ->]|[Hne Hj]]; [by left; auto|]. destruct (decide (u = t)) as [-> |Hu]; [|by right].
        left. split; [done|right]. apply Hl in Hj as (th & Hth' & Hj). rewrite Hth in Hth'. by injection Hth' as <-.
      * intros [[-> [-> |Hj]]|[Hu Hj]]; [by left| |].
        -- right. split; [|apply Hl; eexists; split; [exact Hth|done]]. intros ->. specialize (H2 j j Hj ltac:(constructor)). lia.
        -- right. split; [|done]. intros ->. by rewrite Hfree in Hj.
  - eapply replace_ok; [done|exact Hth|by split|]. intros j u. cbn. split.
    + intros Hj. destruct (decide (u = t)) as [-> |Hu]; [left; split; [done|]|by right].
      apply Hl in Hj as (th & Hth' & Hj). rewrite Hth in Hth'. by injection Hth' as <-.
    + intros [[-> Hj]|[_ Hj]]; [|done]. apply Hl. by eexists.
  - apply NoDup_cons in H3 as [Hnin Hnd]. eapply replace_ok; [done|exact Hth| |].
    + split; cbn; try done. set_solver.
    + intros j u. cbn. rewrite lookup_delete_Some. split.
      * intros [Hne Hj]. destruct (decide (u = t)) as [-> |Hu]; [left; split; [done|]|by right].
        apply Hl in Hj as (th & Hth' & Hj). rewrite Hth in Hth'. injection Hth' as <-. cbn in Hj.
        apply elem_of_cons in Hj as [-> |Hj]; done.
      * intros [[-> Hj]|[Hu Hj]].
        -- split; [by intros ->|]. apply Hl. eexists. split; [exact Hth|]. by constructor.
        -- split; [|done]. intros ->. assert (mx_stripes s !! j = Some t) as Hj'; [|congruence].
           apply Hl. eexists. split; [exact Hth|constructor].
Qed.

Lemma coordinator_reach_ok s : coordinator_reach s -> coordinator_ok s.
Proof.
  induction 1 as [|s id _ IH|s ids _ IH|s s' _ IH Hs].
  - split; cbn; [set_solver|]. intros i t. rewrite lookup_empty. set_solver.
  - apply begin_ok; [done|repeat constructor| |]; intros x ->%list_elem_of_singleton; [constructor|apply stripeOf_range].
  - destruct (lockOrder_spec ids) as (H1 & H2 & H3). by apply begin_ok.
  - by eapply mutation_step_ok.
Qed.

(** * Exclusion, progress and termination *)

Lemma exclusion s t t' th th' id :
  coordinator_ok s -> mx_threads s !! t = Some th -> mx_threads s !! t' = Some th' -> inside th -> inside th' ->
  id ∈ th_ids th -> id ∈ th_ids th' -> t = t'.
Proof.
  intros [Ht Hl] Hth Hth' [Hr Hp] [Hr' Hp'] Hid Hid'.
  assert (forall u x, mx_threads s !! u = Some x -> th_ran x = false -> th_pending x = [] -> id ∈ th_ids x ->
            mx_stripes s !! stripeOf id = Some u) as Hown.
  { intros u x Hx Hrx Hpx Hix. apply Hl. exists x. split; [done|].
    destruct (to_covers x (Ht u x Hx) Hrx id Hix) as [|Hn]; [done|]. rewrite Hpx in Hn. set_solver. }
  pose proof (Hown t th Hth Hr Hp Hid). pose proof (Hown t' th' Hth' Hr' Hp' Hid'). congruence.
Qed.

Definition threadWork (th : Thread) : nat := 2 * length (th_pending th) + length (th_held th) + (if th_ran th then 0 else 1).
Definition work (s : MutationCoordinator) : nat := sum_list (threadWork <$> mx_threads s).

Lemma work_insert l t th th' :
  l !! t = Some th -> threadWork th = S (threadWork th') ->
  sum_list (threadWork <$> l) = S (sum_list (threadWork <$> <[t := th']> l)).
Proof.
  intros Hl E. revert t Hl. induction l as [|x l IH]; intros [|t] Hl; [done|done|..]; cbn in Hl.
  - injection Hl as ->. change (threadWork th + sum_list (threadWork <$> l) = S (threadWork th' + sum_list (threadWork <$> l)))%nat. lia.
  - specialize (IH t Hl).
    change (threadWork x + sum_list (threadWork <$> l) = S (threadWork x + sum_list (threadWork <$> <[t := th']> l)))%nat. lia.
Qed.

Lemma mutation_step_work s s' : mutation_step s s' -> work s = S (work s').
Proof.
  unfold work. intros [? t ids i rest held Hth _|? t ids held Hth|? t ids i held Hth]; cbn;
    (eapply work_insert; [exact Hth|]; unfold threadWork; cbn; lia).
Qed.

(** Following the chain of waiting threads, each waits for a higher stripe than the one before. *)
Lemma progress s t th : coordinator_ok s -> mx_threads s !! t = Some th -> ~ finished th -> exists s', mutation_step s s'.
Proof.
  intros [Ht Hl].
  assert (forall n t ids i rest held ran, mx_threads s !! t = Some (mkThread ids (i :: rest) held ran) ->
            mutationStripeCount - i <= Z.of_nat n -> exists s', mutation_step s s') as Hwait.
  { intros n. induction n as [|n IH]; intros u ids i rest held ran Hu Hn.
    { pose proof (to_range _ (Ht _ _ Hu) i ltac:(constructor)). lia. }
    destruct ran; [by pose proof (to_ran _ (Ht _ _ Hu) eq_refl)|].
    destruct (mx_stripes s !! i) as [v|] eqn:Ei; [|eexists; by eapply ms_lock].
    apply Hl in Ei as ([ids' [|j rest'] held' ran'] & Hv & Hin); cbn in Hin.
    - destruct ran'; [|eexists; by eapply ms_run]. destruct held' as [|k held']; [set_solver|]. eexists. by eapply ms_unlock.
    - pose proof (to_above _ (Ht _ _ Hv) i j Hin ltac:(constructor)). eapply (IH v); [exact Hv|lia]. }
  destruct th as [ids [|i rest] held ran]; intros Hth Hnf; [|by eapply (Hwait (Z.to_nat (mutationStripeCount - i))); [exact Hth|lia]].
  destruct ran; [|eexists; by eapply ms_run]. destruct held as [|k held]; [by destruct Hnf|]. eexists. by eapply ms_unlock.
Qed.

(** C34: Credential changes are serialised and never deadlock.  In every state the coordinator can
    reach, two calls that are about to run their functions share no credential; the calls that have
    begun can together make only a bounded number of steps; and when none of them can make a step,
    all of them have run their function and released every stripe. *)
Theorem mutations_complete s :
  coordinator_reach s ->
  (forall t t' th th' id, mx_threads s !! t = Some th -> mx_threads s !! t' = Some th' -> inside th -> inside th' ->
     id ∈ th_ids th -> id ∈ th_ids th' -> t = t')
  /\ (forall n s', nsteps mutation_step n s s' -> (n <= work s)%nat)
  /\ ((forall s', ~ mutation_step s s') -> Forall finished (mx_threads s) /\ mx_stripes s = ∅).
Proof.
  intros Hok%coordinator_reach_ok. split; [|split].
  - intros t t' th th' id. by apply exclusion.
  - intros n s' Hn. clear Hok. induction Hn as [s|n s1 s2 s3 Hs _ IH]; [lia|]. rewrite (mutation_step_work _ _ Hs). lia.
  - intros Hstuck.
    assert (forall t th, mx_threads s !! t = Some th -> finished th) as Hfin.
    { intros t th Hth. destruct (decide (th_ran th = true)) as [Hr|Hr]; [destruct (decide (th_held th = [])) as [Hh|Hh]; [done|]|];
        (destruct (progress s t th Hok Hth) as [s' Hs]; [by intros [? ?]|by destruct (Hstuck s')]). }
    split; [apply Forall_lookup; exact Hfin|]. apply map_empty. intros i. destruct (mx_stripes s !! i) as [t|] eqn:Ei; [|done].
    apply (co_locks s Hok) in Ei as (th & Hth & Hi). destruct (Hfin t th Hth) as [_ Hh]. rewrite Hh in Hi. set_solver.
Qed.

(** Two calls whose credentials share the stripe 1 while each needs another one. *)
Definition exContended : MutationCoordinator := mkCoordinator ∅ [DoMany [65; 2]; DoMany [2; 1; 66]].

Lemma mutations_complete_witness :
  th_pending <$> mx_threads exContended = [[1; 2]; [1; 2]] /\ coordinator_reach exContended
  /\ forall n s', nsteps mutation_step n exContended s' -> (n <= 10)%nat.
Proof.
  assert (coordinator_reach exContended) as Hr.
  { apply (mr_many (mkCoordinator ∅ [DoMany [65; 2]])). apply (mr_many NewMutationCoordinator). constructor. }
  split; [vm_compute; reflexivity|]. split; [exact Hr|]. apply (mutations_complete exContended Hr).
Defined.
