(* ===== verification/Upstream.v ===== *)
(** The outcome of one forwarded attempt as the gateway sees it ([internal/gateway]:
    [UpstreamResult] of [forward.go], the stream observation of [stream_observation.go], the
    contract normalisation and the judgement of [execution_boundary.go], the client-visible
    reasons of [reason.go] and [handler.go]).

    A Go [error] is what [errors.Is] and [errors.As] report of it, so that a wrapped error may be
    several things at once. *)
From S2P Require Import Prelude GoStrings Execution Judge.
From Stdlib Require Import Ascii.

Local Open Scope Z_scope.
Local Open Scope go_scope.

(** * Errors *)

Inductive streamFailureKind :=
| streamFailureUpstreamRead | streamFailureProtocol | streamFailureIdle | streamFailureDownstreamWrite
| streamFailureClientCanceled | streamFailureRedaction.

Record GoError := mkGoError {
  is_UpstreamProtocol : bool;
  is_Canceled : bool;
  is_DeadlineExceeded : bool;
  is_StreamIdleTimeout : bool;
  is_RedactionStream : bool;
  is_UnaryRestore : bool;
  (** [errors.As] to a [net.Error] whose [Timeout] is true. *)
  networkTimeout : bool;
  as_streamFailure : option streamFailureKind
}.

Definition plainError : GoError := mkGoError false false false false false false false None.
Definition protocolError : GoError := mkGoError true false false false false false false None.
Definition canceledError : GoError := mkGoError false true false false false false false None.
Definition deadlineError : GoError := mkGoError false false true false false false true None.

Definition errIs (f : GoError -> bool) (err : option GoError) : bool := from_option f false err.

(** The cancellation state of a request: [Err] of its context, and whether the cause is the
    server's shutdown. *)
Record ReqContext := mkReqContext { ctx_Err : option GoError; ctx_ServerShutdown : bool }.

Definition isTimeoutError (err : option GoError) : bool := errIs is_DeadlineExceeded err || errIs networkTimeout err.

(** * Streams *)

Inductive StreamEndReason :=
| StreamEndNone | StreamEndCleanEOF | StreamEndSSEError | StreamEndUpstreamTerminated | StreamEndUpstreamProtocolError
| StreamEndIdleTimeout | StreamEndDownstreamWriteFailure | StreamEndClientCanceled | StreamEndServerShutdown
| StreamEndProviderIncomplete | StreamEndRedactionFailed.

#[export] Instance streamEndReason_eq : EqDecision StreamEndReason.
Proof. solve_decision. Defined.

Record StreamObservation := mkStream { so_EndReason : StreamEndReason; so_ErrorSummary : string }.

Definition noStream : StreamObservation := mkStream StreamEndNone "".

Definition streamErrorCode (reason : StreamEndReason) : string :=
  match reason with
  | StreamEndCleanEOF | StreamEndNone => ""
  | StreamEndSSEError => "upstream_sse_error"
  | StreamEndUpstreamTerminated => "upstream_stream_terminated"
  | StreamEndUpstreamProtocolError => "upstream_protocol_error"
  | StreamEndIdleTimeout => "upstream_stream_idle_timeout"
  | StreamEndDownstreamWriteFailure => "downstream_write_failed"
  | StreamEndClientCanceled => "client_canceled"
  | StreamEndServerShutdown => "server_shutdown"
  | StreamEndProviderIncomplete => "upstream_response_incomplete"
  | StreamEndRedactionFailed => "response_redaction_failed"
  end.

Definition fixedErrorSummary (code : string) : string :=
  if strEq code "concurrency_limit_exceeded" then "Concurrency limit exceeded."
  else if strEq code "upstream_rate_limited" then "Upstream rate limited the request."
  else if strEq code "upstream_model_unavailable" then "The requested upstream model is unavailable."
  else if strEq code "upstream_invalid_key" then "The upstream credential was rejected."
  else if strEq code "upstream_authentication_required" then "The upstream credential requires authentication."
  else if strEq code "upstream_host_error" then "The upstream service returned a server error."
  else if strEq code "upstream_client_error" then "The upstream service rejected the request."
  else if strEq code "upstream_connect_failed" then "Could not connect to an upstream service."
  else if strEq code "upstream_timeout" then "Upstream request timed out."
  else if strEq code "upstream_protocol_error" then "Upstream returned an unsupported response."
  else if strEq code "protocol_conversion_unsupported" then "No upstream target could preserve or convert the request."
  else if strEq code "upstream_sse_error" then "Upstream stream reported an error."
  else if strEq code "upstream_stream_terminated" then "Upstream stream terminated before completion."
  else if strEq code "upstream_stream_idle_timeout" then "Upstream stream timed out while idle."
  else if strEq code EmptyResponseCode then "Upstream completed without producing any content."
  else if strEq code "downstream_write_failed" then "The downstream response could not be completed."
  else if strEq code "internal_error" then "The request failed due to an internal error."
  else if strEq code "client_canceled" then "The client canceled the request."
  else if strEq code "server_shutdown" then "The server canceled the request during shutdown."
  else "Upstream request failed.".

Definition streamTerminalObservation (reason : StreamEndReason) : StreamObservation :=
  mkStream reason (fixedErrorSummary (streamErrorCode reason)).

Definition streamFailureReason (kind : streamFailureKind) : StreamEndReason :=
  match kind with
  | streamFailureClientCanceled => StreamEndClientCanceled
  | streamFailureDownstreamWrite => StreamEndDownstreamWriteFailure
  | streamFailureIdle => StreamEndIdleTimeout
  | streamFailureProtocol => StreamEndUpstreamProtocolError
  | streamFailureUpstreamRead => StreamEndUpstreamTerminated
  | streamFailureRedaction => StreamEndRedactionFailed
  end.

(** [ctx] is [None] for a nil context. *)
Definition prioritizeStreamObservation (ctx : option ReqContext) (err : option GoError) (observation : StreamObservation)
  : StreamObservation :=
  if from_option ctx_ServerShutdown false ctx then streamTerminalObservation StreamEndServerShutdown
  else if isSome (ctx ≫= ctx_Err) || errIs is_Canceled err then streamTerminalObservation StreamEndClientCanceled
  else match err ≫= as_streamFailure with
  | Some kind => streamTerminalObservation (streamFailureReason kind)
  | None =>
      if errIs is_UpstreamProtocol err then streamTerminalObservation StreamEndUpstreamProtocolError
      else if errIs is_StreamIdleTimeout err then streamTerminalObservation StreamEndIdleTimeout
      else if isSome err then streamTerminalObservation StreamEndUpstreamTerminated
      else if negb (bool_decide (so_EndReason observation = StreamEndNone)) then observation
      else mkStream StreamEndCleanEOF ""
  end.

(** * Results *)

Record UpstreamResult := mkResult {
  ur_StatusCode : Z;
  ur_Header : Header;
  ur_Body : list ascii;
  ur_ErrorSummary : string;
  ur_Err : option GoError;
  ur_RequestWritten : bool;
  ur_Committed : bool;
  ur_ProviderErrorBeforeCommit : bool;
  ur_EmptyResponseBeforeCommit : bool;
  ur_Stream : StreamObservation;
  ur_DispatchState : DispatchState;
  ur_ResponseStarted : bool;
  ur_ExecutionError : option ErrorEvidence
}.

Definition HasResponse (r : UpstreamResult) : bool := negb (ur_StatusCode r =? 0) && negb (isSome (ur_Err r)).

Definition success (r : UpstreamResult) : bool := (200 <=? ur_StatusCode r) && (ur_StatusCode r <? 300).

(** Evidence with the fields the gateway sets. *)
Definition localEvidence (kind : ErrorKind) (origin : ErrorOrigin) (scope : ErrorScope) (statusCode : Z)
    (code summary : string) (safety : ReplaySafety) : ErrorEvidence :=
  mkEvidence kind "" origin scope statusCode "" code summary "" 0 safety ∅.

Definition normalizeUpstreamResultContract (r : UpstreamResult) : UpstreamResult :=
  if dispatchValid (ur_DispatchState r) then r
  else
    let dispatchState :=
      if strEq (ur_DispatchState r) DispatchLocal then DispatchLocal
      else if strEq (ur_DispatchState r) DispatchMaybeSent || ur_RequestWritten r || ur_Committed r || ur_ResponseStarted r
              || negb (ur_StatusCode r =? 0) || negb (bool_decide (ur_Header r = ∅)) || negb (bool_decide (ur_Body r = []))
      then DispatchMaybeSent else DispatchNotSent in
    let evidence := localEvidence ErrorKindInternal ErrorOriginInternal ErrorScopeRequest 0 "attempt_result_contract_invalid"
                      "Attempt forwarder returned an invalid result." ReplaySafetyUnknown in
    mkResult 0 ∅ [] (ee_Summary evidence) (Some protocolError) (strEq dispatchState DispatchMaybeSent) (ur_Committed r)
      false false (if ur_Committed r then streamTerminalObservation StreamEndUpstreamProtocolError else noStream)
      dispatchState false (Some evidence).

(** * Judgement *)

Definition upstreamEvidence (kind : ErrorKind) (r : UpstreamResult) (code summary : string) : ErrorEvidence :=
  localEvidence kind ErrorOriginUpstream ErrorScopeRequest (ur_StatusCode r) code summary "".

(** The evidence to judge and the error of the downstream side. *)
Definition decisionEvidence (r : UpstreamResult) : option ErrorEvidence * option GoError :=
  let summary := if strEq (so_ErrorSummary (ur_Stream r)) ""
                 then fixedErrorSummary (streamErrorCode (so_EndReason (ur_Stream r))) else so_ErrorSummary (ur_Stream r) in
  match so_EndReason (ur_Stream r) with
  | StreamEndNone =>
      if negb (isSome (ur_ExecutionError r)) && errIs is_UpstreamProtocol (ur_Err r)
      then (Some (upstreamEvidence ErrorKindProvider r "upstream_protocol_error" (fixedErrorSummary "upstream_protocol_error")), None)
      else (ur_ExecutionError r, ur_Err r)
  | StreamEndCleanEOF => (None, None)
  | StreamEndProviderIncomplete => (Some (upstreamEvidence ErrorKindProvider r "upstream_response_incomplete" summary), None)
  | StreamEndSSEError =>
      (Some (default (upstreamEvidence ErrorKindProvider r "upstream_sse_error" summary) (ur_ExecutionError r)), None)
  | StreamEndUpstreamTerminated => (Some (upstreamEvidence ErrorKindTransport r "upstream_stream_terminated" summary), None)
  | StreamEndUpstreamProtocolError => (Some (upstreamEvidence ErrorKindProvider r "upstream_protocol_error" summary), None)
  | StreamEndRedactionFailed =>
      (Some (localEvidence ErrorKindInternal ErrorOriginInternal ErrorScopeRequest (ur_StatusCode r)
               "response_redaction_failed" "Response content could not be restored safely." ReplaySafetyUnknown), None)
  | StreamEndIdleTimeout => (Some (upstreamEvidence ErrorKindTimeout r "upstream_stream_idle_timeout" summary), None)
  | StreamEndDownstreamWriteFailure => (ur_ExecutionError r, Some plainError)
  | StreamEndClientCanceled | StreamEndServerShutdown => (ur_ExecutionError r, Some canceledError)
  end.

Definition downstreamOf (err : option GoError) : DownstreamError :=
  match err with
  | None => DownstreamNone
  | Some e => if is_Canceled e then DownstreamCanceled
              else if is_DeadlineExceeded e then DownstreamDeadlineExceeded else DownstreamOther
  end.

Definition attemptOf (r : UpstreamResult) (now : Z) : ExecutionAttempt :=
  let '(evidence, downstreamErr) := decisionEvidence r in
  let downstreamErr :=
    if isSome evidence && negb (ur_Committed r) && negb (errIs is_Canceled (ur_Err r))
       && negb (errIs is_DeadlineExceeded (ur_Err r)) then None else downstreamErr in
  mkAttempt (ur_DispatchState r) (ur_StatusCode r) (ur_Header r) evidence (ur_Committed r) (downstreamOf downstreamErr) now.

Section judgement.
Context `{GoText}.

Definition judgeUpstreamResult (r : UpstreamResult) (now : Z) (cx : DecisionContext) : Decision_ :=
  let d := JudgeExecution (attemptOf r now) cx in
  if (strEq (cx_Operation cx) OperationWebSearch || strEq (cx_Operation cx) OperationLiveCall)
     && negb (strEq (d_Effect d) EffectSkipGroup)
     && negb (bool_decide (d_Category d = FailureCategoryAuthenticationRequired))
     && negb (bool_decide (d_Category d = FailureCategoryInvalidKey))
  then withEffect EffectNone 0 d else d.
End judgement.

(** * Reasons *)

Record reason := mkReason { rs_Status : Z; rs_Code : string; rs_Message : string }.

Definition reasonModelRequiredByFilter : reason := mkReason 400 "model_required_by_filter" "A model is required by the access key filter.".
Definition reasonInvalidProtocolRequest : reason := mkReason 400 "invalid_protocol_request" "Invalid protocol request.".
Definition reasonNoCandidate : reason := mkReason 503 "no_available_candidate" "No available upstream candidate.".
Definition reasonUpstreamRateLimited : reason := mkReason 429 "upstream_rate_limited" "Upstream rate limit exceeded.".
Definition reasonUpstreamConnect : reason := mkReason 502 "upstream_connect_failed" "Could not connect to an upstream service.".
Definition reasonUpstreamTimeout : reason := mkReason 504 "upstream_timeout" "Upstream request timed out.".
Definition reasonUpstreamProtocol : reason := mkReason 502 "upstream_protocol_error" "Upstream returned an unsupported response.".
Definition reasonResponseRedactionFailed : reason :=
  mkReason 502 "response_redaction_failed" "Response content could not be restored safely.".
Definition reasonRedactionFailed : reason :=
  mkReason 400 "request_redaction_failed" "Request content could not be redacted safely.".
Definition reasonProtocolConversionUnsupported : reason :=
  mkReason 422 "protocol_conversion_unsupported" "No upstream target could preserve or convert the request.".
Definition reasonRequestTooLarge : reason := mkReason 413 "request_too_large" "Request body is too large.".
Definition reasonParameterOverrideUnavailable : reason :=
  mkReason 503 "parameter_override_unavailable" "No upstream candidate could apply the configured parameter overrides.".

Definition isConversionUnsupportedResult (r : UpstreamResult) : bool :=
  strEq (ur_DispatchState r) DispatchNotSent
  && match ur_ExecutionError r with Some e => strEq (ee_Kind e) ErrorKindConversionUnsupported | None => false end.

Definition transportReason (r : UpstreamResult) : reason :=
  if isConversionUnsupportedResult r then reasonProtocolConversionUnsupported
  else if strEq (ur_DispatchState r) DispatchNotSent
          && match ur_ExecutionError r with Some e => strEq (ee_Kind e) ErrorKindInvalidRequest | None => false end
  then reasonInvalidProtocolRequest
  else if errIs is_UpstreamProtocol (ur_Err r) then reasonUpstreamProtocol
  else if errIs is_RedactionStream (ur_Err r) || errIs is_UnaryRestore (ur_Err r) then reasonResponseRedactionFailed
  else if isTimeoutError (ur_Err r) then reasonUpstreamTimeout
  else reasonUpstreamConnect.

Definition providerErrorReason (r : UpstreamResult) : reason :=
  if match ur_ExecutionError r with Some e => strEq (ee_Hint e) FailureHintRateLimited | None => false end
  then reasonUpstreamRateLimited else reasonUpstreamProtocol.
