(* ===== verification/Effects.v ===== *)
(** Applying a decision to the credentials' health ([internal/gateway/handler.go]:
    [applyDecisionEffectWithBlacklistPolicy], [recordCredentialSuccess],
    [mutateCredentialForTarget]) over the credential registry and the statistics store.

    [mutateCredentialForTarget] runs its callback under the credential's mutation lock, which
    configuration changes of the credential take too, so the check of the target and the
    mutation are one step here.  The logging of changes has no counterpart. *)
From S2P Require Import Prelude GoStrings Execution Judge HealthStats Config Credential Ledger Fair FairShare Registry RegistryInvariant RegistryReach RegistryGroups RegistrySafety RegistryProps Upstream.

Local Open Scope Z_scope.
Local Open Scope go_scope.

Record Health := mkHealth { hs_registry : CredentialRegistry; hs_stats : StatsStore }.

(** The result is attributed only while the credential still has the group and the identity
    the attempt used; a refreshed token of the same identity does not matter. *)
Definition mutateCredentialForTarget (h : Health) (ref : CredentialRef) (mutate : Health -> Health) : Health :=
  match CredentialRefOf (hs_registry h) (ref_ID ref) with
  | None => h
  | Some current =>
      if negb (ref_GroupID current =? ref_GroupID ref)
         || negb (ref_IdentityGeneration current =? ref_IdentityGeneration ref) then h
      else mutate h
  end.

Definition cooldownModel (ref : CredentialRef) (d : Decision_) (statusCode attemptNow : Z) (model : string) (h : Health) : Health :=
  let '(r, (accepted, _)) := SetModelCooldown (hs_registry h) ref model (d_CooldownUntil d) attemptNow in
  mkHealth r (if accepted then RecordProblem (hs_stats h) (ref_ID ref) (d_Category d) statusCode attemptNow else hs_stats h).

Definition cooldownCredential (ref : CredentialRef) (credentialVersion : Z) (d : Decision_) (statusCode attemptNow clock : Z)
    (h : Health) : Health :=
  let '(r, (exists_, _)) :=
    if credentialVersion =? 0
    then SetCooldownWithChange (hs_registry h) (ref_ID ref) (d_CooldownUntil d) clock
    else SetCooldownWithChangeIfVersion (hs_registry h) (ref_ID ref) credentialVersion (d_CooldownUntil d) clock in
  mkHealth r (if exists_ then RecordProblem (hs_stats h) (ref_ID ref) (d_Category d) statusCode attemptNow else hs_stats h).

Definition recordFailure (ref : CredentialRef) (d : Decision_) (statusCode attemptNow blacklistThreshold clock : Z)
    (h : Health) : Health :=
  let '(r, (count, ok)) := IncrFailure (hs_registry h) (ref_ID ref) in
  if negb ok then mkHealth r (hs_stats h)
  else
    let recorded r := mkHealth r (RecordFailure (hs_stats h) (ref_ID ref) (d_Category d) statusCode attemptNow) in
    if (0 <? blacklistThreshold) && (blacklistThreshold <=? count) then
      let '(r, (exists_, _)) := SetBlacklistedWithChange r (ref_ID ref) clock in
      if negb exists_ then mkHealth r (hs_stats h) else recorded r
    else recorded r.

(** [clock] is the registry's own reading of the time, [attemptNow] the handler's. *)
Definition applyDecisionEffectWithBlacklistPolicy (h : Health) (ref : CredentialRef) (credentialVersion : Z) (d : Decision_)
    (statusCode attemptNow blacklistThreshold : Z) (model : string) (clock : Z) : Health :=
  if strEq (d_Effect d) EffectCooldownModel then
    mutateCredentialForTarget h ref (cooldownModel ref d statusCode attemptNow model)
  else if strEq (d_Effect d) EffectCooldownCredential then
    mutateCredentialForTarget h ref (cooldownCredential ref credentialVersion d statusCode attemptNow clock)
  else if strEq (d_Effect d) EffectRecordCredentialFailure then
    mutateCredentialForTarget h ref (recordFailure ref d statusCode attemptNow blacklistThreshold clock)
  else h.

Definition applyGroupDecisionEffect (h : Health) (group : GroupView) (ref : CredentialRef) (credentialVersion : Z) (d : Decision_)
    (statusCode attemptNow : Z) (model : string) (clock : Z) : Health :=
  applyDecisionEffectWithBlacklistPolicy h ref credentialVersion d statusCode attemptNow (gv_BlacklistThreshold group) model clock.

Definition succeed (ref : CredentialRef) (at_ : Z) (h : Health) : Health :=
  let '(r, ok) := ClearFailure (hs_registry h) (ref_ID ref) in
  mkHealth r (if ok then RecordSuccess (hs_stats h) (ref_ID ref) at_ else hs_stats h).

Definition recordCredentialSuccess (h : Health) (ref : CredentialRef) (at_ : Z) : Health :=
  mutateCredentialForTarget h ref (succeed ref at_).

Definition refreshCooldownCredentialVersion (r : UpstreamResult) (credentialVersion : Z) : Z :=
  if strEq (ur_DispatchState r) DispatchNotSent
     && match ur_ExecutionError r with Some e => strEq (ee_Hint e) FailureHintRefreshUnavailable | None => false end
  then credentialVersion else 0.

(** [int] is 64 bits wide. *)
Definition retryAttemptLimit (retryCount : Z) : Z :=
  if retryCount <=? 0 then 1 else if maxInt64 <=? retryCount then maxInt64 else retryCount + 1.

(** * What an effect reaches

    What judging an attempt does to the credentials: results are attributed to the credential
    they belong to and to nothing else, and consecutive failures blacklist at the threshold. *)

(** * Attribution *)

(** Everything about the credentials other than [id] is the same. *)
Definition unchanged_except (id : Z) (h h' : Health) : Prop :=
  forall i, i <> id -> entryLocked (hs_registry h') i = entryLocked (hs_registry h) i /\ hs_stats h' !! i = hs_stats h !! i.

Lemma unchanged_refl id h : unchanged_except id h h.
Proof. by intros i. Qed.

Lemma record_other s id ev c st t i : i <> id -> record s id ev c st t !! i = s !! i.
Proof. intros Hi. unfold record. case_if; [done|]. by rewrite lookup_insert_ne. Qed.

Lemma entryLocked_sync e now r i : entryLocked (syncEntry e now r) i = entryLocked r i.
Proof. done. Qed.

Lemma mutate_other r id e e' i :
  registry_ok r -> entryLocked r id = Some e -> sameIdentity e' e -> i <> id -> entryLocked (mutate id e' r) i = entryLocked r i.
Proof. intros Hok He Hs Hi. rewrite (entryLocked_mutate r id e e' i) by done. by rewrite decide_False. Qed.

(** A registry method that looks at one entry and replaces at most that one. *)
Ltac solve_other :=
  match goal with
  | |- context [entryLocked ?r ?id] =>
      destruct (entryLocked r id) as [?|] eqn:?; [|done]; repeat case_if; cbn [fst snd]; try done;
      rewrite ?entryLocked_sync; eapply mutate_other; eauto with gohints
  end.

Section other.
Context (r : CredentialRegistry) (Hok : registry_ok r) (id i : Z) (Hi : i <> id).

Lemma SetCooldownWithChange_other t now : entryLocked (SetCooldownWithChange r id t now).1 i = entryLocked r i.
Proof using Hok Hi. unfold SetCooldownWithChange. solve_other. Qed.
Lemma SetCooldownIfVersion_other v t now : entryLocked (SetCooldownWithChangeIfVersion r id v t now).1 i = entryLocked r i.
Proof using Hok Hi. unfold SetCooldownWithChangeIfVersion. solve_other. Qed.
Lemma IncrFailure_other : entryLocked (IncrFailure r id).1 i = entryLocked r i.
Proof using Hok Hi. unfold IncrFailure. solve_other. Qed.
Lemma SetBlacklisted_other now : entryLocked (SetBlacklistedWithChange r id now).1 i = entryLocked r i.
Proof using Hok Hi. unfold SetBlacklistedWithChange. solve_other. Qed.
Lemma ClearFailure_other : entryLocked (ClearFailure r id).1 i = entryLocked r i.
Proof using Hok Hi. unfold ClearFailure. solve_other. Qed.
End other.

Lemma SetModelCooldown_other r ref m t now i :
  registry_ok r -> i <> ref_ID ref -> entryLocked (SetModelCooldown r ref m t now).1 i = entryLocked r i.
Proof. intros Hok Hi. unfold SetModelCooldown. case_if; [done|]. solve_other. Qed.

(** What the handler reports about one attempt. *)
Inductive HealthEvent :=
| Judged (credentialVersion : Z) (d : Decision_) (statusCode attemptNow threshold : Z) (model : string) (clock : Z)
| Succeeded (at_ : Z).

Definition applyEvent (ref : CredentialRef) (h : Health) (ev : HealthEvent) : Health :=
  match ev with
  | Judged version d statusCode attemptNow threshold model clock =>
      applyDecisionEffectWithBlacklistPolicy h ref version d statusCode attemptNow threshold model clock
  | Succeeded t => recordCredentialSuccess h ref t
  end.

(** The credential the attempt used is still the current one. *)
Definition current_target (h : Health) (ref : CredentialRef) : Prop :=
  exists e, entryLocked (hs_registry h) (ref_ID ref) = Some e /\ ent_GroupID e = ref_GroupID ref
    /\ ent_IdentityGeneration e = ref_IdentityGeneration ref.

Lemma mutate_stale h ref f : ~ current_target h ref -> mutateCredentialForTarget h ref f = h.
Proof.
  intros Hs. unfold mutateCredentialForTarget, CredentialRefOf.
  destruct (entryLocked (hs_registry h) (ref_ID ref)) as [e|] eqn:He; [|done]. cbn. case_if; [done|].
  destruct Hs. exists e. zb. done.
Qed.

Lemma mutate_current h ref f : current_target h ref -> mutateCredentialForTarget h ref f = f h.
Proof.
  intros (e & He & Hg & Hi). unfold mutateCredentialForTarget, CredentialRefOf. rewrite He. cbn.
  by rewrite Hg, Hi, !Z.eqb_refl.
Qed.

Lemma mutate_inv (P : Health -> Prop) h ref f : P h -> P (f h) -> P (mutateCredentialForTarget h ref f).
Proof. intros H1 H2. unfold mutateCredentialForTarget. destruct (CredentialRefOf _ _); [|done]. by case_if. Qed.

Definition kept (id : Z) (h h' : Health) : Prop := registry_ok (hs_registry h') /\ unchanged_except id h h'.

Section keeps.
Context (h : Health) (Hok : registry_ok (hs_registry h)) (ref : CredentialRef).

Lemma cooldownModel_kept d st t m : kept (ref_ID ref) h (cooldownModel ref d st t m h).
Proof using Hok.
  unfold cooldownModel. pose proof (SetModelCooldown_ok _ Hok ref m (d_CooldownUntil d) t) as H1.
  pose proof (fun i => SetModelCooldown_other _ ref m (d_CooldownUntil d) t i Hok) as H2.
  destruct (SetModelCooldown _ _ _ _ _) as [r [a b]]. split; [done|]. intros i Hi. cbn. split; [by apply H2|].
  destruct a; [by apply record_other|done].
Qed.

Lemma cooldownCredential_kept v d st t c : kept (ref_ID ref) h (cooldownCredential ref v d st t c h).
Proof using Hok.
  unfold cooldownCredential. set (op := if v =? 0 then _ else _).
  assert (registry_ok op.1) as H1.
  { subst op. case_if; [by apply SetCooldownWithChange_ok|by apply SetCooldownWithChangeIfVersion_ok]. }
  assert (forall i, i <> ref_ID ref -> entryLocked op.1 i = entryLocked (hs_registry h) i) as H2.
  { intros i Hi. subst op. case_if; [by apply SetCooldownWithChange_other|by apply SetCooldownIfVersion_other]. }
  destruct op as [r [a b]]. split; [done|]. intros i Hi. cbn. split; [by apply H2|]. destruct a; [by apply record_other|done].
Qed.

Lemma recordFailure_kept d st t n c : kept (ref_ID ref) h (recordFailure ref d st t n c h).
Proof using Hok.
  unfold recordFailure. pose proof (IncrFailure_ok _ Hok (ref_ID ref)) as H1.
  pose proof (fun i Hi => IncrFailure_other _ Hok (ref_ID ref) i Hi) as H2.
  destruct (IncrFailure _ _) as [r [count ok]]. cbn [fst] in *.
  destruct ok; cbn [negb]; [|split; [done|]; intros i Hi; split; [by apply H2|done]].
  case_if; [|split; [done|]; intros i Hi; split; [by apply H2|by apply record_other]].
  pose proof (SetBlacklistedWithChange_ok _ H1 (ref_ID ref) c) as H3.
  pose proof (fun i Hi => SetBlacklisted_other _ H1 (ref_ID ref) i Hi c) as H4.
  destruct (SetBlacklistedWithChange _ _ _) as [r' [e b]]. cbn [fst] in *.
  destruct e; cbn [negb]; (split; [done|]); intros i Hi; cbn; (split; [by rewrite H4, H2|]); [by apply record_other|done].
Qed.

Lemma succeed_kept t : kept (ref_ID ref) h (succeed ref t h).
Proof using Hok.
  unfold succeed. pose proof (ClearFailure_ok _ Hok (ref_ID ref)) as H1.
  pose proof (fun i Hi => ClearFailure_other _ Hok (ref_ID ref) i Hi) as H2.
  destruct (ClearFailure _ _) as [r ok]. split; [done|]. intros i Hi. cbn. split; [by apply H2|].
  destruct ok; [by apply record_other|done].
Qed.
End keeps.

Lemma applyEvent_kept ref h ev : registry_ok (hs_registry h) -> kept (ref_ID ref) h (applyEvent ref h ev).
Proof.
  intros Hok. assert (kept (ref_ID ref) h h) as Hrefl by (split; [done|apply unchanged_refl]).
  destruct ev as [v d st t n m c|t]; cbn [applyEvent].
  - unfold applyDecisionEffectWithBlacklistPolicy. repeat case_if; [..|done]; apply (mutate_inv (kept (ref_ID ref) h)); try done;
      [by apply cooldownModel_kept|by apply cooldownCredential_kept|by apply recordFailure_kept].
  - apply (mutate_inv (kept (ref_ID ref) h)); [done|by apply succeed_kept].
Qed.

(** C8: Results are attributed to the credential they belong to.  Whatever a decision asks for,
    applying it keeps the registry's invariant and leaves every other credential's entry and
    statistics alone; and a result whose credential was meanwhile deleted, moved to another
    group or given a new identity changes nothing at all. *)
Theorem effects_attributed ref h ev :
  registry_ok (hs_registry h) ->
  registry_ok (hs_registry (applyEvent ref h ev)) /\ unchanged_except (ref_ID ref) h (applyEvent ref h ev)
  /\ (~ current_target h ref -> applyEvent ref h ev = h).
Proof.
  intros Hok. destruct (applyEvent_kept ref h ev Hok) as [H1 H2]. split; [done|]. split; [done|]. intros Hs.
  destruct ev as [v d st t n m c|t]; cbn [applyEvent]; [|by apply mutate_stale].
  unfold applyDecisionEffectWithBlacklistPolicy. repeat case_if; try done; by apply mutate_stale.
Qed.

(** * Consecutive failures *)

(** A credential failure judged under blacklist threshold [n], or a success. *)
Definition countedEvent (n : Z) (ev : HealthEvent) : Prop :=
  match ev with
  | Judged _ d _ _ threshold _ _ => d_Effect d = EffectRecordCredentialFailure /\ threshold = n
  | Succeeded _ => True
  end.

(** The current run of failures, and whether a run has reached [n]. *)
Definition streakStep (n : Z) (acc : Z * bool) (ev : HealthEvent) : Z * bool :=
  match ev with
  | Judged _ _ _ _ _ _ _ => (acc.1 + 1, acc.2 || (n <=? acc.1 + 1))
  | Succeeded _ => (0, acc.2)
  end.

Definition failureState (e : CredentialEntry) : Z * bool := (ent_FailureCount e, ent_Blacklisted e).

Lemma IncrFailure_at r id e :
  registry_ok r -> entryLocked r id = Some e ->
  exists e', entryLocked (IncrFailure r id).1 id = Some e' /\ sameIdentity e' e
    /\ ent_FailureCount e' = i64 (ent_FailureCount e + 1) /\ ent_Blacklisted e' = ent_Blacklisted e
    /\ (IncrFailure r id).2 = (i64 (ent_FailureCount e + 1), true).
Proof.
  intros Hok He. unfold IncrFailure. rewrite He. cbn [fst snd].
  eexists. rewrite (entryLocked_mutate r id e) by (done || by destruct e). rewrite decide_True by done.
  split; [done|]. by destruct e.
Qed.

Lemma SetBlacklisted_at r id e now :
  registry_ok r -> entryLocked r id = Some e ->
  exists e', entryLocked (SetBlacklistedWithChange r id now).1 id = Some e' /\ sameIdentity e' e
    /\ ent_FailureCount e' = ent_FailureCount e /\ ent_Blacklisted e' = true
    /\ exists changed, (SetBlacklistedWithChange r id now).2 = (true, changed).
Proof.
  intros Hok He. unfold SetBlacklistedWithChange. rewrite He. destruct (ent_Blacklisted e) eqn:Eb; cbn [fst snd].
  - exists e. split; [done|]. split; [done|]. eauto.
  - eexists. rewrite entryLocked_sync, (entryLocked_mutate r id e) by (done || by destruct e). rewrite decide_True by done.
    split; [done|]. destruct e. cbn. split; [done|]. eauto.
Qed.

Lemma counted_step ref h e n ev :
  registry_ok (hs_registry h) -> 0 < n -> countedEvent n ev ->
  entryLocked (hs_registry h) (ref_ID ref) = Some e -> ent_GroupID e = ref_GroupID ref ->
  ent_IdentityGeneration e = ref_IdentityGeneration ref -> 0 <= ent_FailureCount e < maxInt64 ->
  exists e', entryLocked (hs_registry (applyEvent ref h ev)) (ref_ID ref) = Some e' /\ sameIdentity e' e
    /\ failureState e' = streakStep n (failureState e) ev.
Proof.
  intros Hok Hn Hev He Hg Hi Hc. assert (current_target h ref) as Hcur by (exists e; done).
  destruct ev as [v d st t n' m c|t]; cbn [applyEvent].
  - destruct Hev as [Ed ->]. unfold applyDecisionEffectWithBlacklistPolicy. rewrite Ed.
    change (strEq EffectRecordCredentialFailure EffectCooldownModel) with false.
    change (strEq EffectRecordCredentialFailure EffectCooldownCredential) with false.
    change (strEq EffectRecordCredentialFailure EffectRecordCredentialFailure) with true. cbn iota.
    rewrite mutate_current by done. unfold recordFailure.
    destruct (IncrFailure_at _ _ _ Hok He) as (e1 & He1 & Hs1 & Ec1 & Eb1 & Er1).
    pose proof (IncrFailure_ok _ Hok (ref_ID ref)) as Hok1.
    destruct (IncrFailure _ _) as [r1 [count ok]]. cbn [fst snd] in *. injection Er1 as -> ->. cbn [negb].
    assert (i64 (ent_FailureCount e + 1) = ent_FailureCount e + 1) as Ei by (clear - Hc; unfold_ints; rewrite Z.mod_small; lia).
    rewrite Ei in *. rewrite (proj2 (Z.ltb_lt 0 n) Hn). cbn [andb]. unfold streakStep, failureState. cbn [fst snd].
    destruct (Z.leb_spec n (ent_FailureCount e + 1)).
    + destruct (SetBlacklisted_at _ _ _ c Hok1 He1) as (e2 & He2 & Hs2 & Ec2 & Eb2 & changed & Er2).
      destruct (SetBlacklistedWithChange _ _ _) as [r2 [x y]]. cbn [fst snd] in *. injection Er2 as -> ->. cbn [negb hs_registry].
      exists e2. split; [done|]. split; [by transitivity e1|]. rewrite Ec2, Eb2, Ec1, orb_true_r. done.
    + exists e1. split; [done|]. split; [done|]. rewrite Ec1, Eb1, orb_false_r. done.
  - unfold recordCredentialSuccess. rewrite mutate_current by done. unfold succeed, ClearFailure. rewrite He.
    destruct (Z.eqb_spec (ent_FailureCount e) 0) as [Ez|Ez]; cbn [negb hs_registry].
    + exists e. split; [done|]. split; [done|]. unfold failureState, streakStep. cbn. by rewrite Ez.
    + eexists. rewrite (entryLocked_mutate _ _ e) by (done || by destruct e). rewrite decide_True by done.
      split; [done|]. by destruct e.
Qed.

(** A credential is blacklisted exactly when it fails often enough in a row.  Over any
    sequence of failures and successes reported for the credential in its current group and
    identity, the stored count is the length of the current run of failures, and the credential
    is blacklisted from the first moment a run reaches the threshold; successes end a run, and do
    not lift the blacklist. *)
Theorem blacklist_exact ref h e n evs :
  registry_ok (hs_registry h) -> 0 < n -> Forall (countedEvent n) evs ->
  entryLocked (hs_registry h) (ref_ID ref) = Some e -> ent_GroupID e = ref_GroupID ref ->
  ent_IdentityGeneration e = ref_IdentityGeneration ref ->
  0 <= ent_FailureCount e -> ent_FailureCount e + Z.of_nat (length evs) <= maxInt64 ->
  exists e', entryLocked (hs_registry (fold_left (applyEvent ref) evs h)) (ref_ID ref) = Some e'
    /\ (ent_FailureCount e', ent_Blacklisted e') = fold_left (streakStep n) evs (ent_FailureCount e, ent_Blacklisted e).
Proof.
  intros Hok Hn Hevs He Hg Hi Hc Hroom. revert h e Hok He Hg Hi Hc Hroom.
  induction Hevs as [|ev evs Hev _ IH]; intros h e Hok He Hg Hi Hc Hroom; cbn [fold_left]; [by exists e|].
  cbn [length] in Hroom. destruct (counted_step ref h e n ev Hok Hn Hev He Hg Hi) as (e1 & He1 & (_ & Eg1 & Ei1) & Es1); [lia|].
  destruct (applyEvent_kept ref h ev Hok) as [Hok1 _].
  assert (0 <= ent_FailureCount e1 <= ent_FailureCount e + 1) as Hb.
  { apply (f_equal fst) in Es1. cbn in Es1. rewrite Es1. destruct ev; cbn; lia. }
  destruct (IH (applyEvent ref h ev) e1) as (e' & He' & Es'); [done|done|congruence|congruence|lia|lia|].
  exists e'. split; [done|]. rewrite Es'. f_equal. exact Es1.
Qed.

(** * Concrete reports about credential 1 *)

Definition exRef : CredentialRef := mkRef "" 1 7 1 1 "fp" "secret" "" "" 0 0.
Definition exHealth : Health := mkHealth exRegistry NewStatsStore.
Definition exFailure : HealthEvent :=
  Judged 0 (mkDecision FailureCategoryInvalidKey ErrorOriginUpstream ErrorScopeCredential RetryNextCandidate
              EffectRecordCredentialFailure 0 "rule") 401 9 2 "m" 9.

Lemma effects_attributed_witness :
  unchanged_except 1 exHealth (applyEvent exRef exHealth exFailure)
  /\ cs_Failure (statsSnapshot (hs_stats (applyEvent exRef exHealth exFailure)) 1 9) = 1.
Proof.
  split; [|vm_compute; reflexivity].
  apply (effects_attributed exRef exHealth exFailure exRegistry_ok).
Defined.

Lemma blacklist_exact_witness :
  match entryLocked exRegistry 1 with
  | Some e =>
      fold_left (streakStep 2) [exFailure; Succeeded 10; exFailure; exFailure] (ent_FailureCount e, ent_Blacklisted e) = (2, true)
      /\ exists e', entryLocked (hs_registry (fold_left (applyEvent exRef) [exFailure; Succeeded 10; exFailure; exFailure] exHealth)) 1 = Some e'
           /\ (ent_FailureCount e', ent_Blacklisted e') = (2, true)
  | None => False
  end.
Proof.
  destruct (entryLocked exRegistry 1) as [e|] eqn:He; [|vm_compute in He; discriminate He].
  assert (fold_left (streakStep 2) [exFailure; Succeeded 10; exFailure; exFailure] (ent_FailureCount e, ent_Blacklisted e) = (2, true)) as Hs
    by (vm_compute in He; injection He as <-; reflexivity).
  split; [exact Hs|]. rewrite <- Hs.
  apply (blacklist_exact exRef exHealth e 2 [exFailure; Succeeded 10; exFailure; exFailure]).
  - exact exRegistry_ok.
  - lia.
  - repeat constructor.
  - exact He.
  - vm_compute in He. injection He as <-. reflexivity.
  - vm_compute in He. injection He as <-. reflexivity.
  - vm_compute in He. injection He as <-. vm_compute. discriminate.
  - vm_compute in He. injection He as <-. vm_compute. discriminate.
Defined.
