(* ===== verification/Attempts.v ===== *)
(** The failover loop of one request ([executeAttempts] of [internal/gateway/handler.go]).

    One iteration of the loop is the function [turn].  What the loop learns from code that is not
    modelled (preparing and auditing the request, decrypting the credential, the forwarder, the
    client's connection) is a value of [Turn]; what other requests and the administration do to
    the credentials in the meantime is in its fields [tn_before] (before the credential is
    chosen), [tn_chosen] (before its data is read) and [tn_during] (while the upstream works).
    The request prepared for a group is kept by the code while the group stays the same, which
    is one case of the values of [tn_prepare].  Every recorded attempt is appended to
    [lp_attempts], which stands for the recorder.

    The prices, the telemetry and the bytes written to the client have no counterpart; the
    outcome says what is written. *)
From S2P Require Import Prelude GoStrings Execution Judge JudgeProps HealthStats Config Credential Ledger Fair FairShare Registry RegistryInvariant RegistryReach RegistryGroups RegistrySafety RegistryProps Routing Iterator IteratorProps Inspect Upstream Effects.

Local Open Scope Z_scope.
Local Open Scope go_scope.

(** * The request and its environment *)

Record Request := mkRequest {
  (** The cipher for the redaction of the request, where one is needed, could be made. *)
  rq_redactionReady : bool;
  rq_forwardAttemptLimit : Z;
  rq_allowedCredentialRefs : gmap Z CredentialRef;
  rq_operation : Operation;
  rq_stream : bool;
  rq_method : string;
  rq_continuesResponse : bool;
  (** A cost quota has to admit the request. *)
  rq_quotaBound : bool
}.

Inductive Prepared := PreparedOk | PrepareRedactionFailed | PrepareTooLarge | PrepareFailed.
Inductive QuotaAnswer := QuotaAdmitted | QuotaRefused | QuotaConfigurationChanged.

Record Turn := mkTurn {
  tn_ctx : ReqContext;
  tn_before : Health -> Health;
  tn_selectNow : Z;
  tn_selectNow' : Z;
  tn_replayNow : Z * Z * Z;
  tn_chosen : Health -> Health;
  tn_prepare : Prepared;
  tn_decrypted : bool;
  tn_normalized : bool;
  tn_proxyResolved : bool;
  tn_quota : QuotaAnswer;
  tn_audit : option reason;
  tn_ctxAudited : ReqContext;
  tn_groupSlot : option reason;
  tn_result : UpstreamResult;
  tn_during : Health -> Health;
  tn_binding : option GoError;
  tn_ctxDone : ReqContext;
  tn_attemptNow : Z;
  tn_clock : Z;
  tn_written : bool
}.

(** * The state of the loop *)

Record Attempt := mkAttemptRecord {
  ar_Selection : Selection;
  ar_Ref : CredentialRef;
  ar_Forwarded : bool;
  ar_Replay : bool;
  ar_ForceRefresh : bool;
  ar_Result : UpstreamResult;
  ar_Now : Z;
  ar_Decision : Decision_
}.

Record deferredAttempt := mkDeferred { df_result : UpstreamResult; df_decision : Decision_ }.

Record Deferred := mkDeferredSet {
  lastResponse : option deferredAttempt;
  lastTransport : option deferredAttempt;
  lastConversion : option deferredAttempt;
  lastProviderError : option deferredAttempt;
  lastEmptyResponse : option deferredAttempt
}.

Definition noDeferred : Deferred := mkDeferredSet None None None None None.
Definition setLastResponse (x : deferredAttempt) (d : Deferred) : Deferred :=
  mkDeferredSet (Some x) (lastTransport d) (lastConversion d) (lastProviderError d) (lastEmptyResponse d).
Definition setLastTransport (x : deferredAttempt) (d : Deferred) : Deferred :=
  mkDeferredSet (lastResponse d) (Some x) (lastConversion d) (lastProviderError d) (lastEmptyResponse d).
Definition setLastConversion (x : deferredAttempt) (d : Deferred) : Deferred :=
  mkDeferredSet (lastResponse d) (lastTransport d) (Some x) (lastProviderError d) (lastEmptyResponse d).
Definition setLastProviderError (x : deferredAttempt) (d : Deferred) : Deferred :=
  mkDeferredSet (lastResponse d) (lastTransport d) (lastConversion d) (Some x) (lastEmptyResponse d).
Definition setLastEmptyResponse (x : deferredAttempt) (d : Deferred) : Deferred :=
  mkDeferredSet (lastResponse d) (lastTransport d) (lastConversion d) (lastProviderError d) (Some x).

Record credentialRefreshRetry := mkRefreshRetry { rr_selection : Selection; rr_ref : CredentialRef }.

Record Loop := mkLoop {
  lp_health : Health;
  lp_iterator : Iterator;
  lp_forwardAttempts : Z;
  lp_refreshRetry : option credentialRefreshRetry;
  lp_authRefreshReplayUsed : bool;
  lp_deferred : Deferred;
  lp_overrideFailure : option reason;
  lp_quotaAdmitted : bool;
  lp_attempts : list Attempt
}.

Definition setHealth (h : Health) (lp : Loop) : Loop :=
  mkLoop h (lp_iterator lp) (lp_forwardAttempts lp) (lp_refreshRetry lp) (lp_authRefreshReplayUsed lp) (lp_deferred lp)
    (lp_overrideFailure lp) (lp_quotaAdmitted lp) (lp_attempts lp).
Definition setIterator (it : Iterator) (lp : Loop) : Loop :=
  mkLoop (lp_health lp) it (lp_forwardAttempts lp) (lp_refreshRetry lp) (lp_authRefreshReplayUsed lp) (lp_deferred lp)
    (lp_overrideFailure lp) (lp_quotaAdmitted lp) (lp_attempts lp).
Definition setForwarded (n : Z) (lp : Loop) : Loop :=
  mkLoop (lp_health lp) (lp_iterator lp) n (lp_refreshRetry lp) (lp_authRefreshReplayUsed lp) (lp_deferred lp)
    (lp_overrideFailure lp) (lp_quotaAdmitted lp) (lp_attempts lp).
Definition setRefresh (r : option credentialRefreshRetry) (used : bool) (lp : Loop) : Loop :=
  mkLoop (lp_health lp) (lp_iterator lp) (lp_forwardAttempts lp) r used (lp_deferred lp)
    (lp_overrideFailure lp) (lp_quotaAdmitted lp) (lp_attempts lp).
Definition setDeferred (d : Deferred) (lp : Loop) : Loop :=
  mkLoop (lp_health lp) (lp_iterator lp) (lp_forwardAttempts lp) (lp_refreshRetry lp) (lp_authRefreshReplayUsed lp) d
    (lp_overrideFailure lp) (lp_quotaAdmitted lp) (lp_attempts lp).
Definition setOverrideFailure (r : option reason) (lp : Loop) : Loop :=
  mkLoop (lp_health lp) (lp_iterator lp) (lp_forwardAttempts lp) (lp_refreshRetry lp) (lp_authRefreshReplayUsed lp)
    (lp_deferred lp) r (lp_quotaAdmitted lp) (lp_attempts lp).
Definition setQuotaAdmitted (lp : Loop) : Loop :=
  mkLoop (lp_health lp) (lp_iterator lp) (lp_forwardAttempts lp) (lp_refreshRetry lp) (lp_authRefreshReplayUsed lp)
    (lp_deferred lp) (lp_overrideFailure lp) true (lp_attempts lp).
Definition recordAttempt (a : Attempt) (lp : Loop) : Loop :=
  mkLoop (lp_health lp) (lp_iterator lp) (lp_forwardAttempts lp) (lp_refreshRetry lp) (lp_authRefreshReplayUsed lp)
    (lp_deferred lp) (lp_overrideFailure lp) (lp_quotaAdmitted lp) (lp_attempts lp ++ [a]).

(** How the request ends for the client. *)
Inductive Outcome :=
| OutCanceled
| OutReason (r : reason)
| OutRateLimited (until : Z)
| OutQuotaRefused
| OutConfigurationChanged
| OutStream (r : UpstreamResult) (affinity : bool)
| OutResponse (r : UpstreamResult) (affinity : bool)
| OutProviderError (r : UpstreamResult) (d : Decision_)
| OutTransport (r : UpstreamResult) (shown : reason).

Inductive Step :=
| Continue (lp : Loop)
| Break (lp : Loop)
| Return (lp : Loop) (o : Outcome)
| Panic.

(** * The context of a judgement *)

Definition fixedCooldown : Z := minute.

Definition decisionContextForSelection (rq : Request) (sel : Selection) : DecisionContext :=
  let subscription := strEq (connectionNormalize (gv_ConnectionType (sel_Group sel))) SubscriptionConnection in
  mkContext (gv_ErrorRules (sel_Group sel)) (if subscription then DefaultRefreshFailureCooldown else fixedCooldown)
    subscription (rq_method rq) (rq_operation rq).

Definition optionalModelValue (m : option string) : string := default "" m.

(** The zero value of a reference, which reading an absent key of the map gives. *)
Definition zeroRef : CredentialRef := mkRef "" 0 0 0 0 "" "" "" "" 0 0.

Section loop.
Context `{GoText}.

(** * Choosing a credential *)

Inductive Choice :=
| Chosen (lp : Loop) (sel : Selection) (ref : CredentialRef) (replay forceRefresh : bool)
| ChooseAgain (lp : Loop)
| ChooseExhausted (lp : Loop)
| ChoosePanic.

(** The credential still is what the attempt that asked for its refresh used. *)
Definition sameRefreshTarget (rr : credentialRefreshRetry) (current : CredentialRef) : bool :=
  (ref_GroupID current =? sel_GroupID (rr_selection rr))
  && (ref_IdentityGeneration current =? ref_IdentityGeneration (rr_ref rr))
  && strEq (ref_EncryptedProxy current) (ref_EncryptedProxy (rr_ref rr))
  && strEq (ref_ProxyFingerprint current) (ref_ProxyFingerprint (rr_ref rr)).

Definition chooseReplay (tn : Turn) (lp : Loop) (rr : credentialRefreshRetry) : Choice :=
  let sel := rr_selection rr in
  let dropped := setRefresh None (lp_authRefreshReplayUsed lp) lp in
  match CredentialRefOf (hs_registry (lp_health lp)) (sel_CredentialID sel) with
  | None => ChooseAgain dropped
  | Some current =>
      if negb (sameRefreshTarget rr current) then ChooseAgain dropped
      else
        let lp := setRefresh None true lp in
        let '(t, now, now') := tn_replayNow tn in
        let '(r, charged) := ChargeReplay (lp_iterator lp) (hs_registry (lp_health lp)) sel current t now now' in
        let lp := setHealth (mkHealth r (hs_stats (lp_health lp))) lp in
        if negb charged then ChooseAgain lp
        else Chosen lp sel current true (ref_Version current <=? ref_Version (rr_ref rr))
  end.

Definition chooseNext (rq : Request) (tn : Turn) (lp : Loop) : Choice :=
  match Next (lp_iterator lp) (hs_registry (lp_health lp)) (tn_selectNow tn) (tn_selectNow' tn) with
  | Err _ => ChoosePanic
  | Ok (it, r, o) =>
      let lp := setIterator it (setHealth (mkHealth r (hs_stats (lp_health lp))) lp) in
      match o with
      | None => ChooseExhausted lp
      | Some sel =>
          match rq_allowedCredentialRefs rq !! sel_CredentialID sel with
          | Some ref => if negb (ref_GroupID ref =? sel_GroupID sel) then ChooseAgain lp else Chosen lp sel ref false false
          | None => ChooseAgain lp
          end
      end
  end.

Definition choose (rq : Request) (tn : Turn) (lp : Loop) : Choice :=
  match lp_refreshRetry lp with
  | Some rr => chooseReplay tn lp rr
  | None => chooseNext rq tn lp
  end.

(** * A candidate that cannot be prepared *)

Definition preparationResult (code summary : string) (scope : ErrorScope) : UpstreamResult :=
  mkResult 0 ∅ [] summary (Some protocolError) false false false false noStream DispatchNotSent false
    (Some (localEvidence ErrorKindInternal ErrorOriginInternal scope 0 code summary "")).

Definition skipIfAsked (d : Decision_) (sel : Selection) (it : Iterator) : Iterator :=
  if strEq (d_Effect d) EffectSkipGroup then SkipGroup it (sel_GroupID sel) else it.

(** The effect is applied with the reference captured for the request. *)
Definition recordCandidatePreparationFailure (rq : Request) (tn : Turn) (lp : Loop) (sel : Selection) (ref : CredentialRef)
    (replay force : bool) (code summary : string) (scope : ErrorScope) : Step :=
  let result := preparationResult code summary scope in
  let d := judgeUpstreamResult result (tn_attemptNow tn) (decisionContextForSelection rq sel) in
  let captured := mget zeroRef (rq_allowedCredentialRefs rq) (sel_CredentialID sel) in
  let lp := recordAttempt (mkAttemptRecord sel ref false replay force result (tn_attemptNow tn) d) lp in
  let h := applyGroupDecisionEffect (lp_health lp) (sel_Group sel) captured 0 d 0 (tn_attemptNow tn)
             (optionalModelValue (sel_UpstreamModelID sel)) (tn_clock tn) in
  let lp := setIterator (skipIfAsked d sel (lp_iterator lp)) (setHealth h lp) in
  let lp := setDeferred (setLastTransport (mkDeferred result d) (lp_deferred lp)) lp in
  if strEq (d_Retry d) RetryNone then Break lp else Continue lp.

(** * Forwarding *)

Definition cancels (o : Operation) : bool := strEq o OperationResponsesCancel || strEq o OperationResourceCancel.

Definition withErr (err : option GoError) (r : UpstreamResult) : UpstreamResult :=
  mkResult (ur_StatusCode r) (ur_Header r) (ur_Body r) (ur_ErrorSummary r) err (ur_RequestWritten r) (ur_Committed r)
    (ur_ProviderErrorBeforeCommit r) (ur_EmptyResponseBeforeCommit r) (ur_Stream r) (ur_DispatchState r)
    (ur_ResponseStarted r) (ur_ExecutionError r).

Definition withEvidence (e : ErrorEvidence) (r : UpstreamResult) : UpstreamResult :=
  mkResult (ur_StatusCode r) (ur_Header r) (ur_Body r) (ur_ErrorSummary r) (ur_Err r) (ur_RequestWritten r) (ur_Committed r)
    (ur_ProviderErrorBeforeCommit r) (ur_EmptyResponseBeforeCommit r) (ur_Stream r) (ur_DispatchState r)
    (ur_ResponseStarted r) (Some e).

Definition withStream (s : StreamObservation) (r : UpstreamResult) : UpstreamResult :=
  mkResult (ur_StatusCode r) (ur_Header r) (ur_Body r) (ur_ErrorSummary r) (ur_Err r) (ur_RequestWritten r) (ur_Committed r)
    (ur_ProviderErrorBeforeCommit r) (ur_EmptyResponseBeforeCommit r) s (ur_DispatchState r)
    (ur_ResponseStarted r) (ur_ExecutionError r).

Definition notLocal (r : UpstreamResult) : bool := negb (strEq (ur_DispatchState r) DispatchLocal).

(** The result of the forwarder after the contract check, the recording of the response's owner
    and the attribution of a committed stream's end. *)
Definition settledResult (rq : Request) (tn : Turn) : UpstreamResult :=
  let r := normalizeUpstreamResultContract (tn_result tn) in
  let r :=
    if negb (rq_stream rq) && HasResponse r && negb (ur_ProviderErrorBeforeCommit r) && notLocal r && success r then
      match tn_binding tn with
      | Some err =>
          withEvidence (localEvidence ErrorKindInternal ErrorOriginInternal ErrorScopeRequest 0 "response_binding_conflict"
                          "Response ownership could not be recorded." ReplaySafetyUnknown) (withErr (Some err) r)
      | None => r
      end
    else r in
  if rq_stream rq && ur_Committed r && bool_decide (so_EndReason (ur_Stream r) = StreamEndNone)
  then withStream (prioritizeStreamObservation (Some (tn_ctxDone tn)) (ur_Err r) (ur_Stream r)) r else r.

Definition judgedResult (tn : Turn) (r : UpstreamResult) : UpstreamResult :=
  match ctx_Err (tn_ctxDone tn) with Some err => withErr (Some err) r | None => r end.

Definition retries (d : Decision_) : bool := negb (strEq (d_Retry d) RetryNone).

(** The end of an attempt that neither committed nor was cancelled, once its effects are applied. *)
Definition concludeAttempt (rq : Request) (tn : Turn) (lp : Loop) (r : UpstreamResult) (d : Decision_) : Step :=
  let deferred := mkDeferred r d in
  let affinity := tn_written tn && notLocal r && success r && negb (rq_continuesResponse rq) in
  if (100 <=? ur_StatusCode r) && (ur_StatusCode r <? 200) then Return lp (OutTransport r reasonUpstreamProtocol)
  else if ur_EmptyResponseBeforeCommit r then
    if retries d && (lp_forwardAttempts lp <? rq_forwardAttemptLimit rq)
    then Continue (setDeferred (setLastEmptyResponse deferred (lp_deferred lp)) lp)
    else Return lp (OutResponse r false)
  else if ur_ProviderErrorBeforeCommit r then
    if retries d then Continue (setDeferred (setLastProviderError deferred (lp_deferred lp)) lp)
    else Return lp (OutProviderError r d)
  else if HasResponse r then
    let lp := setDeferred (setLastResponse deferred (lp_deferred lp)) lp in
    if retries d then Continue lp else Return lp (OutResponse r affinity)
  else if errIs is_Canceled (ur_Err r) then Return lp OutCanceled
  else if retries d then
    Continue (setDeferred (if isConversionUnsupportedResult r then setLastConversion deferred (lp_deferred lp)
                           else setLastTransport deferred (lp_deferred lp)) lp)
  else Return lp (OutTransport r (transportReason r)).

(** The effects of an attempt that neither committed nor was cancelled. *)
Definition settleAttempt (rq : Request) (tn : Turn) (lp : Loop) (sel : Selection) (ref : CredentialRef) (r : UpstreamResult)
    (d : Decision_) : Loop :=
  let now := tn_attemptNow tn in
  let model := optionalModelValue (sel_UpstreamModelID sel) in
  let h := if negb (strEq (rq_operation rq) OperationWebSearch) && negb (rq_stream rq) && notLocal r
              && negb (ur_ProviderErrorBeforeCommit r) && HasResponse r && success r
           then recordCredentialSuccess (lp_health lp) ref now else lp_health lp in
  let h := applyGroupDecisionEffect h (sel_Group sel) ref (refreshCooldownCredentialVersion r (ref_Version ref)) d
             (ur_StatusCode r) now model (tn_clock tn) in
  let lp := setHealth h lp in
  let lp := if strEq (d_Retry d) RetryRefreshCredential && negb (lp_authRefreshReplayUsed lp)
               && (lp_forwardAttempts lp <? rq_forwardAttemptLimit rq)
            then setRefresh (Some (mkRefreshRetry sel ref)) (lp_authRefreshReplayUsed lp) lp else lp in
  let it := if retries d then AdvancePriority (lp_iterator lp) sel else lp_iterator lp in
  setIterator (skipIfAsked d sel it) lp.

Definition forward (rq : Request) (tn : Turn) (lp : Loop) (sel : Selection) (ref : CredentialRef) (replay force : bool) : Step :=
  let lp := setForwarded (lp_forwardAttempts lp + 1) lp in
  let r := settledResult rq tn in
  let now := tn_attemptNow tn in
  let model := optionalModelValue (sel_UpstreamModelID sel) in
  let d := judgeUpstreamResult (judgedResult tn r) now (decisionContextForSelection rq sel) in
  let lp := setHealth (tn_during tn (lp_health lp)) lp in
  let lp := recordAttempt (mkAttemptRecord sel ref true replay force r now d) lp in
  let apply version := applyGroupDecisionEffect (lp_health lp) (sel_Group sel) ref version d (ur_StatusCode r) now model (tn_clock tn) in
  if ur_Committed r then
    let clean := rq_stream rq && bool_decide (so_EndReason (ur_Stream r) = StreamEndCleanEOF) in
    let h := apply 0 in
    let h := if clean then recordCredentialSuccess h ref now else h in
    Return (setHealth h lp) (OutStream r (clean && negb (rq_continuesResponse rq)))
  else if isSome (ctx_Err (tn_ctxDone tn)) then
    Return (if strEq (d_Effect d) EffectCooldownModel then setHealth (apply 0) lp else lp) OutCanceled
  else concludeAttempt rq tn (settleAttempt rq tn lp sel ref r d) r d.

(** * One iteration *)

Definition proxyFailure (ref : CredentialRef) : string * string * ErrorScope :=
  if negb (strEq (ref_EncryptedProxy ref) "") || negb (strEq (ref_ProxyFingerprint ref) "")
  then ("credential_proxy_prepare_failed", "Credential proxy configuration could not be prepared.", ErrorScopeCredential)
  else ("group_proxy_prepare_failed", "Group proxy configuration could not be prepared.", ErrorScopeGroup).

(** The checks between a prepared candidate and the forwarder. *)
Definition admitAndForward (rq : Request) (tn : Turn) (lp : Loop) (sel : Selection) (ref : CredentialRef) (replay force : bool) : Step :=
  let go lp :=
    match (if cancels (rq_operation rq) then None else tn_audit tn) with
    | Some failure => Return lp (OutReason failure)
    | None =>
        if isSome (ctx_Err (tn_ctxAudited tn)) then Return lp OutCanceled
        else match (if cancels (rq_operation rq) then None else tn_groupSlot tn) with
        | Some failure => Return lp (OutReason failure)
        | None => forward rq tn lp sel ref replay force
        end
    end in
  if rq_quotaBound rq && negb (lp_quotaAdmitted lp) then
    match tn_quota tn with
    | QuotaConfigurationChanged => Return lp OutConfigurationChanged
    | QuotaRefused => Return lp OutQuotaRefused
    | QuotaAdmitted => go (setQuotaAdmitted lp)
    end
  else go lp.

Definition attempt (rq : Request) (tn : Turn) (lp : Loop) (sel : Selection) (ref : CredentialRef) (replay force : bool) : Step :=
  let failed := recordCandidatePreparationFailure rq tn lp sel ref replay force in
  match ActiveEncryptedCredentialDataIfMatch (hs_registry (lp_health lp)) ref with
  | None => Continue lp
  | Some _ =>
      match tn_prepare tn with
      | PrepareRedactionFailed => Return lp (OutReason reasonRedactionFailed)
      | PrepareTooLarge =>
          Continue (setIterator (SkipGroup (lp_iterator lp) (sel_GroupID sel))
            (setOverrideFailure (Some (default reasonRequestTooLarge (lp_overrideFailure lp))) lp))
      | PrepareFailed =>
          Continue (setIterator (SkipGroup (lp_iterator lp) (sel_GroupID sel))
            (setOverrideFailure (Some reasonParameterOverrideUnavailable) lp))
      | PreparedOk =>
          if negb (tn_decrypted tn) then
            failed "credential_decrypt_failed" "Stored credential could not be decrypted." ErrorScopeCredential
          else if negb (tn_normalized tn) then
            failed "credential_normalization_failed" "Stored credential could not be prepared." ErrorScopeCredential
          else if negb (tn_proxyResolved tn) then
            let '(code, summary, scope) := proxyFailure ref in failed code summary scope
          else admitAndForward rq tn lp sel ref replay force
      end
  end.

Definition turn (rq : Request) (tn : Turn) (lp : Loop) : Step :=
  if isSome (ctx_Err (tn_ctx tn)) then Return lp OutCanceled
  else
    let lp := setHealth (tn_before tn (lp_health lp)) lp in
    match choose rq tn lp with
    | ChoosePanic => Panic
    | ChooseAgain lp => Continue lp
    | ChooseExhausted lp => Break lp
    | Chosen lp sel ref replay force => attempt rq tn (setHealth (tn_chosen tn (lp_health lp)) lp) sel ref replay force
    end.

(** * After the loop *)

(** [now] is the clock reading for the explanation by cooldowns. *)
Definition finish (lp : Loop) (now : Z) : Step :=
  let d := lp_deferred lp in
  match lastEmptyResponse d, lastProviderError d, lastResponse d, lastTransport d, lastConversion d with
  | Some x, _, _, _, _ => Return lp (OutResponse (df_result x) false)
  | None, Some x, _, _, _ => Return lp (OutProviderError (df_result x) (df_decision x))
  | None, None, Some x, _, _ => Return lp (OutResponse (df_result x) false)
  | None, None, None, Some x, _ => Return lp (OutTransport (df_result x) (transportReason (df_result x)))
  | None, None, None, None, Some x => Return lp (OutTransport (df_result x) reasonProtocolConversionUnsupported)
  | None, None, None, None, None =>
      if strEq (it_staticReason (lp_iterator lp)) ReasonModelRequiredByFilter then Return lp (OutReason reasonModelRequiredByFilter)
      else match (if bool_decide (lp_attempts lp = []) then lp_overrideFailure lp else None) with
      | Some failure => Return lp (OutReason failure)
      | None =>
          match CooldownUntil (lp_iterator lp) (Snapshot (hs_registry (lp_health lp))) now with
          | Err _ => Panic
          | Ok (Some until) => Return lp (OutRateLimited until)
          | Ok None => Return lp (OutReason reasonNoCandidate)
          end
      end
  end.

(** The loop over the given turns; [Continue] means that they were not enough. *)
Fixpoint run (rq : Request) (turns : list Turn) (lp : Loop) (now : Z) : Step :=
  if lp_forwardAttempts lp <? rq_forwardAttemptLimit rq then
    match turns with
    | [] => Continue lp
    | tn :: rest =>
        match turn rq tn lp with
        | Continue lp' => run rq rest lp' now
        | Break lp' => finish lp' now
        | Return lp' o => Return lp' o
        | Panic => Panic
        end
    end
  else finish lp now.

Definition initialLoop (h : Health) (it : Iterator) : Loop := mkLoop h it 0 None false noDeferred None false [].

Definition executeAttempts (rq : Request) (turns : list Turn) (h : Health) (it : Iterator) (now : Z) : Step :=
  if negb (rq_redactionReady rq) then Return (initialLoop h it) (OutReason reasonRedactionFailed)
  else run rq turns (initialLoop h it) now.
End loop.

(** The invariant of the failover loop: what the credentials, the iterator and the record of
    attempts satisfy at the head of every iteration, and what an iteration makes of it. *)

(** * The scheduler's side *)

Lemma ChargeReplay_ok it (r : CredentialRegistry) sel ref t now now' :
  registry_ok r -> manualWeightValid (gv_WeightManual (sel_Group sel)) = true ->
  registry_ok (ChargeReplay it r sel ref t now now').1.
Proof.
  intros Hok Hg. assert (Hsrc : src_ok r) by exact Hok. unfold ChargeReplay. case_if; [done|].
  set (step := replayStep it sel ref now now'). set (cs := candidatesUnderLock r [ref_GroupID ref] None t).
  assert (sameMembers (scheduling r) (fold_left step cs (scheduling r, false)).1
          /\ ledger_ok (fold_left step cs (scheduling r, false)).1) as [Hs Hl].
  { apply (fold_left_inv (fun acc => sameMembers (scheduling r) acc.1 /\ ledger_ok acc.1));
      [split; [apply sameMembers_refl|by apply rg_ledger]|].
    intros [d charged] m Hm [Hs Hl]. subst step. unfold replayStep. cbn [fst snd] in *.
    case_if; [done|]. case_if; [done|]. case_if; [|done].
    destruct (src_member r _ _ _ m Hsrc Hm) as (Hu & Hz & Hw & _).
    pose proof (select_result d (snapshotRevision it)
      [mkWeighted m (effectiveWeight (gv_WeightManual (sel_Group sel)) (meta_WeightManual m))] (ref_ID ref) Hl) as HS.
    destruct (selectCredential _ _ _ _) as [d' o]. cbn [fst snd]. destruct HS as (Hl' & Hs' & _).
    - split; [apply NoDup_singleton| |]; intros c ->%list_elem_of_singleton; [done|]. cbn. zb. split; [lia|].
      by apply effectiveWeight_bound.
    - split; [by eapply sameMembers_trans|done]. }
  destruct (fold_left step cs _) as [d charged]. by apply setScheduling_ok.
Qed.

Lemma SkipGroup_request it g : same_request it (SkipGroup it g).
Proof. unfold SkipGroup. by case_if. Qed.

Lemma AdvancePriority_request it sel : same_request it (AdvancePriority it sel).
Proof. unfold AdvancePriority, setPool. by case_if. Qed.

Lemma same_request_trans it1 it2 it3 : same_request it1 it2 -> same_request it2 it3 -> same_request it1 it3.
Proof. unfold same_request. intuition congruence. Qed.

Section invariant.
Context (rq : Request) (sn : ConfigSnapshot) (q : Query) (ids : gmap Z (Z * Z)).

(** The credentials and the iterator. *)
Record schedule_ok (h : Health) (it : Iterator) : Prop := {
  so_iterator : iterator_ok it;
  so_registry : registry_ok (hs_registry h);
  so_refs : it_allowedCredentialRefs it = Some ids;
  so_snapshot : it_snapshot it = Some sn;
  so_query : it_query it = q;
  so_tried : it_tried it ⊆ dom ids
}.

Lemma schedule_ok_health h h' it : schedule_ok h it -> registry_ok (hs_registry h') -> schedule_ok h' it.
Proof. by intros []. Qed.

Lemma schedule_ok_iterator h it it' :
  schedule_ok h it -> iterator_ok it' -> same_request it it' -> it_tried it' = it_tried it -> schedule_ok h it'.
Proof. intros [] Hit (E1 & _ & E2 & E3 & _) Et. split; try done; try congruence. by rewrite Et. Qed.

Lemma schedule_ok_skip h it g : schedule_ok h it -> schedule_ok h (SkipGroup it g).
Proof.
  intros Hs. destruct (SkipGroup_ok it g (so_iterator _ _ Hs)) as [H1 H2].
  eapply schedule_ok_iterator; [exact Hs|exact H1|apply SkipGroup_request|done].
Qed.

Lemma schedule_ok_advance h it sel : schedule_ok h it -> schedule_ok h (AdvancePriority it sel).
Proof.
  intros Hs. destruct (AdvancePriority_ok it sel (so_iterator _ _ Hs)) as [H1 H2].
  eapply schedule_ok_iterator; [exact Hs|exact H1|apply AdvancePriority_request|done].
Qed.

Lemma schedule_ok_event h it ref ev : schedule_ok h it -> schedule_ok (applyEvent ref h ev) it.
Proof. intros Hs. eapply schedule_ok_health; [exact Hs|]. apply applyEvent_kept, Hs. Qed.

(** A selection is of a captured credential the request has not tried. *)
Lemma schedule_next h it now now' :
  schedule_ok h it ->
  exists it' r o, Next it (hs_registry h) now now' = Ok (it', r, o) /\ schedule_ok (mkHealth r (hs_stats h)) it'
    /\ match o with
       | Some sel => (sel_CredentialID sel ∉ it_tried it) /\ it_tried it' = {[sel_CredentialID sel]} ∪ it_tried it
                     /\ manualWeightValid (gv_WeightManual (sel_Group sel)) = true
       | None => it' = it
       end.
Proof.
  intros [Hit Hr Hrefs Hsn Hq Ht]. assert (Hsrc : src_ok (hs_registry h)) by exact Hr.
  destruct (Next_spec it (hs_registry h) now now' Hit Hsrc)
    as (it' & r & o & E & Hr' & Hit' & (E1 & _ & E2 & E3 & _) & Ho).
  exists it', r, o. split; [exact E|]. destruct o as [sel|]; [|by subst it'].
  destruct Ho as (Hv & Hn & Et).
  assert (sel_CredentialID sel ∈ dom ids /\ manualWeightValid (gv_WeightManual (sel_Group sel)) = true) as [Hin Hw].
  { destruct Hv as [(c & t & -> & _ & Hp & Htg & _)|(c & t & -> & _ & Hp & Htg & _)];
      (split; [|by apply (tw_target _ _ _ (pool_targets _ _ _ (it_pools it Hit _)) t Htg)]);
      unfold permitted in Hp; rewrite Hrefs in Hp; apply andb_true_iff in Hp as [[_ Hp]%andb_true_iff _]; cbn;
      apply elem_of_dom; by destruct (ids !! meta_ID c). }
  split; [|done]. split; try done; try congruence. set_solver.
Qed.

(** * The record of attempts *)

Context `{GoText}.

(** The attempt may be followed by another: nothing was committed and its judgement asks for
    a retry. *)
Record passed (a : Attempt) : Prop := {
  ps_retry : d_Retry (ar_Decision a) <> RetryNone;
  ps_committed : ur_Committed (ar_Result a) = false;
  ps_judged : ar_Decision a = judgeUpstreamResult (ar_Result a) (ar_Now a) (decisionContextForSelection rq (ar_Selection a))
}.

Definition forwarded (l : list Attempt) : nat := length (filter (fun a => ar_Forwarded a = true) l).
Definition replays (l : list Attempt) : nat := length (filter (fun a => ar_Replay a = true) l).
Definition firstTries (l : list Attempt) : list Z :=
  (fun a => sel_CredentialID (ar_Selection a)) <$> filter (fun a => ar_Replay a = false) l.

(** A replay repeats the attempt just before it, which asked for a refresh. *)
Definition replays_follow (l : list Attempt) : Prop :=
  forall pre b post, l = pre ++ b :: post -> ar_Replay b = true ->
  exists a, last pre = Some a /\ ar_Selection b = ar_Selection a /\ d_Retry (ar_Decision a) = RetryRefreshCredential.

Record trace_ok (l : list Attempt) : Prop := {
  tr_forwarded : (Z.of_nat (forwarded l) <= Z.max 0 (rq_forwardAttemptLimit rq));
  tr_distinct : NoDup (firstTries l);
  tr_replays : (replays l <= 1)%nat;
  tr_follow : replays_follow l;
  tr_passed : Forall passed (removelast l)
}.

Definition deferreds (d : Deferred) : list deferredAttempt :=
  option_list (lastEmptyResponse d) ++ option_list (lastProviderError d) ++ option_list (lastResponse d)
  ++ option_list (lastTransport d) ++ option_list (lastConversion d).

Definition recorded (l : list Attempt) (r : UpstreamResult) (d : Decision_) : Prop :=
  exists a, a ∈ l /\ ar_Result a = r /\ ar_Decision a = d.

(** The head of an iteration. *)
Record loop_ok (lp : Loop) : Prop := {
  lo_schedule : schedule_ok (lp_health lp) (lp_iterator lp);
  lo_count : lp_forwardAttempts lp = Z.of_nat (forwarded (lp_attempts lp));
  lo_trace : trace_ok (lp_attempts lp);
  lo_passed : Forall passed (lp_attempts lp);
  lo_tried : forall id, id ∈ firstTries (lp_attempts lp) -> id ∈ it_tried (lp_iterator lp);
  lo_unused : lp_authRefreshReplayUsed lp = false -> replays (lp_attempts lp) = 0%nat;
  lo_refresh : forall rr, lp_refreshRetry lp = Some rr -> lp_authRefreshReplayUsed lp = false
    /\ manualWeightValid (gv_WeightManual (sel_Group (rr_selection rr))) = true
    /\ exists a, last (lp_attempts lp) = Some a /\ ar_Selection a = rr_selection rr
         /\ d_Retry (ar_Decision a) = RetryRefreshCredential;
  lo_deferred : forall x, x ∈ deferreds (lp_deferred lp) -> recorded (lp_attempts lp) (df_result x) (df_decision x);
  lo_some : lp_attempts lp <> [] -> deferreds (lp_deferred lp) <> []
}.

(** What the end of the loop needs. *)
Record loop_end (lp : Loop) : Prop := {
  le_schedule : schedule_ok (lp_health lp) (lp_iterator lp);
  le_trace : trace_ok (lp_attempts lp);
  le_uncommitted : forall a, a ∈ lp_attempts lp -> ur_Committed (ar_Result a) = false;
  le_deferred : forall x, x ∈ deferreds (lp_deferred lp) -> recorded (lp_attempts lp) (df_result x) (df_decision x);
  le_some : lp_attempts lp <> [] -> deferreds (lp_deferred lp) <> []
}.

Lemma loop_ok_end lp : loop_ok lp -> loop_end lp.
Proof.
  intros [H1 H2 H3 H4 H5 H6 H7 H8 H9]. split; try done. intros a Ha. by eapply Forall_forall in H4 as [_ ? _].
Qed.

(** * One more attempt *)

(** An attempt that may come after the attempts [l]. *)
Definition admissible (l : list Attempt) (sel : Selection) (replay : bool) : Prop :=
  if replay then replays l = 0%nat
    /\ exists a, last l = Some a /\ sel = ar_Selection a /\ d_Retry (ar_Decision a) = RetryRefreshCredential
  else sel_CredentialID sel ∉ firstTries l.

Lemma firstTries_snoc l a :
  firstTries (l ++ [a]) = firstTries l ++ (if ar_Replay a then [] else [sel_CredentialID (ar_Selection a)]).
Proof. unfold firstTries. rewrite filter_app, fmap_app, filter_cons, filter_nil. by destruct (ar_Replay a). Qed.

Lemma replays_snoc l a : replays (l ++ [a]) = (replays l + if ar_Replay a then 1 else 0)%nat.
Proof. unfold replays. rewrite filter_app, length_app, filter_cons, filter_nil. by destruct (ar_Replay a). Qed.

Lemma forwarded_snoc l a : forwarded (l ++ [a]) = (forwarded l + if ar_Forwarded a then 1 else 0)%nat.
Proof. unfold forwarded. rewrite filter_app, length_app, filter_cons, filter_nil. by destruct (ar_Forwarded a). Qed.

Lemma trace_snoc l a :
  trace_ok l -> Forall passed l -> admissible l (ar_Selection a) (ar_Replay a) ->
  (ar_Forwarded a = true -> Z.of_nat (forwarded l) < rq_forwardAttemptLimit rq) -> trace_ok (l ++ [a]).
Proof.
  intros [H1 H2 H3 H4 H5] Hp Ha Hf. unfold admissible in Ha. split.
  - rewrite forwarded_snoc. destruct (ar_Forwarded a); [specialize (Hf eq_refl)|]; lia.
  - rewrite firstTries_snoc. destruct (ar_Replay a); [by rewrite app_nil_r|]. apply NoDup_app. split; [done|].
    split; [|apply NoDup_singleton]. by intros x Hx ->%list_elem_of_singleton.
  - rewrite replays_snoc. destruct (ar_Replay a); [destruct Ha|]; lia.
  - intros pre b post E Hb. destruct post as [|c post _] using rev_ind.
    + apply app_inj_tail in E as [-> ->]. rewrite Hb in Ha. by destruct Ha as [_ Ha].
    + rewrite app_comm_cons, app_assoc in E. apply app_inj_tail in E as [-> ->]. by apply (H4 pre b post).
  - by rewrite removelast_last.
Qed.

(** The two fields that decide how many iterations are left. *)
Definition pending (lp : Loop) : nat := if isSome (lp_refreshRetry lp) then 1 else 0.
Definition fuelOf (lp : Loop) : nat := 2 * (size ids - size (it_tried (lp_iterator lp))) + pending lp.

(** A loop that goes on after recording [a]. *)
Record extends (lp : Loop) (a : Attempt) (lp' : Loop) : Prop := {
  ex_attempts : lp_attempts lp' = lp_attempts lp ++ [a];
  ex_schedule : schedule_ok (lp_health lp') (lp_iterator lp');
  ex_tried : it_tried (lp_iterator lp') = it_tried (lp_iterator lp);
  ex_count : lp_forwardAttempts lp' = lp_forwardAttempts lp + (if ar_Forwarded a then 1 else 0);
  ex_used : lp_authRefreshReplayUsed lp' = lp_authRefreshReplayUsed lp;
  ex_refresh : lp_refreshRetry lp' = None
    \/ lp_authRefreshReplayUsed lp = false /\ d_Retry (ar_Decision a) = RetryRefreshCredential
       /\ exists ref, lp_refreshRetry lp' = Some (mkRefreshRetry (ar_Selection a) ref);
  ex_deferred : forall x, x ∈ deferreds (lp_deferred lp') -> x = mkDeferred (ar_Result a) (ar_Decision a) \/ x ∈ deferreds (lp_deferred lp);
  ex_some : deferreds (lp_deferred lp') <> []
}.

(** What choosing a credential guarantees. *)
Record chosen (lp : Loop) (sel : Selection) (replay : bool) : Prop := {
  cn_loop : loop_ok lp;
  cn_refresh : lp_refreshRetry lp = None;
  cn_room : lp_forwardAttempts lp < rq_forwardAttemptLimit rq;
  cn_weight : manualWeightValid (gv_WeightManual (sel_Group sel)) = true;
  cn_admissible : admissible (lp_attempts lp) sel replay;
  cn_used : replay = true -> lp_authRefreshReplayUsed lp = true;
  cn_tried : replay = false -> sel_CredentialID sel ∈ it_tried (lp_iterator lp)
}.

Lemma chosen_trace lp sel replay a :
  chosen lp sel replay -> ar_Selection a = sel -> ar_Replay a = replay -> trace_ok (lp_attempts lp ++ [a]).
Proof.
  intros [Hl _ Hr _ Ha _ _] <- <-. apply trace_snoc; [apply Hl|apply Hl|done|]. intros _. by rewrite <- (lo_count _ Hl).
Qed.

Lemma recorded_app l a r d : recorded l r d -> recorded (l ++ [a]) r d.
Proof. intros (b & Hb & E). exists b. split; [apply elem_of_app; by left|done]. Qed.

Lemma recorded_last l a : recorded (l ++ [a]) (ar_Result a) (ar_Decision a).
Proof. exists a. split; [apply elem_of_app; right; constructor|done]. Qed.

Lemma extends_deferred lp a lp' x :
  loop_ok lp -> extends lp a lp' -> x ∈ deferreds (lp_deferred lp') -> recorded (lp_attempts lp') (df_result x) (df_decision x).
Proof.
  intros Hl He Hx. rewrite (ex_attempts _ _ _ He). destruct (ex_deferred _ _ _ He x Hx) as [-> |Hx'].
  - apply recorded_last.
  - by apply recorded_app, (lo_deferred _ Hl).
Qed.

(** The loop goes on with its invariant, and has used up an iteration. *)
Lemma extends_ok lp sel replay a lp' :
  chosen lp sel replay -> ar_Selection a = sel -> ar_Replay a = replay -> passed a -> extends lp a lp' ->
  loop_ok lp' /\ (fuelOf lp' <= fuelOf lp + if replay then 0 else 1)%nat.
Proof.
  intros Hc Es Er Hp He. pose proof (chosen_trace _ _ _ a Hc Es Er) as Ht. destruct Hc as [Hl Hn _ Hw Ha Hu Htr].
  pose proof (extends_deferred lp a lp') as Hd. destruct He as [H1 H2 H3 H4 H5 H6 H7 H8]. split.
  - split; rewrite ?H1, ?H3, ?H5; try done.
    + rewrite H4, (lo_count _ Hl), forwarded_snoc. destruct (ar_Forwarded a); lia.
    + apply Forall_app. split; [apply Hl|by constructor].
    + rewrite firstTries_snoc. intros id [Hid|Hid]%elem_of_app; [by apply (lo_tried _ Hl)|]. rewrite Er in Hid.
      destruct replay; [by apply not_elem_of_nil in Hid|]. apply list_elem_of_singleton in Hid as ->. rewrite Es. by apply Htr.
    + intros Hu'. rewrite replays_snoc, (lo_unused _ Hl Hu'), Er. destruct replay; [|done]. by rewrite Hu in Hu'.
    + intros rr Hrr. destruct H6 as [H6|(Hu' & Hret & ref & H6)]; rewrite H6 in Hrr; [done|]. injection Hrr as <-. cbn.
      rewrite last_snoc, Es. eauto 10.
    + intros x Hx. rewrite <- H1. by apply Hd.
  - unfold fuelOf, pending. rewrite H3, Hn. destruct H6 as [-> |(Hu' & _ & ref & ->)]; cbn; [lia|].
    destruct replay; [by rewrite Hu in Hu'|lia].
Qed.
End invariant.
