(* ===== verification/AttemptsStep.v ===== *)
(** What one iteration of the failover loop, and its end, do to the loop's invariant. *)
From S2P Require Import Prelude GoStrings Execution Judge JudgeProps HealthStats Config Credential Ledger Fair FairShare Registry RegistryInvariant RegistryReach RegistryGroups RegistrySafety RegistryProps Routing Iterator IteratorProps Inspect RouteIndex RouteProps RoutingProps InspectProps Upstream Effects Attempts.

Local Open Scope Z_scope.

(** What other requests and the administration do keeps the registry's invariant. *)
Record turn_ok (tn : Turn) : Prop := {
  tk_before : forall h, registry_ok (hs_registry h) -> registry_ok (hs_registry (tn_before tn h));
  tk_chosen : forall h, registry_ok (hs_registry h) -> registry_ok (hs_registry (tn_chosen tn h));
  tk_during : forall h, registry_ok (hs_registry h) -> registry_ok (hs_registry (tn_during tn h))
}.

Section step.
Context (rq : Request) (sn : ConfigSnapshot) (q : Query) (ids : gmap Z (Z * Z)).
Context `{GoText}.

(** * Outcomes *)

Definition cancelled (tn : Turn) : Prop :=
  ctx_Err (tn_ctx tn) <> None \/ ctx_Err (tn_ctxAudited tn) <> None \/ ctx_Err (tn_ctxDone tn) <> None
  \/ errIs is_Canceled (ur_Err (settledResult rq tn)) = true.

Definition refused (tn : Turn) (r : reason) : Prop :=
  tn_audit tn = Some r \/ tn_groupSlot tn = Some r \/ tn_prepare tn = PrepareRedactionFailed /\ r = reasonRedactionFailed.

(** Why the request ended the way it did, given what happened and what was attempted. *)
Definition explained (tns : list Turn) (l : list Attempt) (o : Outcome) : Prop :=
  match o with
  | OutStream r _ => exists a, last l = Some a /\ ar_Result a = r /\ ur_Committed r = true
  | OutResponse r _ | OutTransport r _ => exists d, recorded l r d
  | OutProviderError r d => recorded l r d
  | OutRateLimited _ => l = []
  | OutReason r => l = [] \/ exists tn, tn ∈ tns /\ refused tn r
  | OutCanceled => exists tn, tn ∈ tns /\ cancelled tn
  | OutQuotaRefused => exists tn, tn ∈ tns /\ rq_quotaBound rq = true /\ tn_quota tn = QuotaRefused
  | OutConfigurationChanged => exists tn, tn ∈ tns /\ rq_quotaBound rq = true /\ tn_quota tn = QuotaConfigurationChanged
  end.

(** What has reached the client is the last thing that happens. *)
Definition final (l : list Attempt) (o : Outcome) : Prop :=
  forall a, a ∈ l -> ur_Committed (ar_Result a) = true -> exists affinity, o = OutStream (ar_Result a) affinity.

Record answered (tns : list Turn) (l : list Attempt) (o : Outcome) : Prop := {
  an_trace : trace_ok rq l;
  an_explained : explained tns l o;
  an_final : final l o
}.

Lemma explained_mono tns tns' l o : tns ⊆ tns' -> explained tns l o -> explained tns' l o.
Proof. intros Hs. destruct o; cbn; try done; [naive_solver|intros [?|?]; [by left|naive_solver]|naive_solver..]. Qed.

Lemma answered_mono tns tns' l o : tns ⊆ tns' -> answered tns l o -> answered tns' l o.
Proof. intros Hs [H1 H2 H3]. split; [done|by eapply explained_mono|done]. Qed.

Lemma final_uncommitted l o : (forall a, a ∈ l -> ur_Committed (ar_Result a) = false) -> final l o.
Proof. intros Hu a Ha Hc. by rewrite Hu in Hc. Qed.

Abbreviation loop_ok := (loop_ok rq sn q ids).
Abbreviation loop_end := (loop_end rq sn q ids).
Abbreviation chosen := (chosen rq sn q ids).
Abbreviation extends := (extends sn q ids).
Abbreviation schedule_ok := (schedule_ok sn q ids).
Abbreviation fuelOf := (fuelOf ids).

Lemma loop_answered tns lp o : loop_ok lp -> explained tns (lp_attempts lp) o -> answered tns (lp_attempts lp) o.
Proof. intros Hl He. split; [apply Hl|done|]. apply final_uncommitted, (le_uncommitted _ _ _ _ _ (loop_ok_end _ _ _ _ _ Hl)). Qed.

(** Ending with an attempt that committed nothing. *)
Lemma snoc_answered tns lp sel replay a o :
  chosen lp sel replay -> ar_Selection a = sel -> ar_Replay a = replay -> ur_Committed (ar_Result a) = false ->
  explained tns (lp_attempts lp ++ [a]) o -> answered tns (lp_attempts lp ++ [a]) o.
Proof.
  intros Hc Es Er Hu He. split; [by eapply chosen_trace|done|]. apply final_uncommitted.
  intros b [Hb| ->%list_elem_of_singleton]%elem_of_app; [|done].
  by apply (le_uncommitted _ _ _ _ _ (loop_ok_end _ _ _ _ _ (cn_loop _ _ _ _ _ _ _ Hc))).
Qed.

(** The verdict on one iteration. *)
Definition step_ok (tn : Turn) (bound : nat) (s : Step) : Prop :=
  match s with
  | Continue lp => loop_ok lp /\ (fuelOf lp <= bound)%nat
  | Break lp => loop_end lp
  | Return lp o => answered [tn] (lp_attempts lp) o
  | Panic => False
  end.

(** * Deferred results *)

Definition defers (x : deferredAttempt) (d d' : Deferred) : Prop :=
  (forall y, y ∈ deferreds d' -> y = x \/ y ∈ deferreds d) /\ deferreds d' <> [].

Ltac solve_defers :=
  intros x [[?|] [?|] [?|] [?|] [?|]]; unfold defers, deferreds; cbn;
  (split; [|done]); intros y; rewrite !elem_of_cons, elem_of_nil; tauto.

Lemma defers_empty : forall x d, defers x d (setLastEmptyResponse x d).
Proof. solve_defers. Qed.
Lemma defers_provider : forall x d, defers x d (setLastProviderError x d).
Proof. solve_defers. Qed.
Lemma defers_response : forall x d, defers x d (setLastResponse x d).
Proof. solve_defers. Qed.
Lemma defers_transport : forall x d, defers x d (setLastTransport x d).
Proof. solve_defers. Qed.
Lemma defers_conversion : forall x d, defers x d (setLastConversion x d).
Proof. solve_defers. Qed.

(** * The effects of an attempt *)

Lemma group_effect_ok h it group ref v d st now model clock :
  schedule_ok h it -> schedule_ok (applyGroupDecisionEffect h group ref v d st now model clock) it.
Proof. apply (schedule_ok_event sn q ids h it ref (Judged v d st now (gv_BlacklistThreshold group) model clock)). Qed.

Lemma success_ok h it ref now : schedule_ok h it -> schedule_ok (recordCredentialSuccess h ref now) it.
Proof. apply (schedule_ok_event sn q ids h it ref (Succeeded now)). Qed.

Lemma skipIfAsked_ok h it d sel : schedule_ok h it ->
  schedule_ok h (skipIfAsked d sel it) /\ it_tried (skipIfAsked d sel it) = it_tried it.
Proof.
  intros Hs. unfold skipIfAsked. case_if; [|done]. split; [by apply schedule_ok_skip|].
  by apply (SkipGroup_ok it _ (so_iterator _ _ _ _ _ Hs)).
Qed.

(** What [settleAttempt] leaves of the loop. *)
Lemma settleAttempt_spec tn lp sel ref r d :
  schedule_ok (lp_health lp) (lp_iterator lp) -> lp_refreshRetry lp = None ->
  let lp' := settleAttempt rq tn lp sel ref r d in
  schedule_ok (lp_health lp') (lp_iterator lp') /\ it_tried (lp_iterator lp') = it_tried (lp_iterator lp)
  /\ lp_forwardAttempts lp' = lp_forwardAttempts lp /\ lp_authRefreshReplayUsed lp' = lp_authRefreshReplayUsed lp
  /\ lp_deferred lp' = lp_deferred lp /\ lp_attempts lp' = lp_attempts lp
  /\ (lp_refreshRetry lp' = None
      \/ lp_authRefreshReplayUsed lp = false /\ d_Retry d = RetryRefreshCredential
         /\ exists ref, lp_refreshRetry lp' = Some (mkRefreshRetry sel ref)).
Proof.
  intros Hs Hn lp'. subst lp'. unfold settleAttempt. cbv zeta.
  set (h := applyGroupDecisionEffect _ _ _ _ _ _ _ _ _).
  assert (schedule_ok h (lp_iterator lp)) as Hh.
  { apply group_effect_ok. case_if; [by apply success_ok|done]. }
  set (lp1 := if strEq (d_Retry d) RetryRefreshCredential && _ && _ then _ else _).
  assert (lp_health lp1 = h /\ lp_iterator lp1 = lp_iterator lp) as [E1 E2] by (subst lp1; by case_if).
  set (it1 := if retries d then _ else _).
  assert (schedule_ok h it1 /\ it_tried it1 = it_tried (lp_iterator lp)) as [Hi Ht].
  { subst it1. rewrite E2. case_if; [|done]. split; [by apply schedule_ok_advance|].
    by apply (AdvancePriority_ok _ sel (so_iterator _ _ _ _ _ Hh)). }
  destruct (skipIfAsked_ok h it1 d sel Hi) as [Hk Ek]. cbn [lp_health lp_iterator setIterator]. rewrite E1.
  split; [done|]. split; [by rewrite Ek, Ht|].
  subst lp1. destruct (strEq (d_Retry d) RetryRefreshCredential) eqn:Er; cbn [andb]; [apply strEq_true in Er|by repeat split; auto].
  destruct (lp_authRefreshReplayUsed lp) eqn:Eu; cbn [negb andb setHealth lp_authRefreshReplayUsed] in *; [rewrite Eu; by repeat split; auto|].
  rewrite Eu. cbn [negb andb]. case_if; cbn; repeat split; auto. right. eauto.
Qed.

(** What the judgement of an attempt at the loop [lp0] leaves to be decided: how it ends. *)
Section concluding.
Context (tn : Turn) (lp0 : Loop) (sel : Selection) (replay : bool) (a : Attempt).
Context (Hc : chosen lp0 sel replay) (Es : ar_Selection a = sel) (Er : ar_Replay a = replay).
Context (Hu : ur_Committed (ar_Result a) = false).

Definition budget : nat := fuelOf lp0 + (if replay then 0 else 1).

Lemma conclude_return lp o :
  lp_attempts lp = lp_attempts lp0 ++ [a] -> explained [tn] (lp_attempts lp0 ++ [a]) o -> step_ok tn budget (Return lp o).
Proof using Hc Es Er Hu. intros E Ho. cbn. rewrite E. by eapply snoc_answered. Qed.

Context (Hj : ar_Decision a = judgeUpstreamResult (ar_Result a) (ar_Now a) (decisionContextForSelection rq sel)).

Lemma conclude_continue lp :
  retries (ar_Decision a) = true -> extends lp0 a lp -> step_ok tn budget (Continue lp).
Proof using Hc Es Er Hu Hj.
  intros Hr He. eapply (extends_ok rq sn q ids lp0 sel replay a); try done.
  split; [|done|by rewrite Es]. unfold retries in Hr. apply negb_true_iff in Hr. by apply strEq_false.
Qed.

Lemma concludeAttempt_ok lp :
  (errIs is_Canceled (ur_Err (ar_Result a)) = true -> cancelled tn) -> lp_deferred lp = lp_deferred lp0 ->
  (forall d, defers (mkDeferred (ar_Result a) (ar_Decision a)) (lp_deferred lp0) d -> extends lp0 a (setDeferred d lp)) ->
  step_ok tn budget (concludeAttempt rq tn lp (ar_Result a) (ar_Decision a)).
Proof using Hc Es Er Hu Hj.
  intros Hcan Hd Hext. set (r := ar_Result a) in *. set (d := ar_Decision a) in *.
  pose proof (recorded_last (lp_attempts lp0) a : recorded _ r d) as Hrec.
  assert (Hat : forall f, defers (mkDeferred r d) (lp_deferred lp0) f -> lp_attempts lp = lp_attempts lp0 ++ [a])
    by (intros f Hf; exact (ex_attempts _ _ _ _ _ _ (Hext _ Hf))).
  specialize (Hat _ (defers_response _ _)).
  unfold concludeAttempt. cbv zeta. rewrite Hd.
  case_if; [apply conclude_return; [done|by exists d]|]. destruct (ur_EmptyResponseBeforeCommit r).
  { destruct (retries d) eqn:Hr; cbn [andb]; [|apply conclude_return; [done|by exists d]].
    case_if; [by apply conclude_continue, Hext, defers_empty|apply conclude_return; [done|by exists d]]. }
  destruct (retries d) eqn:Hr.
  - destruct (ur_ProviderErrorBeforeCommit r); [by apply conclude_continue, Hext, defers_provider|].
    destruct (HasResponse r); [by apply conclude_continue, Hext, defers_response|].
    case_if; [apply conclude_return; [done|]; exists tn; split; [constructor|by apply Hcan]|].
    case_if; [by apply conclude_continue, Hext, defers_conversion|by apply conclude_continue, Hext, defers_transport].
  - destruct (ur_ProviderErrorBeforeCommit r); [by apply conclude_return|].
    destruct (HasResponse r); [apply conclude_return; [done|by exists d]|].
    case_if; [apply conclude_return; [done|]; exists tn; split; [constructor|by apply Hcan]|].
    apply conclude_return; [done|by exists d].
Qed.
End concluding.

(** * Forwarding *)

Lemma forward_ok tn lp sel ref replay force :
  turn_ok tn -> chosen lp sel replay -> step_ok tn (budget lp replay) (forward rq tn lp sel ref replay force).
Proof.
  intros Htn Hc. unfold forward. cbv zeta. set (r := settledResult rq tn). set (d := judgeUpstreamResult _ _ _).
  set (a := mkAttemptRecord sel ref true replay force r (tn_attemptNow tn) d).
  set (h := tn_during tn _). pose proof (cn_loop _ _ _ _ _ _ _ Hc) as Hl. pose proof (cn_refresh _ _ _ _ _ _ _ Hc) as Hn.
  assert (schedule_ok h (lp_iterator lp)) as Hs.
  { pose proof (lo_schedule _ _ _ _ _ Hl) as Hs. eapply schedule_ok_health; [exact Hs|]. apply (tk_during tn Htn), Hs. }
  cbn [lp_health recordAttempt setHealth]. destruct (ur_Committed r) eqn:Hu.
  { split.
    - by apply (chosen_trace _ _ _ _ _ _ _ a Hc).
    - exists a. split; [apply last_snoc|done].
    - intros b [Hb| ->%list_elem_of_singleton]%elem_of_app Hcb; [|by eexists].
      by rewrite (le_uncommitted _ _ _ _ _ (loop_ok_end _ _ _ _ _ Hl) b Hb) in Hcb. }
  destruct (ctx_Err (tn_ctxDone tn)) as [err|] eqn:Ectx; cbn [isSome].
  { apply (conclude_return tn lp sel replay a Hc); try done; [by case_if|]. exists tn. split; [constructor|].
    right; right; left. by rewrite Ectx. }
  assert (d = judgeUpstreamResult r (tn_attemptNow tn) (decisionContextForSelection rq sel)) as Hj
    by (subst d; unfold judgedResult; by rewrite Ectx).
  set (lp1 := recordAttempt a (setHealth h (setForwarded (lp_forwardAttempts lp + 1) lp))).
  destruct (settleAttempt_spec tn lp1 sel ref r d) as (E1 & E2 & E3 & E4 & E5 & E6 & E7); [done|done|].
  apply (concludeAttempt_ok tn lp sel replay a Hc); try done.
  - intros Hcan. by right; right; right.
  - intros f [Hf1 Hf2]. split; cbn; try done.
Qed.

Lemma preparationFailure_ok tn lp sel ref replay force code summary scope :
  chosen lp sel replay ->
  step_ok tn (budget lp replay) (recordCandidatePreparationFailure rq tn lp sel ref replay force code summary scope).
Proof.
  intros Hc. pose proof (cn_loop _ _ _ _ _ _ _ Hc) as Hl. unfold recordCandidatePreparationFailure. cbv zeta.
  set (r := preparationResult code summary scope). set (d := judgeUpstreamResult r _ _).
  set (a := mkAttemptRecord sel ref false replay force r (tn_attemptNow tn) d). set (h := applyGroupDecisionEffect _ _ _ _ _ _ _ _ _).
  assert (schedule_ok h (lp_iterator lp)) as Hh by (apply group_effect_ok, Hl).
  destruct (skipIfAsked_ok h (lp_iterator lp) d sel Hh) as [Hk Ek].
  set (lp' := setDeferred _ _).
  assert (extends lp a lp') as He.
  { destruct (defers_transport (mkDeferred r d) (lp_deferred lp)) as [Hd1 Hd2].
    split; try done; [cbn; lia|]. left. apply Hc. }
  destruct (strEq (d_Retry d) RetryNone) eqn:Hr.
  - split; [apply Hk|by apply (chosen_trace _ _ _ _ _ _ _ a Hc)| |..].
    + intros b [Hb| ->%list_elem_of_singleton]%elem_of_app; [|done].
      by apply (le_uncommitted _ _ _ _ _ (loop_ok_end _ _ _ _ _ Hl)).
    + intros x. by apply (extends_deferred rq sn q ids lp a lp').
    + intros _. by apply (ex_some _ _ _ _ _ _ He).
  - apply (conclude_continue tn lp sel replay a Hc); try done. unfold retries. subst a. cbn. by rewrite Hr.
Qed.

Lemma chosen_quota lp sel replay : chosen lp sel replay -> chosen (setQuotaAdmitted lp) sel replay.
Proof. intros [[] ? ? ? ? ? ?]. by repeat (split; try done). Qed.

Lemma admitAndForward_ok tn lp sel ref replay force :
  turn_ok tn -> chosen lp sel replay -> step_ok tn (budget lp replay) (admitAndForward rq tn lp sel ref replay force).
Proof.
  intros Htn Hc.
  assert (Hans : forall lp', chosen lp' sel replay -> forall o, explained [tn] (lp_attempts lp') o ->
            answered [tn] (lp_attempts lp') o) by (intros lp' Hc' o; apply loop_answered, Hc').
  set (go := fun lp => match (if cancels (rq_operation rq) then None else tn_audit tn) with
    | Some failure => Return lp (OutReason failure)
    | None => if isSome (ctx_Err (tn_ctxAudited tn)) then Return lp OutCanceled
              else match (if cancels (rq_operation rq) then None else tn_groupSlot tn) with
                   | Some failure => Return lp (OutReason failure)
                   | None => forward rq tn lp sel ref replay force
                   end
    end).
  assert (Hgo : forall lp, chosen lp sel replay -> step_ok tn (budget lp replay) (go lp)).
  { intros lp' Hc'. subst go. cbn beta.
    destruct (if cancels (rq_operation rq) then None else tn_audit tn) as [failure|] eqn:Ea.
    { apply Hans; [done|]. right. exists tn. split; [constructor|left]. by destruct (cancels _). }
    destruct (ctx_Err (tn_ctxAudited tn)) eqn:Ectx; cbn [isSome].
    { apply Hans; [done|]. exists tn. split; [constructor|]. right; left. by rewrite Ectx. }
    destruct (if cancels (rq_operation rq) then None else tn_groupSlot tn) as [failure|] eqn:Eg.
    { apply Hans; [done|]. right. exists tn. split; [constructor|right; left]. by destruct (cancels _). }
    by apply forward_ok. }
  unfold admitAndForward. fold go. destruct (rq_quotaBound rq) eqn:Eb; cbn [andb]; [|by apply Hgo].
  case_if; [|by apply Hgo].
  destruct (tn_quota tn) eqn:Eq; [apply (Hgo (setQuotaAdmitted lp)), chosen_quota, Hc|..];
    (apply Hans; [done|]; exists tn; split; [constructor|done]).
Qed.

(** Going on without having recorded anything. *)
Lemma chosen_skip lp sel replay g failure :
  chosen lp sel replay -> loop_ok (setIterator (SkipGroup (lp_iterator lp) g) (setOverrideFailure failure lp)).
Proof.
  intros [[] ? ? ? ? ? ?]. destruct (SkipGroup_ok (lp_iterator lp) g) as [_ Et]; [apply lo_schedule|].
  split; cbn; rewrite ?Et; try done. by apply schedule_ok_skip.
Qed.

Lemma attempt_ok tn lp sel ref replay force :
  turn_ok tn -> chosen lp sel replay -> step_ok tn (budget lp replay) (attempt rq tn lp sel ref replay force).
Proof.
  intros Htn Hc. pose proof (cn_loop _ _ _ _ _ _ _ Hc) as Hl. unfold attempt. cbv zeta.
  destruct (ActiveEncryptedCredentialDataIfMatch _ _); [|cbn; unfold budget; split; [done|lia]].
  assert (Hskip : forall f, step_ok tn (budget lp replay)
     (Continue (setIterator (SkipGroup (lp_iterator lp) (sel_GroupID sel)) (setOverrideFailure f lp)))).
  { intros f. split; [by eapply chosen_skip|]. unfold budget, Attempts.fuelOf, pending. cbn.
    destruct (SkipGroup_ok (lp_iterator lp) (sel_GroupID sel)) as [_ ->]; [apply Hl|]. lia. }
  destruct (tn_prepare tn) eqn:Ep; [|apply loop_answered; [done|]|apply Hskip|apply Hskip].
  - case_if; [by apply preparationFailure_ok|]. case_if; [by apply preparationFailure_ok|].
    case_if; [|by apply admitAndForward_ok]. destruct (proxyFailure ref) as [[code summary] scope]. by apply preparationFailure_ok.
  - right. exists tn. split; [constructor|]. by right; right.
Qed.

(** * One iteration *)

Lemma loop_health lp h : loop_ok lp -> registry_ok (hs_registry h) -> loop_ok (setHealth h lp).
Proof. intros [] Hh. split; try done. by eapply schedule_ok_health. Qed.

Lemma chosen_health lp h sel replay : chosen lp sel replay -> registry_ok (hs_registry h) -> chosen (setHealth h lp) sel replay.
Proof. intros [] Hh. split; try done. by apply loop_health. Qed.

Definition choice_ok (lp : Loop) (c : Choice) : Prop :=
  match c with
  | Chosen lp' sel _ replay _ => chosen lp' sel replay /\ (budget lp' replay < fuelOf lp)%nat
  | ChooseAgain lp' => loop_ok lp' /\ (fuelOf lp' < fuelOf lp)%nat
  | ChooseExhausted lp' => loop_ok lp'
  | ChoosePanic => False
  end.

Lemma loop_dropped lp used :
  loop_ok lp -> (lp_authRefreshReplayUsed lp = true -> used = true) -> loop_ok (setRefresh None used lp).
Proof.
  intros [] Hu. split; try done. cbn. intros E. apply lo_unused. destruct (lp_authRefreshReplayUsed lp); [by rewrite Hu in E|done].
Qed.

Lemma chooseReplay_ok tn lp rr :
  loop_ok lp -> lp_forwardAttempts lp < rq_forwardAttemptLimit rq -> lp_refreshRetry lp = Some rr -> choice_ok lp (chooseReplay tn lp rr).
Proof.
  intros Hl Hroom Hrr. destruct (lo_refresh _ _ _ _ _ Hl rr Hrr) as (Hu & Hw & a & Ha & Es & Er).
  assert (Hfuel : fuelOf lp = S (2 * (size ids - size (it_tried (lp_iterator lp))))).
  { unfold Attempts.fuelOf, pending. rewrite Hrr. cbn [isSome]. lia. }
  unfold chooseReplay. destruct (CredentialRefOf _ _) as [current|].
  2: { split; [by apply loop_dropped|]. rewrite Hfuel. unfold Attempts.fuelOf. cbn. lia. }
  case_if; [split; [by apply loop_dropped|]; rewrite Hfuel; unfold Attempts.fuelOf; cbn; lia|].
  destruct (tn_replayNow tn) as [[t now] now'].
  pose proof (ChargeReplay_ok (lp_iterator lp) (hs_registry (lp_health lp)) (rr_selection rr) current t now now'
    (so_registry _ _ _ _ _ (lo_schedule _ _ _ _ _ Hl)) Hw) as Hok.
  cbn [lp_iterator lp_health setRefresh]. destruct (ChargeReplay _ _ _ _ _ _ _) as [r charged].
  assert (loop_ok (setHealth (mkHealth r (hs_stats (lp_health lp))) (setRefresh None true lp))) as Hl'
    by (by apply loop_health; [apply loop_dropped|]).
  destruct charged; cbn [negb].
  - split; [|rewrite Hfuel; unfold budget, Attempts.fuelOf; cbn; lia].
    split; try done. cbn. split; [by apply (lo_unused _ _ _ _ _ Hl)|]. exists a. done.
  - split; [done|]. rewrite Hfuel. unfold Attempts.fuelOf. cbn. lia.
Qed.

Lemma fuel_next it it' id :
  id ∉ it_tried it -> it_tried it' = {[id]} ∪ it_tried it -> it_tried it' ⊆ dom ids ->
  (S (size ids - size (it_tried it')) = size ids - size (it_tried it))%nat.
Proof.
  intros Hn E Hs. apply subseteq_size in Hs. rewrite size_dom in Hs. rewrite E in *.
  rewrite size_union, size_singleton in * by set_solver. lia.
Qed.

Lemma chooseNext_ok tn lp :
  loop_ok lp -> lp_forwardAttempts lp < rq_forwardAttemptLimit rq -> lp_refreshRetry lp = None -> choice_ok lp (chooseNext rq tn lp).
Proof.
  intros Hl Hroom Hn. unfold chooseNext.
  destruct (schedule_next sn q ids _ _ (tn_selectNow tn) (tn_selectNow' tn) (lo_schedule _ _ _ _ _ Hl)) as (it' & r & o & -> & Hs & Ho).
  set (lp' := setIterator it' _). destruct o as [sel|].
  - destruct Ho as (Hfresh & Et & Hw). pose proof (fuel_next _ _ _ Hfresh Et (so_tried _ _ _ _ _ Hs)) as Hf.
    assert (loop_ok lp') as Hl'.
    { destruct Hl. split; try done. cbn. rewrite Et. intros id Hid. apply elem_of_union. right. by apply lo_tried. }
    assert (fuelOf lp = S (S (fuelOf lp'))) as Hfuel.
    { unfold Attempts.fuelOf, pending, lp'. cbn. rewrite Hn. cbn. lia. }
    assert (chosen lp' sel false) as Hc.
    { split; try done; cbn; [|rewrite Et; set_solver]. intros Hin. by apply Hfresh, (lo_tried _ _ _ _ _ Hl). }
    destruct (rq_allowedCredentialRefs rq !! _); [case_if|]; unfold choice_ok, budget; (split; [done|rewrite Hfuel; lia]).
  - subst it'. destruct Hl. by split.
Qed.

Lemma turn_spec tn lp :
  turn_ok tn -> loop_ok lp -> lp_forwardAttempts lp < rq_forwardAttemptLimit rq ->
  step_ok tn (pred (fuelOf lp)) (turn rq tn lp) /\ (forall lp', turn rq tn lp = Continue lp' -> (fuelOf lp' < fuelOf lp)%nat).
Proof.
  intros Htn Hl Hroom. unfold turn. destruct (ctx_Err (tn_ctx tn)) eqn:Ectx; cbn [isSome].
  { split; [|done]. apply loop_answered; [done|]. exists tn. split; [constructor|]. left. by rewrite Ectx. }
  set (lp1 := setHealth _ lp).
  assert (loop_ok lp1) as Hl1 by (apply loop_health; [done|]; apply (tk_before tn Htn), (lo_schedule _ _ _ _ _ Hl)).
  assert (choice_ok lp1 (choose rq tn lp1)) as Hch.
  { unfold choose. destruct (lp_refreshRetry lp1) as [rr|] eqn:Er; [by apply chooseReplay_ok|by apply chooseNext_ok]. }
  change (fuelOf lp) with (fuelOf lp1). destruct (choose rq tn lp1) as [lp2 sel ref replay force|lp2|lp2|]; cbn [choice_ok] in Hch.
  - destruct Hch as [Hc Hf]. set (lp3 := setHealth _ lp2).
    assert (chosen lp3 sel replay) as Hc3.
    { apply chosen_health; [done|]. apply (tk_chosen tn Htn), (lo_schedule _ _ _ _ _ (cn_loop _ _ _ _ _ _ _ Hc)). }
    pose proof (attempt_ok tn lp3 sel ref replay force Htn Hc3) as Ha. change (budget lp3 replay) with (budget lp2 replay) in Ha.
    destruct (attempt _ _ _ _ _ _ _) as [lp4|lp4|lp4 o|]; cbn [step_ok] in *; (split; [|intros ? [=]]); try done.
    + split; [apply Ha|lia].
    + subst. lia.
  - destruct Hch. split; [split; [done|lia]|]. by intros ? [= <-].
  - split; [by apply loop_ok_end|done].
  - done.
Qed.

(** * The reason of an answer *)

Definition overridden (tn : Turn) (r : reason) : Prop :=
  tn_prepare tn = PrepareTooLarge /\ r = reasonRequestTooLarge
  \/ tn_prepare tn = PrepareFailed /\ r = reasonParameterOverrideUnavailable.

(** What an iteration keeps, and where a new refusal or a new conversion failure comes from. *)
Record keeps (tn : Turn) (lp lp' : Loop) : Prop := {
  kp_static : it_staticReason (lp_iterator lp') = it_staticReason (lp_iterator lp);
  kp_override : forall r, lp_overrideFailure lp' = Some r -> lp_overrideFailure lp = Some r \/ overridden tn r;
  kp_conversion : forall x, lastConversion (lp_deferred lp') = Some x ->
    lastConversion (lp_deferred lp) = Some x \/ isConversionUnsupportedResult (df_result x) = true
}.

(** The loops that differ in nothing of this. *)
Definition alike (lp lp' : Loop) : Prop :=
  it_staticReason (lp_iterator lp') = it_staticReason (lp_iterator lp) /\ lp_overrideFailure lp' = lp_overrideFailure lp
  /\ lastConversion (lp_deferred lp') = lastConversion (lp_deferred lp).

Lemma keeps_alike tn lp lp' : alike lp lp' -> keeps tn lp lp'.
Proof. intros (E1 & E2 & E3). split; [done|rewrite E2; auto|rewrite E3; auto]. Qed.

Lemma alike_keeps tn lp lp1 lp2 : alike lp lp1 -> keeps tn lp1 lp2 -> keeps tn lp lp2.
Proof. intros (E1 & E2 & E3) [H1 H2 H3]. rewrite E1 in H1. rewrite E2 in H2. rewrite E3 in H3. by split. Qed.

Lemma skipIfAsked_static d sel it : it_staticReason (skipIfAsked d sel it) = it_staticReason it.
Proof. unfold skipIfAsked. case_if; [apply SkipGroup_request|done]. Qed.

Lemma settleAttempt_alike tn lp sel ref r d : alike lp (settleAttempt rq tn lp sel ref r d).
Proof.
  unfold settleAttempt, alike. cbv zeta. cbn [lp_iterator setIterator lp_overrideFailure lp_deferred]. rewrite skipIfAsked_static.
  destruct (retries d); [rewrite (proj2 (proj2 (proj2 (proj2 (AdvancePriority_request _ sel)))))|]; by case_if.
Qed.

(** What an iteration says when it ends the request. *)
Definition turn_because (tn : Turn) (o : Outcome) : Prop :=
  match o with
  | OutTransport r shown => 100 <= ur_StatusCode r < 200 /\ shown = reasonUpstreamProtocol \/ shown = transportReason r
  | OutReason r => refused tn r
  | OutRateLimited _ => False
  | _ => True
  end.

Definition step_because (tn : Turn) (lp : Loop) (s : Step) : Prop :=
  match s with
  | Continue lp' | Break lp' => keeps tn lp lp'
  | Return _ o => turn_because tn o
  | Panic => True
  end.

Lemma step_because_alike tn lp lp1 s : alike lp lp1 -> step_because tn lp1 s -> step_because tn lp s.
Proof. intros Ha. destruct s; cbn; try done; by apply alike_keeps. Qed.

Lemma concludeAttempt_because tn lp r d : step_because tn lp (concludeAttempt rq tn lp r d).
Proof.
  unfold concludeAttempt. cbv zeta. destruct ((100 <=? ur_StatusCode r) && _) eqn:E1; [left; apply andb_true_iff in E1 as [?%Z.leb_le ?%Z.ltb_lt]; done|].
  destruct (ur_EmptyResponseBeforeCommit r); [case_if; [by apply keeps_alike|done]|].
  destruct (ur_ProviderErrorBeforeCommit r); [case_if; [by apply keeps_alike|done]|].
  destruct (HasResponse r); [case_if; [by apply keeps_alike|done]|]. case_if; [done|]. case_if; [|by right].
  destruct (isConversionUnsupportedResult r) eqn:Ec; [|by apply keeps_alike].
  split; [done|by left|]. cbn. intros x [= <-]. by right.
Qed.

Lemma forward_because tn lp sel ref replay force : step_because tn lp (forward rq tn lp sel ref replay force).
Proof.
  unfold forward. cbv zeta. case_if; [done|]. case_if; [done|].
  eapply step_because_alike; [|apply concludeAttempt_because].
  destruct (settleAttempt_alike tn (recordAttempt (mkAttemptRecord sel ref true replay force (settledResult rq tn) (tn_attemptNow tn)
    (judgeUpstreamResult (judgedResult tn (settledResult rq tn)) (tn_attemptNow tn) (decisionContextForSelection rq sel)))
    (setHealth (tn_during tn (lp_health (setForwarded (lp_forwardAttempts lp + 1) lp))) (setForwarded (lp_forwardAttempts lp + 1) lp)))
    sel ref (settledResult rq tn)
    (judgeUpstreamResult (judgedResult tn (settledResult rq tn)) (tn_attemptNow tn) (decisionContextForSelection rq sel))) as (E1 & E2 & E3).
  by split; [rewrite E1|split; [rewrite E2|rewrite E3]].
Qed.

Lemma preparationFailure_because tn lp sel ref replay force code summary scope :
  step_because tn lp (recordCandidatePreparationFailure rq tn lp sel ref replay force code summary scope).
Proof.
  unfold recordCandidatePreparationFailure. cbv zeta. set (lp' := setDeferred _ _).
  assert (alike lp lp') by (split; [apply skipIfAsked_static|done]). by case_if; apply keeps_alike.
Qed.

Lemma admitAndForward_because tn lp sel ref replay force : step_because tn lp (admitAndForward rq tn lp sel ref replay force).
Proof.
  unfold admitAndForward. cbv zeta.
  set (go := fun lp => match (if cancels (rq_operation rq) then None else tn_audit tn) with
    | Some failure => Return lp (OutReason failure)
    | None => if isSome (ctx_Err (tn_ctxAudited tn)) then Return lp OutCanceled
              else match (if cancels (rq_operation rq) then None else tn_groupSlot tn) with
                   | Some failure => Return lp (OutReason failure)
                   | None => forward rq tn lp sel ref replay force
                   end
    end).
  assert (forall lp, step_because tn lp (go lp)) as Hgo.
  { intros lp'. subst go. cbn beta. destruct (cancels _).
    - case_if; [done|apply forward_because].
    - destruct (tn_audit tn) eqn:Ea; [by left|]. case_if; [done|]. destruct (tn_groupSlot tn) eqn:Eg; [by right; left|apply forward_because]. }
  fold go. case_if; [|apply Hgo]. destruct (tn_quota tn); [|done|done]. by eapply step_because_alike; [|apply Hgo].
Qed.

Lemma attempt_because tn lp sel ref replay force : step_because tn lp (attempt rq tn lp sel ref replay force).
Proof.
  unfold attempt. cbv zeta. destruct (ActiveEncryptedCredentialDataIfMatch _ _); [|by apply keeps_alike].
  pose proof (SkipGroup_request (lp_iterator lp) (sel_GroupID sel)) as (_ & _ & _ & _ & Hst).
  destruct (tn_prepare tn) eqn:Ep.
  - case_if; [apply preparationFailure_because|]. case_if; [apply preparationFailure_because|].
    case_if; [|apply admitAndForward_because]. destruct (proxyFailure ref) as [[code summary] scope]. apply preparationFailure_because.
  - by right; right.
  - split; [done| |by left]. cbn. intros r [= <-]. destruct (lp_overrideFailure lp); [by left|by right; left].
  - split; [done| |by left]. cbn. intros r [= <-]. by right; right.
Qed.

Lemma Next_static it s now now' it' s' o : Next it s now now' = Ok (it', s', o) -> it_staticReason it' = it_staticReason it.
Proof.
  unfold Next. destruct (nextFrom _ it _ _) as [[[it1 s1] [x|]]|] eqn:E; cbn; [| |done].
  - intros [= <- _ _]. by apply nextFrom_request in E as (_ & _ & _ & _ & ->).
  - intros (_ & _ & _ & _ & ->)%nextFrom_request. by apply nextFrom_request in E as (_ & _ & _ & _ & ->).
Qed.

Lemma choose_because tn lp :
  match choose rq tn lp with
  | Chosen lp' _ _ _ _ | ChooseAgain lp' | ChooseExhausted lp' => alike lp lp'
  | ChoosePanic => True
  end.
Proof.
  unfold choose. destruct (lp_refreshRetry lp) as [rr|].
  - unfold chooseReplay. destruct (CredentialRefOf _ _); [|done]. case_if; [done|]. destruct (tn_replayNow tn) as [[t n] n'].
    destruct (ChargeReplay _ _ _ _ _ _ _) as [r0 []]; done.
  - unfold chooseNext. destruct (Next _ _ _ _) as [[[it' r'] o]|] eqn:En; [|done]. apply Next_static in En.
    destruct o as [sel|]; [|by split]. destruct (_ !! _); [case_if|]; by split.
Qed.

Lemma turn_because_ok tn lp : step_because tn lp (turn rq tn lp).
Proof.
  unfold turn. case_if; [done|]. set (lp1 := setHealth _ lp). pose proof (choose_because tn lp1) as Hc.
  apply (step_because_alike _ _ lp1); [done|]. destruct (choose rq tn lp1) as [lp2 sel ref replay force|lp2|lp2|]; [|by apply keeps_alike..|done].
  eapply step_because_alike; [exact Hc|]. by eapply step_because_alike; [|apply attempt_because].
Qed.

(** * The end of the loop *)

(** The explanation by cooldowns does not panic. *)
Context (Hinspect : forall r now, Inspect (Some sn) (Snapshot r) q now <> Err IndexOutOfRange).

Lemma finish_ok tns lp now :
  loop_end lp -> exists o, finish lp now = Return lp o /\ answered tns (lp_attempts lp) o.
Proof using Hinspect.
  intros [Hs Ht Hu Hd Hsome]. unfold deferreds in *.
  assert (Hans : forall o, explained tns (lp_attempts lp) o -> answered tns (lp_attempts lp) o)
    by (intros o Ho; split; [done|done|by apply final_uncommitted]).
  unfold finish. destruct (lp_deferred lp) as [x1 x2 x3 x4 x5]. cbn in *.
  destruct x5 as [x|]; [|destruct x4 as [x|]; [|destruct x1 as [x|]; [|destruct x2 as [x|]; [|destruct x3 as [x|]]]]]; cbn in *;
    try (assert (recorded (lp_attempts lp) (df_result x) (df_decision x)) by (apply (Hd x); constructor);
      eexists; split; [done|]; apply Hans; cbn; eauto; fail).
  assert (lp_attempts lp = []) as Enil by (destruct (lp_attempts lp); [done|by destruct (Hsome ltac:(done))]).
  case_if; [eexists; split; [done|]; apply Hans; by left|].
  destruct (if bool_decide (lp_attempts lp = []) then lp_overrideFailure lp else None); [eexists; split; [done|]; apply Hans; by left|].
  unfold CooldownUntil. rewrite (so_snapshot _ _ _ _ _ Hs), (so_query _ _ _ _ _ Hs).
  pose proof (Hinspect (hs_registry (lp_health lp)) now) as Hi. cbv zeta.
  destruct (Inspect (Some sn) _ _ _) as [report|[]] eqn:Ei; [|by destruct (Hi Ei)|eexists; split; [done|]; apply Hans; by left].
  case_if; [eexists; split; [done|]; apply Hans; by left|]. destruct (isZeroTime _); (eexists; split; [done|]; apply Hans; try done; by left).
Qed.

(** A credential of the registry cools down until then, itself or for a model. *)
Definition coolsUntil (r : CredentialRegistry) (now until : Z) : Prop :=
  now < until /\ exists e, entryLocked r (ent_ID e) = Some e
    /\ (ent_CooldownUntil e = until \/ exists model, ent_ModelCooldowns e !! model = Some until).

Lemma modelCooldown_entry limits model o now : now < modelCooldownUntil limits model o now ->
  modelCooldownUntil limits model o now = 0 \/ limits !! model = Some (modelCooldownUntil limits model o now).
Proof. unfold modelCooldownUntil. case_if; [by left|]. unfold mget. destruct (limits !! model); [by right|by left]. Qed.

Lemma cooling_entry r group e allowed now model o :
  entryLocked r (ent_ID e) = Some e -> let c := inspectCredential group (runtimeView e) allowed now model o in
  coolingReason (ci_Reason c) = true -> ci_CooldownUntil c = 0 \/ coolsUntil r now (ci_CooldownUntil c).
Proof.
  intros He c. subst c. unfold inspectCredential. cbv zeta. repeat (case_if; [done|]). unfold RuntimeState. cbn [runtimeView view_Status view_Blacklisted view_CooldownUntil view_ModelCooldowns] in *.
  pose proof (modelCooldown_entry (ent_ModelCooldowns e) model o now) as Hm. set (until := modelCooldownUntil _ _ _ _) in *.
  assert (now < until -> until = 0 \/ coolsUntil r now until) as Hu.
  { intros Hlt. destruct (Hm Hlt) as [?|Hl]; [by left|right]. split; [done|]. exists e. split; [done|]. right. by exists model. }
  assert (now < ent_CooldownUntil e -> coolsUntil r now (ent_CooldownUntil e)) as Hc by (intros Hlt; split; [done|]; exists e; auto).
  repeat case_if; cbn [ci_Reason ci_CooldownUntil]; try done; intros _; zb; try (apply Hu; lia). right. by apply Hc.
Qed.

Lemma cooldown_explained it r now until : index_ok r ->
  CooldownUntil it (Snapshot r) now = Ok (Some until) -> coolsUntil r now until.
Proof.
  intros Hix. unfold CooldownUntil. destruct (Inspect _ _ _ _) as [report|[]] eqn:Ei; [|done..]. case_if; [done|].
  assert (Forall (fun g => Forall (fun c => coolingReason (ci_Reason c) = true ->
    ci_CooldownUntil c = 0 \/ coolsUntil r now (ci_CooldownUntil c)) (gi_Credentials g)) (in_Groups report)) as Hall.
  { unfold Inspect in Ei. destruct (it_snapshot it) as [snap|]; [|done]. case_if_in Ei; [by injection Ei as <-|]. case_if_in Ei; [done|].
    destruct (evaluateTargets _ _ _ _) as [[ds reason]|]; [|done]. cbn in Ei.
    assert (in_Groups report = inspectGroup (normalizeQuery (it_query it)) (Snapshot r) now <$> ds) as ->
      by (case_if_in Ei; by injection Ei as <-).
    apply Forall_fmap, Forall_forall. intros d _. unfold inspectGroup. cbn. case_if; [constructor|]. cbn.
    apply Forall_fmap, Forall_forall. intros v Hv. unfold credentialsOfGroup in Hv.
    rewrite merge_sort_Permutation, list_elem_of_filter, Snapshot_elem in Hv by done. destruct Hv as (_ & e & He & ->).
    intros Hcool. by apply (cooling_entry r _ e _ _ _ _ He Hcool). }
  assert (earliestCooldown (in_Groups report) = 0 \/ coolsUntil r now (earliestCooldown (in_Groups report))) as Hfold.
  { unfold earliestCooldown. apply (fold_left_inv (fun acc => acc = 0 \/ coolsUntil r now acc)); [by left|].
    intros acc g Hg Hacc. case_if; [done|]. eapply Forall_forall in Hall; [|exact Hg].
    apply (fold_left_inv (fun acc => acc = 0 \/ coolsUntil r now acc)); [done|]. intros acc' c Hc Hacc'. eapply Forall_forall in Hall; [|exact Hc].
    unfold earliestStep. destruct (coolingReason (ci_Reason c)); cbn; [|done]. case_if; [by apply Hall|done]. }
  cbv zeta. unfold isZeroTime. destruct (Z.eqb_spec (earliestCooldown (in_Groups report)) 0) as [|Hne]; [done|]. intros [= <-]. by destruct Hfold.
Qed.

(** What the answer says is what happened: [start] is the iterator the request began with and
    [lp] the loop at its end. *)
Definition because (tns : list Turn) (start : Iterator) (lp : Loop) (now : Z) (o : Outcome) : Prop :=
  match o with
  | OutTransport r shown =>
      100 <= ur_StatusCode r < 200 /\ shown = reasonUpstreamProtocol
      \/ shown = transportReason r
      \/ isConversionUnsupportedResult r = true /\ shown = reasonProtocolConversionUnsupported
  | OutRateLimited until => coolsUntil (hs_registry (lp_health lp)) now until
  | OutReason r =>
      (exists tn, tn ∈ tns /\ refused tn r)
      \/ lp_attempts lp = []
         /\ (rq_redactionReady rq = false /\ r = reasonRedactionFailed
             \/ it_staticReason start = ReasonModelRequiredByFilter /\ r = reasonModelRequiredByFilter
             \/ (exists tn, tn ∈ tns /\ overridden tn r)
             \/ r = reasonNoCandidate
                /\ CooldownUntil (lp_iterator lp) (Snapshot (hs_registry (lp_health lp))) now = Ok None)
  | _ => True
  end.

(** The loop reached from [start] with the turns [done]. *)
Record since (dones : list Turn) (start : Iterator) (lp : Loop) : Prop := {
  sc_static : it_staticReason (lp_iterator lp) = it_staticReason start;
  sc_override : forall r, lp_overrideFailure lp = Some r -> exists tn, tn ∈ dones /\ overridden tn r;
  sc_conversion : forall x, lastConversion (lp_deferred lp) = Some x -> isConversionUnsupportedResult (df_result x) = true
}.

Lemma since_keeps dones start lp tn lp' : since dones start lp -> keeps tn lp lp' -> since (dones ++ [tn]) start lp'.
Proof.
  intros [H1 H2 H3] [K1 K2 K3]. split; [congruence| |].
  - intros r [Hr|Hr]%K2; [destruct (H2 r Hr) as (t & Ht & ?); exists t; split; [set_solver|done]|exists tn; split; [set_solver|done]].
  - intros x [Hx|Hx]%K3; auto.
Qed.

Lemma finish_because tns start lp now lp' o :
  since tns start lp -> loop_end lp -> finish lp now = Return lp' o -> lp' = lp /\ because tns start lp now o.
Proof.
  intros [H1 H2 H3] He. pose proof (le_some _ _ _ _ _ He) as Hsome. unfold deferreds in Hsome.
  pose proof (rg_index _ (so_registry _ _ _ _ _ (le_schedule _ _ _ _ _ He))) as Hix.
  unfold finish. destruct (lp_deferred lp) as [x1 x2 x3 x4 x5]. cbn in *.
  destruct x5 as [x|]; [by intros [= <- <-]|]. destruct x4 as [x|]; [by intros [= <- <-]|]. destruct x1 as [x|]; [by intros [= <- <-]|].
  destruct x2 as [x|]; [intros [= <- <-]; cbn; auto|].
  destruct x3 as [x|]; [intros [= <- <-]; cbn; split; [done|]; right; right; split; [by apply H3|done]|].
  assert (lp_attempts lp = []) as Enil by (destruct (lp_attempts lp); [done|by destruct (Hsome ltac:(done))]).
  destruct (strEq (it_staticReason (lp_iterator lp)) ReasonModelRequiredByFilter) eqn:Est.
  { intros [= <- <-]. split; [done|]. right. split; [done|]. right; left. split; [|done]. apply strEq_true in Est. congruence. }
  rewrite bool_decide_true by done. destruct (lp_overrideFailure lp) as [f|] eqn:Eo.
  { intros [= <- <-]. split; [done|]. right. split; [done|]. right; right; left. by apply H2. }
  destruct (CooldownUntil _ _ _) as [[until|]|] eqn:Ec; [| |done]; intros [= <- <-]; (split; [done|]).
  - by eapply cooldown_explained.
  - right. split; [done|]. by right; right; right.
Qed.

Lemma because_mono tns tns' start lp now o : tns ⊆ tns' -> because tns start lp now o -> because tns' start lp now o.
Proof. intros Hs. destruct o; cbn; try done. naive_solver. Qed.

(** The whole loop: it never panics, ends within its fuel, and its answer is accounted for. *)
Lemma run_spec turns lp now :
  Forall turn_ok turns -> loop_ok lp ->
  match run rq turns lp now with
  | Return lp' o => answered turns (lp_attempts lp') o
  | Continue lp' => trace_ok rq (lp_attempts lp') /\ (length turns <= fuelOf lp)%nat
  | Break _ | Panic => False
  end.
Proof using Hinspect.
  intros Htns. revert lp. induction Htns as [|tn turns Htn _ IH]; intros lp Hl; cbn [run].
  - destruct (Z.ltb_spec (lp_forwardAttempts lp) (rq_forwardAttemptLimit rq)); [split; [apply Hl|cbn; lia]|].
    by destruct (finish_ok [] lp now (loop_ok_end _ _ _ _ _ Hl)) as (o & -> & ?).
  - destruct (Z.ltb_spec (lp_forwardAttempts lp) (rq_forwardAttemptLimit rq)) as [Hroom|];
      [|by destruct (finish_ok (tn :: turns) lp now (loop_ok_end _ _ _ _ _ Hl)) as (o & -> & ?)].
    destruct (turn_spec tn lp Htn Hl Hroom) as [Hstep Hfuel]. destruct (turn rq tn lp) as [lp1|lp1|lp1 o|]; cbn [step_ok] in Hstep.
    + specialize (IH lp1 (proj1 Hstep)). specialize (Hfuel lp1 eq_refl). destruct (run rq turns lp1 now) as [lp2|lp2|lp2 o|]; try done.
      * split; [apply IH|]. cbn [length]. destruct IH. lia.
      * eapply answered_mono; [|exact IH]. set_solver.
    + by destruct (finish_ok (tn :: turns) lp1 now Hstep) as (o & -> & ?).
    + eapply answered_mono; [|exact Hstep]. set_solver.
    + done.
Qed.

Lemma run_because dones turns start lp now lp' o :
  Forall turn_ok turns -> loop_ok lp -> since dones start lp -> run rq turns lp now = Return lp' o ->
  because (dones ++ turns) start lp' now o.
Proof using Hinspect.
  intros Htns. revert dones lp. induction Htns as [|tn turns Htn _ IH]; intros dones lp Hl Hsince; cbn [run].
  - destruct (_ <? _); [done|]. intros E. destruct (finish_because dones start lp now lp' o Hsince (loop_ok_end _ _ _ _ _ Hl) E) as [-> Hb].
    by rewrite app_nil_r.
  - destruct (Z.ltb_spec (lp_forwardAttempts lp) (rq_forwardAttemptLimit rq)) as [Hroom|].
    2:{ intros E. destruct (finish_because dones start lp now lp' o Hsince (loop_ok_end _ _ _ _ _ Hl) E) as [-> Hb].
        eapply because_mono; [|exact Hb]. set_solver. }
    destruct (turn_spec tn lp Htn Hl Hroom) as [Hstep _]. pose proof (turn_because_ok tn lp) as Hb.
    destruct (turn rq tn lp) as [lp1|lp1|lp1 o1|]; cbn [step_ok step_because] in *; [| | |done].
    + intros E. pose proof (since_keeps _ _ _ _ _ Hsince Hb) as Hs1. specialize (IH _ _ (proj1 Hstep) Hs1 E). by rewrite <- app_assoc in IH.
    + intros E. pose proof (since_keeps _ _ _ _ _ Hsince Hb) as Hs1.
      destruct (finish_because _ start lp1 now lp' o Hs1 Hstep E) as [-> Hb']. eapply because_mono; [|exact Hb']. set_solver.
    + intros [= <- <-]. destruct o1; cbn in *; try done; [|destruct Hb; auto]. left. exists tn. split; [set_solver|done].
Qed.
End step.

(** * The loop as a whole

    The failover loop of a request: it always ends with an answer, within the limits on
    attempts, replays a request only when that is safe, and the answer accounts for what
    happened. *)

Lemma Inspect_no_panic gs sn r q now :
  compiled_snapshot gs sn -> Inspect (Some sn) (Snapshot r) q now <> Err IndexOutOfRange.
Proof.
  intros Hcomp. unfold Inspect. case_if; [done|]. case_if; [done|].
  destruct (evaluateTargets_total gs sn Hcomp (snap_ExecutionRouteCatalog sn) (normalizeQuery q) false) as (ds & reason & -> & _).
  { intros w routes rt Er Hin. by eapply (catalog_routed gs sn Hcomp) in Er as [? _]. }
  by case_if.
Qed.

(** The attempts a step has recorded. *)
Definition attemptsOf (s : Step) : list Attempt :=
  match s with Continue lp | Break lp | Return lp _ => lp_attempts lp | Panic => [] end.

Section request.
Context `{GoText}.
Context (strategy : RouteStrategy) (gs : list GroupConfig) (order : gmap Z GroupView -> list GroupView) (sn : ConfigSnapshot).
Context (Hch : Forall channel_ok gs) (Hcompile : Compile strategy gs order = Ok sn).
Context (q : Query) (refs : gmap Z CredentialRef) (Hrefs : q_AllowedCredentialRefs q = Some refs).
Context (h : Health) (Hreg : registry_ok (hs_registry h)).
Context (it : Iterator) (r : CredentialRegistry) (Hnew : newWithClock (Some sn) (hs_registry h) q = Ok (it, r)).
Context (rq : Request) (turns : list Turn) (Hturns : Forall turn_ok turns) (now : Z).

Lemma executeAttempts_spec :
  match executeAttempts rq turns (mkHealth r (hs_stats h)) it now with
  | Return lp o => answered rq turns (lp_attempts lp) o /\ because rq turns it lp now o
  | Continue lp => trace_ok rq (lp_attempts lp) /\ (length turns <= 2 * size refs)%nat
  | Break _ | Panic => False
  end.
Proof using Hch Hcompile Hrefs Hreg Hnew Hturns.
  pose proof Hcompile as Hc. apply Compile_compiled in Hc as [Hok Hcomp]; [|by intros g Hg; eapply Forall_forall in Hch as [_ ?]].
  destruct (candidate_targets_ok gs sn Hok Hch Hcomp q) as (ds & reason & E & Ef & Ht).
  pose proof Hnew as HN. unfold newWithClock in HN. rewrite Ef in HN. cbn [fst snd] in HN.
  assert (Hsrc : src_ok (hs_registry h)) by exact Hreg.
  destruct (buildIterator_ok (Some sn) (hs_registry h) q _ reason Ht Hsrc) as [Hit Hs'].
  assert (buildIterator (Some sn) (hs_registry h) q (omap (candidateOf sn) ds) reason = (it, r)) as HB by congruence.
  rewrite HB in Hit, Hs'. cbn [fst snd] in *.
  unfold buildIterator in HB. apply (f_equal fst) in HB as Eit. cbn [fst] in Eit.
  assert (trace_ok rq []) as Hnil.
  { split; [cbn; lia|constructor|cbn; lia| |constructor]. by intros [] ? ? ?. }
  unfold executeAttempts. destruct (rq_redactionReady rq) eqn:Hready; cbn [negb].
  2: { split; [split; [done|by left|]; by intros a ?%not_elem_of_nil|]. right. split; [done|]. by left. }
  set (ids := (fun ref => (ref_GroupID ref, ref_IdentityGeneration ref)) <$> refs : gmap Z (Z * Z)).
  assert (Attempts.loop_ok rq sn q ids (initialLoop (mkHealth r (hs_stats h)) it)) as Hl.
  { split; try done; cbn; try (by intros ? ?%not_elem_of_nil).
    split; try done; rewrite <- Eit; [cbn; by rewrite Hrefs|done|done|cbn; set_solver]. }
  pose proof (run_spec rq sn q ids (fun r now => Inspect_no_panic gs sn r q now Hcomp) turns _ now Hturns Hl) as Hrun.
  assert (since [] it (initialLoop (mkHealth r (hs_stats h)) it)) as Hsince by done.
  pose proof (fun lp o => run_because rq sn q ids (fun r now => Inspect_no_panic gs sn r q now Hcomp) [] turns it _ now lp o Hturns Hl Hsince) as Hbec.
  destruct (run _ _ _ _); try done; [|split; [done|by apply Hbec]]. split; [apply Hrun|]. destruct Hrun as [_ Hlen].
  unfold fuelOf, ids in Hlen. rewrite <- Eit in Hlen. cbn in Hlen. rewrite map_size_fmap, size_empty in Hlen. lia.
Qed.

(** C1: Every request is answered.  With a compiled configuration, an iterator over captured
    credentials and any interleaving of other requests and configuration changes that keeps the
    registry's invariant, the failover loop does not panic and ends with an answer after at most
    two iterations per captured credential and one more, whatever the upstreams do. *)
Theorem request_always_answered :
  (2 * size refs < length turns)%nat ->
  exists lp o, executeAttempts rq turns (mkHealth r (hs_stats h)) it now = Return lp o.
Proof using Hch Hcompile Hrefs Hreg Hnew Hturns.
  intros Hlen. pose proof executeAttempts_spec as Hs. destruct (executeAttempts _ _ _ _ _) as [lp|lp|lp o|]; [lia|done|by eauto|done].
Qed.

Lemma executeAttempts_trace : trace_ok rq (attemptsOf (executeAttempts rq turns (mkHealth r (hs_stats h)) it now)).
Proof using Hch Hcompile Hrefs Hreg Hnew Hturns.
  pose proof executeAttempts_spec as Hs. destruct (executeAttempts _ _ _ _ _); try done; [apply Hs|]. by destruct Hs as [[? _ _] _].
Qed.

(** C23: The limits on attempts hold.  At most the configured number of attempts is forwarded
    upstream; apart from replays no credential is used twice; there is at most one replay, and it
    repeats the attempt just before it, with the same selection, after its judgement asked for the
    credential to be refreshed. *)
Theorem failover_bounded :
  let l := attemptsOf (executeAttempts rq turns (mkHealth r (hs_stats h)) it now) in
  Z.of_nat (length (filter (fun a => ar_Forwarded a = true) l)) <= Z.max 0 (rq_forwardAttemptLimit rq)
  /\ NoDup ((fun a => sel_CredentialID (ar_Selection a)) <$> filter (fun a => ar_Replay a = false) l)
  /\ (length (filter (fun a => ar_Replay a = true) l) <= 1)%nat
  /\ (forall pre b post, l = pre ++ b :: post -> ar_Replay b = true ->
      exists a, last pre = Some a /\ ar_Selection b = ar_Selection a /\ d_Retry (ar_Decision a) = RetryRefreshCredential).
Proof using Hch Hcompile Hrefs Hreg Hnew Hturns. by destruct executeAttempts_trace. Qed.

(** C4: A request is sent again only when that is safe.  An attempt that is followed by another
    one has committed nothing to the client, was judged to be retryable, and satisfies the
    conditions of a safe replay for the request's operation. *)
Theorem failover_replays_safely pre a b post :
  attemptsOf (executeAttempts rq turns (mkHealth r (hs_stats h)) it now) = pre ++ a :: b :: post ->
  ur_Committed (ar_Result a) = false /\ d_Retry (ar_Decision a) <> RetryNone
  /\ replay_safe (attemptOf (ar_Result a) (ar_Now a)) (decisionContextForSelection rq (ar_Selection a)).
Proof using Hch Hcompile Hrefs Hreg Hnew Hturns.
  intros E. pose proof (tr_passed _ _ executeAttempts_trace) as Hp. rewrite E in Hp.
  assert (passed rq a) as [Hr Hc Hj].
  { eapply Forall_forall; [exact Hp|]. rewrite removelast_app by done. apply elem_of_app. right. cbn. destruct post; constructor. }
  split; [done|]. split; [done|]. apply judge_retry_safe. rewrite Hj in Hr. unfold judgeUpstreamResult in Hr. by case_if_in Hr.
Qed.

End request.

(** * A concrete request: one rate-limited attempt, then a success *)

#[local] Existing Instance asciiText.

Definition exRefs : gmap Z CredentialRef :=
  list_to_map (omap (fun id => (fun ref => (id, ref)) <$> CredentialRefOf exRegistry id) [1; 2; 3]).
Definition exBoundQuery : Query :=
  mkQuery OpenAICompletions OperationChatCompletion "" "" (Some "gpt"%string) (mkAccessKeyView 1 "active" exFilters) None 0 (Some exRefs) None.
Definition exRequest : Request := mkRequest true 3 exRefs OperationChatCompletion false "POST" false false.

Definition exResult (status : Z) (evidence : option ErrorEvidence) : UpstreamResult :=
  mkResult status ∅ [] "" None true false false false noStream DispatchMaybeSent true evidence.
Definition exTurn (result : UpstreamResult) : Turn :=
  let live := mkReqContext None false in
  mkTurn live (fun h => h) 9 9 (9, 9, 9) (fun h => h) PreparedOk true true true QuotaAdmitted None live None result (fun h => h)
    None live exNow 9 true.
Definition exTurns : list Turn := exTurn (exResult 429 (Some exLimited)) :: replicate 6 (exTurn (exResult 200 None)).

Lemma exTurns_ok : Forall turn_ok exTurns.
Proof. apply Forall_forall. intros tn [-> |[-> _]%elem_of_replicate]%elem_of_cons; by split. Qed.

Definition exStarted : Iterator * CredentialRegistry :=
  match newWithClock (Some exCompiled) exRegistry exBoundQuery with Ok x => x | Err _ => (exIterator, exRegistry) end.

Lemma exStarted_new : newWithClock (Some exCompiled) exRegistry exBoundQuery = Ok (exStarted.1, exStarted.2).
Proof. vm_compute. reflexivity. Qed.

Definition exRun : Step := executeAttempts exRequest exTurns (mkHealth exStarted.2 (hs_stats exHealth)) exStarted.1 9.

(** Two attempts: the first credential's model is rate limited, the second credential answers. *)
Lemma request_always_answered_witness :
  (fun a => (sel_CredentialID (ar_Selection a), d_Retry (ar_Decision a))) <$> attemptsOf exRun = [(1, RetryNextCandidate); (2, RetryNone)]
  /\ exists lp o, exRun = Return lp o.
Proof.
  split; [vm_compute; reflexivity|].
  unfold exRun. apply (request_always_answered RouteStrategyNativeFirst exGroups anyOrder exCompiled exGroups_channels exCompile exBoundQuery exRefs
           eq_refl exHealth exRegistry_ok exStarted.1 exStarted.2 exStarted_new exRequest exTurns exTurns_ok 9).
  vm_compute. lia.
Defined.

Lemma failover_bounded_witness :
  length (filter (fun a => ar_Forwarded a = true) (attemptsOf exRun)) = 2%nat
  /\ NoDup ((fun a => sel_CredentialID (ar_Selection a)) <$> filter (fun a => ar_Replay a = false) (attemptsOf exRun)).
Proof.
  split; [vm_compute; reflexivity|].
  unfold exRun. apply (failover_bounded RouteStrategyNativeFirst exGroups anyOrder exCompiled exGroups_channels exCompile exBoundQuery exRefs
           eq_refl exHealth exRegistry_ok exStarted.1 exStarted.2 exStarted_new exRequest exTurns exTurns_ok 9).
Defined.

Lemma failover_replays_safely_witness :
  exists a b, attemptsOf exRun = [a; b]
    /\ replay_safe (attemptOf (ar_Result a) (ar_Now a)) (decisionContextForSelection exRequest (ar_Selection a)).
Proof.
  assert (length (attemptsOf exRun) = 2%nat) as Hlen by (vm_compute; reflexivity).
  destruct (attemptsOf exRun) as [|a [|b [|c l]]] eqn:E; try discriminate Hlen.
  exists a, b. split; [reflexivity|].
  unfold exRun. apply (failover_replays_safely RouteStrategyNativeFirst exGroups anyOrder exCompiled exGroups_channels exCompile exBoundQuery exRefs
           eq_refl exHealth exRegistry_ok exStarted.1 exStarted.2 exStarted_new exRequest exTurns exTurns_ok 9 [] a b []).
  exact E.
Defined.

