(* ===== verification/Usage.v ===== *)
(** Token usage ([internal/usage]): checked arithmetic, diagnostics, and the accumulator
    that collects one result over a stream of provider events. *)
From S2P Require Import Prelude GoStrings.

Local Open Scope Z_scope.
Local Open Scope go_scope.

Record Tokens := mkTokens {
  UncachedInput : Z;
  CacheRead : Z;
  CacheWrite5M : Z;
  CacheWrite1H : Z;
  CacheWriteUnknown : Z;
  Output : Z
}.

Definition zeroTokens : Tokens := mkTokens 0 0 0 0 0 0.

Definition tokenFields (t : Tokens) : list Z :=
  [UncachedInput t; CacheRead t; CacheWrite5M t; CacheWrite1H t; CacheWriteUnknown t; Output t].

Inductive UsageState :=
| StateComplete
| StatePartial
| StateMissing
| StateNotApplicable
| StateOther (s : string).

#[export] Instance UsageState_eq_dec : EqDecision UsageState.
Proof. solve_decision. Defined.

(** * Checked arithmetic; [None] is Go's [(0, false)] *)

Definition SubtractCached (inclusive cached : Z) : option Z :=
  if (inclusive <? 0) || (cached <? 0) || (inclusive <? cached) then None else Some (inclusive - cached).

(** The comparison subtracts first, at 64 bits. *)
Definition CheckedAdd (l r : Z) : option Z :=
  if (l <? 0) || (r <? 0) || (i64 (maxInt64 - r) <? l) then None else Some (i64 (l + r)).

Fixpoint checkedSum (total : Z) (vs : list Z) : option Z :=
  match vs with
  | [] => Some total
  | v :: vs' => match CheckedAdd total v with Some t => checkedSum t vs' | None => None end
  end.

Definition CheckedTotal (t : Tokens) : option Z := checkedSum 0 (tokenFields t).

(** * Diagnostics *)

Inductive DiagnosticCode :=
| UnsupportedBillableDetail
| CacheWriteDefaulted5M
| NegativeValue
| InvalidNumber
| MissingRequiredField
| InconsistentTotal
| InvalidPayload
| InvalidEventSequence
| OtherCode (s : string).

#[export] Instance DiagnosticCode_eq_dec : EqDecision DiagnosticCode.
Proof. solve_decision. Defined.

(** The bit of a supported code. *)
Definition codeBit (c : DiagnosticCode) : option Z :=
  match c with
  | UnsupportedBillableDetail => Some 0
  | CacheWriteDefaulted5M => Some 1
  | NegativeValue => Some 2
  | InvalidNumber => Some 3
  | MissingRequiredField => Some 4
  | InconsistentTotal => Some 5
  | InvalidPayload => Some 6
  | InvalidEventSequence => Some 7
  | OtherCode _ => None
  end.

Record Diagnostics := mkDiagnostics { dg_flags : Z; dg_totalDelta : Z; dg_deltaPresent : bool }.

Definition noDiagnostics : Diagnostics := mkDiagnostics 0 0 false.

Definition diagAdd (d : Diagnostics) (c : DiagnosticCode) : Diagnostics :=
  match codeBit c with
  | Some b => mkDiagnostics (Z.lor (dg_flags d) (Z.shiftl 1 b)) (dg_totalDelta d) (dg_deltaPresent d)
  | None => d
  end.

Definition diagHas (d : Diagnostics) (c : DiagnosticCode) : bool :=
  match codeBit c with
  | Some b => negb (Z.land (dg_flags d) (Z.shiftl 1 b) =? 0)
  | None => false
  end.

Definition SetTotalDelta (d : Diagnostics) (delta : Z) : Diagnostics :=
  mkDiagnostics (dg_flags (diagAdd d InconsistentTotal)) delta true.

Definition TotalDelta (d : Diagnostics) : Z * bool := (dg_totalDelta d, dg_deltaPresent d).

Definition diagMerge (d other : Diagnostics) : Diagnostics :=
  mkDiagnostics (Z.lor (dg_flags d) (dg_flags other))
    (if dg_deltaPresent other then dg_totalDelta other else dg_totalDelta d)
    (dg_deltaPresent other || dg_deltaPresent d).

(** * Measured units *)

Record Units := mkUnits {
  un_Images : option Z;
  un_ImageTokens : option Z;
  un_AudioMilliseconds : option Z;
  un_Pages : option Z;
  un_SearchUnits : option Z
}.

Definition noUnits : Units := mkUnits None None None None None.

Definition HasPositive (u : Units) : bool :=
  existsb (fun v => match v with Some x => 0 <? x | None => false end)
    [un_Images u; un_ImageTokens u; un_AudioMilliseconds u; un_Pages u; un_SearchUnits u].

(** * Results and patches *)

Record UsageResult := mkResult {
  res_MeasuredUnits : Units;
  res_Tokens : Tokens;
  res_State : UsageState;
  res_Diagnostics : Diagnostics
}.

Record Patch := mkPatch {
  p_UncachedInput : option Z;
  p_CacheRead : option Z;
  p_CacheWrite5M : option Z;
  p_CacheWrite1H : option Z;
  p_CacheWriteUnknown : option Z;
  p_Output : option Z;
  p_Final : bool;
  p_Diagnostics : Diagnostics
}.

Definition patchFields (p : Patch) : list (option Z) :=
  [p_UncachedInput p; p_CacheRead p; p_CacheWrite5M p; p_CacheWrite1H p; p_CacheWriteUnknown p; p_Output p].

Definition validPatch (p : Patch) : bool :=
  forallb (fun v => match v with Some x => negb (x <? 0) | None => true end) (patchFields p).

(** * The accumulator *)

Record Accumulator := mkAccumulator {
  acc_tokens : Tokens;
  acc_presence : Z;
  acc_diagnostics : Diagnostics;
  acc_final : bool;
  acc_finalized : bool
}.

Definition newAccumulator : Accumulator := mkAccumulator zeroTokens 0 noDiagnostics false false.

Inductive UsageError := ErrFinalized | ErrNegativePatch | ErrTokenOverflow.

(** The bit of each present field, in field order. *)
Definition presenceOf (p : Patch) : Z :=
  let bit (i : Z) (v : option Z) := match v with Some _ => Z.shiftl 1 i | None => 0 end in
  Z.lor (bit 0 (p_UncachedInput p)) (Z.lor (bit 1 (p_CacheRead p)) (Z.lor (bit 2 (p_CacheWrite5M p))
    (Z.lor (bit 3 (p_CacheWrite1H p)) (Z.lor (bit 4 (p_CacheWriteUnknown p)) (bit 5 (p_Output p)))))).

Definition accApply (a : Accumulator) (p : Patch) : Accumulator :=
  let t := acc_tokens a in
  mkAccumulator
    (mkTokens (default (UncachedInput t) (p_UncachedInput p)) (default (CacheRead t) (p_CacheRead p))
       (default (CacheWrite5M t) (p_CacheWrite5M p)) (default (CacheWrite1H t) (p_CacheWrite1H p))
       (default (CacheWriteUnknown t) (p_CacheWriteUnknown p)) (default (Output t) (p_Output p)))
    (Z.lor (acc_presence a) (presenceOf p)) (acc_diagnostics a) (acc_final a) (acc_finalized a).

Definition ReplaceSnapshot (a : Accumulator) (p : Patch) : result UsageError Accumulator :=
  if acc_finalized a then Err ErrFinalized
  else if negb (validPatch p) then Err ErrNegativePatch
  else
    let candidate := accApply (mkAccumulator zeroTokens 0 (p_Diagnostics p) (p_Final p) false) p in
    if isNil (CheckedTotal (acc_tokens candidate)) then Err ErrTokenOverflow
    else Ok (mkAccumulator (acc_tokens candidate) (acc_presence candidate) (acc_diagnostics candidate)
               (acc_final candidate) (acc_finalized a)).

Definition MergePatch (a : Accumulator) (p : Patch) : result UsageError Accumulator :=
  if acc_finalized a then Err ErrFinalized
  else if negb (validPatch p) then Err ErrNegativePatch
  else
    let candidate := accApply a p in
    if isNil (CheckedTotal (acc_tokens candidate)) then Err ErrTokenOverflow
    else Ok (mkAccumulator (acc_tokens candidate) (acc_presence candidate)
               (diagMerge (acc_diagnostics candidate) (p_Diagnostics p))
               (acc_final candidate || p_Final p) (acc_finalized a)).

(** A second [Finalize] publishes nothing. *)
Definition Finalize (a : Accumulator) (applicable : bool) : Accumulator * option UsageResult :=
  if acc_finalized a then (a, None)
  else
    (mkAccumulator (acc_tokens a) (acc_presence a) (acc_diagnostics a) (acc_final a) true,
     Some (if negb applicable then mkResult noUnits zeroTokens StateNotApplicable noDiagnostics
           else mkResult noUnits (acc_tokens a)
                  (if acc_presence a =? 0 then StateMissing else if acc_final a then StateComplete else StatePartial)
                  (acc_diagnostics a))).

(** * Lemmas *)

Lemma CheckedAdd_spec l r v :
  is_i64 l -> is_i64 r ->
  CheckedAdd l r = Some v <-> 0 <= l /\ 0 <= r /\ l + r <= maxInt64 /\ v = l + r.
Proof.
  unfold CheckedAdd. unfold_ints. intros Hl Hr.
  destruct (Z.ltb_spec l 0); cbn [orb]; [split; [done|lia]|].
  destruct (Z.ltb_spec r 0); cbn [orb]; [split; [done|lia]|].
  rewrite !Z.mod_small by lia.
  destruct (Z.ltb_spec (9223372036854775807 - r + 9223372036854775808 - 9223372036854775808) l); [split; [done|lia]|].
  rewrite Z.mod_small by lia. split; [intros [= <-]|intros (_ & _ & _ & ->)]; [lia|]. f_equal. lia.
Qed.

Lemma checkedSum_spec vs total v :
  is_i64 total -> 0 <= total -> Forall is_i64 vs ->
  checkedSum total vs = Some v <-> Forall (fun x => 0 <= x) vs /\ total + foldr Z.add 0 vs <= maxInt64 /\ v = total + foldr Z.add 0 vs.
Proof.
  revert total. induction vs as [|x vs IH]; intros total Ht H0 Hvs; cbn [checkedSum foldr].
  { unfold is_i64 in Ht. split; [intros [= <-]|intros (_ & _ & ->)]; [split; [constructor|lia]|f_equal; lia]. }
  apply Forall_cons in Hvs as [Hx Hvs]. destruct (CheckedAdd total x) as [t|] eqn:E.
  - apply CheckedAdd_spec in E as (_ & Hx0 & Hle & ->); [|done..].
    rewrite IH; [|unfold_ints; lia|lia|done]. rewrite Forall_cons. split; [intros (? & ? & ->)|intros ((_ & ?) & ? & ->)]; (split; [|split]); try lia; naive_solver.
  - split; [done|]. rewrite Forall_cons. intros ((Hx0 & Hr) & Hle & _).
    assert (0 <= foldr Z.add 0 vs) by (clear - Hr; induction Hr; cbn; lia).
    assert (CheckedAdd total x = Some (total + x)) as E' by (apply CheckedAdd_spec; [done..|lia]). congruence.
Qed.

Definition tokens_typed (t : Tokens) : Prop := Forall is_i64 (tokenFields t).
Definition tokenSum (t : Tokens) : Z := foldr Z.add 0 (tokenFields t).

(** [CheckedTotal] is the exact sum when every field is non-negative and the sum fits, and
    fails otherwise. *)
Lemma CheckedTotal_spec t v :
  tokens_typed t ->
  CheckedTotal t = Some v <-> Forall (fun x => 0 <= x) (tokenFields t) /\ tokenSum t <= maxInt64 /\ v = tokenSum t.
Proof. intros Ht. unfold CheckedTotal. by rewrite checkedSum_spec. Qed.

(** * Reachable accumulators *)

Definition patch_typed (p : Patch) : Prop :=
  Forall (fun v => match v with Some x => is_i64 x | None => True end) (patchFields p).

(** Published tokens are non-negative and their total fits; an untouched accumulator is zero. *)
Record acc_ok (a : Accumulator) : Prop := {
  acc_nonneg : Forall (fun x => 0 <= x) (tokenFields (acc_tokens a));
  acc_fits : tokenSum (acc_tokens a) <= maxInt64;
  acc_absent : acc_presence a = 0 -> acc_tokens a = zeroTokens
}.

Inductive acc_step : Accumulator -> Accumulator -> Prop :=
| as_replace a p a' : patch_typed p -> ReplaceSnapshot a p = Ok a' -> acc_step a a'
| as_merge a p a' : patch_typed p -> MergePatch a p = Ok a' -> acc_step a a'
| as_finalize a b : acc_step a (Finalize a b).1.

Lemma acc_ok_typed a : acc_ok a -> tokens_typed (acc_tokens a).
Proof.
  intros [Hn Hf _]. unfold tokens_typed, tokenSum, tokenFields in *. rewrite !Forall_cons in *. cbn in *.
  unfold_ints. destruct_and!. repeat (split; [lia|]). done.
Qed.

(** A presence mask of zero means that the patch had no field. *)
Lemma presence_zero p :
  presenceOf p = 0 -> p_UncachedInput p = None /\ p_CacheRead p = None /\ p_CacheWrite5M p = None
    /\ p_CacheWrite1H p = None /\ p_CacheWriteUnknown p = None /\ p_Output p = None.
Proof.
  unfold presenceOf. rewrite !Z.lor_eq_0_iff.
  destruct (p_UncachedInput p), (p_CacheRead p), (p_CacheWrite5M p), (p_CacheWrite1H p), (p_CacheWriteUnknown p), (p_Output p);
    cbn; naive_solver lia.
Qed.

Lemma accApply_ok a p :
  acc_ok a -> patch_typed p -> CheckedTotal (acc_tokens (accApply a p)) <> None -> acc_ok (accApply a p).
Proof.
  intros Ha Hp Ht. pose proof (acc_ok_typed a Ha) as Hty.
  assert (tokens_typed (acc_tokens (accApply a p))) as Hty'.
  { unfold tokens_typed, patch_typed, patchFields, tokenFields in *. rewrite !Forall_cons in *. cbn.
    destruct (p_UncachedInput p), (p_CacheRead p), (p_CacheWrite5M p), (p_CacheWrite1H p), (p_CacheWriteUnknown p), (p_Output p);
      cbn; naive_solver. }
  destruct (CheckedTotal _) as [v|] eqn:E; [|done]. apply CheckedTotal_spec in E as (Hn & Hf & _); [|done].
  split; [done|done|]. cbn [accApply acc_presence acc_tokens]. rewrite Z.lor_eq_0_iff. intros [E0 (-> & -> & -> & -> & -> & ->)%presence_zero].
  cbn. rewrite (acc_absent a Ha E0). done.
Qed.

Lemma acc_step_ok a a' : acc_step a a' -> acc_ok a -> acc_ok a'.
Proof.
  intros [b p b' Hp H|b p b' Hp H|b ap] Ha.
  - unfold ReplaceSnapshot in H. destruct (acc_finalized b); [done|]. destruct (validPatch p); [|done]. cbn [negb] in H. destruct (CheckedTotal _) eqn:E; cbn [isNil] in H; [|done].
    injection H as <-. assert (acc_ok (accApply (mkAccumulator zeroTokens 0 (p_Diagnostics p) (p_Final p) false) p)) as Hok.
    { apply accApply_ok; [|done|congruence]. split; [repeat constructor; cbn; lia|vm_compute; discriminate|done]. }
    destruct Hok. by split.
  - unfold MergePatch in H. destruct (acc_finalized b); [done|]. destruct (validPatch p); [|done]. cbn [negb] in H. destruct (CheckedTotal _) eqn:E; cbn [isNil] in H; [|done].
    injection H as <-. assert (acc_ok (accApply b p)) as Hok by (apply accApply_ok; [done|done|congruence]). destruct Hok. by split.
  - unfold Finalize. case_if; [done|]. destruct Ha. by split.
Qed.

(** * Properties *)

Lemma acc_reachable a : rtc acc_step newAccumulator a -> acc_ok a.
Proof.
  apply (rtc_ind_r (fun a => acc_ok a)).
  - split; [repeat constructor; cbn; lia|vm_compute; discriminate|done].
  - intros a1 a2 _ Hs Ha. by eapply acc_step_ok.
Qed.

(** One consistent result per request.  Whatever sequence of snapshots and patches an
    accumulator received, refused ones included, finalising it publishes exactly one result:
    its token counts are non-negative, their total fits 64 bits and is what [CheckedTotal]
    returns, a result without any reported field is marked missing and is zero, and every
    later update or finalisation is refused. *)
Theorem usage_published_once a b p :
  rtc acc_step newAccumulator a -> acc_finalized a = false ->
  let '(a', o) := Finalize a true in
  exists r, o = Some r /\ Forall (fun x => 0 <= x) (tokenFields (res_Tokens r))
    /\ CheckedTotal (res_Tokens r) = Some (tokenSum (res_Tokens r))
    /\ (res_State r = StateMissing -> res_Tokens r = zeroTokens)
    /\ (Finalize a' b).2 = None /\ ReplaceSnapshot a' p = Err ErrFinalized /\ MergePatch a' p = Err ErrFinalized.
Proof.
  intros Hr Hf. pose proof (acc_reachable a Hr) as Hok. pose proof (acc_ok_typed a Hok) as Hty. destruct Hok as [Hn Hfit Habs].
  unfold Finalize. rewrite Hf. eexists. split; [done|]. cbn [negb res_Tokens res_State]. split; [done|]. split.
  - by apply CheckedTotal_spec.
  - split; [|done]. destruct (Z.eqb_spec (acc_presence a) 0); [auto|]. by destruct (acc_final a).
Qed.

Definition exPatch : Patch := mkPatch (Some 10) None None None None (Some 5) true noDiagnostics.

Lemma usage_published_once_witness :
  match MergePatch newAccumulator exPatch with
  | Ok a => (Finalize a true).2 = Some (mkResult noUnits (mkTokens 10 0 0 0 0 5) StateComplete noDiagnostics)
            /\ (Finalize (Finalize a true).1 false).2 = None
  | Err _ => False
  end.
Proof.
  destruct (MergePatch newAccumulator exPatch) as [a|] eqn:E; [|discriminate E]. split.
  - injection E as <-. reflexivity.
  - pose proof (usage_published_once a false exPatch) as H. destruct (Finalize a true) as [a' o].
    destruct H as (r & _ & _ & _ & _ & H & _).
    + eapply rtc_l; [|apply rtc_refl]. apply (as_merge newAccumulator exPatch a); [|exact E].
      unfold patch_typed, patchFields, exPatch. repeat constructor; unfold is_i64, minInt64, maxInt64; lia.
    + injection E as <-. reflexivity.
    + exact H.
Defined.
