(* ===== verification/Money.v ===== *)
(** Amounts of money ([internal/pricing/nanousd.go], [price_multiplier.go]): nano-USD
    amounts, price multipliers in millionths, their decimal texts, and rounding.

    [big.Int] arithmetic is [Z] arithmetic; [IsInt64] is the range test.  Strings are
    handled as byte lists; [of_bytes] makes the string. *)
From S2P Require Import Prelude GoStrings.
From Stdlib Require Import Ascii.

Local Open Scope Z_scope.
Local Open Scope go_scope.

Definition nanoUSDPerUSD : Z := 1000000000.
Definition tokensPerMillion : Z := 1000000.

Record Multiplier := mkMultiplier { Numerator : Z; Denominator : Z }.

#[export] Instance Multiplier_eq_dec : EqDecision Multiplier.
Proof. solve_decision. Defined.

Definition directPriceMultiplier : Multiplier := mkMultiplier 1 1.
Definition cacheWriteOneHourMultiplier : Multiplier := mkMultiplier 8 5.

Definition isInt64 (z : Z) : bool := (minInt64 <=? z) && (z <=? maxInt64).

Definition dot : ascii := "."%char.

(** Every rune is a digit exactly when every byte is. *)
Definition decimalDigits (l : list ascii) : bool := forallb isDigit l.

(** * Decimal texts *)

Inductive MoneyError := NotADecimal | TooManyPlaces | NegativeOrMalformed | OutOfRange.

Definition ParseUSD (value : string) : result MoneyError Z :=
  if bool_decide (value = EmptyString) || negb (bool_decide (TrimSpace value = value)) then Err NotADecimal
  else
    let '(integer, fraction, hasFraction) := cutAt dot (bytes_of value) in
    if bool_decide (integer = []) || (hasFraction && bool_decide (fraction = []))
       || containsByte dot fraction || (9 <? length fraction)%nat then Err TooManyPlaces
    else if negb (decimalDigits integer) || (hasFraction && negb (decimalDigits fraction)) then Err NegativeOrMalformed
    else
      let amount := digitsVal (integer ++ fraction ++ zeros (9 - length fraction)) in
      if negb (isInt64 amount) then Err OutOfRange else Ok amount.

(** The fraction padded to [width] digits, without trailing zeros. *)
Definition fractionText (width : nat) (fraction : Z) : list ascii :=
  let text := formatNat fraction in
  trimRightZeros (zeros (width - length text) ++ text).

Definition minus : ascii := "-"%char.

Definition FormatUSD (value : Z) : string :=
  let negative := value <? 0 in
  let amount := Z.abs value in
  let whole := Z.quot amount nanoUSDPerUSD in
  let fraction := Z.rem amount nanoUSDPerUSD in
  let prefix := if negative then [minus] else [] in
  if fraction =? 0 then of_bytes (prefix ++ formatNat whole)
  else of_bytes (prefix ++ formatNat whole ++ [dot] ++ fractionText 9 fraction).

(** * Rounding *)

(** [QuoRem] followed by the comparison of the doubled remainder: round half up. *)
Definition roundHalfUp (numerator denominator : Z) : Z :=
  let quotient := Z.quot numerator denominator in
  let remainder := Z.rem numerator denominator in
  if denominator <=? Z.shiftl remainder 1 then quotient + 1 else quotient.

Definition QuoteComponent (tokens price : Z) (m : Multiplier) : option Z :=
  if (tokens <? 0) || (price <? 0) || (Numerator m <=? 0) || (Denominator m <=? 0) then None
  else
    let q := roundHalfUp (tokens * price * Numerator m) (tokensPerMillion * Denominator m) in
    if (q <? 0) || negb (isInt64 q) then None else Some q.

Definition CheckedAddNanoUSD (l r : Z) : option Z :=
  if (l <? 0) || (r <? 0) || (i64 (maxInt64 - r) <? l) then None else Some (i64 (l + r)).

(** * Price multipliers *)

Definition DefaultPriceMultiplier : Z := 1000000.

Definition multiplierValid (v : Z) : bool := (0 <=? v) && (v <=? 1000000000).

Record PriceMultipliers := mkMultipliers { pm_Group : Z; pm_AccessKey : Z }.

Definition multipliersValid (m : PriceMultipliers) : bool :=
  multiplierValid (pm_Group m) && multiplierValid (pm_AccessKey m).

(** [strconv.ParseInt] of a non-empty digit string. *)
Definition parseDigits (l : list ascii) : option Z :=
  let v := digitsVal l in if v <=? maxInt64 then Some v else None.

Definition ParsePriceMultiplier (value : string) : result MoneyError Z :=
  let '(integer, fraction, hasFraction) := cutAt dot (bytes_of value) in
  if bool_decide (integer = []) || negb (decimalDigits integer) || (6 <? length fraction)%nat
     || (hasFraction && (bool_decide (fraction = []) || negb (decimalDigits fraction))) then Err NegativeOrMalformed
  else
    let trimmed := trimLeftZeros integer in
    let wholeText := match trimmed with [] => ["0"%char] | _ => trimmed end in
    match parseDigits wholeText with
    | None => Err OutOfRange
    | Some whole =>
        if 1000 <? whole then Err OutOfRange
        else match parseDigits (fraction ++ zeros (6 - length fraction)) with
        | None => Err TooManyPlaces
        | Some decimals =>
            let parsed := i64 (i64 (whole * DefaultPriceMultiplier) + decimals) in
            if negb (multiplierValid parsed) then Err OutOfRange else Ok parsed
        end
    end.

(** [strconv.FormatInt]. *)
Definition formatInt (z : Z) : list ascii := if z <? 0 then minus :: formatNat (- z) else formatNat z.

Definition FormatPriceMultiplier (value : Z) : string :=
  let whole := formatInt (Z.quot value DefaultPriceMultiplier) in
  let fraction := Z.rem value DefaultPriceMultiplier in
  if fraction =? 0 then of_bytes whole
  else
    let whole' := if (fraction <? 0) && bool_decide (whole = ["0"%char]) then minus :: whole else whole in
    of_bytes (whole' ++ [dot] ++ fractionText 6 (Z.abs fraction)).

Definition applyPriceMultipliers (amount : Z) (m : PriceMultipliers) : option Z :=
  if (amount <? 0) || negb (multiplierValid (pm_Group m)) || negb (multiplierValid (pm_AccessKey m)) then None
  else
    let q := roundHalfUp (amount * pm_Group m * pm_AccessKey m)
               (i64 (DefaultPriceMultiplier * DefaultPriceMultiplier)) in
    if negb (isInt64 q) then None else Some q.

(** Only for the receipts of schema version 5, which multiplied every line. *)
Definition quoteComponentWithPriceMultipliers (tokens price : Z) (m : Multiplier) (pm : PriceMultipliers)
  : option Z :=
  if (tokens <? 0) || (price <? 0) || (Numerator m <=? 0) || (Denominator m <=? 0) then None
  else if negb (multiplierValid (pm_Group pm)) || negb (multiplierValid (pm_AccessKey pm)) then None
  else
    let q := roundHalfUp (tokens * price * Numerator m * pm_Group pm * pm_AccessKey pm)
               (tokensPerMillion * Denominator m * DefaultPriceMultiplier * DefaultPriceMultiplier) in
    if (q <? 0) || negb (isInt64 q) then None else Some q.

(** * Lemmas *)

(** The rounded quotient is the nearest integer, ties upward. *)
Lemma roundHalfUp_spec n d :
  0 <= n -> 0 < d -> 0 <= roundHalfUp n d /\ 2 * n - d < 2 * d * roundHalfUp n d <= 2 * n + d.
Proof.
  intros Hn Hd. unfold roundHalfUp. rewrite Z.shiftl_mul_pow2 by lia. change (2 ^ 1) with 2.
  pose proof (Z.quot_rem' n d) as E. pose proof (Z.rem_bound_pos n d Hn Hd) as Hr.
  pose proof (Z.quot_pos n d Hn Hd) as Hq. case_if; nia.
Qed.

(** It is the only such integer. *)
Lemma roundHalfUp_unique n d q :
  0 <= n -> 0 < d -> 2 * n - d < 2 * d * q <= 2 * n + d -> q = roundHalfUp n d.
Proof. intros Hn Hd Hq. pose proof (roundHalfUp_spec n d Hn Hd) as [_ H]. nia. Qed.

Lemma isInt64_spec z : isInt64 z = true <-> is_i64 z.
Proof. unfold isInt64, is_i64. rewrite andb_true_iff, !Z.leb_le. done. Qed.

Lemma QuoteComponent_spec t p m q :
  QuoteComponent t p m = Some q <->
  0 <= t /\ 0 <= p /\ 0 < Numerator m /\ 0 < Denominator m /\ q <= maxInt64
  /\ q = roundHalfUp (t * p * Numerator m) (tokensPerMillion * Denominator m).
Proof.
  unfold QuoteComponent. destruct (_ || _) eqn:E.
  { split; [done|]. intros (H1 & H2 & H3 & H4 & _). exfalso.
    rewrite !orb_true_iff, !Z.ltb_lt, !Z.leb_le in E. lia. }
  zb. set (n := t * p * Numerator m). set (d := tokensPerMillion * Denominator m).
  assert (0 <= n) as Hn by (subst n; nia). assert (0 < d) as Hd by (subst d; unfold tokensPerMillion; lia).
  destruct (roundHalfUp_spec n d Hn Hd) as [Hz _]. rewrite (proj2 (Z.ltb_ge _ 0)) by done. cbn [orb].
  destruct (isInt64 (roundHalfUp n d)) eqn:Ei; cbn [negb].
  - apply isInt64_spec in Ei as [_ Hm]. split; [intros [= <-]; repeat split; done|]. intros (_ & _ & _ & _ & _ & ->). done.
  - split; [done|]. intros (_ & _ & _ & _ & Hq & ->). exfalso.
    assert (isInt64 (roundHalfUp n d) = true) by (apply isInt64_spec; unfold_ints; lia). congruence.
Qed.

Lemma applyPriceMultipliers_spec a m q :
  applyPriceMultipliers a m = Some q <->
  0 <= a /\ multipliersValid m = true /\ q <= maxInt64 /\ q = roundHalfUp (a * pm_Group m * pm_AccessKey m) 1000000000000.
Proof.
  unfold applyPriceMultipliers, multipliersValid. change (i64 (DefaultPriceMultiplier * DefaultPriceMultiplier)) with 1000000000000.
  destruct (Z.ltb_spec a 0); cbn [orb]; [split; [done|lia]|].
  destruct (multiplierValid (pm_Group m)) eqn:Eg; cbn [negb orb andb]; [|split; [done|naive_solver]].
  destruct (multiplierValid (pm_AccessKey m)) eqn:Ek; cbn [negb orb]; [|split; [done|naive_solver]].
  unfold multiplierValid in Eg, Ek. zb. set (n := a * pm_Group m * pm_AccessKey m).
  assert (0 <= n) as Hn by (subst n; nia). destruct (roundHalfUp_spec n 1000000000000 Hn ltac:(lia)) as [Hz _].
  destruct (isInt64 _) eqn:Ei; cbn [negb].
  - apply isInt64_spec in Ei as [_ Hm]. split; [intros [= <-]; done|]. by intros (_ & _ & _ & ->).
  - split; [done|]. intros (_ & _ & Hq & ->). exfalso.
    assert (isInt64 (roundHalfUp n 1000000000000) = true) by (apply isInt64_spec; unfold_ints; lia). congruence.
Qed.

(** ** Round trips *)

Lemma dot_not_digit : isDigit dot = false.
Proof. reflexivity. Qed.

Lemma digits_no_dot l : forallb isDigit l = true -> dot ∉ l.
Proof. intros H. apply digits_no_byte; [done|apply dot_not_digit]. Qed.

Lemma digits_zeros n : forallb isDigit (zeros n) = true.
Proof. unfold zeros. by induction n. Qed.

(** The fraction text: digits, at most [width] of them, at least one when the fraction is
    not zero, and padding it back gives the fraction. *)
Lemma fractionText_spec width f :
  0 <= f < 10 ^ Z.of_nat width -> (1 <= width)%nat ->
  let t := fractionText width f in
  forallb isDigit t = true /\ (length t <= width)%nat
  /\ length (t ++ zeros (width - length t)) = width
  /\ digitsVal (t ++ zeros (width - length t)) = f /\ (f <> 0 -> t <> []).
Proof.
  intros Hf Hw. set (l := zeros (width - length (formatNat f)) ++ formatNat f).
  assert (length l = width) as Hl.
  { subst l. rewrite length_app. unfold zeros. rewrite length_replicate.
    pose proof (formatNat_length f width Hf Hw). lia. }
  assert (forallb isDigit l = true) as Hd.
  { subst l. rewrite forallb_app, digits_zeros, formatNat_digits by lia. done. }
  assert (digitsVal l = f) as Hv.
  { subst l. rewrite digitsVal_app, digitsVal_zeros, formatNat_val by lia. lia. }
  cbn zeta. unfold fractionText. fold l.
  pose proof (trimRightZeros_pad l) as Hp. rewrite Hl in Hp.
  pose proof (trimRightZeros_length l) as Hlen. rewrite Hp. rewrite Hl in Hlen |- *.
  rewrite <- Hp in Hd. apply forallb_sublist in Hd as [Hd _].
  split; [done|]. split; [done|]. split; [done|]. split; [done|].
  intros Hz Hn. rewrite Hn in Hp. cbn [app] in Hp. rewrite <- Hp, digitsVal_zeros in Hv. lia.
Qed.

Lemma digits_head l : l <> [] -> forallb isDigit l = true -> exists c l', l = c :: l' /\ isDigit c = true.
Proof. destruct l as [|c l]; [done|]. cbn [forallb]. intros _ H. zb. eauto. Qed.

Lemma digits_last l : l <> [] -> forallb isDigit l = true -> exists d l', l = l' ++ [d] /\ isDigit d = true.
Proof.
  destruct l as [|d l _] using rev_ind; [done|]. rewrite forallb_app. cbn [forallb]. intros _ H. zb. eauto.
Qed.

(** What [FormatUSD] and [FormatPriceMultiplier] print for a non-negative value. *)
Definition decimalText (whole fraction : list ascii) : list ascii :=
  match fraction with [] => whole | _ => whole ++ dot :: fraction end.

Lemma decimalText_cut w f :
  forallb isDigit w = true ->
  cutAt dot (decimalText w f) = (w, f, match f with [] => false | _ => true end).
Proof.
  intros Hw. destruct f as [|c f]; cbn [decimalText].
  - by rewrite cutAt_none by by apply digits_no_dot.
  - by rewrite cutAt_first by by apply digits_no_dot.
Qed.

Lemma decimalText_trim w f :
  w <> [] -> forallb isDigit w = true -> forallb isDigit f = true ->
  TrimSpace (of_bytes (decimalText w f)) = of_bytes (decimalText w f).
Proof.
  intros Hne Hw Hf. destruct (digits_head w Hne Hw) as (c & w' & Ew & Hc). apply TrimSpace_ends.
  - subst w. destruct f; cbn [decimalText app]; eauto.
  - destruct f as [|x f]; cbn [decimalText]; [by apply digits_last|].
    destruct (digits_last (x :: f)) as (d & f' & Ef & Hd); [done|done|].
    rewrite Ef. exists d, (w ++ dot :: f'). by rewrite <- app_assoc.
Qed.

Lemma of_bytes_nonempty l : l <> [] -> of_bytes l <> EmptyString.
Proof. by destruct l. Qed.

(** [ParseUSD] on a well-formed text with at most nine decimals. *)
Lemma ParseUSD_decimal w f :
  w <> [] -> forallb isDigit w = true -> forallb isDigit f = true -> (length f <= 9)%nat ->
  let v := digitsVal (w ++ f ++ zeros (9 - length f)) in
  ParseUSD (of_bytes (decimalText w f)) = if isInt64 v then Ok v else Err OutOfRange.
Proof.
  intros Hne Hw Hf Hl v. unfold ParseUSD.
  rewrite bool_decide_eq_false_2 by (apply of_bytes_nonempty; by destruct f, w).
  rewrite bool_decide_eq_true_2 by by apply decimalText_trim. cbn [negb orb].
  rewrite bytes_of_of_bytes, decimalText_cut by done.
  rewrite bool_decide_eq_false_2 by done. cbn [orb].
  replace (_ && bool_decide (f = [])) with false by by destruct f. cbn [orb].
  unfold containsByte. rewrite bool_decide_eq_false_2 by by apply digits_no_dot.
  rewrite (proj2 (Nat.ltb_ge _ _)) by done. cbn [orb]. unfold decimalDigits. rewrite Hw, Hf, andb_false_r.
  cbn [negb orb]. fold v. by destruct (isInt64 v).
Qed.

Lemma FormatUSD_text v :
  0 <= v ->
  FormatUSD v = of_bytes (decimalText (formatNat (v / nanoUSDPerUSD))
                  (if v `mod` nanoUSDPerUSD =? 0 then [] else fractionText 9 (v `mod` nanoUSDPerUSD))).
Proof.
  intros Hv. unfold FormatUSD. rewrite (proj2 (Z.ltb_ge v 0)) by done. rewrite Z.abs_eq by done.
  rewrite Z.quot_div_nonneg, Z.rem_mod_nonneg by (unfold nanoUSDPerUSD; lia). cbn [app].
  destruct (Z.eqb_spec (v `mod` nanoUSDPerUSD) 0); [done|].
  destruct (fractionText_spec 9 (v `mod` nanoUSDPerUSD)) as (_ & _ & _ & _ & Hne); [apply Z.mod_pos_bound; done|lia|].
  specialize (Hne ltac:(done)). by destruct (fractionText 9 _).
Qed.

(** Prices survive printing.  Every non-negative 64-bit nano-USD amount printed by
    [FormatUSD] is read back by [ParseUSD] as the same amount: no digit is lost and no
    printed price is refused. *)
Theorem usd_roundtrip v : 0 <= v <= maxInt64 -> ParseUSD (FormatUSD v) = Ok v.
Proof.
  intros Hv. rewrite FormatUSD_text by lia.
  set (w := v / nanoUSDPerUSD). set (r := v `mod` nanoUSDPerUSD).
  assert (0 <= w) as Hw by (apply Z.div_pos; unfold nanoUSDPerUSD; lia).
  assert (0 <= r < 10 ^ Z.of_nat 9) as Hr by (apply Z.mod_pos_bound; done).
  destruct (fractionText_spec 9 r Hr ltac:(lia)) as (Hd & Hl & Hlen & Hval & _).
  set (f := if r =? 0 then [] else fractionText 9 r).
  assert (forallb isDigit f = true /\ (length f <= 9)%nat /\ length (f ++ zeros (9 - length f)) = 9%nat
    /\ digitsVal (f ++ zeros (9 - length f)) = r) as (Hfd & Hfl & Hflen & Hfv).
  { subst f. destruct (Z.eqb_spec r 0) as [->|]; [|done]. repeat split; cbn; lia. }
  rewrite ParseUSD_decimal; [|apply formatNat_nonempty|by apply formatNat_digits|done|done].
  rewrite digitsVal_app, Hfv, Hflen, formatNat_val by done.
  assert (w * 10 ^ Z.of_nat 9 + r = v) as ->.
  { subst w r. pose proof (Z.div_mod v nanoUSDPerUSD ltac:(done)). unfold nanoUSDPerUSD in *. cbn. lia. }
  rewrite (proj2 (isInt64_spec v)); [done|]. unfold_ints. lia.
Qed.

Lemma usd_roundtrip_witness : ParseUSD "2.5"%string = Ok 2500000000 /\ ParseUSD (FormatUSD 1500000001) = Ok 1500000001.
Proof. split; [reflexivity|]. apply (usd_roundtrip 1500000001). unfold maxInt64. lia. Defined.

Lemma FormatPriceMultiplier_text v :
  0 <= v ->
  FormatPriceMultiplier v = of_bytes (decimalText (formatNat (v / DefaultPriceMultiplier))
    (if v `mod` DefaultPriceMultiplier =? 0 then [] else fractionText 6 (v `mod` DefaultPriceMultiplier))).
Proof.
  intros Hv. unfold FormatPriceMultiplier.
  rewrite Z.quot_div_nonneg, Z.rem_mod_nonneg by (unfold DefaultPriceMultiplier; lia).
  assert (0 <= v / DefaultPriceMultiplier) as Hw by (apply Z.div_pos; unfold DefaultPriceMultiplier; lia).
  assert (0 <= v `mod` DefaultPriceMultiplier < 10 ^ Z.of_nat 6) as Hr by (apply Z.mod_pos_bound; done).
  unfold formatInt. rewrite (proj2 (Z.ltb_ge _ 0)) by done.
  destruct (Z.eqb_spec (v `mod` DefaultPriceMultiplier) 0); [done|].
  rewrite (proj2 (Z.ltb_ge _ 0)) by lia. cbn [andb app]. rewrite Z.abs_eq by lia.
  destruct (fractionText_spec 6 _ Hr ltac:(lia)) as (_ & _ & _ & _ & Hne).
  specialize (Hne ltac:(done)). by destruct (fractionText 6 _).
Qed.

Lemma digitsVal_small l k :
  forallb isDigit l = true -> length l = k -> (k <= 18)%nat -> digitsVal l <= maxInt64.
Proof.
  intros Hd Hl Hk. pose proof (digitsVal_nonneg l Hd) as [_ H].
  assert (10 ^ Z.of_nat (length l) <= 10 ^ 18) by (apply Z.pow_le_mono_r; lia). unfold maxInt64. lia.
Qed.

(** [ParsePriceMultiplier] on a well-formed text with at most six decimals. *)
Lemma ParsePriceMultiplier_decimal w f :
  w <> [] -> forallb isDigit w = true -> forallb isDigit f = true -> (length f <= 6)%nat ->
  let v := digitsVal w * DefaultPriceMultiplier + digitsVal (f ++ zeros (6 - length f)) in
  v <= 1000000000 -> ParsePriceMultiplier (of_bytes (decimalText w f)) = Ok v.
Proof.
  intros Hne Hw Hf Hl v Hv. unfold ParsePriceMultiplier.
  rewrite bytes_of_of_bytes, decimalText_cut by done. unfold decimalDigits.
  rewrite bool_decide_eq_false_2, Hw, Hf by done. rewrite (proj2 (Nat.ltb_ge _ _)) by done. cbn [negb orb].
  replace (_ && (bool_decide (f = []) || false)) with false by by destruct f.
  set (g := f ++ zeros (6 - length f)) in *.
  assert (forallb isDigit g = true) as Hg by (subst g; rewrite forallb_app, Hf; apply digits_zeros).
  assert (length g = 6%nat) as Hlg.
  { subst g. rewrite length_app. unfold zeros. rewrite length_replicate. lia. }
  pose proof (digitsVal_nonneg g Hg) as [Hg0 Hg1]. pose proof (digitsVal_nonneg w Hw) as [Hw0 _].
  assert (digitsVal (match trimLeftZeros w with [] => ["0"%char] | _ => trimLeftZeros w end) = digitsVal w) as E.
  { rewrite <- (trimLeftZeros_val w). by destruct (trimLeftZeros w). }
  rewrite Hlg in Hg1. change (10 ^ Z.of_nat 6) with 1000000 in Hg1. unfold DefaultPriceMultiplier in v.
  unfold parseDigits. rewrite E. rewrite (proj2 (Z.leb_le (digitsVal w) _)) by (unfold maxInt64; lia).
  rewrite (proj2 (Z.ltb_ge 1000 _)) by lia. rewrite (proj2 (Z.leb_le (digitsVal g) _)) by (unfold maxInt64; lia).
  assert (i64 (i64 (digitsVal w * DefaultPriceMultiplier) + digitsVal g) = v) as ->.
  { subst v. unfold DefaultPriceMultiplier. unfold_ints.
    rewrite (Z.mod_small (digitsVal w * _ + _)) by lia. rewrite Z.mod_small by lia. lia. }
  unfold multiplierValid. rewrite (proj2 (Z.leb_le 0 v)), (proj2 (Z.leb_le v _)) by (unfold v in *; lia). done.
Qed.

(** Multipliers survive printing.  Every admissible price multiplier (0 to 1000 in steps
    of one millionth) printed by [FormatPriceMultiplier] is read back by
    [ParsePriceMultiplier] as the same value. *)
Theorem multiplier_roundtrip v :
  multiplierValid v = true -> ParsePriceMultiplier (FormatPriceMultiplier v) = Ok v.
Proof.
  unfold multiplierValid. intros Hv. zb. rewrite FormatPriceMultiplier_text by lia.
  set (w := v / DefaultPriceMultiplier). set (r := v `mod` DefaultPriceMultiplier).
  assert (0 <= w) as Hw by (apply Z.div_pos; unfold DefaultPriceMultiplier; lia).
  assert (0 <= r < 10 ^ Z.of_nat 6) as Hr by (apply Z.mod_pos_bound; done).
  destruct (fractionText_spec 6 r Hr ltac:(lia)) as (Hd & Hl & _ & Hval & _).
  set (f := if r =? 0 then [] else fractionText 6 r).
  assert (forallb isDigit f = true /\ (length f <= 6)%nat
    /\ digitsVal (f ++ zeros (6 - length f)) = r) as (Hfd & Hfl & Hfv).
  { subst f. destruct (Z.eqb_spec r 0) as [->|]; [|done]. repeat split; cbn; lia. }
  assert (digitsVal (formatNat w) * DefaultPriceMultiplier + digitsVal (f ++ zeros (6 - length f)) = v) as E.
  { rewrite Hfv, formatNat_val by done. subst w r.
    pose proof (Z.div_mod v DefaultPriceMultiplier ltac:(done)). lia. }
  rewrite ParsePriceMultiplier_decimal; [by rewrite E|apply formatNat_nonempty|by apply formatNat_digits|done|done|lia].
Qed.

Lemma multiplier_roundtrip_witness :
  FormatPriceMultiplier 1250000 = "1.25"%string /\ ParsePriceMultiplier (FormatPriceMultiplier 1250000) = Ok 1250000.
Proof. split; [reflexivity|]. apply (multiplier_roundtrip 1250000). reflexivity. Defined.

(** Charges are rounded to the nearest nano-dollar.  [QuoteComponent] succeeds exactly
    when tokens and rate are non-negative, the ratio is positive and the rounded charge fits
    64 bits; the charge [q] is then the one integer with
    [|q - tokens * price * num / (10^6 * den)| <= 1/2], ties upward, however large the
    intermediate product; and the request-wide multipliers are applied to the total with the
    same rounding, the two of them at once. *)
Theorem charge_rounding t p m pm q :
  (QuoteComponent t p m = Some q <->
     0 <= t /\ 0 <= p /\ 0 < Numerator m /\ 0 < Denominator m /\ 0 <= q <= maxInt64
     /\ let n := t * p * Numerator m in let d := tokensPerMillion * Denominator m in
        2 * n - d < 2 * d * q <= 2 * n + d)
  /\ (applyPriceMultipliers t pm = Some q <->
     0 <= t /\ multiplierValid (pm_Group pm) = true /\ multiplierValid (pm_AccessKey pm) = true /\ 0 <= q <= maxInt64
     /\ let n := t * pm_Group pm * pm_AccessKey pm in let d := 10 ^ 12 in
        2 * n - d < 2 * d * q <= 2 * n + d).
Proof.
  rewrite QuoteComponent_spec, applyPriceMultipliers_spec. unfold tokensPerMillion, multipliersValid, multiplierValid.
  change (10 ^ 12) with 1000000000000. cbn zeta. rewrite !andb_true_iff, !Z.leb_le. split; split.
  - intros (? & ? & ? & ? & ? & ->).
    destruct (roundHalfUp_spec (t * p * Numerator m) (1000000 * Denominator m)); [nia|lia|]. repeat split; lia.
  - intros (? & ? & ? & ? & [? ?] & Hq). repeat split; try lia. apply roundHalfUp_unique; [nia|lia|done].
  - intros (? & ? & ? & ->).
    destruct (roundHalfUp_spec (t * pm_Group pm * pm_AccessKey pm) 1000000000000); [nia|lia|]. repeat split; lia.
  - intros (? & ? & ? & [? ?] & Hq). repeat split; try lia. apply roundHalfUp_unique; [nia|lia|done].
Qed.
