(* ===== verification/PriceTable.v ===== *)
(** Price tables ([internal/pricing/types.go], [compile.go]): the rules of one pricing
    snapshot, their validation, and exact lookup.

    Go's string enumerations stay strings.  A Go [map] is a [gmap]; validation walks its
    entries in one order, which decides which of several errors is reported and not whether
    one is. *)
From S2P Require Import Prelude GoStrings Money.
From Stdlib Require Import Ascii.

Local Open Scope Z_scope.
Local Open Scope go_scope.

(** A pricing mode is a string. *)
Definition ModeStandard : string := "standard"%string.
Definition ModeFast : string := "fast"%string.

Definition maxProviderIDBytes : Z := 246.
Definition maxChannelIDBytes : Z := 64.
Definition maxModelIDBytes : Z := 255.
Definition maxModeBytes : Z := 64.

(** A zero price and an unavailable one differ in [Set_]. *)
Record Price := mkPrice { NanoUSDPerMillion : Z; Set_ : bool }.

Record Prices := mkPrices { Input : Price; OutputPrice : Price; CacheReadPrice : Price; CacheWritePrice : Price }.

Definition BillingUnitToken : string := "token"%string.
Definition BillingUnitRequest : string := "request"%string.

Record Identity := mkIdentity { ChannelID : string; ModelID : string }.

#[export] Instance Identity_eq_dec : EqDecision Identity.
Proof. solve_decision. Defined.

#[export] Instance Identity_countable : Countable Identity.
Proof.
  refine (inj_countable' (fun i => (ChannelID i, ModelID i)) (fun p => mkIdentity p.1 p.2) _).
  by intros [].
Defined.

Record ReceiptRule := mkReceiptRule { rr_ScopeKey : string; rr_ChannelID : string; rr_ModelID : string }.

Record ContextTier := mkTier { InputThresholdTokens : Z; tier_Prices : Prices }.

Record Schedule := mkSchedule { sch_Prices : Prices; sch_ContextTiers : list ContextTier }.

Record Rule := mkRule {
  rule_Identity : Identity;
  rule_BillingUnit : string;
  rule_RequestPrice : option Z;
  rule_Prices : Prices;
  rule_ContextTiers : list ContextTier;
  rule_ModeSchedules : gmap string Schedule;
  rule_IsManual : bool
}.

Record Table := mkTable { table_rules : gmap Identity Rule }.

Inductive PriceError :=
| BadLength | SurroundingSpace | ControlCharacter
| BadSegment | BadCharacter
| ZeroGroup
| RequestPriceOnTokenRule | NegativeRequestPrice | TokenScheduleOnRequestRule | BadBillingUnit
| NegativePrice | NegativeThreshold | ThresholdsNotIncreasing | NoPriceSet
| BadMode | FastModeWithTiers
| DuplicateIdentity
| UnexpectedChannelID | UnexpectedScopeKey | MissingScopeKey | BadScopeKey | BadSchemaVersion.

(** * Modes and scope keys *)

Definition lowerOrDigit (c : ascii) : bool :=
  let b := byteZ c in (97 <=? b) && (b <=? 122) || (48 <=? b) && (b <=? 57).

(** The loop over the bytes; [first] and [last] are the two conditions on the index. *)
Fixpoint modeBytes (first : bool) (l : list ascii) : bool :=
  match l with
  | [] => true
  | c :: l' =>
      if lowerOrDigit c then modeBytes false l'
      else if negb first && negb (bool_decide (l' = []))
              && (bool_decide (c = "-"%char) || bool_decide (c = "_"%char)) then modeBytes false l'
      else false
  end.

Definition modeValid (m : string) : bool :=
  if (slen m =? 0) || (maxModeBytes <? slen m) then false else modeBytes true (bytes_of m).

(** The loop of [ProviderScopeKey]: [separator] says that no segment is open. *)
Fixpoint providerBytes (separator : bool) (l : list ascii) : result PriceError bool :=
  match l with
  | [] => Ok separator
  | c :: l' =>
      if lowerOrDigit c then providerBytes false l'
      else if bool_decide (c = "."%char) || bool_decide (c = "-"%char) then
        if separator then Err BadSegment else providerBytes true l'
      else Err BadCharacter
  end.

Definition providerPrefix : list ascii := bytes_of "provider:".
Definition groupPrefix : list ascii := bytes_of "group:".

Definition ProviderScopeKey (providerID : string) : result PriceError string :=
  if (slen providerID =? 0) || (maxProviderIDBytes <? slen providerID) then Err BadLength
  else
    try! separator := providerBytes true (bytes_of providerID) in
    if (separator : bool) then Err BadSegment else Ok (of_bytes (providerPrefix ++ bytes_of providerID)).

Definition GroupScopeKey (groupID : Z) : result PriceError string :=
  if groupID =? 0 then Err ZeroGroup else Ok (of_bytes (groupPrefix ++ formatNat groupID)).

(** [strings.CutPrefix]. *)
Fixpoint cutPrefix (prefix l : list ascii) : option (list ascii) :=
  match prefix, l with
  | [], _ => Some l
  | p :: prefix', c :: l' => if bool_decide (p = c) then cutPrefix prefix' l' else None
  | _ :: _, [] => None
  end.

(** [strconv.ParseUint(text, 10, 64)]. *)
Definition parseUint (l : list ascii) : option Z :=
  if bool_decide (l = []) || negb (decimalDigits l) then None
  else let v := digitsVal l in if v <=? maxUint64 then Some v else None.

Definition validateScopeKey (scopeKey : string) : result PriceError unit :=
  match cutPrefix providerPrefix (bytes_of scopeKey) with
  | Some providerID =>
      match ProviderScopeKey (of_bytes providerID) with
      | Ok canonical => if bool_decide (canonical = scopeKey) then Ok tt else Err BadScopeKey
      | Err _ => Err BadScopeKey
      end
  | None =>
      match cutPrefix groupPrefix (bytes_of scopeKey) with
      | Some groupText =>
          match parseUint groupText with
          | None => Err BadScopeKey
          | Some parsed =>
              match GroupScopeKey parsed with
              | Ok canonical => if bool_decide (canonical = scopeKey) then Ok tt else Err BadScopeKey
              | Err _ => Err BadScopeKey
              end
          end
      | None => Err BadScopeKey
      end
  end.

(** * Identities *)

(** A rune of [l] is a control character ([unicode.IsControl]): U+0000-001F and U+007F are
    one byte; U+0080-009F are C2 and a second byte, and C2 always starts a rune. *)
Fixpoint hasControl (l : list ascii) : bool :=
  match l with
  | [] => false
  | c :: l' =>
      (byteZ c <? 32) || (byteZ c =? 127)
      || ((byteZ c =? 194) && match l' with d :: _ => (128 <=? byteZ d) && (byteZ d <=? 159) | [] => false end)
      || hasControl l'
  end.

Definition validateID (maxBytes : Z) (s : string) : result PriceError unit :=
  if (slen s =? 0) || (maxBytes <? slen s) then Err BadLength
  else if negb (bool_decide (TrimSpace s = s)) then Err SurroundingSpace
  else if hasControl (bytes_of s) then Err ControlCharacter
  else Ok tt.

Definition validateChannelID (s : string) : result PriceError unit := validateID maxChannelIDBytes s.
Definition validateModelID (s : string) : result PriceError unit := validateID maxModelIDBytes s.

Definition validateIdentity (i : Identity) : result PriceError unit :=
  try! _ := validateChannelID (ChannelID i) in validateModelID (ModelID i).

Definition validateReceiptRule (rule : ReceiptRule) (schemaVersion : Z) : result PriceError unit :=
  if schemaVersion =? 1 then
    try! _ := validateModelID (rr_ModelID rule) in
    if negb (bool_decide (rr_ChannelID rule = EmptyString)) then Err UnexpectedChannelID
    else if bool_decide (rr_ScopeKey rule = EmptyString) then Err MissingScopeKey
    else validateScopeKey (rr_ScopeKey rule)
  else if schemaVersion =? 2 then
    try! _ := validateModelID (rr_ModelID rule) in
    if negb (bool_decide (rr_ScopeKey rule = EmptyString)) then Err UnexpectedScopeKey
    else if negb (bool_decide (rr_ChannelID rule = EmptyString)) then Err UnexpectedChannelID
    else Ok tt
  else if (3 <=? schemaVersion) && (schemaVersion <=? 7) then
    if negb (bool_decide (rr_ScopeKey rule = EmptyString)) then Err UnexpectedScopeKey
    else validateIdentity (mkIdentity (rr_ChannelID rule) (rr_ModelID rule))
  else Err BadSchemaVersion.

(** * Rules *)

Definition pricesOf (p : Prices) : list Price := [Input p; OutputPrice p; CacheReadPrice p; CacheWritePrice p].

Definition validatePrices (p : Prices) : result PriceError unit :=
  if existsb (fun x => NanoUSDPerMillion x <? 0) (pricesOf p) then Err NegativePrice else Ok tt.

Definition hasSetPrice (p : Prices) : bool :=
  Set_ (Input p) || Set_ (OutputPrice p) || Set_ (CacheReadPrice p) || Set_ (CacheWritePrice p).

Fixpoint validateTiersFrom (previousThreshold : Z) (tiers : list ContextTier) : result PriceError unit :=
  match tiers with
  | [] => Ok tt
  | t :: tiers' =>
      if InputThresholdTokens t <? 0 then Err NegativeThreshold
      else if InputThresholdTokens t <=? previousThreshold then Err ThresholdsNotIncreasing
      else
        try! _ := validatePrices (tier_Prices t) in
        if negb (hasSetPrice (tier_Prices t)) then Err NoPriceSet
        else validateTiersFrom (InputThresholdTokens t) tiers'
  end.

Definition validateContextTiers (tiers : list ContextTier) : result PriceError unit := validateTiersFrom (-1) tiers.

Definition validateSchedule (mode : string) (s : Schedule) : result PriceError unit :=
  if negb (modeValid mode) || bool_decide (mode = ModeStandard) then Err BadMode
  else
    try! _ := validatePrices (sch_Prices s) in
    if negb (hasSetPrice (sch_Prices s)) then Err NoPriceSet
    else if bool_decide (mode = ModeFast) && (0 <? length (sch_ContextTiers s))%nat then Err FastModeWithTiers
    else validateContextTiers (sch_ContextTiers s).

Fixpoint validateSchedules (l : list (string * Schedule)) : result PriceError unit :=
  match l with
  | [] => Ok tt
  | (mode, s) :: l' => try! _ := validateSchedule mode s in validateSchedules l'
  end.

Definition validateBilling (rule : Rule) : result PriceError unit :=
  let unit := rule_BillingUnit rule in
  if bool_decide (unit = EmptyString) || bool_decide (unit = BillingUnitToken) then
    if isSome (rule_RequestPrice rule) then Err RequestPriceOnTokenRule else Ok tt
  else if bool_decide (unit = BillingUnitRequest) then
    if match rule_RequestPrice rule with Some p => p <? 0 | None => false end then Err NegativeRequestPrice
    else if hasSetPrice (rule_Prices rule) || (0 <? length (rule_ContextTiers rule))%nat
            || (0 <? size (rule_ModeSchedules rule))%nat then Err TokenScheduleOnRequestRule
    else Ok tt
  else Err BadBillingUnit.

Definition validateRule (rule : Rule) : result PriceError unit :=
  try! _ := validateIdentity (rule_Identity rule) in
  try! _ := validateBilling rule in
  try! _ := validatePrices (rule_Prices rule) in
  try! _ := validateContextTiers (rule_ContextTiers rule) in
  validateSchedules (mentries (rule_ModeSchedules rule)).

(** * Tables *)

(** The table owns copies of the rules; a value has no other owner. *)
Fixpoint addRules (rules : list Rule) (table : Table) : result PriceError Table :=
  match rules with
  | [] => Ok table
  | rule :: rules' =>
      try! _ := validateRule rule in
      if mhas (table_rules table) (rule_Identity rule) then Err DuplicateIdentity
      else addRules rules' (mkTable (<[rule_Identity rule := rule]> (table_rules table)))
  end.

Definition NewTable (rules : list Rule) : result PriceError Table := addRules rules (mkTable ∅).

(** A nil table has no rules. *)
Definition Lookup (table : option Table) (i : Identity) : option Rule :=
  match table with None => None | Some t => table_rules t !! i end.

(** * Lemmas *)

(** Every rule of a table is valid and stored under its own identity. *)
Definition table_ok (t : Table) : Prop :=
  forall i r, table_rules t !! i = Some r -> rule_Identity r = i /\ validateRule r = Ok tt.

Lemma addRules_ok rules t t' : table_ok t -> addRules rules t = Ok t' -> table_ok t'.
Proof.
  revert t. induction rules as [|r rules IH]; cbn [addRules]; intros t Ht H; [by injection H as <-|].
  destruct (validateRule r) as [[]|] eqn:E; [|done]. destruct (mhas _ _); [done|].
  eapply IH; [|exact H]. intros i r'. cbn [table_rules].
  intros [[<- <-]|[_ Hi]]%lookup_insert_Some; [done|by apply Ht].
Qed.

Lemma NewTable_ok rules t : NewTable rules = Ok t -> table_ok t.
Proof. apply addRules_ok. intros i r. cbn. by rewrite lookup_empty. Qed.

(** What the table holds: exactly the given rules. *)
Lemma addRules_lookup rules t t' i :
  addRules rules t = Ok t' ->
  table_rules t' !! i = match table_rules t !! i with Some r => Some r | None => list_find (fun r => rule_Identity r = i) rules ≫= fun p => Some p.2 end
  /\ NoDup (rule_Identity <$> rules) /\ (forall r, r ∈ rules -> table_rules t !! rule_Identity r = None).
Proof.
  revert t. induction rules as [|r rules IH]; cbn [addRules]; intros t H.
  { injection H as <-. cbn. split; [by destruct (table_rules t !! i)|]. split; [constructor|]. by intros r ?%elem_of_nil. }
  destruct (validateRule r) as [[]|]; [|done]. unfold mhas in H. case_bool_decide as Hh; [done|].
  rewrite <- eq_None_not_Some in Hh. apply IH in H as (Hl & Hnd & Hfresh). cbn in Hl, Hfresh. split; [|split].
  - rewrite Hl. cbn [list_find]. destruct (decide (rule_Identity r = i)) as [<-|Hne].
    + by rewrite lookup_insert_eq, Hh.
    + rewrite lookup_insert_ne by done. destruct (table_rules t !! i); [done|]. by destruct (list_find _ rules) as [[]|].
  - cbn. constructor; [|done]. intros (r' & E & Hr')%list_elem_of_fmap. apply Hfresh in Hr'.
    by rewrite <- E, lookup_insert_eq in Hr'.
  - intros r' [->|Hr']%elem_of_cons; [done|]. apply Hfresh in Hr'.
    destruct (decide (rule_Identity r = rule_Identity r')) as [E|Hne]; [by rewrite E, lookup_insert_eq in Hr'|].
    by rewrite lookup_insert_ne in Hr'.
Qed.

Lemma validatePrices_nonneg p x : validatePrices p = Ok tt -> x ∈ pricesOf p -> 0 <= NanoUSDPerMillion x.
Proof.
  unfold validatePrices. case_if; [done|]. intros _ Hx. destruct (Z.ltb_spec (NanoUSDPerMillion x) 0); [|done].
  assert (existsb (fun x => NanoUSDPerMillion x <? 0) (pricesOf p) = true); [|congruence].
  apply existsb_exists. exists x. split; [by apply list_elem_of_In|by apply Z.ltb_lt].
Qed.

Lemma validateSchedules_lookup l mode s :
  validateSchedules l = Ok tt -> (mode, s) ∈ l -> validateSchedule mode s = Ok tt.
Proof.
  induction l as [|[m' s'] l IH]; [by intros _ ?%elem_of_nil|]. cbn [validateSchedules].
  destruct (validateSchedule m' s') as [[]|] eqn:E; [|done]. intros H [[= <- <-]|Hin]%elem_of_cons; auto.
Qed.

(** The parts of a valid rule. *)
Lemma validateRule_inv r :
  validateRule r = Ok tt ->
  validateIdentity (rule_Identity r) = Ok tt /\ validateBilling r = Ok tt /\ validatePrices (rule_Prices r) = Ok tt
  /\ validateContextTiers (rule_ContextTiers r) = Ok tt
  /\ forall mode s, rule_ModeSchedules r !! mode = Some s -> validateSchedule mode s = Ok tt.
Proof.
  unfold validateRule. destruct (validateIdentity _) as [[]|]; [|done]. destruct (validateBilling r) as [[]|]; [|done].
  destruct (validatePrices _) as [[]|]; [|done]. destruct (validateContextTiers _) as [[]|]; [|done]. intros H.
  repeat (split; [done|]). intros mode s Hs. eapply validateSchedules_lookup; [exact H|]. by apply elem_of_map_to_list.
Qed.

Lemma validateSchedule_inv mode s :
  validateSchedule mode s = Ok tt ->
  modeValid mode = true /\ mode <> ModeStandard /\ validatePrices (sch_Prices s) = Ok tt
  /\ validateContextTiers (sch_ContextTiers s) = Ok tt.
Proof.
  unfold validateSchedule. destruct (modeValid mode); cbn [negb orb]; [|done]. case_bool_decide; [done|].
  destruct (validatePrices _) as [[]|]; [|done]. destruct (hasSetPrice _); cbn [negb]; [|done]. by case_if.
Qed.

(** Thresholds increase strictly from above [previous], prices are non-negative and some
    price is set. *)
Lemma validateTiersFrom_spec previous tiers :
  validateTiersFrom previous tiers = Ok tt ->
  StronglySorted (fun a b => InputThresholdTokens a < InputThresholdTokens b) tiers
  /\ Forall (fun t => 0 <= InputThresholdTokens t /\ previous < InputThresholdTokens t
                      /\ validatePrices (tier_Prices t) = Ok tt /\ hasSetPrice (tier_Prices t) = true) tiers.
Proof.
  revert previous. induction tiers as [|t tiers IH]; intros previous H; [split; constructor|].
  cbn [validateTiersFrom] in H. destruct (Z.ltb_spec (InputThresholdTokens t) 0); [done|].
  destruct (Z.leb_spec (InputThresholdTokens t) previous); [done|].
  destruct (validatePrices (tier_Prices t)) as [[]|] eqn:Ep; [|done].
  destruct (hasSetPrice (tier_Prices t)) eqn:Es; cbn [negb] in H; [|done]. destruct (IH _ H) as [Hs Hf]. split.
  - constructor; [done|]. eapply Forall_impl; [exact Hf|]. cbn. tauto.
  - constructor; [done|]. eapply Forall_impl; [exact Hf|]. cbn. intros x (? & ? & ?). split; [done|]. split; [lia|done].
Qed.
