(* ===== verification/Quote.v ===== *)
(** Request cost ([internal/pricing/quote.go], [receipt.go], [internal/usagecost]): pricing
    one finalised usage result, the receipt that explains it, and the validation of stored
    receipts. *)
From S2P Require Import Prelude GoStrings Usage Money PriceTable.

Local Open Scope Z_scope.
Local Open Scope go_scope.

(** * Quotes and receipts *)

Inductive CostState := CostStatePriced | CostStateUnpriced | CostStateNotApplicable | CostStateOther (s : string).

#[export] Instance CostState_eq_dec : EqDecision CostState.
Proof. solve_decision. Defined.

Inductive Completeness := CompletenessComplete | CompletenessPartial | CompletenessUnavailable | CompletenessNotApplicable.

Record QuoteValue := mkQuote {
  q_State : CostState;
  q_Completeness : Completeness;
  q_EstimatedCostNanoUSD : Z
}.

Definition unavailableQuote : QuoteValue := mkQuote CostStateUnpriced CompletenessUnavailable 0.

Definition ReceiptMethodUnitRateSum : string := "unit_rate_sum"%string.
Definition ReceiptMethodPerRequest : string := "fixed_per_request"%string.

Inductive ReceiptLineState := ReceiptLinePriced | ReceiptLineUnpriced | ReceiptLineOther (s : string).

#[export] Instance ReceiptLineState_eq_dec : EqDecision ReceiptLineState.
Proof. solve_decision. Defined.

(** A nil pointer is [None]. *)
Record ReceiptLine := mkLine {
  l_Code : string;
  l_Quantity : Z;
  l_RateNanoUSDPerMillion : option Z;
  l_RateNanoUSDPerRequest : option Z;
  l_Multiplier : Multiplier;
  l_State : ReceiptLineState;
  l_AmountNanoUSD : option Z
}.

Record Receipt := mkReceipt {
  rc_SchemaVersion : Z;
  rc_Method : string;
  rc_MethodVersion : Z;
  rc_Currency : string;
  rc_PricingMode : string;
  rc_PriceMultipliers : option PriceMultipliers;
  rc_BaseTotalNanoUSD : option Z;
  rc_Rule : ReceiptRule;
  rc_ContextThresholdTokens : option Z;
  rc_LineItems : list ReceiptLine;
  rc_TotalNanoUSD : Z
}.

Definition USD : string := "USD"%string.

(** * Schedule selection *)

Fixpoint selectTiers (prices : Prices) (selected : option Z) (tiers : list ContextTier) (inputTokens : Z)
  : Prices * option Z :=
  match tiers with
  | [] => (prices, selected)
  | t :: tiers' =>
      if inputTokens <? InputThresholdTokens t then (prices, selected)
      else selectTiers (tier_Prices t) (Some (InputThresholdTokens t)) tiers' inputTokens
  end.

Definition selectSchedulePrices (base : Prices) (tiers : list ContextTier) (inputTokens : Z) : Prices * option Z :=
  selectTiers base None tiers inputTokens.

Definition checkedInputTokens (t : Tokens) : option Z :=
  checkedSum 0 [UncachedInput t; CacheRead t; CacheWrite5M t; CacheWrite1H t; CacheWriteUnknown t].

(** The mode, prices and threshold one request is charged with. *)
Definition selectPrices (rule : Rule) (mode : string) (inputTokens : Z) : string * Prices * option Z :=
  let '(prices, threshold) := selectSchedulePrices (rule_Prices rule) (rule_ContextTiers rule) inputTokens in
  if isNil threshold && negb (bool_decide (mode = EmptyString)) && negb (bool_decide (mode = ModeStandard)) then
    match rule_ModeSchedules rule !! mode with
    | Some s => let '(p, th) := selectSchedulePrices (sch_Prices s) (sch_ContextTiers s) inputTokens in (mode, p, th)
    | None => (ModeStandard, prices, threshold)
    end
  else (ModeStandard, prices, threshold).

(** * The line items *)

Record Component := mkComponent { c_code : string; c_tokens : Z; c_price : Price; c_multiplier : Multiplier }.

Definition componentsOf (t : Tokens) (p : Prices) : list Component :=
  [ mkComponent "input" (UncachedInput t) (Input p) directPriceMultiplier;
    mkComponent "cache_read" (CacheRead t) (CacheReadPrice p) directPriceMultiplier;
    mkComponent "cache_write_5m" (CacheWrite5M t) (CacheWritePrice p) directPriceMultiplier;
    mkComponent "cache_write_1h" (CacheWrite1H t) (CacheWritePrice p) cacheWriteOneHourMultiplier;
    mkComponent "output" (Output t) (OutputPrice p) directPriceMultiplier ]%string.

(** The variables the loop over the components updates. *)
Record Tally := mkTally {
  ta_lines : list ReceiptLine;
  ta_positiveBillable : bool;
  ta_pricedPositive : bool;
  ta_partial : bool;
  ta_cost : Z
}.

Definition unpricedLine (c : Component) : ReceiptLine :=
  mkLine (c_code c) (c_tokens c) None None (c_multiplier c) ReceiptLineUnpriced None.

Definition pricedLine (c : Component) (amount : Z) : ReceiptLine :=
  mkLine (c_code c) (c_tokens c) (Some (NanoUSDPerMillion (c_price c))) None (c_multiplier c) ReceiptLinePriced (Some amount).

(** [None]: the loop returned an unavailable quote. *)
Definition chargeComponent (t : Tally) (c : Component) : option Tally :=
  if c_tokens c =? 0 then Some t
  else if negb (Set_ (c_price c)) then
    Some (mkTally (ta_lines t ++ [unpricedLine c]) true (ta_pricedPositive t) true (ta_cost t))
  else
    match QuoteComponent (c_tokens c) (NanoUSDPerMillion (c_price c)) (c_multiplier c) with
    | None => None
    | Some amount =>
        match CheckedAddNanoUSD (ta_cost t) amount with
        | None => None
        | Some cost => Some (mkTally (ta_lines t ++ [pricedLine c amount]) true true (ta_partial t) cost)
        end
    end.

Fixpoint chargeAll (t : Tally) (cs : list Component) : option Tally :=
  match cs with
  | [] => Some t
  | c :: cs' => match chargeComponent t c with Some t' => chargeAll t' cs' | None => None end
  end.

Definition unknownWriteLine (tokens : Z) : list ReceiptLine :=
  if 0 <? tokens then [mkLine "cache_write"%string tokens None None directPriceMultiplier ReceiptLineUnpriced None] else [].

Definition receiptRule (i : Identity) : ReceiptRule := mkReceiptRule EmptyString (ChannelID i) (ModelID i).

(** * Quoting *)

Definition knownState (s : UsageState) : bool :=
  bool_decide (s = StateComplete) || bool_decide (s = StatePartial) || bool_decide (s = StateMissing)
  || bool_decide (s = StateNotApplicable).

Definition defaultMultipliers : PriceMultipliers := mkMultipliers DefaultPriceMultiplier DefaultPriceMultiplier.

(** The branch for a rule billed per request. *)
Definition quoteRequest (i : Identity) (rule : Rule) : QuoteValue * option Receipt :=
  match rule_RequestPrice rule with
  | None => (unavailableQuote, None)
  | Some price =>
      (mkQuote CostStatePriced CompletenessComplete price,
       Some (mkReceipt 7 ReceiptMethodPerRequest 1 USD ModeStandard (Some defaultMultipliers) (Some price) (receiptRule i) None
               [mkLine "request"%string 1 None (Some price) directPriceMultiplier ReceiptLinePriced (Some price)] price))
  end.

(** The branch for a rule billed per token, once the usage state is complete or partial. *)
Definition quoteTokens (i : Identity) (rule : Rule) (r : UsageResult) (mode : string) : QuoteValue * option Receipt :=
  let t := res_Tokens r in
  if isNil (CheckedTotal t) then (unavailableQuote, None)
  else match checkedInputTokens t with
  | None => (unavailableQuote, None)
  | Some inputTokens =>
      let '(selectedMode, prices, threshold) := selectPrices rule mode inputTokens in
      let unknown := 0 <? CacheWriteUnknown t in
      match chargeAll (mkTally [] unknown false (bool_decide (res_State r = StatePartial) || unknown) 0) (componentsOf t prices) with
      | None => (unavailableQuote, None)
      | Some ta =>
          let receipt := mkReceipt 4 ReceiptMethodUnitRateSum 1 USD selectedMode None None (receiptRule i) threshold
                           (ta_lines ta ++ unknownWriteLine (CacheWriteUnknown t)) (ta_cost ta) in
          if ta_positiveBillable ta && negb (ta_pricedPositive ta) then (unavailableQuote, Some receipt)
          else (mkQuote CostStatePriced (if ta_partial ta then CompletenessPartial else CompletenessComplete) (ta_cost ta),
                Some receipt)
      end
  end.

Definition QuoteForModeWithReceipt (table : option Table) (i : Identity) (r : UsageResult) (mode : string)
  : QuoteValue * option Receipt :=
  if negb (knownState (res_State r)) then (unavailableQuote, None)
  else
    let afterRequest (_ : unit) :=
      if HasPositive (res_MeasuredUnits r) then (unavailableQuote, None)
      else match res_State r with
      | StateNotApplicable => (mkQuote CostStateNotApplicable CompletenessNotApplicable 0, None)
      | StateComplete | StatePartial =>
          match Lookup table i with
          | None => (unavailableQuote, None)
          | Some rule => quoteTokens i rule r mode
          end
      | _ => (unavailableQuote, None)
      end in
    match Lookup table i with
    | Some rule => if bool_decide (rule_BillingUnit rule = BillingUnitRequest) then quoteRequest i rule else afterRequest tt
    | None => afterRequest tt
    end.

Definition Quote (table : option Table) (i : Identity) (r : UsageResult) : QuoteValue :=
  (QuoteForModeWithReceipt table i r ModeStandard).1.

Definition QuoteWithReceipt (table : option Table) (i : Identity) (r : UsageResult) : QuoteValue * option Receipt :=
  QuoteForModeWithReceipt table i r ModeStandard.

Definition QuoteForMode (table : option Table) (i : Identity) (r : UsageResult) (mode : string) : QuoteValue :=
  (QuoteForModeWithReceipt table i r mode).1.

(** The adjusted total, schema version, base total and multipliers of the receipt. *)
Definition adjustReceipt (rc : Receipt) (total : Z) (pm : PriceMultipliers) : Receipt :=
  mkReceipt (if rc_SchemaVersion rc <? 6 then 6 else rc_SchemaVersion rc) (rc_Method rc) (rc_MethodVersion rc)
    (rc_Currency rc) (rc_PricingMode rc) (Some pm) (Some (rc_TotalNanoUSD rc)) (rc_Rule rc)
    (rc_ContextThresholdTokens rc) (rc_LineItems rc) total.

Definition QuoteForModeWithMultipliers (table : option Table) (i : Identity) (r : UsageResult) (mode : string)
    (pm : PriceMultipliers) : QuoteValue * option Receipt :=
  if negb (multiplierValid (pm_Group pm)) || negb (multiplierValid (pm_AccessKey pm)) then (unavailableQuote, None)
  else match QuoteForModeWithReceipt table i r mode with
  | (quote, None) => (quote, None)
  | (quote, Some rc) =>
      if bool_decide (q_State quote = CostStatePriced) then
        match applyPriceMultipliers (q_EstimatedCostNanoUSD quote) pm with
        | None => (unavailableQuote, None)
        | Some adjusted => (mkQuote (q_State quote) (q_Completeness quote) adjusted, Some (adjustReceipt rc adjusted pm))
        end
      else (quote, Some (adjustReceipt rc (rc_TotalNanoUSD rc) pm))
  end.

(** * Validation of stored receipts *)

Inductive ReceiptError :=
| UnsupportedContract | BadPriceMultipliers | BadBaseTotal | BadReceiptMode | BadReceiptRule (e : PriceError)
| BadContextThreshold | BadTotal | RequestRateOnToken | BadLineCode | DuplicateLineCode | BadQuantityOrMultiplier
| BadPricedLine | AmountMismatch | TotalOverflow | BadUnpricedLine | BadLineState
| BaseTotalMismatch | AdjustedTotalMismatch | TotalMismatch | BadRequestLine.

Definition allowedCodes : list string :=
  ["input"; "cache_read"; "cache_write_5m"; "cache_write_1h"; "cache_write"; "output"]%string.

Definition negOpt (o : option Z) : bool := match o with Some v => v <? 0 | None => false end.

(** One line: the running total after it. *)
Definition validateLine (version : Z) (pm : PriceMultipliers) (seen : list string) (total : Z) (line : ReceiptLine)
  : result ReceiptError Z :=
  if isSome (l_RateNanoUSDPerRequest line) then Err RequestRateOnToken
  else if negb (bool_decide (l_Code line ∈ allowedCodes)) then Err BadLineCode
  else if bool_decide (l_Code line ∈ seen) then Err DuplicateLineCode
  else if (l_Quantity line <=? 0) || (Numerator (l_Multiplier line) <=? 0) || (Denominator (l_Multiplier line) <=? 0)
  then Err BadQuantityOrMultiplier
  else match l_State line with
  | ReceiptLinePriced =>
      match l_RateNanoUSDPerMillion line, l_AmountNanoUSD line with
      | Some rate, Some amount =>
          if (rate <? 0) || (amount <? 0) then Err BadPricedLine
          else
            let quoted := if version =? 5 then quoteComponentWithPriceMultipliers (l_Quantity line) rate (l_Multiplier line) pm
                          else QuoteComponent (l_Quantity line) rate (l_Multiplier line) in
            match quoted with
            | Some a =>
                if negb (a =? amount) then Err AmountMismatch
                else match CheckedAddNanoUSD total a with Some t => Ok t | None => Err TotalOverflow end
            | None => Err AmountMismatch
            end
      | _, _ => Err BadPricedLine
      end
  | ReceiptLineUnpriced =>
      if isSome (l_RateNanoUSDPerMillion line) || isSome (l_AmountNanoUSD line) then Err BadUnpricedLine else Ok total
  | ReceiptLineOther _ => Err BadLineState
  end.

Fixpoint validateLines (version : Z) (pm : PriceMultipliers) (seen : list string) (total : Z) (lines : list ReceiptLine)
  : result ReceiptError Z :=
  match lines with
  | [] => Ok total
  | line :: lines' =>
      try! total' := validateLine version pm seen total line in
      validateLines version pm (l_Code line :: seen) total' lines'
  end.

Definition validateRequestReceipt (rc : Receipt) : result ReceiptError unit :=
  if negb (bool_decide (rc_Method rc = ReceiptMethodPerRequest)) || negb (rc_MethodVersion rc =? 1)
     || negb (bool_decide (rc_Currency rc = USD)) || negb (bool_decide (rc_PricingMode rc = ModeStandard))
     || isSome (rc_ContextThresholdTokens rc) then Err UnsupportedContract
  else match validateReceiptRule (rc_Rule rc) 7 with
  | Err e => Err (BadReceiptRule e)
  | Ok _ =>
      match rc_PriceMultipliers rc, rc_BaseTotalNanoUSD rc, rc_LineItems rc with
      | Some pm, Some base, [line] =>
          if negb (multiplierValid (pm_Group pm)) || negb (multiplierValid (pm_AccessKey pm)) || (base <? 0)
          then Err BadPriceMultipliers
          else match l_RateNanoUSDPerRequest line, l_AmountNanoUSD line with
          | Some rate, Some amount =>
              if negb (bool_decide (l_Code line = "request"%string)) || negb (l_Quantity line =? 1)
                 || negb (bool_decide (l_State line = ReceiptLinePriced))
                 || negb (bool_decide (l_Multiplier line = directPriceMultiplier))
                 || isSome (l_RateNanoUSDPerMillion line) || (rate <? 0) || negb (rate =? amount) || negb (amount =? base)
              then Err BadRequestLine
              else match applyPriceMultipliers base pm with
              | Some adjusted => if negb (adjusted =? rc_TotalNanoUSD rc) then Err AdjustedTotalMismatch else Ok tt
              | None => Err AdjustedTotalMismatch
              end
          | _, _ => Err BadRequestLine
          end
      | _, _, _ => Err BadPriceMultipliers
      end
  end.

(** The multipliers a receipt is checked with: those of schemas 5 and 6, else the defaults. *)
Definition receiptMultipliers (rc : Receipt) : result ReceiptError PriceMultipliers :=
  if rc_SchemaVersion rc <? 5 then
    if isSome (rc_PriceMultipliers rc) then Err BadPriceMultipliers else Ok defaultMultipliers
  else match rc_PriceMultipliers rc with
  | Some pm => if negb (multiplierValid (pm_Group pm)) || negb (multiplierValid (pm_AccessKey pm)) then Err BadPriceMultipliers else Ok pm
  | None => Err BadPriceMultipliers
  end.

(** The checks of a token receipt before its lines. *)
Definition validateHeader (rc : Receipt) : result ReceiptError PriceMultipliers :=
  if negb ((1 <=? rc_SchemaVersion rc) && (rc_SchemaVersion rc <=? 6))
     || negb (bool_decide (rc_Method rc = ReceiptMethodUnitRateSum)) || negb (rc_MethodVersion rc =? 1)
     || negb (bool_decide (rc_Currency rc = USD)) then Err UnsupportedContract
  else
    try! pm := receiptMultipliers rc in
    if (if rc_SchemaVersion rc <? 6 then isSome (rc_BaseTotalNanoUSD rc)
        else match rc_BaseTotalNanoUSD rc with Some b => b <? 0 | None => true end) then Err BadBaseTotal
    else if (if rc_SchemaVersion rc <? 4 then negb (bool_decide (rc_PricingMode rc = EmptyString))
             else negb (modeValid (rc_PricingMode rc))) then Err BadReceiptMode
    else match validateReceiptRule (rc_Rule rc) (rc_SchemaVersion rc) with
    | Err e => Err (BadReceiptRule e)
    | Ok _ =>
        if negOpt (rc_ContextThresholdTokens rc) then Err BadContextThreshold
        else if rc_TotalNanoUSD rc <? 0 then Err BadTotal
        else Ok pm
    end.

(** The checks of a token receipt after its lines; the header left a base total in schema 6. *)
Definition validateTotals (rc : Receipt) (pm : PriceMultipliers) (total : Z) : result ReceiptError unit :=
  if rc_SchemaVersion rc =? 6 then
    if negb (opt_eqb (Some total) (rc_BaseTotalNanoUSD rc)) then Err BaseTotalMismatch
    else match applyPriceMultipliers total pm with
    | Some adjusted => if negb (adjusted =? rc_TotalNanoUSD rc) then Err AdjustedTotalMismatch else Ok tt
    | None => Err AdjustedTotalMismatch
    end
  else if negb (total =? rc_TotalNanoUSD rc) then Err TotalMismatch else Ok tt.

Definition ValidateReceipt (rc : Receipt) : result ReceiptError unit :=
  if rc_SchemaVersion rc =? 7 then validateRequestReceipt rc
  else
    try! pm := validateHeader rc in
    try! total := validateLines (rc_SchemaVersion rc) pm [] 0 (rc_LineItems rc) in
    validateTotals rc pm total.

(** * The usage and cost state matrix ([internal/usagecost/validate.go]) *)

Inductive UsageCostError := InvalidEstimatedCost | InvalidCombination | NonZeroCost.

Definition validCombination (u : UsageState) (c : CostState) : bool :=
  match u with
  | StateComplete | StatePartial => bool_decide (c = CostStatePriced) || bool_decide (c = CostStateUnpriced)
  | StateMissing => bool_decide (c = CostStateUnpriced)
  | StateNotApplicable => bool_decide (c = CostStateNotApplicable)
  | StateOther _ => false
  end.

Definition Validate (u : UsageState) (c : CostState) (estimated : Z) : result UsageCostError unit :=
  if estimated <? 0 then Err InvalidEstimatedCost
  else if negb (validCombination u c) then Err InvalidCombination
  else if negb (bool_decide (c = CostStatePriced)) && negb (estimated =? 0) then Err NonZeroCost
  else Ok tt.
