(* ===== verification/QuoteProps.v ===== *)
(** Properties of quotes and receipts ([Quote]): which prices apply, what is charged, and that
    every receipt the program writes passes its own validation. *)
From S2P Require Import Prelude GoStrings Usage Money PriceTable Quote.

Local Open Scope Z_scope.
Local Open Scope go_scope.

(** * Schedule selection *)

(** [x] is the largest threshold of [tiers] that [n] reaches, and [p] the prices of its tier;
    [None] when no tier is reached. *)
Definition tier_selected (base : Prices) (tiers : list ContextTier) (n : Z) (p : Prices) (th : option Z) : Prop :=
  match th with
  | None => p = base /\ Forall (fun t => n < InputThresholdTokens t) tiers
  | Some x => exists t, t ∈ tiers /\ InputThresholdTokens t = x /\ tier_Prices t = p /\ x <= n
      /\ Forall (fun t' => InputThresholdTokens t' <= n -> InputThresholdTokens t' <= x) tiers
  end.

Lemma selectTiers_spec p0 s0 tiers n :
  StronglySorted (fun a b => InputThresholdTokens a < InputThresholdTokens b) tiers ->
  let '(p, th) := selectTiers p0 s0 tiers n in
  (p = p0 /\ th = s0 /\ Forall (fun t => n < InputThresholdTokens t) tiers)
  \/ (exists x, th = Some x /\ tier_selected p0 tiers n p (Some x)).
Proof.
  revert p0 s0. induction tiers as [|t tiers IH]; intros p0 s0 Hs; cbn [selectTiers]; [by left|].
  apply StronglySorted_inv in Hs as [Hs Ht]. destruct (Z.ltb_spec n (InputThresholdTokens t)) as [Hn|Hn].
  { left. split; [done|]. split; [done|]. constructor; [done|]. eapply Forall_impl; [exact Ht|]. cbn. lia. }
  specialize (IH (tier_Prices t) (Some (InputThresholdTokens t)) Hs).
  destruct (selectTiers _ _ tiers n) as [p th]. right.
  destruct IH as [(-> & -> & Hall)|(x & -> & t' & Hin & Hx & Hp & Hle & Hall)].
  - eexists. split; [done|]. exists t. repeat split; [constructor|done|]. constructor; [done|].
    eapply Forall_impl; [exact Hall|]. cbn. lia.
  - eexists. split; [done|]. exists t'. repeat split; [by constructor|done..|]. constructor; [|done].
    intros _. rewrite Forall_forall in Ht. specialize (Ht _ Hin). lia.
Qed.

Lemma selectSchedulePrices_spec base tiers n :
  validateContextTiers tiers = Ok tt ->
  let '(p, th) := selectSchedulePrices base tiers n in tier_selected base tiers n p th.
Proof.
  intros [Hs _]%validateTiersFrom_spec. pose proof (selectTiers_spec base None tiers n Hs) as H.
  unfold selectSchedulePrices. destruct (selectTiers _ _ _ _) as [p th].
  destruct H as [(-> & -> & H)|(x & -> & H)]; done.
Qed.

(** The selected prices are non-negative and the selected threshold is. *)
Lemma tier_selected_ok base tiers n p th :
  validatePrices base = Ok tt -> validateContextTiers tiers = Ok tt -> tier_selected base tiers n p th ->
  validatePrices p = Ok tt /\ negOpt th = false.
Proof.
  intros Hb [_ Ht]%validateTiersFrom_spec Hs. destruct th as [x|]; cbn in Hs |- *; [|by destruct Hs as [-> _]].
  destruct Hs as (t & Hin & <- & <- & _). rewrite Forall_forall in Ht. destruct (Ht t Hin) as (? & _ & ? & _).
  split; [done|]. apply Z.ltb_ge. done.
Qed.

(** The prices of a request.  For a valid rule, a request whose input reaches a standard
    context tier is charged with the tier of the largest threshold reached, whatever mode it
    asked for; below every tier, a non-standard mode that has a schedule is charged with that
    schedule, by the same tier rule; and otherwise the standard base prices apply. *)
Theorem schedule_selection rule mode n :
  validateRule rule = Ok tt ->
  let '(m, p, th) := selectPrices rule mode n in
  if existsb (fun t => InputThresholdTokens t <=? n) (rule_ContextTiers rule) then
    m = ModeStandard /\ isSome th = true /\ tier_selected (rule_Prices rule) (rule_ContextTiers rule) n p th
  else match rule_ModeSchedules rule !! mode with
  | Some s =>
      if bool_decide (mode = EmptyString) || bool_decide (mode = ModeStandard) then m = ModeStandard /\ p = rule_Prices rule /\ th = None
      else m = mode /\ tier_selected (sch_Prices s) (sch_ContextTiers s) n p th
  | None => m = ModeStandard /\ p = rule_Prices rule /\ th = None
  end.
Proof.
  intros (_ & _ & _ & Ht & Hm)%validateRule_inv. unfold selectPrices.
  pose proof (selectSchedulePrices_spec (rule_Prices rule) _ n Ht) as Hs.
  destruct (selectSchedulePrices (rule_Prices rule) _ n) as [p th]. destruct th as [x|]; cbn [isNil andb].
  - destruct Hs as (t & Hin & Hs). assert (existsb (fun t => InputThresholdTokens t <=? n) (rule_ContextTiers rule) = true) as ->.
    { apply existsb_exists. exists t. split; [by apply list_elem_of_In|]. apply Z.leb_le. lia. }
    split; [done|]. split; [done|]. by exists t.
  - destruct Hs as [-> Hall]. assert (existsb (fun t => InputThresholdTokens t <=? n) (rule_ContextTiers rule) = false) as ->.
    { apply not_true_iff_false. intros (t & Hin & Hle%Z.leb_le)%existsb_exists. rewrite Forall_forall in Hall.
      apply list_elem_of_In, Hall in Hin. lia. }
    destruct (rule_ModeSchedules rule !! mode) as [s|] eqn:Es; [|by case_if].
    do 2 (case_bool_decide; [done|]). cbn [negb orb andb].
    destruct (validateSchedule_inv _ _ (Hm _ _ Es)) as (_ & _ & _ & Hv).
    pose proof (selectSchedulePrices_spec (sch_Prices s) _ n Hv) as Hs. by destruct (selectSchedulePrices _ _ _).
Qed.

(** * The line items *)

Definition componentCost (c : Component) : Z :=
  roundHalfUp (c_tokens c * NanoUSDPerMillion (c_price c) * Numerator (c_multiplier c))
    (tokensPerMillion * Denominator (c_multiplier c)).

Definition usedComponent (c : Component) : bool := negb (c_tokens c =? 0).
Definition chargedComponent (c : Component) : bool := usedComponent c && Set_ (c_price c).

(** The exact sum of the rounded charges of the components with a price. *)
Definition totalCost (cs : list Component) : Z :=
  foldr (fun c acc => (if chargedComponent c then componentCost c else 0) + acc) 0 cs.

Definition lineOf (c : Component) : ReceiptLine :=
  if Set_ (c_price c) then pricedLine c (componentCost c) else unpricedLine c.

Definition linesOf (cs : list Component) : list ReceiptLine := lineOf <$> filter (fun c => usedComponent c = true) cs.

Record component_ok (c : Component) : Prop := {
  co_tokens : 0 <= c_tokens c;
  co_price : 0 <= NanoUSDPerMillion (c_price c);
  co_num : 0 < Numerator (c_multiplier c);
  co_den : 0 < Denominator (c_multiplier c);
  co_code : c_code c ∈ allowedCodes
}.

Lemma componentCost_nonneg c : component_ok c -> 0 <= componentCost c.
Proof. intros []. apply roundHalfUp_spec; [nia|unfold tokensPerMillion; lia]. Qed.

Lemma QuoteComponent_component c :
  component_ok c ->
  QuoteComponent (c_tokens c) (NanoUSDPerMillion (c_price c)) (c_multiplier c)
  = if maxInt64 <? componentCost c then None else Some (componentCost c).
Proof.
  intros []. destruct (Z.ltb_spec maxInt64 (componentCost c)).
  - destruct (QuoteComponent _ _ _) as [q|] eqn:E; [|done].
    apply QuoteComponent_spec in E as (_ & _ & _ & _ & Hq & ->). unfold componentCost in *. lia.
  - by apply QuoteComponent_spec.
Qed.

Lemma totalCost_nonneg cs : Forall component_ok cs -> 0 <= totalCost cs.
Proof.
  induction 1 as [|c cs Hc _ IH]; [done|]. cbn [totalCost foldr]. fold (totalCost cs). pose proof (componentCost_nonneg c Hc). destruct (chargedComponent c); lia.
Qed.

Lemma CheckedAddNanoUSD_exact l r :
  0 <= l <= maxInt64 -> 0 <= r <= maxInt64 ->
  CheckedAddNanoUSD l r = if maxInt64 <? l + r then None else Some (l + r).
Proof.
  intros Hl Hr. change (CheckedAddNanoUSD l r) with (CheckedAdd l r).
  assert (is_i64 l /\ is_i64 r) as [Tl Tr] by (unfold_ints; lia).
  destruct (Z.ltb_spec maxInt64 (l + r)).
  - destruct (CheckedAdd l r) as [v|] eqn:E; [|done]. apply CheckedAdd_spec in E; [|done..]. lia.
  - apply CheckedAdd_spec; [done..|lia].
Qed.

(** The loop over the components fails exactly when the sum leaves 64 bits. *)
Lemma chargeAll_spec cs t :
  Forall component_ok cs -> 0 <= ta_cost t <= maxInt64 ->
  chargeAll t cs =
  if maxInt64 <? ta_cost t + totalCost cs then None
  else Some (mkTally (ta_lines t ++ linesOf cs) (ta_positiveBillable t || existsb usedComponent cs)
               (ta_pricedPositive t || existsb chargedComponent cs)
               (ta_partial t || existsb (fun c => usedComponent c && negb (Set_ (c_price c))) cs)
               (ta_cost t + totalCost cs)).
Proof.
  intros Hcs. revert t. induction Hcs as [|c cs Hc Hcs IH]; intros t Ht.
  { cbn. rewrite Z.add_0_r, app_nil_r, !orb_false_r, (proj2 (Z.ltb_ge _ _)) by lia. by destruct t. }
  pose proof (totalCost_nonneg cs Hcs) as Hn. pose proof (componentCost_nonneg c Hc) as Hcn.
  unfold linesOf in *. cbn [chargeAll existsb]. unfold chargeComponent. rewrite filter_cons.
  cbn [totalCost foldr]. fold (totalCost cs).
  assert ((c_tokens c =? 0) = negb (usedComponent c)) as -> by by (unfold usedComponent; rewrite negb_involutive).
  assert (chargedComponent c = usedComponent c && Set_ (c_price c)) as -> by done.
  destruct (usedComponent c) eqn:Eu; cbn [negb andb orb]; swap 1 2.
  { rewrite decide_False by done. rewrite IH, Z.add_0_l by done. done. }
  rewrite decide_True, fmap_cons by done. unfold lineOf at 1.
  destruct (Set_ (c_price c)) eqn:Es; cbn [negb orb andb].
  - rewrite QuoteComponent_component by done. destruct (Z.ltb_spec maxInt64 (componentCost c)).
    { by rewrite (proj2 (Z.ltb_lt _ _)) by lia. }
    rewrite CheckedAddNanoUSD_exact by lia. destruct (Z.ltb_spec maxInt64 (ta_cost t + componentCost c)).
    { by rewrite (proj2 (Z.ltb_lt _ _)) by lia. }
    rewrite IH by (cbn; lia). cbn [ta_cost ta_lines ta_positiveBillable ta_pricedPositive ta_partial].
    by rewrite <- app_assoc, Z.add_assoc, !orb_true_r.
  - rewrite IH by (cbn; lia). cbn [ta_cost ta_lines ta_positiveBillable ta_pricedPositive ta_partial].
    by rewrite <- app_assoc, Z.add_0_l, !orb_true_r.
Qed.

(** * Quotes *)

Lemma componentsOf_ok t p :
  Forall (fun x => 0 <= x) (tokenFields t) -> validatePrices p = Ok tt -> Forall component_ok (componentsOf t p).
Proof.
  intros Ht Hp. unfold tokenFields in Ht. rewrite !Forall_cons in Ht.
  assert (forall x, x ∈ pricesOf p -> 0 <= NanoUSDPerMillion x) as Hx by (intros; by eapply validatePrices_nonneg).
  unfold componentsOf, pricesOf, allowedCodes in *.
  repeat (constructor; [split; cbn; [tauto|apply Hx; set_solver|lia|lia|set_solver]|]). constructor.
Qed.

(** The sum of the five input fields fits whenever the whole total does. *)
Definition inputSum (t : Tokens) : Z :=
  UncachedInput t + CacheRead t + CacheWrite5M t + CacheWrite1H t + CacheWriteUnknown t.

Lemma checkedInputTokens_total t n :
  tokens_typed t -> CheckedTotal t = Some n ->
  checkedInputTokens t = Some (inputSum t) /\ Forall (fun x => 0 <= x) (tokenFields t).
Proof.
  intros Hty (Hn & Hs & _)%CheckedTotal_spec; [|done]. split; [|done].
  unfold tokens_typed, tokenSum, tokenFields in *. rewrite !Forall_cons in *. cbn in Hs. unfold checkedInputTokens, inputSum.
  apply checkedSum_spec; [unfold_ints; lia|done|rewrite !Forall_cons; tauto|].
  rewrite !Forall_cons. cbn. split; [tauto|lia].
Qed.

Lemma selectPrices_ok rule mode n :
  validateRule rule = Ok tt ->
  let '(m, p, th) := selectPrices rule mode n in validatePrices p = Ok tt /\ negOpt th = false /\ modeValid m = true.
Proof.
  intros (_ & _ & Hp & Ht & Hm)%validateRule_inv. unfold selectPrices.
  pose proof (selectSchedulePrices_spec (rule_Prices rule) _ n Ht) as Hs.
  destruct (selectSchedulePrices (rule_Prices rule) _ n) as [p th].
  destruct (tier_selected_ok _ _ _ _ _ Hp Ht Hs) as [Hp' Hth].
  case_if; [|split; [done|split; [done|reflexivity]]].
  destruct (rule_ModeSchedules rule !! mode) as [s|] eqn:Es; [|split; [done|split; [done|reflexivity]]].
  destruct (validateSchedule_inv _ _ (Hm _ _ Es)) as (Hv & _ & Hps & Hts).
  pose proof (selectSchedulePrices_spec (sch_Prices s) _ n Hts) as Hs'.
  destruct (selectSchedulePrices _ _ _) as [p' th']. by destruct (tier_selected_ok _ _ _ _ _ Hps Hts Hs').
Qed.

(** The quote and the receipt of a token-billed request with usable token counts. *)
Definition tokenReceipt (i : Identity) (m : string) (th : option Z) (t : Tokens) (cs : list Component) : Receipt :=
  mkReceipt 4 ReceiptMethodUnitRateSum 1 USD m None None (receiptRule i) th
    (linesOf cs ++ unknownWriteLine (CacheWriteUnknown t)) (totalCost cs).

Definition tokenQuote (partial : bool) (t : Tokens) (cs : list Component) : QuoteValue :=
  let unknown := 0 <? CacheWriteUnknown t in
  if (unknown || existsb usedComponent cs) && negb (existsb chargedComponent cs) then unavailableQuote
  else mkQuote CostStatePriced
         (if partial || unknown || existsb (fun c => usedComponent c && negb (Set_ (c_price c))) cs
          then CompletenessPartial else CompletenessComplete) (totalCost cs).

Lemma quoteTokens_spec i rule r mode n :
  validateRule rule = Ok tt -> tokens_typed (res_Tokens r) -> CheckedTotal (res_Tokens r) = Some n ->
  let t := res_Tokens r in
  let '(m, p, th) := selectPrices rule mode (inputSum t) in
  let cs := componentsOf t p in
  quoteTokens i rule r mode =
  if maxInt64 <? totalCost cs then (unavailableQuote, None)
  else (tokenQuote (bool_decide (res_State r = StatePartial)) t cs, Some (tokenReceipt i m th t cs)).
Proof.
  intros Hv Hty Hn. destruct (checkedInputTokens_total _ _ Hty Hn) as [Hin Hnn]. cbn zeta.
  pose proof (selectPrices_ok rule mode (inputSum (res_Tokens r)) Hv) as Hsel. unfold quoteTokens. rewrite Hn, Hin. cbn [isNil].
  destruct (selectPrices rule mode _) as [[m p] th]. destruct Hsel as (Hp & _ & _).
  rewrite chargeAll_spec; [|by apply componentsOf_ok|cbn; unfold maxInt64; lia].
  cbn [ta_cost ta_lines ta_positiveBillable ta_pricedPositive ta_partial]. rewrite Z.add_0_l.
  case_if; [done|]. cbn [ta_cost ta_lines ta_positiveBillable ta_pricedPositive ta_partial app orb].
  unfold tokenQuote. by case_if.
Qed.

(** ** The charge in the terms of the price list *)

(** The nearest integer to [n / d], ties upward. *)
Definition nearest (n d : Z) : Z := (2 * n + d) / (2 * d).

(** [tokens] at a price per million tokens, [num / den] times; nothing where the list has no price. *)
Definition tokenCharge (tokens : Z) (price : Price) (num den : Z) : Z :=
  if Set_ price then nearest (tokens * NanoUSDPerMillion price * num) (1000000 * den) else 0.

(** The prices of a request with [n] input tokens: those of the highest standard tier it reaches;
    below every tier, those of the schedule of its mode, by the same rule, where the mode is no
    standard one and has a schedule; and otherwise the base prices. *)
Definition priceList (rule : Rule) (mode : string) (n : Z) (p : Prices) : Prop :=
  (exists x, tier_selected (rule_Prices rule) (rule_ContextTiers rule) n p (Some x))
  \/ Forall (fun t => n < InputThresholdTokens t) (rule_ContextTiers rule)
     /\ ((exists s th, mode <> EmptyString /\ mode <> ModeStandard /\ rule_ModeSchedules rule !! mode = Some s
            /\ tier_selected (sch_Prices s) (sch_ContextTiers s) n p th)
         \/ (mode = EmptyString \/ mode = ModeStandard \/ rule_ModeSchedules rule !! mode = None) /\ p = rule_Prices rule).

Lemma nearest_roundHalfUp n d : 0 <= n -> 0 < d -> roundHalfUp n d = nearest n d.
Proof.
  intros Hn Hd. symmetry. apply roundHalfUp_unique; [done..|]. unfold nearest.
  pose proof (Z.div_mod (2 * n + d) (2 * d) ltac:(lia)). pose proof (Z.mod_pos_bound (2 * n + d) (2 * d) ltac:(lia)). lia.
Qed.

Lemma charge_component c : component_ok c ->
  (if chargedComponent c then componentCost c else 0) = tokenCharge (c_tokens c) (c_price c) (Numerator (c_multiplier c)) (Denominator (c_multiplier c)).
Proof.
  intros []. unfold chargedComponent, usedComponent, tokenCharge, componentCost. destruct (Set_ (c_price c)); [|by rewrite andb_false_r].
  rewrite andb_true_r, nearest_roundHalfUp by (unfold tokensPerMillion; nia). unfold tokensPerMillion, nearest.
  destruct (Z.eqb_spec (c_tokens c) 0) as [->|]; [|done]. cbn [negb]. rewrite !Z.mul_0_l. symmetry. apply Z.div_small. lia.
Qed.

Lemma componentsOf_cost t p : Forall component_ok (componentsOf t p) ->
  totalCost (componentsOf t p) = tokenCharge (UncachedInput t) (Input p) 1 1 + tokenCharge (CacheRead t) (CacheReadPrice p) 1 1
    + tokenCharge (CacheWrite5M t) (CacheWritePrice p) 1 1 + tokenCharge (CacheWrite1H t) (CacheWritePrice p) 8 5 + tokenCharge (Output t) (OutputPrice p) 1 1.
Proof.
  unfold componentsOf. rewrite !Forall_cons. intros (H1 & H2 & H3 & H4 & H5 & _). unfold totalCost. cbn [foldr].
  rewrite !charge_component by done. cbn. lia.
Qed.

Lemma selectPrices_list rule mode n : validateRule rule = Ok tt -> priceList rule mode n (selectPrices rule mode n).1.2.
Proof.
  intros (_ & _ & _ & Ht & Hm)%validateRule_inv. unfold selectPrices, priceList.
  pose proof (selectSchedulePrices_spec (rule_Prices rule) _ n Ht) as Hs.
  destruct (selectSchedulePrices (rule_Prices rule) _ n) as [p [x|]]; cbn [isNil andb]; [by left; exists x|]. destruct Hs as [-> Hall]. right. split; [done|].
  destruct (bool_decide (mode = EmptyString)) eqn:E1; [apply bool_decide_eq_true in E1; by right; split; [left|]|]. apply bool_decide_eq_false in E1.
  destruct (bool_decide (mode = ModeStandard)) eqn:E2; [apply bool_decide_eq_true in E2; by right; split; [right; left|]|]. apply bool_decide_eq_false in E2.
  cbn [negb andb]. destruct (rule_ModeSchedules rule !! mode) as [s|] eqn:Es; [|by right; split; [right; right|]].
  destruct (validateSchedule_inv _ _ (Hm _ _ Es)) as (_ & _ & _ & Hv). left.
  pose proof (selectSchedulePrices_spec (sch_Prices s) _ n Hv) as Hs. destruct (selectSchedulePrices _ _ _) as [p th]. by exists s, th.
Qed.

(** C10: The exact charge.  A token-billed request with usable counts and a rule in the table is
    charged with the price list of the highest standard tier its input reaches, else of its
    mode, else with the base prices: uncached input, cache reads, five-minute cache writes and
    output at their prices and one-hour cache writes at 8/5 of the price of a cache write, each
    rounded to the nearest nano-dollar.  The quote is unavailable exactly when the sum leaves 64
    bits or when something was used and nothing used has a price, and it is complete exactly when
    the usage was, no cache write of unknown duration occurred and everything used has a price. *)
Theorem quote_exact rules table i rule r mode n :
  NewTable rules = Ok table -> Lookup (Some table) i = Some rule -> rule_BillingUnit rule <> BillingUnitRequest ->
  res_State r = StateComplete \/ res_State r = StatePartial -> HasPositive (res_MeasuredUnits r) = false ->
  tokens_typed (res_Tokens r) -> CheckedTotal (res_Tokens r) = Some n ->
  let t := res_Tokens r in
  exists p, priceList rule mode (UncachedInput t + CacheRead t + CacheWrite5M t + CacheWrite1H t + CacheWriteUnknown t) p
    /\ let cost := tokenCharge (UncachedInput t) (Input p) 1 1 + tokenCharge (CacheRead t) (CacheReadPrice p) 1 1
                   + tokenCharge (CacheWrite5M t) (CacheWritePrice p) 1 1 + tokenCharge (CacheWrite1H t) (CacheWritePrice p) 8 5
                   + tokenCharge (Output t) (OutputPrice p) 1 1 in
       let counts := [(UncachedInput t, Input p); (CacheRead t, CacheReadPrice p); (CacheWrite5M t, CacheWritePrice p);
                      (CacheWrite1H t, CacheWritePrice p); (Output t, OutputPrice p)] in
       let used x := negb (x.1 =? 0) in
       let unknown := 0 <? CacheWriteUnknown t in
       QuoteForMode (Some table) i r mode =
       if (maxInt64 <? cost) || (unknown || existsb used counts) && negb (existsb (fun x => used x && Set_ x.2) counts) then unavailableQuote
       else mkQuote CostStatePriced
              (if bool_decide (res_State r = StateComplete) && negb unknown && forallb (fun x => negb (used x) || Set_ x.2) counts
               then CompletenessComplete else CompletenessPartial) cost.
Proof.
  intros Ht Hl Hb Hs Hm Hty Hn t. destruct (NewTable_ok _ _ Ht i rule Hl) as [_ Hv].
  pose proof (quoteTokens_spec i rule r mode n Hv Hty Hn) as Hq. cbn zeta in Hq. fold t in Hq.
  pose proof (selectPrices_list rule mode (inputSum t) Hv) as Hlist. pose proof (selectPrices_ok rule mode (inputSum t) Hv) as Hok.
  destruct (selectPrices _ _ _) as [[m p] th]. destruct Hok as (Hp & _ & _). exists p. split; [exact Hlist|].
  destruct (checkedInputTokens_total _ _ Hty Hn) as [_ Hnn]. fold t in Hnn.
  unfold QuoteForMode, QuoteForModeWithReceipt. rewrite Hl, Hm, (bool_decide_eq_false_2 (rule_BillingUnit rule = _)) by done.
  assert (knownState (res_State r) = true) as -> by (by destruct Hs as [-> | ->]). cbn [negb].
  replace (match res_State r with StateComplete | StatePartial => _ | _ => _ end) with (quoteTokens i rule r mode)
    by (by destruct Hs as [-> | ->]).
  rewrite Hq. pose proof (componentsOf_ok t p Hnn Hp) as Hcs. cbn zeta. rewrite <- (componentsOf_cost t p Hcs).
  destruct (maxInt64 <? totalCost (componentsOf t p)); [done|]. cbn [orb]. unfold tokenQuote. cbn [fst].
  match goal with |- (if ?a then _ else _) = (if ?b then _ else _) => change b with a; destruct a; [done|] end. f_equal.
  unfold usedComponent. cbn. destruct Hs as [Es|Es]; rewrite Es; cbn;
    destruct (0 <? CacheWriteUnknown t), (UncachedInput t =? 0), (CacheRead t =? 0), (CacheWrite5M t =? 0), (CacheWrite1H t =? 0), (Output t =? 0),
      (Set_ (Input p)), (Set_ (CacheReadPrice p)), (Set_ (CacheWritePrice p)), (Set_ (OutputPrice p)); done.
Qed.

(** * Receipts *)

Lemma validateLine_of version pm seen total c :
  component_ok c -> usedComponent c = true -> version <> 5 -> c_code c ∉ seen ->
  0 <= total -> total + (if chargedComponent c then componentCost c else 0) <= maxInt64 ->
  validateLine version pm seen total (lineOf c) = Ok (total + if chargedComponent c then componentCost c else 0).
Proof.
  intros Hc Hu Hv Hs Ht Hle. pose proof (componentCost_nonneg c Hc) as Hn. pose proof (QuoteComponent_component c Hc) as Hq.
  destruct Hc as [Hct Hcp Hcn Hcd Hcc]. unfold chargedComponent in *. rewrite Hu in *. cbn [andb] in *.
  assert (0 < c_tokens c) as Hpos by (unfold usedComponent in Hu; zb; lia).
  unfold validateLine, lineOf. destruct (Set_ (c_price c)); cbn [pricedLine unpricedLine l_Code l_Quantity
    l_RateNanoUSDPerMillion l_RateNanoUSDPerRequest l_Multiplier l_State l_AmountNanoUSD isSome];
    rewrite bool_decide_eq_true_2, bool_decide_eq_false_2 by done; cbn [negb];
    rewrite (proj2 (Z.leb_gt (c_tokens c) 0)), (proj2 (Z.leb_gt (Numerator _) 0)), (proj2 (Z.leb_gt (Denominator _) 0)) by done;
    cbn [orb].
  - rewrite (proj2 (Z.ltb_ge _ 0)), (proj2 (Z.ltb_ge (componentCost c) 0)), (proj2 (Z.eqb_neq version 5)) by done. cbn [orb].
    rewrite Hq, (proj2 (Z.ltb_ge _ _)), Z.eqb_refl by lia. cbn [negb].
    rewrite CheckedAddNanoUSD_exact by lia. by rewrite (proj2 (Z.ltb_ge _ _)) by lia.
  - by rewrite Z.add_0_r.
Qed.

(** The lines of a receipt validate and add up to the charge. *)
Lemma validateLines_of version pm seen total cs rest :
  Forall component_ok cs -> version <> 5 -> NoDup (c_code <$> cs) -> (forall c, c ∈ cs -> c_code c ∉ seen) ->
  0 <= total -> total + totalCost cs <= maxInt64 ->
  exists seen', (forall x, x ∈ seen' -> x ∈ seen \/ x ∈ c_code <$> cs)
    /\ validateLines version pm seen total (linesOf cs ++ rest) = validateLines version pm seen' (total + totalCost cs) rest.
Proof.
  intros Hcs Hv. revert seen total. induction Hcs as [|c cs Hc Hcs IH]; intros seen total Hnd Hs Ht Hle.
  { exists seen. cbn. rewrite Z.add_0_r. auto. }
  cbn [totalCost foldr] in *. fold (totalCost cs) in *. pose proof (totalCost_nonneg cs Hcs) as Hn.
  pose proof (componentCost_nonneg c Hc) as Hcn.
  rewrite fmap_cons in Hnd. apply NoDup_cons in Hnd as [Hx Hnd]. unfold linesOf in *. rewrite filter_cons.
  destruct (decide (usedComponent c = true)) as [Hu|Hu].
  - rewrite (fmap_cons lineOf). cbn [app validateLines].
    rewrite validateLine_of; [|done|done|done|apply Hs; constructor|done|destruct (chargedComponent c); lia].
    destruct (IH (l_Code (lineOf c) :: seen) (total + if chargedComponent c then componentCost c else 0)) as (seen' & Hs' & ->).
    + done.
    + intros c' Hc'. assert (l_Code (lineOf c) = c_code c) as -> by (unfold lineOf; by destruct (Set_ _)).
      rewrite elem_of_cons. intros [E|E]; [|by apply (Hs c'); [by constructor|]].
      apply Hx. rewrite <- E. by apply list_elem_of_fmap_2.
    + destruct (chargedComponent c); lia.
    + destruct (chargedComponent c); lia.
    + exists seen'. split; [|by rewrite Z.add_assoc]. intros x [Hx'|Hx']%Hs'; [|right; rewrite fmap_cons; by constructor].
      assert (l_Code (lineOf c) = c_code c) as E by (unfold lineOf; by destruct (Set_ _)). rewrite E in Hx'.
      apply elem_of_cons in Hx' as [->|]; [right; rewrite fmap_cons; by constructor|by left].
  - assert (chargedComponent c = false) as E by (unfold chargedComponent; by destruct (usedComponent c)). rewrite E in *.
    destruct (IH seen total) as (seen' & Hs' & ->); [done|intros c' Hc'; apply Hs; by constructor|done|lia|].
    exists seen'. rewrite Z.add_0_l. split; [|done]. intros x [Hx'|Hx']%Hs'; [by left|right; rewrite fmap_cons; by constructor].
Qed.

Lemma totalCost_uncharged cs : existsb chargedComponent cs = false -> totalCost cs = 0.
Proof.
  induction cs as [|c cs IH]; [done|]. cbn [existsb totalCost foldr]. fold (totalCost cs). intros [-> H]%orb_false_iff.
  by rewrite IH.
Qed.

Lemma receipt_lines version pm t p :
  Forall component_ok (componentsOf t p) -> version <> 5 -> totalCost (componentsOf t p) <= maxInt64 ->
  validateLines version pm [] 0 (linesOf (componentsOf t p) ++ unknownWriteLine (CacheWriteUnknown t))
  = Ok (totalCost (componentsOf t p)).
Proof.
  intros Hcs Hv Hle.
  destruct (validateLines_of version pm [] 0 _ (unknownWriteLine (CacheWriteUnknown t)) Hcs Hv) as (seen & Hs & ->).
  - cbn. apply (bool_decide_unpack _). vm_compute. exact I.
  - by intros c _ ?%elem_of_nil.
  - done.
  - lia.
  - rewrite Z.add_0_l. unfold unknownWriteLine. destruct (Z.ltb_spec 0 (CacheWriteUnknown t)) as [H|]; [|done].
    cbn [validateLines]. unfold validateLine. cbn [isSome l_RateNanoUSDPerRequest l_Code l_Quantity l_Multiplier l_State l_RateNanoUSDPerMillion l_AmountNanoUSD].
    rewrite bool_decide_eq_true_2 by (unfold allowedCodes; set_solver). rewrite bool_decide_eq_false_2.
    + rewrite (proj2 (Z.leb_gt _ 0)) by done. done.
    + intros [E%elem_of_nil|E]%Hs; [done|]. cbn in E. rewrite !elem_of_cons, elem_of_nil in E. naive_solver.
Qed.

Lemma receiptRule_valid i v :
  validateIdentity i = Ok tt -> 3 <= v <= 7 -> validateReceiptRule (receiptRule i) v = Ok tt.
Proof.
  intros Hi Hv. unfold validateReceiptRule, receiptRule. cbn [rr_ScopeKey rr_ChannelID rr_ModelID].
  rewrite (proj2 (Z.eqb_neq v 1)), (proj2 (Z.eqb_neq v 2)), (proj2 (Z.leb_le 3 v)), (proj2 (Z.leb_le v 7)) by lia.
  cbn. by destruct i.
Qed.

Section token_receipt.
Context (i : Identity) (m : string) (th : option Z) (t : Tokens) (p : Prices).
Context (Hi : validateIdentity i = Ok tt) (Hm : modeValid m = true) (Hth : negOpt th = false).
Context (Hcs : Forall component_ok (componentsOf t p)) (Hle : totalCost (componentsOf t p) <= maxInt64).

Lemma tokenReceipt_valid : ValidateReceipt (tokenReceipt i m th t (componentsOf t p)) = Ok tt.
Proof.
  pose proof (totalCost_nonneg _ Hcs) as Hn. unfold ValidateReceipt, validateHeader, receiptMultipliers, tokenReceipt.
  cbn -[modeValid validateReceiptRule linesOf unknownWriteLine validateLines componentsOf totalCost allowedCodes].
  rewrite Hm, receiptRule_valid, Hth, (proj2 (Z.ltb_ge _ 0)) by (done || lia).
  rewrite !bool_decide_eq_true_2 by done.
  cbn -[linesOf unknownWriteLine validateLines componentsOf totalCost]. rewrite receipt_lines by done.
  unfold validateTotals. cbn -[linesOf unknownWriteLine componentsOf totalCost]. by rewrite Z.eqb_refl.
Qed.

Lemma adjustedReceipt_valid pm a :
  multipliersValid pm = true -> applyPriceMultipliers (totalCost (componentsOf t p)) pm = Some a ->
  ValidateReceipt (adjustReceipt (tokenReceipt i m th t (componentsOf t p)) a pm) = Ok tt.
Proof.
  intros Hpm Ha. pose proof (totalCost_nonneg _ Hcs) as Hn. assert (0 <= a) as Ha0.
  { apply applyPriceMultipliers_spec in Ha as (H0 & _ & _ & ->). unfold multipliersValid, multiplierValid in Hpm. zb.
    apply roundHalfUp_spec; [|lia]. apply Z.mul_nonneg_nonneg; [apply Z.mul_nonneg_nonneg|]; lia. }
  unfold multipliersValid in Hpm. apply andb_true_iff in Hpm as [Hg Hk].
  unfold ValidateReceipt, validateHeader, receiptMultipliers, tokenReceipt, adjustReceipt.
  cbn -[modeValid validateReceiptRule linesOf unknownWriteLine validateLines componentsOf totalCost allowedCodes multiplierValid].
  rewrite Hg, Hk. cbn -[modeValid validateReceiptRule linesOf unknownWriteLine validateLines componentsOf totalCost].
  rewrite (proj2 (Z.ltb_ge (totalCost _) 0)), Hm, receiptRule_valid, Hth, (proj2 (Z.ltb_ge a 0)) by (done || lia).
  rewrite !bool_decide_eq_true_2 by done.
  cbn -[linesOf unknownWriteLine validateLines componentsOf totalCost]. rewrite receipt_lines by done.
  unfold validateTotals, opt_eqb. cbn -[linesOf unknownWriteLine componentsOf totalCost applyPriceMultipliers].
  rewrite bool_decide_eq_true_2, Ha by done. cbn. by rewrite Z.eqb_refl.
Qed.

End token_receipt.

(** A request price is a 64-bit amount. *)
Definition rule_typed (r : Rule) : Prop := match rule_RequestPrice r with Some p => is_i64 p | None => True end.

Lemma NewTable_rule rules table i rule :
  NewTable rules = Ok table -> table_rules table !! i = Some rule -> rule ∈ rules.
Proof.
  intros (Hl & _)%(addRules_lookup _ _ _ i) Hr. rewrite Hr in Hl. cbn in Hl. rewrite lookup_empty in Hl.
  destruct (list_find _ rules) as [[n r]|] eqn:E; [|done]. cbn in Hl. injection Hl as ->.
  apply list_find_Some in E as (E & _). by eapply list_elem_of_lookup_2.
Qed.

Lemma apply_default p : 0 <= p <= maxInt64 -> applyPriceMultipliers p defaultMultipliers = Some p.
Proof.
  intros Hp. apply applyPriceMultipliers_spec. split; [lia|]. split; [done|]. split; [lia|].
  apply roundHalfUp_unique; cbn [defaultMultipliers pm_Group pm_AccessKey]; unfold DefaultPriceMultiplier; lia.
Qed.

(** The receipt of a request-billed rule, before or after the multipliers. *)
Lemma requestReceipt_valid i price pm a :
  validateIdentity i = Ok tt -> 0 <= price -> multipliersValid pm = true -> applyPriceMultipliers price pm = Some a ->
  ValidateReceipt (mkReceipt 7 ReceiptMethodPerRequest 1 USD ModeStandard (Some pm) (Some price) (receiptRule i) None
    [mkLine "request"%string 1 None (Some price) directPriceMultiplier ReceiptLinePriced (Some price)] a) = Ok tt.
Proof.
  intros Hi Hp Hpm Ha. unfold multipliersValid in Hpm. apply andb_true_iff in Hpm as [Hg Hk].
  unfold ValidateReceipt, validateRequestReceipt.
  cbn -[applyPriceMultipliers validateReceiptRule multiplierValid directPriceMultiplier]. rewrite receiptRule_valid by (done || lia).
  rewrite Hg, Hk, (proj2 (Z.ltb_ge price 0)), Z.eqb_refl, Ha by done. rewrite !bool_decide_eq_true_2 by done. cbn.
  by rewrite Z.eqb_refl.
Qed.

(** The receipts the quoting branches produce. *)
Inductive receipt_of (i : Identity) : QuoteValue -> Receipt -> Prop :=
| ro_request price :
    0 <= price <= maxInt64 ->
    receipt_of i (mkQuote CostStatePriced CompletenessComplete price)
      (mkReceipt 7 ReceiptMethodPerRequest 1 USD ModeStandard (Some defaultMultipliers) (Some price) (receiptRule i) None
         [mkLine "request"%string 1 None (Some price) directPriceMultiplier ReceiptLinePriced (Some price)] price)
| ro_tokens m th t p partial :
    modeValid m = true -> negOpt th = false -> Forall component_ok (componentsOf t p) ->
    totalCost (componentsOf t p) <= maxInt64 ->
    receipt_of i (tokenQuote partial t (componentsOf t p)) (tokenReceipt i m th t (componentsOf t p)).

Lemma quoteTokens_receipt i rule r mode q rc :
  validateRule rule = Ok tt -> tokens_typed (res_Tokens r) -> quoteTokens i rule r mode = (q, Some rc) -> receipt_of i q rc.
Proof.
  intros Hv Hty H. destruct (CheckedTotal (res_Tokens r)) as [n|] eqn:En; [|by unfold quoteTokens in H; rewrite En in H].
  destruct (checkedInputTokens_total _ _ Hty En) as [_ Hnn].
  pose proof (quoteTokens_spec i rule r mode n Hv Hty En) as Hq. cbn zeta in Hq.
  pose proof (selectPrices_ok rule mode (inputSum (res_Tokens r)) Hv) as Hsel.
  destruct (selectPrices _ _ _) as [[m p] th]. destruct Hsel as (Hp & Hth & Hm). rewrite Hq in H. case_if_in H; [done|].
  injection H as <- <-. by constructor; [..|apply componentsOf_ok|].
Qed.

Lemma QuoteForModeWithReceipt_receipt rules table i r mode q rc :
  NewTable rules = Ok table -> Forall rule_typed rules -> tokens_typed (res_Tokens r) ->
  QuoteForModeWithReceipt (Some table) i r mode = (q, Some rc) -> validateIdentity i = Ok tt /\ receipt_of i q rc.
Proof.
  intros Ht Hty Htok H. unfold QuoteForModeWithReceipt in H. case_if_in H; [done|].
  destruct (Lookup (Some table) i) as [rule|] eqn:El; cbn [negb] in H.
  2: { case_if_in H; [done|]. by destruct (res_State r). }
  destruct (NewTable_ok _ _ Ht i rule El) as [Ei Hv]. destruct (validateRule_inv _ Hv) as (Hi & Hb & _). rewrite Ei in Hi.
  split; [done|]. case_bool_decide as Hu.
  - unfold quoteRequest in H. destruct (rule_RequestPrice rule) as [price|] eqn:Ep; [|done]. injection H as <- <-.
    constructor. unfold validateBilling in Hb. rewrite Hu, Ep in Hb. cbn in Hb.
    assert (rule_typed rule) as Hr by (rewrite Forall_forall in Hty; eapply Hty, NewTable_rule; eauto).
    unfold rule_typed in Hr. rewrite Ep in Hr. destruct (Z.ltb_spec price 0); [done|]. unfold is_i64 in Hr. lia.
  - case_if_in H; [done|]. destruct (res_State r); try done; by eapply quoteTokens_receipt.
Qed.

Lemma apply_zero pm : multipliersValid pm = true -> applyPriceMultipliers 0 pm = Some 0.
Proof. intros H. apply applyPriceMultipliers_spec. split; [done|]. split; [done|]. split; [done|]. apply roundHalfUp_unique; lia. Qed.

Lemma receipt_of_valid i q rc :
  validateIdentity i = Ok tt -> receipt_of i q rc ->
  ValidateReceipt rc = Ok tt /\ rc_TotalNanoUSD rc = q_EstimatedCostNanoUSD q.
Proof.
  intros Hi [price Hp|m th t p partial Hm Hth Hcs Hle].
  - split; [|done]. apply requestReceipt_valid; [done|lia|done|by apply apply_default].
  - split; [by apply tokenReceipt_valid|]. unfold tokenQuote, tokenReceipt. cbn [rc_TotalNanoUSD].
    case_if; [|done]. zb. by rewrite totalCost_uncharged.
Qed.

(** C9: Every receipt is its own proof.  Whatever the table, the usage, the mode and the
    multipliers, the receipt that a quote comes with passes [ValidateReceipt], which recomputes
    every line and every total without the table; its total is the quoted cost; and a quote
    without a price charges nothing. *)
Theorem receipts_validate rules table i r mode pm :
  NewTable rules = Ok table -> Forall rule_typed rules -> tokens_typed (res_Tokens r) ->
  forall q rc,
  QuoteForModeWithReceipt (Some table) i r mode = (q, Some rc) \/ QuoteForModeWithMultipliers (Some table) i r mode pm = (q, Some rc) ->
  ValidateReceipt rc = Ok tt /\ rc_TotalNanoUSD rc = q_EstimatedCostNanoUSD q
  /\ (q_State q <> CostStatePriced -> q_EstimatedCostNanoUSD q = 0).
Proof.
  intros Ht Hty Htok q rc Hq.
  assert (forall q0 rc0, receipt_of i q0 rc0 -> q_State q0 <> CostStatePriced -> q0 = unavailableQuote) as Hun.
  { intros q0 rc0 [|m th t p partial]; [done|]. unfold tokenQuote. by case_if. }
  destruct Hq as [Hq|Hq].
  { destruct (QuoteForModeWithReceipt_receipt _ _ _ _ _ _ _ Ht Hty Htok Hq) as [Hi Hro].
    destruct (receipt_of_valid _ _ _ Hi Hro) as [? ?]. repeat split; [done..|]. intros Hs. by rewrite (Hun _ _ Hro Hs). }
  unfold QuoteForModeWithMultipliers in Hq. destruct (multiplierValid (pm_Group pm)) eqn:Eg; [|done].
  destruct (multiplierValid (pm_AccessKey pm)) eqn:Ek; [|done]. cbn [negb orb] in Hq.
  assert (multipliersValid pm = true) as Hpm by (unfold multipliersValid; by rewrite Eg, Ek).
  destruct (QuoteForModeWithReceipt (Some table) i r mode) as [q0 [rc0|]] eqn:E0; [|done].
  destruct (QuoteForModeWithReceipt_receipt _ _ _ _ _ _ _ Ht Hty Htok E0) as [Hi Hro].
  case_bool_decide as Hs.
  - destruct (applyPriceMultipliers _ pm) as [a|] eqn:Ea; [|done]. injection Hq as <- <-. split; [|done].
    destruct Hro as [price Hp|m th t p partial Hm Hth Hcs Hle].
    + apply (requestReceipt_valid i price); [done|lia|done|done].
    + apply adjustedReceipt_valid; try done. unfold tokenQuote in Hs, Ea. by case_if_in Hs.
  - injection Hq as <- <-. pose proof (Hun _ _ Hro Hs) as Eq. split; [|split; [|by rewrite Eq]].
    + destruct Hro as [|m th t p partial Hm Hth Hcs Hle]; [done|]. unfold tokenQuote in Eq. case_if_in Eq; [|done]. zb.
      cbn [tokenReceipt rc_TotalNanoUSD]. rewrite totalCost_uncharged by done.
      apply adjustedReceipt_valid; [done..|]. rewrite totalCost_uncharged by done. by apply apply_zero.
    + by destruct (receipt_of_valid _ _ _ Hi Hro).
Qed.

(** * The usage and cost matrix *)

Lemma quoteTokens_state i rule r mode :
  validateRule rule = Ok tt -> tokens_typed (res_Tokens r) ->
  let q := (quoteTokens i rule r mode).1 in
  q = unavailableQuote \/ q_State q = CostStatePriced /\ 0 <= q_EstimatedCostNanoUSD q.
Proof.
  intros Hv Hty. cbn zeta. destruct (CheckedTotal (res_Tokens r)) as [n|] eqn:En.
  2: { left. unfold quoteTokens. by rewrite En. }
  destruct (checkedInputTokens_total _ _ Hty En) as [_ Hnn].
  pose proof (quoteTokens_spec i rule r mode n Hv Hty En) as Hq. cbn zeta in Hq.
  pose proof (selectPrices_ok rule mode (inputSum (res_Tokens r)) Hv) as Hsel.
  destruct (selectPrices _ _ _) as [[m p] th]. destruct Hsel as (Hp & _ & _). rewrite Hq. case_if; [by left|].
  cbn [fst]. unfold tokenQuote. case_if; [by left|]. right. split; [done|]. by apply totalCost_nonneg, componentsOf_ok.
Qed.

(** The quotes outside the documented matrix: a price, or an unavailable quote, for a usage
    state that admits only "unpriced" or "not applicable". *)
Definition outsideMatrix (table : Table) (i : Identity) (r : UsageResult) : bool :=
  let request := match Lookup (Some table) i with
                 | Some rule => if bool_decide (rule_BillingUnit rule = BillingUnitRequest) then Some (rule_RequestPrice rule) else None
                 | None => None
                 end in
  match res_State r with
  | StateMissing => match request with Some (Some _) => true | _ => false end
  | StateNotApplicable => isSome request || HasPositive (res_MeasuredUnits r)
  | _ => false
  end.

(** The quotes that the persisted usage and cost matrix admits.  For every known usage
    state the quote satisfies [usagecost.Validate], except exactly for a request-billed price
    of a request without usage, and for a request-billed rule or measured units of a request
    to which usage does not apply: those are refused as an invalid combination. *)
Theorem usage_cost_matrix rules table i r mode :
  NewTable rules = Ok table -> Forall rule_typed rules -> tokens_typed (res_Tokens r) -> knownState (res_State r) = true ->
  let q := QuoteForMode (Some table) i r mode in
  Validate (res_State r) (q_State q) (q_EstimatedCostNanoUSD q)
  = if outsideMatrix table i r then Err InvalidCombination else Ok tt.
Proof.
  intros Ht Hty Htok Hk. unfold QuoteForMode, QuoteForModeWithReceipt, outsideMatrix. rewrite Hk. cbn [negb].
  assert (forall q, (res_State r = StateComplete \/ res_State r = StatePartial) ->
    (q = unavailableQuote \/ q_State q = CostStatePriced /\ 0 <= q_EstimatedCostNanoUSD q) ->
    Validate (res_State r) (q_State q) (q_EstimatedCostNanoUSD q) = Ok tt) as Hok.
  { intros q Hs [-> |[Es Hn]]; [by destruct Hs as [-> | ->]|]. rewrite Es. unfold Validate. rewrite (proj2 (Z.ltb_ge _ 0)) by done.
    by destruct Hs as [-> | ->]. }
  destruct (Lookup (Some table) i) as [rule|] eqn:El.
  2: { cbn [isSome orb]. destruct (HasPositive _); destruct (res_State r) eqn:Es; try done. }
  destruct (NewTable_ok _ _ Ht i rule El) as [_ Hv]. case_bool_decide as Hu.
  - unfold quoteRequest. destruct (rule_RequestPrice rule) as [price|] eqn:Ep.
    2: { destruct (res_State r) eqn:Es; done. }
    destruct (validateRule_inv _ Hv) as (_ & Hb & _). unfold validateBilling in Hb. rewrite Hu, Ep in Hb. cbn in Hb.
    destruct (Z.ltb_spec price 0) as [|Hpos]; [done|]. cbn [fst q_State q_EstimatedCostNanoUSD isSome orb].
    unfold Validate. rewrite (proj2 (Z.ltb_ge _ 0)) by done. by destruct (res_State r) eqn:Es.
  - cbn [isSome orb]. pose proof (quoteTokens_state i rule r mode Hv Htok) as Hq. cbn zeta in Hq.
    destruct (HasPositive _); destruct (res_State r) eqn:Es; try done; apply Hok; auto.
Qed.

(** * A concrete table *)

Definition exPrices (input output : Z) : Prices :=
  mkPrices (mkPrice input true) (mkPrice output true) (mkPrice 0 false) (mkPrice 3750000000 true).

Definition exIdentity : Identity := mkIdentity "openai" "gpt-x".
Definition exFlat : Identity := mkIdentity "images" "flat".

Definition exRule : Rule :=
  mkRule exIdentity BillingUnitToken None (exPrices 3000000000 15000000000)
    [mkTier 1000 (exPrices 6000000000 22500000000); mkTier 5000 (exPrices 9000000000 30000000000)]
    {[ModeFast := mkSchedule (exPrices 5000000000 20000000000) []]} false.

Definition exFlatRule : Rule := mkRule exFlat BillingUnitRequest (Some 40000000) (mkPrices (mkPrice 0 false) (mkPrice 0 false) (mkPrice 0 false) (mkPrice 0 false)) [] ∅ false.

Definition exRules : list Rule := [exRule; exFlatRule].
Definition exTable : Table := match NewTable exRules with Ok t => t | Err _ => mkTable ∅ end.

Definition exUsage (state : UsageState) (input output write1h : Z) : UsageResult :=
  mkResult noUnits (mkTokens input 0 0 write1h 0 output) state noDiagnostics.

Definition exDouble : PriceMultipliers := mkMultipliers 2000000 1000000.

Lemma exRules_typed : Forall rule_typed exRules.
Proof. repeat constructor; unfold rule_typed, is_i64; cbn; unfold minInt64, maxInt64; lia. Qed.

Lemma exUsage_typed state a b c :
  is_i64 a -> is_i64 b -> is_i64 c -> tokens_typed (res_Tokens (exUsage state a b c)).
Proof. intros. unfold tokens_typed, tokenFields. cbn. repeat constructor; unfold_ints; lia. Qed.

Lemma schedule_selection_witness :
  (selectPrices exRule ModeFast 4999).2 = Some 1000 /\ (selectPrices exRule ModeFast 999).1.1 = ModeFast
  /\ tier_selected (rule_Prices exRule) (rule_ContextTiers exRule) 4999 (exPrices 6000000000 22500000000) (Some 1000).
Proof.
  split; [vm_compute; reflexivity|]. split; [vm_compute; reflexivity|].
  assert (validateRule exRule = Ok tt) as Hv by (vm_compute; reflexivity).
  pose proof (schedule_selection exRule ModeFast 4999 Hv) as H.
  assert (selectPrices exRule ModeFast 4999 = (ModeStandard, exPrices 6000000000 22500000000, Some 1000)) as E by (vm_compute; reflexivity).
  rewrite E in H. cbn in H. destruct H as (_ & _ & H). exact H.
Defined.

(** 100 input tokens at 3, 10 output tokens at 15 and 5 one-hour cache writes at 1.6 times
    3.75 dollars per million: 0.00048 dollars. *)
Lemma quote_exact_witness :
  exists p, priceList exRule ModeStandard 105 p
    /\ QuoteForMode (Some exTable) exIdentity (exUsage StateComplete 100 10 5) ModeStandard
       = mkQuote CostStatePriced CompletenessComplete (tokenCharge 100 (Input p) 1 1 + tokenCharge 0 (CacheReadPrice p) 1 1 + tokenCharge 0 (CacheWritePrice p) 1 1
           + tokenCharge 5 (CacheWritePrice p) 8 5 + tokenCharge 10 (OutputPrice p) 1 1)
    /\ QuoteForMode (Some exTable) exIdentity (exUsage StateComplete 100 10 5) ModeStandard = mkQuote CostStatePriced CompletenessComplete 480000.
Proof.
  destruct (quote_exact exRules exTable exIdentity exRule (exUsage StateComplete 100 10 5) ModeStandard 115) as (p & Hp & Hq).
  - vm_compute; reflexivity.
  - vm_compute; reflexivity.
  - discriminate.
  - left; reflexivity.
  - reflexivity.
  - apply exUsage_typed; unfold_ints; lia.
  - vm_compute; reflexivity.
  - exists p. split; [exact Hp|]. assert (QuoteForMode (Some exTable) exIdentity (exUsage StateComplete 100 10 5) ModeStandard
      = mkQuote CostStatePriced CompletenessComplete 480000) as E by (vm_compute; reflexivity).
    split; [|exact E]. rewrite E in Hq |- *. cbn zeta in Hq. destruct (_ || _); [discriminate Hq|]. injection Hq as _ Hq. rewrite Hq at 1. reflexivity.
Defined.

Lemma receipts_validate_witness :
  match QuoteForModeWithMultipliers (Some exTable) exIdentity (exUsage StateComplete 100 10 5) ModeStandard exDouble with
  | (q, Some rc) => ValidateReceipt rc = Ok tt /\ rc_TotalNanoUSD rc = 960000 /\ q_EstimatedCostNanoUSD q = 960000
  | (_, None) => False
  end.
Proof.
  pose proof (receipts_validate exRules exTable exIdentity (exUsage StateComplete 100 10 5) ModeStandard exDouble) as H.
  destruct (QuoteForModeWithMultipliers _ _ _ _ _) as [q [rc|]] eqn:E; [|vm_compute in E; discriminate E].
  destruct (H ltac:(vm_compute; reflexivity) exRules_typed ltac:(apply exUsage_typed; unfold_ints; lia) q rc (or_intror eq_refl)) as [Hv _].
  split; [exact Hv|]. clear H Hv. vm_compute in E. injection E as <- <-. split; reflexivity.
Defined.

(** A flat-priced request without usage is priced; the matrix refuses it. *)
Lemma usage_cost_matrix_witness :
  q_State (QuoteForMode (Some exTable) exFlat (exUsage StateMissing 0 0 0) ModeStandard) = CostStatePriced
  /\ Validate StateMissing (q_State (QuoteForMode (Some exTable) exFlat (exUsage StateMissing 0 0 0) ModeStandard)) 40000000
     = Err InvalidCombination.
Proof.
  pose proof (usage_cost_matrix exRules exTable exFlat (exUsage StateMissing 0 0 0) ModeStandard
    ltac:(vm_compute; reflexivity) exRules_typed ltac:(apply exUsage_typed; unfold_ints; lia) ltac:(reflexivity)) as H.
  split; [vm_compute; reflexivity|]. exact H.
Defined.
