(* ===== verification/Observation.v ===== *)
(** The billing observation of a finished attempt: the gateway binds usage and price
    ([internal/gateway/request_log.go], [usage_capture.go]) and the request log checks the
    combination before it stores it ([internal/requestlog/usage_cost.go], [mapper.go]).

    The observation carries the receipt itself; the gateway stores its JSON encoding. *)
From S2P Require Import Prelude GoStrings Usage Money PriceTable Quote QuoteProps.

Local Open Scope Z_scope.
Local Open Scope go_scope.

Inductive RequestStatus := RequestStatusSuccess | RequestStatusError | RequestStatusIncomplete | RequestStatusCanceled.

#[export] Instance RequestStatus_eq_dec : EqDecision RequestStatus.
Proof. solve_decision. Defined.

#[export] Instance Completeness_eq_dec : EqDecision Completeness.
Proof. solve_decision. Defined.

#[export] Instance Tokens_eq_dec : EqDecision Tokens.
Proof. solve_decision. Defined.

(** * The gateway *)

Record frozenAttemptPricing := mkFrozen {
  fz_channelID : string;
  fz_groupID : Z;
  fz_upstreamModel : string;
  fz_table : option Table;
  fz_applicable : bool;
  fz_metadataSet : bool;
  fz_pricingMode : string;
  fz_priceMultipliers : PriceMultipliers;
  fz_usageDiagnostics : Diagnostics
}.

(** What [bindUsage] reads of the recorded attempt. *)
Record BoundAttempt := mkAttempt {
  at_Local : bool;
  at_GroupID : Z;
  at_ChannelID : string;
  at_CredentialID : Z;
  at_Sequence : Z
}.

Record PricingObservation := mkPricingObservation {
  po_BillingUnit : string;
  po_UpstreamModel : string;
  po_CostState : CostState;
  po_PricingCompleteness : Completeness;
  po_EstimatedCostNanoUSD : Z;
  po_Receipt : option Receipt
}.

Record UsageObservation := mkUsageObservation {
  uo_Result : UsageResult;
  uo_GroupID : Z;
  uo_ChannelID : string;
  uo_CredentialID : Z;
  uo_AttemptSequence : Z;
  uo_Pricing : PricingObservation
}.

Definition emptyResult (s : UsageState) : UsageResult := mkResult noUnits zeroTokens s noDiagnostics.

Definition notApplicableUsageObservation : UsageObservation :=
  mkUsageObservation (emptyResult StateNotApplicable) 0 EmptyString 0 0
    (mkPricingObservation EmptyString EmptyString CostStateNotApplicable CompletenessNotApplicable 0 None).

Definition validCapturedUsage (r : UsageResult) : bool :=
  let t := res_Tokens r in
  if existsb (fun x => x <? 0) (tokenFields t) then false
  else if isNil (CheckedTotal t) then false
  else match res_State r with
  | StateComplete | StatePartial => true
  | StateMissing => bool_decide (t = zeroTokens)
  | _ => false
  end.

Definition effectivePricingMode (mode : string) : string := if modeValid mode then mode else ModeStandard.

Definition quoteFrozenAttempt (f : frozenAttemptPricing) (r : UsageResult) (mode : string) (successful : bool)
  : PricingObservation :=
  let identity := mkIdentity (fz_channelID f) (fz_upstreamModel f) in
  let requestBilling := match Lookup (fz_table f) identity with
                        | Some rule => bool_decide (rule_BillingUnit rule = BillingUnitRequest)
                        | None => false
                        end in
  let unit := if requestBilling then BillingUnitRequest else EmptyString in
  let observe := mkPricingObservation unit (fz_upstreamModel f) in
  if requestBilling && negb successful then observe CostStateNotApplicable CompletenessNotApplicable 0 None
  else if negb requestBilling && (bool_decide (res_State r = StateNotApplicable) || negb (fz_applicable f))
  then observe CostStateNotApplicable CompletenessNotApplicable 0 None
  else if isNil (fz_table f) || bool_decide (fz_upstreamModel f = EmptyString)
  then observe CostStateUnpriced CompletenessUnavailable 0 None
  else
    let '(q, rc) := QuoteForModeWithMultipliers (fz_table f) identity r mode (fz_priceMultipliers f) in
    observe (q_State q) (q_Completeness q) (q_EstimatedCostNanoUSD q) rc.

(** The result after the applicability and plausibility checks of [bindUsage]. *)
Definition boundResult (r : UsageResult) (applicable usageApplicable : bool) (requestDiagnostics : Diagnostics) : UsageResult :=
  if negb applicable || negb usageApplicable then emptyResult StateNotApplicable
  else if negb (validCapturedUsage r) then emptyResult StateMissing
  else mkResult (res_MeasuredUnits r) (res_Tokens r) (res_State r) (diagMerge (res_Diagnostics r) requestDiagnostics).

(** What [bindUsage] reads of the recorder: the request-wide values an attempt without metadata
    of its own falls back to, and the observation so far. *)
Record RecorderView := mkRecorder {
  rec_usageApplicable : bool;
  rec_usageDiagnostics : Diagnostics;
  rec_requestedPricingMode : string;
  rec_usage : UsageObservation
}.

(** The recorder's usage observation after [bindUsage]. *)
Definition bindUsage (rec : RecorderView) (a : BoundAttempt) (f : frozenAttemptPricing) (status : RequestStatus)
    (r : UsageResult) (applicable : bool) : UsageObservation :=
  if at_Local a then notApplicableUsageObservation
  else if (at_GroupID a =? 0) || bool_decide (at_ChannelID a = EmptyString) || (at_CredentialID a =? 0) || (at_Sequence a <? 1)
  then rec_usage rec
  else
    let usageApplicable := if fz_metadataSet f then fz_applicable f else rec_usageApplicable rec in
    let requestDiagnostics := if fz_metadataSet f then fz_usageDiagnostics f else rec_usageDiagnostics rec in
    let pricingMode := if fz_metadataSet f then fz_pricingMode f else rec_requestedPricingMode rec in
    let result := boundResult r applicable usageApplicable requestDiagnostics in
    mkUsageObservation result (at_GroupID a) (at_ChannelID a) (at_CredentialID a) (at_Sequence a)
      (quoteFrozenAttempt f result (effectivePricingMode pricingMode) (bool_decide (status = RequestStatusSuccess))).

(** * The request log *)

Inductive StateError :=
| BadEstimatedCost | BadNotApplicable | BadMissing | BadUnpriced | BadPricedCompleteness | BadCostState | BadUsageState
| BadUnitOrCost | BadFixedCharge | NegativeTokens | TokensOverflow | PricedWithoutModel.

Definition validateFrozenPricingState (u : UsageState) (c : CostState) (k : Completeness) (cost : Z) : result StateError unit :=
  if cost <? 0 then Err BadEstimatedCost
  else match u with
  | StateNotApplicable =>
      if negb (bool_decide (c = CostStateNotApplicable)) || negb (bool_decide (k = CompletenessNotApplicable)) || negb (cost =? 0)
      then Err BadNotApplicable else Ok tt
  | StateMissing =>
      if negb (bool_decide (c = CostStateUnpriced)) || negb (bool_decide (k = CompletenessUnavailable)) || negb (cost =? 0)
      then Err BadMissing else Ok tt
  | StateComplete | StatePartial =>
      match c with
      | CostStateUnpriced =>
          if negb (bool_decide (k = CompletenessUnavailable)) || negb (cost =? 0) then Err BadUnpriced else Ok tt
      | CostStatePriced =>
          if negb (bool_decide (k = CompletenessComplete)) && negb (bool_decide (k = CompletenessPartial))
          then Err BadPricedCompleteness else Ok tt
      | _ => Err BadCostState
      end
  | StateOther _ => Err BadUsageState
  end.

Definition ValidateBillingUsageCostState (unit_ : string) (status : RequestStatus) (u : UsageState) (c : CostState)
    (k : Completeness) (cost : Z) : result StateError unit :=
  if bool_decide (unit_ = EmptyString) || bool_decide (unit_ = BillingUnitToken) then validateFrozenPricingState u c k cost
  else if negb (bool_decide (unit_ = BillingUnitRequest)) || (cost <? 0) then Err BadUnitOrCost
  else match u with
  | StateOther _ => Err BadUsageState
  | _ =>
      match c with
      | CostStatePriced =>
          if negb (bool_decide (status = RequestStatusSuccess)) || negb (bool_decide (k = CompletenessComplete))
          then Err BadFixedCharge else Ok tt
      | CostStateUnpriced =>
          if negb (bool_decide (k = CompletenessUnavailable)) || negb (cost =? 0) then Err BadUnpriced else Ok tt
      | CostStateNotApplicable =>
          if negb (bool_decide (k = CompletenessNotApplicable)) || negb (cost =? 0) then Err BadNotApplicable else Ok tt
      | CostStateOther _ => Err BadCostState
      end
  end.

(** The usage and price checks of [validateFrozenObservation], in its order. *)
Definition validateUsageObservation (o : UsageObservation) (status : RequestStatus) : result StateError unit :=
  let t := res_Tokens (uo_Result o) in
  let p := uo_Pricing o in
  if existsb (fun x => x <? 0) (tokenFields t) then Err NegativeTokens
  else if isNil (CheckedTotal t) then Err TokensOverflow
  else
    try! _ := ValidateBillingUsageCostState (po_BillingUnit p) status (res_State (uo_Result o)) (po_CostState p)
                (po_PricingCompleteness p) (po_EstimatedCostNanoUSD p) in
    if bool_decide (po_CostState p = CostStatePriced) && bool_decide (po_UpstreamModel p = EmptyString) then Err PricedWithoutModel
    else Ok tt.

(** * Lemmas *)

(** The quote with multipliers, by billing unit and usage state. *)
Definition priced_quote (q : QuoteValue) (complete : bool) : Prop :=
  q_State q = CostStatePriced /\ 0 <= q_EstimatedCostNanoUSD q
  /\ (q_Completeness q = CompletenessComplete \/ complete = false /\ q_Completeness q = CompletenessPartial).

Lemma applyPriceMultipliers_nonneg a pm q : applyPriceMultipliers a pm = Some q -> 0 <= q.
Proof.
  intros (Ha & Hv & _ & ->)%applyPriceMultipliers_spec. unfold multipliersValid, multiplierValid in Hv. zb.
  apply roundHalfUp_spec; [|lia]. apply Z.mul_nonneg_nonneg; [apply Z.mul_nonneg_nonneg|]; lia.
Qed.

Lemma multipliers_quote table i r mode pm complete :
  let q0 := (QuoteForModeWithReceipt table i r mode).1 in
  q0 = unavailableQuote \/ priced_quote q0 complete ->
  let q := (QuoteForModeWithMultipliers table i r mode pm).1 in q = unavailableQuote \/ priced_quote q complete.
Proof.
  cbn zeta. unfold QuoteForModeWithMultipliers. intros Hq. case_if; [by left|].
  destruct (QuoteForModeWithReceipt table i r mode) as [q0 [rc|]]; cbn [fst] in *; [|done].
  destruct Hq as [-> |(Hs & Hc & Hk)]; [by left|]. rewrite bool_decide_eq_true_2 by done.
  destruct (applyPriceMultipliers _ pm) as [a|] eqn:Ea; [|by left]. right. split; [done|].
  split; [by eapply applyPriceMultipliers_nonneg|done].
Qed.

Lemma quoteTokens_quote i rule r mode :
  validateRule rule = Ok tt -> tokens_typed (res_Tokens r) ->
  let q := (quoteTokens i rule r mode).1 in q = unavailableQuote \/ priced_quote q false.
Proof.
  intros Hv Hty. destruct (quoteTokens_state i rule r mode Hv Hty) as [H|[Hs Hn]]; [by left|]. right.
  split; [done|]. split; [done|]. unfold quoteTokens in *. destruct (isNil _); [done|]. destruct (checkedInputTokens _); [|done].
  destruct (selectPrices _ _ _) as [[? ?] ?]. destruct (chargeAll _ _); [|done]. case_if; [done|]. cbn.
  destruct (ta_partial _); auto.
Qed.

Lemma validCapturedUsage_ok r :
  validCapturedUsage r = true ->
  existsb (fun x => x <? 0) (tokenFields (res_Tokens r)) = false /\ isNil (CheckedTotal (res_Tokens r)) = false
  /\ (res_State r = StateComplete \/ res_State r = StatePartial \/ res_State r = StateMissing).
Proof.
  unfold validCapturedUsage. destruct (existsb _ _); [done|]. destruct (isNil _); [done|].
  destruct (res_State r); try done; auto.
Qed.

(** What [bindUsage] puts into the observation. *)
Lemma boundResult_ok r applicable ua d :
  let r' := boundResult r applicable ua d in
  existsb (fun x => x <? 0) (tokenFields (res_Tokens r')) = false /\ isNil (CheckedTotal (res_Tokens r')) = false
  /\ (ua = false -> res_State r' = StateNotApplicable)
  /\ (res_State r' = StateComplete \/ res_State r' = StatePartial \/ res_State r' = StateMissing \/ res_State r' = StateNotApplicable)
  /\ (tokens_typed (res_Tokens r) -> tokens_typed (res_Tokens r')).
Proof.
  assert (tokens_typed zeroTokens) as Hz by (repeat constructor; vm_compute; discriminate).
  unfold boundResult. destruct applicable, ua; cbn [negb orb]; try (by repeat split; auto).
  destruct (validCapturedUsage r) eqn:E; cbn [negb]; [|by repeat split; auto].
  destruct (validCapturedUsage_ok r E) as (H1 & H2 & H3). cbn [res_Tokens res_State]. split_and!; [done|done|done|naive_solver|done].
Qed.

(** The quote inside a token-billed observation. *)
Lemma token_quote table i r mode pm :
  (forall t, table = Some t -> table_ok t) -> tokens_typed (res_Tokens r) ->
  (forall rule, Lookup table i = Some rule -> rule_BillingUnit rule <> BillingUnitRequest) ->
  res_State r = StateComplete \/ res_State r = StatePartial \/ res_State r = StateMissing ->
  let q := (QuoteForModeWithMultipliers table i r mode pm).1 in
  q = unavailableQuote \/ res_State r <> StateMissing /\ priced_quote q false.
Proof.
  intros Htab Hty Hb Hs. cbn zeta.
  assert (let q0 := (QuoteForModeWithReceipt table i r mode).1 in
          q0 = unavailableQuote \/ res_State r <> StateMissing /\ priced_quote q0 false) as H0.
  { cbn zeta. unfold QuoteForModeWithReceipt. case_if; [by left|]. destruct (Lookup table i) as [rule|] eqn:El.
    - rewrite bool_decide_eq_false_2 by by apply Hb. case_if; [by left|].
      destruct table as [t|]; [|done]. destruct (Htab t eq_refl i rule El) as [_ Hv].
      pose proof (quoteTokens_quote i rule r mode Hv Hty). destruct Hs as [Es|[Es|Es]]; rewrite Es; naive_solver.
    - case_if; [by left|]. destruct Hs as [-> |[-> | ->]]; by left. }
  destruct (decide (res_State r = StateMissing)) as [Em|Em].
  - destruct H0 as [H0|[? _]]; [|done].
    destruct (multipliers_quote table i r mode pm true) as [?|Hp]; [by left|by left|]. exfalso.
    unfold QuoteForModeWithMultipliers in Hp. case_if_in Hp; [by destruct Hp|].
    destruct (QuoteForModeWithReceipt table i r mode) as [q0 [rc|]]; cbn [fst] in *; subst q0; [|by destruct Hp].
    rewrite bool_decide_eq_false_2 in Hp by done. by destruct Hp.
  - destruct (multipliers_quote table i r mode pm false) as [?|Hp]; [naive_solver|by left|by right].
Qed.

(** The quote inside a request-billed observation. *)
Lemma request_quote table i r mode pm rule :
  table_ok table -> Lookup (Some table) i = Some rule -> rule_BillingUnit rule = BillingUnitRequest ->
  let q := (QuoteForModeWithMultipliers (Some table) i r mode pm).1 in q = unavailableQuote \/ priced_quote q true.
Proof.
  intros Htab El Hb. cbn zeta. apply multipliers_quote. unfold QuoteForModeWithReceipt. case_if; [by left|].
  rewrite El, bool_decide_eq_true_2 by done. unfold quoteRequest. destruct (rule_RequestPrice rule) as [p|] eqn:Ep; [|by left].
  right. split; [done|]. split; [|by left]. cbn. destruct (Htab i rule El) as [_ (_ & Hv & _)%validateRule_inv].
  unfold validateBilling in Hv. rewrite Hb, Ep in Hv. cbn in Hv. destruct (Z.ltb_spec p 0); done.
Qed.

(** What [quoteFrozenAttempt] observes under a rule that is not billed per request. *)
Definition tokenObservation (f : frozenAttemptPricing) (r : UsageResult) (mode : string) : PricingObservation :=
  let observe := mkPricingObservation EmptyString (fz_upstreamModel f) in
  if bool_decide (res_State r = StateNotApplicable) || negb (fz_applicable f)
  then observe CostStateNotApplicable CompletenessNotApplicable 0 None
  else if isNil (fz_table f) || bool_decide (fz_upstreamModel f = EmptyString)
  then observe CostStateUnpriced CompletenessUnavailable 0 None
  else
    let '(q, rc) := QuoteForModeWithMultipliers (fz_table f) (mkIdentity (fz_channelID f) (fz_upstreamModel f)) r mode (fz_priceMultipliers f) in
    observe (q_State q) (q_Completeness q) (q_EstimatedCostNanoUSD q) rc.

(** The usage state, the observation and the status go together. *)
Definition accepted (u : UsageState) (status : RequestStatus) (p : PricingObservation) : Prop :=
  ValidateBillingUsageCostState (po_BillingUnit p) status u (po_CostState p) (po_PricingCompleteness p)
    (po_EstimatedCostNanoUSD p) = Ok tt
  /\ (po_CostState p = CostStatePriced -> po_UpstreamModel p <> EmptyString).

Definition known_result (r : UsageResult) : Prop :=
  res_State r = StateComplete \/ res_State r = StatePartial \/ res_State r = StateMissing \/ res_State r = StateNotApplicable.

Lemma tokenObservation_valid f r mode status :
  (forall t, fz_table f = Some t -> table_ok t) -> tokens_typed (res_Tokens r) ->
  (fz_applicable f = false -> res_State r = StateNotApplicable) -> known_result r ->
  (forall rule, Lookup (fz_table f) (mkIdentity (fz_channelID f) (fz_upstreamModel f)) = Some rule -> rule_BillingUnit rule <> BillingUnitRequest) ->
  accepted (res_State r) status (tokenObservation f r mode).
Proof.
  intros Htab Hty Happ Hs Hb. unfold tokenObservation, accepted. case_bool_decide as Hna; cbn [orb].
  { split; [|done]. by rewrite Hna. }
  destruct (fz_applicable f); cbn [negb]; [|by destruct Hna; apply Happ].
  assert (res_State r = StateComplete \/ res_State r = StatePartial \/ res_State r = StateMissing) as Hs3.
  { destruct Hs as [?|[?|[?|?]]]; auto. done. }
  destruct (isNil (fz_table f)); cbn [orb]; [split; [|done]; by destruct Hs3 as [-> |[-> | ->]]|].
  case_bool_decide as Hm; [split; [|done]; by destruct Hs3 as [-> |[-> | ->]]|].
  pose proof (token_quote _ _ r mode (fz_priceMultipliers f) Htab Hty Hb Hs3) as Hq. cbn zeta in Hq.
  destruct (QuoteForModeWithMultipliers _ _ _ _ _) as [q rc]. cbn [fst] in Hq.
  cbn [po_BillingUnit po_CostState po_PricingCompleteness po_EstimatedCostNanoUSD po_UpstreamModel]. split; [|done].
  unfold ValidateBillingUsageCostState. rewrite bool_decide_eq_true_2 by done. cbn [orb].
  destruct Hq as [-> |(Hnm & Hst & Hn & Hk)]; [by destruct Hs3 as [-> |[-> | ->]]|].
  unfold validateFrozenPricingState. rewrite (proj2 (Z.ltb_ge _ 0)), Hst by done.
  destruct Hs3 as [-> |[-> | ?]]; [destruct Hk as [-> |[_ ->]]; done..|done].
Qed.

(** The price observation fits the usage state and the request status. *)
Lemma quoteFrozenAttempt_valid f r mode status :
  (forall t, fz_table f = Some t -> table_ok t) -> tokens_typed (res_Tokens r) ->
  (fz_applicable f = false -> res_State r = StateNotApplicable) -> known_result r ->
  accepted (res_State r) status (quoteFrozenAttempt f r mode (bool_decide (status = RequestStatusSuccess))).
Proof.
  intros Htab Hty Happ Hs.
  pose proof (tokenObservation_valid f r mode status Htab Hty Happ Hs) as Htok. unfold tokenObservation in Htok.
  unfold quoteFrozenAttempt. set (i := mkIdentity _ _) in *.
  destruct (Lookup (fz_table f) i) as [rule|] eqn:El; [|by apply Htok].
  destruct (decide (rule_BillingUnit rule = BillingUnitRequest)) as [Hu|Hu].
  2: { rewrite bool_decide_eq_false_2 by done. apply Htok. by intros ? [= <-]. }
  clear Htok. rewrite bool_decide_eq_true_2 by done. cbn [andb]. unfold accepted. case_bool_decide as Hst; cbn [negb]; [|split; [|done]; by destruct Hs as [-> |[-> |[-> | ->]]]].
  destruct (fz_table f) as [t|] eqn:Et; [|done]. cbn [negb andb isNil orb].
  case_bool_decide as Hm; [split; [|done]; by destruct Hs as [-> |[-> |[-> | ->]]]|].
  pose proof (request_quote t i r mode (fz_priceMultipliers f) rule (Htab t eq_refl) El Hu) as Hq. cbn zeta in Hq.
  destruct (QuoteForModeWithMultipliers _ _ _ _ _) as [q rc]. cbn [fst] in Hq.
  cbn [po_BillingUnit po_CostState po_PricingCompleteness po_EstimatedCostNanoUSD po_UpstreamModel]. split; [|done].
  destruct Hq as [-> |(-> & Hn & [-> |[? _]])]; [by destruct Hs as [-> |[-> |[-> | ->]]]| |done].
  unfold ValidateBillingUsageCostState. cbn. rewrite (proj2 (Z.ltb_ge _ 0)), (bool_decide_eq_true_2 (status = _)) by done.
  by destruct Hs as [-> |[-> |[-> | ->]]].
Qed.

(** Every bound observation can be stored.  Whatever usage the upstream reported, whatever
    price table and multipliers were frozen for the attempt and however the request ended, the
    observation that [bindUsage] records passes the checks the request log applies before it
    stores it: the token counts are non-negative and their total fits, the billing unit, status,
    usage state, cost state, completeness and cost form an admitted combination, and a price
    names its model. *)
Theorem bound_observation_storable rules table rec a f status r applicable :
  NewTable rules = Ok table -> (fz_table f = None \/ fz_table f = Some table) -> fz_metadataSet f = true ->
  rec_usage rec = notApplicableUsageObservation -> tokens_typed (res_Tokens r) ->
  validateUsageObservation (bindUsage rec a f status r applicable) status = Ok tt.
Proof.
  intros Ht Hf Hmeta Hrec Hty. unfold bindUsage. rewrite Hmeta, Hrec. case_if; [reflexivity|]. case_if; [reflexivity|].
  destruct (boundResult_ok r applicable (fz_applicable f) (fz_usageDiagnostics f)) as (Hneg & Htot & Happ & Hs & Htyp).
  cbn zeta in *. set (r' := boundResult r applicable (fz_applicable f) (fz_usageDiagnostics f)) in *.
  destruct (quoteFrozenAttempt_valid f r' (effectivePricingMode (fz_pricingMode f)) status) as [Hv Hm]; [|auto..|].
  { intros t Et. destruct Hf as [Hf|Hf]; [congruence|]. rewrite Hf in Et. injection Et as <-. by eapply NewTable_ok. }
  unfold validateUsageObservation. cbn [uo_Result uo_Pricing]. rewrite Hneg, Htot, Hv.
  generalize dependent (quoteFrozenAttempt f r' (effectivePricingMode (fz_pricingMode f)) (bool_decide (status = RequestStatusSuccess))).
  intros p _ Hm.
  destruct (decide (po_CostState p = CostStatePriced)) as [Hp|Hp]; [|by rewrite (bool_decide_eq_false_2 _ Hp)].
  by rewrite (bool_decide_eq_false_2 _ (Hm Hp)), andb_false_r.
Qed.

(** A flat-priced image request that reported no usage is stored with its price. *)
Lemma bound_observation_storable_witness :
  let f := mkFrozen "images" 3 "flat" (Some exTable) true true EmptyString exDouble noDiagnostics in
  let o := bindUsage (mkRecorder true noDiagnostics EmptyString notApplicableUsageObservation) (mkAttempt false 3 "images" 8 1) f RequestStatusSuccess (exUsage StateMissing 0 0 0) true in
  po_EstimatedCostNanoUSD (uo_Pricing o) = 80000000 /\ validateUsageObservation o RequestStatusSuccess = Ok tt.
Proof.
  split; [vm_compute; reflexivity|]. apply (bound_observation_storable exRules exTable).
  - vm_compute; reflexivity.
  - right; reflexivity.
  - reflexivity.
  - reflexivity.
  - apply exUsage_typed; unfold_ints; lia.
Defined.
