(* ===== verification/AccessQuota.v ===== *)
(** Estimated-cost limits of access keys ([internal/accessquota/runtime.go]): rules with a
    total or a periodic window, admission tickets, completion, durable snapshots and restore.

    An entry's rule list and its index share the same rule objects, and rule IDs are unique,
    so the index is a search of the list.  The entry and runtime locks make each operation
    atomic; the dirty notification after it has no effect on this state. *)
From S2P Require Import Prelude.

Local Open Scope Z_scope.
Local Open Scope go_scope.

Definition MinPeriodSeconds : Z := 60.
Definition MaxPeriodSeconds : Z := 365 * 24 * 60 * 60.
Definition MaxPeriodicRules : Z := 10.

Inductive Kind := KindTotal | KindPeriodic | KindOther (s : string).

#[export] Instance Kind_eq_dec : EqDecision Kind.
Proof. solve_decision. Defined.

Record QuotaRule := mkQuotaRule {
  qr_ID : Z;
  qr_Revision : Z;
  qr_Kind : Kind;
  qr_LimitNanoUSD : Z;
  qr_PeriodSeconds : Z
}.

Record RestoredState := mkRestored {
  rs_AccessKeyID : Z;
  rs_RuleID : Z;
  rs_RuleRevision : Z;
  rs_UsedNanoUSD : Z;
  rs_WindowStartedAtMS : option Z;
  rs_WindowEndsAtMS : option Z;
  rs_WindowGeneration : Z;
  rs_SnapshotVersion : Z
}.

Record TicketRule := mkTicketRule { tr_RuleID : Z; tr_RuleRevision : Z; tr_WindowGeneration : Z }.

Record Ticket := mkTicket { tk_AccessKeyID : Z; tk_Rules : list TicketRule }.

Inductive RuleStatus := RuleStatusAvailable | RuleStatusInactive | RuleStatusExhausted.

#[export] Instance RuleStatus_eq_dec : EqDecision RuleStatus.
Proof. solve_decision. Defined.

Record RuleView := mkRuleView {
  rv_Rule : QuotaRule;
  rv_UsedNanoUSD : Z;
  rv_RemainingNanoUSD : Z;
  rv_Status : RuleStatus;
  rv_WindowStartedAtMS : option Z;
  rv_WindowEndsAtMS : option Z;
  rv_WindowGeneration : Z
}.

Record Decision_ := mkDecision {
  d_Allowed : bool;
  d_Recoverable : bool;
  d_NextAvailableAtMS : option Z;
  d_BlockingRules : list RuleView
}.

Record QuotaView := mkQuotaView {
  v_ObservedAtMS : Z;
  v_Allowed : bool;
  v_Recoverable : bool;
  v_NextAvailableAtMS : option Z;
  v_Rules : list RuleView
}.

Inductive CompletionFault := CompletionFaultNegativeEstimate | CompletionFaultOverflow.

Record runtimeRule := mkRuntimeRule {
  definition : QuotaRule;
  usedNanoUSD : Z;
  windowStartedAtMS : option Z;
  windowEndsAtMS : option Z;
  windowGeneration : Z;
  snapshotVersion : Z;
  dirty : bool
}.

Record Runtime := mkRuntime {
  entries : gmap Z (list runtimeRule);
  restored : gmap Z RestoredState;
  restorePending : bool;
  overflowFaultTotal : Z
}.

Definition NewRuntime : Runtime := mkRuntime ∅ ∅ false 0.

Inductive QuotaError :=
| KeyRequired | InvalidRule | DuplicateRule | PeriodNotZero | PeriodOutOfRange | DuplicatePeriod | InvalidKind | TooManyRules
| InvalidState | IncompleteWindow | InvalidWindow | DuplicateState | AlreadyInitialized
| StateMissing | StateMismatch | WindowOnTotal | InactiveWithUsage | ActiveWithoutGeneration | WindowDurationMismatch | OrphanState
| ChangedWithoutRevision.

(** * Rules *)

Record RuleCounts := mkCounts { rc_total : Z; rc_periodic : Z; rc_periods : list Z; rc_global : list Z }.

Definition validateOne (c : RuleCounts) (r : QuotaRule) : result QuotaError RuleCounts :=
  if (qr_ID r =? 0) || (qr_Revision r =? 0) || (qr_LimitNanoUSD r <=? 0) then Err InvalidRule
  else if bool_decide (qr_ID r ∈ rc_global c) then Err DuplicateRule
  else
    let global := qr_ID r :: rc_global c in
    match qr_Kind r with
    | KindTotal =>
        if negb (qr_PeriodSeconds r =? 0) then Err PeriodNotZero
        else Ok (mkCounts (rc_total c + 1) (rc_periodic c) (rc_periods c) global)
    | KindPeriodic =>
        if (qr_PeriodSeconds r <? MinPeriodSeconds) || (MaxPeriodSeconds <? qr_PeriodSeconds r) then Err PeriodOutOfRange
        else if bool_decide (qr_PeriodSeconds r ∈ rc_periods c) then Err DuplicatePeriod
        else Ok (mkCounts (rc_total c) (rc_periodic c + 1) (qr_PeriodSeconds r :: rc_periods c) global)
    | KindOther _ => Err InvalidKind
    end.

Fixpoint validateEach (c : RuleCounts) (rules : list QuotaRule) : result QuotaError RuleCounts :=
  match rules with
  | [] => Ok c
  | r :: rules' => try! c' := validateOne c r in validateEach c' rules'
  end.

(** The rule IDs seen so far are threaded through. *)
Definition validateRules (rules : list QuotaRule) (globalRuleIDs : list Z) : result QuotaError (list Z) :=
  try! c := validateEach (mkCounts 0 0 [] globalRuleIDs) rules in
  if (1 <? rc_total c) || (MaxPeriodicRules <? rc_periodic c) then Err TooManyRules else Ok (rc_global c).

Definition ruleLess (l r : QuotaRule) : bool :=
  if negb (bool_decide (qr_Kind l = qr_Kind r)) then bool_decide (qr_Kind l = KindTotal)
  else if negb (qr_PeriodSeconds l =? qr_PeriodSeconds r) then qr_PeriodSeconds l <? qr_PeriodSeconds r
  else qr_ID l <? qr_ID r.

Definition ruleLe (l r : QuotaRule) : Prop := ruleLess r l = false.

#[export] Instance ruleLe_dec l r : Decision (ruleLe l r).
Proof. unfold ruleLe. apply _. Defined.

Definition sortRules (rules : list QuotaRule) : list QuotaRule := merge_sort ruleLe rules.

(** Keys without rules are dropped. *)
Fixpoint normalizeFrom (l : list (Z * list QuotaRule)) (globalRuleIDs : list Z) (normalized : gmap Z (list QuotaRule))
  : result QuotaError (gmap Z (list QuotaRule)) :=
  match l with
  | [] => Ok normalized
  | (accessKeyID, source) :: l' =>
      if accessKeyID =? 0 then Err KeyRequired
      else match source with
      | [] => normalizeFrom l' globalRuleIDs normalized
      | _ => try! global := validateRules source globalRuleIDs in
             normalizeFrom l' global (<[accessKeyID := sortRules source]> normalized)
      end
  end.

Definition normalizeDefinitions (definitions : gmap Z (list QuotaRule)) : result QuotaError (gmap Z (list QuotaRule)) :=
  normalizeFrom (mentries definitions) [] ∅.

Definition ValidateDefinitions (definitions : gmap Z (list QuotaRule)) : result QuotaError unit :=
  try! _ := normalizeDefinitions definitions in Ok tt.

Definition newRule (d : QuotaRule) : runtimeRule := mkRuntimeRule d 0 None None 0 1 false.

Definition newAccessKeyEntry (rules : list QuotaRule) : list runtimeRule := newRule <$> rules.

(** The index of an entry. *)
Definition byID (entry : list runtimeRule) (id : Z) : option runtimeRule :=
  head (filter (fun r => qr_ID (definition r) = id) entry).

(** * Restore *)

Definition validateRestoredState (s : RestoredState) : result QuotaError unit :=
  if (rs_AccessKeyID s =? 0) || (rs_RuleID s =? 0) || (rs_RuleRevision s =? 0) || (rs_UsedNanoUSD s <? 0)
     || (rs_SnapshotVersion s =? 0) then Err InvalidState
  else match rs_WindowStartedAtMS s, rs_WindowEndsAtMS s with
  | None, None => Ok tt
  | Some st, Some en => if (st <? 0) || (en <=? st) then Err InvalidWindow else Ok tt
  | _, _ => Err IncompleteWindow
  end.

Fixpoint collectStates (states : list RestoredState) (acc : gmap Z RestoredState) : result QuotaError (gmap Z RestoredState) :=
  match states with
  | [] => Ok acc
  | s :: states' =>
      try! _ := validateRestoredState s in
      if mhas acc (rs_RuleID s) then Err DuplicateState else collectStates states' (<[rs_RuleID s := s]> acc)
  end.

Definition Restore (rt : Runtime) (states : list RestoredState) : result QuotaError Runtime :=
  try! acc := collectStates states ∅ in
  if restorePending rt || (0 <? size (entries rt))%nat then Err AlreadyInitialized
  else Ok (mkRuntime (entries rt) acc true (overflowFaultTotal rt)).

Definition applyRestoredState (r : runtimeRule) (s : RestoredState) : result QuotaError runtimeRule :=
  let d := definition r in
  let applied := Ok (mkRuntimeRule d (rs_UsedNanoUSD s) (rs_WindowStartedAtMS s) (rs_WindowEndsAtMS s)
                       (rs_WindowGeneration s) (rs_SnapshotVersion s) (dirty r)) in
  if bool_decide (qr_Kind d = KindTotal) then
    if isSome (rs_WindowStartedAtMS s) || isSome (rs_WindowEndsAtMS s) || negb (rs_WindowGeneration s =? 0) then Err WindowOnTotal
    else applied
  else match rs_WindowStartedAtMS s with
  | None => if negb (rs_UsedNanoUSD s =? 0) || negb (rs_WindowGeneration s =? 0) then Err InactiveWithUsage else applied
  | Some st =>
      if rs_WindowGeneration s =? 0 then Err ActiveWithoutGeneration
      else
        (* validated states have both ends of the window *)
        let windowDurationMS := i64 (default 0 (rs_WindowEndsAtMS s) - st) in
        if negb (windowDurationMS =? i64 (qr_PeriodSeconds d * 1000)) then Err WindowDurationMismatch
        else applied
  end.

Fixpoint restoreRules (accessKeyID : Z) (rules : list runtimeRule) (remaining : gmap Z RestoredState)
  : result QuotaError (list runtimeRule * gmap Z RestoredState) :=
  match rules with
  | [] => Ok ([], remaining)
  | r :: rules' =>
      match remaining !! qr_ID (definition r) with
      | None => Err StateMissing
      | Some s =>
          if negb (rs_AccessKeyID s =? accessKeyID) || negb (rs_RuleRevision s =? qr_Revision (definition r)) then Err StateMismatch
          else
            try! r' := applyRestoredState r s in
            try! rest := restoreRules accessKeyID rules' (delete (qr_ID (definition r)) remaining) in
            Ok (r' :: rest.1, rest.2)
      end
  end.

Fixpoint restoreEntries (l : list (Z * list QuotaRule)) (remaining : gmap Z RestoredState) (acc : gmap Z (list runtimeRule))
  : result QuotaError (gmap Z (list runtimeRule) * gmap Z RestoredState) :=
  match l with
  | [] => Ok (acc, remaining)
  | (accessKeyID, rules) :: l' =>
      try! p := restoreRules accessKeyID (newAccessKeyEntry rules) remaining in
      restoreEntries l' p.2 (<[accessKeyID := p.1]> acc)
  end.

Definition entriesFromRestore (definitions : gmap Z (list QuotaRule)) (states : gmap Z RestoredState)
  : result QuotaError (gmap Z (list runtimeRule)) :=
  try! p := restoreEntries (mentries definitions) states ∅ in
  if negb (bool_decide (p.2 = ∅)) then Err OrphanState else Ok p.1.

(** * Reconciliation *)

Definition cloneRuntimeState (target source : runtimeRule) : runtimeRule :=
  mkRuntimeRule (definition target) (usedNanoUSD source) (windowStartedAtMS source) (windowEndsAtMS source)
    (windowGeneration source) (snapshotVersion source) (dirty source).

Definition carryRule (current : list runtimeRule) (r : runtimeRule) : result QuotaError runtimeRule :=
  match byID current (qr_ID (definition r)) with
  | None => Ok r
  | Some previous =>
      if negb (qr_Revision (definition previous) =? qr_Revision (definition r)) then Ok r
      else if negb (bool_decide (qr_Kind (definition previous) = qr_Kind (definition r)))
              || negb (qr_PeriodSeconds (definition previous) =? qr_PeriodSeconds (definition r)) then Err ChangedWithoutRevision
      else Ok (cloneRuntimeState r previous)
  end.

Fixpoint carryRules (current : list runtimeRule) (rules : list runtimeRule) : result QuotaError (list runtimeRule) :=
  match rules with
  | [] => Ok []
  | r :: rules' => try! r' := carryRule current r in try! rest := carryRules current rules' in Ok (r' :: rest)
  end.

Fixpoint nextEntries (current : gmap Z (list runtimeRule)) (l : list (Z * list QuotaRule)) (next : gmap Z (list runtimeRule))
  : result QuotaError (gmap Z (list runtimeRule)) :=
  match l with
  | [] => Ok next
  | (accessKeyID, rules) :: l' =>
      match rules with
      | [] => nextEntries current l' next
      | _ =>
          let entry := newAccessKeyEntry rules in
          match current !! accessKeyID with
          | None => nextEntries current l' (<[accessKeyID := entry]> next)
          | Some cur => try! entry' := carryRules cur entry in nextEntries current l' (<[accessKeyID := entry']> next)
          end
      end
  end.

(** On an error the runtime is left as it was. *)
Definition Reconcile (rt : Runtime) (definitions : gmap Z (list QuotaRule)) : result QuotaError Runtime :=
  try! normalized := normalizeDefinitions definitions in
  if restorePending rt then
    try! es := entriesFromRestore normalized (restored rt) in Ok (mkRuntime es ∅ false (overflowFaultTotal rt))
  else
    try! next := nextEntries (entries rt) (mentries normalized) ∅ in
    Ok (mkRuntime next (restored rt) (restorePending rt) (overflowFaultTotal rt)).

(** * Decisions *)

Definition periodicInactive (r : runtimeRule) (nowMS : Z) : bool :=
  match windowStartedAtMS r, windowEndsAtMS r with
  | Some _, Some en => en <=? nowMS
  | _, _ => true
  end.

Definition remaining (limit used : Z) : Z := if limit <=? used then 0 else limit - used.

Definition isPeriodic (r : runtimeRule) : bool := bool_decide (qr_Kind (definition r) = KindPeriodic).

Definition ruleViewLocked (r : runtimeRule) (nowMS : Z) : RuleView :=
  let d := definition r in
  if isPeriodic r && periodicInactive r nowMS then
    mkRuleView d 0 (qr_LimitNanoUSD d) RuleStatusInactive None None (windowGeneration r)
  else
    mkRuleView d (usedNanoUSD r) (remaining (qr_LimitNanoUSD d) (usedNanoUSD r))
      (if qr_LimitNanoUSD d <=? usedNanoUSD r then RuleStatusExhausted else RuleStatusAvailable)
      (windowStartedAtMS r) (windowEndsAtMS r) (windowGeneration r).

Definition allowedDecision : Decision_ := mkDecision true true None [].

(** One iteration of the loop over the rules; [next] is the latest window end so far. *)
Definition decideRule (nowMS : Z) (p : Decision_ * Z) (r : runtimeRule) : Decision_ * Z :=
  let '(d, next) := p in
  let view := ruleViewLocked r nowMS in
  if negb (bool_decide (rv_Status view = RuleStatusExhausted)) then (d, next)
  else
    let blocking := d_BlockingRules d ++ [view] in
    if bool_decide (qr_Kind (definition r) = KindTotal) then (mkDecision false false None blocking, next)
    else
      (mkDecision false (d_Recoverable d) (d_NextAvailableAtMS d) blocking,
       if d_Recoverable d then match rv_WindowEndsAtMS view with Some en => if next <? en then en else next | None => next end
       else next).

Definition decisionLocked (entry : list runtimeRule) (nowMS : Z) : Decision_ :=
  let '(d, next) := fold_left (decideRule nowMS) entry (allowedDecision, 0) in
  if negb (d_Allowed d) && d_Recoverable d && (0 <? next)
  then mkDecision (d_Allowed d) (d_Recoverable d) (Some next) (d_BlockingRules d) else d.

(** Key 0 has no entry. *)
Definition lockEntry (rt : Runtime) (accessKeyID : Z) : option (list runtimeRule) :=
  if accessKeyID =? 0 then None else entries rt !! accessKeyID.

Definition Check (rt : Runtime) (accessKeyID now : Z) : Decision_ :=
  match lockEntry rt accessKeyID with
  | None => allowedDecision
  | Some entry => decisionLocked entry (unixMilli now)
  end.

(** * Admission and completion *)

Definition advanceVersion (r : runtimeRule) : runtimeRule :=
  mkRuntimeRule (definition r) (usedNanoUSD r) (windowStartedAtMS r) (windowEndsAtMS r) (windowGeneration r)
    (if snapshotVersion r <? maxUint64 then snapshotVersion r + 1 else snapshotVersion r) true.

(** Opening the window of an inactive periodic rule. *)
Definition admitRule (now : Z) (r : runtimeRule) : runtimeRule :=
  if negb (isPeriodic r) || negb (periodicInactive r (unixMilli now)) then r
  else advanceVersion (mkRuntimeRule (definition r) 0 (Some (unixMilli now))
         (Some (unixMilli (now + qr_PeriodSeconds (definition r) * second)))
         (if windowGeneration r <? maxUint64 then windowGeneration r + 1 else windowGeneration r) (snapshotVersion r) (dirty r)).

Definition ticketRule (r : runtimeRule) : TicketRule :=
  mkTicketRule (qr_ID (definition r)) (qr_Revision (definition r)) (windowGeneration r).

Definition withEntry (rt : Runtime) (k : Z) (e : list runtimeRule) : Runtime :=
  mkRuntime (<[k := e]> (entries rt)) (restored rt) (restorePending rt) (overflowFaultTotal rt).

Definition Admit (rt : Runtime) (accessKeyID now : Z) : Runtime * Ticket * Decision_ :=
  match lockEntry rt accessKeyID with
  | None => (rt, mkTicket accessKeyID [], allowedDecision)
  | Some entry =>
      let decision := decisionLocked entry (unixMilli now) in
      if negb (d_Allowed decision) then (rt, mkTicket accessKeyID [], decision)
      else
        let entry' := admitRule now <$> entry in
        (withEntry rt accessKeyID entry', mkTicket accessKeyID (ticketRule <$> entry'), allowedDecision)
  end.

(** The charge of one rule: the rule and the fault after it. *)
Definition chargeRule (cost : Z) (fault : option CompletionFault) (r : runtimeRule) : runtimeRule * option CompletionFault :=
  let used := usedNanoUSD r in
  if cost =? 0 then (r, fault)
  else
    let '(used', fault') :=
      if cost <? 0 then (maxInt64, Some CompletionFaultNegativeEstimate)
      else if i64 (maxInt64 - cost) <? used then
        (maxInt64, match fault with None => Some CompletionFaultOverflow | Some _ => fault end)
      else (i64 (used + cost), fault) in
    if used' =? used then (r, fault')
    else (advanceVersion (mkRuntimeRule (definition r) used' (windowStartedAtMS r) (windowEndsAtMS r) (windowGeneration r)
                            (snapshotVersion r) (dirty r)), fault').

(** The rule a ticket line refers to is still the one it was issued for. *)
Definition ticketMatches (t : TicketRule) (r : runtimeRule) : bool :=
  (qr_Revision (definition r) =? tr_RuleRevision t)
  && negb (isPeriodic r && negb (windowGeneration r =? tr_WindowGeneration t)).

(** Replacing the rule object with the given ID. *)
Definition putRule (r' : runtimeRule) (entry : list runtimeRule) : list runtimeRule :=
  (fun r => if qr_ID (definition r) =? qr_ID (definition r') then r' else r) <$> entry.

Definition completeRule (cost : Z) (p : list runtimeRule * option CompletionFault) (t : TicketRule)
  : list runtimeRule * option CompletionFault :=
  let '(entry, fault) := p in
  match byID entry (tr_RuleID t) with
  | None => (entry, fault)
  | Some r =>
      if negb (ticketMatches t r) then (entry, fault)
      else let '(r', fault') := chargeRule cost fault r in (putRule r' entry, fault')
  end.

Definition Complete (rt : Runtime) (ticket : Ticket) (cost : Z) : Runtime * option CompletionFault :=
  if (tk_AccessKeyID ticket =? 0) || bool_decide (tk_Rules ticket = []) then (rt, None)
  else match lockEntry rt (tk_AccessKeyID ticket) with
  | None => (rt, None)
  | Some entry =>
      let '(entry', fault) := fold_left (completeRule cost) (tk_Rules ticket) (entry, None) in
      let rt' := withEntry rt (tk_AccessKeyID ticket) entry' in
      (mkRuntime (entries rt') (restored rt') (restorePending rt')
         (if isSome fault then u64 (overflowFaultTotal rt' + 1) else overflowFaultTotal rt'), fault)
  end.

(** * Views and checkpoints *)

Definition Snapshot (rt : Runtime) (accessKeyID now : Z) : QuotaView :=
  match lockEntry rt accessKeyID with
  | None => mkQuotaView (unixMilli now) true true None []
  | Some entry =>
      let d := decisionLocked entry (unixMilli now) in
      mkQuotaView (unixMilli now) (d_Allowed d) (d_Recoverable d) (d_NextAvailableAtMS d)
        ((fun r => ruleViewLocked r (unixMilli now)) <$> entry)
  end.

Definition restoredState (accessKeyID : Z) (r : runtimeRule) : RestoredState :=
  mkRestored accessKeyID (qr_ID (definition r)) (qr_Revision (definition r)) (usedNanoUSD r) (windowStartedAtMS r)
    (windowEndsAtMS r) (windowGeneration r) (snapshotVersion r).

(** The dirty rules in the order of their keys; a positive [limit] cuts the list. *)
Definition DirtySnapshots (rt : Runtime) (limit : Z) : list RestoredState :=
  if limit =? 0 then []
  else
    let ids := merge_sort Z.le ((mentries (entries rt)).*1) in
    let all := ids ≫= fun id => match lockEntry rt id with
                                | None => []
                                | Some entry => restoredState id <$> filter (fun r => dirty r = true) entry
                                end in
    if 0 <? limit then take (Z.to_nat limit) all else all.

Definition clearDirty (r : runtimeRule) : runtimeRule :=
  mkRuntimeRule (definition r) (usedNanoUSD r) (windowStartedAtMS r) (windowEndsAtMS r) (windowGeneration r) (snapshotVersion r) false.

Definition Ack (rt : Runtime) (accessKeyID ruleID revision version : Z) : Runtime :=
  match lockEntry rt accessKeyID with
  | None => rt
  | Some entry =>
      match byID entry ruleID with
      | None => rt
      | Some r =>
          if negb (qr_Revision (definition r) =? revision) || negb (snapshotVersion r =? version) then rt
          else withEntry rt accessKeyID (putRule (clearDirty r) entry)
      end
  end.

Definition Stats (rt : Runtime) : Z := overflowFaultTotal rt.
