(* ===== verification/AccessQuotaInv.v ===== *)
(** The invariant of the quota runtime ([AccessQuota]) and that every operation keeps it. *)
From S2P Require Import Prelude AccessQuota.

Local Open Scope Z_scope.
Local Open Scope go_scope.

(** * Valid definitions *)

Definition def_ok (d : QuotaRule) : Prop :=
  qr_ID d <> 0 /\ qr_Revision d <> 0 /\ 0 < qr_LimitNanoUSD d
  /\ match qr_Kind d with
     | KindTotal => qr_PeriodSeconds d = 0
     | KindPeriodic => MinPeriodSeconds <= qr_PeriodSeconds d <= MaxPeriodSeconds
     | KindOther _ => False
     end.

Definition idsOf (rules : list QuotaRule) : list Z := qr_ID <$> rules.

Definition totals (rules : list QuotaRule) : list QuotaRule := filter (fun d => qr_Kind d = KindTotal) rules.
Definition periodics (rules : list QuotaRule) : list QuotaRule := filter (fun d => qr_Kind d = KindPeriodic) rules.
Definition periodsOf (rules : list QuotaRule) : list Z := qr_PeriodSeconds <$> periodics rules.

(** The rules of one key, given the IDs and periods already taken. *)
Record each_ok (global periods : list Z) (rules : list QuotaRule) : Prop := {
  eo_defs : Forall def_ok rules;
  eo_ids : NoDup (idsOf rules);
  eo_fresh : Forall (fun x => x ∉ global) (idsOf rules);
  eo_periods : NoDup (periodsOf rules);
  eo_pfresh : Forall (fun x => x ∉ periods) (periodsOf rules)
}.

Definition countsAfter (c : RuleCounts) (rules : list QuotaRule) : RuleCounts :=
  mkCounts (rc_total c + Z.of_nat (length (totals rules))) (rc_periodic c + Z.of_nat (length (periodics rules)))
    (reverse (periodsOf rules) ++ rc_periods c) (reverse (idsOf rules) ++ rc_global c).

(** One step of the loop. *)
Lemma validateOne_spec c d c' :
  (validateOne c d = Ok c') <->
  def_ok d /\ (qr_ID d ∉ rc_global c) /\ (qr_Kind d = KindPeriodic -> qr_PeriodSeconds d ∉ rc_periods c) /\ c' = countsAfter c [d].
Proof.
  unfold validateOne, def_ok. destruct (Z.eqb_spec (qr_ID d) 0); cbn [orb]; [naive_solver|].
  destruct (Z.eqb_spec (qr_Revision d) 0); cbn [orb]; [naive_solver|].
  destruct (Z.leb_spec (qr_LimitNanoUSD d) 0); cbn [orb]; [split; [done|]; intros [(? & ? & ? & _) _]; lia|].
  case_bool_decide as Hg; [naive_solver|]. unfold countsAfter, periodsOf, totals, periodics. rewrite !filter_cons, !filter_nil.
  destruct (qr_Kind d) eqn:Ek; cbn [decide].
  - rewrite decide_True, decide_False by done. cbn. rewrite Z.add_0_r.
    destruct (Z.eqb_spec (qr_PeriodSeconds d) 0); cbn [negb]; [|split; [done|naive_solver]]. split.
    + intros [= <-]. by split_and!.
    + intros (_ & _ & _ & ->). done.
  - rewrite decide_False, decide_True by done. cbn. rewrite Z.add_0_r.
    destruct (Z.ltb_spec (qr_PeriodSeconds d) MinPeriodSeconds); cbn [orb]; [split; [done|]; intros [(_ & _ & _ & ?) _]; lia|].
    destruct (Z.ltb_spec MaxPeriodSeconds (qr_PeriodSeconds d)); [split; [done|]; intros [(_ & _ & _ & ?) _]; lia|].
    case_bool_decide as Hp; [naive_solver|]. split.
    + intros [= <-]. split_and!; try done; lia.
    + intros (_ & _ & _ & ->). done.
  - naive_solver.
Qed.

Lemma countsAfter_cons c d rules : countsAfter (countsAfter c [d]) rules = countsAfter c (d :: rules).
Proof.
  unfold countsAfter. cbn [rc_total rc_periodic rc_periods rc_global]. unfold periodsOf, totals, periodics, idsOf.
  rewrite !filter_cons, !filter_nil, !fmap_cons, !reverse_cons, <- app_assoc.
  destruct (decide (qr_Kind d = KindTotal)), (decide (qr_Kind d = KindPeriodic)); cbn [length];
    rewrite ?fmap_cons, ?fmap_nil, ?reverse_cons, ?reverse_nil, <- ?app_assoc; cbn [app]; f_equal; lia.
Qed.

Lemma validateEach_spec c rules c' :
  validateEach c rules = Ok c' <-> each_ok (rc_global c) (rc_periods c) rules /\ c' = countsAfter c rules.
Proof.
  revert c. induction rules as [|d rules IH]; intros c; cbn [validateEach].
  { assert (countsAfter c [] = c) as -> by (destruct c; unfold countsAfter; cbn; f_equal; lia).
    split; [intros [= <-]; split; [split; constructor|done]|by intros [_ ->]]. }
  assert (forall c', validateOne c d = Ok c' -> c' = countsAfter c [d]) as Hc1 by (intros ? (_ & _ & _ & ->)%validateOne_spec; done).
  destruct (validateOne c d) as [c1|] eqn:E.
  - rewrite (Hc1 c1 eq_refl) in *. apply validateOne_spec in E as (Hd & Hg & Hp & _). rewrite IH, countsAfter_cons.
    apply and_iff_compat_r. unfold countsAfter. cbn [rc_global rc_periods].
    split; intros [H1 H2 H3 H4 H5]; unfold idsOf, periodsOf, periodics in *; rewrite ?filter_cons, ?filter_nil in *.
    + assert (qr_ID d ∉ (qr_ID <$> rules)) as Hnin.
      { intros Hin. rewrite Forall_forall in H3. apply (H3 _ Hin). cbn. set_solver. }
      split; unfold idsOf, periodsOf, periodics; rewrite ?filter_cons; [by constructor|by constructor| | |].
      * rewrite fmap_cons, Forall_cons. split; [done|]. eapply Forall_impl; [exact H3|]. cbn. set_solver.
      * destruct (decide (qr_Kind d = KindPeriodic)); [|done]. rewrite fmap_cons. constructor; [|done].
        intros Hin. rewrite Forall_forall in H5. apply (H5 _ Hin). cbn. set_solver.
      * destruct (decide (qr_Kind d = KindPeriodic)); [|done]. rewrite fmap_cons, Forall_cons. split; [auto|].
        eapply Forall_impl; [exact H5|]. cbn. set_solver.
    + rewrite fmap_cons, NoDup_cons in H2. rewrite fmap_cons, Forall_cons in H3. apply Forall_cons in H1 as [_ H1].
      destruct H2 as [H2 H2']. destruct H3 as [H3 H3']. split; [done|done| | |].
      * rewrite Forall_forall in *. intros x Hx Hin. apply (H3' x Hx). cbn in Hin. set_solver.
      * destruct (decide (qr_Kind d = KindPeriodic)); [|done]. by apply NoDup_cons in H4 as [_ H4].
      * destruct (decide (qr_Kind d = KindPeriodic)); [|done]. rewrite fmap_cons in H4, H5. apply NoDup_cons in H4 as [H4 H4'].
        apply Forall_cons in H5 as [_ H5]. rewrite Forall_forall in *. intros x Hx Hin. cbn in Hin. apply (H5 x Hx). set_solver.
  - split; [done|]. intros [[H1 H2 H3 H4 H5] _]. exfalso.
    assert (validateOne c d = Ok (countsAfter c [d])) as E'; [|congruence]. apply validateOne_spec.
    apply Forall_cons in H1 as [H1 _]. unfold idsOf, periodsOf, periodics in *. rewrite fmap_cons in H3. apply Forall_cons in H3 as [H3 _].
    split; [done|]. split; [done|]. split; [|done]. intros Hk. rewrite filter_cons, decide_True, fmap_cons in H5 by done.
    by apply Forall_cons in H5 as [H5 _].
Qed.

(** The rules of one key. *)
Definition rules_ok (rules : list QuotaRule) : Prop :=
  Forall def_ok rules /\ NoDup (idsOf rules) /\ NoDup (periodsOf rules)
  /\ (length (totals rules) <= 1)%nat /\ (length (periodics rules) <= 10)%nat.

Lemma validateRules_spec rules g g' :
  validateRules rules g = Ok g' <->
  rules_ok rules /\ Forall (fun x => x ∉ g) (idsOf rules) /\ g' = reverse (idsOf rules) ++ g.
Proof.
  unfold validateRules, rules_ok. destruct (validateEach _ rules) as [c|] eqn:E.
  - apply validateEach_spec in E as [[H1 H2 H3 H4 H5] ->]. cbn [rc_global rc_periods countsAfter rc_total rc_periodic] in *.
    unfold MaxPeriodicRules. rewrite !Z.add_0_l.
    destruct (Z.ltb_spec 1 (Z.of_nat (length (totals rules)))); cbn [orb].
    { split; [done|]. intros ((_ & _ & _ & ? & _) & _). lia. }
    destruct (Z.ltb_spec 10 (Z.of_nat (length (periodics rules)))).
    { split; [done|]. intros ((_ & _ & _ & _ & ?) & _). lia. }
    split; [intros [= <-]; repeat split; try done; lia|by intros (_ & _ & ->)].
  - split; [done|]. intros ((H1 & H2 & H3 & _ & _) & H4 & _). exfalso.
    assert (validateEach (mkCounts 0 0 [] g) rules = Ok (countsAfter (mkCounts 0 0 [] g) rules)) as E'; [|congruence].
    apply validateEach_spec. split; [|done]. split; try done. cbn. apply Forall_true. intros x ?%elem_of_nil. done.
Qed.

(** * Normalised definitions *)

(** Every key has valid rules, and no rule ID occurs under two keys. *)
Record defs_ok (N : gmap Z (list QuotaRule)) : Prop := {
  do_key : forall k rules, N !! k = Some rules -> k <> 0 /\ rules <> [] /\ rules_ok rules;
  do_unique : forall k1 k2 r1 r2 id, N !! k1 = Some r1 -> N !! k2 = Some r2 -> id ∈ idsOf r1 -> id ∈ idsOf r2 -> k1 = k2
}.

Lemma rules_ok_perm r1 r2 : r1 ≡ₚ r2 -> rules_ok r1 -> rules_ok r2.
Proof.
  intros Hp. unfold rules_ok, idsOf, periodsOf, totals, periodics.
  assert (filter (fun d => qr_Kind d = KindTotal) r1 ≡ₚ filter (fun d => qr_Kind d = KindTotal) r2) as Ht by by apply filter_Permutation.
  assert (filter (fun d => qr_Kind d = KindPeriodic) r1 ≡ₚ filter (fun d => qr_Kind d = KindPeriodic) r2) as Hq by by apply filter_Permutation.
  by rewrite Ht, Hq, Hp.
Qed.

Lemma sortRules_perm rules : sortRules rules ≡ₚ rules.
Proof. apply merge_sort_Permutation. Qed.

Lemma normalizeFrom_ok l g acc N :
  NoDup l.*1 -> (forall k, k ∈ l.*1 -> acc !! k = None) ->
  defs_ok acc -> (forall k rules id, acc !! k = Some rules -> id ∈ idsOf rules -> id ∈ g) ->
  normalizeFrom l g acc = Ok N -> defs_ok N.
Proof.
  revert g acc. induction l as [|[k source] l IH]; intros g acc Hnd Hfresh Hacc Hg H; cbn [normalizeFrom] in H; [by injection H as <-|].
  destruct (Z.eqb_spec k 0) as [|Hk]; [done|]. cbn in Hnd. apply NoDup_cons in Hnd as [Hkl Hnd].
  destruct source as [|d source]; [eapply IH; [done| |done|done|exact H]; intros k' Hk'; apply Hfresh; by constructor|].
  destruct (validateRules (d :: source) g) as [g'|] eqn:E; [|done]. apply validateRules_spec in E as (Hok & Hdis & ->).
  set (rules := d :: source) in *. pose proof (sortRules_perm rules) as Hp.
  assert (forall id, id ∈ idsOf (sortRules rules) <-> id ∈ idsOf rules) as Hids by (intros id; unfold idsOf; by rewrite Hp).
  eapply IH; [done| | | |exact H].
  - intros k' Hk'. rewrite lookup_insert_ne by (intros ->; done). apply Hfresh. by constructor.
  - split.
    + intros k' r' [[<- <-]|[_ Hr']]%lookup_insert_Some; [|by apply (do_key _ Hacc)]. split; [done|]. split.
      * intros En. rewrite En in Hp. by apply Permutation_nil in Hp.
      * by eapply rules_ok_perm.
    + intros k1 k2 r1 r2 id [[<- <-]|[Hn1 H1]]%lookup_insert_Some [[<- <-]|[Hn2 H2]]%lookup_insert_Some Hi1 Hi2; [done| | |].
      * rewrite Forall_forall in Hdis. destruct (Hdis id); [by apply Hids|]. by eapply Hg.
      * rewrite Forall_forall in Hdis. destruct (Hdis id); [by apply Hids|]. by eapply Hg.
      * by eapply (do_unique _ Hacc).
  - intros k' r' id [[<- <-]|[_ Hr']]%lookup_insert_Some Hi; rewrite elem_of_app, elem_of_reverse; [left; by apply Hids|right; by eapply Hg].
Qed.

Lemma normalizeDefinitions_ok D N : normalizeDefinitions D = Ok N -> defs_ok N.
Proof.
  apply normalizeFrom_ok.
  - apply NoDup_fst_map_to_list.
  - intros. apply lookup_empty.
  - split; intros *; by rewrite lookup_empty.
  - intros *. by rewrite lookup_empty.
Qed.

(** * The state invariant *)

(** A total rule has no window; a periodic rule without a window has no usage, and a window
    has the length of the period. *)
Record rule_ok (r : runtimeRule) : Prop := {
  ro_def : def_ok (definition r);
  ro_used : 0 <= usedNanoUSD r <= maxInt64;
  ro_version : 1 <= snapshotVersion r <= maxUint64;
  ro_window : match windowStartedAtMS r, windowEndsAtMS r with
    | None, None => windowGeneration r = 0 /\ (qr_Kind (definition r) = KindPeriodic -> usedNanoUSD r = 0)
    | Some st, Some en => qr_Kind (definition r) = KindPeriodic /\ 1 <= windowGeneration r <= maxUint64 /\ 0 <= st
        /\ en = st + qr_PeriodSeconds (definition r) * 1000
    | _, _ => False
    end
}.

Definition entryDefs (e : list runtimeRule) : list QuotaRule := definition <$> e.
Definition definitionsOf (rt : Runtime) : gmap Z (list QuotaRule) := entryDefs <$> entries rt.

Definition state_typed (s : RestoredState) : Prop :=
  rs_UsedNanoUSD s <= maxInt64 /\ 0 <= rs_WindowGeneration s <= maxUint64 /\ 0 <= rs_SnapshotVersion s <= maxUint64
  /\ match rs_WindowStartedAtMS s with Some x => is_i64 x | None => True end
  /\ match rs_WindowEndsAtMS s with Some x => is_i64 x | None => True end.

Record rt_ok (rt : Runtime) : Prop := {
  rt_rules : forall k e r, entries rt !! k = Some e -> r ∈ e -> rule_ok r;
  rt_defs : exists D, normalizeDefinitions D = Ok (definitionsOf rt);
  rt_pending : restorePending rt = true -> forall id s, restored rt !! id = Some s -> validateRestoredState s = Ok tt /\ state_typed s
}.

Lemma newRule_ok d : def_ok d -> rule_ok (newRule d).
Proof. intros Hd. split; cbn; [done|unfold maxInt64; lia|unfold maxUint64; lia|done]. Qed.

Lemma advanceVersion_ok r : rule_ok r -> rule_ok (advanceVersion r).
Proof. intros [? ? Hv ?]. split; cbn; [done|done| |done]. destruct (Z.ltb_spec (snapshotVersion r) maxUint64); lia. Qed.

(** The window of an admission is as long as the period, at millisecond resolution too. *)
Lemma window_length now p : unixMilli (now + p * second) = unixMilli now + p * 1000.
Proof.
  unfold unixMilli, second, millisecond. replace (now + p * 1000000000 - unixEpoch) with (now - unixEpoch + (p * 1000) * 1000000) by lia.
  by rewrite Z.div_add by lia.
Qed.

Lemma admitRule_ok now r : unixEpoch <= now -> rule_ok r -> rule_ok (admitRule now r) /\ definition (admitRule now r) = definition r.
Proof.
  intros Hnow Hr. unfold admitRule. case_if; [done|]. split; [|done]. apply advanceVersion_ok.
  destruct Hr as [Hd Hu Hv Hw]. split; cbn; [done|unfold maxInt64; lia|done|].
  assert (qr_Kind (definition r) = KindPeriodic) as Hk.
  { unfold isPeriodic in *. by destruct (decide (qr_Kind (definition r) = KindPeriodic)); [|rewrite bool_decide_eq_false_2 in * by done]. }
  split; [done|]. split.
  - destruct (windowStartedAtMS r), (windowEndsAtMS r); try done;
      destruct (Z.ltb_spec (windowGeneration r) maxUint64); unfold maxUint64 in *; lia.
  - split; [apply Z.div_pos; [lia|done]|apply window_length].
Qed.

Lemma chargeRule_ok cost fault r :
  is_i64 cost -> rule_ok r -> (windowStartedAtMS r = None -> qr_Kind (definition r) = KindPeriodic -> False) ->
  rule_ok (chargeRule cost fault r).1 /\ definition (chargeRule cost fault r).1 = definition r.
Proof.
  intros Hc Hr Hw. unfold chargeRule. destruct (Z.eqb_spec cost 0); [done|].
  assert (forall u (f : option CompletionFault), 0 <= u <= maxInt64 ->
    let p := if u =? usedNanoUSD r then (r, f) else
      (advanceVersion (mkRuntimeRule (definition r) u (windowStartedAtMS r) (windowEndsAtMS r) (windowGeneration r) (snapshotVersion r) (dirty r)), f) in
    rule_ok p.1 /\ definition p.1 = definition r) as H.
  { intros u f Hu. cbn zeta. case_if; [done|]. split; [|done]. apply advanceVersion_ok. destruct Hr as [Hd _ Hv Hwin].
    split; cbn; [done|done|done|]. destruct (windowStartedAtMS r), (windowEndsAtMS r); try done.
    split; [apply Hwin|]. intros Hk. destruct (Hw eq_refl Hk). }
  destruct (Z.ltb_spec cost 0); [apply H; unfold maxInt64; lia|]. destruct (Z.ltb_spec (i64 (maxInt64 - cost)) (usedNanoUSD r)) as [|Hle].
  { apply H. unfold maxInt64. lia. }
  apply H. destruct Hr as [_ Hu _ _]. clear H. unfold_ints. rewrite Z.mod_small in Hle by lia. rewrite Z.mod_small by lia. lia.
Qed.

(** * Entries *)

Lemma byID_Some e id r : byID e id = Some r -> r ∈ e /\ qr_ID (definition r) = id.
Proof.
  unfold byID. intros H. destruct (filter _ e) as [|x l] eqn:E; [done|]. injection H as ->.
  assert (r ∈ filter (fun r => qr_ID (definition r) = id) e) as [? ?]%list_elem_of_filter by (rewrite E; constructor). done.
Qed.

Lemma entry_ids_unique e r1 r2 :
  NoDup (idsOf (entryDefs e)) -> r1 ∈ e -> r2 ∈ e -> qr_ID (definition r1) = qr_ID (definition r2) -> r1 = r2.
Proof.
  unfold idsOf, entryDefs. rewrite <- list_fmap_compose. intros Hnd H1 H2 E. induction e as [|r e IH]; [by apply elem_of_nil in H1|].
  rewrite fmap_cons, NoDup_cons in Hnd. destruct Hnd as [Hr Hnd]. rewrite elem_of_cons in H1, H2.
  destruct H1 as [->|H1], H2 as [->|H2]; [done| | |by apply IH]; destruct Hr; apply list_elem_of_fmap; eauto.
Qed.

Lemma byID_unique e r : NoDup (idsOf (entryDefs e)) -> r ∈ e -> byID e (qr_ID (definition r)) = Some r.
Proof.
  intros Hnd Hr. assert (r ∈ filter (fun r' => qr_ID (definition r') = qr_ID (definition r)) e) as Hf by by apply list_elem_of_filter.
  unfold byID. destruct (filter _ e) as [|x l] eqn:E; [by apply elem_of_nil in Hf|]. cbn. f_equal.
  assert (x ∈ filter (fun r' => qr_ID (definition r') = qr_ID (definition r)) e) as [Hx Hxe]%list_elem_of_filter by (rewrite E; constructor).
  by eapply entry_ids_unique.
Qed.

Lemma putRule_elem r' e x : x ∈ putRule r' e -> x = r' \/ x ∈ e.
Proof. unfold putRule. intros (y & -> & Hy)%list_elem_of_fmap. case_if; auto. Qed.

Lemma putRule_defs r r' e :
  NoDup (idsOf (entryDefs e)) -> r ∈ e -> definition r' = definition r -> entryDefs (putRule r' e) = entryDefs e.
Proof.
  intros Hnd Hr Hd. unfold entryDefs, putRule. rewrite <- list_fmap_compose. apply list_fmap_ext. intros i x Hx. cbn.
  destruct (Z.eqb_spec (qr_ID (definition x)) (qr_ID (definition r'))) as [E|]; [|done].
  rewrite Hd in E |- *. f_equal. eapply entry_ids_unique; [done|done|by eapply list_elem_of_lookup_2|done].
Qed.

Section reach.
Context (kindOf : Z -> Z -> Kind).

(** Administration discipline: a rule ID and revision determine the kind of the rule. *)
Definition respects (d : QuotaRule) : Prop := qr_Kind d = kindOf (qr_ID d) (qr_Revision d).

Definition defs_respect (D : gmap Z (list QuotaRule)) : Prop := forall k rules d, D !! k = Some rules -> d ∈ rules -> respects d.

(** A ticket line of a periodic rule names an open window. *)
Definition issued (t : TicketRule) : Prop :=
  kindOf (tr_RuleID t) (tr_RuleRevision t) = KindPeriodic -> 1 <= tr_WindowGeneration t.

Definition entry_ok (e : list runtimeRule) : Prop :=
  NoDup (idsOf (entryDefs e)) /\ forall r, r ∈ e -> rule_ok r /\ respects (definition r).

Lemma completeRule_ok cost p t :
  is_i64 cost -> entry_ok p.1 -> issued t ->
  entry_ok (completeRule cost p t).1 /\ entryDefs (completeRule cost p t).1 = entryDefs p.1.
Proof.
  destruct p as [e fault]. intros Hc [Hnd He] Ht. cbn [fst] in *. unfold completeRule.
  destruct (byID e (tr_RuleID t)) as [r|] eqn:Eb; [|done]. apply byID_Some in Eb as [Hr Hid].
  destruct (ticketMatches t r) eqn:Em; cbn [negb]; [|done]. destruct (He r Hr) as [Hok Hresp].
  destruct (chargeRule_ok cost fault r Hc Hok) as [Hok' Hd].
  { intros Hw Hk. unfold ticketMatches, isPeriodic in Em. rewrite bool_decide_eq_true_2 in Em by done. zb. cbn [andb] in *. zb.
    unfold respects in Hresp. rewrite Hid, Hk in Hresp. unfold issued in Ht.
    destruct Hok as [_ _ _ Hwin]. rewrite Hw in Hwin. destruct (windowEndsAtMS r); [done|].
    rewrite <- H in Ht. specialize (Ht ltac:(done)). lia. }
  destruct (chargeRule cost fault r) as [r' fault']. cbn [fst] in *.
  assert (entryDefs (putRule r' e) = entryDefs e) as Hdefs by by eapply putRule_defs.
  split; [|done]. split; [by rewrite Hdefs|]. intros x [->|Hx]%putRule_elem; [|by apply He]. by rewrite Hd.
Qed.

Lemma completeRules_ok cost ts p :
  is_i64 cost -> entry_ok p.1 -> Forall issued ts ->
  entry_ok (fold_left (completeRule cost) ts p).1 /\ entryDefs (fold_left (completeRule cost) ts p).1 = entryDefs p.1.
Proof.
  intros Hc He Hts. revert p He. induction Hts as [|t ts Ht _ IH]; intros p He; [done|]. cbn [fold_left].
  destruct (completeRule_ok cost p t Hc He Ht) as [He' Hd]. destruct (IH _ He') as [He'' Hd']. split; [done|]. congruence.
Qed.

(** * The loops that build the entries *)

Definition built (l : list (Z * list QuotaRule)) (acc es : gmap Z (list runtimeRule)) (Q : Z -> list QuotaRule -> list runtimeRule -> Prop) : Prop :=
  forall k, match list_to_map (M:=gmap Z (list QuotaRule)) l !! k with
            | Some rules => exists e, es !! k = Some e /\ Q k rules e
            | None => es !! k = acc !! k
            end.

Lemma built_nil acc (Q : Z -> list QuotaRule -> list runtimeRule -> Prop) : built [] acc acc Q.
Proof. intros k. cbn. by rewrite lookup_empty. Qed.

Lemma built_cons l k rules e acc es (Q : Z -> list QuotaRule -> list runtimeRule -> Prop) :
  k ∉ l.*1 -> Q k rules e -> built l (<[k := e]> acc) es Q -> built ((k, rules) :: l) acc es Q.
Proof.
  intros Hk HQ Hb k'. specialize (Hb k'). cbn. destruct (decide (k = k')) as [<-|Hne].
  - rewrite lookup_insert_eq. rewrite not_elem_of_list_to_map_1, lookup_insert_eq in Hb by done. eauto.
  - rewrite lookup_insert_ne by done. destruct (list_to_map l !! k'); [done|]. by rewrite lookup_insert_ne in Hb.
Qed.

Lemma built_defs N es (Q : Z -> list QuotaRule -> list runtimeRule -> Prop) :
  built (mentries N) ∅ es Q -> (forall k rules e, Q k rules e -> entryDefs e = rules) -> entryDefs <$> es = N.
Proof.
  intros Hb HQ. apply map_eq. intros k. specialize (Hb k). unfold mentries in Hb. rewrite list_to_map_to_list in Hb.
  rewrite lookup_fmap. destruct (N !! k) as [rules|]; [|by rewrite Hb, lookup_empty].
  destruct Hb as (e & -> & He). cbn. f_equal. by eapply HQ.
Qed.

(** A new or carried entry has the new definitions and valid rules. *)
Definition entry_from (k : Z) (rules : list QuotaRule) (e : list runtimeRule) : Prop :=
  entryDefs e = rules /\ forall r, r ∈ e -> def_ok (definition r) -> rule_ok r.

Lemma newEntry_from k rules : entry_from k rules (newAccessKeyEntry rules).
Proof.
  unfold entry_from, entryDefs, newAccessKeyEntry. rewrite <- list_fmap_compose. split.
  - by rewrite (list_fmap_ext _ id) by done; rewrite list_fmap_id.
  - intros r (d & -> & _)%list_elem_of_fmap. apply newRule_ok.
Qed.

Lemma carryRule_ok cur d r' :
  (forall r, r ∈ cur -> rule_ok r) -> carryRule cur (newRule d) = Ok r' ->
  definition r' = d /\ (def_ok d -> rule_ok r').
Proof.
  intros Hcur H. unfold carryRule in H. cbn [newRule definition] in H.
  destruct (byID cur (qr_ID d)) as [p|] eqn:Eb; [|injection H as <-; split; [done|apply newRule_ok]].
  destruct (negb (_ =? _)); [injection H as <-; split; [done|apply newRule_ok]|].
  destruct (negb _ || negb _) eqn:Ek; [done|]. injection H as <-. split; [done|]. intros Hd.
  apply byID_Some in Eb as [Hp _]. destruct (Hcur p Hp) as [_ Hu Hv Hw]. apply orb_false_iff in Ek as [Ek Ep]. zb.
  apply bool_decide_eq_true in Ek. split; cbn; [done|done|done|]. by rewrite <- Ek, <- Ep.
Qed.

Lemma carryRules_ok cur rules e :
  (forall r, r ∈ cur -> rule_ok r) -> carryRules cur (newAccessKeyEntry rules) = Ok e ->
  entryDefs e = rules /\ forall r, r ∈ e -> def_ok (definition r) -> rule_ok r.
Proof.
  intros Hcur. revert e. induction rules as [|d rules IH]; intros e H; cbn in H.
  { injection H as <-. split; [done|]. by intros r ?%elem_of_nil. }
  destruct (carryRule cur (newRule d)) as [r'|] eqn:E; [|done]. destruct (carryRules cur _) as [rest|]; [|done].
  injection H as <-. destruct (carryRule_ok _ _ _ Hcur E) as [Hd Hok]. destruct (IH rest eq_refl) as [Hds Hoks]. split.
  - unfold entryDefs in *. cbn. by rewrite Hd, Hds.
  - intros r [->|Hr]%elem_of_cons; [by rewrite Hd|by apply Hoks].
Qed.

Lemma nextEntries_built cur l next es :
  (forall k e r, cur !! k = Some e -> r ∈ e -> rule_ok r) -> NoDup l.*1 -> Forall (fun p => p.2 <> []) l ->
  nextEntries cur l next = Ok es -> built l next es entry_from.
Proof.
  intros Hcur. revert next. induction l as [|[k rules] l IH]; intros next Hnd Hne H; cbn in H; [injection H as <-; apply built_nil|].
  cbn in Hnd. apply NoDup_cons in Hnd as [Hk Hnd]. apply Forall_cons in Hne as [Hr Hne]. destruct rules as [|d rules]; [done|].
  destruct (cur !! k) as [c|] eqn:Ec.
  - destruct (carryRules c _) as [e|] eqn:Ee; [|done]. eapply built_cons; [done| |by apply IH].
    apply (carryRules_ok c (d :: rules)); [|done]. intros r Hr'. by eapply Hcur.
  - eapply built_cons; [done|apply newEntry_from|by apply IH].
Qed.

(** A validated state applied to a fresh rule. *)
Lemma applyRestoredState_ok d s r' :
  validateRestoredState s = Ok tt -> state_typed s -> applyRestoredState (newRule d) s = Ok r' ->
  definition r' = d /\ (def_ok d -> rule_ok r').
Proof.
  intros Hv (Hu & Hg & Hsv & Hst & Hen) H. unfold validateRestoredState in Hv. case_if_in Hv; [done|].
  unfold applyRestoredState in H. cbn [newRule definition] in H.
  assert (0 <= rs_UsedNanoUSD s <= maxInt64) as Hu' by lia. assert (1 <= rs_SnapshotVersion s <= maxUint64) as Hsv' by lia.
  case_bool_decide as Hk.
  - destruct (rs_WindowStartedAtMS s) eqn:E1, (rs_WindowEndsAtMS s) eqn:E2; try done. cbn in H.
    destruct (Z.eqb_spec (rs_WindowGeneration s) 0); [|done]. injection H as <-. split; [done|]. intros Hd.
    split; cbn; [done|done|done|]. rewrite Hk. done.
  - destruct (rs_WindowStartedAtMS s) as [st|] eqn:E1, (rs_WindowEndsAtMS s) as [en|] eqn:E2; try done.
    + destruct (Z.eqb_spec (rs_WindowGeneration s) 0); [done|]. cbn [default] in H.
      destruct (negb (_ =? _)) eqn:El; [done|]. injection H as <-. split; [done|]. intros Hd. split; cbn; [done|done|done|].
      case_if_in Hv; [done|]. zb. destruct Hd as (_ & _ & _ & Hp). destruct (qr_Kind d); [done| |done].
      unfold MinPeriodSeconds, MaxPeriodSeconds in Hp. cbn [from_option] in El. unfold id in El. unfold_ints.
      rewrite !Z.mod_small in El by lia. repeat split; lia.
    + destruct (Z.eqb_spec (rs_UsedNanoUSD s) 0); [|done]. destruct (Z.eqb_spec (rs_WindowGeneration s) 0); [|done].
      injection H as <-. split; [done|]. intros Hd. split; cbn; [done|done|done|]. done.
Qed.

Definition states_ok (m : gmap Z RestoredState) : Prop :=
  forall id s, m !! id = Some s -> validateRestoredState s = Ok tt /\ state_typed s.

Lemma restoreRules_ok k rules rem e rem' :
  states_ok rem -> restoreRules k (newAccessKeyEntry rules) rem = Ok (e, rem') -> entry_from k rules e /\ states_ok rem'.
Proof.
  unfold entry_from. revert rem e rem'. induction rules as [|d rules IH]; intros rem e rem' Hs H; cbn in H.
  { injection H as <- <-. split; [|done]. split; [done|]. by intros r ?%elem_of_nil. }
  destruct (rem !! qr_ID d) as [s|] eqn:Es; [|done]. case_if_in H; [done|].
  destruct (Hs _ _ Es) as [Hv Hty]. change (mkRuntimeRule d 0 None None 0 1 false) with (newRule d) in H.
  destruct (applyRestoredState (newRule d) s) as [r'|] eqn:Ea; [|done].
  destruct (restoreRules k _ _) as [[e1 rem1]|] eqn:Er; [|done]. injection H as <- <-.
  destruct (applyRestoredState_ok d s r' Hv Hty Ea) as [Hd Hok].
  apply IH in Er as [[Hds Hoks] Hs']; [|intros id s' [_ ?]%lookup_delete_Some; by apply (Hs id)].
  split; [|done]. unfold entryDefs in *. cbn. split; [by rewrite Hd, Hds|]. intros r [->|Hr]%elem_of_cons; [by rewrite Hd|by apply Hoks].
Qed.

Lemma restoreEntries_built l rem acc es rem' :
  states_ok rem -> NoDup l.*1 -> restoreEntries l rem acc = Ok (es, rem') -> built l acc es entry_from.
Proof.
  revert rem acc. induction l as [|[k rules] l IH]; intros rem acc Hs Hnd H; cbn in H; [injection H as <- _; apply built_nil|].
  cbn in Hnd. apply NoDup_cons in Hnd as [Hk Hnd]. destruct (restoreRules k _ rem) as [[e rem1]|] eqn:Er; [|done].
  destruct (restoreRules_ok _ _ _ _ _ Hs Er) as [He Hs']. eapply built_cons; [done|exact He|by eapply IH].
Qed.

(** * The runtime *)

Definition rt_respects (rt : Runtime) : Prop := forall k e r, entries rt !! k = Some e -> r ∈ e -> respects (definition r).

Definition rt_inv (rt : Runtime) : Prop := rt_ok rt /\ rt_respects rt.

Lemma rt_defs_ok rt : rt_ok rt -> defs_ok (definitionsOf rt).
Proof. intros [_ [D HD] _]. by eapply normalizeDefinitions_ok. Qed.

Lemma rt_entry rt k e : rt_inv rt -> entries rt !! k = Some e -> entry_ok e.
Proof.
  intros [Hok Hr] He. split.
  - pose proof (rt_defs_ok rt Hok) as Hd. destruct (do_key _ Hd k (entryDefs e)) as (_ & _ & _ & Hnd & _); [|done].
    unfold definitionsOf. by rewrite lookup_fmap, He.
  - intros r Hin. split; [by eapply rt_rules|by eapply Hr].
Qed.

(** Replacing an entry by one with the same definitions. *)
Lemma withEntry_inv rt k e e' total :
  rt_inv rt -> entries rt !! k = Some e -> entry_ok e' -> entryDefs e' = entryDefs e ->
  rt_inv (mkRuntime (<[k := e']> (entries rt)) (restored rt) (restorePending rt) total).
Proof.
  intros [Hok Hr] He [_ He'] Hd. split; [split|].
  - cbn. intros k' x r [[<- <-]|[_ Hx]]%lookup_insert_Some Hin; [by apply He'|by eapply rt_rules].
  - destruct (rt_defs _ Hok) as [D HD]. exists D. rewrite HD. f_equal. unfold definitionsOf. cbn.
    rewrite fmap_insert, Hd. symmetry. apply insert_id. by rewrite lookup_fmap, He.
  - apply (rt_pending _ Hok).
  - intros k' x r. cbn. intros [[<- <-]|[_ Hx]]%lookup_insert_Some Hin; [by apply He'|by eapply Hr].
Qed.

Lemma normalize_respects l g acc N :
  (forall k rules d, (k, rules) ∈ l -> d ∈ rules -> respects d) -> defs_respect acc -> normalizeFrom l g acc = Ok N -> defs_respect N.
Proof.
  revert g acc. induction l as [|[k source] l IH]; intros g acc Hl Hacc H; cbn in H; [by injection H as <-|].
  case_if_in H; [done|]. assert (forall k rules d, (k, rules) ∈ l -> d ∈ rules -> respects d) as Hl'.
  { intros k' rules d Hin. apply (Hl k' rules d). by constructor. }
  destruct source as [|d source]; [by eapply IH|]. destruct (validateRules _ _); [|done].
  eapply IH; [done| |exact H]. intros k' rules d' [[<- <-]|[_ Hr]]%lookup_insert_Some Hd'; [|by eapply Hacc].
  rewrite sortRules_perm in Hd'. eapply Hl; [constructor|done].
Qed.

Lemma rebuilt_inv D N es states pending total :
  defs_respect D -> normalizeDefinitions D = Ok N -> built (mentries N) ∅ es entry_from ->
  (pending = true -> states_ok states) -> rt_inv (mkRuntime es states pending total).
Proof.
  intros HD HN Hb Hp. assert (entryDefs <$> es = N) as Hdefs by (eapply built_defs; [done|]; by intros ? ? ? [? _]).
  pose proof (normalizeDefinitions_ok D N HN) as HNok.
  assert (defs_respect N) as HNr.
  { eapply normalize_respects; [| |exact HN].
    - intros k rules d Hin%elem_of_map_to_list. by apply (HD k).
    - intros ? ? ?. by rewrite lookup_empty. }
  assert (forall k e, es !! k = Some e -> N !! k = Some (entryDefs e)) as Hlk by (intros k e He; by rewrite <- Hdefs, lookup_fmap, He).
  split; [split|].
  - cbn. intros k e r He Hin. specialize (Hb k). unfold mentries in Hb. rewrite list_to_map_to_list, (Hlk k e He) in Hb.
    destruct Hb as (e' & He' & [_ Hok]). rewrite He in He'. injection He' as <-. apply Hok; [done|].
    destruct (do_key _ HNok k _ (Hlk k e He)) as (_ & _ & Hf & _). rewrite Forall_forall in Hf. apply Hf. by apply list_elem_of_fmap_2.
  - exists D. unfold definitionsOf. cbn. by rewrite Hdefs.
  - exact Hp.
  - intros k e r He Hin. apply (HNr k (entryDefs e)); [by apply Hlk|by apply list_elem_of_fmap_2].
Qed.

Lemma Reconcile_inv rt D rt' : rt_inv rt -> defs_respect D -> Reconcile rt D = Ok rt' -> rt_inv rt'.
Proof.
  intros [Hok Hr] HD H. unfold Reconcile in H. destruct (normalizeDefinitions D) as [N|] eqn:EN; [|done].
  destruct (restorePending rt) eqn:Ep.
  - unfold entriesFromRestore in H. destruct (restoreEntries _ _ _) as [[es rem]|] eqn:Er; [|done]. case_if_in H; [done|].
    injection H as <-. eapply rebuilt_inv; [done|done| |done]. eapply restoreEntries_built; [|apply NoDup_fst_map_to_list|exact Er].
    intros id s. by apply (rt_pending _ Hok Ep).
  - destruct (nextEntries _ _ _) as [es|] eqn:En; [|done]. injection H as <-. eapply rebuilt_inv; [done|done| |done].
    eapply nextEntries_built; [by apply (rt_rules _ Hok)|apply NoDup_fst_map_to_list| |exact En].
    rewrite Forall_forall. intros [k rules] Hin%elem_of_map_to_list. by apply (do_key _ (normalizeDefinitions_ok _ _ EN) k rules).
Qed.

Lemma Admit_inv rt k now : unixEpoch <= now -> rt_inv rt -> rt_inv (Admit rt k now).1.1.
Proof.
  intros Hnow Hinv. unfold Admit, lockEntry. destruct (k =? 0); [done|]. destruct (entries rt !! k) as [e|] eqn:He; [|done].
  case_if; [done|]. cbn [fst]. assert (entryDefs (admitRule now <$> e) = entryDefs e) as Hd.
  { unfold entryDefs. rewrite <- list_fmap_compose. apply list_fmap_ext. intros i r Hr. cbn.
    unfold admitRule. by case_if. }
  eapply withEntry_inv; [done|done| |done]. destruct (rt_entry rt k e Hinv He) as [Hnd Hrules]. split; [by rewrite Hd|].
  intros x (r & -> & Hr)%list_elem_of_fmap. destruct (Hrules r Hr) as [Hro Hres].
  destruct (admitRule_ok now r Hnow Hro) as [? ->]. done.
Qed.

(** Admission issues tickets for open windows. *)
Lemma Admit_issued rt k now : unixEpoch <= now -> rt_inv rt -> Forall issued (tk_Rules (Admit rt k now).1.2).
Proof.
  intros Hnow Hinv. unfold Admit, lockEntry. destruct (k =? 0); [constructor|]. destruct (entries rt !! k) as [e|] eqn:He; [|constructor].
  case_if; [constructor|]. cbn [fst snd tk_Rules]. rewrite Forall_forall. intros t (x & -> & (r & -> & Hr)%list_elem_of_fmap)%list_elem_of_fmap.
  destruct (rt_entry rt k e Hinv He) as [_ Hrules]. destruct (Hrules r Hr) as [Hro Hres].
  destruct (admitRule_ok now r Hnow Hro) as [Hok Hd]. unfold issued, ticketRule. cbn. rewrite Hd. unfold respects in Hres. rewrite <- Hres.
  intros Hk. destruct Hok as [_ _ _ Hw]. unfold admitRule in *. unfold isPeriodic in *. rewrite bool_decide_eq_true_2 in * by done. cbn [negb orb] in *.
  unfold periodicInactive in *. destruct (windowStartedAtMS r) eqn:E1; [|cbn in *; naive_solver].
  destruct (windowEndsAtMS r) eqn:E2; [|cbn in *; naive_solver]. case_if; cbn in *; [|naive_solver]. rewrite E1, E2 in Hw. naive_solver.
Qed.

Lemma Complete_inv rt t cost : is_i64 cost -> Forall issued (tk_Rules t) -> rt_inv rt -> rt_inv (Complete rt t cost).1.
Proof.
  intros Hc Ht Hinv. unfold Complete, lockEntry. case_if; [done|]. destruct (tk_AccessKeyID t =? 0); [done|].
  destruct (entries rt !! tk_AccessKeyID t) as [e|] eqn:He; [|done].
  destruct (completeRules_ok cost (tk_Rules t) (e, None) Hc (rt_entry _ _ _ Hinv He) Ht) as [He' Hd].
  destruct (fold_left _ _ _) as [e' fault]. cbn [fst] in *. by apply (withEntry_inv rt (tk_AccessKeyID t) e).
Qed.

Lemma Ack_inv rt k id rev v : rt_inv rt -> rt_inv (Ack rt k id rev v).
Proof.
  intros Hinv. unfold Ack, lockEntry. destruct (k =? 0); [done|]. destruct (entries rt !! k) as [e|] eqn:He; [|done].
  destruct (byID e id) as [r|] eqn:Eb; [|done]. case_if; [done|]. apply byID_Some in Eb as [Hr _].
  destruct (rt_entry rt k e Hinv He) as [Hnd Hrules]. assert (entryDefs (putRule (clearDirty r) e) = entryDefs e) as Hd by by eapply putRule_defs.
  eapply withEntry_inv; [done|done| |done]. split; [by rewrite Hd|]. intros x [->|Hx]%putRule_elem; [|by apply Hrules].
  destruct (Hrules r Hr) as [[? ? ? ?] ?]. by split; [split|].
Qed.

Lemma collectStates_ok states acc m : Forall state_typed states -> states_ok acc -> collectStates states acc = Ok m -> states_ok m.
Proof.
  revert acc. induction states as [|s states IH]; intros acc Hty Hacc H; cbn in H; [by injection H as <-|].
  apply Forall_cons in Hty as [Hs Hty]. destruct (validateRestoredState s) as [[]|] eqn:E; [|done]. case_if_in H; [done|].
  eapply IH; [done| |exact H]. intros id s' [[<- <-]|[_ ?]]%lookup_insert_Some; [done|by apply (Hacc id)].
Qed.

Lemma Restore_inv rt states rt' : Forall state_typed states -> rt_inv rt -> Restore rt states = Ok rt' -> rt_inv rt'.
Proof.
  intros Hty [Hok Hr] H. unfold Restore in H. destruct (collectStates states ∅) as [m|] eqn:E; [|done]. case_if_in H; [done|].
  injection H as <-. split; [|done]. destruct Hok as [Hq1 Hq2 Hq3]. split; [done|done|]. intros _.
  eapply collectStates_ok; [done| |exact E]. intros ? ?. by rewrite lookup_empty.
Qed.

(** * Reachable runtimes and the tickets they issued *)

Inductive quota_reach : Runtime -> list Ticket -> Prop :=
| qr_new : quota_reach NewRuntime []
| qr_restore rt ts states rt' : quota_reach rt ts -> Forall state_typed states -> Restore rt states = Ok rt' -> quota_reach rt' ts
| qr_reconcile rt ts D rt' : quota_reach rt ts -> defs_respect D -> Reconcile rt D = Ok rt' -> quota_reach rt' ts
| qr_admit rt ts k now : quota_reach rt ts -> unixEpoch <= now -> quota_reach (Admit rt k now).1.1 ((Admit rt k now).1.2 :: ts)
| qr_complete rt ts t cost : quota_reach rt ts -> t ∈ ts -> is_i64 cost -> quota_reach (Complete rt t cost).1 ts
| qr_ack rt ts k id rev v : quota_reach rt ts -> quota_reach (Ack rt k id rev v) ts.

Lemma quota_reach_inv rt ts : quota_reach rt ts -> rt_inv rt /\ Forall (fun t => Forall issued (tk_Rules t)) ts.
Proof.
  induction 1 as [|rt ts states rt' _ [Hi Ht] Hty HR|rt ts D rt' _ [Hi Ht] HD HR|rt ts k now _ [Hi Ht] Hnow|rt ts t cost _ [Hi Ht] Hin Hc|rt ts k id rev v _ [Hi Ht]].
  - split; [|constructor]. split; [split|].
    + cbn. intros k e r. by rewrite lookup_empty.
    + exists ∅. reflexivity.
    + done.
    + intros k e r. cbn. by rewrite lookup_empty.
  - split; [by eapply Restore_inv|done].
  - split; [by eapply Reconcile_inv|done].
  - split; [by apply Admit_inv|]. constructor; [by apply Admit_issued|done].
  - split; [|done]. apply Complete_inv; [done| |done]. rewrite Forall_forall in Ht. by apply Ht.
  - split; [by apply Ack_inv|done].
Qed.

End reach.
