(* ===== verification/AccessQuotaProps.v ===== *)
(** Properties of the quota runtime: what a decision means and when it changes, what a
    completion charges, and that the persisted states restore the runtime. *)
From S2P Require Import Prelude AccessQuota AccessQuotaInv.

Local Open Scope Z_scope.
Local Open Scope go_scope.

(** * Decisions *)

(** A rule blocks at [ms] when its window is open, or it has none, and its limit is used up. *)
Definition exhausted (r : runtimeRule) (ms : Z) : bool :=
  negb (isPeriodic r && periodicInactive r ms) && (qr_LimitNanoUSD (definition r) <=? usedNanoUSD r).

Definition isTotal (r : runtimeRule) : bool := bool_decide (qr_Kind (definition r) = KindTotal).

Lemma view_exhausted r ms : bool_decide (rv_Status (ruleViewLocked r ms) = RuleStatusExhausted) = exhausted r ms.
Proof. unfold ruleViewLocked, exhausted. case_if; [done|]. cbn. by case_if. Qed.

Definition lastEnd (ms : Z) (next : Z) (e : list runtimeRule) : Z :=
  fold_left (fun n r => if exhausted r ms then Z.max n (default 0 (windowEndsAtMS r)) else n) e next.

Lemma decideRule_eq ms d next r :
  decideRule ms (d, next) r =
  if negb (exhausted r ms) then (d, next)
  else
    let blocking := d_BlockingRules d ++ [ruleViewLocked r ms] in
    if isTotal r then (mkDecision false false None blocking, next)
    else (mkDecision false (d_Recoverable d) (d_NextAvailableAtMS d) blocking,
          if d_Recoverable d then match windowEndsAtMS r with Some en => if next <? en then en else next | None => next end else next).
Proof.
  unfold decideRule. rewrite view_exhausted. destruct (exhausted r ms) eqn:Ex; cbn [negb]; [|done]. fold (isTotal r).
  assert (rv_WindowEndsAtMS (ruleViewLocked r ms) = windowEndsAtMS r) as ->; [|done].
  unfold exhausted in Ex. apply andb_true_iff in Ex as [Ei%negb_true_iff _]. unfold ruleViewLocked. by rewrite Ei.
Qed.

(** The loop: allowed until a rule blocks, recoverable until a total rule does. *)
Lemma decide_loop ms e d next :
  0 <= next -> (forall r, r ∈ e -> exhausted r ms = true -> 0 <= default 0 (windowEndsAtMS r)) ->
  let p := fold_left (decideRule ms) e (d, next) in
  d_Allowed p.1 = d_Allowed d && negb (existsb (fun r => exhausted r ms) e)
  /\ d_Recoverable p.1 = d_Recoverable d && negb (existsb (fun r => exhausted r ms && isTotal r) e)
  /\ (d_Recoverable p.1 = true -> d_NextAvailableAtMS p.1 = d_NextAvailableAtMS d)
  /\ (d_NextAvailableAtMS d = None -> d_NextAvailableAtMS p.1 = None)
  /\ (d_Recoverable p.1 = true -> p.2 = lastEnd ms next e).
Proof.
  revert d next. induction e as [|r e IH]; intros d next Hn Hw; cbn zeta; cbn [fold_left existsb].
  { rewrite !andb_true_r. done. }
  assert (forall r, r ∈ e -> exhausted r ms = true -> 0 <= default 0 (windowEndsAtMS r)) as Hw' by (intros; apply Hw; [by constructor|done]).
  unfold lastEnd in *. cbn [fold_left]. rewrite decideRule_eq.
  destruct (exhausted r ms) eqn:Ex; cbn [negb andb orb]; [|by apply IH].
  specialize (Hw r ltac:(constructor) Ex). destruct (isTotal r) eqn:Ek; cbn zeta.
  - destruct (IH (mkDecision false false None (d_BlockingRules d ++ [ruleViewLocked r ms])) next Hn Hw') as (-> & -> & _ & H & _).
    cbn. rewrite !andb_false_r. split_and!; [done|done|done|auto|done].
  - set (next' := if d_Recoverable d then _ else _).
    destruct (IH (mkDecision false (d_Recoverable d) (d_NextAvailableAtMS d) (d_BlockingRules d ++ [ruleViewLocked r ms])) next') as (-> & Hr & H1 & H2 & H3).
    + subst next'. destruct (d_Recoverable d); [|done]. destruct (windowEndsAtMS r); [|done]. case_if; lia.
    + done.
    + cbn in *. rewrite andb_false_r. split_and!; [done|done|done|done|]. intros Hrec. rewrite H3 by done. f_equal.
      rewrite Hrec in Hr. symmetry in Hr. apply andb_true_iff in Hr as [Hrd _]. subst next'. rewrite Hrd.
      destruct (windowEndsAtMS r); cbn in *; [|lia]. case_if; lia.
Qed.

Lemma lastEnd_spec ms next e :
  next <= lastEnd ms next e
  /\ (forall r, r ∈ e -> exhausted r ms = true -> default 0 (windowEndsAtMS r) <= lastEnd ms next e)
  /\ (lastEnd ms next e = next \/ exists r, r ∈ e /\ exhausted r ms = true /\ lastEnd ms next e = default 0 (windowEndsAtMS r)).
Proof.
  revert next. induction e as [|r e IH]; intros next; unfold lastEnd in *; cbn [fold_left].
  { split; [lia|]. split; [by intros r ?%elem_of_nil|by left]. }
  set (n' := if exhausted r ms then _ else _). destruct (IH n') as (H1 & H2 & H3).
  assert (next <= n') as Hn by (subst n'; case_if; lia). split; [lia|]. split.
  - intros x [->|Hx]%elem_of_cons Ex; [|by apply H2]. subst n'. rewrite Ex in *. lia.
  - destruct H3 as [H3|(x & Hx & Ex & H3)]; [|right; exists x; split; [by constructor|done]].
    subst n'. destruct (exhausted r ms) eqn:Ex; [|left; done].
    destruct (Z.max_spec next (default 0 (windowEndsAtMS r))) as [[_ E]|[_ E]]; rewrite E in *; [right|by left].
    exists r. split; [constructor|done].
Qed.

(** The decision on an entry of a reachable runtime. *)
Lemma decisionLocked_spec kindOf e ms :
  entry_ok kindOf e ->
  let d := decisionLocked e ms in
  d_Allowed d = negb (existsb (fun r => exhausted r ms) e)
  /\ d_Recoverable d = negb (existsb (fun r => exhausted r ms && isTotal r) e)
  /\ d_NextAvailableAtMS d = (if negb (d_Allowed d) && d_Recoverable d then Some (lastEnd ms 0 e) else None).
Proof.
  intros [_ He]. cbn zeta. unfold decisionLocked.
  assert (forall r, r ∈ e -> exhausted r ms = true -> isTotal r = false -> 0 < default 0 (windowEndsAtMS r)) as Hpos.
  { intros r Hr Ex Ht. destruct (He r Hr) as [[Hd _ _ Hw] _]. unfold isTotal in Ht. apply bool_decide_eq_false in Ht.
    unfold exhausted, isPeriodic, periodicInactive in Ex. destruct Hd as (_ & _ & _ & Hp). destruct (qr_Kind (definition r)) eqn:Ek; [done| |done].
    rewrite bool_decide_eq_true_2 in Ex by done. cbn [andb] in Ex.
    destruct (windowStartedAtMS r), (windowEndsAtMS r); try done. cbn. unfold MinPeriodSeconds in Hp. destruct Hw as (_ & _ & ? & ->). lia. }
  assert (forall r, r ∈ e -> exhausted r ms = true -> 0 <= default 0 (windowEndsAtMS r)) as Hw.
  { intros r Hr Ex. destruct (isTotal r) eqn:Et; [|specialize (Hpos r Hr Ex Et); lia]. destruct (He r Hr) as [[_ _ _ Hw] _].
    unfold isTotal in Et. apply bool_decide_eq_true in Et. destruct (windowStartedAtMS r), (windowEndsAtMS r); try done. destruct Hw as [Hk _]. congruence. }
  destruct (decide_loop ms e allowedDecision 0 ltac:(lia) Hw) as (HA & HR & _ & HN & HL).
  destruct (fold_left _ e _) as [d next]. cbn [fst snd] in *. cbn [allowedDecision d_Allowed d_Recoverable d_NextAvailableAtMS andb] in *.
  specialize (HN eq_refl).
  destruct (negb (d_Allowed d) && d_Recoverable d) eqn:E; cbn [andb].
  - apply andb_true_iff in E as [EA ER]. rewrite HL by done. rewrite (proj2 (Z.ltb_lt 0 _)).
    + cbn. split_and!; [done|done|]. by rewrite EA, ER.
    + rewrite HA, negb_involutive in EA. apply existsb_exists in EA as (r & Hr & Ex). apply list_elem_of_In in Hr.
      destruct (lastEnd_spec ms 0 e) as (_ & Hge & _). specialize (Hge r Hr Ex). assert (isTotal r = false) as Et.
      { apply not_true_iff_false. intros Et. rewrite HR in ER. apply negb_true_iff, not_true_iff_false in ER. destruct ER.
        apply existsb_exists. exists r. rewrite Ex, Et. split; [by apply list_elem_of_In|done]. }
      specialize (Hpos r Hr Ex Et). lia.
  - split_and!; [done|done|]. by rewrite E.
Qed.

Lemma exhausted_any e ms : existsb (fun r => exhausted r ms) e = true <-> exists r, r ∈ e /\ exhausted r ms = true.
Proof. rewrite existsb_exists. by setoid_rewrite list_elem_of_In. Qed.

Lemma exhausted_total r ms : isTotal r = true -> exhausted r ms = (qr_LimitNanoUSD (definition r) <=? usedNanoUSD r).
Proof. unfold exhausted, isPeriodic, isTotal. intros Ht. apply bool_decide_eq_true in Ht. by rewrite Ht. Qed.

(** A used-up periodic rule refuses until the end of its window, and from then on no more. *)
Lemma exhausted_open r now :
  isPeriodic r = true -> exhausted r now = true ->
  exists en, windowEndsAtMS r = Some en /\ now < en /\ forall ms, exhausted r ms = negb (en <=? ms).
Proof.
  intros Hp Ex. unfold exhausted in *. rewrite Hp in *. cbn [andb] in *. unfold periodicInactive in *.
  destruct (windowStartedAtMS r); [|done]. destruct (windowEndsAtMS r) as [en|]; [|done]. exists en. split; [done|].
  zb. split; [lia|]. intros ms. rewrite (proj2 (Z.leb_le (qr_LimitNanoUSD _) _)) by done. by rewrite andb_true_r.
Qed.

(** A rule that is not used up now is not used up later without a charge. *)
Lemma exhausted_later r now t : exhausted r now = false -> now <= t -> exhausted r t = false.
Proof.
  unfold exhausted. intros Ex Ht. destruct (qr_LimitNanoUSD _ <=? _); [|by rewrite andb_false_r]. rewrite andb_true_r in *.
  unfold periodicInactive in *. destruct (isPeriodic r); [|done]. destruct (windowStartedAtMS r), (windowEndsAtMS r) as [en|]; try done.
  cbn in *. zb. by rewrite (proj2 (Z.leb_le _ _)) by lia.
Qed.

(** When every used-up rule is periodic, the last end of their windows is when the refusal ends. *)
Lemma refusal_ends kindOf e now :
  entry_ok kindOf e -> (exists r, r ∈ e /\ exhausted r now = true) ->
  (forall r, r ∈ e -> exhausted r now = true -> isPeriodic r = true) ->
  now < lastEnd now 0 e
  /\ forall t, now <= t -> existsb (fun r => exhausted r t) e = false <-> lastEnd now 0 e <= t.
Proof.
  intros He (r0 & Hr0 & Ex0) Hper. destruct (lastEnd_spec now 0 e) as (_ & Hge & Hat).
  destruct (exhausted_open r0 now (Hper r0 Hr0 Ex0) Ex0) as (en0 & E0 & Hlt0 & _). pose proof (Hge r0 Hr0 Ex0) as Hge0.
  rewrite E0 in Hge0. cbn in Hge0. split; [lia|]. intros t Ht. rewrite <- not_true_iff_false, exhausted_any. split.
  - intros Hno. destruct Hat as [Hat|(r & Hr & Ex & Hat)].
    + destruct He as [_ He']. destruct (He' r0 Hr0) as [[Hd _ _ Hw] _]. destruct (windowStartedAtMS r0); [|by rewrite E0 in Hw].
      rewrite E0 in Hw. destruct Hw as (Hk & _ & ? & ->). destruct Hd as (_ & _ & _ & Hp). rewrite Hk in Hp. unfold MinPeriodSeconds in Hp. lia.
    + destruct (exhausted_open r now (Hper r Hr Ex) Ex) as (en & E & Hlt & Hms). rewrite Hat, E. cbn. destruct (Z.leb_spec en t); [done|].
      destruct Hno. exists r. split; [done|]. rewrite Hms. by rewrite (proj2 (Z.leb_gt _ _)).
  - intros Hle (r & Hr & Ex). destruct (exhausted r now) eqn:Ex'; [|by rewrite (exhausted_later r now t) in Ex].
    destruct (exhausted_open r now (Hper r Hr Ex') Ex') as (en & E & Hlt & Hms). rewrite Hms in Ex.
    specialize (Hge r Hr Ex'). rewrite E in Hge. cbn in Hge. zb. lia.
Qed.

(** What a refusal means.  For a key of a reachable runtime: a request is admitted exactly
    when no rule blocks; the refusal is final exactly when the total limit is used up, and then
    it stays refused; otherwise the announced instant is in the future and is exact: without
    further charges, the key is refused at every later instant before it and admitted from
    it on. *)
Theorem quota_decision kindOf rt ts k now e :
  quota_reach kindOf rt ts -> lockEntry rt k = Some e ->
  let d := Check rt k now in
  (d_Allowed d = true <-> Forall (fun r => exhausted r (unixMilli now) = false) e)
  /\ (d_Recoverable d = false -> forall t, d_Allowed (Check rt k t) = false)
  /\ (d_Recoverable d = false <-> Exists (fun r => qr_Kind (definition r) = KindTotal /\ qr_LimitNanoUSD (definition r) <= usedNanoUSD r) e)
  /\ (d_Allowed d = false -> d_Recoverable d = true ->
      exists n, d_NextAvailableAtMS d = Some n /\ unixMilli now < n
        /\ forall t, now <= t -> (d_Allowed (Check rt k t) = true <-> n <= unixMilli t)).
Proof.
  intros [Hinv _]%quota_reach_inv Hl. assert (entry_ok kindOf e) as He.
  { unfold lockEntry in Hl. destruct (k =? 0); [done|]. by eapply rt_entry. }
  assert (forall t, Check rt k t = decisionLocked e (unixMilli t)) as HC by (intros t; unfold Check; by rewrite Hl).
  cbn zeta. rewrite HC. destruct (decisionLocked_spec kindOf e (unixMilli now) He) as (HA & HR & HN). split_and!.
  - rewrite HA, negb_true_iff, <- not_true_iff_false, exhausted_any, Forall_forall. split.
    + intros H r Hr. apply not_true_iff_false. eauto.
    + intros H (r & Hr & Ex). by rewrite H in Ex.
  - intros H t. rewrite HC. destruct (decisionLocked_spec kindOf e (unixMilli t) He) as (-> & _ & _).
    rewrite HR, negb_false_iff, existsb_exists in H. destruct H as (r & Hr & [Ex Et]%andb_true_iff).
    apply negb_false_iff, exhausted_any. exists r. split; [by apply list_elem_of_In|]. by rewrite exhausted_total in Ex |- *.
  - rewrite HR, negb_false_iff, existsb_exists, Exists_exists. setoid_rewrite list_elem_of_In. split.
    + intros (r & Hr & [Ex Et]%andb_true_iff). exists r. split; [done|]. rewrite exhausted_total, Z.leb_le in Ex by done.
      split; [by apply bool_decide_eq_true in Et|done].
    + intros (r & Hr & Hk & Hle). exists r. assert (isTotal r = true) as Et by by apply bool_decide_eq_true.
      rewrite exhausted_total, Et by done. split; [done|]. by rewrite (proj2 (Z.leb_le _ _)).
  - intros HA' HR'. exists (lastEnd (unixMilli now) 0 e). rewrite HN, HA', HR'. split; [done|].
    rewrite HR in HR'. rewrite HA, negb_false_iff, exhausted_any in HA'.
    destruct (refusal_ends kindOf e (unixMilli now) He HA') as [Hlt Hend].
    { intros r Hr Ex. apply negb_true_iff, not_true_iff_false in HR'. apply bool_decide_eq_true. destruct He as [_ He].
      destruct (He r Hr) as [[(_ & _ & _ & Hd) _ _ _] _].
      destruct (qr_Kind (definition r)) eqn:Ek; [|done|done]. destruct HR'. apply existsb_exists. exists r.
      split; [by apply list_elem_of_In|]. rewrite Ex. by apply bool_decide_eq_true. }
    split; [done|]. intros t Ht. rewrite HC. destruct (decisionLocked_spec kindOf e (unixMilli t) He) as (-> & _ & _).
    rewrite negb_true_iff. apply Hend. unfold unixMilli, millisecond. apply Z.div_le_mono; lia.
Qed.

(** * Completions *)

(** The usage after a charge: it saturates, and an unknown (negative) cost uses the limit up. *)
Definition chargedUse (cost used : Z) : Z := if cost <? 0 then maxInt64 else Z.min maxInt64 (used + cost).

Definition chargedRule (cost : Z) (r : runtimeRule) : runtimeRule :=
  let used := chargedUse cost (usedNanoUSD r) in
  if (cost =? 0) || (used =? usedNanoUSD r) then r
  else advanceVersion (mkRuntimeRule (definition r) used (windowStartedAtMS r) (windowEndsAtMS r) (windowGeneration r) (snapshotVersion r) (dirty r)).

Definition chargeFault (cost : Z) (r : runtimeRule) : bool := (cost <? 0) || (maxInt64 <? usedNanoUSD r + cost).

(** A ticket covers a rule: same rule, revision and, for a periodic rule, window. *)
Definition covered (ts : list TicketRule) (r : runtimeRule) : bool :=
  existsb (fun t => (tr_RuleID t =? qr_ID (definition r)) && ticketMatches t r) ts.

Lemma chargeRule_exact cost fault r :
  is_i64 cost -> 0 <= usedNanoUSD r <= maxInt64 ->
  (chargeRule cost fault r).1 = chargedRule cost r
  /\ (isSome (chargeRule cost fault r).2 = isSome fault || (negb (cost =? 0) && chargeFault cost r)).
Proof.
  intros Hc Hu. unfold chargeRule, chargedRule, chargeFault, chargedUse. destruct (Z.eqb_spec cost 0); cbn [orb negb andb].
  { by rewrite orb_false_r. }
  destruct (Z.ltb_spec cost 0); cbn [orb].
  { case_if; (split; [done|]); by rewrite orb_true_r. }
  assert (i64 (maxInt64 - cost) = maxInt64 - cost) as -> by (unfold_ints; rewrite Z.mod_small; lia).
  destruct (Z.ltb_spec (maxInt64 - cost) (usedNanoUSD r)).
  - rewrite Z.min_l, (proj2 (Z.ltb_lt maxInt64 _)) by lia. case_if; (split; [done|]); by destruct fault.
  - rewrite Z.min_r, (proj2 (Z.ltb_ge maxInt64 _)) by lia.
    assert (i64 (usedNanoUSD r + cost) = usedNanoUSD r + cost) as -> by (unfold_ints; rewrite Z.mod_small; lia).
    case_if; (split; [done|]); by rewrite orb_false_r.
Qed.

Lemma chargedRule_def cost r : definition (chargedRule cost r) = definition r.
Proof. unfold chargedRule. by case_if. Qed.

Lemma ticketMatches_charged t cost r : ticketMatches t (chargedRule cost r) = ticketMatches t r.
Proof. unfold ticketMatches, isPeriodic, chargedRule. by case_if. Qed.

(** One line of a ticket. *)
Lemma completeRule_exact cost e fault t :
  is_i64 cost -> NoDup (idsOf (entryDefs e)) -> (forall r, r ∈ e -> 0 <= usedNanoUSD r <= maxInt64) ->
  (completeRule cost (e, fault) t).1 = (fun r => if covered [t] r then chargedRule cost r else r) <$> e.
Proof.
  intros Hc Hnd Hu. unfold completeRule. destruct (byID e (tr_RuleID t)) as [r|] eqn:Eb.
  - apply byID_Some in Eb as [Hr Hid]. destruct (ticketMatches t r) eqn:Em; cbn [negb].
    + pose proof (chargeRule_exact cost fault r Hc (Hu r Hr)) as [Hch _]. destruct (chargeRule cost fault r) as [r' f']. cbn [fst] in *. subst r'.
      unfold putRule. apply list_fmap_ext. intros i x Hx. rewrite chargedRule_def. unfold covered. cbn. rewrite orb_false_r, <- Hid.
      rewrite (Z.eqb_sym (qr_ID (definition x))). destruct (Z.eqb_spec (qr_ID (definition r)) (qr_ID (definition x))) as [E|]; [|done].
      assert (r = x) as <- by (eapply entry_ids_unique; [done|done|by eapply list_elem_of_lookup_2|done]). by rewrite Em.
    + cbn [fst]. rewrite <- (list_fmap_id e) at 1. apply list_fmap_ext. intros i x Hx. unfold covered. cbn. rewrite orb_false_r, <- Hid.
      destruct (Z.eqb_spec (qr_ID (definition r)) (qr_ID (definition x))) as [E|]; [|done].
      assert (r = x) as <- by (eapply entry_ids_unique; [done|done|by eapply list_elem_of_lookup_2|done]). by rewrite Em.
  - cbn [fst]. rewrite <- (list_fmap_id e) at 1. apply list_fmap_ext. intros i x Hx. unfold covered. cbn. rewrite orb_false_r.
    destruct (Z.eqb_spec (tr_RuleID t) (qr_ID (definition x))) as [E|]; [|done]. rewrite E, byID_unique in Eb; [done|done|].
    by eapply list_elem_of_lookup_2.
Qed.

Lemma chargedUse_range cost used : 0 <= used -> 0 <= chargedUse cost used <= maxInt64.
Proof. intros Hu. unfold chargedUse. case_if; unfold maxInt64; lia. Qed.

(** A whole ticket: its lines name different rules. *)
Lemma completeRules_exact cost ts e fault :
  is_i64 cost -> NoDup (tr_RuleID <$> ts) -> NoDup (idsOf (entryDefs e)) -> (forall r, r ∈ e -> 0 <= usedNanoUSD r <= maxInt64) ->
  (fold_left (completeRule cost) ts (e, fault)).1 = (fun r => if covered ts r then chargedRule cost r else r) <$> e.
Proof.
  intros Hc. revert e fault. induction ts as [|t ts IH]; intros e fault Hnt Hnd Hu; cbn [fold_left].
  { cbn. by rewrite list_fmap_id. }
  rewrite fmap_cons, NoDup_cons in Hnt. destruct Hnt as [Ht Hnt].
  pose proof (completeRule_exact cost e fault t Hc Hnd Hu) as He. destruct (completeRule cost (e, fault) t) as [e1 f1]. cbn [fst] in He. subst e1.
  rewrite IH; [|done| |].
  - rewrite <- list_fmap_compose. apply list_fmap_ext. intros i x Hx. unfold compose, covered. cbn [existsb]. rewrite orb_false_r.
    destruct ((tr_RuleID t =? qr_ID (definition x)) && ticketMatches t x) eqn:Et; cbn [orb]; [|done]. rewrite chargedRule_def.
    replace (existsb _ ts) with false; [done|]. symmetry. apply not_true_iff_false. intros (t' & Hin & [E _]%andb_true_iff)%existsb_exists. zb.
    destruct Ht. rewrite H, <- E. apply list_elem_of_fmap_2. by apply list_elem_of_In.
  - unfold idsOf, entryDefs in *. rewrite <- !list_fmap_compose in *. erewrite list_fmap_ext; [exact Hnd|].
    intros i x Hx. cbn. case_if; [|done]. by rewrite chargedRule_def.
  - intros x (r & -> & Hr)%list_elem_of_fmap. specialize (Hu r Hr). case_if; [|done]. unfold chargedRule. case_if; [done|].
    apply chargedUse_range. lia.
Qed.

(** The lines of issued tickets name different rules. *)
Lemma quota_reach_tickets kindOf rt ts : quota_reach kindOf rt ts -> Forall (fun t => NoDup (tr_RuleID <$> tk_Rules t)) ts.
Proof.
  induction 1 as [| | |rt ts k now Hr IH Hnow| |]; try done. constructor; [|done].
  apply quota_reach_inv in Hr as [Hinv _]. unfold Admit, lockEntry. destruct (k =? 0); [constructor|].
  destruct (entries rt !! k) as [e|] eqn:He; [|constructor]. case_if; [constructor|]. cbn [fst snd tk_Rules].
  destruct (rt_entry _ rt k e Hinv He) as [Hnd _]. unfold idsOf, entryDefs in Hnd. rewrite <- !list_fmap_compose in *.
  erewrite list_fmap_ext; [exact Hnd|]. intros i r _. cbn. unfold admitRule. by case_if.
Qed.

(** Each request is charged exactly once, to the right windows.  Completing a ticket that
    the runtime issued adds the cost, saturating at the largest amount, to every rule the
    ticket covers and to nothing else: a rule that was replaced, or whose period rolled over
    since the admission, is left alone, and so is every other key.  A negative cost uses the
    covered limits up instead of refunding. *)
Theorem completion_exact kindOf rt ts t cost e :
  quota_reach kindOf rt ts -> t ∈ ts -> is_i64 cost -> lockEntry rt (tk_AccessKeyID t) = Some e -> tk_Rules t <> [] ->
  let rt' := (Complete rt t cost).1 in
  lockEntry rt' (tk_AccessKeyID t) = Some ((fun r => if covered (tk_Rules t) r then chargedRule cost r else r) <$> e)
  /\ (forall k, k <> tk_AccessKeyID t -> lockEntry rt' k = lockEntry rt k).
Proof.
  intros Hr Ht Hc Hl Hne. pose proof (quota_reach_tickets _ _ _ Hr) as Hts. rewrite Forall_forall in Hts. specialize (Hts t Ht).
  apply quota_reach_inv in Hr as [Hinv _]. cbn zeta. unfold Complete. rewrite Hl, (bool_decide_eq_false_2 _ Hne).
  unfold lockEntry in Hl. destruct (Z.eqb_spec (tk_AccessKeyID t) 0) as [|Hk]; [done|]. cbn [orb].
  destruct (rt_entry _ rt _ e Hinv Hl) as [Hnd He].
  pose proof (completeRules_exact cost (tk_Rules t) e None Hc Hts Hnd ltac:(intros r Hr; apply (ro_used r), (He r Hr))) as Hex.
  destruct (fold_left _ _ _) as [e' fault]. cbn [fst] in *. subst e'. unfold lockEntry. cbn. split.
  - rewrite (proj2 (Z.eqb_neq _ _)) by done. apply lookup_insert_eq.
  - intros k Hne'. case_if; [done|]. by rewrite lookup_insert_ne.
Qed.

(** * A concrete runtime *)

Definition exKind (id rev : Z) : Kind := if id =? 1 then KindTotal else KindPeriodic.
Definition exTotal : QuotaRule := mkQuotaRule 1 1 KindTotal 1000 0.
Definition exHourly : QuotaRule := mkQuotaRule 2 1 KindPeriodic 100 3600.
Definition exDefs : gmap Z (list QuotaRule) := {[7 := [exHourly; exTotal]]}.

Definition exRuntime : Runtime := match Reconcile NewRuntime exDefs with Ok rt => rt | Err _ => NewRuntime end.
Definition exNow : Z := unixEpoch + 500 * second.
Definition exAdmitted : Runtime := (Admit exRuntime 7 exNow).1.1.
Definition exTicket : Ticket := (Admit exRuntime 7 exNow).1.2.
Definition exCharged : Runtime := (Complete exAdmitted exTicket 120).1.

Lemma exRuntime_reach : quota_reach exKind exRuntime [].
Proof.
  eapply (qr_reconcile exKind NewRuntime [] exDefs); [apply qr_new| |reflexivity].
  intros k rules d Hk Hd. unfold exDefs in Hk. apply lookup_singleton_Some in Hk as [<- <-]. rewrite !elem_of_cons, elem_of_nil in Hd.
  destruct Hd as [->|[->|[]]]; reflexivity.
Qed.

Lemma exAdmitted_reach : quota_reach exKind exAdmitted [exTicket].
Proof. apply (qr_admit exKind exRuntime [] 7 exNow); [apply exRuntime_reach|vm_compute; discriminate]. Qed.

Lemma exCharged_reach : quota_reach exKind exCharged [exTicket].
Proof.
  apply (qr_complete exKind exAdmitted [exTicket] exTicket 120); [apply exAdmitted_reach|constructor|split; vm_compute; discriminate].
Qed.

Lemma completion_exact_witness :
  lockEntry exCharged 7 =
  Some [mkRuntimeRule exTotal 120 None None 0 2 true; mkRuntimeRule exHourly 120 (Some 500000) (Some 4100000) 1 3 true].
Proof.
  destruct (completion_exact exKind exAdmitted [exTicket] exTicket 120
    [mkRuntimeRule exTotal 0 None None 0 1 false; mkRuntimeRule exHourly 0 (Some 500000) (Some 4100000) 1 2 true]) as [H _].
  - apply exAdmitted_reach.
  - constructor.
  - split; vm_compute; discriminate.
  - vm_compute; reflexivity.
  - vm_compute; discriminate.
  - transitivity (lockEntry (Complete exAdmitted exTicket 120).1 (tk_AccessKeyID exTicket)); [reflexivity|]. rewrite H. vm_compute. reflexivity.
Defined.

(** The hourly limit is used up until its window ends. *)
Lemma quota_decision_witness :
  d_NextAvailableAtMS (Check exCharged 7 exNow) = Some 4100000
  /\ exists n, d_NextAvailableAtMS (Check exCharged 7 exNow) = Some n /\ unixMilli exNow < n.
Proof.
  split; [vm_compute; reflexivity|].
  destruct (lockEntry exCharged 7) as [e|] eqn:El; [|vm_compute in El; discriminate El].
  destruct (quota_decision exKind exCharged [exTicket] 7 exNow e exCharged_reach El) as (_ & _ & _ & H).
  destruct H as (n & Hn & Hlt & _); [vm_compute; reflexivity|vm_compute; reflexivity|]. exists n. split; [exact Hn|exact Hlt].
Defined.
