(* ===== verification/QuotaCheckpoint.v ===== *)
(** Durable quota state: restarting from persisted snapshots ([Restore], [Reconcile]) and the
    checkpoint loop of the request log ([internal/requestlog/worker.go],
    [flushAccessQuotaCheckpoints]) running beside admissions and completions.

    The tables of the rules and of their states, the conditional writer
    ([access_quota_checkpoint.go]), the changes the administration makes to one rule
    ([internal/control/access_key_cost_limits.go]) and the loading of the states
    ([internal/state/loader/loader.go]) are modelled too. *)
From S2P Require Import Prelude AccessQuota AccessQuotaInv AccessQuotaProps.

Local Open Scope Z_scope.
Local Open Scope go_scope.

Lemma fmap_of_bind {A B C} (f : B -> C) (g : A -> list B) (l : list A) : f <$> (l ≫= g) = l ≫= fun x => f <$> g x.
Proof. induction l as [|x l IH]; [done|]. cbn. by rewrite fmap_app, <- IH. Qed.

(** * Restart *)

Definition allStates (rt : Runtime) : list RestoredState :=
  mentries (entries rt) ≫= fun p => restoredState p.1 <$> p.2.

Definition entryStates (k : Z) (e : list runtimeRule) : list RestoredState := restoredState k <$> e.

Lemma elem_allStates rt s : s ∈ allStates rt <-> exists k e r, entries rt !! k = Some e /\ r ∈ e /\ s = restoredState k r.
Proof.
  unfold allStates. rewrite list_elem_of_bind. split.
  - intros ([k e] & (r & -> & Hr)%list_elem_of_fmap & Hin%elem_of_map_to_list). eauto 6.
  - intros (k & e & r & He & Hr & ->). exists (k, e). split; [by apply list_elem_of_fmap_2|by apply elem_of_map_to_list].
Qed.

(** A rule ID occurs in one place only. *)
Lemma rule_unique rt k1 k2 e1 e2 r1 r2 :
  rt_ok rt -> entries rt !! k1 = Some e1 -> entries rt !! k2 = Some e2 -> r1 ∈ e1 -> r2 ∈ e2 ->
  qr_ID (definition r1) = qr_ID (definition r2) -> k1 = k2 /\ e1 = e2 /\ r1 = r2.
Proof.
  intros Hok H1 H2 Hr1 Hr2 E. pose proof (rt_defs_ok rt Hok) as Hd.
  assert (forall k e, entries rt !! k = Some e -> definitionsOf rt !! k = Some (entryDefs e)) as Hl
    by (intros k e He; unfold definitionsOf; by rewrite lookup_fmap, He).
  assert (forall (e : list runtimeRule) r, r ∈ e -> qr_ID (definition r) ∈ idsOf (entryDefs e)) as Hin.
  { intros e r Hr. unfold idsOf, entryDefs. rewrite <- list_fmap_compose. by apply (list_elem_of_fmap_2 (qr_ID ∘ definition)). }
  assert (k1 = k2) as <- by (eapply (do_unique _ Hd); [by apply Hl|by apply Hl|by apply Hin|rewrite E; by apply Hin]).
  rewrite H1 in H2. injection H2 as <-. split; [done|]. split; [done|].
  destruct (do_key _ Hd k1 _ (Hl _ _ H1)) as (_ & _ & _ & Hnd & _). by eapply entry_ids_unique.
Qed.

Lemma restoredState_valid rt k e r :
  rt_ok rt -> entries rt !! k = Some e -> r ∈ e -> validateRestoredState (restoredState k r) = Ok tt.
Proof.
  intros Hok He Hr. destruct (rt_rules rt Hok k e r He Hr) as [(Hid & Hrev & _ & Hk) Hu Hv Hw].
  assert (k <> 0) as Hk0. { pose proof (rt_defs_ok rt Hok) as Hd. apply (do_key _ Hd k (entryDefs e)). unfold definitionsOf. by rewrite lookup_fmap, He. }
  unfold validateRestoredState. cbn.
  rewrite (proj2 (Z.eqb_neq k 0)), (proj2 (Z.eqb_neq (qr_ID _) 0)), (proj2 (Z.eqb_neq (qr_Revision _) 0)), (proj2 (Z.ltb_ge _ 0)),
    (proj2 (Z.eqb_neq (snapshotVersion r) 0)) by (done || lia). cbn.
  destruct (windowStartedAtMS r) as [st|], (windowEndsAtMS r) as [en|]; try done. destruct Hw as (Hp & _ & ? & ->). rewrite Hp in Hk.
  unfold MinPeriodSeconds in Hk. rewrite (proj2 (Z.ltb_ge st 0)), (proj2 (Z.leb_gt _ st)) by lia. done.
Qed.

(** [Restore] accepts distinct valid states and indexes them by rule. *)
Lemma collectStates_all states acc :
  Forall (fun s => validateRestoredState s = Ok tt) states -> NoDup (rs_RuleID <$> states) ->
  (forall s, s ∈ states -> acc !! rs_RuleID s = None) ->
  exists m, collectStates states acc = Ok m
    /\ forall id, m !! id = match list_find (fun s => rs_RuleID s = id) states with Some (_, s) => Some s | None => acc !! id end.
Proof.
  revert acc. induction states as [|s states IH]; intros acc Hv Hnd Hf; cbn [collectStates]; [by exists acc|].
  apply Forall_cons in Hv as [Hs Hv]. rewrite fmap_cons, NoDup_cons in Hnd. destruct Hnd as [Hn Hnd]. rewrite Hs.
  unfold mhas. rewrite bool_decide_eq_false_2 by (rewrite <- eq_None_not_Some; apply Hf; constructor).
  destruct (IH (<[rs_RuleID s := s]> acc) Hv Hnd) as (m & -> & Hm).
  - intros s' Hs'. rewrite lookup_insert_ne; [apply Hf; by constructor|]. intros E. apply Hn. rewrite E. by apply list_elem_of_fmap_2.
  - exists m. split; [done|]. intros id. rewrite Hm. cbn [list_find]. destruct (decide (rs_RuleID s = id)) as [<-|Hne].
    + destruct (list_find _ states) as [[i s']|] eqn:E; [|by rewrite lookup_insert_eq].
      apply list_find_Some in E as (Hl & E & _). destruct Hn. rewrite <- E. apply list_elem_of_fmap_2. by eapply list_elem_of_lookup_2.
    + destruct (list_find _ states) as [[i s']|]; [done|]. by rewrite lookup_insert_ne.
Qed.

(** The states still to be placed: those of the rules not in [ids]. *)
Definition dropIDs (ids : list Z) (m : gmap Z RestoredState) : gmap Z RestoredState :=
  fold_left (fun m id => delete id m) ids m.

Lemma dropIDs_lookup ids m id : dropIDs ids m !! id = if decide (id ∈ ids) then None else m !! id.
Proof.
  revert m. induction ids as [|x ids IH]; intros m; cbn [dropIDs fold_left]; [by rewrite decide_False by apply not_elem_of_nil|].
  fold (dropIDs ids (delete x m)). rewrite IH. destruct (decide (id ∈ ids)); [by rewrite decide_True by by constructor|].
  destruct (decide (id = x)) as [->|Hne]; [rewrite decide_True by constructor; apply lookup_delete_eq|].
  rewrite decide_False by set_solver. by rewrite lookup_delete_ne.
Qed.

Lemma applyRestoredState_restores k r : rule_ok r -> applyRestoredState (newRule (definition r)) (restoredState k r) = Ok (clearDirty r).
Proof.
  intros [(_ & _ & _ & Hd) Hu Hv Hw]. unfold applyRestoredState, restoredState, clearDirty. cbn.
  destruct (windowStartedAtMS r) as [st|], (windowEndsAtMS r) as [en|]; try done.
  - destruct Hw as (Hk & Hg & ? & ->). rewrite Hk in *. cbn. rewrite (proj2 (Z.eqb_neq (windowGeneration r) 0)) by lia. unfold id.
    replace (st + qr_PeriodSeconds (definition r) * 1000 - st) with (qr_PeriodSeconds (definition r) * 1000) by lia.
    by rewrite Z.eqb_refl.
  - destruct Hw as [Hg Hz]. rewrite Hg. cbn. destruct (qr_Kind (definition r)) eqn:Ek; [done| |done]. rewrite (Hz eq_refl). done.
Qed.

Lemma restoreRules_all k e m :
  (forall r, r ∈ e -> rule_ok r /\ m !! qr_ID (definition r) = Some (restoredState k r)) -> NoDup (idsOf (entryDefs e)) ->
  restoreRules k (newAccessKeyEntry (entryDefs e)) m = Ok (clearDirty <$> e, dropIDs (idsOf (entryDefs e)) m).
Proof.
  revert m. induction e as [|r e IH]; intros m Hm Hnd; [done|]. cbn -[applyRestoredState newRule].
  cbn [entryDefs idsOf fmap list_fmap] in Hnd. apply NoDup_cons in Hnd as [Hn Hnd]. destruct (Hm r ltac:(constructor)) as [Hok Hl].
  cbn [newRule definition]. rewrite Hl. cbn [restoredState rs_AccessKeyID rs_RuleRevision]. rewrite !Z.eqb_refl. cbn [negb orb].
  fold (newRule (definition r)). change (mkRestored k (qr_ID (definition r)) (qr_Revision (definition r)) (usedNanoUSD r) (windowStartedAtMS r)
    (windowEndsAtMS r) (windowGeneration r) (snapshotVersion r)) with (restoredState k r).
  rewrite applyRestoredState_restores by done. fold (entryDefs e). fold (newAccessKeyEntry (entryDefs e)). rewrite IH; [done| |done].
  intros x Hx. destruct (Hm x ltac:(by constructor)) as [? Hlx]. split; [done|]. rewrite lookup_delete_ne; [done|].
  intros E. apply Hn. rewrite E. unfold entryDefs. rewrite <- list_fmap_compose. by apply (list_elem_of_fmap_2 (qr_ID ∘ definition)).
Qed.

Definition listIDs (l : list (Z * list QuotaRule)) : list Z := l ≫= fun p => idsOf p.2.

Lemma restoreEntries_all rt l m acc :
  rt_ok rt -> NoDup l.*1 -> (forall k rules, (k, rules) ∈ l -> exists e, entries rt !! k = Some e /\ entryDefs e = rules) ->
  (forall k e r, k ∈ l.*1 -> entries rt !! k = Some e -> r ∈ e -> m !! qr_ID (definition r) = Some (restoredState k r)) ->
  exists es, restoreEntries l m acc = Ok (es, dropIDs (listIDs l) m)
    /\ built l acc es (fun k rules e' => exists e, entries rt !! k = Some e /\ e' = clearDirty <$> e).
Proof.
  intros Hok. revert m acc. induction l as [|[k rules] l IH]; intros m acc Hnd Hl Hm; cbn [restoreEntries].
  { exists acc. split; [done|]. apply built_nil. }
  rewrite fmap_cons in Hnd. apply NoDup_cons in Hnd as [Hk Hnd]. destruct (Hl k rules ltac:(constructor)) as (e & He & <-).
  assert (NoDup (idsOf (entryDefs e))) as Hids.
  { pose proof (rt_defs_ok rt Hok) as Hd. destruct (do_key _ Hd k (entryDefs e)) as (_ & _ & _ & ? & _); [|done].
    unfold definitionsOf. by rewrite lookup_fmap, He. }
  rewrite restoreRules_all; [|intros r Hr; split; [by eapply rt_rules|eapply Hm; [constructor|done|done]]|done].
  cbn [fst snd]. destruct (IH (dropIDs (idsOf (entryDefs e)) m) (<[k := clearDirty <$> e]> acc) Hnd) as (es & Hes & Hb).
  - intros k' rules' Hin. apply Hl. by constructor.
  - intros k' e' r Hk' He' Hr. rewrite dropIDs_lookup, decide_False; [eapply Hm; [by constructor|done|done]|].
    unfold idsOf, entryDefs. rewrite <- list_fmap_compose. intros (r' & E & Hr')%list_elem_of_fmap. cbn in E.
    destruct (rule_unique rt k' k e' e r r') as (-> & _); done.
  - exists es. split.
    + rewrite Hes. f_equal. f_equal. unfold listIDs. cbn. unfold dropIDs. by rewrite fold_left_app.
    + eapply built_cons; [done| |exact Hb]. by exists e.
Qed.

Definition cleanEntry (e : list runtimeRule) : list runtimeRule := clearDirty <$> e.

Lemma allStates_nodup rt : rt_ok rt -> NoDup (rs_RuleID <$> allStates rt).
Proof.
  intros Hok. unfold allStates. rewrite fmap_of_bind. apply NoDup_bind; [| |apply NoDup_map_to_list].
  - intros [k1 e1] [k2 e2] id H1%elem_of_map_to_list H2%elem_of_map_to_list (s1 & -> & (r1 & -> & Hr1)%list_elem_of_fmap)%list_elem_of_fmap
      (s2 & E & (r2 & -> & Hr2)%list_elem_of_fmap)%list_elem_of_fmap. cbn in *.
    destruct (rule_unique rt k1 k2 e1 e2 r1 r2) as (-> & -> & _); done.
  - intros [k e] He%elem_of_map_to_list. rewrite <- list_fmap_compose. pose proof (rt_defs_ok rt Hok) as Hd.
    destruct (do_key _ Hd k (entryDefs e)) as (_ & _ & _ & Hnd & _); [unfold definitionsOf; by rewrite lookup_fmap, He|].
    unfold idsOf, entryDefs in Hnd. rewrite <- list_fmap_compose in Hnd. exact Hnd.
Qed.

(** Restarting from the persisted states restores every entry, clean. *)
Lemma restart rt D states :
  rt_ok rt -> normalizeDefinitions D = Ok (definitionsOf rt) -> states ≡ₚ allStates rt ->
  exists rt1 rt2, Restore NewRuntime states = Ok rt1 /\ Reconcile rt1 D = Ok rt2
    /\ entries rt2 = cleanEntry <$> entries rt.
Proof.
  intros Hok HD Hp.
  assert (forall s, s ∈ states <-> exists k e r, entries rt !! k = Some e /\ r ∈ e /\ s = restoredState k r) as Hel
    by (intros s; rewrite Hp; apply elem_allStates).
  destruct (collectStates_all states ∅) as (m & Hm & Hml).
  - rewrite Forall_forall. intros s (k & e & r & He & Hr & ->)%Hel. by eapply restoredState_valid.
  - rewrite Hp. by apply allStates_nodup.
  - intros. apply lookup_empty.
  - assert (forall k e r, entries rt !! k = Some e -> r ∈ e -> m !! qr_ID (definition r) = Some (restoredState k r)) as Hall.
    { intros k e r He Hr. rewrite Hml. destruct (list_find _ states) as [[i s]|] eqn:E.
      - apply list_find_Some in E as (Hl & Hid & _). apply list_elem_of_lookup_2, Hel in Hl as (k' & e' & r' & He' & Hr' & ->). cbn in Hid.
        destruct (rule_unique rt k' k e' e r' r) as (-> & _ & ->); done.
      - apply list_find_None in E. rewrite Forall_forall in E. destruct (E (restoredState k r)); [|done]. apply Hel. eauto 6. }
    destruct (restoreEntries_all rt (mentries (definitionsOf rt)) m ∅ Hok) as (es & Hes & Hb).
    + apply NoDup_fst_map_to_list.
    + intros k rules Hin%elem_of_map_to_list. unfold definitionsOf in Hin. rewrite lookup_fmap in Hin.
      destruct (entries rt !! k) as [e|]; [|done]. cbn in Hin. injection Hin as <-. eauto.
    + intros k e r _ He Hr. by eapply Hall.
    + exists (mkRuntime ∅ m true 0), (mkRuntime es ∅ false 0). split_and!.
      * unfold Restore. by rewrite Hm.
      * unfold Reconcile. rewrite HD. cbn. unfold entriesFromRestore. rewrite Hes. cbn. rewrite bool_decide_eq_true_2; [done|].
        apply map_eq. intros id. rewrite dropIDs_lookup, lookup_empty. case_decide as Hin; [done|]. rewrite Hml.
        destruct (list_find _ states) as [[i s]|] eqn:E; [|apply lookup_empty]. exfalso. apply Hin.
        apply list_find_Some in E as (Hl & <- & _). apply list_elem_of_lookup_2, Hel in Hl as (k & e & r & He & Hr & ->).
        unfold listIDs. apply list_elem_of_bind. exists (k, entryDefs e). cbn. split.
        { unfold idsOf, entryDefs. rewrite <- list_fmap_compose. by apply (list_elem_of_fmap_2 (qr_ID ∘ definition)). }
        apply elem_of_map_to_list. unfold definitionsOf. by rewrite lookup_fmap, He.
      * cbn. apply map_eq. intros k. rewrite lookup_fmap. specialize (Hb k). unfold mentries in Hb. rewrite list_to_map_to_list in Hb.
        unfold definitionsOf in Hb. rewrite lookup_fmap in Hb. destruct (entries rt !! k) as [e|]; cbn in *; [|by rewrite Hb, lookup_empty].
        destruct Hb as (e' & -> & e'' & [= <-] & ->). done.
Qed.

(** * The tables *)

(** [access_key_cost_limit_rules] and [access_key_cost_limit_states]; a state is shown with the
    access key of its rule, as [queryCostLimitStates] loads it. *)
Record Tables := mkTables { tb_rules : gmap Z (Z * QuotaRule); tb_states : gmap Z RestoredState }.

Inductive checkpointPersistOutcome :=
| checkpointPersistApplied | checkpointPersistAlreadyCurrent | checkpointPersistStaleRevision | checkpointPersistRuleDeleted.

Definition invalidSnapshot (s : RestoredState) : bool :=
  (rs_AccessKeyID s =? 0) || (rs_RuleID s =? 0) || (rs_RuleRevision s =? 0) || (rs_SnapshotVersion s =? 0)
  || (rs_UsedNanoUSD s <? 0) || negb (Bool.eqb (isSome (rs_WindowStartedAtMS s)) (isSome (rs_WindowEndsAtMS s))).

Definition updatedState (s row : RestoredState) : RestoredState :=
  mkRestored (rs_AccessKeyID row) (rs_RuleID row) (rs_RuleRevision row) (rs_UsedNanoUSD s) (rs_WindowStartedAtMS s)
    (rs_WindowEndsAtMS s) (rs_WindowGeneration s) (rs_SnapshotVersion s).

(** Why the update changed no row; [None] is an error. *)
Definition classifySnapshot (t : Tables) (s : RestoredState) : option checkpointPersistOutcome :=
  match tb_rules t !! rs_RuleID s with
  | None => Some checkpointPersistRuleDeleted
  | Some (k, d) =>
      if negb (k =? rs_AccessKeyID s) then None
      else if negb (qr_Revision d =? rs_RuleRevision s) then Some checkpointPersistStaleRevision
      else match tb_states t !! rs_RuleID s with
      | None => None
      | Some row =>
          if negb (rs_RuleRevision row =? rs_RuleRevision s) then None
          else if rs_SnapshotVersion s <=? rs_SnapshotVersion row then Some checkpointPersistAlreadyCurrent else None
      end
  end.

Definition updatable (s row : RestoredState) : bool :=
  (rs_RuleRevision row =? rs_RuleRevision s) && (rs_SnapshotVersion row <? rs_SnapshotVersion s).

Definition persistAccessQuotaSnapshot (t : Tables) (s : RestoredState) : option (checkpointPersistOutcome * Tables) :=
  if invalidSnapshot s then None
  else
    match tb_states t !! rs_RuleID s with
    | Some row =>
        if updatable s row
        then Some (checkpointPersistApplied, mkTables (tb_rules t) (<[rs_RuleID s := updatedState s row]> (tb_states t)))
        else (fun o => (o, t)) <$> classifySnapshot t s
    | None => (fun o => (o, t)) <$> classifySnapshot t s
    end.

(** One transaction. *)
Fixpoint WriteSnapshots (t : Tables) (snapshots : list RestoredState) : option Tables :=
  match snapshots with
  | [] => Some t
  | s :: l => match persistAccessQuotaSnapshot t s with Some (_, t') => WriteSnapshots t' l | None => None end
  end.

(** What [internal/control/access_key_cost_limits.go] does to one rule: [createAccessKeyCostLimitRules],
    the deletion and the update of [reconcileAccessKeyCostLimitRules], and
    [resetAccessKeyCostLimitRuleState] with the next revision. *)
Definition initialState (k id revision : Z) : RestoredState := mkRestored k id revision 0 None None 0 1.

Definition putCostRule (k : Z) (d : QuotaRule) (t : Tables) : Tables :=
  mkTables (<[qr_ID d := (k, d)]> (tb_rules t)) (<[qr_ID d := initialState k (qr_ID d) (qr_Revision d)]> (tb_states t)).
Definition dropCostRule (id : Z) (t : Tables) : Tables := mkTables (delete id (tb_rules t)) (delete id (tb_states t)).
Definition limitCostRule (k : Z) (d : QuotaRule) (t : Tables) : Tables := mkTables (<[qr_ID d := (k, d)]> (tb_rules t)) (tb_states t).

(** The definitions that are loaded from the tables. *)
Definition describes (D : gmap Z (list QuotaRule)) (t : Tables) : Prop :=
  forall k d, (exists l, D !! k = Some l /\ d ∈ l) <-> tb_rules t !! qr_ID d = Some (k, d).

(** * The checkpoint loop *)

(** The runtime, the tables, the rule numbers given out so far, the batch being written, and
    whether it is stored. *)
Record Ckpt := mkCkpt {
  ck_rt : Runtime;
  ck_tables : Tables;
  ck_used : gset Z;
  ck_flight : list RestoredState;
  ck_written : bool
}.

(** [flushAccessQuotaCheckpoints] takes a batch, writes it and acknowledges its snapshots one
    by one; admissions, completions, changes of the rules and publications of the configuration
    run between any two of these actions.  A publication reconciles the runtime with the rules
    of the tables.  A write may be stored although it reports an error.  Rule numbers are never
    given out again, revisions and versions are 64-bit counters that do not run out. *)
Inductive ck_step (kindOf : Z -> Z -> Kind) : Ckpt -> Ckpt -> Prop :=
| ck_admit rt t us fl w k now :
    unixEpoch <= now -> ck_step kindOf (mkCkpt rt t us fl w) (mkCkpt (Admit rt k now).1.1 t us fl w)
| ck_complete rt t us fl w tk cost :
    is_i64 cost -> Forall (issued kindOf) (tk_Rules tk) ->
    ck_step kindOf (mkCkpt rt t us fl w) (mkCkpt (Complete rt tk cost).1 t us fl w)
| ck_begin rt t us w limit : ck_step kindOf (mkCkpt rt t us [] w) (mkCkpt rt t us (DirtySnapshots rt limit) false)
| ck_write rt t us fl t' :
    WriteSnapshots t fl = Some t' -> ck_step kindOf (mkCkpt rt t us fl false) (mkCkpt rt t' us fl true)
| ck_lost rt t us fl t' :
    WriteSnapshots t fl = Some t' -> ck_step kindOf (mkCkpt rt t us fl false) (mkCkpt rt t' us [] false)
| ck_fail rt t us fl : ck_step kindOf (mkCkpt rt t us fl false) (mkCkpt rt t us [] false)
| ck_ack rt t us s fl :
    rs_SnapshotVersion s < maxUint64 ->
    ck_step kindOf (mkCkpt rt t us (s :: fl) true)
      (mkCkpt (Ack rt (rs_AccessKeyID s) (rs_RuleID s) (rs_RuleRevision s) (rs_SnapshotVersion s)) t us fl true)
| ck_create rt t us fl w k d :
    qr_ID d ∉ us -> qr_Revision d = 1 -> respects kindOf d ->
    ck_step kindOf (mkCkpt rt t us fl w) (mkCkpt rt (putCostRule k d t) ({[qr_ID d]} ∪ us) fl w)
| ck_delete rt t us fl w id : ck_step kindOf (mkCkpt rt t us fl w) (mkCkpt rt (dropCostRule id t) us fl w)
| ck_limit rt t us fl w k d d' :
    tb_rules t !! qr_ID d = Some (k, d) -> qr_ID d' = qr_ID d -> qr_Revision d' = qr_Revision d -> qr_Kind d' = qr_Kind d ->
    qr_PeriodSeconds d' = qr_PeriodSeconds d -> ck_step kindOf (mkCkpt rt t us fl w) (mkCkpt rt (limitCostRule k d' t) us fl w)
| ck_reset rt t us fl w k d d' :
    tb_rules t !! qr_ID d = Some (k, d) -> qr_ID d' = qr_ID d -> qr_Revision d' = qr_Revision d + 1 -> respects kindOf d' ->
    ck_step kindOf (mkCkpt rt t us fl w) (mkCkpt rt (putCostRule k d' t) us fl w)
| ck_publish rt t us fl w D rt' :
    describes D t -> Reconcile rt D = Ok rt' -> ck_step kindOf (mkCkpt rt t us fl w) (mkCkpt rt' t us fl w).

(** A rule is unchanged, or dirty with a later version. *)
Definition moved (r r' : runtimeRule) : Prop :=
  definition r' = definition r
  /\ (r' = r \/ dirty r' = true /\ snapshotVersion r <= snapshotVersion r' /\ (snapshotVersion r < snapshotVersion r' \/ snapshotVersion r' = maxUint64)).

Lemma moved_refl r : moved r r.
Proof. split; [done|by left]. Qed.

Lemma moved_trans r1 r2 r3 : snapshotVersion r3 <= maxUint64 -> moved r1 r2 -> moved r2 r3 -> moved r1 r3.
Proof.
  intros Hm [Hd [->|(H1 & H2 & H3)]] [Hd' [->|(H1' & H2' & H3')]].
  - split; [congruence|by left].
  - split; [congruence|right; done].
  - split; [congruence|right; done].
  - split; [congruence|right]. split; [done|]. split; [lia|]. destruct H3', H3; lia.
Qed.

Lemma advance_moved r r0 :
  definition r0 = definition r -> snapshotVersion r0 = snapshotVersion r -> snapshotVersion r <= maxUint64 -> moved r (advanceVersion r0).
Proof.
  intros Hd Hv Hm. split; [done|right]. cbn. rewrite Hv. split; [done|].
  destruct (Z.ltb_spec (snapshotVersion r) maxUint64); lia.
Qed.

Lemma admitRule_moved now r : snapshotVersion r <= maxUint64 -> moved r (admitRule now r).
Proof. intros Hm. unfold admitRule. case_if; [apply moved_refl|]. by apply advance_moved. Qed.

Lemma chargeRule_moved cost fault r : snapshotVersion r <= maxUint64 -> moved r (chargeRule cost fault r).1.
Proof.
  intros Hm. unfold chargeRule. case_if; [apply moved_refl|].
  destruct (if cost <? 0 then _ else _) as [u f]. case_if; [apply moved_refl|]. by apply advance_moved.
Qed.

Lemma completeRule_moved cost p t :
  NoDup (idsOf (entryDefs p.1)) -> (forall r, r ∈ p.1 -> snapshotVersion r <= maxUint64) ->
  Forall2 moved p.1 (completeRule cost p t).1.
Proof.
  destruct p as [e fault]. cbn [fst]. intros Hnd Hv. unfold completeRule.
  assert (Forall2 moved e e) as Hrefl by (apply Forall_Forall2_diag, Forall_true, moved_refl).
  destruct (byID e (tr_RuleID t)) as [r|] eqn:Eb; [|done]. apply byID_Some in Eb as [Hr _].
  destruct (ticketMatches t r); cbn [negb]; [|done]. pose proof (chargeRule_moved cost fault r (Hv r Hr)) as Hmv.
  destruct (chargeRule cost fault r) as [r' f']. cbn [fst] in *. unfold putRule. apply Forall2_fmap_r, Forall_Forall2_diag.
  rewrite Forall_forall. intros x Hx.
  change (moved x (if qr_ID (definition x) =? qr_ID (definition r') then r' else x)).
  destruct (Z.eqb_spec (qr_ID (definition x)) (qr_ID (definition r'))) as [E|]; [|apply moved_refl].
  destruct Hmv as [Hd Hm]. rewrite Hd in E. assert (x = r) as -> by by eapply entry_ids_unique. by split.
Qed.

(** Changing every rule of one entry by [moved]. *)
Definition rt_moved (rt rt' : Runtime) : Prop := forall k, option_Forall2 (Forall2 moved) (entries rt !! k) (entries rt' !! k).

Lemma Forall2_moved_refl e : Forall2 moved e e.
Proof. apply Forall_Forall2_diag, Forall_true, moved_refl. Qed.

Lemma rt_moved_refl rt : rt_moved rt rt.
Proof. intros k. destruct (entries rt !! k); constructor. apply Forall2_moved_refl. Qed.

Lemma withEntry_moved rt k e e' states pending total :
  entries rt !! k = Some e -> Forall2 moved e e' -> rt_moved rt (mkRuntime (<[k := e']> (entries rt)) states pending total).
Proof.
  intros He Hm k'. cbn. destruct (decide (k = k')) as [<-|Hne]; [rewrite He, lookup_insert_eq; by constructor|].
  rewrite lookup_insert_ne by done. apply rt_moved_refl.
Qed.

Lemma Admit_moved kindOf rt k now : rt_inv kindOf rt -> rt_moved rt (Admit rt k now).1.1.
Proof.
  intros Hinv. unfold Admit, lockEntry. destruct (k =? 0); [apply rt_moved_refl|]. destruct (entries rt !! k) as [e|] eqn:He; [|apply rt_moved_refl].
  case_if; [apply rt_moved_refl|]. eapply withEntry_moved; [done|]. apply Forall2_fmap_r, Forall_Forall2_diag.
  rewrite Forall_forall. intros r Hr. apply admitRule_moved. destruct Hinv as [Hok _]. by apply (rt_rules rt Hok k e r).
Qed.

Lemma completeRules_moved kindOf cost ts p :
  is_i64 cost -> entry_ok kindOf p.1 -> Forall (issued kindOf) ts -> Forall2 moved p.1 (fold_left (completeRule cost) ts p).1.
Proof.
  intros Hc. revert p. induction ts as [|t ts IH]; intros p He Hts; cbn [fold_left]; [apply Forall2_moved_refl|].
  apply Forall_cons in Hts as [Ht Hts].
  pose proof (completeRule_moved cost p t (proj1 He) ltac:(intros r Hr; apply (ro_version r), (proj2 He r Hr))) as Hm1.
  destruct (completeRule_ok kindOf cost p t Hc He Ht) as [He' _]. pose proof (IH _ He' Hts) as Hm2.
  destruct (completeRules_ok kindOf cost ts _ Hc He' Hts) as [He'' _].
  set (l2 := (completeRule cost p t).1) in *. set (l3 := (fold_left (completeRule cost) ts (completeRule cost p t)).1) in *.
  assert (forall x, x ∈ l3 -> snapshotVersion x <= maxUint64) as Hb by (intros x Hx; apply (ro_version x), (proj2 He'' x Hx)).
  clearbody l2 l3. clear - Hm1 Hm2 Hb. revert l3 Hm2 Hb. induction Hm1 as [|x y l l' Hxy _ IH]; intros l3 Hm2 Hb.
  { apply Forall2_nil_inv_l in Hm2 as ->. constructor. }
  apply Forall2_cons_inv_l in Hm2 as (z & l3' & Hyz & Hl & ->). constructor.
  - eapply moved_trans; [|done|done]. apply Hb. constructor.
  - apply IH; [done|]. intros w Hw. apply Hb. by constructor.
Qed.

Lemma Complete_moved kindOf rt t cost :
  is_i64 cost -> Forall (issued kindOf) (tk_Rules t) -> rt_inv kindOf rt -> rt_moved rt (Complete rt t cost).1.
Proof.
  intros Hc Ht Hinv. unfold Complete, lockEntry. case_if; [apply rt_moved_refl|]. destruct (tk_AccessKeyID t =? 0); [apply rt_moved_refl|].
  destruct (entries rt !! tk_AccessKeyID t) as [e|] eqn:He; [|apply rt_moved_refl].
  pose proof (completeRules_moved kindOf cost (tk_Rules t) (e, None) Hc (rt_entry _ _ _ _ Hinv He) Ht) as Hm.
  destruct (fold_left _ _ _) as [e' f]. cbn [fst] in *. by eapply withEntry_moved.
Qed.

(** * No update is lost *)

(** A row is the rule's state, or an earlier one of a rule that is dirty. *)
Definition behind (k : Z) (r : runtimeRule) (row : RestoredState) : Prop :=
  rs_SnapshotVersion row <= snapshotVersion r
  /\ (dirty r = false \/ rs_SnapshotVersion row = snapshotVersion r /\ snapshotVersion r < maxUint64 -> row = restoredState k r).

(** A batched snapshot is its rule's current state unless the rule has moved on to a later version. *)
Definition snapshot_of (rt : Runtime) (s : RestoredState) : Prop :=
  exists e r, entries rt !! rs_AccessKeyID s = Some e /\ r ∈ e /\ qr_ID (definition r) = rs_RuleID s
    /\ qr_Revision (definition r) = rs_RuleRevision s /\ rs_SnapshotVersion s <= snapshotVersion r
    /\ (rs_SnapshotVersion s = snapshotVersion r -> snapshotVersion r < maxUint64 -> s = restoredState (rs_AccessKeyID s) r).

Record table_ok (kindOf : Z -> Z -> Kind) (used : gset Z) (t : Tables) : Prop := {
  to_rules : forall id k d, tb_rules t !! id = Some (k, d) -> qr_ID d = id /\ id ∈ used /\ respects kindOf d
    /\ exists row, tb_states t !! id = Some row /\ rs_AccessKeyID row = k /\ rs_RuleID row = id /\ rs_RuleRevision row = qr_Revision d;
  to_states : forall id row, tb_states t !! id = Some row -> is_Some (tb_rules t !! id)
}.

(** The rules of the runtime may lag behind those of the tables.  [cr_live]: those at the
    revision of the table have their row behind them; [cr_fresh]: a revision the runtime does not
    have yet is unused. *)
Record ck_ok (kindOf : Z -> Z -> Kind) (c : Ckpt) : Prop := {
  ci_inv : rt_inv kindOf (ck_rt c);
  ci_ready : restorePending (ck_rt c) = false;
  ci_table : table_ok kindOf (ck_used c) (ck_tables c);
  ci_live : forall k e r, entries (ck_rt c) !! k = Some e -> r ∈ e ->
    qr_ID (definition r) ∈ ck_used c
    /\ forall k' d, tb_rules (ck_tables c) !! qr_ID (definition r) = Some (k', d) ->
         k' = k /\ qr_Revision (definition r) <= qr_Revision d
         /\ (qr_Revision (definition r) = qr_Revision d -> forall row, tb_states (ck_tables c) !! qr_ID (definition r) = Some row -> behind k r row);
  ci_fresh : forall id k d, tb_rules (ck_tables c) !! id = Some (k, d) ->
    (forall e r, entries (ck_rt c) !! k = Some e -> r ∈ e -> qr_ID (definition r) = id -> qr_Revision (definition r) <> qr_Revision d) ->
    tb_states (ck_tables c) !! id = Some (initialState k id (qr_Revision d));
  ci_flight : forall s, s ∈ ck_flight c ->
    rs_RuleID s ∈ ck_used c
    /\ forall k d, tb_rules (ck_tables c) !! rs_RuleID s = Some (k, d) ->
         rs_AccessKeyID s = k /\ rs_RuleRevision s <= qr_Revision d
         /\ (rs_RuleRevision s = qr_Revision d -> snapshot_of (ck_rt c) s);
  ci_written : ck_written c = true -> forall s k d row, s ∈ ck_flight c -> tb_rules (ck_tables c) !! rs_RuleID s = Some (k, d) ->
    rs_RuleRevision s = qr_Revision d -> tb_states (ck_tables c) !! rs_RuleID s = Some row -> rs_SnapshotVersion s <= rs_SnapshotVersion row
}.

Lemma behind_moved k r r' row : moved r r' -> behind k r row -> behind k r' row.
Proof.
  intros [Hd [->|(Hdirty & Hv & Hs)]] [Hle Heq]; [done|]. split; [lia|]. intros [?|[E Hlt]]; [congruence|]. destruct Hs; lia.
Qed.

(** Where a rule of a moved runtime comes from, and what becomes of one. *)
Lemma moved_from rt rt' k e' r' : rt_moved rt rt' -> entries rt' !! k = Some e' -> r' ∈ e' ->
  exists e r, entries rt !! k = Some e /\ r ∈ e /\ moved r r'.
Proof.
  intros Hm He' [i Hi]%list_elem_of_lookup. specialize (Hm k). rewrite He' in Hm. inversion Hm as [e e'' Hall Ee|]; subst.
  destruct (Forall2_lookup_r _ _ _ _ _ Hall Hi) as (r & Hr & ?). exists e, r. split; [done|]. split; [by eapply list_elem_of_lookup_2|done].
Qed.

Lemma moved_to rt rt' k e r : rt_moved rt rt' -> entries rt !! k = Some e -> r ∈ e ->
  exists e' r', entries rt' !! k = Some e' /\ r' ∈ e' /\ moved r r'.
Proof.
  intros Hm He [i Hi]%list_elem_of_lookup. specialize (Hm k). rewrite He in Hm. inversion Hm as [e0 e' Hall E0 Ee|]; subst.
  destruct (Forall2_lookup_l _ _ _ _ _ Hall Hi) as (r' & Hr & ?). exists e', r'. split; [done|]. split; [by eapply list_elem_of_lookup_2|done].
Qed.

(** Admissions and completions keep the invariant. *)
Lemma moved_ok kindOf rt rt' t us fl w :
  rt_inv kindOf rt' -> rt_moved rt rt' -> restorePending rt' = restorePending rt ->
  ck_ok kindOf (mkCkpt rt t us fl w) -> ck_ok kindOf (mkCkpt rt' t us fl w).
Proof.
  intros Hinv Hm Hp [Hi Hre Ht Hl Hfr Hf Hw]. cbn in *. split; cbn; [done|congruence|done| | | |done].
  - intros k e' r' He' Hr'. destruct (moved_from _ _ _ _ _ Hm He' Hr') as (e & r & He & Hr & Hmv). rewrite (proj1 Hmv).
    destruct (Hl k e r He Hr) as [Hu Hrest]. split; [done|]. intros k' d Hd. destruct (Hrest k' d Hd) as (? & ? & Hb). split_and!; [done|done|].
    intros E row Hrow. eapply behind_moved; [done|by apply Hb].
  - intros id k d Hd Hno. apply Hfr; [done|]. intros e r He Hr Hid. destruct (moved_to _ _ _ _ _ Hm He Hr) as (e' & r' & He' & Hr' & Hmv).
    rewrite <- (proj1 Hmv). apply (Hno e' r'); [done|done|]. by rewrite (proj1 Hmv).
  - intros s Hs. destruct (Hf s Hs) as [Hu Hrest]. split; [done|]. intros k d Hd. destruct (Hrest k d Hd) as (? & ? & Hsn). split_and!; [done|done|].
    intros E. destruct (Hsn E) as (e & r & He & Hr & Hid & Hrev & Hle & Heq). destruct (moved_to _ _ _ _ _ Hm He Hr) as (e' & r' & He' & Hr' & Hmv).
    exists e', r'. rewrite (proj1 Hmv). split_and!; [done|done|done|done| |].
    + destruct Hmv as [_ [->|(_ & ? & _)]]; lia.
    + destruct Hmv as [_ [->|(_ & Hv & Hs')]]; [done|]. intros E' Hlt. destruct Hs'; lia.
Qed.

Lemma elem_DirtySnapshots rt limit s :
  s ∈ DirtySnapshots rt limit -> exists k e r, lockEntry rt k = Some e /\ r ∈ e /\ dirty r = true /\ s = restoredState k r.
Proof.
  unfold DirtySnapshots. case_if; [by intros ?%elem_of_nil|]. intros Hs.
  assert (s ∈ (merge_sort Z.le (mentries (entries rt)).*1 ≫= fun id => match lockEntry rt id with None => []
    | Some entry => restoredState id <$> filter (fun r => dirty r = true) entry end)) as Hin.
  { case_if_in Hs; [|done]. apply elem_of_take in Hs as (i & Hi & _). by eapply list_elem_of_lookup_2. }
  apply list_elem_of_bind in Hin as (k & Hk & _). destruct (lockEntry rt k) as [e|] eqn:El; [|by apply elem_of_nil in Hk].
  apply list_elem_of_fmap in Hk as (r & -> & [Hd Hr]%list_elem_of_filter). eauto 7.
Qed.

Lemma lockEntry_entries rt k e : lockEntry rt k = Some e -> entries rt !! k = Some e.
Proof. unfold lockEntry. by destruct (k =? 0). Qed.

(** ** Writing a batch *)

(** The rows only go forward. *)
Definition laterTables (t t' : Tables) : Prop :=
  tb_rules t' = tb_rules t
  /\ forall id row, tb_states t !! id = Some row ->
       exists row', tb_states t' !! id = Some row' /\ rs_SnapshotVersion row <= rs_SnapshotVersion row'.

Lemma laterTables_refl t : laterTables t t.
Proof. split; [done|]. intros id row Hr. by exists row. Qed.

Lemma laterTables_trans t1 t2 t3 : laterTables t1 t2 -> laterTables t2 t3 -> laterTables t1 t3.
Proof.
  intros [E1 H1] [E2 H2]. split; [congruence|]. intros id row (row1 & Hr1 & ?)%H1. destruct (H2 _ _ Hr1) as (row2 & ? & ?).
  exists row2. split; [done|lia].
Qed.

(** The row of a current snapshot is at least as recent. *)
Definition covered (t : Tables) (s : RestoredState) : Prop :=
  forall k d row, tb_rules t !! rs_RuleID s = Some (k, d) -> rs_RuleRevision s = qr_Revision d ->
  tb_states t !! rs_RuleID s = Some row -> rs_SnapshotVersion s <= rs_SnapshotVersion row.

Lemma covered_later t t' s kindOf us : table_ok kindOf us t -> laterTables t t' -> covered t s -> covered t' s.
Proof.
  intros Ht [E Hf] Hc k d row' Hd Hrev Hrow'. rewrite E in Hd. destruct (to_rules _ _ _ Ht _ _ _ Hd) as (_ & _ & _ & row & Hrow & _).
  pose proof (Hc k d row Hd Hrev Hrow). destruct (Hf _ _ Hrow) as (row2 & H2 & ?). rewrite Hrow' in H2. injection H2 as <-. lia.
Qed.

Lemma quota_persist_ok kindOf rt t us fl s o t' :
  ck_ok kindOf (mkCkpt rt t us fl false) -> s ∈ fl -> persistAccessQuotaSnapshot t s = Some (o, t') ->
  ck_ok kindOf (mkCkpt rt t' us fl false) /\ laterTables t t' /\ covered t' s.
Proof.
  intros Hck Hs. pose proof Hck as [Hi Hre Ht Hl Hfr Hf _]. cbn in *. unfold persistAccessQuotaSnapshot. destruct (invalidSnapshot s); [done|].
  assert ((forall row, tb_states t !! rs_RuleID s = Some row -> updatable s row = false) ->
    ((fun o => (o, t)) <$> classifySnapshot t s) = Some (o, t') ->
    ck_ok kindOf (mkCkpt rt t' us fl false) /\ laterTables t t' /\ covered t' s) as Hkeep.
  { intros Hno (o' & _ & [= <- <-])%fmap_Some. split; [done|]. split; [apply laterTables_refl|]. intros k d row Hd Hrev Hrow.
    destruct (to_rules _ _ _ Ht _ _ _ Hd) as (_ & _ & _ & row' & Hrow' & _ & _ & Hr'). rewrite Hrow in Hrow'. injection Hrow' as <-.
    specialize (Hno row Hrow). unfold updatable in Hno. rewrite Hr', <- Hrev, Z.eqb_refl in Hno. cbn in Hno. lia. }
  destruct (tb_states t !! rs_RuleID s) as [row|] eqn:Erow; [|intros Hc; by apply Hkeep].
  destruct (updatable s row) eqn:Eup; [|intros Hc; apply Hkeep; [by intros ? [= <-]|done]]. clear Hkeep. intros [= <- <-].
  unfold updatable in Eup. apply andb_true_iff in Eup as [Erev%Z.eqb_eq Ever%Z.ltb_lt].
  destruct (to_states _ _ _ Ht _ _ Erow) as [[k d] Hd]. destruct (to_rules _ _ _ Ht _ _ _ Hd) as (_ & _ & _ & row' & Hrow' & Hk & Hid & Hr').
  rewrite Erow in Hrow'. injection Hrow' as <-. destruct (Hf s Hs) as [Hu Hcur]. destruct (Hcur k d Hd) as (Hks & _ & Hsn).
  destruct (Hsn ltac:(congruence)) as (e & r & He & Hr & Hrid & Hrrev & Hle & Heq).
  assert (updatedState s row = s) as Es by (unfold updatedState; rewrite Hk, Hid, Erev, <- Hks; by destruct s). rewrite Es. clear Es.
  assert (forall k' e' r', entries rt !! k' = Some e' -> r' ∈ e' -> qr_ID (definition r') = rs_RuleID s -> k' = k /\ r' = r) as Huniq.
  { intros k' e' r' He' Hr1 E. destruct (rule_unique rt k' (rs_AccessKeyID s) e' e r' r (proj1 Hi) He' He Hr1 Hr ltac:(congruence)) as (-> & _ & ->).
    by split. }
  split; [|split].
  - split; cbn; [done|done| | | | |done].
    + split; cbn.
      * intros id k' d' Hd'. destruct (to_rules _ _ _ Ht _ _ _ Hd') as (H1 & H2 & H3 & row1 & Hrow1 & H4). split_and!; [done|done|done|].
        destruct (decide (rs_RuleID s = id)) as [<-|Hne]; [|exists row1; by rewrite lookup_insert_ne].
        exists s. rewrite lookup_insert_eq. rewrite Hd in Hd'. injection Hd' as <- <-. split_and!; congruence.
      * intros id row1 [[<- <-]|[_ ?]]%lookup_insert_Some; [by eexists|by eapply (to_states _ _ _ Ht)].
    + intros k' e' r' He' Hr1. destruct (Hl k' e' r' He' Hr1) as [Hu' Hrest]. split; [done|]. intros k2 d2 Hd2.
      destruct (Hrest k2 d2 Hd2) as (H1 & H2 & Hb). split_and!; [done|done|]. intros E row1.
      destruct (decide (rs_RuleID s = qr_ID (definition r'))) as [Heqid|Hne]; [|rewrite lookup_insert_ne by done; by apply Hb].
      rewrite <- Heqid, lookup_insert_eq. intros [= <-]. destruct (Huniq k' e' r' He' Hr1 ltac:(congruence)) as [-> ->].
      rewrite <- Heqid in Hb. destruct (Hb E row Erow) as [Hb1 Hb2]. split; [done|]. intros [Hcl|[Ev Hlt]].
      * rewrite (Hb2 (or_introl Hcl)) in Ever. cbn in Ever. lia.
      * rewrite <- Hks. by apply Heq.
    + intros id k' d' Hd' Hno. destruct (decide (rs_RuleID s = id)) as [<-|Hne]; [|rewrite lookup_insert_ne by done; by apply Hfr].
      exfalso. rewrite Hd in Hd'. injection Hd' as <- <-. apply (Hno e r); [by rewrite <- Hks|done|done|]. congruence.
    + intros s' Hs'. by apply Hf.
  - split; [done|]. cbn. intros id row1 Hrow1. destruct (decide (rs_RuleID s = id)) as [<-|Hne].
    + exists s. rewrite lookup_insert_eq. rewrite Erow in Hrow1. injection Hrow1 as <-. split; [done|lia].
    + exists row1. by rewrite lookup_insert_ne.
  - intros k' d' row1 _ _. cbn. rewrite lookup_insert_eq. by intros [= <-].
Qed.

Lemma quota_write_ok kindOf rt t us fl l t' :
  ck_ok kindOf (mkCkpt rt t us fl false) -> l ⊆ fl -> WriteSnapshots t l = Some t' ->
  ck_ok kindOf (mkCkpt rt t' us fl false) /\ laterTables t t' /\ Forall (covered t') l.
Proof.
  revert t. induction l as [|s l IH]; intros t Hck Hl Hw; cbn in Hw.
  { injection Hw as <-. split; [done|]. split; [apply laterTables_refl|constructor]. }
  destruct (persistAccessQuotaSnapshot t s) as [[o t1]|] eqn:Ep; [|done].
  destruct (quota_persist_ok _ _ _ _ _ _ _ _ Hck ltac:(apply Hl; constructor) Ep) as (Hck1 & Hf1 & Hc1).
  destruct (IH t1 Hck1 ltac:(set_solver) Hw) as (Hck2 & Hf2 & Hc2). split; [done|]. split; [by eapply laterTables_trans|].
  constructor; [|done]. eapply covered_later; [exact (ci_table _ _ Hck1)|done|done].
Qed.

(** ** Acknowledging *)

(** Acknowledging a snapshot clears its rule only if the rule is as it was stored. *)
Lemma ack_ok kindOf rt t us s fl :
  rs_SnapshotVersion s < maxUint64 -> ck_ok kindOf (mkCkpt rt t us (s :: fl) true) ->
  ck_ok kindOf (mkCkpt (Ack rt (rs_AccessKeyID s) (rs_RuleID s) (rs_RuleRevision s) (rs_SnapshotVersion s)) t us fl true).
Proof.
  intros Hmax Hck. pose proof Hck as [Hi Hre Ht Hl Hfr Hf Hw]. cbn in *.
  pose proof (Ack_inv kindOf rt (rs_AccessKeyID s) (rs_RuleID s) (rs_RuleRevision s) (rs_SnapshotVersion s) Hi) as Hinv'.
  assert (forall s', s' ∈ fl -> s' ∈ s :: fl) as Hsub by (intros; by constructor).
  assert (ck_ok kindOf (mkCkpt rt t us fl true)) as Hsame.
  { split; cbn; [done|done|done|exact Hl|exact Hfr|intros s' Hs'; by apply Hf, Hsub|].
    intros Hwr s' k d row Hs'. exact (Hw Hwr s' k d row (Hsub s' Hs')). }
  unfold Ack, lockEntry in *. destruct (rs_AccessKeyID s =? 0); [done|].
  destruct (entries rt !! rs_AccessKeyID s) as [e|] eqn:He; [|done]. destruct (byID e (rs_RuleID s)) as [r|] eqn:Eb; [|done].
  apply byID_Some in Eb as [Hr Hid]. destruct (Z.eqb_spec (qr_Revision (definition r)) (rs_RuleRevision s)) as [Erev|]; cbn [negb orb]; [|done].
  destruct (Z.eqb_spec (snapshotVersion r) (rs_SnapshotVersion s)) as [Ev|]; cbn [negb] in *; [|done]. cbn [negb orb] in Hinv'.
  destruct Hsame as [_ _ _ _ _ Hf' Hw']. cbn in Hf', Hw'. unfold withEntry in *.
  assert (NoDup (idsOf (entryDefs e))) as Hnd by (by destruct (rt_entry kindOf rt _ e Hi He)).
  assert (forall k' e' r', entries (mkRuntime (<[rs_AccessKeyID s := putRule (clearDirty r) e]> (entries rt)) (restored rt) (restorePending rt) (overflowFaultTotal rt)) !! k' = Some e' ->
    r' ∈ e' -> exists e0 r0, entries rt !! k' = Some e0 /\ r0 ∈ e0 /\ (r' = r0 \/ r0 = r /\ k' = rs_AccessKeyID s /\ r' = clearDirty r)) as Hfrom.
  { cbn. intros k' e' r' [[<- <-]|[_ He']]%lookup_insert_Some Hr'; [|by exists e', r'; auto].
    apply putRule_elem in Hr' as [->|Hr']; [exists e, r; split; [done|]; split; [done|]; by right|exists e, r'; split; [done|]; split; [done|]; by left]. }
  assert (forall k' e0 r0, entries rt !! k' = Some e0 -> r0 ∈ e0 -> exists e' r', (<[rs_AccessKeyID s := putRule (clearDirty r) e]> (entries rt)) !! k' = Some e'
    /\ r' ∈ e' /\ definition r' = definition r0 /\ snapshotVersion r' = snapshotVersion r0 /\ forall k, restoredState k r' = restoredState k r0) as Hto.
  { intros k' e0 r0 He0 Hr0. destruct (decide (rs_AccessKeyID s = k')) as [<-|Hne]; [|exists e0, r0; by rewrite lookup_insert_ne].
    rewrite He in He0. injection He0 as <-. exists (putRule (clearDirty r) e), (if qr_ID (definition r0) =? qr_ID (definition (clearDirty r)) then clearDirty r else r0).
    rewrite lookup_insert_eq. split; [done|]. split; [by apply (list_elem_of_fmap_2 (fun x => if qr_ID (definition x) =? qr_ID (definition (clearDirty r)) then clearDirty r else x))|].
    destruct (Z.eqb_spec (qr_ID (definition r0)) (qr_ID (definition (clearDirty r)))) as [E|]; [|done].
    cbn in E. assert (r0 = r) as -> by by eapply entry_ids_unique. done. }
  split; cbn; [done|done|done| | | |done].
  - intros k' e' r' He' Hr'. destruct (Hfrom k' e' r' He' Hr') as (e0 & r0 & He0 & Hr0 & [->|(-> & -> & ->)]); [by eapply Hl|].
    destruct (Hl _ _ _ He0 Hr0) as [Hu Hrest]. cbn. split; [done|]. intros k d Hd. destruct (Hrest k d Hd) as (H1 & H2 & Hb). split_and!; [done|done|].
    intros E row Hrow. destruct (Hb E row Hrow) as [Hb1 Hb2]. split; [done|]. intros _.
    rewrite Hid in Hd, Hrow. pose proof (Hw eq_refl s k d row ltac:(constructor) Hd ltac:(congruence) Hrow).
    change (row = restoredState (rs_AccessKeyID s) r). apply Hb2. right. lia.
  - intros id k d Hd Hno. apply Hfr; [done|]. intros e0 r0 He0 Hr0 Hid0. destruct (Hto _ _ _ He0 Hr0) as (e' & r' & He' & Hr' & Hdef & _).
    rewrite <- Hdef. apply (Hno e' r'); [done|done|congruence].
  - intros s' Hs'. destruct (Hf' s' Hs') as [Hu Hrest]. split; [done|]. intros k d Hd. destruct (Hrest k d Hd) as (H1 & H2 & Hsn). split_and!; [done|done|].
    intros E. destruct (Hsn E) as (e0 & r0 & He0 & Hr0 & Hid0 & Hrev0 & Hle0 & Heq0). destruct (Hto _ _ _ He0 Hr0) as (e' & r' & He' & Hr' & Hdef & Hver & Hst).
    exists e', r'. cbn. rewrite Hdef, Hver, Hst. done.
Qed.

(** ** Changing the rules *)

Lemma create_ok kindOf rt t us fl w k d :
  qr_ID d ∉ us -> qr_Revision d = 1 -> respects kindOf d ->
  ck_ok kindOf (mkCkpt rt t us fl w) -> ck_ok kindOf (mkCkpt rt (putCostRule k d t) ({[qr_ID d]} ∪ us) fl w).
Proof.
  intros Hnew Hrev Hresp [Hi Hre Ht Hl Hfr Hf Hw]. cbn in *.
  assert (forall id, id ∈ us -> qr_ID d <> id /\ id ∈ {[qr_ID d]} ∪ us) as Hold
    by (intros id Hin; split; [by intros <-|apply elem_of_union; by right]).
  split; cbn; [done|done| | | | |].
  - split; cbn.
    + intros id k' d' [[<- [= <- <-]]|[Hne Hd']]%lookup_insert_Some.
      * split_and!; [done|apply elem_of_union; left; by apply elem_of_singleton|done|]. exists (initialState k (qr_ID d) (qr_Revision d)). by rewrite lookup_insert_eq.
      * destruct (to_rules _ _ _ Ht _ _ _ Hd') as (H1 & H2 & H3 & row & Hrow & H4). split_and!; [done|by apply Hold|done|].
        exists row. by rewrite lookup_insert_ne.
    + intros id row [[<- <-]|[Hne Hrow]]%lookup_insert_Some; [rewrite lookup_insert_eq; by eexists|].
      rewrite lookup_insert_ne by done. by eapply (to_states _ _ _ Ht).
  - intros k' e r He Hr. destruct (Hl k' e r He Hr) as [Hu Hrest]. destruct (Hold _ Hu) as [Hne Hin]. split; [done|]. intros k2 d2.
    rewrite !lookup_insert_ne by done. by apply Hrest.
  - intros id k' d' [[<- [= <- <-]]|[Hne Hd']]%lookup_insert_Some Hno; [by rewrite lookup_insert_eq|].
    rewrite lookup_insert_ne by done. by apply Hfr.
  - intros s Hs. destruct (Hf s Hs) as [Hu Hrest]. destruct (Hold _ Hu) as [Hne Hin]. split; [done|]. intros k2 d2. rewrite lookup_insert_ne by done. by apply Hrest.
  - intros Hwr s k2 d2 row Hs. destruct (Hf s Hs) as [Hu _]. destruct (Hold _ Hu) as [Hne _]. rewrite !lookup_insert_ne by done. by apply Hw.
Qed.

Lemma delete_ok kindOf rt t us fl w id : ck_ok kindOf (mkCkpt rt t us fl w) -> ck_ok kindOf (mkCkpt rt (dropCostRule id t) us fl w).
Proof.
  intros [Hi Hre Ht Hl Hfr Hf Hw]. cbn in *. split; cbn; [done|done| | | | |].
  - split; cbn.
    + intros id' k' d' [Hne Hd']%lookup_delete_Some. destruct (to_rules _ _ _ Ht _ _ _ Hd') as (H1 & H2 & H3 & row & Hrow & H4). split_and!; [done|done|done|].
      exists row. by rewrite lookup_delete_ne.
    + intros id' row [Hne Hrow]%lookup_delete_Some. rewrite lookup_delete_ne by done. by eapply (to_states _ _ _ Ht).
  - intros k' e r He Hr. destruct (Hl k' e r He Hr) as [Hu Hrest]. split; [done|]. intros k2 d2 [Hne Hd2]%lookup_delete_Some.
    rewrite lookup_delete_ne by done. by apply Hrest.
  - intros id' k' d' [Hne Hd']%lookup_delete_Some Hno. rewrite lookup_delete_ne by done. by apply Hfr.
  - intros s Hs. destruct (Hf s Hs) as [Hu Hrest]. split; [done|]. intros k2 d2 [_ Hd2]%lookup_delete_Some. by apply Hrest.
  - intros Hwr s k2 d2 row Hs [Hne Hd2]%lookup_delete_Some E. rewrite lookup_delete_ne by done. by apply (Hw Hwr s k2 d2).
Qed.

Lemma limit_ok kindOf rt t us fl w k d d' :
  tb_rules t !! qr_ID d = Some (k, d) -> qr_ID d' = qr_ID d -> qr_Revision d' = qr_Revision d -> qr_Kind d' = qr_Kind d ->
  ck_ok kindOf (mkCkpt rt t us fl w) -> ck_ok kindOf (mkCkpt rt (limitCostRule k d' t) us fl w).
Proof.
  intros Hd Hid Hrev Hkind [Hi Hre Ht Hl Hfr Hf Hw]. cbn in *.
  assert (forall id k2 d2, <[qr_ID d' := (k, d')]> (tb_rules t) !! id = Some (k2, d2) -> exists d1, tb_rules t !! id = Some (k2, d1)
    /\ qr_Revision d1 = qr_Revision d2 /\ (qr_ID d1 = id -> qr_ID d2 = id) /\ (respects kindOf d1 -> respects kindOf d2)) as Hback.
  { intros id k2 d2 [[<- [= <- <-]]|[_ ?]]%lookup_insert_Some; [|by exists d2]. exists d. rewrite Hid. split_and!; [done|done|done|].
    unfold respects. by rewrite Hid, Hrev, Hkind. }
  split; cbn; [done|done| | | | |].
  - split; cbn.
    + intros id k2 d2 (d1 & H1 & Er & Eid & Hres)%Hback. destruct (to_rules _ _ _ Ht _ _ _ H1) as (G1 & G2 & G3 & row & Hrow & G4 & G5 & G6).
      split_and!; [by apply Eid|done|by apply Hres|]. exists row. split_and!; [done|done|done|congruence].
    + intros id row Hrow. destruct (decide (qr_ID d' = id)) as [<-|]; [rewrite lookup_insert_eq; by eexists|].
      rewrite lookup_insert_ne by done. by eapply (to_states _ _ _ Ht).
  - intros k' e r He Hr. destruct (Hl k' e r He Hr) as [Hu Hrest]. split; [done|]. intros k2 d2 (d1 & H1 & Er & _)%Hback. rewrite <- Er. by apply Hrest.
  - intros id k2 d2 (d1 & H1 & Er & _)%Hback. rewrite <- Er. by apply Hfr.
  - intros s Hs. destruct (Hf s Hs) as [Hu Hrest]. split; [done|]. intros k2 d2 (d1 & H1 & Er & _)%Hback. rewrite <- Er. by apply Hrest.
  - intros Hwr s k2 d2 row Hs (d1 & H1 & Er & _)%Hback. rewrite <- Er. by apply (Hw Hwr s k2 d1).
Qed.

Lemma quota_reset_ok kindOf rt t us fl w k d d' :
  tb_rules t !! qr_ID d = Some (k, d) -> qr_ID d' = qr_ID d -> qr_Revision d' = qr_Revision d + 1 -> respects kindOf d' ->
  ck_ok kindOf (mkCkpt rt t us fl w) -> ck_ok kindOf (mkCkpt rt (putCostRule k d' t) us fl w).
Proof.
  intros Hd Hid Hrev Hresp [Hi Hre Ht Hl Hfr Hf Hw]. cbn in *. rewrite <- Hid in Hd. split; cbn; [done|done| | | | |].
  - split; cbn.
    + intros id k' d0 [[<- [= <- <-]]|[Hne Hd']]%lookup_insert_Some.
      * destruct (to_rules _ _ _ Ht _ _ _ Hd) as (_ & H2 & _). split_and!; [done|done|done|]. eexists. by rewrite lookup_insert_eq.
      * destruct (to_rules _ _ _ Ht _ _ _ Hd') as (H1 & H2 & H3 & row & Hrow & H4). split_and!; [done|done|done|].
        exists row. by rewrite lookup_insert_ne.
    + intros id row [[<- <-]|[Hne Hrow]]%lookup_insert_Some; [rewrite lookup_insert_eq; by eexists|].
      rewrite lookup_insert_ne by done. by eapply (to_states _ _ _ Ht).
  - intros k' e r He Hr. destruct (Hl k' e r He Hr) as [Hu Hrest]. split; [done|]. intros k2 d2.
    destruct (decide (qr_ID d' = qr_ID (definition r))) as [E|Hne]; [|rewrite !lookup_insert_ne by done; by apply Hrest].
    rewrite <- E, lookup_insert_eq. intros [= <- <-]. rewrite <- E in Hrest. destruct (Hrest k d Hd) as (-> & Hle & _). split_and!; [done|lia|lia].
  - intros id k' d0 [[<- [= <- <-]]|[Hne Hd']]%lookup_insert_Some Hno; [by rewrite lookup_insert_eq|].
    rewrite lookup_insert_ne by done. by apply Hfr.
  - intros s Hs. destruct (Hf s Hs) as [Hu Hrest]. split; [done|]. intros k2 d2 [[E [= <- <-]]|[_ Hd2]]%lookup_insert_Some; [|by apply Hrest].
    rewrite <- E in Hrest. destruct (Hrest k d Hd) as (H1 & Hle & _). split_and!; [done|lia|lia].
  - intros Hwr s k2 d2 row Hs [[E [= <- <-]]|[Hne Hd2]]%lookup_insert_Some Er.
    + exfalso. destruct (Hf s Hs) as [_ Hrest]. rewrite <- E in Hrest. destruct (Hrest k d Hd) as (_ & Hle & _). lia.
    + rewrite lookup_insert_ne by done. by apply (Hw Hwr s k2 d2).
Qed.

(** ** Publishing *)

Lemma normalizeFrom_contents l g acc N :
  NoDup l.*1 -> (forall k, k ∈ l.*1 -> acc !! k = None) -> normalizeFrom l g acc = Ok N ->
  forall k d, (exists rules, N !! k = Some rules /\ d ∈ rules)
    <-> (exists rules, (k, rules) ∈ l /\ d ∈ rules) \/ exists rules, acc !! k = Some rules /\ d ∈ rules.
Proof.
  revert g acc. induction l as [|[k0 source] l IH]; intros g acc Hnd Hfresh H k d; cbn [normalizeFrom] in H.
  { injection H as <-. split; [by right|]. intros [(rules & ?%elem_of_nil & _)|?]; done. }
  case_if_in H; [done|]. rewrite fmap_cons in Hnd. apply NoDup_cons in Hnd as [Hk Hnd].
  destruct source as [|d0 source].
  - rewrite (IH g acc Hnd ltac:(intros; apply Hfresh; by constructor) H k d). split; [intros [(rules & ? & ?)|?]; [left; exists rules; split; [by constructor|done]|by right]|].
    intros [(rules & [[= -> ->]|?]%elem_of_cons & Hd)|?]; [by apply elem_of_nil in Hd|left; eauto|by right].
  - destruct (validateRules _ _) as [g'|]; [|done]. cbn -[sortRules] in H. rewrite (IH g' _ Hnd) with (2 := H).
    2:{ intros k' Hk'. rewrite lookup_insert_ne by (intros ->; done). apply Hfresh. by constructor. }
    split.
    + intros [(rules & ? & ?)|(rules & [[<- <-]|[_ Hr]]%lookup_insert_Some & Hd)]; [left; exists rules; split; [by constructor|done]| |right; eauto].
      left. exists (d0 :: source). split; [constructor|]. by rewrite sortRules_perm in Hd.
    + intros [(rules & [[= -> ->]|?]%elem_of_cons & Hd)|(rules & Hr & Hd)]; [|left; eauto|].
      * right. exists (sortRules (d0 :: source)). rewrite lookup_insert_eq. split; [done|]. by rewrite sortRules_perm.
      * right. exists rules. rewrite lookup_insert_ne; [done|]. intros ->. rewrite Hfresh in Hr; [done|constructor].
Qed.

Lemma normalize_contents D N : normalizeDefinitions D = Ok N ->
  forall k d, (exists rules, N !! k = Some rules /\ d ∈ rules) <-> exists rules, D !! k = Some rules /\ d ∈ rules.
Proof.
  intros H k d. rewrite (normalizeFrom_contents _ _ _ _ (NoDup_fst_map_to_list D) ltac:(intros; apply lookup_empty) H k d).
  setoid_rewrite elem_of_map_to_list. split; [intros [?|(rules & Hr & _)]; [done|by rewrite lookup_empty in Hr]|by left].
Qed.

Definition carried (cur : gmap Z (list runtimeRule)) (k : Z) (rules : list QuotaRule) (e : list runtimeRule) : Prop :=
  Forall2 (fun d r => carryRule (default [] (cur !! k)) (newRule d) = Ok r) rules e.

Lemma carryRules_all cur rules e : carryRules cur (newAccessKeyEntry rules) = Ok e ->
  Forall2 (fun d r => carryRule cur (newRule d) = Ok r) rules e.
Proof.
  revert e. induction rules as [|d rules IH]; intros e H; cbn in H; [injection H as <-; constructor|].
  destruct (carryRule cur _) as [r|] eqn:E; [|done]. destruct (carryRules cur _) as [rest|] eqn:Er; [|done]. injection H as <-.
  constructor; [done|by apply IH].
Qed.

Lemma nextEntries_carried cur l next es :
  NoDup l.*1 -> Forall (fun p => p.2 <> []) l -> nextEntries cur l next = Ok es -> built l next es (carried cur).
Proof.
  revert next. induction l as [|[k rules] l IH]; intros next Hnd Hne H; cbn in H; [injection H as <-; apply built_nil|].
  cbn in Hnd. apply NoDup_cons in Hnd as [Hk Hnd]. apply Forall_cons in Hne as [Hr Hne]. destruct rules as [|d rules]; [done|].
  destruct (cur !! k) as [c|] eqn:Ec.
  - destruct (carryRules c _) as [e|] eqn:Ee; [|done]. eapply built_cons; [done| |by apply IH].
    unfold carried. rewrite Ec. by apply carryRules_all.
  - eapply built_cons; [done| |by apply IH]. unfold carried. rewrite Ec. apply Forall2_fmap_r, Forall_Forall2_diag, Forall_true. done.
Qed.

(** The rules of a reconciled runtime: the definitions, each with the state of its
    predecessor of the same revision or a new one. *)
Lemma Reconcile_carried kindOf rt D rt' : rt_inv kindOf rt -> restorePending rt = false -> Reconcile rt D = Ok rt' ->
  restorePending rt' = false
  /\ (forall k e' r', entries rt' !! k = Some e' -> r' ∈ e' -> (exists l, D !! k = Some l /\ definition r' ∈ l)
        /\ carryRule (default [] (entries rt !! k)) (newRule (definition r')) = Ok r')
  /\ forall k l d, D !! k = Some l -> d ∈ l -> exists e' r', entries rt' !! k = Some e' /\ r' ∈ e' /\ definition r' = d.
Proof.
  intros [Hok _] Hp H. unfold Reconcile in H. destruct (normalizeDefinitions D) as [N|] eqn:EN; [|done]. cbn in H. rewrite Hp in H.
  destruct (nextEntries _ _ _) as [es|] eqn:En; [|done]. injection H as <-. cbn. split; [done|].
  pose proof (normalizeDefinitions_ok D N EN) as HN. pose proof (normalize_contents D N EN) as Hc.
  assert (built (mentries N) ∅ es (carried (entries rt))) as Hb.
  { eapply nextEntries_carried; [apply NoDup_fst_map_to_list| |exact En]. apply Forall_forall. intros [k rules] Hin%elem_of_map_to_list. by apply (do_key _ HN k). }
  assert (forall cur d r, (forall x, x ∈ cur -> rule_ok x) -> carryRule cur (newRule d) = Ok r -> definition r = d) as Hdef
    by (intros cur d r Hcur Hr; by destruct (carryRule_ok cur d r Hcur Hr)).
  assert (forall k x, x ∈ default [] (entries rt !! k) -> rule_ok x) as Hcur.
  { intros k x. destruct (entries rt !! k) as [e|] eqn:He; cbn; [|by intros ?%elem_of_nil]. intros Hx. by eapply (rt_rules rt Hok). }
  split.
  - intros k e' r' He' Hr'. specialize (Hb k). unfold mentries in Hb. rewrite list_to_map_to_list in Hb.
    destruct (N !! k) as [rules|] eqn:Ek; [|rewrite lookup_empty in Hb; congruence]. destruct Hb as (e & He & Hall). rewrite He in He'. injection He' as ->.
    apply list_elem_of_lookup in Hr' as [i Hi]. destruct (Forall2_lookup_r _ _ _ _ _ Hall Hi) as (d & Hd & Hcar).
    pose proof (Hdef _ _ _ (Hcur k) Hcar) as <-. split; [|done]. apply Hc. exists rules. split; [done|]. by eapply list_elem_of_lookup_2.
  - intros k l d Hl Hd. destruct (proj2 (Hc k d)) as (rules & Ek & Hd'); [eauto|]. specialize (Hb k). unfold mentries in Hb.
    rewrite list_to_map_to_list, Ek in Hb. destruct Hb as (e & He & Hall). apply list_elem_of_lookup in Hd' as [i Hi].
    destruct (Forall2_lookup_l _ _ _ _ _ Hall Hi) as (r & Hr & Hcar). exists e, r. split; [done|]. split; [by eapply list_elem_of_lookup_2|].
    by apply (Hdef _ _ _ (Hcur k)).
Qed.

Lemma publish_ok kindOf rt t us fl w D rt' :
  describes D t -> Reconcile rt D = Ok rt' -> ck_ok kindOf (mkCkpt rt t us fl w) -> ck_ok kindOf (mkCkpt rt' t us fl w).
Proof.
  intros HD HR [Hi Hre Ht Hl Hfr Hf Hw]. cbn in *.
  destruct (Reconcile_carried kindOf rt D rt' Hi Hre HR) as (Hre' & Hfrom & Hto).
  assert (rt_inv kindOf rt') as Hinv'.
  { eapply Reconcile_inv; [exact Hi| |exact HR]. intros k l d Hk Hd. by apply (to_rules _ _ _ Ht (qr_ID d) k), HD; eauto. }
  assert (forall k e r, entries rt !! k = Some e -> r ∈ e -> byID e (qr_ID (definition r)) = Some r) as Hby.
  { intros k e r He Hr. apply byID_unique; [|done]. by destruct (rt_entry kindOf rt _ e Hi He). }
  split; cbn; [done|done|done| | | |done].
  - intros k e' r' He' Hr'. destruct (Hfrom k e' r' He' Hr') as [Hdl Hcar]. apply HD in Hdl as Hd.
    destruct (to_rules _ _ _ Ht _ _ _ Hd) as (_ & Hu & _). split; [done|]. intros k2 d2 Hd2. rewrite Hd in Hd2. injection Hd2 as <- <-.
    split_and!; [done|lia|]. intros _ row Hrow. unfold carryRule in Hcar. cbn [newRule definition] in Hcar.
    destruct (byID (default [] (entries rt !! k)) (qr_ID (definition r'))) as [p|] eqn:Eb; cycle 1.
    + injection Hcar as <-. rewrite (Hfr _ _ _ Hd) in Hrow; [injection Hrow as <-; by split|].
      intros e r He Hr Hid _. rewrite He in Eb. cbn in Eb. rewrite <- Hid, (Hby k e r He Hr) in Eb. done.
    + apply byID_Some in Eb as Hp. destruct Hp as [Hp Hpid].
      assert (exists e, entries rt !! k = Some e /\ p ∈ e) as (e & He & Hpe) by (destruct (entries rt !! k); [eauto|by apply elem_of_nil in Hp]).
      destruct (Z.eqb_spec (qr_Revision (definition p)) (qr_Revision (definition r'))) as [Er|Er]; cbn [negb] in Hcar.
      * case_if_in Hcar; [done|]. injection Hcar as Hcar. destruct (Hl k e p He Hpe) as [_ Hrest]. rewrite Hpid in Hrest.
        destruct (Hrest _ _ Hd) as (_ & _ & Hb). destruct (Hb Er row Hrow) as [Hb1 Hb2].
        assert (snapshotVersion r' = snapshotVersion p /\ dirty r' = dirty p /\ restoredState k r' = restoredState k p) as (E1 & E2 & E3).
        { rewrite <- Hcar. split; [done|]. split; [done|]. unfold restoredState. cbn. by rewrite Hpid, Er. }
        split; rewrite ?E1, ?E2, ?E3; done.
      * injection Hcar as <-. rewrite (Hfr _ _ _ Hd) in Hrow; [injection Hrow as <-; by split|].
        intros e2 r He2 Hr Hid. rewrite He in He2. injection He2 as <-. pose proof (Hby k e r He Hr) as Hbr. rewrite He in Eb. cbn in Eb. congruence.
  - intros id k d Hd Hno. exfalso. destruct (to_rules _ _ _ Ht _ _ _ Hd) as (Hid & _). rewrite <- Hid in Hd. apply HD in Hd as (l & Hkl & Hdl).
    destruct (Hto k l d Hkl Hdl) as (e' & r' & He' & Hr' & Edef). apply (Hno e' r' He' Hr'); by rewrite Edef.
  - intros s Hs. destruct (Hf s Hs) as [Hu Hrest]. split; [done|]. intros k d Hd. destruct (Hrest k d Hd) as (Hk & H2 & Hsn). split_and!; [done|done|].
    intros E. destruct (Hsn E) as (e & r & He & Hr & Hid & Hrev & Hle & Heq).
    destruct (to_rules _ _ _ Ht _ _ _ Hd) as (Hidd & _). assert (tb_rules t !! qr_ID d = Some (k, d)) as Hd' by by rewrite Hidd.
    apply HD in Hd' as (l & Hkl & Hdl). destruct (Hto k l d Hkl Hdl) as (e' & r' & He' & Hr' & Edef).
    destruct (Hfrom k e' r' He' Hr') as [_ Hcar]. unfold carryRule in Hcar. cbn [newRule definition] in Hcar.
    subst k. rewrite He in Hcar. change (default [] (Some e)) with e in Hcar.
    assert (byID e (qr_ID (definition r')) = Some r) as Hbr by (rewrite Edef, Hidd, <- Hid; by eapply Hby). rewrite Hbr in Hcar.
    rewrite (proj2 (Z.eqb_eq _ _)) in Hcar by (rewrite Edef; congruence). cbn [negb] in Hcar. case_if_in Hcar; [done|]. injection Hcar as Hcar.
    assert (snapshotVersion r' = snapshotVersion r /\ restoredState (rs_AccessKeyID s) r' = restoredState (rs_AccessKeyID s) r) as [E1 E2].
    { rewrite <- Hcar. split; [done|]. unfold restoredState. cbn. rewrite Edef, Hidd, Hid, Hrev. congruence. }
    exists e', r'. rewrite E1, E2, Edef. split_and!; [done|done|congruence|congruence|done|done].
Qed.

Lemma ck_step_ok kindOf c c' : ck_step kindOf c c' -> ck_ok kindOf c -> ck_ok kindOf c'.
Proof.
  intros Hstep Hok. pose proof (ci_inv _ _ Hok) as Hinv.
  destruct Hstep as [rt t us fl w k now Hnow|rt t us fl w tk cost Hc Htk|rt t us w limit|rt t us fl t' Hwr|rt t us fl t' Hwr|rt t us fl
    |rt t us s fl Hmax|rt t us fl w k d H1 H2 H3|rt t us fl w id|rt t us fl w k d d' H1 H2 H3 H4 H5|rt t us fl w k d d' H1 H2 H3 H4|rt t us fl w D rt' H1 H2]; cbn in Hinv.
  - eapply moved_ok; [by apply Admit_inv|by eapply Admit_moved| |exact Hok].
    unfold Admit. destruct (lockEntry rt k); [|done]. by case_if.
  - eapply moved_ok; [by apply Complete_inv|by eapply Complete_moved| |exact Hok].
    unfold Complete. case_if; [done|]. destruct (lockEntry rt _); [|done]. by destruct (fold_left _ _ _).
  - destruct Hok as [_ Hre Ht Hl Hfr _ _]. cbn in *. split; cbn; try done.
    intros s (k & e & r & He%lockEntry_entries & Hr & Hd & ->)%elem_DirtySnapshots. cbn. destruct (Hl k e r He Hr) as [Hu Hrest]. split; [done|].
    intros k' d Hd'. destruct (Hrest k' d Hd') as (-> & Hle & _). split_and!; [done|done|]. intros _. exists e, r. done.
  - destruct (quota_write_ok _ _ _ _ _ _ _ Hok ltac:(done) Hwr) as (Hck & _ & Hcov). destruct Hck as [? ? ? ? ? ? _]. split; [done..|]. cbn.
    intros _ s k d row Hs. rewrite Forall_forall in Hcov. by apply Hcov.
  - destruct (quota_write_ok _ _ _ _ _ _ _ Hok ltac:(done) Hwr) as (Hck & _ & _). destruct Hck as [? ? ? ? ? _ _].
    split; cbn in *; [done..| |done]. by intros s ?%elem_of_nil.
  - destruct Hok as [? ? ? ? ? _ _]. split; cbn in *; [done..| |done]. by intros s ?%elem_of_nil.
  - by apply ack_ok.
  - by apply create_ok.
  - by apply delete_ok.
  - by eapply limit_ok.
  - by eapply quota_reset_ok.
  - by eapply publish_ok.
Qed.

(** ** Restarting *)

(** [queryCostLimitStates]; [None] for a state whose rule is missing. *)
Definition loadState (t : Tables) (id : Z) : option RestoredState :=
  match tb_rules t !! id, tb_states t !! id with
  | Some (k, _), Some row =>
      Some (mkRestored k id (rs_RuleRevision row) (rs_UsedNanoUSD row) (rs_WindowStartedAtMS row) (rs_WindowEndsAtMS row)
              (rs_WindowGeneration row) (rs_SnapshotVersion row))
  | _, _ => None
  end.
Definition queryCostLimitStates (t : Tables) : option (list RestoredState) :=
  mapM (loadState t) (merge_sort Z.le ((mentries (tb_states t)).*1)).

Lemma loadState_row kindOf us t id row : table_ok kindOf us t -> tb_states t !! id = Some row -> loadState t id = Some row /\ rs_RuleID row = id.
Proof.
  intros Ht Hrow. unfold loadState. destruct (to_states _ _ _ Ht _ _ Hrow) as [[k d] Hd]. rewrite Hd, Hrow.
  destruct (to_rules _ _ _ Ht _ _ _ Hd) as (_ & _ & _ & row' & Hrow' & Hk & Hid & _). rewrite Hrow in Hrow'. injection Hrow' as <-.
  split; [|done]. f_equal. destruct row. cbn in *. by rewrite <- Hk, Hid.
Qed.

Lemma queryCostLimitStates_spec kindOf us t : table_ok kindOf us t ->
  exists states, queryCostLimitStates t = Some states /\ NoDup (rs_RuleID <$> states)
    /\ forall s, s ∈ states <-> exists id, tb_states t !! id = Some s.
Proof.
  intros Ht. unfold queryCostLimitStates. set (ids := merge_sort _ _).
  assert (forall id, id ∈ ids <-> is_Some (tb_states t !! id)) as Hids.
  { intros id. unfold ids. rewrite merge_sort_Permutation. unfold mentries. rewrite list_elem_of_fmap. split.
    - intros ([i row] & -> & Hin%elem_of_map_to_list). by eexists.
    - intros [row Hrow]. exists (id, row). split; [done|]. by apply elem_of_map_to_list. }
  assert (NoDup ids) as Hnd by (unfold ids; rewrite merge_sort_Permutation; apply NoDup_fst_map_to_list). clearbody ids.
  assert (exists states, mapM (loadState t) ids = Some states /\ rs_RuleID <$> states = ids /\ forall s, s ∈ states <-> exists id, id ∈ ids /\ tb_states t !! id = Some s)
    as (states & E & Hid & Hel).
  { assert (forall id, id ∈ ids -> is_Some (tb_states t !! id)) as Hsome by (intros id; apply Hids). clear Hids Hnd.
    induction ids as [|id ids IH]; [exists []; split; [done|]; split; [done|]; intros s; split; [by intros ?%elem_of_nil|by intros (id & ?%elem_of_nil & _)]|].
    destruct (Hsome id) as [row Hrow]; [constructor|]. destruct (loadState_row _ _ _ _ _ Ht Hrow) as [Hload Hrid].
    destruct IH as (states & E & Hid & Hel); [intros i Hi; apply Hsome; by constructor|]. exists (row :: states). cbn. rewrite Hload, E. cbn. rewrite Hrid, Hid.
    split; [done|]. split; [done|]. intros s. rewrite elem_of_cons, Hel. split.
    - intros [->|(i & Hi & Hs)]; [exists id; split; [constructor|done]|exists i; split; [by constructor|done]].
    - intros (i & [->|Hi]%elem_of_cons & Hs); [left; congruence|right; eauto]. }
  exists states. split; [done|]. split; [by rewrite Hid|]. intros s. rewrite Hel. split; [naive_solver|]. intros [id Hs]. exists id. split; [apply Hids; by eexists|done].
Qed.

(** A restarted system: the runtime has the rules of the tables, clean and as they are stored,
    and nothing is being written. *)
Record ck_start (kindOf : Z -> Z -> Kind) (c : Ckpt) : Prop := {
  cs_inv : rt_inv kindOf (ck_rt c);
  cs_ready : restorePending (ck_rt c) = false;
  cs_table : table_ok kindOf (ck_used c) (ck_tables c);
  cs_flight : ck_flight c = [];
  cs_stored : forall k e r, entries (ck_rt c) !! k = Some e -> r ∈ e -> dirty r = false
    /\ tb_rules (ck_tables c) !! qr_ID (definition r) = Some (k, definition r)
    /\ tb_states (ck_tables c) !! qr_ID (definition r) = Some (restoredState k r);
  cs_published : forall k d, tb_rules (ck_tables c) !! qr_ID d = Some (k, d) -> exists e r, entries (ck_rt c) !! k = Some e /\ r ∈ e /\ definition r = d
}.

Lemma start_ok kindOf c : ck_start kindOf c -> ck_ok kindOf c.
Proof.
  intros [Hi Hre Ht Hfl Hst Hpub]. split; [done|done|done| | | |].
  - intros k e r He Hr. destruct (Hst k e r He Hr) as (Hcl & Hd & Hrow). destruct (to_rules _ _ _ Ht _ _ _ Hd) as (_ & Hu & _). split; [done|].
    intros k' d Hd'. rewrite Hd in Hd'. injection Hd' as <- <-. split_and!; [done|lia|]. intros _ row Hrow'. rewrite Hrow in Hrow'. injection Hrow' as <-. by split.
  - intros id k d Hd Hno. exfalso. destruct (to_rules _ _ _ Ht _ _ _ Hd) as (Hid & _). rewrite <- Hid in Hd.
    destruct (Hpub k d Hd) as (e & r & He & Hr & Edef). apply (Hno e r He Hr); by rewrite Edef.
  - rewrite Hfl. by intros s ?%elem_of_nil.
  - rewrite Hfl. by intros _ s ? ? ? ?%elem_of_nil.
Qed.

Lemma no_dirty rt : rt_ok rt -> DirtySnapshots rt (-1) = [] -> forall k e r, entries rt !! k = Some e -> r ∈ e -> dirty r = false.
Proof.
  intros Hok Hd k e r He Hr. destruct (dirty r) eqn:E; [|done]. exfalso. assert (restoredState k r ∈ DirtySnapshots rt (-1)) as Hin; [|by rewrite Hd in Hin; apply elem_of_nil in Hin].
  unfold DirtySnapshots. cbn -[merge_sort]. apply list_elem_of_bind. exists k. split.
  - unfold lockEntry. rewrite He, (proj2 (Z.eqb_neq k 0)).
    + apply list_elem_of_fmap_2. by apply list_elem_of_filter.
    + pose proof (rt_defs_ok rt Hok) as Hdf. apply (do_key _ Hdf k (entryDefs e)). unfold definitionsOf. by rewrite lookup_fmap, He.
  - rewrite merge_sort_Permutation. apply list_elem_of_fmap. exists (k, e). split; [done|]. by apply elem_of_map_to_list.
Qed.

(** C35: No charge is lost across a restart.  Let the checkpoint loop run in any interleaving with
    admissions, completions, created, changed, reset and deleted rules and publications of the
    configuration, with writes that fail or are stored although they fail, and with rules that
    change while their snapshot is being written.  Whenever the runtime has nothing left to save
    and its rules are those of the tables, the stored states are loaded and accepted by a fresh
    runtime under the definitions of the tables and restore every entry exactly: usage, window,
    generation and version of every rule. *)
Theorem quota_checkpoint_lossless kindOf c0 c D :
  ck_start kindOf c0 -> rtc (ck_step kindOf) c0 c -> DirtySnapshots (ck_rt c) (-1) = [] ->
  describes D (ck_tables c) -> normalizeDefinitions D = Ok (definitionsOf (ck_rt c)) ->
  exists states rt1 rt2, queryCostLimitStates (ck_tables c) = Some states
    /\ Restore NewRuntime states = Ok rt1 /\ Reconcile rt1 D = Ok rt2 /\ entries rt2 = entries (ck_rt c).
Proof.
  intros Hstart Hsteps Hd Hdesc HD.
  assert (ck_ok kindOf c) as Hok.
  { revert Hsteps. apply (rtc_ind_r (fun c => ck_ok kindOf c)); [by apply start_ok|intros; by eapply ck_step_ok]. }
  destruct Hok as [Hinv _ Ht Hl _ _ _]. pose proof (no_dirty _ (proj1 Hinv) Hd) as Hclean.
  destruct (queryCostLimitStates_spec kindOf _ _ Ht) as (states & Eq & Hnd & Hel).
  assert (forall k e r, entries (ck_rt c) !! k = Some e -> r ∈ e -> tb_rules (ck_tables c) !! qr_ID (definition r) = Some (k, definition r)) as Hrule.
  { intros k e r He Hr. apply Hdesc, (normalize_contents D _ HD). exists (entryDefs e). unfold definitionsOf. rewrite lookup_fmap, He. split; [done|].
    by apply list_elem_of_fmap_2. }
  assert (forall k e r row, entries (ck_rt c) !! k = Some e -> r ∈ e -> tb_states (ck_tables c) !! qr_ID (definition r) = Some row -> row = restoredState k r) as Hrow.
  { intros k e r row He Hr Hs. destruct (Hl k e r He Hr) as [_ Hrest]. destruct (Hrest _ _ (Hrule k e r He Hr)) as (_ & _ & Hb).
    apply (Hb eq_refl row Hs). left. by eapply Hclean. }
  assert (states ≡ₚ allStates (ck_rt c)) as Hperm.
  { apply NoDup_Permutation; [by eapply NoDup_fmap_1|eapply NoDup_fmap_1, allStates_nodup, Hinv|]. intros s. rewrite Hel, elem_allStates. split.
    - intros [id Hs]. destruct (to_states _ _ _ Ht _ _ Hs) as [[k d] Hd']. destruct (to_rules _ _ _ Ht _ _ _ Hd') as (Hid & _). rewrite <- Hid in Hd', Hs.
      apply Hdesc, (normalize_contents D _ HD) in Hd' as (l & Hk & Hdl). unfold definitionsOf in Hk. rewrite lookup_fmap in Hk.
      destruct (entries (ck_rt c) !! k) as [e|] eqn:He; [|done]. cbn in Hk. injection Hk as <-.
      apply list_elem_of_fmap in Hdl as (r & -> & Hr). exists k, e, r. split; [done|]. split; [done|]. by eapply Hrow.
    - intros (k & e & r & He & Hr & ->). destruct (to_rules _ _ _ Ht _ _ _ (Hrule k e r He Hr)) as (_ & _ & _ & row & Hs & _).
      exists (qr_ID (definition r)). rewrite Hs. f_equal. by eapply Hrow. }
  destruct (restart (ck_rt c) D states (proj1 Hinv) HD Hperm) as (rt1 & rt2 & H1 & H2 & H3).
  exists states, rt1, rt2. split; [done|]. split; [done|]. split; [done|]. rewrite H3. apply map_eq. intros k. rewrite lookup_fmap.
  destruct (entries (ck_rt c) !! k) as [e|] eqn:He; [|done]. cbn. f_equal. unfold cleanEntry.
  rewrite <- (list_fmap_id e) at 2. apply list_fmap_ext. intros i r Hr. unfold clearDirty, id.
  rewrite <- (Hclean k e r He) by by eapply list_elem_of_lookup_2. by destruct r.
Qed.

(** * A concrete run: a charge is saved while a rule is reset and published *)

Definition exTables : Tables := mkTables {[1 := (7, exTotal); 2 := (7, exHourly)]}
  {[1 := initialState 7 1 1; 2 := initialState 7 2 1]}.
Definition exC0 : Ckpt := mkCkpt exRuntime exTables {[1; 2]} [] false.
Definition exBatch : list RestoredState := DirtySnapshots exCharged 100.
Definition exS1 : RestoredState := mkRestored 7 1 1 120 None None 0 2.
Definition exS2 : RestoredState := mkRestored 7 2 1 120 (Some 500000) (Some 4100000) 1 3.
(** The second rule is reset while the batch is on its way: its snapshot is stale. *)
Definition exReset : QuotaRule := mkQuotaRule 2 2 (qr_Kind exHourly) (qr_LimitNanoUSD exHourly) (qr_PeriodSeconds exHourly).
Definition exTables1 : Tables := putCostRule 7 exReset exTables.
Definition exTables2 : Tables := default exTables1 (WriteSnapshots exTables1 exBatch).
Definition exDefs2 : gmap Z (list QuotaRule) := {[7 := [exTotal; exReset]]}.
Definition exAcked1 : Runtime := Ack exCharged 7 1 1 2.
Definition exAcked2 : Runtime := Ack exAcked1 7 2 1 3.
Definition exPublished : Runtime := match Reconcile exAcked2 exDefs2 with Ok rt => rt | Err _ => exAcked2 end.
Definition exC : Ckpt := mkCkpt exPublished exTables2 {[1; 2]} [] true.

Lemma exC0_start : ck_start exKind exC0.
Proof.
  destruct (quota_reach_inv _ _ _ exRuntime_reach) as [Hinv _].
  assert (entries exRuntime = {[7 := [newRule exTotal; newRule exHourly]]}) as E by (vm_compute; reflexivity).
  split; [exact Hinv|vm_compute; reflexivity| |reflexivity| |].
  - split; cbn.
    + intros id k d [[<- [= <- <-]]|[_ [<- [= <- <-]]%lookup_singleton_Some]]%lookup_insert_Some;
        (split_and!; [reflexivity|set_solver|vm_compute; reflexivity|]; eexists; split; [vm_compute; reflexivity|vm_compute; auto]).
    + intros id row [[<- _]|[_ [<- _]%lookup_singleton_Some]]%lookup_insert_Some; vm_compute; by eexists.
  - intros k e r He Hr. cbn [exC0 ck_rt] in He. rewrite E in He. apply lookup_singleton_Some in He as [<- <-].
    rewrite !elem_of_cons, elem_of_nil in Hr. destruct Hr as [->|[->|[]]]; (split; [|split]; vm_compute; reflexivity).
  - intros k d Hd. cbn in Hd. change (ck_rt exC0) with exRuntime. rewrite E. exists [newRule exTotal; newRule exHourly].
    apply lookup_insert_Some in Hd as [[_ [= <- <-]]|[_ [_ [= <- <-]]%lookup_singleton_Some]].
    + exists (newRule exTotal). split; [vm_compute; reflexivity|]. split; [constructor|reflexivity].
    + exists (newRule exHourly). split; [vm_compute; reflexivity|]. split; [by constructor; constructor|reflexivity].
Qed.

Lemma exTicket_issued : Forall (issued exKind) (tk_Rules exTicket).
Proof. destruct (quota_reach_inv _ _ _ exAdmitted_reach) as [_ H]. by apply Forall_cons in H as [H _]. Qed.

Lemma exDefs2_describes : describes exDefs2 exTables2.
Proof.
  assert (tb_rules exTables2 = {[1 := (7, exTotal); 2 := (7, exReset)]}) as E by (vm_compute; reflexivity).
  intros k d. rewrite E. split.
  - intros (l & Hl & Hd). unfold exDefs2 in Hl. apply lookup_singleton_Some in Hl as [<- <-]. rewrite !elem_of_cons, elem_of_nil in Hd. destruct Hd as [->|[->|[]]]; vm_compute; reflexivity.
  - intros [[_ [= <- <-]]|[_ [_ [= <- <-]]%lookup_singleton_Some]]%lookup_insert_Some; exists [exTotal; exReset]; (split; [vm_compute; reflexivity|]).
    + constructor.
    + by constructor; constructor.
Qed.

Lemma exRun : rtc (ck_step exKind) exC0 exC.
Proof.
  eapply rtc_l; [apply (ck_admit exKind exRuntime exTables {[1; 2]} [] false 7 exNow); vm_compute; discriminate|].
  eapply rtc_l; [apply (ck_complete exKind exAdmitted exTables {[1; 2]} [] false exTicket 120); [split; vm_compute; discriminate|apply exTicket_issued]|].
  eapply rtc_l; [apply (ck_begin exKind exCharged exTables {[1; 2]} false 100)|]. fold exBatch.
  eapply rtc_l; [apply (ck_reset exKind exCharged exTables {[1; 2]} exBatch false 7 exHourly exReset); vm_compute; reflexivity|]. fold exTables1.
  eapply rtc_l; [apply (ck_write exKind exCharged exTables1 {[1; 2]} exBatch exTables2); vm_compute; reflexivity|].
  assert (exBatch = [exS1; exS2]) as E by (vm_compute; reflexivity). rewrite E.
  eapply rtc_l; [apply ck_ack; vm_compute; reflexivity|].
  eapply rtc_l; [apply ck_ack; vm_compute; reflexivity|].
  eapply rtc_l; [apply (ck_publish exKind exAcked2 exTables2 {[1; 2]} [] true exDefs2 exPublished exDefs2_describes); vm_compute; reflexivity|]. apply rtc_refl.
Qed.

(** The charge of the first rule is stored, the reset rule starts again. *)
Lemma quota_checkpoint_lossless_witness :
  tb_states exTables2 !! 1 = Some exS1 /\ tb_states exTables2 !! 2 = Some (initialState 7 2 2)
  /\ exists states rt1 rt2, queryCostLimitStates (ck_tables exC) = Some states
    /\ Restore NewRuntime states = Ok rt1 /\ Reconcile rt1 exDefs2 = Ok rt2 /\ entries rt2 = entries (ck_rt exC).
Proof.
  split; [vm_compute; reflexivity|]. split; [vm_compute; reflexivity|].
  apply (quota_checkpoint_lossless exKind exC0 exC exDefs2);
    [exact exC0_start|exact exRun|vm_compute; reflexivity|exact exDefs2_describes|vm_compute; reflexivity].
Defined.
