(* ===== verification/Affinity.v ===== *)
(** Soft affinity ([internal/affinity]): the bounded cache that remembers which credential
    served a prompt prefix, and the derivation of its keys.

    The cache's map indexes the elements of its recency list: both are changed together and
    hold the same entries, so the list, most recent first, is the state.  The mutex makes each
    operation atomic; the clock's reading is an argument. *)
From Stdlib Require Import Ascii.
From S2P Require Import Prelude GoStrings Execution.

Local Open Scope Z_scope.
Local Open Scope go_scope.

(** * The cache *)

Record Target := mkTarget { tg_GroupID : Z; tg_CredentialID : Z; tg_IdentityGeneration : Z }.

#[export] Instance Target_eq_dec : EqDecision Target.
Proof. solve_decision. Defined.

Definition targetValid (t : Target) : bool :=
  negb (tg_GroupID t =? 0) && negb (tg_CredentialID t =? 0) && negb (tg_IdentityGeneration t =? 0).

Definition zeroTarget : Target := mkTarget 0 0 0.

Definition keyValid (key : string) : bool := negb (bool_decide (key = EmptyString)).

Record Observation := mkObservation {
  ob_Target : Target;
  ob_key : string;
  ob_revision : Z;
  ob_version : Z;
  ob_found : bool
}.

Definition noObservation : Observation := mkObservation zeroTarget EmptyString 0 0 false.

Record cacheEntry := mkCacheEntry { ce_key : string; ce_target : Target; ce_version : Z; ce_expiresAt : Z }.

Record Cache := mkCache {
  recent : list cacheEntry;
  capacity : Z;
  ttl : Z;
  revision : Z;
  nextVersion : Z
}.

Definition newCache (cap life : Z) : Cache := mkCache [] cap life 0 0.

Definition DefaultTTL : Z := 60 * minute.
Definition DefaultCapacity : Z := 10000.
Definition NewCache : Cache := newCache DefaultCapacity DefaultTTL.

Definition Configure (c : Cache) (rev cap life : Z) : Cache * bool :=
  if (rev =? 0) || (cap <=? 0) || (life <=? 0) then (c, false)
  else if rev <? revision c then (c, false)
  else if rev =? revision c then (c, (capacity c =? cap) && (ttl c =? life))
  else (mkCache [] cap life rev (nextVersion c), true).

Definition withRecent (c : Cache) (l : list cacheEntry) : Cache := mkCache l (capacity c) (ttl c) (revision c) (nextVersion c).

(** The map lookup. *)
Definition entryOf (l : list cacheEntry) (key : string) : option cacheEntry := head (filter (fun e => ce_key e = key) l).

Definition removeKey (key : string) (l : list cacheEntry) : list cacheEntry := filter (fun e => ce_key e <> key) l.

(** An expired entry is removed. *)
Definition currentElementLocked (c : Cache) (key : string) (now : Z) : Cache * option cacheEntry :=
  match entryOf (recent c) key with
  | None => (c, None)
  | Some e => if negb (now <? ce_expiresAt e) then (withRecent c (removeKey key (recent c)), None) else (c, Some e)
  end.

Definition moveToFront (e : cacheEntry) (l : list cacheEntry) : list cacheEntry := e :: removeKey (ce_key e) l.

Definition Lookup (c : Cache) (key : string) (now : Z) : Cache * Observation :=
  if negb (keyValid key) then (c, noObservation)
  else match currentElementLocked c key now with
  | (c', None) => (c', mkObservation zeroTarget key (revision c') 0 false)
  | (c', Some e) => (withRecent c' (moveToFront e (recent c')), mkObservation (ce_target e) key (revision c') (ce_version e) true)
  end.

(** The eviction loop; each round drops the least recent entry, so the length bounds it. *)
Fixpoint evict (fuel : nat) (cap : Z) (l : list cacheEntry) : list cacheEntry :=
  match fuel with
  | O => l
  | S f => if Z.of_nat (length l) <? cap then l
           else match l with [] => l | _ => evict f cap (removelast l) end
  end.

Definition insertLocked (c : Cache) (key : string) (target : Target) (now : Z) : Cache :=
  let kept := evict (length (recent c)) (capacity c) (recent c) in
  let version := u64 (nextVersion c + 1) in
  mkCache (mkCacheEntry key target version (now + ttl c) :: kept) (capacity c) (ttl c) (revision c) version.

Definition refreshLocked (c : Cache) (key : string) (target : Target) (now : Z) : Cache :=
  let version := u64 (nextVersion c + 1) in
  mkCache (moveToFront (mkCacheEntry key target version (now + ttl c)) (recent c)) (capacity c) (ttl c) (revision c) version.

Definition RecordSuccess (c : Cache) (key : string) (observed : Observation) (target : Target) (now : Z) : Cache * bool :=
  if negb (keyValid key) || negb (targetValid target) then (c, false)
  else if keyValid (ob_key observed) && negb (bool_decide (ob_key observed = key)) then (c, false)
  else if (capacity c <=? 0) || (ttl c <=? 0) || negb (ob_revision observed =? revision c) then (c, false)
  else match currentElementLocked c key now with
  | (c', Some current) =>
      if ob_found observed then
        if negb (ce_version current =? ob_version observed) || negb (bool_decide (ce_target current = ob_Target observed)) then (c', false)
        else (refreshLocked c' key target now, true)
      else (c', false)
  | (c', None) => (insertLocked c' key target now, true)
  end.

Definition entryCount (c : Cache) : Z := Z.of_nat (length (recent c)).

(** * Keys *)

(** [binary.BigEndian.PutUint64]: the byte at shift [8 * i]. *)
Definition byteAt (v : Z) (i : Z) : ascii := ascii_of_N (Z.to_N (Z.land (Z.shiftr v (8 * i)) 255)).

Definition putUint64 (v : Z) : list ascii := byteAt v <$> [7; 6; 5; 4; 3; 2; 1; 0].

Definition writeKeyField (value : list ascii) : list ascii := putUint64 (Z.of_nat (length value)) ++ value.

Definition keyDomain : string := "gpt-load/affinity/prompt-prefix-hmac/v2"%string.
Definition promptCacheKeyDomain : string := "gpt-load/affinity/prompt-cache-key/v1"%string.

(** What is hashed. *)
Definition keyMaterial (accessKeyID : Z) (clientProtocol domain : string) (prefix : list ascii) : list ascii :=
  writeKeyField (bytes_of domain) ++ putUint64 accessKeyID ++ writeKeyField (bytes_of clientProtocol) ++ writeKeyField prefix.

Section keys.
(** The keyed digest of the encryption service. *)
Context (hash : string -> string).

Definition deriveKey (accessKeyID : Z) (clientProtocol domain : string) (prefix : list ascii) : string :=
  if (accessKeyID =? 0) || negb (protocolValid clientProtocol) || bool_decide (prefix = []) then EmptyString
  else hash (of_bytes (keyMaterial accessKeyID clientProtocol domain prefix)).

Definition DeriveKey (accessKeyID : Z) (clientProtocol : string) (prefix : list ascii) : string :=
  deriveKey accessKeyID clientProtocol keyDomain prefix.

Definition DerivePromptCacheKey (accessKeyID : Z) (clientProtocol key : string) : string :=
  deriveKey accessKeyID clientProtocol promptCacheKeyDomain (bytes_of key).
End keys.

(** * Keys: lemmas *)

Lemma byteAt_value v i : 0 <= v -> 0 <= i -> byteZ (byteAt v i) = (v / 2 ^ (8 * i)) `mod` 256.
Proof.
  intros Hv Hi. unfold byteZ, byteAt. change 255 with (Z.ones 8). rewrite Z.land_ones, Z.shiftr_div_pow2 by lia. change (2 ^ 8) with 256.
  pose proof (Z.mod_pos_bound (v / 2 ^ (8 * i)) 256 ltac:(lia)). rewrite N_ascii_embedding by lia. by rewrite Z2N.id by lia.
Qed.

Lemma putUint64_inj v w : is_u64 v -> is_u64 w -> putUint64 v = putUint64 w -> v = w.
Proof.
  intros Hv Hw E. unfold is_u64, maxUint64 in *.
  assert (forall x i, 0 <= x -> 0 <= i -> x / 2 ^ (8 * (i + 1)) = x / 2 ^ (8 * i) / 256) as Hd.
  { intros x i Hx Hi. replace (8 * (i + 1)) with (8 * i + 8) by lia. rewrite Z.pow_add_r, <- Z.div_div by lia. done. }
  assert (forall i, 0 <= i < 8 -> (v / 2 ^ (8 * i)) `mod` 256 = (w / 2 ^ (8 * i)) `mod` 256) as Hb.
  { intros i Hi. rewrite <- !byteAt_value by lia. f_equal. unfold putUint64 in E. cbn in E.
    assert (i = 0 \/ i = 1 \/ i = 2 \/ i = 3 \/ i = 4 \/ i = 5 \/ i = 6 \/ i = 7) as Hc by lia. injection E as E7 E6 E5 E4 E3 E2 E1 E0.
    by destruct Hc as [-> |[-> |[-> |[-> |[-> |[-> |[-> | ->]]]]]]]. }
  assert (v / 2 ^ (8 * 8) = w / 2 ^ (8 * 8)) as H8 by (rewrite !Z.div_small by (cbn; lia); done).
  assert (forall i, 0 <= i < 8 -> v / 2 ^ (8 * (i + 1)) = w / 2 ^ (8 * (i + 1)) -> v / 2 ^ (8 * i) = w / 2 ^ (8 * i)) as Hs.
  { intros i Hi Hn. rewrite !Hd in Hn by lia. specialize (Hb i Hi).
    rewrite (Z.div_mod (v / 2 ^ (8 * i)) 256), (Z.div_mod (w / 2 ^ (8 * i)) 256) by lia. lia. }
  pose proof (Hs 7 ltac:(lia) H8) as H7. pose proof (Hs 6 ltac:(lia) H7) as H6. pose proof (Hs 5 ltac:(lia) H6) as H5.
  pose proof (Hs 4 ltac:(lia) H5) as H4. pose proof (Hs 3 ltac:(lia) H4) as H3. pose proof (Hs 2 ltac:(lia) H3) as H2.
  pose proof (Hs 1 ltac:(lia) H2) as H1. pose proof (Hs 0 ltac:(lia) H1) as H0. by rewrite !Z.div_1_r in H0.
Qed.

Definition sized (l : list ascii) : Prop := Z.of_nat (length l) <= maxUint64.

(** A length-prefixed field can be read back from the front of a text. *)
Lemma writeKeyField_inj a b s t : sized a -> sized b -> writeKeyField a ++ s = writeKeyField b ++ t -> a = b /\ s = t.
Proof.
  intros Ha Hb E. unfold writeKeyField in E. rewrite <- !app_assoc in E. apply app_inj_1 in E as [E1 E2]; [|done].
  apply putUint64_inj in E1; [|unfold is_u64, sized in *; lia..]. apply app_inj_1 in E2; [done|lia].
Qed.

(** Affinity never crosses tenants.  The material that is hashed into a cache key determines
    the purpose of the key, the access key, the client protocol and the prompt prefix: with a
    digest that separates the two materials, two derived keys are equal only for the same
    purpose, tenant, protocol and prefix, whatever bytes the prefix contains. *)
Theorem affinity_key_isolation hash id1 id2 p1 p2 d1 d2 x1 x2 :
  is_u64 id1 -> is_u64 id2 -> sized (bytes_of d1) -> sized (bytes_of d2) -> sized (bytes_of p1) -> sized (bytes_of p2) -> sized x1 -> sized x2 ->
  (hash (of_bytes (keyMaterial id1 p1 d1 x1)) = hash (of_bytes (keyMaterial id2 p2 d2 x2)) ->
   of_bytes (keyMaterial id1 p1 d1 x1) = of_bytes (keyMaterial id2 p2 d2 x2)) ->
  deriveKey hash id1 p1 d1 x1 <> EmptyString -> deriveKey hash id1 p1 d1 x1 = deriveKey hash id2 p2 d2 x2 ->
  id1 = id2 /\ p1 = p2 /\ d1 = d2 /\ x1 = x2.
Proof.
  intros Hi1 Hi2 Hd1 Hd2 Hp1 Hp2 Hx1 Hx2 Hh Hne E. unfold deriveKey in *.
  destruct (_ || _ || _); [done|]. destruct (_ || _ || _); [congruence|]. apply Hh, of_bytes_inj in E. unfold keyMaterial in E.
  apply writeKeyField_inj in E as [Ed E]; [|done..]. apply app_inj_1 in E as [Ei E]; [|done]. apply putUint64_inj in Ei; [|done..].
  apply writeKeyField_inj in E as [Ep E]; [|done..].
  rewrite <- (app_nil_r (writeKeyField x1)), <- (app_nil_r (writeKeyField x2)) in E. apply writeKeyField_inj in E as [Ex _]; [|done..].
  split_and!; [done|by apply bytes_of_inj|by apply bytes_of_inj|done].
Qed.

Lemma affinity_key_isolation_witness :
  DeriveKey (fun s => s) 3 "gemini" (bytes_of "ab") <> DeriveKey (fun s => s) 4 "gemini" (bytes_of "ab").
Proof.
  intros E. unfold DeriveKey in E.
  destruct (affinity_key_isolation (fun s => s) 3 4 "gemini" "gemini" keyDomain keyDomain (bytes_of "ab") (bytes_of "ab")) as [H _];
    [split; vm_compute; discriminate|split; vm_compute; discriminate|vm_compute; discriminate..| | |exact E|discriminate H].
  - intros H; exact H.
  - vm_compute; discriminate.
Defined.

(** Properties of the affinity cache ([Affinity]): bounded, one entry per key, and conditional
    updates that only replace what they observed. *)

Lemma fmap_sublist {A B} (f : A -> B) (l k : list A) : l `sublist_of` k -> (f <$> l) `sublist_of` (f <$> k).
Proof. induction 1; cbn; by constructor. Qed.

(** * The invariant *)

Record cache_ok (c : Cache) : Prop := {
  co_keys : NoDup (ce_key <$> recent c);
  co_size : recent c = [] \/ Z.of_nat (length (recent c)) <= capacity c;
  co_versions : NoDup (ce_version <$> recent c);
  co_bound : forall e, e ∈ recent c -> ce_version e <= nextVersion c;
  co_next : 0 <= nextVersion c
}.

Lemma elem_removeKey key l e : e ∈ removeKey key l <-> e ∈ l /\ ce_key e <> key.
Proof. unfold removeKey. rewrite list_elem_of_filter. tauto. Qed.

Lemma removeKey_absent key l : (forall e, e ∈ l -> ce_key e <> key) -> removeKey key l = l.
Proof. apply filter_all_in. Qed.

Lemma removeKey_length key l : (length (removeKey key l) <= length l)%nat.
Proof. apply length_filter. Qed.

Lemma removeKey_length_lt key l e : e ∈ l -> ce_key e = key -> (length (removeKey key l) < length l)%nat.
Proof.
  intros He Hk. induction l as [|x l IH]; [by apply elem_of_nil in He|]. unfold removeKey in *. rewrite filter_cons.
  pose proof (removeKey_length key l). unfold removeKey in *. apply elem_of_cons in He as [<-|He].
  - rewrite decide_False by tauto. cbn. lia.
  - case_decide; cbn; [|lia]. specialize (IH He). lia.
Qed.

Lemma entryOf_Some l key e : entryOf l key = Some e -> e ∈ l /\ ce_key e = key.
Proof.
  unfold entryOf. intros H. destruct (filter _ l) as [|x t] eqn:E; [done|]. injection H as ->.
  assert (e ∈ filter (fun e => ce_key e = key) l) as [? ?]%list_elem_of_filter by (rewrite E; constructor). done.
Qed.

Lemma entryOf_None l key : entryOf l key = None -> forall e, e ∈ l -> ce_key e <> key.
Proof.
  unfold entryOf. intros H e He Hk. destruct (filter _ l) as [|x t] eqn:E; [|done].
  assert (e ∈ filter (fun e => ce_key e = key) l) as Hin by by apply list_elem_of_filter. rewrite E in Hin. by apply elem_of_nil in Hin.
Qed.

Lemma entryOf_unique l e : NoDup (ce_key <$> l) -> e ∈ l -> entryOf l (ce_key e) = Some e.
Proof.
  intros Hnd He. destruct (entryOf l (ce_key e)) as [x|] eqn:E; [|by destruct (entryOf_None _ _ E e He)]. f_equal.
  apply entryOf_Some in E as [Hx Hk]. clear -Hnd He Hx Hk. induction l as [|y l IH]; [by apply elem_of_nil in He|].
  rewrite fmap_cons, NoDup_cons in Hnd. destruct Hnd as [Hy Hnd]. rewrite elem_of_cons in He, Hx.
  destruct He as [->|He], Hx as [->|Hx]; [done| | |by apply IH]; destruct Hy; apply list_elem_of_fmap; eauto.
Qed.

(** Removing entries keeps the invariant. *)
Lemma removeKey_ok c key : cache_ok c -> cache_ok (withRecent c (removeKey key (recent c))).
Proof.
  intros [Hk Hs Hv Hb Hn]. split; cbn.
  - by apply NoDup_fmap_filter.
  - pose proof (removeKey_length key (recent c)). destruct Hs as [->|Hs]; [by left|right; lia].
  - by apply NoDup_fmap_filter.
  - intros e [He _]%elem_removeKey. by apply Hb.
  - done.
Qed.

Lemma current_spec c key now c' o :
  cache_ok c -> currentElementLocked c key now = (c', o) ->
  cache_ok c' /\ capacity c' = capacity c /\ ttl c' = ttl c /\ revision c' = revision c /\ nextVersion c' = nextVersion c
  /\ removeKey key (recent c') = removeKey key (recent c)
  /\ match o with
     | Some e => c' = c /\ entryOf (recent c) key = Some e /\ now < ce_expiresAt e
     | None => (forall e, e ∈ recent c' -> ce_key e <> key) /\ forall e, entryOf (recent c) key = Some e -> ce_expiresAt e <= now
     end.
Proof.
  intros Hok H. unfold currentElementLocked in H. destruct (entryOf (recent c) key) as [e|] eqn:E.
  - destruct (Z.ltb_spec now (ce_expiresAt e)); cbn in H; injection H as <- <-; [split_and!; done|].
    cbn. split_and!; try done; [by apply removeKey_ok| | |].
    + apply removeKey_absent. by intros x [_ Hx]%elem_removeKey.
    + by intros x [_ Hx]%elem_removeKey.
    + by intros x [= <-].
  - injection H as <- <-. split_and!; try done. by apply entryOf_None.
Qed.

(** Putting an entry of a known version in front of the others. *)
Lemma moveToFront_ok c e :
  cache_ok c -> e ∈ recent c -> cache_ok (withRecent c (moveToFront e (recent c))).
Proof.
  intros [Hk Hs Hv Hb Hn] He. unfold moveToFront. split; cbn.
  - constructor; [|by apply NoDup_fmap_filter]. by intros (x & E & [_ Hx]%elem_removeKey)%list_elem_of_fmap.
  - destruct Hs as [Hs|Hs]; [rewrite Hs in He; by apply elem_of_nil in He|]. right.
    pose proof (removeKey_length_lt (ce_key e) (recent c) e He eq_refl). lia.
  - constructor; [|by apply NoDup_fmap_filter]. intros (x & E & [Hx Hne]%elem_removeKey)%list_elem_of_fmap. apply Hne. f_equal.
    clear - Hv He Hx E. induction (recent c) as [|y l IH]; [by apply elem_of_nil in He|]. rewrite fmap_cons, NoDup_cons in Hv.
    destruct Hv as [Hy Hv]. rewrite elem_of_cons in He, Hx.
    destruct He as [->|He], Hx as [->|Hx]; [done| | |by apply IH]; destruct Hy; apply list_elem_of_fmap; eauto.
  - intros x [->|[Hx _]%elem_removeKey]%elem_of_cons; by apply Hb.
  - done.
Qed.

(** The eviction loop keeps the most recent entries. *)
Lemma evict_take fuel cap l : (length l <= fuel)%nat -> 0 < cap -> evict fuel cap l = take (Z.to_nat (cap - 1)) l.
Proof.
  revert l. induction fuel as [|f IH]; intros l Hl Hc; cbn [evict]; [destruct l; [by rewrite take_nil|cbn in Hl; lia]|].
  destruct (Z.ltb_spec (Z.of_nat (length l)) cap); [by rewrite take_ge by lia|].
  destruct l as [|x l _] using rev_ind; [cbn in *; lia|]. rewrite length_app in *. cbn in *.
  assert (forall (A : Type) (y : A) (z : list A), match z ++ [y] with [] => z ++ [y] | _ => z ++ [y] end = z ++ [y]) as _ by (intros ? ? []; done).
  replace (match l ++ [x] with [] => l ++ [x] | _ :: _ => evict f cap (removelast (l ++ [x])) end) with (evict f cap (removelast (l ++ [x])))
    by (by destruct l).
  rewrite removelast_last, IH by lia. rewrite take_app_le by lia. done.
Qed.

Section fresh.
(** A new version is above all earlier ones: the 64-bit counter does not wrap. *)
Context (c : Cache) (Hok : cache_ok c) (Hmax : nextVersion c < maxUint64).

Lemma next_version : u64 (nextVersion c + 1) = nextVersion c + 1.
Proof. destruct Hok as [_ _ _ _ Hn]. unfold u64, two64, maxUint64 in *. apply Z.mod_small. lia. Qed.

Lemma pushed_ok key target exp (l : list cacheEntry) :
  l `sublist_of` recent c -> (forall e, e ∈ l -> ce_key e <> key) -> Z.of_nat (length l) < capacity c ->
  cache_ok (mkCache (mkCacheEntry key target (nextVersion c + 1) exp :: l) (capacity c) (ttl c) (revision c) (nextVersion c + 1)).
Proof.
  intros Hl Hk Hlen. destruct Hok as [Hkeys _ Hv Hb Hn].
  assert (forall e, e ∈ l -> e ∈ recent c) as Hsub by (intros e He; by eapply elem_of_sublist). split; cbn.
  - constructor; [by intros (e & E & He)%list_elem_of_fmap; destruct (Hk e He)|]. eapply sublist_NoDup; [exact Hkeys|].
    by apply fmap_sublist.
  - right. lia.
  - constructor; [|eapply sublist_NoDup; [exact Hv|by apply fmap_sublist]].
    intros (e & E & He)%list_elem_of_fmap. specialize (Hb e (Hsub e He)). lia.
  - intros e [->|He]%elem_of_cons; [cbn; lia|]. specialize (Hb e (Hsub e He)). lia.
  - lia.
Qed.
End fresh.

(** * Operations *)

Lemma Configure_ok c rev cap life : cache_ok c -> cache_ok (Configure c rev cap life).1.
Proof.
  intros Hok. unfold Configure. case_if; [done|]. case_if; [done|]. case_if; [done|]. destruct Hok as [_ _ _ _ Hn].
  split; cbn; [constructor|by left|constructor|by intros e ?%elem_of_nil|done].
Qed.

Lemma Lookup_ok c key now : cache_ok c -> cache_ok (Lookup c key now).1.
Proof.
  intros Hok. unfold Lookup. case_if; [done|]. destruct (currentElementLocked c key now) as [c' o] eqn:Ecur.
  apply current_spec in Ecur as (Hok' & _ & _ & _ & _ & _ & Ho); [|done]. destruct o as [e|]; [|done].
  destruct Ho as (-> & He & _). apply moveToFront_ok; [done|]. by destruct (entryOf_Some _ _ _ He).
Qed.

(** What a successful conditional update does. *)
Lemma RecordSuccess_spec c key obs target now c' :
  cache_ok c -> nextVersion c < maxUint64 -> RecordSuccess c key obs target now = (c', true) ->
  cache_ok c' /\ nextVersion c' = nextVersion c + 1
  /\ entryOf (recent c') key = Some (mkCacheEntry key target (nextVersion c + 1) (now + ttl c))
  /\ removeKey key (recent c') `prefix_of` removeKey key (recent c)
  /\ forall e, entryOf (recent c) key = Some e -> now < ce_expiresAt e ->
       ob_found obs = true /\ ce_version e = ob_version obs /\ ce_target e = ob_Target obs.
Proof.
  intros Hok Hmax H. unfold RecordSuccess in H. case_if_in H; [done|]. case_if_in H; [done|]. case_if_in H; [done|]. zb.
  destruct (currentElementLocked c key now) as [c1 o] eqn:Ec.
  apply current_spec in Ec as (Hok1 & Hcap & Httl & Hrev & Hnv & Hrm & Ho); [|done].
  pose proof (next_version c1 Hok1 ltac:(lia)) as Hver. destruct o as [e|].
  - destruct Ho as (-> & He & Hlt). destruct (ob_found obs) eqn:Ef; [|done].
    destruct (Z.eqb_spec (ce_version e) (ob_version obs)); [|done]. case_bool_decide; [|done]. cbn in H. injection H as <-.
    apply entryOf_Some in He as Hin. destruct Hin as [Hin Hk]. unfold refreshLocked, moveToFront. rewrite Hver. cbn [ce_key].
    assert (Z.of_nat (length (removeKey key (recent c))) < capacity c) as Hlen.
    { pose proof (removeKey_length_lt key (recent c) e Hin Hk). destruct (co_size _ Hok) as [Hs|Hs]; [rewrite Hs in Hin; by apply elem_of_nil in Hin|lia]. }
    split_and!.
    + apply pushed_ok; [done|apply sublist_filter|by intros x [_ Hx]%elem_removeKey|done].
    + done.
    + unfold entryOf. cbn [recent]. by rewrite filter_cons, decide_True.
    + cbn [recent]. unfold removeKey at 1. rewrite filter_cons, decide_False by (cbn; tauto). fold (removeKey key (removeKey key (recent c))).
      rewrite (removeKey_absent key (removeKey key (recent c))) by by intros x [_ Hx]%elem_removeKey. done.
    + intros x Hx _. rewrite He in Hx. by injection Hx as <-.
  - destruct Ho as [Habs Hexp]. injection H as <-. unfold insertLocked. rewrite Hver, evict_take by lia. rewrite Hnv, Httl, Hcap, Hrev.
    assert (forall e, e ∈ take (Z.to_nat (capacity c - 1)) (recent c1) -> ce_key e <> key) as Habs'.
    { intros e He. apply Habs. eapply elem_of_sublist; [exact He|apply sublist_take]. }
    split_and!.
    + rewrite <- Hnv, <- Httl, <- Hrev, <- Hcap. apply pushed_ok; [done|apply sublist_take|by rewrite Hcap|].
      rewrite length_take. lia.
    + done.
    + unfold entryOf. cbn [recent]. by rewrite filter_cons, decide_True.
    + cbn [recent]. unfold removeKey at 1. rewrite filter_cons, decide_False by (cbn; tauto). fold (removeKey key (take (Z.to_nat (capacity c - 1)) (recent c1))).
      rewrite (removeKey_absent key (take _ _)) by done. rewrite <- Hrm, (removeKey_absent key (recent c1)) by done. apply prefix_take.
    + intros e He Hlt. specialize (Hexp e He). lia.
Qed.

Lemma RecordSuccess_refused c key obs target now c' :
  RecordSuccess c key obs target now = (c', false) -> c' = c \/ c' = (currentElementLocked c key now).1.
Proof.
  unfold RecordSuccess. repeat (case_if; [intros [= <-]; by left|]). destruct (currentElementLocked c key now) as [c1 [e|]]; [|done].
  destruct (ob_found obs); [case_if; [|done]|]; intros [= <-]; by right.
Qed.

(** * Runs *)

(** Updates happen fewer than [2^64] times. *)
Inductive cache_step : Cache -> Cache -> Prop :=
| cs_configure c rev cap life : cache_step c (Configure c rev cap life).1
| cs_lookup c key now : cache_step c (Lookup c key now).1
| cs_record c key obs target now : nextVersion c < maxUint64 -> cache_step c (RecordSuccess c key obs target now).1.

Lemma current_sub c key now : forall e, e ∈ recent (currentElementLocked c key now).1 -> e ∈ recent c.
Proof.
  unfold currentElementLocked. destruct (entryOf _ _); [|done]. case_if; [|done]. cbn. by intros x [Hx _]%elem_removeKey.
Qed.

Lemma current_next c key now : nextVersion (currentElementLocked c key now).1 = nextVersion c.
Proof. unfold currentElementLocked. destruct (entryOf _ _); [|done]. by case_if. Qed.

Lemma current_ok c key now : cache_ok c -> cache_ok (currentElementLocked c key now).1.
Proof. intros Hok. destruct (currentElementLocked c key now) as [c' o] eqn:E. by destruct (current_spec _ _ _ _ _ Hok E). Qed.

(** A step keeps entries or creates ones with a version above all earlier ones. *)
Lemma cache_step_ok c c' :
  cache_step c c' -> cache_ok c ->
  cache_ok c' /\ nextVersion c <= nextVersion c' /\ forall e, e ∈ recent c' -> e ∈ recent c \/ nextVersion c < ce_version e.
Proof.
  intros [c0 rev cap life|c0 key now|c0 key obs target now Hmax] Hok.
  - split; [by apply Configure_ok|]. unfold Configure. repeat (case_if; [split; [cbn; lia|by intros; left]|]). cbn.
    split; [lia|by intros e ?%elem_of_nil].
  - split; [by apply Lookup_ok|]. unfold Lookup. case_if; [split; [cbn; lia|by intros; left]|].
    pose proof (current_sub c0 key now) as Hsub. pose proof (current_next c0 key now) as Hn.
    destruct (currentElementLocked c0 key now) as [c1 o] eqn:Ec. cbn [fst] in *. apply current_spec in Ec as (_ & _ & _ & _ & _ & _ & Ho); [|done].
    destruct o as [x|]; cbn; (split; [lia|]); [|auto]. destruct Ho as (-> & Hx & _).
    intros e [->|[He _]%elem_removeKey]%elem_of_cons; left; [by destruct (entryOf_Some _ _ _ Hx)|done].
  - destruct (RecordSuccess c0 key obs target now) as [c1 [|]] eqn:E.
    + apply RecordSuccess_spec in E as (Hok1 & Hn & He & Hp & _); [|done..]. cbn. split; [done|]. split; [lia|]. intros e Hin.
      destruct (decide (ce_key e = key)) as [Hk|Hk].
      * right. assert (e = mkCacheEntry key target (nextVersion c0 + 1) (now + ttl c0)) as ->; [|cbn; lia].
        pose proof (entryOf_unique _ _ (co_keys _ Hok1) Hin) as Hu. rewrite Hk, He in Hu. by injection Hu.
      * left. assert (e ∈ removeKey key (recent c0)) as [? _]%elem_removeKey; [|done].
        destruct Hp as [k Hp]. rewrite Hp, elem_of_app. left. by apply elem_removeKey.
    + cbn. apply RecordSuccess_refused in E as [->| ->]; [split; [done|split; [cbn; lia|by intros; left]]|].
      split; [by apply current_ok|]. rewrite current_next. split; [done|]. intros e He. left. by eapply current_sub.
Qed.

(** Since [c]: later entries are old ones or have later versions. *)
Lemma cache_since c c' :
  rtc cache_step c c' -> cache_ok c ->
  cache_ok c' /\ nextVersion c <= nextVersion c' /\ forall e, e ∈ recent c' -> e ∈ recent c \/ nextVersion c < ce_version e.
Proof.
  induction 1 as [c|c c1 c2 Hs _ IH]; intros Hok; [split; [done|split; [cbn; lia|by intros; left]]|].
  destruct (cache_step_ok c c1 Hs Hok) as (Hok1 & Hn1 & He1). destruct (IH Hok1) as (Hok2 & Hn2 & He2).
  split; [done|]. split; [lia|]. intros e [He|He]%He2; [by apply He1|right; lia].
Qed.

Lemma newCache_ok cap life : cache_ok (newCache cap life).
Proof. split; cbn; [constructor|by left|constructor|by intros e ?%elem_of_nil|done]. Qed.

(** Learning never overwrites what it did not see.  Let a request look a key up, let any
    operations of other requests follow, and let the request then record the credential that
    served it.  If the recording succeeds, the key is mapped to that credential for a full
    lifetime, the cache still has one entry per key and is within its capacity, only least
    recently used entries of other keys were dropped, and a live entry it replaced is the very
    entry that the lookup had found: no update of another request in between was lost, even one
    that restored the same credential. *)
Theorem affinity_compare_and_set cap life c0 key now0 c1 obs c2 target now c3 :
  rtc cache_step (newCache cap life) c0 -> Lookup c0 key now0 = (c1, obs) -> rtc cache_step c1 c2 -> nextVersion c2 < maxUint64 ->
  RecordSuccess c2 key obs target now = (c3, true) ->
  entryOf (recent c3) key = Some (mkCacheEntry key target (nextVersion c3) (now + ttl c2))
  /\ NoDup (ce_key <$> recent c3) /\ Z.of_nat (length (recent c3)) <= capacity c3
  /\ removeKey key (recent c3) `prefix_of` removeKey key (recent c2)
  /\ (forall e, entryOf (recent c2) key = Some e -> now < ce_expiresAt e -> entryOf (recent c0) key = Some e).
Proof.
  intros H0 Hl H2 Hmax Hrec. destruct (cache_since _ _ H0 (newCache_ok cap life)) as (Hok0 & _).
  assert (cache_ok c1) as Hok1 by (pose proof (Lookup_ok c0 key now0 Hok0) as H; by rewrite Hl in H).
  destruct (cache_since _ _ H2 Hok1) as (Hok2 & Hn2 & Hsince).
  destruct (RecordSuccess_spec _ _ _ _ _ _ Hok2 Hmax Hrec) as (Hok3 & Hn3 & He3 & Hp & Hold).
  split; [by rewrite Hn3|]. split; [apply Hok3|]. split.
  { destruct (co_size _ Hok3) as [Hs|Hs]; [|done]. rewrite Hs in He3. done. }
  split; [done|]. intros e He Hlt. destruct (Hold e He Hlt) as (Hf & Hv & _). unfold Lookup in Hl.
  case_if_in Hl; [by injection Hl as <- <-|]. destruct (currentElementLocked c0 key now0) as [c0' o] eqn:Ec.
  apply current_spec in Ec as (_ & _ & _ & _ & _ & _ & Ho); [|done]. destruct o as [x|]; [|injection Hl as <- <-; done].
  destruct Ho as (-> & Hx & _). injection Hl as Hc1 Hobs. rewrite <- Hobs in Hv. cbn in Hv. rewrite Hx. f_equal.
  destruct (entryOf_Some _ _ _ Hx) as [Hxin Hxk]. destruct (entryOf_Some _ _ _ He) as [Hein Hek].
  assert (x ∈ recent c1) as Hx1 by (rewrite <- Hc1; cbn; constructor).
  destruct (Hsince e Hein) as [He1|He1]; [|pose proof (co_bound _ Hok1 x Hx1); lia].
  pose proof (entryOf_unique _ _ (co_keys _ Hok1) He1) as E1. pose proof (entryOf_unique _ _ (co_keys _ Hok1) Hx1) as E2.
  rewrite Hek in E1. rewrite Hxk in E2. congruence.
Qed.

Definition exTarget : Target := mkTarget 1 2 3.
Definition exOther : Target := mkTarget 1 5 1.
Definition exCache0 : Cache := (Configure (newCache 2 1000) 1 2 1000).1.
Definition exCache1 : Cache := (RecordSuccess exCache0 "k" (mkObservation zeroTarget "k" 1 0 false) exTarget 10).1.

(** An undisturbed update succeeds. *)
Lemma affinity_compare_and_set_witness :
  let '(c1, obs) := Lookup exCache1 "k" 20 in
  let '(c3, ok) := RecordSuccess c1 "k" obs exOther 30 in
  ok = true /\ entryOf (recent c3) "k" = Some (mkCacheEntry "k" exOther 2 1030).
Proof.
  destruct (Lookup exCache1 "k" 20) as [c1 obs] eqn:El. destruct (RecordSuccess c1 "k" obs exOther 30) as [c3 ok] eqn:Er.
  assert (ok = true) as -> by (vm_compute in El; injection El as <- <-; vm_compute in Er; injection Er as _ <-; reflexivity).
  split; [reflexivity|].
  destruct (affinity_compare_and_set 2 1000 exCache1 "k" 20 c1 obs c1 exOther 30 c3) as [H _].
  - eapply rtc_l; [apply (cs_configure (newCache 2 1000) 1 2 1000)|].
    eapply rtc_l; [apply (cs_record exCache0 "k" (mkObservation zeroTarget "k" 1 0 false) exTarget 10); vm_compute; reflexivity|]. apply rtc_refl.
  - exact El.
  - apply rtc_refl.
  - vm_compute in El. injection El as <- <-. vm_compute. reflexivity.
  - exact Er.
  - rewrite H. vm_compute in El. injection El as <- <-. vm_compute in Er. injection Er as <-. reflexivity.
Defined.
