(* ===== verification/RateLimit.v ===== *)
(** Requests per minute and concurrency ([internal/ratelimit]): a sliding window of admission
    instants per access key, and counters of unfinished requests.

    A deque is a value: its slice is only ever reachable through the copy that is stored back
    before the lock is released.  The statistics recorded after a decision are kept elsewhere
    ([internal/rpm]) and do not feed back into it. *)
From S2P Require Import Prelude.

Local Open Scope Z_scope.
Local Open Scope go_scope.

(** * The deque of instants *)

Record timestampDeque := mkDeque { dq_values : list Z; dq_head : nat }.

Definition emptyDeque : timestampDeque := mkDeque [] 0.

(** The loop of [dropThrough]: the head after the instants up to [cutoff]. *)
Fixpoint skipThrough (cutoff : Z) (rest : list Z) (head : nat) : nat :=
  match rest with
  | v :: rest' => if negb (cutoff <? v) then skipThrough cutoff rest' (S head) else head
  | [] => head
  end.

Definition dropThrough (d : timestampDeque) (cutoff : Z) : timestampDeque :=
  let head := skipThrough cutoff (drop (dq_head d) (dq_values d)) (dq_head d) in
  if (head =? length (dq_values d))%nat then emptyDeque
  else if ((64 <? head) && (length (dq_values d) <=? head * 2))%nat then mkDeque (drop head (dq_values d)) 0
  else mkDeque (dq_values d) head.

Definition dequeLen (d : timestampDeque) : Z := Z.of_nat (length (dq_values d)) - Z.of_nat (dq_head d).

(** [None] is an index out of range, which panics. *)
Definition dequeAt (d : timestampDeque) (index : Z) : option Z :=
  if index <? 0 then None else dq_values d !! (dq_head d + Z.to_nat index)%nat.

Definition dequePush (d : timestampDeque) (v : Z) : timestampDeque := mkDeque (dq_values d ++ [v]) (dq_head d).

(** * Requests per minute *)

Record LimitDecision := mkLimitDecision { ld_Allowed : bool; ld_RetryAfter : Z }.

Record AccessKeyRPM := mkRPM { windows : gmap Z timestampDeque; lastCleanup : Z }.

Definition NewAccessKeyRPM : AccessKeyRPM := mkRPM ∅ 0.

Definition cleanup (l : AccessKeyRPM) (now : Z) : AccessKeyRPM :=
  if negb (isZeroTime (lastCleanup l)) && (timeSub now (lastCleanup l) <? minute) then l
  else mkRPM (omap (fun w => let w' := dropThrough w (now - minute) in if dequeLen w' =? 0 then None else Some w') (windows l)) now.

Definition ceilToSecond (duration : Z) : Z :=
  if duration <=? 0 then duration else Z.quot (duration + second - 1) second * second.

Definition retryAfterOf (target now : Z) : Z :=
  let retryAfter := ceilToSecond (timeSub (target + minute) now) in
  let retryAfter := if retryAfter <? second then second else retryAfter in
  if minute <? retryAfter then minute else retryAfter.

(** [None]: the index panics. *)
Definition Allow (l : AccessKeyRPM) (accessKeyID limit now : Z) : option (AccessKeyRPM * LimitDecision) :=
  let l := cleanup l now in
  if limit <=? 0 then Some (mkRPM (delete accessKeyID (windows l)) (lastCleanup l), mkLimitDecision true 0)
  else
    let window := dropThrough (mget emptyDeque (windows l) accessKeyID) (now - minute) in
    let count := dequeLen window in
    if limit <=? count then
      match dequeAt window (count - limit) with
      | None => None
      | Some target =>
          Some (mkRPM (<[accessKeyID := window]> (windows l)) (lastCleanup l), mkLimitDecision false (retryAfterOf target now))
      end
    else Some (mkRPM (<[accessKeyID := dequePush window now]> (windows l)) (lastCleanup l), mkLimitDecision true 0).

(** * Lemmas on the deque *)

(** The instants in the window. *)
Definition live (d : timestampDeque) : list Z := drop (dq_head d) (dq_values d).

Definition deque_ok (d : timestampDeque) : Prop := (dq_head d <= length (dq_values d))%nat.

Fixpoint dropLeq (cutoff : Z) (l : list Z) : list Z :=
  match l with
  | v :: l' => if negb (cutoff <? v) then dropLeq cutoff l' else l
  | [] => []
  end.

Lemma skipThrough_spec cutoff rest head :
  (skipThrough cutoff rest head <= head + length rest)%nat /\ (head <= skipThrough cutoff rest head)%nat
  /\ drop (skipThrough cutoff rest head - head) rest = dropLeq cutoff rest.
Proof.
  revert head. induction rest as [|v rest IH]; intros head; cbn [skipThrough dropLeq length]; [rewrite Nat.sub_diag; split; [lia|done]|].
  destruct (cutoff <? v); cbn [negb]; [rewrite Nat.sub_diag; split; [lia|done]|]. destruct (IH (S head)) as (H1 & H2 & H3).
  split; [lia|]. split; [lia|]. rewrite <- H3. replace (skipThrough cutoff rest (S head) - head)%nat with (S (skipThrough cutoff rest (S head) - S head)) by lia.
  done.
Qed.

(** [dropThrough], with its compactions, removes the leading instants up to the cutoff. *)
Lemma dropThrough_spec d cutoff : deque_ok d -> deque_ok (dropThrough d cutoff) /\ live (dropThrough d cutoff) = dropLeq cutoff (live d).
Proof.
  intros Hok. unfold deque_ok, live, dropThrough in *. destruct (skipThrough_spec cutoff (drop (dq_head d) (dq_values d)) (dq_head d)) as (H1 & H2 & H3).
  rewrite length_drop in H1. rewrite <- H3, drop_drop.
  set (h := skipThrough cutoff _ _) in *. replace (dq_head d + (h - dq_head d))%nat with h by lia.
  destruct (Nat.eqb_spec h (length (dq_values d))) as [E|E]; [cbn; split; [lia|]; by rewrite E, drop_all|].
  destruct (_ && _); cbn; (split; [lia|done]).
Qed.

Lemma dequeLen_live d : deque_ok d -> dequeLen d = Z.of_nat (length (live d)).
Proof. intros H. unfold dequeLen, live, deque_ok in *. rewrite length_drop. lia. Qed.

Lemma dequeAt_live d i : dequeAt d i = if i <? 0 then None else live d !! Z.to_nat i.
Proof. unfold dequeAt, live. by rewrite lookup_drop. Qed.

Lemma push_live d v : deque_ok d -> deque_ok (dequePush d v) /\ live (dequePush d v) = live d ++ [v].
Proof. intros H. unfold deque_ok, live, dequePush in *. cbn. rewrite length_app. split; [lia|]. by rewrite drop_app_le. Qed.

Lemma dropLeq_split cutoff l : exists dropped, l = dropped ++ dropLeq cutoff l /\ Forall (fun v => v <= cutoff) dropped.
Proof.
  induction l as [|v l IH]; [by exists []|]. cbn [dropLeq]. destruct (Z.ltb_spec cutoff v); cbn [negb]; [by exists []|].
  destruct IH as (dr & E & H'). exists (v :: dr). cbn. split; [by f_equal|by constructor].
Qed.

(** In a sorted window every remaining instant is after the cutoff. *)
Lemma dropLeq_after cutoff l : StronglySorted Z.le l -> Forall (fun v => cutoff < v) (dropLeq cutoff l).
Proof.
  induction 1 as [|v l Hl IH Hv]; cbn [dropLeq]; [constructor|]. destruct (Z.ltb_spec cutoff v); cbn [negb]; [|done].
  constructor; [done|]. eapply Forall_impl; [exact Hv|]. cbn. lia.
Qed.

(** * Runs of the limiter *)

(** A call as the specification remembers it: the key, the limit in force, the instant and
    whether it was admitted. *)
Record rlCall := mkCall { ca_key : Z; ca_limit : Z; ca_at : Z; ca_allowed : bool }.

(** The calls so far, in order, and the instant of the last one.  The limit is an argument of
    each call: it may change at any time, and a limit of zero or less is no limit. *)
Inductive rl_run : AccessKeyRPM -> list rlCall -> Z -> Prop :=
| rl_new t : rl_run NewAccessKeyRPM [] t
| rl_call l h t id limit now l' d :
    rl_run l h t -> t <= now -> Allow l id limit now = Some (l', d) ->
    rl_run l' (h ++ [mkCall id limit now (ld_Allowed d)]) now.

Definition noteCall (id : Z) (times : list Z) (c : rlCall) : list Z :=
  if negb (ca_key c =? id) then times else if ca_limit c <=? 0 then [] else if ca_allowed c then times ++ [ca_at c] else times.

(** The admissions of a key since its last call without a limit. *)
Definition timesOf (id : Z) (h : list rlCall) : list Z := fold_left (noteCall id) h [].

Lemma timesOf_app id h c : timesOf id (h ++ [c]) = noteCall id (timesOf id h) c.
Proof. unfold timesOf. by rewrite fold_left_app. Qed.

Definition within (s : Z) (times : list Z) : list Z := filter (fun a => s - minute < a <= s) times.

Definition windowOf (l : AccessKeyRPM) (id : Z) : timestampDeque := mget emptyDeque (windows l) id.

Lemma windowOf_insert m c id w : windowOf (mkRPM (<[id := w]> m) c) id = w.
Proof. unfold windowOf, mget. cbn. by rewrite lookup_insert_eq. Qed.

Lemma windowOf_delete m c id : windowOf (mkRPM (delete id m) c) id = emptyDeque.
Proof. unfold windowOf, mget. cbn. by rewrite lookup_delete_eq. Qed.

(** The window of a key holds its admissions, less some that have left the minute. *)
Record window_ok (times : list Z) (w : timestampDeque) (t : Z) : Prop := {
  wo_deque : deque_ok w;
  wo_split : exists dropped, times = dropped ++ live w /\ Forall (fun a => a <= t - minute) dropped;
  wo_sorted : StronglySorted Z.le times;
  wo_past : Forall (fun a => a <= t) times
}.

Lemma window_ok_empty t : window_ok [] emptyDeque t.
Proof. split; [unfold deque_ok; cbn; lia|by exists []|constructor|constructor]. Qed.

Lemma dropThrough_window times w t now :
  t <= now -> window_ok times w t -> window_ok times (dropThrough w (now - minute)) now.
Proof.
  intros Ht [Hd (dr & E & Hdr) Hs Hp]. destruct (dropThrough_spec w (now - minute) Hd) as [Hd' Hl]. split; [done| |done|].
  - destruct (dropLeq_split (now - minute) (live w)) as (dr' & E' & Hdr'). exists (dr ++ dr'). rewrite Hl, <- app_assoc, <- E'. split; [done|].
    apply Forall_app. split; [|done]. eapply Forall_impl; [exact Hdr|]. cbn. lia.
  - eapply Forall_impl; [exact Hp|]. cbn. lia.
Qed.

Lemma window_later times w t now : t <= now -> window_ok times w t -> window_ok times w now.
Proof.
  intros Ht [Hd (dr & E & Hdr) Hs Hp]. split; [done| |done|].
  - exists dr. split; [done|]. eapply Forall_impl; [exact Hdr|]. cbn. lia.
  - eapply Forall_impl; [exact Hp|]. cbn. lia.
Qed.

Lemma cleanup_window l now id times t :
  t <= now -> window_ok times (windowOf l id) t -> window_ok times (windowOf (cleanup l now) id) now.
Proof.
  intros Ht Hw. unfold cleanup. case_if; [by eapply window_later|]. pose proof (dropThrough_window _ _ _ _ Ht Hw) as Hd.
  unfold windowOf, mget in *. cbn [windows]. rewrite lookup_omap. destruct (windows l !! id) as [w|]; cbn in *; [|exact Hd].
  destruct (Z.eqb_spec (dequeLen (dropThrough w (now - minute))) 0) as [Ez|]; [|exact Hd]. cbn.
  destruct Hd as [Hok (dr & Et & Hdr) Hs Hp]. rewrite dequeLen_live in Ez by done.
  split; [unfold deque_ok; cbn; lia| |done|done]. exists dr. split; [|done]. rewrite Et. destruct (live (dropThrough w _)); [done|]. cbn in Ez. lia.
Qed.

(** After dropping, the window holds exactly the admissions of the last minute. *)
Lemma live_exact times w now : window_ok times w now -> Forall (fun a => now - minute < a) (live w) -> live w = within now times.
Proof.
  intros [Hd (dr & E & Hdr) Hs Hp] Hl. unfold within. rewrite E, filter_app. rewrite E in Hp. apply Forall_app in Hp as [Hp1 Hp2].
  replace (filter _ dr) with (@nil Z).
  - cbn. symmetry. apply filter_all_in. intros x Hx. rewrite Forall_forall in Hl, Hp2. split; auto.
  - clear - Hdr. induction Hdr as [|x dr Hx _ IH]; [done|]. rewrite filter_cons, decide_False by lia. done.
Qed.

Lemma sorted_suffix (l1 l2 : list Z) : StronglySorted Z.le (l1 ++ l2) -> StronglySorted Z.le l2.
Proof. induction l1 as [|x l1 IH]; [done|]. cbn. intros [H _]%StronglySorted_inv. auto. Qed.

Lemma push_window times w now : window_ok times w now -> window_ok (times ++ [now]) (dequePush w now) now.
Proof.
  intros [Hd (dr & E & Hdr) Hs Hp]. destruct (push_live w now Hd) as [Hd' Hpl]. split; [done| | |].
  - exists dr. rewrite Hpl, E. split; [by rewrite <- app_assoc|done].
  - clear - Hs Hp. induction times as [|x times IH]; cbn; [repeat constructor|]. apply StronglySorted_inv in Hs as [Hs Hx].
    apply Forall_cons in Hp as [Hx' Hp]. constructor; [by apply IH|]. apply Forall_app. split; [done|by repeat constructor].
  - apply Forall_app. split; [done|]. repeat constructor. lia.
Qed.

(** An admission at [now] takes no minute past what the last one holds after it. *)
Lemma within_push times now s M :
  Forall (fun a => a <= now) times -> Z.of_nat (length (within now times)) < M ->
  Z.of_nat (length (within s times)) <= M -> Z.of_nat (length (within s (times ++ [now]))) <= M.
Proof.
  intros Hp Hlt Hs. unfold within in *. rewrite filter_app, length_app, filter_cons, filter_nil.
  destruct (decide (s - minute < now <= s)) as [Hin|Hin]; cbn [length]; [|lia].
  enough (length (filter (fun a => s - minute < a <= s)%Z times) <= length (filter (fun a => now - minute < a <= now)%Z times))%nat by lia.
  clear - Hin Hp. induction Hp as [|x times Hx _ IH]; [done|]. rewrite !filter_cons.
  destruct (decide (s - minute < x <= s)), (decide (now - minute < x <= now)); cbn; lia.
Qed.

(** * The decision of one call *)

Lemma Allow_limited l id limit now times :
  0 < limit -> window_ok times (windowOf (cleanup l now) id) now ->
  let w := dropThrough (windowOf (cleanup l now) id) (now - minute) in
  window_ok times w now /\ live w = within now times
  /\ Allow l id limit now = Some
       (if limit <=? Z.of_nat (length (live w)) then
          (mkRPM (<[id := w]> (windows (cleanup l now))) (lastCleanup (cleanup l now)),
           mkLimitDecision false (retryAfterOf (nth (length (live w) - Z.to_nat limit) (live w) 0) now))
        else (mkRPM (<[id := dequePush w now]> (windows (cleanup l now))) (lastCleanup (cleanup l now)), mkLimitDecision true 0)).
Proof.
  intros Hlim Hw. cbn zeta. pose proof (dropThrough_window _ _ _ _ (Z.le_refl now) Hw) as Hd.
  assert (Forall (fun a => now - minute < a) (live (dropThrough (windowOf (cleanup l now) id) (now - minute)))) as Hl.
  { destruct (dropThrough_spec (windowOf (cleanup l now) id) (now - minute) (wo_deque _ _ _ Hw)) as [_ ->]. apply dropLeq_after.
    destruct Hw as [_ (dr & E & _) Hs _]. rewrite E in Hs. by eapply sorted_suffix. }
  split; [done|]. split; [by eapply live_exact|]. unfold Allow. rewrite (proj2 (Z.leb_gt limit 0)) by done.
  fold (windowOf (cleanup l now) id). set (w := dropThrough _ _) in *. rewrite dequeLen_live by apply Hd.
  destruct (Z.leb_spec limit (Z.of_nat (length (live w)))) as [Hle|]; [|done].
  rewrite dequeAt_live, (proj2 (Z.ltb_ge _ 0)) by lia.
  replace (Z.to_nat (Z.of_nat (length (live w)) - limit)) with (length (live w) - Z.to_nat limit)%nat by lia.
  assert (length (live w) - Z.to_nat limit < length (live w))%nat as Hlt by lia. apply lookup_lt_is_Some in Hlt as [x Hx].
  rewrite Hx. by rewrite (nth_lookup_Some _ _ _ _ Hx).
Qed.

Lemma Allow_other l id id' limit now l' d :
  Allow l id' limit now = Some (l', d) -> id' <> id -> windowOf l' id = windowOf (cleanup l now) id.
Proof.
  intros Ha Hne. unfold Allow in Ha. unfold windowOf, mget. repeat case_if_in Ha.
  - injection Ha as <- _. cbn. by rewrite lookup_delete_ne.
  - destruct (dequeAt _ _); [|done]. injection Ha as <- _. cbn. by rewrite lookup_insert_ne.
  - injection Ha as <- _. cbn. by rewrite lookup_insert_ne.
Qed.

(** The window of the key of a call, after it. *)
Lemma Allow_window l id limit now l' d times :
  window_ok times (windowOf (cleanup l now) id) now -> Allow l id limit now = Some (l', d) ->
  window_ok (noteCall id times (mkCall id limit now (ld_Allowed d))) (windowOf l' id) now.
Proof.
  intros Hc Ha. unfold noteCall. cbn [ca_key ca_limit ca_at ca_allowed]. rewrite Z.eqb_refl. cbn [negb].
  destruct (Z.leb_spec limit 0) as [Hz|Hlim].
  - unfold Allow in Ha. rewrite (proj2 (Z.leb_le limit 0)) in Ha by done. injection Ha as <- <-. rewrite windowOf_delete. apply window_ok_empty.
  - destruct (Allow_limited l id limit now times Hlim Hc) as (Hw & Hl & E). rewrite E in Ha. injection Ha as Ha.
    destruct (limit <=? _); injection Ha as <- <-; cbn [ld_Allowed]; rewrite windowOf_insert; [done|by apply push_window].
Qed.

(** Every key's window is in order in every run. *)
Lemma rl_run_ok l h t id : rl_run l h t -> window_ok (timesOf id h) (windowOf l id) t.
Proof.
  induction 1 as [t|l h t id' limit now l' d _ IH Ht Ha].
  { assert (windowOf NewAccessKeyRPM id = emptyDeque) as -> by (unfold windowOf, mget; cbn; by rewrite lookup_empty). apply window_ok_empty. }
  pose proof (cleanup_window _ _ _ _ _ Ht IH) as Hc. rewrite timesOf_app. destruct (decide (id' = id)) as [->|Hne].
  - by eapply Allow_window.
  - unfold noteCall. cbn [ca_key]. rewrite (proj2 (Z.eqb_neq _ _)) by done. by rewrite (Allow_other _ _ _ _ _ _ _ Ha Hne).
Qed.

Lemma Allow_allowed l id limit now times :
  0 < limit -> window_ok times (windowOf (cleanup l now) id) now ->
  exists l' d, Allow l id limit now = Some (l', d) /\ (ld_Allowed d = true <-> Z.of_nat (length (within now times)) < limit).
Proof.
  intros Hlim Hw. destruct (Allow_limited l id limit now times Hlim Hw) as (_ & Hl & ->). rewrite Hl.
  destruct (Z.leb_spec limit (Z.of_nat (length (within now times)))); eexists _, _; (split; [done|]); cbn; split; done || lia.
Qed.

(** No minute holds more admissions than the largest limit the key was called with. *)
Lemma rl_run_bounded l h t id M s :
  rl_run l h t -> 0 <= M -> (forall c, c ∈ h -> ca_key c = id -> ca_limit c <= M) ->
  Z.of_nat (length (within s (timesOf id h))) <= M.
Proof.
  intros Hr HM. induction Hr as [t|l h t id' limit now l' d Hr IH Ht Ha]; intros Hall; [cbn; lia|].
  specialize (IH (fun c Hc => Hall c (proj2 (elem_of_app _ _ _) (or_introl Hc)))). rewrite timesOf_app. unfold noteCall. cbn [ca_key ca_limit ca_at ca_allowed].
  destruct (Z.eqb_spec id' id) as [->|]; cbn [negb]; [|done]. destruct (Z.leb_spec limit 0) as [|Hlim]; [cbn; lia|].
  destruct (ld_Allowed d) eqn:Ed; [|done]. pose proof (cleanup_window _ _ _ _ _ Ht (rl_run_ok l h t id Hr)) as Hc.
  destruct (Allow_allowed l id limit now _ Hlim Hc) as (l2 & d2 & Ha2 & Hd2). rewrite Ha in Ha2. injection Ha2 as <- <-. apply Hd2 in Ed.
  specialize (Hall (mkCall id limit now true)). cbn in Hall.
  apply within_push; [apply Hc| |done]. apply Z.lt_le_trans with limit; [done|]. apply Hall; [|done]. apply elem_of_app. right. by apply list_elem_of_singleton.
Qed.

Lemma ceilToSecond_spec d :
  0 < d <= minute -> d <= ceilToSecond d <= minute /\ second <= ceilToSecond d < d + second /\ (second | ceilToSecond d).
Proof.
  intros Hd. unfold ceilToSecond, second, minute in *. rewrite (proj2 (Z.leb_gt d 0)) by lia. rewrite Z.quot_div_nonneg by lia.
  pose proof (Z.div_mod (d + 1000000000 - 1) 1000000000 ltac:(lia)). pose proof (Z.mod_pos_bound (d + 1000000000 - 1) 1000000000 ltac:(lia)).
  split; [lia|]. split; [lia|]. by eexists.
Qed.

Lemma retryAfterOf_spec target now :
  now - minute < target <= now ->
  let retry := retryAfterOf target now in
  second <= retry <= minute /\ (second | retry) /\ target + minute <= now + retry < target + minute + second.
Proof.
  intros Ht. unfold retryAfterOf. assert (timeSub (target + minute) now = target + minute - now) as ->.
  { unfold timeSub, minInt64, maxInt64, minute in *. lia. }
  destruct (ceilToSecond_spec (target + minute - now)) as (H1 & H2 & H3); [unfold minute in *; lia|].
  rewrite (proj2 (Z.ltb_ge _ second)) by lia. rewrite (proj2 (Z.ltb_ge minute _)) by lia. cbn zeta. split; [lia|]. split; [done|lia].
Qed.

Lemma sorted_nth (l : list Z) x k : StronglySorted Z.le (x :: l) -> (k < length l)%nat -> x <= nth k l 0.
Proof. intros [_ Hx]%StronglySorted_inv Hk. rewrite Forall_forall in Hx. apply Hx, list_elem_of_In, nth_In. done. Qed.

(** Beyond the [k]-th instant of a sorted list, and before it. *)
Lemma sorted_beyond (l : list Z) k cutoff :
  StronglySorted Z.le l -> (k < length l)%nat -> nth k l 0 <= cutoff ->
  (length (filter (fun a => (cutoff < a)%Z) l) <= length l - S k)%nat.
Proof.
  intros Hs. revert k. induction l as [|x l IH]; intros k Hk Hn; [cbn in Hk; lia|]. rewrite filter_cons.
  destruct k as [|k]; cbn [nth] in Hn.
  - rewrite decide_False by lia. pose proof (length_filter (fun a => cutoff < a) l). cbn. lia.
  - cbn in Hk. pose proof (sorted_nth l x k Hs ltac:(lia)). apply StronglySorted_inv in Hs as [Hs _].
    specialize (IH Hs k ltac:(lia) Hn). rewrite decide_False by lia. cbn. lia.
Qed.

Lemma sorted_from (l : list Z) k cutoff :
  StronglySorted Z.le l -> (k < length l)%nat -> cutoff < nth k l 0 ->
  (length l - k <= length (filter (fun a => (cutoff < a)%Z) l))%nat.
Proof.
  intros Hs. revert k. induction l as [|x l IH]; intros k Hk Hn; [cbn in Hk; lia|].
  destruct k as [|k]; cbn [nth] in Hn.
  - rewrite filter_all_in; [cbn; lia|]. intros a [->|Ha]%elem_of_cons; [done|]. apply StronglySorted_inv in Hs as [_ Hx].
    rewrite Forall_forall in Hx. specialize (Hx a Ha). lia.
  - apply StronglySorted_inv in Hs as [Hs _]. specialize (IH Hs k ltac:(cbn in Hk; lia) Hn). rewrite filter_cons. case_decide; cbn; lia.
Qed.

(** Later, exactly the instants of this minute's window that have not left it remain. *)
Lemma within_later now now' times :
  Forall (fun a => a <= now) times -> now <= now' ->
  within now' times = filter (fun a => (now' - minute < a)%Z) (within now times).
Proof.
  intros Hp Hn. unfold within. induction Hp as [|x times Hx _ IH]; [done|]. rewrite !(filter_cons _ x).
  destruct (decide (now' - minute < x <= now')) as [H1|H1], (decide (now - minute < x <= now)) as [H2|H2]; try (exfalso; lia).
  - rewrite filter_cons, decide_True by lia. by f_equal.
  - rewrite filter_cons, decide_False by lia. done.
  - done.
Qed.

(** C36: The request rate of a key.  In every run of the limiter, over all keys, with limits
    that may change from call to call and a clock that does not go backwards, and counting for
    each key its admissions since its last call without a limit: no minute contains more of
    them than the largest limit the key was called with; a call without a limit is admitted; a
    call with a limit is decided without a fault and admitted exactly when fewer than the limit
    were admitted in the past minute; and a refusal names a waiting time of whole seconds,
    between one second and one minute, after which the key, if it sends nothing in between and
    keeps its limit, is admitted, and up to a second before which it is still refused. *)
Theorem rate_limit_sliding l h t id limit now :
  rl_run l h t -> t <= now ->
  (forall M s, 0 <= M -> (forall c, c ∈ h -> ca_key c = id -> ca_limit c <= M) -> Z.of_nat (length (within s (timesOf id h))) <= M)
  /\ exists l' d, Allow l id limit now = Some (l', d)
    /\ (limit <= 0 -> ld_Allowed d = true)
    /\ (0 < limit -> (ld_Allowed d = true <-> Z.of_nat (length (within now (timesOf id h))) < limit))
    /\ (ld_Allowed d = false ->
        second <= ld_RetryAfter d <= minute /\ (second | ld_RetryAfter d)
        /\ (exists l'' d', Allow l' id limit (now + ld_RetryAfter d) = Some (l'', d') /\ ld_Allowed d' = true)
        /\ forall sooner, now <= sooner <= now + ld_RetryAfter d - second ->
             exists l'' d', Allow l' id limit sooner = Some (l'', d') /\ ld_Allowed d' = false).
Proof.
  intros Hr Ht. split; [intros; by eapply rl_run_bounded|].
  destruct (Z.leb_spec limit 0) as [Hz|Hlim].
  { unfold Allow. rewrite (proj2 (Z.leb_le limit 0)) by done. eexists _, _. split; [done|]. cbn. split; [done|]. split; [lia|done]. }
  pose proof (cleanup_window _ _ _ _ _ Ht (rl_run_ok l h t id Hr)) as Hc.
  destruct (Allow_limited l id limit now (timesOf id h) Hlim Hc) as (Hwin & Hl & Ha).
  set (w := dropThrough _ _) in *. rewrite Ha. rewrite Hl in *.
  destruct (Z.leb_spec limit (Z.of_nat (length (within now (timesOf id h))))) as [Hle|Hlt];
    eexists _, _; (split; [done|]); cbn [ld_Allowed ld_RetryAfter]; (split; [lia|]); (split; [intros _; split; [done|lia]|]); [|done]. intros _.
  set (L := within now (timesOf id h)) in *. set (k := (length L - Z.to_nat limit)%nat). set (target := nth k L 0).
  assert (k < length L)%nat as Hk by (subst k; lia).
  assert (target ∈ L) as Hin by (apply list_elem_of_In, nth_In; done).
  assert (now - minute < target <= now) as Htar by (subst L; by apply list_elem_of_filter in Hin as [? _]).
  destruct (retryAfterOf_spec target now Htar) as (Hra & Hdiv & Hafter). split; [done|]. split; [done|].
  assert (StronglySorted Z.le L) as HsL.
  { subst L. rewrite <- Hl. destruct Hwin as [_ (dr & E & _) Hs _]. rewrite E in Hs. by eapply sorted_suffix. }
  set (l' := mkRPM _ _) in *.
  assert (forall now', now <= now' -> exists l'' d', Allow l' id limit now' = Some (l'', d')
      /\ (ld_Allowed d' = true <-> Z.of_nat (length (filter (fun a => now' - minute < a) L)) < limit)) as Hnext.
  { intros now' Hn. subst L. rewrite <- within_later by (apply Hwin || done). apply Allow_allowed; [done|]. apply (cleanup_window _ _ _ _ now); [done|].
    subst l'. by rewrite windowOf_insert. }
  split.
  - destruct (Hnext (now + retryAfterOf target now)) as (l'' & d' & Ha' & Hd'); [unfold second in *; lia|]. exists l'', d'. split; [done|]. apply Hd'.
    pose proof (sorted_beyond L k (now + retryAfterOf target now - minute) HsL Hk ltac:(fold target; lia)). subst k. lia.
  - intros sooner [Hs1 Hs2]. destruct (Hnext sooner Hs1) as (l'' & d' & Ha' & Hd'). exists l'', d'. split; [done|]. apply not_true_iff_false.
    intros Hx%Hd'. pose proof (sorted_from L k (sooner - minute) HsL Hk ltac:(fold target; lia)). subst k. lia.
Qed.

Definition exT0 : Z := unixEpoch.

(** A run of the given calls. *)
Fixpoint runCalls (l : AccessKeyRPM) (h : list rlCall) (t : Z) (cs : list (Z * Z * Z)) : option (AccessKeyRPM * list rlCall * Z) :=
  match cs with
  | [] => Some (l, h, t)
  | (id, limit, now) :: cs =>
      if now <? t then None
      else match Allow l id limit now with
           | Some (l', d) => runCalls l' (h ++ [mkCall id limit now (ld_Allowed d)]) now cs
           | None => None
           end
  end.

Lemma runCalls_run cs l h t l' h' t' : rl_run l h t -> runCalls l h t cs = Some (l', h', t') -> rl_run l' h' t'.
Proof.
  revert l h t. induction cs as [|[[id limit] now] cs IH]; intros l h t Hr; cbn [runCalls]; [by intros [= <- <- <-]|].
  destruct (Z.ltb_spec now t); [done|]. destruct (Allow l id limit now) as [[l1 d]|] eqn:E; [|done]. apply IH. by eapply rl_call.
Qed.

(** Five admissions under a limit of five, one a second. *)
Definition exCalls : list (Z * Z * Z) := (fun k => (7, 5, exT0 + k * second)) <$> [0; 1; 2; 3; 4].

(** After ten seconds the limit is three: the third admission has to leave the window. *)
Lemma rate_limit_sliding_witness :
  match runCalls NewAccessKeyRPM [] exT0 exCalls with
  | Some (l, _, _) =>
      exists l' d, Allow l 7 3 (exT0 + 10 * second) = Some (l', d) /\ ld_Allowed d = false /\ ld_RetryAfter d = 52 * second
        /\ exists l'' d', Allow l' 7 3 (exT0 + 62 * second) = Some (l'', d') /\ ld_Allowed d' = true
  | None => False
  end.
Proof.
  destruct (runCalls NewAccessKeyRPM [] exT0 exCalls) as [[[l h] t]|] eqn:E; [|vm_compute in E; discriminate E].
  pose proof (runCalls_run _ _ _ _ _ _ _ (rl_new exT0) E) as Hr.
  assert (t <= exT0 + 10 * second) as Ht by (clear Hr; vm_compute in E; injection E as <- <- <-; vm_compute; discriminate).
  destruct (rate_limit_sliding l h t 7 3 (exT0 + 10 * second) Hr Ht) as [_ (l' & d & Ha & _ & _ & Hretry)].
  assert (ld_Allowed d = false /\ ld_RetryAfter d = 52 * second) as [Hf Hw].
  { clear Hr Ht Hretry. vm_compute in E. injection E as <- <- <-. vm_compute in Ha. injection Ha as <- <-. split; reflexivity. }
  exists l', d. split; [exact Ha|]. split; [exact Hf|]. split; [exact Hw|].
  destruct (Hretry Hf) as (_ & _ & (l'' & d' & Hn & Hok) & _). exists l'', d'. rewrite Hw in Hn. split; [|exact Hok].
  replace (exT0 + 62 * second) with (exT0 + 10 * second + 52 * second) by (vm_compute; reflexivity). exact Hn.
Defined.

(** Concurrency limits ([internal/ratelimit/concurrency.go]): counters of the requests that are
    still running, globally and per access key, group and account, and the account's requests
    per minute.

    A successful acquisition returns a release function that takes effect once
    ([sync.OnceFunc]): a lease is released while it is outstanding, and later calls do
    nothing. *)

Record Concurrency := mkConcurrency {
  cc_global : Z;
  cc_accessKeys : gmap Z Z;
  cc_groups : gmap Z Z;
  cc_accounts : gmap string Z;
  cc_accountWindows : gmap string timestampDeque;
  cc_lastSweep : Z
}.

Definition NewConcurrency : Concurrency := mkConcurrency 0 ∅ ∅ ∅ ∅ 0.

(** [m[k]++], and [m[k]--] with the deletion of a zero. *)
Definition incr {K} `{Countable K} (k : K) (m : gmap K Z) : gmap K Z := <[k := i64 (mget 0 m k + 1)]> m.

Definition decr {K} `{Countable K} (k : K) (m : gmap K Z) : gmap K Z :=
  let v := i64 (mget 0 m k - 1) in
  if v =? 0 then delete k m else <[k := v]> m.

Definition TryAcquireRequest (c : Concurrency) (key globalLimit keyLimit : Z) : option Concurrency :=
  if ((0 <? globalLimit) && (globalLimit <=? cc_global c)) || ((0 <? keyLimit) && (keyLimit <=? mget 0 (cc_accessKeys c) key))
  then None
  else Some (mkConcurrency (i64 (cc_global c + 1)) (incr key (cc_accessKeys c)) (cc_groups c) (cc_accounts c) (cc_accountWindows c) (cc_lastSweep c)).

Definition releaseRequest (c : Concurrency) (key : Z) : Concurrency :=
  mkConcurrency (i64 (cc_global c - 1)) (decr key (cc_accessKeys c)) (cc_groups c) (cc_accounts c) (cc_accountWindows c) (cc_lastSweep c).

Definition sweepAccountWindows (c : Concurrency) (now : Z) : Concurrency :=
  if timeSub now (cc_lastSweep c) <? minute then c
  else mkConcurrency (cc_global c) (cc_accessKeys c) (cc_groups c) (cc_accounts c)
         (omap (fun w => let w' := dropThrough w (now - minute) in if dequeLen w' =? 0 then None else Some w') (cc_accountWindows c)) now.

Inductive Refusal := GroupConcurrency | AccountConcurrency | AccountRPM.

Definition withWindows (c : Concurrency) (ws : gmap string timestampDeque) : Concurrency :=
  mkConcurrency (cc_global c) (cc_accessKeys c) (cc_groups c) (cc_accounts c) ws (cc_lastSweep c).

(** The state after the call and the reason of a refusal. *)
Definition TryAcquireGroupAccount (c : Concurrency) (group limit : Z) (account : string) (accountLimit accountRPM now : Z)
  : Concurrency * option Refusal :=
  let c := sweepAccountWindows c now in
  if (0 <? limit) && (limit <=? mget 0 (cc_groups c) group) then (c, Some GroupConcurrency)
  else if bool_decide (account = EmptyString) then
    (mkConcurrency (cc_global c) (cc_accessKeys c) (incr group (cc_groups c)) (cc_accounts c) (cc_accountWindows c) (cc_lastSweep c), None)
  else if (0 <? accountLimit) && (accountLimit <=? mget 0 (cc_accounts c) account) then (c, Some AccountConcurrency)
  else
    let window := dropThrough (mget emptyDeque (cc_accountWindows c) account) (now - minute) in
    if (0 <? accountRPM) && (accountRPM <=? dequeLen window) then (withWindows c (<[account := window]> (cc_accountWindows c)), Some AccountRPM)
    else
      let window' := if 0 <? accountRPM then dequePush window now else window in
      let ws := if 0 <? dequeLen window' then <[account := window']> (cc_accountWindows c) else delete account (cc_accountWindows c) in
      (mkConcurrency (cc_global c) (cc_accessKeys c) (incr group (cc_groups c)) (incr account (cc_accounts c)) ws (cc_lastSweep c), None).

Definition TryAcquireGroup (c : Concurrency) (group limit now : Z) : Concurrency * bool :=
  let '(c', reason) := TryAcquireGroupAccount c group limit EmptyString 0 0 now in (c', isNil reason).

Definition releaseGroupAccount (c : Concurrency) (group : Z) (account : string) : Concurrency :=
  mkConcurrency (cc_global c) (cc_accessKeys c) (decr group (cc_groups c))
    (if bool_decide (account = EmptyString) then cc_accounts c else decr account (cc_accounts c)) (cc_accountWindows c) (cc_lastSweep c).

Record ConcurrencySnapshot := mkSnapshot { ss_Global : Z; ss_AccessKeys : gmap Z Z; ss_Groups : gmap Z Z }.

Definition concurrencySnapshot (c : Concurrency) : ConcurrencySnapshot := mkSnapshot (cc_global c) (cc_accessKeys c) (cc_groups c).

Definition AccessKeyCurrent (c : Concurrency) (id : Z) : Z := mget 0 (cc_accessKeys c) id.

(** * Counters *)

Inductive Lease := RequestLease (key : Z) | GroupLease (group : Z) (account : string).

Definition release (c : Concurrency) (x : Lease) : Concurrency :=
  match x with RequestLease key => releaseRequest c key | GroupLease g a => releaseGroupAccount c g a end.

(** A counter map holds exactly the positive counts. *)
Definition counts {K} `{Countable K} (m : gmap K Z) (f : K -> Z) : Prop :=
  forall k, 0 <= f k /\ m !! k = if f k =? 0 then None else Some (f k).

Section counters.
Context {K : Type} `{Countable K}.

Lemma counts_get (m : gmap K Z) f k : counts m f -> mget 0 m k = f k.
Proof. intros Hc. destruct (Hc k) as [_ E]. unfold mget. rewrite E. by destruct (Z.eqb_spec (f k) 0) as [->|]. Qed.

Lemma counts_ext (m : gmap K Z) f g : (forall k, f k = g k) -> counts m f -> counts m g.
Proof. intros E Hc k. rewrite <- E. apply Hc. Qed.

Lemma counts_incr (m : gmap K Z) f k :
  counts m f -> f k < maxInt64 -> counts (incr k m) (fun x => if decide (x = k) then f x + 1 else f x).
Proof.
  intros Hc Hm x. destruct (Hc k) as [Hk _]. unfold incr. rewrite (counts_get m f k Hc).
  assert (i64 (f k + 1) = f k + 1) as -> by (unfold_ints; rewrite Z.mod_small; lia).
  destruct (decide (x = k)) as [->|Hne].
  - split; [lia|]. rewrite lookup_insert_eq. by rewrite (proj2 (Z.eqb_neq _ 0)) by lia.
  - rewrite lookup_insert_ne by done. apply Hc.
Qed.

Lemma counts_decr (m : gmap K Z) f k :
  counts m f -> 0 < f k <= maxInt64 -> counts (decr k m) (fun x => if decide (x = k) then f x - 1 else f x).
Proof.
  intros Hc Hm x. unfold decr. rewrite (counts_get m f k Hc).
  assert (i64 (f k - 1) = f k - 1) as -> by (unfold_ints; rewrite Z.mod_small; lia).
  destruct (decide (x = k)) as [->|Hne].
  - split; [lia|]. destruct (Z.eqb_spec (f k - 1) 0); [apply lookup_delete_eq|apply lookup_insert_eq].
  - case_if; rewrite ?lookup_delete_ne, ?lookup_insert_ne by done; apply Hc.
Qed.
End counters.

(** * Runs *)

Definition count (P : Lease -> bool) (ls : list Lease) : Z := Z.of_nat (length (filter (fun x => P x = true) ls)).

Definition isRequest (x : Lease) : bool := match x with RequestLease _ => true | GroupLease _ _ => false end.
Definition requestOf (k : Z) (x : Lease) : bool := match x with RequestLease k' => k' =? k | GroupLease _ _ => false end.
Definition groupOf (g : Z) (x : Lease) : bool := match x with RequestLease _ => false | GroupLease g' _ => g' =? g end.
Definition accountOf (a : string) (x : Lease) : bool :=
  match x with RequestLease _ => false | GroupLease _ a' => bool_decide (a' = a) && negb (bool_decide (a' = EmptyString)) end.

(** The counters and the outstanding leases.  Fewer than [2^63] requests run at once. *)
Inductive cc_run : Concurrency -> list Lease -> Prop :=
| cc_new : cc_run NewConcurrency []
| cc_request c ls key gl kl c' :
    cc_run c ls -> Z.of_nat (length ls) < maxInt64 -> TryAcquireRequest c key gl kl = Some c' -> cc_run c' (RequestLease key :: ls)
| cc_group c ls g limit a al ar now c' :
    cc_run c ls -> Z.of_nat (length ls) < maxInt64 -> TryAcquireGroupAccount c g limit a al ar now = (c', None) -> cc_run c' (GroupLease g a :: ls)
| cc_refused c ls g limit a al ar now c' why :
    cc_run c ls -> TryAcquireGroupAccount c g limit a al ar now = (c', Some why) -> cc_run c' ls
| cc_release c ls x ls' : cc_run c ls -> ls ≡ₚ x :: ls' -> cc_run (release c x) ls'.

Record cc_ok (c : Concurrency) (ls : list Lease) : Prop := {
  cc_size : Z.of_nat (length ls) <= maxInt64;
  cc_total : cc_global c = count isRequest ls;
  cc_keys : counts (cc_accessKeys c) (fun k => count (requestOf k) ls);
  cc_grps : counts (cc_groups c) (fun g => count (groupOf g) ls);
  cc_accs : counts (cc_accounts c) (fun a => count (accountOf a) ls)
}.

Lemma count_cons P x ls : count P (x :: ls) = (if P x then 1 else 0) + count P ls.
Proof. unfold count. rewrite filter_cons. destruct (P x); [rewrite decide_True by done|rewrite decide_False by done]; cbn [length]; lia. Qed.

Lemma count_perm P ls ls' : ls ≡ₚ ls' -> count P ls = count P ls'.
Proof. intros Hp. unfold count. by rewrite Hp. Qed.

Lemma count_bound P ls : 0 <= count P ls <= Z.of_nat (length ls).
Proof. unfold count. pose proof (length_filter (fun x => P x = true) ls). lia. Qed.

Lemma sweep_same c now :
  cc_global (sweepAccountWindows c now) = cc_global c /\ cc_accessKeys (sweepAccountWindows c now) = cc_accessKeys c
  /\ cc_groups (sweepAccountWindows c now) = cc_groups c /\ cc_accounts (sweepAccountWindows c now) = cc_accounts c.
Proof. unfold sweepAccountWindows. by case_if. Qed.

(** What an acquisition does to the counters, and when it is granted. *)
Lemma acquireGroup_spec c g limit a al ar now c' o :
  TryAcquireGroupAccount c g limit a al ar now = (c', o) ->
  cc_global c' = cc_global c /\ cc_accessKeys c' = cc_accessKeys c
  /\ match o with
     | Some _ => cc_groups c' = cc_groups c /\ cc_accounts c' = cc_accounts c
     | None => cc_groups c' = incr g (cc_groups c) /\ cc_accounts c' = (if bool_decide (a = EmptyString) then cc_accounts c else incr a (cc_accounts c))
         /\ (0 < limit -> mget 0 (cc_groups c) g < limit) /\ (a <> EmptyString -> 0 < al -> mget 0 (cc_accounts c) a < al)
     end.
Proof.
  destruct (sweep_same c now) as (E1 & E2 & E3 & E4). unfold TryAcquireGroupAccount. rewrite E3, E4.
  destruct (Z.ltb_spec 0 limit), (Z.leb_spec limit (mget 0 (cc_groups c) g)); cbn [andb]; try (intros [= <- <-]; by rewrite ?E1, ?E2, ?E3, ?E4).
  all: destruct (decide (a = EmptyString)) as [Ha|Ha];
    [rewrite (bool_decide_eq_true_2 _ Ha); intros [= <- <-]; cbn; rewrite ?E1, ?E2, ?E3, ?E4; split_and!; try done; lia|].
  all: rewrite (bool_decide_eq_false_2 _ Ha);
    destruct (Z.ltb_spec 0 al), (Z.leb_spec al (mget 0 (cc_accounts c) a)); cbn [andb]; try (intros [= <- <-]; by rewrite ?E1, ?E2, ?E3, ?E4).
  all: destruct ((0 <? ar) && _); intros [= <- <-]; cbn; rewrite ?E1, ?E2, ?E3, ?E4; split_and!; try done; lia.
Qed.

Lemma cc_ok_acquired_request c ls key :
  cc_ok c ls -> Z.of_nat (length ls) < maxInt64 ->
  cc_ok (mkConcurrency (i64 (cc_global c + 1)) (incr key (cc_accessKeys c)) (cc_groups c) (cc_accounts c) (cc_accountWindows c) (cc_lastSweep c))
    (RequestLease key :: ls).
Proof.
  intros [Hs Ht Hk Hg Ha] Hlt. pose proof (count_bound isRequest ls) as Hb. pose proof (count_bound (requestOf key) ls) as Hbk.
  split; cbn [cc_global cc_accessKeys cc_groups cc_accounts length].
  - lia.
  - rewrite count_cons, Ht. cbn [isRequest]. unfold_ints. rewrite Z.mod_small; lia.
  - eapply counts_ext; [|apply counts_incr; [exact Hk|cbn beta; lia]]. intros k. cbn beta. rewrite count_cons. cbn [requestOf].
    destruct (decide (k = key)) as [->|Hne]; [rewrite Z.eqb_refl; lia|]. rewrite (proj2 (Z.eqb_neq _ _)) by done. lia.
  - eapply counts_ext; [|exact Hg]. intros g. cbn beta. by rewrite count_cons.
  - eapply counts_ext; [|exact Ha]. intros a. cbn beta. by rewrite count_cons.
Qed.

Lemma cc_ok_acquired_group c c' ls g a :
  cc_ok c ls -> Z.of_nat (length ls) < maxInt64 -> cc_global c' = cc_global c -> cc_accessKeys c' = cc_accessKeys c ->
  cc_groups c' = incr g (cc_groups c) -> cc_accounts c' = (if bool_decide (a = EmptyString) then cc_accounts c else incr a (cc_accounts c)) ->
  cc_ok c' (GroupLease g a :: ls).
Proof.
  intros [Hs Ht Hk Hg Ha] Hlt E1 E2 E3 E4. pose proof (count_bound (groupOf g) ls) as Hbg. pose proof (count_bound (accountOf a) ls) as Hba.
  split; [cbn [length]; lia|rewrite E1, count_cons, Ht; cbn; lia| | |].
  - rewrite E2. eapply counts_ext; [|exact Hk]. intros k. cbn beta. by rewrite count_cons.
  - rewrite E3. eapply counts_ext; [|apply counts_incr; [exact Hg|cbn beta; lia]]. intros k. cbn beta. rewrite count_cons. cbn [groupOf].
    destruct (decide (k = g)) as [->|Hne]; [rewrite Z.eqb_refl; lia|]. rewrite (proj2 (Z.eqb_neq _ _)) by done. lia.
  - rewrite E4. destruct (decide (a = EmptyString)) as [He|He].
    + rewrite (bool_decide_eq_true_2 _ He). eapply counts_ext; [|exact Ha]. intros k. cbn beta. rewrite count_cons. cbn [accountOf].
      by rewrite (bool_decide_eq_true_2 _ He), andb_false_r.
    + rewrite (bool_decide_eq_false_2 _ He). eapply counts_ext; [|apply counts_incr; [exact Ha|cbn beta; lia]]. intros k. cbn beta. rewrite count_cons.
      cbn [accountOf]. rewrite (bool_decide_eq_false_2 _ He), andb_true_r.
      destruct (decide (k = a)) as [->|Hne]; [rewrite bool_decide_eq_true_2 by done; lia|]. rewrite bool_decide_eq_false_2 by congruence. lia.
Qed.

Lemma cc_ok_released c ls x ls' : cc_ok c ls -> ls ≡ₚ x :: ls' -> cc_ok (release c x) ls'.
Proof.
  intros [Hs Ht Hk Hg Ha] Hp. rewrite Hp in Hs. cbn [length] in Hs.
  assert (forall P, count P ls = (if P x then 1 else 0) + count P ls') as Hc by (intros P; by rewrite (count_perm P _ _ Hp), count_cons).
  destruct x as [key|g a]; cbn [release].
  - pose proof (count_bound isRequest ls') as Hb. pose proof (count_bound (requestOf key) ls') as Hbk.
    split; cbn [cc_global cc_accessKeys cc_groups cc_accounts releaseRequest].
    + lia.
    + rewrite Ht, Hc. cbn [isRequest]. unfold_ints. rewrite Z.mod_small; lia.
    + eapply counts_ext; [|apply counts_decr; [exact Hk|cbn beta; rewrite Hc; cbn [requestOf]; rewrite Z.eqb_refl; lia]]. intros k. cbn beta. rewrite Hc. cbn [requestOf].
      destruct (decide (k = key)) as [->|Hne]; [rewrite Z.eqb_refl; lia|]. rewrite (proj2 (Z.eqb_neq _ _)) by done. lia.
    + eapply counts_ext; [|exact Hg]. intros k. cbn beta. by rewrite Hc.
    + eapply counts_ext; [|exact Ha]. intros k. cbn beta. by rewrite Hc.
  - pose proof (count_bound (groupOf g) ls') as Hb. pose proof (count_bound (accountOf a) ls') as Hba.
    split; cbn [cc_global cc_accessKeys cc_groups cc_accounts releaseGroupAccount].
    + lia.
    + by rewrite Ht, Hc.
    + eapply counts_ext; [|exact Hk]. intros k. cbn beta. by rewrite Hc.
    + eapply counts_ext; [|apply counts_decr; [exact Hg|cbn beta; rewrite Hc; cbn [groupOf]; rewrite Z.eqb_refl; lia]]. intros k. cbn beta. rewrite Hc. cbn [groupOf].
      destruct (decide (k = g)) as [->|Hne]; [rewrite Z.eqb_refl; lia|]. rewrite (proj2 (Z.eqb_neq _ _)) by done. lia.
    + destruct (decide (a = EmptyString)) as [He|He].
      * rewrite (bool_decide_eq_true_2 _ He). eapply counts_ext; [|exact Ha]. intros k. cbn beta. rewrite Hc. cbn [accountOf].
        by rewrite (bool_decide_eq_true_2 _ He), andb_false_r.
      * rewrite (bool_decide_eq_false_2 _ He).
        assert (forall k, accountOf k (GroupLease g a) = bool_decide (a = k)) as Hac by (intros k; cbn; by rewrite (bool_decide_eq_false_2 _ He), andb_true_r).
        eapply counts_ext; [|apply counts_decr; [exact Ha|cbn beta; rewrite Hc, Hac, bool_decide_eq_true_2 by done; lia]]. intros k. cbn beta. rewrite Hc, Hac.
        destruct (decide (k = a)) as [->|Hne]; [rewrite bool_decide_eq_true_2 by done; lia|]. rewrite bool_decide_eq_false_2 by congruence. lia.
Qed.

Lemma cc_run_ok c ls : cc_run c ls -> cc_ok c ls.
Proof.
  induction 1 as [|c ls key gl kl c' _ IH Hlt H|c ls g limit a al ar now c' _ IH Hlt H|c ls g limit a al ar now c' why _ IH H|c ls x ls' _ IH Hp].
  - split; cbn; [unfold maxInt64; lia|done|..]; intros k; (split; [done|]); apply lookup_empty.
  - unfold TryAcquireRequest in H. case_if_in H; [done|]. injection H as <-. by apply cc_ok_acquired_request.
  - apply acquireGroup_spec in H as (E1 & E2 & E3 & E4 & _). by eapply cc_ok_acquired_group.
  - apply acquireGroup_spec in H as (E1 & E2 & E3 & E4). destruct IH as [Hs Ht Hk Hg Ha]. split; [done|..]; by rewrite ?E1, ?E2, ?E3, ?E4.
  - by eapply cc_ok_released.
Qed.

(** Concurrency is counted exactly and bounded.  In every run, the counters are the numbers
    of outstanding requests, in total and per access key, group and account, with no entry left
    for an idle one; a request is admitted exactly when neither its global nor its key limit is
    reached (a limit of zero is no limit); and an admitted request never takes its group or
    account past the limit it was admitted under. *)
Theorem concurrency_exact c ls key gl kl g limit a al ar now :
  cc_run c ls ->
  cc_global c = count isRequest ls
  /\ (forall k, AccessKeyCurrent c k = count (requestOf k) ls) /\ (forall k, mget 0 (cc_groups c) k = count (groupOf k) ls)
  /\ (forall k, mget 0 (cc_accounts c) k = count (accountOf k) ls)
  /\ (ls = [] -> concurrencySnapshot c = mkSnapshot 0 ∅ ∅ /\ cc_accounts c = ∅)
  /\ (is_Some (TryAcquireRequest c key gl kl) <-> (0 < gl -> count isRequest ls < gl) /\ (0 < kl -> count (requestOf key) ls < kl))
  /\ ((TryAcquireGroupAccount c g limit a al ar now).2 = None ->
      (0 < limit -> count (groupOf g) (GroupLease g a :: ls) <= limit)
      /\ (a <> EmptyString -> 0 < al -> count (accountOf a) (GroupLease g a :: ls) <= al)).
Proof.
  intros Hr. apply cc_run_ok in Hr as [Hs Ht Hk Hg Ha]. split_and!.
  - done.
  - intros k. by apply (counts_get _ (fun k => count (requestOf k) ls)).
  - intros k. by apply (counts_get _ (fun k => count (groupOf k) ls)).
  - intros k. by apply (counts_get _ (fun k => count (accountOf k) ls)).
  - intros ->. unfold concurrencySnapshot. rewrite Ht. split; [f_equal|]; apply map_eq; intros k; rewrite lookup_empty.
    + by destruct (Hk k).
    + by destruct (Hg k).
    + by destruct (Ha k).
  - unfold TryAcquireRequest. rewrite (counts_get _ _ key Hk), Ht. cbn beta.
    destruct (Z.ltb_spec 0 gl), (Z.leb_spec gl (count isRequest ls)); cbn [andb orb];
      destruct (Z.ltb_spec 0 kl), (Z.leb_spec kl (count (requestOf key) ls)); cbn [andb orb];
      rewrite ?is_Some_alt; cbn; split; try done; intros; lia.
  - destruct (TryAcquireGroupAccount c g limit a al ar now) as [c' o] eqn:E. cbn [snd]. intros ->.
    apply acquireGroup_spec in E as (_ & _ & _ & _ & Hlim & Hal). rewrite (counts_get _ _ g Hg) in Hlim. rewrite (counts_get _ _ a Ha) in Hal. cbn beta in *.
    rewrite !count_cons. cbn [groupOf accountOf]. rewrite Z.eqb_refl. split; [lia|]. intros He Hpos. specialize (Hal He Hpos). case_if; lia.
Qed.

Definition exC1 : Concurrency := default NewConcurrency (TryAcquireRequest NewConcurrency 4 1 0).

(** A global limit of one admits one request at a time. *)
Lemma concurrency_exact_witness :
  TryAcquireRequest exC1 9 1 0 = None /\ cc_global exC1 = 1 /\ concurrencySnapshot (release exC1 (RequestLease 4)) = mkSnapshot 0 ∅ ∅.
Proof.
  assert (cc_run exC1 [RequestLease 4]) as H1 by (apply (cc_request NewConcurrency [] 4 1 0); [apply cc_new|vm_compute; reflexivity|vm_compute; reflexivity]).
  assert (cc_run (release exC1 (RequestLease 4)) []) as H0 by (eapply cc_release; [exact H1|reflexivity]).
  split; [vm_compute; reflexivity|]. split.
  - destruct (concurrency_exact exC1 [RequestLease 4] 0 0 0 0 0 EmptyString 0 0 0 H1) as [H _]. rewrite H. vm_compute. reflexivity.
  - destruct (concurrency_exact _ _ 0 0 0 0 0 EmptyString 0 0 0 H0) as (_ & _ & _ & _ & H & _). apply (H eq_refl).
Defined.
