(* ===== verification/RpmStore.v ===== *)
(** Request statistics ([internal/rpm/store.go]): a ring of sixty one-second counters per
    access key or credential with their running sum, and one bucket per minute that is
    persisted by a background worker.

    The store's mutex makes each method atomic.  The notifier called after a record has no
    effect on the store.  Counters grow by one per request and a version by at most two, so
    their 64 bits are never exhausted and the counts are plain integers. *)
From S2P Require Import Prelude.

Local Open Scope Z_scope.

(** * Data *)

Definition AccessKey : string := "access_key".
Definition Credential : string := "credential".

Record Counter := mkCounter { Requests : Z; Rejected : Z }.

Definition zeroCounter : Counter := mkCounter 0 0.
Definition cAdd (a b : Counter) : Counter := mkCounter (Requests a + Requests b) (Rejected a + Rejected b).
Definition cSub (a b : Counter) : Counter := mkCounter (Requests a - Requests b) (Rejected a - Rejected b).

Record Snapshot := mkSnapshot {
  sn_Kind : string;
  sn_KeyID : Z;
  sn_MinuteMS : Z;
  sn_SessionID : string;
  sn_Counter : Counter;
  sn_Peak : Z;
  sn_Version : Z
}.

Definition key : Type := string * Z.
Definition bucketKey : Type := key * Z.

Record bucket := mkBucket { b_Snapshot : Snapshot; persisted : Z }.

Record window := mkWindow {
  seconds : list Counter;
  current : Counter;
  w_second : Z;
  lastRequest : Z
}.

Record Store := mkStore {
  windows : gmap key window;
  buckets : gmap bucketKey bucket;
  sessionID : string
}.

Definition maxBuckets : Z := 65536.

(** The session identifier is drawn at random when the process starts. *)
Definition NewStore (session : string) : Store := mkStore ∅ ∅ session.

Definition withCounter (c : Counter) (b : bucket) : bucket :=
  let s := b_Snapshot b in
  mkBucket (mkSnapshot (sn_Kind s) (sn_KeyID s) (sn_MinuteMS s) (sn_SessionID s) c (sn_Peak s) (sn_Version s)) (persisted b).

(** The assignment of a peak and the increment of the version that follows it. *)
Definition withPeak (peak : Z) (b : bucket) : bucket :=
  let s := b_Snapshot b in
  mkBucket (mkSnapshot (sn_Kind s) (sn_KeyID s) (sn_MinuteMS s) (sn_SessionID s) (sn_Counter s) peak (sn_Version s + 1)) (persisted b).

Definition withPersisted (p : Z) (b : bucket) : bucket := mkBucket (b_Snapshot b) p.

(** * Minute buckets *)

Definition minuteID (k : key) (second : Z) : bucketKey := (k, Z.quot second 60 * 60000).

(** [minute]: the bucket of a second, created when there is room. *)
Definition minuteBucket (session : string) (k : key) (second : Z) (bs : gmap bucketKey bucket)
  : gmap bucketKey bucket * option bucket :=
  let id := minuteID k second in
  match bs !! id with
  | Some b => (bs, Some b)
  | None =>
      if Z.of_nat (size bs) <? maxBuckets then
        let b := mkBucket (mkSnapshot k.1 k.2 id.2 session zeroCounter 0 1) 0 in (<[id := b]> bs, Some b)
      else (bs, None)
  end.

(** * The sliding window *)

Definition slotIndex (second : Z) : nat := Z.to_nat (Z.rem second 60).
Definition slotAt (w : window) (second : Z) : Counter := default zeroCounter (seconds w !! slotIndex second).

(** The head of the loop of [advance]: the slot of the second that leaves the window. *)
Definition expireSlot (next : Z) (w : window) : window :=
  mkWindow (<[slotIndex next := zeroCounter]> (seconds w)) (cSub (current w) (slotAt w next)) (w_second w) (lastRequest w).

(** The rest of its body: a peak that reaches into a new minute. *)
Definition savePeak (session : string) (k : key) (next : Z) (w : window) (bs : gmap bucketKey bucket)
  : gmap bucketKey bucket :=
  if Z.rem next 60 =? 0 then
    match minuteBucket session k next bs with
    | (bs', Some b) =>
        if sn_Peak (b_Snapshot b) <? Requests (current w)
        then <[minuteID k next := withPeak (Requests (current w)) b]> bs' else bs'
    | (bs', None) => bs'
    end
  else bs.

(** [n] turns of the loop, the first one for the second [next]. *)
Fixpoint advanceLoop (n : nat) (session : string) (k : key) (next : Z) (w : window) (bs : gmap bucketKey bucket)
  : window * gmap bucketKey bucket :=
  match n with
  | O => (w, bs)
  | S n' => let w' := expireSlot next w in advanceLoop n' session k (next + 1) w' (savePeak session k next w' bs)
  end.

Definition advance (session : string) (k : key) (second : Z) (w : window) (bs : gmap bucketKey bucket)
  : window * gmap bucketKey bucket :=
  if second <=? w_second w then (w, bs)
  else
    let last := Z.min second (w_second w + 60) in
    let '(w', bs') := advanceLoop (Z.to_nat (last - w_second w)) session k (w_second w + 1) w bs in
    (mkWindow (seconds w') (current w') second (lastRequest w'), bs').

(** * Recording *)

Definition newWindow (second : Z) : window := mkWindow (replicate 60 zeroCounter) zeroCounter second second.

(** What one request adds: only access keys count rejections. *)
Definition oneRequest (kind : string) (rejected : bool) : Counter :=
  mkCounter 1 (if rejected && bool_decide (kind = AccessKey) then 1 else 0).

Definition countRequest (c : Counter) (second : Z) (w : window) : window :=
  mkWindow (<[slotIndex second := cAdd (slotAt w second) c]> (seconds w)) (cAdd (current w) c) (w_second w) second.

(** The window of a key, or none when there is no room for another one. *)
Definition windowFor (s : Store) (k : key) (second : Z) : option window :=
  match windows s !! k with
  | Some w => Some w
  | None => if maxBuckets <=? Z.of_nat (size (windows s)) then None else Some (newWindow second)
  end.

Definition validKind (kind : string) : bool := bool_decide (kind = AccessKey) || bool_decide (kind = Credential).

(** [Record] of the source, whose name is a keyword here. *)
Definition RecordRequest (s : Store) (kind : string) (id : Z) (rejected : bool) (at_ : Z) : Store :=
  if (id =? 0) || negb (validKind kind) || (unixSec at_ <? 0) then s
  else
    let k : key := (kind, id) in
    let second := unixSec at_ in
    match windowFor s k second with
    | None => s
    | Some w0 =>
        let '(w1, bs1) := advance (sessionID s) k second w0 (buckets s) in
        let second := Z.max second (w_second w1) in
        let c := oneRequest kind rejected in
        let w2 := countRequest c second w1 in
        let bs2 :=
          match minuteBucket (sessionID s) k second bs1 with
          | (bs, Some b) =>
              <[minuteID k second := withPeak (Z.max (sn_Peak (b_Snapshot b)) (Requests (current w2)))
                 (withCounter (cAdd (sn_Counter (b_Snapshot b)) c) b)]> bs
          | (bs, None) => bs
          end in
        mkStore (<[k := w2]> (windows s)) bs2 (sessionID s)
    end.

Definition Current (s : Store) (kind : string) (id : Z) (at_ : Z) : Store * Counter :=
  let k : key := (kind, id) in
  match windows s !! k with
  | None => (s, zeroCounter)
  | Some w =>
      let '(w', bs') := advance (sessionID s) k (unixSec at_) w (buckets s) in
      (mkStore (<[k := w']> (windows s)) bs' (sessionID s), current w')
  end.

(** * Snapshots *)

(** One window of the first loop of [advanceAll]. *)
Definition advanceOne (now : Z) (s : Store) (k : key) : Store :=
  match windows s !! k with
  | None => s
  | Some w =>
      let '(w', bs') := advance (sessionID s) k (unixSec now) w (buckets s) in
      mkStore (if 60 <=? unixSec now - lastRequest w' then delete k (windows s) else <[k := w']> (windows s))
        bs' (sessionID s)
  end.

Definition expired (now : Z) (kb : bucketKey * bucket) : bool :=
  (persisted kb.2 =? sn_Version (b_Snapshot kb.2)) && (kb.1.2 <? unixMilli (now - 2 * minute)).

(** Go iterates over the windows in an unspecified [order], and the room for new buckets may
    depend on it. *)
Definition advanceAll (order : list key) (now : Z) (s : Store) : Store :=
  let s1 := fold_left (advanceOne now) order s in
  mkStore (windows s1) (filter (fun kb => expired now kb = false) (buckets s1)) (sessionID s1).

Definition dirty (b : bucket) : bool := negb (persisted b =? sn_Version (b_Snapshot b)).

(** The order of [sort.Slice]: minute, then kind, then identifier. *)
Definition snapshotOrder (a b : Snapshot) : Prop :=
  if bool_decide (sn_MinuteMS a = sn_MinuteMS b) then
    if bool_decide (sn_Kind a = sn_Kind b) then sn_KeyID a <= sn_KeyID b else String.le (sn_Kind a) (sn_Kind b)
  else sn_MinuteMS a < sn_MinuteMS b.

#[export] Instance snapshotOrder_dec : RelDecision snapshotOrder.
Proof. intros a b. unfold snapshotOrder. destruct (bool_decide _); [destruct (bool_decide _)|]; apply _. Defined.

Definition snapshotRows (dirtyOnly : bool) (bs : gmap bucketKey bucket) : list Snapshot :=
  (fun kb => b_Snapshot kb.2) <$> filter (fun kb => negb dirtyOnly || dirty kb.2) (mentries bs).

Definition Snapshots (order : list key) (s : Store) (now : Z) (dirtyOnly : bool) (limit : nat) : Store * list Snapshot :=
  let s' := advanceAll order now s in
  let rows := merge_sort snapshotOrder (snapshotRows dirtyOnly (buckets s')) in
  (s', if ((0 <? limit) && (limit <? length rows))%nat then take limit rows else rows).

Definition rowID (row : Snapshot) : bucketKey := ((sn_Kind row, sn_KeyID row), sn_MinuteMS row).

Definition ackOne (s : Store) (row : Snapshot) : Store :=
  if negb (bool_decide (sn_SessionID row = sessionID s)) then s
  else
    match buckets s !! rowID row with
    | None => s
    | Some b =>
        mkStore (windows s)
          (<[rowID row := withPersisted (Z.max (persisted b) (Z.min (sn_Version row) (sn_Version (b_Snapshot b)))) b]> (buckets s))
          (sessionID s)
    end.

Definition Ack (s : Store) (snapshots : list Snapshot) : Store := fold_left ackOne snapshots s.

Definition Pending (order : list key) (s : Store) (now : Z) : Store * bool :=
  let s' := advanceAll order now s in
  (s', negb (size (windows s') =? 0)%nat || existsb (fun kb => dirty kb.2) (mentries (buckets s'))).

Definition DiscardBefore (s : Store) (cutoffMS : Z) : Store :=
  mkStore (windows s) (filter (fun kb => cutoffMS <= kb.1.2) (buckets s)) (sessionID s).

(** * Persistence ([internal/requestlog/rpm_checkpoint.go]) *)

Record RPMStat := mkStat {
  st_Kind : string;
  st_KeyID : Z;
  st_MinuteMS : Z;
  st_SessionID : string;
  st_Counter : Counter;
  st_Peak : Z
}.

Definition rpmRow (s : Snapshot) : RPMStat :=
  mkStat (sn_Kind s) (sn_KeyID s) (sn_MinuteMS s) (sn_SessionID s) (sn_Counter s) (sn_Peak s).

(** The rows of the running session, by the unique columns of the table. *)
Definition upsert (db : gmap bucketKey RPMStat) (row : Snapshot) : gmap bucketKey RPMStat :=
  <[rowID row := rpmRow row]> db.
Definition writeRows (db : gmap bucketKey RPMStat) (rows : list Snapshot) : gmap bucketKey RPMStat :=
  fold_left upsert rows db.

(** * What the store counts

    The running sum of the ring is the
    number of requests of the last sixty seconds, and the persisted minutes lose nothing. *)

(** * The log of recorded requests

    The specification keeps every request: its key, its second, what it counts, and whether
    there was room for it. *)

Record event := mkEvent { ev_key : key; ev_second : Z; ev_counter : Counter; ev_room : bool }.

(** The sum of the counters of the events that satisfy [f]. *)
Definition tally (f : event -> bool) (log : list event) : Counter :=
  foldr (fun e acc => if f e then cAdd (ev_counter e) acc else acc) zeroCounter log.

Definition inSeconds (k : key) (lo hi : Z) (e : event) : bool :=
  bool_decide (ev_key e = k) && ((lo <? ev_second e) && (ev_second e <=? hi)).
Definition ofMinute (id : bucketKey) (e : event) : bool := bool_decide (minuteID (ev_key e) (ev_second e) = id).
Definition inMinute (id : bucketKey) (e : event) : bool := ev_room e && ofMinute id e.

Lemma counter_eq a b : Requests a = Requests b -> Rejected a = Rejected b -> a = b.
Proof. destruct a, b. cbn. by intros -> ->. Qed.

Lemma tally_cons f e log : tally f (e :: log) = if f e then cAdd (ev_counter e) (tally f log) else tally f log.
Proof. done. Qed.

Lemma tally_ext f g log : (forall e, e ∈ log -> f e = g e) -> tally f log = tally g log.
Proof.
  induction log as [|e log IH]; intros H; [done|]. rewrite !tally_cons, (H e) by constructor.
  rewrite IH; [done|]. intros x Hx. apply H. by constructor.
Qed.

Lemma tally_none f log : (forall e, e ∈ log -> f e = false) -> tally f log = zeroCounter.
Proof.
  intros H. rewrite (tally_ext f (fun _ => false)) by done. clear H. by induction log.
Qed.

Lemma tally_split f g h log :
  (forall e, e ∈ log -> f e = g e || h e /\ g e && h e = false) -> tally f log = cAdd (tally g log) (tally h log).
Proof.
  induction log as [|e log IH]; intros H; [done|]. rewrite !tally_cons.
  destruct (H e ltac:(constructor)) as [E1 E2]. rewrite E1.
  rewrite IH by (intros x Hx; apply H; by constructor).
  destruct (g e), (h e); try discriminate; apply counter_eq; cbn; lia.
Qed.

Lemma tally_snoc f log e : tally f (log ++ [e]) = if f e then cAdd (tally f log) (ev_counter e) else tally f log.
Proof.
  induction log as [|x log IH]; [cbn; destruct (f e); [apply counter_eq; cbn; lia|done]|].
  rewrite <- app_comm_cons, !tally_cons, IH. destruct (f x), (f e); try done. apply counter_eq; cbn; lia.
Qed.

Arguments tally : simpl never.

(** * The ring *)

(** [p] is the last second the ring covers. *)
Record ring_ok (k : key) (log : list event) (p : Z) (w : window) : Prop := {
  ro_len : length (seconds w) = 60%nat;
  ro_slot : forall t, p - 60 < t <= p -> default zeroCounter (seconds w !! Z.to_nat (t mod 60)) = tally (inSeconds k (t - 1) t) log;
  ro_current : current w = tally (inSeconds k (p - 60) p) log
}.

Lemma inSeconds_split k lo mid hi log : lo <= mid <= hi ->
  tally (inSeconds k lo hi) log = cAdd (tally (inSeconds k lo mid) log) (tally (inSeconds k mid hi) log).
Proof.
  intros H. apply tally_split. intros e _. unfold inSeconds. destruct (bool_decide _); [cbn|done].
  destruct (Z.ltb_spec lo (ev_second e)), (Z.leb_spec (ev_second e) mid), (Z.ltb_spec mid (ev_second e)),
    (Z.leb_spec (ev_second e) hi); cbn; try done; lia.
Qed.

Lemma inSeconds_none k lo hi p log :
  (forall e, e ∈ log -> ev_key e = k -> ev_second e <= p) -> p <= lo -> tally (inSeconds k lo hi) log = zeroCounter.
Proof.
  intros H Hp. apply tally_none. intros e He. unfold inSeconds. case_bool_decide as Ek; [|done]. cbn.
  specialize (H e He Ek). destruct (Z.ltb_spec lo (ev_second e)); [lia|done].
Qed.

Lemma slotIndex_mod t : 0 <= t -> slotIndex t = Z.to_nat (t mod 60).
Proof. intros. unfold slotIndex. by rewrite Z.rem_mod_nonneg by lia. Qed.

Lemma slot_lt t : (Z.to_nat (t mod 60) < 60)%nat.
Proof. pose proof (Z.mod_pos_bound t 60 ltac:(lia)). lia. Qed.

(** Two seconds of one window have different slots. *)
Lemma slot_inj p t u : p - 60 < t <= p -> p - 60 < u <= p -> Z.to_nat (t mod 60) = Z.to_nat (u mod 60) -> t = u.
Proof.
  intros Ht Hu E. pose proof (Z.mod_pos_bound t 60 ltac:(lia)). pose proof (Z.mod_pos_bound u 60 ltac:(lia)).
  pose proof (Z.div_mod t 60 ltac:(lia)). pose proof (Z.div_mod u 60 ltac:(lia)). nia.
Qed.

(** One turn of the loop of [advance] moves the ring by one second. *)
Lemma expireSlot_ok k log p w :
  ring_ok k log p w -> -1 <= p -> (forall e, e ∈ log -> ev_key e = k -> ev_second e <= p) ->
  ring_ok k log (p + 1) (expireSlot (p + 1) w).
Proof.
  intros [Hl Hs Hc] Hp Hlog.
  assert (Ei : slotIndex (p + 1) = Z.to_nat ((p - 59) mod 60)).
  { rewrite slotIndex_mod by lia. f_equal. replace (p + 1) with (p - 59 + 1 * 60) by lia. apply Z.mod_add; lia. }
  split; cbn [expireSlot seconds current].
  - by rewrite length_insert.
  - intros t Ht. destruct (decide (t = p + 1)) as [->|Hne].
    + rewrite <- slotIndex_mod, list_lookup_insert_eq by (rewrite ?slotIndex_mod, ?Hl by lia; try apply slot_lt; lia).
      symmetry. apply (inSeconds_none _ _ _ p); [done|lia].
    + rewrite Ei, list_lookup_insert_ne; [apply Hs; lia|]. intros E.
      apply (slot_inj p) in E; lia.
  - unfold slotAt. rewrite Ei, (Hs (p - 59)), Hc by lia.
    rewrite (inSeconds_split k (p - 60) (p - 59) p), (inSeconds_split k (p + 1 - 60) p (p + 1)) by lia.
    rewrite (inSeconds_none k p (p + 1) p) by (done || lia).
    replace (p - 59 - 1) with (p - 60) by lia. replace (p + 1 - 60) with (p - 59) by lia.
    apply counter_eq; cbn; lia.
Qed.

Lemma advanceLoop_ring n session k log p w bs :
  ring_ok k log p w -> -1 <= p -> (forall e, e ∈ log -> ev_key e = k -> ev_second e <= p) ->
  let r := advanceLoop n session k (p + 1) w bs in
  ring_ok k log (p + Z.of_nat n) r.1 /\ lastRequest r.1 = lastRequest w.
Proof.
  revert p w bs. induction n as [|n IH]; intros p w bs Hr Hp Hlog; cbn [advanceLoop].
  { cbn. by rewrite Z.add_0_r. }
  destruct (IH (p + 1) (expireSlot (p + 1) w) (savePeak session k (p + 1) (expireSlot (p + 1) w) bs)) as [H1 H2].
  - by apply expireSlot_ok.
  - lia.
  - intros e He Ek. specialize (Hlog e He Ek). lia.
  - replace (p + Z.of_nat (S n)) with (p + 1 + Z.of_nat n) by lia. done.
Qed.

(** A ring that has moved sixty seconds past every event is empty wherever it stands. *)
Lemma ring_jump k log p q w :
  ring_ok k log p w -> p <= q -> (forall e, e ∈ log -> ev_key e = k -> ev_second e <= p - 60) ->
  ring_ok k log q w.
Proof.
  intros [Hl Hs Hc] Hq Hlog.
  assert (Hz : forall lo hi, p - 60 <= lo -> tally (inSeconds k lo hi) log = zeroCounter)
    by (intros; by apply (inSeconds_none _ _ _ (p - 60))).
  split; [done| |].
  - intros t Ht. rewrite Hz by lia.
    pose proof (Z.mod_pos_bound (t - p) 60 ltac:(lia)) as Hb.
    set (u := p - 60 + (t - p) mod 60).
    destruct (decide ((t - p) mod 60 = 0)) as [E0|Hn0].
    + assert (E : t mod 60 = p mod 60).
      { replace t with (p + (t - p)) by lia. rewrite Z.add_mod, E0, Z.add_0_r, Z.mod_mod by lia. done. }
      rewrite E, Hs by lia. apply Hz; lia.
    + assert (E : t mod 60 = u mod 60).
      { subst u. replace t with (p + (t - p)) at 1 by lia. replace (p - 60 + (t - p) mod 60) with (p + (t - p) mod 60 + (-1) * 60) by lia.
        rewrite Z.mod_add by lia. by rewrite Z.add_mod_idemp_r by lia. }
      rewrite E, Hs by (subst u; lia). apply Hz; subst u; lia.
  - rewrite Hc, !Hz by lia. done.
Qed.

Lemma advance_ring session k log second w bs :
  ring_ok k log (w_second w) w -> 0 <= w_second w -> (forall e, e ∈ log -> ev_key e = k -> ev_second e <= w_second w) ->
  let r := (advance session k second w bs).1 in
  ring_ok k log (w_second r) r /\ w_second r = Z.max second (w_second w) /\ lastRequest r = lastRequest w.
Proof.
  intros Hr Hp Hlog. unfold advance. case_if; [cbn; split_and!; [done|lia|done]|].
  set (n := Z.to_nat _).
  pose proof (advanceLoop_ring n session k log (w_second w) w bs Hr ltac:(lia) Hlog) as [H1 H2].
  destruct (advanceLoop n session k (w_second w + 1) w bs) as [w' bs']. cbn in *.
  split_and!; [|lia|done].
  assert (Hx : ring_ok k log second w').
  { destruct (Z.le_gt_cases second (w_second w + 60)) as [Hle|Hgt].
    - replace second with (w_second w + Z.of_nat n) by (subst n; lia). done.
    - apply (ring_jump k log (w_second w + Z.of_nat n)); [done|subst n; lia|].
      intros e He Ek. specialize (Hlog e He Ek). subst n. lia. }
  destruct Hx as [X1 X2 X3]. by split.
Qed.

(** * What [advance] does to the buckets *)

(** A bucket whose peak may have grown. *)
Record evolves (b b' : bucket) : Prop := {
  ev_id : rowID (b_Snapshot b') = rowID (b_Snapshot b);
  ev_session : sn_SessionID (b_Snapshot b') = sn_SessionID (b_Snapshot b);
  ev_count : sn_Counter (b_Snapshot b') = sn_Counter (b_Snapshot b);
  ev_persisted : persisted b' = persisted b;
  ev_version : b' = b \/ sn_Version (b_Snapshot b) < sn_Version (b_Snapshot b')
}.

#[export] Instance evolves_preorder : PreOrder evolves.
Proof.
  split; [by split; auto|]. intros a b c [] []. split; try congruence.
  destruct ev_version0 as [->|], ev_version1 as [->|]; [by left|right; lia..].
Qed.

Record fresh (session : string) (id : bucketKey) (b : bucket) : Prop := {
  fr_id : rowID (b_Snapshot b) = id;
  fr_session : sn_SessionID (b_Snapshot b) = session;
  fr_count : sn_Counter (b_Snapshot b) = zeroCounter;
  fr_persisted : persisted b = 0;
  fr_version : 1 <= sn_Version (b_Snapshot b)
}.

Lemma fresh_evolves session id b b' : fresh session id b -> evolves b b' -> fresh session id b'.
Proof. intros [] []. split; try congruence. destruct ev_version0 as [->|]; lia. Qed.

(** [new id] says which identifiers may appear. *)
Definition grows (session : string) (new : bucketKey -> Prop) (bs bs' : gmap bucketKey bucket) : Prop :=
  forall id, match bs !! id with
             | Some b => exists b', bs' !! id = Some b' /\ evolves b b'
             | None => match bs' !! id with Some b' => fresh session id b' /\ new id | None => True end
             end.

Lemma grows_refl session new bs : grows session new bs bs.
Proof. intros id. destruct (bs !! id) as [b|]; [by exists b|done]. Qed.

Lemma grows_trans session new bs1 bs2 bs3 :
  grows session new bs1 bs2 -> grows session new bs2 bs3 -> grows session new bs1 bs3.
Proof.
  intros H12 H23 id. specialize (H12 id). specialize (H23 id).
  destruct (bs1 !! id) as [b1|].
  - destruct H12 as (b2 & E2 & H12). rewrite E2 in H23. destruct H23 as (b3 & E3 & H23). exists b3. split; [done|by trans b2].
  - destruct (bs2 !! id) as [b2|]; [|done]. destruct H12 as [Hf Hn]. destruct H23 as (b3 & -> & H23).
    split; [by eapply fresh_evolves|done].
Qed.

Lemma grows_weaken session (new new' : bucketKey -> Prop) bs bs' :
  (forall id, new id -> new' id) -> grows session new bs bs' -> grows session new' bs bs'.
Proof.
  intros Hn H id. specialize (H id). destruct (bs !! id); [done|]. destruct (bs' !! id); [|done].
  destruct H. auto.
Qed.

Lemma grows_insert session new bs id b b' :
  bs !! id = Some b -> evolves b b' -> grows session new bs (<[id := b']> bs).
Proof.
  intros E H i. destruct (decide (i = id)) as [->|Hne].
  - rewrite E, lookup_insert_eq. eauto.
  - rewrite lookup_insert_ne by done. destruct (bs !! i) as [x|]; [by exists x|done].
Qed.

Lemma withPeak_evolves peak b : evolves b (withPeak peak b).
Proof. split; try done. right. cbn. lia. Qed.

Lemma minuteBucket_spec session k second bs :
  let id := minuteID k second in
  let r := minuteBucket session k second bs in
  grows session (fun i => i = id) bs r.1 /\ (forall i, i <> id -> r.1 !! i = bs !! i)
  /\ match r.2 with
     | Some b => r.1 !! id = Some b
     | None => r.1 = bs /\ bs !! id = None
     end.
Proof.
  unfold minuteBucket. destruct (bs !! minuteID k second) as [b|] eqn:E; cbn; [split_and!; auto using grows_refl|].
  case_if; cbn; [|split_and!; auto using grows_refl].
  split_and!; [|by intros; rewrite lookup_insert_ne|by rewrite lookup_insert_eq].
  intros i. destruct (decide (i = minuteID k second)) as [->|Hne].
  - rewrite E, lookup_insert_eq. split; [|done]. split; try done; cbn. by destruct k.
  - rewrite lookup_insert_ne by done. destruct (bs !! i) as [x|]; [by exists x|done].
Qed.

Lemma savePeak_grows session k next w bs :
  grows session (fun i => Z.rem next 60 = 0 /\ i = minuteID k next) bs (savePeak session k next w bs).
Proof.
  unfold savePeak. case_if; [|apply grows_refl].
  pose proof (minuteBucket_spec session k next bs) as (Hg & Hf & Hr).
  assert (Hg' : grows session (fun i => Z.rem next 60 = 0 /\ i = minuteID k next) bs (minuteBucket session k next bs).1)
    by (eapply grows_weaken; [|exact Hg]; auto).
  destruct (minuteBucket session k next bs) as [bs' [b|]]; cbn in *; [|done].
  case_if; [|done]. eapply grows_trans; [exact Hg'|]. eapply grows_insert; [done|apply withPeak_evolves].
Qed.

Definition boundary (k : key) (lo hi : Z) (id : bucketKey) : Prop :=
  exists t, lo < t <= hi /\ Z.rem t 60 = 0 /\ id = minuteID k t.

Lemma advanceLoop_grows n session k p w bs :
  grows session (boundary k p (p + Z.of_nat n)) bs (advanceLoop n session k (p + 1) w bs).2.
Proof.
  revert p w bs. induction n as [|n IH]; intros p w bs; [apply grows_refl|]. cbn [advanceLoop].
  eapply grows_trans.
  - eapply grows_weaken; [|apply savePeak_grows]. intros id [H1 H2]. exists (p + 1). split; [lia|done].
  - eapply grows_weaken; [|apply IH]. intros id (t & ? & ? & ?). exists t. split; [lia|done].
Qed.

Lemma advance_grows session k second w bs :
  grows session (boundary k (w_second w) second) bs (advance session k second w bs).2.
Proof.
  unfold advance. case_if; [apply grows_refl|]. set (n := Z.to_nat _).
  pose proof (advanceLoop_grows n session k (w_second w) w bs) as H.
  destruct (advanceLoop n session k (w_second w + 1) w bs) as [w' bs']. cbn in *.
  eapply grows_weaken; [|exact H]. intros id (t & ? & ? & ?). exists t. split; [subst n; lia|done].
Qed.
