(* ===== verification/RpmPersist.v ===== *)
(** The request statistics as a system: requests, queries and the checkpoint worker
    ([internal/requestlog/rpm_checkpoint.go], [rpm.go]) in any interleaving over one store and
    one table. *)
From S2P Require Import Prelude RpmStore.

Local Open Scope Z_scope.

(** * The system

    The log and the clock are the specification's: every recorded request, and the latest
    second any operation was given.  The rows of the batch being written are kept with
    whether the write has succeeded; [sy_floor] is the latest retention cutoff. *)
Record System := mkSystem {
  sy_store : Store;
  sy_log : list event;
  sy_clock : Z;
  sy_db : gmap bucketKey RPMStat;
  sy_flight : option (list Snapshot * bool);
  sy_floor : Z
}.

(** The minute of [id] is over, also for the window of its key. *)
Definition closed (s : Store) (clock : Z) (id : bucketKey) : Prop :=
  id.2 + 60000 <= clock * 1000 /\ forall w, windows s !! id.1 = Some w -> id.2 + 60000 <= w_second w * 1000.

Record window_ok (log : list event) (clock : Z) (k : key) (w : window) : Prop := {
  wo_ring : ring_ok k log (w_second w) w;
  wo_range : 0 <= w_second w <= clock;
  wo_last : lastRequest w <= w_second w;
  wo_log : forall e, e ∈ log -> ev_key e = k -> ev_second e <= lastRequest w
}.

Record bucket_ok (y : System) (id : bucketKey) (b : bucket) : Prop := {
  bo_id : rowID (b_Snapshot b) = id;
  bo_session : sn_SessionID (b_Snapshot b) = sessionID (sy_store y);
  bo_version : 0 <= persisted b <= sn_Version (b_Snapshot b);
  bo_positive : 1 <= sn_Version (b_Snapshot b);
  bo_count : sy_floor y <= id.2 -> sn_Counter (b_Snapshot b) = tally (inMinute id) (sy_log y);
  bo_clean : sy_floor y <= id.2 -> persisted b = sn_Version (b_Snapshot b) -> sy_db y !! id = Some (rpmRow (b_Snapshot b))
}.

Definition gone_ok (y : System) (id : bucketKey) : Prop :=
  sy_floor y <= id.2 ->
  (forall e, e ∈ sy_log y -> inMinute id e = false) /\ (forall row, sy_db y !! id = Some row -> st_Counter row = zeroCounter)
  \/ closed (sy_store y) (sy_clock y) id
     /\ exists row, sy_db y !! id = Some row /\ st_Counter row = tally (inMinute id) (sy_log y).

Record flight_row_ok (y : System) (written : bool) (row : Snapshot) : Prop := {
  fl_session : sn_SessionID row = sessionID (sy_store y);
  fl_bucket : exists b, buckets (sy_store y) !! rowID row = Some b
      /\ persisted b < sn_Version row <= sn_Version (b_Snapshot b)
      /\ (sn_Version row = sn_Version (b_Snapshot b) -> row = b_Snapshot b);
  fl_written : written = true -> sy_db y !! rowID row = Some (rpmRow row)
}.

Record system_ok (y : System) : Prop := {
  so_clock : 0 <= sy_clock y;
  so_window : forall k w, windows (sy_store y) !! k = Some w -> window_ok (sy_log y) (sy_clock y) k w;
  so_nowindow : forall k, windows (sy_store y) !! k = None ->
      forall e, e ∈ sy_log y -> ev_key e = k -> ev_second e <= sy_clock y - 60;
  so_bucket : forall id b, buckets (sy_store y) !! id = Some b -> bucket_ok y id b;
  so_gone : forall id, buckets (sy_store y) !! id = None -> gone_ok y id;
  so_flight : forall rows written, sy_flight y = Some (rows, written) ->
      NoDup (rowID <$> rows) /\ forall row, row ∈ rows -> flight_row_ok y written row
}.

Definition withStore (s : Store) (clock : Z) (y : System) : System :=
  mkSystem s (sy_log y) clock (sy_db y) (sy_flight y) (sy_floor y).

(** * Advancing one window *)

Lemma window_ok_advance log clock session k second w bs :
  window_ok log clock k w -> clock <= second ->
  let r := (advance session k second w bs).1 in window_ok log second k r /\ w_second r = second /\ lastRequest r = lastRequest w.
Proof.
  intros [Hr Hc Hl Hlog] Hs.
  destruct (advance_ring session k log second w bs Hr) as (H1 & H2 & H3); [lia|intros e He Ek; specialize (Hlog e He Ek); lia|].
  cbn. rewrite Z.max_l in H2 by lia. split_and!; [split; rewrite ?H2, ?H3|done..].
  - by rewrite <- H2 at 1.
  - lia.
  - lia.
  - done.
Qed.

Lemma window_ok_later log clock clock' k w : window_ok log clock k w -> clock <= clock' -> window_ok log clock' k w.
Proof. intros [] ?. split; try done. lia. Qed.

(** The identifier of a minute that starts after the window's last second is not closed. *)
Lemma minuteID_start k t : 0 <= t -> t * 1000 - 60000 < (minuteID k t).2 <= t * 1000.
Proof.
  intros Ht. unfold minuteID. cbn. rewrite Z.quot_div_nonneg by lia.
  pose proof (Z.div_mod t 60 ltac:(lia)). pose proof (Z.mod_pos_bound t 60 ltac:(lia)). lia.
Qed.

Lemma boundary_start k lo hi id : 0 <= lo -> boundary k lo hi id -> lo * 1000 < id.2 /\ id.1 = k.
Proof.
  intros Hlo (t & Ht & Hm & ->). split; [|done]. unfold minuteID. cbn. rewrite Z.quot_div_nonneg by lia.
  rewrite Z.rem_mod_nonneg in Hm by lia. pose proof (Z.div_mod t 60 ltac:(lia)). lia.
Qed.

(** Everything the buckets need when windows and clock move on and buckets only grow. *)
Lemma grow_ok y s' clock' (new : bucketKey -> Prop) :
  system_ok y -> sessionID s' = sessionID (sy_store y) -> sy_clock y <= clock' ->
  grows (sessionID s') new (buckets (sy_store y)) (buckets s') ->
  (forall id, new id -> ~ closed (sy_store y) (sy_clock y) id) ->
  (forall id, closed (sy_store y) (sy_clock y) id -> closed s' clock' id) ->
  (forall k w, windows s' !! k = Some w -> window_ok (sy_log y) clock' k w) ->
  (forall k, windows s' !! k = None -> forall e, e ∈ sy_log y -> ev_key e = k -> ev_second e <= clock' - 60) ->
  system_ok (withStore s' clock' y).
Proof.
  intros Hok Hsid Hclk Hg Hnew Hcl Hw Hnw. pose proof (so_clock y Hok).
  split; cbn; [lia|done|done| | |].
  - intros id b Hb. specialize (Hg id). destruct (buckets (sy_store y) !! id) as [b0|] eqn:E0.
    + destruct Hg as (b' & Eb' & Hev). rewrite Hb in Eb'. injection Eb' as <-.
      destruct (so_bucket y Hok id b0 E0) as [B1 B2 B3 B4 B5 B6], Hev as [V1 V2 V3 V4 V5].
      split; cbn; rewrite ?V1, ?V2, ?V3, ?V4, ?Hsid; try done; destruct V5 as [->|V5]; try done; try lia.
    + rewrite Hb in Hg. destruct Hg as [[F1 F2 F3 F4 F5] Hn].
      split; cbn; [done|done|lia|done| |lia].
      intros Hfl. rewrite F3. symmetry. apply tally_none. intros e He.
      destruct (so_gone y Hok id E0 Hfl) as [[H0 _]|[Hc _]]; [by apply H0|]. by destruct (Hnew id Hn).
  - intros id Hb Hfl. cbn in *. specialize (Hg id). destruct (buckets (sy_store y) !! id) as [b0|] eqn:E0.
    { destruct Hg as (b' & Eb' & _). congruence. }
    destruct (so_gone y Hok id E0 Hfl) as [?|[? ?]]; [by left|right; eauto].
  - intros rows written Ef. destruct (so_flight y Hok rows written Ef) as [Hnd Hrows]. split; [done|].
    intros row Hrow. destruct (Hrows row Hrow) as [F1 (b & Eb & F2 & F3) F4].
    specialize (Hg (rowID row)). rewrite Eb in Hg. destruct Hg as (b' & Eb' & [V1 V2 V3 V4 V5]).
    split; cbn; [congruence| |done]. exists b'. split; [done|]. rewrite V4. destruct V5 as [->|V5]; [done|].
    split; [lia|intros; lia].
Qed.

Definition setWindow (k : key) (w : option window) (s : Store) (bs : gmap bucketKey bucket) : Store :=
  mkStore (partial_alter (fun _ => w) k (windows s)) bs (sessionID s).

(** One window moves to [second], or is dropped after a minute without requests. *)
Lemma advance_window_ok y k w second :
  system_ok y -> windows (sy_store y) !! k = Some w -> sy_clock y <= second ->
  let r := advance (sessionID (sy_store y)) k second w (buckets (sy_store y)) in
  system_ok (withStore (setWindow k (Some r.1) (sy_store y) r.2) second y)
  /\ (60 <= second - lastRequest r.1 -> system_ok (withStore (setWindow k None (sy_store y) r.2) second y)).
Proof.
  intros Hok Hw Hs. pose proof (so_window y Hok k w Hw) as Hwo. pose proof (wo_range _ _ _ _ Hwo) as Hr.
  destruct (window_ok_advance _ _ (sessionID (sy_store y)) k second w (buckets (sy_store y)) Hwo Hs) as (H1 & H2 & H3).
  pose proof (advance_grows (sessionID (sy_store y)) k second w (buckets (sy_store y))) as Hg.
  destruct (advance _ k second w _) as [w' bs']. cbn in *.
  assert (Hnew : forall id, boundary k (w_second w) second id -> ~ closed (sy_store y) (sy_clock y) id).
  { intros id Hb [_ Hc]. destruct (boundary_start k (w_second w) second id) as [Hx Ek]; [lia|done|].
    rewrite Ek in Hc. specialize (Hc w Hw). lia. }
  assert (Hothers : forall o k0 w0, k0 <> k -> partial_alter (fun _ => o) k (windows (sy_store y)) !! k0 = Some w0 ->
                                    window_ok (sy_log y) second k0 w0).
  { intros o k0 w0 Hne. rewrite lookup_partial_alter_ne by done. intros E.
    apply (window_ok_later _ (sy_clock y)); [by apply (so_window y Hok)|done]. }
  assert (Hnone : forall o k0, k0 <> k -> partial_alter (fun _ => o) k (windows (sy_store y)) !! k0 = None ->
                               forall e, e ∈ sy_log y -> ev_key e = k0 -> ev_second e <= second - 60).
  { intros o k0 Hne. rewrite lookup_partial_alter_ne by done. intros E e He Ek.
    pose proof (so_nowindow y Hok k0 E e He Ek). lia. }
  assert (Hcl : forall o, (forall x, o = Some x -> w_second x = second) -> forall id,
             closed (sy_store y) (sy_clock y) id -> closed (setWindow k o (sy_store y) bs') second id).
  { intros o Ho id [C1 C2]. split; [lia|]. intros w0. cbn. destruct (decide (id.1 = k)) as [->|Hne].
    - rewrite lookup_partial_alter_eq. intros E. rewrite (Ho w0 E). lia.
    - rewrite lookup_partial_alter_ne by done. apply C2. }
  split; [|intros H60]; (eapply grow_ok; [done|done|done|exact Hg|done| | |]).
  - apply Hcl. congruence.
  - intros k0 w0. cbn. destruct (decide (k0 = k)) as [->|Hne]; [|by apply Hothers].
    rewrite lookup_partial_alter_eq. by intros [= <-].
  - intros k0. cbn. destruct (decide (k0 = k)) as [->|Hne]; [by rewrite lookup_partial_alter_eq|by apply Hnone].
  - by apply Hcl.
  - intros k0 w0. cbn. destruct (decide (k0 = k)) as [->|Hne]; [by rewrite lookup_partial_alter_eq|by apply Hothers].
  - intros k0. cbn. destruct (decide (k0 = k)) as [->|Hne]; [|by apply Hnone].
    intros _ e He Ek. pose proof (wo_log _ _ _ _ H1 e He Ek). lia.
Qed.

(** With nothing to do, the clock may still move. *)
Lemma tick_ok y second : system_ok y -> sy_clock y <= second -> system_ok (withStore (sy_store y) second y).
Proof.
  intros Hok Hs. eapply (grow_ok _ _ _ (fun _ => False)); try done.
  - apply grows_refl.
  - intros id [? ?]. split; [lia|done].
  - intros k w Hw. apply (window_ok_later _ (sy_clock y)); [by apply (so_window y Hok)|done].
  - intros k Hk e He Ek. pose proof (so_nowindow y Hok k Hk e He Ek). lia.
Qed.

Lemma advanceOne_ok y now k :
  system_ok y -> sy_clock y <= unixSec now -> system_ok (withStore (advanceOne now (sy_store y) k) (unixSec now) y).
Proof.
  intros Hok Hs. unfold advanceOne. destruct (windows (sy_store y) !! k) as [w|] eqn:Ew; [|by apply tick_ok].
  destruct (advance_window_ok y k w (unixSec now) Hok Ew Hs) as [H1 H2].
  destruct (advance _ k (unixSec now) w _) as [w' bs']. cbn in *. case_if; [by apply H2; lia|exact H1].
Qed.

Lemma advanceOne_session now s k : sessionID (advanceOne now s k) = sessionID s.
Proof. unfold advanceOne. destruct (windows s !! k); [|done]. by destruct (advance _ _ _ _ _). Qed.

Lemma advanceOne_position y now k k' w :
  system_ok y -> sy_clock y <= unixSec now ->
  windows (advanceOne now (sy_store y) k) !! k' = Some w ->
  (k' = k /\ w_second w = unixSec now) \/ windows (sy_store y) !! k' = Some w /\ k' <> k.
Proof.
  intros Hok Hs. unfold advanceOne. destruct (windows (sy_store y) !! k) as [w0|] eqn:Ew.
  - destruct (window_ok_advance _ _ (sessionID (sy_store y)) k (unixSec now) w0 (buckets (sy_store y)) (so_window y Hok k w0 Ew) Hs)
      as (H1 & H2 & H3).
    destruct (advance _ k (unixSec now) w0 _) as [w' bs']. cbn in *.
    destruct (decide (k' = k)) as [->|Hne].
    + case_if; [by rewrite lookup_delete_eq|rewrite lookup_insert_eq]. intros [= <-]. by left.
    + case_if; rewrite ?lookup_delete_ne, ?lookup_insert_ne by done; auto.
  - intros E. right. split; [done|]. intros ->. congruence.
Qed.

(** The first loop of [advanceAll]. *)
Lemma advance_fold_ok order y now :
  system_ok y -> sy_clock y <= unixSec now ->
  let s := fold_left (advanceOne now) order (sy_store y) in
  system_ok (withStore s (unixSec now) y)
  /\ forall k w, windows s !! k = Some w -> k ∈ order /\ w_second w = unixSec now \/ windows (sy_store y) !! k = Some w /\ k ∉ order.
Proof.
  revert y. induction order as [|k order IH]; intros y Hok Hs; cbn [fold_left].
  { split; [by apply tick_ok|]. intros k w E. right. split; [done|apply not_elem_of_nil]. }
  pose proof (advanceOne_ok y now k Hok Hs) as H1.
  destruct (IH _ H1 ltac:(cbn; lia)) as [H2 H3]. split; [exact H2|].
  intros k' w E. destruct (H3 k' w E) as [[Hin Hp]|[E' Hni]]; [left; split; [by constructor|done]|].
  destruct (advanceOne_position y now k k' w Hok Hs E') as [[-> Hp]|[Ek Hne]]; [left; split; [constructor|done]|].
  right. split; [done|]. by rewrite not_elem_of_cons.
Qed.

Lemma unixMilli_sub2 now : unixMilli (now - 2 * minute) <= unixSec now * 1000 - 119001.
Proof.
  unfold unixMilli, unixSec, minute, millisecond, second.
  pose proof (Z.div_mod (now - unixEpoch) 1000000000 ltac:(lia)). pose proof (Z.mod_pos_bound (now - unixEpoch) 1000000000 ltac:(lia)).
  assert ((now - 2 * 60000000000 - unixEpoch) / 1000000 < (now - unixEpoch) / 1000000000 * 1000 - 119000); [|lia].
  apply Z.div_lt_upper_bound; lia.
Qed.

Definition covers (order : list key) (s : Store) : Prop := order ≡ₚ (mentries (windows s)).*1.

Lemma covers_elem order s k w : covers order s -> windows s !! k = Some w -> k ∈ order.
Proof. intros -> E. apply list_elem_of_fmap. exists (k, w). split; [done|by apply elem_of_map_to_list]. Qed.

Lemma advanceAll_ok order y now :
  system_ok y -> covers order (sy_store y) -> sy_clock y <= unixSec now ->
  system_ok (withStore (advanceAll order now (sy_store y)) (unixSec now) y).
Proof.
  intros Hok Hcov Hs. destruct (advance_fold_ok order y now Hok Hs) as [H1 H2].
  unfold advanceAll. set (s := fold_left _ _ _) in *.
  assert (Hpos : forall k w, windows s !! k = Some w -> w_second w = unixSec now).
  { intros k w E. destruct (H2 k w E) as [[_ ?]|[E' Hn]]; [done|]. destruct Hn. by eapply covers_elem. }
  destruct H1 as [O1 O2 O3 O4 O5 O6]. cbn in *. split; cbn; [done|done|done| | |].
  - intros id b [Eb _]%map_lookup_filter_Some. destruct (O4 id b Eb). by split.
  - intros id Hn Hfl. cbn in *. apply map_lookup_filter_None in Hn as [Hn|Hn].
    { destruct (O5 id Hn Hfl) as [?|[? ?]]; [by left|right; done]. }
    destruct (buckets s !! id) as [b|] eqn:Eb; [|by destruct (O5 id Eb Hfl) as [?|[? ?]]; [left|right]].
    right. specialize (Hn b eq_refl). apply not_false_iff_true in Hn. unfold expired in Hn. zb. cbn in *.
    pose proof (unixMilli_sub2 now).
    destruct (O4 id b Eb) as [B1 B2 B3 B4 B5 B6]. cbn in *. split.
    + split; [lia|]. intros w Ew. cbn in Ew. rewrite (Hpos _ _ Ew). lia.
    + exists (rpmRow (b_Snapshot b)). split; [by apply B6|by apply B5].
  - intros rows written Ef. destruct (O6 rows written Ef) as [Hnd Hrows]. split; [done|]. intros row Hrow.
    destruct (Hrows row Hrow) as [F1 (b & Eb & F2 & F3) F4]. split; cbn; [done| |done].
    exists b. split; [|done]. apply map_lookup_filter_Some. split; [done|]. unfold expired. cbn.
    destruct (Z.eqb_spec (persisted b) (sn_Version (b_Snapshot b))); [lia|done].
Qed.

(** * Recording *)

Lemma inSeconds_event k lo hi e : ev_key e <> k -> inSeconds k lo hi e = false.
Proof. intros H. unfold inSeconds. by rewrite bool_decide_eq_false_2. Qed.

Lemma ring_ok_other k log p w e : ring_ok k log p w -> ev_key e <> k -> ring_ok k (log ++ [e]) p w.
Proof.
  intros [H1 H2 H3] Hne. split; [done|intros t Ht|]; rewrite tally_snoc, inSeconds_event by done; auto.
Qed.

Lemma ring_ok_count k log p w c counted :
  ring_ok k log p w -> 0 <= p -> ring_ok k (log ++ [mkEvent k p c counted]) p (countRequest c p w).
Proof.
  intros [H1 H2 H3] Hp. split; cbn [countRequest seconds current].
  - by rewrite length_insert.
  - intros t Ht. rewrite tally_snoc. unfold inSeconds at 1. cbn. rewrite bool_decide_eq_true_2 by done. cbn.
    destruct (decide (t = p)) as [->|Hne].
    + rewrite <- slotIndex_mod, list_lookup_insert_eq by (rewrite ?slotIndex_mod, ?H1 by lia; try apply slot_lt; lia).
      unfold slotAt. rewrite slotIndex_mod, H2 by lia.
      destruct (Z.ltb_spec (p - 1) p), (Z.leb_spec p p); try lia. done.
    + rewrite list_lookup_insert_ne.
      * rewrite H2 by lia. destruct (Z.ltb_spec (t - 1) p), (Z.leb_spec p t); try lia; done.
      * rewrite slotIndex_mod by lia. intros E. apply (slot_inj p) in E; lia.
  - rewrite tally_snoc. unfold inSeconds at 1. cbn. rewrite bool_decide_eq_true_2 by done. cbn.
    destruct (Z.ltb_spec (p - 60) p), (Z.leb_spec p p); try lia. cbn. by rewrite H3.
Qed.

(** The buckets after a request of [c] in the second [p]. *)
Definition countBucket (session : string) (k : key) (p : Z) (c : Counter) (n : Z) (bs : gmap bucketKey bucket)
  : gmap bucketKey bucket :=
  match minuteBucket session k p bs with
  | (bs, Some b) =>
      <[minuteID k p := withPeak (Z.max (sn_Peak (b_Snapshot b)) n) (withCounter (cAdd (sn_Counter (b_Snapshot b)) c) b)]> bs
  | (bs, None) => bs
  end.

Definition counted (session : string) (k : key) (p : Z) (bs : gmap bucketKey bucket) : bool :=
  isSome (minuteBucket session k p bs).2.

Lemma inMinute_other id e : minuteID (ev_key e) (ev_second e) <> id -> inMinute id e = false.
Proof. intros H. unfold inMinute, ofMinute. rewrite bool_decide_eq_false_2 by done. apply andb_false_r. Qed.

(** The bucket of the request's minute exists and counts it, the others are as they were. *)
Lemma countBucket_spec session k p c n bs :
  let id := minuteID k p in
  let bs' := countBucket session k p c n bs in
  (forall i, i <> id -> bs' !! i = bs !! i)
  /\ if counted session k p bs then
       exists b b', grows session (eq id) bs (<[id := b]> bs) /\ bs' !! id = Some b'
         /\ (bs !! id = Some b \/ bs !! id = None /\ fresh session id b)
         /\ rowID (b_Snapshot b') = rowID (b_Snapshot b) /\ sn_SessionID (b_Snapshot b') = sn_SessionID (b_Snapshot b)
         /\ sn_Counter (b_Snapshot b') = cAdd (sn_Counter (b_Snapshot b)) c
         /\ persisted b' = persisted b /\ sn_Version (b_Snapshot b') = sn_Version (b_Snapshot b) + 1
     else bs' = bs /\ bs !! id = None.
Proof.
  unfold counted, countBucket, minuteBucket. destruct (bs !! minuteID k p) as [b|] eqn:E; cbn.
  - split; [by intros; rewrite lookup_insert_ne|]. exists b. eexists. split; [by apply (grows_insert _ _ _ _ b)|].
    rewrite lookup_insert_eq. split_and!; auto.
  - case_if; cbn; [|done]. split; [by intros; rewrite !lookup_insert_ne|]. set (b := mkBucket _ _).
    assert (Hf : fresh session (minuteID k p) b) by (split; try done; cbn; by destruct k).
    exists b. eexists. split_and!; [|by rewrite lookup_insert_eq|by right|done..].
    intros i. destruct (decide (i = minuteID k p)) as [->|Hne].
    + rewrite E, lookup_insert_eq. done.
    + rewrite lookup_insert_ne by done. destruct (bs !! i) as [x|]; [by exists x|done].
Qed.

Lemma tally_minute_snoc id log e : inMinute id e = false -> tally (inMinute id) (log ++ [e]) = tally (inMinute id) log.
Proof. intros H. by rewrite tally_snoc, H. Qed.

(** A bucket that counts one more request of the log. *)
Lemma bucket_count_ok y y' id b b' c :
  (bucket_ok y id b \/ fresh (sessionID (sy_store y)) id b /\ (sy_floor y <= id.2 -> tally (inMinute id) (sy_log y) = zeroCounter)) ->
  sessionID (sy_store y') = sessionID (sy_store y) -> sy_floor y' = sy_floor y ->
  tally (inMinute id) (sy_log y') = cAdd (tally (inMinute id) (sy_log y)) c ->
  rowID (b_Snapshot b') = rowID (b_Snapshot b) -> sn_SessionID (b_Snapshot b') = sn_SessionID (b_Snapshot b) ->
  sn_Counter (b_Snapshot b') = cAdd (sn_Counter (b_Snapshot b)) c ->
  persisted b' = persisted b -> sn_Version (b_Snapshot b') = sn_Version (b_Snapshot b) + 1 ->
  bucket_ok y' id b'.
Proof.
  intros Hb Es Ef Et E1 E2 E3 E4 E5.
  destruct Hb as [[B1 B2 B3 B4 B5 B6]|[[F1 F2 F3 F4 F5] Hz]]; split; rewrite ?E1, ?E2, ?E3, ?E4, ?E5, ?Es, ?Ef, ?Et; try done; try lia.
  - intros Hfl. by rewrite B5.
  - intros Hfl. by rewrite Hz, F3.
Qed.

Section count.
Context (y : System) (k : key) (w : window) (c : Counter).
Context (Hok : system_ok y) (Hw : windows (sy_store y) !! k = Some w) (Hp : w_second w = sy_clock y).

Let p := sy_clock y.
Let s := sy_store y.
Let w2 := countRequest c p w.
Let e := mkEvent k p c (counted (sessionID s) k p (buckets s)).
Let id := minuteID k p.
Let bs' := countBucket (sessionID s) k p c (Requests (current w2)) (buckets s).
Let y' := mkSystem (mkStore (<[k := w2]> (windows s)) bs' (sessionID s)) (sy_log y ++ [e]) p (sy_db y) (sy_flight y) (sy_floor y).

Lemma count_other i : i <> id -> bs' !! i = buckets s !! i /\ inMinute i e = false.
Proof.
  intros Hi. destruct (countBucket_spec (sessionID s) k p c (Requests (current w2)) (buckets s)) as [Hoth _].
  split; [by apply Hoth|]. by apply inMinute_other, not_eq_sym.
Qed.

Lemma count_open : ~ closed s p id.
Proof.
  pose proof (so_clock y Hok). intros [C1 _]. pose proof (minuteID_start k p ltac:(done)) as Hm. fold id in Hm. lia.
Qed.

Lemma count_tally : e.(ev_room) = true -> tally (inMinute id) (sy_log y ++ [e]) = cAdd (tally (inMinute id) (sy_log y)) c.
Proof. intros He. rewrite tally_snoc. unfold inMinute at 1, ofMinute at 1. rewrite He. cbn [andb]. by rewrite bool_decide_eq_true_2. Qed.

Lemma count_bucket_ok i b : bs' !! i = Some b -> bucket_ok y' i b.
Proof.
  intros Eb. destruct (decide (i = id)) as [Ei|Hne]; [rewrite Ei in *|].
  2: { destruct (count_other i Hne) as [E1 E2]. rewrite E1 in Eb. destruct (so_bucket y Hok i b Eb) as [B1 B2 B3 B4 B5 B6].
       split; cbn; try done. intros Hfl. rewrite tally_minute_snoc by done. auto. }
  destruct (countBucket_spec (sessionID s) k p c (Requests (current w2)) (buckets s)) as [_ Hcnt].
  pose proof count_tally as Ht. cbn in Ht. fold id in Hcnt. destruct (counted _ _ _ _) eqn:Ec.
  - destruct Hcnt as (b0 & b' & _ & Eb' & Hb0 & E1 & E2 & E3 & E4 & E5). fold bs' in Eb'. rewrite Eb in Eb'. injection Eb' as <-.
    apply (bucket_count_ok y y' id b0 b c); try done.
    + destruct Hb0 as [Hb0|[Hn Hf]]; [left; by apply (so_bucket y Hok)|right]. split; [done|].
      intros Hfl. destruct (so_gone y Hok id Hn Hfl) as [[H0 _]|[Hcl _]]; [by apply tally_none|by destruct count_open].
    + by apply Ht.
  - destruct Hcnt as [E1 E2]. fold bs' in E1. rewrite E1 in Eb. congruence.
Qed.

Lemma count_closed i : closed s p i -> closed (sy_store y') p i.
Proof.
  intros [C1 C2]. split; [done|]. cbn. intros w0. destruct (decide (i.1 = k)) as [->|Hne].
  - rewrite lookup_insert_eq. intros [= <-]. cbn. rewrite Hp. exact C1.
  - rewrite lookup_insert_ne by done. apply C2.
Qed.

Lemma count_gone_ok i : bs' !! i = None -> gone_ok y' i.
Proof.
  intros Eb Hfl. cbn in Hfl |- *. destruct (decide (i = id)) as [Ei|Hne]; [rewrite Ei in *|].
  - destruct (countBucket_spec (sessionID s) k p c (Requests (current w2)) (buckets s)) as [_ Hcnt].
    fold id in Hcnt. fold bs' in Hcnt. destruct (counted _ _ _ _) eqn:Ec; [destruct Hcnt as (? & ? & _ & ? & _); congruence|].
    destruct Hcnt as [_ En]. destruct (so_gone y Hok id En Hfl) as [[H0 Hd]|[Hcl _]]; [|by destruct count_open]. left. split; [|exact Hd].
    intros x [Hx| ->%list_elem_of_singleton]%elem_of_app; [by apply H0|]. by unfold inMinute.
  - destruct (count_other i Hne) as [E1 E2]. rewrite E1 in Eb. destruct (so_gone y Hok i Eb Hfl) as [[H0 Hd]|[Hcl (row & Er & Ht)]].
    + left. split; [|exact Hd]. intros x [Hx| ->%list_elem_of_singleton]%elem_of_app; auto.
    + right. split; [by apply count_closed|]. exists row. split; [done|]. by rewrite tally_minute_snoc.
Qed.

Lemma count_flight_ok written row : flight_row_ok y written row -> flight_row_ok y' written row.
Proof.
  intros [F1 (b & Eb & F2 & F3) F4]. split; cbn; [done| |done].
  destruct (decide (rowID row = id)) as [Ei|Hne].
  - destruct (countBucket_spec (sessionID s) k p c (Requests (current w2)) (buckets s)) as [_ Hcnt].
    fold id in Hcnt. fold bs' in Hcnt. rewrite Ei in *. fold s in Eb. destruct (counted _ _ _ _) eqn:Ec; [|destruct Hcnt; congruence].
    destruct Hcnt as (b0 & b' & _ & Eb' & [Hb0|[Hb0 _]] & E1 & E2 & E3 & E4 & E5); [|congruence].
    rewrite Eb in Hb0. injection Hb0 as <-. exists b'. split; [done|]. split; [lia|intros; lia].
  - exists b. destruct (count_other (rowID row) Hne) as [-> _]. done.
Qed.

Lemma count_ok : system_ok y'.
Proof.
  pose proof (so_window y Hok k w Hw) as [W1 W2 W3 W4]. pose proof (so_clock y Hok). rewrite Hp in *.
  split; cbn; [done| | |exact count_bucket_ok|exact count_gone_ok|].
  - intros k0 w0. destruct (decide (k0 = k)) as [->|Hne].
    + rewrite lookup_insert_eq. intros [= <-]. split; cbn; [rewrite Hp; by apply ring_ok_count|lia|lia|].
      intros x [Hx| ->%list_elem_of_singleton]%elem_of_app Ek; [specialize (W4 x Hx Ek); unfold p; lia|done].
    + rewrite lookup_insert_ne by done. intros E. destruct (so_window y Hok k0 w0 E) as [V1 V2 V3 V4].
      split; [apply ring_ok_other; [done|cbn; congruence]|done|done|].
      intros x [Hx| ->%list_elem_of_singleton]%elem_of_app Ek; [auto|by cbn in Ek].
  - intros k0. destruct (decide (k0 = k)) as [->|Hne]; [by rewrite lookup_insert_eq|]. rewrite lookup_insert_ne by done.
    intros E x [Hx| ->%list_elem_of_singleton]%elem_of_app Ek; [by apply (so_nowindow y Hok k0)|by cbn in Ek].
  - intros rows written Ef. destruct (so_flight y Hok rows written Ef) as [Hnd Hrows]. split; [done|].
    intros row Hrow. by apply count_flight_ok, Hrows.
Qed.
End count.

(** What a call of [RecordRequest] adds to the log: nothing when it is refused. *)
Definition recordedEvent (s : Store) (kind : string) (id : Z) (rejected : bool) (at_ : Z) : list event :=
  if (id =? 0) || negb (validKind kind) || (unixSec at_ <? 0) then []
  else
    let k : key := (kind, id) in
    match windowFor s k (unixSec at_) with
    | None => []
    | Some w0 =>
        let '(w1, bs1) := advance (sessionID s) k (unixSec at_) w0 (buckets s) in
        [mkEvent k (unixSec at_) (oneRequest kind rejected) (counted (sessionID s) k (unixSec at_) bs1)]
    end.

Lemma replicate_zero n i : default zeroCounter (replicate n zeroCounter !! i) = zeroCounter.
Proof. destruct (replicate n zeroCounter !! i) as [x|] eqn:E; [|done]. by apply lookup_replicate in E as [-> _]. Qed.

Lemma insert_setWindow (k : key) (m : gmap key window) (a b : window) : <[k := b]> (partial_alter (fun _ => Some a) k m) = <[k := b]> m.
Proof. exact (insert_insert_eq m k b a). Qed.

(** A key without a window gets an empty one. *)
Lemma new_window_ok y k second :
  system_ok y -> windows (sy_store y) !! k = None -> sy_clock y <= second -> 0 <= second ->
  system_ok (withStore (setWindow k (Some (newWindow second)) (sy_store y) (buckets (sy_store y))) second y).
Proof.
  intros Hok Hn Hs H0. pose proof (so_nowindow y Hok k Hn) as Hlog.
  assert (Hz : forall lo hi, second - 60 <= lo -> tally (inSeconds k lo hi) (sy_log y) = zeroCounter).
  { intros lo hi Hlo. apply (inSeconds_none _ _ _ (second - 60)); [|done]. intros e He Ek. specialize (Hlog e He Ek). lia. }
  eapply (grow_ok _ _ _ (fun _ => False)); try done.
  - apply grows_refl.
  - intros id [C1 C2]. split; [lia|]. cbn. intros w. destruct (decide (id.1 = k)) as [->|Hne].
    + rewrite lookup_partial_alter_eq. intros [= <-]. cbn. lia.
    + rewrite lookup_partial_alter_ne by done. apply C2.
  - intros k0 w0. cbn. destruct (decide (k0 = k)) as [->|Hne].
    + rewrite lookup_partial_alter_eq. intros [= <-]. split; [|cbn; lia|cbn; lia|cbn; intros e He Ek; specialize (Hlog e He Ek); lia].
      split; [done| |symmetry; apply Hz; cbn; lia].
      intros t Ht. cbn [w_second newWindow] in Ht. rewrite Hz by lia. apply replicate_zero.
    + rewrite lookup_partial_alter_ne by done. intros E.
      apply (window_ok_later _ (sy_clock y)); [by apply (so_window y Hok)|done].
  - intros k0. cbn. destruct (decide (k0 = k)) as [->|Hne]; [by rewrite lookup_partial_alter_eq|].
    rewrite lookup_partial_alter_ne by done. intros E e He Ek. pose proof (so_nowindow y Hok k0 E e He Ek). lia.
Qed.

Lemma advance_newWindow session k second bs : advance session k second (newWindow second) bs = (newWindow second, bs).
Proof. unfold advance. cbn. by rewrite Z.leb_refl. Qed.

Lemma countBucket_fold session k second c n bs :
  match minuteBucket session k second bs with
  | (bs, Some b) =>
      <[minuteID k second := withPeak (Z.max (sn_Peak (b_Snapshot b)) n) (withCounter (cAdd (sn_Counter (b_Snapshot b)) c) b)]> bs
  | (bs, None) => bs
  end = countBucket session k second c n bs.
Proof. done. Qed.

Lemma record_ok y kind id rejected at_ :
  system_ok y -> sy_clock y <= unixSec at_ ->
  system_ok (mkSystem (RecordRequest (sy_store y) kind id rejected at_)
               (sy_log y ++ recordedEvent (sy_store y) kind id rejected at_) (unixSec at_) (sy_db y) (sy_flight y) (sy_floor y)).
Proof.
  intros Hok Hs. unfold RecordRequest, recordedEvent.
  destruct (_ || _ || _) eqn:Eg; [rewrite app_nil_r; by apply tick_ok|]. zb.
  set (k := (kind, id) : key). change (kind, id) with k. unfold windowFor. destruct (windows (sy_store y) !! k) as [w0|] eqn:Ew.
  - destruct (advance_window_ok y k w0 (unixSec at_) Hok Ew Hs) as [Ha _].
    destruct (window_ok_advance _ _ (sessionID (sy_store y)) k (unixSec at_) w0 (buckets (sy_store y)) (so_window y Hok k w0 Ew) Hs)
      as (_ & Hb & _).
    destruct (advance _ k (unixSec at_) w0 _) as [w1 bs1]. cbn [fst snd] in *. cbv zeta. rewrite Hb, Z.max_id.
    pose proof (count_ok _ k w1 (oneRequest kind rejected) Ha) as Hc. cbn in Hc. rewrite lookup_partial_alter_eq in Hc.
    specialize (Hc eq_refl Hb). rewrite countBucket_fold. rewrite insert_setWindow in Hc. exact Hc.
  - case_if; [rewrite app_nil_r; by apply tick_ok|].
    rewrite advance_newWindow. cbn [w_second newWindow]. rewrite Z.max_id.
    pose proof (new_window_ok y k (unixSec at_) Hok Ew Hs ltac:(done)) as Ha.
    pose proof (count_ok _ k (newWindow (unixSec at_)) (oneRequest kind rejected) Ha) as Hc. cbn in Hc.
    rewrite lookup_partial_alter_eq in Hc. specialize (Hc eq_refl eq_refl). rewrite countBucket_fold.
    rewrite insert_setWindow in Hc. exact Hc.
Qed.

Lemma rpm_current_ok y kind id at_ :
  system_ok y -> sy_clock y <= unixSec at_ ->
  system_ok (withStore (Current (sy_store y) kind id at_).1 (unixSec at_) y)
  /\ (Current (sy_store y) kind id at_).2 = tally (inSeconds (kind, id) (unixSec at_ - 60) (unixSec at_)) (sy_log y).
Proof.
  intros Hok Hs. unfold Current. destruct (windows (sy_store y) !! ((kind, id) : key)) as [w|] eqn:Ew.
  - destruct (advance_window_ok y _ w (unixSec at_) Hok Ew Hs) as [H1 _].
    destruct (window_ok_advance _ _ (sessionID (sy_store y)) _ (unixSec at_) w (buckets (sy_store y)) (so_window y Hok _ w Ew) Hs)
      as (H2 & H3 & _).
    destruct (advance _ _ (unixSec at_) w _) as [w1 bs1]. cbn in *. split; [exact H1|].
    destruct H2 as [[_ _ Hc] _ _ _]. by rewrite <- H3.
  - cbn. split; [by apply tick_ok|]. symmetry. apply (inSeconds_none _ _ _ (unixSec at_ - 60)); [|lia].
    intros e He Ek. pose proof (so_nowindow y Hok _ Ew e He Ek). lia.
Qed.

(** * The checkpoint worker *)

Definition withFlight (f : option (list Snapshot * bool)) (y : System) : System :=
  mkSystem (sy_store y) (sy_log y) (sy_clock y) (sy_db y) f (sy_floor y).
Definition withDB (db : gmap bucketKey RPMStat) (y : System) : System :=
  mkSystem (sy_store y) (sy_log y) (sy_clock y) db (sy_flight y) (sy_floor y).

Lemma flight_ok y f :
  system_ok y ->
  (forall rows written, f = Some (rows, written) ->
     NoDup (rowID <$> rows) /\ forall row, row ∈ rows -> flight_row_ok y written row) ->
  system_ok (withFlight f y).
Proof.
  intros [] Hf. split; cbn; try done.
  - intros id b Hb. destruct (so_bucket0 id b Hb). by split.
  - intros rows written E. destruct (Hf rows written E) as [Hn Hr]. split; [done|]. intros row Hrow.
    destruct (Hr row Hrow). by split.
Qed.

Lemma snapshotRows_ok y d :
  system_ok y ->
  NoDup (rowID <$> snapshotRows d (buckets (sy_store y)))
  /\ forall row, row ∈ snapshotRows d (buckets (sy_store y)) ->
       exists b, buckets (sy_store y) !! rowID row = Some b /\ row = b_Snapshot b /\ (d = true -> dirty b = true).
Proof.
  intros Hok. unfold snapshotRows. set (sel := filter _ _).
  assert (Hsel : forall kb, kb ∈ sel -> buckets (sy_store y) !! kb.1 = Some kb.2 /\ rowID (b_Snapshot kb.2) = kb.1 /\ (d = true -> dirty kb.2 = true)).
  { intros [i b]. subst sel. rewrite list_elem_of_filter. intros [Hd Hin]. apply elem_of_map_to_list in Hin. cbn in *.
    split_and!; [done|by apply (bo_id _ _ _ (so_bucket y Hok i b Hin))|]. intros ->. cbn in Hd. by apply Is_true_true. }
  split.
  - rewrite <- list_fmap_compose.
    rewrite (list_fmap_ext (rowID ∘ (fun kb => b_Snapshot kb.2)) fst sel) by
      (intros i kb Hi; cbn; by apply Hsel, (list_elem_of_lookup_2 _ i)).
    apply NoDup_fmap_filter, NoDup_fst_map_to_list.
  - intros row (kb & -> & Hin)%list_elem_of_fmap. destruct (Hsel kb Hin) as (H1 & H2 & H3).
    exists kb.2. by rewrite H2.
Qed.

Lemma Snapshots_rows order s now d limit :
  let r := Snapshots order s now d limit in
  r.2 `sublist_of` merge_sort snapshotOrder (snapshotRows d (buckets r.1)).
Proof. unfold Snapshots. cbn. case_if; [apply sublist_take|done]. Qed.

(** A batch of dirty rows that is taken can be acknowledged later. *)
Lemma take_ok order y now limit :
  system_ok y -> covers order (sy_store y) -> sy_clock y <= unixSec now ->
  let r := Snapshots order (sy_store y) now true limit in
  system_ok (withFlight (Some (r.2, false)) (withStore r.1 (unixSec now) y)).
Proof.
  intros Hok Hcov Hs r. pose proof (advanceAll_ok order y now Hok Hcov Hs) as H1.
  change (advanceAll order now (sy_store y)) with r.1 in H1.
  pose proof (Snapshots_rows order (sy_store y) now true limit) as Hsub. fold r in Hsub.
  destruct (snapshotRows_ok _ true H1) as [Hnd Hrow]. cbn in Hnd, Hrow.
  apply flight_ok; [done|]. intros rows written [= <- <-]. split.
  - eapply sublist_NoDup; [|apply fmap_sublist, Hsub]. by rewrite merge_sort_Permutation.
  - intros row Hin. pose proof (elem_of_sublist _ _ _ Hin Hsub) as Hin2. clear Hin. rename Hin2 into Hin. rewrite merge_sort_Permutation in Hin.
    destruct (Hrow row Hin) as (b & Eb & Er & Hd). specialize (Hd eq_refl). unfold dirty in Hd. zb.
    destruct (so_bucket _ H1 _ b Eb) as [B1 B2 B3 B4 B5 B6]. cbn in *.
    split; cbn; [congruence| |done]. exists b. subst row. split_and!; [done|lia|lia|done].
Qed.

Lemma writeRows_other rows db id : id ∉ rowID <$> rows -> writeRows db rows !! id = db !! id.
Proof.
  revert db. induction rows as [|row rows IH]; intros db; cbn; [done|]. rewrite not_elem_of_cons. intros [Hne Hn].
  unfold writeRows in IH. rewrite IH by done. unfold upsert. by rewrite lookup_insert_ne.
Qed.

Lemma writeRows_lookup rows db row :
  NoDup (rowID <$> rows) -> row ∈ rows -> writeRows db rows !! rowID row = Some (rpmRow row).
Proof.
  revert db. induction rows as [|r rows IH]; intros db Hnd Hin; [by apply elem_of_nil in Hin|].
  rewrite fmap_cons, NoDup_cons in Hnd. destruct Hnd as [Hn Hnd].
  change (writeRows db (r :: rows)) with (writeRows (upsert db r) rows). apply elem_of_cons in Hin as [->|Hin]; [|by apply IH].
  rewrite (writeRows_other rows) by done. unfold upsert. by rewrite lookup_insert_eq.
Qed.

(** Writing rows of the batch, all of them or some, touches only dirty buckets. *)
Lemma write_rows_ok y rows written sub :
  system_ok y -> sy_flight y = Some (rows, written) -> (forall row, row ∈ sub -> row ∈ rows) ->
  system_ok (withFlight None (withDB (writeRows (sy_db y) sub) y)).
Proof.
  intros Hok Hf Hsub. destruct (so_flight y Hok rows written Hf) as [_ Hrows].
  assert (Hout : forall id, (forall b, buckets (sy_store y) !! id = Some b -> persisted b = sn_Version (b_Snapshot b)) ->
                            writeRows (sy_db y) sub !! id = sy_db y !! id).
  { intros id Hc. apply writeRows_other. intros (row & -> & Hin)%list_elem_of_fmap.
    destruct (Hrows row (Hsub row Hin)) as [_ (b & Eb & F2 & _) _]. specialize (Hc b Eb). lia. }
  destruct Hok as [O1 O2 O3 O4 O5 O6]. split; cbn; try done.
  - intros id b Hb. destruct (O4 id b Hb) as [B1 B2 B3 B4 B5 B6]. split; cbn; try done.
    intros Hfl Hc. rewrite Hout; [by apply B6|]. intros b0 Hb0. rewrite Hb in Hb0. by injection Hb0 as <-.
  - intros id Hb Hfl. cbn. rewrite Hout by congruence. by apply O5.
Qed.

Lemma write_ok y rows :
  system_ok y -> sy_flight y = Some (rows, false) ->
  system_ok (withFlight (Some (rows, true)) (withDB (writeRows (sy_db y) rows) y)).
Proof.
  intros Hok Hf. pose proof (write_rows_ok y rows false rows Hok Hf ltac:(done)) as H.
  destruct (so_flight y Hok rows false Hf) as [Hnd Hrows].
  apply (flight_ok _ (Some (rows, true))) in H; [exact H|]. intros rows0 w [= <- <-]. split; [done|].
  intros row Hin. destruct (Hrows row Hin) as [F1 F2 F3]. split; cbn; [done|done|]. intros _. by apply writeRows_lookup.
Qed.

(** * Acknowledgement *)

Lemma ackOne_ok y row rows :
  system_ok y -> sy_flight y = Some (row :: rows, true) ->
  system_ok (withFlight (Some (rows, true)) (withStore (ackOne (sy_store y) row) (sy_clock y) y)).
Proof.
  intros Hok Hf. destruct (so_flight y Hok _ _ Hf) as [Hnd Hrows]. rewrite fmap_cons, NoDup_cons in Hnd. destruct Hnd as [Hn Hnd].
  destruct (Hrows row ltac:(constructor)) as [F1 (b & Eb & F2 & F3) F4]. specialize (F4 eq_refl).
  unfold ackOne. rewrite bool_decide_eq_true_2, Eb by done. cbn [negb].
  rewrite Z.min_l, Z.max_r by lia. destruct Hok as [O1 O2 O3 O4 O5 O6]. split; cbn; try done.
  - intros id b0. destruct (decide (id = rowID row)) as [->|Hne].
    + rewrite lookup_insert_eq. intros [= <-]. destruct (O4 _ b Eb) as [B1 B2 B3 B4 B5 B6].
      split; cbn; try done; [lia|]. intros Hfl Ev. rewrite <- (F3 Ev). done.
    + rewrite lookup_insert_ne by done. intros E. destruct (O4 id b0 E). by split.
  - intros id. destruct (decide (id = rowID row)) as [->|Hne]; [by rewrite lookup_insert_eq|].
    rewrite lookup_insert_ne by done. intros E Hfl. destruct (O5 id E Hfl) as [?|[? ?]]; [by left|by right].
  - intros rows0 w [= <- <-]. split; [done|]. intros r Hr. destruct (Hrows r ltac:(by constructor)) as [G1 (b' & G2 & G3) G4].
    split; cbn; [done| |done]. exists b'. rewrite lookup_insert_ne; [done|].
    intros E. apply Hn, list_elem_of_fmap. by exists r.
Qed.

Lemma rpm_ack_ok y rows :
  system_ok y -> sy_flight y = Some (rows, true) ->
  system_ok (withFlight None (withStore (Ack (sy_store y) rows) (sy_clock y) y)).
Proof.
  revert y. induction rows as [|row rows IH]; intros y Hok Hf; [by apply (flight_ok _ None) in Hok|].
  apply (IH _ (ackOne_ok y row rows Hok Hf)). done.
Qed.

Lemma discard_ok y cutoff :
  system_ok y -> sy_flight y = None ->
  system_ok (mkSystem (DiscardBefore (sy_store y) cutoff) (sy_log y) (sy_clock y) (sy_db y) None (Z.max (sy_floor y) cutoff)).
Proof.
  intros [O1 O2 O3 O4 O5 O6] Hf. split; cbn; try done.
  - intros id b [Eb Hc]%map_lookup_filter_Some. destruct (O4 id b Eb) as [B1 B2 B3 B4 B5 B6]. cbn in *.
    split; cbn; try done; intros; [apply B5|apply B6]; auto; lia.
  - intros id E Hfl. cbn in *. apply map_lookup_filter_None in E as [E|E].
    + destruct (O5 id E ltac:(lia)) as [?|[? ?]]; [by left|by right].
    + destruct (buckets (sy_store y) !! id) as [b|] eqn:Eb.
      * specialize (E b eq_refl). cbn in E. lia.
      * destruct (O5 id Eb ltac:(lia)) as [?|[? ?]]; [by left|by right].
Qed.

(** Retention also deletes rows below the cutoff, in its own time. *)
Lemma delete_rows_ok y db :
  system_ok y -> (forall id, sy_floor y <= id.2 -> db !! id = sy_db y !! id) -> sy_flight y = None ->
  system_ok (withDB db y).
Proof.
  intros [O1 O2 O3 O4 O5 O6] Hdb Hf. split; cbn; try done.
  - intros id b Eb. destruct (O4 id b Eb) as [B1 B2 B3 B4 B5 B6]. split; cbn; try done. intros Hfl. rewrite Hdb by done. auto.
  - intros id E Hfl. cbn in *. rewrite Hdb by done. by apply O5.
  - congruence.
Qed.

(** * The transition system *)

(** What queries, the checkpoint worker and retention do. *)
Inductive rpm_step (y : System) : System -> Prop :=
| rs_current kind id at_ : sy_clock y <= unixSec at_ ->
    rpm_step y (withStore (Current (sy_store y) kind id at_).1 (unixSec at_) y)
| rs_query order now dirtyOnly limit : covers order (sy_store y) -> sy_clock y <= unixSec now ->
    rpm_step y (withStore (Snapshots order (sy_store y) now dirtyOnly limit).1 (unixSec now) y)
| rs_pending order now : covers order (sy_store y) -> sy_clock y <= unixSec now ->
    rpm_step y (withStore (Pending order (sy_store y) now).1 (unixSec now) y)
| rs_take order now limit : sy_flight y = None -> covers order (sy_store y) -> sy_clock y <= unixSec now ->
    let r := Snapshots order (sy_store y) now true limit in
    rpm_step y (withFlight (Some (r.2, false)) (withStore r.1 (unixSec now) y))
| rs_write rows : sy_flight y = Some (rows, false) ->
    rpm_step y (withFlight (Some (rows, true)) (withDB (writeRows (sy_db y) rows) y))
| rs_write_failed rows sub : sy_flight y = Some (rows, false) -> sub `sublist_of` rows ->
    rpm_step y (withFlight None (withDB (writeRows (sy_db y) sub) y))
| rs_ack rows : sy_flight y = Some (rows, true) ->
    rpm_step y (withFlight None (withStore (Ack (sy_store y) rows) (sy_clock y) y))
| rs_discard cutoff : sy_flight y = None ->
    rpm_step y (mkSystem (DiscardBefore (sy_store y) cutoff) (sy_log y) (sy_clock y) (sy_db y) None (Z.max (sy_floor y) cutoff))
| rs_delete db : sy_flight y = None -> (forall id, sy_floor y <= id.2 -> db !! id = sy_db y !! id) -> rpm_step y (withDB db y).

Definition recordStep (kind : string) (id : Z) (rejected : bool) (at_ : Z) (y : System) : System :=
  mkSystem (RecordRequest (sy_store y) kind id rejected at_)
    (sy_log y ++ recordedEvent (sy_store y) kind id rejected at_) (unixSec at_) (sy_db y) (sy_flight y) (sy_floor y).

(** The memory holds as many minutes or as many windows as it may. *)
Definition storeFull (s : Store) : bool :=
  (maxBuckets <=? Z.of_nat (size (buckets s))) || (maxBuckets <=? Z.of_nat (size (windows s))).

(** A request as the specification sees it arrive, whatever the store does with it: there is
    room for it when it does not leave the memory full. *)
Definition arrival (s : Store) (kind : string) (id : Z) (rejected : bool) (at_ : Z) : list event :=
  if (id =? 0) || negb (validKind kind) || (unixSec at_ <? 0) then []
  else [mkEvent (kind, id) (unixSec at_) (oneRequest kind rejected) (negb (storeFull (RecordRequest s kind id rejected at_)))].

Definition rpm_start (session : string) : System := mkSystem (NewStore session) [] 0 ∅ None 0.

(** The reachable states, each with every request that arrived on the way. *)
Inductive rpm_reach (session : string) : System -> list event -> Prop :=
| rr_start : rpm_reach session (rpm_start session) []
| rr_record y arrived kind id rejected at_ :
    rpm_reach session y arrived -> sy_clock y <= unixSec at_ ->
    rpm_reach session (recordStep kind id rejected at_ y) (arrived ++ arrival (sy_store y) kind id rejected at_)
| rr_step y arrived y' : rpm_reach session y arrived -> rpm_step y y' -> rpm_reach session y' arrived.

Lemma rpm_start_ok session : system_ok (rpm_start session).
Proof.
  assert (Hn : forall (e : event), e ∉ []) by (intros e; apply not_elem_of_nil).
  split; cbn; try done.
  - intros k _ e He. by destruct (Hn e).
  - intros id _ _. left. split; [intros e He; by destruct (Hn e)|done].
Qed.

Lemma rpm_step_ok y y' : rpm_step y y' -> system_ok y -> system_ok y'.
Proof.
  intros [] Hok.
  - by apply rpm_current_ok.
  - by apply advanceAll_ok.
  - by apply advanceAll_ok.
  - by apply take_ok.
  - by apply write_ok.
  - eapply write_rows_ok; [done|done|]. intros row Hrow. by eapply elem_of_sublist.
  - by apply rpm_ack_ok.
  - by apply discard_ok.
  - by apply delete_rows_ok.
Qed.

Lemma rpm_step_log y y' : rpm_step y y' -> sy_log y' = sy_log y.
Proof. by intros []. Qed.

Lemma rpm_reach_ok session y arrived : rpm_reach session y arrived -> system_ok y.
Proof.
  induction 1 as [|y arrived kind id rejected at_ _ IH Hs|y arrived y' _ IH Hstep]; [apply rpm_start_ok|by apply record_ok|by eapply rpm_step_ok].
Qed.

(** * What is counted of what arrived *)

Definition cLe (a b : Counter) : Prop := Requests a <= Requests b /\ Rejected a <= Rejected b.

#[export] Instance cLe_refl : Reflexive cLe.
Proof. intros a. split; lia. Qed.

Lemma cLe_antisym a b : cLe a b -> cLe b a -> a = b.
Proof. intros [] []. apply counter_eq; lia. Qed.

Lemma minuteBucket_room session k second bs : (minuteBucket session k second bs).2 = None -> maxBuckets <= Z.of_nat (size (minuteBucket session k second bs).1).
Proof. unfold minuteBucket. destruct (bs !! _); [done|]. case_if; [done|]. cbn. lia. Qed.

(** A request for which there is room is in the log and counted; none is there twice. *)
Lemma recorded_arrival y kind id rejected at_ e :
  system_ok y -> sy_clock y <= unixSec at_ ->
  arrival (sy_store y) kind id rejected at_ = [e] ->
  recordedEvent (sy_store y) kind id rejected at_ = []  /\ ev_room e = false
  \/ exists room, recordedEvent (sy_store y) kind id rejected at_ = [mkEvent (ev_key e) (ev_second e) (ev_counter e) room]
       /\ (ev_room e = true -> room = true).
Proof.
  intros Hok Hs. unfold arrival, recordedEvent, RecordRequest. destruct (_ || _ || _) eqn:Eg; [done|]. intros [= <-]. cbn [ev_room ev_key ev_second ev_counter].
  destruct (windowFor (sy_store y) (kind, id) (unixSec at_)) as [w0|] eqn:Ew; [right|left].
  - destruct (advance _ _ _ w0 _) as [w1 bs1] eqn:Ea. eexists. split; [done|].
    intros Hroom. unfold counted. destruct (minuteBucket _ _ (unixSec at_) bs1) as [bs2 [b|]] eqn:Em; [done|exfalso].
    assert (w_second w1 = unixSec at_) as Ew1.
    { unfold windowFor in Ew. destruct (windows (sy_store y) !! ((kind, id) : key)) as [w|] eqn:E0.
      - injection Ew as <-. destruct (window_ok_advance _ _ (sessionID (sy_store y)) _ (unixSec at_) w (buckets (sy_store y)) (so_window y Hok _ w E0) Hs) as (_ & H & _).
        by rewrite Ea in H.
      - case_if_in Ew; [done|]. injection Ew as <-. rewrite advance_newWindow in Ea. by injection Ea as <- _. }
    rewrite Ew1, Z.max_id, Em in Hroom. pose proof (minuteBucket_room (sessionID (sy_store y)) (kind, id) (unixSec at_) bs1) as Hm. rewrite Em in Hm.
    specialize (Hm eq_refl). unfold storeFull in Hroom. cbn [buckets fst] in *. rewrite (proj2 (Z.leb_le _ _) Hm) in Hroom. done.
  - split; [done|]. unfold windowFor in Ew. destruct (windows (sy_store y) !! _); [done|]. case_if_in Ew; [|done].
    unfold storeFull. zb. rewrite (proj2 (Z.leb_le maxBuckets (Z.of_nat (size (windows (sy_store y)))))) by lia. by rewrite orb_true_r.
Qed.

Lemma oneRequest_nonneg kind rejected : cLe zeroCounter (oneRequest kind rejected).
Proof. unfold cLe. cbn. case_if; lia. Qed.

Lemma ofMinute_event id k p c room : ofMinute id (mkEvent k p c room) = bool_decide (minuteID k p = id).
Proof. done. Qed.

Lemma inMinute_event id k p c room : inMinute id (mkEvent k p c room) = room && bool_decide (minuteID k p = id).
Proof. done. Qed.

(** For every minute, the log holds at least the requests for which there was room, and at
    most those that arrived. *)
Lemma reach_counts session y arrived id :
  rpm_reach session y arrived ->
  cLe (tally (inMinute id) arrived) (tally (inMinute id) (sy_log y)) /\ cLe (tally (inMinute id) (sy_log y)) (tally (ofMinute id) arrived).
Proof.
  induction 1 as [|y arrived kind i rejected at_ Hr IH Hs|y arrived y' _ IH Hstep]; [done| |by rewrite (rpm_step_log _ _ Hstep)].
  pose proof (oneRequest_nonneg kind rejected) as [N1 N2].
  pose proof (recorded_arrival y kind i rejected at_) as Hrec. cbn [recordStep sy_log]. unfold arrival in *.
  destruct (_ || _ || _) eqn:Eg; [unfold recordedEvent; rewrite Eg, !app_nil_r; done|]. specialize (Hrec _ (rpm_reach_ok _ _ _ Hr) Hs eq_refl). cbn in Hrec.
  destruct IH as [[A1 A2] [B1 B2]]. destruct Hrec as [[-> ->]|(room & -> & Hroom)]; rewrite ?app_nil_r, !tally_snoc, ?inMinute_event, ?ofMinute_event; unfold cLe.
  - destruct (bool_decide _); cbn in *; lia.
  - destruct (bool_decide _), room, (storeFull _); cbn in *; try (specialize (Hroom eq_refl); discriminate); lia.
Qed.

(** Nothing pending, nothing to write. *)
Lemma pending_none order y now row : (Pending order (sy_store y) now).2 = false -> row ∉ (Snapshots order (sy_store y) now true 0).2.
Proof.
  unfold Pending, Snapshots, snapshotRows. cbn [snd Nat.ltb Nat.leb andb]. intros [_ Hp]%orb_false_iff Hin. rewrite merge_sort_Permutation in Hin.
  apply list_elem_of_fmap in Hin as (kb & _ & Hin). apply list_elem_of_filter in Hin as [Hd Hin]. cbn in Hd. apply Is_true_true in Hd.
  apply not_true_iff_false in Hp. apply Hp, existsb_exists. exists kb. split; [by apply list_elem_of_In|done].
Qed.

(** A minute since the cutoff is in the table, or dirty in memory. *)
Lemma minute_held order y now (id : bucketKey) :
  system_ok (withStore (advanceAll order now (sy_store y)) (unixSec now) y) -> sy_floor y <= id.2 ->
  mget zeroCounter (st_Counter <$> sy_db y) id = tally (inMinute id) (sy_log y)
  \/ exists row, row ∈ (Snapshots order (sy_store y) now true 0).2 /\ rowID row = id /\ sn_Counter row = tally (inMinute id) (sy_log y).
Proof.
  intros Hok Hfl. unfold mget. rewrite lookup_fmap. destruct (buckets (advanceAll order now (sy_store y)) !! id) as [b|] eqn:Eb.
  - destruct (so_bucket _ Hok id b Eb) as [B1 B2 B3 B4 B5 B6]. cbn in *. destruct (dirty b) eqn:Ed.
    + right. exists (b_Snapshot b). split; [|split; [done|by apply B5]]. rewrite merge_sort_Permutation. apply list_elem_of_fmap. exists (id, b). split; [done|].
      apply list_elem_of_filter. split; [cbn; by rewrite Ed|by apply elem_of_map_to_list].
    + left. unfold dirty in Ed. zb. rewrite B6 by done. cbn. by rewrite <- B5.
  - left. destruct (so_gone _ Hok id Eb Hfl) as [[H0' Hd]|[_ (row & Er & Ht)]]; cbn in *.
    + rewrite tally_none by done. destruct (sy_db y !! id) as [row|] eqn:Er; [cbn; by apply Hd|done].
    + by rewrite Er.
Qed.

(** The current rate is exact.  Whatever requests, queries, checkpoints and retention runs
    came before, in any interleaving with a clock that does not go back a second, the rate
    reported for an access key or a credential is the number of its recorded requests (and
    rejections) in the last sixty seconds. *)
Theorem rpm_current_exact session y arrived kind id at_ :
  rpm_reach session y arrived -> sy_clock y <= unixSec at_ ->
  (Current (sy_store y) kind id at_).2 = tally (inSeconds (kind, id) (unixSec at_ - 60) (unixSec at_)) (sy_log y).
Proof. intros H Hs. by apply rpm_current_ok; [apply (rpm_reach_ok session y arrived)|done]. Qed.


(** * A concrete run *)

Definition exAt (s : Z) : Z := unixEpoch + s * second.

Definition exRecord (rejected : bool) (s : Z) (y : System) : System := recordStep AccessKey 7 rejected (exAt s) y.
Definition exArrival (rejected : bool) (s : Z) (y : System) : list event := arrival (sy_store y) AccessKey 7 rejected (exAt s).
Definition exTake (order : list key) (s : Z) (y : System) : System :=
  let r := Snapshots order (sy_store y) (exAt s) true 100 in
  withFlight (Some (r.2, false)) (withStore r.1 (unixSec (exAt s)) y).
Definition exRows (y : System) : list Snapshot := match sy_flight y with Some (rows, _) => rows | None => [] end.
Definition exWrite (y : System) : System := withFlight (Some (exRows y, true)) (withDB (writeRows (sy_db y) (exRows y)) y).
Definition exAck (y : System) : System := withFlight None (withStore (Ack (sy_store y) (exRows y)) (sy_clock y) y).

Lemma exTake_reach y arrived order s :
  rpm_reach "s" y arrived -> sy_flight y = None -> order = (mentries (windows (sy_store y))).*1 ->
  (sy_clock y <=? unixSec (exAt s)) = true -> rpm_reach "s" (exTake order s y) arrived.
Proof.
  intros H Hf Ho Hs. zb. refine (rr_step _ _ _ _ H (rs_take y order (exAt s) 100 Hf _ Hs)). unfold covers. by rewrite Ho.
Qed.

Lemma exWrite_reach y arrived :
  rpm_reach "s" y arrived -> sy_flight y = Some (exRows y, false) -> rpm_reach "s" (exAck (exWrite y)) arrived.
Proof.
  intros H Hf. refine (rr_step _ _ _ _ (rr_step _ _ _ _ H (rs_write y (exRows y) Hf)) _).
  exact (rs_ack (exWrite y) (exRows y) eq_refl).
Qed.

(** A request, a rejected one in the next minute while the first is being written, and a
    second batch after the window has expired. *)
Definition exFirst : System := exRecord false 100 (rpm_start "s").
Definition exBatch : System := exTake [(AccessKey, 7)] 110 exFirst.
Definition exMid : System := exRecord true 130 exBatch.
Definition exEnd : System := exAck (exWrite (exTake [(AccessKey, 7)] 300 (exAck (exWrite exMid)))).
Definition exArrived : list event := exArrival false 100 (rpm_start "s") ++ exArrival true 130 exBatch.

Lemma exMid_reach : rpm_reach "s" exMid exArrived.
Proof.
  refine (rr_record _ _ _ _ _ _ _ _ _); [|by vm_compute]. apply exTake_reach; [|by vm_compute..].
  apply (rr_record "s" (rpm_start "s") []); [apply rr_start|by vm_compute].
Qed.

Lemma exEnd_reach : rpm_reach "s" exEnd exArrived.
Proof.
  apply exWrite_reach; [|by vm_compute]. apply exTake_reach; [|by vm_compute..].
  apply exWrite_reach; [apply exMid_reach|by vm_compute].
Qed.

Lemma rpm_current_exact_witness : (Current (sy_store exMid) AccessKey 7 (exAt 150)).2 = mkCounter 2 1.
Proof. rewrite (rpm_current_exact "s" exMid exArrived AccessKey 7 (exAt 150) exMid_reach ltac:(by vm_compute)). by vm_compute. Defined.

