(* ===== verification/RedactToken.v ===== *)
(** The redaction tokens of [internal/platform/encryption/redaction.go]: the text form of a
    protected value, the parser of candidates and [RestoreText], which puts the plaintext back.

    AES-SIV is a third-party package: a class of operations, with its documented law (what was
    encrypted under associated data decrypts under it) as a class of its own. *)
From Stdlib Require Import Ascii.
From S2P Require Import Prelude GoStrings.

Local Open Scope Z_scope.

(** * Base64

    The unpadded URL alphabet of [encoding/base64]: [base64.RawURLEncoding] and its strict
    decoder, which the redaction tokens use.  Bytes are [ascii], in order. *)

Definition byteOf (z : Z) : ascii := ascii_of_N (Z.to_N z).

Lemma byteZ_byteOf z : 0 <= z < 256 -> byteZ (byteOf z) = z.
Proof. intros Hz. unfold byteZ, byteOf. rewrite N_ascii_embedding by lia. lia. Qed.

Lemma byteOf_byteZ c : byteOf (byteZ c) = c.
Proof. unfold byteZ, byteOf. rewrite N2Z.id. apply ascii_N_embedding. Qed.

(** * The alphabet *)

Definition encodeChar (d : Z) : ascii :=
  if d <? 26 then byteOf (65 + d) else if d <? 52 then byteOf (97 + (d - 26))
  else if d <? 62 then byteOf (48 + (d - 52)) else if d =? 62 then byteOf 45 else byteOf 95.

Definition decodeChar (c : ascii) : option Z :=
  let b := byteZ c in
  if (65 <=? b) && (b <=? 90) then Some (b - 65)
  else if (97 <=? b) && (b <=? 122) then Some (b - 97 + 26)
  else if (48 <=? b) && (b <=? 57) then Some (b - 48 + 52)
  else if b =? 45 then Some 62 else if b =? 95 then Some 63 else None.

Definition isNewline (c : ascii) : bool := (byteZ c =? 10) || (byteZ c =? 13).

(** * Encoding and strict decoding *)

Definition EncodedLen (n : Z) : Z := n / 3 * 4 + (n `mod` 3 * 8 + 5) / 6.

Fixpoint EncodeToString (l : list ascii) : list ascii :=
  match l with
  | [] => []
  | [a] => let v := byteZ a * 16 in [encodeChar (v / 64); encodeChar (v `mod` 64)]
  | [a; b] =>
      let v := (byteZ a * 256 + byteZ b) * 4 in
      [encodeChar (v / 4096); encodeChar ((v / 64) `mod` 64); encodeChar (v `mod` 64)]
  | a :: b :: c :: l' =>
      let v := (byteZ a * 256 + byteZ b) * 256 + byteZ c in
      encodeChar (v / 262144) :: encodeChar ((v / 4096) `mod` 64) :: encodeChar ((v / 64) `mod` 64)
        :: encodeChar (v `mod` 64) :: EncodeToString l'
  end.

(** [Strict]: the bits a last, partial group leaves over are zero. *)
Fixpoint decodeQuanta (l : list ascii) : option (list ascii) :=
  match l with
  | [] => Some []
  | [_] => None
  | [w; x] =>
      match decodeChar w, decodeChar x with
      | Some p, Some q =>
          let v := p * 64 + q in if v `mod` 16 =? 0 then Some [byteOf (v / 16)] else None
      | _, _ => None
      end
  | [w; x; y] =>
      match decodeChar w, decodeChar x, decodeChar y with
      | Some p, Some q, Some r =>
          let v := (p * 64 + q) * 64 + r in
          if v `mod` 4 =? 0 then Some [byteOf (v / 1024); byteOf ((v / 4) `mod` 256)] else None
      | _, _, _ => None
      end
  | w :: x :: y :: z :: l' =>
      match decodeChar w, decodeChar x, decodeChar y, decodeChar z, decodeQuanta l' with
      | Some p, Some q, Some r, Some s, Some rest =>
          let v := ((p * 64 + q) * 64 + r) * 64 + s in
          Some (byteOf (v / 65536) :: byteOf ((v / 256) `mod` 256) :: byteOf (v `mod` 256) :: rest)
      | _, _, _, _, _ => None
      end
  end.

(** The decoder skips line ends. *)
Definition StrictDecodeString (l : list ascii) : option (list ascii) :=
  decodeQuanta (filter (fun c => isNewline c = false) l).

(** * Decoding inverts encoding *)

Lemma encodeChar_spec d : 0 <= d < 64 ->
  decodeChar (encodeChar d) = Some d /\ isNewline (encodeChar d) = false.
Proof.
  intros Hd. assert (forallb (fun n => let c := encodeChar (Z.of_nat n) in
    bool_decide (decodeChar c = Some (Z.of_nat n)) && negb (isNewline c)) (seq 0 64) = true) as Hall
    by (vm_compute; reflexivity).
  rewrite forallb_forall in Hall. specialize (Hall (Z.to_nat d)).
  rewrite Z2Nat.id in Hall by lia.
  assert (In (Z.to_nat d) (seq 0 64)) as Hin by (apply in_seq; lia).
  apply Hall, andb_true_iff in Hin as [H1 H2]. split; [by apply bool_decide_eq_true in H1|].
  by apply negb_true_iff in H2.
Qed.

Lemma decode_encodeChar d : 0 <= d < 64 -> decodeChar (encodeChar d) = Some d.
Proof. intros Hd. by apply encodeChar_spec. Qed.

(** Induction by groups of three bytes, the way both functions recurse. *)
Lemma triples_ind (P : list ascii -> Prop) :
  P [] -> (forall a, P [a]) -> (forall a b, P [a; b]) ->
  (forall a b c l, P l -> P (a :: b :: c :: l)) -> forall l, P l.
Proof.
  intros H0 H1 H2 H3. refine (fix go l := _). destruct l as [|a [|b [|c l]]];
    [exact H0|exact (H1 a)|exact (H2 a b)|exact (H3 a b c l (go l))].
Qed.

Ltac bytes3 := repeat match goal with c : ascii |- _ =>
  lazymatch goal with H : 0 <= byteZ c < 256 |- _ => fail | _ => pose proof (byteZ_range c) end end.

Ltac euclid := Z.div_mod_to_equations; lia.

(** The digits of a number in base 64. *)
Lemma split64 v : v / 64 * 64 + v `mod` 64 = v.
Proof. euclid. Qed.

Lemma div64_div64 v : v / 4096 = v / 64 / 64 /\ v / 262144 = v / 64 / 64 / 64.
Proof. rewrite !Z.div_div by lia. done. Qed.

Lemma decodeQuanta_encode l : decodeQuanta (EncodeToString l) = Some l.
Proof.
  induction l as [|a|a b|a b c l IH] using triples_ind; [done|..]; cbn [EncodeToString decodeQuanta];
    bytes3; rewrite !decode_encodeChar by euclid.
  - assert (byteZ a * 16 / 64 * 64 + (byteZ a * 16) `mod` 64 = byteZ a * 16) as -> by euclid.
    rewrite Z.mod_mul, Z.div_mul by lia. cbn. by rewrite byteOf_byteZ.
  - set (v := (byteZ a * 256 + byteZ b) * 4).
    rewrite (proj1 (div64_div64 v)), !split64. subst v. rewrite Z.mod_mul by lia. cbn [Z.eqb].
    assert ((byteZ a * 256 + byteZ b) * 4 / 1024 = byteZ a) as -> by euclid.
    assert (((byteZ a * 256 + byteZ b) * 4 / 4) `mod` 256 = byteZ b) as -> by euclid.
    by rewrite !byteOf_byteZ.
  - set (v := (byteZ a * 256 + byteZ b) * 256 + byteZ c).
    destruct (div64_div64 v) as [-> ->]. rewrite !split64, IH. assert (v / 65536 = byteZ a) as -> by euclid.
    assert ((v / 256) `mod` 256 = byteZ b) as -> by euclid. assert (v `mod` 256 = byteZ c) as -> by euclid.
    by rewrite !byteOf_byteZ.
Qed.

(** Every encoded byte is of the alphabet, so the decoder skips none. *)
Lemma EncodeToString_alphabet l : Forall (fun c => exists d, 0 <= d < 64 /\ c = encodeChar d) (EncodeToString l).
Proof.
  induction l as [|a|a b|a b c l IH] using triples_ind; cbn [EncodeToString]; bytes3;
    repeat constructor; try done; (eexists; split; [|reflexivity]); euclid.
Qed.

(** Decoding what was encoded gives it back. *)
Lemma StrictDecode_Encode l : StrictDecodeString (EncodeToString l) = Some l.
Proof.
  unfold StrictDecodeString. rewrite filter_all_in; [apply decodeQuanta_encode|].
  intros c Hc. pose proof (EncodeToString_alphabet l) as Ha. rewrite Forall_forall in Ha.
  destruct (Ha c Hc) as (d & Hd & ->). by apply encodeChar_spec.
Qed.

Lemma EncodeToString_length l : Z.of_nat (length (EncodeToString l)) = EncodedLen (Z.of_nat (length l)).
Proof.
  induction l as [|a|a b|a b c l IH] using triples_ind; [done..|]. cbn [EncodeToString length].
  unfold EncodedLen in *. euclid.
Qed.

Abbreviation bytes := (list ascii) (only parsing).

Definition blen (l : bytes) : Z := Z.of_nat (length l).

(** [text[i:j]] and [text[i:]]. *)
Definition dropZ (i : Z) (l : bytes) : bytes := drop (Z.to_nat i) l.
Definition slice (i j : Z) (l : bytes) : bytes := take (Z.to_nat (j - i)) (dropZ i l).

(** [strings.Index]. *)
Fixpoint indexFrom (i : Z) (sub l : bytes) : option Z :=
  if hasPrefixBytes sub l then Some i
  else match l with [] => None | _ :: l' => indexFrom (i + 1) sub l' end.
Definition Index (l sub : bytes) : option Z := indexFrom 0 sub l.

(** * AES-SIV *)

Class AESSIV := {
  EncryptDeterministically : bytes -> bytes -> option bytes;
  DecryptDeterministically : bytes -> bytes -> option bytes
}.

Class AESSIVLaws (siv : AESSIV) :=
  siv_decrypts : forall p a c, EncryptDeterministically p a = Some c -> DecryptDeterministically c a = Some p.

(** A cipher with a constant tag, for concrete inputs. *)
Definition plainSIV : AESSIV := {|
  EncryptDeterministically := fun p _ => Some (replicate 16 (byteOf 0) ++ p);
  DecryptDeterministically := fun c _ =>
    if bool_decide (take 16 c = replicate 16 (byteOf 0)) then Some (drop 16 c) else None
|}.

Instance plainSIV_laws : AESSIVLaws plainSIV.
Proof.
  intros p a c [= <-]. cbn. done.
Qed.

(** * Tokens *)

Definition redactionTokenPrefix : bytes := bytes_of "gld1_".
Definition underscore : ascii := byteOf 95.
Definition maxRedactionPlaintextBytes : Z := 16777216.
Definition maxRedactionTokensPerText : Z := 65536.
Definition redactionCiphertextOverhead : Z := 16.
Definition maxEncodedLen : Z := EncodedLen (maxRedactionPlaintextBytes + redactionCiphertextOverhead).

Definition redactionBase64URLByte (c : ascii) : bool :=
  let b := byteZ c in
  (65 <=? b) && (b <=? 90) || (97 <=? b) && (b <=? 122) || (48 <=? b) && (b <=? 57) || (b =? 45) || (b =? 95).

Record tokenCandidate := mkCandidate {
  headerEnd : Z;
  tc_end : Z;
  found : bool;
  malformed : bool;
  badHeader : bool
}.

Definition noCandidate : tokenCandidate := mkCandidate 0 0 false false false.

(** The loop over the digits of the length field from [text[i]] on: the number read, whether
    it is too large, the position of the first byte that is no digit and the text from it. *)
Fixpoint headerDigits (maxLen length : Z) (oversize : bool) (i : Z) (l : bytes) : Z * bool * Z * bytes :=
  match l with
  | c :: l' =>
      if isDigit c then
        if oversize || ((maxLen - digitVal c) / 10 <? length)
        then headerDigits maxLen length true (i + 1) l'
        else headerDigits maxLen (length * 10 + digitVal c) false (i + 1) l'
      else (length, oversize, i, l)
  | [] => (length, oversize, i, [])
  end.

Definition parseRedactionCandidate (text : bytes) (start : Z) : tokenCandidate :=
  if (start <? 0) || (blen text - 5 <? start) || negb (hasPrefixBytes redactionTokenPrefix (dropZ start text))
  then noCandidate
  else
    match dropZ (start + 5) text with
    | [] => noCandidate
    | (first :: _) as l =>
        if negb (isDigit first) then noCandidate
        else
          let '(length, oversize, i, rest) := headerDigits maxEncodedLen 0 false (start + 5) l in
          match rest with
          | [] => noCandidate
          | c :: _ =>
              if negb (bool_decide (c = underscore)) then noCandidate
              else
                let hend := i + 1 in
                if oversize || (length =? 0) || ((start + 5 + 1 <? i) && (byteZ first =? 48))
                then mkCandidate hend 0 true true true
                else
                  mkCandidate hend (hend + length) true
                    ((length <? EncodedLen redactionCiphertextOverhead) || (blen text - hend <? length)) false
          end
    end.

(** The first position of [text[i:]] that is no Base64url byte, [fuel] bytes at most. *)
Fixpoint spanBase64 (fuel : nat) (i : Z) (l : bytes) : Z :=
  match fuel, l with
  | S n, c :: l' => if redactionBase64URLByte c then spanBase64 n (i + 1) l' else i
  | _, _ => i
  end.

Definition unrestoredCandidateEnd (text : bytes) (candidate : tokenCandidate) : Z :=
  if badHeader candidate then headerEnd candidate
  else
    let e := Z.min (tc_end candidate) (blen text) in
    spanBase64 (Z.to_nat (e - headerEnd candidate)) (headerEnd candidate) (dropZ (headerEnd candidate) text).

Inductive restoreError := TokensExceeded | Diverges.

Section Cipher.
Context {siv : AESSIV}.

(** [EncryptToken]; [None] is an error of the code. *)
Definition EncryptToken (plaintext : bytes) : option bytes :=
  if maxRedactionPlaintextBytes <? blen plaintext then None
  else
    let encodedLen := EncodedLen (blen plaintext + redactionCiphertextOverhead) in
    let header := redactionTokenPrefix ++ formatNat encodedLen ++ [underscore] in
    match EncryptDeterministically plaintext header with
    | None => None
    | Some ciphertext =>
        if negb (blen ciphertext =? blen plaintext + redactionCiphertextOverhead) then None
        else Some (header ++ EncodeToString ciphertext)
    end.

Definition decryptCandidate (text : bytes) (start : Z) (candidate : tokenCandidate) : option bytes :=
  if negb (found candidate) || malformed candidate then None
  else
    let encoded := slice (headerEnd candidate) (tc_end candidate) text in
    if negb (forallb redactionBase64URLByte encoded) then None
    else
      match StrictDecodeString encoded with
      | None => None
      | Some data =>
          if blen data <? redactionCiphertextOverhead then None
          else DecryptDeterministically data (slice start (headerEnd candidate) text)
      end.

Definition TokenCandidateEnd (text : bytes) (start : Z) : Z * bool :=
  let candidate := parseRedactionCandidate text start in
  (tc_end candidate, found candidate && negb (malformed candidate)).

Definition ValidTokenAt (text : bytes) (start : Z) : Z * bool :=
  let candidate := parseRedactionCandidate text start in
  match decryptCandidate text start candidate with
  | Some _ => (tc_end candidate, true)
  | None => (0, false)
  end.

(** The loop of [RestoreText] and the candidates it kept, which it counts in the cipher. *)
Fixpoint restoreLoop (fuel : nat) (text out : bytes) (last tokens unrestored scan : Z)
  : result restoreError (bytes * Z) * Z :=
  match fuel with
  | O => (Err Diverges, unrestored)
  | S n =>
      if negb (scan <? blen text) then (Ok (out, last), unrestored)
      else
        match Index (dropZ scan text) redactionTokenPrefix with
        | None => (Ok (out, last), unrestored)
        | Some relative =>
            let start := scan + relative in
            let candidate := parseRedactionCandidate text start in
            if negb (found candidate) then restoreLoop n text out last tokens unrestored (start + 5)
            else if maxRedactionTokensPerText <? tokens + 1 then (Err TokensExceeded, unrestored)
            else
              match decryptCandidate text start candidate with
              | None =>
                  restoreLoop n text out last (tokens + 1) (unrestored + 1) (unrestoredCandidateEnd text candidate)
              | Some plaintext =>
                  restoreLoop n text (out ++ slice last start text ++ plaintext) (tc_end candidate)
                    (tokens + 1) unrestored (tc_end candidate)
              end
        end
  end.

Definition RestoreText (text : bytes) : result restoreError bytes * Z :=
  match restoreLoop (S (length text)) text [] 0 0 0 0 with
  | (Ok (out, last), n) =>
      (if (last =? 0) && (blen out =? 0) then Ok text else Ok (out ++ dropZ last text), n)
  | (Err e, n) => (Err e, n)
  end.

End Cipher.
