(* ===== verification/RedactTokenSpec.v ===== *)
(** The meaning of a text with redaction tokens: the pieces it falls into, with no positions,
    and the theorem that [RestoreText] computes it.  The round trip with [EncryptToken]. *)
From S2P Require Import Prelude GoStrings RedactToken.
From Stdlib Require Import Ascii.

Local Open Scope Z_scope.

(** * Pieces *)

Fixpoint digitsOf (l : bytes) : bytes :=
  match l with c :: l' => if isDigit c then c :: digitsOf l' else [] | [] => [] end.
Fixpoint afterDigits (l : bytes) : bytes :=
  match l with c :: l' => if isDigit c then afterDigits l' else l | [] => [] end.

(** [gld1_<digits>_<body>]: the digits and the body of a candidate at the head of the text. *)
Definition header (s : bytes) : option (bytes * bytes) :=
  if hasPrefixBytes redactionTokenPrefix s then
    match digitsOf (drop 5 s), afterDigits (drop 5 s) with
    | (_ :: _) as ds, c :: body => if bool_decide (c = underscore) then Some (ds, body) else None
    | _, _ => None
    end
  else None.

Definition headerText (ds : bytes) : bytes := redactionTokenPrefix ++ ds ++ [underscore].

(** A length field [EncryptToken] may write: in range, not zero, no leading zero. *)
Definition canonical (maxLen : Z) (ds : bytes) : bool :=
  (digitsVal ds <=? maxLen) && negb (digitsVal ds =? 0)
  && negb ((1 <? blen ds) && bool_decide (head ds = Some "0"%char)).

Fixpoint base64Run (n : Z) (l : bytes) : bytes :=
  match l with
  | c :: l' => if (0 <? n) && redactionBase64URLByte c then c :: base64Run (n - 1) l' else []
  | [] => []
  end.

(** A piece of a text: bytes that are no candidate, a token that authenticates with its
    plaintext, a candidate that does not. *)
Inductive piece :=
| Plain (raw : bytes)
| Token (raw plaintext : bytes)
| Kept (raw : bytes).

Definition rawOf (p : piece) : bytes := match p with Plain r | Token r _ | Kept r => r end.
Definition restoredOf (p : piece) : bytes := match p with Plain r | Kept r => r | Token _ t => t end.
Definition isCandidate (p : piece) : bool := match p with Plain _ => false | _ => true end.
Definition isKept (p : piece) : bool := match p with Kept _ => true | _ => false end.

Definition countPieces (f : piece -> bool) (ps : list piece) : Z := Z.of_nat (length (filter (fun p => f p = true) ps)).

Section Pieces.
Context {siv : AESSIV}.

Definition openToken (h run : bytes) (declared : Z) : option bytes :=
  if (EncodedLen redactionCiphertextOverhead <=? declared) && (blen run =? declared) then
    match StrictDecodeString run with
    | Some data => if blen data <? redactionCiphertextOverhead then None else DecryptDeterministically data h
    | None => None
    end
  else None.

Definition firstPiece (s : bytes) : piece :=
  match header s with
  | Some (ds, body) =>
      if canonical maxEncodedLen ds then
        let run := base64Run (digitsVal ds) body in
        match openToken (headerText ds) run (digitsVal ds) with
        | Some p => Token (headerText ds ++ run) p
        | None => Kept (headerText ds ++ run)
        end
      else Kept (headerText ds)
  | None => Plain (if hasPrefixBytes redactionTokenPrefix s then redactionTokenPrefix else take 1 s)
  end.

Fixpoint piecesFuel (fuel : nat) (s : bytes) : list piece :=
  match fuel, s with
  | S n, _ :: _ => let p := firstPiece s in p :: piecesFuel n (drop (length (rawOf p)) s)
  | _, _ => []
  end.
Definition pieces (s : bytes) : list piece := piecesFuel (length s) s.

(** The text with every token that authenticates replaced by its plaintext. *)
Definition restored (ps : list piece) : bytes := concat (restoredOf <$> ps).

End Pieces.

(** * Prefixes and digits *)

Lemma prefix_split s : hasPrefixBytes redactionTokenPrefix s = true -> s = redactionTokenPrefix ++ drop 5 s.
Proof. intros [r ->]%hasPrefixBytes_spec. done. Qed.

Lemma digits_split l : l = digitsOf l ++ afterDigits l.
Proof. induction l as [|c l IH]; cbn; [done|]. destruct (isDigit c); cbn; congruence. Qed.

Lemma digitsOf_digits l : forallb isDigit (digitsOf l) = true.
Proof. induction l as [|c l IH]; cbn; [done|]. destruct (isDigit c) eqn:E; cbn; [by rewrite E|done]. Qed.

Lemma afterDigits_head l : match afterDigits l with c :: _ => isDigit c = false | [] => True end.
Proof. induction l as [|c l IH]; cbn; [done|]. by destruct (isDigit c) eqn:E. Qed.

Lemma digits_app ds c l :
  forallb isDigit ds = true -> isDigit c = false -> digitsOf (ds ++ c :: l) = ds /\ afterDigits (ds ++ c :: l) = c :: l.
Proof.
  intros Hds Hc. induction ds as [|d ds IH]; cbn in *; [by rewrite Hc|].
  apply andb_true_iff in Hds as [-> Hds]. destruct (IH Hds) as [-> ->]. done.
Qed.

Lemma underscore_digit : isDigit underscore = false.
Proof. reflexivity. Qed.

Lemma header_spec s ds body :
  header s = Some (ds, body) <-> s = headerText ds ++ body /\ forallb isDigit ds = true /\ ds <> [].
Proof.
  unfold header, headerText. split.
  - destruct (hasPrefixBytes _ s) eqn:Hp; [|done]. apply prefix_split in Hp.
    pose proof (digits_split (drop 5 s)) as Hs. pose proof (digitsOf_digits (drop 5 s)) as Hd.
    destruct (digitsOf _) as [|d ds'] eqn:E; [done|]. destruct (afterDigits _) as [|c b] eqn:E'; [done|].
    case_bool_decide; [|done]. intros [= <- <-]. subst c. rewrite Hp, Hs at 1. split_and!; [|exact Hd|done].
    by rewrite <- !app_assoc.
  - intros (-> & Hds & Hne). rewrite <- app_assoc.
    rewrite (proj2 (hasPrefixBytes_spec _ _)) by eauto.
    change (drop 5 (redactionTokenPrefix ++ ?r)) with r. rewrite <- app_assoc. cbn [app].
    destruct (digits_app ds underscore body Hds underscore_digit) as [-> ->].
    destruct ds; [done|]. by rewrite bool_decide_true.
Qed.

(** Numbers read from left to right, starting from [acc]. *)
Definition accVal (acc : Z) (ds : bytes) : Z := fold_left (fun acc c => 10 * acc + digitVal c) ds acc.

Lemma accVal_ge ds acc : 0 <= acc -> forallb isDigit ds = true -> acc <= accVal acc ds.
Proof.
  revert acc. induction ds as [|d ds IH]; intros acc Ha Hds; cbn in *; [lia|].
  apply andb_true_iff in Hds as [Hd Hds]. pose proof (digitVal_range d Hd).
  transitivity (10 * acc + digitVal d); [lia|]. apply IH; [lia|done].
Qed.

Lemma headerDigits_over maxLen len i ds rest :
  forallb isDigit ds = true -> match rest with c :: _ => isDigit c = false | [] => True end ->
  headerDigits maxLen len true i (ds ++ rest) = (len, true, i + blen ds, rest).
Proof.
  revert i. induction ds as [|d ds IH]; intros i Hds Hr; cbn.
  - unfold blen. cbn. rewrite Z.add_0_r. destruct rest as [|c r]; cbn; [done|]. by rewrite Hr.
  - cbn in Hds. apply andb_true_iff in Hds as [-> Hds]. rewrite IH by done.
    replace (i + blen (d :: ds)) with (i + 1 + blen ds) by (unfold blen; cbn [length]; lia). done.
Qed.

(** The length field is the number its digits denote, or too large. *)
Lemma headerDigits_spec maxLen len i ds rest :
  0 <= len -> forallb isDigit ds = true ->
  match rest with c :: _ => isDigit c = false | [] => True end -> len <= maxLen ->
  exists len', headerDigits maxLen len false i (ds ++ rest)
    = (len', maxLen <? accVal len ds, i + blen ds, rest)
    /\ (accVal len ds <= maxLen -> len' = accVal len ds).
Proof.
  revert len i. induction ds as [|d ds IH]; intros len i Hl Hds Hr Hm; cbn [app].
  - exists len. unfold blen, accVal. cbn. rewrite Z.add_0_r. split; [|done].
    rewrite (proj2 (Z.ltb_ge maxLen len)) by done. destruct rest as [|c r]; cbn; [done|]. by rewrite Hr.
  - cbn in Hds. apply andb_true_iff in Hds as [Hd Hds]. pose proof (digitVal_range d Hd).
    cbn [headerDigits]. rewrite Hd. cbn [orb].
    change (accVal len (d :: ds)) with (accVal (10 * len + digitVal d) ds).
    pose proof (accVal_ge ds (10 * len + digitVal d) ltac:(lia) Hds) as Hge.
    replace (i + blen (d :: ds)) with (i + 1 + blen ds) by (unfold blen; cbn [length]; lia).
    destruct (Z.ltb_spec ((maxLen - digitVal d) / 10) len) as [Hlt|Hle].
    + exists len. rewrite headerDigits_over by done. split; [|Z.div_mod_to_equations; lia].
      rewrite (proj2 (Z.ltb_lt _ _)); [done|]. Z.div_mod_to_equations; lia.
    + rewrite (Z.mul_comm len). apply IH; [lia|done|done|]. Z.div_mod_to_equations; lia.
Qed.

(** * The parser finds exactly the header *)

Lemma blen_app l l' : blen (l ++ l') = blen l + blen l'.
Proof. unfold blen. rewrite length_app. lia. Qed.

Lemma blen_nonneg l : 0 <= blen l.
Proof. unfold blen. lia. Qed.

Lemma blen_headerText ds : blen (headerText ds) = 6 + blen ds.
Proof. unfold headerText. rewrite !blen_app. change (blen redactionTokenPrefix) with 5. change (blen [underscore]) with 1. lia. Qed.

Lemma dropZ_dropZ i j l : 0 <= i -> 0 <= j -> dropZ j (dropZ i l) = dropZ (i + j) l.
Proof. intros Hi Hj. unfold dropZ. rewrite drop_drop, Z2Nat.inj_add by done. done. Qed.

Lemma blen_dropZ i l : 0 <= i <= blen l -> blen (dropZ i l) = blen l - i.
Proof. unfold blen, dropZ. intros Hi. rewrite length_drop. lia. Qed.

(** The code's test of a well-formed length field. *)
Lemma canonical_code maxLen first ds len :
  isDigit first = true -> (accVal 0 (first :: ds) <= maxLen -> len = accVal 0 (first :: ds)) ->
  (maxLen <? accVal 0 (first :: ds)) || (len =? 0) || ((1 <? blen (first :: ds)) && (byteZ first =? 48))
  = negb (canonical maxLen (first :: ds)).
Proof.
  intros Hd Hl. unfold canonical. change (digitsVal (first :: ds)) with (accVal 0 (first :: ds)). cbn [head].
  assert (bool_decide (Some first = Some "0"%char) = (byteZ first =? 48)) as ->.
  { apply eq_true_iff_eq. rewrite bool_decide_eq_true, Z.eqb_eq. split; [by intros [= ->]|].
    intros H. rewrite <- (byteOf_byteZ first), H. done. }
  destruct (Z.leb_spec (accVal 0 (first :: ds)) maxLen) as [H|H].
  - rewrite (proj2 (Z.ltb_ge _ _)), Hl by done.
    by destruct (accVal 0 (first :: ds) =? 0), ((1 <? blen (first :: ds)) && (byteZ first =? 48)).
  - rewrite (proj2 (Z.ltb_lt _ _)) by done. done.
Qed.

Lemma header_None_prefix s : hasPrefixBytes redactionTokenPrefix s = false -> header s = None.
Proof. unfold header. by intros ->. Qed.

Definition candidateAt (start : Z) (h : option (bytes * bytes)) : tokenCandidate :=
  match h with
  | None => noCandidate
  | Some (ds, body) =>
      let hend := start + blen (headerText ds) in
      if canonical maxEncodedLen ds then
        mkCandidate hend (hend + digitsVal ds) true
          ((digitsVal ds <? EncodedLen redactionCiphertextOverhead) || (blen body <? digitsVal ds)) false
      else mkCandidate hend 0 true true true
  end.

Lemma parse_spec text start : 0 <= start <= blen text ->
  parseRedactionCandidate text start = candidateAt start (header (dropZ start text)).
Proof.
  intros Hs. unfold parseRedactionCandidate.
  destruct (hasPrefixBytes _ (dropZ start text)) eqn:Hp; cycle 1.
  { rewrite header_None_prefix by done. by rewrite orb_true_r. }
  pose proof (prefix_split _ Hp) as Hsplit.
  assert (blen (dropZ start text) = 5 + blen (drop 5 (dropZ start text))) as Hlen.
  { rewrite Hsplit at 1. by rewrite blen_app. }
  rewrite blen_dropZ in Hlen by done. pose proof (blen_nonneg (drop 5 (dropZ start text))).
  rewrite (proj2 (Z.ltb_ge start 0)), (proj2 (Z.ltb_ge (blen text - 5) start)) by lia. cbn [orb negb].
  unfold header. rewrite Hp. rewrite <- (dropZ_dropZ start 5) by lia. change (dropZ 5 ?l) with (drop 5 l).
  set (l := drop 5 (dropZ start text)) in *. pose proof (digits_split l) as Hl.
  pose proof (digitsOf_digits l) as Hdig. pose proof (afterDigits_head l) as Hhead.
  destruct l as [|first l']; [done|]. cbn [digitsOf] in *. destruct (isDigit first) eqn:Hf; [|done].
  cbn [negb]. cbn [afterDigits] in Hl, Hhead. rewrite Hl at 1. cbn [afterDigits]. rewrite Hf in *.
  set (ds := digitsOf l') in *. set (rest := afterDigits l') in *.
  destruct (headerDigits_spec maxEncodedLen 0 (start + 5) (first :: ds) rest) as (len & -> & Hval);
    [done|done|done|by vm_compute|].
  destruct rest as [|c body]; [done|]. case_bool_decide as Hc; [|done]. cbn [negb candidateAt].
  assert ((start + 5 + 1 <? start + 5 + blen (first :: ds)) = (1 <? blen (first :: ds))) as ->
    by (apply eq_true_iff_eq; rewrite !Z.ltb_lt; lia).
  rewrite canonical_code by done.
  rewrite blen_headerText. replace (start + 5 + blen (first :: ds) + 1) with (start + (6 + blen (first :: ds))) by lia.
  destruct (canonical maxEncodedLen (first :: ds)) eqn:Hcan; cbn [negb]; [|done].
  assert (len = digitsVal (first :: ds)) as ->.
  { apply Hval. unfold canonical in Hcan. apply andb_true_iff in Hcan as [[?%Z.leb_le _]%andb_true_iff _]. done. }
  assert (blen text - (start + (6 + blen (first :: ds))) = blen body) as ->; [|done].
  rewrite Hl, blen_app in Hlen. unfold blen in *. cbn [length] in *. lia.
Qed.

(** * Runs of Base64url bytes *)

Lemma base64Run_prefix n l : exists r, l = base64Run n l ++ r.
Proof.
  revert n. induction l as [|c l IH]; intros n; cbn; [by exists []|].
  destruct (_ && _); [|by eexists]. destruct (IH (n - 1)) as [r Hr]. exists r. cbn. congruence.
Qed.

Lemma base64Run_all n l : forallb redactionBase64URLByte (base64Run n l) = true.
Proof.
  revert n. induction l as [|c l IH]; intros n; cbn [base64Run]; [done|].
  destruct (0 <? n); [|done]. destruct (redactionBase64URLByte c) eqn:E; [|done].
  cbn [andb forallb]. by rewrite E, IH.
Qed.

Lemma base64Run_le n l : 0 <= n -> blen (base64Run n l) <= n.
Proof.
  revert n. induction l as [|c l IH]; intros n Hn; cbn [base64Run]; [done|].
  destruct (Z.ltb_spec 0 n); cbn [andb]; [|done]. destruct (redactionBase64URLByte c); [|done].
  specialize (IH (n - 1)). unfold blen in *. cbn [length]. lia.
Qed.

Lemma base64Run_min n l : base64Run (Z.min n (blen l)) l = base64Run n l.
Proof.
  revert n. induction l as [|c l IH]; intros n; cbn [base64Run]; [done|].
  pose proof (blen_nonneg l). replace (blen (c :: l)) with (1 + blen l) by (unfold blen; cbn [length]; lia).
  destruct (Z.ltb_spec 0 n), (Z.ltb_spec 0 (Z.min n (1 + blen l))); try lia; cbn [andb]; [|done].
  destruct (redactionBase64URLByte c); [|done]. f_equal. rewrite <- (IH (n - 1)). f_equal. lia.
Qed.

Lemma base64Run_app run r n :
  forallb redactionBase64URLByte run = true -> blen run = n -> base64Run n (run ++ r) = run.
Proof.
  revert n. induction run as [|c run IH]; intros n Hr Hn; cbn [app base64Run forallb] in *.
  - subst n. by destruct r.
  - apply andb_true_iff in Hr as [-> Hr]. assert (blen (c :: run) = 1 + blen run) by (unfold blen; cbn; lia).
    pose proof (blen_nonneg run). rewrite (proj2 (Z.ltb_lt 0 n)) by lia. cbn. f_equal. apply IH; [done|lia].
Qed.

Lemma base64Run_idem n l : base64Run n (base64Run n l) = base64Run n l.
Proof.
  revert n. induction l as [|c l IH]; intros n; cbn [base64Run]; [done|].
  destruct ((0 <? n) && redactionBase64URLByte c) eqn:E; [|done]. cbn [base64Run]. by rewrite E, IH.
Qed.

Lemma base64Run_stop n l c r : base64Run n (l ++ c :: r) = l -> blen l < n -> redactionBase64URLByte c = false.
Proof.
  revert n. induction l as [|d l IH]; intros n H Hn; cbn [app base64Run] in H.
  - change (blen []) with 0 in Hn. rewrite (proj2 (Z.ltb_lt 0 n)) in H by done. by destruct (redactionBase64URLByte c).
  - destruct (_ && _); [|done]. injection H as H. apply (IH (n - 1)); [done|].
    unfold blen in *. cbn [length] in Hn. lia.
Qed.

Lemma take_blen l r : take (Z.to_nat (blen l)) (l ++ r) = l.
Proof. unfold blen. by rewrite Nat2Z.id, take_app_length. Qed.

Lemma dropZ_blen l r : dropZ (blen l) (l ++ r) = r.
Proof. unfold blen, dropZ. by rewrite Nat2Z.id, drop_app_length. Qed.

Lemma base64Run_take n l : blen (base64Run n l) = n -> take (Z.to_nat n) l = base64Run n l.
Proof.
  intros H. destruct (base64Run_prefix n l) as [r Hr].
  pose proof (take_blen (base64Run n l) r) as Ht. by rewrite <- Hr, H in Ht.
Qed.

(** The run is full when the declared bytes are there and all Base64url. *)
Lemma base64Run_full n l : 0 <= n ->
  (blen (base64Run n l) =? n) = (n <=? blen l) && forallb redactionBase64URLByte (take (Z.to_nat n) l).
Proof.
  intros Hn. apply eq_true_iff_eq. rewrite andb_true_iff, Z.eqb_eq, Z.leb_le. split.
  - intros H. destruct (base64Run_prefix n l) as [r Hr].
    rewrite base64Run_take by done. split; [|apply base64Run_all].
    apply (f_equal blen) in Hr. rewrite blen_app in Hr. pose proof (blen_nonneg r). lia.
  - intros [Hl Hall]. rewrite <- (take_drop (Z.to_nat n) l) at 1.
    assert (blen (take (Z.to_nat n) l) = n) by (unfold blen in *; rewrite length_take; lia).
    by rewrite base64Run_app.
Qed.

Lemma spanBase64_spec n i l : spanBase64 n i l = i + blen (base64Run (Z.of_nat n) l).
Proof.
  revert i l. induction n as [|n IH]; intros i l; (destruct l as [|c l];
    [change (blen (base64Run _ [])) with 0; cbn; lia|]); [change (blen (base64Run _ _)) with 0; cbn; lia|].
  cbn [spanBase64 base64Run].
  replace (0 <? Z.of_nat (S n)) with true by (symmetry; apply Z.ltb_lt; lia). cbn [andb].
  destruct (redactionBase64URLByte c); [|change (blen []) with 0; lia].
  rewrite IH. replace (Z.of_nat (S n) - 1) with (Z.of_nat n) by lia. unfold blen. cbn [length]. lia.
Qed.

(** * Decryption and the end of a kept candidate, without positions *)

Lemma canonical_val maxLen ds : forallb isDigit ds = true -> canonical maxLen ds = true -> 1 <= digitsVal ds <= maxLen.
Proof.
  intros Hd [[H1%Z.leb_le H2%negb_true_iff%Z.eqb_neq]%andb_true_iff _]%andb_true_iff.
  pose proof (digitsVal_nonneg ds Hd). lia.
Qed.

Section Candidate.
Context {siv : AESSIV}.
Context (text : bytes) (start : Z) (Hstart : 0 <= start <= blen text).
Context (ds body : bytes) (Hh : header (dropZ start text) = Some (ds, body)).

Lemma candidate_text : dropZ start text = headerText ds ++ body.
Proof. by pose proof (proj1 (header_spec _ _ _) Hh) as [? _]. Qed.

Lemma candidate_digits : forallb isDigit ds = true.
Proof. by pose proof (proj1 (header_spec _ _ _) Hh) as (_ & ? & _). Qed.

Lemma candidate_body : dropZ (start + blen (headerText ds)) text = body.
Proof. rewrite <- dropZ_dropZ, candidate_text by (try apply blen_nonneg; lia). apply dropZ_blen. Qed.

Lemma candidate_header : slice start (start + blen (headerText ds)) text = headerText ds.
Proof. unfold slice. rewrite candidate_text, Z.add_simpl_l. apply take_blen. Qed.

Lemma candidate_slice n :
  slice (start + blen (headerText ds)) (start + blen (headerText ds) + n) text = take (Z.to_nat n) body.
Proof. unfold slice. by rewrite candidate_body, Z.add_simpl_l. Qed.

Lemma candidate_len : blen text = start + blen (headerText ds) + blen body.
Proof. pose proof (blen_dropZ start text Hstart) as H. rewrite candidate_text, blen_app in H. lia. Qed.

Lemma decrypt_spec :
  decryptCandidate text start (parseRedactionCandidate text start)
  = if canonical maxEncodedLen ds then
      openToken (headerText ds) (base64Run (digitsVal ds) body) (digitsVal ds)
    else None.
Proof.
  rewrite parse_spec, Hh by done. cbn [candidateAt]. destruct (canonical _ ds) eqn:Hc; [|done].
  pose proof (canonical_val _ _ candidate_digits Hc) as Hv.
  unfold decryptCandidate, openToken. cbn [found malformed headerEnd tc_end negb orb]. cbv zeta.
  rewrite base64Run_full by lia.
  rewrite candidate_slice, candidate_header.
  destruct (Z.leb_spec (EncodedLen redactionCiphertextOverhead) (digitsVal ds)) as [H1|H1].
  - rewrite (proj2 (Z.ltb_ge _ _)) by done. cbn [orb andb].
    destruct (Z.leb_spec (digitsVal ds) (blen body)) as [H2|H2].
    + rewrite (proj2 (Z.ltb_ge _ _)) by done. cbn [andb].
      destruct (forallb _ _) eqn:Hall; [|done]. cbn [negb]. rewrite base64Run_take; [done|].
      apply Z.eqb_eq. rewrite base64Run_full by lia. rewrite Hall. apply andb_true_iff. split; [by apply Z.leb_le|done].
    + by rewrite (proj2 (Z.ltb_lt _ _)).
  - by rewrite (proj2 (Z.ltb_lt _ _)).
Qed.

(** The raw text of the candidate when it is kept. *)
Definition keptRaw : bytes :=
  headerText ds ++ (if canonical maxEncodedLen ds then base64Run (digitsVal ds) body else []).

Lemma unrestored_spec :
  unrestoredCandidateEnd text (parseRedactionCandidate text start) = start + blen keptRaw.
Proof.
  rewrite parse_spec, Hh by done. unfold keptRaw, unrestoredCandidateEnd. cbn [candidateAt].
  destruct (canonical _ ds) eqn:Hc; cbn [badHeader headerEnd tc_end]; [|by rewrite app_nil_r].
  pose proof (canonical_val _ _ candidate_digits Hc) as Hv.
  rewrite spanBase64_spec, candidate_body, candidate_len, blen_app. pose proof (blen_nonneg body).
  rewrite Z2Nat.id by lia.
  replace (Z.min _ _ - _) with (Z.min (digitsVal ds) (blen body)) by lia. rewrite base64Run_min. lia.
Qed.

End Candidate.
