(* ===== verification/RedactRestore.v ===== *)
(** [RestoreText] puts the plaintext back: its result is the text with every piece that
    authenticates replaced, and a token [EncryptToken] made authenticates wherever it stands. *)
From S2P Require Import Prelude GoStrings RedactToken RedactTokenSpec.
From Stdlib Require Import Ascii.

Local Open Scope Z_scope.

(** * Counting and gluing pieces *)

Lemma countPieces_cons f p ps : countPieces f (p :: ps) = (if f p then 1 else 0) + countPieces f ps.
Proof. unfold countPieces. rewrite filter_cons. destruct (f p); [rewrite decide_True by done; cbn [length]; lia|done]. Qed.

Lemma countPieces_nonneg f ps : 0 <= countPieces f ps.
Proof. unfold countPieces. lia. Qed.

Lemma slice_glue i j k l : 0 <= i <= j -> j <= k -> slice i j l ++ slice j k l = slice i k l.
Proof.
  intros Hi Hj. unfold slice. replace (dropZ j l) with (dropZ (j - i) (dropZ i l)) by (rewrite dropZ_dropZ; f_equal; lia).
  replace (Z.to_nat (k - i)) with (Z.to_nat (j - i) + Z.to_nat (k - j))%nat by lia.
  generalize (dropZ i l) as s. intros s. unfold dropZ. by rewrite <- take_take_drop.
Qed.

Lemma slice_rest i j l : 0 <= i <= j -> slice i j l ++ dropZ j l = dropZ i l.
Proof.
  intros Hi. unfold slice. replace (dropZ j l) with (dropZ (j - i) (dropZ i l)) by (rewrite dropZ_dropZ; f_equal; lia).
  apply take_drop.
Qed.

Section Pieces.
Context {siv : AESSIV}.

(** * Every piece is a non-empty head of the text *)

Lemma firstPiece_candidate s ds body : header s = Some (ds, body) ->
  rawOf (firstPiece s) = keptRaw ds body /\ isCandidate (firstPiece s) = true.
Proof.
  intros Hh. unfold firstPiece, keptRaw. rewrite Hh. destruct (canonical _ _); [|by rewrite app_nil_r].
  by destruct (openToken _ _ _).
Qed.

Lemma firstPiece_raw s : s <> [] -> rawOf (firstPiece s) <> [] /\ exists r, s = rawOf (firstPiece s) ++ r.
Proof.
  intros Hs. destruct (header s) as [[ds body]|] eqn:Hh.
  - destruct (firstPiece_candidate s ds body Hh) as [-> _]. apply header_spec in Hh as (Hs' & _ & _).
    split; [done|]. unfold keptRaw. destruct (canonical _ _).
    + destruct (base64Run_prefix (digitsVal ds) body) as [r Hr]. exists r. rewrite <- app_assoc. congruence.
    + exists body. by rewrite app_nil_r.
  - unfold firstPiece. rewrite Hh. cbn [rawOf]. destruct (hasPrefixBytes _ s) eqn:Hp.
    + split; [done|]. eexists. by apply prefix_split.
    + destruct s as [|c s]; [done|]. split; [done|]. by exists s.
Qed.

Lemma firstPiece_drop s : s <> [] ->
  s = rawOf (firstPiece s) ++ drop (length (rawOf (firstPiece s))) s
  /\ (length (drop (length (rawOf (firstPiece s))) s) < length s)%nat.
Proof.
  intros Hs. destruct (firstPiece_raw s Hs) as [Hne [r Hr]].
  set (raw := rawOf (firstPiece s)) in *. clearbody raw. subst s. rewrite drop_app_length. split; [done|].
  rewrite length_app. destruct raw; [done|]. cbn. lia.
Qed.

Lemma piecesFuel_enough m n s : (length s <= m)%nat -> (length s <= n)%nat -> piecesFuel n s = piecesFuel m s.
Proof.
  revert n s. induction m as [|m IH]; intros n s Hm Hn.
  - destruct s; [|cbn in *; lia]. by destruct n.
  - destruct s as [|c s]; [by destruct n|]. destruct n as [|n]; [cbn in *; lia|]. cbn [piecesFuel].
    destruct (firstPiece_drop (c :: s)) as [_ Hl]; [done|]. cbn [length] in *. f_equal. apply IH; lia.
Qed.

Lemma pieces_cons s : s <> [] ->
  pieces s = firstPiece s :: pieces (drop (length (rawOf (firstPiece s))) s).
Proof.
  intros Hs. destruct (firstPiece_drop s Hs) as [_ Hl]. unfold pieces at 1.
  destruct s as [|c s]; [done|]. cbn [length piecesFuel]. f_equal. apply piecesFuel_enough; cbn [length] in Hl; lia.
Qed.

Lemma pieces_nil : pieces [] = [].
Proof. done. Qed.

(** A byte that starts no candidate. *)
Lemma pieces_skip c s : hasPrefixBytes redactionTokenPrefix (c :: s) = false ->
  pieces (c :: s) = Plain [c] :: pieces s.
Proof.
  intros Hp. rewrite pieces_cons by done. unfold firstPiece. rewrite header_None_prefix, Hp by done. done.
Qed.

Lemma pieces_raw s : concat (rawOf <$> pieces s) = s.
Proof.
  induction s as [s IH] using (induction_ltof1 _ (@length ascii)). destruct s as [|c s]; [done|].
  rewrite pieces_cons by done. destruct (firstPiece_drop (c :: s)) as [Hs Hl]; [done|].
  rewrite fmap_cons. cbn [concat]. rewrite IH by exact Hl. done.
Qed.

(** * The scan to the next prefix *)

Lemma index_none i s : indexFrom i redactionTokenPrefix s = None ->
  restored (pieces s) = s /\ forall f, (forall r, f (Plain r) = false) -> countPieces f (pieces s) = 0.
Proof.
  revert i. induction s as [|c s IH]; intros i H; cbn [indexFrom] in H; [done|].
  destruct (hasPrefixBytes _ _) eqn:Hp; [done|]. rewrite pieces_skip by done. apply IH in H as [H1 H2]. split.
  - unfold restored in *. rewrite fmap_cons. cbn [concat restoredOf app]. by rewrite H1.
  - intros f Hf. rewrite countPieces_cons, Hf, H2 by done. done.
Qed.

Lemma index_some i s j : indexFrom i redactionTokenPrefix s = Some j ->
  i <= j <= i + blen s /\ hasPrefixBytes redactionTokenPrefix (dropZ (j - i) s) = true
  /\ restored (pieces s) = slice 0 (j - i) s ++ restored (pieces (dropZ (j - i) s))
  /\ forall f, (forall r, f (Plain r) = false) -> countPieces f (pieces s) = countPieces f (pieces (dropZ (j - i) s)).
Proof.
  revert i. induction s as [|c s IH]; intros i H; cbn [indexFrom] in H; [done|].
  destruct (hasPrefixBytes _ _) eqn:Hp.
  - injection H as <-. rewrite Z.sub_diag. split; [unfold blen; lia|]. done.
  - apply IH in H as (Hj & H1 & H2 & H3). unfold blen in *. cbn [length].
    replace (dropZ (j - i) (c :: s)) with (dropZ (j - (i + 1)) s)
      by (unfold dropZ; replace (Z.to_nat (j - i)) with (S (Z.to_nat (j - (i + 1)))) by lia; done).
    split; [lia|]. split; [done|]. rewrite pieces_skip by done. split.
    + unfold slice, restored in *. replace (Z.to_nat (j - i - 0)) with (S (Z.to_nat (j - (i + 1) - 0))) by lia.
      rewrite fmap_cons. cbn [concat restoredOf app]. rewrite H2. done.
    + intros f Hf. rewrite countPieces_cons, Hf, H3 by done. done.
Qed.

(** * [RestoreText] *)

(** What the loop leaves: [out] is the text restored up to [scan], less what follows [last]. *)
Definition restoreOk (text out : bytes) (last tokens unrestored scan : Z)
    (r : result restoreError (bytes * Z) * Z) : Prop :=
  let ps := pieces (dropZ scan text) in
  match r with
  | (Ok (o, l), n) =>
      tokens + countPieces isCandidate ps <= maxRedactionTokensPerText
      /\ o ++ dropZ l text = out ++ slice last scan text ++ restored ps
      /\ n = unrestored + countPieces isKept ps
  | (Err e, _) => e = TokensExceeded /\ maxRedactionTokensPerText < tokens + countPieces isCandidate ps
  end.

Lemma restoreLoop_skip text out last tokens unrestored scan start r :
  0 <= last <= scan -> scan <= start -> start <= blen text ->
  restored (pieces (dropZ scan text)) = slice scan start text ++ restored (pieces (dropZ start text)) ->
  (forall f, (forall r, f (Plain r) = false) -> countPieces f (pieces (dropZ scan text)) = countPieces f (pieces (dropZ start text))) ->
  restoreOk text out last tokens unrestored start r -> restoreOk text out last tokens unrestored scan r.
Proof.
  intros Hl Hs Hb Hr Hc. unfold restoreOk. rewrite !(Hc isCandidate), !(Hc isKept), Hr by done.
  destruct r as [[[o l]|e] n]; [|done]. intros (? & -> & ?). split; [done|]. split; [|done].
  rewrite (app_assoc (slice last scan text)), slice_glue by lia. done.
Qed.

Lemma firstPiece_decrypt s ds body : header s = Some (ds, body) ->
  firstPiece s
  = match (if canonical maxEncodedLen ds then openToken (headerText ds) (base64Run (digitsVal ds) body) (digitsVal ds)
           else None) with
    | Some p => Token (keptRaw ds body) p
    | None => Kept (keptRaw ds body)
    end.
Proof.
  intros Hh. unfold firstPiece, keptRaw. rewrite Hh. destruct (canonical _ _); [|by rewrite app_nil_r]. done.
Qed.

Lemma openToken_full h run n p : openToken h run n = Some p -> blen run = n.
Proof. unfold openToken. destruct (_ && _) eqn:E; [|done]. intros _. by apply andb_true_iff in E as [_ ?%Z.eqb_eq]. Qed.

Lemma token_end text start (Hs : 0 <= start <= blen text) ds body :
  header (dropZ start text) = Some (ds, body) -> forall p,
  (if canonical maxEncodedLen ds then openToken (headerText ds) (base64Run (digitsVal ds) body) (digitsVal ds)
   else None) = Some p ->
  tc_end (parseRedactionCandidate text start) = start + blen (keptRaw ds body).
Proof.
  intros Hh p Ho. rewrite parse_spec, Hh by done. unfold keptRaw. cbn [candidateAt].
  destruct (canonical _ _); [|done]. apply openToken_full in Ho. cbn [tc_end]. rewrite blen_app, Ho. lia.
Qed.

(** One candidate and what follows it. *)
Lemma pieces_candidate text start ds body : 0 <= start <= blen text ->
  header (dropZ start text) = Some (ds, body) ->
  let e := start + blen (keptRaw ds body) in
  start < e <= blen text /\ slice start e text = keptRaw ds body
  /\ pieces (dropZ start text) = firstPiece (dropZ start text) :: pieces (dropZ e text).
Proof.
  intros Hs Hh e. assert (dropZ start text <> []) as Hne by (intros E; by rewrite E in Hh).
  destruct (firstPiece_drop _ Hne) as [Hd _]. destruct (firstPiece_candidate _ _ _ Hh) as [Hr _].
  rewrite pieces_cons by done. rewrite Hr in *.
  assert (drop (length (keptRaw ds body)) (dropZ start text) = dropZ e text) as He.
  { subst e. rewrite <- dropZ_dropZ by (try apply blen_nonneg; lia). unfold dropZ, blen. by rewrite Nat2Z.id. }
  rewrite He in *. split; [|split; [|done]].
  - apply (f_equal blen) in Hd. rewrite blen_app, blen_dropZ in Hd by done. pose proof (blen_nonneg (dropZ e text)).
    assert (0 < blen (keptRaw ds body)); [|lia]. unfold keptRaw. rewrite blen_app, blen_headerText.
    pose proof (blen_nonneg ds). pose proof (blen_nonneg (if canonical maxEncodedLen ds then base64Run (digitsVal ds) body else [])). lia.
  - unfold slice. rewrite Hd. subst e. rewrite Z.add_simpl_l. apply take_blen.
Qed.

(** A prefix that starts no candidate. *)
Lemma pieces_noheader text start : 0 <= start <= blen text ->
  hasPrefixBytes redactionTokenPrefix (dropZ start text) = true -> header (dropZ start text) = None ->
  start + 5 <= blen text /\ slice start (start + 5) text = redactionTokenPrefix
  /\ pieces (dropZ start text) = Plain redactionTokenPrefix :: pieces (dropZ (start + 5) text).
Proof.
  intros Hs Hp Hh. pose proof (prefix_split _ Hp) as Hsplit.
  assert (drop 5 (dropZ start text) = dropZ (start + 5) text) as H5 by (rewrite <- dropZ_dropZ by lia; done).
  split; [|split].
  - apply (f_equal blen) in Hsplit. rewrite blen_app, blen_dropZ in Hsplit by done.
    change (blen redactionTokenPrefix) with 5 in Hsplit. pose proof (blen_nonneg (drop 5 (dropZ start text))). lia.
  - unfold slice. rewrite Z.add_simpl_l, Hsplit. done.
  - rewrite pieces_cons by (intros E; by rewrite E in Hp). unfold firstPiece. rewrite Hh, Hp. cbn [rawOf].
    by rewrite <- H5.
Qed.

(** The loop after a candidate, with its plaintext written or the candidate kept. *)
Lemma restoreOk_token text out last tokens unrestored start e raw p r :
  pieces (dropZ start text) = Token raw p :: pieces (dropZ e text) ->
  restoreOk text (out ++ slice last start text ++ p) e (tokens + 1) unrestored e r ->
  restoreOk text out last tokens unrestored start r.
Proof.
  intros Hps. unfold restoreOk. rewrite Hps, !countPieces_cons. cbn [isCandidate isKept].
  destruct r as [[[o l]|err] n]; [|intros []; split; [done|lia]].
  intros (? & -> & ?). split; [lia|]. split; [|lia].
  unfold restored, slice. rewrite Z.sub_diag. cbn [Z.to_nat take app]. rewrite fmap_cons. cbn [concat restoredOf].
  by rewrite <- !app_assoc.
Qed.

Lemma restoreOk_kept text out last tokens unrestored start e raw r :
  pieces (dropZ start text) = Kept raw :: pieces (dropZ e text) -> slice start e text = raw ->
  0 <= last <= start -> start <= e ->
  restoreOk text out last (tokens + 1) (unrestored + 1) e r ->
  restoreOk text out last tokens unrestored start r.
Proof.
  intros Hps Hraw Hl He. unfold restoreOk. rewrite Hps, !countPieces_cons. cbn [isCandidate isKept].
  destruct r as [[[o l]|err] n]; [|intros []; split; [done|lia]].
  intros (? & -> & ?). split; [lia|]. split; [|lia].
  unfold restored. rewrite fmap_cons. cbn [concat restoredOf].
  by rewrite <- (slice_glue last start e), Hraw, <- !app_assoc.
Qed.

Lemma restoreLoop_spec fuel text out last tokens unrestored scan :
  0 <= last <= scan -> scan <= blen text -> blen text - scan < Z.of_nat fuel ->
  tokens <= maxRedactionTokensPerText ->
  restoreOk text out last tokens unrestored scan (restoreLoop fuel text out last tokens unrestored scan).
Proof.
  revert out last tokens unrestored scan. induction fuel as [|n IH]; intros out last tokens unrestored scan Hl Hs Hf Ht; [lia|].
  cbn [restoreLoop]. destruct (Z.ltb_spec scan (blen text)) as [Hlt|Hge]; cbn [negb]; cycle 1.
  { assert (dropZ scan text = []) as Hd by (unfold dropZ, blen in *; apply drop_ge; lia).
    unfold restoreOk. rewrite Hd, pieces_nil. change (countPieces _ []) with 0. split; [lia|]. split; [|lia].
    rewrite <- (slice_rest last scan text), Hd by done. done. }
  unfold Index. destruct (indexFrom 0 redactionTokenPrefix (dropZ scan text)) as [k|] eqn:Hi; cycle 1.
  { apply index_none in Hi as [H1 H2]. unfold restoreOk. rewrite !H2, H1 by done. split; [lia|]. split; [|lia].
    by rewrite slice_rest. }
  apply index_some in Hi as (Hk & Hp & H1 & H2). rewrite Z.sub_0_r, dropZ_dropZ in * by lia.
  rewrite blen_dropZ in Hk by lia. unfold slice in H1. rewrite Z.sub_0_r in H1. change (dropZ 0 ?l) with l in H1.
  eapply (restoreLoop_skip _ _ _ _ _ _ (scan + k)); [done|lia|lia| |done|].
  { unfold slice. by rewrite Z.add_simpl_l. }
  remember (scan + k) as start eqn:Est. assert (0 <= start <= blen text) as Hstart by lia.
  destruct (header (dropZ start text)) as [[ds body]|] eqn:Hh; cycle 1.
  { rewrite parse_spec, Hh by done. cbn [candidateAt noCandidate found negb].
    destruct (pieces_noheader text start Hstart Hp Hh) as (Hle & Hsl & Hps).
    eapply (restoreLoop_skip _ _ _ _ _ _ (start + 5)); [lia|lia|lia| | |apply IH; lia].
    - by rewrite Hps, Hsl.
    - intros f Hpl. by rewrite Hps, countPieces_cons, Hpl. }
  assert (found (parseRedactionCandidate text start) = true) as ->.
  { rewrite parse_spec, Hh by done. cbn. by destruct (canonical _ _). }
  cbn [negb]. destruct (pieces_candidate text start ds body Hstart Hh) as (He & Hsl & Hps).
  destruct (Z.ltb_spec maxRedactionTokensPerText (tokens + 1)) as [Hmax|Hmax].
  { unfold restoreOk. split; [done|]. rewrite Hps, countPieces_cons. destruct (firstPiece_candidate _ _ _ Hh) as [_ ->].
    pose proof (countPieces_nonneg isCandidate (pieces (dropZ (start + blen (keptRaw ds body)) text))). lia. }
  rewrite (firstPiece_decrypt _ _ _ Hh) in Hps. rewrite (decrypt_spec text start Hstart ds body Hh).
  destruct (if canonical _ _ then _ else _) as [p|] eqn:Ho.
  - rewrite (token_end text start Hstart ds body Hh p Ho). eapply restoreOk_token; [done|]. apply IH; lia.
  - rewrite (unrestored_spec text start Hstart ds body Hh).
    eapply restoreOk_kept; [done|done|lia|lia|]. apply IH; lia.
Qed.

(** [RestoreText] never runs forever and fails only on too many candidates; otherwise it
    restores every token and counts the candidates it kept. *)
Lemma RestoreText_spec text :
  let ps := pieces text in
  match RestoreText text with
  | (Ok out, n) => countPieces isCandidate ps <= maxRedactionTokensPerText /\ out = restored ps /\ n = countPieces isKept ps
  | (Err e, _) => e = TokensExceeded /\ maxRedactionTokensPerText < countPieces isCandidate ps
  end.
Proof.
  pose proof (restoreLoop_spec (S (length text)) text [] 0 0 0 0) as H. unfold RestoreText, restoreOk in *.
  destruct (restoreLoop _ _ _ _ _ _ _) as [[[out last]|e] n].
  - destruct H as (H1 & H2 & ->); [lia|apply blen_nonneg|unfold blen; lia|done|].
    change (dropZ 0 text) with text in *. change (slice 0 0 text) with (@nil ascii) in *. cbn [app] in H2.
    assert ((if (last =? 0) && (blen out =? 0) then Ok text else Ok (out ++ dropZ last text))
      = Ok (E := restoreError) (out ++ dropZ last text)) as ->.
    { destruct (Z.eqb_spec last 0) as [->|]; [|done]. destruct (Z.eqb_spec (blen out) 0) as [Ho|]; [|done].
      by destruct out. }
    cbv zeta. split; [lia|]. split; [done|lia].
  - destruct H as (H1 & H2); [lia|apply blen_nonneg|unfold blen; lia|done|]. split; [done|].
    change (dropZ 0 text) with text in *. lia.
Qed.

(** * Encryption and restoration *)

Lemma encoded_base64 l : forallb redactionBase64URLByte (EncodeToString l) = true.
Proof.
  pose proof (EncodeToString_alphabet l) as H. induction H as [|c l' [d [Hd ->]] _ IH]; [done|].
  cbn [forallb]. rewrite IH, andb_true_r. clear -Hd.
  assert (forallb (fun n => redactionBase64URLByte (encodeChar (Z.of_nat n))) (seq 0 64) = true) as Hall
    by (vm_compute; reflexivity).
  rewrite forallb_forall in Hall. rewrite <- (Z2Nat.id d) by lia. apply Hall, in_seq. lia.
Qed.

Lemma EncodedLen_mono n m : 0 <= n <= m -> EncodedLen n <= EncodedLen m.
Proof. intros Hn. unfold EncodedLen. Z.div_mod_to_equations. lia. Qed.

Lemma formatFuel_head fuel n : 1 <= n < 10 ^ Z.of_nat fuel -> head (formatFuel fuel n) <> Some "0"%char.
Proof.
  revert n. induction fuel as [|f IH]; intros n Hn; [cbn in *; lia|]. cbn [formatFuel].
  destruct (Z.ltb_spec n 10) as [H|H].
  - cbn. intros [= Heq]. apply (f_equal byteZ) in Heq. rewrite digitChar_byte in Heq by lia.
    change (byteZ "0"%char) with 48 in Heq. lia.
  - assert (1 <= n / 10 < 10 ^ Z.of_nat f) as Hd.
    { rewrite Nat2Z.inj_succ, Z.pow_succ_r in Hn by lia. split; [Z.div_mod_to_equations; lia|].
      apply Z.div_lt_upper_bound; lia. }
    specialize (IH _ Hd). destruct (formatFuel f (n / 10)) eqn:E; [|done].
    exfalso. pose proof (formatFuel_spec f (n / 10) ltac:(lia)) as [_ Hv]. rewrite E in Hv. cbn in Hv. lia.
Qed.

Lemma formatNat_canonical maxLen n : 1 <= n <= maxLen -> canonical maxLen (formatNat n) = true.
Proof.
  intros Hn. unfold canonical. rewrite formatNat_val by lia.
  rewrite (proj2 (Z.leb_le _ _)), (proj2 (Z.eqb_neq _ _)) by lia. cbn [andb negb].
  rewrite bool_decide_false; [by rewrite andb_false_r|].
  apply formatFuel_head. split; [lia|]. apply formatNat_fuel. lia.
Qed.

(** The token of a plaintext authenticates in front of any text. *)
Lemma EncryptToken_piece `{!AESSIVLaws siv} p t r :
  EncryptToken p = Some t -> firstPiece (t ++ r) = Token t p.
Proof.
  unfold EncryptToken. destruct (Z.ltb_spec maxRedactionPlaintextBytes (blen p)) as [|Hp]; [done|].
  set (n := EncodedLen (blen p + redactionCiphertextOverhead)).
  destruct (EncryptDeterministically _ _) as [c|] eqn:Hc; [|done].
  destruct (Z.eqb_spec (blen c) (blen p + redactionCiphertextOverhead)) as [Hlen|]; [|done]. intros Ht%(inj Some). subst t.
  pose proof (blen_nonneg p). unfold redactionCiphertextOverhead in *.
  assert (22 <= n <= maxEncodedLen) as Hn.
  { split; [apply (EncodedLen_mono 16); lia|]. apply EncodedLen_mono. unfold redactionCiphertextOverhead. lia. }
  assert (blen (EncodeToString c) = n) as Hrun by (unfold blen; rewrite EncodeToString_length; fold (blen c); by rewrite Hlen).
  assert (header ((headerText (formatNat n) ++ EncodeToString c) ++ r) = Some (formatNat n, EncodeToString c ++ r)) as Hh.
  { apply header_spec. split; [by rewrite <- app_assoc|]. split; [apply formatNat_digits; lia|apply formatNat_nonempty]. }
  change (redactionTokenPrefix ++ formatNat n ++ [underscore]) with (headerText (formatNat n)) in *.
  rewrite (firstPiece_decrypt _ _ _ Hh). unfold keptRaw.
  rewrite formatNat_canonical, formatNat_val by lia. rewrite base64Run_app by (done || apply encoded_base64).
  unfold openToken, redactionCiphertextOverhead. change (EncodedLen 16) with 22.
  rewrite (proj2 (Z.leb_le 22 n)), Hrun, Z.eqb_refl by lia.
  cbn [andb]. rewrite StrictDecode_Encode, (proj2 (Z.ltb_ge _ _)) by lia.
  by rewrite (siv_decrypts _ _ _ Hc).
Qed.

Lemma token_nonempty p t : EncryptToken p = Some t -> exists t', t = redactionTokenPrefix ++ t'.
Proof.
  unfold EncryptToken. repeat case_match; try done. intros Ht%(inj Some). subst t. eexists. by rewrite <- app_assoc.
Qed.

Lemma restored_token `{!AESSIVLaws siv} p t r :
  EncryptToken p = Some t -> pieces (t ++ r) = Token t p :: pieces r.
Proof.
  intros Ht. pose proof (EncryptToken_piece p t r Ht) as Hf. destruct (token_nonempty p t Ht) as [t' ->].
  rewrite pieces_cons by done. rewrite Hf. cbn [rawOf]. by rewrite drop_app_length.
Qed.

(** A text without the prefix is plain in front of anything that starts with [g]. *)
Definition plainText (l : bytes) : Prop := Index l redactionTokenPrefix = None.

Lemma prefix_straddle c l s : hasPrefixBytes redactionTokenPrefix (c :: l) = false ->
  hasPrefixBytes redactionTokenPrefix (c :: l ++ redactionTokenPrefix ++ s) = false.
Proof.
  intros H. apply not_true_iff_false. intros [r Hr]%hasPrefixBytes_spec.
  destruct l as [|c1 [|c2 [|c3 [|c4 l]]]]; try discriminate Hr.
  apply not_true_iff_false in H. apply H, hasPrefixBytes_spec.
  cbn in Hr. injection Hr as -> -> -> -> -> _. by eexists.
Qed.

Lemma indexFrom_none_tail i sub c l : indexFrom i sub (c :: l) = None ->
  hasPrefixBytes sub (c :: l) = false /\ indexFrom (i + 1) sub l = None.
Proof. cbn [indexFrom]. by destruct (hasPrefixBytes _ _). Qed.

Lemma indexFrom_none_shift i j sub l : indexFrom i sub l = None -> indexFrom j sub l = None.
Proof.
  revert i j. induction l as [|c l IH]; intros i j; cbn [indexFrom]; destruct (hasPrefixBytes _ _); try done. apply IH.
Qed.

Lemma restored_plain_token `{!AESSIVLaws siv} l p t r :
  plainText l -> EncryptToken p = Some t ->
  restored (pieces (l ++ t ++ r)) = l ++ p ++ restored (pieces r)
  /\ forall f, (forall s, f (Plain s) = false) ->
     countPieces f (pieces (l ++ t ++ r)) = (if f (Token t p) then 1 else 0) + countPieces f (pieces r).
Proof.
  intros Hl Ht. unfold plainText, Index in Hl. revert Hl. generalize 0 at 1 as i. induction l as [|c l IH]; intros i Hl.
  - cbn [app]. rewrite (restored_token p t r Ht). split; [done|]. intros f _. by rewrite countPieces_cons.
  - apply indexFrom_none_tail in Hl as [Hp Hl]. specialize (IH _ Hl) as [IH1 IH2].
    destruct (token_nonempty p t Ht) as [t' ->]. cbn [app]. rewrite pieces_skip.
    + split; [|intros f Hf; by rewrite countPieces_cons, Hf, IH2]. unfold restored in *. rewrite fmap_cons. cbn [concat restoredOf app].
      by rewrite IH1.
    + rewrite <- app_assoc. by apply prefix_straddle.
Qed.

End Pieces.
