(* ===== verification/RedactText.v ===== *)
(** The text rewriting of [internal/requestredact/redact.go]: the rules match the original
    text, overlapping matches merge, and each is replaced literally or by a redaction token.

    Go's regular expressions are a class of operations; the theorems hold for every matcher
    that reports matches inside the text.  [rewriteText] is the function with [jsonText]
    false, as [Text] and [TextWithCipher] call it. *)
From S2P Require Import Prelude GoStrings RedactToken.
From Stdlib Require Import Ascii.

Local Open Scope Z_scope.

(** * Configuration *)

Definition ModeReplace : string := "replace".
Definition ModeEncrypt : string := "encrypt".

Record RedactRule := mkRule { rule_Pattern : string; rule_Replacement : bytes; rule_Mode : string }.
Definition zeroRule : RedactRule := mkRule "" [] "".

Definition maxTextBytes : Z := 134217728.
Definition maxDocumentPatches : Z := 65536.

(** [regexp.Regexp.FindAllStringIndex(text, n)]. *)
Class Regexp := {
  regexp : Type;
  FindAllStringIndex : regexp -> bytes -> Z -> list (Z * Z)
}.

Class RegexpLaws (re : Regexp) :=
  find_in_range : forall p text n a b,
    (a, b) ∈ FindAllStringIndex p text n -> 0 <= a <= b /\ b <= blen text.

(** The request side of the cipher of one access key. *)
Class TokenCipher := {
  cipherEncryptToken : bytes -> option bytes;
  cipherTokenCandidateEnd : bytes -> Z -> Z * bool;
  cipherValidTokenAt : bytes -> Z -> Z * bool
}.

Definition redactionCipher (siv : AESSIV) : TokenCipher := {|
  cipherEncryptToken := EncryptToken;
  cipherTokenCandidateEnd := TokenCandidateEnd;
  cipherValidTokenAt := ValidTokenAt
|}.

(** * Protected spans *)

Record tokenSpan := mkSpan { ts_start : Z; ts_end : Z }.

(** [sort.Search]: binary search over [0, n) for the first index where [f] holds. *)
Fixpoint searchLoop (fuel : nat) (f : Z -> bool) (i j : Z) : Z :=
  match fuel with
  | O => i
  | S n =>
      if i <? j then
        let h := (i + j) / 2 in
        if f h then searchLoop n f i h else searchLoop n f (h + 1) j
      else i
  end.
Definition sortSearch (n : Z) (f : Z -> bool) : Z := searchLoop (S (Z.to_nat n)) f 0 n.

Definition zeroSpan : tokenSpan := mkSpan 0 0.
Definition spanAt (spans : list tokenSpan) (i : Z) : tokenSpan := nth (Z.to_nat i) spans zeroSpan.

Definition protectedMatch (spans : list tokenSpan) (start end_ : Z) : bool * bool :=
  let count := Z.of_nat (length spans) in
  let index := sortSearch count (fun i => start <? ts_end (spanAt spans i)) in
  if (count <=? index) || (end_ <=? ts_start (spanAt spans index)) then (false, false)
  else
    let span := spanAt spans index in
    if (ts_start span <=? start) && (end_ <=? ts_end span) then (true, false) else (false, true).

(** The loop of [authenticatedTokenSpans]; [None] is [ErrContent]. *)
Fixpoint tokenSpansLoop (fuel : nat) (cipher : TokenCipher) (value : bytes) (protected : list tokenSpan)
    (scan attempts remaining : Z) : option (list tokenSpan) :=
  match fuel with
  | O => None
  | S n =>
      if negb (scan <? blen value) then Some protected
      else
        match Index (dropZ scan value) redactionTokenPrefix with
        | None => Some protected
        | Some relative =>
            let start := scan + relative in
            if maxDocumentPatches <? attempts + 1 then None
            else
              let '(candidateEnd, complete) := cipherTokenCandidateEnd value start in
              if negb complete then tokenSpansLoop n cipher value protected (start + 5) (attempts + 1) remaining
              else if (candidateEnd <=? start) || (blen value <? candidateEnd) || (remaining <? candidateEnd - start)
              then None
              else
                let remaining := remaining - (candidateEnd - start) in
                let '(e, valid) := cipherValidTokenAt value start in
                if negb valid then tokenSpansLoop n cipher value protected (start + 5) (attempts + 1) remaining
                else
                  let protected := protected ++ [mkSpan start e] in
                  if maxDocumentPatches <? Z.of_nat (length protected) then None
                  else tokenSpansLoop n cipher value protected e (attempts + 1) remaining
        end
  end.

Definition authenticatedTokenSpans (value : bytes) (cipher : TokenCipher) : option (list tokenSpan) :=
  tokenSpansLoop (S (length value)) cipher value [] 0 0 (blen value).

(** * Matches *)

Record textMatch := mkMatch { tm_start : Z; tm_end : Z; tm_rule : Z }.

Definition matchLe (x y : textMatch) : Prop :=
  tm_start x < tm_start y \/ tm_start x = tm_start y /\ tm_rule x <= tm_rule y.

#[global] Instance matchLe_dec x y : Decision (matchLe x y).
Proof. unfold matchLe. apply _. Defined.

Definition encryptedTokenLength (plaintextBytes : Z) : Z :=
  let encoded := EncodedLen (plaintextBytes + 16) in 5 + blen (formatNat encoded) + 1 + encoded.

(** The inner loop of the merge: [span] absorbs what starts before its end. *)
Fixpoint mergeFrom (span : textMatch) (l : list textMatch) : list textMatch :=
  match l with
  | [] => [span]
  | x :: l' =>
      if tm_start x <? tm_end span
      then mergeFrom (mkMatch (tm_start span) (Z.max (tm_end span) (tm_end x)) (Z.min (tm_rule span) (tm_rule x))) l'
      else span :: mergeFrom x l'
  end.
Definition mergeSpans (l : list textMatch) : list textMatch :=
  match l with [] => [] | x :: l' => mergeFrom x l' end.

Section Rewrite.
Context {re : Regexp}.

(** A compiled configuration: the rules with their patterns. *)
Abbreviation Compiled := (list (RedactRule * regexp)) (only parsing).

Definition Empty (c : Compiled) : bool := match c with [] => true | _ => false end.

Definition Reversible (c : Compiled) : bool :=
  existsb (fun r => bool_decide (rule_Mode (fst r) = ModeEncrypt)) c.

Definition ruleAt (c : Compiled) (i : Z) : RedactRule := nth (Z.to_nat i) (fst <$> c) zeroRule.

Definition isEncrypt (r : RedactRule) : bool := bool_decide (rule_Mode r = ModeEncrypt).

(** The matches of one rule: empty ones are dropped. *)
Fixpoint addMatches (encryptWithoutCipher : bool) (rule : Z) (matches : list (Z * Z)) (spans : list textMatch)
  : option (list textMatch) :=
  match matches with
  | [] => Some spans
  | (a, b) :: matches' =>
      if a =? b then addMatches encryptWithoutCipher rule matches' spans
      else if encryptWithoutCipher then None
      else
        let spans := spans ++ [mkMatch a b rule] in
        if 65536 <? Z.of_nat (length spans) then None
        else addMatches encryptWithoutCipher rule matches' spans
  end.

Fixpoint collectMatches (noCipher : bool) (value : bytes) (i : Z) (c : Compiled) (spans : list textMatch)
  : option (list textMatch) :=
  match c with
  | [] => Some spans
  | (r, p) :: c' =>
      let matches := FindAllStringIndex p value 65537 in
      if 65536 <? Z.of_nat (length matches) then None
      else
        match addMatches (isEncrypt r && noCipher) i matches spans with
        | None => None
        | Some spans => collectMatches noCipher value (i + 1) c' spans
        end
  end.

(** Matches inside a protected token are dropped, matches that cross one are an error. *)
Fixpoint filterProtected (protected : list tokenSpan) (spans : list textMatch) : option (list textMatch) :=
  match spans with
  | [] => Some []
  | s :: spans' =>
      let '(inside, crossing) := protectedMatch protected (tm_start s) (tm_end s) in
      if crossing then None
      else
        match filterProtected protected spans' with
        | None => None
        | Some rest => Some (if inside then rest else s :: rest)
        end
  end.

Definition replacementBytes (c : Compiled) (s : textMatch) : Z :=
  if isEncrypt (ruleAt c (tm_rule s)) then encryptedTokenLength (tm_end s - tm_start s)
  else blen (rule_Replacement (ruleAt c (tm_rule s))).

Definition finalBytesOf (c : Compiled) (value : bytes) (merged : list textMatch) : Z :=
  fold_left (fun n s => i64 (n + replacementBytes c s - (tm_end s - tm_start s))) merged (blen value).

(** The replacement of one merged span. *)
Definition replacementOf (c : Compiled) (cipher : option TokenCipher) (value : bytes) (s : textMatch) : option bytes :=
  if isEncrypt (ruleAt c (tm_rule s)) then
    match cipher with
    | Some k => cipherEncryptToken (slice (tm_start s) (tm_end s) value)
    | None => None
    end
  else Some (rule_Replacement (ruleAt c (tm_rule s))).

Fixpoint writeSpans (c : Compiled) (cipher : option TokenCipher) (value out : bytes) (pos : Z) (merged : list textMatch)
  : option bytes :=
  match merged with
  | [] => if maxTextBytes <? blen out + blen value - pos then None else Some (out ++ dropZ pos value)
  | s :: merged' =>
      match replacementOf c cipher value s with
      | None => None
      | Some replacement =>
          if maxTextBytes <? blen out + tm_start s - pos + blen replacement then None
          else writeSpans c cipher value (out ++ slice pos (tm_start s) value ++ replacement) (tm_end s) merged'
      end
  end.

Definition rewriteText (c : Compiled) (value : bytes) (cipher : option TokenCipher) (protected : list tokenSpan)
  : option bytes :=
  match collectMatches (match cipher with None => true | Some _ => false end) value 0 c [] with
  | None => None
  | Some spans =>
      match filterProtected protected spans with
      | None => None
      | Some [] => Some value
      | Some spans =>
          let merged := mergeSpans (merge_sort matchLe spans) in
          let finalBytes := finalBytesOf c value merged in
          if (maxTextBytes <? finalBytes) || (finalBytes <? 0) then None
          else writeSpans c cipher value [] 0 merged
      end
  end.

Definition TextWithCipher (c : Compiled) (value : bytes) (cipher : option TokenCipher) : option bytes :=
  if Empty c then Some value
  else
    match cipher with
    | None => rewriteText c value None []
    | Some k =>
        match authenticatedTokenSpans value k with
        | None => None
        | Some protected => rewriteText c value cipher protected
        end
    end.

Definition Text (c : Compiled) (value : bytes) : option bytes :=
  if Empty c then Some value else rewriteText c value None [].

End Rewrite.
