(* ===== verification/RedactTextProps.v ===== *)
(** What the redaction of a text does: it replaces exactly the matches, and a text whose
    matches were encrypted is restored to the original by [RestoreText]. *)
From S2P Require Import Prelude GoStrings RedactToken RedactTokenSpec RedactRestore RedactText.
From Stdlib Require Import Ascii.
From stdpp Require Import sorting.

Local Open Scope Z_scope.

(** * Spans *)

(** [pos <= start < end <= next start ... <= n]. *)
Fixpoint ordered (pos n : Z) (l : list textMatch) : Prop :=
  match l with
  | [] => pos <= n
  | s :: l' => pos <= tm_start s /\ tm_start s < tm_end s /\ ordered (tm_end s) n l'
  end.

Definition inSpan (x : Z) (s : textMatch) : Prop := tm_start s <= x < tm_end s.
Definition spanCovered (x : Z) (l : list textMatch) : Prop := exists s, s ∈ l /\ inSpan x s.

Lemma spanCovered_cons x s l : spanCovered x (s :: l) <-> inSpan x s \/ spanCovered x l.
Proof. unfold spanCovered. setoid_rewrite elem_of_cons. naive_solver. Qed.

Lemma spanCovered_nil x : spanCovered x [] <-> False.
Proof. unfold spanCovered. split; [|done]. by intros (s & H%not_elem_of_nil & _). Qed.

(** [value] with the spans of [l] replaced. *)
Fixpoint splice (pos : Z) (value : bytes) (l : list (textMatch * bytes)) : bytes :=
  match l with
  | [] => dropZ pos value
  | (s, r) :: l' => slice pos (tm_start s) value ++ r ++ splice (tm_end s) value l'
  end.

(** * Merging *)

Definition spanOk (n : Z) (s : textMatch) : Prop := 0 <= tm_start s < tm_end s /\ tm_end s <= n.

Lemma mergeFrom_spec span l pos n :
  pos <= tm_start span -> spanOk n span -> Forall (spanOk n) l ->
  Forall (fun x => tm_start span <= tm_start x) l -> StronglySorted matchLe l ->
  ordered pos n (mergeFrom span l) /\ forall x, spanCovered x (mergeFrom span l) <-> spanCovered x (span :: l).
Proof.
  revert span pos. induction l as [|y l IH]; intros span pos Hp Hs Hl Hle Hsort; cbn [mergeFrom].
  - destruct Hs as [? ?]. split; [|done]. cbn. lia.
  - apply Forall_cons in Hl as [Hy Hl]. apply Forall_cons in Hle as [Hle Hle'].
    apply StronglySorted_inv in Hsort as [Hsort Hy']. unfold spanOk in Hs, Hy.
    assert (Forall (fun x => tm_start y <= tm_start x) l) as Hyl.
    { eapply Forall_impl; [exact Hy'|]. intros x. unfold matchLe. cbn. lia. }
    destruct (Z.ltb_spec (tm_start y) (tm_end span)) as [H|H].
    + destruct (IH (mkMatch (tm_start span) (Z.max (tm_end span) (tm_end y)) (Z.min (tm_rule span) (tm_rule y))) pos)
        as [Ho Hc]; [done|unfold spanOk; cbn; lia|done| |done|].
      { eapply Forall_impl; [exact Hyl|]. cbn. lia. }
      split; [done|]. intros x. rewrite Hc, !spanCovered_cons. unfold inSpan. cbn. split; [|naive_solver lia].
      intros [Hx|Hx]; [|naive_solver]. destruct (Z.lt_ge_cases x (tm_end span)); [left; lia|right; left; lia].
    + destruct (IH y (tm_end span)) as [Ho Hc]; [done|done|done|done|done|].
      split; [split; [done|split; [lia|done]]|]. intros x. rewrite spanCovered_cons, Hc, !spanCovered_cons. done.
Qed.

#[global] Instance matchLe_trans : Transitive matchLe.
Proof. intros x y z. unfold matchLe. lia. Qed.
#[global] Instance matchLe_total : Total matchLe.
Proof. intros x y. unfold matchLe. lia. Qed.

Lemma spanCovered_perm x l l' : l ≡ₚ l' -> spanCovered x l <-> spanCovered x l'.
Proof. intros H. unfold spanCovered. by setoid_rewrite H. Qed.

Lemma mergeSpans_spec n l : 0 <= n -> Forall (spanOk n) l ->
  let merged := mergeSpans (merge_sort matchLe l) in
  ordered 0 n merged /\ forall x, spanCovered x merged <-> spanCovered x l.
Proof.
  intros Hn Hl. cbn. pose proof (merge_sort_Permutation matchLe l) as Hperm.
  setoid_rewrite <- (spanCovered_perm _ _ _ Hperm). rewrite <- Hperm in Hl.
  pose proof (StronglySorted_merge_sort matchLe l) as Hsort.
  destruct (merge_sort matchLe l) as [|y l']; [done|]. apply Forall_cons in Hl as [Hy Hl].
  apply StronglySorted_inv in Hsort as [Hsort Hy']. apply mergeFrom_spec; [apply Hy|done|done| |done].
  eapply Forall_impl; [exact Hy'|]. intros x. unfold matchLe. lia.
Qed.

Lemma mergeFrom_length span l : (length (mergeFrom span l) <= S (length l))%nat.
Proof. revert span. induction l as [|y l IH]; intros span; cbn; [done|]. case_if; [specialize (IH (mkMatch (tm_start span) (Z.max (tm_end span) (tm_end y)) (Z.min (tm_rule span) (tm_rule y)))); lia|]. cbn. specialize (IH y). lia. Qed.

(** A merged span has the rule of one of the matches it is made of. *)
Lemma mergeFrom_rule (P : Z -> Prop) span l :
  P (tm_rule span) -> Forall (fun s => P (tm_rule s)) l -> Forall (fun s => P (tm_rule s)) (mergeFrom span l).
Proof.
  revert span. induction l as [|y l IH]; intros span Hs Hl; cbn [mergeFrom]; [by constructor|].
  apply Forall_cons in Hl as [Hy Hl]. case_if; [|constructor; auto]. apply IH; [|done]. cbn [tm_rule].
  by destruct (Z.min_dec (tm_rule span) (tm_rule y)) as [->| ->].
Qed.

Lemma mergeSpans_rule (P : Z -> Prop) l :
  Forall (fun s => P (tm_rule s)) l -> Forall (fun s => P (tm_rule s)) (mergeSpans (merge_sort matchLe l)).
Proof.
  rewrite <- (merge_sort_Permutation matchLe l) at 1. destruct (merge_sort matchLe l); [done|].
  intros [? ?]%Forall_cons. by apply mergeFrom_rule.
Qed.

Lemma mergeSpans_length l : (length (mergeSpans l) <= length l)%nat.
Proof. destruct l; [done|]. apply mergeFrom_length. Qed.

(** * Tokens already in the text *)

Lemma searchLoop_spec fuel f i j :
  (forall a b, a <= b -> f a = true -> i <= a -> b < j -> f b = true) -> j - i < Z.of_nat fuel -> i <= j ->
  let k := searchLoop fuel f i j in
  i <= k <= j /\ (forall x, i <= x < k -> f x = false) /\ (forall x, k <= x < j -> f x = true).
Proof.
  revert i j. induction fuel as [|n IH]; intros i j Hm Hf Hij; [lia|]. cbn [searchLoop].
  destruct (Z.ltb_spec i j) as [Hlt|Hge]; [|cbn; split; [lia|split; intros; lia]].
  assert (i <= (i + j) / 2 < j) as Hh by (Z.div_mod_to_equations; lia).
  destruct (f ((i + j) / 2)) eqn:Efh.
  - destruct (IH i ((i + j) / 2)) as (Hk & Hlo & Hhi); [intros; eapply Hm; eauto; lia|lia|lia|].
    split; [lia|]. split; [done|]. intros x Hx. destruct (Z.lt_ge_cases x ((i + j) / 2)); [apply Hhi; lia|].
    apply (Hm ((i + j) / 2)); done || lia.
  - destruct (IH ((i + j) / 2 + 1) j) as (Hk & Hlo & Hhi); [intros; eapply Hm; eauto; lia|lia|lia|].
    split; [lia|]. split; [|done]. intros x Hx. destruct (Z.le_gt_cases x ((i + j) / 2)); [|apply Hlo; lia].
    destruct (f x) eqn:Ex; [|done]. by rewrite (Hm x ((i + j) / 2)) in Efh by (done || lia).
Qed.

Lemma sortSearch_spec n f : 0 <= n ->
  (forall a b, a <= b -> f a = true -> 0 <= a -> b < n -> f b = true) ->
  let k := sortSearch n f in
  0 <= k <= n /\ (forall x, 0 <= x < k -> f x = false) /\ (forall x, k <= x < n -> f x = true).
Proof. intros Hn Hm. apply searchLoop_spec; [done|lia|done]. Qed.

(** Disjoint spans in order. *)
Fixpoint spansOrdered (pos n : Z) (l : list tokenSpan) : Prop :=
  match l with
  | [] => pos <= n
  | s :: l' => pos <= ts_start s /\ ts_start s < ts_end s /\ spansOrdered (ts_end s) n l'
  end.

Lemma spansOrdered_pos pos n l s : spansOrdered pos n l -> s ∈ l -> pos <= ts_start s < ts_end s.
Proof.
  revert pos. induction l as [|x l IH]; intros pos H Hs; [by apply elem_of_nil in Hs|].
  destruct H as (H1 & H2 & H). apply elem_of_cons in Hs as [->|Hs]; [lia|]. apply (IH _ H) in Hs. lia.
Qed.

Lemma spansOrdered_lookup pos n l i j s t : spansOrdered pos n l -> (i < j)%nat ->
  l !! i = Some s -> l !! j = Some t -> ts_end s <= ts_start t.
Proof.
  revert pos i j. induction l as [|x l IH]; intros pos i j H Hij Hi Hj; [done|]. destruct H as (H1 & H2 & H).
  destruct j as [|j]; [lia|]. cbn in Hj. destruct i as [|i]; cbn in Hi.
  - simplify_eq. apply (spansOrdered_pos _ _ _ t) in H; [lia|]. by eapply list_elem_of_lookup_2.
  - eapply (IH (ts_end x) i j); eauto. lia.
Qed.

Lemma spanAt_lookup l i : 0 <= i < Z.of_nat (length l) -> l !! Z.to_nat i = Some (spanAt l i).
Proof.
  intros Hi. destruct (lookup_lt_is_Some_2 l (Z.to_nat i)) as [s Hs]; [lia|]. rewrite Hs. f_equal.
  unfold spanAt. symmetry. by apply nth_lookup_Some.
Qed.

Lemma spanAt_in l i : 0 <= i < Z.of_nat (length l) -> spanAt l i ∈ l.
Proof. intros Hi. eapply list_elem_of_lookup_2, spanAt_lookup. done. Qed.

Lemma spans_forall l (P : tokenSpan -> Prop) :
  (forall x, 0 <= x < Z.of_nat (length l) -> P (spanAt l x)) -> forall s, s ∈ l -> P s.
Proof.
  intros H s [i Hi]%list_elem_of_lookup_1. pose proof (lookup_lt_Some _ _ _ Hi).
  specialize (H (Z.of_nat i) ltac:(lia)). unfold spanAt in H.
  by rewrite Nat2Z.id, (nth_lookup_Some _ _ _ s) in H by done.
Qed.

Lemma spansOrdered_at pos n l x y : spansOrdered pos n l -> 0 <= x < y -> y < Z.of_nat (length l) ->
  ts_end (spanAt l x) <= ts_start (spanAt l y).
Proof.
  intros Ho Hx Hy. eapply (spansOrdered_lookup pos n l (Z.to_nat x) (Z.to_nat y)); [done|lia|..];
    apply spanAt_lookup; lia.
Qed.

Definition insideToken (protected : list tokenSpan) (a b : Z) : Prop :=
  exists s, s ∈ protected /\ ts_start s <= a /\ b <= ts_end s.
Definition awayFromTokens (protected : list tokenSpan) (a b : Z) : Prop :=
  forall s, s ∈ protected -> ts_end s <= a \/ b <= ts_start s.

(** The binary search decides how a match lies to the tokens. *)
Lemma protectedMatch_spec pos n protected a b : spansOrdered pos n protected -> a < b ->
  match protectedMatch protected a b with
  | (true, _) => insideToken protected a b
  | (false, false) => awayFromTokens protected a b
  | (false, true) => ~ insideToken protected a b /\ ~ awayFromTokens protected a b
  end.
Proof.
  intros Ho Hab. unfold protectedMatch. set (count := Z.of_nat (length protected)).
  set (f := fun i => a <? ts_end (spanAt protected i)).
  pose proof (fun x y => spansOrdered_at pos n protected x y Ho) as Hord.
  assert (forall x, 0 <= x < count -> ts_start (spanAt protected x) < ts_end (spanAt protected x)) as Hlen.
  { intros x Hx. eapply (spansOrdered_pos pos n protected); [done|]. by apply spanAt_in. }
  destruct (sortSearch_spec count f) as (Hk & Hlo & Hhi); [lia| |].
  { intros x y Hxy Hx Hx0 Hy. subst f. cbn in *. apply Z.ltb_lt in Hx. apply Z.ltb_lt.
    destruct (Z.eq_dec x y) as [->|]; [done|]. pose proof (Hord x y ltac:(lia) Hy). pose proof (Hlen y ltac:(lia)). lia. }
  set (k := sortSearch count f) in *. subst f. cbv beta in Hlo, Hhi.
  assert (forall x, 0 <= x < k -> ts_end (spanAt protected x) <= a) as Hleft by (intros x Hx; by apply Z.ltb_ge, Hlo).
  destruct (Z.leb_spec count k) as [Hge|Hlt]; cbn [orb].
  { refine (spans_forall protected (fun s => ts_end s <= a \/ b <= ts_start s) _). intros x Hx. left. apply Hleft. lia. }
  specialize (Hhi k ltac:(lia)) as Hend. apply Z.ltb_lt in Hend.
  assert (forall x, k < x < count -> ts_end (spanAt protected k) <= ts_start (spanAt protected x)) as Hright
    by (intros x Hx; apply Hord; lia).
  destruct (Z.leb_spec b (ts_start (spanAt protected k))) as [Hb|Hb].
  { refine (spans_forall protected (fun s => ts_end s <= a \/ b <= ts_start s) _). intros x Hx. destruct (Z.lt_ge_cases x k); [left; apply Hleft; lia|right].
    destruct (Z.eq_dec x k) as [->|]; [done|]. specialize (Hright x ltac:(lia)). specialize (Hlen k ltac:(lia)). lia. }
  assert (spanAt protected k ∈ protected) as Hin by (apply spanAt_in; lia).
  destruct (Z.leb_spec (ts_start (spanAt protected k)) a), (Z.leb_spec b (ts_end (spanAt protected k))); cbn [andb];
    [by exists (spanAt protected k)|split..].
  all: try (intros Haway; destruct (Haway _ Hin); lia).
  all: intros (s & Hs & Hsa & Hsb); revert s Hs Hsa Hsb; refine (spans_forall protected (fun s => ts_start s <= a -> b <= ts_end s -> False) _).
  all: intros x Hx Hsa Hsb; destruct (Z.lt_trichotomy x k) as [?|[->|?]]; [specialize (Hleft x ltac:(lia)); lia|lia|].
  all: specialize (Hright x ltac:(lia)); lia.
Qed.

Lemma spansOrdered_mono pos n m l : n <= m -> spansOrdered pos n l -> spansOrdered pos m l.
Proof. intros Hm. revert pos. induction l as [|s l IH]; intros pos; cbn; [lia|]. intros (? & ? & ?). auto. Qed.

Lemma spansOrdered_snoc pos n l s : spansOrdered pos n l -> n <= ts_start s < ts_end s ->
  spansOrdered pos (ts_end s) (l ++ [s]).
Proof.
  intros H Hs. revert pos H. induction l as [|x l IH]; intros pos H; cbn in *; [lia|].
  destruct H as (? & ? & ?). auto.
Qed.

Section Tokens.
Context (siv : AESSIV) (value : bytes).

(** A span of the text that authenticates. *)
Definition tokenAt (s : tokenSpan) : Prop := ValidTokenAt value (ts_start s) = (ts_end s, true).

Lemma ValidTokenAt_end start e : ValidTokenAt value start = (e, true) -> TokenCandidateEnd value start = (e, true).
Proof.
  unfold ValidTokenAt, TokenCandidateEnd, decryptCandidate.
  destruct (negb _ || _) eqn:E; [done|]. apply orb_false_iff in E as [Ef%negb_false_iff ->]. rewrite Ef.
  repeat case_match; intros [=]; by subst.
Qed.

Lemma index_after scan k : 0 <= scan <= blen value ->
  Index (dropZ scan value) redactionTokenPrefix = Some k -> 0 <= k /\ scan + k + 5 <= blen value.
Proof.
  intros Hs H. unfold Index in H. apply index_some in H as (Hk & Hp & _). rewrite Z.sub_0_r, dropZ_dropZ in Hp by lia.
  apply prefix_split, (f_equal blen) in Hp. rewrite blen_app in Hp. change (blen redactionTokenPrefix) with 5 in Hp.
  rewrite blen_dropZ in Hk by done. rewrite blen_dropZ in Hp by lia.
  pose proof (blen_nonneg (drop 5 (dropZ (scan + k) value))). lia.
Qed.

Lemma tokenSpansLoop_spec fuel protected scan attempts remaining res :
  tokenSpansLoop fuel (redactionCipher siv) value protected scan attempts remaining = Some res ->
  0 <= scan <= blen value -> spansOrdered 0 scan protected -> Forall tokenAt protected ->
  spansOrdered 0 (blen value) res /\ Forall tokenAt res.
Proof.
  revert protected scan attempts remaining. induction fuel as [|n IH]; intros protected scan attempts remaining H Hs Ho Hv; [done|].
  cbn [tokenSpansLoop] in H.
  assert (spansOrdered 0 (blen value) protected) as Hdone by (apply (spansOrdered_mono 0 scan); [lia|done]).
  destruct (negb _); [by simplify_eq|]. destruct (Index _ _) as [k|] eqn:Hi; [|by simplify_eq].
  apply index_after in Hi as [Hk Hk5]; [|done]. destruct (maxDocumentPatches <? _); [done|].
  cbn [cipherTokenCandidateEnd cipherValidTokenAt redactionCipher] in H.
  destruct (TokenCandidateEnd value (scan + k)) as [ce complete] eqn:Hce.
  assert (spansOrdered 0 (scan + k + 5) protected) as Hskip by (apply (spansOrdered_mono 0 scan); [lia|done]).
  destruct complete; cbn [negb] in H; [|eapply (IH _ (scan + k + 5)); eauto; lia].
  destruct (_ || _) eqn:Hb; [done|]. apply orb_false_iff in Hb as [[H1%Z.leb_gt H2%Z.ltb_ge]%orb_false_iff _].
  destruct (ValidTokenAt value (scan + k)) as [e valid] eqn:Hval. destruct valid; cbn [negb] in H; [|eapply (IH _ (scan + k + 5)); eauto; lia].
  destruct (maxDocumentPatches <? _); [done|].
  pose proof (ValidTokenAt_end _ _ Hval) as Hend. rewrite Hce in Hend. injection Hend as ->.
  eapply IH; [done|lia| |].
  - apply (spansOrdered_snoc 0 scan protected (mkSpan (scan + k) e)); [done|cbn; lia].
  - apply Forall_app. split; [done|]. by constructor.
Qed.

Lemma authenticatedTokenSpans_spec res :
  authenticatedTokenSpans value (redactionCipher siv) = Some res ->
  spansOrdered 0 (blen value) res /\ Forall tokenAt res.
Proof. intros H. eapply tokenSpansLoop_spec; [exact H|split; [done|apply blen_nonneg]|done|constructor]. Qed.

End Tokens.

(** * Collecting *)

Section Rewrite.
Context {re : Regexp} `{!RegexpLaws re}.

(** A non-empty match of rule number [i]. *)
Definition ruleMatch (i0 : Z) (c : list (RedactRule * regexp)) (value : bytes) (s : textMatch) : Prop :=
  exists i r p, c !! i = Some (r, p) /\ tm_rule s = i0 + Z.of_nat i /\ tm_start s <> tm_end s
    /\ (tm_start s, tm_end s) ∈ FindAllStringIndex p value 65537.

Lemma addMatches_spec bad rule matches spans spans' :
  addMatches bad rule matches spans = Some spans' -> Z.of_nat (length spans) <= 65536 ->
  Z.of_nat (length spans') <= 65536 /\
  forall s, s ∈ spans' <-> s ∈ spans \/ tm_rule s = rule /\ tm_start s <> tm_end s /\ (tm_start s, tm_end s) ∈ matches.
Proof.
  revert spans. induction matches as [|[a b] ms IH]; intros spans H Hlen; cbn [addMatches] in H.
  { injection H as <-. split; [done|]. intros s. setoid_rewrite elem_of_nil. naive_solver. }
  destruct (Z.eqb_spec a b) as [->|Hne].
  { apply IH in H as [? H]; [|done]. split; [done|]. intros s. rewrite H, elem_of_cons. naive_solver. }
  destruct bad; [done|]. destruct (Z.ltb_spec 65536 (Z.of_nat (length (spans ++ [mkMatch a b rule])))); [done|].
  apply IH in H as [? H]; [|lia]. split; [done|]. intros s. rewrite H, elem_of_app, list_elem_of_singleton, elem_of_cons.
  destruct s as [x y z]. cbn. naive_solver.
Qed.

Lemma collectMatches_spec noCipher value i0 c spans spans' :
  collectMatches noCipher value i0 c spans = Some spans' -> Z.of_nat (length spans) <= 65536 ->
  Z.of_nat (length spans') <= 65536 /\ forall s, s ∈ spans' <-> s ∈ spans \/ ruleMatch i0 c value s.
Proof.
  revert i0 spans. induction c as [|[r p] c IH]; intros i0 spans H Hlen; cbn [collectMatches] in H.
  { injection H as <-. split; [done|]. intros s. unfold ruleMatch. setoid_rewrite lookup_nil. naive_solver. }
  destruct (65536 <? _); [done|]. destruct (addMatches _ _ _ _) as [spans1|] eqn:Ha; [|done].
  apply addMatches_spec in Ha as [Hl1 Ha]; [|done]. apply IH in H as [Hl2 H]; [|done]. split; [done|].
  intros s. rewrite H, Ha. unfold ruleMatch. split.
  - intros [[?|(? & ? & ?)]|(i & r' & p' & ? & ? & ?)]; [by left| |]; right.
    + exists 0%nat, r, p. split; [done|]. split; [lia|done].
    + exists (S i), r', p'. split; [done|]. split; [lia|done].
  - intros [?|(i & r' & p' & Hi & ? & ?)]; [by left; left|]. destruct i as [|i]; cbn in Hi.
    + simplify_eq. left. right. split; [lia|done].
    + right. exists i, r', p'. split; [done|]. split; [lia|done].
Qed.

Lemma filterProtected_spec protected spans spans' :
  filterProtected protected spans = Some spans' ->
  (length spans' <= length spans)%nat /\
  (forall s, s ∈ spans -> (protectedMatch protected (tm_start s) (tm_end s)).2 = false) /\
  forall s, s ∈ spans' <-> s ∈ spans /\ (protectedMatch protected (tm_start s) (tm_end s)).1 = false.
Proof.
  revert spans'. induction spans as [|s spans IH]; intros spans' H; cbn [filterProtected] in H.
  { injection H as <-. split; [done|]. split; intros s; rewrite elem_of_nil; naive_solver. }
  destruct (protectedMatch protected (tm_start s) (tm_end s)) as [ins cr] eqn:Hm. destruct cr; [done|].
  destruct (filterProtected protected spans) as [rest|] eqn:Hr; [|done]. apply (inj Some) in H. subst spans'.
  destruct (IH _ eq_refl) as (Hl & Hcr & Hin). split; [destruct ins; cbn; lia|]. split.
  - intros x [->|Hx]%elem_of_cons; [by rewrite Hm|by apply Hcr].
  - intros x. destruct ins; rewrite ?elem_of_cons, Hin.
    + split; [tauto|]. intros [[->|?] Hx]; [by rewrite Hm in Hx|done].
    + split; [|tauto]. intros [->|?]; [by rewrite Hm; auto|tauto].
Qed.

(** * Writing *)

Lemma writeSpans_spec c cipher value out pos merged res :
  writeSpans c cipher value out pos merged = Some res ->
  exists reps, Forall2 (fun s r => replacementOf c cipher value s = Some r) merged reps
    /\ res = out ++ splice pos value (zip merged reps).
Proof.
  revert out pos. induction merged as [|s merged IH]; intros out pos H; cbn [writeSpans] in H.
  { destruct (maxTextBytes <? _); [done|]. apply (inj Some) in H. subst res. exists []. split; [constructor|done]. }
  destruct (replacementOf c cipher value s) as [r|] eqn:Hr; [|done].
  destruct (maxTextBytes <? _); [done|]. apply IH in H as (reps & Hf & ->). exists (r :: reps). split; [by constructor|]. cbn [zip zip_with splice].
  by rewrite <- !app_assoc.
Qed.

(** * The two guarantees *)

(** The tokens already in the text, as the cipher finds them. *)
Definition protectedBy (value : bytes) (cipher : option TokenCipher) : option (list tokenSpan) :=
  match cipher with None => Some [] | Some k => authenticatedTokenSpans value k end.

Definition insideProtected (protected : list tokenSpan) (s : textMatch) : bool :=
  (protectedMatch protected (tm_start s) (tm_end s)).1.

Lemma ruleMatch_ok c value s : ruleMatch 0 c value s -> spanOk (blen value) s.
Proof. intros (i & r & p & _ & _ & Hne & H%find_in_range). unfold spanOk. lia. Qed.

Lemma ruleMatch_rule c value s : ruleMatch 0 c value s -> 0 <= tm_rule s < Z.of_nat (length c).
Proof. intros (i & r & p & Hi%lookup_lt_Some & Hr & _). lia. Qed.

Lemma rewriteText_spec c value cipher protected out :
  rewriteText c value cipher protected = Some out ->
  exists merged reps, Z.of_nat (length merged) <= 65536 /\ ordered 0 (blen value) merged
    /\ Forall (fun s => 0 <= tm_rule s < Z.of_nat (length c)) merged
    /\ Forall2 (fun s r => replacementOf c cipher value s = Some r) merged reps
    /\ out = splice 0 value (zip merged reps)
    /\ (forall x, spanCovered x merged <->
          exists s, ruleMatch 0 c value s /\ insideProtected protected s = false /\ inSpan x s)
    /\ forall s, ruleMatch 0 c value s -> (protectedMatch protected (tm_start s) (tm_end s)).2 = false.
Proof.
  unfold rewriteText. destruct (collectMatches _ _ _ _ _) as [spans|] eqn:Hc; [|done].
  apply collectMatches_spec in Hc as [Hlen Hc]; [|done]. setoid_rewrite elem_of_nil in Hc.
  destruct (filterProtected protected spans) as [kept|] eqn:Hf; [|done].
  apply filterProtected_spec in Hf as (Hlen' & Hcr & Hk).
  assert (forall s, s ∈ kept <-> ruleMatch 0 c value s /\ insideProtected protected s = false) as Hkept.
  { intros s. rewrite Hk, Hc. unfold insideProtected. tauto. }
  assert (forall s, ruleMatch 0 c value s -> (protectedMatch protected (tm_start s) (tm_end s)).2 = false) as Hcross.
  { intros s Hs. apply Hcr, Hc. by right. }
  assert (forall x, spanCovered x kept <-> exists s, ruleMatch 0 c value s /\ insideProtected protected s = false /\ inSpan x s) as Hcov.
  { intros x. unfold spanCovered. setoid_rewrite Hkept. naive_solver. }
  assert (Forall (spanOk (blen value)) kept) as Hok.
  { apply Forall_forall. intros s [Hs _]%Hkept. by apply ruleMatch_ok in Hs. }
  assert (Forall (fun s => 0 <= tm_rule s < Z.of_nat (length c)) kept) as Hrule.
  { apply Forall_forall. intros s [Hs _]%Hkept. by apply ruleMatch_rule in Hs. }
  destruct kept as [|k0 kept]; [intros [= <-]; exists [], []; split_and!; cbn; try done; apply blen_nonneg|].
  destruct (mergeSpans_spec (blen value) (k0 :: kept) (blen_nonneg _) Hok) as [Ho Hm].
  set (merged := mergeSpans _) in *. destruct (_ || _); [done|]. intros (reps & Hr & ->)%writeSpans_spec.
  exists merged, reps. split; [|split; [done|split; [|split; [done|split; [done|split; [|done]]]]]].
  - subst merged. pose proof (mergeSpans_length (merge_sort matchLe (k0 :: kept))) as Hl.
    pose proof (Permutation_length (merge_sort_Permutation matchLe (k0 :: kept))). lia.
  - by apply (mergeSpans_rule (fun z => 0 <= z < Z.of_nat (length c))).
  - intros x. by rewrite Hm, Hcov.
Qed.

Lemma TextWithCipher_rewrite c value cipher out : TextWithCipher c value cipher = Some out -> c <> [] ->
  exists protected, protectedBy value cipher = Some protected /\ rewriteText c value cipher protected = Some out.
Proof.
  unfold TextWithCipher, protectedBy. destruct c; [done|]. cbn [Empty]. intros H _.
  destruct cipher as [k|]; [|by exists []]. destruct (authenticatedTokenSpans value k) as [pr|]; [|done]. by exists pr.
Qed.

(** ** Texts without tokens *)

Lemma plain_app l r : plainText (l ++ r) -> plainText l /\ plainText r.
Proof.
  unfold plainText, Index. intros H. split.
  - revert H. generalize 0 as i. induction l as [|c l IH]; intros i H; [done|].
    cbn [app] in H. apply indexFrom_none_tail in H as [Hp H]. cbn [indexFrom].
    destruct (hasPrefixBytes redactionTokenPrefix (c :: l)) eqn:E; [|by apply IH].
    apply hasPrefixBytes_spec in E as [t Ht]. exfalso. apply not_true_iff_false in Hp. apply Hp.
    apply hasPrefixBytes_spec. exists (t ++ r). rewrite app_assoc, <- Ht. done.
  - revert H. generalize 0 at 1 as i. induction l as [|c l IH]; intros i H; cbn [app] in H.
    + by eapply indexFrom_none_shift.
    + apply indexFrom_none_tail in H as [_ H]. by eapply IH.
Qed.

Lemma plain_dropZ i l : plainText l -> plainText (dropZ i l).
Proof. intros H. rewrite <- (take_drop (Z.to_nat i) l) in H. by apply plain_app in H as [_ H]. Qed.

Lemma plain_slice i j l : plainText l -> plainText (slice i j l).
Proof.
  intros H%(plain_dropZ i). unfold slice. rewrite <- (take_drop (Z.to_nat (j - i)) (dropZ i l)) in H.
  by apply plain_app in H as [H _].
Qed.

Lemma splice_restored `{siv : AESSIV} `{!AESSIVLaws siv} value pos merged reps :
  plainText value -> 0 <= pos -> ordered pos (blen value) merged ->
  Forall2 (fun s r => EncryptToken (slice (tm_start s) (tm_end s) value) = Some r) merged reps ->
  let ps := pieces (splice pos value (zip merged reps)) in
  restored ps = dropZ pos value /\ countPieces isCandidate ps = Z.of_nat (length merged) /\ countPieces isKept ps = 0.
Proof.
  intros Hv Hpos Ho Hf. revert pos Hpos Ho. induction Hf as [|s r merged reps Hr Hf IH]; intros pos Hpos Ho.
  - cbn [zip zip_with splice ordered] in *. destruct (index_none 0 (dropZ pos value)) as [H1 H2]; [by apply plain_dropZ|].
    by rewrite H1, !H2.
  - cbn [zip zip_with splice ordered] in *. destruct Ho as (H1 & H2 & Ho).
    destruct (IH (tm_end s) ltac:(lia) Ho) as (R1 & R2 & R3).
    destruct (restored_plain_token (slice pos (tm_start s) value) (slice (tm_start s) (tm_end s) value) r
      (splice (tm_end s) value (zip merged reps)))
      as [E1 E2]; [by apply plain_slice|done|].
    rewrite E1, !E2, R2, R3 by done. cbn [isCandidate isKept length]. split; [|lia].
    by rewrite R1, !slice_rest by lia.
Qed.

Lemma authenticated_plain value k : plainText value -> authenticatedTokenSpans value k = Some [].
Proof.
  intros H. unfold authenticatedTokenSpans. cbn [tokenSpansLoop]. destruct (negb _); [done|].
  change (dropZ 0 value) with value. unfold plainText in H. by rewrite H.
Qed.


Lemma encrypted_replacements (siv : AESSIV) (c : list (RedactRule * regexp)) value merged reps :
  Forall (fun r => isEncrypt (fst r) = true) c ->
  Forall (fun s => 0 <= tm_rule s < Z.of_nat (length c)) merged ->
  Forall2 (fun s r => replacementOf c (Some (redactionCipher siv)) value s = Some r) merged reps ->
  Forall2 (fun s r => EncryptToken (slice (tm_start s) (tm_end s) value) = Some r) merged reps.
Proof.
  intros Hc Hrule Hf. induction Hf as [|s r merged reps Hr Hf IH]; [constructor|].
  apply Forall_cons in Hrule as [Hs Hrule]. constructor; [|by apply IH].
  unfold replacementOf in Hr. assert (isEncrypt (ruleAt c (tm_rule s)) = true) as He; [|by rewrite He in Hr].
  unfold ruleAt. destruct (lookup_lt_is_Some_2 c (Z.to_nat (tm_rule s)) ltac:(lia)) as [[r0 p0] Hi].
  rewrite (nth_lookup_Some _ _ _ r0) by (by rewrite list_lookup_fmap, Hi).
  by apply (Forall_lookup_1 _ _ _ _ Hc) in Hi.
Qed.

(** Encrypting rules only, and a text with no token prefix of its own: [RestoreText] gives the
    original back, byte for byte, and leaves no candidate over. *)
Lemma encrypted_restored (siv : AESSIV) (Hsiv : AESSIVLaws siv) (c : list (RedactRule * regexp)) (value out : bytes) :
  plainText value -> Forall (fun r => isEncrypt (fst r) = true) c ->
  TextWithCipher c value (Some (redactionCipher siv)) = Some out ->
  RestoreText out = (Ok value, 0).
Proof.
  intros Hv Hc H. assert (exists merged reps, Z.of_nat (length merged) <= 65536 /\ ordered 0 (blen value) merged
    /\ Forall2 (fun s r => EncryptToken (slice (tm_start s) (tm_end s) value) = Some r) merged reps
    /\ out = splice 0 value (zip merged reps)) as (merged & reps & Hlen & Ho & Hf & ->).
  { destruct (decide (c = [])) as [->|Hne].
    { injection H as <-. exists [], []. split_and!; [done|apply blen_nonneg|constructor|done]. }
    apply TextWithCipher_rewrite in H as (protected & _ & H); [|done].
    apply rewriteText_spec in H as (merged & reps & ? & ? & Hrule & Hf & ? & _).
    exists merged, reps. split_and!; try done. by apply (encrypted_replacements siv c). }
  destruct (splice_restored value 0 merged reps) as (H1 & H2 & H3); [done|done|done|done|].
  pose proof (RestoreText_spec (splice 0 value (zip merged reps))) as Hr. cbv zeta in Hr.
  destruct (RestoreText _) as [[res|e] n].
  - destruct Hr as (_ & -> & ->). by rewrite H1, H3.
  - destruct Hr as [_ Hr]. rewrite H2 in Hr. unfold maxRedactionTokensPerText in Hr. lia.
Qed.


(** C27: The text sent upstream is the original with disjoint spans replaced: the spans cover every
    byte of every match that lies in no token already in the text, and no other byte; a match
    is either inside such a token, which stays, or away from all of them. *)
Theorem redaction_exact (siv : AESSIV) (c : list (RedactRule * regexp)) (value out : bytes) :
  c <> [] -> TextWithCipher c value (Some (redactionCipher siv)) = Some out ->
  exists protected merged reps,
    spansOrdered 0 (blen value) protected /\ Forall (tokenAt siv value) protected
    /\ ordered 0 (blen value) merged
    /\ Forall2 (fun s r => replacementOf c (Some (redactionCipher siv)) value s = Some r) merged reps
    /\ out = splice 0 value (zip merged reps)
    /\ (forall s, ruleMatch 0 c value s ->
          insideToken protected (tm_start s) (tm_end s)
          \/ awayFromTokens protected (tm_start s) (tm_end s) /\ forall x, inSpan x s -> spanCovered x merged)
    /\ (forall x, spanCovered x merged -> exists s, ruleMatch 0 c value s /\ inSpan x s
          /\ awayFromTokens protected (tm_start s) (tm_end s)).
Proof.
  intros Hne H. apply TextWithCipher_rewrite in H as (protected & Hp & H); [|done].
  destruct (authenticatedTokenSpans_spec siv value protected Hp) as [Ho Hv].
  apply rewriteText_spec in H as (merged & reps & _ & Hm & _ & Hf & -> & Hcov & Hcross).
  exists protected, merged, reps. split_and!; try done.
  - intros s Hs. pose proof (ruleMatch_ok c value s Hs) as [Hr _]. specialize (Hcross s Hs).
    pose proof (protectedMatch_spec 0 (blen value) protected (tm_start s) (tm_end s) Ho ltac:(lia)) as Hspec.
    specialize (fun x => proj2 (Hcov x)). intros Hc. unfold insideProtected in Hc.
    destruct (protectedMatch _ _ _) as [[] []] eqn:E; cbn in Hcross; try done; [by left|right].
    split; [done|]. intros x Hx. apply Hc. exists s. by rewrite E.
  - intros x (s & Hs & Hin & Hx)%Hcov. exists s. split; [done|]. split; [done|].
    pose proof (ruleMatch_ok c value s Hs) as [Hr _]. specialize (Hcross s Hs). unfold insideProtected in Hin.
    pose proof (protectedMatch_spec 0 (blen value) protected (tm_start s) (tm_end s) Ho ltac:(lia)) as Hspec.
    by destruct (protectedMatch _ _ _) as [[] []].
Qed.

End Rewrite.
