(* ===== verification/RedactStream.v ===== *)
(** The streaming restoration of [internal/gateway/redaction_restore_token_stream.go]: a
    redaction token may arrive in any number of fragments; [redactionTokenStream] holds back
    only what may still become one. *)
From Stdlib Require Import Ascii.
From S2P Require Import Prelude GoStrings RedactToken RedactTokenSpec RedactRestore RedactText RedactTextProps.

Local Open Scope Z_scope.

(** * [json.Marshal] of a string, without its quotes *)

Definition hexDigit (n : Z) : ascii := if n <? 10 then byteOf (48 + n) else byteOf (87 + n).

Definition escapeASCII (c : ascii) : bytes :=
  let b := byteZ c in
  if (b =? 34) || (b =? 92) then [byteOf 92; c]
  else if b =? 8 then bytes_of "\b" else if b =? 12 then bytes_of "\f" else if b =? 10 then bytes_of "\n"
  else if b =? 13 then bytes_of "\r" else if b =? 9 then bytes_of "\t"
  else if (b <? 32) || (b =? 60) || (b =? 62) || (b =? 38)
  then bytes_of "\u00" ++ [hexDigit (b / 16); hexDigit (b `mod` 16)]
  else [c].

(** [skip] bytes of the current rune are left; an invalid byte becomes U+FFFD, the line and
    paragraph separators are escaped. *)
Fixpoint escapeFrom (skip : nat) (l : bytes) : bytes :=
  match l with
  | [] => []
  | c :: l' =>
      match skip with
      | S n => c :: escapeFrom n l'
      | O =>
          if byteZ c <? 128 then escapeASCII c ++ escapeFrom 0 l'
          else
            match runeWidth l with
            | 1%nat => bytes_of "\ufffd" ++ escapeFrom 0 l'
            | w =>
                match l' with
                | b :: d :: l'' =>
                    if (byteZ c =? 226) && (byteZ b =? 128) && ((byteZ d =? 168) || (byteZ d =? 169))
                    then bytes_of "\u202" ++ [hexDigit (byteZ d - 160)] ++ escapeFrom 0 l''
                    else c :: escapeFrom (w - 1) l'
                | _ => c :: escapeFrom (w - 1) l'
                end
            end
      end
  end.
Definition jsonEscape (l : bytes) : bytes := escapeFrom 0 l.

(** * The state of one text *)

Definition maxRedactionStreamPendingBytes : Z := 33554432.

Record redactionTokenStream := mkStream {
  st_raw : bytes;
  st_decoded : bytes;
  st_prefix : Z;
  st_digits : Z;
  st_length : Z;
  st_remaining : Z;
  st_leadingZero : bool;
  st_oversize : bool;
  st_body : bool;
  st_changed : bool;
  st_limit : Z
}.

Definition streamPending (t : redactionTokenStream) : bool := match st_raw t with [] => false | _ => true end.

Definition reset (t : redactionTokenStream) : redactionTokenStream :=
  mkStream [] [] 0 0 0 0 false false false (st_changed t) (st_limit t).

Definition newStream : redactionTokenStream := mkStream [] [] 0 0 0 0 false false false false 0.

Definition setText (raw decoded : bytes) (t : redactionTokenStream) : redactionTokenStream :=
  mkStream raw decoded (st_prefix t) (st_digits t) (st_length t) (st_remaining t) (st_leadingZero t) (st_oversize t)
    (st_body t) (st_changed t) (st_limit t).

Definition limitOf (t : redactionTokenStream) : Z :=
  if st_limit t =? 0 then maxRedactionStreamPendingBytes else st_limit t.

(** [append]; [None] is [errRedactionStream]. *)
Definition append (raw decoded : bytes) (t : redactionTokenStream) : option redactionTokenStream :=
  if limitOf t - blen (st_raw t) <? blen raw then None
  else Some (setText (st_raw t ++ raw) (st_decoded t ++ decoded) t).

Definition setPrefix (n : Z) (t : redactionTokenStream) : redactionTokenStream :=
  mkStream (st_raw t) (st_decoded t) n (st_digits t) (st_length t) (st_remaining t) (st_leadingZero t) (st_oversize t)
    (st_body t) (st_changed t) (st_limit t).

Definition startBody (t : redactionTokenStream) : redactionTokenStream :=
  mkStream (st_raw t) (st_decoded t) (st_prefix t) (st_digits t) (st_length t) (st_length t) (st_leadingZero t)
    (st_oversize t) true (st_changed t) (st_limit t).

Definition setRemaining (n : Z) (t : redactionTokenStream) : redactionTokenStream :=
  mkStream (st_raw t) (st_decoded t) (st_prefix t) (st_digits t) (st_length t) n (st_leadingZero t) (st_oversize t)
    (st_body t) (st_changed t) (st_limit t).

Definition setChanged (t : redactionTokenStream) : redactionTokenStream :=
  mkStream (st_raw t) (st_decoded t) (st_prefix t) (st_digits t) (st_length t) (st_remaining t) (st_leadingZero t)
    (st_oversize t) (st_body t) true (st_limit t).

(** A digit of the length field. *)
Definition countDigit (c : ascii) (t : redactionTokenStream) : redactionTokenStream :=
  let leadingZero := if st_digits t =? 0 then byteZ c =? 48 else st_leadingZero t in
  let '(length, oversize) :=
    if st_oversize t then (st_length t, true)
    else if (maxRedactionStreamPendingBytes - digitVal c) / 10 <? st_length t then (st_length t, true)
    else (st_length t * 10 + digitVal c, false) in
  mkStream (st_raw t) (st_decoded t) (st_prefix t) (st_digits t + 1) length (st_remaining t) leadingZero oversize
    (st_body t) (st_changed t) (st_limit t).

(** The token stream and the visible output so far. *)
Abbreviation streaming := (redactionTokenStream * bytes)%type (only parsing).

Definition prefixAt (n : Z) : option ascii := redactionTokenPrefix !! Z.to_nat n.

Section Restore.
Context (restore : bytes -> option bytes).

Definition keep (t : redactionTokenStream) (out : bytes) : option streaming :=
  match restore (st_decoded t) with
  | Some restored =>
      if bool_decide (restored = st_decoded t) then Some (reset t, out ++ st_raw t) else None
  | None => None
  end.

(** The body of [pushUnit]; [again] is its recursive call. *)
Definition pushUnitBody (again : redactionTokenStream -> bytes -> bytes -> bytes -> option streaming)
    (quoted : bool) (t : redactionTokenStream) (out raw decoded : bytes) : option streaming :=
  let ch := match decoded with [c] => c | _ => byteOf 0 end in
  let single := match decoded with [_] => true | _ => false end in
  if st_prefix t <? 5 then
    if single && bool_decide (prefixAt (st_prefix t) = Some ch) then
      match append raw decoded t with
      | Some t' => Some (setPrefix (st_prefix t' + 1) t', out)
      | None => None
      end
    else if streamPending t then again (reset t) (out ++ st_raw t) raw decoded
    else Some (t, out ++ raw)
  else if negb (st_body t) then
    if isDigit ch then
      match append raw decoded (countDigit ch t) with Some t' => Some (t', out) | None => None end
    else if bool_decide (ch = underscore) && (0 <? st_digits t) then
      match append raw decoded t with
      | None => None
      | Some t' =>
          if st_oversize t' || (st_length t' =? 0) || (st_leadingZero t' && (1 <? st_digits t')) then keep t' out
          else Some (startBody t', out)
      end
    else again (reset t) (out ++ st_raw t) raw decoded
  else if negb (single && redactionBase64URLByte ch) then
    match keep t out with
    | Some (t', out') => again t' out' raw decoded
    | None => None
    end
  else
    match append raw decoded t with
    | None => None
    | Some t' =>
        let t' := setRemaining (st_remaining t' - 1) t' in
        if negb (st_remaining t' =? 0) then Some (t', out)
        else
          match restore (st_decoded t') with
          | None => None
          | Some restored =>
              if bool_decide (restored = st_decoded t') then Some (reset t', out ++ st_raw t')
              else Some (reset (setChanged t'), out ++ (if quoted then jsonEscape restored else restored))
          end
    end.

(** A recursive call follows a [reset], after which there is no other: two levels suffice
    ([pushUnit_unfold]). *)
Definition pushUnit (quoted : bool) : redactionTokenStream -> bytes -> bytes -> bytes -> option streaming :=
  pushUnitBody (pushUnitBody (fun _ _ _ _ => None) quoted) quoted.

(** How many bytes at the end of [value] may be the start of a prefix. *)
Definition hasSuffixBytes (suffix l : bytes) : bool := hasPrefixBytes (reverse suffix) (reverse l).
Fixpoint heldBack (length : nat) (value : bytes) : nat :=
  match length with
  | O => O
  | S n => if hasSuffixBytes (take length redactionTokenPrefix) value then length else heldBack n value
  end.

(** Whether the next byte continues the header of the pending candidate. *)
Definition continues (t : redactionTokenStream) (ch : ascii) : bool :=
  if st_prefix t =? 5 then isDigit ch || bool_decide (ch = underscore) && (0 <? st_digits t)
  else (st_prefix t <? 5) && bool_decide (prefixAt (st_prefix t) = Some ch).

Fixpoint pushStringLoop (fuel : nat) (quoted : bool) (t : redactionTokenStream) (out value : bytes) : option streaming :=
  match fuel, value with
  | _, [] => Some (t, out)
  | O, _ => None
  | S n, ch :: value' =>
      if streamPending t && negb (st_body t) && negb (continues t ch)
      then pushStringLoop n quoted (reset t) (out ++ st_raw t) value
      else if streamPending t then
        match pushUnit quoted t out [ch] [ch] with
        | Some (t', out') => pushStringLoop n quoted t' out' value'
        | None => None
        end
      else
        match Index value redactionTokenPrefix with
        | Some index =>
            match append redactionTokenPrefix redactionTokenPrefix t with
            | Some t' => pushStringLoop n quoted (setPrefix 5 t') (out ++ slice 0 index value) (dropZ (index + 5) value)
            | None => None
            end
        | None =>
            let cut := (length value - heldBack (Nat.min 4 (length value)) value)%nat in
            match drop cut value with
            | [] => Some (t, out ++ take cut value)
            | ch :: rest =>
                match pushUnit quoted t (out ++ take cut value) [ch] [ch] with
                | Some (t', out') => pushStringLoop n quoted t' out' rest
                | None => None
                end
            end
        end
  end.

Definition pushString (quoted : bool) (t : redactionTokenStream) (out value : bytes) : option streaming :=
  pushStringLoop (2 * length value + 1) quoted t out value.

Definition streamFinish (t : redactionTokenStream) : option streaming :=
  if st_body t then keep t [] else Some (reset t, st_raw t).

(** The fragments of one text one after the other, then its end. *)
Fixpoint pushAll (quoted : bool) (t : redactionTokenStream) (out : bytes) (chunks : list bytes) : option streaming :=
  match chunks with
  | [] => Some (t, out)
  | v :: chunks' =>
      match pushString quoted t out v with
      | Some (t', out') => pushAll quoted t' out' chunks'
      | None => None
      end
  end.

Definition streamText (quoted : bool) (t : redactionTokenStream) (chunks : list bytes) : option bytes :=
  match pushAll quoted t [] chunks with
  | Some (t', out) => match streamFinish t' with Some (_, tail) => Some (out ++ tail) | None => None end
  | None => None
  end.

End Restore.

(** * The fast path

    The fast path of the streaming restoration: pushing a string is pushing its bytes one by
    one, so the fragmentation of a text does not matter. *)

(** * The prefix has no border *)

(** [l] ends with the first [j] bytes of the prefix. *)
Definition endsWith (j : nat) (l : bytes) : Prop := exists l0, l = l0 ++ take j redactionTokenPrefix.

Lemma hasSuffix_spec s l : hasSuffixBytes s l = true <-> exists l0, l = l0 ++ s.
Proof.
  unfold hasSuffixBytes. rewrite hasPrefixBytes_spec. split.
  - intros [r Hr]. exists (reverse r). apply (f_equal reverse) in Hr. by rewrite reverse_app, !reverse_involutive in Hr.
  - intros [l0 ->]. exists (reverse l0). apply reverse_app.
Qed.

Lemma take_prefix_snoc j c : prefixAt (Z.of_nat j) = Some c ->
  take (S j) redactionTokenPrefix = take j redactionTokenPrefix ++ [c].
Proof.
  unfold prefixAt. rewrite Nat2Z.id. intros H. by apply take_S_r.
Qed.

Lemma endsWith_snoc j l c : endsWith j l -> prefixAt (Z.of_nat j) = Some c -> endsWith (S j) (l ++ [c]).
Proof. intros [l0 ->] Hc. exists l0. by rewrite (take_prefix_snoc _ _ Hc), app_assoc. Qed.

Lemma endsWith_snoc_inv j l c : (j < 5)%nat -> endsWith (S j) (l ++ [c]) -> endsWith j l /\ prefixAt (Z.of_nat j) = Some c.
Proof.
  intros Hj [l0 H]. destruct (prefixAt (Z.of_nat j)) as [d|] eqn:Hd.
  - rewrite (take_prefix_snoc _ _ Hd), app_assoc in H. apply app_inj_tail in H as [-> ->]. split; [by exists l0|done].
  - unfold prefixAt in Hd. rewrite Nat2Z.id in Hd. apply lookup_ge_None in Hd. cbn in Hd. lia.
Qed.

(** Only the first byte of the prefix is a [g], so a text ends with one start of it at most. *)
Lemma endsWith_unique i j l : (1 <= i)%nat -> (i <= j <= 5)%nat -> endsWith i l -> endsWith j l -> i = j.
Proof.
  intros Hi Hj [l0 ->] [l1 H]. destruct (decide (i = j)) as [|Hne]; [done|]. exfalso.
  apply (f_equal reverse) in H. rewrite !reverse_app in H.
  destruct i as [|[|[|[|[|i]]]]]; [lia|..]; (destruct j as [|[|[|[|[|[|j]]]]]]; try lia); cbn in H; discriminate H.
Qed.

Lemma heldBack_spec n l : (n <= 5)%nat ->
  let j := heldBack n l in (j <= n)%nat /\ endsWith j l /\ forall i, (j < i <= n)%nat -> ~ endsWith i l.
Proof.
  intros Hn. induction n as [|n IH]; cbn [heldBack].
  - split; [done|]. split; [exists l; by rewrite app_nil_r|]. lia.
  - destruct (hasSuffixBytes (take (S n) redactionTokenPrefix) l) eqn:E.
    + apply hasSuffix_spec in E. split; [done|]. split; [done|]. lia.
    + destruct IH as (H1 & H2 & H3); [lia|]. split; [lia|]. split; [done|]. intros i Hi.
      destruct (decide (i = S n)) as [->|]; [|apply H3; lia].
      intros [l0 Hl]. apply not_true_iff_false in E. apply E, hasSuffix_spec. by exists l0.
Qed.

(** The held back bytes are the longest proper start of the prefix at the end. *)
Lemma heldBack_is l j : (j <= 4)%nat -> endsWith j l -> (1 <= j)%nat \/ (forall i, (1 <= i <= 4)%nat -> ~ endsWith i l) ->
  heldBack (Nat.min 4 (length l)) l = j.
Proof.
  intros Hj He Hor. destruct (heldBack_spec (Nat.min 4 (length l)) l ltac:(lia)) as (H1 & H2 & H3).
  set (k := heldBack _ _) in *. clearbody k.
  assert (j <= length l)%nat as Hjl.
  { destruct He as [l0 ->]. rewrite length_app, length_take. cbn. lia. }
  destruct (decide (k = O)) as [->|Hk].
  - destruct (decide (j = O)) as [|Hj0]; [done|]. exfalso. apply (H3 j); [lia|done].
  - destruct Hor as [Hj1|Hno]; [|exfalso; apply (Hno k); [lia|done]].
    destruct (decide (k <= j)%nat); [apply (endsWith_unique k j l)|symmetry; apply (endsWith_unique j k l)]; done || lia.
Qed.

Lemma plain_no_prefix l : plainText l -> ~ endsWith 5 l.
Proof.
  intros Hp [l0 ->]. apply plain_app in Hp as [_ Hp]. done.
Qed.

(** * Byte by byte *)

Section Stream.
Context (restore : bytes -> option bytes) (quoted : bool).

Abbreviation push := (pushUnit restore quoted).

Lemma pushUnitBody_reset again again' t out raw decoded :
  pushUnitBody restore again quoted (reset t) out raw decoded
  = pushUnitBody restore again' quoted (reset t) out raw decoded.
Proof. reflexivity. Qed.

Lemma keep_reset t out t' out' : keep restore t out = Some (t', out') -> t' = reset t /\ out' = out ++ st_raw t.
Proof. unfold keep. repeat case_match; try done. by intros [= <- <-]. Qed.

(** [pushUnit] satisfies its recursive equation. *)
Lemma pushUnit_unfold t out raw decoded :
  push t out raw decoded = pushUnitBody restore push quoted t out raw decoded.
Proof.
  unfold pushUnit at 1, pushUnitBody at 1. unfold pushUnitBody at 4.
  repeat (match goal with |- (if ?b then _ else _) = (if ?b then _ else _) => destruct b end);
    try reflexivity.
  destruct (keep restore t out) as [[t' out']|] eqn:Hk; [|done]. apply keep_reset in Hk as [-> ->]. reflexivity.
Qed.

Fixpoint runBytes (t : redactionTokenStream) (out value : bytes) : option streaming :=
  match value with
  | [] => Some (t, out)
  | c :: v => match push t out [c] [c] with Some (t', out') => runBytes t' out' v | None => None end
  end.

Lemma run_app t out v w :
  runBytes t out (v ++ w) = match runBytes t out v with Some (t', out') => runBytes t' out' w | None => None end.
Proof.
  revert t out. induction v as [|c v IH]; intros t out; cbn [app runBytes]; [done|].
  destruct (push t out [c] [c]) as [[t' out']|]; [apply IH|done].
Qed.

(** A candidate whose header the next byte does not continue is released. *)
Lemma push_flush t out c : streamPending t = true -> st_body t = false -> 0 <= st_prefix t <= 5 -> continues t c = false ->
  push t out [c] [c] = push (reset t) (out ++ st_raw t) [c] [c].
Proof.
  intros Hp Hb Hr Hc. rewrite (pushUnit_unfold t). unfold pushUnitBody at 1. rewrite Hp, Hb. cbn [negb andb].
  unfold continues in Hc. destruct (Z.eqb_spec (st_prefix t) 5) as [E|E].
  - rewrite E. cbn [Z.ltb Z.compare Pos.compare Pos.compare_cont]. apply orb_false_iff in Hc as [-> ->]. done.
  - rewrite (proj2 (Z.ltb_lt (st_prefix t) 5)) in * by lia. cbn [andb] in Hc. by rewrite Hc.
Qed.

(** The state after the first [j] bytes of a prefix. *)
Definition pre (changed : bool) (limit : Z) (j : nat) : redactionTokenStream :=
  mkStream (take j redactionTokenPrefix) (take j redactionTokenPrefix) (Z.of_nat j) 0 0 0 false false false changed limit.

Lemma reset_pre t : reset t = pre (st_changed t) (st_limit t) 0.
Proof. done. Qed.

Section Limit.
Context (changed : bool) (limit : Z).
Hypothesis Hlimit : 5 <= limitOf (pre changed limit 0).

Lemma pre_match j c out : (j < 5)%nat -> prefixAt (Z.of_nat j) = Some c ->
  push (pre changed limit j) out [c] [c] = Some (pre changed limit (S j), out).
Proof.
  intros Hj Hc. rewrite pushUnit_unfold. unfold pushUnitBody. cbn [st_prefix pre].
  rewrite (proj2 (Z.ltb_lt _ _)), Hc by lia. rewrite bool_decide_true by done. cbn [andb].
  unfold append. cbn [st_raw pre]. change (limitOf (pre changed limit j)) with (limitOf (pre changed limit 0)).
  rewrite (proj2 (Z.ltb_ge _ _)); cycle 1.
  { unfold blen. rewrite length_take. cbn [length redactionTokenPrefix bytes_of String.list_ascii_of_string]. lia. }
  cbn [st_decoded pre]. rewrite <- (take_prefix_snoc _ _ Hc). unfold setPrefix, setText, pre. cbn.
  do 3 f_equal. lia.
Qed.

Lemma pre_other c out : c <> "g"%char -> push (pre changed limit 0) out [c] [c] = Some (pre changed limit 0, out ++ [c]).
Proof.
  intros Hc. rewrite pushUnit_unfold. unfold pushUnitBody. cbn [st_prefix pre Z.of_nat Z.ltb Z.compare].
  rewrite bool_decide_false; [done|]. cbn. by intros [= <-].
Qed.

(** A byte that does not continue the prefix: the held bytes go out. *)
Lemma pre_mismatch j c out : (1 <= j < 5)%nat -> prefixAt (Z.of_nat j) <> Some c ->
  push (pre changed limit j) out [c] [c] = push (pre changed limit 0) (out ++ take j redactionTokenPrefix) [c] [c].
Proof.
  intros Hj Hc. apply push_flush; [|done|cbn; lia|].
  - destruct j as [|j]; [lia|done].
  - unfold continues. cbn [st_prefix pre]. rewrite (proj2 (Z.eqb_neq _ _)), (proj2 (Z.ltb_lt _ _)) by lia.
    by rewrite bool_decide_false.
Qed.

(** From the idle state, a text without the prefix goes out up to the start of one at its end. *)
Lemma idle_run l out : plainText l -> exists j l0, (j <= 4)%nat /\ l = l0 ++ take j redactionTokenPrefix
  /\ ((1 <= j)%nat \/ forall i, (1 <= i <= 4)%nat -> ~ endsWith i l)
  /\ runBytes (pre changed limit 0) out l = Some (pre changed limit j, out ++ l0).
Proof.
  induction l as [|c l IH] using rev_ind; intros Hp.
  - exists 0%nat, []. split; [lia|]. split; [done|]. cbn. rewrite app_nil_r. split; [|done]. right. intros i Hi [l0 H].
    symmetry in H. apply app_eq_nil in H as [_ H]. destruct i; [lia|done].
  - apply plain_app in Hp as Hpl. destruct Hpl as [Hpl _].
    destruct (IH Hpl) as (j & l0 & Hj & Hl & Hor & Hrun). rewrite run_app, Hrun. cbn [runBytes].
    destruct (decide (prefixAt (Z.of_nat j) = Some c)) as [Hc|Hc].
    + rewrite pre_match by (done || lia). assert (endsWith (S j) (l ++ [c])) as He.
      { apply endsWith_snoc; [by exists l0|done]. }
      exists (S j), l0. split; [|split; [|split; [left; lia|done]]].
      * destruct (decide (j = 4%nat)) as [->|]; [|lia]. exfalso. by apply (plain_no_prefix (l ++ [c])).
      * rewrite (take_prefix_snoc _ _ Hc), app_assoc. congruence.
    + assert (push (pre changed limit j) (out ++ l0) [c] [c] = push (pre changed limit 0) (out ++ l) [c] [c]) as ->.
      { destruct j as [|j]; [by rewrite Hl, app_nil_r|]. rewrite pre_mismatch by (done || lia). by rewrite Hl, app_assoc. }
      assert (forall i, (1 <= i <= 4)%nat -> endsWith (S i) (l ++ [c]) -> False) as Hno.
      { intros i Hi [He Hci]%endsWith_snoc_inv; [|lia]. destruct Hor as [Hj1|Hno]; [|by apply (Hno i)].
        assert (i = j) as ->; [|done].
        assert (endsWith j l) by (by exists l0).
        destruct (decide (i <= j)%nat); [apply (endsWith_unique i j l)|symmetry; apply (endsWith_unique j i l)]; done || lia. }
      destruct (decide (c = "g"%char)) as [->|Hg].
      * rewrite pre_match by (done || lia). exists 1%nat, l. split; [lia|]. split; [done|]. split; [left; lia|done].
      * rewrite pre_other by done. exists 0%nat, (l ++ [c]). split; [lia|]. split; [by rewrite app_nil_r|].
        split; [right|by rewrite app_assoc]. intros i Hi He. destruct i as [|[|i]]; [lia| |by apply (Hno (S i)); [lia|]].
        apply endsWith_snoc_inv in He as [_ He]; [|lia]. cbn in He. by injection He as <-.
Qed.

(** The start of a prefix, byte by byte. *)
Lemma run_take_prefix j out : (j <= 5)%nat ->
  runBytes (pre changed limit 0) out (take j redactionTokenPrefix) = Some (pre changed limit j, out).
Proof.
  induction j as [|j IH]; intros Hj; [done|].
  destruct (prefixAt (Z.of_nat j)) as [c|] eqn:Hc; cycle 1.
  { unfold prefixAt in Hc. rewrite Nat2Z.id in Hc. apply lookup_ge_None in Hc. cbn in Hc. lia. }
  rewrite (take_prefix_snoc _ _ Hc), run_app, IH by lia. cbn [runBytes]. by rewrite pre_match by (done || lia).
Qed.

Lemma prefixAt_g j : (1 <= j <= 4)%nat -> prefixAt (Z.of_nat j) <> Some "g"%char.
Proof. intros Hj. destruct j as [|[|[|[|[|j]]]]]; [lia|done..|lia]. Qed.

(** A text up to its first prefix. *)
Lemma run_to_prefix l out : plainText l ->
  runBytes (pre changed limit 0) out (l ++ redactionTokenPrefix) = Some (pre changed limit 5, out ++ l).
Proof.
  intros Hp. destruct (idle_run l out Hp) as (j & l0 & Hj & Hl & _ & Hrun). rewrite run_app, Hrun.
  rewrite <- (run_take_prefix 5 (out ++ l)) by done.
  change redactionTokenPrefix with ("g"%char :: drop 1 redactionTokenPrefix). cbn [runBytes take].
  destruct j as [|j]; [by rewrite Hl, app_nil_r|].
  rewrite pre_mismatch by (lia || (apply prefixAt_g; lia)). by rewrite Hl, app_assoc.
Qed.

End Limit.

(** * Fragments *)

Record streamOk (t : redactionTokenStream) : Prop := {
  ok_limit : 5 <= limitOf t;
  ok_idle : streamPending t = false -> t = reset t;
  ok_prefix : 0 <= st_prefix t <= 5
}.

Lemma streamOk_reset t : streamOk t -> streamOk (reset t).
Proof. intros [? ? ?]. split; [done|done|cbn; lia]. Qed.

Lemma append_ok raw decoded t t' : append raw decoded t = Some t' -> raw <> [] ->
  streamPending t' = true /\ limitOf t' = limitOf t /\ st_prefix t' = st_prefix t /\ st_raw t' = st_raw t ++ raw.
Proof.
  unfold append. case_if; [done|]. intros Ht%(inj Some) Hr. subst t'. split; [|done]. unfold streamPending. cbn.
  destruct (st_raw t); [by destruct raw|done].
Qed.

Lemma streamOk_pending t u : streamOk t -> limitOf u = limitOf t -> streamPending u = true -> 0 <= st_prefix u <= 5 -> streamOk u.
Proof. intros [? ? ?] ? ? ?. split; [lia|congruence|done]. Qed.

Lemma keep_ok t out t' out' : streamOk t -> keep restore t out = Some (t', out') -> streamOk t'.
Proof. intros Hok [-> _]%keep_reset. by apply streamOk_reset. Qed.

Lemma pushUnitBody_ok again t out c t' out' :
  (forall u o u' o', streamOk u -> again u o [c] [c] = Some (u', o') -> streamOk u') ->
  streamOk t -> pushUnitBody restore again quoted t out [c] [c] = Some (t', out') -> streamOk t'.
Proof.
  intros Hag Hok. pose proof (streamOk_reset t Hok) as Hreset. pose proof (ok_prefix t Hok) as Hp.
  assert (forall u u', limitOf u = limitOf t -> st_prefix u = st_prefix t -> append [c] [c] u = Some u' -> streamOk u') as Happ.
  { intros u u' E1 E2 (E3 & E4 & E5 & _)%append_ok; [|done].
    apply (streamOk_pending t); [done|congruence|done|rewrite E5, E2; done]. }
  unfold pushUnitBody. cbn [andb]. destruct (Z.ltb_spec (st_prefix t) 5) as [Hlt|Hge].
  - destruct (bool_decide _).
    + destruct (append _ _ t) as [u|] eqn:Ha; [|done]. intros [= <- <-]. apply append_ok in Ha as (E1 & E2 & E3 & _); [|done].
      apply (streamOk_pending t); [done|done|done|cbn; lia].
    + destruct (streamPending t); [by apply Hag|]. by intros [= <- <-].
  - destruct (negb (st_body t)).
    + destruct (isDigit c).
      { destruct (append _ _ _) as [u|] eqn:Ha; [|done]. intros [= <- <-].
        apply Happ in Ha; [done|unfold countDigit; by repeat case_match..]. }
      destruct (_ && _); [|by apply Hag]. destruct (append _ _ _) as [u|] eqn:Ha; [|done]. apply Happ in Ha as Hu; [|done..].
      destruct (_ || _); [intros Hk; by apply (keep_ok u out t' out')|]. intros [= <- <-]. apply append_ok in Ha as (E1 & E2 & E3 & _); [|done].
      apply (streamOk_pending u); [done|done|done|cbn; lia].
    + destruct (negb _).
      { destruct (keep restore t out) as [[u o]|] eqn:Hk; [|done]. apply Hag, (keep_ok t out u o Hok Hk). }
      destruct (append _ _ _) as [u|] eqn:Ha; [|done]. apply Happ in Ha as Hu; [|done..].
      apply append_ok in Ha as (E1 & E2 & E3 & _); [|done].
      assert (streamOk (setRemaining (st_remaining u - 1) u)) as Hr by (apply (streamOk_pending u); done || (cbn; lia)).
      destruct (negb _); [by intros [= <- <-]|]. destruct (restore _); [|done].
      case_bool_decide; intros [= <- <-]; apply streamOk_reset; [done|].
      apply (streamOk_pending u); done || (cbn; lia).
Qed.

Lemma push_ok t out c t' out' : streamOk t -> push t out [c] [c] = Some (t', out') -> streamOk t'.
Proof.
  apply pushUnitBody_ok. intros u o u' o'. by apply pushUnitBody_ok.
Qed.

Lemma index_first i s j : indexFrom i redactionTokenPrefix s = Some j ->
  i <= j /\ indexFrom i redactionTokenPrefix (take (Z.to_nat (j - i)) s) = None
  /\ s = take (Z.to_nat (j - i)) s ++ redactionTokenPrefix ++ drop (Z.to_nat (j - i) + 5) s.
Proof.
  revert i. induction s as [|c s IH]; intros i H; cbn [indexFrom] in H; [done|].
  destruct (hasPrefixBytes _ _) eqn:Hp.
  - injection H as <-. rewrite Z.sub_diag. split; [lia|]. split; [done|]. by apply prefix_split in Hp.
  - apply IH in H as (Hij & Hn & Hs). replace (Z.to_nat (j - i)) with (S (Z.to_nat (j - (i + 1)))) by lia.
    cbn [take]. split; [lia|]. split; [|exact (f_equal (cons c) Hs)]. cbn [indexFrom].
    destruct (hasPrefixBytes redactionTokenPrefix (c :: take _ s)) eqn:E; [|done].
    apply hasPrefixBytes_spec in E as [r Hr]. exfalso. apply not_true_iff_false in Hp. apply Hp, hasPrefixBytes_spec.
    exists (r ++ drop (Z.to_nat (j - (i + 1))) s). rewrite app_assoc, <- Hr. cbn. by rewrite take_drop.
Qed.

Lemma Index_first v k : Index v redactionTokenPrefix = Some k ->
  0 <= k /\ plainText (slice 0 k v) /\ v = slice 0 k v ++ redactionTokenPrefix ++ dropZ (k + 5) v.
Proof.
  unfold Index. intros H. apply index_first in H as (Hk & Hn & Hv). rewrite Z.sub_0_r in *.
  unfold slice, plainText, Index. rewrite Z.sub_0_r. change (dropZ 0 v) with v. split; [done|]. split; [done|].
  unfold dropZ. replace (Z.to_nat (k + 5)) with (Z.to_nat k + 5)%nat by lia. done.
Qed.

Lemma idle_is_pre t : streamOk t -> streamPending t = false -> t = pre (st_changed t) (st_limit t) 0.
Proof. intros Hok Hp. by apply ok_idle in Hp. Qed.

(** The bulk path emits and holds back what the bytes one by one would. *)
Lemma pushStringLoop_run fuel t out v :
  streamOk t -> (2 * length v + (if streamPending t then 1 else 0) <= fuel)%nat ->
  pushStringLoop restore fuel quoted t out v = runBytes t out v.
Proof.
  revert t out v. induction fuel as [|n IH]; intros t out v Hok Hf.
  { destruct v; [done|cbn in Hf; lia]. }
  destruct v as [|c v]; [done|]. cbn [pushStringLoop length] in *.
  destruct (streamPending t) eqn:Hp; cbn [andb].
  - destruct (negb (st_body t) && negb (continues t c)) eqn:Hfl.
    + apply andb_true_iff in Hfl as [Hb%negb_true_iff Hc%negb_true_iff].
      rewrite IH; [|by apply streamOk_reset|cbn; lia]. cbn [runBytes]. by rewrite (push_flush t) by (done || apply Hok).
    + cbn [runBytes]. destruct (push t out [c] [c]) as [[t' out']|] eqn:Hs; [|done].
      apply IH; [by eapply push_ok|destruct (streamPending t'); lia].
  - pose proof (idle_is_pre t Hok Hp) as Ht. pose proof (ok_limit t Hok) as Hlim. rewrite Ht in Hlim |- *.
    set (ch := st_changed t) in *. set (lim := st_limit t) in *.
    destruct (Index (c :: v) redactionTokenPrefix) as [k|] eqn:Hi.
    + apply Index_first in Hi as (Hk & Hplain & Hv). unfold append. rewrite (proj2 (Z.ltb_ge _ _))
        by (change (blen (st_raw (pre ch lim 0))) with 0; change (blen redactionTokenPrefix) with 5; lia).
      rewrite Hv at 3. rewrite (app_assoc (slice 0 k (c :: v))), run_app, run_to_prefix by done.
      change (setPrefix 5 _) with (pre ch lim 5). rewrite IH; [done| |].
      * split; [done|done|cbn; lia].
      * apply (f_equal (@length ascii)) in Hv. rewrite !length_app in Hv. cbn [length] in Hv.
        change (length redactionTokenPrefix) with 5%nat in Hv. cbn [streamPending pre st_raw]. cbn. lia.
    + destruct (idle_run ch lim Hlim (c :: v) out Hi) as (j & l0 & Hj & Hl & Hor & Hrun). rewrite Hrun.
      change (S (length v)) with (length (c :: v)). rewrite (heldBack_is (c :: v) j) by (done || by exists l0).
      assert (length (c :: v) - j = length l0)%nat as Hcut.
      { rewrite Hl, length_app, length_take. cbn [length redactionTokenPrefix bytes_of String.list_ascii_of_string]. lia. }
      rewrite Hcut, Hl, drop_app_length, take_app_length.
      destruct j as [|j]; [by cbn|]. pose proof (run_take_prefix ch lim Hlim (S j) (out ++ l0) ltac:(lia)) as Hrt.
      change (take (S j) redactionTokenPrefix) with ("g"%char :: take j (drop 1 redactionTokenPrefix)) in *.
      cbn [runBytes] in Hrt. rewrite (pre_match ch lim Hlim 0 "g"%char) in Hrt by (done || lia).
      cbv iota. rewrite (pre_match ch lim Hlim 0 "g"%char) by (done || lia). rewrite IH; [done|split; [done|done|cbn; lia]|].
      apply (f_equal (@length ascii)) in Hl. rewrite length_app in Hl. cbn [length] in Hl. change (streamPending (pre ch lim 1)) with true. cbv iota. lia.
Qed.
End Stream.
