(* ===== verification/RedactStreamSpec.v ===== *)
(** Streaming restores what [RestoreText] restores: for every fragmentation of a text, the
    visible output is the text with its tokens replaced. *)
From S2P Require Import Prelude GoStrings RedactToken RedactTokenSpec RedactRestore RedactText RedactTextProps RedactStream.
From Stdlib Require Import Ascii.

Local Open Scope Z_scope.

Section Spec.
Context {siv : AESSIV} (quoted : bool).

(** [RestoreText] as the gateway passes it: a failure is an error. *)
Definition restoreText (t : bytes) : option bytes :=
  match RestoreText t with (Ok out, _) => Some out | (Err _, _) => None end.

Abbreviation push := (pushUnit restoreText quoted).
Abbreviation runs := (runBytes restoreText quoted).

(** How a piece shows in the output: inside a JSON string a plaintext is escaped. *)
Definition renderOf (p : piece) : bytes :=
  match p with
  | Plain r | Kept r => r
  | Token r t => if bool_decide (t = r) then r else if quoted then jsonEscape t else t
  end.
Definition rendered (ps : list piece) : bytes := concat (renderOf <$> ps).

(** The stream parser waits for bodies of up to 32 MiB, [RestoreText] only for those of tokens
    that [EncryptToken] can make; between the two bounds they disagree. *)
Definition gapFree (p : piece) : Prop :=
  match p with
  | Kept r => let n := digitsVal (digitsOf (drop 5 r)) in n <= maxEncodedLen \/ maxRedactionStreamPendingBytes < n
  | _ => True
  end.

Ltac fields := cbn [st_raw st_decoded st_prefix st_digits st_length st_remaining st_leadingZero st_oversize st_body
  st_changed st_limit setText setRemaining startBody setPrefix setChanged].

(** * A candidate on its own *)

Lemma firstPiece_alone s ds body : header s = Some (ds, body) ->
  pieces (rawOf (firstPiece s)) = [firstPiece s].
Proof.
  intros Hh. destruct (firstPiece_candidate s ds body Hh) as [Hr _].
  assert (header (rawOf (firstPiece s)) = Some (ds, if canonical maxEncodedLen ds then base64Run (digitsVal ds) body else [])) as Hh'.
  { apply header_spec. rewrite Hr. apply header_spec in Hh as (_ & ? & ?). done. }
  assert (firstPiece (rawOf (firstPiece s)) = firstPiece s) as Hf.
  { rewrite (firstPiece_decrypt _ _ _ Hh'), (firstPiece_decrypt _ _ _ Hh). unfold keptRaw.
    destruct (canonical maxEncodedLen ds) eqn:Hc; [|done].
    by rewrite base64Run_idem. }
  rewrite pieces_cons by (rewrite Hr; done). rewrite Hf, drop_all. done.
Qed.

Lemma restoreText_alone s ds body : header s = Some (ds, body) ->
  restoreText (rawOf (firstPiece s)) = Some (restoredOf (firstPiece s)).
Proof.
  intros Hh. pose proof (RestoreText_spec (rawOf (firstPiece s))) as H. unfold restoreText. cbv zeta in H.
  rewrite (firstPiece_alone _ _ _ Hh) in H. destruct (RestoreText _) as [[out|e] n].
  - destruct H as (_ & -> & _). unfold restored. cbn. by rewrite app_nil_r.
  - destruct H as [_ H]. rewrite countPieces_cons in H. change (countPieces isCandidate []) with 0 in H.
    unfold maxRedactionTokensPerText in H. destruct (isCandidate _); lia.
Qed.

(** * Digits *)

Lemma digit_no_prefix c s : isDigit c = true -> hasPrefixBytes redactionTokenPrefix (c :: s) = false.
Proof.
  intros Hc. cbn. rewrite bool_decide_false; [done|]. intros <-. done.
Qed.

Lemma rendered_cons p ps : rendered (p :: ps) = renderOf p ++ rendered ps.
Proof. done. Qed.

Lemma pieces_digits ds s : forallb isDigit ds = true ->
  rendered (pieces (ds ++ s)) = ds ++ rendered (pieces s)
  /\ (Forall gapFree (pieces (ds ++ s)) -> Forall gapFree (pieces s)).
Proof.
  induction ds as [|c ds IH]; intros H; [done|]. cbn [forallb] in H. apply andb_true_iff in H as [Hc H].
  destruct (IH H) as [H1 H2]. cbn [app]. rewrite pieces_skip by (by apply digit_no_prefix).
  rewrite rendered_cons, H1. split; [done|]. intros [_ ?]%Forall_cons. auto.
Qed.

Lemma accVal_snoc acc ds c : accVal acc (ds ++ [c]) = 10 * accVal acc ds + digitVal c.
Proof. unfold accVal. by rewrite fold_left_app. Qed.

(** * Inside a header *)

Section Limit.
Context (changed : bool) (limit : Z).

Record inHeader (ds : bytes) (t : redactionTokenStream) : Prop := {
  ih_raw : st_raw t = redactionTokenPrefix ++ ds;
  ih_decoded : st_decoded t = redactionTokenPrefix ++ ds;
  ih_prefix : st_prefix t = 5;
  ih_digits : st_digits t = blen ds;
  ih_oversize : st_oversize t = (maxRedactionStreamPendingBytes <? digitsVal ds);
  ih_length : digitsVal ds <= maxRedactionStreamPendingBytes -> st_length t = digitsVal ds;
  ih_zero : st_leadingZero t = bool_decide (head ds = Some "0"%char);
  ih_body : st_body t = false;
  ih_changed : st_changed t = changed;
  ih_limit : st_limit t = limit
}.

Lemma inHeader_start : inHeader [] (pre changed limit 5).
Proof. by split. Qed.

Lemma digit_zero c : (byteZ c =? 48) = bool_decide (Some c = Some "0"%char).
Proof.
  apply eq_true_iff_eq. rewrite bool_decide_eq_true, Z.eqb_eq. split; [|by intros [= ->]].
  intros H. rewrite <- (byteOf_byteZ c), H. done.
Qed.

Lemma append_fits raw decoded t : blen (st_raw t) + blen raw <= limitOf t ->
  append raw decoded t = Some (setText (st_raw t ++ raw) (st_decoded t ++ decoded) t).
Proof. intros H. unfold append. by rewrite (proj2 (Z.ltb_ge _ _)) by lia. Qed.

Lemma header_digit ds t c out : inHeader ds t -> forallb isDigit ds = true -> isDigit c = true ->
  5 + blen ds + 1 <= limitOf (pre changed limit 0) ->
  exists t', push t out [c] [c] = Some (t', out) /\ inHeader (ds ++ [c]) t'.
Proof.
  intros H Hds Hc Hl. pose proof (digitVal_range c Hc) as Hd. pose proof (digitsVal_nonneg ds Hds) as [Hv _].
  assert (digitsVal (ds ++ [c]) = 10 * digitsVal ds + digitVal c) as Hval by apply accVal_snoc.
  destruct H as [H1 H2 H3 H4 H5 H6 H7 H8 H9 H10].
  assert (st_raw (countDigit c t) = st_raw t /\ st_decoded (countDigit c t) = st_decoded t
    /\ limitOf (countDigit c t) = limitOf (pre changed limit 0)) as (E1 & E2 & E3).
  { unfold countDigit, limitOf. cbn [st_limit pre]. rewrite <- H10. destruct (st_oversize t); [done|]. by destruct (_ <? st_length t). }
  rewrite pushUnit_unfold. unfold pushUnitBody. rewrite H3, H8, Hc. cbn [Z.ltb Z.compare Pos.compare Pos.compare_cont negb].
  rewrite append_fits by (rewrite E1, E3, H1, blen_app; change (blen redactionTokenPrefix) with 5; change (blen [c]) with 1; lia).
  eexists. split; [reflexivity|]. rewrite E1, E2, H1, H2, <- app_assoc. unfold countDigit. rewrite H3, H8, H4, H9, H10.
  rewrite H5, H7.
  assert ((if blen ds =? 0 then byteZ c =? 48 else bool_decide (head ds = Some "0"%char))
    = bool_decide (head (ds ++ [c]) = Some "0"%char)) as Hz by (destruct ds; [apply digit_zero|done]).
  destruct (Z.ltb_spec maxRedactionStreamPendingBytes (digitsVal ds)) as [Hov|Hov].
  - split; cbn; rewrite ?Hval; try done; [rewrite blen_app; done|symmetry; apply Z.ltb_lt; lia|lia].
  - rewrite (H6 Hov). destruct (Z.ltb_spec ((maxRedactionStreamPendingBytes - digitVal c) / 10) (digitsVal ds)) as [Hb|Hb];
      split; fields;
      rewrite ?Hval; try done; try (by rewrite blen_app); try (symmetry; (apply Z.ltb_lt || apply Z.ltb_ge));
      Z.div_mod_to_equations; lia.
Qed.

Lemma run_digits ds0 ds t out : inHeader ds0 t -> forallb isDigit ds0 = true -> forallb isDigit ds = true ->
  5 + blen (ds0 ++ ds) <= limitOf (pre changed limit 0) ->
  exists t', runs t out ds = Some (t', out) /\ inHeader (ds0 ++ ds) t'.
Proof.
  revert ds0 t. induction ds as [|c ds IH]; intros ds0 t H H0 Hds Hl.
  { exists t. by rewrite app_nil_r. }
  cbn [forallb] in Hds. apply andb_true_iff in Hds as [Hc Hds].
  rewrite blen_app in Hl. assert (blen (c :: ds) = 1 + blen ds) as Hb by (unfold blen; cbn [length]; lia).
  pose proof (blen_nonneg ds) as Hnn. destruct (header_digit ds0 t c out) as (t1 & E1 & H1); [done..|lia|].
  cbn [runBytes]. rewrite E1. destruct (IH (ds0 ++ [c]) t1 H1) as (t2 & E2 & H2).
  - rewrite forallb_app, H0. cbn. by rewrite Hc.
  - done.
  - rewrite !blen_app. change (blen [c]) with 1. lia.
  - exists t2. rewrite <- app_assoc in H2. done.
Qed.


(** * The end of a header *)

Lemma canonical_mono n m ds : n <= m -> canonical n ds = true -> canonical m ds = true.
Proof.
  intros Hnm. unfold canonical. rewrite !andb_true_iff, !Z.leb_le. intros [[? ?] ?]. split; [split; [lia|done]|done].
Qed.

Lemma bound_order : maxEncodedLen <= maxRedactionStreamPendingBytes.
Proof. vm_compute. discriminate. Qed.

Lemma header_alone ds body : forallb isDigit ds = true -> ds <> [] -> header (headerText ds ++ body) = Some (ds, body).
Proof. intros. by apply header_spec. Qed.

(** A candidate that does not authenticate is kept by the restoration of its own text. *)
Lemma restoreText_kept ds body raw : header (headerText ds ++ body) = Some (ds, body) ->
  firstPiece (headerText ds ++ body) = Kept raw -> restoreText raw = Some raw.
Proof. intros Hh Hk. pose proof (restoreText_alone _ _ _ Hh) as H. by rewrite Hk in H. Qed.

Lemma keep_same t out : restoreText (st_decoded t) = Some (st_decoded t) ->
  keep restoreText t out = Some (reset t, out ++ st_raw t).
Proof. intros H. unfold keep. by rewrite H, bool_decide_true. Qed.

Record inBody (ds rn : bytes) (t : redactionTokenStream) : Prop := {
  ib_raw : st_raw t = headerText ds ++ rn;
  ib_decoded : st_decoded t = headerText ds ++ rn;
  ib_prefix : st_prefix t = 5;
  ib_body : st_body t = true;
  ib_remaining : st_remaining t = digitsVal ds - blen rn;
  ib_changed : st_changed t = changed;
  ib_limit : st_limit t = limit
}.

Lemma limitOf_pre t : st_limit t = limit -> limitOf t = limitOf (pre changed limit 0).
Proof. unfold limitOf. by intros ->. Qed.

Lemma reset_changed t : st_changed t = changed -> st_limit t = limit -> reset t = pre changed limit 0.
Proof. intros <- <-. done. Qed.

(** The underscore after the length field: a well-formed length starts the body, any other
    ends the candidate. *)
Lemma header_underscore ds t out : inHeader ds t -> forallb isDigit ds = true -> ds <> [] ->
  6 + blen ds <= limitOf (pre changed limit 0) ->
  if canonical maxRedactionStreamPendingBytes ds
  then exists t', push t out [underscore] [underscore] = Some (t', out) /\ inBody ds [] t'
  else push t out [underscore] [underscore] = Some (pre changed limit 0, out ++ headerText ds).
Proof.
  intros H Hds Hne Hl. destruct H as [H1 H2 H3 H4 H5 H6 H7 H8 H9 H10]. pose proof (digitsVal_nonneg ds Hds) as [Hv _].
  assert (0 < blen ds) as Hpos by (destruct ds; [done|unfold blen; cbn; lia]).
  rewrite pushUnit_unfold. unfold pushUnitBody. rewrite H3, H8, underscore_digit, H4.
  cbn [Z.ltb Z.compare Pos.compare Pos.compare_cont negb]. rewrite bool_decide_true, (proj2 (Z.ltb_lt _ _)) by done. cbn [andb].
  rewrite append_fits by (rewrite limitOf_pre, H1, blen_app by done; change (blen redactionTokenPrefix) with 5; change (blen [underscore]) with 1; lia).
  cbn [setText st_oversize st_length st_leadingZero st_digits]. rewrite H5, H7, H4, andb_comm.
  assert ((maxRedactionStreamPendingBytes <? digitsVal ds) || (st_length t =? 0)
    || (1 <? blen ds) && bool_decide (head ds = Some "0"%char) = negb (canonical maxRedactionStreamPendingBytes ds)) as ->.
  { unfold canonical. destruct (Z.leb_spec (digitsVal ds) maxRedactionStreamPendingBytes) as [Hle|Hgt].
    - rewrite H6, (proj2 (Z.ltb_ge _ _)) by done. cbn [orb andb]. by rewrite negb_andb, !negb_involutive.
    - by rewrite (proj2 (Z.ltb_lt _ _)) by done. }
  destruct (canonical maxRedactionStreamPendingBytes ds) eqn:Hcan; cbn [negb].
  - eexists. split; [reflexivity|]. apply canonical_val in Hcan as Hval; [|done].
    split; cbn; rewrite ?H1, ?H2, ?app_nil_r, <- ?app_assoc; try done. rewrite H6 by lia. change (blen []) with 0. lia.
  - destruct (canonical maxEncodedLen ds) eqn:Hc; [by rewrite (canonical_mono _ _ _ bound_order Hc) in Hcan|].
    rewrite keep_same; cbn [setText st_decoded st_raw]; rewrite ?H1, ?H2, <- ?app_assoc.
    + rewrite reset_changed by done. done.
    + apply (restoreText_kept ds []); [by apply header_alone|]. unfold firstPiece. rewrite header_alone by done.
      rewrite Hc. done.
Qed.

(** * Inside a body *)

Lemma body_step ds rn t c out : inBody ds rn t -> redactionBase64URLByte c = true ->
  6 + blen ds + blen rn + 1 <= limitOf (pre changed limit 0) -> blen rn + 1 < digitsVal ds ->
  exists t', push t out [c] [c] = Some (t', out) /\ inBody ds (rn ++ [c]) t'.
Proof.
  intros [H1 H2 H3 H4 H5 H6 H7] Hc Hl Hn. rewrite pushUnit_unfold. unfold pushUnitBody.
  rewrite H3, H4, Hc. cbn [Z.ltb Z.compare Pos.compare Pos.compare_cont negb andb].
  rewrite append_fits by (rewrite limitOf_pre, H1, blen_app, blen_headerText by done; change (blen [c]) with 1; lia).
  cbn [setRemaining setText st_remaining]. rewrite (proj2 (Z.eqb_neq _ _)) by lia. cbn [negb].
  eexists. split; [reflexivity|]. split; fields; rewrite ?H1, ?H2, <- ?app_assoc; try done.
  rewrite blen_app. change (blen [c]) with 1. lia.
Qed.

Lemma run_body ds rn0 rn t out : inBody ds rn0 t -> forallb redactionBase64URLByte rn = true ->
  6 + blen ds + blen (rn0 ++ rn) <= limitOf (pre changed limit 0) -> blen (rn0 ++ rn) < digitsVal ds ->
  exists t', runs t out rn = Some (t', out) /\ inBody ds (rn0 ++ rn) t'.
Proof.
  revert rn0 t. induction rn as [|c rn IH]; intros rn0 t H Hrn Hl Hn.
  { exists t. by rewrite app_nil_r. }
  cbn [forallb] in Hrn. apply andb_true_iff in Hrn as [Hc Hrn]. pose proof (blen_nonneg rn) as Hnn.
  rewrite blen_app in Hl, Hn. assert (blen (c :: rn) = 1 + blen rn) as Hb by (unfold blen; cbn [length]; lia).
  destruct (body_step ds rn0 t c out) as (t1 & E1 & B1); [done|done|lia|lia|].
  cbn [runBytes]. rewrite E1. destruct (IH (rn0 ++ [c]) t1 B1) as (t2 & E2 & B2).
  - done.
  - rewrite !blen_app. change (blen [c]) with 1. lia.
  - rewrite !blen_app. change (blen [c]) with 1. lia.
  - exists t2. by rewrite <- app_assoc in B2.
Qed.

(** The last byte of a body: the candidate is restored. *)
Lemma body_last ds rn t c out : inBody ds rn t -> redactionBase64URLByte c = true ->
  6 + blen ds + blen rn + 1 <= limitOf (pre changed limit 0) -> blen rn + 1 = digitsVal ds ->
  forallb isDigit ds = true -> ds <> [] -> canonical maxEncodedLen ds = true ->
  forallb redactionBase64URLByte rn = true ->
  exists changed', push t out [c] [c] = Some (pre changed' limit 0, out ++ renderOf (firstPiece (headerText ds ++ rn ++ [c]))).
Proof.
  intros [H1 H2 H3 H4 H5 H6 H7] Hc Hl Hn Hds Hne Hcan Hrn. rewrite pushUnit_unfold. unfold pushUnitBody.
  rewrite H3, H4, Hc. cbn [Z.ltb Z.compare Pos.compare Pos.compare_cont negb andb].
  rewrite append_fits by (rewrite limitOf_pre, H1, blen_app, blen_headerText by done; change (blen [c]) with 1; lia).
  fields. rewrite (proj2 (Z.eqb_eq _ _)) by lia. cbn [negb]. rewrite H1, H2, <- app_assoc.
  set (body := rn ++ [c]). pose proof (header_alone ds body Hds Hne) as Hh.
  assert (base64Run (digitsVal ds) body = body) as Hrun.
  { rewrite <- (app_nil_r body) at 1. apply base64Run_app; subst body; [|rewrite blen_app; change (blen [c]) with 1; lia].
    rewrite forallb_app, Hrn. cbn. by rewrite Hc. }
  pose proof (restoreText_alone _ _ _ Hh) as Hr. pose proof (firstPiece_decrypt _ _ _ Hh) as Hf.
  unfold keptRaw in Hf. rewrite Hcan, Hrun in Hf. destruct (openToken _ _ _) as [p|]; rewrite Hf in Hr |- *; cbn [rawOf restoredOf renderOf] in *; rewrite Hr.
  - case_bool_decide; (eexists; rewrite reset_pre; fields; rewrite H7; reflexivity).
  - rewrite bool_decide_true by done. exists changed. rewrite reset_changed by done. done.
Qed.

(** A body that stops short of its length. *)
Lemma restoreText_short ds rn : forallb isDigit ds = true -> ds <> [] -> canonical maxEncodedLen ds = true ->
  forallb redactionBase64URLByte rn = true -> blen rn < digitsVal ds ->
  restoreText (headerText ds ++ rn) = Some (headerText ds ++ rn).
Proof.
  intros Hds Hne Hcan Hrn Hlt. pose proof (header_alone ds rn Hds Hne) as Hh.
  assert (base64Run (digitsVal ds) rn = rn) as Hrun.
  { rewrite <- base64Run_min, Z.min_r by lia. rewrite <- (app_nil_r rn) at 2. by apply base64Run_app. }
  eapply restoreText_kept; [exact Hh|]. rewrite (firstPiece_decrypt _ _ _ Hh). unfold keptRaw. rewrite Hcan, Hrun.
  destruct (openToken _ _ _) eqn:Ho; [|done]. apply openToken_full in Ho. lia.
Qed.

Lemma body_stop ds rn t c out : inBody ds rn t -> redactionBase64URLByte c = false ->
  restoreText (headerText ds ++ rn) = Some (headerText ds ++ rn) ->
  push t out [c] [c] = push (pre changed limit 0) (out ++ headerText ds ++ rn) [c] [c].
Proof.
  intros [H1 H2 H3 H4 H5 H6 H7] Hc Hr. rewrite pushUnit_unfold. unfold pushUnitBody.
  rewrite H3, H4, Hc. cbn [Z.ltb Z.compare Pos.compare Pos.compare_cont negb andb].
  rewrite keep_same by (by rewrite H2). rewrite reset_changed, H1 by done. done.
Qed.

End Limit.

(** * The whole text *)

Definition streamOut (t : redactionTokenStream) (out s : bytes) : option bytes :=
  match runs t out s with
  | Some (t', out') => match streamFinish restoreText t' with Some (_, tail) => Some (out' ++ tail) | None => None end
  | None => None
  end.

Lemma streamOut_app t out v w t' out' : runs t out v = Some (t', out') -> streamOut t out (v ++ w) = streamOut t' out' w.
Proof. intros H. unfold streamOut. by rewrite run_app, H. Qed.

Lemma streamOut_cons t out c w t' out' : push t out [c] [c] = push t' out' [c] [c] ->
  streamOut t out (c :: w) = streamOut t' out' (c :: w).
Proof. intros H. unfold streamOut. cbn [runBytes]. by rewrite H. Qed.

(** From the start of a body to the end of its candidate. *)
Lemma streamOut_body changed limit ds body t out : inBody changed limit ds [] t ->
  forallb isDigit ds = true -> ds <> [] -> canonical maxEncodedLen ds = true ->
  6 + blen ds + blen body <= limitOf (pre changed limit 0) ->
  let rn := base64Run (digitsVal ds) body in
  exists changed', streamOut t out body
    = streamOut (pre changed' limit 0) (out ++ renderOf (firstPiece (headerText ds ++ body))) (drop (length rn) body).
Proof.
  intros Ht Hds Hne Hcan Hl rn. pose proof (canonical_val _ _ Hds Hcan) as Hval.
  destruct (base64Run_prefix (digitsVal ds) body) as [r Hr]. pose proof (base64Run_all (digitsVal ds) body) as Hall.
  pose proof (base64Run_le (digitsVal ds) body ltac:(lia)) as Hle.
  pose proof (header_alone ds body Hds Hne) as Hh. pose proof (firstPiece_decrypt _ _ _ Hh) as Hf.
  unfold keptRaw in Hf. rewrite Hcan in Hf. fold rn in Hr, Hall, Hle, Hf.
  assert (base64Run (digitsVal ds) rn = rn) as Hidem by apply base64Run_idem.
  assert (firstPiece (headerText ds ++ rn) = firstPiece (headerText ds ++ body)) as Hsame.
  { rewrite Hf, (firstPiece_decrypt _ _ _ (header_alone ds rn Hds Hne)). unfold keptRaw. by rewrite Hcan, Hidem. }
  assert (base64Run (digitsVal ds) body = rn) as Hdef by done.
  clearbody rn. subst body. rewrite drop_app_length, blen_app in *. pose proof (blen_nonneg r) as Hnr.
  destruct (Z.eq_dec (blen rn) (digitsVal ds)) as [Hfull|Hshort].
  - destruct rn as [|c rn _] using rev_ind; [change (blen []) with 0 in Hfull; lia|].
    rewrite blen_app in *. change (blen [c]) with 1 in *. rewrite forallb_app in Hall. apply andb_true_iff in Hall as [Hrn Hc].
    cbn [forallb] in Hc. rewrite andb_true_r in Hc.
    destruct (run_body changed limit ds [] rn t out) as (t1 & E1 & B1); [done|done|cbn [app]; lia|cbn [app]; lia|]. cbn [app] in B1.
    destruct (body_last changed limit ds rn t1 c out) as [changed' E2]; [done|done|lia|lia|done|done|done|done|].
    exists changed'. rewrite <- Hsame, <- !app_assoc. cbn [app]. rewrite (streamOut_app _ _ _ _ _ _ E1).
    apply (streamOut_app t1 out [c] r). cbn [runBytes]. by rewrite E2.
  - destruct (run_body changed limit ds [] rn t out) as (t1 & E1 & B1); [done|done|cbn [app]; lia|cbn [app]; lia|]. cbn [app] in B1.
    pose proof (restoreText_short ds rn Hds Hne Hcan Hall ltac:(lia)) as Hkeep.
    assert (renderOf (firstPiece (headerText ds ++ rn ++ r)) = headerText ds ++ rn) as ->.
    { rewrite Hf. destruct (openToken _ _ _) eqn:Ho; [|done]. apply openToken_full in Ho. lia. }
    exists changed. rewrite (streamOut_app _ _ _ _ _ _ E1). destruct r as [|c r].
    + unfold streamOut. cbn [runBytes]. destruct B1 as [H1 H2 H3 H4 H5 H6 H7]. unfold streamFinish at 1. rewrite H4.
      rewrite keep_same by (by rewrite H2). cbn [app]. rewrite H1. cbn. by rewrite app_nil_r.
    + apply streamOut_cons, body_stop; [done| |done].
      apply (base64Run_stop (digitsVal ds) rn c r); [done|lia].
Qed.

(** The state and the rest of the text from which the remaining pieces are streamed. *)
Definition streams (s : bytes) : Prop := forall changed limit out,
  5 <= limitOf (pre changed limit 0) -> blen s <= limitOf (pre changed limit 0) -> Forall gapFree (pieces s) ->
  streamOut (pre changed limit 0) out s = Some (out ++ rendered (pieces s)).

Lemma limitOf_changed changed changed' limit j : limitOf (pre changed' limit j) = limitOf (pre changed limit 0).
Proof. done. Qed.

Lemma header_none rest : (forall body, afterDigits rest = underscore :: body -> digitsOf rest = []) ->
  header (redactionTokenPrefix ++ rest) = None.
Proof.
  intros H. destruct (header _) as [[ds body]|] eqn:Hh; [|done]. apply header_spec in Hh as (Hs & Hds & Hne).
  unfold headerText in Hs. rewrite <- !app_assoc in Hs. apply app_inv_head in Hs. cbn [app] in Hs.
  destruct (digits_app ds underscore body Hds underscore_digit) as [E1 E2]. rewrite <- Hs in E1, E2.
  apply H in E2. congruence.
Qed.

(** A prefix that starts no candidate, and the digits after it. *)
Lemma pieces_prefix rest : header (redactionTokenPrefix ++ rest) = None ->
  Forall gapFree (pieces (redactionTokenPrefix ++ rest)) ->
  rendered (pieces (redactionTokenPrefix ++ rest))
    = redactionTokenPrefix ++ digitsOf rest ++ rendered (pieces (afterDigits rest))
  /\ Forall gapFree (pieces (afterDigits rest)).
Proof.
  intros Hh. assert (pieces (redactionTokenPrefix ++ rest) = Plain redactionTokenPrefix :: pieces rest) as ->.
  { rewrite pieces_cons by done. unfold firstPiece. rewrite Hh, (proj2 (hasPrefixBytes_spec _ _)) by eauto. done. }
  rewrite rendered_cons. intros [_ Hg]%Forall_cons.
  destruct (pieces_digits (digitsOf rest) (afterDigits rest) (digitsOf_digits rest)) as [H1 H2].
  rewrite <- digits_split in H1, H2. rewrite H1. auto.
Qed.

Lemma pieces_header ds body : forallb isDigit ds = true -> ds <> [] ->
  pieces (headerText ds ++ body) = firstPiece (headerText ds ++ body)
    :: pieces (drop (length (if canonical maxEncodedLen ds then base64Run (digitsVal ds) body else [])) body).
Proof.
  intros Hds Hne. pose proof (header_alone ds body Hds Hne) as Hh. destruct (firstPiece_candidate _ _ _ Hh) as [Hr _].
  rewrite pieces_cons by done. f_equal. rewrite Hr. unfold keptRaw. rewrite length_app, drop_app_add. done.
Qed.

(** After the header of a candidate. *)
Lemma streamOut_header ds body changed limit t out :
  (forall s, (length s <= length body)%nat -> streams s) -> inHeader changed limit ds t ->
  forallb isDigit ds = true -> ds <> [] -> 6 + blen ds + blen body <= limitOf (pre changed limit 0) ->
  Forall gapFree (pieces (headerText ds ++ body)) ->
  streamOut t out (underscore :: body) = Some (out ++ rendered (pieces (headerText ds ++ body))).
Proof.
  intros IH Ht Hds Hne Hl Hgap. pose proof (blen_nonneg body) as Hnb. pose proof (blen_nonneg ds) as Hnd.
  pose proof (header_underscore changed limit ds t out Ht Hds Hne ltac:(lia)) as Hu.
  rewrite pieces_header in * by done. apply Forall_cons in Hgap as [Hg Hgap]. rewrite rendered_cons.
  change (underscore :: body) with ([underscore] ++ body).
  destruct (canonical maxEncodedLen ds) eqn:Hc.
  - rewrite (canonical_mono _ _ _ bound_order Hc) in Hu. destruct Hu as (t' & Hp & Hb).
    rewrite (streamOut_app t out [underscore] body t' out) by (cbn [runBytes]; by rewrite Hp).
    destruct (streamOut_body changed limit ds body t' out Hb Hds Hne Hc Hl) as [changed' ->].
    rewrite IH; [by rewrite <- app_assoc|rewrite length_drop; lia|rewrite limitOf_changed with (changed := changed); lia| |done].
    rewrite limitOf_changed with (changed := changed). unfold blen in *. rewrite length_drop. lia.
  - assert (firstPiece (headerText ds ++ body) = Kept (headerText ds)) as Hf.
    { rewrite (firstPiece_decrypt _ _ _ (header_alone ds body Hds Hne)). unfold keptRaw. by rewrite Hc, app_nil_r. }
    rewrite Hf in *. cbn [length drop renderOf] in *.
    assert (canonical maxRedactionStreamPendingBytes ds = false) as Hcs.
    { destruct (canonical maxRedactionStreamPendingBytes ds) eqn:Hcs; [|done]. cbn [gapFree] in Hg.
      unfold headerText in Hg. change (drop 5 (redactionTokenPrefix ++ ?x)) with x in Hg.
      destruct (digits_app ds underscore [] Hds underscore_digit) as [E _]. rewrite E in Hg. cbv zeta in Hg.
      pose proof (canonical_val _ _ Hds Hcs). rewrite <- Hc. unfold canonical in *. apply andb_true_iff in Hcs as [Hcs ->].
      apply andb_true_iff in Hcs as [_ ->]. rewrite (proj2 (Z.leb_le _ _)) by lia. done. }
    rewrite Hcs in Hu. rewrite (streamOut_app t out [underscore] body _ _) by (cbn [runBytes]; by rewrite Hu).
    rewrite IH; [by rewrite <- app_assoc|done|lia|lia|done].
Qed.

(** After a prefix. *)
Lemma streamOut_prefix rest changed limit out :
  (forall s, (length s <= length rest)%nat -> streams s) ->
  5 <= limitOf (pre changed limit 0) -> 5 + blen rest <= limitOf (pre changed limit 0) ->
  Forall gapFree (pieces (redactionTokenPrefix ++ rest)) ->
  streamOut (pre changed limit 5) out rest = Some (out ++ rendered (pieces (redactionTokenPrefix ++ rest))).
Proof.
  intros IH Hl5 Hl Hgap. pose proof (digits_split rest) as Hrest. pose proof (digitsOf_digits rest) as Hds.
  pose proof (afterDigits_head rest) as Hhead. apply (f_equal blen) in Hrest as Hlen. rewrite blen_app in Hlen.
  pose proof (blen_nonneg (afterDigits rest)) as Hnr. pose proof (blen_nonneg (digitsOf rest)) as Hnd.
  destruct (run_digits changed limit [] (digitsOf rest) (pre changed limit 5) out (inHeader_start _ _) eq_refl Hds)
    as (t & E & Ht); [cbn [app]; lia|]. cbn [app] in Ht. rewrite Hrest at 1. rewrite (streamOut_app _ _ _ _ _ _ E).
  pose proof (header_none rest) as Hnone. destruct (afterDigits rest) as [|c body] eqn:Hr.
  { destruct (pieces_prefix rest) as [-> _]; [by apply Hnone|done|]. rewrite Hr.
    unfold streamOut. cbn [runBytes]. unfold streamFinish. destruct Ht as [H1 _ _ _ _ _ _ H2 _ _]. rewrite H2, H1.
    change (rendered (pieces [])) with (@nil ascii). by rewrite app_nil_r. }
  assert (length (c :: body) <= length rest)%nat as Hshort by (unfold blen in *; lia).
  destruct (decide (c = underscore /\ digitsOf rest <> [])) as [[-> Hne]|Hno].
  - assert (redactionTokenPrefix ++ rest = headerText (digitsOf rest) ++ body) as Heq.
    { unfold headerText. rewrite <- !app_assoc. cbn [app]. by rewrite <- Hrest. }
    rewrite Heq in *. eapply streamOut_header; [|done|done|done| |done].
    + intros s Hs. apply IH. cbn [length] in Hshort. lia.
    + assert (blen (underscore :: body) = 1 + blen body) by (unfold blen; cbn [length]; lia). lia.
  - destruct (pieces_prefix rest) as [-> Hg]; [|done|].
    { apply Hnone. intros b [= -> ->]. destruct (digitsOf rest); [done|]. exfalso. by apply Hno. }
    rewrite Hr in *. rewrite (streamOut_cons _ _ _ _ (pre changed limit 0) (out ++ redactionTokenPrefix ++ digitsOf rest)).
    + rewrite IH; [by rewrite <- !app_assoc|done|done|lia|done].
    + destruct Ht as [H1 H2 H3 H4 H5 H6 H7 H8 H9 H10].
      rewrite push_flush; [by rewrite H1, (reset_changed changed limit) by done|unfold streamPending; by rewrite H1|done|lia|].
      unfold continues. rewrite H3, H4, Hhead. cbn [Z.eqb Pos.eqb orb].
      destruct (decide (c = underscore)) as [->|Hc]; [|by rewrite bool_decide_false].
      destruct (digitsOf rest); [by rewrite andb_false_r|]. exfalso. by apply Hno.
Qed.

Lemma pieces_plain l s : plainText l -> s = [] \/ (exists r, s = redactionTokenPrefix ++ r) ->
  rendered (pieces (l ++ s)) = l ++ rendered (pieces s)
  /\ (Forall gapFree (pieces (l ++ s)) -> Forall gapFree (pieces s)).
Proof.
  unfold plainText, Index. generalize 0 as i. induction l as [|c l IH]; intros i Hl Hs; [done|].
  apply indexFrom_none_tail in Hl as [Hp Hl]. destruct (IH _ Hl Hs) as [H1 H2]. cbn [app]. rewrite pieces_skip.
  - rewrite rendered_cons, H1. split; [done|]. intros [_ ?]%Forall_cons. auto.
  - destruct Hs as [->|[r ->]]; [by rewrite app_nil_r|by apply prefix_straddle].
Qed.

(** The bytes one by one, then the end: every text within the limit. *)
Lemma streams_all s : streams s.
Proof.
  induction s as [s IH] using (induction_ltof1 _ (@length ascii)). unfold ltof in IH.
  intros changed limit out Hl5 Hl Hgap. destruct (Index s redactionTokenPrefix) as [k|] eqn:Hi.
  - apply Index_first in Hi as (Hk & Hplain & Hs). set (l := slice 0 k s) in *. set (rest := dropZ (k + 5) s) in *.
    clearbody l rest. subst s. rewrite app_assoc, (streamOut_app _ _ _ _ _ _ (run_to_prefix _ _ _ _ Hl5 l out Hplain)).
    rewrite <- app_assoc in *. destruct (pieces_plain l (redactionTokenPrefix ++ rest)) as [H1 H2]; [done|right; by eexists|].
    rewrite H1. rewrite !blen_app in Hl. change (blen redactionTokenPrefix) with 5 in Hl.
    pose proof (blen_nonneg l). rewrite streamOut_prefix; [by rewrite <- app_assoc| |done|lia|by apply H2].
    intros s Hs. apply IH. rewrite !length_app. change (length redactionTokenPrefix) with 5%nat. lia.
  - destruct (idle_run restoreText quoted changed limit Hl5 s out Hi) as (j & l0 & Hj & Hs & _ & Hrun).
    unfold streamOut. rewrite Hrun. cbn [streamFinish pre st_body st_raw]. rewrite <- app_assoc, <- Hs.
    destruct (pieces_plain s []) as [H1 _]; [done|by left|]. rewrite !app_nil_r in H1. by rewrite H1.
Qed.

(** * Fragments *)

Lemma run_ok t out v t' out' : streamOk t -> runs t out v = Some (t', out') -> streamOk t'.
Proof.
  revert t out. induction v as [|c v IH]; intros t out Hok H; cbn [runBytes] in H; [by simplify_eq|].
  destruct (push t out [c] [c]) as [[t1 out1]|] eqn:E; [|done]. eapply IH; [|done]. by eapply push_ok.
Qed.

Lemma pushAll_run t out chunks : streamOk t -> pushAll restoreText quoted t out chunks = runs t out (concat chunks).
Proof.
  revert t out. induction chunks as [|v chunks IH]; intros t out Hok; cbn [pushAll concat]; [done|].
  rewrite run_app. unfold pushString. rewrite pushStringLoop_run by (done || (destruct (streamPending t); lia)).
  destruct (runs t out v) as [[t1 out1]|] eqn:E; [|done]. apply IH. by eapply run_ok.
Qed.

Lemma streamText_spec chunks : blen (concat chunks) <= maxRedactionStreamPendingBytes ->
  Forall gapFree (pieces (concat chunks)) ->
  streamText restoreText quoted newStream chunks = Some (rendered (pieces (concat chunks))).
Proof.
  intros Hl Hg. unfold streamText. rewrite pushAll_run by (split; [by vm_compute|done|done]).
  by apply (streams_all (concat chunks) false 0 []).
Qed.

End Spec.

Lemma rendered_plain `{siv : AESSIV} ps : rendered false ps = restored ps.
Proof.
  unfold rendered, restored. f_equal. apply list_fmap_ext. intros i p _. destruct p as [|r t|]; [done| |done].
  cbn. by case_bool_decide.
Qed.

(** C26: Any fragmentation of a response text of at most 32 MiB streams to the end, and to what
    [RestoreText] makes of the whole text, unless a length field lies between the bounds of the
    two parsers. *)
Theorem stream_matches_restore (siv : AESSIV) (chunks : list bytes) :
  blen (concat chunks) <= maxRedactionStreamPendingBytes -> Forall gapFree (pieces (concat chunks)) ->
  exists out, streamText restoreText false newStream chunks = Some out
    /\ forall out' n, RestoreText (concat chunks) = (Ok out', n) -> out' = out.
Proof.
  intros Hl Hg. eexists. split; [by apply streamText_spec|]. rewrite rendered_plain. intros out' n H.
  pose proof (RestoreText_spec (concat chunks)) as Hs. cbv zeta in Hs. rewrite H in Hs. by destruct Hs as (_ & -> & _).
Qed.

Lemma gapFree_kept `{siv : AESSIV} ps : countPieces isKept ps = 0 -> Forall gapFree ps.
Proof.
  induction ps as [|p ps IH]; intros H; [constructor|]. rewrite countPieces_cons in H. pose proof (countPieces_nonneg isKept ps).
  destruct p; cbn [isKept] in H; (constructor; [done || lia|apply IH; lia]).
Qed.

(** C17: From the request to the client: a text without the token prefix whose matches are all
    encrypted, with at most 32 MiB after the redaction, echoed by the upstream, is restored to
    the original byte for byte, as a whole and cut into fragments anywhere. *)
Theorem redaction_roundtrip (re : Regexp) (Hre : RegexpLaws re) (siv : AESSIV) (Hsiv : AESSIVLaws siv)
    (c : list (RedactRule * regexp)) (value : bytes) (chunks : list bytes) :
  plainText value -> Forall (fun r => isEncrypt (fst r) = true) c ->
  TextWithCipher c value (Some (redactionCipher siv)) = Some (concat chunks) ->
  blen (concat chunks) <= maxRedactionStreamPendingBytes ->
  RestoreText (concat chunks) = (Ok value, 0) /\ streamText restoreText false newStream chunks = Some value.
Proof.
  intros Hv Hc Ht Hl. pose proof (encrypted_restored siv Hsiv c value _ Hv Hc Ht) as Hr. split; [done|].
  pose proof (RestoreText_spec (concat chunks)) as Hs. cbv zeta in Hs. rewrite Hr in Hs. destruct Hs as (_ & Hval & Hk).
  rewrite streamText_spec, rendered_plain, <- Hval; [done|done|]. by apply gapFree_kept.
Qed.

(** * Concrete texts *)

(** The first occurrence of a literal. *)
Definition literalRegexp : Regexp := {|
  regexp := bytes;
  FindAllStringIndex := fun p text _ =>
    match Index text p with
    | Some k => if (0 <=? k) && (k + blen p <=? blen text) then [(k, k + blen p)] else []
    | None => []
    end
|}.

Lemma literalRegexp_laws : RegexpLaws literalRegexp.
Proof.
  intros p text n a b. cbn. destruct (Index text p) as [k|]; [|by rewrite elem_of_nil].
  destruct (_ && _) eqn:E; [|by rewrite elem_of_nil]. apply andb_true_iff in E as [?%Z.leb_le ?%Z.leb_le].
  rewrite list_elem_of_singleton. intros [= -> ->]. pose proof (blen_nonneg p). lia.
Qed.

Definition exRules : list (RedactRule * @regexp literalRegexp) :=
  [(mkRule "alice" [] ModeEncrypt, bytes_of "alice")].
Definition exToken : bytes := bytes_of "gld1_28_AAAAAAAAAAAAAAAAAAAAAGFsaWNl".
Definition exChunks : list bytes := [bytes_of "ask gl"; take 9 exToken; drop 9 exToken; bytes_of " now gld1"].

Lemma redaction_roundtrip_witness :
  RestoreText (siv := plainSIV) (concat exChunks) = (Ok (bytes_of "ask glalice now gld1"), 0)
  /\ streamText (restoreText (siv := plainSIV)) false newStream exChunks = Some (bytes_of "ask glalice now gld1").
Proof.
  apply (redaction_roundtrip literalRegexp literalRegexp_laws plainSIV plainSIV_laws exRules);
    [vm_compute; reflexivity|repeat constructor|vm_compute; reflexivity|vm_compute; discriminate].
Defined.

Lemma stream_matches_restore_witness :
  exists out, streamText (restoreText (siv := plainSIV)) false newStream [bytes_of "gld1_30_a!"; exToken] = Some out
    /\ forall out' n, RestoreText (siv := plainSIV) (concat [bytes_of "gld1_30_a!"; exToken]) = (Ok out', n) -> out' = out.
Proof.
  apply (stream_matches_restore plainSIV); [vm_compute; discriminate|].
  assert (pieces (siv := plainSIV) (concat [bytes_of "gld1_30_a!"; exToken])
    = [Kept (bytes_of "gld1_30_a"); Plain (bytes_of "!"); Token exToken (bytes_of "alice")]) as -> by (vm_compute; reflexivity).
  constructor; [left; vm_compute; discriminate|repeat constructor].
Defined.

Lemma redaction_exact_witness :
  exists protected merged reps,
    spansOrdered 0 41 protected /\ Forall (tokenAt plainSIV (exToken ++ bytes_of "alice")) protected
    /\ ordered 0 41 merged
    /\ Forall2 (fun s r => replacementOf (re := literalRegexp) exRules (Some (redactionCipher plainSIV)) (exToken ++ bytes_of "alice") s = Some r) merged reps
    /\ exToken ++ exToken = splice 0 (exToken ++ bytes_of "alice") (zip merged reps).
Proof.
  destruct (redaction_exact (re := literalRegexp) (RegexpLaws0 := literalRegexp_laws) plainSIV exRules (exToken ++ bytes_of "alice") (exToken ++ exToken))
    as (protected & merged & reps & H1 & H2 & H3 & H4 & H5 & _); [discriminate|vm_compute; reflexivity|].
  exists protected, merged, reps. split; [exact H1|]. split; [exact H2|]. split; [exact H3|]. split; [exact H4|exact H5].
Defined.

(** * Between the two bounds *)

Section Gap.
Context {siv : AESSIV} {Hsiv : AESSIVLaws siv}.

Lemma digits_base64 ds : forallb isDigit ds = true -> forallb redactionBase64URLByte ds = true.
Proof.
  rewrite !forallb_forall. intros H c Hc%H. unfold isDigit, redactionBase64URLByte in *. rewrite Hc.
  by rewrite orb_true_r.
Qed.

Lemma token_shape p t : EncryptToken p = Some t -> forallb redactionBase64URLByte t = true /\ blen p < blen t.
Proof.
  unfold EncryptToken. destruct (_ <? _); [done|]. destruct (EncryptDeterministically _ _) as [c|]; [|done].
  destruct (Z.eqb_spec (blen c) (blen p + redactionCiphertextOverhead)) as [Hc|]; [|done]. intros Ht%(inj Some). subst t.
  pose proof (blen_nonneg p) as Hp. split.
  - rewrite !forallb_app, encoded_base64, (digits_base64 (formatNat _)); [done|]. apply formatNat_digits.
    unfold EncodedLen, redactionCiphertextOverhead. Z.div_mod_to_equations. lia.
  - assert (blen (EncodeToString c) = EncodedLen (blen p + redactionCiphertextOverhead)) as Hlen
      by (unfold blen at 1; rewrite EncodeToString_length; fold (blen c); by rewrite Hc).
    rewrite !blen_app, Hlen.
    pose proof (blen_nonneg (formatNat (EncodedLen (blen p + redactionCiphertextOverhead)))).
    change (blen redactionTokenPrefix) with 5. change (blen [underscore]) with 1.
    unfold EncodedLen, redactionCiphertextOverhead in *. Z.div_mod_to_equations. lia.
Qed.

Lemma pieces_gap ds body : forallb isDigit ds = true -> ds <> [] -> maxEncodedLen < digitsVal ds ->
  pieces (headerText ds ++ body) = Kept (headerText ds) :: pieces body.
Proof.
  intros Hds Hne Hgap. assert (canonical maxEncodedLen ds = false) as Hc.
  { unfold canonical. by rewrite (proj2 (Z.leb_gt _ _)). }
  rewrite pieces_header by done. rewrite Hc. f_equal.
  rewrite (firstPiece_decrypt _ _ _ (header_alone ds body Hds Hne)). unfold keptRaw. by rewrite Hc, app_nil_r.
Qed.

Lemma countPieces_plain f l s : (forall r, f (Plain r) = false) -> plainText l ->
  s = [] \/ (exists r, s = redactionTokenPrefix ++ r) -> countPieces f (pieces (l ++ s)) = countPieces f (pieces s).
Proof.
  intros Hf. unfold plainText, Index. generalize 0 as i. induction l as [|c l IH]; intros i Hl Hs; [done|].
  apply indexFrom_none_tail in Hl as [Hp Hl]. cbn [app]. rewrite pieces_skip.
  - by rewrite countPieces_cons, Hf, (IH _ Hl Hs).
  - destruct Hs as [->|[r ->]]; [by rewrite app_nil_r|by apply prefix_straddle].
Qed.

Context (ds p token : bytes).
Hypotheses (Hds : forallb isDigit ds = true) (Hcan : canonical maxRedactionStreamPendingBytes ds = true)
  (Hgap : maxEncodedLen < digitsVal ds) (Htoken : EncryptToken p = Some token).

Lemma gap_digits : ds <> [].
Proof. intros ->. vm_compute in Hgap. discriminate Hgap. Qed.

(** The whole text: the length field stays, the token after it is restored. *)
Lemma gap_restored before after : plainText before -> plainText after ->
  RestoreText (before ++ headerText ds ++ token ++ after) = (Ok (before ++ headerText ds ++ p ++ after), 1).
Proof.
  intros Hb Ha. set (text := before ++ _). pose proof (RestoreText_spec text) as Hs. cbv zeta in Hs.
  assert (exists r, headerText ds ++ token ++ after = redactionTokenPrefix ++ r) as Hpre
    by (eexists; unfold headerText; by rewrite <- app_assoc).
  assert (pieces (headerText ds ++ token ++ after) = Kept (headerText ds) :: Token token p :: pieces after) as Hps.
  { rewrite pieces_gap by (done || apply gap_digits). by rewrite (restored_token p token after Htoken). }
  destruct (index_none 0 after Ha) as [Hra Hca].
  assert (restored (pieces text) = before ++ headerText ds ++ p ++ after) as Hr.
  { rewrite <- rendered_plain. unfold text. destruct (pieces_plain false before _ Hb (or_intror Hpre)) as [-> _].
    rewrite Hps, rendered_plain. unfold restored in *. rewrite !fmap_cons. cbn [concat restoredOf]. by rewrite Hra. }
  assert (forall f, (forall r, f (Plain r) = false) ->
    countPieces f (pieces text) = countPieces f [Kept (headerText ds); Token token p]) as Hcount.
  { intros f Hf. unfold text. rewrite (countPieces_plain f before _ Hf Hb (or_intror Hpre)), Hps, !countPieces_cons, Hca by done. done. }
  destruct (RestoreText text) as [[out|e] n].
  - destruct Hs as (_ & -> & ->). by rewrite Hr, Hcount.
  - destruct Hs as [_ Hs]. rewrite Hcount in Hs by done. vm_compute in Hs. discriminate Hs.
Qed.

Lemma gap_keep t out : st_decoded t = headerText ds ++ token -> keep restoreText t out = None.
Proof.
  intros Hd. unfold keep, restoreText. rewrite Hd. pose proof (gap_restored [] [] eq_refl eq_refl) as Hr.
  rewrite !app_nil_r in Hr. cbn [app] in Hr. rewrite Hr. case_bool_decide as He; [|done].
  apply app_inv_head in He. destruct (token_shape p token Htoken) as [_ Hlt]. subst. lia.
Qed.

Lemma gap_streamed quoted before after : plainText before ->
  match after with c :: _ => redactionBase64URLByte c = false | [] => True end ->
  blen token < digitsVal ds -> blen (before ++ headerText ds ++ token ++ after) <= maxRedactionStreamPendingBytes ->
  streamOut quoted newStream [] (before ++ headerText ds ++ token ++ after) = None.
Proof.
  intros Hb Ha Hlt Hl. destruct (token_shape p token Htoken) as [Hbase _].
  pose proof (blen_nonneg before). pose proof (blen_nonneg after). pose proof (blen_nonneg token).
  rewrite !blen_app, blen_headerText in Hl. change newStream with (pre false 0 0). unfold headerText. rewrite <- !app_assoc.
  assert (limitOf (pre false 0 0) = maxRedactionStreamPendingBytes) as Hlim by done.
  assert (5 <= limitOf (pre false 0 0)) as Hl5 by (rewrite Hlim; unfold maxRedactionStreamPendingBytes; lia).
  rewrite (app_assoc before), (streamOut_app _ _ _ _ _ _ _ (run_to_prefix _ _ _ _ Hl5 before [] Hb)).
  destruct (run_digits quoted false 0 [] ds (pre false 0 5) ([] ++ before) (inHeader_start false 0) eq_refl Hds) as (t1 & E1 & Ht1).
  { cbn [app]. rewrite Hlim. lia. }
  rewrite (streamOut_app _ _ _ _ _ _ _ E1). cbn [app] in Ht1.
  pose proof (header_underscore quoted false 0 ds t1 ([] ++ before) Ht1 Hds gap_digits ltac:(rewrite Hlim; lia)) as Hu.
  rewrite Hcan in Hu. destruct Hu as (t2 & E2 & Ht2).
  rewrite (streamOut_app _ _ _ [underscore] _ t2 ([] ++ before)) by (cbn [runBytes]; by rewrite E2).
  destruct (run_body quoted false 0 ds [] token t2 ([] ++ before) Ht2 Hbase) as (t3 & E3 & Ht3); [cbn [app]; rewrite Hlim; lia|cbn [app]; lia|].
  rewrite (streamOut_app _ _ _ _ _ _ _ E3). cbn [app] in Ht3. destruct Ht3 as [_ H2 H3 H4 _ _ _].
  destruct after as [|c after]; unfold streamOut; cbn [runBytes].
  - unfold streamFinish. by rewrite H4, (gap_keep t3 []).
  - rewrite pushUnit_unfold. unfold pushUnitBody. rewrite H3, H4, Ha. cbn [Z.ltb Z.compare Pos.compare Pos.compare_cont negb andb].
    by rewrite (gap_keep t3).
Qed.

End Gap.


