(* ===== verification/Release.v ===== *)
(** The release selection of [internal/releasecheck/selection.go]: parsing and ordering of
    version tags and the choice of the update shown to the administrator.

    [url.Parse] is a field of a class; only the parts of the result the code reads are there. *)
From Stdlib Require Import Ascii.
From S2P Require Import Prelude GoStrings.

Local Open Scope Z_scope.

(** * Versions *)

Record prereleaseIdentifier := mkIdentifier { pi_raw : list ascii; pi_number : Z; pi_numeric : bool }.

Record semanticVersion := mkVersion {
  sv_major : Z;
  sv_minor : Z;
  sv_patch : Z;
  sv_prerelease : list prereleaseIdentifier
}.

Definition stable (v : semanticVersion) : bool := match sv_prerelease v with [] => true | _ => false end.

(** [strconv.ParseUint(raw, 10, 64)]. *)
Definition parseVersionNumber (raw : list ascii) : option Z :=
  match parseDigits raw with Some n => if n <=? maxUint64 then Some n else None | None => None end.

Definition allASCIIBytes (value : list ascii) (minimum maximum : Z) : bool :=
  match value with [] => false | _ => forallb (fun c => (minimum <=? byteZ c) && (byteZ c <=? maximum)) value end.

(** ** The pattern of a version tag *)

(** [0|[1-9][0-9]*]: the longest run of digits and what follows it. *)
Fixpoint spanDigits (l : list ascii) : list ascii * list ascii :=
  match l with
  | c :: l' => if isDigit c then let '(ds, r) := spanDigits l' in (c :: ds, r) else ([], l)
  | [] => ([], [])
  end.

Definition matchNumber (l : list ascii) : option (list ascii * list ascii) :=
  match spanDigits l with
  | ([], _) => None
  | (c :: ds, r) => if (byteZ c =? 48) && negb (bool_decide (ds = [])) then None else Some (c :: ds, r)
  end.

Definition matchByte (b : Z) (l : list ascii) : option (list ascii) :=
  match l with c :: l' => if byteZ c =? b then Some l' else None | [] => None end.

Definition identifierByte (c : ascii) : bool :=
  let b := byteZ c in
  (48 <=? b) && (b <=? 57) || (65 <=? b) && (b <=? 90) || (97 <=? b) && (b <=? 122) || (b =? 45).

(** [strings.Split(l, ".")]. *)
Fixpoint splitDots (l : list ascii) : list (list ascii) :=
  match l with
  | [] => [[]]
  | c :: l' =>
      if byteZ c =? 46 then [] :: splitDots l'
      else match splitDots l' with x :: xs => (c :: x) :: xs | [] => [[c]] end
  end.

Definition matchIdentifiers (l : list ascii) : bool :=
  forallb (fun x => match x with [] => false | _ => forallb identifierByte x end) (splitDots l).

(** The four groups of the match; the last is empty without a pre-release. *)
Definition matchVersion (l : list ascii) : option (list ascii * list ascii * list ascii * list ascii) :=
  let l := match matchByte 118 l with Some l' => l' | None => l end in
  match matchNumber l with
  | None => None
  | Some (major, l) =>
      match matchByte 46 l with
      | None => None
      | Some l =>
          match matchNumber l with
          | None => None
          | Some (minor, l) =>
              match matchByte 46 l with
              | None => None
              | Some l =>
                  match matchNumber l with
                  | None => None
                  | Some (patch, []) => Some (major, minor, patch, [])
                  | Some (patch, l) =>
                      match matchByte 45 l with
                      | None => None
                      | Some pre => if matchIdentifiers pre then Some (major, minor, patch, pre) else None
                      end
                  end
              end
          end
      end
  end.

(** The loop over the identifiers of a pre-release. *)
Definition parseIdentifier (raw : list ascii) : option prereleaseIdentifier :=
  if allASCIIBytes raw 48 57 then
    if (1 <? Z.of_nat (length raw)) && match raw with c :: _ => byteZ c =? 48 | [] => false end then None
    else match parseVersionNumber raw with Some n => Some (mkIdentifier raw n true) | None => None end
  else Some (mkIdentifier raw 0 false).

Definition parseVersion (raw : string) : option semanticVersion :=
  match matchVersion (bytes_of (TrimSpace raw)) with
  | None => None
  | Some (g1, g2, g3, g4) =>
      match parseVersionNumber g1, parseVersionNumber g2, parseVersionNumber g3 with
      | Some major, Some minor, Some patch =>
          match g4 with
          | [] => Some (mkVersion major minor patch [])
          | _ =>
              match mapM parseIdentifier (splitDots g4) with
              | Some ids => Some (mkVersion major minor patch ids)
              | None => None
              end
          end
      | _, _, _ => None
      end
  end.

Definition isDevelopmentVersion (raw : string) : bool :=
  match parseVersion raw with
  | Some v => match sv_prerelease v with i :: _ => bool_decide (pi_raw i = bytes_of "dev") | [] => false end
  | None => false
  end.

(** ** Order *)

(** Go compares strings byte by byte. *)
Fixpoint compareBytes (l r : list ascii) : comparison :=
  match l, r with
  | [], [] => Eq
  | [], _ => Lt
  | _, [] => Gt
  | a :: l', b :: r' => match byteZ a ?= byteZ b with Eq => compareBytes l' r' | c => c end
  end.

(** One step of the loop over the identifiers: [Eq] goes on. *)
Definition compareIdentifier (l r : prereleaseIdentifier) : comparison :=
  if pi_numeric l && pi_numeric r then pi_number l ?= pi_number r
  else if pi_numeric l then Lt
  else if pi_numeric r then Gt
  else compareBytes (pi_raw l) (pi_raw r).

Fixpoint compareIdentifiers (l r : list prereleaseIdentifier) : comparison :=
  match l, r with
  | x :: l', y :: r' => match compareIdentifier x y with Eq => compareIdentifiers l' r' | c => c end
  | [], [] => Eq
  | [], _ => Lt
  | _, [] => Gt
  end.

Definition compareVersions (l r : semanticVersion) : comparison :=
  match sv_major l ?= sv_major r with
  | Eq =>
      match sv_minor l ?= sv_minor r with
      | Eq =>
          match sv_patch l ?= sv_patch r with
          | Eq =>
              if stable l then if stable r then Eq else Gt
              else if stable r then Lt
              else compareIdentifiers (sv_prerelease l) (sv_prerelease r)
          | c => c
          end
      | c => c
      end
  | c => c
  end.

(** * Releases *)

Record Release := mkRelease { rel_TagName : string; rel_HTMLURL : string; rel_PublishedAt : Z; rel_Draft : bool }.
Record Update := mkUpdate { up_Version : string; up_ReleaseURL : string; up_PublishedAtMS : Z }.

Record URL := mkURL {
  url_Scheme : string;
  url_Host : string;
  url_HasUser : bool;
  url_RawQuery : string;
  url_Fragment : string;
  url_Path : string
}.

Class URLParser := urlParse : string -> option URL.

Definition releaseMaxSafeInteger : Z := 9007199254740991.

Definition validPublishedAt (publishedAt : Z) : bool :=
  negb (isZeroTime publishedAt)
  && ((0 <=? unixMilli publishedAt) && (unixMilli publishedAt <=? releaseMaxSafeInteger)).

Section Releases.
Context `{URLParser}.

Definition validReleaseURL (raw tag : string) : bool :=
  match urlParse raw with
  | None => false
  | Some u =>
      bool_decide (url_Scheme u = "https") && bool_decide (url_Host u = "github.com") && negb (url_HasUser u)
      && bool_decide (url_RawQuery u = "") && bool_decide (url_Fragment u = "")
      && bool_decide (url_Path u = String.append "/TheWiseWolfHolo/api-load/releases/tag/" tag)
  end.

Definition validCandidate (r : Release) : option semanticVersion :=
  match parseVersion (rel_TagName r) with
  | Some v =>
      if rel_Draft r || negb (validPublishedAt (rel_PublishedAt r)) || negb (validReleaseURL (rel_HTMLURL r) (rel_TagName r))
      then None else Some v
  | None => None
  end.

(** The conditions on a candidate, and the running choice. *)
Definition eligible (current : semanticVersion) (r : Release) : option semanticVersion :=
  match validCandidate r with
  | Some v =>
      if negb (sv_major v =? sv_major current)
         || match compareVersions v current with Gt => false | _ => true end
         || stable current && negb (stable v)
      then None else Some v
  | None => None
  end.

Definition selectStep (current : semanticVersion) (selected : option (Release * semanticVersion)) (candidate : Release)
  : option (Release * semanticVersion) :=
  match eligible current candidate with
  | None => selected
  | Some v =>
      match selected with
      | None => Some (candidate, v)
      | Some (_, best) => match compareVersions v best with Gt => Some (candidate, v) | _ => selected end
      end
  end.

Definition SelectUpdate (current : string) (releases : list Release) : option Update :=
  match parseVersion current with
  | None => None
  | Some cv =>
      if isDevelopmentVersion current then None
      else
        match fold_left (selectStep cv) releases None with
        | None => None
        | Some (r, _) => Some (mkUpdate (rel_TagName r) (rel_HTMLURL r) (unixMilli (rel_PublishedAt r)))
        end
  end.

End Releases.

(** * The order and the selection

    The version order is a total order on a reference key, and [SelectUpdate] returns the
    highest eligible release. *)

(** * Lexicographic comparisons *)

Record cmp_ok {A} (cmp : A -> A -> comparison) : Prop := {
  cmp_eq : forall x y, cmp x y = Eq <-> x = y;
  cmp_anti : forall x y, cmp y x = CompOpp (cmp x y);
  cmp_lt_trans : forall x y z, cmp x y = Lt -> cmp y z = Lt -> cmp x z = Lt
}.

Fixpoint lcmp {A} (cmp : A -> A -> comparison) (l r : list A) : comparison :=
  match l, r with
  | [], [] => Eq
  | [], _ => Lt
  | _, [] => Gt
  | x :: l', y :: r' => match cmp x y with Eq => lcmp cmp l' r' | c => c end
  end.

Lemma Zcompare_ok : cmp_ok Z.compare.
Proof.
  split; [apply Z.compare_eq_iff|intros x y; apply Z.compare_antisym|].
  intros x y z. rewrite !Z.compare_lt_iff. lia.
Qed.

Lemma lcmp_ok {A} (cmp : A -> A -> comparison) : cmp_ok cmp -> cmp_ok (lcmp cmp).
Proof.
  intros [He Ha Ht]. assert (forall x, cmp x x = Eq) as Hr by (intros x; by apply He). split.
  - induction x as [|a l IH]; intros [|b r]; cbn; try done. destruct (cmp a b) eqn:E.
    + apply He in E as ->. rewrite IH. naive_solver.
    + split; [done|]. intros [= -> ->]. by rewrite Hr in E.
    + split; [done|]. intros [= -> ->]. by rewrite Hr in E.
  - induction x as [|a l IH]; intros [|b r]; cbn; try done. rewrite (Ha a b). destruct (cmp a b); cbn; auto.
  - induction x as [|a l IH]; intros [|b r] [|c s]; cbn; try done.
    destruct (cmp a b) eqn:E1; [|destruct (cmp b c) eqn:E2|done].
    + apply He in E1 as ->. destruct (cmp b c); [apply IH|done|done].
    + apply He in E2 as ->. by rewrite E1.
    + intros _ _. by rewrite (Ht a b c).
    + done.
Qed.

(** * The reference order of versions *)

Definition identifierKey (i : prereleaseIdentifier) : list Z :=
  if pi_numeric i then [0; pi_number i] else 1 :: (byteZ <$> pi_raw i).

(** A stable version comes after all of its pre-releases. *)
Definition versionKey (v : semanticVersion) : list (list Z) :=
  [sv_major v] :: [sv_minor v] :: [sv_patch v]
    :: (if stable v then [[1]] else [0] :: (identifierKey <$> sv_prerelease v)).

Definition keyCompare : list (list Z) -> list (list Z) -> comparison := lcmp (lcmp Z.compare).

Lemma keyCompare_ok : cmp_ok keyCompare.
Proof. apply lcmp_ok, lcmp_ok, Zcompare_ok. Qed.

Lemma compareBytes_key l r : compareBytes l r = lcmp Z.compare (byteZ <$> l) (byteZ <$> r).
Proof. revert r. induction l as [|a l IH]; intros [|b r]; cbn; try done. by rewrite IH. Qed.

Lemma compareIdentifier_key x y : compareIdentifier x y = lcmp Z.compare (identifierKey x) (identifierKey y).
Proof.
  unfold compareIdentifier, identifierKey. destruct (pi_numeric x), (pi_numeric y); cbn; [|done|done|apply compareBytes_key].
  by destruct (pi_number x ?= pi_number y).
Qed.

Lemma compareIdentifiers_key l r :
  compareIdentifiers l r = keyCompare (identifierKey <$> l) (identifierKey <$> r).
Proof.
  revert r. induction l as [|x l IH]; intros [|y r]; cbn; try done. rewrite compareIdentifier_key.
  unfold keyCompare in *. destruct (lcmp Z.compare _ _); [apply IH|done|done].
Qed.

(** The comparison of versions is the order of their keys. *)
Lemma compareVersions_key v w : compareVersions v w = keyCompare (versionKey v) (versionKey w).
Proof.
  unfold compareVersions, keyCompare, versionKey. cbn [lcmp].
  destruct (sv_major v ?= sv_major w); [|done|done]. destruct (sv_minor v ?= sv_minor w); [|done|done].
  destruct (sv_patch v ?= sv_patch w); [|done|done].
  destruct (stable v), (stable w); [done|done|done|]. cbn [lcmp Z.compare]. apply compareIdentifiers_key.
Qed.

Lemma compareVersions_anti v w : compareVersions w v = CompOpp (compareVersions v w).
Proof. rewrite !compareVersions_key. apply keyCompare_ok. Qed.

(** Not greater, not greater: not greater. *)
Lemma compareVersions_le_trans u v w :
  compareVersions u v <> Gt -> compareVersions v w <> Gt -> compareVersions u w <> Gt.
Proof.
  rewrite !compareVersions_key. destruct keyCompare_ok as [He _ Ht]. intros H1 H2.
  destruct (keyCompare (versionKey u) (versionKey v)) eqn:E1; [|clear H1|done].
  - apply He in E1 as ->. done.
  - destruct (keyCompare (versionKey v) (versionKey w)) eqn:E2; [|clear H2|done].
    + apply He in E2 as <-. by rewrite E1.
    + by rewrite (Ht _ _ _ E1 E2).
Qed.

Lemma compareVersions_lt_le u v w :
  compareVersions u v = Lt -> compareVersions v w <> Gt -> compareVersions u w = Lt.
Proof.
  rewrite !compareVersions_key. destruct keyCompare_ok as [He _ Ht]. intros H1 H2.
  destruct (keyCompare (versionKey v) (versionKey w)) eqn:E2; [|by apply (Ht _ _ _ H1 E2)|done].
  by apply He in E2 as <-.
Qed.

Section Releases.
Context `{URLParser}.

Lemma elem_snoc (r x : Release) l : r ∈ l ++ [x] <-> r ∈ l \/ r = x.
Proof. by rewrite elem_of_app, list_elem_of_singleton. Qed.

(** [r] is the first of the highest eligible releases. *)
Definition highest (cv : semanticVersion) (releases : list Release) (r : Release) (v : semanticVersion) : Prop :=
  eligible cv r = Some v
  /\ (forall r' v', r' ∈ releases -> eligible cv r' = Some v' -> compareVersions v' v <> Gt)
  /\ exists before after, releases = before ++ r :: after
       /\ forall r' v', r' ∈ before -> eligible cv r' = Some v' -> compareVersions v' v = Lt.

Lemma select_fold cv releases :
  match fold_left (selectStep cv) releases None with
  | None => forall r, r ∈ releases -> eligible cv r = None
  | Some (r, v) => highest cv releases r v
  end.
Proof.
  induction releases as [|x l IH] using rev_ind; [by intros r ?%elem_of_nil|].
  rewrite fold_left_app. cbn [fold_left]. unfold selectStep at 1.
  destruct (eligible cv x) as [vx|] eqn:Ex.
  - destruct (fold_left (selectStep cv) l None) as [[r v]|].
    + destruct IH as (He & Hall & before & after & -> & Hb). pose proof (compareVersions_anti v vx) as Ha.
      destruct (compareVersions vx v) eqn:Ec; (split; [done|split]).
      * intros r' v' [?| ->]%elem_snoc Hr'; [by eapply Hall|]. rewrite Ex in Hr'. injection Hr' as <-. by rewrite Ec.
      * exists before, (after ++ [x]). split; [by rewrite <- app_assoc|done].
      * intros r' v' [?| ->]%elem_snoc Hr'; [by eapply Hall|]. rewrite Ex in Hr'. injection Hr' as <-. by rewrite Ec.
      * exists before, (after ++ [x]). split; [by rewrite <- app_assoc|done].
      * intros r' v' [Hin| ->]%elem_snoc Hr'.
        -- eapply compareVersions_le_trans; [by eapply Hall|]. destruct (compareVersions v vx); done.
        -- rewrite Ex in Hr'. injection Hr' as <-. rewrite compareVersions_key, (proj2 (cmp_eq _ keyCompare_ok _ _)); done.
      * exists (before ++ r :: after), []. split; [done|]. intros r' v' Hin Hr'.
        assert (compareVersions v vx = Lt) as Hlt by (destruct (compareVersions v vx); done).
        specialize (Hall r' v' Hin Hr'). destruct (compareVersions v' v) eqn:Ev; [| |done].
        -- rewrite compareVersions_key in Ev. apply (cmp_eq _ keyCompare_ok) in Ev. rewrite compareVersions_key, Ev, <- compareVersions_key. done.
        -- eapply compareVersions_lt_le; [done|]. by rewrite Hlt.
    + split; [done|]. split.
      * intros r' v' [Hin| ->]%elem_snoc Hr'; [by rewrite IH in Hr'|].
        rewrite Ex in Hr'. injection Hr' as <-. rewrite compareVersions_key, (proj2 (cmp_eq _ keyCompare_ok _ _)); done.
      * exists l, []. split; [done|]. intros r' v' Hin Hr'. by rewrite IH in Hr'.
  - destruct (fold_left (selectStep cv) l None) as [[r v]|].
    + destruct IH as (He & Hall & before & after & -> & Hb). split; [done|]. split.
      * intros r' v' [?| ->]%elem_snoc Hr'; [by eapply Hall|congruence].
      * exists before, (after ++ [x]). split; [by rewrite <- app_assoc|done].
    + intros r [?| ->]%elem_snoc; [by apply IH|done].
Qed.

Lemma eligible_newer cv r v : eligible cv r = Some v ->
  sv_major v = sv_major cv /\ compareVersions v cv = Gt /\ (stable cv = true -> stable v = true) /\ rel_Draft r = false.
Proof.
  unfold eligible, validCandidate. destruct (parseVersion (rel_TagName r)) as [v'|]; [|done].
  destruct (rel_Draft r); [done|]. cbn [orb]. destruct (_ || _); [done|].
  destruct (Z.eqb_spec (sv_major v') (sv_major cv)); [|done]. cbn [negb orb].
  destruct (compareVersions v' cv) eqn:E; [done|done|]. cbn [orb].
  destruct (stable cv), (stable v') eqn:Es; cbn [negb andb]; intros [= <-]; done.
Qed.

(** The update shown is the first of the highest eligible releases: same major version,
    newer than the running one, stable if the running one is, and no release that qualifies is
    higher; nothing is shown exactly when no release qualifies. *)
Theorem select_update_highest (current : string) (cv : semanticVersion) (releases : list Release) :
  parseVersion current = Some cv -> isDevelopmentVersion current = false ->
  match SelectUpdate current releases with
  | None => forall r, r ∈ releases -> eligible cv r = None
  | Some u => exists r v, highest cv releases r v
      /\ u = mkUpdate (rel_TagName r) (rel_HTMLURL r) (unixMilli (rel_PublishedAt r))
      /\ sv_major v = sv_major cv /\ compareVersions v cv = Gt /\ (stable cv = true -> stable v = true)
      /\ rel_Draft r = false
  end.
Proof.
  intros Hp Hd. unfold SelectUpdate. rewrite Hp, Hd. pose proof (select_fold cv releases) as Hs.
  destruct (fold_left _ _ _) as [[r v]|]; [|done]. exists r, v. split; [done|]. split; [done|].
  by apply eligible_newer, Hs.
Qed.

End Releases.

(** A parser for the URLs of releases, for concrete inputs. *)
Definition tagParser : URLParser := fun raw =>
  if HasPrefix raw "https://github.com/" then
    Some (mkURL "https" "github.com" false "" "" (of_bytes (drop 18 (bytes_of raw))))
  else None.

Definition tagRelease (tag : string) : Release :=
  mkRelease tag (String.append "https://github.com/TheWiseWolfHolo/api-load/releases/tag/" tag) (unixEpoch + 5000000) false.

Lemma select_update_highest_witness :
  exists r v, highest (H := tagParser) (mkVersion 2 0 0 []) (tagRelease <$> ["v2.0.1"; "v2.10.0"; "v2.9.3"; "v2.11.0-rc.1"; "v3.0.0"]) r v
    /\ mkUpdate "v2.10.0" (rel_HTMLURL (tagRelease "v2.10.0")) 5 = mkUpdate (rel_TagName r) (rel_HTMLURL r) (unixMilli (rel_PublishedAt r))
    /\ sv_major v = 2.
Proof.
  pose proof (select_update_highest (H := tagParser) "v2.0.0" (mkVersion 2 0 0 []) (tagRelease <$> ["v2.0.1"; "v2.10.0"; "v2.9.3"; "v2.11.0-rc.1"; "v3.0.0"])
    ltac:(vm_compute; reflexivity) ltac:(vm_compute; reflexivity)) as Hw.
  assert (SelectUpdate (H := tagParser) "v2.0.0" (tagRelease <$> ["v2.0.1"; "v2.10.0"; "v2.9.3"; "v2.11.0-rc.1"; "v3.0.0"])
    = Some (mkUpdate "v2.10.0" (rel_HTMLURL (tagRelease "v2.10.0")) 5)) as E by (vm_compute; reflexivity).
  rewrite E in Hw. destruct Hw as (r & v & H1 & H2 & H3 & _). exists r, v. split; [exact H1|]. split; [exact H2|exact H3].
Defined.
