(* ===== verification/Bindings.v ===== *)
(** Who owns a response or a native resource: the bounded index in memory
    ([internal/state/response_bindings.go]), the table behind it
    ([internal/resourcebinding/store.go]) and the gateway's use of both
    ([internal/gateway/native_resources.go]).

    The index keeps its values in the elements of a linked list, which the map points into: the
    elements are a store of their own and the map and the list hold their addresses.  The hash
    of a resource key is a field of a class, with nothing assumed of it. *)
From S2P Require Import Prelude GoStrings Config Credential.

Local Open Scope Z_scope.

(** * Bindings *)

Definition maxResponseIDBytes : Z := 4096.
Definition maxResponseBindingIDBytes : Z := 16777216.
Definition DefaultResponseBindingTTL : Z := 30 * 24 * 3600 * second.
Definition DefaultResponseBindingCapacity : Z := 100000.

(** The automatic selection is its JSON encoding, which is what the code compares and counts. *)
Record ResponseBinding := mkBinding {
  rb_AutoSelection : option string;
  rb_AccessKeyID : Z;
  rb_ResponseID : string;
  rb_GroupID : Z;
  rb_CredentialID : Z;
  rb_IdentityGeneration : Z;
  rb_ExpiresAt : Z
}.

#[global] Instance ResponseBinding_eq : EqDecision ResponseBinding.
Proof. solve_decision. Defined.

Abbreviation responseBindingKey := (Z * string)%type (only parsing).
Definition bindingKey (b : ResponseBinding) : responseBindingKey := (rb_AccessKeyID b, rb_ResponseID b).

Definition bindingBytes (b : ResponseBinding) : Z :=
  slen (rb_ResponseID b) + match rb_AutoSelection b with Some raw => slen raw | None => 0 end.

Definition setExpiresAt (t : Z) (b : ResponseBinding) : ResponseBinding :=
  mkBinding (rb_AutoSelection b) (rb_AccessKeyID b) (rb_ResponseID b) (rb_GroupID b) (rb_CredentialID b)
    (rb_IdentityGeneration b) t.

Definition IsResourceBindingKey (key : string) : bool := HasPrefix key "native/".

(** * The index in memory *)

Record ResponseBindings := mkBindings {
  bs_elements : gmap positive ResponseBinding;
  bs_entries : gmap (Z * string) positive;
  bs_order : list positive;
  bs_idBytes : Z;
  bs_capacity : Z;
  bs_ttl : Z
}.

Definition NewResponseBindings : ResponseBindings :=
  mkBindings ∅ ∅ [] 0 DefaultResponseBindingCapacity DefaultResponseBindingTTL.

Definition resetBindings (s : ResponseBindings) : ResponseBindings :=
  mkBindings ∅ ∅ [] 0 (bs_capacity s) (bs_ttl s).

(** [remove(element)]; the element leaves the list, its value goes with it. *)
Definition removeBinding (e : positive) (s : ResponseBindings) : ResponseBindings :=
  match bs_elements s !! e with
  | Some b =>
      mkBindings (delete e (bs_elements s)) (delete (bindingKey b) (bs_entries s))
        (filter (fun x => x <> e) (bs_order s)) (bs_idBytes s - bindingBytes b) (bs_capacity s) (bs_ttl s)
  | None => s
  end.

(** The value of the entry of a key. *)
Definition entryOf (s : ResponseBindings) (k : responseBindingKey) : option (positive * ResponseBinding) :=
  match bs_entries s !! k with
  | Some e => match bs_elements s !! e with Some b => Some (e, b) | None => None end
  | None => None
  end.

Fixpoint expireLoop (fuel : nat) (now : Z) (s : ResponseBindings) : ResponseBindings :=
  match fuel with
  | O => s
  | S n =>
      match bs_order s with
      | [] => s
      | e :: _ =>
          match bs_elements s !! e with
          | Some b => if now <? rb_ExpiresAt b then s else expireLoop n now (removeBinding e s)
          | None => s
          end
      end
  end.
Definition expire (now : Z) (s : ResponseBindings) : ResponseBindings := expireLoop (length (bs_order s)) now s.

Definition LookupBinding (accessKeyID : Z) (responseID : string) (now : Z) (s : ResponseBindings)
  : option ResponseBinding * ResponseBindings :=
  match entryOf s (accessKeyID, responseID) with
  | None => (None, s)
  | Some (e, b) => if negb (now <? rb_ExpiresAt b) then (None, removeBinding e s) else (Some b, s)
  end.

(** The eviction loop of [insert]; [None] is the nil dereference of an empty list. *)
Fixpoint evictLoop (fuel : nat) (amount : Z) (s : ResponseBindings) : option ResponseBindings :=
  match fuel with
  | O => None
  | S n =>
      if (bs_capacity s <=? Z.of_nat (size (bs_entries s))) || (maxResponseBindingIDBytes <? bs_idBytes s + amount)
      then match bs_order s with [] => None | e :: _ => evictLoop n amount (removeBinding e s) end
      else Some s
  end.

Definition sameOwner (a b : ResponseBinding) : bool :=
  (rb_GroupID a =? rb_GroupID b) && (rb_CredentialID a =? rb_CredentialID b)
  && (rb_IdentityGeneration a =? rb_IdentityGeneration b).

(** [insert]; [None] is a panic. *)
Definition insertBinding (b : ResponseBinding) (s : ResponseBindings) : option (bool * ResponseBindings) :=
  match entryOf s (bindingKey b) with
  | Some (e, existing) =>
      let matches := sameOwner existing b && bool_decide (rb_AutoSelection existing = rb_AutoSelection b) in
      Some (matches,
        if matches && (rb_ExpiresAt b <? rb_ExpiresAt existing)
        then mkBindings (<[e := setExpiresAt (rb_ExpiresAt b) existing]> (bs_elements s)) (bs_entries s) (bs_order s)
               (bs_idBytes s) (bs_capacity s) (bs_ttl s)
        else s)
  | None =>
      if (bs_capacity s <=? 0) || (bs_ttl s <=? 0) then Some (false, s)
      else
        let amount := bindingBytes b in
        if maxResponseBindingIDBytes <? amount then Some (false, s)
        else
          match evictLoop (S (length (bs_order s))) amount s with
          | None => None
          | Some s' =>
              let e := fresh (dom (bs_elements s')) in
              Some (true, mkBindings (<[e := b]> (bs_elements s')) (<[bindingKey b := e]> (bs_entries s'))
                (bs_order s' ++ [e]) (bs_idBytes s' + amount) (bs_capacity s') (bs_ttl s'))
          end
  end.

Definition recordRefused (accessKeyID : Z) (responseID : string) (ref : CredentialRef) : bool :=
  (accessKeyID =? 0) || bool_decide (responseID = "") || (ref_ID ref =? 0) || (ref_GroupID ref =? 0)
  || (ref_IdentityGeneration ref =? 0) || (maxResponseIDBytes <? slen responseID).

Definition RecordBinding (accessKeyID : Z) (responseID : string) (ref : CredentialRef) (auto : option string) (now : Z)
    (s : ResponseBindings) : option (bool * ResponseBindings) :=
  if recordRefused accessKeyID responseID ref then Some (false, s)
  else
    let s := expire now s in
    insertBinding (mkBinding auto accessKeyID responseID (ref_GroupID ref) (ref_ID ref) (ref_IdentityGeneration ref)
      (now + bs_ttl s)) s.

Definition PrepareResource (accessKeyID : Z) (key : string) (ref : CredentialRef) (now : Z) (s : ResponseBindings)
  : option ResponseBinding :=
  if (accessKeyID =? 0) || negb (IsResourceBindingKey key) || (ref_ID ref =? 0) || (ref_GroupID ref =? 0)
     || (ref_IdentityGeneration ref =? 0) || (maxResponseIDBytes <? slen key) then None
  else
    let candidate :=
      if (bs_capacity s <=? 0) || (bs_ttl s <=? 0) then None
      else Some (mkBinding None accessKeyID key (ref_GroupID ref) (ref_ID ref) (ref_IdentityGeneration ref) (now + bs_ttl s)) in
    match entryOf s (accessKeyID, key) with
    | Some (_, existing) =>
        if now <? rb_ExpiresAt existing then
          if negb (rb_GroupID existing =? ref_GroupID ref) || negb (rb_CredentialID existing =? ref_ID ref)
             || negb (rb_IdentityGeneration existing =? ref_IdentityGeneration ref)
          then None else Some existing
        else candidate
    | None => candidate
    end.

(** The fields a binding must have to be taken over from the table or a checkpoint. *)
Definition bindingComplete (b : ResponseBinding) : bool :=
  negb ((rb_AccessKeyID b =? 0) || bool_decide (rb_ResponseID b = "") || (rb_CredentialID b =? 0) || (rb_GroupID b =? 0)
    || (rb_IdentityGeneration b =? 0) || (maxResponseIDBytes <? slen (rb_ResponseID b))).

Definition Remember (b : ResponseBinding) (now : Z) (s : ResponseBindings) : option (bool * ResponseBindings) :=
  if negb (bindingComplete b) then Some (false, s)
  else if negb (now <? rb_ExpiresAt b) then Some (false, s)
  else
    let s := match entryOf s (bindingKey b) with
             | Some (e, existing) => if negb (now <? rb_ExpiresAt existing) then removeBinding e s else s
             | None => s
             end in
    insertBinding b (expire now s).

Definition CaptureBindings (now : Z) (s : ResponseBindings) : list ResponseBinding * ResponseBindings :=
  let s := expire now s in (omap (fun e => bs_elements s !! e) (bs_order s), s).

(** The loop of [RestoreCheckpoint]; a conflict empties the index. *)
Fixpoint restoreBindingsLoop (bs : list ResponseBinding) (now : Z) (s : ResponseBindings) : option (bool * ResponseBindings) :=
  match bs with
  | [] => Some (true, s)
  | b :: bs' =>
      if negb (bindingComplete b) || negb (now <? rb_ExpiresAt b) then restoreBindingsLoop bs' now s
      else
        match insertBinding b s with
        | None => None
        | Some (false, s') => Some (false, resetBindings s')
        | Some (true, s') => restoreBindingsLoop bs' now s'
        end
  end.

Definition expiresLe (a b : ResponseBinding) : Prop := rb_ExpiresAt a <= rb_ExpiresAt b.
#[global] Instance expiresLe_dec a b : Decision (expiresLe a b).
Proof. unfold expiresLe. apply _. Defined.

Definition RestoreBindings (checkpoint : list ResponseBinding) (now : Z) (s : ResponseBindings)
  : option (bool * ResponseBindings) :=
  restoreBindingsLoop (merge_sort expiresLe checkpoint) now (resetBindings s).

(** * The table *)

Record ResourceRow := mkRow {
  row_ResourceKey : string;
  row_GroupID : Z;
  row_CredentialID : Z;
  row_IdentityGeneration : Z;
  row_ExpiresAtMS : Z
}.

Definition purgeInterval : Z := 60 * minute.

(** The rows by access key and hash, the unique index of the table, and the time of the last
    purge. *)
Record Store := mkStore { st_rows : gmap (Z * string) ResourceRow; st_lastPurge : Z }.

Class ResourceHash := resourceHash : string -> string.

Inductive claimError := ClaimRejected | OwnershipConflict | StoreUnavailable.

Definition unixMilliTime (ms : Z) : Z := unixEpoch + ms * millisecond.

Definition bindingFromRow (accessKeyID : Z) (r : ResourceRow) : ResponseBinding :=
  mkBinding None accessKeyID (row_ResourceKey r) (row_GroupID r) (row_CredentialID r) (row_IdentityGeneration r)
    (unixMilliTime (row_ExpiresAtMS r)).

Section Table.
Context `{ResourceHash}.

(** [purgeExpired]; a failure of the delete leaves the rows. *)
Definition purgeExpired (now : Z) (available : bool) (st : Store) : Store :=
  if timeSub now (st_lastPurge st) <? purgeInterval then st
  else mkStore (if available then filter (fun kr => ~ row_ExpiresAtMS kr.2 <= unixMilli now) (st_rows st) else st_rows st) now.

(** [Claim]: one transaction, undone as a whole by an error.  [available] says whether the
    database answers. *)
Definition Claim (b : ResponseBinding) (now : Z) (available : bool) (st : Store)
  : result claimError ResponseBinding * Store :=
  if negb (IsResourceBindingKey (rb_ResponseID b)) then (Err ClaimRejected, st)
  else if (rb_AccessKeyID b =? 0) || (rb_GroupID b =? 0) || (rb_CredentialID b =? 0) || (rb_IdentityGeneration b =? 0)
  then (Err ClaimRejected, st)
  else if unixMilli (rb_ExpiresAt b) <=? unixMilli now then (Err ClaimRejected, st)
  else if negb available then (Err StoreUnavailable, st)
  else
    let k := (rb_AccessKeyID b, resourceHash (rb_ResponseID b)) in
    let row := mkRow (rb_ResponseID b) (rb_GroupID b) (rb_CredentialID b) (rb_IdentityGeneration b) (unixMilli (rb_ExpiresAt b)) in
    let rows := match st_rows st !! k with
                | Some r => if row_ExpiresAtMS r <=? unixMilli now then delete k (st_rows st) else st_rows st
                | None => st_rows st
                end in
    let rows := match rows !! k with Some _ => rows | None => <[k := row]> rows end in
    match rows !! k with
    | None => (Err StoreUnavailable, st)
    | Some saved =>
        if negb (bool_decide (row_ResourceKey saved = row_ResourceKey row)) || negb (row_GroupID saved =? row_GroupID row)
           || negb (row_CredentialID saved =? row_CredentialID row)
           || negb (row_IdentityGeneration saved =? row_IdentityGeneration row)
        then (Err OwnershipConflict, st)
        else (Ok (bindingFromRow (rb_AccessKeyID b) saved), purgeExpired now available (mkStore rows (st_lastPurge st)))
    end.

(** [Load]; an error is a database that does not answer. *)
Definition Load (accessKeyID : Z) (key : string) (now : Z) (available : bool) (st : Store)
  : result claimError (option ResponseBinding) :=
  if (accessKeyID =? 0) || negb (IsResourceBindingKey key) then Ok None
  else if negb available then Err StoreUnavailable
  else
    match st_rows st !! (accessKeyID, resourceHash key) with
    | Some r =>
        if row_ExpiresAtMS r <=? unixMilli now then Ok None
        else if negb (bool_decide (row_ResourceKey r = key)) then Ok None
        else Ok (Some (bindingFromRow accessKeyID r))
    | None => Ok None
    end.

(** * The gateway *)

(** [recordResourceBinding] with a store. *)
Definition recordResourceBinding (accessKeyID : Z) (key : string) (ref : CredentialRef) (now : Z) (available : bool)
    (m : ResponseBindings) (st : Store) : option (bool * ResponseBindings * Store) :=
  match PrepareResource accessKeyID key ref now m with
  | None => Some (false, m, st)
  | Some b =>
      match Claim b now available st with
      | (Err OwnershipConflict, st') => Some (false, m, st')
      | (Err _, st') =>
          match Remember b now m with Some (ok, m') => Some (ok, m', st') | None => None end
      | (Ok canonical, st') =>
          match Remember canonical now m with Some (ok, m') => Some (ok, m', st') | None => None end
      end
  end.

Inductive lookupError := CacheRefused | LookupUnavailable.

(** [lookupResourceBinding]; the outer [None] is a panic. *)
Definition lookupResourceBinding (accessKeyID : Z) (key : string) (now : Z) (available : bool)
    (m : ResponseBindings) (st : Store) : option (result lookupError (option ResponseBinding) * ResponseBindings) :=
  match LookupBinding accessKeyID key now m with
  | (Some b, m') => Some (Ok (Some b), m')
  | (None, m') =>
      if negb (IsResourceBindingKey key) then Some (Ok None, m')
      else
        match Load accessKeyID key now available st with
        | Err _ => Some (Err LookupUnavailable, m')
        | Ok None => Some (Ok None, m')
        | Ok (Some b) =>
            match Remember b now m' with
            | None => None
            | Some (true, m'') => Some (Ok (Some b), m'')
            | Some (false, m'') => Some (Err CacheRefused, m'')
            end
        end
  end.

End Table.
