(* ===== verification/BindingsProps.v ===== *)
(** The index of bindings stays consistent and bounded and never panics; its operations are
    operations on the map from keys to bindings. *)
From S2P Require Import Prelude GoStrings Config Credential Bindings.

Local Open Scope Z_scope.

(** * The invariant *)

Definition elementBytes (els : gmap positive ResponseBinding) (e : positive) : Z :=
  match els !! e with Some b => bindingBytes b | None => 0 end.

Fixpoint orderBytes (els : gmap positive ResponseBinding) (l : list positive) : Z :=
  match l with [] => 0 | e :: l' => elementBytes els e + orderBytes els l' end.

Record bindings_ok (s : ResponseBindings) : Prop := {
  bo_nodup : NoDup (bs_order s);
  bo_order : forall e, e ∈ bs_order s <-> is_Some (bs_elements s !! e);
  bo_entries : forall k e, bs_entries s !! k = Some e <-> exists b, bs_elements s !! e = Some b /\ bindingKey b = k;
  bo_size : size (bs_entries s) = length (bs_order s);
  bo_bytes : bs_idBytes s = orderBytes (bs_elements s) (bs_order s);
  bo_capacity : Z.of_nat (size (bs_entries s)) <= Z.max 0 (bs_capacity s);
  bo_limit : bs_idBytes s <= maxResponseBindingIDBytes
}.

(** The binding of a key. *)
Definition bindingAt (s : ResponseBindings) (k : Z * string) : option ResponseBinding := snd <$> entryOf s k.

Lemma bindingBytes_nonneg b : 0 <= bindingBytes b.
Proof. unfold bindingBytes, slen. destruct (rb_AutoSelection b); lia. Qed.

Lemma elementBytes_nonneg els e : 0 <= elementBytes els e.
Proof. unfold elementBytes. destruct (els !! e); [apply bindingBytes_nonneg|lia]. Qed.

Lemma orderBytes_nonneg els l : 0 <= orderBytes els l.
Proof. induction l as [|e l IH]; cbn; [lia|]. pose proof (elementBytes_nonneg els e). lia. Qed.

Lemma orderBytes_ext els els' l : (forall e, e ∈ l -> elementBytes els e = elementBytes els' e) ->
  orderBytes els l = orderBytes els' l.
Proof.
  induction l as [|e l IH]; intros H; [done|]. cbn. rewrite (H e) by constructor. f_equal. apply IH. intros x Hx. apply H. by constructor.
Qed.

Lemma orderBytes_app els l l' : orderBytes els (l ++ l') = orderBytes els l + orderBytes els l'.
Proof. induction l as [|e l IH]; cbn; lia. Qed.

Lemma filter_absent (e : positive) (l : list positive) : e ∉ l -> filter (fun x => x <> e) l = l.
Proof. intros H. apply filter_all_in. intros x Hx ->. done. Qed.

Lemma remove_once els e l : NoDup l -> e ∈ l ->
  orderBytes els l = elementBytes els e + orderBytes els (filter (fun x => x <> e) l)
  /\ length l = S (length (filter (fun x => x <> e) l)).
Proof.
  intros Hd He. induction Hd as [|x l Hx Hd IH]; [by apply elem_of_nil in He|]. rewrite filter_cons.
  destruct (decide (x = e)) as [->|Hne].
  - rewrite decide_False by tauto. rewrite filter_absent by done. done.
  - rewrite decide_True by done. apply elem_of_cons in He as [->|He]; [done|]. destruct (IH He) as [H1 H2]. cbn. lia.
Qed.

Lemma entryOf_spec s k e b : bindings_ok s ->
  entryOf s k = Some (e, b) <-> bs_elements s !! e = Some b /\ bindingKey b = k.
Proof.
  intros Hok. unfold entryOf. split.
  - destruct (bs_entries s !! k) as [e'|] eqn:E; [|done]. apply bo_entries in E as (b' & E & Hk); [|done]. rewrite E.
    intros [= <- <-]. done.
  - intros [He Hk]. rewrite (proj2 (bo_entries s Hok k e)) by eauto. by rewrite He.
Qed.

Lemma bindingAt_spec s k b : bindings_ok s ->
  bindingAt s k = Some b <-> exists e, bs_elements s !! e = Some b /\ bindingKey b = k.
Proof.
  intros Hok. unfold bindingAt. rewrite fmap_Some. split.
  - intros ([e b'] & H & ->). apply entryOf_spec in H; eauto.
  - intros (e & H). exists (e, b). split; [|done]. by apply entryOf_spec.
Qed.

Lemma bindingAt_key s k b : bindings_ok s -> bindingAt s k = Some b -> bindingKey b = k.
Proof. intros Hok (e & _ & H)%bindingAt_spec; done. Qed.

(** * Removing *)

Lemma remove_ok s e b : bindings_ok s -> bs_elements s !! e = Some b ->
  let s' := removeBinding e s in
  bindings_ok s' /\ bs_capacity s' = bs_capacity s /\ bs_ttl s' = bs_ttl s
  /\ bs_order s' = filter (fun x => x <> e) (bs_order s)
  /\ forall k, bindingAt s' k = if decide (k = bindingKey b) then None else bindingAt s k.
Proof.
  intros Hok He s'. assert (s' = mkBindings (delete e (bs_elements s)) (delete (bindingKey b) (bs_entries s))
    (filter (fun x => x <> e) (bs_order s)) (bs_idBytes s - bindingBytes b) (bs_capacity s) (bs_ttl s)) as Hs'.
  { subst s'. unfold removeBinding. by rewrite He. }
  clearbody s'. subst s'. assert (e ∈ bs_order s) as Hin by (apply bo_order; eauto).
  destruct (remove_once (bs_elements s) e (bs_order s) (bo_nodup s Hok) Hin) as [Hb Hl].
  assert (bs_entries s !! bindingKey b = Some e) as Hent by (apply bo_entries; eauto).
  assert (elementBytes (bs_elements s) e = bindingBytes b) as Heb by (unfold elementBytes; by rewrite He).
  match goal with |- context [bindings_ok ?x] => assert (bindings_ok x) as Hok' end.
  { split; cbn.
    - by apply NoDup_filter, bo_nodup.
    - intros x. rewrite list_elem_of_filter, bo_order by done. rewrite lookup_delete_is_Some. naive_solver.
    - intros k x. rewrite lookup_delete_Some, bo_entries by done. setoid_rewrite lookup_delete_Some. split.
      + intros [Hne (b' & Hx & Hk)]. exists b'. split; [|done]. split; [|done]. intros <-. congruence.
      + intros (b' & [Hne Hx] & Hk). split; [|eauto]. intros <-. apply Hne.
        assert (bs_entries s !! bindingKey b' = Some x) as Hx' by (apply bo_entries; eauto). congruence.
    - rewrite map_size_delete, Hent, bo_size by done. lia.
    - rewrite bo_bytes, Hb by done. rewrite (orderBytes_ext (delete e (bs_elements s)) (bs_elements s)); [lia|].
      intros x [Hx _]%list_elem_of_filter. unfold elementBytes. by rewrite lookup_delete_ne.
    - rewrite map_size_delete, Hent. pose proof (bo_capacity s Hok). lia.
    - pose proof (bo_limit s Hok). pose proof (bindingBytes_nonneg b). lia. }
  split; [done|]. split; [done|]. split; [done|]. split; [done|]. intros k.
  apply option_eq. intros b'. rewrite bindingAt_spec by done. cbn. setoid_rewrite lookup_delete_Some.
  destruct (decide (k = bindingKey b)) as [->|Hne].
  - split; [|done]. intros (x & [Hx Hx'] & Hk). exfalso. apply Hx.
    assert (bs_entries s !! bindingKey b' = Some x) by (apply bo_entries; eauto). congruence.
  - rewrite bindingAt_spec by done. split; [naive_solver|]. intros (x & Hx & Hk). exists x. split; [|done]. split; [|done].
    intros <-. congruence.
Qed.

(** [s'] keeps the settings of [s] and holds only bindings of [s]. *)
Definition shrinks (s s' : ResponseBindings) : Prop :=
  bindings_ok s' /\ bs_capacity s' = bs_capacity s /\ bs_ttl s' = bs_ttl s
  /\ forall k b, bindingAt s' k = Some b -> bindingAt s k = Some b.

Lemma shrinks_refl s : bindings_ok s -> shrinks s s.
Proof. intros H. unfold shrinks. by split_and!. Qed.

Lemma shrinks_trans s1 s2 s3 : shrinks s1 s2 -> shrinks s2 s3 -> shrinks s1 s3.
Proof. intros (? & ? & ? & ?) (? & ? & ? & ?). unfold shrinks. split_and!; eauto; congruence. Qed.

Lemma remove_shrinks s e b : bindings_ok s -> bs_elements s !! e = Some b -> shrinks s (removeBinding e s).
Proof.
  intros Hok He. destruct (remove_ok s e b Hok He) as (H1 & H2 & H3 & _ & H4). unfold shrinks. split_and!; try done.
  intros k x. rewrite H4. by destruct (decide _).
Qed.

(** Expiry removes expired bindings only. *)
Lemma expireLoop_spec n now s : bindings_ok s ->
  shrinks s (expireLoop n now s)
  /\ forall k b, bindingAt s k = Some b -> now < rb_ExpiresAt b -> bindingAt (expireLoop n now s) k = Some b.
Proof.
  revert s. induction n as [|n IH]; intros s Hok; cbn [expireLoop]; [split; [by apply shrinks_refl|done]|].
  destruct (bs_order s) as [|e l]; [split; [by apply shrinks_refl|done]|].
  destruct (bs_elements s !! e) as [b|] eqn:He; [|split; [by apply shrinks_refl|done]].
  destruct (Z.ltb_spec now (rb_ExpiresAt b)) as [|Hexp]; [split; [by apply shrinks_refl|done]|].
  destruct (remove_ok s e b Hok He) as (Hok' & _ & _ & _ & Hat). destruct (IH _ Hok') as [H1 H2].
  split; [eapply shrinks_trans; [by eapply remove_shrinks|done]|]. intros k x Hx Hlt. apply H2; [|done].
  rewrite Hat. destruct (decide (k = bindingKey b)) as [->|]; [|done].
  rewrite (proj2 (bindingAt_spec s (bindingKey b) b Hok)) in Hx by eauto. injection Hx as <-. lia.
Qed.

Lemma expire_spec now s : bindings_ok s ->
  shrinks s (expire now s)
  /\ forall k b, bindingAt s k = Some b -> now < rb_ExpiresAt b -> bindingAt (expire now s) k = Some b.
Proof. apply expireLoop_spec. Qed.

(** Eviction ends before the list is empty and makes room. *)
Lemma evictLoop_spec n amount s :
  bindings_ok s -> (length (bs_order s) < n)%nat -> 0 < bs_capacity s -> amount <= maxResponseBindingIDBytes ->
  exists s', evictLoop n amount s = Some s' /\ shrinks s s'
    /\ Z.of_nat (size (bs_entries s')) < bs_capacity s' /\ bs_idBytes s' + amount <= maxResponseBindingIDBytes.
Proof.
  revert s. induction n as [|n IH]; intros s Hok Hn Hc Ha; [lia|]. cbn [evictLoop].
  destruct (Z.leb_spec (bs_capacity s) (Z.of_nat (size (bs_entries s)))) as [Hfull|Hroom];
    [|destruct (Z.ltb_spec maxResponseBindingIDBytes (bs_idBytes s + amount)) as [Hfull|Hfit]]; cbn [orb];
    [| |exists s; split; [done|]; split; [by apply shrinks_refl|done]].
  all: pose proof (bo_size s Hok) as Hsize; pose proof (bo_bytes s Hok) as Hbytes;
    destruct (bs_order s) as [|e l] eqn:Ho; [cbn in Hsize, Hbytes; rewrite ?Hsize in *; lia|].
  all: assert (is_Some (bs_elements s !! e)) as [b He] by (apply bo_order; [done|]; rewrite Ho; constructor).
  all: destruct (remove_ok s e b Hok He) as (Hok' & Hcap & _ & Hord & _).
  all: assert (e ∈ bs_order s) as Hin by (rewrite Ho; constructor).
  all: destruct (remove_once (bs_elements s) e (bs_order s) (bo_nodup s Hok) Hin) as [_ Hl].
  all: destruct (IH (removeBinding e s)) as (s' & -> & Hs & ?); [done|rewrite Hord; rewrite Ho in Hl |- *; cbn [length] in *; lia|lia|done|].
  all: exists s'; split; [done|]; split; [|done]; eapply shrinks_trans; [by eapply remove_shrinks|done].
Qed.

(** * Inserting *)

Lemma pushBack_ok s b : bindings_ok s -> bindingAt s (bindingKey b) = None ->
  Z.of_nat (size (bs_entries s)) < bs_capacity s -> bs_idBytes s + bindingBytes b <= maxResponseBindingIDBytes ->
  let e := fresh (dom (bs_elements s)) in
  let s' := mkBindings (<[e := b]> (bs_elements s)) (<[bindingKey b := e]> (bs_entries s)) (bs_order s ++ [e])
    (bs_idBytes s + bindingBytes b) (bs_capacity s) (bs_ttl s) in
  bindings_ok s' /\ forall k, bindingAt s' k = if decide (k = bindingKey b) then Some b else bindingAt s k.
Proof.
  intros Hok Hnone Hc Hl e s'. assert (bs_elements s !! e = None) as He by (apply not_elem_of_dom, is_fresh).
  assert (e ∉ bs_order s) as Hin by (rewrite bo_order by done; rewrite He; by intros [? [=]]).
  assert (forall e' x, bs_elements s !! e' = Some x -> bindingKey x <> bindingKey b) as Hkey.
  { intros e' x Hx Hk. rewrite (proj2 (bindingAt_spec s (bindingKey b) x Hok)) in Hnone by eauto. done. }
  assert (bs_entries s !! bindingKey b = None) as Hent.
  { destruct (bs_entries s !! bindingKey b) as [e'|] eqn:E; [|done]. apply bo_entries in E as (x & Hx & Hk); [|done].
    by apply Hkey in Hx. }
  assert (bindings_ok s') as Hok'.
  { split; cbn.
    - apply NoDup_app. split; [apply Hok|]. split; [by intros x Hx ->%list_elem_of_singleton|apply NoDup_singleton].
    - intros x. rewrite elem_of_app, list_elem_of_singleton, bo_order, lookup_insert_is_Some by done.
      destruct (decide (x = e)) as [->|]; naive_solver.
    - intros k x. rewrite lookup_insert_Some, bo_entries by done. setoid_rewrite lookup_insert_Some. split.
      + intros [[<- <-]|[Hne (x' & Hx & Hk)]]; [eauto|]. exists x'. split; [|done]. right. split; [|done]. intros <-. congruence.
      + intros (x' & [[<- <-]|[Hne Hx]] & Hk); [auto|]. right. split; [|eauto]. intros <-. by eapply Hkey.
    - rewrite map_size_insert_None, length_app, bo_size by done. cbn. lia.
    - rewrite orderBytes_app, bo_bytes by done. cbn [orderBytes].
      assert (elementBytes (<[e:=b]> (bs_elements s)) e = bindingBytes b) as -> by (unfold elementBytes; by rewrite lookup_insert_eq).
      rewrite (orderBytes_ext (<[e:=b]> (bs_elements s)) (bs_elements s)); [lia|]. intros x Hx. unfold elementBytes. rewrite lookup_insert_ne; [done|]. congruence.
    - rewrite map_size_insert_None by done. lia.
    - done. }
  split; [done|]. intros k. apply option_eq. intros x. rewrite bindingAt_spec by done. subst s'. cbn.
  setoid_rewrite lookup_insert_Some. destruct (decide (k = bindingKey b)) as [->|Hne].
  - split; [|intros [= <-]; eauto]. intros (x' & [[_ ->]|[_ Hx]] & Hk); [done|]. exfalso. by eapply Hkey.
  - rewrite bindingAt_spec by done. split; [|intros (x' & Hx & Hk); exists x'; split; [|done]; right; split; [congruence|done]].
    intros (x' & [[_ <-]|[_ Hx]] & Hk); [congruence|eauto].
Qed.

Lemma lower_ok s e existing t : bindings_ok s -> bs_elements s !! e = Some existing ->
  let s' := mkBindings (<[e := setExpiresAt t existing]> (bs_elements s)) (bs_entries s) (bs_order s) (bs_idBytes s)
    (bs_capacity s) (bs_ttl s) in
  bindings_ok s' /\ forall k, bindingAt s' k = if decide (k = bindingKey existing) then Some (setExpiresAt t existing) else bindingAt s k.
Proof.
  intros Hok He s'. assert (bs_entries s !! bindingKey existing = Some e) as Hent by (apply bo_entries; eauto).
  assert (bindings_ok s') as Hok'.
  { split; cbn; try apply Hok.
    - intros x. rewrite bo_order, lookup_insert_is_Some by done. destruct (decide (x = e)) as [->|]; [|naive_solver].
      rewrite He. naive_solver.
    - intros k x. rewrite bo_entries by done. setoid_rewrite lookup_insert_Some. destruct (decide (x = e)) as [->|].
      + rewrite He. split; [intros (b & [= <-] & <-); eauto|]. intros (b & [[_ <-]|[? _]] & <-); [eauto|done].
      + split; [intros (b & ? & ?); eauto 10|]. intros (b & [[? _]|[_ ?]] & ?); [done|eauto].
    - rewrite bo_bytes by done. apply orderBytes_ext. intros x _. unfold elementBytes.
      destruct (decide (x = e)) as [->|]; [by rewrite lookup_insert_eq, He|by rewrite lookup_insert_ne]. }
  split; [done|]. intros k. apply option_eq. intros x. rewrite bindingAt_spec by done. subst s'. cbn.
  setoid_rewrite lookup_insert_Some. destruct (decide (k = bindingKey existing)) as [->|Hne].
  - split; [|intros [= <-]; eauto 10]. intros (x' & [[_ <-]|[Hx Hx']] & Hk); [done|]. exfalso. apply Hx.
    assert (bs_entries s !! bindingKey x = Some x') by (apply bo_entries; eauto). congruence.
  - rewrite bindingAt_spec by done. split; [|intros (x' & Hx & Hk); exists x'; split; [|done]; right; split; [congruence|done]].
    intros (x' & [[_ <-]|[_ Hx]] & Hk); [by rewrite <- Hk in Hne|eauto].
Qed.

(** What an insertion does to the bindings: every binding was there before or is the new one,
    under its owner. *)
Record inserted (b : ResponseBinding) (s : ResponseBindings) (ok : bool) (s' : ResponseBindings) : Prop := {
  in_ok : bindings_ok s';
  in_capacity : bs_capacity s' = bs_capacity s;
  in_ttl : bs_ttl s' = bs_ttl s;
  in_origin : forall k x, bindingAt s' k = Some x ->
    bindingAt s k = Some x
    \/ k = bindingKey b /\ ok = true /\ sameOwner x b = true /\ rb_ExpiresAt x = rb_ExpiresAt b
       /\ rb_AutoSelection x = rb_AutoSelection b;
  in_conflict : forall x, bindingAt s (bindingKey b) = Some x ->
    ok = sameOwner x b && bool_decide (rb_AutoSelection x = rb_AutoSelection b);
  in_new : bindingAt s (bindingKey b) = None -> 0 < bs_capacity s -> 0 < bs_ttl s ->
    bindingBytes b <= maxResponseBindingIDBytes -> ok = true
}.

Lemma insert_spec b s : bindings_ok s -> exists ok s', insertBinding b s = Some (ok, s') /\ inserted b s ok s'.
Proof.
  intros Hok. unfold insertBinding. destruct (entryOf s (bindingKey b)) as [[e x]|] eqn:He.
  - assert (bindingAt s (bindingKey b) = Some x) as Hx by (unfold bindingAt; by rewrite He).
    apply entryOf_spec in He as [He Hk]; [|done].
    set (m := sameOwner x b && bool_decide (rb_AutoSelection x = rb_AutoSelection b)).
    exists m. eexists. split; [done|].
    destruct (m && (rb_ExpiresAt b <? rb_ExpiresAt x)) eqn:Hlow.
    + apply andb_true_iff in Hlow as [Hm _]. destruct (lower_ok s e x (rb_ExpiresAt b) Hok He) as [Hok' Hat].
      split; try done; try congruence; [|intros y; rewrite Hx; by intros [= <-]].
      intros k y. rewrite Hat. destruct (decide (k = bindingKey x)) as [->|]; [|auto]. intros [= <-]. right.
      split; [done|]. split; [done|]. subst m. apply andb_true_iff in Hm as [Hm Ha%bool_decide_eq_true]. done.
    + split; try done; try congruence; [auto|intros y; rewrite Hx; by intros [= <-]].
  - assert (bindingAt s (bindingKey b) = None) as Hx by (unfold bindingAt; by rewrite He).
    destruct (Z.leb_spec (bs_capacity s) 0), (Z.leb_spec (bs_ttl s) 0); cbn [orb];
      [exists false, s; split; [done|]; split; try done; try auto; try congruence; lia..|].
    destruct (Z.ltb_spec maxResponseBindingIDBytes (bindingBytes b)).
    { exists false, s; split; [done|]; split; try done; try auto; try congruence; lia. }
    destruct (evictLoop_spec (S (length (bs_order s))) (bindingBytes b) s) as (s1 & -> & (Hok1 & Hc & Ht & Hsub) & Hsz & Hb);
      [done|lia|lia|done|].
    destruct (pushBack_ok s1 b Hok1) as [Hok2 Hat]; [|done|done|].
    { destruct (bindingAt s1 (bindingKey b)) eqn:E; [|done]. apply Hsub in E. congruence. }
    eexists true, _. split; [done|]. split; try done; try congruence.
    intros k y. rewrite Hat. destruct (decide (k = bindingKey b)) as [->|]; [|auto]. intros [= <-]. right.
    split; [done|]. split; [done|]. unfold sameOwner. by rewrite !Z.eqb_refl.
Qed.

(** * Every operation keeps the invariant *)

Lemma lookup_spec ak id now s : bindings_ok s ->
  let '(r, s') := LookupBinding ak id now s in
  shrinks s s' /\ r = match bindingAt s (ak, id) with Some b => if now <? rb_ExpiresAt b then Some b else None | None => None end
  /\ (r = None -> bindingAt s' (ak, id) = None) /\ (r <> None -> s' = s).
Proof.
  intros Hok. unfold LookupBinding, bindingAt at 1. destruct (entryOf s (ak, id)) as [[e b]|] eqn:He; cbn [fmap option_fmap option_map snd].
  - apply entryOf_spec in He as [He Hk]; [|done]. destruct (Z.ltb_spec now (rb_ExpiresAt b)); cbn [negb].
    + split; [by apply shrinks_refl|done].
    + destruct (remove_ok s e b Hok He) as (_ & _ & _ & _ & Hat). split; [by eapply remove_shrinks|]. split; [done|].
      split; [|done]. intros _. by rewrite Hat, decide_True.
  - split; [by apply shrinks_refl|]. split; [done|]. split; [|done]. intros _. unfold bindingAt. by rewrite He.
Qed.

Lemma shrinks_inserted b s s1 ok s' : shrinks s s1 -> inserted b s1 ok s' ->
  bindings_ok s' /\ bs_capacity s' = bs_capacity s /\ bs_ttl s' = bs_ttl s
  /\ forall k x, bindingAt s' k = Some x ->
       bindingAt s k = Some x \/ k = bindingKey b /\ ok = true /\ sameOwner x b = true /\ rb_ExpiresAt x = rb_ExpiresAt b
       /\ rb_AutoSelection x = rb_AutoSelection b.
Proof.
  intros (H1 & H2 & H3 & H4) [I1 I2 I3 I4 _ _]. split; [done|]. split; [congruence|]. split; [congruence|].
  intros k x [Hx|Hx]%I4; auto.
Qed.

(** The part of [Remember] before the insertion. *)
Lemma remember_clean b now s : bindings_ok s ->
  exists s1, shrinks s s1
    /\ (forall k x, bindingAt s k = Some x -> now < rb_ExpiresAt x -> bindingAt s1 k = Some x)
    /\ (forall x, bindingAt s1 (bindingKey b) = Some x -> now < rb_ExpiresAt x)
    /\ Remember b now s = if negb (bindingComplete b) then Some (false, s) else if negb (now <? rb_ExpiresAt b) then Some (false, s)
                          else insertBinding b s1.
Proof.
  intros Hok. unfold Remember.
  assert (exists s0, shrinks s s0
    /\ (forall k x, bindingAt s k = Some x -> now < rb_ExpiresAt x -> bindingAt s0 k = Some x)
    /\ (forall x, bindingAt s0 (bindingKey b) = Some x -> now < rb_ExpiresAt x)
    /\ match entryOf s (bindingKey b) with
       | Some (e, existing) => if negb (now <? rb_ExpiresAt existing) then removeBinding e s else s
       | None => s
       end = s0) as (s0 & H1 & H2 & H3 & ->).
  { destruct (entryOf s (bindingKey b)) as [[e x]|] eqn:He.
    - assert (bindingAt s (bindingKey b) = Some x) as Hx by (unfold bindingAt; by rewrite He).
      apply entryOf_spec in He as [He Hk]; [|done]. destruct (Z.ltb_spec now (rb_ExpiresAt x)); cbn [negb]; eexists.
      + split; [by apply shrinks_refl|]. split; [done|]. split; [|done]. intros y. rewrite Hx. by intros [= <-].
      + destruct (remove_ok s e x Hok He) as (_ & _ & _ & _ & Hat). split; [by eapply remove_shrinks|].
        split; [|split; [|done]].
        * intros k y Hy Hlt. rewrite Hat. destruct (decide (k = bindingKey x)) as [->|]; [|done]. rewrite Hk, Hx in Hy. injection Hy as <-. lia.
        * intros y. by rewrite Hat, Hk, decide_True.
    - eexists. split; [by apply shrinks_refl|]. split; [done|]. split; [|done]. intros y. unfold bindingAt. by rewrite He. }
  destruct H1 as (Hok0 & ? & ? & Hsub). destruct (expire_spec now s0 Hok0) as [H4 H5].
  exists (expire now s0). split; [by eapply shrinks_trans; [|done]|]. split; [auto|]. split; [|done].
  intros x Hx. apply H3. by apply H4.
Qed.

Lemma reset_ok s : bindings_ok (resetBindings s).
Proof.
  split; cbn; [constructor| | |done|done|rewrite map_size_empty; lia|done].
  - intros e. rewrite elem_of_nil, lookup_empty. split; [done|by intros [? ?]].
  - intros k e. rewrite lookup_empty. setoid_rewrite lookup_empty. split; [done|by intros (? & ? & _)].
Qed.

Lemma restoreBindingsLoop_ok bs now s : bindings_ok s ->
  exists ok s', restoreBindingsLoop bs now s = Some (ok, s') /\ bindings_ok s' /\ bs_capacity s' = bs_capacity s.
Proof.
  revert s. induction bs as [|b bs IH]; intros s Hok; cbn [restoreBindingsLoop]; [by exists true, s|].
  destruct (_ || _); [by apply IH|]. destruct (insert_spec b s Hok) as (ok & s1 & -> & Hi).
  destruct ok.
  - destruct (IH s1 (in_ok _ _ _ _ Hi)) as (ok & s2 & -> & ? & ?). exists ok, s2. split; [done|]. split; [done|].
    pose proof (in_capacity _ _ _ _ Hi). congruence.
  - exists false. eexists. split; [done|]. split; [apply reset_ok|]. apply (in_capacity _ _ _ _ Hi).
Qed.

Inductive bindingOp :=
| OpLookup (accessKeyID : Z) (responseID : string) (now : Z)
| OpRecord (accessKeyID : Z) (responseID : string) (ref : CredentialRef) (auto : option string) (now : Z)
| OpRemember (b : ResponseBinding) (now : Z)
| OpCapture (now : Z)
| OpRestore (checkpoint : list ResponseBinding) (now : Z).

Definition applyBindingOp (op : bindingOp) (s : ResponseBindings) : option ResponseBindings :=
  match op with
  | OpLookup ak id now => Some (LookupBinding ak id now s).2
  | OpRecord ak id ref auto now => snd <$> RecordBinding ak id ref auto now s
  | OpRemember b now => snd <$> Remember b now s
  | OpCapture now => Some (CaptureBindings now s).2
  | OpRestore cp now => snd <$> RestoreBindings cp now s
  end.

Fixpoint runBindingOps (ops : list bindingOp) (s : ResponseBindings) : option ResponseBindings :=
  match ops with
  | [] => Some s
  | op :: ops' => match applyBindingOp op s with Some s' => runBindingOps ops' s' | None => None end
  end.

Lemma record_spec ak id ref auto now s : bindings_ok s ->
  exists ok s', RecordBinding ak id ref auto now s = Some (ok, s') /\ bindings_ok s'
    /\ bs_capacity s' = bs_capacity s /\ bs_ttl s' = bs_ttl s
    /\ forall k x, bindingAt s' k = Some x -> bindingAt s k = Some x \/ k = (ak, id).
Proof.
  intros Hok. unfold RecordBinding. destruct (recordRefused ak id ref); [by exists false, s; split_and!; auto|].
  destruct (expire_spec now s Hok) as [Hs _]. cbv zeta.
  edestruct (insert_spec (mkBinding auto ak id (ref_GroupID ref) (ref_ID ref) (ref_IdentityGeneration ref) (now + bs_ttl (expire now s)))
    (expire now s)) as (ok & s' & E & Hi); [apply Hs|]. exists ok, s'. split; [exact E|].
  destruct (shrinks_inserted _ _ _ _ _ Hs Hi) as (H1 & H2 & H3 & H4). split_and!; try done.
  intros k x [?|(-> & _)]%H4; auto.
Qed.

Lemma remember_ok b now s : bindings_ok s ->
  exists ok s', Remember b now s = Some (ok, s') /\ bindings_ok s' /\ bs_capacity s' = bs_capacity s.
Proof.
  intros Hok. destruct (remember_clean b now s Hok) as (s1 & Hs & _ & _ & ->).
  destruct (negb (bindingComplete b)); [by exists false, s|]. destruct (negb (now <? _)); [by exists false, s|].
  destruct (insert_spec b s1) as (ok & s' & E & Hi); [apply Hs|]. exists ok, s'. split; [done|].
  destruct (shrinks_inserted _ _ _ _ _ Hs Hi) as (H1 & H2 & _). done.
Qed.

Lemma applyBindingOp_ok op s : bindings_ok s ->
  exists s', applyBindingOp op s = Some s' /\ bindings_ok s' /\ bs_capacity s' = bs_capacity s.
Proof.
  intros Hok. destruct op as [ak id now|ak id ref auto now|b now|now|cp now]; cbn [applyBindingOp].
  - pose proof (lookup_spec ak id now s Hok) as H. destruct (LookupBinding ak id now s) as [r s']. destruct H as [(H1 & H2 & _) _]. by exists s'.
  - destruct (record_spec ak id ref auto now s Hok) as (ok & s' & -> & ? & ? & _). by exists s'.
  - destruct (remember_ok b now s Hok) as (ok & s' & -> & ?). by exists s'.
  - destruct (expire_spec now s Hok) as [(H1 & H2 & _) _]. by exists (expire now s).
  - destruct (restoreBindingsLoop_ok (merge_sort expiresLe cp) now (resetBindings s) (reset_ok s)) as (ok & s' & E & ? & ?).
    exists s'. unfold RestoreBindings. by rewrite E.
Qed.

Lemma runBindingOps_ok ops s : bindings_ok s ->
  exists s', runBindingOps ops s = Some s' /\ bindings_ok s' /\ bs_capacity s' = bs_capacity s.
Proof.
  revert s. induction ops as [|op ops IH]; intros s Hok; cbn [runBindingOps]; [by exists s|].
  destruct (applyBindingOp_ok op s Hok) as (s1 & -> & Hok1 & Hc). destruct (IH s1 Hok1) as (s' & -> & ? & ?).
  exists s'. split; [done|]. split; [done|congruence].
Qed.

(** Whatever responses and resources are recorded, remembered, looked up, captured and
    restored, the index never dereferences an empty list, the map, the list and the byte count
    agree, and it stays within its capacity and 16 MiB. *)
Theorem bindings_bounded (ops : list bindingOp) :
  exists s, runBindingOps ops NewResponseBindings = Some s /\ bindings_ok s
    /\ Z.of_nat (size (bs_entries s)) <= DefaultResponseBindingCapacity
    /\ 0 <= bs_idBytes s <= maxResponseBindingIDBytes.
Proof.
  destruct (runBindingOps_ok ops NewResponseBindings (reset_ok NewResponseBindings)) as (s & E & Hok & Hc).
  exists s. split; [done|]. split; [done|]. pose proof (bo_capacity s Hok) as Hcap. rewrite Hc in Hcap.
  split; [exact Hcap|]. split; [rewrite (bo_bytes s Hok); apply orderBytes_nonneg|apply Hok].
Qed.
