(* ===== verification/BindingsOwner.v ===== *)
(** The owner of a native resource: memory, table and gateway together.  Once a credential has
    been recorded as the owner, it stays the owner until the recorded expiry, across evictions,
    restarts and other requests.  A restart loses the memory or restores it from the checkpoint
    of the shutdown ([internal/app/runtime_checkpoint.go]).  The table is available throughout:
    without it the gateway falls back to memory alone. *)
From S2P Require Import Prelude GoStrings Config Credential Bindings BindingsProps.

Local Open Scope Z_scope.

Lemma unixMilli_lt now ms : unixMilli now < ms <-> now < unixMilliTime ms.
Proof. unfold unixMilli, unixMilliTime, millisecond. Z.div_mod_to_equations. lia. Qed.

Lemma unixMilli_time ms : unixMilli (unixMilliTime ms) = ms.
Proof. unfold unixMilli, unixMilliTime, millisecond. Z.div_mod_to_equations. lia. Qed.

Section Owner.
Context `{ResourceHash}.

(** * Restoring the bindings of a checkpoint *)

Definition samePending (a b : ResponseBinding) : bool :=
  (rb_AccessKeyID a =? rb_AccessKeyID b) && bool_decide (rb_ResponseID a = rb_ResponseID b) && sameOwner a b.

(** The body of the loop of [mergePendingResourceBindings]: the earlier expiry of two bindings
    of the same identity counts. *)
Definition mergePendingStep (now : Z) (result : list ResponseBinding) (b : ResponseBinding) : list ResponseBinding :=
  if negb (IsResourceBindingKey (rb_ResponseID b)) || negb (now <? rb_ExpiresAt b) then result
  else match list_find (fun x => samePending x b = true) result with
       | Some (index, x) => if rb_ExpiresAt b <? rb_ExpiresAt x then <[index := b]> result else result
       | None => result ++ [b]
       end.

Definition mergePendingResourceBindings (pending restored : list ResponseBinding) (now : Z) : list ResponseBinding :=
  fold_left (mergePendingStep now) (pending ++ restored) [].

(** The body of the loop of [persistResourceBindings]: what goes to memory, and the table. *)
Definition persistStep (now : Z) (acc : list ResponseBinding * Store) (b : ResponseBinding) : list ResponseBinding * Store :=
  let '(restored, st) := acc in
  if negb (now <? rb_ExpiresAt b) then acc
  else match Claim b now true st with
       | (Ok canonical, st') => (restored ++ [canonical], st')
       | (Err OwnershipConflict, st') => (restored, st')
       | (Err _, st') => (restored ++ [b], st')
       end.

Definition persistResourceBindings (now : Z) (bindings : list ResponseBinding) (st : Store) : list ResponseBinding * Store :=
  fold_left (persistStep now) bindings ([], st).

(** The part of [Restore] about bindings, with a store and without a pending file. *)
Definition restoreResponses (document : list ResponseBinding) (now : Z) (st : Store) : option (ResponseBindings * Store) :=
  let pending := mergePendingResourceBindings [] document now in
  let bindings := filter (fun b => IsResourceBindingKey (rb_ResponseID b) = false) document in
  let '(resources, st') := persistResourceBindings now pending st in
  match RestoreBindings (bindings ++ resources) now NewResponseBindings with
  | Some (_, m) => Some (m, st')
  | None => None
  end.

(** * The system *)

Record resourceSystem := mkSystem { rs_now : Z; rs_memory : ResponseBindings; rs_store : Store }.

Inductive resource_step : resourceSystem -> resourceSystem -> Prop :=
| step_tick now now' m st : now <= now' -> resource_step (mkSystem now m st) (mkSystem now' m st)
| step_response now m st ak id ref auto ok m' :
    IsResourceBindingKey id = false -> RecordBinding ak id ref auto now m = Some (ok, m') ->
    resource_step (mkSystem now m st) (mkSystem now m' st)
| step_record now m st ak key ref ok m' st' :
    recordResourceBinding ak key ref now true m st = Some (ok, m', st') ->
    resource_step (mkSystem now m st) (mkSystem now m' st')
| step_lookup now m st ak key r m' :
    lookupResourceBinding ak key now true m st = Some (r, m') ->
    resource_step (mkSystem now m st) (mkSystem now m' st)
| step_restart now m st : resource_step (mkSystem now m st) (mkSystem now NewResponseBindings st)
| step_resume now now' m st m' st' :
    now <= now' -> restoreResponses (CaptureBindings now m).1 now' st = Some (m', st') ->
    resource_step (mkSystem now m st) (mkSystem now' m' st').

Definition newSystem (now : Z) : resourceSystem := mkSystem now NewResponseBindings (mkStore ∅ 0).

(** * The invariant *)

Definition rowOwner (r : ResourceRow) : Z * Z * Z := (row_GroupID r, row_CredentialID r, row_IdentityGeneration r).
Definition bindingOwner (b : ResponseBinding) : Z * Z * Z := (rb_GroupID b, rb_CredentialID b, rb_IdentityGeneration b).
Definition refOwner (ref : CredentialRef) : Z * Z * Z := (ref_GroupID ref, ref_ID ref, ref_IdentityGeneration ref).

Definition rowAt (st : Store) (ak : Z) (key : string) : option ResourceRow := st_rows st !! (ak, resourceHash key).

Record rowOk (ak : Z) (r : ResourceRow) : Prop := {
  ro_native : IsResourceBindingKey (row_ResourceKey r) = true;
  ro_complete : bindingComplete (bindingFromRow ak r) = true
}.

(** A live binding in memory is the one in the table. *)
Definition agrees (now : Z) (m : ResponseBindings) (st : Store) : Prop :=
  forall ak key b, IsResourceBindingKey key = true -> bindingAt m (ak, key) = Some b -> now < rb_ExpiresAt b ->
    exists r, rowAt st ak key = Some r /\ b = bindingFromRow ak r /\ row_ResourceKey r = key.

Record system_ok (s : resourceSystem) : Prop := {
  so_memory : bindings_ok (rs_memory s);
  so_capacity : bs_capacity (rs_memory s) = DefaultResponseBindingCapacity;
  so_ttl : bs_ttl (rs_memory s) = DefaultResponseBindingTTL;
  so_rows : forall ak h r, st_rows (rs_store s) !! (ak, h) = Some r -> rowOk ak r;
  so_agrees : agrees (rs_now s) (rs_memory s) (rs_store s)
}.

Lemma sameOwner_iff a b : sameOwner a b = true <-> bindingOwner a = bindingOwner b.
Proof. unfold sameOwner, bindingOwner. rewrite !andb_true_iff, !Z.eqb_eq.
  split; [by intros [[-> ->] ->]|by intros [= -> -> ->]].
Qed.

(** * The table *)

(** Rows that have not expired stay; the only new row is the claimed one. *)
Record claimed (now : Z) (st st' : Store) (k : Z * string) (row : ResourceRow) : Prop := {
  cl_live : forall k' r, st_rows st !! k' = Some r -> unixMilli now < row_ExpiresAtMS r -> st_rows st' !! k' = Some r;
  cl_origin : forall k' r, st_rows st' !! k' = Some r -> st_rows st !! k' = Some r \/ k' = k /\ r = row
}.

Lemma purge_lookup now av st k r : st_rows (purgeExpired now av st) !! k = Some r ->
  st_rows st !! k = Some r.
Proof.
  unfold purgeExpired. destruct (timeSub _ _ <? _); [done|]. destruct av; [|done]. cbn. by intros [? _]%map_lookup_filter_Some.
Qed.

Lemma purge_live now av st k r : st_rows st !! k = Some r -> unixMilli now < row_ExpiresAtMS r ->
  st_rows (purgeExpired now av st) !! k = Some r.
Proof.
  intros Hk Hr. unfold purgeExpired. destruct (timeSub _ _ <? _); [done|]. destruct av; [|done]. cbn.
  apply map_lookup_filter_Some. split; [done|]. cbn. lia.
Qed.

Definition claimRow (b : ResponseBinding) : ResourceRow :=
  mkRow (rb_ResponseID b) (rb_GroupID b) (rb_CredentialID b) (rb_IdentityGeneration b) (unixMilli (rb_ExpiresAt b)).

(** A live row with the same key and owner is kept and returned. *)
Lemma Claim_spec b now st :
  IsResourceBindingKey (rb_ResponseID b) = true -> bindingComplete b = true ->
  unixMilli now < unixMilli (rb_ExpiresAt b) ->
  match Claim b now true st with
  | (Ok c, st') =>
      exists r, rowAt st' (rb_AccessKeyID b) (rb_ResponseID b) = Some r /\ c = bindingFromRow (rb_AccessKeyID b) r
        /\ row_ResourceKey r = rb_ResponseID b /\ rowOwner r = bindingOwner b /\ unixMilli now < row_ExpiresAtMS r
        /\ (r = claimRow b \/ rowAt st (rb_AccessKeyID b) (rb_ResponseID b) = Some r)
        /\ claimed now st st' (rb_AccessKeyID b, resourceHash (rb_ResponseID b)) (claimRow b)
  | (Err e, st') => e = OwnershipConflict /\ st' = st
      /\ exists r, rowAt st (rb_AccessKeyID b) (rb_ResponseID b) = Some r /\ unixMilli now < row_ExpiresAtMS r
           /\ (row_ResourceKey r <> rb_ResponseID b \/ rowOwner r <> bindingOwner b)
  end.
Proof.
  intros Hn Hc Hexp. unfold Claim. rewrite Hn. cbn [negb].
  unfold bindingComplete in Hc. apply negb_true_iff in Hc. apply orb_false_iff in Hc as [Hc _].
  apply orb_false_iff in Hc as [Hc Hgen]. apply orb_false_iff in Hc as [Hc Hgrp]. apply orb_false_iff in Hc as [Hc Hcred].
  apply orb_false_iff in Hc as [Hak _]. rewrite Hak, Hgrp, Hcred, Hgen. cbn [orb].
  rewrite (proj2 (Z.leb_gt _ _)) by done. cbn [negb]. fold (claimRow b). set (k := (rb_AccessKeyID b, resourceHash (rb_ResponseID b))).
  unfold rowAt. fold k.
  (* the row that is kept, if any, is live *)
  assert (exists rows, match st_rows st !! k with
      | Some r => if row_ExpiresAtMS r <=? unixMilli now then delete k (st_rows st) else st_rows st
      | None => st_rows st end = rows
    /\ (forall r, rows !! k = Some r -> st_rows st !! k = Some r /\ unixMilli now < row_ExpiresAtMS r)
    /\ (forall k' r, st_rows st !! k' = Some r -> unixMilli now < row_ExpiresAtMS r -> rows !! k' = Some r)
    /\ (forall k' r, rows !! k' = Some r -> st_rows st !! k' = Some r)) as (rows & -> & Hk & Hlive & Hsub).
  { destruct (st_rows st !! k) as [r|] eqn:Er; [destruct (Z.leb_spec (row_ExpiresAtMS r) (unixMilli now))|]; eexists; (split; [done|]).
    - split; [intros r'; by rewrite lookup_delete_eq|]. split; [|by intros k' r' [_ ?]%lookup_delete_Some].
      intros k' r' Hr' Hl. apply lookup_delete_Some. split; [|done]. intros <-. rewrite Er in Hr'. injection Hr' as <-. lia.
    - split; [|done]. intros r' Hr'. rewrite Er in Hr'. injection Hr' as <-. done.
    - split; [|done]. intros r' Hr'. congruence. }
  destruct (rows !! k) as [saved|] eqn:Es.
  - rewrite Es. specialize (Hk saved eq_refl) as [Hk Hlv]. destruct (negb (bool_decide _) || _ || _ || _) eqn:Hm.
    + split; [done|]. split; [done|]. exists saved. split; [done|]. split; [done|].
      destruct (decide (row_ResourceKey saved = rb_ResponseID b)) as [E|E]; [right|by left].
      cbn in Hm. rewrite bool_decide_true in Hm by done. cbn [negb orb] in Hm. intros [= E1 E2 E3].
      rewrite E1, E2, E3, !Z.eqb_refl in Hm. done.
    + rewrite !orb_false_iff, !negb_false_iff, bool_decide_eq_true, !Z.eqb_eq in Hm. destruct Hm as [[[E E1] E2] E3]. cbn in E, E1, E2, E3.
      exists saved. split; [by apply purge_live|]. split; [done|]. split; [done|]. split; [unfold rowOwner, bindingOwner; congruence|].
      split; [done|]. split; [by right|]. split.
      * intros k' r Hr Hl. apply purge_live; [by apply Hlive|done].
      * intros k' r Hr%purge_lookup. left. by apply Hsub.
  - rewrite lookup_insert_eq. cbn [row_ResourceKey row_GroupID row_CredentialID row_IdentityGeneration claimRow].
    rewrite bool_decide_true, !Z.eqb_refl by done. cbn [negb orb]. exists (claimRow b).
    split; [apply purge_live; [apply lookup_insert_eq|done]|]. do 3 (split; [done|]). split; [done|]. split; [by left|]. split.
    + intros k' r Hr Hl. apply purge_live; [|done]. cbn. rewrite lookup_insert_ne; [by apply Hlive|].
      intros <-. apply Hlive in Hr; [congruence|done].
    + intros k' r Hr%purge_lookup. cbn in Hr. apply lookup_insert_Some in Hr as [[<- <-]|[_ Hr]]; [by right|left; by apply Hsub].
Qed.

(** * Memory follows the table *)

Lemma native_nonempty key : IsResourceBindingKey key = true -> key <> "".
Proof. by intros Hk ->. Qed.

Lemma complete_bytes b : bindingComplete b = true -> rb_AutoSelection b = None -> bindingBytes b <= maxResponseBindingIDBytes.
Proof.
  unfold bindingComplete, bindingBytes. intros Hc ->. apply negb_true_iff in Hc. apply orb_false_iff in Hc as [_ Hc].
  unfold maxResponseIDBytes, maxResponseBindingIDBytes in *. lia.
Qed.

Lemma agrees_tick now now' m st : now <= now' -> agrees now m st -> agrees now' m st.
Proof. intros Hn Ha ak key b Hk Hb Hl. eapply Ha; [done..|lia]. Qed.

Lemma agrees_shrinks now m m' st : shrinks m m' -> agrees now m st -> agrees now m' st.
Proof. intros (_ & _ & _ & Hs) Ha ak key b Hk Hb Hl. eapply Ha; [done|by apply Hs|done]. Qed.

(** A live row of the table is remembered. *)
Lemma remember_row now m st ak key r :
  bindings_ok m -> bs_capacity m = DefaultResponseBindingCapacity -> bs_ttl m = DefaultResponseBindingTTL ->
  agrees now m st -> rowOk ak r -> rowAt st ak key = Some r -> row_ResourceKey r = key -> unixMilli now < row_ExpiresAtMS r ->
  exists m', Remember (bindingFromRow ak r) now m = Some (true, m') /\ bindings_ok m' /\ agrees now m' st
    /\ bs_capacity m' = DefaultResponseBindingCapacity /\ bs_ttl m' = DefaultResponseBindingTTL.
Proof.
  intros Hok Hcap Httl Hag [Hnat Hcomp] Hrow Hkey Hlive. subst key. set (b := bindingFromRow ak r).
  destruct (remember_clean b now m Hok) as (m1 & Hs & _ & Hlv & ->). fold b in Hcomp. rewrite Hcomp. cbn [negb].
  apply unixMilli_lt in Hlive. rewrite (proj2 (Z.ltb_lt now (rb_ExpiresAt b))) by done. cbn [negb].
  destruct (insert_spec b m1) as (ok & m' & -> & Hi); [apply Hs|].
  assert (ok = true) as ->.
  { destruct (bindingAt m1 (bindingKey b)) as [x|] eqn:Ex.
    - rewrite (in_conflict _ _ _ _ Hi x Ex). destruct (agrees_shrinks _ _ _ _ Hs Hag ak (row_ResourceKey r) x) as (r' & Hr' & -> & _); [done..|by apply Hlv|].
      rewrite Hrow in Hr'. injection Hr' as <-. fold b. rewrite bool_decide_true by done. rewrite (proj2 (sameOwner_iff b b)) by done. done.
    - destruct Hs as (_ & Hc & Ht & _). eapply in_new; [done|done|rewrite Hc, Hcap; done|rewrite Ht, Httl; done|by apply complete_bytes]. }
  destruct (shrinks_inserted _ _ _ _ _ Hs Hi) as (Hok' & Hc' & Ht' & Horig). exists m'. split; [done|]. split; [done|].
  split; [|split; congruence]. intros ak' key' x Hk' Hx Hl. pose proof (bindingAt_key _ _ _ Hok' Hx) as Hxk.
  destruct (Horig _ _ Hx) as [Hx'|(Hk & _ & Hsame%sameOwner_iff & Hexp & Hauto)]; [by eapply Hag|].
  injection Hk as -> ->. exists r. split; [done|]. split; [|done].
  destruct x. unfold bindingKey in Hxk. cbn in *. unfold bindingOwner in Hsame. subst b. unfold bindingFromRow in *. cbn in *. congruence.
Qed.

(** What [PrepareResource] hands to the table. *)
Lemma prepare_spec now m st ak key ref b :
  system_ok (mkSystem now m st) -> PrepareResource ak key ref now m = Some b ->
  bindingKey b = (ak, key) /\ bindingOwner b = refOwner ref /\ IsResourceBindingKey key = true
  /\ bindingComplete b = true /\ unixMilli now < unixMilli (rb_ExpiresAt b).
Proof.
  intros [Hok Hcap Httl Hrows Hag]. cbn [rs_now rs_memory rs_store] in *. unfold PrepareResource.
  destruct (_ || _) eqn:Hchk; [done|]. rewrite !orb_false_iff, negb_false_iff in Hchk.
  destruct Hchk as [[[[[Hak Hnat] Hid] Hg] Hgen] Hlen]. rewrite Hcap, Httl. cbn [Z.leb orb DefaultResponseBindingCapacity DefaultResponseBindingTTL].
  replace ((_ <=? 0) || _) with false by done.
  assert (forall x, Some (mkBinding None ak key (ref_GroupID ref) (ref_ID ref) (ref_IdentityGeneration ref) (now + DefaultResponseBindingTTL)) = Some x ->
    bindingKey x = (ak, key) /\ bindingOwner x = refOwner ref /\ IsResourceBindingKey key = true
    /\ bindingComplete x = true /\ unixMilli now < unixMilli (rb_ExpiresAt x)) as Hcand.
  { intros x [= <-]. split; [done|]. split; [done|]. split; [done|]. split.
    - unfold bindingComplete. cbn. rewrite bool_decide_false by (by apply native_nonempty). by rewrite Hak, Hid, Hg, Hgen, Hlen.
    - unfold unixMilli, DefaultResponseBindingTTL, second, millisecond. cbn [rb_ExpiresAt]. Z.div_mod_to_equations. lia. }
  destruct (entryOf m (ak, key)) as [[e x]|] eqn:He; [|apply Hcand].
  assert (bindingAt m (ak, key) = Some x) as Hx by (unfold bindingAt; by rewrite He).
  destruct (Z.ltb_spec now (rb_ExpiresAt x)); [|apply Hcand].
  destruct (_ || _) eqn:Hown; [done|]. rewrite !orb_false_iff, !negb_false_iff, !Z.eqb_eq in Hown. destruct Hown as [[E1 E2] E3].
  intros [= <-]. split; [by eapply bindingAt_key|]. split; [unfold bindingOwner, refOwner; congruence|]. split; [done|].
  destruct (Hag ak key x Hnat Hx) as (r & Hr & -> & _); [done|]. split; [by eapply ro_complete, Hrows|].
  cbn [bindingFromRow rb_ExpiresAt] in *. rewrite unixMilli_time. by apply unixMilli_lt.
Qed.

Lemma agrees_claimed now m st st' k row : claimed now st st' k row -> agrees now m st -> agrees now m st'.
Proof.
  intros [Hl _] Ha ak key b Hk Hb Hlive. destruct (Ha ak key b Hk Hb Hlive) as (r & Hr & -> & Hkey).
  exists r. split; [|done]. apply Hl; [done|]. by apply unixMilli_lt.
Qed.

(** * The gateway's operations *)

(** A recorded resource has a live row under its owner; a refused one changes nothing. *)
Lemma recordResource_spec now m st ak key ref :
  system_ok (mkSystem now m st) ->
  exists ok m' st', recordResourceBinding ak key ref now true m st = Some (ok, m', st')
    /\ system_ok (mkSystem now m' st')
    /\ (forall k r, st_rows st !! k = Some r -> unixMilli now < row_ExpiresAtMS r -> st_rows st' !! k = Some r)
    /\ if ok then exists r, rowAt st' ak key = Some r /\ row_ResourceKey r = key /\ rowOwner r = refOwner ref
         /\ unixMilli now < row_ExpiresAtMS r
       else m' = m /\ st' = st.
Proof.
  intros Hsys. unfold recordResourceBinding. destruct (PrepareResource ak key ref now m) as [b|] eqn:Hp.
  2:{ exists false, m, st. by split_and!. }
  destruct (prepare_spec _ _ _ _ _ _ _ Hsys Hp) as (Hkey & Hown & Hnat & Hcomp & Hexp). injection Hkey as Hak Hid.
  rewrite <- Hid in Hnat. pose proof (Claim_spec b now st Hnat Hcomp Hexp) as Hcl. rewrite Hak, Hid in Hcl.
  destruct (Claim b now true st) as [[c|e] st'].
  2:{ destruct Hcl as (-> & -> & _). exists false, m, st. by split_and!. }
  destruct Hcl as (r & Hr & -> & Hrk & Hro & Hlive & _ & Hclaim). destruct Hsys as [Hok Hcap Httl Hrows Hag]. cbn [rs_now rs_memory rs_store] in *.
  assert (forall ak' h' r', st_rows st' !! (ak', h') = Some r' -> rowOk ak' r') as Hrows'.
  { intros ak' h' r' [Hr'|[[= -> _] ->]]%(cl_origin _ _ _ _ _ Hclaim); [by eapply Hrows|].
    split; [done|]. unfold bindingComplete in *. cbn. by rewrite <- Hak. }
  destruct (remember_row now m st' ak key r) as (m' & -> & ? & ? & ? & ?); try done; [by eapply agrees_claimed|by eapply Hrows'|].
  exists true, m', st'. split; [done|]. split; [by split|]. split; [apply (cl_live _ _ _ _ _ Hclaim)|].
  exists r. split; [done|]. split; [done|]. split; [congruence|done].
Qed.

(** A lookup answers with the live row of the table. *)
Lemma lookupResource_spec now m st ak key :
  system_ok (mkSystem now m st) ->
  exists res m', lookupResourceBinding ak key now true m st = Some (res, m') /\ system_ok (mkSystem now m' st)
    /\ forall r, ak <> 0 -> IsResourceBindingKey key = true -> rowAt st ak key = Some r -> row_ResourceKey r = key ->
         unixMilli now < row_ExpiresAtMS r -> res = Ok (Some (bindingFromRow ak r)).
Proof.
  intros [Hok Hcap Httl Hrows Hag]. cbn [rs_now rs_memory rs_store] in *. unfold lookupResourceBinding.
  pose proof (lookup_spec ak key now m Hok) as Hlk. destruct (LookupBinding ak key now m) as [[b|] m'].
  { destruct Hlk as (_ & Hb & _ & ->); [|done]. exists (Ok (Some b)), m. split; [done|]. split; [by split|].
    intros r _ Hnat Hr _ _. destruct (bindingAt m (ak, key)) as [x|] eqn:Hx; [|done].
    destruct (Z.ltb_spec now (rb_ExpiresAt x)); [|done]. injection Hb as <-.
    destruct (Hag ak key b Hnat Hx) as (r' & Hr' & -> & _); [done|]. rewrite Hr in Hr'. by injection Hr' as <-. }
  destruct Hlk as (Hs & _ & _). pose proof (agrees_shrinks _ _ _ _ Hs Hag) as Hag'. destruct Hs as (Hok' & Hcap' & Httl' & _).
  assert (system_ok (mkSystem now m' st)) as Hsys' by (split; cbn; [exact Hok'|congruence|congruence|exact Hrows|exact Hag']).
  destruct (IsResourceBindingKey key) eqn:Hnat; cbn [negb]; [|exists (Ok None), m'; split_and!; [done|done|intros; congruence]].
  unfold Load. rewrite Hnat, orb_false_r. cbn [negb]. destruct (Z.eqb_spec ak 0) as [->|Hak]; [exists (Ok None), m'; split_and!; [done|done|intros; congruence]|].
  fold (rowAt st ak key). destruct (rowAt st ak key) as [r|] eqn:Hr; [|exists (Ok None), m'; split_and!; [done|done|intros; congruence]].
  destruct (Z.leb_spec (row_ExpiresAtMS r) (unixMilli now)).
  { exists (Ok None), m'. split; [done|]. split; [done|]. intros r' _ _ [= <-]. lia. }
  destruct (decide (row_ResourceKey r = key)) as [Hk|Hk].
  2:{ rewrite bool_decide_false by done. exists (Ok None), m'. split; [done|]. split; [done|]. by intros r' _ _ [= <-]. }
  rewrite bool_decide_true by done. cbn [negb].
  destruct (remember_row now m' st ak key r) as (m'' & -> & ? & ? & ? & ?); try done; [congruence|congruence|by eapply Hrows|].
  eexists _, m''. split; [done|]. split; [by split|]. by intros r' _ _ [= <-].
Qed.

(** * A restart with a checkpoint *)

(** The binding is the one of a row of the table. *)
Definition ofRow (st : Store) (b : ResponseBinding) : Prop :=
  exists r, rowAt st (rb_AccessKeyID b) (rb_ResponseID b) = Some r /\ b = bindingFromRow (rb_AccessKeyID b) r
    /\ row_ResourceKey r = rb_ResponseID b.

Lemma insert_agrees now m st b ok m' :
  inserted b m ok m' -> agrees now m st -> (IsResourceBindingKey (rb_ResponseID b) = true -> ofRow st b) -> agrees now m' st.
Proof.
  intros Hi Hag Hb ak key x Hk Hx Hl. pose proof (bindingAt_key _ _ _ (in_ok _ _ _ _ Hi) Hx) as Hxk.
  destruct (in_origin _ _ _ _ Hi _ _ Hx) as [Hx'|(Hkb & _ & Hsame%sameOwner_iff & Hexp & Hauto)]; [by eapply Hag|].
  injection Hkb as -> ->. destruct (Hb Hk) as (r & Hr & Eb & Erk). exists r. split; [done|]. split; [|done]. rewrite <- Eb.
  destruct x, b. unfold bindingKey, bindingOwner in *. cbn in *. congruence.
Qed.

Lemma restoreLoop_agrees bs now m st ok m' :
  bindings_ok m -> agrees now m st ->
  (forall b, b ∈ bs -> now < rb_ExpiresAt b -> IsResourceBindingKey (rb_ResponseID b) = true -> ofRow st b) ->
  restoreBindingsLoop bs now m = Some (ok, m') ->
  bindings_ok m' /\ bs_capacity m' = bs_capacity m /\ bs_ttl m' = bs_ttl m /\ agrees now m' st.
Proof.
  revert m. induction bs as [|b bs IH]; intros m Hok Hag Hbs; cbn [restoreBindingsLoop]; [by intros [= <- <-]|].
  assert (forall x, x ∈ bs -> now < rb_ExpiresAt x -> IsResourceBindingKey (rb_ResponseID x) = true -> ofRow st x) as Hbs'
    by (intros x Hx; apply Hbs; by constructor).
  destruct (_ || _) eqn:Eg; [by apply IH|]. apply orb_false_iff in Eg as [_ Eg]. apply negb_false_iff, Z.ltb_lt in Eg.
  destruct (insert_spec b m Hok) as (ok1 & m1 & -> & Hi). destruct ok1.
  - intros E. destruct (IH m1) as (? & Hc & Ht & ?); [apply Hi|eapply insert_agrees; [done|done|]|done|done|].
    { intros Hn. apply Hbs; [constructor|done|done]. }
    pose proof (in_capacity _ _ _ _ Hi). pose proof (in_ttl _ _ _ _ Hi). split_and!; congruence || done.
  - intros [= <- <-]. split; [apply reset_ok|]. split; [apply (in_capacity _ _ _ _ Hi)|]. split; [apply (in_ttl _ _ _ _ Hi)|].
    intros ak key x _ Hx. unfold bindingAt, entryOf in Hx. cbn in Hx. by rewrite lookup_empty in Hx.
Qed.

(** Bindings taken from memory are those of the table, and claiming them changes no live row. *)
Lemma capture_ofRow now now' m st b :
  system_ok (mkSystem now m st) -> now <= now' -> b ∈ (CaptureBindings now m).1 -> now' < rb_ExpiresAt b ->
  IsResourceBindingKey (rb_ResponseID b) = true -> ofRow st b.
Proof.
  intros Hsys Hn Hb Hl Hk. destruct Hsys as [Hok _ _ _ Hag]. cbn [rs_now rs_memory rs_store] in *. unfold CaptureBindings in Hb. cbn [fst] in Hb.
  apply list_elem_of_omap in Hb as (e & _ & He). destruct (expire_spec now m Hok) as [(Hok' & _ & _ & Hsub) _].
  assert (bindingAt (expire now m) (bindingKey b) = Some b) as Hat by (apply bindingAt_spec; [done|eauto]).
  apply (Hag (rb_AccessKeyID b) (rb_ResponseID b) b Hk (Hsub _ _ Hat)). lia.
Qed.

Lemma mergePending_sub now pending restored b :
  b ∈ mergePendingResourceBindings pending restored now ->
  b ∈ pending ++ restored /\ now < rb_ExpiresAt b /\ IsResourceBindingKey (rb_ResponseID b) = true.
Proof.
  unfold mergePendingResourceBindings. set (l := pending ++ restored).
  assert (forall acc, (forall x, x ∈ acc -> x ∈ l /\ now < rb_ExpiresAt x /\ IsResourceBindingKey (rb_ResponseID x) = true) ->
    forall l', (forall x, x ∈ l' -> x ∈ l) -> forall x, x ∈ fold_left (mergePendingStep now) l' acc ->
    x ∈ l /\ now < rb_ExpiresAt x /\ IsResourceBindingKey (rb_ResponseID x) = true) as Hfold.
  2: { apply (Hfold []); [intros x Hx; by apply not_elem_of_nil in Hx|done]. }
  intros acc Hacc l'. revert acc Hacc. induction l' as [|y l' IH]; intros acc Hacc Hl x; cbn [fold_left]; [by apply Hacc|].
  apply IH; [|intros z Hz; apply Hl; by constructor]. clear x. intros x. unfold mergePendingStep.
  destruct (negb _ || _) eqn:Eg; [by apply Hacc|]. apply orb_false_iff in Eg as [E1%negb_false_iff E2%negb_false_iff]. apply Z.ltb_lt in E2.
  assert (y ∈ l /\ now < rb_ExpiresAt y /\ IsResourceBindingKey (rb_ResponseID y) = true) as Hy by (split; [apply Hl; constructor|done]).
  destruct (list_find _ acc) as [[i z]|]; [case_if; [|by apply Hacc]|].
  - intros Hx. apply list_elem_of_lookup in Hx as [j Hj]. apply list_lookup_insert_Some in Hj as [(_ & <- & _)|[_ Hj]]; [done|].
    apply Hacc. by eapply list_elem_of_lookup_2.
  - intros [Hx| ->%list_elem_of_singleton]%elem_of_app; [by apply Hacc|done].
Qed.

Definition keptRows (now : Z) (st st' : Store) : Prop :=
  (forall k r, st_rows st !! k = Some r -> unixMilli now < row_ExpiresAtMS r -> st_rows st' !! k = Some r)
  /\ forall k r, st_rows st' !! k = Some r -> st_rows st !! k = Some r.

Lemma claim_ofRow now st b :
  (forall ak h r, st_rows st !! (ak, h) = Some r -> rowOk ak r) -> ofRow st b -> now < rb_ExpiresAt b ->
  exists st', Claim b now true st = (Ok b, st') /\ keptRows now st st' /\ ofRow st' b.
Proof.
  intros Hrows (r & Hr & Eb & Erk) Hl. destruct (Hrows _ _ _ Hr) as [Hnat Hcomp]. rewrite <- Eb in Hcomp. rewrite Erk in Hnat.
  assert (rb_ExpiresAt b = unixMilliTime (row_ExpiresAtMS r)) as Ee by (by rewrite Eb at 1).
  assert (unixMilli now < row_ExpiresAtMS r) as Hlive by (apply unixMilli_lt; by rewrite <- Ee).
  assert (claimRow b = r) as Ecl by (rewrite Eb; unfold claimRow, bindingFromRow; cbn; rewrite unixMilli_time; by destruct r).
  pose proof (Claim_spec b now st Hnat Hcomp) as Hc. rewrite Ee, unixMilli_time in Hc. specialize (Hc Hlive).
  destruct (Claim b now true st) as [[c|e] st'].
  - destruct Hc as (r' & Hr' & -> & Hrk' & _ & _ & _ & [Hkeep Horig]). pose proof (Hkeep _ _ Hr Hlive) as Hr2.
    unfold rowAt in Hr'. rewrite Hr2 in Hr'. injection Hr' as <-. rewrite <- Eb. exists st'. split; [done|]. split; [split; [exact Hkeep|]|by exists r].
    intros k x [Hx|[-> ->]]%Horig; [done|]. by rewrite Ecl.
  - destruct Hc as (_ & _ & x & Hx & _ & Hne). rewrite Hr in Hx. injection Hx as <-. rewrite Eb in Hne. by destruct Hne.
Qed.

Lemma keptRows_ofRow now st st' b : keptRows now st st' -> ofRow st b -> now < rb_ExpiresAt b -> ofRow st' b.
Proof.
  intros [Hk _] (r & Hr & Eb & Erk) Hl. exists r. split; [|done]. apply Hk; [done|]. apply unixMilli_lt. by rewrite Eb in Hl.
Qed.

Lemma persist_ok now bs st :
  (forall ak h r, st_rows st !! (ak, h) = Some r -> rowOk ak r) -> (forall b, b ∈ bs -> now < rb_ExpiresAt b -> ofRow st b) ->
  let '(restored, st') := persistResourceBindings now bs st in
  keptRows now st st' /\ forall b, b ∈ restored -> now < rb_ExpiresAt b /\ ofRow st' b.
Proof.
  intros Hrows Hbs. unfold persistResourceBindings.
  pose proof (fold_left_inv (fun acc => keptRows now st acc.2 /\ forall b, b ∈ acc.1 -> now < rb_ExpiresAt b /\ ofRow acc.2 b)
    (persistStep now) bs ([], st)) as Hinv. destruct (fold_left _ _ _) as [restored st']. apply Hinv; clear Hinv.
  { split; [by split|]. intros b Hb. by apply not_elem_of_nil in Hb. }
  intros [acc sti] b Hb [[Hk1 Hk2] Hacc]. cbn [fst snd] in *. unfold persistStep.
  destruct (Z.ltb_spec now (rb_ExpiresAt b)) as [Hl|]; cbn [negb]; [|done].
  destruct (claim_ofRow now sti b) as (st2 & -> & Hk & Hb2); [by eauto|eapply keptRows_ofRow; [by split|by apply Hbs|done]|done|]. cbn [fst snd].
  split; [destruct Hk as [Hk3 Hk4]; split; eauto|]. intros x [Hx| ->%list_elem_of_singleton]%elem_of_app; [|done].
  destruct (Hacc x Hx) as [H1 H2]. split; [done|]. by eapply keptRows_ofRow.
Qed.

Lemma restore_ok now now' m st m' st' :
  system_ok (mkSystem now m st) -> now <= now' -> restoreResponses (CaptureBindings now m).1 now' st = Some (m', st') ->
  system_ok (mkSystem now' m' st') /\ keptRows now' st st'.
Proof.
  intros Hsys Hn. pose proof (so_rows _ Hsys) as Hrows. cbn [rs_store] in Hrows. unfold restoreResponses. set (doc := (CaptureBindings now m).1).
  pose proof (persist_ok now' (mergePendingResourceBindings [] doc now') st Hrows) as Hp.
  destruct (persistResourceBindings _ _ _) as [res st1]. destruct Hp as [Hk Hres].
  { intros b (Hb & Hl & Hnat)%mergePending_sub _. by eapply capture_ofRow. }
  unfold RestoreBindings. destruct (restoreBindingsLoop _ _ _) as [[ok m1]|] eqn:E; [|done]. intros [= -> ->]. split; [|done].
  apply (restoreLoop_agrees _ _ _ st') in E as (H1 & H2 & H3 & H4).
  - split; cbn; [done|done|done| |done]. intros ak h r Hr. destruct Hk as [_ Hk]. by apply Hk, Hrows in Hr.
  - apply reset_ok.
  - intros ak key x _ Hx. unfold bindingAt, entryOf in Hx. cbn in Hx. by rewrite lookup_empty in Hx.
  - intros b Hb Hl Hnat. rewrite merge_sort_Permutation in Hb. apply elem_of_app in Hb as [[Hno _]%list_elem_of_filter|Hb]; [congruence|]. by apply Hres.
Qed.

Lemma resource_step_ok s s' : system_ok s -> resource_step s s' ->
  system_ok s' /\ rs_now s <= rs_now s'
  /\ forall k r, st_rows (rs_store s) !! k = Some r -> unixMilli (rs_now s') < row_ExpiresAtMS r ->
       st_rows (rs_store s') !! k = Some r.
Proof.
  intros Hsys Hstep. destruct Hstep as [now now' m st Hn|now m st ak id ref auto ok m' Hid Hrec|now m st ak key ref ok m' st' Hrec|now m st ak key r m' Hlk|now m st|now now' m st m' st' Hn Hres];
    cbn [rs_now rs_store].
  - split; [|done]. destruct Hsys as [? ? ? ? ?]. split; try done. by eapply agrees_tick.
  - split; [|done]. destruct Hsys as [Hok Hcap Httl Hrows Hag]. cbn [rs_now rs_memory rs_store] in *.
    destruct (record_spec ak id ref auto now m Hok) as (ok' & m'' & E & Hok' & Hc & Ht & Horig). rewrite Hrec in E. injection E as <- <-.
    split; cbn; try congruence || done. intros ak' key b Hk Hb Hl. destruct (Horig _ _ Hb) as [?|[= -> ->]]; [by eapply Hag|congruence].
  - destruct (recordResource_spec now m st ak key ref Hsys) as (ok' & m'' & st'' & E & ? & ? & _). rewrite Hrec in E. injection E as <- <- <-. done.
  - destruct (lookupResource_spec now m st ak key Hsys) as (res & m'' & E & ? & _). rewrite Hlk in E. injection E as <- <-. done.
  - split; [|done]. destruct Hsys as [? ? ? Hrows ?]. split; try done; apply (reset_ok NewResponseBindings).
  - destruct (restore_ok _ _ _ _ _ _ Hsys Hn Hres) as [Hsys' [Hk _]]. split; [done|]. split; [done|]. done.
Qed.

Lemma resource_run_ok s s' : system_ok s -> rtc resource_step s s' ->
  system_ok s' /\ rs_now s <= rs_now s'
  /\ forall k r, st_rows (rs_store s) !! k = Some r -> unixMilli (rs_now s') < row_ExpiresAtMS r ->
       st_rows (rs_store s') !! k = Some r.
Proof.
  intros Hsys Hrun. induction Hrun as [s|s s1 s' Hstep Hrun IH]; [by split_and!|].
  destruct (resource_step_ok s s1 Hsys Hstep) as (Hsys1 & Hn1 & Hk1). destruct (IH Hsys1) as (Hsys' & Hn & Hk).
  split; [done|]. split; [lia|]. intros k r Hr Hl. apply Hk; [|done]. apply Hk1; [done|].
  rewrite unixMilli_lt in Hl |- *. lia.
Qed.

Lemma newSystem_ok now : system_ok (newSystem now).
Proof. split; try done; apply (reset_ok NewResponseBindings). Qed.

(** A live row refuses every other owner. *)
Lemma recordResource_conflict now m st ak key ref r :
  system_ok (mkSystem now m st) -> rowAt st ak key = Some r -> row_ResourceKey r = key -> unixMilli now < row_ExpiresAtMS r ->
  rowOwner r <> refOwner ref -> recordResourceBinding ak key ref now true m st = Some (false, m, st).
Proof.
  intros Hsys Hr Hk Hl Hne. destruct (recordResource_spec now m st ak key ref Hsys) as (ok & m' & st' & E & _ & Hkeep & Hres).
  rewrite E. destruct ok; [|by destruct Hres as [-> ->]]. destruct Hres as (r' & Hr' & _ & Ho & _).
  apply (Hkeep _ _ Hr) in Hl. unfold rowAt in Hr'. rewrite Hl in Hr'. injection Hr' as <-. done.
Qed.

(** C20: While the database answers: whatever happened before, once a native resource is recorded
    for a credential, then until the expiry of its row, and whatever other responses and resources
    are recorded or looked up, however memory evicts and however often the process restarts, with
    an empty memory or with the checkpoint of its shutdown, a lookup answers with that credential
    and a recording for any other owner is refused and changes nothing. *)
Theorem resource_owner_stable t0 s1 ak key ref m1 st1 :
  rtc resource_step (newSystem t0) s1 -> ak <> 0 ->
  recordResourceBinding ak key ref (rs_now s1) true (rs_memory s1) (rs_store s1) = Some (true, m1, st1) ->
  exists r, rowAt st1 ak key = Some r /\ rowOwner r = refOwner ref /\ unixMilli (rs_now s1) < row_ExpiresAtMS r
    /\ forall s2, rtc resource_step (mkSystem (rs_now s1) m1 st1) s2 -> unixMilli (rs_now s2) < row_ExpiresAtMS r ->
         (exists b m2, lookupResourceBinding ak key (rs_now s2) true (rs_memory s2) (rs_store s2) = Some (Ok (Some b), m2)
            /\ bindingOwner b = refOwner ref)
         /\ forall other, refOwner other <> refOwner ref ->
              recordResourceBinding ak key other (rs_now s2) true (rs_memory s2) (rs_store s2)
              = Some (false, rs_memory s2, rs_store s2).
Proof.
  intros Hrun Hak Hrec. destruct (resource_run_ok _ _ (newSystem_ok t0) Hrun) as (Hsys1 & _ & _).
  destruct s1 as [now m st]. cbn [rs_now rs_memory rs_store] in *.
  destruct (recordResource_spec now m st ak key ref Hsys1) as (ok & m' & st' & E & Hsys' & _ & Hres). rewrite Hrec in E.
  injection E as <- <- <-. destruct Hres as (r & Hr & Hk & Ho & Hl). exists r. split; [done|]. split; [done|]. split; [done|].
  intros [now2 m2 st2] Hrun2 Hl2. destruct (resource_run_ok _ _ Hsys' Hrun2) as (Hsys2 & _ & Hkeep). cbn [rs_now rs_memory rs_store] in *.
  specialize (Hkeep _ _ Hr Hl2). fold (rowAt st2 ak key) in Hkeep. split.
  - destruct (lookupResource_spec now2 m2 st2 ak key Hsys2) as (res & m2' & -> & _ & Hans). rewrite (Hans r); try done.
    + eexists _, _. split; [done|]. exact Ho.
    + rewrite <- Hk. eapply ro_native, (so_rows _ Hsys2), Hkeep.
  - intros other Hne. eapply recordResource_conflict; try done. congruence.
Qed.

End Owner.

(** * An example *)

Lemma resource_owner_stable_witness :
  let hash : ResourceHash := fun key => key in
  let ref := mkRef "owner" 7 3 1 1 "" "" "" "" 0 0 in
  exists s1 m1 st1, rtc resource_step (newSystem unixEpoch) s1
    /\ recordResourceBinding 5 "native/file/f1" ref (rs_now s1) true (rs_memory s1) (rs_store s1) = Some (true, m1, st1)
    /\ exists r, rowAt st1 5 "native/file/f1" = Some r /\ rowOwner r = refOwner ref
         /\ recordResourceBinding 5 "native/file/f1" (mkRef "other" 8 3 1 1 "" "" "" "" 0 0) (rs_now s1) true NewResponseBindings st1
            = Some (false, NewResponseBindings, st1).
Proof.
  intros hash ref. set (s1 := mkSystem (unixEpoch + minute) NewResponseBindings (mkStore ∅ 0)).
  assert (rtc resource_step (newSystem unixEpoch) s1) as Hrun.
  { apply rtc_once. apply step_tick. unfold minute. lia. }
  destruct (recordResourceBinding 5 "native/file/f1" ref (rs_now s1) true (rs_memory s1) (rs_store s1)) as [[[ok m1] st1]|] eqn:E;
    [|vm_compute in E; discriminate].
  assert (ok = true) as -> by (vm_compute in E; congruence).
  exists s1, m1, st1. split; [exact Hrun|]. split; [exact E|].
  destruct (resource_owner_stable unixEpoch s1 5 "native/file/f1" ref m1 st1 Hrun ltac:(done) E) as (r & Hr & Ho & Hl & Hafter).
  exists r. split; [done|]. split; [done|].
  destruct (Hafter (mkSystem (rs_now s1) NewResponseBindings st1)) as [_ Hc]; [apply rtc_once, step_restart|done|].
  by apply (Hc (mkRef "other" 8 3 1 1 "" "" "" "" 0 0)).
Defined.
