(* ===== verification/Refresh.v ===== *)
(** Refreshing subscription credentials: [internal/subscription/credential_manager.go], with the
    rows it reads ([internal/storage/models/group.go]), the entries the loader builds from them
    ([internal/state/loader/loader.go]) and the other writers of the authorisation state
    ([internal/control/bootstrap.go], [credential_stages.go]).

    The database is a map of rows.  Every query takes the next of a list of outcomes: it may
    succeed, fail, or be committed although it reports an error.  What the provider answers, what
    other parts of the program do while it answers, and the ciphertexts are given by the
    environment [RefreshRun] of a run.  Every call of the provider is recorded. *)
From Stdlib Require Import Ascii.
From S2P Require Import Prelude GoStrings Execution Config Credential Ledger Registry.

Local Open Scope go_scope.
Local Open Scope Z_scope.

(** * Rows *)

(** The time stamps of a row are not kept: nothing here reads them. *)
Record CredentialRow := mkCredentialRow {
  cr_Name : string;
  cr_ID : Z;
  cr_GroupID : Z;
  cr_Data : string;
  cr_Fingerprint : string;
  cr_IdentityFingerprint : string;
  cr_SecretVersion : Z;
  cr_AuthState : CredentialAuthState;
  cr_AuthErrorCode : string;
  cr_Status : CredentialStatus;
  cr_WeightManual : option Z;
  cr_ProxyConfig : option string
}.

Record GroupRow := mkGroupRow { gr_ChannelID : string; gr_ConnectionType : string; gr_Params : string }.

(** An entry of the proxy catalog the loader has read and checked. *)
Record ManagedProxy := mkManagedProxy { mp_Enabled : bool; mp_Config : string; mp_RuntimeFingerprint : string }.

Definition withAuth (a : CredentialAuthState) (code : string) (r : CredentialRow) : CredentialRow :=
  mkCredentialRow (cr_Name r) (cr_ID r) (cr_GroupID r) (cr_Data r) (cr_Fingerprint r) (cr_IdentityFingerprint r)
    (cr_SecretVersion r) a code (cr_Status r) (cr_WeightManual r) (cr_ProxyConfig r).

(** A new secret: ready, without an error. *)
Definition withNewSecret (data fingerprint : string) (version : Z) (r : CredentialRow) : CredentialRow :=
  mkCredentialRow (cr_Name r) (cr_ID r) (cr_GroupID r) data fingerprint (cr_IdentityFingerprint r) version AuthReady ""
    (cr_Status r) (cr_WeightManual r) (cr_ProxyConfig r).

(** * The provider *)

Record Account := mkAccount {
  ac_PlanType : string;
  ac_Email : string;
  ac_ExpiresAt : Z;
  ac_ExpiresAtKnown : bool;
  ac_LastRefresh : Z;
  ac_LastRefreshKnown : bool
}.

(** The secrets kept for the redaction of logs have no counterpart. *)
Record SubCredential := mkSubCredential {
  sc_canonical : string;
  sc_identity : string;
  sc_account : Account;
  sc_expiresAt : Z;
  sc_expires : bool
}.

Definition ExpiresAt (c : SubCredential) : option Z := if sc_expires c then Some (sc_expiresAt c) else None.

Inductive RefreshFailure :=
| RefreshFailureOutcomeUnknown
| RefreshFailureRetryable
| RefreshFailureReauthorizationRequired
| RefreshFailureIdentityChanged.

#[export] Instance RefreshFailure_eq_dec : EqDecision RefreshFailure.
Proof. solve_decision. Defined.

Record RefreshFailureDecision := mkFailure {
  fd_Kind : RefreshFailure;
  fd_StatusCode : Z;
  fd_OAuthCode : string;
  fd_RetryAfter : Z
}.

Record Driver := mkDriver {
  drv_ID : string;
  drv_Parse : string -> option SubCredential;
  drv_MatchesRefreshIdentity : option (SubCredential -> SubCredential -> bool)
}.

Definition RefreshPreservesIdentity (d : Driver) (current refreshed : SubCredential) : bool :=
  if bool_decide (sc_identity current = "") || bool_decide (sc_identity refreshed = "") then false
  else match drv_MatchesRefreshIdentity d with
       | Some matches => matches current refreshed
       | None => bool_decide (sc_identity current = sc_identity refreshed)
       end.

(** * The world *)

Inductive dbOutcome := Done | Failed | FailedAfterCommit.

(** A call of the provider: the credential, the version of the secret that was handed out,
    whether an operator asked for the recovery, and whether the provider's answer says that the
    secret was not used. *)
Record ProviderCall := mkCall { pc_ID : Z; pc_Version : Z; pc_Recovery : bool; pc_Retryable : bool }.

Record World := mkWorld {
  w_rows : gmap Z CredentialRow;
  w_groups : gmap Z GroupRow;
  w_proxies : option (gmap Z ManagedProxy);
  w_registry : CredentialRegistry;
  w_outcomes : list dbOutcome;
  w_calls : list ProviderCall
}.

Definition setRows (rows : gmap Z CredentialRow) (w : World) : World :=
  mkWorld rows (w_groups w) (w_proxies w) (w_registry w) (w_outcomes w) (w_calls w).
Definition setRegistry (r : CredentialRegistry) (w : World) : World :=
  mkWorld (w_rows w) (w_groups w) (w_proxies w) r (w_outcomes w) (w_calls w).

(** ** Other writers of the authorisation state *)

(** A staged authorisation that replaces the secret of a credential. *)
Record Reauthorization := mkReauthorization {
  ra_ID : Z;
  ra_GroupID : Z;
  ra_IdentityFingerprint : string;
  ra_SecretVersion : Z;
  ra_Data : string;
  ra_Fingerprint : string
}.

Definition reauthorizable (a : CredentialAuthState) : bool :=
  match a with AuthReauthorizationRequired | AuthOutcomeUnknown => true | _ => false end.

Definition reauthorize (a : Reauthorization) (rows : gmap Z CredentialRow) : gmap Z CredentialRow :=
  match rows !! ra_ID a with
  | Some r =>
      if (cr_GroupID r =? ra_GroupID a) && bool_decide (cr_IdentityFingerprint r = ra_IdentityFingerprint a)
         && (cr_SecretVersion r =? ra_SecretVersion a) && reauthorizable (cr_AuthState r)
      then <[ra_ID a := withNewSecret (ra_Data a) (ra_Fingerprint a) (u64 (ra_SecretVersion a + 1)) r]> rows
      else rows
  | None => rows
  end.

(** The first statement of [EnsureInitialState], at every start. *)
Definition interruptRefreshes (rows : gmap Z CredentialRow) : gmap Z CredentialRow :=
  (fun r => if bool_decide (cr_AuthState r = AuthRefreshing) then withAuth AuthOutcomeUnknown "refresh_interrupted" r else r) <$> rows.

(** State passing. *)
Abbreviation io := (stateM World) (only parsing).

Definition nextOutcome : io dbOutcome := fun w =>
  match w_outcomes w with
  | [] => (Done, w)
  | o :: rest => (o, mkWorld (w_rows w) (w_groups w) (w_proxies w) (w_registry w) rest (w_calls w))
  end.

(** A query that only reads. *)
Definition query {A} (read : World -> option A) : io (option A) := fun w =>
  let '(o, w) := nextOutcome w in (match o with Done => read w | _ => None end, w).

(** An update of the row of a credential, where the condition holds; the result says whether it
    was reported to have changed one row. *)
Definition updateRow (id : Z) (cond : CredentialRow -> bool) (f : CredentialRow -> CredentialRow) : io bool := fun w =>
  let '(o, w) := nextOutcome w in
  match w_rows w !! id with
  | Some r =>
      if cond r then
        match o with
        | Done => (true, setRows (<[id := f r]> (w_rows w)) w)
        | Failed => (false, w)
        | FailedAfterCommit => (false, setRows (<[id := f r]> (w_rows w)) w)
        end
      else (false, w)
  | None => (false, w)
  end.

(** An operation of the registry that reports success. *)
Definition onRegistry (f : CredentialRegistry -> CredentialRegistry * bool) : io bool := fun w =>
  let '(r, b) := f (w_registry w) in (b, setRegistry r w).

Definition readRegistry {A} (f : CredentialRegistry -> A) : io A := fun w => (f (w_registry w), w).

(** * Entries of a group *)

Definition fnvOffset : Z := 14695981039346656037.
Definition fnvPrime : Z := 1099511628211.
Definition fnvByte (h : Z) (c : ascii) : Z := u64 (Z.lxor h (byteZ c) * fnvPrime).
Definition fnvWrite (h : Z) (s : string) : Z := fold_left fnvByte (bytes_of s) h.

Definition CredentialIdentityGeneration (identityFingerprint channelID connectionType params : string) : Z :=
  let h := fnvByte (fnvWrite fnvOffset identityFingerprint) Ascii.zero in
  let h := fnvByte (fnvWrite h channelID) Ascii.zero in
  let h := fnvByte (fnvWrite h (connectionNormalize connectionType)) Ascii.zero in
  let generation := fnvWrite h (TrimSpace params) in
  if generation =? 0 then 1 else generation.

Definition credentialVersion (secretVersion : Z) : Z := if secretVersion <? 1 then 1 else secretVersion.

Definition mapCredential (g : GroupRow) (r : CredentialRow) : CredentialEntry :=
  mkEntry (cr_Name r) (cr_ID r) (cr_GroupID r) (credentialVersion (cr_SecretVersion r))
    (CredentialIdentityGeneration (cr_IdentityFingerprint r) (gr_ChannelID g) (gr_ConnectionType g) (gr_Params g))
    (cr_Fingerprint r) (cr_WeightManual r) (cr_Status r) (cr_AuthState r) 0 ∅ 0 false 0 0 (cr_Data r) "" "" None 0.

Definition withProxy (proxy fingerprint : string) (e : CredentialEntry) : CredentialEntry :=
  let 'mkEntry n i g v ig fp w st au cd mc mg bl fc fg ev _ _ qr qt := e in
  mkEntry n i g v ig fp w st au cd mc mg bl fc fg ev proxy fingerprint qr qt.

(** The encryption service and the decoding of a proxy: its number and whether it inherits. *)
Class SubscriptionPlatform := {
  Decrypt : string -> option string;
  HashText : string -> string;
  decodeProxy : string -> option (Z * bool)
}.

Definition rowLe (a b : CredentialRow) : Prop := cr_ID a <= cr_ID b.
#[export] Instance rowLe_dec a b : Decision (rowLe a b).
Proof. unfold rowLe. apply _. Defined.

Section Manager.
Context `{GoText} `{SubscriptionPlatform}.

(** The loop of [mapCredentialsWithProxyDB] for one row. *)
Definition proxiedEntry (catalog : gmap Z ManagedProxy) (r : CredentialRow) (e : CredentialEntry) : option CredentialEntry :=
  match cr_ProxyConfig r with
  | None => Some e
  | Some config =>
      if bool_decide (config = "") then None
      else
        match Decrypt config with
        | None => None
        | Some plaintext =>
            match decodeProxy plaintext with
            | None => None
            | Some (_, true) => None
            | Some (proxyID, false) =>
                if negb (proxyID =? 0)
                then match catalog !! proxyID with
                     | Some m => if mp_Enabled m then Some (withProxy (mp_Config m) (mp_RuntimeFingerprint m) e) else Some e
                     | None => Some e
                     end
                else Some (withProxy config (HashText plaintext) e)
            end
        end
  end.

Definition groupRows (groupID : Z) (rows : gmap Z CredentialRow) : list CredentialRow :=
  merge_sort rowLe (filter (fun r => cr_GroupID r = groupID) (map_to_list rows).*2).

Definition BuildGroupCredentialEntriesWithProxy (groupID : Z) : io (option (list CredentialEntry)) :=
  if groupID =? 0 then ret None
  else
    do! group := query (fun w => w_groups w !! groupID) in
    match group with
    | None => ret None
    | Some g =>
        do! rows := query (fun w => Some (groupRows groupID (w_rows w))) in
        match rows with
        | None => ret None
        | Some rows =>
            do! catalog := query w_proxies in
            ret (match catalog with
                 | None => None
                 | Some catalog =>
                     match mapM (fun r => proxiedEntry catalog r (mapCredential g r)) rows with
                     | None => None
                     | Some entries => if is_ok (ValidateCredentialEntries entries) then Some entries else None
                     end
                 end)
        end
    end.

(** [reconcileGroup] with the entries of the database. *)
Definition reconcileFromRows (groupID now : Z) : io bool :=
  do! entries := BuildGroupCredentialEntriesWithProxy groupID in
  match entries with
  | None => ret false
  | Some entries =>
      onRegistry (fun r => match ReconcileGroup r groupID entries (fun _ => now) with
                           | Ok (r', _) => (r', true)
                           | Err _ => (r, false)
                           end)
  end.

(** * Authorisation states *)

(** The results say whether there was no error. *)
Definition setAuthState (id version : Z) (a : CredentialAuthState) (code : string) : io bool :=
  updateRow id (fun r => cr_SecretVersion r =? version) (withAuth a code).

Definition publishAuthState (row : CredentialRow) (a : CredentialAuthState) (now : Z) : io bool :=
  do! published := onRegistry (fun r => SetCredentialAuthState r (cr_ID row) a now) in
  if published then ret true else reconcileFromRows (cr_GroupID row) now.

Definition transitionAuthState (row : CredentialRow) (version : Z) (a : CredentialAuthState) (code : string) (now : Z) : io bool :=
  do! saved := setAuthState (cr_ID row) version a code in
  if saved then publishAuthState row a now else ret false.

Definition markRefreshOutcomeUnknown (row : CredentialRow) (version : Z) (code : string) (now : Z) : io bool :=
  transitionAuthState row version AuthOutcomeUnknown code now.

Definition refreshRestoreState (row : CredentialRow) : CredentialAuthState * string :=
  match cr_AuthState row with
  | AuthRefreshing => (AuthOutcomeUnknown, "refresh_interrupted"%string)
  | AuthReady | AuthUnset => (AuthReady, ""%string)
  | a => (a, cr_AuthErrorCode row)
  end.

(** * Evidence *)

Definition localEvidence (code summary : string) : ErrorEvidence :=
  mkEvidence ErrorKindInternal "" ErrorOriginInternal "" 0 "" code summary "" 0 "" ∅.

Definition authEvidence (code : string) : ErrorEvidence :=
  let summary := if oneOf code ["outcome_unknown"; "refreshing"; "refresh_outcome_unknown"; "refresh_persist_failed";
                     "refresh_commit_failed"; "refresh_registry_mismatch"; "refresh_state_commit_failed"]%string
                 then "subscription credential refresh outcome is unknown"%string
                 else "subscription account requires reauthorization"%string in
  mkEvidence ErrorKindProvider FailureHintReauthorizationRequired ErrorOriginUpstream ErrorScopeCredential 0 "" code summary
    "" 0 "" ∅.

Definition maxRefreshRetryAfter : Z := 3600 * second.
Definition refreshLeadTime : Z := 5 * minute.

Definition boundedRefreshRetryAfter (value : Z) : Z :=
  if value <=? 0 then 0 else if maxRefreshRetryAfter <? value then maxRefreshRetryAfter else value.

Definition diagnosticByte (c : ascii) : bool :=
  let b := byteZ c in
  (97 <=? b) && (b <=? 122) || (48 <=? b) && (b <=? 57) || (b =? 46) || (b =? 95) || (b =? 45).

Definition safeRefreshDiagnosticCode (value : string) : string :=
  let value := ToLower (TrimSpace value) in
  if bool_decide (value = "") || (64 <? slen value) then ""%string
  else if forallb diagnosticByte (bytes_of value) then value else ""%string.

Definition refreshTemporarilyUnavailableEvidence (f : RefreshFailureDecision) : ErrorEvidence :=
  let statusCode := if (fd_StatusCode f <? 100) || (599 <? fd_StatusCode f) then 0 else fd_StatusCode f in
  mkEvidence ErrorKindHTTP FailureHintRefreshUnavailable ErrorOriginUpstream ErrorScopeCredential statusCode
    (safeRefreshDiagnosticCode (fd_OAuthCode f)) "refresh_temporarily_unavailable"
    "subscription credential refresh is temporarily unavailable" "" (boundedRefreshRetryAfter (fd_RetryAfter f))
    ReplaySafetyRejectedBeforeProcessing ∅.

Definition authStateText (a : CredentialAuthState) : string :=
  match a with
  | AuthUnset => ""
  | AuthReady => "ready"
  | AuthRefreshing => "refreshing"
  | AuthReauthorizationRequired => "reauthorization_required"
  | AuthOutcomeUnknown => "outcome_unknown"
  | AuthOther s => s
  end.

(** * Refreshing *)

(** The environment of a run: the clock before and after the provider's answer, the answer, the
    encryption of the new secret, and what happens to the registry and to the rows while the
    provider works. *)
Record RefreshRun := mkRun {
  rr_start : Z;
  rr_end : Z;
  rr_answer : RefreshFailureDecision + SubCredential;
  rr_encrypt : string -> option string;
  rr_registry : CredentialRegistry -> CredentialRegistry;
  rr_reauthorized : list Reauthorization
}.

Abbreviation prepared := (result ErrorEvidence SubCredential) (only parsing).

Definition answerRetryable (a : RefreshFailureDecision + SubCredential) : bool :=
  match a with inl f => bool_decide (fd_Kind f = RefreshFailureRetryable) | inr _ => false end.

(** [manager.refresh] and what others do meanwhile. *)
Definition callProvider (run : RefreshRun) (row : CredentialRow) (allowRecovery : bool)
  : io (RefreshFailureDecision + SubCredential) := fun w =>
  (rr_answer run,
   mkWorld (fold_right reauthorize (w_rows w) (rr_reauthorized run)) (w_groups w) (w_proxies w)
     (rr_registry run (w_registry w)) (w_outcomes w)
     (w_calls w ++ [mkCall (cr_ID row) (cr_SecretVersion row) allowRecovery (answerRetryable (rr_answer run))])).

Definition stateCommitFailed : ErrorEvidence :=
  localEvidence "refresh_state_commit_failed" "subscription credential state could not be saved".

Definition giveUpInMemory (id now : Z) : io bool := onRegistry (fun r => SetCredentialAuthState r id AuthOutcomeUnknown now).

Definition runtimeMatchesDurableSecret (row : CredentialRow) (r : CredentialRegistry) : bool :=
  match CredentialRefOf r (cr_ID row) with
  | Some ref =>
      if negb (ref_Version ref =? cr_SecretVersion row) then false
      else match CredentialAuthStateOf r (cr_ID row) with Some a => bool_decide (a = AuthReady) | None => false end
  | None => false
  end.

Definition versionServed (row : CredentialRow) (r : CredentialRegistry) : bool :=
  match CredentialRefOf r (cr_ID row) with Some ref => ref_Version ref =? cr_SecretVersion row | None => false end.

Definition repairFromRows (row : CredentialRow) (now : Z) : io bool :=
  do! reconciled := reconcileFromRows (cr_GroupID row) now in
  if reconciled then readRegistry (runtimeMatchesDurableSecret row) else ret false.

Definition ensureRuntimeMatchesDurableSecret (row : CredentialRow) (now : Z) : io bool :=
  do! matches := readRegistry (runtimeMatchesDurableSecret row) in
  if matches : bool then ret true
  else
    do! served := readRegistry (versionServed row) in
    if served : bool then
      do! _ := onRegistry (fun r => SetCredentialAuthState r (cr_ID row) (cr_AuthState row) now) in
      do! matches := readRegistry (runtimeMatchesDurableSecret row) in
      if matches : bool then ret true else repairFromRows row now
    else repairFromRows row now.

Definition activeCredentialCooldownEvidence (id now : Z) (r : CredentialRegistry) : option ErrorEvidence :=
  match CredentialCooldownUntil r id with
  | None => None
  | Some until =>
      let remaining := timeSub until now in
      if remaining <=? 0 then None
      else Some (refreshTemporarilyUnavailableEvidence (mkFailure RefreshFailureOutcomeUnknown 0 "" remaining))
  end.

(** The restoration after a transition to refreshing that failed. *)
Definition abandonStart (row : CredentialRow) (now : Z) : io prepared :=
  let '(restoreState, restoreCode) := refreshRestoreState row in
  do! saved := setAuthState (cr_ID row) (cr_SecretVersion row) restoreState restoreCode in
  do! restored := if saved : bool then publishAuthState row restoreState now else ret false in
  if restored : bool then ret (Err (localEvidence "refresh_start_failed" "subscription credential refresh could not start"))
  else
    do! _ := giveUpInMemory (cr_ID row) now in
    ret (Err (authEvidence "refresh_registry_mismatch")).

Definition settleRetryable (row : CredentialRow) (failure : RefreshFailureDecision) (now : Z) : io prepared :=
  let '(restoreState, restoreCode) := refreshRestoreState row in
  let evidence := refreshTemporarilyUnavailableEvidence failure in
  let cooldown := if ee_RetryAfter evidence <=? 0 then DefaultRefreshFailureCooldown else ee_RetryAfter evidence in
  do! cooled := onRegistry (fun r => SetCooldown r (cr_ID row) (now + cooldown) now) in
  if cooled : bool then
    do! restored := transitionAuthState row (cr_SecretVersion row) restoreState restoreCode now in
    if restored : bool then ret (Err evidence)
    else
      do! _ := giveUpInMemory (cr_ID row) now in
      ret (Err stateCommitFailed)
  else
    do! marked := markRefreshOutcomeUnknown row (cr_SecretVersion row) "refresh_registry_mismatch" now in
    if marked : bool then ret (Err (authEvidence "refresh_registry_mismatch"))
    else
      do! _ := giveUpInMemory (cr_ID row) now in
      ret (Err stateCommitFailed).

Definition settleState (row : CredentialRow) (kind : RefreshFailure) : CredentialAuthState * string * string :=
  let '(restoreState, restoreCode) := refreshRestoreState row in
  match kind with
  | RefreshFailureIdentityChanged =>
      (AuthReauthorizationRequired, "refresh_identity_changed", "refresh_identity_changed")%string
  | RefreshFailureReauthorizationRequired => (AuthReauthorizationRequired, "refresh_rejected", "refresh_rejected")%string
  | _ =>
      if bool_decide (restoreState = AuthReady)
      then (AuthOutcomeUnknown, "refresh_outcome_unknown", "refresh_outcome_unknown")%string
      else (restoreState, restoreCode, "refresh_outcome_unknown"%string)
  end.

Definition settleFailure (row : CredentialRow) (failure : RefreshFailureDecision) (now : Z) : io prepared :=
  if bool_decide (fd_Kind failure = RefreshFailureRetryable) then settleRetryable row failure now
  else
    let '(stateValue, code, evidenceCode) := settleState row (fd_Kind failure) in
    do! saved := transitionAuthState row (cr_SecretVersion row) stateValue code now in
    if saved : bool then ret (Err (authEvidence evidenceCode))
    else
      do! _ := giveUpInMemory (cr_ID row) now in
      ret (Err stateCommitFailed).

(** A refresh whose new secret could not be kept. *)
Definition loseSecret (row : CredentialRow) (code : string) (now : Z) : io prepared :=
  do! marked := markRefreshOutcomeUnknown row (cr_SecretVersion row) code now in
  ret (Err (if marked : bool then authEvidence code else stateCommitFailed)).

(** The new secret is in the database; the registry follows. *)
Definition publishSecret (row : CredentialRow) (nextVersion : Z) (fingerprint ciphertext : string) (bypassedCooldown : Z)
    (refreshed : SubCredential) (now : Z) : io prepared :=
  do! replaced := onRegistry (fun r =>
    ReplaceCredentialSecretIfMatch r (cr_ID row) (cr_SecretVersion row) nextVersion fingerprint ciphertext) in
  do! published := if replaced : bool then ret true else reconcileFromRows (cr_GroupID row) now in
  if published : bool then
    do! _ := if isZeroTime bypassedCooldown then ret true
             else onRegistry (fun r => ClearCooldownIfMatch r (cr_ID row) bypassedCooldown now) in
    ret (Ok refreshed)
  else
    do! marked := markRefreshOutcomeUnknown row nextVersion "refresh_registry_mismatch" now in
    if marked : bool then ret (Err (authEvidence "refresh_registry_mismatch"))
    else
      do! _ := giveUpInMemory (cr_ID row) now in
      ret (Err stateCommitFailed).

Definition keepRefreshed (run : RefreshRun) (driver : Driver) (row : CredentialRow) (current refreshed : SubCredential)
    (bypassedCooldown now : Z) : io prepared :=
  if negb (RefreshPreservesIdentity driver current refreshed) then
    do! saved := transitionAuthState row (cr_SecretVersion row) AuthReauthorizationRequired "refresh_identity_changed" now in
    if saved : bool then ret (Err (authEvidence "refresh_identity_changed"))
    else
      do! _ := giveUpInMemory (cr_ID row) now in
      ret (Err stateCommitFailed)
  else if bool_decide (sc_canonical refreshed = "") then loseSecret row "refresh_persist_failed" now
  else
    match rr_encrypt run (sc_canonical refreshed) with
    | None => loseSecret row "refresh_persist_failed" now
    | Some ciphertext =>
        let fingerprint := HashText (sc_canonical refreshed) in
        let nextVersion := u64 (cr_SecretVersion row + 1) in
        do! updated := updateRow (cr_ID row)
          (fun r => (cr_SecretVersion r =? cr_SecretVersion row) && bool_decide (cr_AuthState r = AuthRefreshing))
          (withNewSecret ciphertext fingerprint nextVersion) in
        if updated : bool then publishSecret row nextVersion fingerprint ciphertext bypassedCooldown refreshed now
        else loseSecret row "refresh_commit_failed" now
    end.

(** From the transition to refreshing on. *)
Definition sendRefresh (run : RefreshRun) (driver : Driver) (row : CredentialRow) (current : SubCredential)
    (allowRecovery : bool) (bypassedCooldown : Z) : io prepared :=
  do! started := transitionAuthState row (cr_SecretVersion row) AuthRefreshing "" (rr_start run) in
  if started : bool then
    do! answer := callProvider run row allowRecovery in
    match answer with
    | inl failure => settleFailure row failure (rr_end run)
    | inr refreshed => keepRefreshed run driver row current refreshed bypassedCooldown (rr_end run)
    end
  else abandonStart row (rr_start run).

Definition expiresSoon (c : SubCredential) (now : Z) : bool :=
  match ExpiresAt c with Some t => t <=? now + refreshLeadTime | None => false end.

(** From the decrypted credential on. *)
Definition refreshCurrent (run : RefreshRun) (driver : Driver) (row : CredentialRow) (current : SubCredential)
    (expectedVersion : Z) (forceRefresh respectCooldown allowRecovery : bool) : io prepared :=
  if forceRefresh && (expectedVersion <? cr_SecretVersion row) && bool_decide (cr_AuthState row = AuthReady) then
    do! matches := ensureRuntimeMatchesDurableSecret row (rr_start run) in
    ret (if matches : bool then Ok current else Err (authEvidence "refresh_registry_mismatch"))
  else if negb forceRefresh && negb (expiresSoon current (rr_start run)) then ret (Ok current)
  else if respectCooldown then
    do! cooling := readRegistry (activeCredentialCooldownEvidence (cr_ID row) (rr_start run)) in
    match cooling with
    | Some evidence => ret (Err evidence)
    | None => sendRefresh run driver row current allowRecovery 0
    end
  else
    do! until := readRegistry (fun r => default 0 (CredentialCooldownUntil r (cr_ID row))) in
    sendRefresh run driver row current allowRecovery until.

Definition refreshCredentialLocked (run : RefreshRun) (channelID : string) (driver : Driver) (credentialID expectedVersion
    expectedIdentityGeneration : Z) (forceRefresh respectCooldown allowRecovery : bool) : io prepared :=
  do! found := query (fun w => w_rows w !! credentialID) in
  match found with
  | None => ret (Err (localEvidence "credential_unavailable" "subscription credential is unavailable"))
  | Some row =>
      do! group := query (fun w => w_groups w !! cr_GroupID row) in
      match group with
      | None => ret (Err (localEvidence "credential_target_mismatch" "subscription credential target does not match"))
      | Some g =>
          if negb (bool_decide (gr_ChannelID g = channelID)) || negb (bool_decide (gr_ConnectionType g = SubscriptionConnection))
             || negb (CredentialIdentityGeneration (cr_IdentityFingerprint row) (gr_ChannelID g) (gr_ConnectionType g) (gr_Params g)
                      =? expectedIdentityGeneration)
          then ret (Err (localEvidence "credential_target_mismatch" "subscription credential target does not match"))
          else if negb (bool_decide (cr_AuthState row = AuthReady)) && negb allowRecovery
          then ret (Err (authEvidence (authStateText (cr_AuthState row))))
          else
            match Decrypt (cr_Data row) with
            | None => ret (Err (localEvidence "credential_decrypt_failed" "subscription credential is unavailable"))
            | Some plaintext =>
                match drv_Parse driver plaintext with
                | None => ret (Err (localEvidence "credential_invalid" "subscription credential is invalid"))
                | Some current =>
                    refreshCurrent run driver row current expectedVersion forceRefresh respectCooldown allowRecovery
                end
            end
      end
  end.

(** The parts of the snapshot of an attempt that are used here. *)
Record RefreshSnapshot := mkRefreshSnapshot { rs_ID : Z; rs_Version : Z; rs_IdentityGeneration : Z; rs_Data : string }.

Definition prepare (run : RefreshRun) (channelID : string) (driver : option Driver) (snapshot : RefreshSnapshot)
    (forceRefresh respectCooldown allowRecovery : bool) : io prepared :=
  match driver with
  | None => ret (Err (localEvidence "credential_driver_unavailable" "subscription credential driver is unavailable"))
  | Some driver =>
      match drv_Parse driver (rs_Data snapshot) with
      | None => ret (Err (localEvidence "credential_invalid" "subscription credential is invalid"))
      | Some credential =>
          if negb forceRefresh && negb (expiresSoon credential (rr_start run)) then ret (Ok credential)
          else refreshCredentialLocked run channelID driver (rs_ID snapshot) (rs_Version snapshot)
                 (rs_IdentityGeneration snapshot) forceRefresh respectCooldown allowRecovery
      end
  end.

Definition Prepare (run : RefreshRun) (channelID : string) (driver : option Driver) (snapshot : RefreshSnapshot)
    (forceRefresh : bool) : io prepared :=
  prepare run channelID driver snapshot forceRefresh true false.
Definition PrepareForControl (run : RefreshRun) (channelID : string) (driver : option Driver) (snapshot : RefreshSnapshot)
    (forceRefresh : bool) : io prepared :=
  prepare run channelID driver snapshot forceRefresh false false.
Definition RefreshForManualRecovery (run : RefreshRun) (channelID : string) (driver : option Driver)
    (snapshot : RefreshSnapshot) : io prepared :=
  prepare run channelID driver snapshot true false true.

End Manager.
