(* ===== verification/RefreshProps.v ===== *)
(** A secret is handed to the provider once.  The refresh token of a subscription is consumed by
    use: whatever fails, no automatic request sends a secret whose earlier use may have been
    consumed. *)
From Stdlib Require Import Ascii.
From S2P Require Import Prelude GoStrings Execution Config Credential Ledger Registry Refresh.

Local Open Scope go_scope.
Local Open Scope Z_scope.

(** * What the operations do to the rows *)

(** Nothing but outcomes and the registry changes. *)
Record steady (w w' : World) : Prop := {
  sd_rows : w_rows w' = w_rows w;
  sd_groups : w_groups w' = w_groups w;
  sd_proxies : w_proxies w' = w_proxies w;
  sd_calls : w_calls w' = w_calls w
}.

Lemma steady_refl w : steady w w.
Proof. done. Qed.

Lemma steady_trans w1 w2 w3 : steady w1 w2 -> steady w2 w3 -> steady w1 w3.
Proof. intros [] []. split; congruence. Qed.

#[export] Hint Resolve steady_refl : core.

Lemma nextOutcome_steady w : steady w (nextOutcome w).2 /\ w_registry (nextOutcome w).2 = w_registry w.
Proof. unfold nextOutcome. by destruct (w_outcomes w). Qed.

Lemma query_steady {A} (f : World -> option A) w :
  steady w (query f w).2 /\ w_registry (query f w).2 = w_registry w
  /\ forall a, (query f w).1 = Some a -> f (query f w).2 = Some a.
Proof.
  unfold query. pose proof (nextOutcome_steady w) as H. destruct (nextOutcome w) as [o w1]. cbn in *.
  destruct H as [H1 H2]. split; [done|]. split; [done|]. by destruct o.
Qed.

Lemma onRegistry_steady f w : steady w (onRegistry f w).2.
Proof. unfold onRegistry. by destruct (f (w_registry w)). Qed.

Section Props.
Context `{GoText} `{SubscriptionPlatform}.

Lemma buildEntries_steady g w :
  steady w (BuildGroupCredentialEntriesWithProxy g w).2 /\ w_registry (BuildGroupCredentialEntriesWithProxy g w).2 = w_registry w.
Proof.
  unfold BuildGroupCredentialEntriesWithProxy. destruct (g =? 0); [done|]. unfold bindIO.
  pose proof (query_steady (fun w => w_groups w !! g) w) as [H1 [H2 _]]. destruct (query _ w) as [[gr|] w1]; [|done]. cbn in *.
  pose proof (query_steady (fun w => Some (groupRows g (w_rows w))) w1) as [H3 [H4 _]].
  destruct (query _ w1) as [[rows|] w2]; cbn in *; [|split; [by eapply steady_trans|congruence]].
  pose proof (query_steady w_proxies w2) as [H5 [H6 _]]. destruct (query _ w2) as [c w3]; cbn in *.
  split; [by eapply steady_trans; [|eapply steady_trans]|congruence].
Qed.

Lemma reconcileFromRows_steady g now w : steady w (reconcileFromRows g now w).2.
Proof.
  unfold reconcileFromRows, bindIO. pose proof (buildEntries_steady g w) as [H1 _].
  destruct (BuildGroupCredentialEntriesWithProxy g w) as [[es|] w1]; [|done]. cbn in *.
  eapply steady_trans; [done|]. apply onRegistry_steady.
Qed.

Lemma publishAuthState_steady row a now w : steady w (publishAuthState row a now w).2.
Proof.
  unfold publishAuthState, bindIO. pose proof (onRegistry_steady (fun r => SetCredentialAuthState r (cr_ID row) a now) w) as H1.
  destruct (onRegistry _ w) as [[] w1]; [done|]. eapply steady_trans; [done|]. apply reconcileFromRows_steady.
Qed.

(** Only the row of [id] changes, and only by [f]. *)
Record touches (id : Z) (f : CredentialRow -> CredentialRow) (w w' : World) : Prop := {
  tc_calls : w_calls w' = w_calls w;
  tc_rows : w_rows w' = w_rows w \/ exists r, w_rows w !! id = Some r /\ w_rows w' = <[id := f r]> (w_rows w)
}.

Lemma steady_touches id f w w' : steady w w' -> touches id f w w'.
Proof. intros []. split; auto. Qed.

Lemma touches_steady id f w w1 w2 : touches id f w w1 -> steady w1 w2 -> touches id f w w2.
Proof. intros [Hc Hr] [E1 _ _ E2]. split; [congruence|]. by rewrite E1. Qed.

Lemma updateRow_spec id cond f w :
  touches id f w (updateRow id cond f w).2
  /\ ((updateRow id cond f w).1 = true ->
      exists r, w_rows w !! id = Some r /\ cond r = true /\ w_rows (updateRow id cond f w).2 = <[id := f r]> (w_rows w)).
Proof.
  unfold updateRow. pose proof (nextOutcome_steady w) as [H1 _]. destruct (nextOutcome w) as [o w1]. cbn in *.
  destruct H1 as [Hr Hg Hp Hc]. rewrite Hr. destruct (w_rows w !! id) as [r|] eqn:Er; [destruct (cond r) eqn:Ec|];
    [destruct o|..]; cbn; (split; [split; [done|]; rewrite ?Hr; eauto|]); try done. eauto.
Qed.

Lemma transition_spec row version a code now w :
  let m := transitionAuthState row version a code now in
  touches (cr_ID row) (withAuth a code) w (m w).2
  /\ ((m w).1 = true -> exists r, w_rows w !! cr_ID row = Some r /\ cr_SecretVersion r = version
        /\ w_rows (m w).2 = <[cr_ID row := withAuth a code r]> (w_rows w)).
Proof.
  cbv zeta. unfold transitionAuthState, setAuthState, bindIO.
  pose proof (updateRow_spec (cr_ID row) (fun r => cr_SecretVersion r =? version) (withAuth a code) w) as [Ht Hs].
  destruct (updateRow _ _ _ w) as [[] w1]; cbn in *; [|done]. destruct (Hs eq_refl) as (r & Hr & Hv & E).
  pose proof (publishAuthState_steady row a now w1) as Hp. split; [by eapply touches_steady|].
  intros _. exists r. split; [done|]. split; [lia|]. by rewrite (sd_rows _ _ Hp).
Qed.

(** * Spent secrets *)

(** A call that may have consumed the secret is behind the row's version, or the row is not
    ready. *)
Definition spent_rows (calls : list ProviderCall) (rows : gmap Z CredentialRow) : Prop :=
  forall c r, c ∈ calls -> pc_Retryable c = false -> rows !! pc_ID c = Some r ->
    pc_Version c < cr_SecretVersion r \/ pc_Version c = cr_SecretVersion r /\ cr_AuthState r <> AuthReady.

(** The secrets of [id] that may have been consumed are all older than version [v]. *)
Definition older (id v : Z) (calls : list ProviderCall) : Prop :=
  forall c, c ∈ calls -> pc_Retryable c = false -> pc_ID c = id -> pc_Version c < v.

(** An automatic call never repeats one that may have consumed the same secret. *)
Definition log_ok (calls : list ProviderCall) : Prop :=
  forall i j c d, calls !! i = Some c -> calls !! j = Some d -> (i < j)%nat ->
    pc_ID c = pc_ID d -> pc_Version c = pc_Version d -> pc_Recovery d = false -> pc_Retryable c = true.

(** The check constraint of the table. *)
Definition rows_ok (rows : gmap Z CredentialRow) : Prop :=
  forall id r, rows !! id = Some r -> cr_ID r = id /\ cr_AuthState r <> AuthUnset.

Record refresh_ok (w : World) : Prop := {
  rf_spent : spent_rows (w_calls w) (w_rows w);
  rf_log : log_ok (w_calls w);
  rf_rows : rows_ok (w_rows w)
}.

Lemma steady_ok w w' : steady w w' -> refresh_ok w -> refresh_ok w'.
Proof. intros [Hr _ _ Hc] []. split; by rewrite ?Hr, ?Hc. Qed.

Lemma touches_ok id f w w' : touches id f w w' -> refresh_ok w ->
  (forall r, w_rows w !! id = Some r -> cr_ID (f r) = cr_ID r /\ cr_AuthState (f r) <> AuthUnset
     /\ (cr_SecretVersion (f r) = cr_SecretVersion r /\ cr_AuthState (f r) <> AuthReady
         \/ older id (cr_SecretVersion (f r)) (w_calls w))) ->
  refresh_ok w'.
Proof.
  intros [Hc Hr] [Hs Hl Hro] Hf. split; rewrite ?Hc; [|done|]; destruct Hr as [->|(r & Er & ->)]; try done;
    destruct (Hf r Er) as (Hid & Hu & Hcase).
  - intros c x Hin Hret. destruct (decide (pc_ID c = id)) as [Ei|Hne]; [|rewrite lookup_insert_ne by done; by apply Hs].
    rewrite Ei, lookup_insert_eq. intros [= <-]. destruct Hcase as [[Hv Ha]|Ho]; [|left; by apply Ho].
    rewrite Hv. rewrite <- Ei in Er. destruct (Hs c r Hin Hret Er) as [?|[? _]]; [by left|by right].
  - intros k x. destruct (decide (k = id)) as [->|Hne]; [|rewrite lookup_insert_ne by done; apply Hro].
    rewrite lookup_insert_eq. intros [= <-]. split; [|done]. rewrite Hid. by apply Hro.
Qed.

(** * The run *)

(** The row of the run as it was read: the same version now, and only older secrets spent when it
    was ready. *)
Definition readable (row : CredentialRow) (w : World) : Prop :=
  cr_AuthState row <> AuthUnset
  /\ (cr_AuthState row = AuthReady -> older (cr_ID row) (cr_SecretVersion row) (w_calls w))
  /\ forall r, w_rows w !! cr_ID row = Some r -> cr_SecretVersion r = cr_SecretVersion row.

Definition running (row : CredentialRow) (w : World) : Prop := refresh_ok w /\ readable row w.

Lemma steady_running row w w' : steady w w' -> running row w -> running row w'.
Proof. intros Hs [Hok Hrd]. split; [by eapply steady_ok|]. destruct Hs as [Hr _ _ Hc]. unfold readable. by rewrite Hr, Hc. Qed.

Lemma touches_readable row f w w' :
  (forall r, cr_SecretVersion (f r) = cr_SecretVersion r) -> touches (cr_ID row) f w w' -> readable row w -> readable row w'.
Proof.
  intros Hf [Hc Hr] (H1 & H2 & H3). split; [done|]. rewrite Hc. split; [done|].
  destruct Hr as [->|(r & Er & ->)]; [done|]. intros x. rewrite lookup_insert_eq. intros [= <-]. rewrite Hf. by apply H3.
Qed.

Lemma restoreState_unset row : cr_AuthState row <> AuthUnset -> (refreshRestoreState row).1 <> AuthUnset.
Proof. unfold refreshRestoreState. by destruct (cr_AuthState row). Qed.

Lemma restoreState_ready row : cr_AuthState row <> AuthUnset -> (refreshRestoreState row).1 = AuthReady -> cr_AuthState row = AuthReady.
Proof. unfold refreshRestoreState. by destruct (cr_AuthState row). Qed.

Lemma touches_restore row code w w' :
  touches (cr_ID row) (withAuth (refreshRestoreState row).1 code) w w' -> running row w -> running row w'.
Proof.
  intros Ht [Hok Hrd]. split; [|eapply touches_readable; [|exact Ht|exact Hrd]; done]. destruct Hrd as (H1 & H2 & H3). eapply touches_ok; [done..|].
  intros r Hr. cbn. split; [done|]. split; [by apply restoreState_unset|].
  destruct (decide ((refreshRestoreState row).1 = AuthReady)) as [E|]; [right|by left].
  rewrite (H3 r Hr). apply H2. by apply restoreState_ready.
Qed.

Lemma touches_mark row a code w w' :
  a <> AuthReady -> a <> AuthUnset -> touches (cr_ID row) (withAuth a code) w w' -> refresh_ok w -> refresh_ok w'.
Proof. intros Ha Hu Ht Hok. eapply touches_ok; [done..|]. intros r Hr. cbn. auto. Qed.

Lemma pres_mark row version a code now : a <> AuthReady -> a <> AuthUnset ->
  pres refresh_ok (transitionAuthState row version a code now).
Proof. intros Ha Hu w Hw. eapply touches_mark; [done..|apply transition_spec|done]. Qed.

Lemma pres_markUnknown row version code now : pres refresh_ok (markRefreshOutcomeUnknown row version code now).
Proof. by apply pres_mark. Qed.

Lemma pres_restore row code now : pres (running row) (transitionAuthState row (cr_SecretVersion row) (refreshRestoreState row).1 code now).
Proof. intros w Hw. eapply touches_restore; [apply transition_spec|done]. Qed.

Lemma pres_restoreRow row code :
  pres (running row) (setAuthState (cr_ID row) (cr_SecretVersion row) (refreshRestoreState row).1 code).
Proof. intros w Hw. eapply touches_restore; [apply updateRow_spec|done]. Qed.

Lemma pres_onRegistry f : pres refresh_ok (onRegistry f).
Proof. intros w. apply steady_ok, onRegistry_steady. Qed.
Lemma pres_onRegistry_running row f : pres (running row) (onRegistry f).
Proof. intros w. apply steady_running, onRegistry_steady. Qed.
Lemma pres_publish row row' a now : pres (running row) (publishAuthState row' a now).
Proof. intros w. apply steady_running, publishAuthState_steady. Qed.
Lemma pres_reconcile g now : pres refresh_ok (reconcileFromRows g now).
Proof. intros w. apply steady_ok, reconcileFromRows_steady. Qed.
Lemma pres_read {A} I (f : CredentialRegistry -> A) : pres I (readRegistry f).
Proof. by intros w. Qed.

#[local] Hint Resolve pres_markUnknown pres_restore pres_restoreRow pres_onRegistry pres_onRegistry_running pres_publish
  pres_reconcile pres_read : refresh.
#[local] Hint Unfold giveUpInMemory : refresh.

Lemma running_ok row w : running row w -> refresh_ok w.
Proof. by intros []. Qed.

Lemma pres_abandonStart row now : pres (running row) (abandonStart row now).
Proof.
  unfold abandonStart, giveUpInMemory. destruct (refreshRestoreState row) as [a code] eqn:E.
  replace a with (refreshRestoreState row).1 by (by rewrite E). eauto 10 with refresh.
Qed.

Lemma settleRetryable_ok row f now : leads (running row) refresh_ok (settleRetryable row f now).
Proof.
  unfold settleRetryable, giveUpInMemory. destruct (refreshRestoreState row) as [a code] eqn:E.
  replace a with (refreshRestoreState row).1 by (by rewrite E). eapply leads_bind; [apply pres_onRegistry_running|].
  intros []; [eapply (leads_pres _ _ (running row))|eapply (leads_pres _ _ refresh_ok)]; eauto 10 using running_ok with refresh.
Qed.

Lemma settleState_marks row kind : cr_AuthState row <> AuthUnset ->
  (settleState row kind).1.1 <> AuthReady /\ (settleState row kind).1.1 <> AuthUnset.
Proof.
  intros Hu. pose proof (restoreState_unset row Hu). unfold settleState. destruct (refreshRestoreState row) as [a code]. cbn in *.
  destruct kind; cbn; try done; destruct (decide (a = AuthReady)) as [->|Ha];
    by rewrite ?bool_decide_true, ?bool_decide_false by done.
Qed.

Lemma settleFailure_ok row f now w : cr_AuthState row <> AuthUnset -> refresh_ok w ->
  (answerRetryable (inl f) = true -> running row w) -> refresh_ok (settleFailure row f now w).2.
Proof.
  intros Hu Hok Hret. unfold settleFailure. cbn in Hret. destruct (bool_decide _); [by apply settleRetryable_ok, Hret|]. clear Hret.
  destruct (settleState_marks row (fd_Kind f) Hu) as [Ha Hb].
  destruct (settleState row (fd_Kind f)) as [[a code] ecode]. cbn in Ha, Hb. revert w Hok. unfold giveUpInMemory.
  eapply (pres_bind refresh_ok); [by apply pres_mark|]. eauto 10 with refresh.
Qed.

Lemma pres_loseSecret row code now : pres refresh_ok (loseSecret row code now).
Proof. unfold loseSecret. eauto 10 with refresh. Qed.

Lemma pres_publishSecret row v fp ct cd refreshed now : pres refresh_ok (publishSecret row v fp ct cd refreshed now).
Proof. unfold publishSecret, giveUpInMemory. eauto 20 with refresh. Qed.

Lemma keepRefreshed_ok run driver row current refreshed cd now w :
  0 <= cr_SecretVersion row < maxUint64 -> refresh_ok w ->
  (forall r, w_rows w !! cr_ID row = Some r -> cr_SecretVersion r = cr_SecretVersion row) ->
  refresh_ok (keepRefreshed run driver row current refreshed cd now w).2.
Proof.
  intros Hv Hok Hver. unfold keepRefreshed. destruct (negb _).
  { clear Hver. revert w Hok. unfold giveUpInMemory. eapply (pres_bind refresh_ok); [by apply pres_mark|].
    eauto 10 with refresh. }
  case_bool_decide; [by apply pres_loseSecret|]. destruct (rr_encrypt run _) as [ct|]; [|by apply pres_loseSecret].
  unfold bindIO. set (m := updateRow _ _ _). pose proof (updateRow_spec (cr_ID row)
    (fun r => (cr_SecretVersion r =? cr_SecretVersion row) && bool_decide (cr_AuthState r = AuthRefreshing))
    (withNewSecret ct (HashText (sc_canonical refreshed)) (u64 (cr_SecretVersion row + 1))) w) as [Ht _]. fold m in Ht.
  assert (refresh_ok (m w).2) as Hok1.
  { eapply touches_ok; [done..|]. intros r Hr. cbn. split; [done|]. split; [done|]. right.
    replace (u64 (cr_SecretVersion row + 1)) with (cr_SecretVersion row + 1) by (unfold u64, two64, maxUint64 in *; rewrite Z.mod_small; lia).
    intros c Hc Hret Hid. rewrite <- (Hver r Hr). rewrite <- Hid in Hr. destruct (rf_spent _ Hok c r Hc Hret Hr) as [|[]]; lia. }
  destruct (m w) as [[] w1]; [by apply pres_publishSecret|by apply pres_loseSecret].
Qed.

(** Reauthorisations give a new version. *)
Definition versions_fit (n : nat) (rows : gmap Z CredentialRow) : Prop :=
  forall id r, rows !! id = Some r -> 0 <= cr_SecretVersion r /\ cr_SecretVersion r + Z.of_nat n < maxUint64.

Lemma reauthorize_cases a rows :
  reauthorize a rows = rows
  \/ exists r, rows !! ra_ID a = Some r /\ reauthorizable (cr_AuthState r) = true
       /\ reauthorize a rows = <[ra_ID a := withNewSecret (ra_Data a) (ra_Fingerprint a) (u64 (cr_SecretVersion r + 1)) r]> rows.
Proof.
  unfold reauthorize. destruct (rows !! ra_ID a) as [r|]; [|by left]. destruct (_ && _) eqn:E; [|by left].
  rewrite !andb_true_iff, Z.eqb_eq in E. destruct E as [[_ E] Hr]. right. exists r. apply Z.eqb_eq in E. by rewrite <- E.
Qed.

Lemma reauthorize_fits n a rows : versions_fit (S n) rows -> versions_fit n (reauthorize a rows).
Proof.
  intros Hf. destruct (reauthorize_cases a rows) as [->|(r & Er & _ & ->)]; intros k x.
  - intros Hx%Hf. lia.
  - intros [[<- <-]|[_ Hx%Hf]]%lookup_insert_Some; [|lia]. apply Hf in Er. cbn. unfold u64, two64, maxUint64 in *. rewrite Z.mod_small; lia.
Qed.

Lemma reauthorize_spent calls n a rows : versions_fit (S n) rows -> rows_ok rows -> spent_rows calls rows ->
  spent_rows calls (reauthorize a rows) /\ rows_ok (reauthorize a rows).
Proof.
  intros Hf Hro Hs. destruct (reauthorize_cases a rows) as [->|(r & Er & _ & ->)]; [done|]. split.
  - intros c x Hc Hret [[Hid <-]|[_ Hx]]%lookup_insert_Some; [|by apply Hs]. left. cbn. rewrite Hid in Er.
    pose proof (Hf _ _ Er). destruct (Hs c r Hc Hret Er); unfold u64, two64, maxUint64 in *; rewrite Z.mod_small; lia.
  - intros k x [[<- <-]|[_ Hx]]%lookup_insert_Some; [|by apply Hro]. cbn. split; [by apply Hro|done].
Qed.

Lemma reauthorized_spent calls l rows : versions_fit (length l) rows -> rows_ok rows -> spent_rows calls rows ->
  spent_rows calls (fold_right reauthorize rows l) /\ rows_ok (fold_right reauthorize rows l).
Proof.
  assert (forall n l rows, versions_fit (length l + n) rows -> rows_ok rows -> spent_rows calls rows ->
    (spent_rows calls (fold_right reauthorize rows l) /\ rows_ok (fold_right reauthorize rows l)) /\ versions_fit n (fold_right reauthorize rows l)) as Hgen.
  { intros n l' rows'. revert n. induction l' as [|a l' IH]; intros n Hf Hro Hs; [done|]. cbn [fold_right length] in *.
    destruct (IH (S n)) as [[H1 H2] H3]; [by rewrite Nat.add_succ_r in *|done|done|].
    split; [by eapply reauthorize_spent|by apply reauthorize_fits]. }
  intros Hf Hro Hs. destruct (Hgen 0%nat l rows) as [? _]; [by rewrite Nat.add_0_r|done..].
Qed.

Lemma reauthorized_refreshing l rows id r :
  rows !! id = Some r -> cr_AuthState r = AuthRefreshing -> fold_right reauthorize rows l !! id = Some r.
Proof.
  intros Hr Ha. induction l as [|a l IH]; [done|]. cbn. destruct (reauthorize_cases a (fold_right reauthorize rows l)) as [->|(x & Ex & Hx & ->)]; [done|].
  rewrite lookup_insert_ne; [done|]. intros E. rewrite E, IH in Ex. injection Ex as <-. by rewrite Ha in Hx.
Qed.

Lemma log_snoc calls d : log_ok calls ->
  (pc_Recovery d = false -> forall c, c ∈ calls -> pc_ID c = pc_ID d -> pc_Version c = pc_Version d -> pc_Retryable c = true) ->
  log_ok (calls ++ [d]).
Proof.
  intros Hl Hd i j c e Hi Hj Hij Hid Hv Hrec. rewrite lookup_app_Some in Hi, Hj.
  destruct Hj as [Hj|[Hge Hj]].
  - pose proof (lookup_lt_Some _ _ _ Hj). destruct Hi as [Hi|[? _]]; [|lia]. by eapply Hl.
  - apply list_lookup_singleton_Some in Hj as [Hj <-]. destruct Hi as [Hi|[? Hi]].
    + apply Hd; [done| |done|done]. by eapply list_elem_of_lookup_2.
    + apply list_lookup_singleton_Some in Hi as [Hi _]. lia.
Qed.

(** The row of the run is in the database. *)
Definition sendable (row : CredentialRow) (recovery : bool) (n : nat) (w : World) : Prop :=
  running row w /\ w_rows w !! cr_ID row = Some row /\ (recovery = false -> cr_AuthState row = AuthReady)
  /\ versions_fit n (w_rows w).

Lemma callProvider_ok run row recovery w :
  running row w -> w_rows w !! cr_ID row = Some (withAuth AuthRefreshing "" row) ->
  (recovery = false -> cr_AuthState row = AuthReady) -> versions_fit (length (rr_reauthorized run)) (w_rows w) ->
  (forall c, c ∈ w_calls w -> pc_Retryable c = false -> pc_ID c = cr_ID row -> pc_Version c = cr_SecretVersion row ->
     cr_AuthState row <> AuthReady) ->
  refresh_ok (callProvider run row recovery w).2
  /\ (answerRetryable (rr_answer run) = true -> running row (callProvider run row recovery w).2)
  /\ forall r, w_rows (callProvider run row recovery w).2 !! cr_ID row = Some r -> cr_SecretVersion r = cr_SecretVersion row.
Proof.
  intros [Hok Hrd] Hrow Hrec Hfit Hready. destruct Hok as [Hs Hl Hro]. unfold callProvider. cbn [snd w_rows w_calls].
  destruct (reauthorized_spent (w_calls w) _ _ Hfit Hro Hs) as [Hs' Hro'].
  pose proof (reauthorized_refreshing (rr_reauthorized run) _ _ _ Hrow eq_refl) as Hrow'.
  set (d := mkCall _ _ _ _).
  match goal with |- refresh_ok ?x /\ _ => assert (refresh_ok x) as Hok' end.
  { split; cbn [w_rows w_calls]; [|apply log_snoc; [done|]|done].
    - intros c r [Hc|Hc]%elem_of_app Hret Hr; [by apply Hs'|]. apply list_elem_of_singleton in Hc as ->. cbn in Hr.
      rewrite Hrow' in Hr. injection Hr as <-. right. done.
    - intros Hd c Hc Hid Hv. destruct (pc_Retryable c) eqn:Ec; [done|]. exfalso. eapply Hready; [done..|]. by apply Hrec. }
  split; [done|]. split; [|intros r; cbn [w_rows]; rewrite Hrow'; by intros [= <-]].
  intros Hret. split; [done|]. destruct Hrd as (H1 & H2 & H3). split; [done|]. cbn [w_calls w_rows]. split.
  - intros Ha c [Hc|Hc]%elem_of_app Hc' Hid; [by apply H2|]. apply list_elem_of_singleton in Hc as ->. cbn in Hc'. congruence.
  - intros r. rewrite Hrow'. by intros [= <-].
Qed.

Lemma sendRefresh_ok run driver row current recovery cd :
  leads (sendable row recovery (length (rr_reauthorized run))) refresh_ok (sendRefresh run driver row current recovery cd).
Proof.
  intros w (Hrun & Hrow & Hrec & Hfit). unfold sendRefresh, bindIO.
  destruct (transition_spec row (cr_SecretVersion row) AuthRefreshing "" (rr_start run) w) as [Ht Hs].
  assert (running row (transitionAuthState row (cr_SecretVersion row) AuthRefreshing "" (rr_start run) w).2) as Hrun1.
  { destruct Hrun as [Hok Hrd]. split; [by apply pres_mark|]. eapply touches_readable; [|exact Ht|exact Hrd]. done. }
  destruct (transitionAuthState row _ _ _ _ w) as [[] w1]; cbn [fst snd] in *; [|by eapply running_ok, pres_abandonStart].
  destruct (Hs eq_refl) as (r & Er & _ & Hrows). rewrite Hrow in Er. injection Er as <-.
  assert (w_rows w1 !! cr_ID row = Some (withAuth AuthRefreshing "" row)) as Hrow1 by (by rewrite Hrows, lookup_insert_eq).
  assert (versions_fit (length (rr_reauthorized run)) (w_rows w1)) as Hfit1.
  { rewrite Hrows. intros k x [[<- <-]|[_ Hx]]%lookup_insert_Some; [exact (Hfit _ _ Hrow)|exact (Hfit _ _ Hx)]. }
  destruct (callProvider_ok run row recovery w1) as (Hok2 & Hrun2 & Hver2); [done..| |].
  { intros c Hc Hret Hid Hv. rewrite (tc_calls _ _ _ _ Ht) in Hc. destruct Hrun as [Hok _]. rewrite <- Hid in Hrow.
    destruct (rf_spent _ Hok c row Hc Hret Hrow) as [|[_ ?]]; [lia|done]. }
  change ((callProvider run row recovery w1).1) with (rr_answer run) in *. destruct (callProvider run row recovery w1) as [answer w2] eqn:Ecall.
  unfold callProvider in Ecall. injection Ecall as <- _. cbn [snd] in *. destruct (rr_answer run) as [f|refreshed].
  - apply settleFailure_ok; [|done|done]. apply Hrun.
  - apply keepRefreshed_ok; [|done|done]. pose proof (Hfit _ _ Hrow). lia.
Qed.

Lemma pres_ensure row now : pres refresh_ok (ensureRuntimeMatchesDurableSecret row now).
Proof.
  unfold ensureRuntimeMatchesDurableSecret, repairFromRows.
  apply pres_bind; [apply pres_read|]. intros []; [apply pres_ret|]. apply pres_bind; [apply pres_read|]. eauto 20 with refresh.
Qed.

Lemma refreshCurrent_ok run driver row current ev force respect recovery :
  leads (sendable row recovery (length (rr_reauthorized run))) refresh_ok (refreshCurrent run driver row current ev force respect recovery).
Proof.
  unfold refreshCurrent. destruct (force && _ && _).
  { eapply (leads_pres _ _ refresh_ok); [|by intros w [[? _] _]|done]. apply pres_bind; [apply pres_ensure|]. intros b. apply pres_ret. }
  destruct (negb force && _); [by intros w [[? _] _]|].
  destruct respect; (eapply leads_bind; [apply (pres_read (sendable row recovery (length (rr_reauthorized run))))|]).
  - intros [e|]; [by intros w [[? _] _]|apply sendRefresh_ok].
  - intros t. apply sendRefresh_ok.
Qed.

Lemma locked_ok run ch driver id ev eg force respect recovery w :
  refresh_ok w -> versions_fit (length (rr_reauthorized run)) (w_rows w) ->
  refresh_ok (refreshCredentialLocked run ch driver id ev eg force respect recovery w).2.
Proof.
  intros Hok Hfit. unfold refreshCredentialLocked, bindIO.
  pose proof (query_steady (fun w => w_rows w !! id) w) as (S1 & _ & R1). destruct (query _ w) as [[row|] w1]; cbn [fst snd] in *; [|by eapply steady_ok].
  specialize (R1 row eq_refl). pose proof (query_steady (fun w => w_groups w !! cr_GroupID row) w1) as (S2 & _ & _).
  pose proof (steady_trans _ _ _ S1 S2) as S. destruct (query _ w1) as [[g|] w2]; cbn [fst snd] in *; [|by eapply steady_ok].
  pose proof (steady_ok _ _ S Hok) as Hok2. destruct (_ || _); [done|]. destruct (negb _ && negb _) eqn:Hauth; [done|].
  destruct (Decrypt (cr_Data row)); [|done]. destruct (drv_Parse driver _) as [current|]; [|done]. apply refreshCurrent_ok.
  assert (w_rows w2 !! id = Some row) as Hrow by (by rewrite (sd_rows _ _ S2)).
  destruct (rf_rows _ Hok2 _ _ Hrow) as [<- Hu]. split; [split; [done|split; [done|split]]|split; [done|split]].
  - intros Ha c Hc Hret Hid. rewrite <- Hid in Hrow. destruct (rf_spent _ Hok2 c row Hc Hret Hrow) as [|[_ ?]]; done.
  - intros r. rewrite Hrow. by intros [= <-].
  - intros ->. rewrite andb_true_r in Hauth. apply negb_false_iff, bool_decide_eq_true in Hauth. done.
  - by rewrite (sd_rows _ _ S).
Qed.

(** * The system *)

(** What happens to the database and the registry: a preparation with any flags, answers and
    failures, a staged authorisation, a start of the process, a credential that is created with
    a number never used before, edited elsewhere (which leaves the version and the authorisation
    state alone) or deleted, and anything that concerns the registry, the groups, the proxies and
    the future of the database. *)
Inductive refresh_step : World -> World -> Prop :=
| step_prepare run ch driver snapshot force respect recovery w :
    versions_fit (length (rr_reauthorized run)) (w_rows w) ->
    refresh_step w (prepare run ch driver snapshot force respect recovery w).2
| step_reauthorize a w : versions_fit 1 (w_rows w) -> refresh_step w (setRows (reauthorize a (w_rows w)) w)
| step_start w : refresh_step w (setRows (interruptRefreshes (w_rows w)) w)
| step_create id row w :
    (forall c, c ∈ w_calls w -> pc_ID c <> id) -> cr_ID row = id -> cr_AuthState row <> AuthUnset ->
    refresh_step w (setRows (<[id := row]> (w_rows w)) w)
| step_edit id row row' w :
    w_rows w !! id = Some row -> cr_ID row' = id -> cr_SecretVersion row' = cr_SecretVersion row ->
    cr_AuthState row' = cr_AuthState row -> refresh_step w (setRows (<[id := row']> (w_rows w)) w)
| step_delete id w : refresh_step w (setRows (delete id (w_rows w)) w)
| step_other w groups proxies registry outcomes :
    refresh_step w (mkWorld (w_rows w) groups proxies registry outcomes (w_calls w)).

Definition initialWorld (r : CredentialRegistry) : World := mkWorld ∅ ∅ None r [] [].

Lemma refresh_step_ok w w' : refresh_step w w' -> refresh_ok w -> refresh_ok w'.
Proof.
  intros Hstep Hok. destruct Hstep as [run ch driver snapshot force respect recovery w Hfit|a w Hfit|w|id row w Hnew Hid Hu|id row row' w Hrow Hid Hver Hauth|id w|w groups proxies registry outcomes].
  - unfold prepare. destruct driver as [driver|]; [|done]. destruct (drv_Parse driver _); [|done]. destruct (_ && _); [done|].
    by apply locked_ok.
  - destruct Hok as [Hs Hl Hro]. destruct (reauthorize_spent _ 0 a _ Hfit Hro Hs). by split.
  - destruct Hok as [Hs Hl Hro]. split; [|done|]; unfold interruptRefreshes; cbn [w_rows w_calls setRows].
    + intros c r Hc Hret. rewrite lookup_fmap_Some. intros (x & <- & Hx). destruct (Hs c x Hc Hret Hx) as [?|[? ?]].
      * left. by case_bool_decide.
      * right. by case_bool_decide.
    + intros k r. rewrite lookup_fmap_Some. intros (x & <- & Hx). destruct (Hro _ _ Hx). case_bool_decide; by split.
  - destruct Hok as [Hs Hl Hro]. split; [|done|]; cbn [w_rows w_calls setRows].
    + intros c r Hc Hret. rewrite lookup_insert_ne by (apply not_eq_sym; by apply Hnew). by apply Hs.
    + intros k r [[<- <-]|[_ Hx]]%lookup_insert_Some; [done|by apply Hro].
  - destruct Hok as [Hs Hl Hro]. split; [|done|]; cbn [w_rows w_calls setRows].
    + intros c r Hc Hret. rewrite lookup_insert_Some. intros [[Hk <-]|[_ Hx]]; [|by apply Hs].
      rewrite Hver, Hauth. subst id. by rewrite Hk in Hrow; apply Hs.
    + intros k r [[<- <-]|[_ Hx]]%lookup_insert_Some; [|by apply Hro]. destruct (Hro _ _ Hrow). by rewrite Hauth.
  - destruct Hok as [Hs Hl Hro]. split; [|done|]; cbn [w_rows w_calls setRows].
    + intros c r Hc Hret [_ Hx]%lookup_delete_Some. by apply Hs.
    + intros k r [_ Hx]%lookup_delete_Some. by apply Hro.
  - destruct Hok as [Hs Hl Hro]. by split.
Qed.

(** C15: Whatever the database and the providers answer, also when an update was committed
    although it failed, and however refreshes, staged authorisations and restarts follow each
    other: an automatic refresh never sends a secret that an earlier refresh has sent, unless the
    provider had answered that the secret was not used. *)
Theorem refresh_single_use registry w i j earlier later :
  rtc refresh_step (initialWorld registry) w ->
  w_calls w !! i = Some earlier -> w_calls w !! j = Some later -> (i < j)%nat ->
  pc_ID earlier = pc_ID later -> pc_Version earlier = pc_Version later -> pc_Recovery later = false ->
  pc_Retryable earlier = true.
Proof.
  intros Hrun. assert (refresh_ok w) as Hok; [|by apply (rf_log _ Hok)].
  assert (refresh_ok (initialWorld registry)) as Hinit by (split; [by intros c r Hc%elem_of_nil|done|done]).
  induction Hrun as [|w1 w2 w3 Hstep _ IH]; [done|]. eauto using refresh_step_ok.
Qed.

End Props.
