(* ===== verification/RefreshRuntime.v ===== *)
(** The database and the registry after a refresh: a new secret is durable and served, and a
    credential whose refresh may have consumed its secret is not served. *)
From Stdlib Require Import Ascii.
From S2P Require Import Prelude GoStrings Execution Config Credential Ledger Registry.
From S2P Require Import RegistryInvariant RegistryReach RegistryGroups RegistryProps Refresh RefreshProps.

Local Open Scope go_scope.
Local Open Scope Z_scope.

Lemma Forall2_in {A B} (P : A -> B -> Prop) l k : Forall2 P l k ->
  (forall x, x ∈ l -> exists y, y ∈ k /\ P x y) /\ forall y, y ∈ k -> exists x, x ∈ l /\ P x y.
Proof.
  intros Hp. split.
  - intros x [i Hi]%list_elem_of_lookup. destruct (Forall2_lookup_l _ _ _ _ _ Hp Hi) as (y & Hy & ?). exists y. split; [by eapply list_elem_of_lookup_2|done].
  - intros y [i Hi]%list_elem_of_lookup. destruct (Forall2_lookup_r _ _ _ _ _ Hp Hi) as (x & Hx & ?). exists x. split; [by eapply list_elem_of_lookup_2|done].
Qed.

(** * The registry *)

Definition entryReady (e : CredentialEntry) : Prop := authNormalize (ent_AuthState e) = AuthReady.
Definition not_ready (id : Z) (r : CredentialRegistry) : Prop := forall e, entryLocked r id = Some e -> ~ entryReady e.
Definition behind (id v : Z) (r : CredentialRegistry) : Prop := forall e, entryLocked r id = Some e -> ent_Version e <= v.

Lemma setAuth_spec r id a now : registry_ok r ->
  registry_ok (SetCredentialAuthState r id a now).1
  /\ match entryLocked r id with
     | Some e =>
         if authValid a then
           exists e', entryLocked (SetCredentialAuthState r id a now).1 id = Some e'
             /\ authNormalize (ent_AuthState e') = authNormalize a /\ ent_Version e' = ent_Version e
             /\ ent_CooldownUntil e' = ent_CooldownUntil e /\ (SetCredentialAuthState r id a now).2 = true
         else (SetCredentialAuthState r id a now).1 = r
     | None => SetCredentialAuthState r id a now = (r, false)
     end.
Proof.
  intros Hok. split; [by apply SetCredentialAuthState_ok|]. unfold SetCredentialAuthState. destruct (authValid a) eqn:Ha; cbn [negb].
  2:{ by destruct (entryLocked r id). }
  destruct (entryLocked r id) as [e|] eqn:He; [|done]. cbn [fst].
  set (e1 := withAuthState (authNormalize a) e). set (e2 := if bool_decide _ then e1 else _).
  assert (sameIdentity e2 e) as Hs by (subst e2 e1; by destruct e, (bool_decide _)).
  exists e2. split; [|subst e2 e1; destruct e, a, (bool_decide _); done].
  assert (sameIdentity e1 e) as Hs1 by (subst e1; by destruct e).
  rewrite (entryLocked_mutate (syncEntry e1 now r) id e e2 id); [by rewrite decide_True|by eapply sync_same_ok|done|done].
Qed.

Lemma setAuth_not_ready r id a now : registry_ok r -> not_ready id r -> authNormalize a <> AuthReady ->
  not_ready id (SetCredentialAuthState r id a now).1.
Proof.
  intros Hok Hn Ha. destruct (setAuth_spec r id a now Hok) as [_ Hs]. destruct (entryLocked r id) as [e|] eqn:He; [|by rewrite Hs].
  destruct (authValid a); [|by rewrite Hs]. destruct Hs as (e' & He' & Ea & _). intros x. rewrite He'. intros [= <-].
  unfold entryReady. congruence.
Qed.

Lemma setAuth_behind r id a now v : registry_ok r -> behind id v r -> behind id v (SetCredentialAuthState r id a now).1.
Proof.
  intros Hok Hb. destruct (setAuth_spec r id a now Hok) as [_ Hs]. destruct (entryLocked r id) as [e|] eqn:He; [|by rewrite Hs].
  destruct (authValid a); [|by rewrite Hs]. destruct Hs as (e' & He' & _ & Ev & _). intros x. rewrite He'. intros [= <-].
  rewrite Ev. by apply Hb.
Qed.

Lemma clone_fields e o :
  let e' := preserveModelCooldowns (cloneCredentialEntry e) o in
  ent_AuthState e' = ent_AuthState e /\ ent_Version e' = ent_Version e /\ ent_EncryptedValue e' = ent_EncryptedValue e.
Proof. unfold preserveModelCooldowns. destruct e, o; [case_if|]; done. Qed.

Lemma setCooldown_spec r id until now : registry_ok r ->
  registry_ok (SetCooldown r id until now).1
  /\ match entryLocked r id with
     | Some e =>
         (SetCooldown r id until now).2 = true
         /\ exists e', entryLocked (SetCooldown r id until now).1 id = Some e' /\ ent_AuthState e' = ent_AuthState e
              /\ ent_Version e' = ent_Version e /\ until <= ent_CooldownUntil e'
     | None => SetCooldown r id until now = (r, false)
     end.
Proof.
  intros Hok. pose proof (SetCooldownWithChange_ok r Hok id until now) as Hok'. unfold SetCooldown, SetCooldownWithChange in *.
  destruct (entryLocked r id) as [e|] eqn:He; [|done]. destruct (Z.leb_spec until (ent_CooldownUntil e)); cbn [fst snd] in *.
  - split; [done|]. split; [done|]. by exists e.
  - split; [done|]. split; [done|]. exists (withCooldown until e).
    change (entryLocked (syncEntry (withCooldown until e) now (mutate id (withCooldown until e) r)) id) with (entryLocked (mutate id (withCooldown until e) r) id).
    rewrite (entryLocked_mutate r id e) by (done || by destruct e). rewrite decide_True by done. by destruct e.
Qed.

(** Where an entry of a reconciled registry comes from. *)
Lemma reconcile_origin r g es clock r' b id x' :
  registry_ok r -> typed_entries es -> ReconcileGroup r g es clock = Ok (r', b) -> entryLocked r' id = Some x' ->
  (exists x, entryLocked r id = Some x /\ ent_AuthState x' = ent_AuthState x /\ ent_Version x' = ent_Version x)
  \/ exists e, e ∈ es /\ ent_ID e = id /\ ent_AuthState x' = ent_AuthState e /\ ent_Version x' = ent_Version e.
Proof.
  intros Hok Hu H Hx'. pose proof H as (Hg & Hes & Eb & ->)%ReconcileGroup_Ok. destruct b; [|left; by exists x'].
  destruct (reconcileWith_entries r g _ clock Hok (reconcileBucket_keys r g es Hu Hes)) as [_ Hent]. rewrite Hent in Hx'.
  destruct (group_entries_placeable r g es Hu Hes) as (Hnd & _ & _).
  destruct (reconcileBucket_lookup (bucketOf r g) es Hnd) as [Hin Hout].
  destruct (reconcileBucket (bucketOf r g) es !! id) as [y|] eqn:Ey.
  - injection Hx' as ->. destruct (decide (id ∈ ent_ID <$> es)) as [(e & -> & He)%list_elem_of_fmap|Hn]; [|by rewrite Hout in Ey].
    rewrite Hin in Ey by done. injection Ey as <-. unfold reconcileEntry.
    destruct (bucketOf r g !! ent_ID e) as [x|] eqn:Ex; [destruct (samePersistedCredentialConfig x e)|].
    + left. exists x. split; [|by destruct x]. apply entryLocked_spec; [apply Hok|]. by exists g.
    + right. exists e. destruct (clone_fields e (Some x)) as (? & ? & _). done.
    + right. exists e. by destruct e.
  - destruct (entryLocked r id) as [x|]; [|done]. destruct (decide _); [done|]. injection Hx' as <-. left. by exists x.
Qed.

Lemma reconcile_present r g es clock r' b e :
  registry_ok r -> typed_entries es -> ReconcileGroup r g es clock = Ok (r', b) -> e ∈ es ->
  exists x, entryLocked r' (ent_ID e) = Some x /\ ent_Version x = ent_Version e /\ ent_EncryptedValue x = ent_EncryptedValue e.
Proof.
  intros Hok Hu H He. destruct (reconciled_matches r g es clock r' b Hok Hu H) as [[_ Hm]%matchesGroup_spec _].
  destruct (Hm e He) as (x & Hx & _ & Hs). exists x. split.
  - apply entryLocked_spec; [eapply rg_index, ReconcileGroup_ok; done|by exists g].
  - apply samePersisted_spec in Hs. naive_solver.
Qed.

Section Runtime.
Context `{GoText} `{SubscriptionPlatform}.

(** * Entries from rows *)

Lemma proxied_fields catalog row e e' : proxiedEntry catalog row e = Some e' ->
  ent_ID e' = ent_ID e /\ ent_AuthState e' = ent_AuthState e /\ ent_Version e' = ent_Version e
  /\ ent_EncryptedValue e' = ent_EncryptedValue e.
Proof.
  unfold proxiedEntry. destruct (cr_ProxyConfig row) as [c|]; [|by intros [= <-]]. destruct (bool_decide _); [done|].
  destruct (Decrypt c) as [p|]; [|done]. destruct (decodeProxy p) as [[n []]|]; [done| |done]. destruct (negb _).
  - destruct (catalog !! n) as [m|]; [destruct (mp_Enabled m)|]; intros [= <-]; by destruct e.
  - intros [= <-]. by destruct e.
Qed.

Definition entryFor (row : CredentialRow) (e : CredentialEntry) : Prop :=
  ent_ID e = cr_ID row /\ ent_AuthState e = cr_AuthState row /\ ent_Version e = credentialVersion (cr_SecretVersion row)
  /\ ent_EncryptedValue e = cr_Data row.

Lemma groupRows_elem g rows row : row ∈ groupRows g rows <-> cr_GroupID row = g /\ exists id, rows !! id = Some row.
Proof.
  unfold groupRows. rewrite merge_sort_Permutation, list_elem_of_filter, list_elem_of_fmap. split.
  - intros [Hg ([id x] & -> & Hx%elem_of_map_to_list)]. eauto.
  - intros [Hg [id Hx]]. split; [done|]. exists (id, row). split; [done|]. by apply elem_of_map_to_list.
Qed.

Lemma buildEntries_spec g w es w' : BuildGroupCredentialEntriesWithProxy g w = (Some es, w') ->
  (forall e, e ∈ es -> exists row, row ∈ groupRows g (w_rows w) /\ entryFor row e)
  /\ forall row, row ∈ groupRows g (w_rows w) -> exists e, e ∈ es /\ entryFor row e.
Proof.
  unfold BuildGroupCredentialEntriesWithProxy. destruct (g =? 0); [done|]. unfold bindIO.
  pose proof (query_steady (fun w => w_groups w !! g) w) as (S1 & _ & _). destruct (query _ w) as [[gr|] w1]; [|done].
  pose proof (query_steady (fun w => Some (groupRows g (w_rows w))) w1) as (_ & _ & R2). cbn [fst snd] in *.
  pose proof (query_steady (fun w => Some (groupRows g (w_rows w))) w1) as (S2 & _ & _).
  destruct (query _ w1) as [[rows|] w2]; [|done]. cbn [fst snd] in *. specialize (R2 rows eq_refl). injection R2 as <-.
  rewrite (sd_rows _ _ S2), (sd_rows _ _ S1). destruct (query w_proxies w2) as [[catalog|] w3]; [|done].
  destruct (mapM _ _) as [es'|] eqn:Em; [|done]. destruct (is_ok _); [|done]. intros [= <- _].
  apply mapM_Some, Forall2_in in Em as [Em1 Em2]. assert (forall row e, proxiedEntry catalog row (mapCredential gr row) = Some e -> entryFor row e) as Hf
    by (intros row e He%proxied_fields; unfold entryFor; naive_solver).
  split.
  - intros e He. destruct (Em2 e He) as (row & Hrow & He'). eauto.
  - intros row Hrow. destruct (Em1 row Hrow) as (e & He & He'). eauto.
Qed.

(** * Worlds *)

Record runtime_ok (w : World) : Prop := {
  rt_registry : registry_ok (w_registry w);
  rt_rows : rows_ok (w_rows w);
  rt_typed : forall id r, w_rows w !! id = Some r -> is_u64 id
}.

Lemma buildEntries_typed g w es w' : runtime_ok w -> BuildGroupCredentialEntriesWithProxy g w = (Some es, w') -> typed_entries es.
Proof.
  intros Hok Hb. destruct (buildEntries_spec g w es w' Hb) as [Hes _]. apply Forall_forall. intros e He.
  destruct (Hes e He) as (row & [_ [id Hrow]]%groupRows_elem & Hid & _). rewrite Hid. destruct (rt_rows _ Hok _ _ Hrow) as [-> _].
  by eapply rt_typed.
Qed.

Lemma reconcileFromRows_spec g now w : runtime_ok w ->
  let '(b, w') := reconcileFromRows g now w in
  runtime_ok w' /\ w_rows w' = w_rows w /\ (b = false -> w_registry w' = w_registry w)
  /\ (forall id x', entryLocked (w_registry w') id = Some x' ->
        (exists x, entryLocked (w_registry w) id = Some x /\ ent_AuthState x' = ent_AuthState x /\ ent_Version x' = ent_Version x)
        \/ exists row, w_rows w !! id = Some row /\ ent_AuthState x' = cr_AuthState row
             /\ ent_Version x' = credentialVersion (cr_SecretVersion row))
  /\ (b = true -> forall id row, w_rows w !! id = Some row -> cr_GroupID row = g ->
        exists x, entryLocked (w_registry w') id = Some x /\ ent_Version x = credentialVersion (cr_SecretVersion row)
          /\ ent_EncryptedValue x = cr_Data row).
Proof.
  intros Hok. unfold reconcileFromRows, bindIO. destruct (buildEntries_steady g w) as [Hs Hreg].
  destruct (BuildGroupCredentialEntriesWithProxy g w) as [[es|] w1] eqn:Hb; cbn [fst snd] in *.
  2:{ cbn. split; [destruct Hok; split; by rewrite ?Hreg, ?(sd_rows _ _ Hs)|]. split; [apply Hs|]. split; [done|]. split; [|done].
      intros id x' Hx'. left. exists x'. by rewrite <- Hreg. }
  pose proof (buildEntries_typed g w es w1 Hok Hb) as Hty. destruct (buildEntries_spec g w es w1 Hb) as [Hes Hrows].
  unfold onRegistry. rewrite Hreg. destruct (ReconcileGroup (w_registry w) g es (fun _ => now)) as [[r' b]|err] eqn:Hr.
  - pose proof (ReconcileGroup_ok _ _ _ _ _ _ (rt_registry _ Hok) Hty Hr) as Hok'. cbn [w_registry setRegistry w_rows].
    split; [destruct Hok; split; cbn; by rewrite ?(sd_rows _ _ Hs)|]. split; [apply Hs|]. split; [done|]. split.
    + intros id x' Hx'. destruct (reconcile_origin _ _ _ _ _ _ _ _ (rt_registry _ Hok) Hty Hr Hx') as [?|(e & He & Hid & Ha & Hv)]; [by left|].
      right. destruct (Hes e He) as (row & [_ [k Hrow]]%groupRows_elem & Hid' & Ha' & Hv' & _).
      destruct (rt_rows _ Hok _ _ Hrow) as [Hk _]. exists row. split; [congruence|]. split; congruence.
    + intros _ id row Hrow Hg. destruct (Hrows row) as (e & He & Hid & _ & Hv & Hd); [apply groupRows_elem; eauto|].
      destruct (reconcile_present _ _ _ _ _ _ e (rt_registry _ Hok) Hty Hr He) as (x & Hx & Hxv & Hxd).
      exists x. destruct (rt_rows _ Hok _ _ Hrow) as [Hk _]. split; [congruence|]. split; congruence.
  - cbn. split; [destruct Hok; split; cbn; by rewrite ?(sd_rows _ _ Hs)|]. split; [apply Hs|]. split; [done|]. split; [|done].
    intros id x' Hx'. left. by exists x'.
Qed.

(** The credential of a refresh that is under way or uncertain: not served, not ready. *)
Record held (row : CredentialRow) (w : World) : Prop := {
  hd_ok : runtime_ok w;
  hd_ready : not_ready (cr_ID row) (w_registry w);
  hd_behind : behind (cr_ID row) (cr_SecretVersion row) (w_registry w);
  hd_row : forall r, w_rows w !! cr_ID row = Some r ->
    cr_SecretVersion r = cr_SecretVersion row /\ cr_GroupID r = cr_GroupID row /\ cr_AuthState r <> AuthReady
}.

Lemma row_normal row r w : runtime_ok w -> w_rows w !! cr_ID row = Some r -> cr_AuthState r <> AuthReady -> authNormalize (cr_AuthState r) <> AuthReady.
Proof. intros Hok Hr Ha. destruct (rt_rows _ Hok _ _ Hr) as [_ Hu]. by destruct (cr_AuthState r). Qed.

Lemma credentialVersion_pos v : 1 <= v -> credentialVersion v = v.
Proof. unfold credentialVersion. intros Hv. destruct (Z.ltb_spec v 1); lia. Qed.

Lemma setAuth_ok row a now w : held row w -> authNormalize a <> AuthReady ->
  held row (onRegistry (fun r => SetCredentialAuthState r (cr_ID row) a now) w).2.
Proof.
  intros [Hok Hn Hb Hr] Ha. unfold onRegistry. pose proof (setAuth_not_ready _ _ a now (rt_registry _ Hok) Hn Ha) as H1.
  pose proof (setAuth_behind _ _ a now _ (rt_registry _ Hok) Hb) as H2.
  destruct (setAuth_spec (w_registry w) (cr_ID row) a now (rt_registry _ Hok)) as [H3 _].
  destruct (SetCredentialAuthState _ _ _ _) as [r' b]. cbn in *. split; [|done..]. destruct Hok. by split.
Qed.

Lemma reconcile_held row g now : 1 <= cr_SecretVersion row -> pres (held row) (reconcileFromRows g now).
Proof.
  intros Hv w [Hok Hn Hb Hr]. pose proof (reconcileFromRows_spec g now w Hok) as Hs. destruct (reconcileFromRows g now w) as [b w'].
  destruct Hs as (Hok' & Hrows & _ & Horig & _). cbn [snd]. split; [done| | |by rewrite Hrows].
  - intros x' Hx'. destruct (Horig _ _ Hx') as [(x & Hx & Ha & _)|(r & Hrow & Ha & _)]; unfold entryReady; rewrite Ha; [by apply Hn|].
    apply (row_normal row r w); [done|done|]. by apply Hr.
  - intros x' Hx'. destruct (Horig _ _ Hx') as [(x & Hx & _ & ->)|(r & Hrow & _ & ->)]; [by apply Hb|].
    destruct (Hr _ Hrow) as [-> _]. by rewrite credentialVersion_pos.
Qed.

Lemma publish_held row a now : 1 <= cr_SecretVersion row -> authNormalize a <> AuthReady -> pres (held row) (publishAuthState row a now).
Proof.
  intros Hv Ha. unfold publishAuthState. apply pres_bind; [intros w Hw; by apply setAuth_ok|].
  intros b. apply pres_if; [apply pres_ret|by apply reconcile_held].
Qed.

Lemma touches_held row a code w w' : held row w -> a <> AuthReady -> a <> AuthUnset ->
  touches (cr_ID row) (withAuth a code) w w' -> w_registry w' = w_registry w -> held row w'.
Proof.
  intros [[Hreg Hro Hty] Hn Hb Hr] Ha Hu [_ Ht] Hreg'. destruct Ht as [Hrows|(r & Er & Hrows)].
  { split; [split|..]; rewrite ?Hreg', ?Hrows; done. }
  assert (forall k x, w_rows w' !! k = Some x -> (k = cr_ID row /\ x = withAuth a code r) \/ w_rows w !! k = Some x) as Hk.
  { intros k x. rewrite Hrows. intros [[<- <-]|[_ ?]]%lookup_insert_Some; auto. }
  split; [split|..]; rewrite ?Hreg'; try done.
  - intros k x [[-> ->]|?]%Hk; [|by apply Hro]. split; [|done]. exact (proj1 (Hro _ _ Er)).
  - intros k x [[-> ->]|Hx]%Hk; [exact (Hty _ _ Er)|exact (Hty _ _ Hx)].
  - intros x [[_ ->]|?]%Hk; [|by apply Hr]. destruct (Hr r Er) as (? & ? & _). done.
Qed.

Lemma updateRow_registry id cond f w : w_registry (updateRow id cond f w).2 = w_registry w.
Proof.
  unfold updateRow. destruct (nextOutcome_steady w) as [_ Hr]. destruct (nextOutcome w) as [o w1]. cbn in *.
  destruct (w_rows w1 !! id); [|done]. destruct (cond _); [|done]. by destruct o.
Qed.

Lemma transition_held row version a code now : 1 <= cr_SecretVersion row -> a <> AuthReady -> a <> AuthUnset ->
  pres (held row) (transitionAuthState row version a code now).
Proof.
  intros Hv Ha Hu. unfold transitionAuthState. apply pres_bind.
  - intros w Hw. eapply touches_held; [done..|apply updateRow_spec|apply updateRow_registry].
  - intros b. apply pres_if; [|apply pres_ret]. apply publish_held; [done|]. by destruct a.
Qed.

Lemma giveUp_held row now : pres (held row) (giveUpInMemory (cr_ID row) now).
Proof. intros w Hw. by apply setAuth_ok. Qed.

#[local] Hint Resolve transition_held giveUp_held : refresh.

Lemma setCooldown_held row until now w : held row w ->
  let '(b, w') := onRegistry (fun r => SetCooldown r (cr_ID row) until now) w in
  held row w' /\ w_rows w' = w_rows w
  /\ (b = true -> exists e, entryLocked (w_registry w') (cr_ID row) = Some e /\ until <= ent_CooldownUntil e).
Proof.
  intros [Hok Hn Hb Hr]. unfold onRegistry. destruct (setCooldown_spec (w_registry w) (cr_ID row) until now (rt_registry _ Hok)) as [Hreg Hs].
  unfold not_ready, behind in *. destruct (SetCooldown _ _ _ _) as [r' b]. cbn [fst snd] in *.
  destruct (entryLocked (w_registry w) (cr_ID row)) as [e|] eqn:He.
  - destruct Hs as (-> & e' & He' & Ha & Hv & Hu). split; [|by eauto]. destruct Hok. split; [by split|..|done]; cbn; intros x.
    + rewrite He'. intros [= <-]. unfold entryReady. rewrite Ha. by apply Hn.
    + rewrite He'. intros [= <-]. rewrite Hv. by apply Hb.
  - injection Hs as -> ->. split; [|done]. destruct Hok. split; [by split|..|done]; cbn; intros x; by rewrite He.
Qed.

(** A credential whose refresh was refused before it was processed: ready as it was, with its
    secret, and cooling down at least for the delay the error reports. *)
Definition restored (run : RefreshRun) (row : CredentialRow) (e : ErrorEvidence) (w : World) : Prop :=
  cr_AuthState row = AuthReady /\ w_rows w !! cr_ID row = Some (withAuth AuthReady "" row)
  /\ exists x, entryLocked (w_registry w) (cr_ID row) = Some x /\ entryReady x /\ ent_Version x <= cr_SecretVersion row
       /\ rr_end run + (if ee_RetryAfter e <=? 0 then DefaultRefreshFailureCooldown else ee_RetryAfter e) <= ent_CooldownUntil x.

Lemma restore_ready row until now w :
  held row w -> w_rows w !! cr_ID row = Some (withAuth AuthRefreshing "" row) ->
  (exists e, entryLocked (w_registry w) (cr_ID row) = Some e /\ until <= ent_CooldownUntil e) ->
  let '(b, w') := transitionAuthState row (cr_SecretVersion row) AuthReady "" now w in
  if b : bool then
    w_rows w' !! cr_ID row = Some (withAuth AuthReady "" row)
    /\ exists e, entryLocked (w_registry w') (cr_ID row) = Some e /\ entryReady e /\ ent_Version e <= cr_SecretVersion row
         /\ until <= ent_CooldownUntil e
  else registry_ok (w_registry w') /\ not_ready (cr_ID row) (w_registry w').
Proof.
  intros [Hok Hn Hb _] Hrow (e & He & Hu). unfold transitionAuthState, setAuthState, bindIO. set (m := updateRow _ _ _).
  destruct (updateRow_spec (cr_ID row) (fun r => cr_SecretVersion r =? cr_SecretVersion row) (withAuth AuthReady "") w) as [_ Hs].
  pose proof (updateRow_registry (cr_ID row) (fun r => cr_SecretVersion r =? cr_SecretVersion row) (withAuth AuthReady "") w) as Hreg.
  fold m in Hs, Hreg. destruct (m w) as [[] w1]; cbn [fst snd] in *.
  2:{ cbn. rewrite Hreg. split; [apply Hok|done]. }
  destruct (Hs eq_refl) as (r & Hr & _ & Hrows). rewrite Hrow in Hr. injection Hr as <-.
  unfold publishAuthState, bindIO, onRegistry. rewrite Hreg.
  destruct (setAuth_spec (w_registry w) (cr_ID row) AuthReady now (rt_registry _ Hok)) as [_ Hset]. rewrite He in Hset.
  change (authValid AuthReady) with true in Hset. cbv iota in Hset. destruct Hset as (e' & He' & Ha & Hv & Hc & Ht).
  destruct (SetCredentialAuthState _ _ _ _) as [r' b]. cbn [fst snd] in *. subst b. cbn. split; [by rewrite Hrows, lookup_insert_eq|].
  exists e'. split; [done|]. split; [done|]. rewrite Hv, Hc. split; [by apply Hb|done].
Qed.

Lemma giveUp_not_ready id now w : registry_ok (w_registry w) -> not_ready id (w_registry w) ->
  not_ready id (w_registry (giveUpInMemory id now w).2).
Proof.
  intros Hok Hn. unfold giveUpInMemory, onRegistry. pose proof (setAuth_not_ready _ id AuthOutcomeUnknown now Hok Hn ltac:(done)) as H1.
  by destruct (SetCredentialAuthState _ _ _ _).
Qed.

Lemma settleRetryable_settled run row f w :
  1 <= cr_SecretVersion row -> cr_AuthState row <> AuthUnset -> held row w ->
  w_rows w !! cr_ID row = Some (withAuth AuthRefreshing "" row) ->
  let '(res, w') := settleRetryable row f (rr_end run) w in
  exists e, res = Err e /\ (not_ready (cr_ID row) (w_registry w') \/ restored run row e w').
Proof.
  intros Hv Hu Hh Hrow. unfold settleRetryable. set (ev := refreshTemporarilyUnavailableEvidence f). set (now := rr_end run).
  pose proof (restoreState_unset row Hu) as Hau. destruct (refreshRestoreState row) as [a code] eqn:Ea. cbn in Hau. cbv zeta.
  set (cd := if _ <=? 0 then _ else _). unfold bindIO at 1.
  pose proof (setCooldown_held row (now + cd) now w Hh) as Hc. destruct (onRegistry _ w) as [[] w1]; destruct Hc as (Hh1 & Hrows1 & Hcd).
  - rewrite <- Hrows1 in Hrow. specialize (Hcd eq_refl). unfold bindIO. destruct (decide (a = AuthReady)) as [->|Hna].
    + assert (cr_AuthState row = AuthReady /\ code = ""%string) as [Har ->].
      { unfold refreshRestoreState in Ea. destruct (cr_AuthState row); try done; injection Ea as <-; done. }
      pose proof (restore_ready row _ now w1 Hh1 Hrow Hcd) as Hr. destruct (transitionAuthState _ _ _ _ _ w1) as [[] w2].
      * exists ev. split; [done|]. right. done.
      * destruct Hr as [H1 H2]. pose proof (giveUp_not_ready (cr_ID row) now w2 H1 H2) as Hg. destruct (giveUpInMemory _ _ w2). eexists. split; [done|]. by left.
    + pose proof (transition_held row (cr_SecretVersion row) a code now Hv Hna Hau w1 Hh1) as Hh2.
      destruct (transitionAuthState _ _ _ _ _ w1) as [[] w2]; cbn [snd] in Hh2; [exists ev; split; [done|]; left; apply Hh2|].
      pose proof (giveUp_held row now w2 Hh2) as Hg. destruct (giveUpInMemory _ _ w2). eexists. split; [done|]. left. apply Hg.
  - unfold bindIO, markRefreshOutcomeUnknown.
    pose proof (transition_held row (cr_SecretVersion row) AuthOutcomeUnknown "refresh_registry_mismatch" now Hv ltac:(done) ltac:(done) w1 Hh1) as Hh2.
    destruct (transitionAuthState _ _ _ _ _ w1) as [[] w2]; cbn [snd] in Hh2; [eexists; split; [done|]; left; apply Hh2|].
    pose proof (giveUp_held row now w2 Hh2) as Hg. destruct (giveUpInMemory _ _ w2). eexists. split; [done|]. left. apply Hg.
Qed.

Lemma settleFailure_settled run row f w :
  1 <= cr_SecretVersion row -> cr_AuthState row <> AuthUnset -> held row w ->
  w_rows w !! cr_ID row = Some (withAuth AuthRefreshing "" row) ->
  let '(res, w') := settleFailure row f (rr_end run) w in
  exists e, res = Err e
    /\ (not_ready (cr_ID row) (w_registry w') \/ fd_Kind f = RefreshFailureRetryable /\ restored run row e w').
Proof.
  intros Hv Hu Hh Hrow. unfold settleFailure. destruct (bool_decide_reflect (fd_Kind f = RefreshFailureRetryable)) as [Hk|Hk].
  { pose proof (settleRetryable_settled run row f w Hv Hu Hh Hrow) as Hs. destruct (settleRetryable _ _ _ w). naive_solver. }
  destruct (settleState_marks row (fd_Kind f) Hu) as [Ha Hb].
  destruct (settleState row (fd_Kind f)) as [[a code] ecode]. cbn in Ha, Hb. unfold bindIO.
  pose proof (transition_held row (cr_SecretVersion row) a code (rr_end run) Hv Ha Hb w Hh) as Hh2.
  destruct (transitionAuthState _ _ _ _ _ w) as [[] w2]; cbn [snd] in Hh2; [eexists; split; [done|]; left; apply Hh2|].
  pose proof (giveUp_held row (rr_end run) w2 Hh2) as Hg. destruct (giveUpInMemory _ _ w2). eexists. split; [done|]. left. apply Hg.
Qed.

Lemma markUnknown_held row version code now : 1 <= cr_SecretVersion row -> pres (held row) (markRefreshOutcomeUnknown row version code now).
Proof. intros Hv. by apply transition_held. Qed.

Lemma loseSecret_held row code now : 1 <= cr_SecretVersion row -> pres (held row) (loseSecret row code now).
Proof. intros Hv. unfold loseSecret. apply pres_bind; [by apply markUnknown_held|]. intros b. apply pres_ret. Qed.

(** * Keeping the new secret *)

(** The registry serves version [v] of the secret [data]. *)
Definition served (id v : Z) (data : string) (r : CredentialRegistry) : Prop :=
  exists e, entryLocked r id = Some e /\ entryReady e /\ ent_Version e = v /\ ent_EncryptedValue e = data.

Lemma replace_spec r id v v' fp ct : registry_ok r -> 0 <= v ->
  let '(r', b) := ReplaceCredentialSecretIfMatch r id v v' fp ct in
  registry_ok r' /\ if b then served id v' ct r' else r' = r.
Proof.
  intros Hok Hv. pose proof (ReplaceSecret_ok r Hok id v v' fp ct Hv) as Hok'. unfold ReplaceCredentialSecretIfMatch in *.
  destruct (_ || _); [done|]. destruct (entryLocked r id) as [e|] eqn:He; [|done]. destruct (_ =? _); [|done].
  cbn [fst] in Hok'. split; [done|]. exists (withSecret v' fp ct e).
  rewrite (entryLocked_mutate r id e) by (done || by destruct e). rewrite decide_True by done. by destruct e.
Qed.

Lemma clearCooldown_served r id v data t now : registry_ok r -> served id v data r ->
  served id v data (ClearCooldownIfMatch r id t now).1.
Proof.
  intros Hok (e & He & Hr & Hv & Hd). unfold ClearCooldownIfMatch. destruct (isZeroTime t); [by exists e|]. rewrite He.
  destruct (_ =? _); [|by exists e]. exists (withCooldown 0 e). cbn [fst].
  change (entryLocked (syncEntry (withCooldown 0 e) now (mutate id (withCooldown 0 e) r)) id) with (entryLocked (mutate id (withCooldown 0 e) r) id).
  rewrite (entryLocked_mutate r id e) by (done || by destruct e). rewrite decide_True by done. unfold entryReady in *. by destruct e.
Qed.

Lemma publishAuthState_same row row' a now :
  cr_ID row' = cr_ID row -> cr_GroupID row' = cr_GroupID row -> publishAuthState row a now = publishAuthState row' a now.
Proof. unfold publishAuthState. by intros -> ->. Qed.

(** The database has the new secret. *)
Record committed (row : CredentialRow) (data : string) (w : World) : Prop := {
  cm_ok : runtime_ok w;
  cm_ready : not_ready (cr_ID row) (w_registry w);
  cm_behind : behind (cr_ID row) (cr_SecretVersion row) (w_registry w);
  cm_row : exists r, w_rows w !! cr_ID row = Some r /\ cr_Data r = data /\ cr_SecretVersion r = cr_SecretVersion row + 1
    /\ cr_AuthState r = AuthReady /\ cr_AuthErrorCode r = ""%string /\ cr_GroupID r = cr_GroupID row
}.

(** A secret that cannot be published is marked. *)
Lemma markCommitted row data now w : 1 <= cr_SecretVersion row -> committed row data w ->
  let '(b, w') := markRefreshOutcomeUnknown row (cr_SecretVersion row + 1) "refresh_registry_mismatch" now w in
  registry_ok (w_registry w') /\ not_ready (cr_ID row) (w_registry w').
Proof.
  intros Hv [Hok Hn Hb (r & Hr & _ & Hrv & _ & _ & Hg)]. unfold markRefreshOutcomeUnknown, transitionAuthState, setAuthState, bindIO.
  destruct (updateRow_spec (cr_ID row) (fun r => cr_SecretVersion r =? cr_SecretVersion row + 1)
    (withAuth AuthOutcomeUnknown "refresh_registry_mismatch") w) as [_ Hs].
  pose proof (updateRow_registry (cr_ID row) (fun r => cr_SecretVersion r =? cr_SecretVersion row + 1)
    (withAuth AuthOutcomeUnknown "refresh_registry_mismatch") w) as Hreg.
  destruct (updateRow _ _ _ w) as [[] w1]; cbn [fst snd] in *; [|cbn; rewrite Hreg; split; [apply Hok|done]].
  destruct (Hs eq_refl) as (r1 & Er1 & _ & Hrows). rewrite Hr in Er1. injection Er1 as <-.
  pose proof (rt_rows _ Hok _ _ Hr) as [Hid _].
  assert (held r w1) as Hheld.
  { split; rewrite ?Hreg, ?Hid; [|done| |].
    - destruct Hok as [? Hro Hty]. split; rewrite ?Hreg; [done|..]; rewrite Hrows.
      + intros k x [[<- <-]|[_ Hx]]%lookup_insert_Some; [done|by apply Hro].
      + intros k x [[<- <-]|[_ Hx]]%lookup_insert_Some; [exact (Hty _ _ Hr)|exact (Hty _ _ Hx)].
    - intros e He%Hb. lia.
    - rewrite Hrows, lookup_insert_eq. by intros x [= <-]. }
  rewrite (publishAuthState_same row r) by done.
  pose proof (publish_held r AuthOutcomeUnknown now ltac:(lia) ltac:(done) w1 Hheld) as [H1 H2 _ _]. rewrite Hid in H2.
  destruct (publishAuthState r _ _ w1). split; [apply H1|done].
Qed.

(** What a call of the provider leaves behind. *)
Definition settled (run : RefreshRun) (row : CredentialRow) (res : result ErrorEvidence SubCredential) (w : World) : Prop :=
  match res with
  | Ok c =>
      exists r, w_rows w !! cr_ID row = Some r /\ rr_encrypt run (sc_canonical c) = Some (cr_Data r)
        /\ cr_SecretVersion r = cr_SecretVersion row + 1 /\ cr_AuthState r = AuthReady /\ cr_AuthErrorCode r = ""%string
        /\ served (cr_ID row) (cr_SecretVersion r) (cr_Data r) (w_registry w)
  | Err _ => not_ready (cr_ID row) (w_registry w)
  end.

Lemma publishSecret_settled run row fp ct cd refreshed now w :
  1 <= cr_SecretVersion row -> rr_encrypt run (sc_canonical refreshed) = Some ct -> committed row ct w ->
  let '(res, w') := publishSecret row (cr_SecretVersion row + 1) fp ct cd refreshed now w in settled run row res w'.
Proof.
  intros Hv Henc Hcm. unfold publishSecret. unfold bindIO at 1. unfold onRegistry at 1.
  pose proof (replace_spec (w_registry w) (cr_ID row) (cr_SecretVersion row) (cr_SecretVersion row + 1) fp ct
    (rt_registry _ (cm_ok _ _ _ Hcm)) ltac:(lia)) as Hrep.
  destruct (ReplaceCredentialSecretIfMatch _ _ _ _ _ _) as [reg' replaced]. destruct Hrep as [Hreg' Hrep].
  set (w1 := setRegistry reg' w). unfold bindIO at 1.
  assert (exists b w2, (if replaced then ret true else reconcileFromRows (cr_GroupID row) now) w1 = (b, w2)
    /\ (if b : bool then registry_ok (w_registry w2) /\ w_rows w2 = w_rows w
          /\ served (cr_ID row) (cr_SecretVersion row + 1) ct (w_registry w2) else committed row ct w2)) as (b & w2 & -> & Hb).
  { destruct replaced; [by exists true, w1|]. subst reg'. assert (w1 = w) as -> by (by destruct w).
    pose proof (reconcileFromRows_spec (cr_GroupID row) now w (cm_ok _ _ _ Hcm)) as Hs.
    destruct (reconcileFromRows _ _ w) as [b w2]. exists b, w2. split; [done|]. destruct Hs as (Hok2 & Hrows & Hsame & Horig & Hpres).
    destruct Hcm as [Hok Hn Hbe (r & Hr & Hd & Hrv & Ha & Hc & Hg)]. destruct b.
    - split; [apply Hok2|]. split; [done|]. destruct (Hpres eq_refl _ _ Hr Hg) as (x & Hx & Hxv & Hxd). exists x. split; [done|].
      rewrite Hrv, credentialVersion_pos in Hxv by lia. split; [|split; congruence].
      destruct (Horig _ _ Hx) as [(y & Hy & _ & Ey)|(r' & Hr' & Ea & _)]; [apply Hbe in Hy; lia|].
      unfold entryReady. rewrite Ea. rewrite Hr in Hr'. injection Hr' as <-. by rewrite Ha.
    - specialize (Hsame eq_refl). split; rewrite ?Hsame, ?Hrows; eauto 10. }
  destruct b.
  - destruct Hb as (Hok2 & Hrows & Hserved). destruct (cm_row _ _ _ Hcm) as (r & Hr & Hd & Hrv & Ha & Hc & Hg). unfold bindIO, ret.
    assert (forall w3, w_rows w3 = w_rows w -> served (cr_ID row) (cr_SecretVersion row + 1) ct (w_registry w3) -> settled run row (Ok refreshed) w3) as Hfin.
    { intros w3 Hrows3 Hs3. exists r. rewrite Hrows3, Hd, Hrv. done. }
    destruct (isZeroTime cd); [by apply Hfin|]. unfold onRegistry.
    pose proof (clearCooldown_served _ _ _ _ cd now Hok2 Hserved) as Hs3. destruct (ClearCooldownIfMatch _ _ _ _). by apply Hfin.
  - pose proof (markCommitted row ct now w2 Hv Hb) as Hm. unfold bindIO. destruct (markRefreshOutcomeUnknown _ _ _ _ w2) as [[] w3]; [apply Hm|].
    destruct Hm as [Hm1 Hm2]. pose proof (giveUp_not_ready (cr_ID row) now w3 Hm1 Hm2). by destruct (giveUpInMemory _ _ w3).
Qed.

Lemma loseSecret_err row code now w : is_ok (loseSecret row code now w).1 = false.
Proof. unfold loseSecret, bindIO. by destruct (markRefreshOutcomeUnknown _ _ _ _ w). Qed.

(** The update was committed although it reported an error: the mark misses the new version. *)
Lemma loseCommitted row data code now w : committed row data w ->
  let '(res, w') := loseSecret row code now w in is_ok res = false /\ not_ready (cr_ID row) (w_registry w').
Proof.
  intros Hcm. pose proof (loseSecret_err row code now w) as Herr. destruct (cm_row _ _ _ Hcm) as (r & Hr & _ & Hrv & _).
  unfold loseSecret, markRefreshOutcomeUnknown, transitionAuthState, setAuthState, bindIO in *. set (m := updateRow _ _ _) in *.
  destruct (updateRow_spec (cr_ID row) (fun r => cr_SecretVersion r =? cr_SecretVersion row) (withAuth AuthOutcomeUnknown code) w) as [_ Hs].
  pose proof (updateRow_registry (cr_ID row) (fun r => cr_SecretVersion r =? cr_SecretVersion row) (withAuth AuthOutcomeUnknown code) w) as Hreg.
  fold m in Hs, Hreg. destruct (m w) as [[] w1]; cbn [fst snd] in *.
  - exfalso. destruct (Hs eq_refl) as (r' & Hr' & Hv & _). rewrite Hr in Hr'. injection Hr' as <-. lia.
  - cbn. split; [done|]. rewrite Hreg. apply Hcm.
Qed.

Lemma commit_spec row data fp w :
  held row w -> w_rows w !! cr_ID row = Some (withAuth AuthRefreshing "" row) ->
  let '(b, w') := updateRow (cr_ID row)
    (fun r => (cr_SecretVersion r =? cr_SecretVersion row) && bool_decide (cr_AuthState r = AuthRefreshing))
    (withNewSecret data fp (cr_SecretVersion row + 1)) w in
  committed row data w' \/ b = false /\ held row w'.
Proof.
  intros Hheld Hrow. set (m := updateRow _ _ _). set (f := withNewSecret data fp (cr_SecretVersion row + 1)).
  destruct (updateRow_spec (cr_ID row) (fun r => (cr_SecretVersion r =? cr_SecretVersion row) && bool_decide (cr_AuthState r = AuthRefreshing))
    f w) as [[_ Ht] Hs]. pose proof (updateRow_registry (cr_ID row) (fun r => (cr_SecretVersion r =? cr_SecretVersion row)
    && bool_decide (cr_AuthState r = AuthRefreshing)) f w) as Hreg. fold f in m. fold m in Ht, Hs, Hreg.
  assert (w_rows (m w).2 = <[cr_ID row := f (withAuth AuthRefreshing "" row)]> (w_rows w) -> committed row data (m w).2) as Hcm.
  { intros Hrows. destruct Hheld as [Hok Hn Hb _]. split; rewrite ?Hreg; [|done|done|].
    - destruct Hok as [? Hro Hty]. split; rewrite ?Hreg; [done|..]; rewrite Hrows.
      + intros k x [[<- <-]|[_ Hx]]%lookup_insert_Some; [|by apply Hro]. done.
      + intros k x [[<- <-]|[_ Hx]]%lookup_insert_Some; [exact (Hty _ _ Hrow)|exact (Hty _ _ Hx)].
    - eexists. rewrite Hrows, lookup_insert_eq. done. }
  destruct (m w) as [b w1]; cbn [fst snd] in *. destruct Ht as [Hrows|(r & Hr & Hrows)].
  - destruct b.
    + left. destruct (Hs eq_refl) as (r & Hr & _ & Hrows'). rewrite Hrow in Hr. injection Hr as <-. by apply Hcm.
    + right. split; [done|]. destruct Hheld as [[]]. split; [split|..]; by rewrite ?Hreg, ?Hrows.
  - left. rewrite Hrow in Hr. injection Hr as <-. by apply Hcm.
Qed.

Lemma keepRefreshed_settled run driver row current refreshed cd now w :
  1 <= cr_SecretVersion row < maxUint64 -> held row w -> w_rows w !! cr_ID row = Some (withAuth AuthRefreshing "" row) ->
  let '(res, w') := keepRefreshed run driver row current refreshed cd now w in settled run row res w'.
Proof.
  intros Hv Hheld Hrow. assert (forall (m : io (result ErrorEvidence SubCredential)) w, held row w -> pres (held row) m -> is_ok (m w).1 = false ->
    let '(res, w') := m w in settled run row res w') as Herr.
  { intros m w0 Hw0 Hm Hres. specialize (Hm w0 Hw0). destruct (m w0) as [[c|e] w']; [done|]. apply Hm. }
  assert (forall code w, held row w -> let '(res, w') := loseSecret row code now w in settled run row res w') as Hlose.
  { intros code w0 Hw0. apply Herr; [done|apply loseSecret_held; lia|apply loseSecret_err]. }
  unfold keepRefreshed. destruct (negb _).
  { apply Herr; [done|apply pres_bind; [apply transition_held; (done || lia)|eauto 10 with refresh]|].
    unfold bindIO. destruct (transitionAuthState _ _ _ _ _ w) as [[] w2]; [done|]. by destruct (giveUpInMemory _ _ w2). }
  case_bool_decide; [by apply Hlose|]. destruct (rr_encrypt run _) as [ct|] eqn:Henc; [|by apply Hlose].
  replace (u64 (cr_SecretVersion row + 1)) with (cr_SecretVersion row + 1) by (unfold u64, two64, maxUint64 in *; rewrite Z.mod_small; lia).
  unfold bindIO. pose proof (commit_spec row ct (HashText (sc_canonical refreshed)) w Hheld Hrow) as Hc.
  destruct (updateRow _ _ _ w) as [[] w1]; destruct Hc as [Hc|[? Hc]]; try done.
  - apply publishSecret_settled; [lia|done|done].
  - pose proof (loseCommitted row ct "refresh_commit_failed" now w1 Hc) as Hl. destruct (loseSecret _ _ _ w1) as [[c|e] w2]; [by destruct Hl|]. apply Hl.
  - by apply Hlose.
Qed.

(** What others do to the registry while the provider works does not concern the credential. *)
Definition quiet (run : RefreshRun) (id : Z) : Prop :=
  forall r, registry_ok r -> registry_ok (rr_registry run r) /\ entryLocked (rr_registry run r) id = entryLocked r id.

Lemma started_held row now w :
  runtime_ok w -> w_rows w !! cr_ID row = Some row -> 1 <= cr_SecretVersion row -> behind (cr_ID row) (cr_SecretVersion row) (w_registry w) ->
  let '(b, w') := transitionAuthState row (cr_SecretVersion row) AuthRefreshing "" now w in
  b = true -> held row w' /\ w_rows w' !! cr_ID row = Some (withAuth AuthRefreshing "" row).
Proof.
  intros Hok Hrow Hv Hb. destruct (transition_spec row (cr_SecretVersion row) AuthRefreshing "" now w) as [_ Hts].
  unfold transitionAuthState, setAuthState, bindIO in *. set (m := updateRow _ _ _) in *.
  destruct (updateRow_spec (cr_ID row) (fun r => cr_SecretVersion r =? cr_SecretVersion row) (withAuth AuthRefreshing "") w) as [_ Hs].
  pose proof (updateRow_registry (cr_ID row) (fun r => cr_SecretVersion r =? cr_SecretVersion row) (withAuth AuthRefreshing "") w) as Hreg.
  fold m in Hs, Hreg. destruct (m w) as [[] w1]; cbn [fst snd] in *; [|done]. destruct (Hs eq_refl) as (r & Hr & _ & Hrows). rewrite Hrow in Hr. injection Hr as <-.
  assert (runtime_ok w1) as Hok1.
  { destruct Hok as [? Hro Hty]. split; rewrite ?Hreg; [done|..]; rewrite Hrows.
    - intros k x [[<- <-]|[_ Hx]]%lookup_insert_Some; [|by apply Hro]. done.
    - intros k x [[<- <-]|[_ Hx]]%lookup_insert_Some; [exact (Hty _ _ Hrow)|exact (Hty _ _ Hx)]. }
  assert (forall r', registry_ok r' -> not_ready (cr_ID row) r' -> behind (cr_ID row) (cr_SecretVersion row) r' -> held row (setRegistry r' w1)) as Hh.
  { intros r' H1 H2 H3. destruct Hok1. split; [by split|done|done|]. cbn. rewrite Hrows, lookup_insert_eq. by intros x [= <-]. }
  assert (held row (publishAuthState row AuthRefreshing now w1).2) as Hheld.
  { unfold publishAuthState, bindIO, onRegistry. pose proof (rt_registry _ Hok1) as Hreg1. rewrite <- Hreg in Hb.
    destruct (setAuth_spec (w_registry w1) (cr_ID row) AuthRefreshing now Hreg1) as [Hr1 Hset].
    pose proof (setAuth_behind _ _ AuthRefreshing now _ Hreg1 Hb) as Hb1.
    destruct (entryLocked (w_registry w1) (cr_ID row)) as [e|] eqn:He.
    - change (authValid AuthRefreshing) with true in Hset. cbv iota in Hset. destruct Hset as (e' & He' & Ha & _). destruct (SetCredentialAuthState _ _ _ _) as [r' b]. cbn [fst] in *.
      assert (held row (setRegistry r' w1)) as Hh1.
      { apply Hh; [done| |done]. intros x. rewrite He'. intros [= <-]. unfold entryReady. by rewrite Ha. }
      destruct b; [done|]. by apply reconcile_held.
    - rewrite Hset. cbn. apply reconcile_held; [done|]. apply Hh; [done| |done]. intros x. by rewrite He. }
  destruct (publishAuthState row AuthRefreshing now w1) as [b w2]. cbn [fst snd] in *. intros ->. split; [done|].
  destruct (Hts eq_refl) as (r & Hr & _ & ->). rewrite Hrow in Hr. injection Hr as <-. apply lookup_insert_eq.
Qed.

(** * Without a call *)

Definition calls_are (calls : list ProviderCall) (w : World) : Prop := w_calls w = calls.

Lemma steady_calls {A} calls (m : io A) : (forall w, steady w (m w).2) -> pres (calls_are calls) m.
Proof. intros Hs w Hw. unfold calls_are. by rewrite (sd_calls _ _ (Hs w)). Qed.

Lemma touches_calls {A} calls (m : io A) id f : (forall w, touches id f w (m w).2) -> pres (calls_are calls) m.
Proof. intros Hs w Hw. unfold calls_are. by rewrite (tc_calls _ _ _ _ (Hs w)). Qed.

Lemma abandonStart_calls calls row now : pres (calls_are calls) (abandonStart row now).
Proof.
  unfold abandonStart. destruct (refreshRestoreState row) as [a code]. apply pres_bind; [eapply touches_calls; intros w; apply updateRow_spec|].
  intros saved. apply pres_bind.
  - destruct saved; [apply steady_calls; intros w; apply publishAuthState_steady|apply pres_ret].
  - intros b. apply pres_if; [apply pres_ret|]. apply pres_bind; [|intros b'; apply pres_ret]. apply steady_calls. intros w. apply onRegistry_steady.
Qed.

Lemma ensure_calls calls row now : pres (calls_are calls) (ensureRuntimeMatchesDurableSecret row now).
Proof.
  assert (forall f, pres (calls_are calls) (onRegistry f)) as H1 by (intros f; apply steady_calls; intros w; apply onRegistry_steady).
  assert (forall g, pres (calls_are calls) (reconcileFromRows g now)) as H2 by (intros g; apply steady_calls; intros w; apply reconcileFromRows_steady).
  assert (forall A (f : CredentialRegistry -> A), pres (calls_are calls) (readRegistry f)) as H3 by (intros A f; by intros w).
  unfold ensureRuntimeMatchesDurableSecret, repairFromRows. eauto 20 with refresh.
Qed.

(** * The whole run *)

Lemma reauthorized_all (P : Z -> CredentialRow -> Prop) l rows :
  (forall k r data fp v, P k r -> P k (withNewSecret data fp v r)) -> (forall k r, rows !! k = Some r -> P k r) ->
  forall k r, fold_right reauthorize rows l !! k = Some r -> P k r.
Proof.
  intros HP Hr. induction l as [|a l IH]; [done|]. cbn [fold_right]. intros k x.
  destruct (reauthorize_cases a (fold_right reauthorize rows l)) as [->|(r & Er & _ & ->)]; [apply IH|].
  intros [[<- <-]|[_ Hx]]%lookup_insert_Some; [apply HP|]; by apply IH.
Qed.

Definition answered (run : RefreshRun) (row : CredentialRow) (res : result ErrorEvidence SubCredential) (w : World) : Prop :=
  settled run row res w
  \/ exists f e, rr_answer run = inl f /\ fd_Kind f = RefreshFailureRetryable /\ res = Err e /\ restored run row e w.

Lemma sendRefresh_settled run driver row current recovery cd w :
  runtime_ok w -> w_rows w !! cr_ID row = Some row -> 1 <= cr_SecretVersion row < maxUint64 ->
  behind (cr_ID row) (cr_SecretVersion row) (w_registry w) -> quiet run (cr_ID row) ->
  let '(res, w') := sendRefresh run driver row current recovery cd w in w_calls w' = w_calls w \/ answered run row res w'.
Proof.
  intros Hok Hrow Hv Hb Hq. unfold sendRefresh, bindIO.
  pose proof (started_held row (rr_start run) w Hok Hrow ltac:(lia) Hb) as Hst.
  destruct (transition_spec row (cr_SecretVersion row) AuthRefreshing "" (rr_start run) w) as [Ht _]. pose proof (tc_calls _ _ _ _ Ht) as Hcalls.
  destruct (transitionAuthState row _ _ _ _ w) as [[] w1]; cbn [snd] in Hcalls.
  2:{ pose proof (abandonStart_calls (w_calls w) row (rr_start run) w1 Hcalls). destruct (abandonStart row _ w1). by left. }
  destruct (Hst eq_refl) as [Hheld Hrow1]. unfold callProvider. set (w2 := mkWorld _ _ _ _ _ _).
  pose proof (reauthorized_refreshing (rr_reauthorized run) _ _ _ Hrow1 eq_refl) as Hrow2.
  assert (held row w2) as Hheld2.
  { destruct Hheld as [[Hreg Hro Hty] Hn Hbe Hr]. destruct (Hq _ Hreg) as [Hreg2 Hent]. split; [split; [done|..]|..]; subst w2; cbn.
    - intros k x. revert k x. apply (reauthorized_all (fun k r => cr_ID r = k /\ cr_AuthState r <> AuthUnset)); [|exact Hro].
      by intros k r d fp v [? _].
    - apply (reauthorized_all (fun k _ => is_u64 k)); [done|exact Hty].
    - intros e. rewrite Hent. apply Hn.
    - intros e. rewrite Hent. apply Hbe.
    - intros r. rewrite Hrow2. by intros [= <-]. }
  destruct (rr_answer run) as [f|refreshed] eqn:Ea.
  - pose proof (proj2 (rt_rows _ Hok _ _ Hrow)) as Hu. pose proof (settleFailure_settled run row f w2 ltac:(lia) Hu Hheld2 Hrow2) as Hh.
    destruct (settleFailure row f (rr_end run) w2) as [res w3]. right. destruct Hh as (e & -> & [Hn|[Hk Hres]]); [by left|right]. by exists f, e.
  - pose proof (keepRefreshed_settled run driver row current refreshed cd (rr_end run) w2 Hv Hheld2 Hrow2) as Hk.
    destruct (keepRefreshed _ _ _ _ _ _ _ w2). right. by left.
Qed.


End Runtime.

(** * Examples *)

Definition exPlatform : SubscriptionPlatform := {| Decrypt := Some; HashText := fun s => s; decodeProxy := fun _ => None |}.
Definition exAccount : Account := mkAccount "" "" 0 false 0 false.
Definition exDriver : Driver := mkDriver "codex" (fun s => Some (mkSubCredential s "account" exAccount 0 true)) None.
Definition exRow : CredentialRow :=
  mkCredentialRow "key" 1 7 "enc" "fp1" "identity" 1 AuthReady "" StatusActive None None.
Definition exGroup : GroupRow := mkGroupRow "codex" "subscription" "".
Definition exGeneration : Z := CredentialIdentityGeneration "identity" "codex" "subscription" "".
Definition exSnapshot : RefreshSnapshot := mkRefreshSnapshot 1 1 exGeneration "enc".
Definition exWorld : World := mkWorld {[1 := exRow]} {[7 := exGroup]} (Some ∅) exRegistry [] [].
Definition exRun (answer : RefreshFailureDecision + SubCredential) : RefreshRun := mkRun 100 200 answer Some (fun r => r) [].
Definition exBusy : RefreshFailureDecision := mkFailure RefreshFailureRetryable 503 "" 0.

(** The provider is busy, and answers when it is asked again. *)
Lemma refresh_single_use_witness :
  let prepare := @prepare asciiText exPlatform in
  exists w first second, rtc (@refresh_step asciiText exPlatform) (initialWorld exRegistry) w
    /\ w_calls w = [first; second] /\ pc_Version first = pc_Version second /\ pc_Recovery second = false
    /\ pc_Retryable first = true.
Proof.
  intros prepare.
  set (w1 := (prepare (exRun (inl exBusy)) "codex" (Some exDriver) exSnapshot true true false exWorld).2).
  set (w2 := (prepare (exRun (inr (mkSubCredential "new" "account" exAccount 900 true))) "codex" (Some exDriver) exSnapshot true false false w1).2).
  assert (forall (P : Z -> Prop), P 1 -> forall id r, w_rows w1 !! id = Some r -> P (cr_SecretVersion r)) as Hrows.
  { intros P HP id r Hr. assert (w_rows w1 = {[1 := exRow]}) as E by (vm_compute; reflexivity). rewrite E in Hr.
    apply lookup_singleton_Some in Hr as [_ <-]. exact HP. }
  assert (rtc (@refresh_step asciiText exPlatform) (initialWorld exRegistry) w2) as Hrun.
  { eapply rtc_l; [apply (step_create 1 exRow); [by intros c Hc%elem_of_nil|done|done]|].
    eapply rtc_l; [apply (step_other _ {[7 := exGroup]} (Some ∅) exRegistry [])|].
    eapply rtc_l; [apply (step_prepare (exRun (inl exBusy)) "codex" (Some exDriver) exSnapshot true true false)|].
    - cbn. intros id r Hr. apply lookup_insert_Some in Hr as [[_ <-]|[_ Hr]]; [done|by apply lookup_empty_Some in Hr].
    - apply rtc_once. apply (step_prepare (exRun (inr (mkSubCredential "new" "account" exAccount 900 true))) "codex" (Some exDriver) exSnapshot true false false w1).
      intros id r Hr. split; [apply (Hrows (fun v => 0 <= v) ltac:(done) id r Hr)|].
      apply (Hrows (fun v => v + Z.of_nat 0 < maxUint64) ltac:(done) id r Hr). }
  exists w2, (mkCall 1 1 false true), (mkCall 1 1 false false). split; [exact Hrun|]. split; [vm_compute; reflexivity|].
  split; [done|]. split; [done|].
  apply (@refresh_single_use asciiText exPlatform exRegistry w2 0 1 (mkCall 1 1 false true) (mkCall 1 1 false false) Hrun);
    [vm_compute; reflexivity|vm_compute; reflexivity|lia|done|done|done].
Defined.

Lemma exWorld_ok : runtime_ok exWorld.
Proof.
  split; [exact exRegistry_ok|..]; unfold exWorld; cbn [w_rows]; intros id r [<- <-]%lookup_singleton_Some; [done|].
  unfold is_u64, maxUint64. lia.
Qed.

