(* ===== verification/HttpRoute.v ===== *)
(** The registry of HTTP routes ([internal/platform/httproute/registry.go]): the validation of the
    modules, the chain of handlers of a route, the matching of paths and the answer to paths
    without a route.

    The router that finally dispatches is the third-party engine: what it accepts is a parameter.
    Handlers are opaque.  Reading the first byte of an empty segment would panic: the functions
    that do so return [None] then. *)
From Stdlib Require Import Ascii.
From S2P Require Import Prelude GoStrings.

Local Open Scope go_scope.
Local Open Scope Z_scope.

(** * Paths *)

Definition slash : ascii := "/".
Definition colon : ascii := ":".
Definition star : ascii := "*".

(** [strings.Split(s, sep)] for a one-byte separator. *)
Fixpoint splitByte (sep : ascii) (l : list ascii) : list (list ascii) :=
  match l with
  | [] => [[]]
  | c :: l' =>
      if decide (c = sep) then [] :: splitByte sep l'
      else match splitByte sep l' with
           | seg :: rest => (c :: seg) :: rest
           | [] => [[c]]
           end
  end.

Definition trimSlash (l : list ascii) : list ascii :=
  match l with c :: l' => if decide (c = slash) then l' else l | [] => [] end.

(** [strings.Split(strings.TrimPrefix(path, "/"), "/")]. *)
Definition segmentsOf (path : string) : list (list ascii) := splitByte slash (trimSlash (bytes_of path)).

Definition containsAnyByte (chars : list ascii) (l : list ascii) : bool := existsb (fun c => bool_decide (c ∈ chars)) l.
Definition startsWith (b : ascii) (segment : list ascii) : bool :=
  match segment with c :: _ => bool_decide (c = b) | [] => false end.

(** * Declarations *)

Inductive Owner := OwnerSystem | OwnerControl | OwnerData | OwnerWeb | OwnerOther (s : string).
Inductive AuthPolicy := AuthNone | AuthControl | AuthAccessKey | AuthPolicyOther (s : string).

#[export] Instance Owner_eq_dec : EqDecision Owner.
Proof. solve_decision. Defined.
#[export] Instance AuthPolicy_eq_dec : EqDecision AuthPolicy.
Proof. solve_decision. Defined.

(** A handler that may be nil is an option. *)
Section Registry.
Context {handler : Type} (ginAccepts : list (string * string) -> bool).

Record Route := mkRoute {
  rt_Name : string;
  rt_Methods : list string;
  rt_Path : string;
  rt_PathValidator : option handler;
  rt_Prepare : list (option handler);
  rt_Handlers : list (option handler)
}.

Record Fallback := mkFallback { fb_Name : string; fb_Match : option handler; fb_Handler : option handler }.

Record Module_ := mkModule {
  md_Name : string;
  md_Owner : Owner;
  md_Auth : AuthPolicy;
  md_Prefix : string;
  md_NamespacePrefixes : list string;
  md_BeforeAuth : list (option handler);
  md_Authenticate : option handler;
  md_Routes : list Route;
  md_NotFound : option handler;
  md_MethodNotAllowed : option handler;
  md_Fallback : option Fallback
}.

Record compiledRoute := mkCompiled { cp_moduleIndex : nat; cp_routeIndex : nat; cp_path : string }.
Record namespaceBinding := mkNamespace { ns_moduleIndex : nat; ns_prefix : string }.
Record runtimeRoute := mkRuntimeRoute {
  rn_moduleIndex : nat;
  rn_path : string;
  rn_methods : list string;
  rn_validator : option handler
}.

Inductive routeError :=
| InvalidName | DuplicateModule | InvalidOwner | WrongAuth | ForbiddenAuthenticator | MissingAuthenticator
| InvalidPrefix | InvalidHandlers | DuplicateNamespace | InvalidFallback | SecondFallback | DuplicateRoute
| InvalidMethods | InvalidPattern | DuplicatePattern | ForeignNamespace | GinConflict.

(** * Validation *)

Definition validateName (name : string) : result routeError unit :=
  if bool_decide (name = "") || negb (bool_decide (TrimSpace name = name)) then Err InvalidName else Ok tt.

Definition requiredAuth (o : Owner) : option AuthPolicy :=
  match o with
  | OwnerSystem | OwnerWeb => Some AuthNone
  | OwnerControl => Some AuthControl
  | OwnerData => Some AuthAccessKey
  | OwnerOther _ => None
  end.

Definition validateOwnerAuth (m : Module_) : result routeError unit :=
  match requiredAuth (md_Owner m) with
  | None => Err InvalidOwner
  | Some required =>
      if negb (bool_decide (md_Auth m = required)) then Err WrongAuth
      else if bool_decide (md_Auth m = AuthNone) && bool_decide (is_Some (md_Authenticate m)) then Err ForbiddenAuthenticator
      else if negb (bool_decide (md_Auth m = AuthNone)) && bool_decide (md_Authenticate m = None) then Err MissingAuthenticator
      else Ok tt
  end.

Definition canonicalSegment (seg : list ascii) : bool :=
  negb (bool_decide (seg = []) || bool_decide (seg = ["."%char]) || bool_decide (seg = ["."%char; "."%char])).

Definition validateStaticPrefix (prefix : string) (allowRoot : bool) : result routeError unit :=
  if bool_decide (prefix = "") || negb (HasPrefix prefix "/") then Err InvalidPrefix
  else if bool_decide (prefix = "/") then (if allowRoot then Ok tt else Err InvalidPrefix)
  else if HasSuffix prefix "/" then Err InvalidPrefix
  else if containsAnyByte ["?"; "#"; "\"; colon; star]%char (bytes_of prefix) then Err InvalidPrefix
  else if forallb canonicalSegment (segmentsOf prefix) then Ok tt else Err InvalidPrefix.

Definition validatePrefix (prefix : string) : result routeError unit :=
  if bool_decide (prefix = "") then Ok tt
  else if bool_decide (prefix = "/") then Err InvalidPrefix
  else validateStaticPrefix prefix false.

Definition wildcardByte (c : ascii) : bool :=
  let b := byteZ c in
  (97 <=? b) && (b <=? 122) || (65 <=? b) && (b <=? 90) || (48 <=? b) && (b <=? 57) || (b =? 95) || (b =? 45).
Definition validWildcardName (name : list ascii) : bool :=
  match name with [] => false | _ => forallb wildcardByte name end.

(** The loop over the segments; [names] are the wildcard names seen so far. *)
Fixpoint patternSegments (names : list (list ascii)) (segments : list (list ascii)) : bool :=
  match segments with
  | [] => true
  | seg :: rest =>
      if negb (canonicalSegment seg) then false
      else
        match seg with
        | [] => false
        | c :: name =>
            if negb (bool_decide (c = colon)) && negb (bool_decide (c = star))
            then negb (containsAnyByte [colon; star] seg) && patternSegments names rest
            else validWildcardName name && negb (bool_decide (name ∈ names))
                 && negb (bool_decide (c = star) && match rest with [] => false | _ => true end)
                 && patternSegments (name :: names) rest
        end
  end.

Definition validateRoutePattern (pattern : string) : result routeError unit :=
  if bool_decide (pattern = "") || negb (HasPrefix pattern "/") then Err InvalidPattern
  else if negb (bool_decide (pattern = "/")) && HasSuffix pattern "/" then Err InvalidPattern
  else if containsAnyByte ["?"; "#"; "\"]%char (bytes_of pattern) then Err InvalidPattern
  else if bool_decide (pattern = "/") then Ok tt
  else if patternSegments [] (segmentsOf pattern) then Ok tt else Err InvalidPattern.

Definition methodByte (c : ascii) : bool :=
  let b := byteZ c in
  (97 <=? b) && (b <=? 122) || (65 <=? b) && (b <=? 90) || (48 <=? b) && (b <=? 57)
  || bool_decide (c ∈ bytes_of "!#$%&'*+-.^_`|~").
Definition validMethod (method : string) : bool :=
  match bytes_of method with [] => false | l => forallb methodByte l end.

(** Valid methods are ASCII. *)
Definition upperMethod (method : string) : string := of_bytes (upperByte <$> bytes_of method).

Fixpoint validateMethods (seen : list string) (methods : list string) : result routeError unit :=
  match methods with
  | [] => Ok tt
  | m :: rest =>
      if negb (validMethod m) || negb (bool_decide (m = upperMethod m)) || bool_decide (m ∈ seen) then Err InvalidMethods
      else validateMethods (m :: seen) rest
  end.

Definition validateHandlers (handlers : list (option handler)) (optional : bool) : result routeError unit :=
  if (negb optional && bool_decide (length handlers = 0%nat)) || existsb (fun h => match h with None => true | Some _ => false end) handlers
  then Err InvalidHandlers else Ok tt.

Definition validateRoute (r : Route) : result routeError unit :=
  match rt_Methods r with
  | [] => Err InvalidMethods
  | methods =>
      try! _ := validateMethods [] methods in
      try! _ := validateRoutePattern (rt_Path r) in
      try! _ := validateHandlers (rt_Prepare r) true in
      validateHandlers (rt_Handlers r) false
  end.

Definition validateFallback (f : Fallback) : result routeError unit :=
  try! _ := validateName (fb_Name f) in
  match fb_Match f, fb_Handler f with Some _, Some _ => Ok tt | _, _ => Err InvalidFallback end.

(** * Matching *)

Definition namespaceMatches (prefix path : string) : bool :=
  if bool_decide (prefix = "/") then HasPrefix path "/"
  else bool_decide (path = prefix) || hasPrefixBytes (bytes_of prefix ++ [slash]) (bytes_of path).

(** The loop over the segments of a pattern; a byte of an empty segment is out of range. *)
Fixpoint matchSegments (pattern path : list (list ascii)) : option bool :=
  match pattern with
  | [] => Some (bool_decide (path = []))
  | seg :: rest =>
      match seg with
      | [] => None
      | c :: _ =>
          if bool_decide (c = star) then Some (bool_decide (rest = []) && negb (bool_decide (path = [])))
          else
            match path with
            | [] => Some false
            | p :: path' =>
                if bool_decide (c = colon) then (if bool_decide (p = []) then Some false else matchSegments rest path')
                else if bool_decide (seg = p) then matchSegments rest path' else Some false
            end
      end
  end.

Definition matchPattern (pattern path : string) : option bool :=
  if bool_decide (pattern = "/") then Some (bool_decide (path = "/"))
  else if bool_decide (path = "/") || negb (HasPrefix path "/") then Some false
  else matchSegments (segmentsOf pattern) (segmentsOf path).

Fixpoint intersectSegments (pattern prefix : list (list ascii)) : bool :=
  match pattern with
  | [] => bool_decide (prefix = [])
  | seg :: rest =>
      if startsWith star seg then true
      else
        match prefix with
        | [] => true
        | p :: prefix' =>
            if startsWith colon seg then intersectSegments rest prefix'
            else if bool_decide (seg = p) then intersectSegments rest prefix' else false
        end
  end.

Definition patternIntersectsNamespace (pattern prefix : string) : bool :=
  if bool_decide (prefix = "/") then true else intersectSegments (segmentsOf pattern) (segmentsOf prefix).

Fixpoint containsSegments (prefix pattern : list (list ascii)) : bool :=
  match prefix, pattern with
  | [], _ => true
  | _ :: _, [] => false
  | s :: prefix', t :: pattern' => bool_decide (t = s) && containsSegments prefix' pattern'
  end.

Definition namespaceContainsPattern (prefix pattern : string) : bool :=
  if bool_decide (prefix = "/") then true else containsSegments (segmentsOf prefix) (segmentsOf pattern).

(** * Ownership *)

Definition routeIsInsideLongerOwnedNamespace (r : compiledRoute) (foreign : namespaceBinding) (namespaces : list namespaceBinding) : bool :=
  existsb (fun c => bool_decide (ns_moduleIndex c = cp_moduleIndex r) && (slen (ns_prefix foreign) <? slen (ns_prefix c))
                    && namespaceMatches (ns_prefix foreign) (ns_prefix c) && namespaceContainsPattern (ns_prefix c) (cp_path r)) namespaces.

Definition ownershipViolated (namespaces : list namespaceBinding) (r : compiledRoute) (n : namespaceBinding) : bool :=
  negb (bool_decide (ns_moduleIndex n = cp_moduleIndex r)) && patternIntersectsNamespace (cp_path r) (ns_prefix n)
  && negb (routeIsInsideLongerOwnedNamespace r n namespaces).

Definition validateNamespaceOwnership (routes : list compiledRoute) (namespaces : list namespaceBinding) : result routeError unit :=
  if existsb (fun r => existsb (ownershipViolated namespaces r) namespaces) routes then Err ForeignNamespace else Ok tt.

(** * The registry *)

Record RouteRegistry := mkRouteRegistry {
  rg_modules : list Module_;
  rg_routes : list compiledRoute;
  rg_namespaces : list namespaceBinding;
  rg_fallback : option Fallback
}.

(** What the loops of [NewRegistry] have seen. *)
Record building := mkBuilding {
  bu_modules : list Module_;
  bu_moduleNames : list string;
  bu_routeNames : list string;
  bu_patterns : list (string * string);
  bu_namespaces : list namespaceBinding;
  bu_routes : list compiledRoute;
  bu_fallback : option Fallback
}.

Fixpoint addNamespaces (index : nat) (prefixes : list string) (namespaces : list namespaceBinding)
  : result routeError (list namespaceBinding) :=
  match prefixes with
  | [] => Ok namespaces
  | p :: rest =>
      try! _ := validateStaticPrefix p true in
      if bool_decide (p ∈ ns_prefix <$> namespaces) then Err DuplicateNamespace
      else addNamespaces index rest (namespaces ++ [mkNamespace index p])
  end.

Fixpoint addPatterns (methods : list string) (path : string) (patterns : list (string * string))
  : result routeError (list (string * string)) :=
  match methods with
  | [] => Ok patterns
  | m :: rest =>
      if bool_decide ((m, path) ∈ patterns) then Err DuplicatePattern else addPatterns rest path (patterns ++ [(m, path)])
  end.

Fixpoint addRoutes (moduleIndex routeIndex : nat) (prefix : string) (routes : list Route) (names : list string)
    (patterns : list (string * string)) (compiled : list compiledRoute)
  : result routeError (list string * list (string * string) * list compiledRoute) :=
  match routes with
  | [] => Ok (names, patterns, compiled)
  | r :: rest =>
      try! _ := validateName (rt_Name r) in
      if bool_decide (rt_Name r ∈ names) then Err DuplicateRoute
      else
        try! _ := validateRoute r in
        let fullPath := (prefix ++ rt_Path r)%string in
        try! _ := validateRoutePattern fullPath in
        try! patterns := addPatterns (rt_Methods r) fullPath patterns in
        addRoutes moduleIndex (S routeIndex) prefix rest (names ++ [rt_Name r]) patterns
          (compiled ++ [mkCompiled moduleIndex routeIndex fullPath])
  end.

Definition addModule (index : nat) (m : Module_) (b : building) : result routeError building :=
  try! _ := validateName (md_Name m) in
  if bool_decide (md_Name m ∈ bu_moduleNames b) then Err DuplicateModule
  else
    try! _ := validateOwnerAuth m in
    try! _ := validatePrefix (md_Prefix m) in
    try! _ := validateHandlers (md_BeforeAuth m) true in
    try! namespaces := addNamespaces index (md_NamespacePrefixes m) (bu_namespaces b) in
    try! fallback :=
      match md_Fallback m with
      | None => Ok (bu_fallback b)
      | Some f =>
          try! _ := validateFallback f in
          match bu_fallback b with Some _ => Err SecondFallback | None => Ok (Some f) end
      end in
    try! added := addRoutes index 0 (md_Prefix m) (md_Routes m) (bu_routeNames b) (bu_patterns b) (bu_routes b) in
    let '(names, patterns, routes) := added in
    Ok (mkBuilding (bu_modules b ++ [m]) (bu_moduleNames b ++ [md_Name m]) names patterns namespaces routes fallback).

Fixpoint addModules (index : nat) (modules : list Module_) (b : building) : result routeError building :=
  match modules with
  | [] => Ok b
  | m :: rest => try! b := addModule index m b in addModules (S index) rest b
  end.

(** Longer prefixes first. *)
Definition longerFirst (a b : namespaceBinding) : Prop := slen (ns_prefix b) <= slen (ns_prefix a).
#[global] Instance longerFirst_dec a b : Decision (longerFirst a b).
Proof. unfold longerFirst. apply _. Defined.

Definition emptyBuilding : building := mkBuilding [] [] [] [] [] [] None.

Definition NewRegistry (modules : list Module_) : result routeError RouteRegistry :=
  try! b := addModules 0 modules emptyBuilding in
  let namespaces := merge_sort longerFirst (bu_namespaces b) in
  try! _ := validateNamespaceOwnership (bu_routes b) namespaces in
  if ginAccepts (bu_patterns b) then Ok (mkRouteRegistry (bu_modules b) (bu_routes b) namespaces (bu_fallback b))
  else Err GinConflict.

(** * Handling *)

(** A chain runs the guard of the static paths, with their routes, the validator of the path, and
    handlers. *)
Inductive chainStep := ChainGuard (owners : gmap string (list runtimeRoute)) | ChainValidator (validator : handler) | ChainHandler (h : option handler).

Definition routeHandlers (m : Module_) (r : Route) (guard : option (gmap string (list runtimeRoute))) : list chainStep :=
  match guard with Some owners => [ChainGuard owners] | None => [] end
  ++ match rt_PathValidator r with Some v => [ChainValidator v] | None => [] end
  ++ (ChainHandler <$> md_BeforeAuth m) ++ (ChainHandler <$> rt_Prepare r)
  ++ match md_Authenticate m with Some h => [ChainHandler (Some h)] | None => [] end
  ++ (ChainHandler <$> rt_Handlers r).

Definition routeChainLength (m : Module_) (r : Route) (hasOwnershipGuard : bool) : nat :=
  (length (md_BeforeAuth m) + length (rt_Prepare r) + length (rt_Handlers r)
   + (if hasOwnershipGuard then 1 else 0)
   + match rt_PathValidator r with Some _ => 1 | None => 0 end
   + match md_Authenticate m with Some _ => 1 | None => 0 end)%nat.

(** [handleNoRoute]: the handler of the namespace, of the fallback, or a bare 404; [matches] is
    the answer of the fallback's matcher. *)
Inductive noRoute := NamespaceNotFound (moduleIndex : nat) | FallbackHandler (f : Fallback) | PlainNotFound.

Definition handleNoRoute (reg : RouteRegistry) (path : string) (matches : Fallback -> bool) : noRoute :=
  match List.find (fun n => namespaceMatches (ns_prefix n) path) (rg_namespaces reg) with
  | Some n => NamespaceNotFound (ns_moduleIndex n)
  | None =>
      match rg_fallback reg with
      | Some f => if matches f then FallbackHandler f else PlainNotFound
      | None => PlainNotFound
      end
  end.

End Registry.
