(* ===== verification/HttpRouteProps.v ===== *)
(** What an accepted registry of routes guarantees: a path belongs to one module, and the routes
    of protected modules authenticate first. *)
From Stdlib Require Import Ascii.
From S2P Require Import Prelude GoStrings HttpRoute.

Local Open Scope go_scope.
Local Open Scope Z_scope.

(** * Segments *)

Lemma split_nonempty sep l : splitByte sep l <> [].
Proof. destruct l as [|c l]; [done|]. cbn. destruct (decide _); [done|]. by destruct (splitByte sep l). Qed.

Lemma split_app sep a b : splitByte sep (a ++ sep :: b) = splitByte sep a ++ splitByte sep b.
Proof.
  induction a as [|c a IH]; cbn; [by rewrite decide_True|]. rewrite IH. destruct (decide (c = sep)); [done|].
  destruct (splitByte sep a) as [|s rest] eqn:E; [by apply split_nonempty in E|done].
Qed.

Fixpoint joinSegments (l : list (list ascii)) : list ascii :=
  match l with [] => [] | [s] => s | s :: rest => s ++ slash :: joinSegments rest end.

Lemma join_cons s rest : rest <> [] -> joinSegments (s :: rest) = s ++ slash :: joinSegments rest.
Proof. by destruct rest. Qed.

Lemma join_split l : joinSegments (splitByte slash l) = l.
Proof.
  induction l as [|c l IH]; [done|]. pose proof (split_nonempty slash l) as Hn. cbn [splitByte]. destruct (decide (c = slash)) as [->|].
  - rewrite join_cons, IH by done. done.
  - destruct (splitByte slash l) as [|s rest]; [done|]. destruct (decide (rest = [])) as [->|Hr]; [cbn in *; congruence|].
    rewrite join_cons in IH |- * by done. cbn. congruence.
Qed.

Lemma join_app a b : a <> [] -> b <> [] -> joinSegments (a ++ b) = joinSegments a ++ slash :: joinSegments b.
Proof.
  intros Ha Hb. induction a as [|s a IH]; [done|]. destruct (decide (a = [])) as [->|Hn]; [by rewrite <- join_cons|].
  cbn [app]. rewrite !join_cons, IH by (done || by destruct a). by rewrite <- app_assoc.
Qed.

Lemma split_elem sep l seg c : seg ∈ splitByte sep l -> c ∈ seg -> c ∈ l.
Proof.
  revert seg. induction l as [|x l IH]; intros seg; cbn [splitByte].
  - intros ->%list_elem_of_singleton. done.
  - destruct (decide (x = sep)).
    + intros [->|Hs]%elem_of_cons Hc; [by apply elem_of_nil in Hc|]. right. by eapply IH.
    + destruct (splitByte sep l) as [|s rest] eqn:E; [by apply split_nonempty in E|].
      intros [->|Hs]%elem_of_cons Hc.
      * apply elem_of_cons in Hc as [->|Hc]; [by left|]. right. eapply IH; [by left|done].
      * right. eapply IH; [by right|done].
Qed.

(** An absolute path. *)
Definition absolute (path : string) : Prop := exists l, bytes_of path = slash :: l.

Lemma absolute_spec path : HasPrefix path "/" = true <-> absolute path.
Proof.
  unfold HasPrefix, absolute. change (bytes_of "/") with [slash]. destruct (bytes_of path) as [|c l]; cbn; [split; [done|by intros [? ?]]|].
  rewrite andb_true_r, bool_decide_eq_true. split; [intros <-; eauto|by intros [l' [= -> _]]].
Qed.

Lemma segments_absolute path l : bytes_of path = slash :: l -> segmentsOf path = splitByte slash l.
Proof. intros E. unfold segmentsOf. rewrite E. cbn. done. Qed.

(** * Namespaces and patterns *)

(** The prefixes [validateStaticPrefix] accepts besides the root. *)
Definition static (segments : list (list ascii)) : Prop :=
  forall seg, seg ∈ segments -> seg <> [] /\ startsWith star seg = false /\ startsWith colon seg = false.

Lemma static_prefix prefix root : validateStaticPrefix prefix root = Ok tt -> prefix <> "/"%string ->
  absolute prefix /\ static (segmentsOf prefix).
Proof.
  unfold validateStaticPrefix. intros Hv Hne. destruct (bool_decide (prefix = "")); [done|]. destruct (HasPrefix prefix "/") eqn:Ha; [|done].
  apply absolute_spec in Ha as Habs. cbn [negb orb] in Hv. rewrite bool_decide_false in Hv by done.
  destruct (HasSuffix prefix "/"); [done|]. destruct (containsAnyByte _ _) eqn:Hc; [done|]. destruct (forallb _ _) eqn:Hf; [|done].
  split; [done|]. intros seg Hseg. rewrite forallb_forall in Hf. pose proof (Hf seg (proj1 (list_elem_of_In _ _) Hseg)) as Hcan.
  destruct Habs as [l Hl]. assert (forall b, b ∈ [colon; star] -> startsWith b seg = false) as Hb.
  { intros b Hb. destruct seg as [|c seg]; [done|]. cbn. apply bool_decide_false. intros ->.
    assert (b ∈ bytes_of prefix) as Hin.
    { rewrite Hl. right. rewrite (segments_absolute _ l Hl) in Hseg. eapply split_elem; [done|by left]. }
    assert (containsAnyByte ["?"%char; "#"%char; "\"%char; colon; star] (bytes_of prefix) = true) as Htrue; [|congruence].
    unfold containsAnyByte. apply existsb_exists. exists b. split; [by apply list_elem_of_In|]. apply bool_decide_eq_true. set_solver. }
  split; [|split; apply Hb; set_solver]. intros ->. done.
Qed.

(** A path is in a namespace when its segments begin with those of the prefix. *)
Lemma namespace_segments prefix path : absolute prefix -> prefix <> "/"%string ->
  namespaceMatches prefix path = true <-> absolute path /\ exists rest, segmentsOf path = segmentsOf prefix ++ rest.
Proof.
  intros [l Hl] Hne. unfold namespaceMatches. rewrite bool_decide_false by done. rewrite orb_true_iff, bool_decide_eq_true, hasPrefixBytes_spec, Hl.
  rewrite (segments_absolute _ l Hl). split.
  - intros [->|[r Hr]]; [split; [by exists l|]; exists []; rewrite app_nil_r; by apply segments_absolute|].
    cbn in Hr. split; [by eexists|]. rewrite (segments_absolute _ _ Hr). rewrite <- app_assoc. cbn [app]. rewrite split_app. eauto.
  - intros [[k Hk] [rest Hr]]. rewrite (segments_absolute _ k Hk) in Hr. destruct (decide (rest = [])) as [->|Hn].
    + left. rewrite app_nil_r in Hr. apply (f_equal joinSegments) in Hr. rewrite !join_split in Hr. apply bytes_of_inj. congruence.
    + right. apply (f_equal joinSegments) in Hr. rewrite join_app, !join_split in Hr by (done || apply split_nonempty).
      exists (joinSegments rest). rewrite Hk, Hr. cbn. by rewrite <- app_assoc.
Qed.

Lemma contains_app prefix pattern : containsSegments prefix pattern = true <-> exists rest, pattern = prefix ++ rest.
Proof.
  revert pattern. induction prefix as [|s prefix IH]; intros [|t pattern]; cbn; [split; eauto| |split; [done|by intros [? ?]]|].
  - split; eauto.
  - rewrite andb_true_iff, bool_decide_eq_true, IH. split; [intros [-> [rest ->]]; eauto|intros [rest [= -> ->]]; eauto].
Qed.

(** A path of a pattern that lies in a namespace is found by the intersection. *)
Lemma match_intersects pattern prefix rest : matchSegments pattern (prefix ++ rest) = Some true -> intersectSegments pattern prefix = true.
Proof.
  revert prefix. induction pattern as [|seg pattern IH]; intros prefix; cbn.
  - intros [= E%bool_decide_eq_true]. apply app_eq_nil in E as [-> _]. done.
  - destruct seg as [|c seg]; [done|]. cbn [startsWith]. destruct (bool_decide (c = star)) eqn:Es; [done|].
    destruct prefix as [|p prefix]; [done|]. cbn [app]. destruct (bool_decide (c = colon)).
    + destruct (bool_decide (p = [])); [done|]. apply IH.
    + destruct (bool_decide (c :: seg = p)); [apply IH|done].
Qed.

(** Every path of a pattern in a namespace lies in the namespace. *)
Lemma match_contained prefix pattern path : static prefix -> containsSegments prefix pattern = true ->
  matchSegments pattern path = Some true -> containsSegments prefix path = true.
Proof.
  revert pattern path. induction prefix as [|s prefix IH]; intros pattern path Hst; [done|]. destruct pattern as [|seg pattern]; [done|].
  cbn [containsSegments]. intros [->%bool_decide_eq_true Hc]%andb_true_iff. destruct (Hst s) as (Hn & H1 & H2); [by left|].
  cbn [matchSegments]. destruct s as [|c s]; [done|]. cbn [startsWith] in H1, H2. rewrite H1, H2. destruct path as [|p path]; [done|].
  destruct (bool_decide (c :: s = p)) eqn:E; [|done]. apply bool_decide_eq_true in E as <-. intros Hm. rewrite bool_decide_true by done. cbn.
  eapply IH; [|done..]. intros x Hx. apply Hst. by right.
Qed.

Section Props.
Context {handler : Type} (ginAccepts : list (string * string) -> bool).
Implicit Types (m : @Module_ handler) (r : @Route handler) (b : @building handler) (reg : @RouteRegistry handler).

(** * What the construction establishes *)

(** A compiled route is a declared and validated one of a validated module. *)
Definition declared (modules : list (@Module_ handler)) (c : compiledRoute) : Prop :=
  exists m r, modules !! cp_moduleIndex c = Some m /\ md_Routes m !! cp_routeIndex c = Some r
    /\ cp_path c = (md_Prefix m ++ rt_Path r)%string /\ validateOwnerAuth m = Ok tt /\ validateHandlers (md_BeforeAuth m) true = Ok tt
    /\ validateRoute r = Ok tt /\ validateRoutePattern (cp_path c) = Ok tt.

Definition namespaces_ok (l : list namespaceBinding) : Prop :=
  NoDup (ns_prefix <$> l) /\ forall n, n ∈ l -> validateStaticPrefix (ns_prefix n) true = Ok tt.

Record building_ok b : Prop := {
  bk_namespaces : namespaces_ok (bu_namespaces b);
  bk_routes : forall c, c ∈ bu_routes b -> declared (bu_modules b) c;
  bk_patterns : NoDup (bu_patterns b)
}.

Lemma addNamespaces_ok index prefixes l l' : namespaces_ok l -> addNamespaces index prefixes l = Ok l' -> namespaces_ok l'.
Proof.
  revert l. induction prefixes as [|p prefixes IH]; intros l [Hnd Hv]; cbn; [by intros [= <-]|].
  destruct (validateStaticPrefix p true) as [[]|] eqn:Ep; [|done]. case_bool_decide as Hp; [done|]. apply IH. split.
  - rewrite fmap_app. apply NoDup_app. split; [done|]. split; [|apply NoDup_singleton]. intros x Hx ->%list_elem_of_singleton. done.
  - intros n [Hn| ->%list_elem_of_singleton]%elem_of_app; [by apply Hv|done].
Qed.

Lemma addPatterns_ok methods path l l' : NoDup l -> addPatterns methods path l = Ok l' -> NoDup l'.
Proof.
  revert l. induction methods as [|x methods IH]; intros l Hnd; cbn; [by intros [= <-]|]. case_bool_decide as Hp; [done|]. apply IH.
  apply NoDup_app. split; [done|]. split; [|apply NoDup_singleton]. by intros y Hy ->%list_elem_of_singleton.
Qed.

Lemma addRoutes_ok m index routes done_ names patterns compiled names' patterns' compiled' :
  md_Routes m = done_ ++ routes -> NoDup patterns ->
  addRoutes index (length done_) (md_Prefix m) routes names patterns compiled = Ok (names', patterns', compiled') ->
  NoDup patterns' /\ forall c, c ∈ compiled' -> c ∈ compiled \/ cp_moduleIndex c = index /\ exists r, md_Routes m !! cp_routeIndex c = Some r
    /\ cp_path c = (md_Prefix m ++ rt_Path r)%string /\ validateRoute r = Ok tt /\ validateRoutePattern (cp_path c) = Ok tt.
Proof.
  revert done_ names patterns compiled. induction routes as [|r routes IH]; intros done_ names patterns compiled Hm Hnd; cbn [addRoutes].
  { intros [= <- <- <-]. auto. }
  destruct (validateName (rt_Name r)) as [[]|]; [|done]. case_bool_decide; [done|]. destruct (validateRoute r) as [[]|] eqn:Hr; [|done].
  destruct (validateRoutePattern _) as [[]|] eqn:Hp; [|done]. destruct (addPatterns _ _ _) as [patterns1|] eqn:Ha; [|done].
  replace (S (length done_)) with (length (done_ ++ [r])) by (rewrite length_app; cbn; lia). intros Hadd.
  apply IH in Hadd as [Hnd' Hc]; [|by rewrite Hm, <- app_assoc|by eapply addPatterns_ok]. split; [done|].
  intros c Hin. destruct (Hc c Hin) as [[?| ->%list_elem_of_singleton]%elem_of_app|?]; [by left| |by right]. right. split; [done|].
  exists r. cbn. split; [|done]. rewrite Hm, lookup_app_r by done. by rewrite Nat.sub_diag.
Qed.

Lemma declared_snoc modules m c : declared modules c -> declared (modules ++ [m]) c.
Proof. intros (x & r & Hm & H'). exists x, r. split; [|done]. by apply lookup_app_l_Some. Qed.

Lemma addModule_ok m b b' : building_ok b -> addModule (length (bu_modules b)) m b = Ok b' ->
  building_ok b' /\ bu_modules b' = bu_modules b ++ [m].
Proof.
  intros [Hns Hrt Hpt]. unfold addModule. destruct (validateName _) as [[]|]; [|done]. case_bool_decide; [done|].
  destruct (validateOwnerAuth m) as [[]|] eqn:Ho; [|done]. destruct (validatePrefix _) as [[]|]; [|done].
  destruct (validateHandlers _ _) as [[]|] eqn:Hh; [|done]. destruct (addNamespaces _ _ _) as [ns|] eqn:Hn; [|done].
  destruct (match md_Fallback m with Some _ => _ | None => _ end) as [fb|]; [|done].
  destruct (addRoutes _ _ _ _ _ _ _) as [[[names patterns] routes]|] eqn:Hr; [|done]. intros [= <-]. cbn. split; [|done].
  apply (addRoutes_ok m _ (md_Routes m) []) in Hr as [Hp Hc]; [|done|done]. split; cbn; [by eapply addNamespaces_ok| |done].
  intros c Hin. destruct (Hc c Hin) as [Hold|(Hi & r & Hlk & Hpath & Hv & Hvp)]; [by apply declared_snoc, Hrt|].
  exists m, r. split; [by rewrite Hi, lookup_app_r, Nat.sub_diag by done|]. done.
Qed.

Lemma addModules_ok modules b b' : building_ok b -> addModules (length (bu_modules b)) modules b = Ok b' -> building_ok b'.
Proof.
  revert b. induction modules as [|m modules IH]; intros b Hb; cbn; [by intros [= <-]|].
  destruct (addModule _ m b) as [b1|] eqn:Ha; [|done]. apply addModule_ok in Ha as [Hb1 Hm]; [|done]. intros Hr. apply (IH b1); [done|].
  rewrite Hm, length_app. cbn. by rewrite Nat.add_1_r.
Qed.

(** The namespaces of an accepted registry, longest first. *)
Lemma registry_facts modules reg : NewRegistry ginAccepts modules = Ok reg ->
  namespaces_ok (rg_namespaces reg) /\ StronglySorted longerFirst (rg_namespaces reg)
  /\ (forall c, c ∈ rg_routes reg -> declared (rg_modules reg) c)
  /\ forall c n, c ∈ rg_routes reg -> n ∈ rg_namespaces reg -> ownershipViolated (rg_namespaces reg) c n = false.
Proof.
  unfold NewRegistry. destruct (addModules 0 modules emptyBuilding) as [b|] eqn:Hb; [|done].
  assert (building_ok (@emptyBuilding handler)) as H0.
  { split; cbn; [split; [constructor|]|..]; try constructor; intros x Hx; by apply elem_of_nil in Hx. }
  apply (addModules_ok modules emptyBuilding b H0) in Hb as [[Hnd Hv] Hrt _].
  destruct (validateNamespaceOwnership _ _) as [[]|] eqn:Ho; [|done]. destruct (ginAccepts _); [|done]. intros [= <-]. cbn.
  pose proof (merge_sort_Permutation longerFirst (bu_namespaces b)) as Hperm. split; [split|split; [|split]].
  - by rewrite Hperm.
  - intros n. rewrite Hperm. apply Hv.
  - apply StronglySorted_merge_sort; unfold longerFirst; [intros x y z; lia|intros x y; lia].
  - done.
  - intros c n Hc Hn. unfold validateNamespaceOwnership in Ho. destruct (existsb _ _) eqn:E; [done|].
    destruct (ownershipViolated _ c n) eqn:Ev; [|done]. exfalso. apply not_true_iff_false in E. apply E. apply existsb_exists. exists c.
    split; [by apply list_elem_of_In|]. apply existsb_exists. exists n. split; [by apply list_elem_of_In|done].
Qed.

(** * Matching never panics *)

Lemma patternSegments_match names segments path : patternSegments names segments = true -> is_Some (matchSegments segments path).
Proof.
  revert names path. induction segments as [|seg segments IH]; intros names path; cbn; [eauto|].
  destruct (negb (canonicalSegment seg)); [done|]. destruct seg as [|c seg]; [done|].
  destruct (bool_decide (c = star)) eqn:Es; [eauto|]. destruct path as [|p path]; [eauto|].
  destruct (bool_decide (c = colon)) eqn:Ec; cbn [negb andb].
  - rewrite !andb_true_iff. intros [_ H']. destruct (bool_decide (p = [])); [eauto|by eapply IH].
  - rewrite andb_true_iff. intros [_ H']. destruct (bool_decide (c :: seg = p)); [by eapply IH|eauto].
Qed.

Lemma valid_pattern_match pattern path : validateRoutePattern pattern = Ok tt -> is_Some (matchPattern pattern path).
Proof.
  unfold validateRoutePattern, matchPattern. intros Hv. destruct (_ || _); [done|]. destruct (_ && _); [done|]. destruct (containsAnyByte _ _); [done|].
  destruct (bool_decide (pattern = "/")); [eauto|]. destruct (patternSegments [] _) eqn:Hp; [|done].
  destruct (_ || _); [eauto|]. by eapply patternSegments_match.
Qed.

(** * Ownership of paths *)

Lemma matched_in_namespace pattern prefix path :
  validateStaticPrefix prefix true = Ok tt -> matchPattern pattern path = Some true -> namespaceMatches prefix path = true ->
  patternIntersectsNamespace pattern prefix = true.
Proof.
  intros Hv Hm Hn. unfold patternIntersectsNamespace. case_bool_decide as Hroot; [done|].
  destruct (static_prefix _ _ Hv Hroot) as [Habs Hst]. apply (namespace_segments prefix path Habs Hroot) in Hn as [Hpath [rest Hrest]].
  unfold matchPattern in Hm. destruct (bool_decide (pattern = "/")) eqn:Hp.
  - injection Hm as ->%bool_decide_eq_true. exfalso. change (segmentsOf "/") with [@nil ascii] in Hrest.
    destruct (segmentsOf prefix) as [|seg segs] eqn:Es; [by apply split_nonempty in Es|]. injection Hrest as <- _.
    by destruct (Hst []) as [? _]; [left|].
  - destruct (_ || _); [done|]. rewrite Hrest in Hm. by apply match_intersects in Hm.
Qed.

Lemma contained_in_namespace pattern prefix path :
  validateStaticPrefix prefix true = Ok tt -> matchPattern pattern path = Some true -> namespaceContainsPattern prefix pattern = true ->
  namespaceMatches prefix path = true.
Proof.
  intros Hv Hm Hc. unfold namespaceContainsPattern in Hc. unfold matchPattern in Hm. destruct (decide (prefix = "/"%string)) as [Hroot|Hroot].
  - subst prefix. unfold namespaceMatches. rewrite bool_decide_true by done. destruct (bool_decide (pattern = "/")); [by injection Hm as ->%bool_decide_eq_true|].
    destruct (HasPrefix path "/"); [done|]. rewrite orb_true_r in Hm. done.
  - rewrite bool_decide_false in Hc by done. destruct (static_prefix _ _ Hv Hroot) as [Habs Hst].
    apply (namespace_segments prefix path Habs Hroot). destruct (decide (pattern = "/"%string)) as [Hp|Hp].
    + exfalso. subst pattern. change (segmentsOf "/") with [@nil ascii] in Hc. destruct (segmentsOf prefix) as [|seg segs] eqn:Es; [by apply split_nonempty in Es|].
      cbn in Hc. apply andb_true_iff in Hc as [<-%bool_decide_eq_true _]. by destruct (Hst []) as [? _]; [left|].
    + rewrite bool_decide_false in Hm by done. destruct (bool_decide (path = "/")); [done|]. destruct (HasPrefix path "/") eqn:Ha; [|done]. cbn in Hm.
      split; [by apply absolute_spec|]. apply contains_app. by eapply match_contained.
Qed.

Lemma find_first_longest (f : namespaceBinding -> bool) l n x :
  StronglySorted longerFirst l -> List.find f l = Some n -> x ∈ l -> f x = true -> slen (ns_prefix x) <= slen (ns_prefix n).
Proof.
  induction 1 as [|y l Hs IH Hall]; intros Hf Hx Hfx; [by apply elem_of_nil in Hx|]. cbn in Hf. destruct (f y) eqn:Ey.
  - injection Hf as <-. apply elem_of_cons in Hx as [->|Hx]; [lia|]. rewrite Forall_forall in Hall. by apply Hall.
  - apply elem_of_cons in Hx as [->|Hx]; [congruence|]. by apply IH.
Qed.

(** In an accepted registry, matching a path against a route never panics, and when a route
    matches a path that lies in a namespace, the namespace that answers unknown paths there, the
    longest one, belongs to the module of the route: no module serves a path in the namespace of
    another one. *)
Theorem route_owner_exact modules reg c path matches i :
  NewRegistry ginAccepts modules = Ok reg -> c ∈ rg_routes reg ->
  exists matched, matchPattern (cp_path c) path = Some matched
    /\ (matched = true -> handleNoRoute reg path matches = NamespaceNotFound i -> i = cp_moduleIndex c).
Proof.
  intros Hreg Hc. destruct (registry_facts modules reg Hreg) as ([Hnd Hv] & Hsort & Hdecl & Hown).
  destruct (Hdecl c Hc) as (m & r & _ & _ & _ & _ & _ & _ & Hpat). destruct (valid_pattern_match (cp_path c) path Hpat) as [matched Hm].
  exists matched. split; [done|]. intros ->. unfold handleNoRoute. destruct (List.find _ _) as [n|] eqn:Hf; [|by destruct (rg_fallback reg) as [f|]; [destruct (matches f)|]].
  intros [= <-]. apply List.find_some in Hf as Hn. destruct Hn as [Hin%list_elem_of_In Hnm]. specialize (Hown c n Hc Hin). unfold ownershipViolated in Hown.
  destruct (decide (ns_moduleIndex n = cp_moduleIndex c)) as [|Hne]; [done|]. exfalso. rewrite bool_decide_false in Hown by done. cbn [negb andb] in Hown.
  rewrite (matched_in_namespace _ _ _ (Hv n Hin) Hm Hnm) in Hown. cbn in Hown. apply negb_false_iff in Hown.
  apply existsb_exists in Hown as (k & Hk%list_elem_of_In & Hcond). rewrite !andb_true_iff in Hcond. destruct Hcond as [[[_ Hlen%Z.ltb_lt] _] Hcont].
  pose proof (contained_in_namespace _ _ _ (Hv k Hk) Hm Hcont) as Hkm. pose proof (find_first_longest _ _ _ _ Hsort Hf Hk Hkm). lia.
Qed.

(** * Chains *)

Lemma handlers_present (l : list (option handler)) optional : validateHandlers l optional = Ok tt ->
  (forall h, h ∈ l -> is_Some h) /\ (optional = false -> l <> []).
Proof.
  unfold validateHandlers. destruct (_ || _) eqn:E; [done|]. intros _. apply orb_false_iff in E as [E1 E2]. split.
  - intros [h|] Hh; [eauto|]. exfalso. apply not_true_iff_false in E2. apply E2, existsb_exists. exists None. split; [by apply list_elem_of_In|done].
  - intros -> ->. done.
Qed.

Definition chainStep_ok (s : @chainStep handler) : Prop := match s with ChainHandler h => is_Some h | _ => True end.

(** C21: Every route of an accepted registry has the chain its module promises: no handler in it
    is nil, its length is the one that is checked against the engine's limit, and the handlers of
    the route come last, directly after the authenticator in control and data modules, which
    always have one, and without one in system and web modules. *)
Theorem routes_authenticated modules reg c guard :
  NewRegistry ginAccepts modules = Ok reg -> c ∈ rg_routes reg ->
  exists m r, rg_modules reg !! cp_moduleIndex c = Some m /\ md_Routes m !! cp_routeIndex c = Some r
    /\ Forall chainStep_ok (routeHandlers m r guard)
    /\ length (routeHandlers m r guard) = routeChainLength m r (bool_decide (is_Some guard))
    /\ rt_Handlers r <> []
    /\ exists before, routeHandlers m r guard
         = before ++ (if bool_decide (md_Owner m = OwnerControl \/ md_Owner m = OwnerData) then [ChainHandler (md_Authenticate m)] else [])
           ++ (ChainHandler <$> rt_Handlers r).
Proof.
  intros Hreg Hc. destruct (registry_facts modules reg Hreg) as (_ & _ & Hdecl & _).
  destruct (Hdecl c Hc) as (m & r & Hm & Hr & _ & Hauth & Hbefore & Hroute & _). exists m, r. split; [done|]. split; [done|].
  apply handlers_present in Hbefore as [Hbefore _]. unfold validateRoute in Hroute. destruct (rt_Methods r) as [|x xs]; [done|].
  destruct (validateMethods [] _) as [[]|]; [|done]. destruct (validateRoutePattern _) as [[]|]; [|done].
  destruct (validateHandlers (rt_Prepare r) true) as [[]|] eqn:Hprep; [|done]. apply handlers_present in Hprep as [Hprep _].
  apply handlers_present in Hroute as [Hhand Hne]. unfold routeHandlers, routeChainLength. split; [|split; [|split; [by apply Hne|]]].
  - repeat (apply Forall_app; split); try (apply Forall_fmap, Forall_forall; intros h Hh; first [by apply Hbefore|by apply Hprep|by apply Hhand]).
    + destruct guard; repeat constructor.
    + destruct (rt_PathValidator r); repeat constructor.
    + destruct (md_Authenticate m); [constructor; [by eexists|constructor]|constructor].
  - rewrite !length_app, !length_fmap. destruct guard, (rt_PathValidator r), (md_Authenticate m); cbn; lia.
  - assert (match md_Authenticate m with Some h => [ChainHandler (Some h)] | None => [] end
      = if bool_decide (md_Owner m = OwnerControl \/ md_Owner m = OwnerData) then [ChainHandler (md_Authenticate m)] else []) as ->.
    { unfold validateOwnerAuth in Hauth. destruct (md_Owner m), (md_Authenticate m), (md_Auth m); cbn in Hauth; try done;
        repeat case_bool_decide; naive_solver. }
    match goal with |- exists before, ?g ++ ?v ++ ?ba ++ ?pr ++ _ = _ => exists (g ++ v ++ ba ++ pr) end. by rewrite <- !app_assoc.
Qed.

End Props.

(** * An example *)

(** The control module and the data module inside its own longer namespace. *)
Definition exModules : list (@Module_ nat) :=
  [mkModule "control" OwnerControl AuthControl "/api" ["/api"] [] (Some 1%nat)
     [mkRoute "groups" ["GET"; "POST"] "/groups/:id" None [] [Some 2%nat]] (Some 3%nat) None None;
   mkModule "data" OwnerData AuthAccessKey "" ["/api/v1"] [] (Some 4%nat)
     [mkRoute "chat" ["POST"] "/api/v1/chat/*rest" None [] [Some 5%nat]] (Some 6%nat) None None].

Definition exRoute : compiledRoute := mkCompiled 1 0 "/api/v1/chat/*rest".

Lemma route_owner_exact_witness :
  match NewRegistry (fun _ => true) exModules with
  | Ok reg => matchPattern (cp_path exRoute) "/api/v1/chat/completions" = Some true
      /\ handleNoRoute reg "/api/v1/chat/completions" (fun _ => true) = NamespaceNotFound 1 /\ 1%nat = cp_moduleIndex exRoute
  | Err _ => False
  end.
Proof.
  destruct (NewRegistry (fun _ => true) exModules) as [reg|e] eqn:E; [|vm_compute in E; discriminate].
  assert (exRoute ∈ rg_routes reg) as Hin by (vm_compute in E; injection E as <-; right; left).
  assert (handleNoRoute reg "/api/v1/chat/completions" (fun _ => true) = NamespaceNotFound 1) as Hn by (vm_compute in E; injection E as <-; vm_compute; reflexivity).
  split; [vm_compute; reflexivity|]. split; [exact Hn|].
  destruct (route_owner_exact (fun _ => true) exModules reg exRoute "/api/v1/chat/completions" (fun _ => true) 1 E Hin) as (b & Hb & H1).
  apply H1; [|exact Hn]. assert (Some b = Some true) as Hs by (rewrite <- Hb; vm_compute; reflexivity). by injection Hs as ->.
Defined.

Lemma routes_authenticated_witness :
  match NewRegistry (fun _ => true) exModules with
  | Ok reg => exists m r, rg_modules reg !! 1%nat = Some m /\ md_Routes m !! 0%nat = Some r
      /\ length (routeHandlers m r None) = routeChainLength m r false /\ routeChainLength m r false = 2%nat
  | Err _ => False
  end.
Proof.
  destruct (NewRegistry (fun _ => true) exModules) as [reg|e] eqn:E; [|vm_compute in E; discriminate].
  assert (exRoute ∈ rg_routes reg) as Hin by (vm_compute in E; injection E as <-; right; left).
  destruct (routes_authenticated (fun _ => true) exModules reg exRoute None E Hin) as (m & r & Hm & Hr & _ & Hlen & _).
  exists m, r. split; [exact Hm|]. split; [exact Hr|]. split; [exact Hlen|].
  vm_compute in E. injection E as <-. vm_compute in Hm. injection Hm as <-. vm_compute in Hr. injection Hr as <-. reflexivity.
Defined.
