(* ===== verification/HttpMethod.v ===== *)
(** Binding the route registry to the engine, and the answers to requests whose path has routes
    but not for their method ([internal/platform/httproute/registry.go]: [Bind],
    [staticPathOwnershipGuard], [handleNoMethod]).

    An index into the bound routes is the route itself.  The engine is third-party code: its
    check of the patterns is a parameter, and the [Allow] header it hands to [handleNoMethod] is
    an argument.  So are the answers of the validators for the request at hand, and the order in
    which Go iterates over the map of the best routes. *)
From Stdlib Require Import Ascii.
From S2P Require Import Prelude GoStrings HttpRoute HttpRouteProps.

Local Open Scope go_scope.
Local Open Scope Z_scope.

Definition comma : ascii := ",".

Section Dispatch.
Context {handler : Type}.
Implicit Types (r : @runtimeRoute handler) (routes : list (@runtimeRoute handler)).

(** * Static paths *)

Definition isStaticRoutePattern (pattern : string) : bool :=
  forallb (fun seg => negb (startsWith colon seg || startsWith star seg)) (segmentsOf pattern).

Fixpoint staticOwners (matchedPattern : string) routes (owners : gmap string (list runtimeRoute))
  : option (gmap string (list (@runtimeRoute handler))) :=
  match routes with
  | [] => Some owners
  | r :: rest =>
      if bool_decide (rn_path r = matchedPattern) || negb (isStaticRoutePattern (rn_path r))
      then staticOwners matchedPattern rest owners
      else
        match matchPattern matchedPattern (rn_path r) with
        | None => None
        | Some false => staticOwners matchedPattern rest owners
        | Some true => staticOwners matchedPattern rest (<[rn_path r := mget [] owners (rn_path r) ++ [r]]> owners)
        end
  end.

(** The routes the guard knows; [Some None] is the nil guard. *)
Definition staticPathOwnershipGuard (matchedPattern : string) routes : option (option (gmap string (list runtimeRoute))) :=
  match staticOwners matchedPattern routes ∅ with
  | None => None
  | Some owners => Some (if bool_decide (owners = ∅) then None else Some owners)
  end.

(** * Binding *)

Inductive bindError := AlreadyBound | FallbackChainTooLong | EngineNotEmpty | EngineConflict | ChainTooLong | BindPanic.

Definition ginMaximumHandlerChainLength : nat := 63.

Definition declarationOf (reg : @RouteRegistry handler) (c : compiledRoute) : option (Module_ * Route) :=
  match rg_modules reg !! cp_moduleIndex c with
  | Some m => match md_Routes m !! cp_routeIndex c with Some r => Some (m, r) | None => None end
  | None => None
  end.

Definition runtimeRoutes (reg : RouteRegistry) : option (list runtimeRoute) :=
  mapM (fun c => match declarationOf reg c with
                 | Some (_, r) => Some (mkRuntimeRoute (cp_moduleIndex c) (cp_path c) (rt_Methods r) (rt_PathValidator r))
                 | None => None
                 end) (rg_routes reg).

Definition enginePatterns routes : list (string * string) :=
  mjoin ((fun r => (fun m => (m, rn_path r)) <$> rn_methods r) <$> routes).

(** What is handed to [engine.Handle] for the routes, in order, when no chain is too long. *)
Fixpoint bindRoutes (reg : RouteRegistry) (middleware : nat) routes (compiled : list compiledRoute)
  : result bindError (list (string * string * list (@chainStep handler))) :=
  match compiled with
  | [] => Ok []
  | c :: rest =>
      match declarationOf reg c, staticPathOwnershipGuard (cp_path c) routes with
      | Some (m, r), Some guard =>
          if (ginMaximumHandlerChainLength <=? middleware + routeChainLength m r (bool_decide (is_Some guard)))%nat then Err ChainTooLong
          else
            try! bound := bindRoutes reg middleware routes rest in
            Ok (((fun method => (method, cp_path c, routeHandlers m r guard)) <$> rt_Methods r) ++ bound)
      | _, _ => Err BindPanic
      end
  end.

(** [bound] is the registry's flag, [middleware] and [existing] the number of handlers and routes
    the engine has.  The result is what the engine is given and the routes kept for later. *)
Definition Bind (ginAccepts : list (string * string) -> bool) (reg : RouteRegistry) (bound : bool) (middleware existing : nat)
  : result bindError (list (string * string * list (@chainStep handler)) * list runtimeRoute) :=
  if bound then Err AlreadyBound
  else if (ginMaximumHandlerChainLength <=? middleware + 1)%nat then Err FallbackChainTooLong
  else if negb (existing =? 0)%nat then Err EngineNotEmpty
  else
    match runtimeRoutes reg with
    | None => Err BindPanic
    | Some routes =>
        if negb (ginAccepts (enginePatterns routes)) then Err EngineConflict
        else
          try! handled := bindRoutes reg middleware routes (rg_routes reg) in
          Ok (handled, routes)
    end.

(** * Specificity *)

Definition routeSegmentSpecificity (segment : list ascii) : Z :=
  if startsWith star segment then 0 else if startsWith colon segment then 1 else 2.

(** The loop over the shared segments and the comparison of the lengths after it. *)
Fixpoint moreSpecificSegments (candidate current : list (list ascii)) : bool :=
  match candidate, current with
  | a :: candidate', b :: current' =>
      let candidateRank := routeSegmentSpecificity a in
      let currentRank := routeSegmentSpecificity b in
      if negb (candidateRank =? currentRank) then currentRank <? candidateRank else moreSpecificSegments candidate' current'
  | _ :: _, [] => true
  | [], _ => false
  end.

Definition moreSpecific (path : string) (current : option runtimeRoute) : bool :=
  match current with
  | None => true
  | Some r => moreSpecificSegments (segmentsOf path) (segmentsOf (rn_path (handler := handler) r))
  end.

Definition keepBest r (current : option runtimeRoute) : option runtimeRoute :=
  if moreSpecific (rn_path r) current then Some r else current.

(** * A request *)

Section Request.
Context (validates : handler -> bool) (path : string).

Definition routeValid r : bool := match rn_validator r with Some v => validates v | None => true end.

Definition sortedMethods (methods : gset string) : list string := merge_sort String.le (elements methods).

(** The loop of the guard: the module of the first valid route, and the methods of all. *)
Definition guardStep (acc : option nat * gset string) r : option nat * gset string :=
  if routeValid r
  then (match acc.1 with Some i => Some i | None => Some (rn_moduleIndex r) end, acc.2 ∪ list_to_set (rn_methods r))
  else acc.

Inductive guardAnswer := GuardPass | GuardNotAllowed (allow : list string) (owner : option nat).

Definition ownershipGuard (owners : gmap string (list runtimeRoute)) (method : string) : guardAnswer :=
  match owners !! path with
  | None => GuardPass
  | Some ownerRoutes =>
      let '(owner, allowed) := fold_left guardStep ownerRoutes (None, ∅) in
      if bool_decide (allowed = ∅) then GuardPass
      else if bool_decide (method ∈ allowed) then GuardPass
      else GuardNotAllowed (sortedMethods allowed) owner
  end.

(** ** The handler of methods without a route *)

Definition ginAllowed (header : string) : gset string :=
  list_to_set (filter (fun m => m <> ""%string) ((fun seg => TrimSpace (of_bytes seg)) <$> splitByte comma (bytes_of header))).

Definition bestOfMethod (allowed : gset string) r (best : gmap string runtimeRoute) (method : string) : gmap string runtimeRoute :=
  if bool_decide (method ∈ allowed) then
    match best !! method with
    | Some current => if moreSpecific (rn_path r) (Some current) then <[method := r]> best else best
    | None => <[method := r]> best
    end
  else best.

Fixpoint scanRoutes (allowed : gset string) routes (bestRaw : option runtimeRoute) (bestByMethod : gmap string runtimeRoute)
  : option (option runtimeRoute * gmap string runtimeRoute) :=
  match routes with
  | [] => Some (bestRaw, bestByMethod)
  | r :: rest =>
      match matchPattern (rn_path r) path with
      | None => None
      | Some false => scanRoutes allowed rest bestRaw bestByMethod
      | Some true =>
          scanRoutes allowed rest (keepBest r bestRaw) (fold_left (bestOfMethod allowed r) (rn_methods r) bestByMethod)
      end
  end.

Definition semanticStep (acc : gmap string runtimeRoute * option runtimeRoute) (e : string * runtimeRoute)
  : gmap string runtimeRoute * option runtimeRoute :=
  if routeValid e.2 then (<[e.1 := e.2]> acc.1, keepBest e.2 acc.2) else acc.

Definition outranked (bestSemantic : option (@runtimeRoute handler)) r : bool :=
  match bestSemantic with Some b => moreSpecific (rn_path b) (Some r) | None => false end.

(** The methods whose route is as specific as any. *)
Definition allowedMethods (validByMethod : gmap string (@runtimeRoute handler)) (bestSemantic : option (@runtimeRoute handler)) : gset string :=
  dom (filter (fun e : string * _ => outranked bestSemantic e.2 = false) validByMethod).

Inductive noMethodAnswer :=
| NoMethodNotFound (moduleIndex : nat)
| NoMethodNoRoute (a : @noRoute handler)
| NoMethodNotAllowed (allow : list string) (owner : option nat).

Definition handleNoMethod (reg : RouteRegistry) routes (header : string)
    (order : gmap string runtimeRoute -> list (string * runtimeRoute)) (matches : Fallback -> bool) : option noMethodAnswer :=
  match scanRoutes (ginAllowed header) routes None ∅ with
  | None => None
  | Some (bestRaw, bestByMethod) =>
      let '(validByMethod, bestSemantic) := fold_left semanticStep (order bestByMethod) (∅, None) in
      let allowed := allowedMethods validByMethod bestSemantic in
      Some (if bool_decide (allowed = ∅)
            then match bestRaw with
                 | Some r => NoMethodNotFound (rn_moduleIndex r)
                 | None => NoMethodNoRoute (handleNoRoute reg path matches)
                 end
            else NoMethodNotAllowed (sortedMethods allowed) (rn_moduleIndex <$> bestSemantic))
  end.

End Request.
End Dispatch.

(** * What is answered

    The order on routes by specificity is a strict weak order, the scan
    keeps the first most specific route of each method, and the advertised methods do not depend
    on the order in which Go iterates over its maps. *)

Section Dispatch.
Context {handler : Type}.
Implicit Types (r x : @runtimeRoute handler) (l : list (@runtimeRoute handler)).

(** * Specificity *)

Definition beats (a b : @runtimeRoute handler) : Prop := moreSpecific (rn_path a) (Some b) = true.

#[local] Instance beats_dec a b : Decision (beats a b).
Proof. unfold beats. apply _. Defined.

Lemma segments_irrefl a : moreSpecificSegments a a = false.
Proof. induction a as [|s a IH]; [done|]. cbn. by rewrite Z.eqb_refl. Qed.

(** Case analysis on the ranks of the first segments. *)
Ltac by_ranks IH :=
  cbn; repeat match goal with |- context [?a =? ?b] => destruct (Z.eqb_spec a b); cbn end;
  first [by apply IH | rewrite ?Z.ltb_lt, ?Z.ltb_ge; intros; congruence || lia].

Lemma segments_trans a b c : moreSpecificSegments a b = true -> moreSpecificSegments b c = true -> moreSpecificSegments a c = true.
Proof. revert b c. induction a as [|s a IH]; intros [|t b] [|u c]; try done. by_ranks IH. Qed.

(** What does not beat [b] is beaten by all that beat [b]. *)
Lemma segments_weak a b c : moreSpecificSegments a b = true -> moreSpecificSegments c b = false -> moreSpecificSegments a c = true.
Proof. revert b c. induction a as [|s a IH]; intros [|t b] [|u c]; try done. by_ranks IH. Qed.

Lemma beats_irrefl a : ~ beats a a.
Proof. unfold beats, moreSpecific. by rewrite segments_irrefl. Qed.
Lemma beats_trans a b c : beats a b -> beats b c -> beats a c.
Proof. apply segments_trans. Qed.
Lemma beats_weak a b c : beats a b -> ~ beats c b -> beats a c.
Proof. unfold beats. rewrite not_true_iff_false. apply segments_weak. Qed.

(** * The first of the most specific routes *)

Definition bestOf l : option runtimeRoute := fold_left (fun best r => keepBest r best) l None.

(** [r] is the first of the routes of [l] that no other beats. *)
Definition firstBest l r : Prop :=
  exists l1 l2, l = l1 ++ r :: l2 /\ (forall x, x ∈ l1 -> beats r x) /\ forall x, x ∈ l2 -> ~ beats x r.

Lemma bestOf_snoc l r : bestOf (l ++ [r]) = keepBest r (bestOf l).
Proof. unfold bestOf. by rewrite fold_left_app. Qed.

Lemma bestOf_spec l : match bestOf l with Some r => firstBest l r | None => l = [] end.
Proof.
  induction l as [|x l IH] using rev_ind; [done|]. rewrite bestOf_snoc. unfold keepBest. destruct (bestOf l) as [r|].
  - destruct IH as (l1 & l2 & -> & H1 & H2). destruct (moreSpecific (rn_path x) (Some r)) eqn:Hx.
    + exists (l1 ++ r :: l2), []. split; [done|]. split; [|intros y Hy; by apply elem_of_nil in Hy].
      intros y [Hy|[->|Hy]%elem_of_cons]%elem_of_app; [eapply beats_trans; [exact Hx|by apply H1]|done|eapply beats_weak; [exact Hx|by apply H2]].
    + exists l1, (l2 ++ [x]). split; [by rewrite <- app_assoc|]. split; [done|].
      intros y [Hy| ->%list_elem_of_singleton]%elem_of_app; [by apply H2|]. unfold beats. by rewrite Hx.
  - subst l. exists [], []. split; [done|]. split; intros y Hy; by apply elem_of_nil in Hy.
Qed.

Lemma firstBest_max l r : firstBest l r -> r ∈ l /\ forall x, x ∈ l -> ~ beats x r.
Proof.
  intros (l1 & l2 & -> & H1 & H2). split; [apply elem_of_app; right; left|].
  intros x [Hx|[->|Hx]%elem_of_cons]%elem_of_app; [|apply beats_irrefl|by apply H2].
  intros Hb. apply (beats_irrefl x). eapply beats_trans; [exact Hb|by apply H1].
Qed.

Lemma bestOf_None l : bestOf l = None <-> l = [].
Proof. split; [|by intros ->]. pose proof (bestOf_spec l). by destruct (bestOf l). Qed.

Lemma bestOf_first l r : bestOf l = Some r <-> firstBest l r.
Proof.
  split; [intros E; pose proof (bestOf_spec l) as Hs; by rewrite E in Hs|]. intros (l1 & l2 & -> & H1 & H2).
  induction l2 as [|x l2 IH] using rev_ind.
  - rewrite bestOf_snoc. unfold keepBest. pose proof (bestOf_spec l1) as Hs. destruct (bestOf l1) as [b|]; [|done].
    apply firstBest_max in Hs as [Hb _]. by rewrite (H1 b Hb : moreSpecific _ _ = true).
  - replace (l1 ++ r :: l2 ++ [x]) with ((l1 ++ r :: l2) ++ [x]) by (by rewrite <- app_assoc). rewrite bestOf_snoc, IH by set_solver.
    unfold keepBest. destruct (moreSpecific (rn_path x) (Some r)) eqn:E; [|done]. exfalso. apply (H2 x); [set_solver|done].
Qed.

(** * The scan *)

Section Request.
Context (validates : handler -> bool) (path : string).

Definition matching r : Prop := matchPattern (rn_path r) path = Some true.
Definition serving (m : string) r : Prop := matching r /\ m ∈ rn_methods r.

#[local] Instance matching_dec r : Decision (matching r).
Proof. unfold matching. apply _. Defined.
#[local] Instance serving_dec m r : Decision (serving m r).
Proof. unfold serving. apply _. Defined.

Record scan_ok (allowed : gset string) (seen : list runtimeRoute) (raw : option runtimeRoute) (best : gmap string runtimeRoute) : Prop := {
  sk_raw : raw = bestOf (filter matching seen);
  sk_best : forall m, best !! m = if decide (m ∈ allowed) then bestOf (filter (serving m) seen) else None
}.

Lemma bestOfMethod_lookup allowed r best k m :
  bestOfMethod allowed r best k !! m = if decide (m = k /\ m ∈ allowed) then keepBest r (best !! m) else best !! m.
Proof.
  unfold bestOfMethod, keepBest. case_bool_decide as Hk; destruct (decide _) as [[-> Ha]|Hn]; try done.
  - destruct (best !! k) as [c|] eqn:Eb; [destruct (moreSpecific _ (Some c)) eqn:E|]; cbn; rewrite ?lookup_insert_eq; done.
  - assert (m <> k) by naive_solver. destruct (best !! k) as [c|]; [destruct (moreSpecific _ _)|]; by rewrite ?lookup_insert_ne by done.
Qed.

Lemma keepBest_twice r best : keepBest r (keepBest r best) = keepBest r best.
Proof.
  unfold keepBest. destruct (moreSpecific (rn_path r) best) eqn:E; [|by rewrite E]. cbn. by rewrite segments_irrefl.
Qed.

Lemma methods_lookup allowed r ms best m :
  fold_left (bestOfMethod allowed r) ms best !! m = if decide (m ∈ ms /\ m ∈ allowed) then keepBest r (best !! m) else best !! m.
Proof.
  revert best. induction ms as [|k ms IH]; intros best; cbn [fold_left].
  - by rewrite decide_False by (intros [Hx _]; by apply elem_of_nil in Hx).
  - rewrite IH, bestOfMethod_lookup. repeat destruct (decide _); rewrite ?keepBest_twice; set_solver.
Qed.

Lemma scan_step allowed seen r raw best : scan_ok allowed seen raw best -> matching r ->
  scan_ok allowed (seen ++ [r]) (keepBest r raw) (fold_left (bestOfMethod allowed r) (rn_methods r) best).
Proof.
  intros [-> Hb] Hr. split.
  - rewrite filter_app, filter_cons_True, filter_nil by done. by rewrite bestOf_snoc.
  - intros m. rewrite methods_lookup, Hb, filter_app. destruct (decide (m ∈ allowed)).
    + destruct (decide (m ∈ rn_methods r)) as [Hm|Hm].
      * rewrite decide_True by done. rewrite filter_cons_True, filter_nil by done. by rewrite bestOf_snoc.
      * rewrite decide_False by naive_solver. by rewrite filter_cons_False, filter_nil, app_nil_r by (intros [_ ?]; done).
    + by rewrite decide_False by naive_solver.
Qed.

Lemma scan_skip allowed seen r raw best : scan_ok allowed seen raw best -> ~ matching r -> scan_ok allowed (seen ++ [r]) raw best.
Proof.
  intros [-> Hb] Hr. split.
  - by rewrite filter_app, filter_cons_False, filter_nil, app_nil_r by done.
  - intros m. rewrite Hb. destruct (decide (m ∈ allowed)); [|done].
    by rewrite filter_app, filter_cons_False, filter_nil, app_nil_r by (intros [? _]; done).
Qed.

Lemma scan_total allowed l seen raw best : (forall r, r ∈ l -> is_Some (matchPattern (rn_path r) path)) -> scan_ok allowed seen raw best ->
  exists raw' best', scanRoutes path allowed l raw best = Some (raw', best') /\ scan_ok allowed (seen ++ l) raw' best'.
Proof.
  revert seen raw best. induction l as [|r l IH]; intros seen raw best Hv Hok; cbn.
  - exists raw, best. by rewrite app_nil_r.
  - destruct (Hv r) as [b Hb]; [left|]. rewrite Hb. replace (seen ++ r :: l) with ((seen ++ [r]) ++ l) by (by rewrite <- app_assoc).
    destruct b; apply IH; try (intros x Hx; apply Hv; by right); [by apply scan_step|]. apply scan_skip; [done|]. unfold matching. by rewrite Hb.
Qed.

(** * The answer *)

Definition validRoute (e : string * runtimeRoute) : Prop := routeValid validates e.2 = true.
#[local] Instance validRoute_dec e : Decision (validRoute e).
Proof. unfold validRoute. apply _. Defined.

Lemma semantic_fold (es : list (string * runtimeRoute)) : NoDup es.*1 ->
  let '(valid, best) := fold_left (semanticStep validates) es (∅, None) in
  valid = list_to_map (filter validRoute es) /\ best = bestOf (filter validRoute es).*2.
Proof.
  induction es as [|[k x] es IH] using rev_ind; intros Hnd; [done|]. rewrite fmap_app in Hnd. apply NoDup_app in Hnd as (Hnd & Hnew & _).
  specialize (IH Hnd). rewrite fold_left_app. cbn [fold_left]. destruct (fold_left _ es _) as [valid best]. destruct IH as [-> ->].
  unfold semanticStep. cbn. rewrite filter_app. destruct (routeValid validates x) eqn:Hv.
  - rewrite filter_cons_True, filter_nil by done. rewrite fmap_app. cbn [fmap list_fmap]. rewrite bestOf_snoc. split; [|done].
    symmetry. rewrite list_to_map_snoc; [done|]. intros Hin. apply (Hnew k); [|by left].
    apply list_elem_of_fmap in Hin as (y & -> & [_ Hin]%list_elem_of_filter). by apply list_elem_of_fmap_2.
  - by rewrite filter_cons_False, filter_nil, app_nil_r by (unfold validRoute; cbn; by rewrite Hv).
Qed.

(** The best route of a method is the first one, in the order of declaration, that serves it and
    that no other serving it beats. *)
Definition bestRoute l (m : string) r : Prop := firstBest (filter (serving m) l) r.

(** A method is offered when the engine names it, its best route accepts the path, and no other
    method's best route that accepts the path is more specific. *)
Definition offered l (allowed : gset string) (m : string) : Prop :=
  m ∈ allowed /\ exists r, bestRoute l m r /\ routeValid validates r = true
    /\ forall m' r', m' ∈ allowed -> bestRoute l m' r' -> routeValid validates r' = true -> ~ beats r' r.

Lemma scan_best allowed l raw best : scan_ok allowed l raw best ->
  forall m r, best !! m = Some r <-> m ∈ allowed /\ bestRoute l m r.
Proof. intros [_ Hb] m r. rewrite Hb. unfold bestRoute. rewrite <- bestOf_first. destruct (decide _); naive_solver. Qed.

(** The second and the third loop, for any order of iteration. *)
Lemma allowed_offered allowed l raw best es valid sem : scan_ok allowed l raw best -> es ≡ₚ map_to_list best ->
  fold_left (semanticStep validates) es (∅, None) = (valid, sem) ->
  (forall m, m ∈ allowedMethods valid sem <-> offered l allowed m)
  /\ match sem with
     | Some b => exists m, m ∈ allowedMethods valid sem /\ bestRoute l m b
     | None => valid = ∅
     end.
Proof.
  intros Hok Hes Hf. assert (NoDup es.*1) as Hnd by (rewrite Hes; apply NoDup_fst_map_to_list).
  pose proof (semantic_fold es Hnd) as Hs. rewrite Hf in Hs. destruct Hs as [-> ->].
  assert (forall m r, (m, r) ∈ filter validRoute es <-> m ∈ allowed /\ bestRoute l m r /\ routeValid validates r = true) as Hin.
  { intros m r. rewrite list_elem_of_filter, Hes, elem_of_map_to_list, (scan_best _ _ _ _ Hok). unfold validRoute. cbn. naive_solver. }
  assert (NoDup (filter validRoute es).*1) as Hnd' by (eapply sublist_NoDup; [exact Hnd|apply fmap_sublist, sublist_filter]).
  set (sem := bestOf (filter validRoute es).*2).
  assert (forall m, m ∈ allowedMethods (list_to_map (filter validRoute es)) sem <->
            exists r, (m, r) ∈ filter validRoute es /\ outranked sem r = false) as Hm.
  { intros m. unfold allowedMethods. rewrite elem_of_dom. split.
    - intros [r [Hr Ho]%map_lookup_filter_Some]. exists r. split; [by apply elem_of_list_to_map_2|done].
    - intros (r & Hr & Ho). exists r. apply map_lookup_filter_Some. split; [by apply elem_of_list_to_map_1|done]. }
  assert (match sem with Some b => exists m, (m, b) ∈ filter validRoute es /\ forall m' r', (m', r') ∈ filter validRoute es -> ~ beats r' b
                       | None => filter validRoute es = [] end) as Hsem.
  { unfold sem. pose proof (bestOf_spec (filter validRoute es).*2) as Hb. destruct (bestOf _) as [b|]; [|by apply fmap_nil_inv in Hb].
    apply firstBest_max in Hb as [Hb Hmax]. apply list_elem_of_fmap in Hb as ([m b'] & -> & Hb). exists m. split; [done|].
    intros m' r' Hr'. apply Hmax. by apply (list_elem_of_fmap_2 snd _ (m', r')). }
  split.
  - intros m. rewrite Hm. split.
    + intros (r & Hr & Ho). apply Hin in Hr as Hr'. destruct Hr' as (Ha & Hb & Hv). split; [done|]. exists r. split; [done|]. split; [done|].
      intros m' r' Ha' Hb' Hv' Hbeat. assert ((m', r') ∈ filter validRoute es) as Hr' by (apply Hin; done).
      destruct sem as [b|]; [|rewrite Hsem in Hr; by apply elem_of_nil in Hr]. destruct Hsem as (mb & _ & Hmax).
      assert (beats b r) as Hbr; [|unfold beats in Hbr; unfold outranked in Ho; congruence].
      apply dec_stable. intros Hn. apply (Hmax _ _ Hr'). by eapply beats_weak.
    + intros (Ha & r & Hb & Hv & Hmax). exists r. split; [by apply Hin|]. destruct sem as [b|]; [|done]. destruct Hsem as (mb & Hbin & _).
      apply Hin in Hbin as (Ha' & Hb' & Hv'). cbn. apply not_true_iff_false. by apply (Hmax mb b).
  - destruct sem as [b|] eqn:E; [|by rewrite Hsem]. destruct Hsem as (m & Hb & Hmax). exists m. split; [|by apply Hin].
    apply Hm. exists b. split; [done|]. cbn. apply not_true_iff_false. apply beats_irrefl.
Qed.

(** * Bound routes *)

Lemma bound_patterns ginAccepts modules reg bound middleware existing handled l :
  NewRegistry ginAccepts modules = Ok reg -> Bind ginAccepts reg bound middleware existing = Ok (handled, l) ->
  forall r, r ∈ l -> is_Some (matchPattern (rn_path r) path).
Proof.
  intros Hreg Hbind r Hr. destruct (registry_facts ginAccepts modules reg Hreg) as (_ & _ & Hdecl & _). unfold Bind in Hbind.
  destruct bound; [done|]. destruct (_ <=? _)%nat; [done|]. destruct (negb _); [done|]. destruct (runtimeRoutes reg) as [routes|] eqn:Hrt; [|done].
  destruct (negb _); [done|]. destruct (bindRoutes _ _ _ _) as [hs|]; [|done]. injection Hbind as _ ->.
  apply mapM_Some in Hrt. apply list_elem_of_lookup in Hr as [i Hi]. destruct (Forall2_lookup_r _ _ _ _ _ Hrt Hi) as (c & Hc%list_elem_of_lookup_2 & Hd).
  destruct (Hdecl c Hc) as (m & d & Hm & Hd' & _ & _ & _ & _ & Hpat). unfold declarationOf in Hd. rewrite Hm, Hd' in Hd. injection Hd as <-.
  by apply valid_pattern_match.
Qed.

Lemma sortedMethods_spec (ms : gset string) :
  StronglySorted String.le (sortedMethods ms) /\ NoDup (sortedMethods ms) /\ forall m, m ∈ sortedMethods ms <-> m ∈ ms.
Proof.
  unfold sortedMethods. pose proof (merge_sort_Permutation String.le (elements ms)) as Hp. split; [apply StronglySorted_merge_sort; apply _|].
  split; [rewrite Hp; apply NoDup_elements|]. intros m. rewrite Hp. apply elem_of_elements.
Qed.

(** The answer to a request whose path has routes, but none for its method, never panics and
    does not depend on the order in which the map of best routes is iterated.  A 405 lists, sorted
    and without repetition, exactly the methods the engine names whose most specific route accepts
    the path and is as specific as that of every other such method, and goes to the module of such
    a route.  Without one, the most specific route that matches the path answers 404; without that
    the path is treated as unknown. *)
Theorem method_not_allowed_exact ginAccepts modules reg bound middleware existing handled routes header order matches :
  NewRegistry ginAccepts modules = Ok reg -> Bind ginAccepts reg bound middleware existing = Ok (handled, routes) ->
  (forall best : gmap string (@runtimeRoute handler), order best ≡ₚ map_to_list best) ->
  exists answer, handleNoMethod validates path reg routes header order matches = Some answer
    /\ match answer with
       | NoMethodNotAllowed allow owner =>
           StronglySorted String.le allow /\ NoDup allow
           /\ (forall m, m ∈ allow <-> offered routes (ginAllowed header) m)
           /\ exists m r, m ∈ allow /\ bestRoute routes m r /\ owner = Some (rn_moduleIndex r)
       | NoMethodNotFound i =>
           (forall m, ~ offered routes (ginAllowed header) m)
           /\ exists r, firstBest (filter matching routes) r /\ i = rn_moduleIndex r
       | NoMethodNoRoute a =>
           (forall r, r ∈ routes -> ~ matching r) /\ a = handleNoRoute reg path matches
       end.
Proof.
  intros Hreg Hbind Horder. unfold handleNoMethod. set (allowed := ginAllowed header).
  destruct (scan_total allowed routes [] None ∅) as (raw & best & -> & Hok); [by eapply bound_patterns| |].
  { split; [done|]. intros m. cbn. by destruct (decide _). }
  cbn [app] in Hok. destruct (fold_left _ (order best) _) as [valid sem] eqn:Hf.
  destruct (allowed_offered allowed routes raw best (order best) valid sem Hok (Horder best) Hf) as [Hall Hsem].
  eexists. split; [done|]. case_bool_decide as He.
  - destruct Hok as [Hraw _]. destruct raw as [r|].
    + split; [intros m Hm%Hall; rewrite He in Hm; set_solver|]. exists r. split; [by apply bestOf_first|done].
    + split; [|done]. intros r Hr Hm. symmetry in Hraw. apply bestOf_None in Hraw. assert (r ∈ filter matching routes) as Hx by (by apply list_elem_of_filter).
      rewrite Hraw in Hx. by apply elem_of_nil in Hx.
  - destruct (sortedMethods_spec (allowedMethods valid sem)) as (H1 & H2 & H3). split; [done|]. split; [done|].
    split; [intros m; by rewrite H3, Hall|]. destruct sem as [b|].
    + destruct Hsem as (m & Hm & Hb). exists m, b. split; [by apply H3|]. done.
    + exfalso. apply He. rewrite Hsem. unfold allowedMethods. by rewrite map_filter_empty, dom_empty_L.
Qed.

(** * The guard of static paths *)

(** The guard turns a request away exactly when valid routes with this very path exist and none of
    them has the method; it then names the methods of all of them. *)
Lemma guard_fold l acc : let '(owner, allowed) := fold_left (guardStep validates) l acc in
  forall m, m ∈ allowed <-> m ∈ acc.2 \/ exists r, r ∈ l /\ routeValid validates r = true /\ m ∈ rn_methods r.
Proof.
  revert acc. induction l as [|r l IH]; intros acc; cbn [fold_left].
  { destruct acc as [o a]. cbn. intros m. split; [by left|]. intros [|(r & Hr & _)]; [done|by apply elem_of_nil in Hr]. }
  specialize (IH (guardStep validates acc r)). destruct (fold_left _ l _) as [owner allowed]. intros m. rewrite IH. unfold guardStep.
  setoid_rewrite elem_of_cons. destruct (routeValid validates r) eqn:Hv; cbn [fst snd]; rewrite ?elem_of_union, ?elem_of_list_to_set.
  - split; [intros [[?|?]|?]|intros [?|(x & [->|?] & ? & ?)]]; naive_solver.
  - naive_solver congruence.
Qed.

Theorem static_guard_exact owners method :
  match ownershipGuard validates path owners method with
  | GuardPass => forall l, owners !! path = Some l -> (exists r, r ∈ l /\ routeValid validates r = true /\ method ∈ rn_methods r)
      \/ (forall r, r ∈ l -> routeValid validates r = true -> rn_methods r = [])
  | GuardNotAllowed allow _ => exists l, owners !! path = Some l /\ allow <> [] /\ (method ∉ allow)
      /\ forall m, m ∈ allow <-> exists r, r ∈ l /\ routeValid validates r = true /\ m ∈ rn_methods r
  end.
Proof.
  unfold ownershipGuard. destruct (owners !! path) as [l|]; [|done]. pose proof (guard_fold l (None, ∅)) as Hg.
  destruct (fold_left _ l _) as [owner allowed]. cbn in Hg. case_bool_decide as He; [|case_bool_decide as Hm].
  - intros ? [= <-]. right. intros r Hr Hv. destruct (rn_methods r) as [|m ms] eqn:E; [done|]. exfalso.
    assert (m ∈ allowed) as Hx; [|rewrite He in Hx; set_solver]. apply Hg. right. exists r. split; [done|]. split; [done|]. rewrite E. left.
  - intros ? [= <-]. left. apply Hg in Hm as [Hm|Hm]; [set_solver|done].
  - exists l. destruct (sortedMethods_spec allowed) as (_ & _ & Hs). split; [done|]. split; [|split].
    + intros E. apply He. apply set_eq. intros m. rewrite <- Hs, E. set_solver.
    + by rewrite Hs.
    + intros m. rewrite Hs, Hg. set_solver.
Qed.

End Request.
End Dispatch.

(** * Example *)

(** A static and a parametric route of two modules under one path. *)
Definition exMethodModules : list (@Module_ nat) :=
  [mkModule "control" OwnerControl AuthControl "/api" ["/api"] [] (Some 1%nat)
     [mkRoute "list" ["POST"; "GET"] "/groups/all" None [] [Some 2%nat];
      mkRoute "group" ["DELETE"] "/groups/:id" None [] [Some 3%nat]] (Some 4%nat) (Some 5%nat) None].

Lemma method_not_allowed_exact_witness :
  match NewRegistry (fun _ => true) exMethodModules with
  | Ok reg =>
      match Bind (fun _ => true) reg false 2 0 with
      | Ok (_, routes) =>
          handleNoMethod (fun _ => true) "/api/groups/all" reg routes "GET, POST,DELETE" map_to_list (fun _ => true)
            = Some (NoMethodNotAllowed ["GET"; "POST"]%string (Some 0%nat))
          /\ offered (fun _ => true) "/api/groups/all" routes (ginAllowed "GET, POST,DELETE") "GET"
          /\ ~ offered (fun _ => true) "/api/groups/all" routes (ginAllowed "GET, POST,DELETE") "DELETE"
      | Err _ => False
      end
  | Err _ => False
  end.
Proof.
  destruct (NewRegistry (fun _ => true) exMethodModules) as [reg|e] eqn:E; [|vm_compute in E; discriminate].
  destruct (Bind (fun _ => true) reg false 2 0) as [[handled routes]|e] eqn:Eb;
    [|vm_compute in E; injection E as <-; vm_compute in Eb; discriminate].
  destruct (method_not_allowed_exact (fun _ => true) "/api/groups/all" (fun _ => true) exMethodModules reg false 2 0 handled routes
    "GET, POST,DELETE" map_to_list (fun _ => true) E Eb ltac:(done)) as (answer & Ha & Hspec).
  assert (handleNoMethod (fun _ => true) "/api/groups/all" reg routes "GET, POST,DELETE" map_to_list (fun _ => true)
    = Some (NoMethodNotAllowed ["GET"; "POST"]%string (Some 0%nat))) as Hv.
  { vm_compute in E. injection E as <-. vm_compute in Eb. injection Eb as <- <-. vm_compute. reflexivity. }
  rewrite Hv in Ha. injection Ha as <-. destruct Hspec as (_ & _ & Hm & _). split; [exact Hv|]. split; [apply Hm; left|].
  rewrite <- Hm. intros [?|[?|?%elem_of_nil]%elem_of_cons]%elem_of_cons; done.
Defined.
