(* ===== verification/Lifecycle.v ===== *)
(** The shutdown of the HTTP server ([internal/httplifecycle/coordinator.go]): which requests are
    admitted, which are cancelled, and when the process may go.

    A request is its pointer, a cancellation function a number; a channel is a number too, and
    closing one twice would panic.  The cancellations of [BeginShutdown] run after the lock is
    released: they are steps of their own.  A nil coordinator or request, which admits or refuses
    without a trace, is left out. *)
From S2P Require Import Prelude.

Local Open Scope Z_scope.

(** * State *)

Record Coordinator := mkCoordinator {
  co_closing : bool;
  co_active : Z;
  co_zero : nat;
  co_closed : gset nat;
  co_channels : nat;
  co_dataStop : gmap Z Z;
  co_allStop : gmap Z Z
}.

(** [zero] starts closed. *)
Definition NewCoordinator : Coordinator := mkCoordinator false 0 0 {[0%nat]} 1 ∅ ∅.

Definition addActiveLocked (c : Coordinator) : Coordinator :=
  if co_active c =? 0
  then mkCoordinator (co_closing c) (co_active c + 1) (co_channels c) (co_closed c) (S (co_channels c)) (co_dataStop c) (co_allStop c)
  else mkCoordinator (co_closing c) (co_active c + 1) (co_zero c) (co_closed c) (co_channels c) (co_dataStop c) (co_allStop c).

(** [None] is the panic of a channel closed twice. *)
Definition leaveLocked (c : Coordinator) : option Coordinator :=
  if co_active c =? 0 then Some c
  else
    let active := co_active c - 1 in
    if active =? 0 then
      if bool_decide (co_zero c ∈ co_closed c) then None
      else Some (mkCoordinator (co_closing c) active (co_zero c) ({[co_zero c]} ∪ co_closed c) (co_channels c) (co_dataStop c) (co_allStop c))
    else Some (mkCoordinator (co_closing c) active (co_zero c) (co_closed c) (co_channels c) (co_dataStop c) (co_allStop c)).

Definition setData (m : gmap Z Z) (c : Coordinator) : Coordinator :=
  mkCoordinator (co_closing c) (co_active c) (co_zero c) (co_closed c) (co_channels c) m (co_allStop c).
Definition setAll (m : gmap Z Z) (c : Coordinator) : Coordinator :=
  mkCoordinator (co_closing c) (co_active c) (co_zero c) (co_closed c) (co_channels c) (co_dataStop c) m.

(** * Operations *)

(** The locked part at the start of a handler: whether it is admitted.  A refused one is
    cancelled by the caller. *)
Definition TrackAll (request cancel : Z) (c : Coordinator) : bool * Coordinator :=
  if co_closing c then (false, c)
  else let c := addActiveLocked c in (true, setAll (<[request := cancel]> (co_allStop c)) c).

Definition BindData (request cancel : Z) (c : Coordinator) : bool * Coordinator :=
  if co_closing c then (false, c)
  else let c := addActiveLocked c in (true, setData (<[request := cancel]> (co_dataStop c)) c).

(** The deferred part of [TrackAll] and the release function of [BindData]. *)
Definition trackLeave (request : Z) (c : Coordinator) : option Coordinator :=
  leaveLocked (setAll (delete request (co_allStop c)) c).
Definition releaseData (request : Z) (c : Coordinator) : option Coordinator :=
  leaveLocked (setData (delete request (co_dataStop c)) c).

Definition stopsOf (c : Coordinator) : list Z := (mentries (co_dataStop c)).*2 ++ (mentries (co_allStop c)).*2.

(** The locked part of [BeginShutdown], with the functions to call afterwards. *)
Definition BeginShutdown (c : Coordinator) : list Z * Coordinator :=
  if co_closing c then ([], c)
  else (stopsOf c, mkCoordinator true (co_active c) (co_zero c) (co_closed c) (co_channels c) (co_dataStop c) (co_allStop c)).

(** [Wait] reads the channel once and returns without error when it is closed. *)
Definition waitChannel (c : Coordinator) : nat := co_zero c.
Definition waitReturns (channel : nat) (c : Coordinator) : bool := bool_decide (channel ∈ co_closed c).

(** * The process *)

Record lifecycle := mkLifecycle { lc_coordinator : Coordinator; lc_pending : list Z; lc_cancelled : gset Z }.

Definition newLifecycle : lifecycle := mkLifecycle NewCoordinator [] ∅.

(** A function that a running handler has registered. *)
Definition registered (c : Coordinator) (cancel : Z) : Prop :=
  (exists request, co_dataStop c !! request = Some cancel) \/ exists request, co_allStop c !! request = Some cancel.

(** A handler that ends first calls its own function, then takes the lock again and leaves.
    A request is registered once in each map: the pointers of the running handlers differ. *)
Inductive lifecycle_step : lifecycle -> lifecycle -> Prop :=
| lc_track c ps cs request cancel admitted c' :
    co_allStop c !! request = None -> TrackAll request cancel c = (admitted, c') ->
    lifecycle_step (mkLifecycle c ps cs) (mkLifecycle c' ps (if admitted then cs else {[cancel]} ∪ cs))
| lc_bind c ps cs request cancel admitted c' :
    co_dataStop c !! request = None -> BindData request cancel c = (admitted, c') ->
    lifecycle_step (mkLifecycle c ps cs) (mkLifecycle c' ps (if admitted then cs else {[cancel]} ∪ cs))
| lc_leave c ps cs request cancel c' :
    co_allStop c !! request = Some cancel -> cancel ∈ cs -> trackLeave request c = Some c' ->
    lifecycle_step (mkLifecycle c ps cs) (mkLifecycle c' ps cs)
| lc_release c ps cs request cancel c' :
    co_dataStop c !! request = Some cancel -> cancel ∈ cs -> releaseData request c = Some c' ->
    lifecycle_step (mkLifecycle c ps cs) (mkLifecycle c' ps cs)
| lc_finish c ps cs cancel :
    registered c cancel -> lifecycle_step (mkLifecycle c ps cs) (mkLifecycle c ps ({[cancel]} ∪ cs))
| lc_shutdown c ps cs stops c' :
    BeginShutdown c = (stops, c') -> lifecycle_step (mkLifecycle c ps cs) (mkLifecycle c' (ps ++ stops) cs)
| lc_cancel c p ps cs : lifecycle_step (mkLifecycle c (p :: ps) cs) (mkLifecycle c ps ({[p]} ∪ cs)).

(** * The invariant *)

Record coordinator_ok (c : Coordinator) : Prop := {
  cn_active : co_active c = Z.of_nat (size (co_dataStop c) + size (co_allStop c));
  cn_zero : co_zero c ∈ co_closed c <-> co_active c = 0;
  cn_bound : (co_zero c < co_channels c)%nat /\ forall n, n ∈ co_closed c -> (n < co_channels c)%nat
}.

Record lifecycle_ok (s : lifecycle) : Prop := {
  lo_coordinator : coordinator_ok (lc_coordinator s);
  lo_stopped : co_closing (lc_coordinator s) = true ->
    forall cancel, registered (lc_coordinator s) cancel -> cancel ∈ lc_cancelled s \/ cancel ∈ lc_pending s
}.

Lemma addActive_ok c : coordinator_ok c ->
  let c' := addActiveLocked c in
  co_active c' = co_active c + 1 /\ (co_zero c' ∉ co_closed c') /\ co_dataStop c' = co_dataStop c /\ co_allStop c' = co_allStop c
  /\ co_closing c' = co_closing c /\ (co_zero c' < co_channels c')%nat /\ (forall n, n ∈ co_closed c' -> (n < co_channels c')%nat)
  /\ 0 <= co_active c.
Proof.
  intros [Ha Hz [Hb1 Hb2]]. unfold addActiveLocked. destruct (Z.eqb_spec (co_active c) 0); cbn; split_and!; try done; try lia.
  - intros Hx%Hb2. lia.
  - intros k Hk%Hb2. lia.
  - by rewrite Hz.
Qed.

(** Leaving closes the channel with the last one and never twice. *)
Lemma leave_ok c : co_active c = Z.of_nat (S (size (co_dataStop c) + size (co_allStop c))) ->
  (co_zero c ∉ co_closed c) -> (co_zero c < co_channels c)%nat -> (forall n, n ∈ co_closed c -> (n < co_channels c)%nat) ->
  exists c', leaveLocked c = Some c' /\ coordinator_ok c' /\ co_closing c' = co_closing c
    /\ co_dataStop c' = co_dataStop c /\ co_allStop c' = co_allStop c.
Proof.
  intros Ha Hz Hb1 Hb2. unfold leaveLocked. destruct (Z.eqb_spec (co_active c) 0); [lia|].
  destruct (Z.eqb_spec (co_active c - 1) 0).
  - rewrite bool_decide_false by done. eexists. split; [done|]. split; [|done]. split; cbn; [lia|set_solver|]. split; [done|]. set_solver.
  - eexists. split; [done|]. split; [|done]. split; cbn; [lia| |done]. split; [done|lia].
Qed.

Lemma leave_registered c request cancel : coordinator_ok c -> co_allStop c !! request = Some cancel ->
  exists c', trackLeave request c = Some c' /\ coordinator_ok c' /\ co_closing c' = co_closing c
    /\ co_dataStop c' = co_dataStop c /\ co_allStop c' = delete request (co_allStop c).
Proof.
  intros [Ha Hz [Hb1 Hb2]] Hr. pose proof (map_size_delete request (co_allStop c)) as Hs. rewrite Hr in Hs.
  assert (size (co_allStop c) <> 0%nat) as Hn by (intros E%map_size_empty_iff; rewrite E in Hr; done).
  destruct (leave_ok (setAll (delete request (co_allStop c)) c)) as (c' & E & Hok & ?); cbn; [lia| |done|done|eauto].
  rewrite Hz. lia.
Qed.

Lemma release_registered c request cancel : coordinator_ok c -> co_dataStop c !! request = Some cancel ->
  exists c', releaseData request c = Some c' /\ coordinator_ok c' /\ co_closing c' = co_closing c
    /\ co_dataStop c' = delete request (co_dataStop c) /\ co_allStop c' = co_allStop c.
Proof.
  intros [Ha Hz [Hb1 Hb2]] Hr. pose proof (map_size_delete request (co_dataStop c)) as Hs. rewrite Hr in Hs.
  assert (size (co_dataStop c) <> 0%nat) as Hn by (intros E%map_size_empty_iff; rewrite E in Hr; done).
  destruct (leave_ok (setData (delete request (co_dataStop c)) c)) as (c' & E & Hok & ?); cbn; [lia| |done|done|eauto].
  rewrite Hz. lia.
Qed.

Lemma stops_registered c cancel : registered c cancel -> cancel ∈ stopsOf c.
Proof.
  unfold stopsOf, mentries. rewrite elem_of_app, !list_elem_of_fmap. intros [[k Hk]|[k Hk]]; [left|right]; exists (k, cancel); (split; [done|]); by apply elem_of_map_to_list.
Qed.

Lemma lifecycle_step_ok s s' : lifecycle_step s s' -> lifecycle_ok s -> lifecycle_ok s'.
Proof.
  intros Hstep [Hok Hst]. destruct Hstep as [c ps cs request cancel admitted c' Hnew Ht|c ps cs request cancel admitted c' Hnew Ht
    |c ps cs request cancel c' Hr _ Hl|c ps cs request cancel c' Hr _ Hl|c ps cs cancel Hr|c ps cs stops c' Hb|c p ps cs]; cbn [lc_coordinator lc_pending lc_cancelled] in *.
  - unfold TrackAll in Ht. destruct (co_closing c) eqn:Ec; injection Ht as <- <-.
    { split; [done|]. cbn. intros _ x Hx. destruct (Hst eq_refl x Hx); set_solver. }
    destruct (addActive_ok c Hok) as (H1 & H2 & H3 & H4 & H5 & H6 & H7 & H8). cbn. split; cbn; [|congruence].
    split; cbn; [rewrite H1, H3, H4, map_size_insert_None by done; destruct Hok; lia| |done]. split; [done|lia].
  - unfold BindData in Ht. destruct (co_closing c) eqn:Ec; injection Ht as <- <-.
    { split; [done|]. cbn. intros _ x Hx. destruct (Hst eq_refl x Hx); set_solver. }
    destruct (addActive_ok c Hok) as (H1 & H2 & H3 & H4 & H5 & H6 & H7 & H8). cbn. split; cbn; [|congruence].
    split; cbn; [rewrite H1, H3, H4, map_size_insert_None by done; destruct Hok; lia| |done]. split; [done|lia].
  - destruct (leave_registered c request cancel Hok Hr) as (c'' & E & Hok' & Hc & Hd & Ha). rewrite Hl in E. injection E as <-. split; [done|].
    cbn. rewrite Hc. intros Hcl x Hx. assert (registered c x) as Hx'.
    { destruct Hx as [[k Hk]|[k Hk]]; [left|right]; exists k; [by rewrite Hd in Hk|]. rewrite Ha in Hk. by apply lookup_delete_Some in Hk as [_ ?]. }
    destruct (Hst Hcl x Hx'); set_solver.
  - destruct (release_registered c request cancel Hok Hr) as (c'' & E & Hok' & Hc & Hd & Ha). rewrite Hl in E. injection E as <-. split; [done|].
    cbn. rewrite Hc. intros Hcl x Hx. assert (registered c x) as Hx'.
    { destruct Hx as [[k Hk]|[k Hk]]; [left|right]; exists k; [|by rewrite Ha in Hk]. rewrite Hd in Hk. by apply lookup_delete_Some in Hk as [_ ?]. }
    destruct (Hst Hcl x Hx'); set_solver.
  - split; [done|]. cbn. intros Hcl x Hx. destruct (Hst Hcl x Hx); set_solver.
  - unfold BeginShutdown in Hb. destruct (co_closing c) eqn:Ec; injection Hb as <- <-.
    + rewrite app_nil_r. split; [done|]. cbn. by rewrite Ec.
    + split; [destruct Hok; by split|]. cbn. intros _ x Hx. right. apply elem_of_app. right. by apply stops_registered.
  - split; [done|]. cbn. intros Hcl x Hx. destruct (Hst Hcl x Hx) as [?|[->|?]%elem_of_cons]; set_solver.
Qed.

(** C31: In every reachable state the bookkeeping never closes a channel twice when a handler
    leaves.  Once the shutdown has begun, further requests are refused without a trace; when its
    cancellations have run, every request that is still registered has been cancelled; and [Wait]
    returns exactly when no request is registered any more. *)
Theorem shutdown_drains s :
  rtc lifecycle_step newLifecycle s ->
  let c := lc_coordinator s in
  (forall request cancel, co_allStop c !! request = Some cancel -> is_Some (trackLeave request c))
  /\ (forall request cancel, co_dataStop c !! request = Some cancel -> is_Some (releaseData request c))
  /\ (co_closing c = true ->
      (forall request cancel, TrackAll request cancel c = (false, c) /\ BindData request cancel c = (false, c))
      /\ (lc_pending s = [] -> forall cancel, registered c cancel -> cancel ∈ lc_cancelled s)
      /\ (waitReturns (waitChannel c) c = true <-> forall cancel, ~ registered c cancel)).
Proof.
  intros Hrun c. assert (lifecycle_ok s) as [Hok Hst].
  { assert (lifecycle_ok newLifecycle) as Hinit.
    { split; [split; cbn; [by rewrite !map_size_empty|set_solver|split; [lia|set_solver by lia]]|done]. }
    induction Hrun as [|s1 s2 s3 Hstep _ IH]; [done|]. apply IH. by eapply lifecycle_step_ok. }
  fold c in Hok, Hst. split; [intros request cancel Hr; by destruct (leave_registered c request cancel Hok Hr) as (c' & -> & _)|].
  split; [intros request cancel Hr; by destruct (release_registered c request cancel Hok Hr) as (c' & -> & _)|]. intros Hc. split; [|split].
  - intros request cancel. unfold TrackAll, BindData. by rewrite Hc.
  - intros Hp cancel Hreg. destruct (Hst Hc cancel Hreg) as [|Hin]; [done|]. rewrite Hp in Hin. by apply elem_of_nil in Hin.
  - unfold waitReturns, waitChannel. rewrite bool_decide_eq_true, (cn_zero c Hok), (cn_active c Hok). split.
    + intros Hz cancel [[k Hk]|[k Hk]].
      * assert (co_dataStop c = ∅) as E by (apply map_size_empty_inv; lia). by rewrite E in Hk.
      * assert (co_allStop c = ∅) as E by (apply map_size_empty_inv; lia). by rewrite E in Hk.
    + intros Hn. assert (co_dataStop c = ∅ /\ co_allStop c = ∅) as [-> ->]; [|by rewrite !map_size_empty].
      split; apply map_eq; intros k; rewrite lookup_empty; apply eq_None_not_Some; intros [x Hx]; apply (Hn x); [left|right]; eauto.
Qed.

(** A request is tracked, the shutdown begins and cancels it, and it leaves. *)
Lemma shutdown_drains_witness :
  exists s, rtc lifecycle_step newLifecycle s /\ co_closing (lc_coordinator s) = true
    /\ waitReturns (waitChannel (lc_coordinator s)) (lc_coordinator s) = true /\ 9 ∈ lc_cancelled s
    /\ forall cancel, ~ registered (lc_coordinator s) cancel.
Proof.
  set (c1 := (TrackAll 5 9 NewCoordinator).2). set (c2 := (BeginShutdown c1).2).
  set (c3 := mkCoordinator true 0 1 {[1%nat; 0%nat]} 2 ∅ ∅). set (s := mkLifecycle c3 [] ({[9]} ∪ ∅)).
  assert (rtc lifecycle_step newLifecycle s) as Hrun.
  { eapply rtc_l; [apply (lc_track NewCoordinator [] ∅ 5 9 true c1); reflexivity|].
    eapply rtc_l; [apply (lc_shutdown c1 [] ∅ [9] c2); reflexivity|]. cbn [app].
    eapply rtc_l; [apply (lc_cancel c2 9 [] ∅)|]. apply rtc_once. apply (lc_leave c2 [] ({[9]} ∪ ∅) 5 9 c3); [vm_compute; reflexivity|set_solver|vm_compute; reflexivity]. }
  destruct (shutdown_drains s Hrun) as (_ & _ & H). destruct (H eq_refl) as (_ & _ & Hw).
  assert (waitReturns (waitChannel c3) c3 = true) as Hret by (vm_compute; reflexivity).
  exists s. split; [exact Hrun|]. split; [reflexivity|]. split; [exact Hret|]. split; [cbn; set_solver|]. by apply Hw.
Defined.
