(* ===== verification/Idempotency.v ===== *)
(** Idempotent operations of the control plane: [internal/control/idempotency_operation.go],
    [operation_recovery.go] and [idempotency_digest.go], with the row of
    [internal/storage/models/control_operation.go] and the publication of
    [internal/state/manager.go].

    The database is the tables of [Refresh], the table of operations, and the rest of the tables,
    which stays opaque.  A transaction commits, fails, or is committed although it reports a
    failure.  The JSON column of the planned stages holds the decoded list.  The mutation itself,
    the price table and the configuration that the tables describe are parameters: other parts of
    the program compute them.  The write lock of the service is held throughout, so that one
    operation is one computation; the clock is read once for it. *)
From Stdlib Require Import Ascii.
From S2P Require Import Prelude GoStrings Config Credential Ledger Registry PriceTable Refresh.

Local Open Scope go_scope.
Local Open Scope Z_scope.

(** * Keys *)

Definition keyByte (s : string) (i : nat) : Z := match bytes_of s !! i with Some c => byteZ c | None => 0 end.

Definition lowerHex (c : ascii) : bool :=
  let b := byteZ c in negb ((b <? 48) || (57 <? b) && (b <? 97) || (102 <? b)).

Definition hyphenAt (i : nat) : bool := bool_decide (i ∈ [8; 13; 18; 23]%nat).

(** Whether the text is a lower-case UUID of version 4. *)
Definition validateIdempotencyKey (value : string) : bool :=
  if negb (slen value =? 36) || negb (keyByte value 8 =? 45) || negb (keyByte value 13 =? 45) || negb (keyByte value 18 =? 45)
     || negb (keyByte value 23 =? 45) || negb (keyByte value 14 =? 52) then false
  else if negb (bool_decide (keyByte value 19 ∈ [56; 57; 97; 98])) then false
  else forallb (fun '(i, c) => hyphenAt i || lowerHex c) (zip (seq 0 (length (bytes_of value))) (bytes_of value)).

Definition hexDigit (d : Z) : ascii := ascii_of_N (Z.to_N (if d <? 10 then 48 + d else 87 + d)).
Definition hexByte (b : Z) : list ascii := [hexDigit (Z.shiftr b 4); hexDigit (Z.land b 15)].

(** [hex.EncodeToString]. *)
Definition hexEncode (value : list Z) : list ascii := mjoin (hexByte <$> value).

Definition hyphen : ascii := "-".

(** [random] is what is read of the source: sixteen bytes, or fewer when it fails. *)
Definition newOperationID (random : list Z) : option string :=
  if (length random <? 16)%nat then None
  else
    let value := take 16 random in
    let value := <[6%nat := Z.lor (Z.land (nth 6 value 0) 15) 64]> value in
    let value := <[8%nat := Z.lor (Z.land (nth 8 value 0) 63) 128]> value in
    let encoded := hexEncode value in
    Some (of_bytes (take 8 encoded ++ hyphen :: take 4 (drop 8 encoded) ++ hyphen :: take 4 (drop 12 encoded)
                    ++ hyphen :: take 4 (drop 16 encoded) ++ hyphen :: take 12 (drop 20 encoded))).

(** * Kinds and stages *)

Definition operationKindAccessKeyCreate : string := "access_key_create".
Definition operationKindAccessKeyRotate : string := "access_key_rotate".
Definition operationKindAccessKeyUpdate : string := "access_key_update".
Definition operationKindGroupCreate : string := "group_create".
Definition operationKindCredentialImport : string := "credential_import".

Definition accessKeyKind (kind : string) : bool :=
  bool_decide (kind ∈ [operationKindAccessKeyCreate; operationKindAccessKeyRotate; operationKindAccessKeyUpdate]).

Definition operationKindValid (kind : string) : bool :=
  accessKeyKind kind || bool_decide (kind ∈ [operationKindGroupCreate; operationKindCredentialImport]).

Definition operationStageDBCommitted : string := "db_committed".
Definition operationStagePricesPublished : string := "prices_published".
Definition operationStageRegistryApplied : string := "registry_applied".
Definition operationStageSnapshotPublished : string := "snapshot_published".
Definition operationStageCompleted : string := "completed".

Definition operationRequiredStages (kind : string) : option (list string) :=
  if accessKeyKind kind
  then Some [operationStageDBCommitted; operationStageSnapshotPublished; operationStageCompleted]
  else if bool_decide (kind = operationKindGroupCreate)
  then Some [operationStageDBCommitted; operationStagePricesPublished; operationStageRegistryApplied;
             operationStageSnapshotPublished; operationStageCompleted]
  else if bool_decide (kind = operationKindCredentialImport)
  then Some [operationStageDBCommitted; operationStageRegistryApplied; operationStageCompleted]
  else None.

(** ** Resource identities *)

Definition parseResourceIdentity (identity prefix : string) : option Z :=
  match cutPrefix (bytes_of prefix ++ [":"%char]) (bytes_of identity) with
  | None => None
  | Some raw =>
      match raw with
      | [] => None
      | c :: _ =>
          if byteZ c =? 48 then None
          else
            match parseUint raw with
            | None => None
            | Some value => if (value =? 0) || negb (bool_decide (formatNat value = raw)) then None else Some value
            end
      end
  end.

Definition validateOperationResourceIdentity (kind identity : string) : bool :=
  if accessKeyKind kind then bool_decide (is_Some (parseResourceIdentity identity "access-key"))
  else if bool_decide (kind ∈ [operationKindGroupCreate; operationKindCredentialImport])
  then bool_decide (is_Some (parseResourceIdentity identity "group"))
  else false.

(** * The digest of a request *)

Record idempotencyDigestInput := mkDigestInput {
  di_Version : Z;
  di_Method : string;
  di_OperationKind : string;
  di_PathTemplate : string;
  di_ResourceLocator : string;
  di_AuthScopeID : string;
  di_CanonicalBody : string
}.

Definition idempotencyDigestDomain : string := "gpt-load/control-idempotency".

(** [binary.BigEndian.PutUint32]. *)
Definition bigEndian32 (n : Z) : list ascii :=
  (fun shift => ascii_of_N (Z.to_N (Z.land (Z.shiftr n shift) 255))) <$> [24; 16; 8; 0].

Fixpoint frameFields (fields : list (list ascii)) : option (list ascii) :=
  match fields with
  | [] => Some []
  | field :: rest =>
      if 4294967295 <? Z.of_nat (length field) then None
      else match frameFields rest with
           | Some framed => Some (bigEndian32 (Z.of_nat (length field)) ++ field ++ framed)
           | None => None
           end
  end.

(** What the digest needs of the Go library and of [internal/platform/canonicaljson]. *)
Class DigestPlatform := {
  ToUpper : string -> string;
  utf8Valid : string -> bool;
  Canonicalize : string -> option string;
  sha256 : list ascii -> string
}.

Section Digest.
Context `{DigestPlatform}.

Definition digestFields (input : idempotencyDigestInput) : list (list ascii) :=
  [formatNat (di_Version input); bytes_of (di_Method input); bytes_of (di_OperationKind input);
   bytes_of (di_PathTemplate input); bytes_of (di_ResourceLocator input); bytes_of (di_AuthScopeID input);
   bytes_of (di_CanonicalBody input)].

(** The digest and the input it was computed of. *)
Definition buildIdempotencyDigest (input : idempotencyDigestInput) : option (string * list ascii) :=
  if negb (di_Version input =? 1) then None
  else if bool_decide (di_Method input = "") || negb (bool_decide (di_Method input = ToUpper (di_Method input))) then None
  else if negb (operationKindValid (di_OperationKind input)) || bool_decide (di_PathTemplate input = "")
          || bool_decide (di_ResourceLocator input = "") || bool_decide (di_AuthScopeID input = "")
          || bool_decide (di_CanonicalBody input = "") then None
  else if negb (utf8Valid (di_CanonicalBody input)) then None
  else
    match Canonicalize (di_CanonicalBody input) with
    | None => None
    | Some canonicalBody =>
        if negb (bool_decide (canonicalBody = di_CanonicalBody input)) then None
        else
          match frameFields (digestFields input) with
          | None => None
          | Some framed =>
              let framed := bytes_of idempotencyDigestDomain ++ Ascii.zero :: framed in
              Some (sha256 framed, framed)
          end
    end.

End Digest.

(** * Operations *)

Record ControlOperation := mkOperation {
  co_CommitSequence : Z;
  co_OperationID : string;
  co_IdempotencyKey : string;
  co_DigestVersion : Z;
  co_RequestDigest : string;
  co_OperationKind : string;
  co_ResourceIdentity : string;
  co_CanonicalResult : string;
  co_RequiredStages : option (list string);
  co_LastCompletedStage : string;
  co_FailedStage : string;
  co_CompletedAtMS : option Z;
  co_CompactedAtMS : option Z;
  co_CreatedAtMS : Z;
  co_UpdatedAtMS : Z
}.

Definition advanced (stage : string) (now : Z) (o : ControlOperation) : ControlOperation :=
  let 'mkOperation seq oid key dv dg kind rid res st _ _ done_ comp cr _ := o in
  mkOperation seq oid key dv dg kind rid res st stage ""
    (if bool_decide (stage = operationStageCompleted) then Some now else done_) comp cr now.

Definition failedAt (stage : string) (now : Z) (o : ControlOperation) : ControlOperation :=
  let 'mkOperation seq oid key dv dg kind rid res st last _ done_ comp cr _ := o in
  mkOperation seq oid key dv dg kind rid res st last stage done_ comp cr now.

(** A compacted row keeps the comparator and loses the result. *)
Definition compacted (now : Z) (o : ControlOperation) : ControlOperation :=
  let 'mkOperation seq oid key dv dg kind rid _ _ _ _ done_ _ cr _ := o in
  mkOperation seq oid key dv dg kind rid "" None "" "" done_ (Some now) cr now.

Record idempotentMutationResult := mkMutationResult { mr_ResourceIdentity : string; mr_CanonicalResult : string; mr_Ephemeral : option string }.

Record idempotentOperationResult := mkOperationResult {
  or_OperationID : string;
  or_ResourceIdentity : string;
  or_CanonicalResult : string;
  or_Replayed : bool;
  or_Ephemeral : option string
}.

Inductive controlError :=
| ErrInvalidIdempotencyKey
| ErrInternalServer
| ErrDatabase
| ErrMutation (code : string)
| ErrIdempotencyKeyReused (operationID kind : string)
| ErrIdempotencyResultExpired (operationID kind identity : string) (completedAtMS : Z)
| ErrControlRecoveryPending (operationID kind failedStage : string) (retryAfterMS : Z)
| ErrControlOperationIncomplete (operationID kind lastCompletedStage failedStage : string).

Definition millisecond : Z := 1000000.
Definition operationResultRetention : Z := 7 * 24 * 3600 * 1000.
Definition operationRecoveryInitialBackoff : Z := 250 * millisecond.
Definition operationRecoveryMaximumBackoff : Z := 30 * second.
Definition maxSafeMilliseconds : Z := 9007199254740991.

Definition nextOperationRecoveryBackoff (current : Z) : Z :=
  if Z.quot operationRecoveryMaximumBackoff 2 <=? current then operationRecoveryMaximumBackoff else current * 2.

(** * The world *)

(** What the rest of the program makes of the tables: the price table and the compiled
    configuration, which becomes a snapshot with its revision. *)
Class ControlPlane := {
  RestTables : Type;
  PublishedPrices : Type;
  CompiledConfig : Type;
  config_eq_dec :: EqDecision CompiledConfig;
  configSnapshot : Z -> CompiledConfig -> ConfigSnapshot
}.

Section Control.
Context `{GoText} `{SubscriptionPlatform} `{DigestPlatform} `{ControlPlane}.

Record Tables := mkTables {
  tb_rows : gmap Z CredentialRow;
  tb_groups : gmap Z GroupRow;
  tb_proxies : option (gmap Z ManagedProxy);
  tb_rest : RestTables
}.

(** [internal/state/manager.go]: the revision and the configuration in force. *)
Abbreviation Manager := (option (Z * CompiledConfig)) (only parsing).

(** A committed mutation, as the history of the process keeps it. *)
Record commit := mkCommit { cm_Key : string; cm_Digest : string; cm_OperationID : string; cm_Identity : string; cm_Result : string }.

Record ControlWorld := mkControlWorld {
  cw_world : World;
  cw_rest : RestTables;
  cw_operations : gmap Z ControlOperation;
  cw_sequence : Z;
  cw_prices : option PublishedPrices;
  cw_manager : Manager;
  cw_woken : bool;
  cw_commits : list commit
}.

Abbreviation ctl := (stateM ControlWorld) (only parsing).

Definition tablesOf (w : ControlWorld) : Tables :=
  mkTables (w_rows (cw_world w)) (w_groups (cw_world w)) (w_proxies (cw_world w)) (cw_rest w).

Definition setTables (t : Tables) (w : ControlWorld) : ControlWorld :=
  let v := cw_world w in
  mkControlWorld (mkWorld (tb_rows t) (tb_groups t) (tb_proxies t) (w_registry v) (w_outcomes v) (w_calls v)) (tb_rest t)
    (cw_operations w) (cw_sequence w) (cw_prices w) (cw_manager w) (cw_woken w) (cw_commits w).
Definition setWorld (v : World) (w : ControlWorld) : ControlWorld :=
  mkControlWorld v (cw_rest w) (cw_operations w) (cw_sequence w) (cw_prices w) (cw_manager w) (cw_woken w) (cw_commits w).
Definition setOperations (ops : gmap Z ControlOperation) (w : ControlWorld) : ControlWorld :=
  mkControlWorld (cw_world w) (cw_rest w) ops (cw_sequence w) (cw_prices w) (cw_manager w) (cw_woken w) (cw_commits w).
Definition setPrices (p : option PublishedPrices) (w : ControlWorld) : ControlWorld :=
  mkControlWorld (cw_world w) (cw_rest w) (cw_operations w) (cw_sequence w) p (cw_manager w) (cw_woken w) (cw_commits w).
Definition setManager (m : Manager) (w : ControlWorld) : ControlWorld :=
  mkControlWorld (cw_world w) (cw_rest w) (cw_operations w) (cw_sequence w) (cw_prices w) m (cw_woken w) (cw_commits w).

(** [wakeOperationRecovery]: the channel holds one signal. *)
Definition wakeOperationRecovery : ctl unit := fun w =>
  (tt, mkControlWorld (cw_world w) (cw_rest w) (cw_operations w) (cw_sequence w) (cw_prices w) (cw_manager w) true (cw_commits w)).

(** A computation on the tables of [Refresh] and on the registry. *)
Definition onWorld {A} (m : io A) : ctl A := fun w => let '(a, v) := m (cw_world w) in (a, setWorld v w).

(** A query that only reads. *)
Definition ctlQuery {A} (read : ControlWorld -> A) : ctl (option A) := fun w =>
  let '(o, w) := onWorld nextOutcome w in (match o with Done => Some (read w) | _ => None end, w).

(** [withControlTransaction]: a body that fails is rolled back. *)
Definition withControlTransaction {A} (body : ControlWorld -> result controlError (A * ControlWorld)) : ctl (result controlError A) := fun w =>
  let '(o, w) := onWorld nextOutcome w in
  match body w with
  | Err e => (Err e, w)
  | Ok (a, w') =>
      match o with
      | Done => (Ok a, w')
      | Failed => (Err ErrDatabase, w)
      | FailedAfterCommit => (Err ErrDatabase, w')
      end
  end.

(** [epochms.FromTime]; [now] is in milliseconds. *)
Definition epochMS (now : Z) : option Z := if now <? 0 then None else Some now.

(** ** Publishing a configuration *)

(** What the tables and the infrastructure give while an operation runs. *)
Record ControlRun := mkControlRun {
  rn_now : Z;
  rn_random : list Z;
  rn_priceTable : Tables -> option PublishedPrices;
  rn_compile : Tables -> option CompiledConfig;
  rn_infrastructure : CompiledConfig -> bool
}.

Definition managerMatches (next : CompiledConfig) (m : Manager) : bool :=
  match m with Some (_, current) => bool_decide (current = next) | None => false end.

(** [publishCompiledLocked], with the groups of the scheduling state. *)
Definition publishCompiledLocked (next : CompiledConfig) : ctl unit := fun w =>
  let revision := match cw_manager w with Some (r, _) => u64 (r + 1) | None => 1 end in
  let r := w_registry (cw_world w) in
  let w := setWorld (setRegistry (setScheduling (SyncGroups (scheduling r) (Some (configSnapshot revision next))) r) (cw_world w)) w in
  (tt, setManager (Some (revision, next)) w).

(** [publishSnapshot], after the infrastructure accepted the configuration. *)
Definition publishSnapshot (run : ControlRun) (next : CompiledConfig) : ctl bool :=
  if rn_infrastructure run next then do! _ := publishCompiledLocked next in ret true else ret false.

(** * Recovery of an operation *)

Definition operationGroupID (o : ControlOperation) : option Z :=
  if bool_decide (co_OperationKind o ∈ [operationKindGroupCreate; operationKindCredentialImport])
  then parseResourceIdentity (co_ResourceIdentity o) "group" else None.

Definition reconcileGroupOnce (groupID now : Z) : io bool :=
  do! entries := BuildGroupCredentialEntriesWithProxy groupID in
  match entries with
  | None => ret false
  | Some entries =>
      do! matches := readRegistry (fun r => MatchesGroup r groupID entries) in
      if matches : bool then ret true
      else onRegistry (fun r => match ReconcileGroup r groupID entries (fun _ => now) with
                                | Ok (r', _) => (r', true)
                                | Err _ => (r, false)
                                end)
  end.

(** The identifiers of the credentials are read to take their locks. *)
Definition recoverRegistryOperation (run : ControlRun) (o : ControlOperation) : ctl bool :=
  match operationGroupID o with
  | None => ret false
  | Some groupID =>
      do! ids := ctlQuery (fun w => cr_ID <$> groupRows groupID (w_rows (cw_world w))) in
      match ids with
      | None => ret false
      | Some _ => onWorld (reconcileGroupOnce groupID (rn_now run * millisecond))
      end
  end.

Definition recoverPrices (run : ControlRun) : ctl bool :=
  do! table := ctlQuery (fun w => rn_priceTable run (tablesOf w)) in
  match table with
  | Some (Some table) => fun w => (true, setPrices (Some table) w)
  | _ => ret false
  end.

Definition recoverSnapshot (run : ControlRun) : ctl bool :=
  do! input := ctlQuery (fun w => rn_compile run (tablesOf w)) in
  match input with
  | Some (Some next) =>
      do! matches := fun w => (managerMatches next (cw_manager w), w) in
      if matches : bool then ret true else publishSnapshot run next
  | _ => ret false
  end.

Definition recoverStage (run : ControlRun) (o : ControlOperation) (stage : string) : ctl bool :=
  if bool_decide (stage = operationStagePricesPublished) then recoverPrices run
  else if bool_decide (stage = operationStageRegistryApplied) then recoverRegistryOperation run o
  else if bool_decide (stage = operationStageSnapshotPublished) then recoverSnapshot run
  else ret (bool_decide (stage = operationStageCompleted)).

(** The row of an operation, where it is in the stage the caller knows. *)
Definition advanceOperationStageLocked (run : ControlRun) (o : ControlOperation) (stage : string)
  : ctl (result controlError ControlOperation) :=
  match epochMS (rn_now run) with
  | None => ret (Err ErrInternalServer)
  | Some nowMS =>
      do! updated := withControlTransaction (fun w =>
        match cw_operations w !! co_CommitSequence o with
        | Some row =>
            if bool_decide (co_LastCompletedStage row = co_LastCompletedStage o)
            then Ok (tt, setOperations (<[co_CommitSequence o := advanced stage nowMS row]> (cw_operations w)) w)
            else Err ErrInternalServer
        | None => Err ErrInternalServer
        end) in
      ret (match updated with Ok _ => Ok (advanced stage nowMS o) | Err e => Err e end)
  end.

(** The operation as the caller knows it afterwards. *)
Definition recordOperationFailureLocked (run : ControlRun) (o : ControlOperation) (stage : string) : ctl ControlOperation :=
  match epochMS (rn_now run) with
  | None => ret o
  | Some nowMS =>
      do! updated := withControlTransaction (fun w =>
        Ok (tt, setOperations (alter (failedAt stage nowMS) (co_CommitSequence o) (cw_operations w)) w)) in
      ret (match updated with Ok _ => failedAt stage nowMS o | Err _ => o end)
  end.

Fixpoint runStages (run : ControlRun) (stages : list string) (o : ControlOperation) : ctl (bool * ControlOperation) :=
  match stages with
  | [] => ret (true, o)
  | stage :: rest =>
      do! done_ := recoverStage run o stage in
      if done_ : bool then
        do! moved := advanceOperationStageLocked run o stage in
        match moved with
        | Ok o => runStages run rest o
        | Err _ => do! o := recordOperationFailureLocked run o stage in ret (false, o)
        end
      else do! o := recordOperationFailureLocked run o stage in ret (false, o)
  end.

Definition validateRecoverableOperation (o : ControlOperation) : bool :=
  (co_DigestVersion o =? 1) && (slen (co_RequestDigest o) =? 32) && operationKindValid (co_OperationKind o)
  && bool_decide (co_CompactedAtMS o = None) && validateIdempotencyKey (co_OperationID o) && validateIdempotencyKey (co_IdempotencyKey o)
  && validateOperationResourceIdentity (co_OperationKind o) (co_ResourceIdentity o) && negb (bool_decide (co_CanonicalResult o = ""))
  && bool_decide (Canonicalize (co_CanonicalResult o) = Some (co_CanonicalResult o)).

Fixpoint stageIndex (stages : list string) (stage : string) : option nat :=
  match stages with
  | [] => None
  | s :: rest => if bool_decide (s = stage) then Some 0%nat else S <$> stageIndex rest stage
  end.

(** The results: whether there was no error, and the operation as the caller knows it. *)
Definition recoverOperationLocked (run : ControlRun) (o : ControlOperation) : ctl (bool * ControlOperation) :=
  if negb (validateRecoverableOperation o) then ret (false, o)
  else
    match operationRequiredStages (co_OperationKind o), co_RequiredStages o with
    | Some wantStages, Some storedStages =>
        if negb (bool_decide (storedStages = wantStages)) then ret (false, o)
        else
          match stageIndex storedStages (co_LastCompletedStage o) with
          | None => ret (false, o)
          | Some currentIndex => runStages run (drop (S currentIndex) storedStages) o
          end
    | _, _ => ret (false, o)
    end.

(** ** Pending operations *)

Definition sequenceLe (a b : ControlOperation) : Prop := co_CommitSequence a <= co_CommitSequence b.
#[global] Instance sequenceLe_dec a b : Decision (sequenceLe a b).
Proof. unfold sequenceLe. apply _. Defined.

Definition pendingBefore (before : Z) (o : ControlOperation) : Prop :=
  co_CompletedAtMS o = None /\ (before = 0 \/ co_CommitSequence o < before).
#[global] Instance pendingBefore_dec before o : Decision (pendingBefore before o).
Proof. unfold pendingBefore. apply _. Defined.

Definition pendingOperations (before : Z) (ops : gmap Z ControlOperation) : list ControlOperation :=
  merge_sort sequenceLe (filter (pendingBefore before) (map_to_list ops).*2).

Fixpoint recoverAll (run : ControlRun) (operations : list ControlOperation) : ctl (option ControlOperation) :=
  match operations with
  | [] => ret None
  | o :: rest =>
      do! (recovered, o) := recoverOperationLocked run o in
      if recovered : bool then recoverAll run rest else ret (Some o)
  end.

Definition recoveryPendingError (o : ControlOperation) : controlError :=
  ErrControlRecoveryPending (co_OperationID o) (co_OperationKind o) (co_FailedStage o) (Z.quot operationRecoveryInitialBackoff millisecond).

(** [recoverPendingOperationsLocked] and the error the barrier makes of its result. *)
Definition enforceOperationRecoveryBarrierLocked (run : ControlRun) (before : Z) : ctl (option controlError) :=
  do! operations := ctlQuery (fun w => pendingOperations before (cw_operations w)) in
  match operations with
  | None => ret (Some ErrDatabase)
  | Some operations =>
      do! blocked := recoverAll run operations in
      ret (recoveryPendingError <$> blocked)
  end.

(** [DrainCommittedOperations], up to the quota observations it restores afterwards. *)
Definition DrainCommittedOperations (run : ControlRun) : ctl (option controlError) :=
  enforceOperationRecoveryBarrierLocked run 0.

(** * Executing an operation *)

Record idempotentOperationInput := mkOperationInput {
  oi_IdempotencyKey : string;
  oi_DigestVersion : Z;
  oi_RequestDigest : string;
  oi_Kind : string;
  oi_Mutate : option (Tables -> result controlError (idempotentMutationResult * Tables))
}.

Definition validateOperationComparator (o : ControlOperation) (input : idempotentOperationInput) : option controlError :=
  if negb (co_DigestVersion o =? 1) || negb (oi_DigestVersion input =? 1)
     || negb (slen (co_RequestDigest o) =? slen (oi_RequestDigest input)) || negb (operationKindValid (co_OperationKind o))
  then Some ErrInternalServer
  else if negb (bool_decide (co_RequestDigest o = oi_RequestDigest input))
  then Some (ErrIdempotencyKeyReused (co_OperationID o) (co_OperationKind o))
  else None.

Definition operationIncompleteError (o : ControlOperation) : controlError :=
  ErrControlOperationIncomplete (co_OperationID o) (co_OperationKind o) (co_LastCompletedStage o) (co_FailedStage o).

Definition replayResult (o : ControlOperation) : result controlError idempotentOperationResult :=
  if bool_decide (co_CompletedAtMS o = None) || bool_decide (co_CanonicalResult o = "") then Err ErrInternalServer
  else Ok (mkOperationResult (co_OperationID o) (co_ResourceIdentity o) (co_CanonicalResult o) true None).

Definition replayIdempotentOperationLocked (run : ControlRun) (o : ControlOperation) (input : idempotentOperationInput)
  : ctl (result controlError idempotentOperationResult) :=
  match validateOperationComparator o input with
  | Some e => ret (Err e)
  | None =>
      match co_CompactedAtMS o with
      | Some _ =>
          ret (Err (match co_CompletedAtMS o with
                    | None => ErrInternalServer
                    | Some completedAt =>
                        if (completedAt <? 0) || (maxSafeMilliseconds <? completedAt) then ErrInternalServer
                        else ErrIdempotencyResultExpired (co_OperationID o) (co_OperationKind o) (co_ResourceIdentity o) completedAt
                    end))
      | None =>
          if bool_decide (co_LastCompletedStage o = operationStageCompleted) then ret (replayResult o)
          else
            do! (recovered, o) := recoverOperationLocked run o in
            if recovered : bool then ret (replayResult o)
            else
              do! _ := wakeOperationRecovery in
              ret (Err (operationIncompleteError o))
      end
  end.

(** The unique indexes of the table. *)
Definition uniqueOperation (o : ControlOperation) (ops : gmap Z ControlOperation) : bool :=
  forallb (fun row => negb (bool_decide (co_OperationID row = co_OperationID o)) && negb (bool_decide (co_IdempotencyKey row = co_IdempotencyKey o)))
    (map_to_list ops).*2.

(** [tx.Create], with the sequence number of the database. *)
Definition createOperation (o : Z -> ControlOperation) (w : ControlWorld) : result controlError (ControlOperation * ControlWorld) :=
  let sequence := cw_sequence w + 1 in
  let o := o sequence in
  if uniqueOperation o (cw_operations w) then
    Ok (o, mkControlWorld (cw_world w) (cw_rest w) (<[sequence := o]> (cw_operations w)) sequence (cw_prices w) (cw_manager w)
             (cw_woken w) (cw_commits w ++ [mkCommit (co_IdempotencyKey o) (co_RequestDigest o) (co_OperationID o)
                                             (co_ResourceIdentity o) (co_CanonicalResult o)]))
  else Err ErrDatabase.

(** The body of the transaction. *)
Definition mutateBody (run : ControlRun) (input : idempotentOperationInput) (operationID : string) (stages : list string)
    (mutate : Tables -> result controlError (idempotentMutationResult * Tables)) (w : ControlWorld)
  : result controlError (ControlOperation * option string * ControlWorld) :=
  try! mutated := mutate (tablesOf w) in
  let '(r, t) := mutated in
  if bool_decide (mr_ResourceIdentity r = "") || bool_decide (mr_CanonicalResult r = "") then Err ErrInternalServer
  else if negb (bool_decide (Canonicalize (mr_CanonicalResult r) = Some (mr_CanonicalResult r))) then Err ErrInternalServer
  else
    match epochMS (rn_now run) with
    | None => Err ErrInternalServer
    | Some nowMS =>
        try! created := createOperation (fun sequence =>
          mkOperation sequence operationID (oi_IdempotencyKey input) (oi_DigestVersion input) (oi_RequestDigest input) (oi_Kind input)
            (mr_ResourceIdentity r) (mr_CanonicalResult r) (Some stages) operationStageDBCommitted "" None None nowMS nowMS)
          (setTables t w) in
        Ok (created.1, mr_Ephemeral r, created.2)
    end.

Definition executeNew (run : ControlRun) (input : idempotentOperationInput)
    (mutate : Tables -> result controlError (idempotentMutationResult * Tables)) : ctl (result controlError idempotentOperationResult) :=
  match operationRequiredStages (oi_Kind input), newOperationID (rn_random run) with
  | Some requiredStages, Some operationID =>
      do! committed := withControlTransaction (mutateBody run input operationID requiredStages mutate) in
      match committed with
      | Err e => ret (Err e)
      | Ok (o, ephemeral) =>
          do! (recovered, o) := recoverOperationLocked run o in
          if recovered : bool
          then ret (Ok (mkOperationResult (co_OperationID o) (co_ResourceIdentity o) (co_CanonicalResult o) false ephemeral))
          else
            do! _ := wakeOperationRecovery in
            ret (Err (operationIncompleteError o))
      end
  | _, _ => ret (Err ErrInternalServer)
  end.

Definition findOperation (key : string) (ops : gmap Z ControlOperation) : option ControlOperation :=
  List.find (fun o => bool_decide (co_IdempotencyKey o = key)) (map_to_list ops).*2.

Definition executeIdempotentOperation (run : ControlRun) (input : idempotentOperationInput)
  : ctl (result controlError idempotentOperationResult) :=
  if negb (validateIdempotencyKey (oi_IdempotencyKey input)) then ret (Err ErrInvalidIdempotencyKey)
  else
    match oi_Mutate input with
    | None => ret (Err ErrInternalServer)
    | Some mutate =>
        if negb (oi_DigestVersion input =? 1) || negb (operationKindValid (oi_Kind input)) then ret (Err ErrInternalServer)
        else
          do! existing := ctlQuery (fun w => findOperation (oi_IdempotencyKey input) (cw_operations w)) in
          match existing with
          | None => ret (Err ErrDatabase)
          | Some (Some o) =>
              match validateOperationComparator o input with
              | Some e => ret (Err e)
              | None =>
                  do! blocked := enforceOperationRecoveryBarrierLocked run (co_CommitSequence o) in
                  match blocked with Some e => ret (Err e) | None => replayIdempotentOperationLocked run o input end
              end
          | Some None =>
              do! blocked := enforceOperationRecoveryBarrierLocked run 0 in
              match blocked with Some e => ret (Err e) | None => executeNew run input mutate end
          end
    end.

(** * Compaction *)

Definition compactable (cutoffMS : Z) (o : ControlOperation) : bool :=
  match co_CompletedAtMS o with
  | Some completedAt => (completedAt <=? cutoffMS) && bool_decide (co_CompactedAtMS o = None)
  | None => false
  end.

Definition compactCompletedOperationsLocked (now : Z) : ctl (result controlError unit) :=
  match epochMS now with
  | None => ret (Err ErrInternalServer)
  | Some nowMS =>
      let cutoffMS := default 0 (epochMS (now - operationResultRetention)) in
      withControlTransaction (fun w =>
        Ok (tt, setOperations ((fun o => if compactable cutoffMS o then compacted nowMS o else o) <$> cw_operations w) w))
  end.

End Control.

(** * Identifiers and digests

    Identifiers and digests of idempotent operations: generated identifiers are valid keys, and the
    framing of a request is unambiguous. *)

(** * Identifiers *)

(** A fact about bytes that a computation checks. *)
Lemma every_byte (P : Z -> bool) : forallb (fun n => P (Z.of_nat n)) (seq 0 256) = true -> forall b, 0 <= b < 256 -> P b = true.
Proof.
  intros Hall b Hb. rewrite forallb_forall in Hall. replace b with (Z.of_nat (Z.to_nat b)) by lia. apply Hall. apply in_seq. lia.
Qed.

Definition hexPair (b : Z) : bool := lowerHex (hexDigit (Z.shiftr b 4)) && lowerHex (hexDigit (Z.land b 15)).

Lemma hexPair_ok b : 0 <= b < 256 -> lowerHex (hexDigit (Z.shiftr b 4)) = true /\ lowerHex (hexDigit (Z.land b 15)) = true.
Proof. intros Hb. apply andb_true_iff. apply (every_byte hexPair); [vm_compute; reflexivity|done]. Qed.

Definition versionByte (b : Z) : Z := Z.lor (Z.land b 15) 64.
Definition variantByte (b : Z) : Z := Z.lor (Z.land b 63) 128.

Lemma versionByte_ok b : 0 <= b < 256 -> 0 <= versionByte b < 256 /\ byteZ (hexDigit (Z.shiftr (versionByte b) 4)) = 52.
Proof.
  intros Hb. pose proof (every_byte (fun b => (0 <=? versionByte b) && (versionByte b <? 256) && (byteZ (hexDigit (Z.shiftr (versionByte b) 4)) =? 52))
    ltac:(vm_compute; reflexivity) b Hb) as Hv. cbn beta in Hv. rewrite !andb_true_iff, Z.eqb_eq in Hv. split; [lia|tauto].
Qed.

Definition variantCheck (b : Z) : bool :=
  (0 <=? variantByte b) && (variantByte b <? 256) && bool_decide (byteZ (hexDigit (Z.shiftr (variantByte b) 4)) ∈ [56; 57; 97; 98]).

Lemma variantByte_ok b : 0 <= b < 256 ->
  0 <= variantByte b < 256 /\ byteZ (hexDigit (Z.shiftr (variantByte b) 4)) ∈ [56; 57; 97; 98].
Proof.
  intros Hb. assert (variantCheck b = true) as Hv by (apply every_byte; [vm_compute; reflexivity|done]).
  unfold variantCheck in Hv. rewrite !andb_true_iff, bool_decide_eq_true in Hv. split; [lia|tauto].
Qed.

(** Sixteen random bytes give a valid key, so that the identifier of an operation passes the check
    its recovery makes. *)
Lemma newOperationID_valid random :
  (16 <= length random)%nat -> Forall (fun b => 0 <= b < 256) random ->
  exists id, newOperationID random = Some id /\ validateIdempotencyKey id = true.
Proof.
  intros Hlen Hb. unfold newOperationID. rewrite (proj2 (Nat.ltb_ge _ _)) by done. eexists. split; [reflexivity|].
  do 16 (destruct random as [|? random]; [cbn in Hlen; lia|]). cbn [take nth insert list_insert].
  repeat (apply Forall_cons in Hb as [? Hb]).
  fold (versionByte z5) (variantByte z7). pose proof (versionByte_ok z5 ltac:(done)) as [? Hver]. pose proof (variantByte_ok z7 ltac:(done)) as [? Hvar].
  unfold validateIdempotencyKey, slen, keyByte. rewrite bytes_of_of_bytes.
  cbn [hexEncode mjoin list_join fmap list_fmap hexByte app take drop length lookup list_lookup zip zip_with seq forallb hyphenAt].
  rewrite Hver, (bool_decide_eq_true_2 _ Hvar).
  repeat match goal with Hz : 0 <= ?b < 256 |- _ => destruct (hexPair_ok b Hz) as [-> ->]; clear Hz end.
  vm_compute. reflexivity.
Qed.

(** * Digests *)

Definition readBigEndian (l : list ascii) : Z := fold_left (fun acc c => 256 * acc + byteZ c) l 0.

Lemma byteZ_ascii n : 0 <= n < 256 -> byteZ (ascii_of_N (Z.to_N n)) = n.
Proof. intros Hn. unfold byteZ. rewrite N_ascii_embedding by lia. lia. Qed.

Lemma readBigEndian_write n : 0 <= n < 4294967296 -> readBigEndian (bigEndian32 n) = n.
Proof.
  intros Hn. unfold readBigEndian, bigEndian32. cbn [fmap list_fmap fold_left].
  assert (forall m, Z.land m 255 = m mod 256) as Hl by (intros m; apply (Z.land_ones m 8); lia).
  rewrite !Hl, !byteZ_ascii by (apply Z.mod_pos_bound; lia). rewrite !Z.shiftr_div_pow2 by lia.
  change (2 ^ 24) with 16777216. change (2 ^ 16) with 65536. change (2 ^ 8) with 256. change (2 ^ 0) with 1.
  Z.to_euclidean_division_equations; lia.
Qed.

(** Frames of the same number of fields are the same only for the same fields. *)
Lemma frameFields_inj l l' f : length l = length l' -> frameFields l = Some f -> frameFields l' = Some f -> l = l'.
Proof.
  revert l' f. induction l as [|x l IH]; intros [|x' l'] f Hlen; cbn [frameFields length] in *; try discriminate; [done|].
  destruct (Z.ltb_spec 4294967295 (Z.of_nat (length x))); [done|]. destruct (Z.ltb_spec 4294967295 (Z.of_nat (length x'))); [done|].
  destruct (frameFields l) as [g|] eqn:El; [|done]. destruct (frameFields l') as [g'|] eqn:El'; [|done]. intros Hf E. apply (inj Some) in Hf, E. subst f.
  apply (app_inj_1 (bigEndian32 (Z.of_nat (length x'))) (bigEndian32 (Z.of_nat (length x)))) in E as [Eb E]; [|done].
  apply (f_equal readBigEndian) in Eb. rewrite !readBigEndian_write in Eb by lia.
  apply app_inj_1 in E as [-> ->]; [|lia]. f_equal. by apply (IH l' g); [lia|..].
Qed.

(** Two requests have the same digest only if they are the same in every field: method, kind,
    path, resource, scope and body; nothing of one field can pass for a part of another.  Of the
    hash this needs that it separates the two framed inputs. *)
Theorem digest_separates `{DigestPlatform} a b digest digest' framed framed' :
  buildIdempotencyDigest a = Some (digest, framed) -> buildIdempotencyDigest b = Some (digest', framed') ->
  (sha256 framed = sha256 framed' -> framed = framed') -> digest = digest' -> a = b.
Proof.
  assert (forall i d f, buildIdempotencyDigest i = Some (d, f) ->
    exists g, di_Version i = 1 /\ frameFields (digestFields i) = Some g /\ f = bytes_of idempotencyDigestDomain ++ Ascii.zero :: g /\ d = sha256 f) as Hinv.
  { intros i d f. unfold buildIdempotencyDigest. destruct (Z.eqb_spec (di_Version i) 1) as [Hv|]; [|done]. cbn [negb].
    destruct (_ || _); [done|]. destruct (_ || _); [done|]. destruct (negb _); [done|]. destruct (Canonicalize _) as [c|]; [|done].
    destruct (negb _); [done|]. destruct (frameFields (digestFields i)) as [g|]; [|done]. intros [= <- <-]. by exists g. }
  intros (g & Hva & Hga & -> & ->)%Hinv (g' & Hvb & Hgb & -> & ->)%Hinv Hsep Heq%Hsep.
  apply app_inv_head in Heq. injection Heq as <-. pose proof (frameFields_inj (digestFields a) (digestFields b) g eq_refl Hga Hgb) as Hf. unfold digestFields in Hf.
  injection Hf as _ H1 H2 H3 H4 H5 H6. destruct a, b. cbn in *. apply bytes_of_inj in H1, H2, H3, H4, H5, H6. congruence.
Qed.

(** * Example *)

(** Requests in ASCII; the hash is the framed text itself. *)
Definition exDigestPlatform : DigestPlatform := {|
  ToUpper := fun s => s; utf8Valid := fun _ => true; Canonicalize := Some; sha256 := of_bytes |}.

Definition exRotate (id : string) : idempotencyDigestInput :=
  mkDigestInput 1 "POST" operationKindAccessKeyRotate "/api/access-keys/:id/rotate" id "control-admin-v1" "{}".

Lemma digest_separates_witness :
  let build := @buildIdempotencyDigest exDigestPlatform in
  build (exRotate "access-key:7") <> build (exRotate "access-key:8") /\ is_Some (build (exRotate "access-key:7")).
Proof.
  intros build. destruct (build (exRotate "access-key:7")) as [[d f]|] eqn:E1; [|vm_compute in E1; discriminate].
  destruct (build (exRotate "access-key:8")) as [[d' f']|] eqn:E2; [|vm_compute in E2; discriminate]. split; [|by eexists].
  intros [= <- <-].
  pose proof (@digest_separates exDigestPlatform (exRotate "access-key:7") (exRotate "access-key:8") d d f f E1 E2 (fun _ => eq_refl) eq_refl) as H.
  discriminate H.
Defined.
