(* ===== verification/IdempotencyProps.v ===== *)
(** A mutation takes effect once.  However requests are repeated, whatever transactions fail or are
    committed although they fail, and wherever the process restarts: the mutation of a key is
    committed at most once, every successful answer for a key is the same, and no mutation is
    accepted while an earlier one is unfinished. *)
From Stdlib Require Import Ascii.
From S2P Require Import Prelude GoStrings Config Credential Ledger Registry Refresh Idempotency.

Local Open Scope go_scope.
Local Open Scope Z_scope.

Section Once.
Context `{GoText} `{SubscriptionPlatform} `{DigestPlatform} `{ControlPlane}.
Implicit Types (w : ControlWorld) (o : ControlOperation) (run : ControlRun).
Abbreviation ctl := (stateM ControlWorld) (only parsing).

(** * Evolution of the rows *)

(** [o'] is a later state of the row [o]. *)
Record later o o' : Prop := {
  lt_sequence : co_CommitSequence o' = co_CommitSequence o;
  lt_id : co_OperationID o' = co_OperationID o;
  lt_key : co_IdempotencyKey o' = co_IdempotencyKey o;
  lt_digest : co_RequestDigest o' = co_RequestDigest o;
  lt_identity : co_ResourceIdentity o' = co_ResourceIdentity o;
  lt_result : co_CompactedAtMS o' = None -> co_CompactedAtMS o = None /\ co_CanonicalResult o' = co_CanonicalResult o;
  lt_completed : is_Some (co_CompletedAtMS o) -> is_Some (co_CompletedAtMS o');
  lt_last : (co_LastCompletedStage o = operationStageCompleted -> is_Some (co_CompletedAtMS o)) ->
    co_LastCompletedStage o' = operationStageCompleted -> is_Some (co_CompletedAtMS o')
}.

Lemma later_refl o : later o o.
Proof. split; auto. Qed.

Lemma later_trans o1 o2 o3 : later o1 o2 -> later o2 o3 -> later o1 o3.
Proof. intros [] []. split; try congruence; try tauto. naive_solver congruence. Qed.

Lemma later_advanced stage now o : later o (advanced stage now o).
Proof. destruct o. split; cbn; auto; intros; by case_bool_decide. Qed.

Lemma later_failed stage now o : later o (failedAt stage now o).
Proof. destruct o. split; cbn; auto. Qed.

Lemma later_compacted now o : is_Some (co_CompletedAtMS o) -> later o (compacted now o).
Proof. intros Hc. destruct o. split; cbn; auto; try done. Qed.

Record evolves w w' : Prop := {
  ev_sequence : cw_sequence w' = cw_sequence w;
  ev_commits : cw_commits w' = cw_commits w;
  ev_rows : forall seq, option_Forall2 later (cw_operations w !! seq) (cw_operations w' !! seq)
}.

Lemma evolves_same w w' :
  cw_sequence w' = cw_sequence w -> cw_commits w' = cw_commits w -> cw_operations w' = cw_operations w -> evolves w w'.
Proof. intros Hs Hc Ho. split; [done|done|]. intros seq. rewrite Ho. destruct (cw_operations w !! seq); constructor. apply later_refl. Qed.

Lemma evolves_trans w1 w2 w3 : evolves w1 w2 -> evolves w2 w3 -> evolves w1 w3.
Proof.
  intros [Hs Hc Hr] [Hs' Hc' Hr']. split; [congruence..|]. intros seq. specialize (Hr seq). specialize (Hr' seq).
  destruct (cw_operations w1 !! seq), (cw_operations w2 !! seq), (cw_operations w3 !! seq); inversion Hr; inversion Hr'; constructor.
  by eapply later_trans.
Qed.

Lemma evolves_onward w w' seq o : evolves w w' -> cw_operations w !! seq = Some o -> exists o', cw_operations w' !! seq = Some o' /\ later o o'.
Proof. intros [_ _ Hr] Ho. specialize (Hr seq). rewrite Ho in Hr. inversion Hr; eauto. Qed.

Lemma evolves_backward w w' seq o' : evolves w w' -> cw_operations w' !! seq = Some o' -> exists o, cw_operations w !! seq = Some o /\ later o o'.
Proof. intros [_ _ Hr] Ho. specialize (Hr seq). rewrite Ho in Hr. inversion Hr; eauto. Qed.

(** A change of the rows one by one. *)
Lemma evolves_rows w ops : (forall seq, option_Forall2 later (cw_operations w !! seq) (ops !! seq)) -> evolves w (setOperations ops w).
Proof. by intros Hr. Qed.

(** * Computations that only move rows onward *)

Definition onward {A} (m : ctl A) : Prop := forall w, evolves w (m w).2.

Lemma onward_bind {A B} (m : ctl A) (k : A -> ctl B) : onward m -> (forall a, onward (k a)) -> onward (do! x := m in k x).
Proof.
  intros Hm Hk w. specialize (Hm w). unfold bindIO. destruct (m w) as [a w1]. eapply evolves_trans; [exact Hm|]. apply Hk.
Qed.

Lemma onward_ret {A} (a : A) : onward (ret a).
Proof. intros w. by apply evolves_same. Qed.

Lemma onward_if {A} (b : bool) (m n : ctl A) : onward m -> onward n -> onward (if b then m else n).
Proof. by destruct b. Qed.

Lemma onward_world {A} (m : io A) : onward (onWorld m).
Proof. intros w. unfold onWorld. destruct (m (cw_world w)) as [a v]. by apply evolves_same. Qed.

Lemma onward_query {A} (f : ControlWorld -> A) : onward (ctlQuery f).
Proof.
  intros w. unfold ctlQuery. pose proof (onward_world nextOutcome w) as Hn. by destruct (onWorld nextOutcome w) as [[] w1].
Qed.

Lemma onward_transaction {A} (body : ControlWorld -> result controlError (A * ControlWorld)) :
  (forall w a w', body w = Ok (a, w') -> evolves w w') -> onward (withControlTransaction body).
Proof.
  intros Hb w. unfold withControlTransaction. pose proof (onward_world nextOutcome w) as Hn. destruct (onWorld nextOutcome w) as [out w1].
  destruct (body w1) as [[a w2]|e] eqn:E; [|done]. apply Hb in E. destruct out; cbn; [by eapply evolves_trans|done|by eapply evolves_trans].
Qed.

Create HintDb onward.
#[local] Hint Resolve onward_bind onward_ret onward_if onward_world onward_query : onward.

Lemma evolves_insert w seq o o' : cw_operations w !! seq = Some o -> later o o' -> evolves w (setOperations (<[seq := o']> (cw_operations w)) w).
Proof.
  intros Ho Hl. apply evolves_rows. intros k. destruct (decide (k = seq)) as [->|Hne].
  - rewrite lookup_insert_eq, Ho. by constructor.
  - rewrite lookup_insert_ne by done. destruct (cw_operations w !! k); constructor. apply later_refl.
Qed.

Lemma evolves_map w (f : ControlOperation -> ControlOperation) : (forall o, later o (f o)) -> evolves w (setOperations (f <$> cw_operations w) w).
Proof. intros Hf. apply evolves_rows. intros k. rewrite lookup_fmap. destruct (cw_operations w !! k); constructor. apply Hf. Qed.

Lemma evolves_alter w seq (f : ControlOperation -> ControlOperation) : (forall o, later o (f o)) ->
  evolves w (setOperations (alter f seq (cw_operations w)) w).
Proof.
  intros Hf. apply evolves_rows. intros k. destruct (decide (k = seq)) as [->|Hne].
  - rewrite lookup_alter_eq. destruct (cw_operations w !! seq); constructor. apply Hf.
  - rewrite lookup_alter_ne by done. destruct (cw_operations w !! k); constructor. apply later_refl.
Qed.

Lemma onward_stage run o stage : onward (recoverStage run o stage).
Proof.
  unfold recoverStage, recoverPrices, recoverRegistryOperation, recoverSnapshot, publishSnapshot.
  repeat (case_bool_decide; [|]); auto with onward.
  - apply onward_bind; [auto with onward|]. intros [[t|]|]; auto with onward. intros w. by apply evolves_same.
  - destruct (operationGroupID o); auto with onward. apply onward_bind; [auto with onward|]. intros [l|]; auto with onward.
  - apply onward_bind; [auto with onward|]. intros [[next|]|]; auto with onward. apply onward_bind; [intros w; by apply evolves_same|].
    intros b. apply onward_if; [auto with onward|]. apply onward_if; [|auto with onward].
    apply onward_bind; [intros w; by apply evolves_same|auto with onward].
Qed.

Lemma onward_advance run o stage : onward (advanceOperationStageLocked run o stage).
Proof.
  unfold advanceOperationStageLocked. destruct (epochMS _); [|auto with onward]. apply onward_bind; [|auto with onward].
  apply onward_transaction. intros w a w'. destruct (cw_operations w !! co_CommitSequence o) as [row|] eqn:E; [|done].
  case_bool_decide; [|done]. intros [= _ <-]. by eapply evolves_insert, later_advanced.
Qed.

Lemma onward_failure run o stage : onward (recordOperationFailureLocked run o stage).
Proof.
  unfold recordOperationFailureLocked. destruct (epochMS _); [|auto with onward]. apply onward_bind; [|auto with onward].
  apply onward_transaction. intros w a w' [= _ <-]. apply evolves_alter. intros. apply later_failed.
Qed.
#[local] Hint Resolve onward_stage onward_advance onward_failure : onward.

Lemma onward_stages run stages o : onward (runStages run stages o).
Proof.
  revert o. induction stages as [|s stages IH]; intros o; cbn [runStages]; auto with onward.
  apply onward_bind; [auto with onward|]. intros b. apply onward_if; [|auto with onward].
  apply onward_bind; [auto with onward|]. intros [o'|e]; auto with onward.
Qed.
#[local] Hint Resolve onward_stages : onward.

Lemma onward_recover run o : onward (recoverOperationLocked run o).
Proof.
  unfold recoverOperationLocked. apply onward_if; [auto with onward|]. destruct (operationRequiredStages _), (co_RequiredStages o); auto with onward.
  apply onward_if; [auto with onward|]. destruct (stageIndex _ _); auto with onward.
Qed.
#[local] Hint Resolve onward_recover : onward.

Lemma onward_recoverAll run l : onward (recoverAll run l).
Proof.
  induction l as [|o l IH]; cbn [recoverAll]; auto with onward. apply onward_bind; [auto with onward|]. intros [[] o']; auto with onward.
Qed.
#[local] Hint Resolve onward_recoverAll : onward.

Lemma onward_barrier run before : onward (enforceOperationRecoveryBarrierLocked run before).
Proof. unfold enforceOperationRecoveryBarrierLocked. apply onward_bind; [auto with onward|]. intros [l|]; auto with onward. Qed.

Lemma onward_wake : onward wakeOperationRecovery.
Proof. intros w. by apply evolves_same. Qed.
#[local] Hint Resolve onward_barrier onward_wake : onward.

Lemma onward_replay run o input : onward (replayIdempotentOperationLocked run o input).
Proof.
  unfold replayIdempotentOperationLocked. destruct (validateOperationComparator _ _); auto with onward. destruct (co_CompactedAtMS o); auto with onward.
  apply onward_if; [auto with onward|]. apply onward_bind; [auto with onward|]. intros [[] o']; auto with onward.
Qed.

Lemma onward_compact now : onward (compactCompletedOperationsLocked now).
Proof.
  unfold compactCompletedOperationsLocked. destruct (epochMS now); [|auto with onward]. apply onward_transaction. intros w a w' [= _ <-].
  apply evolves_map. intros o. unfold compactable. destruct (co_CompletedAtMS o) eqn:E; [|apply later_refl].
  case_match; [|apply later_refl]. apply later_compacted. by rewrite E.
Qed.

(** * Completion *)

Definition completedAt (seq : Z) w : Prop := exists o, cw_operations w !! seq = Some o /\ is_Some (co_CompletedAtMS o).

Lemma completedAt_later seq w w' : evolves w w' -> completedAt seq w -> completedAt seq w'.
Proof.
  intros He (o & Ho & Hc). destruct (evolves_onward w w' seq o He Ho) as (o' & Ho' & Hl). exists o'. split; [done|]. by apply (lt_completed o o' Hl).
Qed.

Lemma transaction_ok {A} (body : ControlWorld -> result controlError (A * ControlWorld)) w a w' :
  withControlTransaction body w = (Ok a, w') -> body (onWorld nextOutcome w).2 = Ok (a, w').
Proof.
  unfold withControlTransaction. destruct (onWorld nextOutcome w) as [out w1]. cbn. destruct (body w1) as [[b w2]|e]; [|done].
  destruct out; [by intros [= -> ->]|done|done].
Qed.

Lemma advance_ok run o stage w o' w' : advanceOperationStageLocked run o stage w = (Ok o', w') ->
  exists now row, o' = advanced stage now o /\ cw_operations w' !! co_CommitSequence o = Some (advanced stage now row).
Proof.
  unfold advanceOperationStageLocked. destruct (epochMS (rn_now run)) as [now|]; [|done]. unfold bindIO.
  destruct (withControlTransaction _ w) as [[[]|e] w1] eqn:E; [|done]. intros [= <- <-]. apply transaction_ok in E.
  destruct (cw_operations _ !! _) as [row|]; [|done]. case_bool_decide; [|done]. injection E as <-. exists now, row. split; [done|].
  apply lookup_insert_eq.
Qed.

(** Stages that end with the last one complete the operation, in the table and for the caller. *)
Lemma stages_complete run stages o w o' w' :
  runStages run stages o w = ((true, o'), w') -> last stages = Some operationStageCompleted ->
  later o o' /\ co_CompactedAtMS o' = co_CompactedAtMS o /\ is_Some (co_CompletedAtMS o') /\ completedAt (co_CommitSequence o) w'.
Proof.
  revert o w. induction stages as [|s stages IH]; intros o w; [done|]. cbn [runStages]. unfold bindIO at 1.
  destruct (recoverStage run o s w) as [[] w1]; [|unfold bindIO; by destruct (recordOperationFailureLocked _ _ _ w1)].
  unfold bindIO at 1. destruct (advanceOperationStageLocked run o s w1) as [[o1|e] w2] eqn:Ea;
    [|unfold bindIO; by destruct (recordOperationFailureLocked _ _ _ w2)].
  destruct (advance_ok run o s w1 o1 w2 Ea) as (now & row & -> & Hrow). intros Hrun Hlast. destruct stages as [|s' stages].
  - injection Hlast as ->. injection Hrun as <- <-. split; [apply later_advanced|]. destruct o, row. cbn in *.
    split; [done|]. split; [done|]. eexists. by split.
  - destruct (IH _ _ Hrun Hlast) as (Hl & Hcm & Hc & Hd). split; [eapply later_trans; [apply later_advanced|exact Hl]|].
    by destruct o.
Qed.

Lemma requiredStages_last kind stages : operationRequiredStages kind = Some stages -> last stages = Some operationStageCompleted.
Proof. unfold operationRequiredStages. repeat case_match; intros [= <-]; done. Qed.

Lemma stageIndex_lookup stages stage i : stageIndex stages stage = Some i -> stages !! i = Some stage.
Proof.
  revert i. induction stages as [|s stages IH]; intros i; cbn; [done|]. case_bool_decide; [by intros [= <-]; subst|].
  destruct (stageIndex stages stage) as [j|]; [|done]. intros [= <-]. by apply IH.
Qed.

Lemma last_drop {A} (l : list A) n x : last l = Some x -> (n < length l)%nat -> last (drop n l) = Some x.
Proof. intros Hl Hn. rewrite last_lookup in *. rewrite length_drop, lookup_drop. by replace (n + pred (length l - n))%nat with (pred (length l)) by lia. Qed.

Lemma recover_complete run o w o' w' :
  recoverOperationLocked run o w = ((true, o'), w') -> co_LastCompletedStage o <> operationStageCompleted ->
  later o o' /\ co_CompactedAtMS o' = co_CompactedAtMS o /\ is_Some (co_CompletedAtMS o') /\ completedAt (co_CommitSequence o) w'.
Proof.
  unfold recoverOperationLocked. destruct (negb _); [done|]. destruct (operationRequiredStages _) as [want|] eqn:Ew; [|done].
  destruct (co_RequiredStages o) as [stored|]; [|done]. case_bool_decide as Hs; [|done]. subst stored. cbn [negb].
  destruct (stageIndex want _) as [i|] eqn:Ei; [|done]. intros Hrun Hne. apply stageIndex_lookup in Ei. apply requiredStages_last in Ew.
  apply (stages_complete run _ o w o' w' Hrun). apply last_drop; [done|]. pose proof (lookup_lt_Some _ _ _ Ei).
  destruct (decide (S i = length want)) as [E|]; [|lia]. exfalso. apply Hne. rewrite last_lookup, <- E in Ew. cbn in Ew. congruence.
Qed.

Lemma recoverAll_complete run l w w' : recoverAll run l w = (None, w') ->
  forall o, o ∈ l -> co_LastCompletedStage o <> operationStageCompleted -> completedAt (co_CommitSequence o) w'.
Proof.
  revert w. induction l as [|x l IH]; intros w; cbn [recoverAll]; [intros _ o Ho; by apply elem_of_nil in Ho|]. unfold bindIO.
  destruct (recoverOperationLocked run x w) as [[[] x'] w1] eqn:E; [|done]. intros Hall o [->|Ho]%elem_of_cons Hne; [|by eapply IH].
  eapply (completedAt_later _ w1); [pose proof (onward_recoverAll run l w1) as Hf; by rewrite Hall in Hf|].
  by apply (recover_complete run x w x' w1 E).
Qed.

(** * The invariant *)

Definition describes (c : commit) o : Prop :=
  cm_Key c = co_IdempotencyKey o /\ cm_Digest c = co_RequestDigest o /\ cm_OperationID c = co_OperationID o
  /\ cm_Identity c = co_ResourceIdentity o /\ (co_CompactedAtMS o = None -> cm_Result c = co_CanonicalResult o).

Lemma describes_later c o o' : describes c o -> later o o' -> describes c o'.
Proof. intros (? & ? & ? & ? & Hr) []. repeat split; try congruence. naive_solver congruence. Qed.

Record table_ok w : Prop := {
  tk_sequence : forall seq o, cw_operations w !! seq = Some o -> co_CommitSequence o = seq /\ 0 < seq <= cw_sequence w;
  tk_start : 0 <= cw_sequence w;
  tk_committed : forall seq o, cw_operations w !! seq = Some o -> exists c, c ∈ cw_commits w /\ describes c o;
  tk_rows : forall c, c ∈ cw_commits w -> exists seq o, cw_operations w !! seq = Some o /\ co_IdempotencyKey o = cm_Key c;
  tk_once : NoDup (cm_Key <$> cw_commits w);
  tk_last : forall seq o, cw_operations w !! seq = Some o -> co_LastCompletedStage o = operationStageCompleted -> is_Some (co_CompletedAtMS o);
  tk_pending : forall seq o, cw_operations w !! seq = Some o -> co_CompletedAtMS o = None -> seq = cw_sequence w
}.

Lemma table_ok_later w w' : evolves w w' -> table_ok w -> table_ok w'.
Proof.
  intros He [T1 T0 T2 T3 T4 T5 T6]. pose proof (evolves_backward w w') as Hb. split.
  - intros seq o' Ho'. destruct (Hb _ _ He Ho') as (o & Ho & Hl). rewrite (lt_sequence _ _ Hl), (ev_sequence _ _ He). by apply T1.
  - by rewrite (ev_sequence _ _ He).
  - intros seq o' Ho'. destruct (Hb _ _ He Ho') as (o & Ho & Hl). destruct (T2 _ _ Ho) as (c & Hc & Hd). exists c.
    rewrite (ev_commits _ _ He). split; [done|]. by eapply describes_later.
  - intros c. rewrite (ev_commits _ _ He). intros Hc. destruct (T3 c Hc) as (seq & o & Ho & Hk).
    destruct (evolves_onward w w' seq o He Ho) as (o' & Ho' & Hl). exists seq, o'. split; [done|]. by rewrite (lt_key _ _ Hl).
  - by rewrite (ev_commits _ _ He).
  - intros seq o' Ho'. destruct (Hb _ _ He Ho') as (o & Ho & Hl). exact (lt_last _ _ Hl (T5 _ _ Ho)).
  - intros seq o' Ho' Hc. destruct (Hb _ _ He Ho') as (o & Ho & Hl). rewrite (ev_sequence _ _ He). apply (T6 _ _ Ho).
    apply eq_None_not_Some. intros Hs%(lt_completed _ _ Hl). rewrite Hc in Hs. by destruct Hs.
Qed.

(** Past the barrier every earlier operation is completed. *)
Lemma barrier_completes run before w w' : table_ok w -> enforceOperationRecoveryBarrierLocked run before w = (None, w') ->
  forall seq o, cw_operations w' !! seq = Some o -> before = 0 \/ seq < before -> is_Some (co_CompletedAtMS o).
Proof.
  intros Hok Hrun seq o' Ho' Hseq. pose proof (onward_barrier run before w) as He. rewrite Hrun in He. cbn in He.
  destruct (evolves_backward w w' seq o' He Ho') as (o & Ho & Hl). destruct (co_CompletedAtMS o) eqn:Ec; [apply (lt_completed _ _ Hl); by rewrite Ec|].
  unfold enforceOperationRecoveryBarrierLocked, bindIO in Hrun. unfold ctlQuery in Hrun.
  destruct (onWorld nextOutcome w) as [out w1] eqn:En. assert (cw_operations w1 = cw_operations w) as Eops.
  { unfold onWorld in En. destruct (nextOutcome (cw_world w)). by injection En as <- <-. }
  destruct out; [|done|done]. destruct (recoverAll run _ w1) as [blocked w2] eqn:Er. destruct blocked; [done|]. injection Hrun as <-.
  assert (co_CommitSequence o = seq) as Es by (by apply (tk_sequence w Hok)).
  destruct (recoverAll_complete run _ w1 w2 Er o) as (x & Hx & Hc); [| |rewrite Es, Ho' in Hx; by injection Hx as <-].
  - rewrite Eops. unfold pendingOperations. rewrite merge_sort_Permutation. apply list_elem_of_filter. split.
    + split; [done|]. by rewrite Es.
    + apply list_elem_of_fmap. exists (seq, o). split; [done|]. by apply elem_of_map_to_list.
  - intros El. apply (tk_last w Hok seq o Ho) in El. rewrite Ec in El. by destruct El.
Qed.

(** ** Creating an operation *)

Lemma unique_fresh o ops : uniqueOperation o ops = true ->
  forall seq row, ops !! seq = Some row -> co_IdempotencyKey row <> co_IdempotencyKey o.
Proof.
  unfold uniqueOperation. rewrite forallb_forall. intros Hu seq row Hrow Heq. specialize (Hu row).
  rewrite !bool_decide_eq_true_2 with (P := co_IdempotencyKey row = co_IdempotencyKey o) in Hu by done. rewrite andb_false_r in Hu.
  discriminate Hu. apply list_elem_of_In, list_elem_of_fmap. exists (seq, row). split; [done|]. by apply elem_of_map_to_list.
Qed.

Definition commitOf o : commit :=
  mkCommit (co_IdempotencyKey o) (co_RequestDigest o) (co_OperationID o) (co_ResourceIdentity o) (co_CanonicalResult o).

Record creates (input : idempotentOperationInput) (stages : list string) w o w' : Prop := {
  cs_sequence : cw_sequence w' = cw_sequence w + 1 /\ co_CommitSequence o = cw_sequence w + 1;
  cs_rows : cw_operations w' = <[cw_sequence w + 1 := o]> (cw_operations w);
  cs_commits : cw_commits w' = cw_commits w ++ [commitOf o];
  cs_fresh : forall seq row, cw_operations w !! seq = Some row -> co_IdempotencyKey row <> co_IdempotencyKey o;
  cs_key : co_IdempotencyKey o = oi_IdempotencyKey input /\ co_RequestDigest o = oi_RequestDigest input;
  cs_new : co_LastCompletedStage o = operationStageDBCommitted /\ co_CompletedAtMS o = None /\ co_CompactedAtMS o = None
}.

Lemma mutateBody_creates run input id stages mutate w o e w' :
  mutateBody run input id stages mutate w = Ok (o, e, w') -> creates input stages w o w'.
Proof.
  unfold mutateBody. destruct (mutate (tablesOf w)) as [[r t]|]; [|done]. destruct (_ || _); [done|]. destruct (negb _); [done|].
  destruct (epochMS _) as [now|]; [|done]. unfold createOperation. cbn [setTables cw_sequence cw_operations].
  destruct (uniqueOperation _ _) eqn:Eu; [|done]. intros [= <- _ <-]. split; cbn; try done. exact (unique_fresh _ _ Eu).
Qed.

Lemma creates_ok input stages w o w' : table_ok w -> (forall seq row, cw_operations w !! seq = Some row -> is_Some (co_CompletedAtMS row)) ->
  creates input stages w o w' -> table_ok w'.
Proof.
  intros [T1 T0 T2 T3 T4 T5 T6] Hdone [[Hs Hso] Hr Hc Hf _ (Hl & Hcp & Hcm)]. split; rewrite ?Hr, ?Hs, ?Hc.
  - intros seq x [[<- <-]|[Hne Hx]]%lookup_insert_Some; [split; [done|lia]|]. apply T1 in Hx as [? ?]. split; [done|lia].
  - lia.
  - intros seq x [[<- <-]|[Hne Hx]]%lookup_insert_Some.
    + exists (commitOf o). split; [apply elem_of_app; right; left|]. by split.
    + destruct (T2 _ _ Hx) as (c & Hin & Hd). exists c. split; [apply elem_of_app; by left|done].
  - intros c [Hin|[->|Hin%elem_of_nil]%elem_of_cons]%elem_of_app; [| |done].
    + destruct (T3 c Hin) as (seq & x & Hx & Hk). exists seq, x. split; [|done]. rewrite lookup_insert_ne; [done|]. apply T1 in Hx. lia.
    + exists (cw_sequence w + 1), o. split; [apply lookup_insert_eq|done].
  - rewrite fmap_app. apply NoDup_app. split; [done|]. split; [|apply NoDup_singleton]. intros k Hk ->%list_elem_of_singleton.
    apply list_elem_of_fmap in Hk as (c & Hk & Hin). destruct (T3 c Hin) as (seq & x & Hx & Hkx). apply (Hf seq x Hx). rewrite Hkx, <- Hk. done.
  - intros seq x [[<- <-]|[Hne Hx]]%lookup_insert_Some; [by rewrite Hl|exact (T5 _ _ Hx)].
  - intros seq x [[<- <-]|[Hne Hx]]%lookup_insert_Some; [done|]. intros Hn. apply Hdone in Hx. rewrite Hn in Hx. by destruct Hx.
Qed.

(** * One request *)

(** What a successful answer rests on. *)
Record answered (key digest : string) (r : idempotentOperationResult) w : Prop := {
  as_commit : mkCommit key digest (or_OperationID r) (or_ResourceIdentity r) (or_CanonicalResult r) ∈ cw_commits w;
  as_completed : exists seq o, cw_operations w !! seq = Some o /\ co_IdempotencyKey o = key /\ is_Some (co_CompletedAtMS o)
}.

(** The history only grows, and rows keep their key and their completion. *)
Record grows w w' : Prop := {
  gw_commits : exists more, cw_commits w' = cw_commits w ++ more;
  gw_rows : forall seq o, cw_operations w !! seq = Some o -> exists o', cw_operations w' !! seq = Some o'
    /\ co_IdempotencyKey o' = co_IdempotencyKey o /\ (is_Some (co_CompletedAtMS o) -> is_Some (co_CompletedAtMS o'))
}.

Lemma grows_evolves w w' : evolves w w' -> grows w w'.
Proof.
  intros He. split; [exists []; by rewrite app_nil_r, (ev_commits _ _ He)|]. intros seq o Ho.
  destruct (evolves_onward w w' seq o He Ho) as (o' & Ho' & Hl). exists o'. split; [done|]. split; [apply (lt_key _ _ Hl)|apply (lt_completed _ _ Hl)].
Qed.

Lemma history_grows_trans w1 w2 w3 : grows w1 w2 -> grows w2 w3 -> grows w1 w3.
Proof.
  intros [[m1 E1] R1] [[m2 E2] R2]. split; [exists (m1 ++ m2); by rewrite E2, E1, app_assoc|]. intros seq o Ho.
  destruct (R1 seq o Ho) as (o2 & Ho2 & Hk2 & Hc2). destruct (R2 seq o2 Ho2) as (o3 & Ho3 & Hk3 & Hc3). exists o3. split; [done|].
  split; [congruence|auto].
Qed.

Lemma grows_creates input stages w o w' : table_ok w -> creates input stages w o w' -> grows w w'.
Proof.
  intros Hok [[Hs Hso] Hr Hc _ _ _]. split; [eauto|]. intros seq x Hx. exists x. split; [|done].
  rewrite Hr, lookup_insert_ne; [done|]. apply (tk_sequence w Hok) in Hx. lia.
Qed.

Lemma answered_grows key digest r w w' : grows w w' -> answered key digest r w -> answered key digest r w'.
Proof.
  intros [[more E] Hr] [Hc (seq & o & Ho & Hk & Hd)]. split; [rewrite E; apply elem_of_app; by left|].
  destruct (Hr seq o Ho) as (o' & Ho' & Hk' & Hd'). exists seq, o'. split; [done|]. split; [congruence|auto].
Qed.

(** A new operation: either nothing was committed, or the row was created, however it ended. *)
Lemma executeNew_spec run input mutate w res w' :
  table_ok w -> (forall seq row, cw_operations w !! seq = Some row -> is_Some (co_CompletedAtMS row)) ->
  executeNew run input mutate w = (res, w') ->
  table_ok w' /\ grows w w' /\ match res with Ok r => answered (oi_IdempotencyKey input) (oi_RequestDigest input) r w' | Err _ => True end.
Proof.
  intros Hok Hdone. unfold executeNew. destruct (operationRequiredStages _) as [stages|]; [|intros [= <- <-]; split_and!; [done|by apply grows_evolves, evolves_same|done]].
  destruct (newOperationID _) as [id|]; [|intros [= <- <-]; split_and!; [done|by apply grows_evolves, evolves_same|done]].
  unfold bindIO at 1, withControlTransaction. pose proof (onward_world nextOutcome w) as He. destruct (onWorld nextOutcome w) as [out w1]. cbn in He.
  pose proof (table_ok_later _ _ He Hok) as Hok1. pose proof (grows_evolves _ _ He) as Hg1.
  assert (forall seq row, cw_operations w1 !! seq = Some row -> is_Some (co_CompletedAtMS row)) as Hdone1.
  { intros seq row Hrow. destruct (evolves_backward _ _ _ _ He Hrow) as (x & Hx & Hl). apply (lt_completed _ _ Hl). by eapply Hdone. }
  destruct (mutateBody run input id stages mutate w1) as [[[o e] w2]|e] eqn:Em; [|by intros [= <- <-]].
  apply mutateBody_creates in Em as Hcr. pose proof (creates_ok _ _ _ _ _ Hok1 Hdone1 Hcr) as Hok2.
  pose proof (history_grows_trans _ _ _ Hg1 (grows_creates _ _ _ _ _ Hok1 Hcr)) as Hg2.
  destruct out; [|by intros [= <- <-]|by intros [= <- <-]].
  unfold bindIO at 1. pose proof (onward_recover run o w2) as Hf. destruct (recoverOperationLocked run o w2) as [[[] o'] w3] eqn:Er; cbn in Hf.
  - intros [= <- <-]. split; [by eapply table_ok_later|]. split; [eapply history_grows_trans; [exact Hg2|by apply grows_evolves]|].
    destruct Hcr as [[_ Hso] Hrows Hcommits _ [Hk Hd] (Hlast & _ & Hcm)].
    destruct (recover_complete run o w2 o' w3 Er) as (Hl & Hcm' & Hc' & x & Hx & Hxc); [by rewrite Hlast|].
    assert (mkCommit (oi_IdempotencyKey input) (oi_RequestDigest input) (co_OperationID o') (co_ResourceIdentity o') (co_CanonicalResult o') = commitOf o) as E.
    { unfold commitOf. rewrite (lt_id _ _ Hl), (lt_identity _ _ Hl), Hk, Hd. f_equal.
      apply (lt_result _ _ Hl). congruence. }
    split; cbn; [rewrite E, (ev_commits _ _ Hf), Hcommits; apply elem_of_app; right; left|].
    exists (co_CommitSequence o), x. split; [done|]. split; [|done].
    destruct (evolves_backward _ _ _ _ Hf Hx) as (y & Hy & Hly). rewrite Hrows, Hso, lookup_insert_eq in Hy. injection Hy as <-.
    by rewrite (lt_key _ _ Hly).
  - unfold bindIO. cbn. intros [= <- <-]. split; [|split; [|done]].
    + eapply table_ok_later; [|exact Hok2]. eapply evolves_trans; [exact Hf|]. apply onward_wake.
    + eapply history_grows_trans; [exact Hg2|]. apply grows_evolves. eapply evolves_trans; [exact Hf|]. apply (onward_wake w3).
Qed.

Lemma comparator_ok o input : validateOperationComparator o input = None -> co_RequestDigest o = oi_RequestDigest input.
Proof. unfold validateOperationComparator. destruct (_ || _); [done|]. by case_bool_decide. Qed.

Lemma replayResult_ok o r : replayResult o = Ok r ->
  is_Some (co_CompletedAtMS o) /\ r = mkOperationResult (co_OperationID o) (co_ResourceIdentity o) (co_CanonicalResult o) true None.
Proof. unfold replayResult. case_bool_decide as Hc; [done|]. case_bool_decide; [done|]. intros [= <-]. split; [|done]. by apply not_eq_None_Some. Qed.

(** A replay answers from the row, which is completed. *)
Lemma replay_answered run o input w r w' row :
  cw_operations w !! co_CommitSequence o = Some row -> later o row -> (exists c, c ∈ cw_commits w /\ describes c o) ->
  replayIdempotentOperationLocked run o input w = (Ok r, w') ->
  answered (co_IdempotencyKey o) (oi_RequestDigest input) r w' /\ or_Replayed r = true.
Proof.
  intros Hrow Hlr (c & Hc & Hdk & Hdd & Hdi & Hdr & Hres) Hrun. pose proof (onward_replay run o input w) as Hf. rewrite Hrun in Hf. cbn in Hf.
  assert (forall o', later o o' -> co_CompactedAtMS o' = None -> is_Some (co_CompletedAtMS row) \/ completedAt (co_CommitSequence o) w' ->
    replayResult o' = Ok r -> co_RequestDigest o = oi_RequestDigest input ->
    answered (co_IdempotencyKey o) (oi_RequestDigest input) r w' /\ or_Replayed r = true) as Hfin.
  { intros o' Hl Hcm Hdone [_ ->]%replayResult_ok Hdg. split; [|done]. destruct (lt_result _ _ Hl Hcm) as [Hcm0 Hr]. split; cbn.
    - rewrite (ev_commits _ _ Hf). replace (mkCommit _ _ _ _ _) with c; [done|]. destruct c. cbn in *.
      rewrite (lt_id _ _ Hl), (lt_identity _ _ Hl), Hr, <- (Hres Hcm0). congruence.
    - destruct (evolves_onward _ _ _ _ Hf Hrow) as (x & Hx & Hlx). exists (co_CommitSequence o), x. split; [done|].
      split; [by rewrite (lt_key _ _ Hlx), (lt_key _ _ Hlr)|]. destruct Hdone as [Hd|(y & Hy & Hd)]; [by apply (lt_completed _ _ Hlx)|].
      rewrite Hx in Hy. by injection Hy as <-. }
  revert Hrun. unfold replayIdempotentOperationLocked. destruct (validateOperationComparator o input) eqn:Ev; [done|]. apply comparator_ok in Ev.
  destruct (co_CompactedAtMS o) eqn:Ecm; [done|]. case_bool_decide as Hlast.
  - intros [= Hrr Hw]. apply (Hfin o (later_refl o) Ecm); [|done|done]. left. apply (lt_completed _ _ Hlr). by apply replayResult_ok in Hrr as [? _].
  - unfold bindIO. destruct (recoverOperationLocked run o w) as [[[] o'] w1] eqn:Er; [|done]. intros [= Hrr Hw].
    destruct (recover_complete run o w o' w1 Er Hlast) as (Hl & Hcm' & _ & Hd). apply (Hfin o' Hl); [congruence| |done|done]. right. by rewrite <- Hw.
Qed.

Lemma findOperation_spec key ops :
  match findOperation key ops with
  | Some o => exists seq, ops !! seq = Some o /\ co_IdempotencyKey o = key
  | None => forall seq o, ops !! seq = Some o -> co_IdempotencyKey o <> key
  end.
Proof.
  unfold findOperation. destruct (List.find _ _) as [o|] eqn:E.
  - apply List.find_some in E as [Hin Hk]. apply bool_decide_eq_true in Hk. apply list_elem_of_In, list_elem_of_fmap in Hin as ([seq x] & -> & Hx).
    exists seq. split; [|done]. by apply elem_of_map_to_list.
  - intros seq o Ho Hk. pose proof (List.find_none _ _ E o) as Hn. cbn in Hn. rewrite bool_decide_eq_true_2 in Hn by done. discriminate Hn.
    apply list_elem_of_In, list_elem_of_fmap. exists (seq, o). split; [done|]. by apply elem_of_map_to_list.
Qed.

(** What one request does. *)
Lemma execute_spec run input w res w' :
  table_ok w -> executeIdempotentOperation run input w = (res, w') ->
  table_ok w' /\ grows w w'
  /\ match res with
     | Ok r => answered (oi_IdempotencyKey input) (oi_RequestDigest input) r w'
         /\ (or_Replayed r = false -> forall c, c ∈ cw_commits w -> cm_Key c <> oi_IdempotencyKey input)
     | Err _ => True
     end.
Proof.
  intros Hok. assert (forall e v, evolves w v -> (@Err controlError idempotentOperationResult e, v) = (res, w') ->
    table_ok w' /\ grows w w' /\ match res with
     | Ok r => answered (oi_IdempotencyKey input) (oi_RequestDigest input) r w'
         /\ (or_Replayed r = false -> forall c, c ∈ cw_commits w -> cm_Key c <> oi_IdempotencyKey input)
     | Err _ => True end) as Herr.
  { intros e v He [= <- <-]. split; [by eapply table_ok_later|]. split; [by apply grows_evolves|done]. }
  assert (evolves w w) as Hrefl by (by apply evolves_same). unfold executeIdempotentOperation. destruct (negb _); [by apply Herr|].
  destruct (oi_Mutate input) as [mutate|]; [|by apply Herr]. destruct (_ || _); [by apply Herr|]. unfold bindIO at 1.
  pose proof (onward_query (fun w => findOperation (oi_IdempotencyKey input) (cw_operations w)) w) as Hq.
  destruct (ctlQuery _ w) as [found w1] eqn:Eq. cbn in Hq. destruct found as [found|]; [|by apply Herr].
  assert (found = findOperation (oi_IdempotencyKey input) (cw_operations w1)) as Hfound.
  { unfold ctlQuery in Eq. destruct (onWorld nextOutcome w) as [[] v]; [|done|done]. by injection Eq as <- <-. }
  pose proof (findOperation_spec (oi_IdempotencyKey input) (cw_operations w1)) as Hspec. rewrite <- Hfound in Hspec.
  pose proof (table_ok_later _ _ Hq Hok) as Hok1. destruct found as [o|].
  - destruct Hspec as (seq & Ho & Hk). destruct (tk_sequence w1 Hok1 seq o Ho) as [Hseq _]. destruct (validateOperationComparator o input); [by apply Herr|].
    unfold bindIO. pose proof (onward_barrier run (co_CommitSequence o) w1) as Hb. destruct (enforceOperationRecoveryBarrierLocked _ _ w1) as [blocked w2].
    cbn in Hb. pose proof (evolves_trans _ _ _ Hq Hb) as Hqb. destruct blocked as [e|]; [by apply Herr|]. intros Hrun.
    pose proof (onward_replay run o input w2) as Hf. rewrite Hrun in Hf. cbn in Hf. pose proof (evolves_trans _ _ _ Hqb Hf) as Hall.
    split; [by eapply table_ok_later|]. split; [by apply grows_evolves|]. destruct res as [r|]; [|done].
    destruct (evolves_onward _ _ _ _ Hb Ho) as (row & Hrow & Hl). rewrite <- Hseq in Hrow.
    destruct (replay_answered run o input w2 r w' row Hrow Hl) as [Ha Hrep]; [|done|].
    { destruct (tk_committed w1 Hok1 seq o Ho) as (c & Hc & Hd). exists c. by rewrite (ev_commits _ _ Hb). }
    rewrite <- Hk. split; [done|]. by rewrite Hrep.
  - unfold bindIO. destruct (enforceOperationRecoveryBarrierLocked run 0 w1) as [blocked w2] eqn:Eb. pose proof (onward_barrier run 0 w1) as Hb. rewrite Eb in Hb.
    cbn in Hb. pose proof (evolves_trans _ _ _ Hq Hb) as Hqb. destruct blocked as [e|]; [by apply Herr|]. intros Hrun.
    destruct (executeNew_spec run input mutate w2 res w') as (Hok' & Hg & Ha); [by eapply table_ok_later| |done|].
    { intros seq row Hrow. apply (barrier_completes run 0 w1 w2 Hok1 Eb seq row Hrow). by left. }
    split; [done|]. split; [eapply history_grows_trans; [by apply grows_evolves|done]|]. destruct res as [r|]; [|done]. split; [done|].
    intros _ c Hc Hkc. rewrite <- (ev_commits _ _ Hq) in Hc. destruct (tk_rows w1 Hok1 c Hc) as (seq & x & Hx & Hkx).
    apply (Hspec seq x Hx). congruence.
Qed.

(** * All requests *)

Record answer := mkAnswer { an_Key : string; an_Digest : string; an_Result : idempotentOperationResult }.

Definition answersOf (input : idempotentOperationInput) (res : result controlError idempotentOperationResult) : list answer :=
  match res with Ok r => [mkAnswer (oi_IdempotencyKey input) (oi_RequestDigest input) r] | Err _ => [] end.

(** Requests, recovery, compaction, and everything else that happens to the program but not to the
    table of operations: other writers, the data plane, restarts. *)
Inductive control_step : ControlWorld * list answer -> ControlWorld * list answer -> Prop :=
| step_request run input w answers res w' :
    executeIdempotentOperation run input w = (res, w') -> control_step (w, answers) (w', answers ++ answersOf input res)
| step_drain run w answers : control_step (w, answers) ((DrainCommittedOperations run w).2, answers)
| step_compact now w answers : control_step (w, answers) ((compactCompletedOperationsLocked now w).2, answers)
| step_elsewhere v rest prices manager woken w answers :
    control_step (w, answers) (mkControlWorld v rest (cw_operations w) (cw_sequence w) prices manager woken (cw_commits w), answers).

Definition newControl (v : World) (rest : RestTables) : ControlWorld := mkControlWorld v rest ∅ 0 None None false [].

Record history_ok (h : ControlWorld * list answer) : Prop := {
  hk_table : table_ok h.1;
  hk_answers : forall a, a ∈ h.2 -> answered (an_Key a) (an_Digest a) (an_Result a) h.1;
  hk_fresh : NoDup (an_Key <$> filter (fun a => or_Replayed (an_Result a) = false) h.2)
}.

Lemma history_evolves w w' answers : evolves w w' -> history_ok (w, answers) -> history_ok (w', answers).
Proof.
  intros He [Ht Ha Hf]. split; cbn in *; [by eapply table_ok_later| |done]. intros a Hin. eapply answered_grows; [by apply grows_evolves|]. by apply Ha.
Qed.

Lemma control_step_ok h h' : control_step h h' -> history_ok h -> history_ok h'.
Proof.
  intros [run input w answers res w' Hrun|run w answers|now w answers|v rest prices manager woken w answers].
  - intros [Ht Ha Hf]. cbn in *. destruct (execute_spec run input w res w' Ht Hrun) as (Ht' & Hg & Hres). split; cbn; [done| |].
    + intros a [Hin|Hin]%elem_of_app; [eapply answered_grows; [exact Hg|by apply Ha]|]. destruct res as [r|]; cbn in Hin; [|by apply elem_of_nil in Hin].
      apply list_elem_of_singleton in Hin as ->. by destruct Hres.
    + destruct res as [r|]; cbn; [|by rewrite app_nil_r]. destruct Hres as [_ Hfresh]. rewrite filter_app, fmap_app. destruct (or_Replayed r) eqn:Er.
      * rewrite filter_cons_False, filter_nil by (cbn; congruence). by rewrite app_nil_r.
      * rewrite filter_cons_True, filter_nil by done. apply NoDup_app. split; [done|]. split; [|apply NoDup_singleton].
        intros k Hk ->%list_elem_of_singleton. apply list_elem_of_fmap in Hk as (a & Hk & [_ Hin]%list_elem_of_filter).
        destruct (Ha a Hin) as [Hc _]. by apply (Hfresh eq_refl _ Hc).
  - apply history_evolves, onward_barrier.
  - apply history_evolves, onward_compact.
  - apply history_evolves. by apply evolves_same.
Qed.

(** C11: However often requests are repeated, in whatever order requests, recovery, compaction and
    restarts follow each other, and whichever transactions fail or are committed although they
    fail: the mutation of an idempotency key is committed at most once and only one request is told
    that it made it; all successful answers for a key carry the same digest, operation, resource
    and result, those of a committed and completed operation; and every operation but the newest is
    completed. *)
Theorem idempotent_exactly_once v rest w answers :
  rtc control_step (newControl v rest, []) (w, answers) ->
  NoDup (cm_Key <$> cw_commits w)
  /\ NoDup (an_Key <$> filter (fun a => or_Replayed (an_Result a) = false) answers)
  /\ (forall a, a ∈ answers -> answered (an_Key a) (an_Digest a) (an_Result a) w)
  /\ (forall a b, a ∈ answers -> b ∈ answers -> an_Key a = an_Key b ->
        an_Digest a = an_Digest b /\ or_OperationID (an_Result a) = or_OperationID (an_Result b)
        /\ or_ResourceIdentity (an_Result a) = or_ResourceIdentity (an_Result b)
        /\ or_CanonicalResult (an_Result a) = or_CanonicalResult (an_Result b))
  /\ forall seq o, cw_operations w !! seq = Some o -> co_CompletedAtMS o = None -> seq = cw_sequence w.
Proof.
  intros Hrun. assert (history_ok (w, answers)) as [Ht Ha Hf].
  { assert (history_ok (newControl v rest, [])) as Hinit.
    { split; cbn; [|by intros a Hin%elem_of_nil|constructor]. split; cbn; try done; try (by intros seq o Ho); [by intros c Hc%elem_of_nil|constructor]. }
    remember (newControl v rest, []) as h0. clear Heqh0. induction Hrun as [|h1 h2 h3 Hstep _ IH]; [done|]. apply IH. by eapply control_step_ok. }
  cbn in *. split; [apply (tk_once w Ht)|]. split; [done|]. split; [done|]. split; [|apply (tk_pending w Ht)].
  intros a b Hina Hinb Hk. destruct (Ha a Hina) as [Hca _]. destruct (Ha b Hinb) as [Hcb _].
  assert (forall c d, c ∈ cw_commits w -> d ∈ cw_commits w -> cm_Key c = cm_Key d -> c = d) as Hinj.
  { intros c d Hc Hd Hkc. apply list_elem_of_lookup in Hc as [i Hi], Hd as [j Hj]. pose proof (tk_once w Ht) as Hnd.
    assert (i = j) as ->; [|congruence]. eapply (NoDup_lookup _ i j (cm_Key c) Hnd); rewrite list_lookup_fmap; [by rewrite Hi|by rewrite Hj, Hkc]. }
  pose proof (Hinj _ _ Hca Hcb Hk) as E. by injection E.
Qed.

End Once.
