(* ===== verification/IdempotencyApplied.v ===== *)
(** A group that was created, or credentials that were imported, are served when the request is
    answered: the registry agrees with what the loader reads out of the committed tables. *)
From Stdlib Require Import Ascii.
From S2P Require Import Prelude GoStrings Execution Config Credential Ledger FairShare Registry RegistryInvariant RegistryGroups RegistrySafety RegistryProps Refresh RefreshProps RefreshRuntime Idempotency IdempotencyProps.

Local Open Scope go_scope.
Local Open Scope Z_scope.

Section Applied.
Context `{GoText} `{SubscriptionPlatform} `{DigestPlatform} `{ControlPlane}.
Implicit Types (w : ControlWorld) (o : ControlOperation) (run : ControlRun) (v : World).

(** * What the loader reads *)

(** The entries of a group when no query fails. *)
Definition loaderEntries (g : Z) v : option (list CredentialEntry) :=
  (BuildGroupCredentialEntriesWithProxy g (mkWorld (w_rows v) (w_groups v) (w_proxies v) (w_registry v) [] (w_calls v))).1.

Definition groupApplied (g : Z) v : Prop := exists es, loaderEntries g v = Some es /\ MatchesGroup (w_registry v) g es = true.

Lemma query_done {A} (f : World -> option A) v a v' : query f v = (Some a, v') -> f v' = Some a /\ steady v v'.
Proof. intros E. destruct (query_steady f v) as (Hs & _ & Hq). rewrite E in Hs, Hq. cbn in *. auto. Qed.

Lemma query_calm {A} (f : World -> option A) v : w_outcomes v = [] -> query f v = (f v, v).
Proof. intros E. unfold query, nextOutcome. by rewrite E. Qed.

Lemma build_loader g v es v' : BuildGroupCredentialEntriesWithProxy g v = (Some es, v') -> loaderEntries g v = Some es.
Proof.
  unfold loaderEntries, BuildGroupCredentialEntriesWithProxy. destruct (g =? 0); [done|]. unfold bindIO. intros Hb.
  destruct (query (fun x => w_groups x !! g) v) as [[gr|] v1] eqn:E1; [|done]. apply query_done in E1 as [E1 S1].
  destruct (query (fun x => Some (groupRows g (w_rows x))) v1) as [[rows|] v2] eqn:E2; [|done]. apply query_done in E2 as [E2 S2]. injection E2 as <-.
  destruct (query w_proxies v2) as [[catalog|] v3] eqn:E3; [|done]. apply query_done in E3 as [E3 S3].
  rewrite (sd_groups _ _ S1) in E1. rewrite (sd_rows _ _ S2), (sd_rows _ _ S1) in Hb. rewrite (sd_proxies _ _ S3), (sd_proxies _ _ S2), (sd_proxies _ _ S1) in E3.
  rewrite query_calm by done. cbn [w_groups]. rewrite E1, query_calm by done. cbn [w_rows]. rewrite query_calm by done. cbn [w_proxies fst].
  rewrite E3. by injection Hb as -> _.
Qed.

Lemma loader_same g v v' : w_rows v' = w_rows v -> w_groups v' = w_groups v -> w_proxies v' = w_proxies v -> loaderEntries g v' = loaderEntries g v.
Proof.
  intros Hr Hg Hp. unfold loaderEntries, BuildGroupCredentialEntriesWithProxy. destruct (g =? 0); [done|]. unfold bindIO.
  do 2 (rewrite query_calm by done). cbn [w_groups]. rewrite Hg. destruct (w_groups v !! g); [|done].
  do 2 (rewrite query_calm by done). cbn [w_rows]. do 2 (rewrite query_calm by done). cbn [w_proxies]. by rewrite Hr, Hp.
Qed.

(** The tables and the entries of the registry decide. *)
Lemma applied_same g v v' :
  w_rows v' = w_rows v -> w_groups v' = w_groups v -> w_proxies v' = w_proxies v -> buckets (w_registry v') = buckets (w_registry v) ->
  groupApplied g v -> groupApplied g v'.
Proof.
  intros Hr Hg Hp Hb (es & He & Hm). exists es. rewrite (loader_same g v v') by done. split; [done|].
  revert Hm. unfold MatchesGroup, matchesGroupLocked, lookupEntry, bucketOf. by rewrite Hb.
Qed.

(** * The registry stage *)

Lemma reconcileGroupOnce_applied g now v v' : runtime_ok v -> reconcileGroupOnce g now v = (true, v') -> groupApplied g v'.
Proof.
  intros Hok. unfold reconcileGroupOnce, bindIO. destruct (buildEntries_steady g v) as [Hs Hreg].
  destruct (BuildGroupCredentialEntriesWithProxy g v) as [[es|] v1] eqn:Hb; [|done]. cbn [fst snd] in *.
  assert (loaderEntries g v1 = Some es) as He.
  { apply build_loader in Hb. by rewrite (loader_same g v v1 (sd_rows _ _ Hs) (sd_groups _ _ Hs) (sd_proxies _ _ Hs)). }
  unfold readRegistry. destruct (MatchesGroup (w_registry v1) g es) eqn:Em; [intros [= <-]; by exists es|].
  unfold onRegistry. destruct (ReconcileGroup (w_registry v1) g es (fun _ => now)) as [[r' b]|e] eqn:Er; [|done]. intros [= <-].
  exists es. split.
  - by rewrite (loader_same g v1).
  - pose proof (buildEntries_typed g v es v1 Hok Hb) as Hty. rewrite Hreg in Er.
    by destruct (reconcile_converges _ _ _ _ _ _ (fun _ => now) (rt_registry _ Hok) Hty Er) as [Hm _].
Qed.

Lemma reconcileGroupOnce_steady g now v : steady v (reconcileGroupOnce g now v).2.
Proof.
  unfold reconcileGroupOnce, bindIO. destruct (buildEntries_steady g v) as [Hs _]. destruct (BuildGroupCredentialEntriesWithProxy g v) as [[es|] v1]; [|done].
  cbn in *. unfold readRegistry. destruct (MatchesGroup _ _ _); [done|]. unfold onRegistry. destruct (ReconcileGroup _ _ _ _) as [[r' b]|]; by destruct Hs.
Qed.

(** * Well-formed worlds stay well formed *)

Definition serving_ok w : Prop := runtime_ok (cw_world w).

Lemma runtime_ok_same v v' : w_rows v' = w_rows v -> w_registry v' = w_registry v -> runtime_ok v -> runtime_ok v'.
Proof. intros Hr Hreg []. split; by rewrite ?Hreg, ?Hr. Qed.

Lemma pres_reconcileOnce g now : pres runtime_ok (reconcileGroupOnce g now).
Proof.
  intros v Hok. unfold reconcileGroupOnce, bindIO. destruct (buildEntries_steady g v) as [Hs Hreg].
  destruct (BuildGroupCredentialEntriesWithProxy g v) as [[es|] v1] eqn:Hb; cbn [fst snd] in *; [|by eapply runtime_ok_same; [apply Hs|..]].
  assert (runtime_ok v1) as Hok1 by (eapply runtime_ok_same; [apply Hs|done|done]). unfold readRegistry.
  destruct (MatchesGroup _ _ _); [done|]. unfold onRegistry. destruct (ReconcileGroup _ _ _ _) as [[r' b]|e] eqn:Er; [|by destruct v1].
  pose proof (buildEntries_typed g v es v1 Hok Hb) as Hty. pose proof (ReconcileGroup_ok _ _ _ _ _ _ (rt_registry _ Hok1) Hty Er) as Hr.
  destruct Hok1 as [_ Hrows Htyped]. by split.
Qed.

Lemma pres_world {A} (m : io A) : pres runtime_ok m -> pres serving_ok (onWorld m).
Proof. intros Hm w Hw. specialize (Hm (cw_world w) Hw). unfold onWorld. by destruct (m (cw_world w)). Qed.

Lemma pres_outcome : pres runtime_ok nextOutcome.
Proof. intros v Hv. destruct (nextOutcome_steady v) as [Hs Hr]. eapply runtime_ok_same; [apply Hs|done|done]. Qed.

Lemma pres_query {A} (f : ControlWorld -> A) : pres serving_ok (ctlQuery f).
Proof. intros w Hw. unfold ctlQuery. pose proof (pres_world _ pres_outcome w Hw) as Hn. by destruct (onWorld nextOutcome w) as [[] w1]. Qed.

Lemma pres_transaction {A} (body : ControlWorld -> result controlError (A * ControlWorld)) :
  (forall w a w', serving_ok w -> body w = Ok (a, w') -> serving_ok w') -> pres serving_ok (withControlTransaction body).
Proof.
  intros Hb w Hw. unfold withControlTransaction. pose proof (pres_world _ pres_outcome w Hw) as Hn. destruct (onWorld nextOutcome w) as [out w1].
  cbn in Hn. destruct (body w1) as [[a w2]|e] eqn:E; [|done]. apply Hb in E; [|done]. by destruct out.
Qed.

Lemma pres_publishCompiled next : pres serving_ok (publishCompiledLocked next).
Proof.
  intros w [Hr Hrows Hty]. unfold serving_ok, publishCompiledLocked. cbn [snd cw_world setManager setWorld].
  split; cbn [w_registry w_rows setRegistry]; [|done|done]. apply setScheduling_ok; [done|apply SyncGroups_sameMembers|].
  by apply SyncGroups_ok, rg_ledger.
Qed.
#[local] Hint Resolve pres_world pres_query pres_reconcileOnce pres_publishCompiled : refresh.

Lemma pres_stage run o stage : pres serving_ok (recoverStage run o stage).
Proof.
  unfold recoverStage, recoverPrices, recoverRegistryOperation, recoverSnapshot, publishSnapshot.
  repeat (case_bool_decide; [|]); auto with refresh.
  - apply pres_bind; [auto with refresh|]. intros [[t|]|]; auto with refresh. by intros w.
  - destruct (operationGroupID o); auto with refresh. apply pres_bind; [auto with refresh|]. intros [l|]; auto with refresh.
  - apply pres_bind; [auto with refresh|]. intros [[next|]|]; auto with refresh. apply pres_bind; [by intros w|]. intros b.
    apply pres_if; [auto with refresh|]. apply pres_if; auto with refresh.
Qed.

Lemma pres_advance run o stage : pres serving_ok (advanceOperationStageLocked run o stage).
Proof.
  unfold advanceOperationStageLocked. destruct (epochMS _); [|auto with refresh]. apply pres_bind; [|auto with refresh].
  apply pres_transaction. intros w a w' Hw. destruct (cw_operations w !! _); [|done]. case_bool_decide; [|done]. by intros [= _ <-].
Qed.

Lemma pres_failure run o stage : pres serving_ok (recordOperationFailureLocked run o stage).
Proof.
  unfold recordOperationFailureLocked. destruct (epochMS _); [|auto with refresh]. apply pres_bind; [|auto with refresh].
  apply pres_transaction. by intros w a w' Hw [= _ <-].
Qed.
#[local] Hint Resolve pres_stage pres_advance pres_failure : refresh.

Lemma pres_stages run stages o : pres serving_ok (runStages run stages o).
Proof.
  revert o. induction stages as [|s stages IH]; intros o; cbn [runStages]; auto with refresh.
  apply pres_bind; [auto with refresh|]. intros b. apply pres_if; [|auto with refresh]. apply pres_bind; [auto with refresh|].
  intros [o'|e]; auto with refresh.
Qed.

Lemma pres_recover run o : pres serving_ok (recoverOperationLocked run o).
Proof.
  unfold recoverOperationLocked. apply pres_if; [auto with refresh|]. destruct (operationRequiredStages _), (co_RequiredStages o); auto with refresh.
  apply pres_if; [auto with refresh|]. destruct (stageIndex _ _); [apply pres_stages|auto with refresh].
Qed.

Lemma pres_recoverAll run l : pres serving_ok (recoverAll run l).
Proof.
  induction l as [|o l IH]; cbn [recoverAll]; auto with refresh. apply pres_bind; [apply pres_recover|]. intros [[] o']; auto with refresh.
Qed.

Lemma pres_barrier run before : pres serving_ok (enforceOperationRecoveryBarrierLocked run before).
Proof.
  unfold enforceOperationRecoveryBarrierLocked. apply pres_bind; [auto with refresh|]. intros [l|]; auto with refresh.
  apply pres_bind; [apply pres_recoverAll|auto with refresh].
Qed.

(** * What a stage promises *)

Definition stageHolds run o (stage : string) w : Prop :=
  if bool_decide (stage = operationStagePricesPublished)
  then exists table, rn_priceTable run (tablesOf w) = Some table /\ cw_prices w = Some table
  else if bool_decide (stage = operationStageRegistryApplied)
  then exists g, operationGroupID o = Some g /\ groupApplied g (cw_world w)
  else if bool_decide (stage = operationStageSnapshotPublished)
  then exists next revision, rn_compile run (tablesOf w) = Some next /\ cw_manager w = Some (revision, next)
  else True.

(** Neither the tables, nor the prices, the entries and the configuration in force change. *)
Record unmoved w w' : Prop := {
  um_tables : tablesOf w' = tablesOf w;
  um_registry : buckets (w_registry (cw_world w')) = buckets (w_registry (cw_world w));
  um_prices : cw_prices w' = cw_prices w;
  um_manager : cw_manager w' = cw_manager w
}.

Lemma unmoved_same w w' : cw_rest w' = cw_rest w -> cw_world w' = cw_world w -> cw_prices w' = cw_prices w -> cw_manager w' = cw_manager w -> unmoved w w'.
Proof. intros Hr Hw Hp Hm. split; unfold tablesOf; by rewrite ?Hw, ?Hr. Qed.

Lemma unmoved_trans w1 w2 w3 : unmoved w1 w2 -> unmoved w2 w3 -> unmoved w1 w3.
Proof. intros [] []. split; congruence. Qed.

Lemma applied_tables g w w' : tablesOf w' = tablesOf w -> buckets (w_registry (cw_world w')) = buckets (w_registry (cw_world w)) ->
  groupApplied g (cw_world w) -> groupApplied g (cw_world w').
Proof. unfold tablesOf. intros [= E1 E2 E3 _] Hb. by apply applied_same. Qed.

Lemma holds_unmoved run o stage w w' : unmoved w w' -> stageHolds run o stage w -> stageHolds run o stage w'.
Proof.
  intros [Ht Hb Hp Hm]. unfold stageHolds. rewrite Ht, Hp, Hm. repeat (case_bool_decide; [done|]). case_bool_decide; [|done].
  intros (g & Hg & Ha). exists g. split; [done|]. by eapply applied_tables.
Qed.

Lemma outcome_unmoved w : unmoved w (onWorld nextOutcome w).2.
Proof.
  unfold onWorld. destruct (nextOutcome_steady (cw_world w)) as [[E1 E2 E3 _] Hr]. destruct (nextOutcome (cw_world w)) as [out v]. cbn in *.
  split; cbn; [|by rewrite Hr|done|done]. unfold tablesOf. cbn. congruence.
Qed.

Lemma query_unmoved {A} (f : ControlWorld -> A) w : unmoved w (ctlQuery f w).2 /\ forall a, (ctlQuery f w).1 = Some a -> a = f (ctlQuery f w).2.
Proof. unfold ctlQuery. pose proof (outcome_unmoved w) as Hu. destruct (onWorld nextOutcome w) as [[] w1]; (split; [done|]); cbn; congruence. Qed.

Lemma advance_unmoved run o stage w : unmoved w (advanceOperationStageLocked run o stage w).2.
Proof.
  unfold advanceOperationStageLocked. destruct (epochMS _); [|by apply unmoved_same]. unfold bindIO, withControlTransaction.
  pose proof (outcome_unmoved w) as Hu. destruct (onWorld nextOutcome w) as [out w1]. cbn in Hu.
  destruct (cw_operations w1 !! _) as [row|]; [|done]. case_bool_decide; [|done]. destruct out; cbn; try done; eapply unmoved_trans; try exact Hu; by apply unmoved_same.
Qed.

(** A stage that succeeds holds, and the others still hold. *)
Lemma stage_done run o stage w w' : serving_ok w -> recoverStage run o stage w = (true, w') ->
  stageHolds run o stage w' /\ forall s, s <> stage -> stageHolds run o s w -> stageHolds run o s w'.
Proof.
  intros Hok. unfold recoverStage, stageHolds at 1. case_bool_decide as E1; [|case_bool_decide as E2; [|case_bool_decide as E3]].
  - unfold recoverPrices, bindIO. destruct (query_unmoved (fun w => rn_priceTable run (tablesOf w)) w) as [Hu Hq].
    destruct (ctlQuery _ w) as [[[table|]|] w1]; [|done|done]. cbn in *. intros [= <-]. specialize (Hq _ eq_refl). split; [by exists table|].
    intros s Hs Hh. apply (holds_unmoved _ _ _ _ _ Hu) in Hh. revert Hh. unfold stageHolds. rewrite bool_decide_false by congruence. done.
  - unfold recoverRegistryOperation. destruct (operationGroupID o) as [g|] eqn:Eg; [|done]. unfold bindIO.
    destruct (query_unmoved (fun w => cr_ID <$> groupRows g (w_rows (cw_world w))) w) as [Hu _].
    pose proof (pres_query (fun w => cr_ID <$> groupRows g (w_rows (cw_world w))) w Hok) as Hok1. destruct (ctlQuery _ w) as [[ids|] w1]; [|done].
    cbn in Hu, Hok1. unfold onWorld. destruct (reconcileGroupOnce g _ (cw_world w1)) as [b v] eqn:Er. intros [= -> <-].
    pose proof (reconcileGroupOnce_steady g (rn_now run * millisecond) (cw_world w1)) as Hst. rewrite Er in Hst. cbn in Hst.
    split; [exists g; split; [done|]; by eapply reconcileGroupOnce_applied|]. intros s Hs Hh. apply (holds_unmoved _ _ _ _ _ Hu) in Hh.
    assert (tablesOf (setWorld v w1) = tablesOf w1) as Et by (unfold tablesOf; cbn; destruct Hst; congruence).
    revert Hh. unfold stageHolds. rewrite (bool_decide_false (s = operationStageRegistryApplied)) by congruence. by rewrite Et.
  - unfold recoverSnapshot, bindIO. destruct (query_unmoved (fun w => rn_compile run (tablesOf w)) w) as [Hu Hq].
    destruct (ctlQuery _ w) as [[[next|]|] w1]; [|done|done]. cbn in Hu, Hq. specialize (Hq _ eq_refl).
    assert (forall s, s <> stage -> stageHolds run o s w -> stageHolds run o s w1) as Hkeep by (intros s _; by apply holds_unmoved).
    destruct (managerMatches next (cw_manager w1)) eqn:Em.
    + intros [= <-]. split; [|done]. unfold managerMatches in Em. destruct (cw_manager w1) as [[rev cur]|]; [|done]. case_bool_decide; [|done]. subst cur. eauto.
    + unfold publishSnapshot. destruct (rn_infrastructure run next); [|done]. unfold bindIO, publishCompiledLocked. intros [= <-]. split; [eexists next, _; by split|].
      intros s Hs Hh. apply Hkeep in Hh; [|done]. revert Hh. unfold stageHolds. rewrite (bool_decide_false (s = operationStageSnapshotPublished)) by congruence.
      repeat (case_bool_decide; [|]); try done. intros (g & Hg & Ha). exists g. split; [done|]. by eapply applied_tables; [..|exact Ha].
  - intros [= _ <-]. by split.
Qed.

Lemma holds_advanced run stage now o s w : stageHolds run (advanced stage now o) s w <-> stageHolds run o s w.
Proof. by destruct o. Qed.

Lemma stages_hold run stages o w o' w' : serving_ok w -> NoDup stages -> runStages run stages o w = ((true, o'), w') ->
  forall s, s ∈ stages \/ stageHolds run o s w -> stageHolds run o s w'.
Proof.
  revert o w. induction stages as [|stage stages IH]; intros o w Hok Hnd; cbn [runStages].
  { intros [= _ <-] s [Hs|Hs]; [by apply elem_of_nil in Hs|done]. }
  unfold bindIO at 1. pose proof (pres_stage run o stage w Hok) as Hok1.
  destruct (recoverStage run o stage w) as [[] w1] eqn:Es; [|unfold bindIO; by destruct (recordOperationFailureLocked _ _ _ w1)].
  unfold bindIO at 1. pose proof (pres_advance run o stage w1 Hok1) as Hok2. pose proof (advance_unmoved run o stage w1) as Hu.
  destruct (advanceOperationStageLocked run o stage w1) as [[o2|e] w2] eqn:Ea; [|unfold bindIO; by destruct (recordOperationFailureLocked _ _ _ w2)].
  destruct (advance_ok run o stage w1 o2 w2 Ea) as (now & row & -> & _). cbn in Hok2, Hu. intros Hrun s Hs.
  destruct (stage_done run o stage w w1 Hok Es) as [Hdone Hkeep]. apply NoDup_cons in Hnd as [Hnew Hnd].
  apply (holds_advanced run stage now). apply (IH _ _ Hok2 Hnd Hrun). rewrite holds_advanced.
  destruct (decide (s = stage)) as [->|Hne]; [right; by eapply holds_unmoved|]. destruct Hs as [[->|Hs]%elem_of_cons|Hs]; [done|by left|].
  right. eapply holds_unmoved; [exact Hu|]. by apply Hkeep.
Qed.

Lemma requiredStages_shape kind stages : operationRequiredStages kind = Some stages ->
  NoDup stages /\ stageIndex stages operationStageDBCommitted = Some 0%nat /\ head stages = Some operationStageDBCommitted.
Proof.
  unfold operationRequiredStages. repeat case_match; intros [= <-]; (split; [apply (bool_decide_unpack _); vm_compute; exact I|]); by vm_compute.
Qed.

Lemma recover_holds run o w o' w' stages : serving_ok w -> recoverOperationLocked run o w = ((true, o'), w') ->
  operationRequiredStages (co_OperationKind o) = Some stages -> co_LastCompletedStage o = operationStageDBCommitted ->
  forall s, s ∈ stages -> stageHolds run o s w'.
Proof.
  intros Hok Hrun Hst Hlast. revert Hrun. unfold recoverOperationLocked. destruct (negb _); [done|]. rewrite Hst.
  destruct (co_RequiredStages o) as [stored|]; [|done]. case_bool_decide; [|done]. subst stored. cbn [negb].
  destruct (requiredStages_shape _ _ Hst) as (Hnd & Hi & Hh). rewrite Hlast, Hi. intros Hrun s Hs. destruct stages as [|s0 stages]; [done|].
  injection Hh as ->. cbn [drop] in Hrun. apply NoDup_cons in Hnd as [_ Hnd]. apply elem_of_cons in Hs as [->|Hs].
  - done.
  - apply (stages_hold run stages o w o' w' Hok Hnd Hrun). by left.
Qed.

Definition tables_ok (t : Tables) : Prop := rows_ok (tb_rows t) /\ forall id r, tb_rows t !! id = Some r -> is_u64 id.

(** Every stage of the kind of a successful operation has been carried out and still holds. *)
Lemma operation_stages run input w r w' :
  serving_ok w -> (forall mutate t m t', oi_Mutate input = Some mutate -> mutate t = Ok (m, t') -> tables_ok t -> tables_ok t') ->
  executeIdempotentOperation run input w = (Ok r, w') -> or_Replayed r = false ->
  exists o stages, operationRequiredStages (oi_Kind input) = Some stages /\ co_OperationKind o = oi_Kind input
    /\ co_ResourceIdentity o = or_ResourceIdentity r /\ forall stage, stage ∈ stages -> stageHolds run o stage w'.
Proof.
  intros Hok Hmut. unfold executeIdempotentOperation. destruct (negb _); [done|]. destruct (oi_Mutate input) as [mutate|]; [|done].
  destruct (_ || _); [done|]. unfold bindIO at 1. pose proof (pres_query (fun w => findOperation (oi_IdempotencyKey input) (cw_operations w)) w Hok) as Hok1.
  destruct (ctlQuery _ w) as [[[o|]|] w1]; [| |done].
  - destruct (validateOperationComparator o input); [done|]. unfold bindIO. destruct (enforceOperationRecoveryBarrierLocked _ _ w1) as [[e|] w2]; [done|].
    unfold replayIdempotentOperationLocked. destruct (validateOperationComparator o input); [done|]. destruct (co_CompactedAtMS o); [done|].
    case_bool_decide; [intros [= Hr _]; apply replayResult_ok in Hr as [_ ->]; done|]. unfold bindIO.
    destruct (recoverOperationLocked run o w2) as [[[] o'] w3]; [|done]. intros [= Hr _]. apply replayResult_ok in Hr as [_ ->]. done.
  - unfold bindIO at 1. pose proof (pres_barrier run 0 w1 Hok1) as Hok2. destruct (enforceOperationRecoveryBarrierLocked run 0 w1) as [[e|] w2]; [done|].
    unfold executeNew. destruct (operationRequiredStages (oi_Kind input)) as [stages|] eqn:Hst; [|done]. destruct (newOperationID _) as [id|]; [|done]. unfold bindIO at 1.
    destruct (withControlTransaction _ w2) as [[[o e]|e] w3] eqn:Et; [|done]. apply transaction_ok in Et.
    pose proof (pres_world _ pres_outcome w2 Hok2) as Hok3. set (wt := (onWorld nextOutcome w2).2) in *.
    assert (serving_ok w3 /\ co_OperationKind o = oi_Kind input /\ co_LastCompletedStage o = operationStageDBCommitted) as (Hok4 & Hkind & Hlast).
    { revert Et. unfold mutateBody. destruct (mutate (tablesOf wt)) as [[m t]|] eqn:Em; [|done]. destruct (_ || _); [done|]. destruct (negb _); [done|].
      destruct (epochMS _); [|done]. unfold createOperation. destruct (uniqueOperation _ _); [|done]. intros [= <- _ <-].
      destruct Hok3 as [Hreg Hrows Hty]. destruct (Hmut mutate _ _ _ eq_refl Em) as [Hrows' Hty']; [by split|]. split; [|done]. by split. }
    unfold bindIO. destruct (recoverOperationLocked run o w3) as [[[] o'] w4] eqn:Er; [|done]. intros [= <- <-] _. cbn.
    exists o, stages. split; [done|]. split; [done|]. split; [|by apply (recover_holds run o w3 o' w4 stages Hok4 Er); [rewrite Hkind|]].
    destruct (recover_complete run o w3 o' w4 Er) as (Hl & _); [by rewrite Hlast|]. by rewrite (lt_identity _ _ Hl).
Qed.

(** The prices and the configuration in force are those computed of the committed tables. *)
Definition pricesInForce run w : Prop := exists table, rn_priceTable run (tablesOf w) = Some table /\ cw_prices w = Some table.
Definition configInForce run w : Prop := exists next revision, rn_compile run (tablesOf w) = Some next /\ cw_manager w = Some (revision, next).

(** C14: When a request that made its mutation is answered with success, what it concerns is in
    force: after a change of an access key the configuration compiled of the committed tables,
    after the creation of a group also the price table of the committed tables and a registry that
    agrees with the credentials of the new group as the loader reads them, and after an import of
    credentials a registry that agrees with those of their group.  It needs that the mutation
    writes well-formed credential rows. *)
Theorem operation_effects_applied run input w r w' :
  serving_ok w -> (forall mutate t m t', oi_Mutate input = Some mutate -> mutate t = Ok (m, t') -> tables_ok t -> tables_ok t') ->
  executeIdempotentOperation run input w = (Ok r, w') -> or_Replayed r = false ->
  let registryInForce := exists g, parseResourceIdentity (or_ResourceIdentity r) "group" = Some g /\ groupApplied g (cw_world w') in
  (oi_Kind input ∈ [operationKindAccessKeyCreate; operationKindAccessKeyRotate; operationKindAccessKeyUpdate] /\ configInForce run w')
  \/ (oi_Kind input = operationKindGroupCreate /\ pricesInForce run w' /\ registryInForce /\ configInForce run w')
  \/ (oi_Kind input = operationKindCredentialImport /\ registryInForce).
Proof.
  intros Hok Hmut Hrun Hrep. destruct (operation_stages run input w r w' Hok Hmut Hrun Hrep) as (o & stages & Hst & Hkind & Hid & Hstages).
  cbn zeta. rewrite <- Hid. revert Hst. unfold operationRequiredStages. destruct (accessKeyKind (oi_Kind input)) eqn:Ek.
  - intros [= <-]. left. split; [by apply bool_decide_eq_true in Ek|]. apply (Hstages operationStageSnapshotPublished). right. left.
  - case_bool_decide as Eg; [|case_bool_decide as Ei; [|done]]; intros [= <-]; right; [left|right]; (split; [done|]);
      assert (operationGroupID o = parseResourceIdentity (co_ResourceIdentity o) "group") as Hg
        by (unfold operationGroupID; by rewrite Hkind, ?Eg, ?Ei).
    + split; [apply (Hstages operationStagePricesPublished); right; left|]. split; [|apply (Hstages operationStageSnapshotPublished); do 3 right; left].
      rewrite <- Hg. apply (Hstages operationStageRegistryApplied). do 2 right. left.
    + rewrite <- Hg. apply (Hstages operationStageRegistryApplied). right. left.
Qed.

End Applied.

(** * Examples *)

(** Prices and configurations are trivial. *)
Definition exControlPlane : ControlPlane := {|
  RestTables := unit; PublishedPrices := unit; CompiledConfig := unit; config_eq_dec := _;
  configSnapshot := fun revision _ => mkSnapshot RouteStrategyNativeFirst revision ∅ ∅ ∅ ∅ ∅ |}.

#[local] Existing Instance asciiText.
#[local] Existing Instance exPlatform.
#[local] Existing Instance exDigestPlatform.
#[local] Existing Instance exControlPlane.

Definition exNewRow : CredentialRow := mkCredentialRow "new" 2 7 "enc2" "fp2" "identity2" 1 AuthReady "" StatusActive None None.

(** The import of a credential into the group of [exWorld]. *)
Definition exImport (t : Tables) : result controlError (idempotentMutationResult * Tables) :=
  Ok (mkMutationResult "group:7" "{}" None,
      mkTables (<[2 := exNewRow]> (tb_rows t)) (tb_groups t) (tb_proxies t) (tb_rest t)).

Definition exInput : idempotentOperationInput :=
  mkOperationInput "00000000-0000-4000-8000-000000000000" 1 "0123456789abcdef0123456789abcdef"
    operationKindCredentialImport (Some exImport).

Definition exControlRun : ControlRun :=
  mkControlRun 1000 [1; 2; 3; 4; 5; 6; 7; 8; 9; 10; 11; 12; 13; 14; 15; 16] (fun _ => Some tt) (fun _ => Some tt) (fun _ => true).

Definition exControl : ControlWorld := newControl exWorld tt.
Definition exFirst := executeIdempotentOperation exControlRun exInput exControl.
Definition exSecond := executeIdempotentOperation exControlRun exInput exFirst.2.

Lemma exImport_ok mutate t m t' : oi_Mutate exInput = Some mutate -> mutate t = Ok (m, t') -> tables_ok t -> tables_ok t'.
Proof.
  intros [= <-] [= _ <-] [Hrows Hty]. split; cbn.
  - intros id x [[<- <-]|[_ Hx]]%lookup_insert_Some; [done|by apply Hrows].
  - intros id x [[<- <-]|[_ Hx]]%lookup_insert_Some; [unfold is_u64, maxUint64; lia|by eapply Hty].
Qed.

(** The request is sent twice: the second answer repeats the first. *)
Lemma idempotent_exactly_once_witness :
  exists answers, rtc control_step (exControl, []) (exSecond.2, answers)
    /\ (or_Replayed ∘ an_Result <$> answers) = [false; true]
    /\ length (cw_commits exSecond.2) = 1%nat /\ NoDup (cm_Key <$> cw_commits exSecond.2)
    /\ forall a b, a ∈ answers -> b ∈ answers -> or_OperationID (an_Result a) = or_OperationID (an_Result b).
Proof.
  set (answers := ([] ++ answersOf exInput exFirst.1) ++ answersOf exInput exSecond.1).
  assert (rtc control_step (exControl, []) (exSecond.2, answers)) as Hrun.
  { eapply rtc_l; [apply (step_request exControlRun exInput exControl [] exFirst.1 exFirst.2); apply surjective_pairing|].
    apply rtc_once. apply (step_request exControlRun exInput exFirst.2 _ exSecond.1 exSecond.2). apply surjective_pairing. }
  destruct (idempotent_exactly_once exWorld (tt : @RestTables exControlPlane) exSecond.2 answers Hrun) as (Hnd & _ & _ & Hsame & _).
  assert (an_Key <$> answers = [oi_IdempotencyKey exInput; oi_IdempotencyKey exInput]) as Hkeys by (vm_compute; reflexivity).
  exists answers. split; [exact Hrun|]. split; [vm_compute; reflexivity|]. split; [vm_compute; reflexivity|]. split; [exact Hnd|].
  intros a b Ha Hb. apply (Hsame a b Ha Hb).
  assert (forall x, x ∈ answers -> an_Key x = oi_IdempotencyKey exInput) as Hk; [|by rewrite (Hk a Ha), (Hk b Hb)].
  intros x Hx. apply (list_elem_of_fmap_2 an_Key) in Hx. rewrite Hkeys in Hx. by rewrite !elem_of_cons, elem_of_nil in Hx; destruct Hx as [->|[->|[]]].
Defined.

(** The imported credential is served. *)
Lemma operation_effects_applied_witness :
  exists r w', exFirst = (Ok r, w') /\ or_Replayed r = false /\ groupApplied 7 (cw_world w')
    /\ size (w_rows (cw_world w')) = 2%nat.
Proof.
  assert (is_ok exFirst.1 = true /\ size (w_rows (cw_world exFirst.2)) = 2%nat
    /\ (match exFirst.1 with Ok r => negb (or_Replayed r) && bool_decide (or_ResourceIdentity r = "group:7"%string) | Err _ => false end) = true) as (H1 & H2 & H3)
    by (vm_compute; auto).
  destruct exFirst as [[r|e] w'] eqn:E; [|discriminate H1]. cbn in H2, H3. apply andb_true_iff in H3 as [Hr%negb_true_iff Hid%bool_decide_eq_true].
  exists r, w'. split; [reflexivity|]. split; [exact Hr|]. split; [|exact H2].
  destruct (operation_effects_applied exControlRun exInput exControl r w' exWorld_ok exImport_ok E Hr) as [[Hk _]|[[Hk _]|[_ (g & Hg & Ha)]]].
  - exfalso. assert (accessKeyKind (oi_Kind exInput) = false) as Hn by reflexivity. apply bool_decide_eq_false in Hn. exact (Hn Hk).
  - discriminate Hk.
  - rewrite Hid in Hg. vm_compute in Hg. injection Hg as <-. exact Ha.
Defined.
