(* ===== verification/Threads.v ===== *)
(** Programs that run beside each other on one database: the handlers of the control plane that
    hold no lock across their queries.

    A program is the tree of what it may do next.  A transaction is atomic; it may commit, fail, or
    be committed although it reports an error.  Between any two actions of a program every other
    program may act.  Calls of a provider are recorded, the sending and the answer separately.

    [wp] is the obligation of a program that follows a protocol: a token says what the program may
    do, every action has to be one the token permits, and changes the token. *)
From S2P Require Import Prelude.

Inductive prog {T C Ans : Type} (A : Type) : Type :=
| Return (a : A)
| Transact {B : Type} (q : T -> B * T) (k : option B -> prog A)
| Clock (k : Z -> prog A)
| Ask {B : Type} (k : B -> prog A)
| Random (k : list Z -> prog A)
| Send (key : string) (c : C) (k : prog A)
| Receive (key : string) (k : Ans -> prog A).
Arguments Return {T C Ans A} a.
Arguments Transact {T C Ans A B} q k.
Arguments Clock {T C Ans A} k.
Arguments Ask {T C Ans A B} k.
Arguments Random {T C Ans A} k.
Arguments Send {T C Ans A} key c k.
Arguments Receive {T C Ans A} key k.

(** * Sequencing *)

Fixpoint bindP {T C Ans A B} (p : @prog T C Ans A) (f : A -> @prog T C Ans B) : @prog T C Ans B :=
  match p with
  | Return a => f a
  | Transact q k => Transact q (fun b => bindP (k b) f)
  | Clock k => Clock (fun t => bindP (k t) f)
  | Ask k => Ask (fun b => bindP (k b) f)
  | Random k => Random (fun b => bindP (k b) f)
  | Send key c k => Send key c (bindP k f)
  | Receive key k => Receive key (fun a => bindP (k a) f)
  end.

Notation "'let!' x := p 'in' k" := (bindP p (fun x => k))
  (at level 10, x pattern, p at level 100, k at level 200) : go_scope.

(** The early return of an error. *)
Notation "'try*' x := p 'in' k" :=
  (bindP p (fun r => match r with Ok x => k | Err e => Return (Err e) end))
  (at level 10, x pattern, p at level 100, k at level 200) : go_scope.

Definition transact {T C Ans B} (q : T -> B * T) : @prog T C Ans (option B) := Transact q Return.
Definition clock {T C Ans} : @prog T C Ans Z := Clock Return.
Definition ask {T C Ans} (B : Type) : @prog T C Ans B := Ask Return.
Definition random {T C Ans} : @prog T C Ans (list Z) := Random Return.
Definition call {T C Ans} (key : string) (c : C) : @prog T C Ans Ans := Send key c (Receive key Return).

(** * Running *)

Inductive event {C Ans : Type} : Type :=
| Sent (key : string) (c : C)
| Received (key : string) (a : Ans).
Arguments event : clear implicits.

Definition eventKey {C Ans} (e : event C Ans) : string := match e with Sent key _ | Received key _ => key end.

(** What the programs share: the tables, the calls so far, and the identifiers drawn. *)
Record Shared {T C Ans : Type} := mkShared { sh_tables : T; sh_events : list (event C Ans); sh_drawn : gset string }.
Arguments Shared : clear implicits.
Arguments mkShared {T C Ans}.

Section Steps.
Context {T C Ans : Type} (idOf : list Z -> option string).
Abbreviation prog' := (@prog T C Ans) (only parsing).

Inductive pstep {A} : prog' A -> Shared T C Ans -> prog' A -> Shared T C Ans -> Prop :=
| p_commit B (q : T -> B * T) k t ev d b t' :
    q t = (b, t') -> pstep (Transact q k) (mkShared t ev d) (k (Some b)) (mkShared t' ev d)
| p_fail B (q : T -> B * T) k s : pstep (Transact q k) s (k None) s
| p_lost B (q : T -> B * T) k t ev d b t' :
    q t = (b, t') -> pstep (Transact q k) (mkShared t ev d) (k None) (mkShared t' ev d)
| p_clock k now s : pstep (Clock k) s (k now) s
| p_ask B (k : B -> prog' A) b s : pstep (Ask k) s (k b) s
| p_random k bytes t ev d :
    (forall id, idOf bytes = Some id -> id ∉ d) ->
    pstep (Random k) (mkShared t ev d) (k bytes)
      (mkShared t ev (match idOf bytes with Some id => {[id]} ∪ d | None => d end))
| p_send key c k t ev d : pstep (Send key c k) (mkShared t ev d) k (mkShared t (ev ++ [Sent key c]) d)
| p_receive key k a t ev d : pstep (Receive key k) (mkShared t ev d) (k a) (mkShared t (ev ++ [Received key a]) d).

(** All programs that run, and what they share.  The process may be restarted at any point. *)
Record Running (R : Type) := mkRunning { rn_threads : list (prog' R); rn_shared : Shared T C Ans }.

Inductive run_step {R} (handlers : prog' R -> Prop) : Running R -> Running R -> Prop :=
| r_start p ts s : handlers p -> run_step handlers (mkRunning R ts s) (mkRunning R (ts ++ [p]) s)
| r_thread i p p' ts s s' :
    ts !! i = Some p -> pstep p s p' s' -> run_step handlers (mkRunning R ts s) (mkRunning R (<[i := p']> ts) s')
| r_restart ts s : run_step handlers (mkRunning R ts s) (mkRunning R [] s).

(** * Protocols *)

(** What the token of a program permits, and the token after it. *)
Record protocol (G : Type) := mkProtocol {
  pr_ok : T -> Prop;
  pr_move : G -> T -> T -> G -> Prop;
  pr_send : G -> string -> C -> G -> Prop;
  pr_receive : G -> string -> Ans -> G -> Prop;
  pr_draw : G -> string -> G -> Prop
}.

Section Wp.
Context {G : Type} (P : protocol G).

Fixpoint wp {A} (g : G) (p : prog' A) (Q : G -> A -> Prop) : Prop :=
  match p with
  | Return a => Q g a
  | Transact q k =>
      (forall t, pr_ok G P t ->
        (exists g', pr_move G P g t (q t).2 g' /\ wp g' (k (Some (q t).1)) Q) /\
        (exists g', pr_move G P g t (q t).2 g' /\ wp g' (k None) Q)) /\
      wp g (k None) Q
  | Clock k => forall now, wp g (k now) Q
  | Ask k => forall b, wp g (k b) Q
  | Random k => forall bytes, match idOf bytes with
                              | Some id => exists g', pr_draw G P g id g' /\ wp g' (k bytes) Q
                              | None => wp g (k bytes) Q
                              end
  | Send key c k => exists g', pr_send G P g key c g' /\ wp g' k Q
  | Receive key k => forall a, exists g', pr_receive G P g key a g' /\ wp g' (k a) Q
  end.

Lemma wp_mono {A} g (p : prog' A) (Q Q' : G -> A -> Prop) : (forall g a, Q g a -> Q' g a) -> wp g p Q -> wp g p Q'.
Proof.
  intros HQ. revert g. induction p as [a|B q k IH|k IH|B k IH|k IH|key c k IH|key k IH]; cbn; intros g Hp.
  - by apply HQ.
  - destruct Hp as [Ht Hf]. split; [|by apply IH]. intros t Hok. destruct (Ht t Hok) as [(g1 & Hm1 & H1) (g2 & Hm2 & H2)]. split; eauto.
  - intros now. by apply IH.
  - intros b. by apply IH.
  - intros bytes. specialize (Hp bytes). destruct (idOf bytes); [|by apply IH]. destruct Hp as (g' & Hd & Hk). eauto.
  - destruct Hp as (g' & Hs & Hk). eauto.
  - intros a. destruct (Hp a) as (g' & Hr & Hk). eauto.
Qed.

Lemma wp_bind {A B} g (p : prog' A) (f : A -> prog' B) Q : wp g p (fun g' a => wp g' (f a) Q) -> wp g (bindP p f) Q.
Proof.
  revert g. induction p as [a|B' q k IH|k IH|B' k IH|k IH|key c k IH|key k IH]; cbn; intros g Hp.
  - done.
  - destruct Hp as [Ht Hf]. split; [|by apply IH]. intros t Hok. destruct (Ht t Hok) as [(g1 & Hm1 & H1) (g2 & Hm2 & H2)]. split; eauto.
  - intros now. by apply IH.
  - intros b. by apply IH.
  - intros bytes. specialize (Hp bytes). destruct (idOf bytes); [|by apply IH]. destruct Hp as (g' & Hd & Hk). eauto.
  - destruct Hp as (g' & Hs & Hk). eauto.
  - intros a. destruct (Hp a) as (g' & Hr & Hk). eauto.
Qed.

(** What a step of a program does to its token and to what the programs share. *)
Inductive token_step (g : G) (s : Shared T C Ans) : G -> Shared T C Ans -> Prop :=
| t_idle : token_step g s g s
| t_move t' g' : pr_move G P g (sh_tables s) t' g' -> token_step g s g' (mkShared t' (sh_events s) (sh_drawn s))
| t_draw id g' : id ∉ sh_drawn s -> pr_draw G P g id g' -> token_step g s g' (mkShared (sh_tables s) (sh_events s) ({[id]} ∪ sh_drawn s))
| t_send key c g' : pr_send G P g key c g' -> token_step g s g' (mkShared (sh_tables s) (sh_events s ++ [Sent key c]) (sh_drawn s))
| t_receive key a g' :
    pr_receive G P g key a g' -> token_step g s g' (mkShared (sh_tables s) (sh_events s ++ [Received key a]) (sh_drawn s)).

Lemma wp_pstep {A} g (p p' : prog' A) s s' Q :
  wp g p Q -> pr_ok G P (sh_tables s) -> pstep p s p' s' -> exists g', token_step g s g' s' /\ wp g' p' Q.
Proof.
  intros Hwp Hok Hs. destruct Hs as [B q k t ev d b t' Hq|B q k s|B q k t ev d b t' Hq|k now s|B k b s|k bytes t ev d Hd|key c k t ev d|key k a t ev d];
    cbn in Hwp.
  - destruct Hwp as [Ht _]. destruct (Ht t Hok) as [(g' & Hm & Hk) _]. rewrite Hq in Hm, Hk. exists g'. split; [by apply (t_move g (mkShared t ev d))|done].
  - destruct Hwp as [_ Hk]. exists g. split; [constructor|done].
  - destruct Hwp as [Ht _]. destruct (Ht t Hok) as [_ (g' & Hm & Hk)]. rewrite Hq in Hm. exists g'. split; [by apply (t_move g (mkShared t ev d))|done].
  - exists g. split; [constructor|done].
  - exists g. split; [constructor|done].
  - specialize (Hwp bytes). destruct (idOf bytes) as [id|]; [|by exists g; split; [constructor|]].
    destruct Hwp as (g' & Hg & Hk). exists g'. split; [|done]. apply (t_draw g (mkShared t ev d)); [by apply Hd|done].
  - destruct Hwp as (g' & Hg & Hk). exists g'. split; [by apply (t_send g (mkShared t ev d))|done].
  - destruct (Hwp a) as (g' & Hg & Hk). exists g'. split; [by apply (t_receive g (mkShared t ev d))|done].
Qed.

End Wp.
End Steps.
Arguments Running : clear implicits.
Arguments mkRunning {T C Ans R}.
Arguments rn_threads {T C Ans R}.
Arguments rn_shared {T C Ans R}.
