(* ===== verification/StageRows.v ===== *)
(** The stages through which a credential of a subscription is obtained: an authorisation in the
    browser, by a device code or by a file, until it is connected to a group
    ([internal/control/credential_stages.go], [discover_subscription.go],
    [credential_connections.go], [oauth_callback.go], with the row of
    [internal/storage/models/subscription.go]).

    No lock is held while the provider is asked, so each handler is a program of [Threads].  The
    handlers' service is complete: the tests for missing parts have no counterpart.  The cipher,
    JSON, [url.Parse], the compiled channels and drivers and the network contexts, which other
    parts of the program compute, are fields of a class.  The JSON column of the summary holds the
    decoded value. *)
From Stdlib Require Import Ascii.
From S2P Require Import Prelude GoStrings Execution Config Credential Ledger Registry PriceTable Refresh Idempotency Threads.

Local Open Scope go_scope.
Local Open Scope Z_scope.

(** * Rows *)

Inductive CredentialStageStatus :=
| StagePendingAuthorization
| StageExchanging
| StageReady
| StageConsumed
| StageFailed
| StageCancelled
| StageExpired
| StageOutcomeUnknown.

#[export] Instance CredentialStageStatus_eq_dec : EqDecision CredentialStageStatus.
Proof. solve_decision. Defined.

Record CredentialStageAccount := mkStageAccount { sa_EmailMask : string; sa_ExpiresAtMS : option Z; sa_LastRefreshAtMS : option Z }.

Record authorizationSummary := mkAuthorizationSummary {
  as_AuthorizationURL : string;
  as_UserCode : string;
  as_NextPollAtMS : Z;
  as_PollIntervalMS : Z
}.

(** The summary of a device authorisation, or of an account; [{}] is an account without data. *)
Inductive safeSummary := SummaryAuthorization (a : authorizationSummary) | SummaryAccount (a : CredentialStageAccount).

Definition noAccount : CredentialStageAccount := mkStageAccount "" None None.

Definition decodeCredentialStageSafeSummary (s : safeSummary) : CredentialStageAccount * option authorizationSummary :=
  match s with SummaryAuthorization a => (noAccount, Some a) | SummaryAccount a => (a, None) end.

Record CredentialStage := mkStage {
  st_ID : string;
  st_ChannelID : string;
  st_ConnectionType : string;
  st_AuthorizationMethod : string;
  st_Status : CredentialStageStatus;
  st_EncryptedPayload : string;
  st_PayloadSchemaVersion : Z;
  st_SafeSummary : safeSummary;
  st_IdentityFingerprint : string;
  st_OAuthStateHash : option string;
  st_ExpiresAtMS : Z;
  st_ConsumedAtMS : option Z;
  st_ConsumedGroupID : option Z;
  st_ErrorCode : string;
  st_CreatedAtMS : Z;
  st_UpdatedAtMS : Z
}.

Definition setStatus (v : CredentialStageStatus) (s : CredentialStage) : CredentialStage :=
  mkStage (st_ID s) (st_ChannelID s) (st_ConnectionType s) (st_AuthorizationMethod s) v (st_EncryptedPayload s)
    (st_PayloadSchemaVersion s) (st_SafeSummary s) (st_IdentityFingerprint s) (st_OAuthStateHash s) (st_ExpiresAtMS s)
    (st_ConsumedAtMS s) (st_ConsumedGroupID s) (st_ErrorCode s) (st_CreatedAtMS s) (st_UpdatedAtMS s).
Definition setPayload (v : string) (s : CredentialStage) : CredentialStage :=
  mkStage (st_ID s) (st_ChannelID s) (st_ConnectionType s) (st_AuthorizationMethod s) (st_Status s) v
    (st_PayloadSchemaVersion s) (st_SafeSummary s) (st_IdentityFingerprint s) (st_OAuthStateHash s) (st_ExpiresAtMS s)
    (st_ConsumedAtMS s) (st_ConsumedGroupID s) (st_ErrorCode s) (st_CreatedAtMS s) (st_UpdatedAtMS s).
Definition setSchema (v : Z) (s : CredentialStage) : CredentialStage :=
  mkStage (st_ID s) (st_ChannelID s) (st_ConnectionType s) (st_AuthorizationMethod s) (st_Status s)
    (st_EncryptedPayload s) v (st_SafeSummary s) (st_IdentityFingerprint s) (st_OAuthStateHash s) (st_ExpiresAtMS s)
    (st_ConsumedAtMS s) (st_ConsumedGroupID s) (st_ErrorCode s) (st_CreatedAtMS s) (st_UpdatedAtMS s).
Definition setSummary (v : safeSummary) (s : CredentialStage) : CredentialStage :=
  mkStage (st_ID s) (st_ChannelID s) (st_ConnectionType s) (st_AuthorizationMethod s) (st_Status s)
    (st_EncryptedPayload s) (st_PayloadSchemaVersion s) v (st_IdentityFingerprint s) (st_OAuthStateHash s)
    (st_ExpiresAtMS s) (st_ConsumedAtMS s) (st_ConsumedGroupID s) (st_ErrorCode s) (st_CreatedAtMS s) (st_UpdatedAtMS
    s).
Definition setIdentity (v : string) (s : CredentialStage) : CredentialStage :=
  mkStage (st_ID s) (st_ChannelID s) (st_ConnectionType s) (st_AuthorizationMethod s) (st_Status s)
    (st_EncryptedPayload s) (st_PayloadSchemaVersion s) (st_SafeSummary s) v (st_OAuthStateHash s) (st_ExpiresAtMS s)
    (st_ConsumedAtMS s) (st_ConsumedGroupID s) (st_ErrorCode s) (st_CreatedAtMS s) (st_UpdatedAtMS s).
Definition setHash (v : option string) (s : CredentialStage) : CredentialStage :=
  mkStage (st_ID s) (st_ChannelID s) (st_ConnectionType s) (st_AuthorizationMethod s) (st_Status s)
    (st_EncryptedPayload s) (st_PayloadSchemaVersion s) (st_SafeSummary s) (st_IdentityFingerprint s) v (st_ExpiresAtMS
    s) (st_ConsumedAtMS s) (st_ConsumedGroupID s) (st_ErrorCode s) (st_CreatedAtMS s) (st_UpdatedAtMS s).
Definition setExpires (v : Z) (s : CredentialStage) : CredentialStage :=
  mkStage (st_ID s) (st_ChannelID s) (st_ConnectionType s) (st_AuthorizationMethod s) (st_Status s)
    (st_EncryptedPayload s) (st_PayloadSchemaVersion s) (st_SafeSummary s) (st_IdentityFingerprint s)
    (st_OAuthStateHash s) v (st_ConsumedAtMS s) (st_ConsumedGroupID s) (st_ErrorCode s) (st_CreatedAtMS s)
    (st_UpdatedAtMS s).
Definition setCode (v : string) (s : CredentialStage) : CredentialStage :=
  mkStage (st_ID s) (st_ChannelID s) (st_ConnectionType s) (st_AuthorizationMethod s) (st_Status s)
    (st_EncryptedPayload s) (st_PayloadSchemaVersion s) (st_SafeSummary s) (st_IdentityFingerprint s)
    (st_OAuthStateHash s) (st_ExpiresAtMS s) (st_ConsumedAtMS s) (st_ConsumedGroupID s) v (st_CreatedAtMS s)
    (st_UpdatedAtMS s).
Definition setUpdated (v : Z) (s : CredentialStage) : CredentialStage :=
  mkStage (st_ID s) (st_ChannelID s) (st_ConnectionType s) (st_AuthorizationMethod s) (st_Status s)
    (st_EncryptedPayload s) (st_PayloadSchemaVersion s) (st_SafeSummary s) (st_IdentityFingerprint s)
    (st_OAuthStateHash s) (st_ExpiresAtMS s) (st_ConsumedAtMS s) (st_ConsumedGroupID s) (st_ErrorCode s)
    (st_CreatedAtMS s) v.
Definition setConsumed (at_ group : Z) (s : CredentialStage) : CredentialStage :=
  mkStage (st_ID s) (st_ChannelID s) (st_ConnectionType s) (st_AuthorizationMethod s) (st_Status s)
    (st_EncryptedPayload s) (st_PayloadSchemaVersion s) (st_SafeSummary s) (st_IdentityFingerprint s)
    (st_OAuthStateHash s) (st_ExpiresAtMS s) (Some at_) (Some group) (st_ErrorCode s) (st_CreatedAtMS s)
    (st_UpdatedAtMS s).

Definition credentialStageReadyTTL : Z := 30 * minute.
Definition credentialStageAuthTTL : Z := 5 * minute.
Definition credentialStageDeviceMaxTTL : Z := 30 * minute.
Definition credentialStageTombstoneTTL : Z := 24 * (60 * minute).
Definition maxCredentialStageIDs : Z := 1000.
Definition maxOAuthFileBytes : Z := 64 * 1024.
Definition maxDeviceAuthorizationURL : Z := 4096.
Definition maxDeviceAuthorizationCode : Z := 128.
Definition stagedSubscriptionSchemaV2 : Z := 2.
Definition defaultSubscriptionControlTimeout : Z := 30 * second.
Definition ConnectionTypeSubscription : string := "subscription".
Definition AuthorizationBrowserOAuth : string := "browser_oauth".
Definition AuthorizationDeviceOAuth : string := "device_oauth".

Record NetworkContext := mkNetworkContext { nc_Proxy : string; nc_Fingerprint : string }.

Record stagedSubscriptionPayload := mkPayload {
  sp_Credential : string;
  sp_State : string;
  sp_DriverState : string;
  sp_Network : option NetworkContext
}.

(** * The provider *)

Record AuthorizationCompletion := mkCompletion {
  cp_ExpectedState : string;
  cp_ReturnedState : string;
  cp_Code : string;
  cp_DriverState : string
}.

Record Authorization := mkAuthorization { au_URL : string; au_State : string; au_DriverState : string; au_RedirectURI : string }.

Record DeviceAuthorization := mkDeviceAuthorization {
  da_VerificationURL : string;
  da_UserCode : string;
  da_DriverState : string;
  da_ExpiresAt : Z;
  da_PollInterval : Z
}.

Inductive DeviceAuthorizationPoll :=
| PollPending (driverState : string) (interval : Z)
| PollAuthorized (c : SubCredential)
| PollDenied
| PollExpired
| PollOther.

(** What is sent for a stage, and the answers; an error that the driver calls definitive is a
    rejection. *)
Inductive stageCall :=
| CallExchange (channelID : string) (c : AuthorizationCompletion)
| CallPoll (channelID driverState : string)
| CallRefresh (channelID : string) (c : SubCredential).

Inductive stageAnswer :=
| AnswerCredential (c : SubCredential)
| AnswerRejected
| AnswerError
| AnswerPoll (p : DeviceAuthorizationPoll)
| AnswerRefreshFailure (f : RefreshFailure).

(** * Tables *)

Record Tables := mkTables { tb_stages : gmap string CredentialStage; tb_credentials : gmap Z CredentialRow; tb_groups : gmap Z GroupRow }.

Definition setStages (m : gmap string CredentialStage) (t : Tables) : Tables := mkTables m (tb_credentials t) (tb_groups t).
Definition setCredentials (m : gmap Z CredentialRow) (t : Tables) : Tables := mkTables (tb_stages t) m (tb_groups t).

Abbreviation prog := (@prog Tables stageCall stageAnswer) (only parsing).

(** [UPDATE ... WHERE id = ? AND ...]: the number of rows. *)
Definition updateStage (id : string) (cond : CredentialStage -> bool) (f : CredentialStage -> CredentialStage) (t : Tables) : Z * Tables :=
  match tb_stages t !! id with
  | Some r => if cond r then (1, setStages (<[id := f r]> (tb_stages t)) t) else (0, t)
  | None => (0, t)
  end.

(** [INSERT], with the primary key and the unique index on the hash of the OAuth state. *)
Definition hashTaken (h : option string) (t : Tables) : bool :=
  match h with
  | None => false
  | Some _ => existsb (fun kv => opt_eqb (st_OAuthStateHash kv.2) h) (map_to_list (tb_stages t))
  end.

Definition createStage (r : CredentialStage) (t : Tables) : bool * Tables :=
  if isSome (tb_stages t !! st_ID r) || hashTaken (st_OAuthStateHash r) t then (false, t)
  else (true, setStages (<[st_ID r := r]> (tb_stages t)) t).

Definition takeStage (id : string) (t : Tables) : option CredentialStage * Tables := (tb_stages t !! id, t).

Definition isStatus (s : CredentialStageStatus) (r : CredentialStage) : bool := bool_decide (st_Status r = s).

(** The first row that satisfies a condition. *)
Definition findStage (cond : CredentialStage -> bool) (t : Tables) : option CredentialStage :=
  find cond (map_to_list (tb_stages t)).*2.

Inductive StageError :=
| ErrValidation
| ErrBadRequest
| ErrResourceNotFound
| ErrDatabase
| ErrInternalServer
| ErrAuthorizationStateInvalid
| ErrAuthorizationExchangeFailed
| ErrAuthorizationUnavailable
| ErrStagedCredentialExpired
| ErrStagedCredentialNotReady
| ErrStagedCredentialMismatch
| ErrStagedCredentialConsumed
| ErrCredentialAuthOutcomeUnknown
| ErrCredentialReauthorizationRequired
| ErrCredentialRefreshTemporarilyUnavailable
| ErrDuplicateCredentialIdentity
| ErrCredentialVersionConflict
| ErrOAuthFileTooLarge
| ErrOAuthFileInvalid
| ErrBadGateway
| ErrContext.

#[export] Instance StageError_eq_dec : EqDecision StageError.
Proof. solve_decision. Defined.

Abbreviation res := (result StageError) (only parsing).

Record CredentialStageResult := mkStageResult {
  sr_StageID : string;
  sr_Status : CredentialStageStatus;
  sr_AuthorizationMethod : string;
  sr_AuthorizationURL : string;
  sr_RedirectURI : string;
  sr_UserCode : string;
  sr_NextPollAtMS : Z;
  sr_Account : CredentialStageAccount;
  sr_ExpiresAtMS : Z;
  sr_ErrorCode : string
}.

(** What [url.Parse] tells. *)
Record parsedURL := mkParsedURL {
  ur_IsAbs : bool;
  ur_Opaque : string;
  ur_Host : string;
  ur_Scheme : string;
  ur_User : bool;
  ur_Fragment : string;
  ur_Hostname : string;
  ur_Port : string;
  ur_EscapedPath : string;
  ur_Query : gmap string (list string)
}.

Class StagePlatform := {
  EncryptWith : string -> string -> option string;
  marshalPayload : stagedSubscriptionPayload -> option string;
  unmarshalPayload : string -> option stagedSubscriptionPayload;
  unmarshalPayloadV1 : string -> option (string * string);
  marshalVerifier : string -> option string;
  compactJSON : string -> string;
  ConnectionTypeOf : string -> option string;
  SupportsAuthorizationMethod : string -> string -> bool;
  DriverOf : string -> option Driver;
  browserDriver : string -> bool;
  LocalCallback : string -> option string;
  proxyNetworkContext : string -> option NetworkContext;
  parseURL : string -> option parsedURL
}.

(** [encoding/json] writes a raw message compactly and reads it back; what the cipher has
    encrypted it decrypts. *)
Class StagePlatformLaws `{SubscriptionPlatform} `{StagePlatform} := {
  Decrypt_EncryptWith : forall n p c, EncryptWith n p = Some c -> Decrypt c = Some p;
  unmarshal_marshal : forall p j, marshalPayload p = Some j ->
    exists p', unmarshalPayload j = Some p' /\ sp_Credential p' = compactJSON (sp_Credential p)
}.

(** * Text *)

(** [strings.EqualFold] against an ASCII text. *)
Definition equalFold (a b : string) : bool := bool_decide (lowerByte <$> bytes_of a = lowerByte <$> bytes_of b).

Fixpoint runesOf (fuel : nat) (l : list ascii) : list (list ascii) :=
  match fuel, l with
  | O, _ | _, [] => []
  | S n, _ => take (runeWidth l) l :: runesOf n (drop (runeWidth l) l)
  end.

(** [string(r)] of a decoded rune: an invalid byte has become U+FFFD. *)
Definition runeText (r : list ascii) : list ascii :=
  match r with
  | [c] => if byteZ c <? 128 then r else [ascii_of_nat 239; ascii_of_nat 191; ascii_of_nat 189]
  | _ => r
  end.

Definition maskEmail (email : string) : string :=
  let '(user, domain, found) := cutAt "@"%char (bytes_of (TrimSpace email)) in
  if negb found || containsByte "@"%char domain || bool_decide (user = []) || bool_decide (domain = []) then ""%string
  else
    let runes := runesOf (length user) user in
    let first := runeText (default [] (head runes)) in
    let last := if bool_decide (length runes = 1%nat) then [] else runeText (default [] (last runes)) in
    of_bytes (first ++ bytes_of "***" ++ last ++ bytes_of "@" ++ domain).

Definition subscriptionCredentialAccount (c : SubCredential) : CredentialStageAccount :=
  let m := sc_account c in
  mkStageAccount (maskEmail (ac_Email m))
    (if ac_ExpiresAtKnown m then Some (unixMilli (ac_ExpiresAt m)) else None)
    (if ac_LastRefreshKnown m then Some (unixMilli (ac_LastRefresh m)) else None).

Definition errorCodeByte (c : ascii) : bool :=
  let b := byteZ c in (97 <=? b) && (b <=? 122) || (48 <=? b) && (b <=? 57) || (b =? 95).

Definition normalizeDevicePollInterval (value : Z) : option Z :=
  if (value <? second) || (minute <? value) then None else Some value.

Definition validDeviceAuthorizationCode (value : string) : bool :=
  if bool_decide (value = "") || (maxDeviceAuthorizationCode <? slen value) then false
  else forallb (fun c => negb ((byteZ c <? 32) || (126 <? byteZ c))) (bytes_of value).
