(* ===== verification/Stages.v ===== *)
(** The handlers that obtain the credential of a stage ([internal/control/credential_stages.go],
    [discover_subscription.go]): creating a stage, completing or failing an authorisation in the
    browser, polling a device authorisation, refreshing a ready stage, reading and cancelling.
    Each is a program of [Threads]. *)
From Stdlib Require Import Ascii.
From S2P Require Import Prelude GoStrings Execution Config Credential Ledger Registry PriceTable Refresh Idempotency Threads StageRows.

Local Open Scope go_scope.
Local Open Scope Z_scope.

Section Service.
Context `{GoText} `{SubscriptionPlatform} `{StagePlatform}.

Definition safeInternalErrorCode (value : string) : string :=
  let value := ToLower (TrimSpace value) in
  if bool_decide (value = "") || (64 <? slen value) then ""%string
  else if forallb errorCodeByte (bytes_of value) then value else ""%string.

Definition stageResultErrorCode (s : CredentialStageStatus) (code : string) : string :=
  match s with StageFailed | StageOutcomeUnknown => safeInternalErrorCode code | _ => ""%string end.

(** * Payloads, networks and drivers *)

Definition decodeStagedAuthorizationPayload (version : Z) (plaintext : string) : option stagedSubscriptionPayload :=
  if version =? 1 then
    match unmarshalPayloadV1 plaintext with
    | Some (state, verifier) =>
        match marshalVerifier verifier with
        | Some driverState => Some (mkPayload "" state driverState None)
        | None => None
        end
    | None => None
    end
  else if version =? stagedSubscriptionSchemaV2 then unmarshalPayload plaintext
  else None.

Definition encryptPayload (p : stagedSubscriptionPayload) : prog (option string) :=
  match marshalPayload p with
  | None => Return None
  | Some plaintext => let! nonce := ask string in Return (EncryptWith nonce plaintext)
  end.

Definition stagedNetworkContext (p : stagedSubscriptionPayload) : prog (res NetworkContext) :=
  match sp_Network p with
  | None => ask (res NetworkContext)
  | Some n =>
      Return match proxyNetworkContext (nc_Proxy n) with
             | Some n' => if bool_decide (nc_Fingerprint n' = nc_Fingerprint n) then Ok n' else Err ErrInternalServer
             | None => Err ErrInternalServer
             end
  end.

Definition credentialStageNetworkContext (row : CredentialStage) : prog (res NetworkContext) :=
  match Decrypt (st_EncryptedPayload row) with
  | None => Return (Err ErrInternalServer)
  | Some plaintext =>
      match decodeStagedAuthorizationPayload (st_PayloadSchemaVersion row) plaintext with
      | None => Return (Err ErrInternalServer)
      | Some p => stagedNetworkContext p
      end
  end.

Definition subscriptionDriver (channelID : string) : res Driver :=
  if negb (opt_eqb (ConnectionTypeOf channelID) (Some ConnectionTypeSubscription)) then Err ErrValidation
  else match DriverOf channelID with Some d => Ok d | None => Err ErrValidation end.

Definition subscriptionIdentityFingerprint (channelID accountID : string) : string :=
  match DriverOf channelID with
  | None => ""%string
  | Some d =>
      if bool_decide (TrimSpace accountID = "") then ""%string
      else HashText ("credential-identity/v1|" ++ channelID ++ "|" ++ drv_ID d ++ "|" ++ TrimSpace accountID)
  end.

Definition oauthStateHash (state : string) : string := HashText ("oauth-state/v1|" ++ state).

(** * Creating stages *)

Definition persistReadyCredentialStage (channelID method : string) (c : SubCredential) (network : option NetworkContext)
  : prog (res CredentialStageResult) :=
  let! ciphertext := encryptPayload (mkPayload (sc_canonical c) "" "" network) in
  match ciphertext with
  | None => Return (Err ErrInternalServer)
  | Some ciphertext =>
      let! bytes := random in
      match newOperationID bytes with
      | None => Return (Err ErrInternalServer)
      | Some stageID =>
          let summary := subscriptionCredentialAccount c in
          let! now := clock in
          let row := mkStage stageID channelID ConnectionTypeSubscription method StageReady ciphertext stagedSubscriptionSchemaV2
                       (SummaryAccount summary) (subscriptionIdentityFingerprint channelID (sc_identity c)) None
                       (unixMilli (now + credentialStageReadyTTL)) None None "" (unixMilli now) (unixMilli now) in
          let! created := transact (createStage row) in
          match created with
          | Some true => Return (Ok (mkStageResult stageID StageReady method "" "" "" 0 summary (st_ExpiresAtMS row) ""))
          | _ => Return (Err ErrDatabase)
          end
      end
  end.

(** The refresh of a credential that is in no stage yet is not recorded: nothing else knows it. *)
Definition prepareTransientSubscriptionCredential (d : Driver) (c : SubCredential) : prog (res SubCredential) :=
  let! now := clock in
  if negb (sc_expires c) || (now + 5 * minute <? sc_expiresAt c) then Return (Ok c)
  else
    let! answer := ask (result RefreshFailure SubCredential) in
    Return match answer with
    | Err RefreshFailureRetryable => Err ErrCredentialRefreshTemporarilyUnavailable
    | Err RefreshFailureReauthorizationRequired | Err RefreshFailureIdentityChanged => Err ErrCredentialReauthorizationRequired
    | Err RefreshFailureOutcomeUnknown => Err ErrCredentialAuthOutcomeUnknown
    | Ok refreshed => if RefreshPreservesIdentity d c refreshed then Ok refreshed else Err ErrCredentialReauthorizationRequired
    end.

Definition importCredentialStageWithNetwork (channelID : string) (d : Driver) (network : NetworkContext)
  : prog (res CredentialStageResult) :=
  try* imported := ask (res SubCredential) in
  try* prepared := prepareTransientSubscriptionCredential d imported in
  persistReadyCredentialStage channelID "oauth_file" prepared (Some network).

Definition beginBrowserCredentialAuthorization (channelID : string) (network : NetworkContext) : prog (res CredentialStageResult) :=
  let! authorization := ask (option Authorization) in
  match authorization with
  | None => Return (Err ErrAuthorizationUnavailable)
  | Some a =>
      let! ciphertext := encryptPayload (mkPayload "" (au_State a) (au_DriverState a) (Some network)) in
      match ciphertext with
      | None => Return (Err ErrInternalServer)
      | Some ciphertext =>
          let! bytes := random in
          match newOperationID bytes with
          | None => Return (Err ErrInternalServer)
          | Some stageID =>
              let! now := clock in
              let row := mkStage stageID channelID ConnectionTypeSubscription AuthorizationBrowserOAuth StagePendingAuthorization
                           ciphertext stagedSubscriptionSchemaV2 (SummaryAccount noAccount) "" (Some (oauthStateHash (au_State a)))
                           (unixMilli (now + credentialStageAuthTTL)) None None "" (unixMilli now) (unixMilli now) in
              let! created := transact (createStage row) in
              match created with
              | Some true =>
                  Return (Ok (mkStageResult stageID StagePendingAuthorization AuthorizationBrowserOAuth (au_URL a)
                                (au_RedirectURI a) "" 0 noAccount (st_ExpiresAtMS row) ""))
              | _ => Return (Err ErrDatabase)
              end
          end
      end
  end.

Definition deviceURLOk (verificationURL : string) : bool :=
  match parseURL verificationURL with
  | None => false
  | Some u =>
      ur_IsAbs u && bool_decide (ur_Opaque u = "") && negb (bool_decide (ur_Host u = "")) && EqualFold (ur_Scheme u) "https"
      && negb (ur_User u) && bool_decide (ur_Fragment u = "")
  end.

Definition beginDeviceCredentialAuthorization (channelID : string) (network : NetworkContext) : prog (res CredentialStageResult) :=
  let! authorization := ask (option DeviceAuthorization) in
  match authorization with
  | None => Return (Err ErrAuthorizationUnavailable)
  | Some a =>
      let! now := clock in
      let verificationURL := TrimSpace (da_VerificationURL a) in
      let userCode := TrimSpace (da_UserCode a) in
      match normalizeDevicePollInterval (da_PollInterval a) with
      | None => Return (Err ErrAuthorizationUnavailable)
      | Some pollInterval =>
          if negb (deviceURLOk verificationURL) || (maxDeviceAuthorizationURL <? slen verificationURL)
             || negb (validDeviceAuthorizationCode userCode) || bool_decide (da_DriverState a = "")
             || (maxOAuthFileBytes <? slen (da_DriverState a)) || (da_ExpiresAt a <=? now)
             || (now + credentialStageDeviceMaxTTL <? da_ExpiresAt a)
          then Return (Err ErrAuthorizationUnavailable)
          else
            let nextPollAtMS := unixMilli (now + pollInterval) in
            let summary := SummaryAuthorization (mkAuthorizationSummary verificationURL userCode nextPollAtMS (Z.quot pollInterval millisecond)) in
            let! ciphertext := encryptPayload (mkPayload "" "" (da_DriverState a) (Some network)) in
            match ciphertext with
            | None => Return (Err ErrInternalServer)
            | Some ciphertext =>
                let! bytes := random in
                match newOperationID bytes with
                | None => Return (Err ErrInternalServer)
                | Some stageID =>
                    let row := mkStage stageID channelID ConnectionTypeSubscription AuthorizationDeviceOAuth StagePendingAuthorization
                                 ciphertext stagedSubscriptionSchemaV2 summary "" None (unixMilli (da_ExpiresAt a)) None None ""
                                 (unixMilli now) (unixMilli now) in
                    let! created := transact (createStage row) in
                    match created with
                    | Some true =>
                        Return (Ok (mkStageResult stageID StagePendingAuthorization AuthorizationDeviceOAuth verificationURL "" userCode
                                      nextPollAtMS noAccount (st_ExpiresAtMS row) ""))
                    | _ => Return (Err ErrDatabase)
                    end
                end
            end
      end
  end.

Definition beginCredentialAuthorizationWithNetwork (channelID : string) (network : NetworkContext) : prog (res CredentialStageResult) :=
  if SupportsAuthorizationMethod channelID AuthorizationBrowserOAuth then beginBrowserCredentialAuthorization channelID network
  else if SupportsAuthorizationMethod channelID AuthorizationDeviceOAuth then beginDeviceCredentialAuthorization channelID network
  else Return (Err ErrValidation).

(** The network of a draft or of a group. *)
Definition BeginCredentialAuthorization (channelID : string) : prog (res CredentialStageResult) :=
  match subscriptionDriver channelID with
  | Err e => Return (Err e)
  | Ok _ =>
      try* network := ask (res NetworkContext) in
      beginCredentialAuthorizationWithNetwork channelID network
  end.

Definition AuthorizationOAuthFile : string := "oauth_file".

Definition credentialStageImportDriver (channelID raw : string) : res Driver :=
  if negb (SupportsAuthorizationMethod channelID AuthorizationOAuthFile) then Err ErrValidation
  else
    try! d := subscriptionDriver channelID in
    if maxOAuthFileBytes <? slen raw then Err ErrOAuthFileTooLarge else Ok d.

(** The format of the file and its network are the answers of other parts. *)
Definition ImportCredentialStage (channelID raw : string) : prog (res CredentialStageResult) :=
  match credentialStageImportDriver channelID raw with
  | Err e => Return (Err e)
  | Ok d =>
      try* _ := ask (res unit) in
      try* network := ask (res NetworkContext) in
      importCredentialStageWithNetwork channelID d network
  end.

(** * Ending an exchange *)

Definition markCredentialStageOutcomeUnknown (stageID : string) : prog bool :=
  let! now := clock in
  let! n := transact (updateStage stageID (isStatus StageExchanging) (fun r =>
    setUpdated (unixMilli now) (setCode "authorization_exchange_unknown" (setPayload "" (setStatus StageOutcomeUnknown r))))) in
  Return (isSome n).

Definition failCredentialStageExchange (stageID code : string) : prog bool :=
  let! now := clock in
  let! n := transact (updateStage stageID (isStatus StageExchanging) (fun r =>
    setUpdated (unixMilli now) (setCode code (setPayload "" (setStatus StageFailed r))))) in
  Return (isSome n).

Definition finishCredentialStageExchange (row : CredentialStage) (c : SubCredential) (network : NetworkContext)
  : prog (res CredentialStageResult) :=
  let! ciphertext := encryptPayload (mkPayload (sc_canonical c) "" "" (Some network)) in
  match ciphertext with
  | None => Return (Err ErrInternalServer)
  | Some ciphertext =>
      let summary := subscriptionCredentialAccount c in
      let! now := clock in
      let! now' := clock in
      let expiresAtMS := unixMilli (now' + credentialStageReadyTTL) in
      let! n := transact (updateStage (st_ID row) (isStatus StageExchanging) (fun r =>
        setUpdated (unixMilli now) (setExpires expiresAtMS
          (setIdentity (subscriptionIdentityFingerprint (st_ChannelID row) (sc_identity c))
            (setSummary (SummaryAccount summary) (setSchema stagedSubscriptionSchemaV2
              (setPayload ciphertext (setStatus StageReady r)))))))) in
      match n with
      | None => Return (Err ErrDatabase)
      | Some n =>
          if n =? 1
          then Return (Ok (mkStageResult (st_ID row) StageReady (st_AuthorizationMethod row) "" "" "" 0 summary expiresAtMS ""))
          else Return (Err ErrAuthorizationStateInvalid)
      end
  end.

(** * Completing an authorisation in the browser *)

Definition credentialStageMatchesCallback (row : CredentialStage) (expectedRedirectURI : string) : bool :=
  if bool_decide (expectedRedirectURI = "") then true
  else opt_eqb (LocalCallback (st_ChannelID row)) (Some expectedRedirectURI).

Definition authorizationRow (stateHash stageID : string) (r : CredentialStage) : bool :=
  opt_eqb (st_OAuthStateHash r) (Some stateHash) && isStatus StagePendingAuthorization r
  && (bool_decide (stageID = "") || bool_decide (st_ID r = stageID)).

(** The transaction that claims the state; the clock is read three times in it. *)
Definition claimAuthorization (stateHash stageID redirectURI : string) (now1 now2 now3 : Z) (t : Tables) : res CredentialStage * Tables :=
  match findStage (authorizationRow stateHash stageID) t with
  | None => (Err ErrAuthorizationStateInvalid, t)
  | Some row =>
      if negb (credentialStageMatchesCallback row redirectURI) then (Err ErrAuthorizationStateInvalid, t)
      else if st_ExpiresAtMS row <=? unixMilli now1 then (Err ErrStagedCredentialExpired, t)
      else
        let '(n, t') := updateStage (st_ID row)
                          (fun r => isStatus StagePendingAuthorization r && opt_eqb (st_OAuthStateHash r) (Some stateHash))
                          (fun r => setUpdated (unixMilli now3) (setExpires (unixMilli (now2 + defaultSubscriptionControlTimeout))
                             (setHash None (setStatus StageExchanging r)))) t in
        if n =? 1 then (Ok row, t') else (Err ErrAuthorizationStateInvalid, t)
  end.

(** After the claim: a failure before the provider is asked. *)
Definition abandonExchange (stageID : string) : prog (res CredentialStageResult) :=
  let! marked := markCredentialStageOutcomeUnknown stageID in
  Return (Err (if marked then ErrAuthorizationExchangeFailed else ErrInternalServer)).

Definition completeCredentialAuthorization (stageID redirectURI returnedState code : string) : prog (res CredentialStageResult) :=
  if bool_decide (TrimSpace returnedState = "") || bool_decide (TrimSpace code = "") then Return (Err ErrAuthorizationStateInvalid)
  else
    let! now1 := clock in
    let! now2 := clock in
    let! now3 := clock in
    let! claimed := transact (claimAuthorization (oauthStateHash returnedState) stageID redirectURI now1 now2 now3) in
    match claimed with
    | None => Return (Err ErrAuthorizationStateInvalid)
    | Some (Err ErrStagedCredentialExpired) => Return (Err ErrStagedCredentialExpired)
    | Some (Err _) => Return (Err ErrAuthorizationStateInvalid)
    | Some (Ok row) =>
        match Decrypt (st_EncryptedPayload row) with
        | None => abandonExchange (st_ID row)
        | Some plaintext =>
            match decodeStagedAuthorizationPayload (st_PayloadSchemaVersion row) plaintext with
            | None => abandonExchange (st_ID row)
            | Some payload =>
                let! network := stagedNetworkContext payload in
                match network with
                | Err _ =>
                    let! _ := markCredentialStageOutcomeUnknown (st_ID row) in
                    Return (Err ErrAuthorizationExchangeFailed)
                | Ok network =>
                    match subscriptionDriver (st_ChannelID row) with
                    | Err _ => abandonExchange (st_ID row)
                    | Ok _ =>
                        let! answer := call (st_ID row) (CallExchange (st_ChannelID row)
                                         (mkCompletion (sp_State payload) returnedState code (sp_DriverState payload))) in
                        match answer with
                        | AnswerCredential c =>
                            let! finished := finishCredentialStageExchange row c network in
                            match finished with
                            | Ok r => Return (Ok r)
                            | Err e =>
                                let! marked := markCredentialStageOutcomeUnknown (st_ID row) in
                                Return (Err (if marked then e else ErrInternalServer))
                            end
                        | AnswerRejected =>
                            let! finalized := (if browserDriver (st_ChannelID row)
                                               then failCredentialStageExchange (st_ID row) "authorization_exchange_rejected"
                                               else markCredentialStageOutcomeUnknown (st_ID row)) in
                            Return (Err (if finalized then ErrAuthorizationExchangeFailed else ErrInternalServer))
                        | _ => abandonExchange (st_ID row)
                        end
                    end
                end
            end
        end
    end.

Definition failAuthorizationTx (stateHash stageID redirectURI errorCode : string) (nowMS : Z) (t : Tables) : res unit * Tables :=
  match findStage (fun r => authorizationRow stateHash stageID r && (nowMS <? st_ExpiresAtMS r)) t with
  | None => (Err ErrAuthorizationStateInvalid, t)
  | Some row =>
      if negb (credentialStageMatchesCallback row redirectURI) then (Err ErrAuthorizationStateInvalid, t)
      else
        let '(n, t') := updateStage (st_ID row)
                          (fun r => opt_eqb (st_OAuthStateHash r) (Some stateHash) && isStatus StagePendingAuthorization r)
                          (fun r => setUpdated nowMS (setCode errorCode (setHash None (setPayload "" (setStatus StageFailed r))))) t in
        if n =? 1 then (Ok (), t') else (Err ErrAuthorizationStateInvalid, t)
  end.

Definition failCredentialAuthorization (stageID redirectURI returnedState providerError : string) : prog (res unit) :=
  if bool_decide (TrimSpace returnedState = "") || bool_decide (TrimSpace providerError = "") then Return (Err ErrAuthorizationStateInvalid)
  else
    let errorCode := if EqualFold (TrimSpace providerError) "access_denied" then "authorization_denied"%string else "authorization_failed"%string in
    let! now := clock in
    let! failed := transact (failAuthorizationTx (oauthStateHash returnedState) stageID redirectURI errorCode (unixMilli now)) in
    match failed with
    | Some (Ok _) => Return (Ok ())
    | _ => Return (Err ErrAuthorizationStateInvalid)
    end.

(** * Reading a stage *)

Definition loadCredentialStage (stageID : string) : prog (res CredentialStage) :=
  if bool_decide (TrimSpace stageID = "") then Return (Err ErrBadRequest)
  else
    let! row := transact (takeStage stageID) in
    Return match row with
           | None => Err ErrDatabase
           | Some None => Err ErrResourceNotFound
           | Some (Some row) => Ok row
           end.

(** The row as it is afterwards. *)
Definition expireCredentialStage (row : CredentialStage) : prog (option CredentialStage) :=
  let '(status, errorCode) := if isStatus StageExchanging row then (StageOutcomeUnknown, "authorization_exchange_interrupted"%string)
                              else (StageExpired, ""%string) in
  let! now := clock in
  let! n := transact (updateStage (st_ID row) (isStatus (st_Status row)) (fun r =>
    setUpdated (unixMilli now) (setCode errorCode (setHash None (setPayload "" (setStatus status r)))))) in
  match n with
  | None => Return None
  | Some n =>
      if n =? 1 then Return (Some (setCode errorCode (setHash None (setPayload "" (setStatus status row)))))
      else
        let! row' := transact (takeStage (st_ID row)) in
        Return match row' with Some (Some row') => Some row' | _ => None end
  end.

Definition expirable (row : CredentialStage) : bool :=
  isStatus StagePendingAuthorization row || isStatus StageReady row || isStatus StageExchanging row.

Definition GetCredentialStage (stageID : string) : prog (res CredentialStageResult) :=
  try* row := loadCredentialStage stageID in
  let! current := (if expirable row then
                     let! now := clock in
                     if st_ExpiresAtMS row <=? unixMilli now then expireCredentialStage row else Return (Some row)
                   else Return (Some row)) in
  match current with
  | None => Return (Err ErrDatabase)
  | Some row =>
      let '(account, authorization) := decodeCredentialStageSafeSummary (st_SafeSummary row) in
      let redirectURI := if isStatus StagePendingAuthorization row || isStatus StageExchanging row
                         then default ""%string (LocalCallback (st_ChannelID row)) else ""%string in
      Return (Ok (mkStageResult (st_ID row) (st_Status row) (st_AuthorizationMethod row)
                    (from_option as_AuthorizationURL ""%string authorization) redirectURI
                    (from_option as_UserCode ""%string authorization) (from_option as_NextPollAtMS 0 authorization)
                    account (st_ExpiresAtMS row) (stageResultErrorCode (st_Status row) (st_ErrorCode row))))
  end.

Definition CancelCredentialStage (stageID : string) : prog (res unit) :=
  if bool_decide (TrimSpace stageID = "") then Return (Err ErrBadRequest)
  else
    let! now := clock in
    let! n := transact (updateStage stageID (fun r => isStatus StagePendingAuthorization r || isStatus StageReady r) (fun r =>
      setUpdated (unixMilli now) (setHash None (setPayload "" (setStatus StageCancelled r))))) in
    Return match n with
           | None => Err ErrDatabase
           | Some n => if n =? 1 then Ok () else Err ErrStagedCredentialNotReady
           end.

(** * Polling a device authorisation *)

Definition finishPendingDeviceAuthorization (row : CredentialStage) (previousDriverState : string) (a : authorizationSummary)
  (pollState : string) (interval : Z) (network : NetworkContext) : prog (res CredentialStageResult) :=
  let driverState := if bool_decide (pollState = "") then previousDriverState else pollState in
  if bool_decide (driverState = "") || (maxOAuthFileBytes <? slen driverState) then
    let! _ := markCredentialStageOutcomeUnknown (st_ID row) in Return (Err ErrAuthorizationExchangeFailed)
  else
    let interval := if interval =? 0 then i64 (as_PollIntervalMS a * millisecond) else interval in
    match normalizeDevicePollInterval interval with
    | None => let! _ := markCredentialStageOutcomeUnknown (st_ID row) in Return (Err ErrAuthorizationExchangeFailed)
    | Some pollInterval =>
        let! ciphertext := encryptPayload (mkPayload "" "" driverState (Some network)) in
        match ciphertext with
        | None => let! _ := markCredentialStageOutcomeUnknown (st_ID row) in Return (Err ErrInternalServer)
        | Some ciphertext =>
            let! now := clock in
            let summary := SummaryAuthorization (mkAuthorizationSummary (as_AuthorizationURL a) (as_UserCode a)
                             (unixMilli (now + pollInterval)) (Z.quot pollInterval millisecond)) in
            let! n := transact (updateStage (st_ID row) (isStatus StageExchanging) (fun r =>
              setUpdated (unixMilli now) (setExpires (st_ExpiresAtMS row) (setSummary summary
                (setPayload ciphertext (setStatus StagePendingAuthorization r)))))) in
            match n with
            | None => Return (Err ErrDatabase)
            | Some n => if n =? 1 then GetCredentialStage (st_ID row) else Return (Err ErrCredentialAuthOutcomeUnknown)
            end
        end
    end.

Definition finishDeviceAuthorizationFailure (stageID : string) (status : CredentialStageStatus) (errorCode : string) : prog (res unit) :=
  let! now := clock in
  let! n := transact (updateStage stageID (isStatus StageExchanging) (fun r =>
    setUpdated (unixMilli now) (setCode errorCode (setPayload "" (setStatus status r))))) in
  Return match n with
         | None => Err ErrDatabase
         | Some n => if n =? 1 then Ok () else Err ErrCredentialAuthOutcomeUnknown
         end.

Definition finishDevicePoll (row : CredentialStage) (driverState : string) (a : authorizationSummary) (network : NetworkContext)
  (answer : stageAnswer) : prog (res CredentialStageResult) :=
  match answer with
  | AnswerPoll (PollPending pollState interval) => finishPendingDeviceAuthorization row driverState a pollState interval network
  | AnswerPoll (PollAuthorized c) => finishCredentialStageExchange row c network
  | AnswerPoll PollDenied =>
      try* _ := finishDeviceAuthorizationFailure (st_ID row) StageFailed "authorization_denied" in
      GetCredentialStage (st_ID row)
  | AnswerPoll PollExpired =>
      try* _ := finishDeviceAuthorizationFailure (st_ID row) StageExpired "authorization_expired" in
      GetCredentialStage (st_ID row)
  | _ => abandonExchange (st_ID row)
  end.

Definition PollCredentialDeviceAuthorization (stageID : string) : prog (res CredentialStageResult) :=
  if bool_decide (TrimSpace stageID = "") then Return (Err ErrAuthorizationStateInvalid)
  else
    try* row := loadCredentialStage stageID in
    if negb (bool_decide (st_AuthorizationMethod row = AuthorizationDeviceOAuth)) then Return (Err ErrAuthorizationStateInvalid)
    else if isStatus StageExchanging row then GetCredentialStage stageID
    else if negb (isStatus StagePendingAuthorization row) then Return (Err ErrAuthorizationStateInvalid)
    else
      let! now := clock in
      if st_ExpiresAtMS row <=? unixMilli now then
        let! expired := expireCredentialStage row in
        match expired with None => Return (Err ErrDatabase) | Some _ => GetCredentialStage stageID end
      else
        match (decodeCredentialStageSafeSummary (st_SafeSummary row)).2 with
        | None => Return (Err ErrAuthorizationStateInvalid)
        | Some a =>
            if unixMilli now <? as_NextPollAtMS a then GetCredentialStage stageID
            else
              let! n := transact (updateStage (st_ID row)
                (fun r => bool_decide (st_AuthorizationMethod r = AuthorizationDeviceOAuth) && isStatus StagePendingAuthorization r
                          && (unixMilli now <? st_ExpiresAtMS r))
                (fun r => setUpdated (unixMilli now) (setExpires (unixMilli (now + defaultSubscriptionControlTimeout)) (setStatus StageExchanging r)))) in
              match n with
              | None => Return (Err ErrDatabase)
              | Some n =>
                  if negb (n =? 1) then GetCredentialStage stageID
                  else
                    let failed := (let! _ := markCredentialStageOutcomeUnknown (st_ID row) in Return (Err ErrAuthorizationExchangeFailed)) in
                    match Decrypt (st_EncryptedPayload row) with
                    | None => failed
                    | Some plaintext =>
                        match decodeStagedAuthorizationPayload (st_PayloadSchemaVersion row) plaintext with
                        | None => failed
                        | Some payload =>
                            if bool_decide (sp_DriverState payload = "") then failed
                            else
                              let! network := stagedNetworkContext payload in
                              match network with
                              | Err _ => failed
                              | Ok network =>
                                  let! answer := call (st_ID row) (CallPoll (st_ChannelID row) (sp_DriverState payload)) in
                                  finishDevicePoll row (sp_DriverState payload) a network answer
                              end
                        end
                    end
              end
        end.

(** * Refreshing a ready stage *)

Definition finishCredentialStageRefreshRetryable (row : CredentialStage) : prog (res unit) :=
  let! now := clock in
  let! n := transact (updateStage (st_ID row) (isStatus StageExchanging) (fun r =>
    setUpdated (unixMilli now) (setCode "" (setExpires (st_ExpiresAtMS row) (setStatus StageReady r))))) in
  Return match n with
         | None => Err ErrDatabase
         | Some n => if n =? 1 then Ok () else Err ErrCredentialAuthOutcomeUnknown
         end.

Definition finishCredentialStageRefresh (row : CredentialStage) (c : SubCredential) : prog (res unit) :=
  try* network := credentialStageNetworkContext row in
  let! ciphertext := encryptPayload (mkPayload (sc_canonical c) "" "" (Some network)) in
  match ciphertext with
  | None => Return (Err ErrInternalServer)
  | Some ciphertext =>
      let! now := clock in
      let! n := transact (updateStage (st_ID row) (isStatus StageExchanging) (fun r =>
        setUpdated (unixMilli now) (setCode "" (setExpires (st_ExpiresAtMS row)
          (setIdentity (subscriptionIdentityFingerprint (st_ChannelID row) (sc_identity c))
            (setSummary (SummaryAccount (subscriptionCredentialAccount c)) (setSchema stagedSubscriptionSchemaV2
              (setPayload ciphertext (setStatus StageReady r))))))))) in
      Return match n with
             | None => Err ErrDatabase
             | Some n => if n =? 1 then Ok () else Err ErrCredentialAuthOutcomeUnknown
             end
  end.

Definition finishCredentialStageRefreshFailure (stageID : string) (status : CredentialStageStatus) (code : string) : prog (res unit) :=
  let! now := clock in
  let! n := transact (updateStage stageID (isStatus StageExchanging) (fun r =>
    setUpdated (unixMilli now) (setCode code (setHash None (setPayload "" (setStatus status r)))))) in
  Return match n with
         | None => Err ErrDatabase
         | Some n => if n =? 1 then Ok () else Err ErrInternalServer
         end.

(** What a failed refresh means: the state of the stage, its code, and the error. *)
Definition refreshFailureStage (f : RefreshFailure) : CredentialStageStatus * string * StageError :=
  match f with
  | RefreshFailureIdentityChanged => (StageFailed, "credential_refresh_identity_changed"%string, ErrCredentialReauthorizationRequired)
  | RefreshFailureReauthorizationRequired => (StageFailed, "credential_refresh_rejected"%string, ErrCredentialReauthorizationRequired)
  | _ => (StageOutcomeUnknown, "credential_refresh_outcome_unknown"%string, ErrCredentialAuthOutcomeUnknown)
  end.

Definition finishReadyRefresh (row : CredentialStage) (d : Driver) (c : SubCredential) (answer : stageAnswer) : prog (res SubCredential) :=
  match answer with
  | AnswerCredential refreshed =>
      if negb (RefreshPreservesIdentity d c refreshed)
         || negb (bool_decide (subscriptionIdentityFingerprint (st_ChannelID row) (sc_identity c) = st_IdentityFingerprint row))
      then
        try* _ := finishCredentialStageRefreshFailure (st_ID row) StageFailed "credential_refresh_identity_changed" in
        Return (Err ErrCredentialReauthorizationRequired)
      else
        let! finished := finishCredentialStageRefresh row refreshed in
        match finished with
        | Ok _ => Return (Ok refreshed)
        | Err _ =>
            let! finalized := finishCredentialStageRefreshFailure (st_ID row) StageOutcomeUnknown "credential_refresh_persist_failed" in
            Return (Err (if is_ok finalized then ErrCredentialAuthOutcomeUnknown else ErrInternalServer))
        end
  | AnswerRefreshFailure RefreshFailureRetryable =>
      try* _ := finishCredentialStageRefreshRetryable row in
      Return (Err ErrCredentialRefreshTemporarilyUnavailable)
  | _ =>
      let '(status, code, apiErr) :=
        refreshFailureStage (match answer with AnswerRefreshFailure f => f | _ => RefreshFailureOutcomeUnknown end) in
      try* _ := finishCredentialStageRefreshFailure (st_ID row) status code in
      Return (Err apiErr)
  end.

(** The caller has fixed the network. *)
Definition prepareReadySubscriptionStageCredential (row : CredentialStage) (d : Driver) (c : SubCredential) (forceRefresh : bool)
  : prog (res SubCredential) :=
  let! cancelled := ask bool in
  if cancelled : bool then Return (Err ErrContext)
  else
    let! now0 := clock in
    if negb forceRefresh && (negb (sc_expires c) || (now0 + 5 * minute <? sc_expiresAt c)) then Return (Ok c)
    else
      let! now := clock in
      if st_ExpiresAtMS row <=? unixMilli now then Return (Err ErrStagedCredentialExpired)
      else
        let! n := transact (updateStage (st_ID row)
          (fun r => isStatus StageReady r && bool_decide (st_EncryptedPayload r = st_EncryptedPayload row) && (unixMilli now <? st_ExpiresAtMS r))
          (fun r => setUpdated (unixMilli now) (setCode "" (setExpires (unixMilli (now + defaultSubscriptionControlTimeout)) (setStatus StageExchanging r))))) in
        match n with
        | None => Return (Err ErrDatabase)
        | Some n =>
            if negb (n =? 1) then Return (Err ErrStagedCredentialNotReady)
            else
              let! answer := call (st_ID row) (CallRefresh (st_ChannelID row) c) in
              finishReadyRefresh row d c answer
        end.

Definition decodeStageSubscriptionCredential (channelID : string) (row : CredentialStage) : res SubCredential :=
  match Decrypt (st_EncryptedPayload row) with
  | None => Err ErrStagedCredentialMismatch
  | Some plaintext =>
      match unmarshalPayload plaintext with
      | None => Err ErrStagedCredentialMismatch
      | Some payload =>
          match subscriptionDriver channelID with
          | Err _ => Err ErrStagedCredentialMismatch
          | Ok d => match drv_Parse d (sp_Credential payload) with Some c => Ok c | None => Err ErrStagedCredentialMismatch end
          end
      end
  end.

Definition readyFor (channelID : string) (row : CredentialStage) : bool :=
  isStatus StageReady row && bool_decide (st_ChannelID row = channelID) && bool_decide (st_ConnectionType row = ConnectionTypeSubscription).

Definition forceRefreshReadySubscriptionStageCredential (channelID stageID : string) : prog (res SubCredential) :=
  try* row := loadCredentialStage (TrimSpace stageID) in
  if negb (readyFor channelID row) then Return (Err ErrStagedCredentialNotReady)
  else
    match decodeStageSubscriptionCredential channelID row, subscriptionDriver channelID with
    | Err e, _ => Return (Err e)
    | Ok _, Err _ => Return (Err ErrStagedCredentialMismatch)
    | Ok c, Ok d => prepareReadySubscriptionStageCredential row d c true
    end.

Definition loadReadySubscriptionStageCredential (channelID stageID : string) : prog (res SubCredential) :=
  try* row := loadCredentialStage (TrimSpace stageID) in
  if negb (readyFor channelID row) then Return (Err ErrStagedCredentialNotReady)
  else
    let! now := clock in
    if st_ExpiresAtMS row <=? unixMilli now then Return (Err ErrStagedCredentialExpired)
    else
      match decodeStageSubscriptionCredential channelID row, subscriptionDriver channelID with
      | Err e, _ => Return (Err e)
      | Ok _, Err _ => Return (Err ErrStagedCredentialMismatch)
      | Ok c, Ok d => prepareReadySubscriptionStageCredential row d c false
      end.

(** The discovery of models itself is another part's: its HTTP status decides on the retry. *)
Definition discoverSubscriptionStageModels (channelID stageID : string) : prog (res SubCredential) :=
  try* c := loadReadySubscriptionStageCredential channelID stageID in
  let! status := ask Z in
  if negb (status =? 401) then Return (Ok c)
  else forceRefreshReadySubscriptionStageCredential channelID stageID.

End Service.
