(* ===== verification/StageConnect.v ===== *)
(** The callback of the browser ([internal/control/oauth_callback.go]), the connection of ready
    stages to a group ([credential_connections.go] and [consumeCredentialStages]), the cleaning of
    the table, and the system of all handlers of stages. *)
From Stdlib Require Import Ascii.
From S2P Require Import Prelude GoStrings Execution Config Credential Ledger Registry PriceTable Refresh Idempotency Threads StageRows Stages.

Local Open Scope go_scope.
Local Open Scope Z_scope.

Section Service.
Context `{GoText} `{SubscriptionPlatform} `{StagePlatform}.

(** * The callback of the browser *)

Record oauthCallbackParameters := mkCallbackParameters { cb_State : string; cb_Code : string; cb_ProviderError : string }.

Definition blank (s : string) : bool := bool_decide (TrimSpace s = "").

Definition parseOAuthCallbackQuery (query : gmap string (list string)) : option oauthCallbackParameters :=
  let descriptions := mget [] query "error_description"%string in
  match mget [] query "state"%string with
  | [state] =>
      if blank state then None
      else
        match mget [] query "error"%string, mget [] query "code"%string with
        | [providerError], [] =>
            if blank providerError then None
            else if (1 <? Z.of_nat (length descriptions)) then None else Some (mkCallbackParameters state "" providerError)
        | [], [code] =>
            if blank code || negb (bool_decide (descriptions = [])) then None else Some (mkCallbackParameters state code "")
        | _, _ => None
        end
  | _ => None
  end.

Definition parseManualOAuthCallbackURL (raw redirectURI : string) : option oauthCallbackParameters :=
  let raw := TrimSpace raw in
  if bool_decide (raw = "") || (16 * 1024 <? slen raw) then None
  else
    match parseURL redirectURI, parseURL raw with
    | Some expected, Some u =>
        if negb (ur_IsAbs u) || negb (EqualFold (ur_Scheme u) "http") || ur_User u || negb (bool_decide (ur_Fragment u = ""))
           || negb (EqualFold (ur_Hostname u) "localhost") || negb (bool_decide (ur_Port u = ur_Port expected))
           || negb (bool_decide (ur_EscapedPath u = ur_EscapedPath expected))
        then None
        else parseOAuthCallbackQuery (ur_Query u)
    | _, _ => None
    end.

Definition CompleteCredentialAuthorizationCallback (stageID rawCallbackURL : string) : prog (res CredentialStageResult) :=
  if blank stageID then Return (Err ErrAuthorizationStateInvalid)
  else
    try* row := loadCredentialStage stageID in
    match LocalCallback (st_ChannelID row) with
    | None => Return (Err ErrAuthorizationStateInvalid)
    | Some redirectURI =>
        match parseManualOAuthCallbackURL rawCallbackURL redirectURI with
        | None => Return (Err ErrValidation)
        | Some callback =>
            if negb (bool_decide (cb_ProviderError callback = "")) then
              try* _ := failCredentialAuthorization stageID redirectURI (cb_State callback) (cb_ProviderError callback) in
              GetCredentialStage stageID
            else completeCredentialAuthorization stageID redirectURI (cb_State callback) (cb_Code callback)
        end
    end.

Inductive oauthCallbackOutcomeKind :=
| oauthOutcomeSuccess
| oauthOutcomeDenied
| oauthOutcomeInvalid
| oauthOutcomeExpired
| oauthOutcomeExchangeFailed
| oauthMethodNotAllowed
| oauthNotFound.

Definition classifyOAuthCallbackFailure (e : StageError) : oauthCallbackOutcomeKind :=
  match e with
  | ErrStagedCredentialExpired => oauthOutcomeExpired
  | ErrAuthorizationStateInvalid => oauthOutcomeInvalid
  | _ => oauthOutcomeExchangeFailed
  end.

Definition serveHTTP (redirectURI path method urlPath : string) (query : gmap string (list string)) : prog oauthCallbackOutcomeKind :=
  if negb (bool_decide (method = "GET")) then Return oauthMethodNotAllowed
  else if negb (bool_decide (urlPath = path)) then Return oauthNotFound
  else
    match parseOAuthCallbackQuery query with
    | None => Return oauthOutcomeInvalid
    | Some callback =>
        if negb (bool_decide (cb_ProviderError callback = "")) then
          let! failed := failCredentialAuthorization "" redirectURI (cb_State callback) (cb_ProviderError callback) in
          Return match failed with Err e => classifyOAuthCallbackFailure e | Ok _ => oauthOutcomeDenied end
        else
          let! completed := completeCredentialAuthorization "" redirectURI (cb_State callback) (cb_Code callback) in
          Return match completed with Err e => classifyOAuthCallbackFailure e | Ok _ => oauthOutcomeSuccess end
    end.

(** * Connecting stages to a group *)

Fixpoint normalizeStageLoop (values : list string) (seen : gset string) : res (list string) :=
  match values with
  | [] => Ok []
  | v :: rest =>
      let v := TrimSpace v in
      if bool_decide (v = "") then Err ErrValidation
      else if bool_decide (v ∈ seen) then Err ErrDuplicateCredentialIdentity
      else try! rest := normalizeStageLoop rest ({[v]} ∪ seen) in Ok (v :: rest)
  end.

Definition normalizeCredentialStageIDs (values : list string) : res (list string) :=
  if bool_decide (values = []) || (maxCredentialStageIDs <? Z.of_nat (length values)) then Err ErrValidation
  else try! normalized := normalizeStageLoop values ∅ in Ok (merge_sort String.le normalized).

Definition consumableStage (channelID connectionType : string) (nowMS : Z) (r : CredentialStage) : option StageError :=
  if negb (bool_decide (st_ChannelID r = channelID)) || negb (bool_decide (st_ConnectionType r = connectionType)) then Some ErrStagedCredentialMismatch
  else
    match st_Status r with
    | StageConsumed => Some ErrStagedCredentialConsumed
    | StageReady =>
        if st_ExpiresAtMS r <=? nowMS then Some ErrStagedCredentialExpired
        else if bool_decide (st_IdentityFingerprint r = "") then Some ErrStagedCredentialMismatch
        else None
    | _ => Some ErrStagedCredentialNotReady
    end.

(** The identifiers are sorted and distinct, so the rows come in their order. *)
Definition loadConsumableCredentialStages (channelID connectionType : string) (stageIDs : list string) (nowMS : Z) (t : Tables)
  : res (list CredentialStage) :=
  if bool_decide (channelID = "") || negb (bool_decide (connectionType = ConnectionTypeSubscription)) || bool_decide (stageIDs = [])
  then Err ErrValidation
  else
    let stages := omap (fun id => tb_stages t !! id) stageIDs in
    if negb (bool_decide (length stages = length stageIDs)) then Err ErrStagedCredentialNotReady
    else match head (omap (consumableStage channelID connectionType nowMS) stages) with Some e => Err e | None => Ok stages end.

Definition existingCredentials (groupID : Z) (identities : list string) (t : Tables) : list CredentialRow :=
  filter (fun r => cr_GroupID r = groupID /\ cr_IdentityFingerprint r ∈ identities) (map_to_list (tb_credentials t)).*2.

Fixpoint classifyLoop (seen : gset string) (replaceable : gmap string CredentialRow) (stages : list CredentialStage)
  : list string * gmap string CredentialRow :=
  match stages with
  | [] => ([], ∅)
  | s :: rest =>
      let identity := st_IdentityFingerprint s in
      if bool_decide (identity ∈ seen) then
        let '(duplicated, replacements) := classifyLoop seen replaceable rest in (st_ID s :: duplicated, replacements)
      else
        let '(duplicated, replacements) := classifyLoop ({[identity]} ∪ seen) replaceable rest in
        (duplicated, match replaceable !! identity with Some row => <[st_ID s := row]> replacements | None => replacements end)
  end.

Definition classifyCredentialStages (groupID : Z) (stages : list CredentialStage) (t : Tables) : res (list string * gmap string CredentialRow) :=
  if (groupID =? 0) || bool_decide (stages = []) then Err ErrValidation
  else
    let rows := existingCredentials groupID (st_IdentityFingerprint <$> stages) t in
    let usable := filter (fun r => reauthorizable (cr_AuthState r) = false) rows in
    let broken := filter (fun r => reauthorizable (cr_AuthState r) = true) rows in
    Ok (classifyLoop (list_to_set (cr_IdentityFingerprint <$> usable))
          (list_to_map ((fun r => (cr_IdentityFingerprint r, r)) <$> broken)) stages).

(** [INSERT] of a credential, with its primary key and its two unique indexes. *)
Definition createCredential (r : CredentialRow) (t : Tables) : bool * Tables :=
  if isSome (tb_credentials t !! cr_ID r)
     || existsb (fun kv => (cr_GroupID kv.2 =? cr_GroupID r)
                  && (bool_decide (cr_Fingerprint kv.2 = cr_Fingerprint r)
                      || bool_decide (cr_IdentityFingerprint kv.2 = cr_IdentityFingerprint r))) (map_to_list (tb_credentials t))
  then (false, t)
  else (true, setCredentials (<[cr_ID r := r]> (tb_credentials t)) t).

(** The credential of a stage that is connected, and its identity. *)
Definition stagedCredential (channelID : string) (s : CredentialStage) : res SubCredential :=
  match Decrypt (st_EncryptedPayload s) with
  | None => Err ErrStagedCredentialMismatch
  | Some plaintext =>
      match unmarshalPayload plaintext, DriverOf channelID with
      | Some payload, Some d =>
          match drv_Parse d (sp_Credential payload) with
          | Some c =>
              if bool_decide (subscriptionIdentityFingerprint channelID (sc_identity c) = st_IdentityFingerprint s) then Ok c
              else Err ErrStagedCredentialMismatch
          | None => Err ErrStagedCredentialMismatch
          end
      | _, _ => Err ErrStagedCredentialMismatch
      end
  end.

(** Repairing the credential that is there, or adding one. *)
Definition storeCredential (groupID newID : Z) (identity fingerprint ciphertext : string) (existing : option CredentialRow) (t : Tables)
  : res Tables :=
  match existing with
  | Some e =>
      match tb_credentials t !! cr_ID e with
      | Some r =>
          if (cr_GroupID r =? groupID) && bool_decide (cr_IdentityFingerprint r = identity)
             && (cr_SecretVersion r =? cr_SecretVersion e) && reauthorizable (cr_AuthState r)
          then Ok (setCredentials (reauthorize (mkReauthorization (cr_ID e) groupID identity (cr_SecretVersion e) ciphertext fingerprint)
                     (tb_credentials t)) t)
          else Err ErrCredentialVersionConflict
      | None => Err ErrCredentialVersionConflict
      end
  | None =>
      let '(created, t') := createCredential (mkCredentialRow "" newID groupID ciphertext fingerprint identity 1 AuthReady "" StatusActive None None) t in
      if created then Ok t' else Err ErrDuplicateCredentialIdentity
  end.

Definition consumeStage (groupID nowMS : Z) (stageID : string) (t : Tables) : res Tables :=
  let '(n, t') := updateStage stageID (isStatus StageReady) (fun r =>
    setUpdated nowMS (setConsumed nowMS groupID (setHash None (setPayload "" (setStatus StageConsumed r))))) t in
  if n =? 1 then Ok t' else Err ErrStagedCredentialConsumed.

(** The nonces of the cipher and the identifiers of new credentials. *)
Record connectRun := mkConnectRun { cn_nonce : string -> string; cn_id : string -> Z }.

Fixpoint consumeLoop (run : connectRun) (groupID : Z) (channelID : string) (nowMS : Z) (duplicated : gset string)
  (replacements : gmap string CredentialRow) (stages : list CredentialStage) (added : Z) (t : Tables) : res (Z * Tables) :=
  match stages with
  | [] => Ok (added, t)
  | s :: rest =>
      try! c := stagedCredential channelID s in
      let canonical := sc_canonical c in
      try! stored := (if bool_decide (st_ID s ∈ duplicated) then Ok (added, t)
                      else
                        match EncryptWith (cn_nonce run (st_ID s)) canonical with
                        | None => Err ErrInternalServer
                        | Some ciphertext =>
                            try! t' := storeCredential groupID (cn_id run (st_ID s)) (st_IdentityFingerprint s) (HashText canonical) ciphertext
                                         (replacements !! st_ID s) t in
                            Ok (added + 1, t')
                        end) in
      try! t' := consumeStage groupID nowMS (st_ID s) stored.2 in
      consumeLoop run groupID channelID nowMS duplicated replacements rest stored.1 t'
  end.

Definition consumeCredentialStages (run : connectRun) (groupID : Z) (channelID connectionType : string) (stageIDs : list string) (now1 now2 : Z)
  (t : Tables) : res (Z * list string * Tables) :=
  if groupID =? 0 then Err ErrValidation
  else
    try! stages := loadConsumableCredentialStages channelID connectionType stageIDs (unixMilli now1) t in
    try! classified := classifyCredentialStages groupID stages t in
    let '(duplicated, replacements) := classified in
    try! consumed := consumeLoop run groupID channelID (unixMilli now2) (list_to_set duplicated) replacements stages 0 t in
    Ok (consumed.1, duplicated, consumed.2).

(** The transaction: an error undoes it.  Whether the entries of the group can be built from the
    tables is the answer of the loader. *)
Definition connectGroupCredentialsMutation (run : connectRun) (groupID : Z) (stageIDs : list string) (now1 now2 : Z) (entriesOk : bool)
  (t : Tables) : res (Z * list string) * Tables :=
  match tb_groups t !! groupID with
  | None => (Err ErrResourceNotFound, t)
  | Some g =>
      if negb (bool_decide (connectionNormalize (gr_ConnectionType g) = ConnectionTypeSubscription)) then (Err ErrValidation, t)
      else
        match consumeCredentialStages run groupID (gr_ChannelID g) (gr_ConnectionType g) stageIDs now1 now2 t with
        | Err e => (Err e, t)
        | Ok (added, duplicated, t') => if entriesOk then (Ok (added, duplicated), t') else (Err ErrInternalServer, t)
        end
  end.

Definition ConnectGroupCredentials (groupID : Z) (stageIDs : list string) : prog (res (Z * list string)) :=
  match normalizeCredentialStageIDs stageIDs with
  | Err _ => Return (Err ErrValidation)
  | Ok normalized =>
      if groupID =? 0 then Return (Err ErrValidation)
      else
        let! run := ask connectRun in
        let! entriesOk := ask bool in
        let! now1 := clock in
        let! now2 := clock in
        let! connected := transact (connectGroupCredentialsMutation run groupID normalized now1 now2 entriesOk) in
        Return (default (Err ErrDatabase) connected)
  end.

(** A new group is created in the same transaction as its credentials. *)
Definition createGroupWithStages (run : connectRun) (groupID : Z) (g : GroupRow) (stageIDs : list string) (now1 now2 : Z) (entriesOk : bool)
  (t : Tables) : res (Z * list string) * Tables :=
  if isSome (tb_groups t !! groupID) then (Err ErrDatabase, t)
  else
    let created := mkTables (tb_stages t) (tb_credentials t) (<[groupID := g]> (tb_groups t)) in
    match consumeCredentialStages run groupID (gr_ChannelID g) (gr_ConnectionType g) stageIDs now1 now2 created with
    | Err e => (Err e, t)
    | Ok (added, duplicated, t') => if entriesOk then (Ok (added, duplicated), t') else (Err ErrInternalServer, t)
    end.

(** * Cleaning up *)

Definition terminalStatus (s : CredentialStageStatus) : bool :=
  match s with StageConsumed | StageFailed | StageCancelled | StageExpired | StageOutcomeUnknown => true | _ => false end.

Definition interruptStage (nowMS : Z) (r : CredentialStage) : CredentialStage :=
  if (st_ExpiresAtMS r <=? nowMS) && isStatus StageExchanging r
  then setUpdated nowMS (setCode "authorization_exchange_interrupted" (setHash None (setPayload "" (setStatus StageOutcomeUnknown r))))
  else r.

Definition expireStage (nowMS : Z) (r : CredentialStage) : CredentialStage :=
  if (st_ExpiresAtMS r <=? nowMS) && (isStatus StagePendingAuthorization r || isStatus StageReady r)
  then setUpdated nowMS (setHash None (setPayload "" (setStatus StageExpired r)))
  else r.

Definition pruned (terminalBeforeMS : Z) (r : CredentialStage) : bool :=
  (st_UpdatedAtMS r <? terminalBeforeMS) && terminalStatus (st_Status r).

Definition cleanupTx (now : Z) (t : Tables) : unit * Tables :=
  let nowMS := unixMilli now in
  let terminalBeforeMS := unixMilli (now - credentialStageTombstoneTTL) in
  let swept := expireStage nowMS <$> (interruptStage nowMS <$> tb_stages t) in
  ((), setStages (filter (fun kv => pruned terminalBeforeMS kv.2 = false) swept) t).

Definition CleanupCredentialStages (now : Z) : prog (res unit) :=
  let! done := transact (cleanupTx now) in
  Return match done with Some _ => Ok () | None => Err ErrDatabase end.

(** * All handlers *)

Inductive stageReply :=
| ReplyStage (r : res CredentialStageResult)
| ReplyDone (r : res unit)
| ReplyCredential (r : res SubCredential)
| ReplyConnected (r : res (Z * list string))
| ReplyPage (k : oauthCallbackOutcomeKind).

Inductive stageHandler : prog stageReply -> Prop :=
| h_begin channelID : stageHandler (let! r := BeginCredentialAuthorization channelID in Return (ReplyStage r))
| h_import channelID raw : stageHandler (let! r := ImportCredentialStage channelID raw in Return (ReplyStage r))
| h_complete stageID redirectURI state code :
    stageHandler (let! r := completeCredentialAuthorization stageID redirectURI state code in Return (ReplyStage r))
| h_fail stageID redirectURI state providerError :
    stageHandler (let! r := failCredentialAuthorization stageID redirectURI state providerError in Return (ReplyDone r))
| h_callback stageID raw : stageHandler (let! r := CompleteCredentialAuthorizationCallback stageID raw in Return (ReplyStage r))
| h_serve redirectURI path method urlPath query : stageHandler (let! k := serveHTTP redirectURI path method urlPath query in Return (ReplyPage k))
| h_poll stageID : stageHandler (let! r := PollCredentialDeviceAuthorization stageID in Return (ReplyStage r))
| h_get stageID : stageHandler (let! r := GetCredentialStage stageID in Return (ReplyStage r))
| h_cancel stageID : stageHandler (let! r := CancelCredentialStage stageID in Return (ReplyDone r))
| h_discover channelID stageID : stageHandler (let! r := discoverSubscriptionStageModels channelID stageID in Return (ReplyCredential r))
| h_connect groupID stageIDs : stageHandler (let! r := ConnectGroupCredentials groupID stageIDs in Return (ReplyConnected r))
| h_create run groupID g stageIDs now1 now2 entriesOk :
    stageHandler (let! r := transact (createGroupWithStages run groupID g stageIDs now1 now2 entriesOk) in
                  Return (ReplyConnected (default (Err ErrDatabase) r)))
| h_cleanup now : stageHandler (let! r := CleanupCredentialStages now in Return (ReplyDone r)).

Abbreviation StageWorld := (Running Tables stageCall stageAnswer stageReply) (only parsing).

(** An empty table of stages, and any other tables. *)
Definition stage_start (creds : gmap Z CredentialRow) (groups : gmap Z GroupRow) : Running Tables stageCall stageAnswer stageReply :=
  mkRunning [] (mkShared (mkTables ∅ creds groups) [] ∅).

Definition stage_step := @run_step Tables stageCall stageAnswer newOperationID stageReply stageHandler.

Definition stage_reachable (w : Running Tables stageCall stageAnswer stageReply) : Prop :=
  exists creds groups, rtc stage_step (stage_start creds groups) w.

End Service.
