(* ===== verification/StageProtocol.v ===== *)
(** The protocol of the stages: which calls of the provider a stage permits, what a program that
    has claimed a stage may do, and what every other program may do to its row.

    A program claims a stage by moving its row to [StageExchanging]; it alone may move the row back
    to a usable state, and only as the answer of the provider permits.  Every program may end a
    stage. *)
From Stdlib Require Import Ascii.
From S2P Require Import Prelude GoStrings Execution Config Credential Ledger Registry PriceTable Refresh Idempotency Threads StageRows Stages StageConnect.

Local Open Scope go_scope.
Local Open Scope Z_scope.

#[export] Instance Account_eq_dec : EqDecision Account.
Proof. solve_decision. Defined.
#[export] Instance SubCredential_eq_dec : EqDecision SubCredential.
Proof. solve_decision. Defined.

Create HintDb stage.

Section Protocol.
Context `{GoText} `{SubscriptionPlatform} `{StagePlatform}.

(** * The calls of a stage *)

(** A refresh is of the imported secret, or of the secret that an answer has delivered. *)
Inductive wait := WaitExchange | WaitPoll | WaitRefresh (held : option string).

Inductive phase :=
| PhaseFresh
| PhaseWaiting (w : wait)
| PhasePolling
| PhaseHolding (held : option string)
| PhaseClosed
| PhaseBroken.

(** The credential that is sent is the one that is held. *)
Definition heldMatches (held : option string) (channelID : string) (c : SubCredential) : bool :=
  match held with
  | None => true
  | Some s => match DriverOf channelID with Some d => opt_eqb (drv_Parse d (compactJSON s)) (Some c) | None => false end
  end.

Definition afterAnswer (w : wait) (a : stageAnswer) : phase :=
  match w, a with
  | WaitExchange, AnswerCredential c => PhaseHolding (Some (sc_canonical c))
  | WaitPoll, AnswerPoll (PollPending _ _) => PhasePolling
  | WaitPoll, AnswerPoll (PollAuthorized c) => PhaseHolding (Some (sc_canonical c))
  | WaitRefresh _, AnswerCredential c => PhaseHolding (Some (sc_canonical c))
  | WaitRefresh held, AnswerRefreshFailure RefreshFailureRetryable => PhaseHolding held
  | _, _ => PhaseClosed
  end.

Definition phaseStep (ph : phase) (e : event stageCall stageAnswer) : phase :=
  match ph, e with
  | PhaseFresh, Sent _ (CallExchange _ _) => PhaseWaiting WaitExchange
  | PhaseFresh, Sent _ (CallPoll _ _) => PhaseWaiting WaitPoll
  | PhaseFresh, Sent _ (CallRefresh _ _) => PhaseWaiting (WaitRefresh None)
  | PhasePolling, Sent _ (CallPoll _ _) => PhaseWaiting WaitPoll
  | PhaseHolding held, Sent _ (CallRefresh channelID c) =>
      if heldMatches held channelID c then PhaseWaiting (WaitRefresh held) else PhaseBroken
  | PhaseWaiting w, Received _ a => afterAnswer w a
  | _, _ => PhaseBroken
  end.

Definition eventsOf (id : string) (ev : list (event stageCall stageAnswer)) : list (event stageCall stageAnswer) :=
  filter (fun e => eventKey e = id) ev.

Definition phaseOf (id : string) (ev : list (event stageCall stageAnswer)) : phase := fold_left phaseStep (eventsOf id ev) PhaseFresh.

Lemma phaseOf_snoc id ev e : phaseOf id (ev ++ [e]) = if decide (eventKey e = id) then phaseStep (phaseOf id ev) e else phaseOf id ev.
Proof.
  unfold phaseOf, eventsOf. rewrite filter_app, fold_left_app. cbn. by destruct (decide (eventKey e = id)).
Qed.

(** * Rows *)

Record stage_ok (id : string) (r : CredentialStage) : Prop := {
  so_id : st_ID r = id;
  so_wiped : terminalStatus (st_Status r) = true -> st_EncryptedPayload r = ""%string;
  so_hash : st_OAuthStateHash r <> None -> st_Status r = StagePendingAuthorization /\ st_AuthorizationMethod r = AuthorizationBrowserOAuth;
  so_connection : st_ConnectionType r = ConnectionTypeSubscription;
  so_consumed : is_Some (st_ConsumedAtMS r) <-> st_Status r = StageConsumed;
  so_group : is_Some (st_ConsumedGroupID r) <-> st_Status r = StageConsumed
}.

Definition tables_ok (t : Tables) : Prop := forall id r, tb_stages t !! id = Some r -> stage_ok id r.

(** The payload of the row holds the secret. *)
Definition payloadHolds (r : CredentialStage) (held : option string) : Prop :=
  match held with
  | None => True
  | Some s => exists plaintext p, Decrypt (st_EncryptedPayload r) = Some plaintext /\ unmarshalPayload plaintext = Some p
                             /\ sp_Credential p = compactJSON s
  end.

(** * Tokens *)

Inductive claimKind := KExchange | KPoll | KRefresh (channelID : string) (c : SubCredential).

Definition kindOf (c : stageCall) : claimKind :=
  match c with CallExchange _ _ => KExchange | CallPoll _ _ => KPoll | CallRefresh channelID c => KRefresh channelID c end.

Inductive token :=
| TNone
| TFresh (id : string)
| TClaim (id : string) (k : claimKind)
| TSent (id : string) (k : claimKind)
| TGot (id : string) (k : claimKind) (a : stageAnswer).

Definition tokenKey (g : token) : option string :=
  match g with TNone => None | TFresh id | TClaim id _ | TSent id _ | TGot id _ _ => Some id end.

(** How a stage may end. *)
Definition endsStatus (s s' : CredentialStageStatus) : bool :=
  match s, s' with
  | StagePendingAuthorization, (StageFailed | StageCancelled | StageExpired) => true
  | StageExchanging, (StageFailed | StageExpired | StageOutcomeUnknown) => true
  | StageReady, (StageConsumed | StageCancelled | StageExpired) => true
  | _, _ => false
  end.

Lemma endsStatus_terminal s s' : endsStatus s s' = true -> terminalStatus s = false /\ terminalStatus s' = true.
Proof. by destruct s, s'. Qed.

(** What a program without a claim may do to a row. *)
Inductive quiet : option CredentialStage -> option CredentialStage -> Prop :=
| q_same o : quiet o o
| q_end r r' : endsStatus (st_Status r) (st_Status r') = true -> quiet (Some r) (Some r')
| q_prune r : terminalStatus (st_Status r) = true -> quiet (Some r) None.

Definition interactive (r : CredentialStage) : Prop :=
  st_AuthorizationMethod r = AuthorizationBrowserOAuth \/ st_AuthorizationMethod r = AuthorizationDeviceOAuth.

Definition created (r : CredentialStage) : Prop :=
  st_Status r = StagePendingAuthorization /\ interactive r \/ st_Status r = StageReady.

Definition payloadCredential (payload channelID : string) : option SubCredential :=
  match Decrypt payload with
  | None => None
  | Some plaintext =>
      match unmarshalPayload plaintext, DriverOf channelID with
      | Some p, Some d => drv_Parse d (sp_Credential p)
      | _, _ => None
      end
  end.

Definition claimable (r : CredentialStage) (k : claimKind) : Prop :=
  match k with
  | KExchange => st_Status r = StagePendingAuthorization /\ st_OAuthStateHash r <> None
  | KPoll => st_Status r = StagePendingAuthorization /\ st_AuthorizationMethod r = AuthorizationDeviceOAuth
  | KRefresh channelID c => st_Status r = StageReady /\ payloadCredential (st_EncryptedPayload r) channelID = Some c
  end.

Definition claimed (r r' : CredentialStage) : Prop :=
  st_Status r' = StageExchanging /\ st_EncryptedPayload r' = st_EncryptedPayload r /\ st_AuthorizationMethod r' = st_AuthorizationMethod r.

Definition finishes (k : claimKind) (a : stageAnswer) (r r' : CredentialStage) : Prop :=
  match k, a with
  | KPoll, AnswerPoll (PollPending _ _) => st_Status r' = StagePendingAuthorization /\ st_AuthorizationMethod r' = st_AuthorizationMethod r
  | KPoll, AnswerPoll (PollAuthorized c) | KExchange, AnswerCredential c | KRefresh _ _, AnswerCredential c =>
      st_Status r' = StageReady /\ payloadHolds r' (Some (sc_canonical c))
  | KRefresh _ _, AnswerRefreshFailure RefreshFailureRetryable => st_Status r' = StageReady /\ st_EncryptedPayload r' = st_EncryptedPayload r
  | _, _ => False
  end.

Inductive move : token -> Tables -> Tables -> token -> Prop :=
| m_quiet g g' t t' : (forall id, quiet (tb_stages t !! id) (tb_stages t' !! id)) -> g' = g \/ g' = TNone -> move g t t' g'
| m_create id r t : tb_stages t !! id = None -> created r -> move (TFresh id) t (setStages (<[id := r]> (tb_stages t)) t) TNone
| m_claim id r r' k t : tb_stages t !! id = Some r -> claimable r k -> claimed r r' ->
    move TNone t (setStages (<[id := r']> (tb_stages t)) t) (TClaim id k)
| m_finish id k a r r' t : tb_stages t !! id = Some r -> st_Status r = StageExchanging -> finishes k a r r' ->
    move (TGot id k a) t (setStages (<[id := r']> (tb_stages t)) t) TNone.

Inductive sends : token -> string -> stageCall -> token -> Prop :=
| s_send id c : sends (TClaim id (kindOf c)) id c (TSent id (kindOf c)).
Inductive receives : token -> string -> stageAnswer -> token -> Prop :=
| s_receive id k a : receives (TSent id k) id a (TGot id k a).
Inductive draws : token -> string -> token -> Prop :=
| s_draw id : draws TNone id (TFresh id)
| s_again id id' : draws (TFresh id) id' (TFresh id').

Definition stageProtocol : protocol token :=
  mkProtocol token tables_ok (fun g t t' g' => tables_ok t' /\ move g t t' g') sends receives draws.

Definition obeys {A} (g : token) (p : Threads.prog A) : Prop := wp newOperationID stageProtocol g p (fun _ _ => True).

(** * Rules *)

Abbreviation wp' := (wp newOperationID stageProtocol) (only parsing).

(** The program keeps its token whatever it is. *)
Definition keeps {A} (p : Threads.prog A) : Prop := forall g Q, (forall a, Q g a) -> wp' g p Q.

Lemma keeps_obeys {A} g (p : Threads.prog A) : keeps p -> obeys g p.
Proof. intros Hp. by apply Hp. Qed.

Lemma keeps_return {A} (a : A) : keeps (Return a).
Proof. intros g Q HQ. apply HQ. Qed.

Lemma keeps_clock : keeps clock.
Proof. intros g Q HQ now. apply HQ. Qed.

Lemma keeps_ask B : keeps (ask B).
Proof. intros g Q HQ b. apply HQ. Qed.

Lemma keeps_bind {A B} (p : Threads.prog A) (f : A -> Threads.prog B) : keeps p -> (forall a, keeps (f a)) -> keeps (bindP p f).
Proof. intros Hp Hf g Q HQ. apply wp_bind, Hp. intros a. by apply Hf. Qed.

(** Sequencing after a program that keeps the token. *)
Lemma wp_keeps {A B} g (p : Threads.prog A) (f : A -> Threads.prog B) Q : keeps p -> (forall a, wp' g (f a) Q) -> wp' g (bindP p f) Q.
Proof. intros Hp Hf. apply wp_bind, Hp, Hf. Qed.

Lemma wp_transact_bind {A B} g (q : Tables -> B * Tables) (f : option B -> Threads.prog A) Q :
  (forall t, tables_ok t -> exists g', (tables_ok (q t).2 /\ move g t (q t).2 g') /\ wp' g' (f (Some (q t).1)) Q /\ wp' g' (f None) Q) ->
  wp' g (f None) Q ->
  wp' g (bindP (transact q) f) Q.
Proof.
  intros Ht Hf. split; [|done]. intros t Hok. destruct (Ht t Hok) as (g' & Hm & Hk1 & Hk2). split; exists g'; by split.
Qed.

Lemma q_stay g t : tables_ok t -> tables_ok t /\ move g t t g.
Proof. intros Hok. split; [done|]. apply m_quiet; [intros; apply q_same|by left]. Qed.

(** A transaction that only ends or removes stages. *)
Lemma keeps_transact {B} (q : Tables -> B * Tables) :
  (forall t, tables_ok t -> tables_ok (q t).2 /\ forall id, quiet (tb_stages t !! id) (tb_stages (q t).2 !! id)) ->
  keeps (transact q).
Proof.
  intros Hq g Q HQ. split; [|apply HQ]. intros t Hok. destruct (Hq t Hok) as [Hok' Hm].
  split; exists g; (split; [split; [done|by apply m_quiet; [|left]]|apply HQ]).
Qed.

Lemma keeps_read {B} (f : Tables -> B) : keeps (transact (fun t => (f t, t))).
Proof. apply keeps_transact. intros t Hok. split; [done|]. intros id. apply q_same. Qed.

Lemma keeps_take id : keeps (transact (takeStage id)).
Proof. apply keeps_read. Qed.

(** An update of one row. *)
Definition updates_ok (id : string) (cond : CredentialStage -> bool) (f : CredentialStage -> CredentialStage) : Prop :=
  forall r, stage_ok id r -> cond r = true -> stage_ok id (f r).

Lemma update_cases id cond f t :
  tables_ok t -> updates_ok id cond f ->
  (updateStage id cond f t = (0, t)) \/
  (exists r, tb_stages t !! id = Some r /\ cond r = true /\ stage_ok id r /\
     updateStage id cond f t = (1, setStages (<[id := f r]> (tb_stages t)) t) /\
     tables_ok (setStages (<[id := f r]> (tb_stages t)) t)).
Proof.
  intros Hok Hf. unfold updateStage. destruct (tb_stages t !! id) as [r|] eqn:Er; [|by left].
  destruct (cond r) eqn:Ec; [|by left]. right. exists r. split_and!; try done; [by apply Hok|].
  intros j s Hs. cbn in Hs. apply lookup_insert_Some in Hs as [[<- <-]|[_ Hs]]; [|by apply Hok].
  apply Hf; [by apply Hok|done].
Qed.

Lemma keeps_update id cond f :
  updates_ok id cond f ->
  (forall r, cond r = true -> endsStatus (st_Status r) (st_Status (f r)) = true) ->
  keeps (transact (updateStage id cond f)).
Proof.
  intros Hf Hend. apply keeps_transact. intros t Hok.
  destruct (update_cases id cond f t Hok Hf) as [->|(r & Er & Ec & _ & -> & Hok')]; cbn; [by split; [|intros; apply q_same]|].
  split; [done|]. intros j. destruct (decide (j = id)) as [->|Hj]; [|by rewrite lookup_insert_ne; [apply q_same|]].
  rewrite Er, lookup_insert_eq. by apply q_end, Hend.
Qed.

(** Claiming a stage. *)
Lemma wp_claim {A} id cond f k (h : option Z -> Threads.prog A) Q :
  updates_ok id cond f ->
  (forall r, cond r = true -> claimable r k /\ claimed r (f r)) ->
  wp' (TClaim id k) (h (Some 1)) Q -> wp' (TClaim id k) (h None) Q -> wp' TNone (h (Some 0)) Q -> wp' TNone (h None) Q ->
  wp' TNone (bindP (transact (updateStage id cond f)) h) Q.
Proof.
  intros Hf Hc ????. apply wp_transact_bind; [|done]. intros t Hok.
  destruct (update_cases id cond f t Hok Hf) as [->|(r & Er & Ec & _ & -> & Hok')]; cbn.
  - exists TNone. split; [by apply q_stay|done].
  - exists (TClaim id k). split; [split; [done|]|done]. by eapply m_claim; [|apply Hc..].
Qed.

(** Finishing what was claimed; the program goes on whatever its token is then. *)
Lemma wp_finish {A} id f k a (h : option Z -> Threads.prog A) Q :
  updates_ok id (isStatus StageExchanging) f ->
  (forall r, finishes k a r (f r)) ->
  (forall g n, wp' g (h n) Q) ->
  wp' (TGot id k a) (bindP (transact (updateStage id (isStatus StageExchanging) f)) h) Q.
Proof.
  intros Hf Hfin Hh. apply wp_transact_bind; [|done]. intros t Hok.
  destruct (update_cases id _ f t Hok Hf) as [->|(r & Er & Ec & _ & -> & Hok')]; cbn.
  - exists (TGot id k a). split; [by apply q_stay|done].
  - exists TNone. split; [split; [done|]|done]. eapply m_finish; [done| |apply Hfin]. by apply bool_decide_eq_true in Ec.
Qed.

Lemma wp_call {A} id c (h : stageAnswer -> Threads.prog A) Q :
  (forall a, wp' (TGot id (kindOf c) a) (h a) Q) -> wp' (TClaim id (kindOf c)) (bindP (call id c) h) Q.
Proof.
  intros Hh. exists (TSent id (kindOf c)). split; [constructor|]. intros a. exists (TGot id (kindOf c) a). split; [constructor|apply Hh].
Qed.

(** Creating a stage under an identifier that was just drawn. *)
Lemma wp_create {A} r (h : option bool -> Threads.prog A) Q :
  stage_ok (st_ID r) r -> created r -> (forall g b, wp' g (h b) Q) -> wp' (TFresh (st_ID r)) (bindP (transact (createStage r)) h) Q.
Proof.
  intros Hok Hc Hh. apply wp_transact_bind; [|apply Hh]. intros t Ht. unfold createStage.
  destruct (tb_stages t !! st_ID r) as [r0|] eqn:Er; cbn; [|destruct (hashTaken _ t); cbn].
  1,2: exists (TFresh (st_ID r)); split; [by apply q_stay|by split].
  exists TNone. split; [split|by split]; [|by apply m_create].
  intros j s Hs. cbn in Hs. apply lookup_insert_Some in Hs as [[<- <-]|[_ Hs]]; [done|by apply Ht].
Qed.

Lemma wp_random {A} (h : list Z -> Threads.prog A) Q :
  (forall bytes, match newOperationID bytes with Some id => wp' (TFresh id) (h bytes) Q | None => wp' TNone (h bytes) Q end) ->
  wp' TNone (bindP random h) Q.
Proof.
  intros Hh bytes. specialize (Hh bytes). cbn. destruct (newOperationID bytes); [|done]. eexists. split; [constructor|done].
Qed.

(** * The handlers *)

Lemma isStatus_true s r : isStatus s r = true -> st_Status r = s.
Proof. apply bool_decide_eq_true. Qed.

(** The status conditions of an update, as equations. *)
Ltac status_eqs :=
  repeat match goal with
  | Hc : (_ && _) = true |- _ => apply andb_true_iff in Hc as [? ?]
  | Hc : (_ || _) = true |- _ => apply orb_true_iff in Hc as [?|?]
  | Hc : isStatus _ _ = true |- _ => apply isStatus_true in Hc
  | Hc : bool_decide _ = true |- _ => apply bool_decide_eq_true in Hc
  end.

(** A row that leaves a usable state keeps its invariant. *)
Ltac row_ok :=
  intros ? [? Hwiped Hhash ? Hconsumed Hgroup] ?; status_eqs;
  constructor; cbn in *; rewrite ?Hconsumed, ?Hgroup; try done; try (by split; [intros [? ?]|]);
  try (intros ?; split; congruence || (destruct Hhash; congruence)); try (by intuition (congruence || eauto));
  try (intros; destruct Hhash; congruence).

Ltac row_end := intros ? ?; status_eqs; cbn; by repeat match goal with E : st_Status _ = _ |- _ => rewrite E; clear E end.

Lemma keeps_end id f s s' :
  updates_ok id (isStatus s) f -> (forall r, st_Status (f r) = s') -> endsStatus s s' = true -> keeps (transact (updateStage id (isStatus s) f)).
Proof. intros Hf Hs' Hend. apply keeps_update; [done|]. intros r Hc%isStatus_true. by rewrite Hc, Hs'. Qed.

(** Programs that keep their token: by the structure of the program. *)
Ltac keeps_tac :=
  repeat match goal with
  | |- keeps (Return _) => apply keeps_return
  | |- keeps clock => apply keeps_clock
  | |- keeps (ask _) => apply keeps_ask
  | |- keeps (transact (takeStage _)) => apply keeps_take
  | |- keeps (bindP _ _) => apply keeps_bind; [|intros ?]
  | |- keeps (match ?x with _ => _ end) => let E := fresh "E" in destruct x eqn:E
  | |- keeps _ => solve [eauto 2 with stage]
  end.

Lemma keeps_mark id : keeps (markCredentialStageOutcomeUnknown id).
Proof. unfold markCredentialStageOutcomeUnknown. keeps_tac. by apply (keeps_end _ _ _ StageOutcomeUnknown); [row_ok|..]. Qed.
Hint Resolve keeps_mark : stage.

Lemma keeps_failExchange id code : keeps (failCredentialStageExchange id code).
Proof. unfold failCredentialStageExchange. keeps_tac. by apply (keeps_end _ _ _ StageFailed); [row_ok|..]. Qed.

Lemma keeps_deviceFailure id s code :
  endsStatus StageExchanging s = true -> keeps (finishDeviceAuthorizationFailure id s code).
Proof.
  intros Hs. unfold finishDeviceAuthorizationFailure. keeps_tac. apply (keeps_end _ _ _ s); [|done|done]. destruct s; try done; row_ok.
Qed.

Lemma keeps_refreshFailure id s code :
  endsStatus StageExchanging s = true -> keeps (finishCredentialStageRefreshFailure id s code).
Proof.
  intros Hs. unfold finishCredentialStageRefreshFailure. keeps_tac. apply (keeps_end _ _ _ s); [|done|done]. destruct s; try done; row_ok.
Qed.

Lemma keeps_abandon id : keeps (abandonExchange id).
Proof. unfold abandonExchange. keeps_tac. Qed.

Lemma keeps_encrypt p : keeps (encryptPayload p).
Proof. unfold encryptPayload. keeps_tac. Qed.

Lemma keeps_network p : keeps (stagedNetworkContext p).
Proof. unfold stagedNetworkContext. keeps_tac. Qed.
Hint Resolve keeps_failExchange keeps_deviceFailure keeps_refreshFailure keeps_abandon keeps_encrypt keeps_network : stage.

Lemma keeps_stageNetwork r : keeps (credentialStageNetworkContext r).
Proof. unfold credentialStageNetworkContext. keeps_tac. Qed.

Lemma keeps_load id : keeps (loadCredentialStage id).
Proof. unfold loadCredentialStage. keeps_tac. Qed.
Hint Resolve keeps_stageNetwork keeps_load : stage.

Lemma keeps_expire r : expirable r = true -> keeps (expireCredentialStage r).
Proof.
  intros Hr. unfold expireCredentialStage. destruct (isStatus StageExchanging r) eqn:Ex.
  - apply isStatus_true in Ex as ->. keeps_tac. by apply (keeps_end _ _ _ StageOutcomeUnknown); [row_ok|..].
  - unfold expirable in Hr. rewrite Ex, orb_false_r in Hr.
    apply orb_true_iff in Hr as [Es%isStatus_true|Es%isStatus_true]; rewrite Es; keeps_tac;
      by apply (keeps_end _ _ _ StageExpired); [row_ok|..].
Qed.

Lemma keeps_get id : keeps (GetCredentialStage id).
Proof.
  unfold GetCredentialStage. keeps_tac. by apply keeps_expire.
Qed.
Hint Resolve keeps_get : stage.

Lemma keeps_cancel id : keeps (CancelCredentialStage id).
Proof.
  unfold CancelCredentialStage. keeps_tac. apply keeps_update; [row_ok|].
  row_end.
Qed.

(** ** Browser authorisations *)

Lemma findStage_Some cond t r : tables_ok t -> findStage cond t = Some r -> cond r = true /\ tb_stages t !! st_ID r = Some r.
Proof.
  intros Hok Hf. unfold findStage in Hf. apply find_some in Hf as [Hin Hc]. split; [done|].
  apply list_elem_of_In, list_elem_of_fmap in Hin as ([k r'] & -> & Hin%elem_of_map_to_list). cbn. by rewrite (so_id _ _ (Hok _ _ Hin)).
Qed.

Lemma keeps_failTx hash id uri code now : keeps (transact (failAuthorizationTx hash id uri code now)).
Proof.
  apply keeps_transact. intros t Hok. unfold failAuthorizationTx.
  destruct (findStage _ t) as [row|] eqn:Ef; [|by split; [|intros; apply q_same]].
  case_if; [by split; [|intros; apply q_same]|].
  match goal with |- context [updateStage ?i ?c ?f t] =>
    destruct (update_cases i c f t Hok) as [->|(r & Er & Ec & Hr & -> & Hok')] end; [row_ok|by split; [|intros; apply q_same]|].
  cbn. split; [done|]. intros j. destruct (decide (j = st_ID row)) as [->|Hj]; [|by rewrite lookup_insert_ne; [apply q_same|]].
  rewrite Er, lookup_insert_eq. status_eqs. apply q_end. by match goal with E : st_Status r = _ |- _ => rewrite E end.
Qed.
Hint Resolve keeps_failTx : stage.

Lemma keeps_fail id uri state e : keeps (failCredentialAuthorization id uri state e).
Proof. unfold failCredentialAuthorization. keeps_tac. Qed.
Hint Resolve keeps_fail : stage.

(** The claim of an authorisation. *)
Lemma claim_moves hash id uri now1 now2 now3 t :
  tables_ok t ->
  let '(r, t') := claimAuthorization hash id uri now1 now2 now3 t in
  tables_ok t' /\ move TNone t t' (match r with Ok row => TClaim (st_ID row) KExchange | Err _ => TNone end).
Proof.
  intros Hok. unfold claimAuthorization.
  destruct (findStage _ t) as [row|] eqn:Ef; [|by apply q_stay].
  case_if; [by apply q_stay|]. case_if; [by apply q_stay|].
  match goal with |- context [updateStage ?i ?c ?f t] =>
    destruct (update_cases i c f t Hok) as [->|(r & Er & Ec & Hr & -> & Hok')] end;
    [row_ok|by apply q_stay|].
  cbn. split; [done|]. apply andb_true_iff in Ec as [Es Eh]. apply bool_decide_eq_true in Eh. status_eqs.
  eapply m_claim; [done| |done]. split; [done|]. by rewrite Eh.
Qed.

Context `{!StagePlatformLaws}.

(** What the cipher makes of a payload gives its credential back. *)
Definition sealed (p : stagedSubscriptionPayload) (c : string) : Prop :=
  exists plaintext p', Decrypt c = Some plaintext /\ unmarshalPayload plaintext = Some p' /\ sp_Credential p' = compactJSON (sp_Credential p).

Lemma wp_encrypt {A} g p (f : option string -> Threads.prog A) Q :
  (forall c, sealed p c -> wp' g (f (Some c)) Q) -> wp' g (f None) Q -> wp' g (bindP (encryptPayload p) f) Q.
Proof.
  intros Hs Hn. unfold encryptPayload. destruct (marshalPayload p) as [j|] eqn:Ej; [|done]. intros nonce. cbn.
  destruct (EncryptWith nonce j) as [c|] eqn:Ec; [|done]. apply Hs. destruct (unmarshal_marshal p j Ej) as (p' & Hp & Hc).
  exists j, p'. split; [by eapply Decrypt_EncryptWith|done].
Qed.

Lemma obeys_seq {A B} g (p : Threads.prog A) (f : A -> Threads.prog B) : obeys g p -> (forall g' a, obeys g' (f a)) -> obeys g (bindP p f).
Proof. intros Hp Hf. apply wp_bind. eapply wp_mono; [|exact Hp]. intros g' a _. apply Hf. Qed.

Lemma obeys_bind {A B} g (p : Threads.prog A) (f : A -> Threads.prog B) : obeys g p -> (forall a, keeps (f a)) -> obeys g (bindP p f).
Proof. intros Hp Hf. apply obeys_seq; [done|]. intros g' a. by apply keeps_obeys. Qed.

Lemma obeys_after {A B} g (p : Threads.prog A) (f : A -> Threads.prog B) : keeps p -> (forall a, obeys g (f a)) -> obeys g (bindP p f).
Proof. apply wp_keeps. Qed.

(** Steps of a handler before its claim. *)
Ltac obeys_tac :=
  repeat match goal with
  | |- wp _ _ ?g ?p (fun _ _ => True) => change (obeys g p)
  | |- obeys _ (bindP ?p _) => apply obeys_after; [solve [keeps_tac]|]; intros ?
  | |- obeys _ (match ?x with _ => _ end) => let E := fresh "E" in destruct x eqn:E
  | |- obeys _ _ => apply keeps_obeys; solve [keeps_tac]
  end.

(** The end of an exchange, by whoever got its answer. *)
Lemma obeys_finishExchange row c network k a :
  (forall r r', st_Status r' = StageReady -> payloadHolds r' (Some (sc_canonical c)) -> finishes k a r r') ->
  obeys (TGot (st_ID row) k a) (finishCredentialStageExchange row c network).
Proof.
  intros Hfin. apply wp_encrypt; [|done]. intros ciphertext Hc. cbv zeta. obeys_tac.
  apply wp_finish; [row_ok|intros r; by apply Hfin|]. intros g n. apply keeps_obeys. keeps_tac.
Qed.

Lemma obeys_complete id uri state code : obeys TNone (completeCredentialAuthorization id uri state code).
Proof.
  unfold completeCredentialAuthorization. case_if; [done|].
  apply obeys_after; [apply keeps_clock|]. intros now1. apply obeys_after; [apply keeps_clock|]. intros now2.
  apply obeys_after; [apply keeps_clock|]. intros now3.
  apply wp_transact_bind; [|done]. intros t Hok. pose proof (claim_moves (oauthStateHash state) id uri now1 now2 now3 t Hok) as Hm.
  destruct (claimAuthorization _ _ _ _ _ _ t) as [[row|e] t']; eexists; (split; [exact Hm|]); (split; [|done]); [|cbn; by destruct e].
  cbn [fst]. obeys_tac. apply (wp_call _ (CallExchange _ _)). intros [c| | | |]; try solve [apply keeps_obeys; keeps_tac].
  apply obeys_bind; [|intros r; keeps_tac]. by apply obeys_finishExchange.
Qed.

Lemma obeys_callback id raw : obeys TNone (CompleteCredentialAuthorizationCallback id raw).
Proof. unfold CompleteCredentialAuthorizationCallback. obeys_tac. apply obeys_complete. Qed.

Lemma obeys_serve uri path method urlPath query : obeys TNone (serveHTTP uri path method urlPath query).
Proof. unfold serveHTTP. case_if; [done|]. case_if; [done|]. destruct (parseOAuthCallbackQuery _); [|done]. case_if; [obeys_tac|].
  apply obeys_bind; [apply obeys_complete|intros; keeps_tac].
Qed.

(** ** Device authorisations *)

Lemma obeys_finishPending row previous summary pollState interval network i' :
  obeys (TGot (st_ID row) KPoll (AnswerPoll (PollPending pollState i')))
    (finishPendingDeviceAuthorization row previous summary pollState interval network).
Proof.
  unfold finishPendingDeviceAuthorization. obeys_tac.
  apply wp_finish; [row_ok|done|]. intros g n. apply keeps_obeys. keeps_tac.
Qed.

Lemma obeys_finishPoll row driverState summary network a :
  obeys (TGot (st_ID row) KPoll a) (finishDevicePoll row driverState summary network a).
Proof.
  destruct a as [| | |[pollState interval|c| | |]|]; try solve [apply keeps_obeys; unfold finishDevicePoll; keeps_tac].
  - apply obeys_finishPending.
  - by apply obeys_finishExchange.
Qed.

Lemma obeys_poll id : obeys TNone (PollCredentialDeviceAuthorization id).
Proof.
  unfold PollCredentialDeviceAuthorization. obeys_tac.
  { apply obeys_after; [apply keeps_expire; unfold expirable; by destruct (isStatus StagePendingAuthorization _)|]. intros o. obeys_tac. }
  apply (wp_claim _ _ _ KPoll); try (obeys_tac; fail).
  - intros r [? Hwiped Hhash ? Hconsumed Hgroup] Hc. status_eqs. constructor; cbn in *; try done; [|by rewrite Hconsumed; split; congruence|by rewrite Hgroup; split; congruence].
    intros Hn. destruct (Hhash Hn) as [_ Hb].
    match goal with E : st_AuthorizationMethod r = AuthorizationDeviceOAuth |- _ => by rewrite E in Hb end.
  - intros r Hc. by status_eqs.
  - obeys_tac. apply (wp_call _ (CallPoll _ _)). intros answer. apply obeys_finishPoll.
  - change (obeys TNone (GetCredentialStage id)). obeys_tac.
Qed.

(** ** Refreshing *)

Lemma decode_credential channelID row c :
  decodeStageSubscriptionCredential channelID row = Ok c -> payloadCredential (st_EncryptedPayload row) channelID = Some c.
Proof.
  unfold decodeStageSubscriptionCredential, payloadCredential, subscriptionDriver. destruct (Decrypt _) as [plaintext|]; [|done].
  destruct (unmarshalPayload plaintext) as [p|]; [|done]. case_if; [done|]. destruct (DriverOf channelID) as [d|]; [|done].
  destruct (drv_Parse d (sp_Credential p)); by intros [= ->].
Qed.

Lemma obeys_finishRefresh row channelID c0 c :
  obeys (TGot (st_ID row) (KRefresh channelID c0) (AnswerCredential c)) (finishCredentialStageRefresh row c).
Proof.
  unfold finishCredentialStageRefresh. apply obeys_after; [apply keeps_stageNetwork|]. intros [network|e]; [|done].
  apply wp_encrypt; [|done]. intros ciphertext Hc. obeys_tac. apply wp_finish; [row_ok|done|]. intros g n. apply keeps_obeys. keeps_tac.
Qed.

Lemma obeys_finishReady row d c answer channelID :
  obeys (TGot (st_ID row) (KRefresh channelID c) answer) (finishReadyRefresh row d c answer).
Proof.
  destruct answer as [refreshed| | | |f]; cbn [finishReadyRefresh refreshFailureStage]; try solve [apply keeps_obeys; keeps_tac].
  - obeys_tac. apply obeys_bind; [apply obeys_finishRefresh|]. intros r. keeps_tac.
  - destruct f; cbn [refreshFailureStage]; try solve [apply keeps_obeys; keeps_tac]. apply obeys_bind; [|intros r; keeps_tac].
    unfold finishCredentialStageRefreshRetryable. obeys_tac. apply wp_finish; [row_ok|done|]. intros g n. apply keeps_obeys. keeps_tac.
Qed.

Lemma obeys_prepare row d c force :
  payloadCredential (st_EncryptedPayload row) (st_ChannelID row) = Some c -> obeys TNone (prepareReadySubscriptionStageCredential row d c force).
Proof.
  intros Hp. unfold prepareReadySubscriptionStageCredential. obeys_tac.
  apply (wp_claim _ _ _ (KRefresh (st_ChannelID row) c)); try (obeys_tac; fail).
  - row_ok.
  - intros r Hc. status_eqs. split; [|done]. split; [done|]. congruence.
  - apply (wp_call _ (CallRefresh _ _)). intros answer. apply obeys_finishReady.
  - done.
Qed.

Lemma readyFor_channel channelID row : readyFor channelID row = true -> st_ChannelID row = channelID.
Proof. unfold readyFor. intros Hr. by status_eqs. Qed.

(** Whatever was claimed before is given up when a row is read. *)
Lemma obeys_reload {A} g id (f : res CredentialStage -> Threads.prog A) :
  (forall row, obeys TNone (f (Ok row))) -> (forall e, keeps (f (Err e))) -> obeys g (bindP (loadCredentialStage id) f).
Proof.
  intros Hok Herr. unfold loadCredentialStage. case_if; [apply keeps_obeys, Herr|].
  apply wp_transact_bind; [|apply keeps_obeys, Herr]. intros t Ht. exists TNone. split; [split; [done|]|].
  - apply m_quiet; [intros; apply q_same|by right].
  - split; [|apply keeps_obeys, Herr]. unfold takeStage. cbn. destruct (tb_stages t !! id); [apply Hok|apply keeps_obeys, Herr].
Qed.

Lemma obeys_forceRefresh g channelID id : obeys g (forceRefreshReadySubscriptionStageCredential channelID id).
Proof.
  unfold forceRefreshReadySubscriptionStageCredential. apply obeys_reload; [|intros e; keeps_tac]. intros row. obeys_tac.
  apply obeys_prepare. rewrite (readyFor_channel channelID row); [by apply decode_credential|by apply negb_false_iff].
Qed.

Lemma obeys_loadReady channelID id : obeys TNone (loadReadySubscriptionStageCredential channelID id).
Proof.
  unfold loadReadySubscriptionStageCredential. apply obeys_reload; [|intros e; keeps_tac]. intros row. obeys_tac.
  apply obeys_prepare. rewrite (readyFor_channel channelID row); [by apply decode_credential|by apply negb_false_iff].
Qed.

Lemma obeys_discover channelID id : obeys TNone (discoverSubscriptionStageModels channelID id).
Proof.
  apply obeys_seq; [apply obeys_loadReady|]. intros g [c|e]; [|by apply keeps_obeys; keeps_tac]. obeys_tac. apply obeys_forceRefresh.
Qed.

(** ** Creating stages *)

(** A new row under the identifier that was drawn for it. *)
Ltac create_tac :=
  match goal with |- obeys _ (bindP (transact (createStage ?r)) _) => apply (wp_create r) end;
  [constructor; cbn; try done; try (by split; [intros [? ?]|])|unfold created, interactive; cbn; tauto
  |intros g b; apply keeps_obeys; keeps_tac].

Lemma obeys_persist channelID method c network : obeys TNone (persistReadyCredentialStage channelID method c network).
Proof.
  unfold persistReadyCredentialStage. obeys_tac. apply wp_random. intros bytes. destruct (newOperationID bytes) as [id|]; [|done].
  obeys_tac. create_tac.
Qed.

Lemma obeys_beginBrowser channelID network : obeys TNone (beginBrowserCredentialAuthorization channelID network).
Proof.
  unfold beginBrowserCredentialAuthorization. obeys_tac. apply wp_random. intros bytes. destruct (newOperationID bytes) as [id|]; [|done].
  obeys_tac. create_tac.
Qed.

Lemma obeys_beginDevice channelID network : obeys TNone (beginDeviceCredentialAuthorization channelID network).
Proof.
  unfold beginDeviceCredentialAuthorization. cbv zeta. obeys_tac. apply wp_random. intros bytes.
  destruct (newOperationID bytes) as [id|]; [|done]. obeys_tac. create_tac.
Qed.

Lemma obeys_begin channelID : obeys TNone (BeginCredentialAuthorization channelID).
Proof.
  unfold BeginCredentialAuthorization, beginCredentialAuthorizationWithNetwork. obeys_tac; [apply obeys_beginBrowser|apply obeys_beginDevice].
Qed.

Lemma keeps_transient d c : keeps (prepareTransientSubscriptionCredential d c).
Proof. unfold prepareTransientSubscriptionCredential. keeps_tac. Qed.
Hint Resolve keeps_transient : stage.

Lemma obeys_import channelID raw : obeys TNone (ImportCredentialStage channelID raw).
Proof. unfold ImportCredentialStage, importCredentialStageWithNetwork. obeys_tac. apply obeys_persist. Qed.

(** ** Connecting and cleaning *)

(** Rows are kept or ended. *)
Definition ends (t t' : Tables) : Prop :=
  (tables_ok t -> tables_ok t') /\
  forall id, tb_stages t' !! id = tb_stages t !! id \/
    exists r r', tb_stages t !! id = Some r /\ tb_stages t' !! id = Some r' /\ endsStatus (st_Status r) (st_Status r') = true.

Lemma ends_refl t : ends t t.
Proof. split; [done|]. by left. Qed.

Lemma ends_trans t1 t2 t3 : ends t1 t2 -> ends t2 t3 -> ends t1 t3.
Proof.
  intros [Hok1 H12] [Hok2 H23]. split; [tauto|]. intros id. destruct (H23 id) as [->|(r & r' & E2 & E3 & He)]; [apply H12|].
  destruct (H12 id) as [E|(s & s' & _ & E & He')]; [rewrite E in E2; right; by exists r, r'|].
  apply endsStatus_terminal in He as [? _], He' as [_ ?]. congruence.
Qed.

Lemma ends_keeps {B} (q : Tables -> B * Tables) : (forall t, ends t (q t).2) -> keeps (transact q).
Proof.
  intros Hq. apply keeps_transact. intros t Hok. destruct (Hq t) as [Hok' He]. split; [tauto|]. intros id.
  destruct (He id) as [->|(r & r' & -> & -> & ?)]; [apply q_same|by apply q_end].
Qed.

Lemma setCredentials_ends m t : ends t (setCredentials m t).
Proof. split; [done|]. by left. Qed.

Lemma storeCredential_ends groupID newID identity fp ciphertext existing t t' :
  storeCredential groupID newID identity fp ciphertext existing t = Ok t' -> ends t t'.
Proof.
  unfold storeCredential, createCredential. destruct existing as [e|].
  - destruct (tb_credentials t !! cr_ID e) as [r|]; [|done]. case_if; [|done]. intros [= <-]. apply setCredentials_ends.
  - case_if; [done|]. intros [= <-]. apply setCredentials_ends.
Qed.

Lemma consumeStage_ends groupID now id t t' : consumeStage groupID now id t = Ok t' -> ends t t'.
Proof.
  unfold consumeStage, updateStage. destruct (tb_stages t !! id) as [r|] eqn:Er; [|done]. destruct (isStatus StageReady r) eqn:Es; [|done].
  intros [= <-]. split.
  - intros Hok j s Hs. cbn in Hs. apply lookup_insert_Some in Hs as [[<- <-]|[_ Hs]]; [|by apply Hok].
    destruct (Hok _ _ Er). constructor; cbn; try done; split; eauto.
  - intros j. cbn. destruct (decide (j = id)) as [->|Hj]; [|left; by rewrite lookup_insert_ne].
    right. rewrite lookup_insert_eq. eexists _, _. split_and!; try done. apply isStatus_true in Es. by rewrite Es.
Qed.

Lemma consumeLoop_ends run groupID channelID now dup repl stages added t n t' :
  consumeLoop run groupID channelID now dup repl stages added t = Ok (n, t') -> ends t t'.
Proof.
  revert added t. induction stages as [|s stages IH]; intros added t; cbn; [intros [= <- <-]; apply ends_refl|].
  destruct (stagedCredential channelID s) as [c|]; [|done]. intros Hl.
  match type of Hl with match ?m with _ => _ end = _ => destruct m as [[a1 t1]|] eqn:E1; [|done] end.
  cbn [fst snd] in Hl. destruct (consumeStage groupID now (st_ID s) t1) as [t2|] eqn:E2; [|done].
  eapply ends_trans; [|eapply ends_trans; [by eapply consumeStage_ends|by eapply IH]].
  case_if_in E1; [by injection E1 as <- <-; apply ends_refl|]. destruct (EncryptWith _ _); [|done].
  destruct (storeCredential _ _ _ _ _ _ t) as [t3|] eqn:E3; [|done]. injection E1 as <- <-. by eapply storeCredential_ends.
Qed.

Lemma consume_ends run groupID channelID connectionType ids now1 now2 t n dup t' :
  consumeCredentialStages run groupID channelID connectionType ids now1 now2 t = Ok (n, dup, t') -> ends t t'.
Proof.
  unfold consumeCredentialStages. case_if; [done|]. destruct (loadConsumableCredentialStages _ _ _ _ t) as [stages|]; [|done].
  destruct (classifyCredentialStages _ _ t) as [[d r]|]; [|done]. destruct (consumeLoop _ _ _ _ _ _ _ _ t) as [[m t2]|] eqn:El; [|done].
  intros [= <- <- <-]. by eapply consumeLoop_ends.
Qed.

Lemma connect_ends run groupID ids now1 now2 ok t : ends t (connectGroupCredentialsMutation run groupID ids now1 now2 ok t).2.
Proof.
  unfold connectGroupCredentialsMutation. destruct (tb_groups t !! groupID) as [g|]; [|apply ends_refl]. case_if; [apply ends_refl|].
  destruct (consumeCredentialStages _ _ _ _ _ _ _ t) as [[[n dup] t']|] eqn:El; [|apply ends_refl].
  case_if; [by eapply consume_ends|apply ends_refl].
Qed.

Lemma createGroup_ends run groupID g ids now1 now2 ok t : ends t (createGroupWithStages run groupID g ids now1 now2 ok t).2.
Proof.
  unfold createGroupWithStages. case_if; [apply ends_refl|].
  destruct (consumeCredentialStages _ _ _ _ _ _ _ _) as [[[n dup] t']|] eqn:El; [|apply ends_refl].
  case_if; [|apply ends_refl]. eapply ends_trans; [|by eapply consume_ends]. split; [done|]. by left.
Qed.

(** The rows after the two passes of the cleaning. *)
Definition sweepStage (nowMS : Z) (r : CredentialStage) : CredentialStage := expireStage nowMS (interruptStage nowMS r).

Lemma sweepStage_cases nowMS r :
  sweepStage nowMS r = r \/
  (endsStatus (st_Status r) (st_Status (sweepStage nowMS r)) = true /\ st_UpdatedAtMS (sweepStage nowMS r) = nowMS).
Proof.
  unfold sweepStage, expireStage, interruptStage, isStatus. destruct (st_ExpiresAtMS r <=? nowMS) eqn:Ee; cbn; [|rewrite Ee; by left].
  repeat (case_bool_decide; cbn; rewrite ?Ee; cbn); auto; try congruence; right;
    match goal with Hs : st_Status r = _ |- _ => by rewrite Hs end.
Qed.

Lemma sweepStage_ok nowMS id r : stage_ok id r -> stage_ok id (sweepStage nowMS r).
Proof.
  assert (Hi : stage_ok id r -> stage_ok id (interruptStage nowMS r)).
  { unfold interruptStage. intros Hr. destruct (_ && _) eqn:Ec; [|done]. revert r Hr Ec. row_ok. }
  intros Hr%Hi. unfold sweepStage, expireStage. destruct (_ && _) eqn:Ec; [|done]. revert Hr Ec.
  generalize (interruptStage nowMS r). row_ok.
Qed.

Lemma pruned_recent now r : pruned (unixMilli (now - credentialStageTombstoneTTL)) r = true -> st_UpdatedAtMS r = unixMilli now -> False.
Proof.
  unfold pruned. rewrite andb_true_iff, Z.ltb_lt. intros [Hlt _] Hu. rewrite Hu in Hlt.
  assert (unixMilli (now - credentialStageTombstoneTTL) <= unixMilli now); [|lia].
  apply Z.div_le_mono; [done|]. unfold credentialStageTombstoneTTL, minute. lia.
Qed.

Lemma cleanup_lookup now t id :
  tb_stages (cleanupTx now t).2 !! id =
  match tb_stages t !! id with
  | None => None
  | Some r => let r' := sweepStage (unixMilli now) r in if pruned (unixMilli (now - credentialStageTombstoneTTL)) r' then None else Some r'
  end.
Proof.
  cbn. rewrite map_lookup_filter, !lookup_fmap. destruct (tb_stages t !! id) as [r|]; [|done]. cbn.
  unfold sweepStage. destruct (pruned _ _) eqn:Ep; [by rewrite option_guard_False|by rewrite option_guard_True].
Qed.

Lemma keeps_cleanup now : keeps (CleanupCredentialStages now).
Proof.
  unfold CleanupCredentialStages. keeps_tac. apply keeps_transact. intros t Hok. split.
  - intros id r Hr. rewrite cleanup_lookup in Hr. destruct (tb_stages t !! id) as [r0|] eqn:E0; [|done]. cbn in Hr.
    case_if_in Hr; [done|]. injection Hr as <-. by apply sweepStage_ok, Hok.
  - intros id. rewrite cleanup_lookup. destruct (tb_stages t !! id) as [r|]; [|apply q_same]. cbn.
    destruct (pruned _ _) eqn:Ep; destruct (sweepStage_cases (unixMilli now) r) as [Es|(He & Hu)].
    + rewrite Es in Ep. apply q_prune. unfold pruned in Ep. by apply andb_true_iff in Ep as [_ ?].
    + exfalso. by eapply pruned_recent.
    + rewrite Es. apply q_same.
    + by apply q_end.
Qed.

Lemma keeps_connect groupID ids : keeps (ConnectGroupCredentials groupID ids).
Proof. unfold ConnectGroupCredentials. keeps_tac. apply ends_keeps. intros t. apply connect_ends. Qed.

(** Every handler follows the protocol. *)
Lemma obeys_handler p : stageHandler p -> obeys TNone p.
Proof.
  destruct 1; (apply obeys_bind; [|intros; apply keeps_return]).
  - apply obeys_begin.
  - apply obeys_import.
  - apply obeys_complete.
  - apply keeps_obeys, keeps_fail.
  - apply obeys_callback.
  - apply obeys_serve.
  - apply obeys_poll.
  - apply keeps_obeys, keeps_get.
  - apply keeps_obeys, keeps_cancel.
  - apply obeys_discover.
  - apply keeps_obeys, keeps_connect.
  - apply keeps_obeys, ends_keeps. intros t. apply createGroup_ends.
  - apply keeps_obeys, keeps_cleanup.
Qed.

End Protocol.
