(* ===== verification/StageProps.v ===== *)
(** What the stages guarantee however their handlers interleave, whatever queries fail and
    wherever the process is restarted: the calls of the provider follow the protocol, the rows keep
    their invariant and move along the lifecycle of a stage. *)
From Stdlib Require Import Ascii.
From S2P Require Import Prelude GoStrings Execution Config Credential Ledger Registry PriceTable Refresh Idempotency Threads StageRows Stages StageConnect StageProtocol.

Local Open Scope go_scope.
Local Open Scope Z_scope.

#[local] Arguments phaseOf : simpl never.

Section Guarantees.
Context `{GoText} `{SubscriptionPlatform} `{StagePlatform}.

(** * The invariant *)

(** A row that can be claimed agrees with the calls made for it. *)
Definition agrees (ph : phase) (r : CredentialStage) : Prop :=
  match st_Status r with
  | StagePendingAuthorization =>
      st_AuthorizationMethod r = AuthorizationBrowserOAuth /\ ph = PhaseFresh \/
      st_AuthorizationMethod r = AuthorizationDeviceOAuth /\ (ph = PhaseFresh \/ ph = PhasePolling)
  | StageReady => ph = PhaseFresh \/ exists held, ph = PhaseHolding held /\ payloadHolds r held
  | _ => True
  end.

Definition waitKind (k : claimKind) (w : wait) : Prop :=
  match k, w with KExchange, WaitExchange | KPoll, WaitPoll | KRefresh _ _, WaitRefresh _ => True | _, _ => False end.

(** The row of a claimed stage is being exchanged, was ended, or is gone. *)
Definition rowHeld (k : claimKind) (w : wait) (o : option CredentialStage) : Prop :=
  forall r, o = Some r -> terminalStatus (st_Status r) = true \/
    st_Status r = StageExchanging /\ (k = KPoll -> st_AuthorizationMethod r = AuthorizationDeviceOAuth) /\
    (forall held, w = WaitRefresh held -> payloadHolds r held).

Definition holds (g : token) (ph : phase) (o : option CredentialStage) : Prop :=
  match g with
  | TNone => True
  | TFresh _ => o = None /\ ph = PhaseFresh
  | TClaim id k => exists w, waitKind k w /\ rowHeld k w o /\ (forall c, kindOf c = k -> phaseStep ph (Sent id c) = PhaseWaiting w)
  | TSent _ k => exists w, waitKind k w /\ rowHeld k w o /\ ph = PhaseWaiting w
  | TGot _ k a => exists w, waitKind k w /\ rowHeld k w o /\ ph = afterAnswer w a
  end.

Abbreviation rowOf s id := (tb_stages (sh_tables s) !! id).
Abbreviation ph s id := (phaseOf id (sh_events s)).

Record shared_ok (gs : list token) (s : Shared Tables stageCall stageAnswer) : Prop := {
  sk_tables : tables_ok (sh_tables s);
  sk_agrees : forall id r, rowOf s id = Some r -> agrees (ph s id) r;
  sk_unique : forall i j g g' id, gs !! i = Some g -> gs !! j = Some g' -> tokenKey g = Some id -> tokenKey g' = Some id -> i = j;
  sk_held : forall i g id, gs !! i = Some g -> tokenKey g = Some id -> holds g (ph s id) (rowOf s id) /\ id ∈ sh_drawn s;
  sk_fresh : forall id, id ∉ sh_drawn s -> rowOf s id = None /\ ph s id = PhaseFresh;
  sk_law : forall id, ph s id <> PhaseBroken
}.

(** The token of a program does not concern a row that can be claimed. *)
Lemma holds_busy g p r : holds g p (Some r) -> tokenKey g <> None -> st_Status r = StagePendingAuthorization \/ st_Status r = StageReady -> False.
Proof.
  intros Hh Hk Hs. assert (Hr : forall k w, rowHeld k w (Some r) -> False).
  { intros k w Hr. destruct (Hr r eq_refl) as [Ht|(Ht & _)]; destruct Hs as [Hs|Hs]; rewrite Hs in Ht; done. }
  destruct g; cbn in *; [done|naive_solver..].
Qed.

Lemma rowHeld_quiet k w o o' : quiet o o' -> rowHeld k w o -> rowHeld k w o'.
Proof. intros [|r r' He|] Hr; [done| |done]. intros s [= <-]. left. by apply endsStatus_terminal in He as [_ ?]. Qed.

Lemma holds_quiet g p o o' : quiet o o' -> holds g p o -> holds g p o'.
Proof.
  intros Hq. destruct g; cbn; [done| |intros (w & ? & ? & ?); exists w; split_and!; [done|by eapply rowHeld_quiet|done]..].
  intros [-> Hp]. split; [|done]. by inversion Hq.
Qed.

Lemma agrees_quiet p o o' : quiet o o' -> (forall r, o = Some r -> agrees p r) -> forall r, o' = Some r -> agrees p r.
Proof.
  intros [|r r' He|r _] Ha s; [apply Ha| |done]. intros [= <-]. apply endsStatus_terminal in He as [_ Ht]. unfold agrees.
  by destruct (st_Status r').
Qed.

(** * Steps *)

(** A step of one program that concerns one stage, which no other program has claimed. *)
Lemma shared_change gs i g g' s s' id :
  shared_ok gs s -> gs !! i = Some g ->
  (forall j gj, j <> i -> gs !! j = Some gj -> tokenKey gj <> Some id) ->
  (forall id', id' <> id -> rowOf s' id' = rowOf s id' /\ ph s' id' = ph s id') ->
  sh_drawn s ⊆ sh_drawn s' -> id ∈ sh_drawn s' -> (forall id', id' ∈ sh_drawn s' -> id' = id \/ id' ∈ sh_drawn s) ->
  tables_ok (sh_tables s') ->
  (forall r, rowOf s' id = Some r -> agrees (ph s' id) r) -> ph s' id <> PhaseBroken ->
  tokenKey g' = None \/ tokenKey g' = Some id /\ holds g' (ph s' id) (rowOf s' id) ->
  shared_ok (<[i := g']> gs) s'.
Proof.
  intros Hok Hg Hothers Hsame Hsub Hid Hdrawn Htab Hag Hlaw Hg'.
  assert (Hi : (i < length gs)%nat) by (by apply lookup_lt_Some in Hg).
  assert (Hlook : forall j x, <[i := g']> gs !! j = Some x -> j = i /\ x = g' \/ j <> i /\ gs !! j = Some x).
  { intros j x Hx. destruct (decide (j = i)) as [->|Hj]; [rewrite list_lookup_insert_eq in Hx by done; left; naive_solver|].
    rewrite list_lookup_insert_ne in Hx by done. by right. }
  split; [done| | | | |].
  - intros id' r Hr. destruct (decide (id' = id)) as [->|Hne]; [by apply Hag|].
    destruct (Hsame id' Hne) as [Er Ep]. rewrite Ep. rewrite Er in Hr. by apply (sk_agrees _ _ Hok).
  - intros j1 j2 g1 g2 id' H1' H2' K1 K2. destruct (Hlook _ _ H1') as [[-> ->]|[N1 L1]], (Hlook _ _ H2') as [[-> ->]|[N2 L2]]; [done| | |].
    + destruct Hg' as [E|[E _]]; [congruence|]. exfalso. eapply (Hothers j2); [done|done|congruence].
    + destruct Hg' as [E|[E _]]; [congruence|]. exfalso. eapply (Hothers j1); [done|done|congruence].
    + by eapply (sk_unique _ _ Hok).
  - intros j x id' Hx Hk. destruct (Hlook _ _ Hx) as [[-> ->]|[N L]].
    + destruct Hg' as [E|[E Hh]]; [congruence|]. assert (id' = id) as -> by congruence. done.
    + destruct (decide (id' = id)) as [->|Hne]; [by exfalso; eapply (Hothers j)|].
      destruct (sk_held _ _ Hok _ _ _ L Hk) as [Hh Hd]. destruct (Hsame id' Hne) as [-> ->]. split; [done|set_solver].
  - intros id' Hn. assert (id' <> id) by congruence. destruct (Hsame id') as [-> ->]; [done|]. apply (sk_fresh _ _ Hok). set_solver.
  - intros id'. destruct (decide (id' = id)) as [->|Hne]; [done|]. destruct (Hsame id' Hne) as [_ ->]. apply (sk_law _ _ Hok).
Qed.

(** A step that ends stages or does nothing; the token is kept or given up. *)
Lemma shared_quiet gs i g g' t ev d t' :
  shared_ok gs (mkShared t ev d) -> gs !! i = Some g -> tables_ok t' -> (forall id, quiet (tb_stages t !! id) (tb_stages t' !! id)) ->
  g' = g \/ g' = TNone -> shared_ok (<[i := g']> gs) (mkShared t' ev d).
Proof.
  intros Hok Hg Htab Hq Hg'.
  assert (Hlook : forall j x id, <[i := g']> gs !! j = Some x -> tokenKey x = Some id -> gs !! j = Some x).
  { intros j x id Hx Hk. destruct (decide (j = i)) as [->|Hj]; [|by rewrite list_lookup_insert_ne in Hx].
    rewrite list_lookup_insert_eq in Hx by (by apply lookup_lt_Some in Hg). destruct Hg' as [->| ->]; naive_solver. }
  split; cbn; [done| | | | |apply (sk_law _ _ Hok)].
  - intros id r Hr. eapply agrees_quiet; [apply Hq| |done]. apply (sk_agrees _ _ Hok).
  - intros j1 j2 g1 g2 id L1 L2 K1 K2. eapply (sk_unique _ _ Hok); eauto.
  - intros j x id Hx Hk. destruct (sk_held _ _ Hok j x id) as [Hh Hd]; [by eapply Hlook|done|]. split; [|done]. by eapply holds_quiet.
  - intros id Hn. destruct (sk_fresh _ _ Hok id Hn) as [Er Ep]. split; [|done]. specialize (Hq id). cbn in Er. rewrite Er in Hq. by inversion Hq.
Qed.

(** Nobody else holds what the program holds. *)
Lemma others_free gs s i g id :
  shared_ok gs s -> gs !! i = Some g -> tokenKey g = Some id -> forall j gj, j <> i -> gs !! j = Some gj -> tokenKey gj <> Some id.
Proof. intros Hok Hg Hk j gj Hj Hgj Hkj. apply Hj. by eapply (sk_unique _ _ Hok). Qed.

(** A claimed row: which calls it permits. *)
Lemma claim_holds id k r r' p :
  stage_ok id r -> agrees p r -> claimable r k -> claimed r r' -> holds (TClaim id k) p (Some r').
Proof.
  intros Hr Ha Hc (Hs & Hp & Hm). unfold agrees in Ha.
  assert (Hrow : forall w, (k = KPoll -> st_AuthorizationMethod r = AuthorizationDeviceOAuth) -> (forall held, w = WaitRefresh held -> payloadHolds r held) ->
    rowHeld k w (Some r')).
  { intros w Hdev Hpay r0 [= <-]. right. split; [done|]. split; [by rewrite Hm|]. intros held Hw. specialize (Hpay held Hw).
    unfold payloadHolds in *. by rewrite Hp. }
  destruct k as [| |channelID c]; cbn in Hc; destruct Hc as [Es Hc]; rewrite Es in Ha; cbn.
  - destruct (so_hash _ _ Hr Hc) as [_ Eb]. destruct Ha as [[_ ->]|[Ed _]]; [|by rewrite Eb in Ed].
    exists WaitExchange. split; [done|]. split; [by apply Hrow|]. by intros [] Hk.
  - destruct Ha as [[Eb _]|[_ Hph]]; [by rewrite Hc in Eb|]. exists WaitPoll. split; [done|]. split; [by apply Hrow|].
    intros [] Hk; try done. by destruct Hph as [-> | ->].
  - destruct Ha as [->|(held & -> & Hpay)].
    { exists (WaitRefresh None). split; [done|]. split; [apply Hrow; [done|naive_solver]|]. by intros [] Hk. }
    exists (WaitRefresh held). split; [done|]. split; [apply Hrow; naive_solver|]. intros [| |ch c'] Hk; try done. injection Hk as -> ->. cbn.
    assert (Hmatch : heldMatches held channelID c = true); [|by rewrite Hmatch].
    destruct held as [sec|]; [|done]. destruct Hpay as (plaintext & pl & Hd & Hu & Hcr). unfold payloadCredential in Hc. rewrite Hd, Hu in Hc.
    cbn. destruct (DriverOf channelID) as [dr|]; [|done]. rewrite <- Hcr, Hc. by apply bool_decide_eq_true.
Qed.

(** A finished row agrees with the answer. *)
Lemma finish_agrees k a w r r' :
  waitKind k w -> rowHeld k w (Some r) -> st_Status r = StageExchanging -> finishes k a r r' -> agrees (afterAnswer w a) r'.
Proof.
  intros Hw Hrow Hs Hf. destruct (Hrow r eq_refl) as [Ht|(_ & Hdev & Hpay)]; [by rewrite Hs in Ht|].
  assert (Hcred : forall c, st_Status r' = StageReady /\ payloadHolds r' (Some (sc_canonical c)) -> agrees (PhaseHolding (Some (sc_canonical c))) r').
  { intros c [Es Hp]. unfold agrees. rewrite Es. right. eauto. }
  destruct k, w; try done.
  - destruct a; try done. by apply Hcred.
  - destruct a as [| | |[]|]; try done; [|by apply Hcred]. destruct Hf as [Es Em]. unfold agrees. rewrite Es, Em. right. split; [by apply Hdev|by right].
  - destruct a as [| | | |[]]; try done; [by apply Hcred|]. destruct Hf as [Es Ep]. unfold agrees. rewrite Es. right. exists held. split; [done|].
    specialize (Hpay held eq_refl). unfold payloadHolds in *. by rewrite Ep.
Qed.

Lemma claimable_free r k : claimable r k -> st_Status r = StagePendingAuthorization \/ st_Status r = StageReady.
Proof. destruct k; cbn; tauto. Qed.

Lemma shared_move gs i g g' t ev d t' :
  shared_ok gs (mkShared t ev d) -> gs !! i = Some g -> tables_ok t' -> move g t t' g' -> shared_ok (<[i := g']> gs) (mkShared t' ev d).
Proof.
  intros Hok Hg Htab Hm. destruct Hm as [g g' t t' Hq Hg'|id r t Hr Hc|id r r' k t Hr Hc Hcl|id k a r r' t Hr Hs Hf].
  - by eapply shared_quiet.
  - destruct (sk_held _ _ Hok _ _ id Hg) as [[_ Hp] Hd]; [done|]. cbn in Hp.
    apply (shared_change gs i _ TNone _ _ id Hok Hg); cbn; try done; [by eapply others_free|by intros; rewrite lookup_insert_ne|naive_solver| | |by left].
    + rewrite lookup_insert_eq. intros r0 [= <-]. rewrite Hp. unfold agrees. destruct Hc as [[Es Hm]|Es]; rewrite Es; [|by left].
      destruct Hm; [left|right]; auto.
    + by rewrite Hp.
  - assert (Ha : agrees (phaseOf id ev) r) by (by apply (sk_agrees _ _ Hok)).
    assert (Hd : id ∈ d).
    { destruct (decide (id ∈ d)) as [|Hn]; [done|]. destruct (sk_fresh _ _ Hok id Hn) as [E _]. cbn in E. congruence. }
    apply (shared_change gs i _ (TClaim id k) _ _ id Hok Hg); cbn; try done; [|by intros; rewrite lookup_insert_ne|naive_solver| |apply (sk_law _ _ Hok)|].
    + intros j gj _ Hj Hk. destruct (sk_held _ _ Hok _ _ _ Hj Hk) as [Hh _]. cbn in Hh. rewrite Hr in Hh.
      eapply holds_busy; [done|by rewrite Hk|by eapply claimable_free].
    + rewrite lookup_insert_eq. intros r0 [= <-]. destruct Hcl as [Es _]. unfold agrees. by rewrite Es.
    + right. split; [done|]. rewrite lookup_insert_eq. eapply claim_holds; [by apply (sk_tables _ _ Hok)|done..].
  - destruct (sk_held _ _ Hok _ _ id Hg) as [(w & Hw & Hrow & Hp) Hd]; [done|]. cbn in Hp, Hrow. rewrite Hr in Hrow.
    apply (shared_change gs i _ TNone _ _ id Hok Hg); cbn; try done;
      [by eapply others_free|by intros; rewrite lookup_insert_ne|naive_solver| |apply (sk_law _ _ Hok)|by left].
    rewrite lookup_insert_eq. intros r0 [= <-]. rewrite Hp. by eapply finish_agrees.
Qed.

(** Adding an event changes the phase of its stage only. *)
Lemma event_others id id' ev e : eventKey e = id -> id' <> id -> phaseOf id' (ev ++ [e]) = phaseOf id' ev.
Proof. intros He Hne. rewrite phaseOf_snoc, decide_False; [done|congruence]. Qed.

Lemma event_same ev e : phaseOf (eventKey e) (ev ++ [e]) = phaseStep (phaseOf (eventKey e) ev) e.
Proof. by rewrite phaseOf_snoc, decide_True. Qed.

(** The row of a claimed stage agrees with every phase. *)
Lemma held_agrees k w r p : rowHeld k w (Some r) -> agrees p r.
Proof. intros Hr. unfold agrees. destruct (Hr r eq_refl) as [Ht|(-> & _)]; [by destruct (st_Status r)|done]. Qed.

Lemma afterAnswer_law w a : afterAnswer w a <> PhaseBroken.
Proof. by destruct w, a as [| | |[]|[]]. Qed.

Lemma shared_event gs i g g' t ev d id e k w :
  shared_ok gs (mkShared t ev d) -> gs !! i = Some g -> tokenKey g = Some id -> eventKey e = id -> rowHeld k w (tb_stages t !! id) ->
  phaseStep (phaseOf id ev) e <> PhaseBroken -> tokenKey g' = Some id -> holds g' (phaseStep (phaseOf id ev) e) (tb_stages t !! id) ->
  shared_ok (<[i := g']> gs) (mkShared t (ev ++ [e]) d).
Proof.
  intros Hok Hg Hk <- Hrow Hlaw Hk' Hh. destruct (sk_held _ _ Hok _ _ _ Hg Hk) as [_ Hd].
  apply (shared_change gs i _ g' _ _ (eventKey e) Hok Hg); cbn [sh_tables sh_events sh_drawn]; rewrite ?event_same; auto.
  - by eapply others_free.
  - intros id' Hne. by rewrite (event_others (eventKey e) id' ev e).
  - apply (sk_tables _ _ Hok).
  - intros r Hr. rewrite Hr in Hrow. by eapply held_agrees.
Qed.

Lemma shared_step gs i g g' s s' :
  shared_ok gs s -> gs !! i = Some g -> token_step stageProtocol g s g' s' -> shared_ok (<[i := g']> gs) s'.
Proof.
  intros Hok Hg Ht. destruct s as [t ev d]. destruct Ht as [|t' g' [Htab Hm]|id g' Hn Hd|key c g' Hs|key a g' Hr]; cbn in *.
  - by rewrite list_insert_id.
  - by eapply shared_move.
  - destruct (sk_fresh _ _ Hok id Hn) as [Er Ep]. cbn in Er, Ep.
    assert (Hothers : forall j gj, gs !! j = Some gj -> tokenKey gj <> Some id).
    { intros j gj Hj Hk. by destruct (sk_held _ _ Hok _ _ _ Hj Hk) as [_ ?]. }
    assert (tokenKey g' = Some id /\ holds g' (phaseOf id ev) (tb_stages t !! id)) as Hg' by (by destruct Hd).
    apply (shared_change gs i _ g' _ _ id Hok Hg); cbn; auto; [naive_solver|set_solver|set_solver|set_solver|apply (sk_tables _ _ Hok)|congruence|congruence].
  - destruct Hs as [id c]. destruct (sk_held _ _ Hok _ _ id Hg) as [(w & Hw & Hrow & Hc) _]; [done|]. cbn in *.
    eapply (shared_event _ _ _ _ _ _ _ id (Sent id c)); try done; rewrite Hc by done; [done|]. by exists w.
  - destruct Hr as [id k a]. destruct (sk_held _ _ Hok _ _ id Hg) as [(w & Hw & Hrow & Hp) _]; [done|]. cbn in *.
    eapply (shared_event _ _ _ _ _ _ _ id (Received id a)); try done; rewrite Hp; [apply afterAnswer_law|]. by exists w.
Qed.

(** * The system *)

Definition world_ok (w : Running Tables stageCall stageAnswer stageReply) : Prop :=
  exists gs, Forall2 (fun g p => obeys g p) gs (rn_threads w) /\ shared_ok gs (rn_shared w).

Context `{!StagePlatformLaws}.

Lemma world_step w w' : world_ok w -> stage_step w w' -> world_ok w'.
Proof.
  intros (gs & Hobey & Hok) Hs. destruct Hs as [p ts s Hp|i p p' ts s s' Hi Hstep|ts s]; cbn in *.
  - exists (gs ++ [TNone]). split; [apply Forall2_app; [done|constructor; [by apply obeys_handler|constructor]]|].
    assert (Hl : forall j g id, (gs ++ [TNone]) !! j = Some g -> tokenKey g = Some id -> gs !! j = Some g).
    { intros j g id Hj Hk. apply lookup_app_Some in Hj as [Hj|[_ Hj]]; [done|]. apply list_lookup_singleton_Some in Hj as [_ <-]. done. }
    destruct Hok. split; eauto.
  - destruct (Forall2_lookup_r _ _ _ _ _ Hobey Hi) as (g & Hg & Hw).
    destruct (wp_pstep _ _ _ _ _ _ _ _ Hw (sk_tables _ _ Hok) Hstep) as (g' & Ht & Hw').
    exists (<[i := g']> gs). split; [by apply Forall2_insert|by eapply shared_step].
  - exists []. split; [constructor|]. destruct Hok. by split.
Qed.

Lemma world_start creds groups : world_ok (stage_start creds groups).
Proof. exists []. split; [constructor|]. by split. Qed.

Lemma world_reachable w : stage_reachable w -> world_ok w.
Proof.
  intros (creds & groups & Hr). pose proof (world_start creds groups) as Hw. revert Hr Hw. generalize (stage_start creds groups).
  intros w0 Hr Hw. induction Hr; eauto using world_step.
Qed.

(** * Theorems *)

(** The lifecycle of a stage, with its creation and its removal. *)
Definition lifecycle (a b : option CredentialStageStatus) : bool :=
  match a, b with
  | None, None => true
  | None, Some s => bool_decide (s = StagePendingAuthorization) || bool_decide (s = StageReady)
  | Some s, None => terminalStatus s
  | Some s, Some s' =>
      bool_decide (s = s') || endsStatus s s' ||
      match s, s' with
      | StagePendingAuthorization, StageExchanging | StageReady, StageExchanging => true
      | StageExchanging, StagePendingAuthorization | StageExchanging, StageReady => true
      | _, _ => false
      end
  end.

Definition statusAt (w : Running Tables stageCall stageAnswer stageReply) (id : string) : option CredentialStageStatus :=
  st_Status <$> tb_stages (sh_tables (rn_shared w)) !! id.

Lemma quiet_lifecycle o o' : quiet o o' -> lifecycle (st_Status <$> o) (st_Status <$> o') = true.
Proof.
  intros [[r|]|r r' He|r Ht]; cbn; [|done| |done].
  - by rewrite bool_decide_eq_true_2.
  - by rewrite He, orb_true_r.
Qed.

Lemma move_lifecycle g t t' g' id : move g t t' g' -> lifecycle (st_Status <$> tb_stages t !! id) (st_Status <$> tb_stages t' !! id) = true.
Proof.
  assert (Hins : forall k r o, tb_stages t !! k = o -> lifecycle (st_Status <$> o) (Some (st_Status r)) = true ->
    lifecycle (st_Status <$> tb_stages t !! id) (st_Status <$> (<[k := r]> (tb_stages t)) !! id) = true).
  { intros k r o Ho Hl. destruct (decide (id = k)) as [->|Hne]; [by rewrite lookup_insert_eq, Ho|].
    rewrite lookup_insert_ne by done. apply quiet_lifecycle. constructor. }
  intros Hm. destruct Hm as [g g' t t' Hq _|k r t Hr Hc|k r r' c t Hr Hc (Hs & _)|k c a r r' t Hr Hs Hf]; [by apply quiet_lifecycle|..];
    eapply Hins; try done; cbn.
  - destruct Hc as [[-> _]| ->]; done.
  - rewrite Hs. by destruct (claimable_free _ _ Hc) as [-> | ->].
  - rewrite Hs. destruct c, a as [| | |[]|[]]; cbn in Hf; try done; destruct Hf as [-> _]; done.
Qed.

(** C12: For every stage, however the handlers interleave, fail and are restarted, what is sent to
    the provider follows the protocol: an authorisation code is exchanged at most once, nothing is
    sent while an answer is outstanding or after an answer that ends the authorisation, a device is
    polled again only after the answer to wait, and a refresh sends the secret that the last
    successful answer delivered, or the imported one, again only when it was reported unused. *)
Theorem stage_calls_lawful (w : Running Tables stageCall stageAnswer stageReply) :
  stage_reachable w -> forall id, phaseOf id (sh_events (rn_shared w)) <> PhaseBroken.
Proof. intros (gs & _ & Hok)%world_reachable. apply (sk_law _ _ Hok). Qed.

(** C32: In every reachable state the rows of the stages are well-formed: a stage that has ended
    holds no secret, only a browser authorisation that is pending has an OAuth state, and exactly
    the consumed stages carry the time and the group of their consumption.  Every step moves a
    stage along its lifecycle: ended stages never change again, only ready ones are consumed. *)
Theorem stage_lifecycle (w w' : Running Tables stageCall stageAnswer stageReply) :
  stage_reachable w -> stage_step w w' ->
  tables_ok (sh_tables (rn_shared w')) /\ forall id, lifecycle (statusAt w id) (statusAt w' id) = true.
Proof.
  intros Hr Hs. pose proof (world_reachable w Hr) as Hw. split; [destruct (world_step w w' Hw Hs) as (gs & _ & Hok); apply (sk_tables _ _ Hok)|].
  intros id. unfold statusAt. assert (Hsame : forall t : Tables, lifecycle (st_Status <$> tb_stages t !! id) (st_Status <$> tb_stages t !! id) = true)
    by (intros t; apply quiet_lifecycle; constructor).
  destruct Hs as [p ts s Hp|i p p' ts s s' Hi Hstep|ts s]; cbn; [apply Hsame| |apply Hsame].
  destruct Hw as (gs & Hobey & Hok). destruct (Forall2_lookup_r _ _ _ _ _ Hobey Hi) as (g & Hg & Hw).
  destruct (wp_pstep _ _ _ _ _ _ _ _ Hw (sk_tables _ _ Hok) Hstep) as (g' & Ht & _).
  destruct Ht as [|t' g' [_ Hm]|id' g' Hn Hd|key c g' Hsend|key a g' Hrecv]; cbn; try apply Hsame. by eapply move_lifecycle.
Qed.
End Guarantees.

(** * Connecting stages *)

Section Connect.
Context `{GoText} `{SubscriptionPlatform} `{StagePlatform}.

Lemma normalizeStageLoop_NoDup values seen ids :
  normalizeStageLoop values seen = Ok ids -> NoDup ids /\ forall id, id ∈ ids -> id ∉ seen.
Proof.
  revert seen ids. induction values as [|v values IH]; intros seen ids; cbn; [intros [= <-]; split; [constructor|set_solver]|].
  case_if; [done|]. destruct (bool_decide (TrimSpace v ∈ seen)) eqn:Es; [done|]. apply bool_decide_eq_false in Es.
  destruct (normalizeStageLoop values _) as [rest|] eqn:El; [|done]. intros [= <-]. destruct (IH _ _ El) as [Hn Hs].
  split; [constructor; [|done]|].
  - intros Hin. apply (Hs _ Hin). set_solver.
  - intros id [->|Hin]%elem_of_cons; [done|]. specialize (Hs _ Hin). set_solver.
Qed.

Lemma normalize_NoDup values ids : normalizeCredentialStageIDs values = Ok ids -> NoDup ids.
Proof.
  unfold normalizeCredentialStageIDs. case_if; [done|]. destruct (normalizeStageLoop values ∅) as [l|] eqn:El; [|done]. intros [= <-].
  rewrite merge_sort_Permutation. by apply (normalizeStageLoop_NoDup values ∅).
Qed.

(** The group has a usable credential of the identity. *)
Definition connectedTo (groupID : Z) (identity : string) (t : Tables) (P : CredentialRow -> Prop) : Prop :=
  exists id c, tb_credentials t !! id = Some c /\ cr_GroupID c = groupID /\ cr_IdentityFingerprint c = identity
    /\ reauthorizable (cr_AuthState c) = false /\ P c.

(** Usable credentials stay as they are. *)
Definition keepsUsable (t t' : Tables) : Prop :=
  forall id c, tb_credentials t !! id = Some c -> reauthorizable (cr_AuthState c) = false -> tb_credentials t' !! id = Some c.

Lemma connectedTo_mono groupID identity t t' P : keepsUsable t t' -> connectedTo groupID identity t P -> connectedTo groupID identity t' P.
Proof. intros Hk (id & c & Hc & Hg & Hi & Hu & HP). exists id, c. split_and!; auto. Qed.

(** The secret of the stage, as the credential stores it. *)
Definition storesSecret (canonical ciphertext : string) (c : CredentialRow) : Prop :=
  cr_Data c = ciphertext /\ cr_Fingerprint c = HashText canonical /\ cr_AuthState c = AuthReady /\ cr_AuthErrorCode c = ""%string.

Lemma storeCredential_spec groupID newID identity canonical ciphertext existing t t' :
  storeCredential groupID newID identity (HashText canonical) ciphertext existing t = Ok t' ->
  tb_stages t' = tb_stages t /\ keepsUsable t t' /\ connectedTo groupID identity t' (storesSecret canonical ciphertext).
Proof.
  unfold storeCredential, createCredential. destruct existing as [e|].
  - destruct (tb_credentials t !! cr_ID e) as [r|] eqn:Er; [|done]. destruct (_ && reauthorizable _) eqn:Ec; [|done]. intros [= <-].
    unfold reauthorize. cbn. rewrite Er, Ec. rewrite !andb_true_iff, Z.eqb_eq, bool_decide_eq_true in Ec. destruct Ec as [[[Eg Ei] _] Eu].
    split; [done|]. split.
    + intros id c Hc Hu. cbn. rewrite lookup_insert_ne; [done|]. intros <-. congruence.
    + eexists (cr_ID e), _. cbn. rewrite lookup_insert_eq. by split_and!.
  - destruct (isSome (tb_credentials t !! _)) eqn:En; [done|]. cbn. case_if; [done|]. intros [= <-]. cbn. split; [done|].
    cbn in En. assert (Hn : tb_credentials t !! newID = None) by (by destruct (tb_credentials t !! newID)). split.
    + intros id c Hc Hu. cbn. rewrite lookup_insert_ne; [done|]. intros <-. congruence.
    + eexists newID, _. cbn. rewrite lookup_insert_eq. split; [done|]. by cbn.
Qed.

(** The row of a consumed stage. *)
Definition consumedBy (groupID nowMS : Z) (r : CredentialStage) : CredentialStage :=
  setUpdated nowMS (setConsumed nowMS groupID (setHash None (setPayload "" (setStatus StageConsumed r)))).

Lemma consumeStage_spec groupID now id t t' :
  consumeStage groupID now id t = Ok t' ->
  exists r, tb_stages t !! id = Some r /\ st_Status r = StageReady /\ tb_stages t' = <[id := consumedBy groupID now r]> (tb_stages t)
    /\ tb_credentials t' = tb_credentials t.
Proof.
  unfold consumeStage, updateStage. destruct (tb_stages t !! id) as [r|]; [|done]. destruct (isStatus StageReady r) eqn:Es; [|done].
  intros [= <-]. exists r. split_and!; try done. by apply isStatus_true.
Qed.

(** The loop, for stages with distinct identifiers. *)
Lemma consumeLoop_spec run groupID channelID now dup repl stages added t n t' :
  consumeLoop run groupID channelID now dup repl stages added t = Ok (n, t') -> NoDup (st_ID <$> stages) ->
  n = added + Z.of_nat (length (filter (fun s => st_ID s ∉ dup) stages)) /\
  keepsUsable t t' /\
  (forall id, id ∉ (st_ID <$> stages) -> tb_stages t' !! id = tb_stages t !! id) /\
  (forall s, s ∈ stages -> exists r c, tb_stages t !! st_ID s = Some r /\ st_Status r = StageReady /\
     tb_stages t' !! st_ID s = Some (consumedBy groupID now r) /\ stagedCredential channelID s = Ok c /\
     (st_ID s ∉ dup -> exists ciphertext, EncryptWith (cn_nonce run (st_ID s)) (sc_canonical c) = Some ciphertext /\
        connectedTo groupID (st_IdentityFingerprint s) t' (storesSecret (sc_canonical c) ciphertext))).
Proof.
  revert added t. induction stages as [|s stages IH]; intros added t.
  { cbn. intros [= <- <-] _. split; [lia|]. split; [by intros id c|]. split; [done|]. intros s Hs. by apply elem_of_nil in Hs. }
  cbn [consumeLoop]. rewrite fmap_cons, NoDup_cons. intros Hl [Hs Hn].
  destruct (stagedCredential channelID s) as [c|] eqn:Ec; [|done].
  match type of Hl with match ?m with _ => _ end = _ => destruct m as [[a1 t1]|] eqn:E1; [|done] end.
  cbn [fst snd] in Hl. destruct (consumeStage groupID now (st_ID s) t1) as [t2|] eqn:E2; [|done].
  destruct (IH _ _ Hl Hn) as (Hcount & Hkeep & Hothers & Hall). destruct (consumeStage_spec _ _ _ _ _ E2) as (r & Er & Eready & Et2 & Ecred).
  assert (Hstore : tb_stages t1 = tb_stages t /\ keepsUsable t t1 /\ a1 = added + (if decide (st_ID s ∉ dup) then 1 else 0) /\
    (st_ID s ∉ dup -> exists ciphertext, EncryptWith (cn_nonce run (st_ID s)) (sc_canonical c) = Some ciphertext /\
        connectedTo groupID (st_IdentityFingerprint s) t1 (storesSecret (sc_canonical c) ciphertext))).
  { destruct (bool_decide (st_ID s ∈ dup)) eqn:Ed.
    - injection E1 as <- <-. apply bool_decide_eq_true in Ed. rewrite decide_False by tauto. split; [done|]. split; [by intros id|]. split; [lia|tauto].
    - apply bool_decide_eq_false in Ed. rewrite decide_True by done. destruct (EncryptWith _ _) as [ciphertext|]; [|done].
      destruct (storeCredential _ _ _ _ _ _ t) as [t3|] eqn:E3; [|done]. injection E1 as <- <-.
      destruct (storeCredential_spec _ _ _ _ _ _ _ _ E3) as (Hst & Hk & Hc). split_and!; try done. eauto. }
  destruct Hstore as (Est & Hk1 & -> & Hc1). rewrite Est in Er.
  assert (Hk2 : keepsUsable t1 t') by (intros id c0 Hc0 Hu; apply Hkeep; [by rewrite Ecred|done]).
  split_and!.
  - rewrite Hcount, filter_cons. destruct (decide (st_ID s ∉ dup)); cbn; lia.
  - intros id c0 Hc0 Hu. apply Hk2; [by apply Hk1|done].
  - intros id Hid. rewrite not_elem_of_cons in Hid. destruct Hid as [Hne Hid]. by rewrite Hothers, Et2, lookup_insert_ne, Est.
  - intros s0 [->|Hs0]%elem_of_cons.
    + exists r, c. split_and!; try done; [by rewrite Hothers, Et2, lookup_insert_eq|]. intros Hd. destruct (Hc1 Hd) as (ct & He & Hc).
      exists ct. split; [done|]. by eapply connectedTo_mono.
    + destruct (Hall s0 Hs0) as (r0 & c0 & Hr0 & Hrest). exists r0, c0. split; [|done].
      assert (st_ID s0 <> st_ID s) by (intros E; apply Hs; rewrite <- E; by apply list_elem_of_fmap_2).
      by rewrite Et2, lookup_insert_ne, Est in Hr0.
Qed.

(** A stage is skipped when its identity is usable already or another stage brings it. *)
Lemma classifyLoop_spec seen repl stages dup repls :
  classifyLoop seen repl stages = (dup, repls) -> NoDup (st_ID <$> stages) ->
  (forall id, id ∈ dup -> id ∈ (st_ID <$> stages)) /\
  (length dup + length (filter (fun s => st_ID s ∉ dup) stages) = length stages)%nat /\
  (forall s, s ∈ stages -> st_ID s ∈ dup -> st_IdentityFingerprint s ∈ seen \/
     exists s', s' ∈ stages /\ (st_ID s' ∉ dup) /\ st_IdentityFingerprint s' = st_IdentityFingerprint s).
Proof.
  revert seen dup repls. induction stages as [|s stages IH]; intros seen dup repls.
  { cbn. intros [= <- <-] _. split_and!; [done|done|]. intros s Hs. by apply elem_of_nil in Hs. }
  cbn [classifyLoop]. rewrite fmap_cons, NoDup_cons. intros Hc [Hs Hn].
  assert (Hne : forall s0, s0 ∈ stages -> st_ID s0 <> st_ID s) by (intros s0 Hs0 E; apply Hs; rewrite <- E; by apply list_elem_of_fmap_2).
  destruct (bool_decide (st_IdentityFingerprint s ∈ seen)) eqn:Es.
  - destruct (classifyLoop seen repl stages) as [dup' repls'] eqn:El. injection Hc as <- <-. destruct (IH _ _ _ El Hn) as (Hsub & Hlen & Hdup).
    apply bool_decide_eq_true in Es. split_and!.
    + intros id [->|Hid]%elem_of_cons; [by left|right; auto].
    + rewrite filter_cons_False by (rewrite elem_of_cons; tauto). cbn.
      rewrite (filter_ext_in _ (fun s => st_ID s ∉ dup')); [lia|]. intros s0 Hs0. rewrite elem_of_cons. specialize (Hne s0 Hs0). tauto.
    + intros s0 [->|Hs0]%elem_of_cons Hd; [by left|]. apply elem_of_cons in Hd as [Hd|Hd]; [by apply Hne in Hs0|].
      destruct (Hdup s0 Hs0 Hd) as [?|(s' & Hs' & Hd' & Hi)]; [by left|]. right. exists s'. split_and!; try done; [by right|].
      rewrite elem_of_cons. intros [E|?]; [by apply Hne in Hs'|done].
  - destruct (classifyLoop _ repl stages) as [dup' repls'] eqn:El. injection Hc as <- <-. destruct (IH _ _ _ El Hn) as (Hsub & Hlen & Hdup).
    apply bool_decide_eq_false in Es. assert (Hnd : st_ID s ∉ dup') by (intros Hd; by apply Hs, Hsub). split_and!.
    + intros id Hid. right. auto.
    + rewrite filter_cons_True by done. cbn. lia.
    + intros s0 [->|Hs0]%elem_of_cons Hd; [done|]. destruct (Hdup s0 Hs0 Hd) as [Hi|(s' & Hs' & Hd' & Hi)].
      * apply elem_of_union in Hi as [Hi%elem_of_singleton|Hi]; [|by left]. right. exists s. split_and!; [by left|done|done].
      * right. exists s'. split_and!; try done. by right.
Qed.

Lemma length_omap_le {A B} (f : A -> option B) (l : list A) : (length (omap f l) <= length l)%nat.
Proof. induction l as [|x l IH]; [done|]. cbn. destruct (f x); cbn; lia. Qed.

(** The rows that are consumed. *)
Lemma loadConsumable_spec channelID connectionType ids now t stages :
  loadConsumableCredentialStages channelID connectionType ids now t = Ok stages -> tables_ok t ->
  st_ID <$> stages = ids /\ forall s, s ∈ stages -> tb_stages t !! st_ID s = Some s /\ st_Status s = StageReady /\ now < st_ExpiresAtMS s.
Proof.
  unfold loadConsumableCredentialStages. case_if; [done|]. case_if; [done|]. intros Hl Hok.
  match goal with E : bool_decide _ = true |- _ => apply bool_decide_eq_true in E; rename E into Hlen end.
  set (found := omap (fun id => tb_stages t !! id) ids) in *.
  destruct (head (omap (consumableStage channelID connectionType now) found)) as [e|] eqn:Eh; [done|]. injection Hl as <-.
  assert (Hnone : omap (consumableStage channelID connectionType now) found = []) by (by destruct (omap _ found)).
  split.
  - clear -Hlen Hok. subst found. induction ids as [|id ids IH]; [done|]. cbn in *. destruct (tb_stages t !! id) as [r|] eqn:Er.
    + injection Hlen as Hlen. cbn. by rewrite (so_id _ _ (Hok _ _ Er)), IH.
    + pose proof (length_omap_le (fun id => tb_stages t !! id) ids). lia.
  - intros s Hs. assert (Hsome : consumableStage channelID connectionType now s = None).
    { destruct (consumableStage channelID connectionType now s) as [e|] eqn:Ee; [|done].
      assert (Hin : e ∈ omap (consumableStage channelID connectionType now) found) by (apply list_elem_of_omap; eauto).
      rewrite Hnone in Hin. by apply elem_of_nil in Hin. }
    apply list_elem_of_omap in Hs as (id & _ & Er). rewrite (so_id _ _ (Hok _ _ Er)). split; [done|].
    unfold consumableStage in Hsome. case_if_in Hsome; [done|]. destruct (st_Status s); try done. case_if_in Hsome; [done|]. split; [done|lia].
Qed.

Lemma usable_connected groupID identities identity t :
  identity ∈ (list_to_set (cr_IdentityFingerprint <$> filter (fun r => reauthorizable (cr_AuthState r) = false) (existingCredentials groupID identities t)) : gset string) ->
  connectedTo groupID identity t (fun _ => True).
Proof.
  rewrite elem_of_list_to_set, list_elem_of_fmap. intros (r & -> & [Hu Hr]%list_elem_of_filter). unfold existingCredentials in Hr.
  apply list_elem_of_filter in Hr as [[Hg _] Hr]. apply list_elem_of_fmap in Hr as ([id r'] & -> & Hr%elem_of_map_to_list).
  exists id, r'. by split_and!.
Qed.

Context `{!StagePlatformLaws}.

(** C33: Connecting stages to a group either changes nothing, or consumes exactly the stages named,
    each of which was ready and had not expired, and leaves the group with a usable credential for
    the identity of each of them; a stage that was not skipped has its own secret stored, credentials
    in use are not touched, and the stages added and skipped are counted. *)
Theorem connect_exact run groupID values ids now1 now2 entriesOk t r t' :
  tables_ok t -> normalizeCredentialStageIDs values = Ok ids ->
  connectGroupCredentialsMutation run groupID ids now1 now2 entriesOk t = (r, t') ->
  match r with
  | Err _ => t' = t
  | Ok (added, duplicated) =>
      added + Z.of_nat (length duplicated) = Z.of_nat (length ids) /\
      (forall id, id ∉ ids -> tb_stages t' !! id = tb_stages t !! id) /\
      keepsUsable t t' /\
      forall id, id ∈ ids -> exists s g c,
        tb_stages t !! id = Some s /\ st_Status s = StageReady /\ unixMilli now1 < st_ExpiresAtMS s /\
        tb_stages t' !! id = Some (consumedBy groupID (unixMilli now2) s) /\
        tb_groups t !! groupID = Some g /\ stagedCredential (gr_ChannelID g) s = Ok c /\
        connectedTo groupID (st_IdentityFingerprint s) t' (fun row => id ∉ duplicated ->
          Decrypt (cr_Data row) = Some (sc_canonical c) /\ cr_Fingerprint row = HashText (sc_canonical c) /\ cr_AuthState row = AuthReady)
  end.
Proof.
  intros Hok Hids. unfold connectGroupCredentialsMutation. destruct (tb_groups t !! groupID) as [g|]; [|by intros [= <- <-]].
  case_if; [by intros [= <- <-]|]. unfold consumeCredentialStages. case_if; [by intros [= <- <-]|].
  destruct (loadConsumableCredentialStages _ _ ids _ t) as [stages|] eqn:El; [|by intros [= <- <-]].
  destruct (loadConsumable_spec _ _ _ _ _ _ El Hok) as [Eids Hrows].
  unfold classifyCredentialStages. case_if; [by intros [= <- <-]|].
  destruct (classifyLoop _ _ stages) as [dup repls] eqn:Ecl.
  destruct (consumeLoop _ _ _ _ _ _ stages 0 t) as [[n t2]|] eqn:Eloop; [|by intros [= <- <-]].
  destruct entriesOk; [|by intros [= <- <-]]. intros [= <- <-]. cbn [fst snd].
  assert (Hn : NoDup (st_ID <$> stages)) by (rewrite Eids; by eapply normalize_NoDup).
  destruct (classifyLoop_spec _ _ _ _ _ Ecl Hn) as (Hsub & Hlen & Hdup). destruct (consumeLoop_spec _ _ _ _ _ _ _ _ _ _ _ Eloop Hn) as (Hcount & Hkeep & Hothers & Hall).
  split_and!; [|by rewrite <- Eids|done|].
  - rewrite Hcount, <- Eids, length_fmap, <- Hlen. rewrite (filter_ext_in _ (fun s => st_ID s ∉ dup)); [lia|]. intros s _. by rewrite elem_of_list_to_set.
  - intros id Hid. rewrite <- Eids in Hid. apply list_elem_of_fmap in Hid as (s & -> & Hs).
    destruct (Hall s Hs) as (s1 & c & Hs1 & _ & Hc' & Hcred & Hstored). destruct (Hrows s Hs) as (Hs2 & Hready & Hexp).
    assert (s1 = s) as -> by congruence. exists s, g, c. split_and!; try done.
    destruct (decide (st_ID s ∈ dup)) as [Hd|Hd].
    + assert (Hany : connectedTo groupID (st_IdentityFingerprint s) t2 (fun _ => True)).
      { destruct (Hdup s Hs Hd) as [Hseen|(s' & Hs' & Hd' & <-)]; [by eapply connectedTo_mono, usable_connected|].
        destruct (Hall s' Hs') as (? & ? & _ & _ & _ & _ & Hst). destruct Hst as (ct & _ & cid & row & ?); [by rewrite elem_of_list_to_set|].
        exists cid, row. naive_solver. }
      destruct Hany as (x & row & ? & ? & ? & ? & _). exists x, row. by split_and!.
    + destruct Hstored as (ct & He & x & row & ? & ? & ? & ? & Hst); [by rewrite elem_of_list_to_set|].
      exists x, row. split_and!; try done. intros _. destruct Hst as (-> & -> & -> & _). split_and!; try done. by eapply Decrypt_EncryptWith.
Qed.
End Connect.

(** * An authorisation in the browser *)

Section Example.

#[local] Instance exText : GoText := asciiText.
#[local] Instance exSubscription : SubscriptionPlatform := {| Decrypt := Some; HashText := fun s => s; decodeProxy := fun _ => None |}.

Definition exStageAccount : Account := mkAccount "" "someone@example.org" 0 false 0 false.
Definition exParse (s : string) : option SubCredential := Some (mkSubCredential s "account" exStageAccount 0 false).

#[local] Instance exStage : StagePlatform := {|
  EncryptWith := fun _ p => Some p;
  marshalPayload := fun p => Some (sp_Credential p);
  unmarshalPayload := fun s => Some (mkPayload s "" "" None);
  unmarshalPayloadV1 := fun _ => None;
  marshalVerifier := fun _ => None;
  compactJSON := fun s => s;
  ConnectionTypeOf := fun _ => Some ConnectionTypeSubscription;
  SupportsAuthorizationMethod := fun _ m => bool_decide (m = AuthorizationBrowserOAuth);
  DriverOf := fun _ => Some (mkDriver "codex" exParse None);
  browserDriver := fun _ => true;
  LocalCallback := fun _ => None;
  proxyNetworkContext := fun p => Some (mkNetworkContext p "");
  parseURL := fun _ => None
|}.

#[local] Instance exStageLaws : StagePlatformLaws.
Proof.
  split; [by intros n p c [= <-]|]. intros p j [= <-]. eexists. by split.
Qed.

Definition exNetwork : res NetworkContext := Ok (mkNetworkContext "" "").
Definition exBytes : list Z := replicate 16 7.
Definition exID : string := default ""%string (newOperationID exBytes).
Definition exCredential : SubCredential := mkSubCredential "secret" "account" exStageAccount 0 false.

(** One action of a program, with the answer of its environment. *)
Ltac act i tac := eapply rtc_l; [eapply (r_thread _ _ i); [reflexivity|tac]|cbn].
Ltac answers i v := act i ltac:(apply (p_ask _ _ _ v)).
Ltac ticks i now := act i ltac:(apply (p_clock _ _ now)).
Ltac commits i := act i ltac:(eapply p_commit; vm_compute; reflexivity).

(** The stage is created and the code exchanged; the credential is ready. *)
Lemma ex_run : exists w, stage_reachable w /\
  sh_events (rn_shared w) = [Sent exID (CallExchange "codex" (mkCompletion "" "state" "code" "")); Received exID (AnswerCredential exCredential)] /\
  statusAt w exID = Some StageReady.
Proof.
  eexists. split.
  - exists ∅, ∅. unfold stage_start.
    eapply rtc_l; [apply (r_start _ _ _ _ _ (h_begin "codex"))|cbn].
    answers 0%nat exNetwork. answers 0%nat (Some (mkAuthorization "https://example.org" "state" "driver" "")). answers 0%nat ""%string.
    act 0%nat ltac:(apply (p_random _ _ exBytes); set_solver). ticks 0%nat unixEpoch. commits 0%nat.
    eapply rtc_l; [apply (r_start _ _ _ _ _ (h_complete "" "" "state" "code"))|cbn].
    ticks 1%nat unixEpoch. ticks 1%nat unixEpoch. ticks 1%nat unixEpoch. commits 1%nat. answers 1%nat exNetwork.
    act 1%nat ltac:(apply p_send). act 1%nat ltac:(apply (p_receive _ _ _ (AnswerCredential exCredential))).
    answers 1%nat ""%string. ticks 1%nat unixEpoch. ticks 1%nat unixEpoch. commits 1%nat.
    apply rtc_refl.
  - split; vm_compute; reflexivity.
Qed.

Lemma stage_calls_lawful_witness : exists w, stage_reachable w /\ statusAt w exID = Some StageReady /\
  forall id, phaseOf id (sh_events (rn_shared w)) <> PhaseBroken.
Proof.
  destruct ex_run as (w & Hr & _ & Hs). exists w. split; [exact Hr|]. split; [exact Hs|]. exact (stage_calls_lawful w Hr).
Defined.

Lemma stage_lifecycle_witness : exists w w', stage_reachable w /\ stage_step w w' /\ statusAt w exID = Some StageReady /\
  tables_ok (sh_tables (rn_shared w')) /\ forall id, lifecycle (statusAt w id) (statusAt w' id) = true.
Proof.
  destruct ex_run as (w & Hr & _ & Hs). exists w, (mkRunning [] (rn_shared w)).
  assert (Hstep : stage_step w (mkRunning [] (rn_shared w))) by (destruct w; apply r_restart).
  split; [exact Hr|]. split; [exact Hstep|]. split; [exact Hs|]. exact (stage_lifecycle w _ Hr Hstep).
Defined.

(** ** Connecting the stage *)

Definition exRow : CredentialStage :=
  mkStage "stage" "codex" ConnectionTypeSubscription AuthorizationBrowserOAuth StageReady "secret" 2 (SummaryAccount noAccount)
    (subscriptionIdentityFingerprint "codex" "account") None 1000 None None "" 0 0.
Definition exTables : Tables := mkTables {["stage"%string := exRow]} ∅ {[1 := mkGroupRow "codex" ConnectionTypeSubscription ""]}.
Definition exConnect : connectRun := mkConnectRun (fun _ => ""%string) (fun _ => 5).

Lemma connect_exact_witness :
  let '(r, t') := connectGroupCredentialsMutation exConnect 1 ["stage"%string] unixEpoch unixEpoch true exTables in
  r = Ok (1, []) /\ is_Some (tb_credentials t' !! 5) /\
  1 + Z.of_nat (length (@nil string)) = Z.of_nat (length ["stage"%string]) /\
  (forall id, id ∉ ["stage"%string] -> tb_stages t' !! id = tb_stages exTables !! id) /\ keepsUsable exTables t'.
Proof.
  assert (Hv : (fun p => (p.1, isSome (tb_credentials p.2 !! 5)))
    (connectGroupCredentialsMutation exConnect 1 ["stage"%string] unixEpoch unixEpoch true exTables) = (Ok (1, []), true)) by (vm_compute; reflexivity).
  destruct (connectGroupCredentialsMutation exConnect 1 ["stage"%string] unixEpoch unixEpoch true exTables) as [r t'] eqn:E.
  injection Hv as -> Hc. split; [reflexivity|]. split; [by destruct (tb_credentials t' !! 5); [eexists|]|].
  assert (Hok : tables_ok exTables).
  { intros id s Hs. cbn in Hs. apply lookup_singleton_Some in Hs as [<- <-]. constructor; cbn; try done; by split; [intros [? ?]|]. }
  destruct (connect_exact exConnect 1 ["stage"%string] ["stage"%string] unixEpoch unixEpoch true exTables (Ok (1, [])) t' Hok eq_refl E)
    as (H1 & H2 & H3 & _).
  split; [exact H1|]. split; [exact H2|exact H3].
Defined.
End Example.
