(* ===== verification/JsonText.v ===== *)
(** JSON text ([encoding/json]): the concrete syntax of a document with its blanks and the
    exact bytes of its tokens, the parser behind [json.Valid], and their round trip.  What a
    document means is the function [den] from paths to the objects and values found there; of
    two members with one name the later one counts. *)
From Stdlib Require Import Ascii.
From S2P Require Import Prelude GoStrings.

Local Open Scope Z_scope.

Abbreviation bytes := (list ascii) (only parsing).

Definition dquote : ascii := ascii_of_N 34.
Definition backslash : ascii := ascii_of_N 92.
#[global] Arguments dquote : simpl never.
#[global] Arguments backslash : simpl never.

(** * Lexical classes *)

Definition isBlank (c : ascii) : bool := bool_decide (byteZ c ∈ [32; 9; 13; 10]).

(** A byte that can stand in a number or a literal. *)
Definition isTokenByte (c : ascii) : bool :=
  negb (isBlank c || bool_decide (byteZ c ∈ [34; 44; 58; 91; 93; 123; 125])).

Fixpoint spanOf (f : ascii -> bool) (l : bytes) : bytes * bytes :=
  match l with
  | [] => ([], [])
  | c :: r => if f c then let '(a, b) := spanOf f r in (c :: a, b) else ([], l)
  end.
Abbreviation spanBlanks := (spanOf isBlank) (only parsing).

(** Numbers, part by part: sign, integer, fraction, exponent. *)
Definition skipDigits (l : bytes) : bytes := (spanOf isDigit l).2.
Definition exponentPart (l : bytes) : bool :=
  match l with
  | [] => true
  | c :: r =>
      bool_decide (byteZ c ∈ [69; 101]) &&
      match (match r with s :: r' => if bool_decide (byteZ s ∈ [43; 45]) then r' else r | [] => [] end) with
      | d :: r' => isDigit d && forallb isDigit r'
      | [] => false
      end
  end.
Definition fractionPart (l : bytes) : bool :=
  match l with
  | c :: r =>
      if Ascii.eqb c "." then match r with d :: r' => isDigit d && exponentPart (skipDigits r') | [] => false end
      else exponentPart l
  | [] => true
  end.
Definition isNumber (l : bytes) : bool :=
  match (match l with c :: r => if Ascii.eqb c "-" then r else l | [] => [] end) with
  | d :: r => if Ascii.eqb d "0" then fractionPart r else isDigit d && fractionPart (skipDigits r)
  | [] => false
  end.
Definition isToken (l : bytes) : bool :=
  forallb isTokenByte l &&
  (isNumber l || bool_decide (l ∈ [bytes_of "true"; bytes_of "false"; bytes_of "null"])).

Definition isHex (c : ascii) : bool :=
  let b := byteZ c in
  (48 <=? b) && (b <=? 57) || (65 <=? b) && (b <=? 70) || (97 <=? b) && (b <=? 102).
Definition isEscape (c : ascii) : bool := bool_decide (byteZ c ∈ [34; 92; 47; 98; 102; 110; 114; 116]).

(** What follows the opening quote of a string: the content, as written, and the rest behind
    the closing quote. *)
Fixpoint scanString (l : bytes) : option (bytes * bytes) :=
  match l with
  | [] => None
  | c :: r =>
      if Ascii.eqb c dquote then Some ([], r)
      else if Ascii.eqb c backslash then
        match r with
        | e :: r1 =>
            if isEscape e then
              match scanString r1 with Some (a, b) => Some (c :: e :: a, b) | None => None end
            else if Ascii.eqb e "u" then
              match r1 with
              | h1 :: h2 :: h3 :: h4 :: r2 =>
                  if isHex h1 && isHex h2 && isHex h3 && isHex h4 then
                    match scanString r2 with Some (a, b) => Some (c :: e :: h1 :: h2 :: h3 :: h4 :: a, b) | None => None end
                  else None
              | _ => None
              end
            else None
        | [] => None
        end
      else if byteZ c <? 32 then None
      else match scanString r with Some (a, b) => Some (c :: a, b) | None => None end
  end.

Definition isContent (l : bytes) : Prop := scanString (l ++ [dquote]) = Some (l, []).

(** * Concrete syntax

    The blanks are part of the tree: behind an opening bracket, behind an item, and behind the
    comma that separates it from the next one. *)
Inductive cst :=
| CToken (token : bytes)
| CString (content : bytes)
| CArray (lead : bytes) (items : citems)
| CObject (lead : bytes) (members : cmembers)
with citems :=
| INil
| ICons (value : cst) (after next : bytes) (rest : citems)
with cmembers :=
| MNil
| MCons (key afterKey afterColon : bytes) (value : cst) (after next : bytes) (rest : cmembers).

Scheme cst_rect2 := Induction for cst Sort Prop
  with citems_rect2 := Induction for citems Sort Prop
  with cmembers_rect2 := Induction for cmembers Sort Prop.
Combined Scheme cst_mutind from cst_rect2, citems_rect2, cmembers_rect2.

Definition quoted (content : bytes) : bytes := dquote :: content ++ [dquote].

Fixpoint render (v : cst) : bytes :=
  match v with
  | CToken t => t
  | CString s => quoted s
  | CArray lead items => "["%char :: lead ++ renderItems items ++ ["]"%char]
  | CObject lead members => "{"%char :: lead ++ renderMembers members ++ ["}"%char]
  end
with renderItems (items : citems) : bytes :=
  match items with
  | INil => []
  | ICons v after next rest =>
      render v ++ after ++
      match rest with INil => [] | ICons _ _ _ _ => ","%char :: next ++ renderItems rest end
  end
with renderMembers (members : cmembers) : bytes :=
  match members with
  | MNil => []
  | MCons k w1 w2 v after next rest =>
      quoted k ++ w1 ++ ":"%char :: w2 ++ render v ++ after ++
      match rest with MNil => [] | MCons _ _ _ _ _ _ _ => ","%char :: next ++ renderMembers rest end
  end.

Definition blanks (l : bytes) : Prop := forallb isBlank l = true.

Fixpoint wellFormed (v : cst) : Prop :=
  match v with
  | CToken t => isToken t = true
  | CString s => isContent s
  | CArray lead items => blanks lead /\ wellFormedItems items
  | CObject lead members => blanks lead /\ wellFormedMembers members
  end
with wellFormedItems (items : citems) : Prop :=
  match items with
  | INil => True
  | ICons v after next rest =>
      wellFormed v /\ blanks after /\ blanks next /\ (rest = INil -> next = []) /\ wellFormedItems rest
  end
with wellFormedMembers (members : cmembers) : Prop :=
  match members with
  | MNil => True
  | MCons k w1 w2 v after next rest =>
      isContent k /\ blanks w1 /\ blanks w2 /\ wellFormed v /\ blanks after /\ blanks next
      /\ (rest = MNil -> next = []) /\ wellFormedMembers rest
  end.

(** The nesting of arrays and objects, which [encoding/json] limits. *)
Fixpoint depth (v : cst) : Z :=
  match v with
  | CToken _ | CString _ => 0
  | CArray _ items => 1 + depthItems items
  | CObject _ members => 1 + depthMembers members
  end
with depthItems (items : citems) : Z :=
  match items with INil => 0 | ICons v _ _ rest => Z.max (depth v) (depthItems rest) end
with depthMembers (members : cmembers) : Z :=
  match members with MNil => 0 | MCons _ _ _ v _ _ rest => Z.max (depth v) (depthMembers rest) end.

(** * The parser *)

Fixpoint parseValue (fuel : nat) (l : bytes) : option (cst * bytes) :=
  match fuel with
  | O => None
  | S n =>
      match l with
      | [] => None
      | c :: r =>
          if Ascii.eqb c "{" then
            let '(lead, r1) := spanBlanks r in
            match r1 with
            | [] => None
            | d :: r2 =>
                if Ascii.eqb d "}" then Some (CObject lead MNil, r2)
                else match parseMembers n r1 with Some (ms, r3) => Some (CObject lead ms, r3) | None => None end
            end
          else if Ascii.eqb c "[" then
            let '(lead, r1) := spanBlanks r in
            match r1 with
            | [] => None
            | d :: r2 =>
                if Ascii.eqb d "]" then Some (CArray lead INil, r2)
                else match parseItems n r1 with Some (its, r3) => Some (CArray lead its, r3) | None => None end
            end
          else if Ascii.eqb c dquote then
            match scanString r with Some (s, r1) => Some (CString s, r1) | None => None end
          else
            let '(t, r1) := spanOf isTokenByte l in
            if isToken t then Some (CToken t, r1) else None
      end
  end
with parseItems (fuel : nat) (l : bytes) : option (citems * bytes) :=
  match fuel with
  | O => None
  | S n =>
      match parseValue n l with
      | None => None
      | Some (v, r) =>
          let '(after, r1) := spanBlanks r in
          match r1 with
          | [] => None
          | d :: r2 =>
              if Ascii.eqb d "]" then Some (ICons v after [] INil, r2)
              else if Ascii.eqb d "," then
                let '(next, r3) := spanBlanks r2 in
                match parseItems n r3 with Some (its, r4) => Some (ICons v after next its, r4) | None => None end
              else None
          end
      end
  end
with parseMembers (fuel : nat) (l : bytes) : option (cmembers * bytes) :=
  match fuel with
  | O => None
  | S n =>
      match l with
      | [] => None
      | q :: r =>
          if Ascii.eqb q dquote then
            match scanString r with
            | None => None
            | Some (k, r1) =>
                let '(w1, r2) := spanBlanks r1 in
                match r2 with
                | [] => None
                | colon :: r3 =>
                    if Ascii.eqb colon ":" then
                      let '(w2, r4) := spanBlanks r3 in
                      match parseValue n r4 with
                      | None => None
                      | Some (v, r5) =>
                          let '(after, r6) := spanBlanks r5 in
                          match r6 with
                          | [] => None
                          | d :: r7 =>
                              if Ascii.eqb d "}" then Some (MCons k w1 w2 v after [] MNil, r7)
                              else if Ascii.eqb d "," then
                                let '(next, r8) := spanBlanks r7 in
                                match parseMembers n r8 with
                                | Some (ms, r9) => Some (MCons k w1 w2 v after next ms, r9)
                                | None => None
                                end
                              else None
                          end
                      end
                    else None
                end
            end
          else None
      end
  end.

(** A document without surrounding blanks, and [json.Valid] with them. *)
Definition parseDocument (l : bytes) : option cst :=
  match parseValue (S (length l)) l with Some (v, []) => Some v | _ => None end.

Definition maxNestingDepth : Z := 10000.
Definition jsonValid (l : bytes) : bool :=
  match parseValue (S (length l)) (spanBlanks l).2 with
  | Some (v, r) => forallb isBlank r && (depth v <=? maxNestingDepth)
  | None => false
  end.

(** * The parser inverts the printer *)

Definition stops (f : ascii -> bool) (l : bytes) : Prop :=
  match l with [] => True | c :: _ => f c = false end.

Lemma spanOf_app f a r : forallb f a = true -> stops f r -> spanOf f (a ++ r) = (a, r).
Proof.
  induction a as [|c a IH]; cbn; intros Ha Hr.
  - destruct r as [|d r]; cbn in *; [done|]. by rewrite Hr.
  - apply andb_true_iff in Ha as [-> Ha]. by rewrite (IH Ha Hr).
Qed.

Lemma spanOf_spec f l a b : spanOf f l = (a, b) -> l = a ++ b /\ forallb f a = true /\ stops f b.
Proof.
  revert a b. induction l as [|c l IH]; cbn; intros a b.
  - intros [= <- <-]. done.
  - destruct (f c) eqn:Ec.
    + destruct (spanOf f l) as [a' b'] eqn:E. intros [= <- <-].
      destruct (IH _ _ eq_refl) as (-> & Ha & Hb). cbn. by rewrite Ec, Ha.
    + intros [= <- <-]. cbn. by rewrite Ec.
Qed.

Lemma scanString_spec n l a b : (length l <= n)%nat -> scanString l = Some (a, b) ->
  l = a ++ dquote :: b /\ isContent a /\ forall x, scanString (l ++ x) = Some (a, b ++ x).
Proof.
  unfold isContent. revert l a b. induction n as [|n IH]; intros l a b Hl H;
    (destruct l as [|c r]; [done|]); cbn in Hl; [lia|].
  cbn in H. destruct (Ascii.eqb_spec c dquote) as [->|Hq].
  { simplify_eq. by split_and!. }
  assert (Ascii.eqb c dquote = false) as Eq by (by apply Ascii.eqb_neq).
  destruct (Ascii.eqb c backslash) eqn:Eb.
  - destruct r as [|e r1]; [done|]. destruct (isEscape e) eqn:Ee.
    + destruct (scanString r1) as [[a1 b1]|] eqn:E1; [|done]. simplify_eq. cbn in Hl.
      apply IH in E1 as (-> & Hc & Hx); [|lia]. cbn. rewrite Eq, Eb, Ee, Hc.
      split; [done|]. split; [done|]. intros x. by rewrite Hx.
    + destruct (Ascii.eqb e "u") eqn:Eu; [|done]. destruct r1 as [|h1 [|h2 [|h3 [|h4 r2]]]]; try done.
      destruct (isHex h1 && isHex h2 && isHex h3 && isHex h4) eqn:Eh; [|done].
      destruct (scanString r2) as [[a1 b1]|] eqn:E1; [|done]. simplify_eq. cbn in Hl.
      apply IH in E1 as (-> & Hc & Hx); [|lia]. cbn. rewrite Eq, Eb, Ee, Eu, Eh, Hc.
      split; [done|]. split; [done|]. intros x. by rewrite Hx.
  - destruct (byteZ c <? 32) eqn:Ez; [done|]. destruct (scanString r) as [[a1 b1]|] eqn:E1; [|done]. simplify_eq.
    apply IH in E1 as (-> & Hc & Hx); [|lia]. cbn. rewrite Eq, Eb, Ez, Hc.
    split; [done|]. split; [done|]. intros x. by rewrite Hx.
Qed.

Lemma scanString_content s r : isContent s -> scanString (s ++ dquote :: r) = Some (s, r).
Proof.
  intros H. destruct (scanString_spec _ _ _ _ (le_n _) H) as (_ & _ & Hx).
  specialize (Hx r). by rewrite <- app_assoc in Hx.
Qed.

Lemma stops_blank c r : isBlank c = false -> stops isBlank (c :: r).
Proof. done. Qed.

Lemma blanks_nil : blanks [].
Proof. done. Qed.

Ltac span H := apply spanOf_spec in H as (? & ? & ?).

(** What the parser accepts is the rendering of the tree it returns. *)
Lemma parse_sound n :
  (forall l v r, parseValue n l = Some (v, r) -> l = render v ++ r /\ wellFormed v)
  /\ (forall l its r, parseItems n l = Some (its, r) -> its <> INil /\ l = renderItems its ++ "]"%char :: r /\ wellFormedItems its)
  /\ (forall l ms r, parseMembers n l = Some (ms, r) -> ms <> MNil /\ l = renderMembers ms ++ "}"%char :: r /\ wellFormedMembers ms).
Proof.
  induction n as [|n (IHv & IHi & IHm)]; [done|]. split_and!; intros l; cbn.
  - intros v r. destruct l as [|c l0]; [done|].
    destruct (Ascii.eqb_spec c "{") as [->|_].
    { destruct (spanBlanks l0) as [lead r1] eqn:E1. span E1. destruct r1 as [|d r2]; [done|].
      destruct (Ascii.eqb_spec d "}") as [->|_].
      - intros [= <- <-]. cbn. split; [|done]. rewrite <- app_assoc. cbn. congruence.
      - destruct (parseMembers n (d :: r2)) as [[ms r3]|] eqn:E2; [|done]. intros [= <- <-].
        apply IHm in E2 as (_ & E2 & Hw). cbn. split; [|done]. rewrite <- !app_assoc. cbn. congruence. }
    destruct (Ascii.eqb_spec c "[") as [->|_].
    { destruct (spanBlanks l0) as [lead r1] eqn:E1. span E1. destruct r1 as [|d r2]; [done|].
      destruct (Ascii.eqb_spec d "]") as [->|_].
      - intros [= <- <-]. cbn. split; [|done]. rewrite <- app_assoc. cbn. congruence.
      - destruct (parseItems n (d :: r2)) as [[ms r3]|] eqn:E2; [|done]. intros [= <- <-].
        apply IHi in E2 as (_ & E2 & Hw). cbn. split; [|done]. rewrite <- !app_assoc. cbn. congruence. }
    destruct (Ascii.eqb_spec c dquote) as [->|_].
    { destruct (scanString l0) as [[s r1]|] eqn:E1; [|done]. intros [= <- <-].
      destruct (scanString_spec _ _ _ _ (le_n _) E1) as (-> & Hc & _). cbn. by rewrite <- app_assoc. }
    match goal with |- context [spanOf isTokenByte ?l] => change (c :: l0) with l; destruct (spanOf isTokenByte l) as [t r1] eqn:E1 end.
    span E1. destruct (isToken t) eqn:Et; [|done]. intros [= <- <-]. cbn. done.
  - intros its r. destruct (parseValue n l) as [[v r0]|] eqn:Ev; [|done]. apply IHv in Ev as (-> & Hv).
    destruct (spanBlanks r0) as [after r1] eqn:E1. span E1. destruct r1 as [|d r2]; [done|].
    destruct (Ascii.eqb_spec d "]") as [->|_].
    { intros [= <- <-]. subst. cbn. split; [done|]. split; [|done]. by rewrite !app_nil_r, <- app_assoc. }
    destruct (Ascii.eqb_spec d ",") as [->|_]; [|done].
    destruct (spanBlanks r2) as [next r3] eqn:E2. span E2.
    destruct (parseItems n r3) as [[ms r4]|] eqn:E3; [|done]. intros [= <- <-].
    apply IHi in E3 as (Hn & E3 & Hw). subst. split; [done|]. cbn. destruct ms; [done|].
    split; [|done]. rewrite <- !app_assoc. cbn. rewrite <- !app_assoc. done.
  - intros ms r. destruct l as [|q l0]; [done|]. destruct (Ascii.eqb_spec q dquote) as [->|_]; [|done].
    destruct (scanString l0) as [[k r1]|] eqn:E1; [|done].
    destruct (scanString_spec _ _ _ _ (le_n _) E1) as (-> & Hc & _).
    destruct (spanBlanks r1) as [w1 r2] eqn:E2. span E2. destruct r2 as [|d r3]; [done|].
    destruct (Ascii.eqb_spec d ":") as [->|_]; [|done].
    destruct (spanBlanks r3) as [w2 r4] eqn:E3. span E3.
    destruct (parseValue n r4) as [[v r5]|] eqn:Ev; [|done]. apply IHv in Ev as (-> & Hv).
    destruct (spanBlanks r5) as [after r6] eqn:E4. span E4. destruct r6 as [|d r7]; [done|].
    destruct (Ascii.eqb_spec d "}") as [->|_].
    { intros [= <- <-]. subst. split; [done|]. cbn. rewrite app_nil_r.
      split; [|done]. by repeat (rewrite <- !app_assoc; cbn). }
    destruct (Ascii.eqb_spec d ",") as [->|_]; [|done].
    destruct (spanBlanks r7) as [next r8] eqn:E5. span E5.
    destruct (parseMembers n r8) as [[ms' r9]|] eqn:E6; [|done]. intros [= <- <-].
    apply IHm in E6 as (Hn & E6 & Hw). subst. split; [done|]. cbn. destruct ms'; [done|].
    split; [|done]. by repeat (rewrite <- !app_assoc; cbn).
Qed.

Fixpoint csize (v : cst) : nat :=
  match v with
  | CToken _ | CString _ => 1
  | CArray _ items => S (isize items)
  | CObject _ members => S (msize members)
  end
with isize (items : citems) : nat :=
  match items with INil => 0 | ICons v _ _ rest => S (csize v + isize rest) end
with msize (members : cmembers) : nat :=
  match members with MNil => 0 | MCons _ _ _ v _ _ rest => S (csize v + msize rest) end.

(** What may follow a value: anything but a byte that would continue a token. *)
Definition follows (l : bytes) : Prop := stops isTokenByte l.

Lemma token_head t : isToken t = true -> exists c r, t = c :: r /\ isTokenByte c = true.
Proof.
  unfold isToken. destruct t as [|c r]; [done|]. cbn [forallb]. intros H.
  apply andb_true_iff in H as [H _]. apply andb_true_iff in H as [H _]. by eexists _, _.
Qed.

(** The first byte of a value is no blank, closes nothing and separates nothing. *)
Lemma render_head v : wellFormed v ->
  exists c r, render v = c :: r /\ isBlank c = false /\ c <> "]"%char /\ c <> "}"%char.
Proof.
  destruct v as [t|s|lead its|lead ms]; intros H; [|by eexists _, _..].
  apply token_head in H as (c & r & -> & Hc). exists c, r. split; [done|].
  split; [|by split; intros ->].
  unfold isTokenByte in Hc. by destruct (isBlank c).
Qed.

Lemma csize_render :
  (forall v, wellFormed v -> csize v <= length (render v))%nat
  /\ (forall its, wellFormedItems its -> isize its <= S (length (renderItems its)))%nat
  /\ (forall ms, wellFormedMembers ms -> msize ms <= length (renderMembers ms))%nat.
Proof.
  apply cst_mutind; cbn; try done.
  - intros t H. apply token_head in H as (c & r & -> & _). cbn. lia.
  - lia.
  - intros lead its IH [_ H]. specialize (IH H). rewrite !length_app. cbn. lia.
  - intros lead ms IH [_ H]. specialize (IH H). rewrite !length_app. lia.
  - lia.
  - intros v IHv after next rest IHr (Hv & _ & _ & _ & Hr). specialize (IHv Hv). specialize (IHr Hr).
    rewrite !length_app. destruct rest as [|v' a' n' r']; [cbn in *; lia|]. revert IHr.
    generalize (isize (ICons v' a' n' r')) (renderItems (ICons v' a' n' r')). intros i l. cbn. rewrite length_app. lia.
  - intros k w1 w2 v IHv after next rest IHr (_ & _ & _ & Hv & _ & _ & _ & Hr). specialize (IHv Hv). specialize (IHr Hr).
    rewrite !length_app. cbn. rewrite !length_app. destruct rest as [|k' x y v' a' n' r']; [cbn in *; lia|]. revert IHr.
    generalize (msize (MCons k' x y v' a' n' r')) (renderMembers (MCons k' x y v' a' n' r')). intros i l. cbn. rewrite length_app. lia.
Qed.

Lemma parse_complete :
  (forall v, wellFormed v -> forall n r, (csize v <= n)%nat -> follows r -> parseValue n (render v ++ r) = Some (v, r))
  /\ (forall its, wellFormedItems its -> forall n r, its <> INil -> (isize its <= n)%nat ->
        parseItems n (renderItems its ++ "]"%char :: r) = Some (its, r))
  /\ (forall ms, wellFormedMembers ms -> forall n r, ms <> MNil -> (msize ms <= n)%nat ->
        parseMembers n (renderMembers ms ++ "}"%char :: r) = Some (ms, r)).
Proof.
  apply cst_mutind.
  - intros t H n r Hn Hr. destruct n as [|n]; [cbn in Hn; lia|]. cbn in H. pose proof H as Ht.
    apply token_head in H as (c & t' & -> & Hc). cbn [render app parseValue].
    rewrite !(proj2 (Ascii.eqb_neq c _)) by (intros ->; done).
    change (c :: t' ++ r) with ((c :: t') ++ r). rewrite spanOf_app; [by rewrite Ht| |done].
    unfold isToken in Ht. by apply andb_true_iff in Ht as [].
  - intros s H n r Hn _. destruct n as [|n]; [cbn in Hn; lia|]. cbn -[quoted]. cbn.
    rewrite <- app_assoc. cbn. by rewrite scanString_content.
  - intros lead its IH [Hl Hi] n r Hn _. destruct n as [|n]; [cbn in Hn; lia|]. cbn in Hn |- *.
    rewrite <- !app_assoc. cbn. destruct its as [|v after next rest].
    + cbn. by rewrite spanOf_app.
    + pose proof Hi as [Hv _]. destruct (render_head v Hv) as (c & x & Ec & Hb & Hc & _).
      assert (renderItems (ICons v after next rest) <> [] /\ exists y, renderItems (ICons v after next rest) = c :: y) as [_ [y Ey]].
      { cbn. rewrite Ec. split; [done|]. by eexists. }
      rewrite Ey. cbn [app]. rewrite spanOf_app by done. cbn. rewrite (proj2 (Ascii.eqb_neq c _) Hc).
      change (c :: y ++ "]"%char :: r) with ((c :: y) ++ "]"%char :: r). rewrite <- Ey, IH by (done || lia). done.
  - intros lead ms IH [Hl Hm] n r Hn _. destruct n as [|n]; [cbn in Hn; lia|]. cbn in Hn |- *.
    rewrite <- !app_assoc. cbn. destruct ms as [|k w1 w2 v after next rest].
    + cbn. by rewrite spanOf_app.
    + remember (MCons k w1 w2 v after next rest) as ms eqn:Ems.
      assert (exists y, renderMembers ms = dquote :: y) as [y Ey] by (subst; by eexists).
      rewrite Ey. cbn [app]. rewrite spanOf_app by done. cbn.
      change (dquote :: y ++ "}"%char :: r) with ((dquote :: y) ++ "}"%char :: r). rewrite <- Ey, IH by (done || (subst; done) || lia). done.
  - done.
  - intros v IHv after next rest IHr (Hv & Ha & Hx & Hl & Hr) n r _ Hn. destruct n as [|n]; [cbn in Hn; lia|].
    cbn in Hn |- *. rewrite <- !app_assoc, IHv; [|done|lia|].
    2: { destruct after as [|c after]; cbn in Ha |- *; [by destruct rest|]. apply andb_true_iff in Ha as [Ha _].
         unfold isTokenByte. by rewrite Ha. }
    destruct rest as [|v' a' n' r'].
    + cbn. rewrite spanOf_app by done. cbn. by rewrite (Hl eq_refl).
    + cbn [app]. rewrite spanOf_app by done. cbn [stops Ascii.eqb]. 
      destruct (render_head v') as (c & x & Ec & Hb & _); [by destruct Hr|].
      rewrite <- app_assoc, spanOf_app; [|done|cbn; by rewrite Ec]. rewrite IHr by (done || lia). done.
  - done.
  - intros k w1 w2 v IHv after next rest IHr (Hk & H1 & H2 & Hv & Ha & Hx & Hl & Hr) n r _ Hn. destruct n as [|n]; [cbn in Hn; lia|].
    cbn in Hn |- *. rewrite <- !app_assoc. cbn. rewrite Ascii.eqb_refl, scanString_content by done.
    rewrite <- ?app_assoc. rewrite spanOf_app by done. cbn.
    destruct (render_head v Hv) as (c & x & Ec & Hb & _). rewrite <- ?app_assoc, spanOf_app; [|done|by rewrite Ec].
    rewrite IHv; [|done|lia|].
    2: { destruct after as [|d after]; cbn in Ha |- *; [by destruct rest|]. apply andb_true_iff in Ha as [Ha _].
         unfold isTokenByte. by rewrite Ha. }
    destruct rest as [|k' w1' w2' v' a' n' r'].
    + cbn. rewrite spanOf_app by done. cbn. by rewrite (Hl eq_refl).
    + cbn [app]. rewrite spanOf_app by done. cbn [stops Ascii.eqb].
      rewrite <- app_assoc, spanOf_app; [|done|done]. rewrite IHr by (done || lia). done.
Qed.

Lemma parseDocument_render v : wellFormed v -> parseDocument (render v) = Some v.
Proof.
  intros H. destruct parse_complete as [Hc _]. destruct csize_render as [Hs _].
  unfold parseDocument. specialize (Hc v H (S (length (render v))) []). rewrite app_nil_r in Hc.
  rewrite Hc; [done| |done]. specialize (Hs v H). lia.
Qed.

Lemma parseDocument_spec l v : parseDocument l = Some v <-> l = render v /\ wellFormed v.
Proof.
  split; [|by intros [-> H]; apply parseDocument_render].
  unfold parseDocument. destruct (parseValue _ l) as [[w r]|] eqn:E; [|done]. destruct r; [|done].
  intros [= ->]. apply parse_sound in E as [-> H]. by rewrite app_nil_r.
Qed.

Lemma render_inj v w : wellFormed v -> wellFormed w -> render v = render w -> v = w.
Proof.
  intros Hv Hw E. apply parseDocument_render in Hv, Hw. rewrite E in Hv. congruence.
Qed.

(** * Meaning *)

(** [utf8.Valid]: the bytes left of the current rune are skipped. *)
Fixpoint utf8From (skip : nat) (l : bytes) : bool :=
  match l with
  | [] => true
  | c :: r =>
      match skip with
      | S n => utf8From n r
      | O => ((byteZ c <? 128) || (2 <=? Z.of_nat (runeWidth l))) && utf8From (runeWidth l - 1) r
      end
  end.
Definition utf8Valid (l : bytes) : bool := utf8From 0 l.

(** How [encoding/json] writes the content of a string, with or without the escapes for HTML,
    and reads it. *)
Class StringCodec := {
  quoteString : bool -> bytes -> bytes;
  unquoteString : bytes -> option bytes
}.

Section Meaning.
Context `{StringCodec}.

(** The name of a member: only a name with an escape or with bytes that are no UTF-8 is
    decoded. *)
Definition memberName (key : bytes) : option bytes :=
  if bool_decide (backslash ∈ key) || negb (utf8Valid key) then unquoteString key else Some key.

Fixpoint lookupLast (members : cmembers) (name : bytes) : option cst :=
  match members with
  | MNil => None
  | MCons key _ _ v _ _ rest =>
      match lookupLast rest name with
      | Some v' => Some v'
      | None => if bool_decide (memberName key = Some name) then Some v else None
      end
  end.

(** What stands at a path: an object, or a value with its exact text. *)
Inductive view := VObject | VValue (text : bytes).
#[global] Instance view_eq_dec : EqDecision view.
Proof. solve_decision. Defined.
Definition meaning : Type := list bytes -> option view.

Definition viewOf (v : cst) : view := match v with CObject _ _ => VObject | _ => VValue (render v) end.

Fixpoint den (v : cst) (path : list bytes) {struct path} : option view :=
  match path with
  | [] => Some (viewOf v)
  | name :: path' =>
      match v with
      | CObject _ members => match lookupLast members name with Some v' => den v' path' | None => None end
      | _ => None
      end
  end.

Definition denBytes (l : bytes) : meaning :=
  match parseDocument l with Some v => den v | None => fun _ => None end.

Lemma denBytes_render v : wellFormed v -> denBytes (render v) = den v.
Proof. intros Hw. unfold denBytes. by rewrite parseDocument_render. Qed.

(** * Decoded values and how they are written *)

#[local] Set Warnings "-register-all".

Inductive json :=
| JNull
| JBool (b : bool)
| JNumber (literal : bytes)
| JString (s : bytes)
| JArray (items : list json)
| JObject (fields : list (bytes * json)).

Fixpoint itemsOf (l : list cst) : citems :=
  match l with [] => INil | v :: r => ICons v [] [] (itemsOf r) end.
Fixpoint membersOf (html : bool) (l : list (bytes * cst)) : cmembers :=
  match l with [] => MNil | (k, v) :: r => MCons (quoteString html k) [] [] v [] [] (membersOf html r) end.

(** The order in which [encoding/json] writes the fields of a map. *)
Fixpoint bytesLe (a b : bytes) : bool :=
  match a, b with
  | [], _ => true
  | _ :: _, [] => false
  | x :: a', y :: b' => (byteZ x <? byteZ y) || (byteZ x =? byteZ y) && bytesLe a' b'
  end.
Definition fieldLe {A} (x y : bytes * A) : Prop := bytesLe x.1 y.1 = true.
#[global] Instance fieldLe_dec {A} (x y : bytes * A) : Decision (fieldLe x y) := decide (bytesLe x.1 y.1 = true).

Fixpoint syntaxOf (html : bool) (j : json) : cst :=
  match j with
  | JNull => CToken (bytes_of "null")
  | JBool b => CToken (bytes_of (if b then "true" else "false"))
  | JNumber literal => CToken literal
  | JString s => CString (quoteString html s)
  | JArray items => CArray [] (itemsOf (List.map (syntaxOf html) items))
  | JObject fields =>
      CObject [] (membersOf html (merge_sort fieldLe (List.map (fun f => (f.1, syntaxOf html f.2)) fields)))
  end.
Definition encode (html : bool) (j : json) : bytes := render (syntaxOf html j).

Fixpoint jlookup (fields : list (bytes * json)) (name : bytes) : option json :=
  match fields with
  | [] => None
  | (k, v) :: r => if bool_decide (k = name) then Some v else jlookup r name
  end.

Definition isJObject (j : json) : bool := match j with JObject _ => true | _ => false end.

Fixpoint denJson (j : json) (path : list bytes) {struct path} : option view :=
  match path with
  | [] => Some (if isJObject j then VObject else VValue (encode false j))
  | name :: path' =>
      match j with
      | JObject fields => match jlookup fields name with Some v => denJson v path' | None => None end
      | _ => None
      end
  end.

(** Values as the decoder makes them: numbers are literals, names are UTF-8 and distinct. *)
Fixpoint decoded (j : json) : Prop :=
  match j with
  | JNumber literal => isToken literal = true
  | JArray items => fold_right (fun v P => decoded v /\ P) True items
  | JObject fields =>
      NoDup fields.*1 /\ fold_right (fun f P => (utf8Valid f.1 = true /\ decoded f.2) /\ P) True fields
  | _ => True
  end.

Lemma json_nested_ind (P : json -> Prop) :
  P JNull -> (forall b, P (JBool b)) -> (forall l, P (JNumber l)) -> (forall s, P (JString s)) ->
  (forall items, Forall P items -> P (JArray items)) ->
  (forall fields, Forall (fun f => P f.2) fields -> P (JObject fields)) -> forall j, P j.
Proof.
  intros H1 H2 H3 H4 H5 H6. fix IH 1. intros [|b|l|s|items|fields]; [exact H1|apply H2|apply H3|apply H4| |].
  - apply H5. induction items as [|v r IHr]; constructor; [apply IH|exact IHr].
  - apply H6. induction fields as [|f r IHr]; constructor; [apply IH|exact IHr].
Qed.

Lemma decoded_items items : decoded (JArray items) <-> Forall decoded items.
Proof. cbn. induction items; cbn; [by split|]. by rewrite Forall_cons, IHitems. Qed.

Lemma decoded_fields fields :
  decoded (JObject fields) <-> NoDup fields.*1 /\ Forall (fun f => utf8Valid f.1 = true /\ decoded f.2) fields.
Proof.
  cbn. apply and_iff_compat_l. induction fields; cbn; [by split|]. by rewrite Forall_cons, IHfields.
Qed.

Lemma jlookup_spec fields name v : NoDup fields.*1 -> jlookup fields name = Some v <-> (name, v) ∈ fields.
Proof.
  induction fields as [|[k x] r IH]; cbn; intros Hn; [by rewrite elem_of_nil|]. apply NoDup_cons in Hn as [Hk Hn].
  rewrite elem_of_cons. case_bool_decide as E.
  - subst. split; [intros [= ->]; by left|]. intros [[= ->]|Hin]; [done|]. destruct Hk. by apply (list_elem_of_fmap_2 fst) in Hin.
  - rewrite IH by done. split; [by right|]. by intros [[= -> ->]|Hin].
Qed.

(** The laws of the codec that the code relies on. *)
Class StringCodecLaws : Prop := {
  quote_content html s : isContent (quoteString html s);
  unquote_total content : isContent content -> is_Some (unquoteString content);
  memberName_utf8 content s : isContent content -> memberName content = Some s -> utf8Valid s = true;
  memberName_quote html s : utf8Valid s = true -> memberName (quoteString html s) = Some s
}.

Context `{!StringCodecLaws}.

Lemma memberName_total key : isContent key -> is_Some (memberName key).
Proof. intros Hk. unfold memberName. case_match; [by apply unquote_total|by eexists]. Qed.

Lemma wellFormed_itemsOf l : Forall wellFormed l -> wellFormedItems (itemsOf l).
Proof. induction 1; cbn; [done|]. by split_and!. Qed.

Lemma wellFormed_membersOf html l : Forall (fun f => wellFormed f.2) l -> wellFormedMembers (membersOf html l).
Proof. induction 1 as [|[k v] l]; cbn in *; [done|]. split_and!; try done. apply quote_content. Qed.

Lemma syntaxOf_wellFormed html j : decoded j -> wellFormed (syntaxOf html j).
Proof.
  induction j as [|[]| |s|items IH|fields IH] using json_nested_ind; try done.
  - intros _. apply quote_content.
  - rewrite decoded_items. intros Hd. cbn. split; [done|]. apply wellFormed_itemsOf, Forall_map.
    rewrite Forall_forall in *. intros v Hv. by apply IH, Hd.
  - rewrite decoded_fields. intros [_ Hd]. cbn. split; [done|]. apply wellFormed_membersOf.
    rewrite merge_sort_Permutation. apply Forall_map. rewrite Forall_forall in *. intros f Hf. cbn.
    by apply IH, Hd.
Qed.

Lemma lookupLast_membersOf html l name v :
  NoDup l.*1 -> Forall (fun f => utf8Valid f.1 = true) l -> lookupLast (membersOf html l) name = Some v <-> (name, v) ∈ l.
Proof.
  revert v. induction l as [|[k x] r IH]; cbn; intros v Hn Hu; [by rewrite elem_of_nil|].
  apply NoDup_cons in Hn as [Hk Hn]. apply Forall_cons in Hu as [Hx Hu].
  rewrite elem_of_cons, memberName_quote by done.
  assert (forall w, (k, w) ∉ r) as Hf. { intros w Hin. by apply (list_elem_of_fmap_2 fst) in Hin. }
  destruct (lookupLast (membersOf html r) name) as [w|] eqn:E.
  - pose proof (proj1 (IH w Hn Hu) eq_refl) as Hw. rewrite <- IH by done. split; [by right|].
    intros [[= -> ->]|?]; [by destruct (Hf w)|done].
  - rewrite <- IH by done. case_bool_decide; simplify_eq; split; try done.
    + intros [= ->]. by left.
    + intros [[= ->]|?]; done.
    + by intros [[= -> ->]|?].
Qed.

Lemma den_syntaxOf j path : decoded j -> den (syntaxOf false j) path = denJson j path.
Proof.
  revert j. induction path as [|name path IH]; intros j Hd; [by destruct j|]. cbn.
  destruct j as [|b|l|s|items|fields]; try done. apply decoded_fields in Hd as [Hn Hd].
  cbn. set (l := List.map (fun f => (f.1, syntaxOf false f.2)) fields).
  assert (forall v, lookupLast (membersOf false (merge_sort fieldLe l)) name = Some v <-> (name, v) ∈ l) as Hl.
  { intros v. rewrite lookupLast_membersOf; rewrite ?merge_sort_Permutation; [done| |].
    - subst l. by rewrite <- list_fmap_compose.
    - subst l. apply Forall_map. eapply Forall_impl; [exact Hd|]. by intros [k x] [? ?]. }
  destruct (jlookup fields name) as [v|] eqn:E.
  - apply jlookup_spec in E; [|done]. rewrite (proj2 (Hl (syntaxOf false v))).
    + apply IH. rewrite Forall_forall in Hd. by destruct (Hd _ E).
    + subst l. by apply (list_elem_of_fmap_2 (fun f => (f.1, syntaxOf false f.2))) in E.
  - destruct (lookupLast _ name) as [v|]; [|done]. pose proof (proj1 (Hl v) eq_refl) as Hin.
    subst l. apply list_elem_of_fmap in Hin as ([k x] & [= -> ->] & Hin). apply jlookup_spec in Hin; [|done]. by rewrite E in Hin.
Qed.

End Meaning.
