(* ===== verification/Override.v ===== *)
(** Parameter overrides ([internal/parameteroverride]): the compiled rules ([rules.go]) and the
    editor of the request body ([request.go]), which builds nodes only for the paths the rules
    name and otherwise refers to the original bytes.

    A [requestValue] is a tree: no node is shared, so that the pointers of the code are the
    subtrees.  The maps of children are lists without duplicate names, in the order in which
    they are visited.  [jsonparser.Get] is a parameter, as it is a library; the codec of
    strings is the one of [JsonText]. *)
From Stdlib Require Import Ascii.
From S2P Require Import Prelude GoStrings Execution JsonText.

Local Open Scope Z_scope.
Local Open Scope go_scope.

(** [jsonparser.Get] without keys: the text of the first value, a string without its quotes,
    and the offset behind it. *)
Class JsonScanner := { jsonGet : bytes -> option (bytes * nat) }.

(** How an operation ends early: with an error of a library, or with a panic.  [FFuel] marks
    the bound of the recursion, which is never reached. *)
Inductive fault := FError | FPanic | FFuel.

Section Request.
Context `{StringCodec} `{JsonScanner}.

(** * [request.go] *)

#[local] Set Warnings "-register-all".

Inductive requestValue :=
  RV (raw : option bytes) (fields : list (bytes * requestValue)) (loaded dirty : bool)
     (start end_ generation parentGeneration : nat).

Definition newRequestValue : requestValue := RV None [] false false 0 0 0 0.

Definition rv_raw (v : requestValue) := let '(RV raw _ _ _ _ _ _ _) := v in raw.
Definition rv_fields (v : requestValue) := let '(RV _ fields _ _ _ _ _ _) := v in fields.
Definition rv_loaded (v : requestValue) := let '(RV _ _ loaded _ _ _ _ _) := v in loaded.
Definition rv_dirty (v : requestValue) := let '(RV _ _ _ dirty _ _ _ _) := v in dirty.
Definition rv_start (v : requestValue) := let '(RV _ _ _ _ start _ _ _) := v in start.
Definition rv_end (v : requestValue) := let '(RV _ _ _ _ _ end_ _ _) := v in end_.
Definition rv_generation (v : requestValue) := let '(RV _ _ _ _ _ _ g _) := v in g.
Definition rv_parentGeneration (v : requestValue) := let '(RV _ _ _ _ _ _ _ pg) := v in pg.

Definition withFields fs v := let '(RV raw _ l d s e g pg) := v in RV raw fs l d s e g pg.
Definition withDirty d v := let '(RV raw fs l _ s e g pg) := v in RV raw fs l d s e g pg.
Definition withLoaded raw v := let '(RV _ fs _ d s e g pg) := v in RV (Some raw) fs true d s e g pg.
Definition nextGeneration v := let '(RV raw fs l d s e g pg) := v in RV raw fs l d s e (S g) pg.
(** Where the parent found the field: [child.raw], [child.start], [child.end] and
    [child.parentGeneration] of [eachField]. *)
Definition foundAt raw s e pg v := let '(RV _ fs l d _ _ g _) := v in RV (Some raw) fs l d s e g pg.
Definition placeAt s e pg v := let '(RV raw fs l d _ _ g _) := v in RV raw fs l d s e g pg.

Definition reset (raw : option bytes) v := let '(RV _ fs _ _ s e g pg) := v in RV raw fs false false s e g pg.

Fixpoint fieldIn (fields : list (bytes * requestValue)) (key : bytes) : option requestValue :=
  match fields with
  | [] => None
  | (k, c) :: r => if bool_decide (k = key) then Some c else fieldIn r key
  end.
Fixpoint putIn (key : bytes) (c : requestValue) (fields : list (bytes * requestValue)) : list (bytes * requestValue) :=
  match fields with
  | [] => []
  | (k, d) :: r => if bool_decide (k = key) then (k, c) :: r else (k, d) :: putIn key c r
  end.
Definition childOf v key := fieldIn (rv_fields v) key.
Definition putChild key c v := withFields (putIn key c (rv_fields v)) v.

(** [field]: the child of a name, made when there is none. *)
Definition field key v :=
  match childOf v key with Some _ => v | None => withFields (rv_fields v ++ [(key, newRequestValue)]) v end.
Definition updateChild key (f : requestValue -> requestValue) v :=
  match childOf v key with Some c => putChild key (f c) v | None => v end.

Fixpoint planSet (source : json) v {struct source} : requestValue :=
  match source with
  | JObject fields => foldl (fun v f => updateChild f.1 (planSet f.2) (field f.1 v)) v fields
  | _ => v
  end.

Fixpoint planPath (path : list bytes) v : requestValue :=
  match path with
  | [] => v
  | key :: path' => updateChild key (planPath path') (field key v)
  end.

Definition isObject v : bool :=
  match rv_raw v with Some (c :: _) => Ascii.eqb c "{" | _ => false end.

Definition trimBlanks (l : bytes) : bytes := (spanOf isBlank l).2.
Definition headIs (c : ascii) (l : bytes) : bool := match l with d :: _ => Ascii.eqb d c | [] => false end.

Definition isCurrent v c : bool := (rv_parentGeneration c =? rv_generation v)%nat.

(** [scan] of a node over the loop of [eachField]: the value's end, and the node with its
    fields found. *)
Definition scanWith (loop : bool -> requestValue -> bytes -> bytes -> result fault (nat * requestValue * list (bytes * bytes)))
    v body : result fault (nat * requestValue) :=
  match body with
  | [] => Err FPanic
  | _ :: r =>
      try! (e, v1, _) := loop true (nextGeneration v) body (trimBlanks r) in
      Ok (e, withLoaded (take e body) v1)
  end.

(** The value of a member in [eachField]: its end, and the node after the child of its name has
    been told where it is.  When the object is written again, the end found before is reused. *)
Definition memberValue (loop : bool -> requestValue -> bytes -> bytes -> result fault (nat * requestValue * list (bytes * bytes)))
    (discover : bool) v (key : bytes) (start : nat) (value : bytes) : result fault (nat * requestValue) :=
  match childOf v key with
  | Some child =>
      if discover && bool_decide (value = []) then Err FPanic
      else if discover && headIs "{" value && negb (bool_decide (rv_fields child = [])) then
        try! (e, child1) := scanWith loop (reset None child) value in
        Ok (e, putChild key (foundAt (take e value) start (start + e) (rv_generation v) child1) v)
      else if negb discover && isCurrent v child && (rv_start child =? start)%nat && (start <? rv_end child)%nat then
        Ok ((rv_end child - start)%nat, v)
      else
        match jsonGet value with
        | None => Err FError
        | Some (_, e) =>
            Ok (e, if discover then putChild key (foundAt (take e value) start (start + e) (rv_generation v) (reset None child)) v else v)
        end
  | None => match jsonGet value with None => Err FError | Some (_, e) => Ok (e, v) end
  end.

(** The loop of [eachField] over the members in [remaining], a suffix of [body]: the end of the
    object, the node, and the members in order as [visit] sees them. *)
Fixpoint eachLoop (fuel : nat) (discover : bool) v (body remaining : bytes)
    : result fault (nat * requestValue * list (bytes * bytes)) :=
  match fuel with
  | O => Err FFuel
  | S n =>
      match remaining with
      | [] => Err FPanic
      | c :: _ =>
          if Ascii.eqb c "}" then Ok ((length body - length remaining + 1)%nat, v, [])
          else
            match jsonGet remaining with
            | None => Err FError
            | Some (content, keyEnd) =>
                match memberName content with
                | None => Err FError
                | Some key =>
                    match trimBlanks (drop keyEnd remaining) with
                    | [] => Err FPanic
                    | _ :: r =>
                        let value := trimBlanks r in
                        try! (e, v1) := memberValue (eachLoop n) discover v key (length body - length value) value in
                        match trimBlanks (drop e value) with
                        | [] => Err FPanic
                        | d :: r1 =>
                            try! (e', v2, members) := eachLoop n discover v1 body (if Ascii.eqb d "," then trimBlanks r1 else d :: r1) in
                            Ok (e', v2, (key, take (length remaining - length value + e) remaining) :: members)
                        end
                    end
                end
            end
      end
  end.

Definition eachField (discover : bool) v (body : bytes) : result fault (nat * requestValue * list (bytes * bytes)) :=
  match body with
  | [] => Err FPanic
  | _ :: r => eachLoop (S (length body)) discover v body (trimBlanks r)
  end.

Definition scan v (body : bytes) : result fault (nat * requestValue) := scanWith (eachLoop (S (length body))) v body.

Definition load v : result fault requestValue :=
  if rv_loaded v then Ok v
  else try! (_, v1) := scan v (default [] (rv_raw v)) in Ok v1.

(** The child for a name; what an earlier scan found is forgotten.  The caller stores it. *)
Definition currentField v key : result fault requestValue :=
  match childOf v key with
  | None => Err FPanic
  | Some child =>
      Ok (if isCurrent v child then child else placeAt 0 0 (rv_generation v) (reset None child))
  end.

Fixpoint remove (path : list bytes) v {struct path} : result fault requestValue :=
  if negb (isObject v) then Ok v
  else
    try! v1 := load v in
    match path with
    | [] => Err FPanic
    | key :: path' =>
        try! child := currentField v1 key in
        try! child1 := match path' with [] => Ok (withDirty true (reset None child)) | _ :: _ => remove path' child end in
        Ok (withDirty (rv_dirty v1 || rv_dirty child1) (putChild key child1 v1))
    end.

(** The loop of [merge] over the fields of an object, which merges the items with [step]. *)
Definition mergeFields (step : json -> requestValue -> result fault requestValue) :=
  fix go (fs : list (bytes * json)) (w : requestValue) : result fault requestValue :=
    match fs with
    | [] => Ok w
    | (key, item) :: fs' =>
        try! child := currentField w key in
        try! child1 := step item child in
        go fs' (putChild key child1 w)
    end.

Fixpoint merge (source : json) v {struct source} : result fault requestValue :=
  match source with
  | JObject fields =>
      if isObject v then
        if bool_decide (length fields = 0%nat) then Ok v
        else
          try! v1 := load v in
          try! v2 := mergeFields merge fields v1 in
          Ok (withDirty true v2)
      else Ok (withDirty true (reset (Some (encode false source)) v))
  | _ => Ok (withDirty true (reset (Some (encode false source)) v))
  end.

(** The members of an edited object, separated by commas. *)
Fixpoint joinComma (l : list bytes) : bytes :=
  match l with
  | [] => []
  | x :: r => match r with [] => x | _ :: _ => x ++ ","%char :: joinComma r end
  end.

Definition replaced v key : bool :=
  match childOf v key with Some c => isCurrent v c && rv_dirty c | None => false end.

(** The children that replace or add a member of an object of this generation. *)
Definition writeFields (step : requestValue -> result fault bytes) (generation : nat) :=
  fix go (fs : list (bytes * requestValue)) : result fault (list bytes) :=
    match fs with
    | [] => Ok []
    | (key, child) :: fs' =>
        if negb (rv_parentGeneration child =? generation)%nat || negb (rv_dirty child) || isNil (rv_raw child) then go fs'
        else
          try! text := step child in
          try! rest := go fs' in
          Ok ((quoted (quoteString true key) ++ ":"%char :: text) :: rest)
    end.

(** [write]: an untouched value as it is, an edited object member by member.  The code runs it
    twice, first to measure the text. *)
Fixpoint write v {struct v} : result fault bytes :=
  let '(RV raw fields loaded dirty _ _ generation _) := v in
  if negb dirty || negb loaded then Ok (default [] raw)
  else
    try! (_, _, members) := eachField false v (default [] raw) in
    let kept := (List.filter (fun m => negb (replaced v m.1)) members).*2 in
    try! added := writeFields write generation fields in
    Ok ("{"%char :: joinComma (kept ++ added) ++ ["}"%char]).

End Request.

(** * [rules.go] *)

Definition maxRules : Z := 100.
Definition maxConfigBytes : Z := 262144.
Definition maxRemovePaths : Z := 256.
Definition maxJSONDepth : Z := 64.
Definition maxSafeInteger : Z := 9007199254740991.

Definition forbiddenRootFields : list string := ["model"; "stream"; "store"]%string.

Record rule := mkRule {
  ru_clientProtocol : string;
  ru_model : string;
  ru_modelPrefix : bool;
  ru_set : list (bytes * json);
  ru_remove : list (list bytes)
}.

(** ** Numbers

    [strconv.ParseFloat] and the shortest text of its result are parameters; [big.Rat] is the
    pair of a decimal mantissa and exponent. *)
Record floatValue := mkFloat {
  fl_special : bool; (* infinite or not a number *)
  fl_zero : bool;
  fl_signbit : bool;
  fl_shortest : bytes (* [strconv.FormatFloat(parsed, 'g', -1, 64)] *)
}.
Class FloatText := { ParseFloat : bytes -> option floatValue }.

Definition ratSetString (literal : bytes) : option (Z * Z) :=
  if isNumber literal then
    let '(sign, l) := match literal with c :: r => if Ascii.eqb c "-" then (-1, r) else (1, literal) | [] => (1, []) end in
    let '(whole, r) := spanOf isDigit l in
    let '(fraction, r1) :=
      match r with c :: r' => if Ascii.eqb c "." then spanOf isDigit r' else ([], r) | [] => ([], []) end in
    let exponent :=
      match r1 with
      | _ :: s :: ds => if Ascii.eqb s "-" then - digitsVal ds else if Ascii.eqb s "+" then digitsVal ds else digitsVal (s :: ds)
      | _ => 0
      end in
    Some (sign * digitsVal (whole ++ fraction), exponent - Z.of_nat (length fraction))
  else None.
Definition ratIsInt (q : Z * Z) : bool := (0 <=? q.2) || (q.1 mod 10 ^ (- q.2) =? 0).
Definition ratNum (q : Z * Z) : Z := if 0 <=? q.2 then q.1 * 10 ^ q.2 else q.1 / 10 ^ (- q.2).
Definition ratEq (a b : Z * Z) : bool :=
  let e := Z.min a.2 b.2 in a.1 * 10 ^ (a.2 - e) =? b.1 * 10 ^ (b.2 - e).

Inductive overrideError :=
| EncodedTooLarge | NotAnArray | TooManyRules | TooManyRemovePaths
| UnknownField | MatchNotObject | MatchUnknownField | ProtocolNotString | ProtocolNotCanonical | ProtocolInvalid
| ModelNotString | ModelEmpty | ModelWildcard
| SetNotObject | SetTooDeep | SetEmptyName | SetForbidden | NumberOutOfRange | NumberNoRoundTrip | NumberInvalid | NumberUnsafe
| RemoveNotArray | RemoveDuplicate | RemoveForbidden
| PointerRoot | PointerTooDeep | PointerEscape | PointerEmpty | PointerArray
| RuleEmpty.

Section Rules.
Context `{GoText} `{StringCodec} `{JsonScanner} `{FloatText}.

Definition validateJSONNumber (literal : bytes) : option overrideError :=
  match ParseFloat literal with
  | None => Some NumberOutOfRange
  | Some parsed =>
      if fl_special parsed then Some NumberOutOfRange
      else if fl_zero parsed && fl_signbit parsed then Some NumberNoRoundTrip
      else
        match ratSetString literal with
        | None => Some NumberInvalid
        | Some exact =>
            if ratIsInt exact && (maxSafeInteger <? Z.abs (ratNum exact)) then Some NumberUnsafe
            else
              match ratSetString (fl_shortest parsed) with
              | Some roundTrip => if ratEq exact roundTrip then None else Some NumberNoRoundTrip
              | None => Some NumberNoRoundTrip
              end
        end
  end.

(** The first error of a list, in the order of visiting. *)
Fixpoint firstOf {A} (f : A -> option overrideError) (l : list A) : option overrideError :=
  match l with [] => None | x :: r => match f x with Some e => Some e | None => firstOf f r end end.

Fixpoint validateSetValue (depth : Z) (value : json) {struct value} : option overrideError :=
  if maxJSONDepth <? depth then Some SetTooDeep
  else
    match value with
    | JObject fields =>
        firstOf (fun f => if bool_decide (f.1 = []) then Some SetEmptyName else validateSetValue (depth + 1) f.2) fields
    | JArray items => firstOf (validateSetValue (depth + 1)) items
    | JNumber literal => validateJSONNumber literal
    | _ => None
    end.

Definition forbiddenRootField (value : bytes) : bool :=
  existsb (fun f => EqualFold (of_bytes value) f) forbiddenRootFields.

Fixpoint decodePointerSegment (value : bytes) : option bytes :=
  match value with
  | [] => Some []
  | c :: r =>
      if negb (Ascii.eqb c "~") then match decodePointerSegment r with Some d => Some (c :: d) | None => None end
      else
        match r with
        | [] => None
        | d :: r' =>
            if Ascii.eqb d "0" then match decodePointerSegment r' with Some x => Some ("~"%char :: x) | None => None end
            else if Ascii.eqb d "1" then match decodePointerSegment r' with Some x => Some ("/"%char :: x) | None => None end
            else None
        end
  end.

(** [strings.Split] at every slash. *)
Fixpoint splitSlash (l : bytes) : list bytes :=
  match l with
  | [] => [[]]
  | c :: r =>
      if Ascii.eqb c "/" then [] :: splitSlash r
      else match splitSlash r with s :: t => (c :: s) :: t | [] => [[c]] end
  end.

Definition isUint64 (l : bytes) : bool :=
  match l with [] => false | _ => forallb isDigit l && (digitsVal l <=? maxUint64) end.

Definition pointerSegment (raw : bytes) : result overrideError bytes :=
  match decodePointerSegment raw with
  | None => Err PointerEscape
  | Some decoded =>
      if bool_decide (decoded = []) then Err PointerEmpty
      else if bool_decide (decoded = ["-"%char]) || isUint64 decoded then Err PointerArray
      else Ok decoded
  end.

Fixpoint pointerSegments (raws : list bytes) : result overrideError (list bytes) :=
  match raws with
  | [] => Ok []
  | raw :: r =>
      try! s := pointerSegment raw in
      try! rest := pointerSegments r in
      Ok (s :: rest)
  end.

Definition parsePointer (value : bytes) : result overrideError (list bytes) :=
  match value with
  | c :: r =>
      if negb (Ascii.eqb c "/") then Err PointerRoot
      else if maxJSONDepth <? Z.of_nat (length (List.filter (Ascii.eqb "/") value)) then Err PointerTooDeep
      else pointerSegments (splitSlash r)
  | [] => Err PointerRoot
  end.

(** A [null] leaves a Go string empty. *)
Definition stringValue (j : json) : option bytes :=
  match j with JString s => Some s | JNull => Some [] | _ => None end.

Definition canonicalText (s : bytes) : bool :=
  negb (bool_decide (s = [])) && bool_decide (TrimSpace (of_bytes s) = of_bytes s).

Definition compileMatch (j : json) : result overrideError (string * string * bool) :=
  match j with
  | JObject values =>
      if existsb (fun f => negb (bool_decide (f.1 ∈ [bytes_of "protocol"; bytes_of "model"]))) values then Err MatchUnknownField
      else
        try! clientProtocol :=
          match jlookup values (bytes_of "protocol") with
          | None => Ok EmptyString
          | Some p =>
              match stringValue p with
              | None => Err ProtocolNotString
              | Some s =>
                  if negb (canonicalText s) then Err ProtocolNotCanonical
                  else if negb (protocolValid (of_bytes s)) then Err ProtocolInvalid
                  else Ok (of_bytes s)
              end
          end in
        match jlookup values (bytes_of "model") with
        | None => Ok (clientProtocol, EmptyString, false)
        | Some m =>
            match stringValue m with
            | None => Err ModelNotString
            | Some s =>
                if negb (canonicalText s) then Err ModelEmpty
                else
                  let wildcards := length (List.filter (Ascii.eqb "*") s) in
                  if bool_decide (wildcards = 0%nat) then Ok (clientProtocol, of_bytes s, false)
                  else if bool_decide (wildcards = 1%nat) && HasSuffix (of_bytes s) "*" && (1 <? Z.of_nat (length s)) then
                    Ok (clientProtocol, TrimSuffix (of_bytes s) "*", true)
                  else Err ModelWildcard
            end
        end
  | _ => Err MatchNotObject
  end.

Fixpoint decodeStrings (items : list json) : option (list bytes) :=
  match items with
  | [] => Some []
  | j :: r =>
      match stringValue j, decodeStrings r with
      | Some s, Some l => Some (s :: l)
      | _, _ => None
      end
  end.

Fixpoint compileRemove (seen paths : list bytes) : result overrideError (list (list bytes)) :=
  match paths with
  | [] => Ok []
  | path :: r =>
      if bool_decide (path ∈ seen) then Err RemoveDuplicate
      else
        try! segments := parsePointer path in
        match segments with
        | [] => Err PointerRoot
        | root :: _ =>
            if forbiddenRootField root then Err RemoveForbidden
            else try! rest := compileRemove (path :: seen) r in Ok (segments :: rest)
        end
  end.

Definition compileRule (raw : list (bytes * json)) : result overrideError (rule * Z) :=
  if existsb (fun f => negb (bool_decide (f.1 ∈ [bytes_of "match"; bytes_of "set"; bytes_of "remove"]))) raw then Err UnknownField
  else
    try! (clientProtocol, model, modelPrefix) :=
      match jlookup raw (bytes_of "match") with Some m => compileMatch m | None => Ok (EmptyString, EmptyString, false) end in
    try! set :=
      match jlookup raw (bytes_of "set") with
      | None => Ok []
      | Some (JObject fields) =>
          match validateSetValue 1 (JObject fields) with
          | Some e => Err e
          | None => if existsb (fun f => forbiddenRootField f.1) fields then Err SetForbidden else Ok fields
          end
      | Some _ => Err SetNotObject
      end in
    try! removePaths :=
      match jlookup raw (bytes_of "remove") with
      | None => Ok []
      | Some (JArray items) => match decodeStrings items with Some l => Ok l | None => Err RemoveNotArray end
      | Some _ => Err RemoveNotArray
      end in
    try! removed := compileRemove [] removePaths in
    if bool_decide (length set = 0%nat) && bool_decide (length removed = 0%nat) then Err RuleEmpty
    else Ok (mkRule clientProtocol model modelPrefix set removed, Z.of_nat (length removePaths)).

(** The rules of the array, with the number of paths so far.  A [null] is an empty map. *)
Fixpoint compileRules (total : Z) (raws : list json) : result overrideError (list rule) :=
  match raws with
  | [] => Ok []
  | raw :: r =>
      try! (entry, count) := match raw with JObject fields => compileRule fields | _ => compileRule [] end in
      if maxRemovePaths <? total + count then Err TooManyRemovePaths
      else try! rest := compileRules (total + count) r in Ok (entry :: rest)
  end.

Definition Compile (value : json) : result overrideError (list rule) :=
  if maxConfigBytes <? Z.of_nat (length (encode true value)) then Err EncodedTooLarge
  else
    match value with
    | JArray raws =>
        if existsb (fun j => match j with JObject _ | JNull => false | _ => true end) raws then Err NotAnArray
        else if maxRules <? Z.of_nat (length raws) then Err TooManyRules
        else compileRules 0 raws
    | _ => Err NotAnArray
    end.

Definition supports (clientProtocol : string) (operation : Operation) : bool :=
  if bool_decide (clientProtocol ∈ [OpenAICompletions; "anthropic"; "gemini"]%string) then strEq operation OperationChatCompletion
  else if strEq clientProtocol OpenAIResponses then strEq operation OperationResponsesCreate
  else if strEq clientProtocol OpenAIImages then strEq operation OperationImagesGenerate
  else if strEq clientProtocol "rerank" then strEq operation OperationRerank
  else if strEq clientProtocol "decisions" then strEq operation OperationDecisionsCreate
  else if strEq clientProtocol "audio-speech" then strEq operation OperationAudioSpeech
  else if bool_decide (clientProtocol ∈ [OpenAIEmbeddings; "gemini-embeddings"]%string) then strEq operation OperationEmbeddingsCreate
  else false.

Definition matches (entry : rule) (clientProtocol clientModel : string) : bool :=
  if negb (strEq (ru_clientProtocol entry) "") && negb (strEq (ru_clientProtocol entry) clientProtocol) then false
  else if strEq (ru_model entry) "" then true
  else if ru_modelPrefix entry then HasPrefix clientModel (ru_model entry)
  else strEq clientModel (ru_model entry).

(** [ConfiguredFields]: the root fields the matching rules set, sorted and without duplicates. *)
Definition ConfiguredFields (rules : list rule) (clientProtocol : string) (operation : Operation) (model : string) : list bytes :=
  if negb (supports clientProtocol operation) then []
  else
    (merge_sort fieldLe ((fun name => (name, tt)) <$>
      remove_dups (rules ≫= (fun entry => if matches entry clientProtocol model then (ru_set entry).*1 else [])))).*1.

Inductive applyError := BodyNotObject | ContinuationChanged | EditFault (f : fault).

Definition previousResponseID (name : bytes) : bool := EqualFold (of_bytes name) "previous_response_id".

(** The paths of a rule that name the continuation; with a request, a path to a field it does
    not have is harmless. *)
Fixpoint validateRemoved (paths : list (list bytes)) (object : option requestValue) : result applyError (option requestValue) :=
  match paths with
  | [] => Ok object
  | path :: r =>
      match path with
      | [] => Err (EditFault FPanic)
      | root :: _ =>
          if previousResponseID root then
            match object with
            | None => Err ContinuationChanged
            | Some v =>
                match load v with
                | Err f => Err (EditFault f)
                | Ok v1 =>
                    match currentField v1 root with
                    | Err f => Err (EditFault f)
                    | Ok child =>
                        if isNil (rv_raw child) then validateRemoved r (Some (putChild root child v1)) else Err ContinuationChanged
                    end
                end
            end
          else validateRemoved r object
      end
  end.

Definition validateResponsesContinuation (entry : rule) (object : option requestValue) : result applyError (option requestValue) :=
  if existsb (fun f => previousResponseID f.1) (ru_set entry) then Err ContinuationChanged
  else validateRemoved (ru_remove entry) object.

(** [Rules.ValidateResponsesContinuation], run when a configuration is saved. *)
Fixpoint ValidateResponsesContinuation (rules : list rule) : result applyError unit :=
  match rules with
  | [] => Ok tt
  | entry :: r =>
      if strEq (ru_clientProtocol entry) "" || strEq (ru_clientProtocol entry) OpenAIResponses then
        try! _ := validateResponsesContinuation entry None in ValidateResponsesContinuation r
      else ValidateResponsesContinuation r
  end.

Fixpoint validateAll (rules : list rule) (v : requestValue) : result applyError requestValue :=
  match rules with
  | [] => Ok v
  | entry :: r =>
      try! object := validateResponsesContinuation entry (Some v) in validateAll r (default v object)
  end.

Definition plan (entry : rule) (v : requestValue) : requestValue :=
  foldl (fun v path => planPath path v) (planSet (JObject (ru_set entry)) v) (ru_remove entry).

Fixpoint removeAll (paths : list (list bytes)) (v : requestValue) : result fault requestValue :=
  match paths with [] => Ok v | path :: r => try! v1 := remove path v in removeAll r v1 end.

Fixpoint editAll (rules : list rule) (v : requestValue) : result fault requestValue :=
  match rules with
  | [] => Ok v
  | entry :: r =>
      try! v1 := removeAll (ru_remove entry) v in
      try! v2 := merge (JObject (ru_set entry)) v1 in
      editAll r v2
  end.

Definition Apply (rules : list rule) (clientProtocol : string) (operation : Operation) (clientModel : string) (body : bytes)
    : result applyError (bytes * bool) :=
  if bool_decide (length rules = 0%nat) || negb (supports clientProtocol operation) then Ok (body, false)
  else
    let matched := List.filter (fun entry => matches entry clientProtocol clientModel) rules in
    if bool_decide (length matched = 0%nat) then Ok (body, false)
    else
      let body1 := bytes_of (TrimSpace (of_bytes body)) in
      if negb (headIs "{" body1) || negb (jsonValid body1) then Err BodyNotObject
      else
        let object := foldl (fun v entry => plan entry v) (reset (Some body1) newRequestValue) matched in
        try! object1 := if strEq clientProtocol OpenAIResponses then validateAll matched object else Ok object in
        match editAll matched object1 with
        | Err f => Err (EditFault f)
        | Ok object2 =>
            match write object2 with
            | Err f => Err (EditFault f)
            | Ok encoded => Ok (encoded, true)
            end
        end.

End Rules.
