(* ===== verification/OverrideNodes.v ===== *)
(** The nodes of the editor of [Override]: the invariant that ties a node and its children to
    the text they stand for, and the scan of an object, which establishes it. *)
From Stdlib Require Import Ascii.
From S2P Require Import Prelude GoStrings Execution JsonText Override.

Local Open Scope Z_scope.
Local Open Scope go_scope.

(** What the code relies on in [jsonparser.Get]: on a well-formed value it reports the value's
    own end. *)
Definition endsValue (l : bytes) : Prop :=
  match l with [] => True | c :: _ => isBlank c = true \/ c = ","%char \/ c = "]"%char \/ c = "}"%char end.

Class JsonScannerLaws `{JsonScanner} : Prop := {
  jsonGet_string s r : isContent s -> jsonGet (quoted s ++ r) = Some (s, length (quoted s));
  jsonGet_value v r : wellFormed v -> endsValue r ->
    exists text, jsonGet (render v ++ r) = Some (text, length (render v))
}.

(** * Nodes *)

Section Nodes.
Context `{SC : StringCodec} `{JS : JsonScanner}.

(** The names a node knows, and those of its children. *)
#[local] Set Warnings "-register-all".
Inductive skeleton := Skeleton (fields : list (bytes * skeleton)).
Fixpoint shape (v : requestValue) : skeleton :=
  let '(RV _ fields _ _ _ _ _ _) := v in Skeleton (List.map (fun f => (f.1, shape f.2)) fields).

Definition shapeFields (fields : list (bytes * requestValue)) : list (bytes * skeleton) :=
  List.map (fun f => (f.1, shape f.2)) fields.

Lemma shape_fields v : shape v = Skeleton (shapeFields (rv_fields v)).
Proof. by destruct v. Qed.

Lemma requestValue_nested_ind (P : requestValue -> Prop) :
  (forall v, (forall k c, (k, c) ∈ rv_fields v -> P c) -> P v) -> forall v, P v.
Proof.
  intros Hstep. fix IH 1. intros [raw fields l d s e g pg].
  assert (Forall (fun f => P f.2) fields) as Hf.
  { induction fields as [|f r IHr]; constructor; [apply IH|exact IHr]. }
  apply Hstep. cbn. intros k c Hin. rewrite Forall_forall in Hf. apply (Hf _ Hin).
Qed.

Lemma fieldIn_elem fields k c : fieldIn fields k = Some c -> (k, c) ∈ fields.
Proof.
  induction fields as [|[k' c'] r IH]; cbn; [done|]. case_bool_decide.
  - intros [= ->]. subst. by left.
  - intros. right. auto.
Qed.

Lemma elem_fieldIn fields k c : NoDup fields.*1 -> (k, c) ∈ fields -> fieldIn fields k = Some c.
Proof.
  induction fields as [|[k' c'] r IH]; cbn; [by intros _ ?%elem_of_nil|].
  intros [Hk Hn]%NoDup_cons [[= -> ->]|Hin]%elem_of_cons; [by rewrite bool_decide_eq_true_2|].
  rewrite bool_decide_eq_false_2; [by apply IH|]. intros ->. by apply (list_elem_of_fmap_2 fst) in Hin.
Qed.

Lemma fieldIn_put fields k c k' :
  fieldIn (putIn k c fields) k' = if bool_decide (k = k') then match fieldIn fields k with Some _ => Some c | None => None end else fieldIn fields k'.
Proof.
  induction fields as [|[k0 c0] r IH]; cbn; [by case_bool_decide|].
  destruct (decide (k0 = k)) as [->|Hne].
  - rewrite (bool_decide_eq_true_2 (k = k)) by done. cbn. by destruct (bool_decide (k = k')).
  - rewrite (bool_decide_eq_false_2 (k0 = k)) by done. cbn. rewrite IH.
    destruct (decide (k0 = k')) as [->|Hne'].
    + rewrite (bool_decide_eq_true_2 (k' = k')), (bool_decide_eq_false_2 (k = k')) by congruence. done.
    + by rewrite (bool_decide_eq_false_2 (k0 = k')) by done.
Qed.

Lemma put_names k c fields : (putIn k c fields).*1 = fields.*1.
Proof. induction fields as [|[k0 c0] r IH]; cbn; [done|]. case_bool_decide; cbn; by rewrite ?IH. Qed.

Lemma shape_put k c c' fields :
  fieldIn fields k = Some c -> shape c' = shape c -> shapeFields (putIn k c' fields) = shapeFields fields.
Proof.
  intros Hf Hs. induction fields as [|[k0 c0] r IH]; cbn in *; [done|].
  case_bool_decide; cbn in *; [by simplify_eq; rewrite Hs|]. f_equal. by apply IH.
Qed.

Lemma putChild_fields k c v : rv_fields (putChild k c v) = putIn k c (rv_fields v).
Proof. by destruct v. Qed.

Lemma childOf_put k c v k' :
  childOf (putChild k c v) k' = if bool_decide (k = k') then match childOf v k with Some _ => Some c | None => None end else childOf v k'.
Proof. unfold childOf. rewrite putChild_fields. apply fieldIn_put. Qed.

(** Two nodes with the same place in their parent. *)
Definition samePlace (v w : requestValue) : Prop :=
  rv_start v = rv_start w /\ rv_end v = rv_end w /\ rv_parentGeneration v = rv_parentGeneration w.

(** The offsets of the values: a child that says it stands where a member of its name has its
    value knows the length of that value. *)
Fixpoint placed (members : cmembers) (offset : nat) (name : bytes) (c : requestValue) : Prop :=
  match members with
  | MNil => True
  | MCons key w1 w2 v after next rest =>
      let start := (offset + length (quoted key) + length w1 + 1 + length w2)%nat in
      (memberName key = Some name -> rv_start c = start -> (start < rv_end c)%nat -> rv_end c = (start + length (render v))%nat)
      /\ placed rest (start + length (render v) + length after + match rest with MNil => 0 | _ => 1 + length next end) name c
  end.

Lemma placed_absent ms name c off : lookupLast ms name = None -> placed ms off name c.
Proof.
  revert off. induction ms as [|key w1 w2 v after next rest IH]; intros off; cbn; [done|].
  destruct (lookupLast rest name) eqn:E; [done|]. case_bool_decide; [done|]. intros _. split; [done|]. by apply IH.
Qed.

Lemma placed_same ms off name c c' : samePlace c c' -> placed ms off name c -> placed ms off name c'.
Proof.
  intros (E1 & E2 & _). revert off. induction ms; intros off; cbn; [done|]. rewrite <- E1, <- E2. intros [? ?]; split; auto.
Qed.

(** A child that stands before the members is not concerned by them. *)
Lemma placed_before ms off name c : (rv_start c < off)%nat -> placed ms off name c.
Proof. revert off. induction ms; intros off Hlt; cbn; [done|]. split; [lia|]. apply IHms. lia. Qed.

Lemma placed_empty ms off name c : (rv_end c <= rv_start c)%nat -> placed ms off name c.
Proof. intros Hle. revert off. induction ms; intros off; cbn; [done|]. split; [lia|auto]. Qed.

(** ** The invariant of a node *)

Definition memberOk (v : requestValue) (lead : bytes) (ms : cmembers) (name : bytes) (c : requestValue) : Prop :=
  match lookupLast ms name with
  | Some w => isCurrent v c = true /\ (rv_dirty c = false -> rv_raw c = Some (render w))
  | None => isCurrent v c = true -> rv_dirty c = false -> rv_raw c = None
  end
  /\ (isCurrent v c = true -> placed ms (S (length lead)) name c)
  /\ (isCurrent v c = true -> rv_raw c <> None -> utf8Valid name = true).

Record tree (v : requestValue) : Prop := {
  tree_names : NoDup (rv_fields v).*1;
  tree_gen : forall k c, childOf v k = Some c -> (rv_parentGeneration c <= rv_generation v)%nat
}.

Definition holdsObject (v : requestValue) : Prop :=
  exists lead ms, rv_raw v = Some (render (CObject lead ms)) /\ wellFormed (CObject lead ms)
    /\ forall k c, childOf v k = Some c -> memberOk v lead ms k c.

Record node (v : requestValue) : Prop := {
  node_tree : tree v;
  node_raw : forall b, rv_raw v = Some b -> exists c, b = render c /\ wellFormed c;
  node_loaded : rv_loaded v = true -> holdsObject v
}.

(** An untouched node has no touched children. *)
Definition quiet (v : requestValue) : Prop :=
  rv_loaded v = true -> rv_dirty v = false -> forall k c, childOf v k = Some c -> isCurrent v c = true -> rv_dirty c = false.

Fixpoint good (v : requestValue) : Prop :=
  let '(RV _ fields _ _ _ _ _ _) := v in
  node v /\ quiet v /\ fold_right (fun f P => good f.2 /\ P) True fields.

Definition goodChildren (v : requestValue) : Prop := forall k c, childOf v k = Some c -> good c.

Lemma good_spec v : good v <-> node v /\ quiet v /\ forall k c, (k, c) ∈ rv_fields v -> good c.
Proof.
  destruct v as [raw fields l d s e g pg]. cbn [good rv_fields]. apply and_iff_compat_l, and_iff_compat_l.
  induction fields as [|[k c] r IH]; cbn.
  - split; [|done]. by intros _ k c ?%elem_of_nil.
  - rewrite IH. split.
    + intros [Hc Hr] k' c' [[= -> ->]|?]%elem_of_cons; eauto.
    + intros Ha. split; [apply (Ha k); by left|]. intros k' c' Hin. apply (Ha k'). by right.
Qed.

Lemma good_children v : good v -> goodChildren v.
Proof. intros (_ & _ & Hc)%good_spec k c Hf. by eapply Hc, fieldIn_elem. Qed.

Lemma good_intro v : node v -> quiet v -> goodChildren v -> good v.
Proof.
  intros Hn Hq Hc. apply good_spec. split_and!; [done..|]. intros k c Hin. apply (Hc k).
  apply elem_fieldIn; [|done]. apply (tree_names _ (node_tree _ Hn)).
Qed.

(** * Scanning *)

Context `{SL : !StringCodecLaws} `{JL : !JsonScannerLaws}.

Lemma trimBlanks_app w r : blanks w -> stops isBlank r -> trimBlanks (w ++ r) = r.
Proof. intros Hw Hr. unfold trimBlanks. by rewrite spanOf_app. Qed.

(** What stands behind the value of a member. *)
Definition behind (after next : bytes) (rest : cmembers) (tail : bytes) : bytes :=
  after ++ match rest with MNil => [] | _ => ","%char :: next ++ renderMembers rest end ++ "}"%char :: tail.
Definition memberText (key w1 w2 : bytes) (v : cst) : bytes := quoted key ++ w1 ++ ":"%char :: w2 ++ render v.

Lemma behind_ends after next rest tail : blanks after -> endsValue (behind after next rest tail).
Proof.
  intros Ha. unfold behind. destruct after as [|c after]; cbn in *; [destruct rest; cbn; auto|].
  apply andb_true_iff in Ha as [Ha _]. by left.
Qed.

Lemma render_members key w1 w2 v after next rest tail :
  renderMembers (MCons key w1 w2 v after next rest) ++ "}"%char :: tail
  = quoted key ++ w1 ++ ":"%char :: w2 ++ render v ++ behind after next rest tail.
Proof. unfold behind. cbn. destruct rest; by repeat (rewrite <- !app_assoc; cbn). Qed.

(** One member of the loop, when the end of its value is right. *)
Lemma eachLoop_member n discover v v1 body key name w1 w2 w after next rest tail :
  wellFormedMembers (MCons key w1 w2 w after next rest) -> memberName key = Some name ->
  memberValue (eachLoop n) discover v name (length body - length (render w ++ behind after next rest tail)) (render w ++ behind after next rest tail)
    = Ok (length (render w), v1) ->
  eachLoop (S n) discover v body (renderMembers (MCons key w1 w2 w after next rest) ++ "}"%char :: tail)
  = try! (e, v2, members) := eachLoop n discover v1 body (renderMembers rest ++ "}"%char :: tail) in
    Ok (e, v2, (name, memberText key w1 w2 w) :: members).
Proof.
  intros (Hk & H1 & H2 & Hw & Ha & Hx & Hl & Hr) Hname Hval. rewrite render_members.
  cbn [eachLoop]. change (quoted key ++ ?x) with (dquote :: (key ++ [dquote]) ++ x). cbn [app]. 
  change (Ascii.eqb dquote "}") with false. cbv iota.
  change (dquote :: (key ++ [dquote]) ++ ?x) with (quoted key ++ x). rewrite jsonGet_string by done. rewrite Hname.
  rewrite drop_app_length, trimBlanks_app by done.
  destruct (render_head w Hw) as (c & x & Ec & Hb & _).
  rewrite trimBlanks_app; [|done|by rewrite Ec]. cbv zeta. rewrite Hval.
  rewrite drop_app_length. unfold behind at 1. rewrite trimBlanks_app; [|done|by destruct rest].
  assert (take (length (quoted key ++ w1 ++ ":"%char :: w2 ++ render w ++ behind after next rest tail)
            - length (render w ++ behind after next rest tail) + length (render w))
            (quoted key ++ w1 ++ ":"%char :: w2 ++ render w ++ behind after next rest tail) = memberText key w1 w2 w) as ->.
  { unfold memberText. replace (quoted key ++ w1 ++ ":"%char :: w2 ++ render w ++ behind after next rest tail)
      with ((quoted key ++ w1 ++ ":"%char :: w2 ++ render w) ++ behind after next rest tail)
      by (by repeat (rewrite <- !app_assoc; cbn)).
    rewrite take_app_length'; [done|]. rewrite !length_app. cbn. rewrite !length_app. lia. }
  destruct rest as [|k' x1 x2 w' a' n' r']; [done|]. cbn [app].
  change (Ascii.eqb "," ",") with true. cbv iota. rewrite <- app_assoc. by rewrite trimBlanks_app.
Qed.

Lemma start_of (body : bytes) (off : nat) key w1 w2 w after next rest tail :
  length body = (off + length (renderMembers (MCons key w1 w2 w after next rest) ++ "}"%char :: tail))%nat ->
  (length body - length (render w ++ behind after next rest tail) = off + length (quoted key) + length w1 + 1 + length w2)%nat
  /\ (length body = off + length (quoted key) + length w1 + 1 + length w2 + length (render w) + length after
        + match rest with MNil => 0 | _ => 1 + length next end + length (renderMembers rest ++ "}"%char :: tail))%nat.
Proof.
  rewrite render_members. unfold behind. destruct rest as [|k' x1 x2 w' a' n' r'].
  - repeat (rewrite ?length_app; cbn [length app renderMembers]). lia.
  - generalize (renderMembers (MCons k' x1 x2 w' a' n' r')). intros text. repeat (rewrite ?length_app; cbn [length app]). lia.
Qed.

(** The members as [visit] sees them. *)
Fixpoint visited (ms : cmembers) : list (bytes * bytes) :=
  match ms with
  | MNil => []
  | MCons key w1 w2 v _ _ rest =>
      match memberName key with Some name => [(name, memberText key w1 w2 v)] | None => [] end ++ visited rest
  end.

Lemma visit_loop ms : wellFormedMembers ms -> forall n v (body : bytes) (off : nat) tail,
  length body = (off + length (renderMembers ms ++ "}"%char :: tail))%nat -> (S (msize ms) <= n)%nat ->
  (forall k c, childOf v k = Some c -> isCurrent v c = true -> placed ms off k c) ->
  exists e, eachLoop n false v body (renderMembers ms ++ "}"%char :: tail) = Ok (e, v, visited ms).
Proof.
  induction ms as [|key w1 w2 w after next rest IH]; intros Hw n v body off tail Hlen Hn Hp;
    (destruct n as [|n]; [lia|]); [by eexists|].
  pose proof Hw as (Hk & _ & _ & Hv & Ha & _ & _ & Hr). destruct (memberName_total key Hk) as [name Hname].
  destruct (start_of _ _ _ _ _ _ _ _ _ _ Hlen) as [Hs Hlen'].
  destruct (jsonGet_value w (behind after next rest tail) Hv (behind_ends _ _ _ _ Ha)) as [text Hget].
  rewrite (eachLoop_member _ _ _ v _ _ name); [|done|done|].
  - destruct (IH Hr n v body _ tail Hlen') as [e He]; [cbn in Hn; lia| |].
    + intros k c Hc Hcur. by destruct (Hp k c Hc Hcur).
    + rewrite He. cbn. rewrite Hname. by eexists.
  - rewrite Hs. unfold memberValue. cbn [andb negb]. destruct (childOf v name) as [c|] eqn:Ec; [|by rewrite Hget].
    destruct (isCurrent v c) eqn:Ecur; cbn [andb]; [|by rewrite Hget].
    destruct (Nat.eqb_spec (rv_start c) (off + length (quoted key) + length w1 + 1 + length w2)) as [E|]; cbn [andb]; [|by rewrite Hget].
    destruct (Nat.ltb_spec (off + length (quoted key) + length w1 + 1 + length w2) (rv_end c)) as [Hlt|]; [|by rewrite Hget].
    destruct (Hp name c Ec Ecur) as [Hfirst _]. rewrite (Hfirst Hname E Hlt). repeat f_equal. lia.
Qed.

(** ** What a scan establishes *)

Definition rescanned (g : nat) (ms : cmembers) (off : nat) (fs fs' : list (bytes * requestValue)) : Prop :=
  forall k, match fieldIn fs k with
  | None => fieldIn fs' k = None
  | Some c => exists c', fieldIn fs' k = Some c' /\ good c' /\
      match lookupLast ms k with
      | None => c' = c
      | Some w =>
          rv_parentGeneration c' = g /\ rv_dirty c' = false /\ rv_raw c' = Some (render w) /\ (off <= rv_start c')%nat /\ placed ms off k c'
      end
  end.

Definition scanned (v : requestValue) (w : cst) (v' : requestValue) : Prop :=
  node v' /\ goodChildren v' /\ shape v' = shape v /\ samePlace v v' /\ rv_dirty v' = rv_dirty v /\ rv_loaded v' = true
  /\ rv_raw v' = Some (render w) /\ (forall k c, childOf v' k = Some c -> isCurrent v' c = true -> rv_dirty c = false).

Lemma node_place v s e pg : node v -> node (placeAt s e pg v).
Proof. destruct v. intros [[? ?] ? ?]; split; try done. Qed.

Lemma good_place v s e pg : good v -> good (placeAt s e pg v).
Proof.
  intros (Hn & Hq & Hc)%good_spec. apply good_spec. split; [by apply node_place|]. by destruct v.
Qed.

Lemma foundAt_place raw s e pg v : rv_raw v = Some raw -> foundAt raw s e pg v = placeAt s e pg v.
Proof. destruct v; cbn. by intros ->. Qed.

(** A node that only refers to its text. *)
Lemma good_reset v raw : good v -> (forall b, raw = Some b -> exists c, b = render c /\ wellFormed c) -> good (reset raw v).
Proof.
  intros ([Ht _ _] & _ & Hc)%good_spec Hraw. apply good_spec. destruct v; cbn in *. split_and!; [|done|done].
  split; [|done|done]. destruct Ht as [? ?]. by split.
Qed.

Lemma shape_reset raw v : shape (reset raw v) = shape v.
Proof. by destruct v. Qed.
Lemma shape_place s e pg v : shape (placeAt s e pg v) = shape v.
Proof. by destruct v. Qed.
Lemma shape_found raw s e pg v : shape (foundAt raw s e pg v) = shape v.
Proof. by destruct v. Qed.
Lemma shape_dirty d v : shape (withDirty d v) = shape v.
Proof. by destruct v. Qed.

Lemma headIs_render w r : wellFormed w -> headIs "{" (render w ++ r) = true -> exists lead ms, w = CObject lead ms.
Proof.
  destruct w as [t|t|lead its|lead ms]; intros Hw; cbn; [|done|done|by eexists _, _].
  apply token_head in Hw as (c & t' & -> & Hc). cbn. destruct (Ascii.eqb_spec c "{") as [->|]; done.
Qed.

Definition scansObject (w : cst) : Prop := wellFormed w -> forall n v r,
  (exists lead ms, w = CObject lead ms) -> (csize w <= n)%nat -> tree v -> goodChildren v ->
  exists v', scanWith (eachLoop n) v (render w ++ r) = Ok (length (render w), v') /\ scanned v w v'.

Definition scansMembers (ms : cmembers) : Prop := wellFormedMembers ms -> forall n v (body : bytes) (off : nat) tail,
  length body = (off + length (renderMembers ms ++ "}"%char :: tail))%nat -> (S (msize ms) <= n)%nat -> goodChildren v ->
  exists fs' members, eachLoop n true v body (renderMembers ms ++ "}"%char :: tail)
      = Ok ((off + length (renderMembers ms) + 1)%nat, withFields fs' v, members)
    /\ fs'.*1 = (rv_fields v).*1 /\ shapeFields fs' = shapeFields (rv_fields v) /\ rescanned (rv_generation v) ms off (rv_fields v) fs'.

(** A child found at a value: untouched, with the text of the value. *)
Definition foundChild (g start : nat) (w : cst) (c c1 : requestValue) : Prop :=
  good c1 /\ shape c1 = shape c /\ rv_parentGeneration c1 = g /\ rv_dirty c1 = false /\ rv_raw c1 = Some (render w)
  /\ rv_start c1 = start /\ rv_end c1 = (start + length (render w))%nat.

Lemma foundChild_plain g start w c : good c -> wellFormed w ->
  foundChild g start w c (foundAt (render w) start (start + length (render w)) g (reset None c)).
Proof.
  intros Hc Hw. unfold foundChild. split_and!; [|by rewrite shape_found, shape_reset|by destruct c..].
  assert (foundAt (render w) start (start + length (render w)) g (reset None c)
    = placeAt start (start + length (render w)) g (reset (Some (render w)) c)) as -> by (by destruct c).
  apply good_place, good_reset; [done|]. intros b [= <-]. by eexists.
Qed.

(** The child after its member has been found. *)
Lemma memberValue_discover n v name start w r :
  scansObject w -> wellFormed w -> endsValue r -> (csize w <= n)%nat -> goodChildren v ->
  exists v1, memberValue (eachLoop n) true v name start (render w ++ r) = Ok (length (render w), v1)
    /\ match childOf v name with
       | None => v1 = v
       | Some c => exists c1, v1 = putChild name c1 v /\ foundChild (rv_generation v) start w c c1
       end.
Proof.
  intros IH Hw Hr Hn Hg. unfold memberValue. destruct (jsonGet_value w r Hw Hr) as [text Hget].
  destruct (childOf v name) as [c|] eqn:Ec; [|rewrite Hget; by eexists]. cbn [andb negb].
  rewrite bool_decide_eq_false_2.
  2: { destruct (render_head w Hw) as (x & y & -> & _). done. }
  pose proof (Hg _ _ Ec) as Hgood. destruct (headIs "{" (render w ++ r)) eqn:Eh; cbn [andb].
  - destruct (headIs_render _ _ Hw Eh) as (lead & ms & Ew). case_bool_decide; cbn [negb].
    + rewrite Hget, take_app_length. eexists. split; [done|]. eexists. split; [done|]. by apply foundChild_plain.
    + destruct (IH Hw n (reset None c) r) as (c1 & -> & Hnode & Hch & Hshape & _ & Hd & Hl & Hraw & Hq).
      * by eexists _, _.
      * done.
      * apply good_spec in Hgood as ([[Ht1 Ht2] _ _] & _). destruct c. by split.
      * intros k c0 Hc0. apply (good_children _ Hgood k). by destruct c.
      * eexists. split; [done|]. eexists. split; [done|]. rewrite take_app_length, foundAt_place by done.
        split_and!; [|by rewrite shape_place, Hshape, shape_reset|destruct c1; cbn in *; try done..].
        -- apply good_place, good_intro; [done| |done]. intros _ _. exact Hq.
        -- by destruct c.
  - rewrite Hget, take_app_length. eexists. split; [done|]. eexists. split; [done|]. by apply foundChild_plain.
Qed.

Lemma withFields_id v : withFields (rv_fields v) v = v.
Proof. by destruct v. Qed.

Lemma rescanned_skip g key w1 w2 w after next rest off off' name fs fs' :
  memberName key = Some name -> fieldIn fs name = None ->
  off' = (off + length (quoted key) + length w1 + 1 + length w2 + length (render w) + length after + match rest with MNil => 0 | _ => 1 + length next end)%nat ->
  rescanned g rest off' fs fs' -> rescanned g (MCons key w1 w2 w after next rest) off fs fs'.
Proof.
  intros Hname Hno -> Hr k. specialize (Hr k). destruct (fieldIn fs k) as [c|] eqn:Ek; [|done].
  assert (memberName key <> Some k) as Hk by (intros E; rewrite Hname in E; congruence).
  destruct Hr as (c' & Hc' & Hg & Hm). exists c'. split_and!; [done..|]. cbn [placed lookupLast].
  rewrite (bool_decide_eq_false_2 (memberName key = Some k)) by done.
  destruct (lookupLast rest k) as [w'|]; [|done].
  destruct Hm as (? & ? & ? & ? & ?). split_and!; try done. lia.
Qed.

Lemma rescanned_found g key w1 w2 w after next rest off off' name v c c1 fs' :
  memberName key = Some name -> childOf v name = Some c -> foundChild g (off + length (quoted key) + length w1 + 1 + length w2) w c c1 ->
  off' = (off + length (quoted key) + length w1 + 1 + length w2 + length (render w) + length after + match rest with MNil => 0 | _ => 1 + length next end)%nat ->
  (0 < length (render w))%nat ->
  rescanned g rest off' (rv_fields (putChild name c1 v)) fs' -> rescanned g (MCons key w1 w2 w after next rest) off (rv_fields v) fs'.
Proof.
  intros Hname Hc (Hg1 & _ & Hpg & Hd & Hraw & Hs & He) -> Hpos Hr k. specialize (Hr k).
  rewrite putChild_fields, fieldIn_put in Hr. unfold childOf in Hc. destruct (decide (name = k)) as [<-|Hne].
  - rewrite bool_decide_eq_true_2, Hc in Hr by done. rewrite Hc. destruct Hr as (c' & Hc' & Hg & Hm). exists c'.
    split_and!; [done..|]. cbn [placed lookupLast]. rewrite (bool_decide_eq_true_2 (memberName key = Some name)) by done.
    destruct (lookupLast rest name) as [w'|] eqn:El.
    + destruct Hm as (? & ? & ? & ? & ?). split_and!; try done; intros; lia.
    + subst c'. split_and!; try done; [lia|]. by apply placed_absent.
  - rewrite bool_decide_eq_false_2 in Hr by done. destruct (fieldIn (rv_fields v) k) as [c0|] eqn:Ek; [|done].
    assert (memberName key <> Some k) as Hk by (intros E; rewrite Hname in E; congruence).
    destruct Hr as (c' & Hc' & Hg & Hm). exists c'. split_and!; [done..|]. cbn [placed lookupLast].
    rewrite (bool_decide_eq_false_2 (memberName key = Some k)) by done.
    destruct (lookupLast rest k) as [w'|]; [|done].
    destruct Hm as (? & ? & ? & ? & ?). split_and!; try done. lia.
Qed.

Lemma scan_member key w1 w2 w after next rest :
  scansObject w -> scansMembers rest -> scansMembers (MCons key w1 w2 w after next rest).
Proof.
  intros IHw IHr Hw n v body off tail Hlen Hn Hg. destruct n as [|n]; [lia|].
  pose proof Hw as (Hk & _ & _ & Hv & Ha & _ & _ & Hr). destruct (memberName_total key Hk) as [name Hname].
  destruct (start_of _ _ _ _ _ _ _ _ _ _ Hlen) as [Hs Hlen']. cbn in Hn.
  destruct (memberValue_discover n v name (off + length (quoted key) + length w1 + 1 + length w2) w (behind after next rest tail))
    as (v1 & Hval & Hv1); [done|done|by apply behind_ends|lia|done|].
  rewrite (eachLoop_member _ _ _ v1 _ _ name); [|done|done|by rewrite Hs].
  assert (0 < length (render w))%nat as Hpos. { destruct (render_head w Hv) as (x & y & -> & _). cbn. lia. }
  destruct (IHr Hr n v1 body _ tail Hlen') as (fs' & members & -> & Hnames & Hshape & Hres); [lia| |].
  { destruct (childOf v name) as [c|] eqn:Ec; [|by subst]. destruct Hv1 as (c1 & -> & Hc1). intros k c0.
    rewrite childOf_put. case_bool_decide; [|apply Hg]. rewrite Ec. intros [= <-]. by destruct Hc1. }
  exists fs', ((name, memberText key w1 w2 w) :: members).
  assert (length (renderMembers (MCons key w1 w2 w after next rest)) = length (quoted key) + length w1 + 1 + length w2 + length (render w)
     + length after + match rest with MNil => 0 | _ => 1 + length next end + length (renderMembers rest))%nat as Hl.
  { rewrite Hlen' in Hlen. rewrite !length_app in Hlen. cbn [length] in Hlen. lia. }
  destruct (childOf v name) as [c|] eqn:Ec.
  - destruct Hv1 as (c1 & -> & Hc1). rewrite putChild_fields in Hnames, Hshape. split_and!.
    + rewrite Hl. match goal with |- Ok (?a, _, _) = Ok (?b, _, _) => replace a with b by lia end. by destruct v.
    + by rewrite Hnames, put_names.
    + rewrite Hshape. eapply shape_put; [exact Ec|]. by destruct Hc1 as (_ & ? & _).
    + eapply rescanned_found; [done|done|exact Hc1|done|done|]. by destruct v.
  - subst v1. split_and!; [|done|done|by eapply rescanned_skip].
    rewrite Hl. match goal with |- Ok (?a, _, _) = Ok (?b, _, _) => by replace a with b by lia end.
Qed.

Lemma lookupLast_utf8 ms name w : wellFormedMembers ms -> lookupLast ms name = Some w -> utf8Valid name = true /\ wellFormed w.
Proof.
  induction ms as [|key w1 w2 v after next rest IH]; [done|]. intros (Hk & _ & _ & Hv & _ & _ & _ & Hr). cbn.
  destruct (lookupLast rest name); [intros [= ->]; by apply IH|]. case_bool_decide; [|done]. intros [= <-].
  split; [|done]. by eapply memberName_utf8.
Qed.

Lemma scan_object lead ms : scansMembers ms -> scansObject (CObject lead ms).
Proof.
  intros IH [Hl Hm] n v r _ Hn [Ht1 Ht2] Hg. cbn [render]. cbn [app].
  assert (stops isBlank (renderMembers ms ++ "}"%char :: r)) as Hstop by (by destruct ms).
  unfold scanWith. replace ((lead ++ renderMembers ms ++ ["}"%char]) ++ r) with (lead ++ renderMembers ms ++ "}"%char :: r)
    by (by rewrite <- !app_assoc).
  rewrite trimBlanks_app by done. cbn in Hn.
  destruct (IH Hm n (nextGeneration v) ("{"%char :: lead ++ renderMembers ms ++ "}"%char :: r) (S (length lead)) r)
    as (fs' & members & -> & Hnames & Hshape & Hres); [cbn; rewrite length_app; lia|lia|by destruct v|].
  set (text := "{"%char :: lead ++ renderMembers ms ++ ["}"%char]).
  assert (length text = S (length lead) + length (renderMembers ms) + 1)%nat as Hlen.
  { unfold text. cbn. rewrite !length_app. cbn. lia. }
  replace ("{"%char :: lead ++ renderMembers ms ++ "}"%char :: r) with (text ++ r) by (unfold text; cbn; by rewrite <- !app_assoc).
  rewrite <- Hlen, take_app_length. eexists. split; [done|].
  assert (forall k c, fieldIn fs' k = Some c -> good c /\ memberOk (withLoaded text (withFields fs' (nextGeneration v))) lead ms k c
    /\ (rv_parentGeneration c <= S (rv_generation v))%nat /\ (rv_parentGeneration c = S (rv_generation v) -> rv_dirty c = false)) as Hall.
  { intros k c Hc. specialize (Hres k). assert (rv_fields (nextGeneration v) = rv_fields v) as Ef by (by destruct v).
    assert (rv_generation (nextGeneration v) = S (rv_generation v)) as Eg by (by destruct v).
    rewrite Ef, Eg in Hres. destruct (fieldIn (rv_fields v) k) as [c0|] eqn:E0; [|congruence].
    destruct Hres as (c' & Hc' & Hgood & Hm'). rewrite Hc in Hc'. injection Hc' as <-. split; [done|].
    assert (isCurrent (withLoaded text (withFields fs' (nextGeneration v))) c = (rv_parentGeneration c =? S (rv_generation v))%nat) as Hcur
      by (by destruct v).
    unfold memberOk. rewrite Hcur. destruct (lookupLast ms k) as [w|] eqn:El.
    - destruct Hm' as (Hpg & Hd & Hraw & _ & Hp). rewrite Hpg, Nat.eqb_refl. split_and!; try done; try lia.
      intros _ _. by destruct (lookupLast_utf8 _ _ _ Hm El).
    - subst c. pose proof (Ht2 _ _ E0) as Hle. rewrite (proj2 (Nat.eqb_neq _ _)) by lia. split_and!; try done; lia. }
  unfold scanned. destruct v as [raw fs l d s e g pg]. cbn in Hnames, Hshape, Ht1 |- *. split_and!; try done.
  - split; cbn; [split; cbn; [by rewrite Hnames|]| |].
    + intros k c Hc. by apply (Hall k).
    + intros b [= <-]. by exists (CObject lead ms).
    + intros _. exists lead, ms. split_and!; try done. intros k c Hc. by apply (Hall k).
  - intros k c Hc. by apply (Hall k).
  - by f_equal.
  - intros k c Hc Hcur. unfold isCurrent in Hcur. cbn in Hcur. apply Nat.eqb_eq in Hcur. by apply (Hall k).
Qed.

Lemma scan_members_nil : scansMembers MNil.
Proof.
  intros _ n v body off tail Hlen Hn Hg. destruct n as [|n]; [lia|]. exists (rv_fields v), []. cbn in Hlen |- *.
  rewrite withFields_id. split_and!; [|done|done|].
  - match goal with |- Ok (?a, _, _) = Ok (?b, _, _) => by replace a with b by lia end.
  - intros k. destruct (fieldIn (rv_fields v) k) as [c|] eqn:E; [|done]. exists c. split_and!; [done|by apply (Hg k)|done].
Qed.

Lemma scan_ok : (forall w, scansObject w) /\ (forall its : citems, True) /\ (forall ms, scansMembers ms).
Proof.
  apply cst_mutind; try done.
  - intros t _ n v r (lead & ms & E). done.
  - intros t _ n v r (lead & ms & E). done.
  - intros lead its _ _ n v r (lead' & ms & E). done.
  - apply scan_object.
  - apply scan_members_nil.
  - intros key w1 w2 w IHw after next rest IHr. by apply scan_member.
Qed.

End Nodes.
