(* ===== verification/OverrideProps.v ===== *)
(** The editor of [Override] does what the plain description of the rules says: for every valid
    body and every compiled rules, whatever their number, order and overlap, the text it writes
    means the body with the paths removed and the objects merged, rule after rule, and nothing
    else of the document changes, down to its bytes. *)
From Stdlib Require Import Ascii.
From S2P Require Import Prelude GoStrings Execution JsonText Override OverrideNodes.

Local Open Scope Z_scope.
Local Open Scope go_scope.

(** * The reference: editing the meaning of a document *)

Section Reference.
Context `{StringCodec}.

Definition removeAt (path : list bytes) (d : meaning) : meaning :=
  fun q => if bool_decide (path `prefix_of` q) then None else d q.

(** Objects are merged field by field; anything else is replaced. *)
Fixpoint mergeAt (j : json) (d : meaning) (q : list bytes) {struct q} : option view :=
  match q with
  | [] => denJson j []
  | name :: q' =>
      match j with
      | JObject fields =>
          if bool_decide (d [] = Some VObject) then
            match jlookup fields name with
            | Some item => mergeAt item (fun r => d (name :: r)) q'
            | None => d q
            end
          else denJson j q
      | _ => denJson j q
      end
  end.

Definition applyRule (entry : rule) (d : meaning) : meaning :=
  mergeAt (JObject (ru_set entry)) (foldl (fun d path => removeAt path d) d (ru_remove entry)).
Definition applyRules (rules : list rule) (d : meaning) : meaning := foldl (fun d entry => applyRule entry d) d rules.

End Reference.

Section Editing.
Context `{SC : StringCodec} `{JS : JsonScanner} `{SL : !StringCodecLaws} `{JL : !JsonScannerLaws}.

(** * What a node stands for

    An edited object means its text with the touched children in place of their members. *)

Fixpoint valueOf (v : requestValue) (p : list bytes) {struct p} : option view :=
  match rv_raw v with
  | None => None
  | Some b =>
      if rv_dirty v && rv_loaded v then
        match p with
        | [] => Some VObject
        | k :: q =>
            match childOf v k with
            | Some c => if isCurrent v c && rv_dirty c then valueOf c q else denBytes b p
            | None => denBytes b p
            end
        end
      else denBytes b p
  end.

Definition overlay (v : requestValue) (p : list bytes) : option view :=
  match p with
  | [] => Some VObject
  | k :: q =>
      match childOf v k with
      | Some c => if isCurrent v c && rv_dirty c then valueOf c q else denBytes (default [] (rv_raw v)) p
      | None => denBytes (default [] (rv_raw v)) p
      end
  end.

Lemma valueOf_none v p : rv_raw v = None -> valueOf v p = None.
Proof. destruct p; cbn; by intros ->. Qed.

Lemma valueOf_plain v p b : rv_raw v = Some b -> rv_dirty v && rv_loaded v = false -> valueOf v p = denBytes b p.
Proof. destruct p; cbn; by intros -> ->. Qed.

(** Without touched children an object means its text. *)
Lemma overlay_plain v p : holdsObject v ->
  (forall k c, childOf v k = Some c -> isCurrent v c = true -> rv_dirty c = false) -> overlay v p = denBytes (default [] (rv_raw v)) p.
Proof.
  intros (lead & ms & Hraw & Hw & _) Hq. unfold overlay. rewrite Hraw. cbn [from_option id]. destruct p as [|k q].
  - by rewrite denBytes_render.
  - destruct (childOf v k) as [c|] eqn:Ec; [|done]. destruct (isCurrent v c) eqn:Ecur; [|done]. by rewrite (Hq _ _ Ec Ecur).
Qed.

Lemma valueOf_overlay v p : good v -> rv_loaded v = true -> valueOf v p = overlay v p.
Proof.
  intros ([_ _ Hl] & Hq & _)%good_spec Hload. pose proof (Hl Hload) as Hh. destruct (rv_dirty v) eqn:Ed.
  - destruct Hh as (lead & ms & Hraw & _). destruct p; cbn [valueOf]; unfold overlay; rewrite Hraw, Ed, Hload; done.
  - rewrite overlay_plain by (done || by apply Hq). destruct Hh as (lead & ms & Hraw & _).
    rewrite Hraw. eapply valueOf_plain; [done|]. by rewrite Ed.
Qed.

(** An edit keeps the place and the names of a node, and an untouched node keeps its text. *)
Record edited (v v' : requestValue) : Prop := {
  ed_good : good v';
  ed_shape : shape v' = shape v;
  ed_place : samePlace v v';
  ed_dirty : rv_dirty v = true -> rv_dirty v' = true;
  ed_raw : rv_dirty v' = false -> rv_raw v' = rv_raw v
}.

Lemma edited_refl v : good v -> edited v v.
Proof. by split. Qed.

Lemma isObject_spec v b : rv_raw v = Some b -> good v ->
  exists w, b = render w /\ wellFormed w /\ (isObject v = true <-> exists lead ms, w = CObject lead ms).
Proof.
  intros Hraw ([_ Hr _] & _)%good_spec. destruct (Hr _ Hraw) as (w & -> & Hw). exists w. split_and!; [done..|].
  assert (isObject v = headIs "{" (render w)) as ->. { unfold isObject. rewrite Hraw. by destruct (render w). }
  split; [|by intros (lead & ms & ->)]. intros Hh. apply (headIs_render w []); [done|]. by rewrite app_nil_r.
Qed.

(** A value that is no object has nothing below it. *)
Lemma not_object v k q : good v -> isObject v = false -> valueOf v (k :: q) = None /\ valueOf v [] <> Some VObject.
Proof.
  intros Hg Ho. destruct (rv_raw v) as [b|] eqn:Hraw; [|by rewrite !valueOf_none].
  destruct (isObject_spec _ _ Hraw Hg) as (w & -> & Hw & Hobj).
  assert (rv_loaded v = false) as Hl.
  { apply good_spec in Hg as ([_ _ Hl] & _). destruct (rv_loaded v); [|done].
    destruct (Hl eq_refl) as (lead & ms & Hraw' & _). unfold isObject in Ho. by rewrite Hraw' in Ho. }
  rewrite !(valueOf_plain v _ (render w)) by (done || by rewrite Hl, andb_false_r).
  rewrite denBytes_render by done. destruct w; try done. rewrite (proj2 Hobj) in Ho; [done|by eexists _, _].
Qed.

Lemma load_ok v : good v -> isObject v = true ->
  exists v1, load v = Ok v1 /\ good v1 /\ rv_loaded v1 = true /\ shape v1 = shape v /\ samePlace v v1
    /\ rv_dirty v1 = rv_dirty v /\ rv_raw v1 = rv_raw v /\ forall p, overlay v1 p = valueOf v p.
Proof.
  intros Hg Ho. unfold load. destruct (rv_loaded v) eqn:El.
  { exists v. split_and!; try done. intros p. by rewrite valueOf_overlay. }
  destruct (rv_raw v) as [b|] eqn:Hraw; [|unfold isObject in Ho; by rewrite Hraw in Ho].
  destruct (isObject_spec _ _ Hraw Hg) as (w & -> & Hw & Hobj). destruct scan_ok as [Hscan _].
  cbn [from_option id]. unfold scan. destruct csize_render as [Hsize _]. specialize (Hsize w Hw).
  destruct (Hscan w Hw (S (length (render w))) v []) as (v1 & Hs & Hn & Hc & Hsh & Hp & Hd & Hl & Hr & Hq).
  - by apply Hobj.
  - lia.
  - by apply good_spec in Hg as ([Ht _ _] & _).
  - by apply good_children.
  - rewrite app_nil_r in Hs. rewrite Hs. exists v1. split_and!; try done.
    + apply good_intro; [done| |done]. intros _ _. exact Hq.
    + intros p. rewrite overlay_plain; [|by apply node_loaded|done]. rewrite Hr. symmetry. apply valueOf_plain; [done|].
      by rewrite El, andb_false_r.
Qed.

(** ** One child of a loaded object *)

Lemma currentField_ok w k c : node w -> goodChildren w -> rv_loaded w = true -> childOf w k = Some c ->
  exists child, currentField w k = Ok child /\ good child /\ shape child = shape c /\ isCurrent w child = true
    /\ (forall lead ms, rv_raw w = Some (render (CObject lead ms)) -> wellFormed (CObject lead ms) -> memberOk w lead ms k child)
    /\ forall q, valueOf child q = overlay w (k :: q).
Proof.
  intros Hn Hg Hl Hc. pose proof (node_loaded _ Hn Hl) as (lead & ms & Hraw & Hw & Hm). pose proof (Hm _ _ Hc) as Hmem.
  assert (forall lead' ms', Some (render (CObject lead ms)) = Some (render (CObject lead' ms')) -> wellFormed (CObject lead' ms')
    -> lead' = lead /\ ms' = ms) as Huniq.
  { intros lead' ms' E%(inj Some) Hw'. by apply render_inj in E as [= -> ->]. }
  unfold currentField. rewrite Hc. eexists. split; [done|]. cbn [overlay]. rewrite Hc, Hraw. cbn [from_option id].
  rewrite denBytes_render by done. destruct (isCurrent w c) eqn:Ecur.
  - split_and!; [by apply (Hg k)|done|done|intros ? ? E1 E2; by destruct (Huniq _ _ E1 E2) as [-> ->]|].
    intros q. cbn [andb]. destruct (rv_dirty c) eqn:Ed; [done|]. destruct Hmem as [Hmem _]. cbn [den].
    destruct (lookupLast ms k) as [x|] eqn:Ex.
    + destruct Hmem as [_ Hr]. rewrite (valueOf_plain _ _ (render x)) by (by rewrite ?Ed; auto).
      rewrite denBytes_render; [done|]. destruct Hw as [_ Hw]. by destruct (lookupLast_utf8 _ _ _ Hw Ex).
    + apply valueOf_none. by apply Hmem.
  - split_and!.
    + apply good_place, good_reset; [by apply (Hg k)|done].
    + by rewrite shape_place, shape_reset.
    + unfold isCurrent. destruct c. cbn. apply Nat.eqb_refl.
    + intros ? ? E1 E2. destruct (Huniq _ _ E1 E2) as [-> ->]. unfold memberOk. destruct Hmem as [Hmem _].
      destruct (lookupLast ms k); [by destruct Hmem; congruence|].
      split_and!; [by destruct c| |by destruct c]. intros _. apply placed_empty. by destruct c.
    + intros q. cbn [andb]. rewrite valueOf_none by (by destruct c). destruct Hmem as [Hmem _]. cbn [den].
      destruct (lookupLast ms k); [by destruct Hmem; congruence|done].
Qed.

(** An object in the course of an edit: loaded, whatever its own mark says. *)
Record opened (w : requestValue) : Prop := {
  op_node : node w;
  op_children : goodChildren w;
  op_loaded : rv_loaded w = true
}.

Lemma opened_good v : good v -> rv_loaded v = true -> opened v.
Proof. intros Hg Hl. split; [by apply good_spec in Hg as [? _]|by apply good_children|done]. Qed.

Lemma isCurrent_put k c w c' : isCurrent (putChild k c w) c' = isCurrent w c'.
Proof. by destruct w. Qed.

Lemma put_current w k c child c' :
  opened w -> childOf w k = Some c -> currentField w k = Ok child -> edited child c' -> (rv_raw c' <> None -> utf8Valid k = true) ->
  opened (putChild k c' w) /\ shape (putChild k c' w) = shape w
  /\ (forall q, overlay (putChild k c' w) (k :: q) = valueOf c' q)
  /\ (forall k' q, k' <> k -> overlay (putChild k c' w) (k' :: q) = overlay w (k' :: q)).
Proof.
  intros [Hn Hg Hl] Hc Hcf Hed Hutf. destruct (currentField_ok w k c Hn Hg Hl Hc) as (child' & Hcf' & Hgc & Hsh & Hcur & Hmem & _).
  rewrite Hcf in Hcf'. injection Hcf' as <-. pose proof (ed_place _ _ Hed) as (Es & Ee & Epg).
  assert (isCurrent w c' = true) as Hcur'. { unfold isCurrent in *. by rewrite <- Epg. }
  assert (opened (putChild k c' w)) as Hop.
  { pose proof Hn as [[Hnames Hgen] Hraw Hload]. split; [split; [split| |]| |].
    - rewrite putChild_fields. by rewrite put_names.
    - intros k0 c0. rewrite childOf_put. assert (rv_generation (putChild k c' w) = rv_generation w) as -> by (by destruct w).
      case_bool_decide; [|apply Hgen]. rewrite Hc. intros [= <-]. unfold isCurrent in Hcur'. apply Nat.eqb_eq in Hcur'. lia.
    - intros b Hb. apply Hraw. by destruct w.
    - intros _. destruct (Hload Hl) as (lead & ms & Hr & Hw & Hm). exists lead, ms. split_and!; [by destruct w|done|].
      intros k0 c0. rewrite childOf_put. unfold memberOk. rewrite isCurrent_put. case_bool_decide; [|apply Hm].
      subst k0. rewrite Hc. intros [= <-]. destruct (Hmem _ _ Hr Hw) as (Hm1 & Hm2 & _). rewrite Hcur'. split_and!; [| |done].
      + destruct (lookupLast ms k).
        * destruct Hm1 as [_ Hm1]. split; [done|]. intros Hd. rewrite (ed_raw _ _ Hed Hd). apply Hm1.
          destruct (rv_dirty child) eqn:E; [|done]. by rewrite (ed_dirty _ _ Hed) in Hd.
        * intros _ Hd. rewrite (ed_raw _ _ Hed Hd). apply Hm1; [done|].
          destruct (rv_dirty child) eqn:E; [|done]. by rewrite (ed_dirty _ _ Hed) in Hd.
      + intros _. eapply placed_same; [exact (ed_place _ _ Hed)|]. by apply Hm2.
    - intros k0 c0. rewrite childOf_put. case_bool_decide; [|apply Hg]. rewrite Hc. intros [= <-]. apply Hed.
    - by destruct w. }
  split; [done|]. split; [|split].
  - rewrite !shape_fields, putChild_fields. f_equal. eapply shape_put; [exact Hc|]. by rewrite (ed_shape _ _ Hed).
  - intros q. destruct Hop as [Hn' Hg' Hl']. assert (childOf (putChild k c' w) k = Some c') as Hc'.
    { rewrite childOf_put, bool_decide_eq_true_2 by done. by rewrite Hc. }
    destruct (currentField_ok _ k c' Hn' Hg' Hl' Hc') as (x & Hx & _ & _ & _ & _ & Hv). rewrite <- Hv.
    unfold currentField in Hx. rewrite Hc', isCurrent_put, Hcur' in Hx. by injection Hx as <-.
  - intros k' q Hne. unfold overlay. rewrite childOf_put, bool_decide_eq_false_2 by done.
    assert (rv_raw (putChild k c' w) = rv_raw w) as -> by (by destruct w). destruct (childOf w k'); [|done]. by rewrite isCurrent_put.
Qed.

(** Closing an edit: the mark of the object is set when a child is touched. *)
Lemma close_edit w d : opened w -> (d = false -> quiet (withDirty false w)) ->
  good (withDirty d w) /\ forall p, valueOf (withDirty d w) p = overlay w p.
Proof.
  intros [Hn Hg Hl] Hq. assert (good (withDirty d w)) as Hgood.
  { apply good_intro.
    - destruct Hn as [[? ?] ? ?]. destruct w. by repeat split.
    - destruct d; [by destruct w|by apply Hq].
    - intros k c Hc. apply (Hg k). by destruct w. }
  split; [done|]. intros p. rewrite valueOf_overlay; [|done|by destruct w]. by destruct w.
Qed.

(** ** Paths *)

Fixpoint skeletonIn (fields : list (bytes * skeleton)) (key : bytes) : option skeleton :=
  match fields with [] => None | (k, c) :: r => if bool_decide (k = key) then Some c else skeletonIn r key end.
Fixpoint knowsPath (path : list bytes) (s : skeleton) : Prop :=
  match path with
  | [] => True
  | k :: p => let '(Skeleton fields) := s in match skeletonIn fields k with Some c => knowsPath p c | None => False end
  end.

Lemma skeletonIn_shape fields k : skeletonIn (shapeFields fields) k = shape <$> fieldIn fields k.
Proof. induction fields as [|[k' c] r IH]; cbn; [done|]. by case_bool_decide. Qed.

Lemma knowsPath_cons k p v : knowsPath (k :: p) (shape v) <-> exists c, childOf v k = Some c /\ knowsPath p (shape c).
Proof.
  rewrite shape_fields. cbn. rewrite skeletonIn_shape. unfold childOf. destruct (fieldIn (rv_fields v) k) as [c|]; cbn.
  - split; [by eexists|]. by intros (? & [= <-] & ?).
  - split; [done|]. by intros (? & ? & _).
Qed.

Lemma removed_nothing path v q : good v -> isObject v = false -> path <> [] -> valueOf v q = removeAt path (valueOf v) q.
Proof.
  intros Hg Ho Hp. unfold removeAt. case_bool_decide as Hpre; [|done]. destruct path as [|k path]; [done|].
  destruct Hpre as [r ->]. by destruct (not_object v k (path ++ r) Hg Ho).
Qed.

Lemma valueOf_some v : rv_raw v <> None -> good v -> valueOf v [] <> None.
Proof.
  intros Hr Hg. destruct (rv_raw v) as [b|] eqn:E; [|done]. destruct (rv_dirty v && rv_loaded v) eqn:Ed.
  - cbn. by rewrite E, Ed.
  - rewrite (valueOf_plain _ _ b) by done. destruct (isObject_spec _ _ E Hg) as (w & -> & Hw & _). by rewrite denBytes_render.
Qed.

Lemma override_remove_ok path v : path <> [] -> good v -> knowsPath path (shape v) ->
  exists v', remove path v = Ok v' /\ edited v v' /\ forall q, valueOf v' q = removeAt path (valueOf v) q.
Proof.
  revert v. induction path as [|k path IH]; intros v Hp Hg Hk; [done|]. cbn [remove].
  destruct (isObject v) eqn:Ho; cbn [negb].
  2: { exists v. split_and!; [done|by apply edited_refl|]. intros q. by apply removed_nothing. }
  destruct (load_ok v Hg Ho) as (v1 & -> & Hg1 & Hl1 & Hsh1 & Hpl1 & Hd1 & Hr1 & Hov). rewrite <- Hsh1 in Hk.
  apply knowsPath_cons in Hk as (c & Hc & Hk). pose proof (opened_good _ Hg1 Hl1) as Hop.
  destruct (currentField_ok v1 k c) as (child & Hcf & Hgc & Hshc & Hcur & Hmem & Hval); [apply Hop..|done|]. rewrite Hcf.
  assert (exists c', match path with [] => Ok (withDirty true (reset None child)) | _ :: _ => remove path child end = Ok c'
    /\ edited child c' /\ forall q, valueOf c' q = if bool_decide (path `prefix_of` q) then None else valueOf child q) as (c' & -> & Hed & Hval').
  { destruct path as [|k' path'].
    - eexists. split; [done|]. split.
      + split; [|by rewrite shape_dirty, shape_reset|by destruct child..].
        pose proof (good_reset child None Hgc) as Hgr. apply good_spec in Hgr as ([[? ?] ? ?] & Hq & Hch); [|done].
        apply good_spec. split; [|destruct child; by split]. destruct child. by repeat split.
      + intros q. rewrite valueOf_none by (by destruct child). by rewrite bool_decide_eq_true_2 by apply prefix_nil.
    - destruct (IH child) as (c' & -> & Hed & Hv'); [done|done|by rewrite Hshc|]. by exists c'. }
  destruct (put_current v1 k c child c') as (Hop' & Hsh' & Hk1 & Hk2); [done..| |].
  { intros Hraw. pose proof (valueOf_some _ Hraw (ed_good _ _ Hed)) as Hne. rewrite Hval' in Hne.
    destruct (node_loaded _ (op_node _ Hop) Hl1) as (lead & ms & Hr & Hw & _). destruct (Hmem _ _ Hr Hw) as (_ & _ & Hutf).
    apply Hutf; [done|]. intros E. rewrite valueOf_none in Hne by done. by case_bool_decide. }
  destruct (close_edit _ (rv_dirty v1 || rv_dirty c') Hop') as [Hgood Hover].
  { intros Hd. apply orb_false_iff in Hd as [Hd1' Hd']. intros _ _ k0 c0.
    assert (childOf (withDirty false (putChild k c' v1)) k0 = childOf (putChild k c' v1) k0) as -> by (by destruct v1).
    assert (isCurrent (withDirty false (putChild k c' v1)) c0 = isCurrent v1 c0) as -> by (by destruct v1).
    rewrite childOf_put. case_bool_decide; [rewrite Hc; intros [= <-]; done|].
    apply good_spec in Hg1 as (_ & Hq1 & _). by apply Hq1. }
  eexists. split; [done|]. split.
  - split; [done|rewrite shape_dirty; congruence| | |].
    + destruct Hpl1 as (E1 & E2 & E3). unfold samePlace. rewrite E1, E2, E3. by destruct v1.
    + rewrite <- Hd1. intros Hd. rewrite Hd. by destruct v1.
    + intros _. rewrite <- Hr1. by destruct v1.
  - intros q. rewrite Hover. unfold removeAt. destruct q as [|k0 q].
    + rewrite bool_decide_eq_false_2 by (by intros ?%prefix_nil_inv). by rewrite <- Hov.
    + destruct (decide (k0 = k)) as [->|Hne].
      * rewrite Hk1, Hval', Hval, Hov. erewrite bool_decide_ext; [done|]. split; [apply prefix_cons|apply prefix_cons_inv_2].
      * rewrite Hk2, Hov by done. rewrite bool_decide_eq_false_2; [done|]. intros E%prefix_cons_inv_1. congruence.
Qed.

(** ** Merging *)

Fixpoint jsonPath (j : json) (path : list bytes) {struct path} : Prop :=
  match path with
  | [] => True
  | k :: p => match j with JObject fields => match jlookup fields k with Some item => jsonPath item p | None => False end | _ => False end
  end.
Definition knowsJson (j : json) (s : skeleton) : Prop := forall p, jsonPath j p -> knowsPath p s.

Lemma mergeAt_ext j d d' q : (forall p, d p = d' p) -> mergeAt j d q = mergeAt j d' q.
Proof.
  revert j d d'. induction q as [|k q IH]; intros j d d' E; cbn; [done|]. destruct j; try done. rewrite !E.
  case_bool_decide; [|done]. destruct (jlookup fields k); [|done]. by apply IH.
Qed.

Definition mergesTo (j : json) : Prop := decoded j -> forall v, good v -> knowsJson j (shape v) ->
  exists v', merge j v = Ok v' /\ edited v v' /\ (forall q, valueOf v' q = mergeAt j (valueOf v) q).

Lemma merge_replaces j v : decoded j -> good v ->
  edited v (withDirty true (reset (Some (encode false j)) v))
  /\ forall q, valueOf (withDirty true (reset (Some (encode false j)) v)) q = denJson j q.
Proof.
  intros Hj Hg. pose proof (syntaxOf_wellFormed false j Hj) as Hw. split.
  - assert (good (reset (Some (encode false j)) v)) as Hgr.
    { apply good_reset; [done|]. intros b [= <-]. by eexists. }
    apply good_spec in Hgr as ([[? ?] ? ?] & _ & Hch). split; [|by rewrite shape_dirty, shape_reset|by destruct v..].
    apply good_spec. split; [|destruct v; by split]. destruct v. by repeat split.
  - intros q. rewrite (valueOf_plain _ _ (encode false j)) by (by destruct v).
    unfold encode. rewrite denBytes_render by done. by apply den_syntaxOf.
Qed.

(** What an edit leaves alone in an object. *)
Record sameObject (w w' : requestValue) : Prop := {
  so_shape : shape w' = shape w;
  so_place : samePlace w w';
  so_raw : rv_raw w' = rv_raw w;
  so_dirty : rv_dirty w' = rv_dirty w
}.

Lemma sameObject_trans a b c : sameObject a b -> sameObject b c -> sameObject a c.
Proof. intros [? (? & ? & ?) ? ?] [? (? & ? & ?) ? ?]. split; [congruence|split_and!; congruence|congruence|congruence]. Qed.

Lemma mergeFields_ok fields w :
  Forall (fun f => mergesTo f.2) fields -> NoDup fields.*1 -> Forall (fun f => utf8Valid f.1 = true /\ decoded f.2) fields ->
  opened w -> Forall (fun f => exists c, childOf w f.1 = Some c /\ knowsJson f.2 (shape c)) fields ->
  exists w', mergeFields merge fields w = Ok w' /\ opened w' /\ sameObject w w'
    /\ forall k q, overlay w' (k :: q) = match jlookup fields k with
         | Some item => mergeAt item (fun r => overlay w (k :: r)) q
         | None => overlay w (k :: q)
         end.
Proof.
  revert w. induction fields as [|[key item] fields IH]; intros w Hm Hn Hd Hop Hk.
  { exists w. split_and!; try done. }
  apply Forall_cons in Hm as [Hm1 Hm]. apply NoDup_cons in Hn as [Hn1 Hn]. apply Forall_cons in Hd as [[Hu Hd1] Hd].
  apply Forall_cons in Hk as [(c & Hc & Hk1) Hk]. cbn [fst snd] in *.
  destruct (currentField_ok w key c) as (child & Hcf & Hgc & Hshc & _ & _ & Hval); [apply Hop..|done|].
  destruct (Hm1 Hd1 child Hgc) as (c' & Hmer & Hed & Hval'); [by rewrite Hshc|].
  destruct (put_current w key c child c') as (Hop' & Hsh' & Hk1' & Hk2'); [done..|].
  destruct (IH (putChild key c' w)) as (w' & He & Hopw & Hso & Hover); [done..| |].
  { rewrite Forall_forall in *. intros [k0 i0] Hin. destruct (Hk _ Hin) as (c0 & Hc0 & Hk0). exists c0. cbn in *.
    rewrite childOf_put, bool_decide_eq_false_2; [done|]. intros <-. by apply (list_elem_of_fmap_2 fst) in Hin. }
  exists w'. cbn [mergeFields]. rewrite Hcf, Hmer. split_and!; [done|done| |].
  - eapply sameObject_trans; [|exact Hso]. split; [done|by destruct w..].
  - intros k q. rewrite Hover. cbn [jlookup]. destruct (decide (key = k)) as [->|Hne].
    + rewrite (bool_decide_eq_true_2 (k = k)) by done. assert (jlookup fields k = None) as ->.
      { destruct (jlookup fields k) eqn:E; [|done]. apply jlookup_spec in E; [|done]. by apply (list_elem_of_fmap_2 fst) in E. }
      rewrite Hk1', Hval'. apply mergeAt_ext. intros r. by rewrite Hval.
    + rewrite (bool_decide_eq_false_2 (key = k)) by done. rewrite Hk2' by done. destruct (jlookup fields k); [|done].
      apply mergeAt_ext. intros r. by rewrite Hk2'.
Qed.

Lemma merge_ok j : mergesTo j.
Proof.
  induction j as [|b|l|s|items _|fields IH] using json_nested_ind; intros Hj v Hg Hk;
    try (destruct (merge_replaces _ v Hj Hg) as [Hed Hv]; eexists; split_and!; [done|exact Hed|]; intros [|k q]; by rewrite Hv).
  pose proof Hj as Hj'. apply decoded_fields in Hj' as [Hn Hd]. cbn [merge]. destruct (isObject v) eqn:Ho.
  2: { destruct (merge_replaces _ v Hj Hg) as [Hed Hv]. eexists. split_and!; [done|exact Hed|]. intros q. rewrite Hv.
       destruct (not_object v [] [] Hg Ho) as [_ Hne]. destruct q; [done|]. cbn [mergeAt]. by rewrite bool_decide_eq_false_2. }
  destruct (load_ok v Hg Ho) as (v1 & Hload & Hg1 & Hl1 & Hsh1 & Hpl1 & Hd1 & Hr1 & Hov).
  assert (valueOf v [] = Some VObject) as Hroot by (by rewrite <- Hov).
  case_bool_decide as Hlen.
  { exists v. split_and!; [done|by apply edited_refl|]. apply nil_length_inv in Hlen as ->. intros [|k q]; [done|].
    cbn [mergeAt]. by rewrite bool_decide_eq_true_2. }
  rewrite Hload. destruct (mergeFields_ok fields v1 IH Hn Hd) as (w & He & Hop & [Hs Hp Hr Hdw] & Hover).
  { by apply opened_good. }
  { apply Forall_forall. intros [k item] Hin. apply jlookup_spec in Hin; [|done]. cbn.
    assert (forall p, jsonPath item p -> exists c, childOf v1 k = Some c /\ knowsPath p (shape c)) as Hall.
    { intros p Hpath. apply knowsPath_cons. rewrite Hsh1. apply Hk. cbn. by rewrite Hin. }
    destruct (Hall [] I) as (c & Hc & _). exists c. split; [done|]. intros p Hpath. destruct (Hall p Hpath) as (c' & Hc' & ?). congruence. }
  rewrite He. destruct (close_edit w true Hop) as [Hgood Hval]; [done|]. eexists. split_and!; [done| |].
  - split; [done|rewrite shape_dirty; congruence| |by destruct w|by destruct w].
    destruct Hpl1 as (E1 & E2 & E3), Hp as (E4 & E5 & E6). unfold samePlace. rewrite E1, E2, E3, E4, E5, E6. by destruct w.
  - intros [|k q]; rewrite Hval; [done|]. rewrite Hover. cbn [mergeAt]. rewrite bool_decide_eq_true_2 by done.
    destruct (jlookup fields k); [|apply Hov]. apply mergeAt_ext. intros r. apply Hov.
Qed.

(** ** Writing *)

(** Members without the blanks around them. *)
Record entry := mkEntry { en_key : bytes; en_before : bytes; en_after : bytes; en_value : cst }.
Definition entryText (e : entry) : bytes := memberText (en_key e) (en_before e) (en_after e) (en_value e).
Fixpoint membersFrom (l : list entry) : cmembers :=
  match l with [] => MNil | e :: r => MCons (en_key e) (en_before e) (en_after e) (en_value e) [] [] (membersFrom r) end.
Definition entryOk (e : entry) : Prop := isContent (en_key e) /\ blanks (en_before e) /\ blanks (en_after e) /\ wellFormed (en_value e).

Lemma render_entries l : renderMembers (membersFrom l) = joinComma (List.map entryText l).
Proof.
  induction l as [|e r IH]; [done|]. cbn [membersFrom renderMembers List.map joinComma]. rewrite IH.
  destruct r as [|e' r]; cbn; unfold entryText, memberText; by repeat (rewrite <- ?app_assoc, ?app_nil_r; cbn).
Qed.

Lemma wellFormed_entries l : Forall entryOk l -> wellFormedMembers (membersFrom l).
Proof. induction 1 as [|e r (? & ? & ? & ?)]; cbn; [done|]. by split_and!. Qed.

Lemma lookupLast_entries a b k :
  lookupLast (membersFrom (a ++ b)) k = match lookupLast (membersFrom b) k with Some x => Some x | None => lookupLast (membersFrom a) k end.
Proof.
  induction a as [|e a IH]; cbn; [by destruct (lookupLast _ k)|]. rewrite IH. by destruct (lookupLast (membersFrom b) k).
Qed.

(** The members that stay, and the children that are written. *)
Fixpoint kept (v : requestValue) (ms : cmembers) : list entry :=
  match ms with
  | MNil => []
  | MCons key w1 w2 w _ _ rest =>
      match memberName key with
      | Some name => if replaced v name then kept v rest else mkEntry key w1 w2 w :: kept v rest
      | None => kept v rest
      end
  end.

Lemma kept_texts v ms : (List.filter (fun m => negb (replaced v m.1)) (visited ms)).*2 = List.map entryText (kept v ms).
Proof.
  induction ms as [|key w1 w2 w after next rest IH]; [done|]. cbn. destruct (memberName key) as [name|]; [|done]. cbn.
  destruct (replaced v name); cbn; by rewrite IH.
Qed.

Lemma kept_ok v ms : wellFormedMembers ms -> Forall entryOk (kept v ms)
  /\ forall k, lookupLast (membersFrom (kept v ms)) k = if replaced v k then None else lookupLast ms k.
Proof.
  induction ms as [|key w1 w2 w after next rest IH]; [intros _; split; [constructor|intros k; by destruct (replaced v k)]|].
  intros (Hk & H1 & H2 & Hw & _ & _ & _ & Hr). destruct (IH Hr) as [IHo IHl]. cbn.
  destruct (memberName_total key Hk) as [name Hname]. rewrite Hname. split.
  - destruct (replaced v name); [done|]. by constructor.
  - intros k. destruct (decide (name = k)) as [->|Hne].
    + rewrite (bool_decide_eq_true_2 (Some k = Some k)) by done. destruct (replaced v k) eqn:E; [by rewrite IHl, E|].
      cbn. rewrite IHl, E, Hname, (bool_decide_eq_true_2 (Some k = Some k)) by done. done.
    + rewrite (bool_decide_eq_false_2 (Some name = Some k)) by congruence.
      assert (lookupLast (membersFrom (if replaced v name then kept v rest else mkEntry key w1 w2 w :: kept v rest)) k
        = lookupLast (membersFrom (kept v rest)) k) as ->.
      { destruct (replaced v name); [done|]. cbn. rewrite Hname, (bool_decide_eq_false_2 (Some name = Some k)) by congruence.
        by destruct (lookupLast _ k). }
      rewrite IHl. by destruct (replaced v k), (lookupLast rest k).
Qed.

Definition writtenChild (g : nat) (c : requestValue) : bool :=
  (rv_parentGeneration c =? g)%nat && rv_dirty c && negb (isNil (rv_raw c)).

Lemma writeFields_ok g fs :
  NoDup fs.*1 ->
  Forall (fun f => writtenChild g f.2 = true -> utf8Valid f.1 = true
    /\ exists x, write f.2 = Ok (render x) /\ wellFormed x /\ forall p, den x p = valueOf f.2 p) fs ->
  exists l, writeFields write g fs = Ok (List.map entryText l) /\ Forall entryOk l
    /\ forall k, match fieldIn fs k with
       | Some c => if writtenChild g c then exists x, lookupLast (membersFrom l) k = Some x /\ forall p, den x p = valueOf c p
                   else lookupLast (membersFrom l) k = None
       | None => lookupLast (membersFrom l) k = None
       end.
Proof.
  induction fs as [|[k0 c0] fs IH]; intros Hn Hw; [by exists []|].
  apply NoDup_cons in Hn as [Hk Hn]. apply Forall_cons in Hw as [Hw0 Hw]. destruct (IH Hn Hw) as (l & He & Ho & Hl).
  assert (fieldIn fs k0 = None) as Hno.
  { destruct (fieldIn fs k0) eqn:E; [|done]. apply fieldIn_elem, (list_elem_of_fmap_2 fst) in E. done. }
  cbn [writeFields fieldIn fst snd] in *. assert (negb (rv_parentGeneration c0 =? g)%nat || negb (rv_dirty c0) || isNil (rv_raw c0) = negb (writtenChild g c0)) as ->.
  { unfold writtenChild. rewrite !negb_andb, negb_involutive. done. }
  destruct (writtenChild g c0) eqn:E0; cbn [negb].
  - destruct (Hw0 eq_refl) as (Hu & x & Hx & Hwx & Hden). rewrite Hx, He. exists (mkEntry (quoteString true k0) [] [] x :: l).
    split_and!; [done|constructor; [|done]; split_and!; [apply quote_content|done..]|]. intros k. cbn.
    rewrite memberName_quote by done. case_bool_decide.
    + subst k0. rewrite E0. specialize (Hl k). rewrite Hno in Hl. rewrite Hl, (bool_decide_eq_true_2 (Some k = Some k)) by done. by exists x.
    + rewrite (bool_decide_eq_false_2 (Some k0 = Some k)) by congruence. specialize (Hl k).
      destruct (fieldIn fs k) as [c|]; [|by rewrite Hl]. destruct (writtenChild g c); [|by rewrite Hl].
      destruct Hl as (y & -> & Hy). by exists y.
  - exists l. split_and!; [done..|]. intros k. case_bool_decide; [|apply Hl]. subst k0. rewrite E0. specialize (Hl k). by rewrite Hno in Hl.
Qed.

Lemma eachField_visit v lead ms : rv_raw v = Some (render (CObject lead ms)) -> wellFormed (CObject lead ms) ->
  (forall k c, childOf v k = Some c -> memberOk v lead ms k c) ->
  exists e, eachField false v (render (CObject lead ms)) = Ok (e, v, visited ms).
Proof.
  intros Hraw [Hl Hm] Hok. destruct csize_render as (_ & _ & Hsize). specialize (Hsize ms Hm).
  unfold eachField. cbn [render]. rewrite trimBlanks_app; [|done|by destruct ms].
  apply (visit_loop ms Hm) with (off := S (length lead)).
  - cbn. rewrite length_app. lia.
  - cbn. rewrite !length_app. cbn. lia.
  - intros k c Hc Hcur. by apply (Hok k c Hc).
Qed.

Lemma override_write_ok v : good v -> rv_raw v <> None ->
  exists x, write v = Ok (render x) /\ wellFormed x /\ forall p, den x p = valueOf v p.
Proof.
  induction v as [v IH] using requestValue_nested_ind. intros Hg Hraw. pose proof Hg as (Hn & _ & Hch)%good_spec.
  assert (write v = if negb (rv_dirty v) || negb (rv_loaded v) then Ok (default [] (rv_raw v))
    else try! (_, _, members) := eachField false v (default [] (rv_raw v)) in
         try! added := writeFields write (rv_generation v) (rv_fields v) in
         Ok ("{"%char :: joinComma ((List.filter (fun m => negb (replaced v m.1)) members).*2 ++ added) ++ ["}"%char])) as -> by (by destruct v).
  destruct (rv_dirty v && rv_loaded v) eqn:Edl.
  2: { rewrite <- negb_andb, Edl. cbn [negb]. destruct (rv_raw v) as [b|] eqn:Er; [|done].
       destruct (isObject_spec _ _ Er Hg) as (w & -> & Hw & _). exists w. split_and!; [done..|]. intros p.
       by rewrite (valueOf_plain _ _ (render w)), denBytes_render. }
  apply andb_true_iff in Edl as [Ed El]. rewrite Ed, El. cbn [negb orb].
  destruct (node_loaded _ Hn El) as (lead & ms & Hr & Hw & Hok). rewrite Hr. cbn [from_option id].
  destruct (eachField_visit v lead ms Hr Hw Hok) as [e ->]. rewrite kept_texts.
  destruct (writeFields_ok (rv_generation v) (rv_fields v)) as (l & -> & Hlo & Hl).
  { apply (tree_names _ (node_tree _ Hn)). }
  { apply Forall_forall. intros [k c] Hin. cbn. intros Hwr. unfold writtenChild in Hwr.
    apply andb_true_iff in Hwr as [Hwr Hnil]. apply andb_true_iff in Hwr as [Hcur _].
    assert (rv_raw c <> None) as Hrc by (by destruct (rv_raw c)). split.
    - assert (childOf v k = Some c) as Hc by (apply elem_fieldIn; [apply (tree_names _ (node_tree _ Hn))|done]).
      destruct (Hok _ _ Hc) as (_ & _ & Hutf). by apply Hutf.
    - apply (IH k c Hin); [by apply (Hch k)|done]. }
  destruct Hw as [Hlead Hw]. destruct (kept_ok v ms Hw) as [Hko Hkl].
  exists (CObject [] (membersFrom (kept v ms ++ l))). split_and!.
  - cbn. by rewrite render_entries, List.map_app.
  - split; [done|]. apply wellFormed_entries, Forall_app. done.
  - intros [|k q]; cbn [den valueOf]; rewrite Hr, Ed, El; cbn [andb]; [done|]. rewrite lookupLast_entries, Hkl.
    rewrite (denBytes_render (CObject lead ms)) by done. specialize (Hl k). unfold replaced. unfold childOf in *.
    destruct (fieldIn (rv_fields v) k) as [c|] eqn:Ec; cbn [den]; [|by rewrite Hl].
    unfold writtenChild in Hl. unfold isCurrent. destruct ((rv_parentGeneration c =? rv_generation v)%nat && rv_dirty c); cbn [andb] in Hl.
    + destruct (rv_raw c) as [b|] eqn:Erc; cbn in Hl; [destruct Hl as (x & -> & Hx); by rewrite Hx|].
      rewrite Hl. by rewrite valueOf_none.
    + by rewrite Hl.
Qed.

(** ** Planning *)

Fixpoint fresh (v : requestValue) : Prop :=
  let '(RV _ fields loaded _ _ _ _ _) := v in
  loaded = false /\ NoDup fields.*1
  /\ fold_right (fun f P => (fresh f.2 /\ rv_raw f.2 = None /\ rv_parentGeneration f.2 = 0%nat) /\ P) True fields.

Lemma fresh_spec v : fresh v <-> rv_loaded v = false /\ NoDup (rv_fields v).*1
  /\ forall k c, childOf v k = Some c -> fresh c /\ rv_raw c = None /\ rv_parentGeneration c = 0%nat.
Proof.
  destruct v as [raw fields l d s e g pg]. unfold childOf. cbn [fresh rv_loaded rv_fields]. apply and_iff_compat_l.
  induction fields as [|[k c] r IH]; cbn.
  - split; intros _; (split; [constructor|done]).
  - rewrite NoDup_cons. split.
    + intros [[Hk Hn] [Hc Hr]]. destruct IH as [IH _]. destruct IH as [_ IH]; [done|]. split; [done|].
      intros k' c'. case_bool_decide; [by intros [= <-]|apply IH].
    + intros [[Hk Hn] Hall]. split; [done|]. split.
      * apply (Hall k). by rewrite bool_decide_eq_true_2.
      * destruct IH as [_ IH]. apply IH. split; [done|]. intros k' c' Hf. apply (Hall k').
        rewrite bool_decide_eq_false_2; [done|]. intros ->. by apply fieldIn_elem, (list_elem_of_fmap_2 fst) in Hf.
Qed.

Lemma fresh_good v : fresh v -> (forall b, rv_raw v = Some b -> exists c, b = render c /\ wellFormed c) -> good v.
Proof.
  induction v as [v IH] using requestValue_nested_ind. intros (Hl & Hn & Hc)%fresh_spec Hraw. apply good_intro.
  - split; [split; [done|]|done|by rewrite Hl]. intros k c Hk. destruct (Hc k c Hk) as (_ & _ & ->). lia.
  - by unfold quiet; rewrite Hl.
  - intros k c Hk. destruct (Hc k c Hk) as (Hf & Hr & _). apply (IH k); [by apply fieldIn_elem|done|]. by rewrite Hr.
Qed.

Lemma fieldIn_app a b k : fieldIn (a ++ b) k = match fieldIn a k with Some c => Some c | None => fieldIn b k end.
Proof. induction a as [|[k' c] a IH]; cbn; [done|]. by case_bool_decide. Qed.

(** A planned child: the old one or a new one. *)
Definition plannedChild (v : requestValue) (k : bytes) : requestValue := default newRequestValue (childOf v k).

Lemma childOf_planned k f v k' :
  childOf (updateChild k f (field k v)) k' = if bool_decide (k = k') then Some (f (plannedChild v k)) else childOf v k'.
Proof.
  unfold updateChild, field, plannedChild. destruct (childOf v k) as [c|] eqn:Ec.
  - rewrite Ec, childOf_put, Ec. by case_bool_decide.
  - assert (forall x, childOf (withFields (rv_fields v ++ [(k, newRequestValue)]) v) x
      = match childOf v x with Some c => Some c | None => if bool_decide (k = x) then Some newRequestValue else None end) as Hx.
    { intros x. unfold childOf. destruct v. cbn. by rewrite fieldIn_app. }
    rewrite Hx, Ec, bool_decide_eq_true_2 by done. rewrite childOf_put, Hx, Ec, (bool_decide_eq_true_2 (k = k)) by done.
    case_bool_decide; [done|]. rewrite Hx. case_bool_decide; [done|]. by destruct (childOf v k').
Qed.

Definition plans (f : requestValue -> requestValue) : Prop :=
  forall v, fresh v -> fresh (f v) /\ rv_raw (f v) = rv_raw v /\ rv_parentGeneration (f v) = rv_parentGeneration v.

Lemma fieldIn_none fields k : fieldIn fields k = None -> k ∉ fields.*1.
Proof.
  induction fields as [|[k' c] r IH]; cbn; [by intros _ ?%elem_of_nil|]. case_bool_decide; [done|].
  intros Hf [->|Hin]%elem_of_cons; [done|]. by apply IH.
Qed.

Lemma plans_child k f : plans f -> plans (fun v => updateChild k f (field k v)).
Proof.
  intros Hf v Hv. pose proof Hv as (Hl & Hn & Hc)%fresh_spec.
  assert (fresh (plannedChild v k) /\ rv_raw (plannedChild v k) = None /\ rv_parentGeneration (plannedChild v k) = 0%nat) as (Hp1 & Hp2 & Hp3).
  { unfold plannedChild. destruct (childOf v k) as [c|] eqn:Ec; [by apply (Hc k)|]. split_and!; try done. cbn. split_and!; [done|constructor|done]. }
  destruct (Hf _ Hp1) as (Hf1 & Hf2 & Hf3). split; [apply fresh_spec; split_and!|].
  - unfold updateChild, field. destruct (childOf v k) eqn:E; [rewrite E; by destruct v|]. case_match; by destruct v.
  - unfold updateChild, field. destruct (childOf v k) eqn:E.
    + rewrite E, putChild_fields, put_names. done.
    + assert (NoDup (rv_fields (withFields (rv_fields v ++ [(k, newRequestValue)]) v)).*1) as Hn'.
      { assert (rv_fields (withFields (rv_fields v ++ [(k, newRequestValue)]) v) = rv_fields v ++ [(k, newRequestValue)]) as -> by (by destruct v).
        rewrite fmap_app. apply NoDup_app. split_and!; [done| |apply NoDup_singleton].
        intros x Hx ->%list_elem_of_singleton. by apply fieldIn_none in E. }
      case_match; [by rewrite putChild_fields, put_names|done].
  - intros k' c'. rewrite childOf_planned. case_bool_decide; [|apply Hc]. intros [= <-]. split_and!; congruence.
  - unfold updateChild, field. split; destruct (childOf v k) eqn:E; rewrite ?E; try case_match; by destruct v.
Qed.

Lemma planPath_fresh path : plans (planPath path).
Proof. induction path as [|k path IH]; [by intros v|]. apply (plans_child k (planPath path) IH). Qed.

Lemma plans_foldl {A} (f : requestValue -> A -> requestValue) l : Forall (fun x => plans (fun v => f v x)) l -> plans (fun v => foldl f v l).
Proof.
  induction 1 as [|x l Hx Hl IH]; [by intros v|]. intros v Hv. cbn. destruct (Hx v Hv) as (H1 & H2 & H3).
  destruct (IH _ H1) as (H4 & H5 & H6). split_and!; congruence || done.
Qed.

Lemma planSet_fresh j : plans (planSet j).
Proof.
  induction j as [|b|l|s|items _|fields IH] using json_nested_ind; try (by intros v).
  apply (plans_foldl (fun v f => updateChild f.1 (planSet f.2) (field f.1 v))).
  eapply Forall_impl; [exact IH|]. intros f Hf. by apply plans_child.
Qed.

Lemma knows_planned k f v p : knowsPath p (shape v) ->
  (forall q, knowsPath q (shape (plannedChild v k)) -> knowsPath q (shape (f (plannedChild v k)))) ->
  knowsPath p (shape (updateChild k f (field k v))).
Proof.
  intros Hp Hf. destruct p as [|k' p]; [done|]. apply knowsPath_cons in Hp as (c & Hc & Hp). apply knowsPath_cons.
  rewrite childOf_planned. case_bool_decide; [|by exists c]. subst k'. eexists. split; [done|]. apply Hf. unfold plannedChild. by rewrite Hc.
Qed.

Lemma planPath_knows path v p : knowsPath p (shape v) \/ p `prefix_of` path -> knowsPath p (shape (planPath path v)).
Proof.
  revert v p. induction path as [|k path IH]; intros v p Hp.
  - destruct Hp as [Hp|Hp]; [done|]. by apply prefix_nil_inv in Hp as ->.
  - cbn [planPath]. destruct Hp as [Hp|Hp].
    + apply knows_planned; [done|]. intros q Hq. apply IH. by left.
    + destruct p as [|k' p]; [done|]. pose proof (prefix_cons_inv_1 _ _ _ _ Hp) as ->. apply prefix_cons_inv_2 in Hp.
      apply knowsPath_cons. rewrite childOf_planned, bool_decide_eq_true_2 by done. eexists. split; [done|]. apply IH. by right.
Qed.

Lemma planSet_knows j v p : knowsPath p (shape v) \/ jsonPath j p -> knowsPath p (shape (planSet j v)).
Proof.
  revert v p. induction j as [|b|l|s|items _|fields IH] using json_nested_ind;
    try (intros v [|k p] [Hp|Hp]; done).
  intros v p Hp. cbn [planSet]. revert v Hp.
  induction fields as [|[k item] fields IHf]; intros v Hp; cbn [foldl]; [destruct p; naive_solver|].
  apply Forall_cons in IH as [IHi IH]. cbn [fst snd] in *. apply IHf; [done|]. destruct Hp as [Hp|Hp].
  - left. apply knows_planned; [done|]. intros q Hq. apply IHi. by left.
  - destruct p as [|k' p]; [by left|]. cbn in Hp. case_bool_decide.
    + subst k'. left. apply knowsPath_cons. rewrite childOf_planned, bool_decide_eq_true_2 by done.
      eexists. split; [done|]. apply IHi. by right.
    + by right.
Qed.

End Editing.

(** * Rules *)

Section Rules.
Context `{GT : GoText} `{SC : StringCodec} `{JS : JsonScanner} `{FT : FloatText} `{SL : !StringCodecLaws} `{JL : !JsonScannerLaws}.

Definition ruleOk (entry : rule) : Prop :=
  decoded (JObject (ru_set entry)) /\ Forall (fun path => path <> []) (ru_remove entry).
Definition knowsRule (entry : rule) (s : skeleton) : Prop :=
  knowsJson (JObject (ru_set entry)) s /\ Forall (fun path => knowsPath path s) (ru_remove entry).

(** ** Extensionality of the reference *)

Lemma removes_ext paths d d' q : (forall p, d p = d' p) ->
  foldl (fun d path => removeAt path d) d paths q = foldl (fun d path => removeAt path d) d' paths q.
Proof.
  revert d d'. induction paths as [|path paths IH]; intros d d' E; cbn; [done|]. apply IH. intros p. unfold removeAt.
  case_bool_decide; [done|apply E].
Qed.

Lemma applyRule_ext entry d d' q : (forall p, d p = d' p) -> applyRule entry d q = applyRule entry d' q.
Proof. intros E. unfold applyRule. apply mergeAt_ext. intros p. by apply removes_ext. Qed.

Lemma applyRules_ext rules d d' q : (forall p, d p = d' p) -> applyRules rules d q = applyRules rules d' q.
Proof.
  unfold applyRules. revert d d'. induction rules as [|r rules IH]; intros d d' E; cbn; [done|]. apply IH. intros p. by apply applyRule_ext.
Qed.

(** ** The edits of all rules *)

Lemma removeAll_ok paths v : Forall (fun path => path <> []) paths -> good v -> Forall (fun path => knowsPath path (shape v)) paths ->
  exists v', removeAll paths v = Ok v' /\ good v' /\ shape v' = shape v
    /\ forall q, valueOf v' q = foldl (fun d path => removeAt path d) (valueOf v) paths q.
Proof.
  revert v. induction paths as [|path paths IH]; intros v Hne Hg Hk; [by exists v|].
  apply Forall_cons in Hne as [Hne1 Hne], Hk as [Hk1 Hk]. cbn [removeAll foldl].
  destruct (override_remove_ok path v Hne1 Hg Hk1) as (v1 & -> & Hed & Hv1). pose proof (ed_shape _ _ Hed) as Hs.
  destruct (IH v1 Hne (ed_good _ _ Hed)) as (v' & -> & Hg' & Hs' & Hv'); [by rewrite Hs|].
  exists v'. split_and!; [done|done|congruence|]. intros q. rewrite Hv'. by apply removes_ext.
Qed.

Lemma editAll_ok rules v : Forall ruleOk rules -> good v -> Forall (fun r => knowsRule r (shape v)) rules ->
  exists v', editAll rules v = Ok v' /\ good v' /\ forall q, valueOf v' q = applyRules rules (valueOf v) q.
Proof.
  revert v. induction rules as [|r rules IH]; intros v Hr Hg Hk; [by exists v|].
  apply Forall_cons in Hr as [[Hset Hrem] Hr], Hk as [[Hk1 Hk2] Hk]. cbn [editAll].
  destruct (removeAll_ok _ v Hrem Hg Hk2) as (v1 & -> & Hg1 & Hs1 & Hv1).
  destruct (merge_ok (JObject (ru_set r)) Hset v1 Hg1) as (v2 & -> & Hed & Hv2); [by rewrite Hs1|].
  destruct (IH v2 Hr (ed_good _ _ Hed)) as (v' & -> & Hg' & Hv'); [by rewrite (ed_shape _ _ Hed), Hs1|].
  exists v'. split_and!; [done|done|]. intros q. rewrite Hv'. apply (applyRules_ext rules). intros p. rewrite Hv2.
  unfold applyRule. by apply mergeAt_ext.
Qed.

(** ** The check of the continuation *)

Definition touchesContinuation (entry : rule) (d : meaning) : bool :=
  existsb (fun f => previousResponseID f.1) (ru_set entry)
  || existsb (fun path => match path with root :: _ => previousResponseID root && isSome (d [root]) | [] => false end) (ru_remove entry).

Lemma touches_ext rules d d' : (forall p, d p = d' p) ->
  existsb (fun r => touchesContinuation r d) rules = existsb (fun r => touchesContinuation r d') rules.
Proof.
  intros E. induction rules as [|r rules IHr]; cbn; [done|]. rewrite IHr. f_equal. unfold touchesContinuation. f_equal.
  induction (ru_remove r) as [|[|r0 p0] l IHl]; cbn [existsb]; [done|done|]. by rewrite E, IHl.
Qed.

(** Looking at a root field changes nothing. *)
Lemma look_ok v root path : good v -> isObject v = true -> knowsPath (root :: path) (shape v) ->
  exists v1 child, load v = Ok v1 /\ currentField v1 root = Ok child /\ isNil (rv_raw child) = negb (isSome (valueOf v [root]))
    /\ good (putChild root child v1) /\ shape (putChild root child v1) = shape v /\ isObject (putChild root child v1) = true
    /\ forall p, valueOf (putChild root child v1) p = valueOf v p.
Proof.
  intros Hg Ho Hk. destruct (load_ok v Hg Ho) as (v1 & -> & Hg1 & Hl1 & Hsh1 & Hpl1 & Hd1 & Hr1 & Hov). rewrite <- Hsh1 in Hk.
  apply knowsPath_cons in Hk as (c & Hc & _). pose proof (opened_good _ Hg1 Hl1) as Hop.
  destruct (currentField_ok v1 root c) as (child & Hcf & Hgc & Hshc & Hcur & Hmem & Hval); [apply Hop..|done|].
  destruct (put_current v1 root c child child) as (Hop' & Hsh' & Hk1 & Hk2); [done..|by apply edited_refl| |].
  { destruct (node_loaded _ (op_node _ Hop) Hl1) as (lead & ms & Hr & Hw & _). destruct (Hmem _ _ Hr Hw) as (_ & _ & Hutf). by apply Hutf. }
  assert (withDirty (rv_dirty v1) (putChild root child v1) = putChild root child v1) as Eput by (by destruct v1).
  destruct (close_edit _ (rv_dirty v1) Hop') as [Hgood Hover].
  { intros Hd. intros _ _ k0 c0.
    assert (childOf (withDirty false (putChild root child v1)) k0 = childOf (putChild root child v1) k0) as -> by (by destruct v1).
    assert (isCurrent (withDirty false (putChild root child v1)) c0 = isCurrent v1 c0) as -> by (by destruct v1).
    apply good_spec in Hg1 as (_ & Hq1 & _). rewrite childOf_put. case_bool_decide; [|by apply Hq1]. rewrite Hc. intros [= <-] _.
    unfold currentField in Hcf. rewrite Hc in Hcf. injection Hcf as <-. destruct (isCurrent v1 c) eqn:Ecur; [by apply (Hq1 Hl1 Hd root)|]. by destruct c. }
  rewrite Eput in Hgood, Hover. exists v1, child. split_and!; [done|done| |done|congruence| |].
  - rewrite <- Hov, <- Hval. destruct (rv_raw child) as [b|] eqn:E; [|by rewrite valueOf_none].
    pose proof (valueOf_some child ltac:(by rewrite E) Hgc). by destruct (valueOf child []).
  - unfold isObject in *. rewrite <- Hr1 in Ho. by destruct v1.
  - intros p. rewrite Hover. destruct p as [|k q]; [by rewrite <- Hov|]. rewrite <- Hov.
    destruct (decide (k = root)) as [->|Hne]; [by rewrite Hk1|by apply Hk2].
Qed.

Lemma validateRemoved_ok paths v : Forall (fun path => path <> []) paths -> good v -> isObject v = true ->
  Forall (fun path => knowsPath path (shape v)) paths ->
  if existsb (fun path => match path with root :: _ => previousResponseID root && isSome (valueOf v [root]) | [] => false end) paths
  then validateRemoved paths (Some v) = Err ContinuationChanged
  else exists v', validateRemoved paths (Some v) = Ok (Some v') /\ good v' /\ shape v' = shape v /\ isObject v' = true
    /\ forall p, valueOf v' p = valueOf v p.
Proof.
  revert v. induction paths as [|path paths IH]; intros v Hne Hg Ho Hk; [by exists v|].
  apply Forall_cons in Hne as [Hne1 Hne], Hk as [Hk1 Hk]. destruct path as [|root path]; [done|]. cbn [existsb validateRemoved].
  destruct (previousResponseID root) eqn:Ep; cbn [andb orb]; [|by apply IH].
  destruct (look_ok v root path Hg Ho Hk1) as (v1 & child & -> & -> & Hnil & Hg' & Hs' & Ho' & Hv'). rewrite Hnil.
  destruct (valueOf v [root]) as [x|] eqn:Ex; cbn [isSome negb andb orb]; [done|].
  specialize (IH (putChild root child v1) Hne Hg' Ho'). rewrite Hs' in IH. specialize (IH Hk).
  assert (forall l, existsb (fun path => match path with x :: _ => previousResponseID x && isSome (valueOf (putChild root child v1) [x]) | [] => false end) l
    = existsb (fun path => match path with root :: _ => previousResponseID root && isSome (valueOf v [root]) | [] => false end) l) as El.
  { intros l. induction l as [|[|r0 p0] l IHl]; cbn [existsb]; [done|done|]. by rewrite Hv', IHl. }
  rewrite El in IH. case_match; [done|]. destruct IH as (v' & H1 & H2 & H3 & H4 & H5). exists v'. split_and!; try done.
  intros p. by rewrite H5.
Qed.

Lemma validateAll_ok rules v : Forall ruleOk rules -> good v -> isObject v = true -> Forall (fun r => knowsRule r (shape v)) rules ->
  if existsb (fun r => touchesContinuation r (valueOf v)) rules then validateAll rules v = Err ContinuationChanged
  else exists v', validateAll rules v = Ok v' /\ good v' /\ shape v' = shape v /\ forall p, valueOf v' p = valueOf v p.
Proof.
  revert v. induction rules as [|r rules IH]; intros v Hr Hg Ho Hk; [by exists v|].
  apply Forall_cons in Hr as [[Hset Hrem] Hr], Hk as [[Hk1 Hk2] Hk]. cbn [existsb validateAll].
  unfold touchesContinuation at 1, validateResponsesContinuation. destruct (existsb _ (ru_set r)); cbn [orb]; [done|].
  pose proof (validateRemoved_ok _ v Hrem Hg Ho Hk2) as Hval. destruct (existsb _ (ru_remove r)); cbn [orb]; [by rewrite Hval|].
  destruct Hval as (v1 & -> & Hg1 & Hs1 & Ho1 & Hv1). cbn [from_option id].
  specialize (IH v1 Hr Hg1 Ho1). rewrite Hs1 in IH. specialize (IH Hk).
  pose proof (touches_ext rules _ _ Hv1) as El.
  rewrite El in IH. case_match; [done|]. destruct IH as (v' & H1 & H2 & H3 & H4). exists v'. split_and!; [done|done|congruence|].
  intros p. by rewrite H4.
Qed.

(** ** The plan of all rules *)

Lemma plan_fresh entry : plans (plan entry).
Proof.
  intros v Hv. unfold plan. destruct (planSet_fresh (JObject (ru_set entry)) v Hv) as (H1 & H2 & H3).
  destruct (plans_foldl (fun v path => planPath path v) (ru_remove entry)) with (v := planSet (JObject (ru_set entry)) v)
    as (H4 & H5 & H6); [|done|split_and!; congruence || done].
  apply Forall_forall. intros path _. apply planPath_fresh.
Qed.

Lemma planPaths_knows paths v p : knowsPath p (shape v) \/ p ∈ paths -> knowsPath p (shape (foldl (fun v path => planPath path v) v paths)).
Proof.
  revert v. induction paths as [|path paths IH]; intros v Hp; cbn [foldl]; [by destruct Hp as [?|?%elem_of_nil]|].
  apply IH. destruct Hp as [Hp|[->|Hp]%elem_of_cons]; [left; apply planPath_knows; by left|left; apply planPath_knows; by right|by right].
Qed.

Lemma plan_knows entry v p : knowsPath p (shape v) \/ jsonPath (JObject (ru_set entry)) p \/ p ∈ ru_remove entry ->
  knowsPath p (shape (plan entry v)).
Proof.
  intros Hp. apply planPaths_knows. destruct Hp as [Hp|[Hp|Hp]]; [left; apply planSet_knows; by left|left; apply planSet_knows; by right|by right].
Qed.

Lemma planAll_knows rules v :
  let v' := foldl (fun v entry => plan entry v) v rules in
  (forall p, knowsPath p (shape v) -> knowsPath p (shape v')) /\ Forall (fun r => knowsRule r (shape v')) rules.
Proof.
  revert v. induction rules as [|r rules IH]; intros v; [by split|]. cbn [foldl]. destruct (IH (plan r v)) as [IHm IHk]. split.
  - intros p Hp. apply IHm, plan_knows. by left.
  - constructor; [|done]. split.
    + intros p Hp. apply IHm, plan_knows. by right; left.
    + apply Forall_forall. intros p Hp. apply IHm, plan_knows. by right; right.
Qed.

(** ** The body *)

Definition objectBody (body : bytes) : option cst :=
  let b := bytes_of (TrimSpace (of_bytes body)) in
  if headIs "{" b && jsonValid b then parseDocument b else None.

Lemma trimSpaceRev_stops n l : (length l <= n)%nat -> stops space1 (trimSpaceRev l).
Proof.
  revert l. induction n as [|n IH]; intros l Hl; destruct l as [|a l1]; cbn in *; try done; [lia|].
  destruct (space1 a) eqn:Ea; [apply IH; lia|]. destruct l1 as [|b l2]; cbn; [done|].
  destruct (space2 b a); [apply IH; cbn in Hl; lia|]. destruct l2 as [|c l3]; cbn; [done|].
  destruct (space3 c b a); [apply IH; cbn in Hl; lia|done].
Qed.

Lemma blank_space c : isBlank c = true -> space1 c = true.
Proof. unfold isBlank, space1. rewrite bool_decide_eq_true, !elem_of_cons, elem_of_nil. intros [->|[->|[->|[->|[]]]]]; done. Qed.

(** A trimmed text has no blanks at its end, so that a valid one is a document. *)
Lemma trimmed_document body : let b := bytes_of (TrimSpace (of_bytes body)) in
  headIs "{" b = true -> jsonValid b = true -> exists lead ms, parseDocument b = Some (CObject lead ms).
Proof.
  intros b Hh Hv. unfold jsonValid in Hv.
  assert ((spanOf isBlank b).2 = b) as Eb.
  { destruct b as [|c r]; [done|]. cbn in Hh |- *. by destruct (Ascii.eqb_spec c "{") as [->|]. }
  rewrite Eb in Hv. destruct (parseValue (S (length b)) b) as [[v r]|] eqn:Ep; [|done].
  apply andb_true_iff in Hv as [Hr _]. pose proof Ep as Ep'. apply parse_sound in Ep' as [Er Hw].
  assert (r = []) as ->.
  { destruct r as [|c r0] using rev_ind; [done|]. rewrite forallb_app in Hr. apply andb_true_iff in Hr as [_ Hr]. cbn in Hr.
    rewrite andb_true_r in Hr. apply blank_space in Hr. exfalso.
    assert (stops space1 (reverse b)) as Hs.
    { subst b. unfold TrimSpace. rewrite bytes_of_of_bytes, reverse_involutive. by eapply trimSpaceRev_stops. }
    rewrite Er, app_assoc, reverse_app in Hs. cbn in Hs. congruence. }
  destruct (headIs_render v [] Hw) as (lead & ms & ->); [by rewrite <- Er|]. exists lead, ms.
  unfold parseDocument. by rewrite Ep.
Qed.

Lemma objectBody_root body doc : objectBody body = Some doc -> den doc [] = Some VObject.
Proof.
  unfold objectBody. cbv zeta. destruct (headIs "{" _) eqn:Eh; cbn [andb]; [|done]. destruct (jsonValid _) eqn:Ev; [|done].
  destruct (trimmed_document body Eh Ev) as (lead & ms & ->). by intros [= <-].
Qed.

(** ** Compiled rules *)

Definition protectedRule (entry : rule) : Prop :=
  Forall (fun f => forbiddenRootField f.1 = false) (ru_set entry)
  /\ Forall (fun path => match path with root :: _ => forbiddenRootField root = false | [] => False end) (ru_remove entry).

Lemma compileRemove_ok seen paths removed : compileRemove seen paths = Ok removed ->
  Forall (fun path => match path with root :: _ => forbiddenRootField root = false | [] => False end) removed.
Proof.
  revert seen removed. induction paths as [|path paths IH]; intros seen removed; cbn [compileRemove]; [intros [= <-]; constructor|].
  case_bool_decide; [done|]. destruct (parsePointer path) as [[|root segs]|]; try done.
  destruct (forbiddenRootField root) eqn:Ef; [done|]. destruct (compileRemove (path :: seen) paths) as [rest|] eqn:E; [|done].
  intros [= <-]. constructor; [done|]. by eapply IH.
Qed.

Lemma jlookup_decoded fields name v : decoded (JObject fields) -> jlookup fields name = Some v -> decoded v.
Proof.
  rewrite decoded_fields. intros [Hn Hd] Hl. apply jlookup_spec in Hl; [|done]. rewrite Forall_forall in Hd. by destruct (Hd _ Hl).
Qed.

(** The next step of a sequence that returned. *)
Tactic Notation "peel" simple_intropattern(p) ident(E) :=
  match goal with |- match ?x with Ok _ => _ | Err _ => _ end = _ -> _ => destruct x as [p|] eqn:E; [|done] end.

Lemma compileRule_ok raw entry count : decoded (JObject raw) -> compileRule raw = Ok (entry, count) -> ruleOk entry /\ protectedRule entry.
Proof.
  intros Hd. unfold compileRule. case_match; [done|].
  peel [[p m] mp] Ematch. peel set Eset. peel paths Epaths. peel removed Erem. apply compileRemove_ok in Erem.
  destruct (bool_decide (length set = 0%nat) && bool_decide (length removed = 0%nat)); [done|]. intros [= <- <-].
  assert (decoded (JObject set) /\ Forall (fun f => forbiddenRootField f.1 = false) set) as [Hset Hforb].
  { destruct (jlookup raw (bytes_of "set")) as [j|] eqn:El; [|simplify_eq; split; [by apply decoded_fields; split; [constructor|]|constructor]].
    apply jlookup_decoded in El; [|done]. destruct j; try done. destruct (validateSetValue 1 (JObject fields)); [done|].
    destruct (existsb _ fields) eqn:Ex; [done|]. simplify_eq. split; [done|]. clear -Ex.
    induction set as [|f set IH]; constructor; cbn in Ex; apply orb_false_iff in Ex as [? ?]; auto. }
  split; [split; [done|]|by split]. cbn. eapply Forall_impl; [exact Erem|]. by intros [|].
Qed.

Lemma compileRules_ok total raws rules : Forall decoded raws -> compileRules total raws = Ok rules ->
  Forall (fun r => ruleOk r /\ protectedRule r) rules.
Proof.
  revert total rules. induction raws as [|raw raws IH]; intros total rules Hd; cbn [compileRules]; [intros [= <-]; constructor|].
  apply Forall_cons in Hd as [Hd1 Hd].
  peel [entry count] E. destruct (maxRemovePaths <? total + count); [done|]. peel rest Er. intros [= <-].
  constructor; [|by eapply IH]. destruct raw; try (eapply compileRule_ok; [|exact E]; apply decoded_fields; split; constructor).
  by eapply compileRule_ok.
Qed.

Lemma Compile_ok value rules : decoded value -> Compile value = Ok rules -> Forall (fun r => ruleOk r /\ protectedRule r) rules.
Proof.
  intros Hd. unfold Compile. case_match; [done|]. destruct value; try done. case_match; [done|]. case_match; [done|].
  apply compileRules_ok. by apply decoded_items.
Qed.

(** ** What [Apply] does *)

Definition applicable (rules : list rule) (clientProtocol : string) (operation : Operation) (clientModel : string) : list rule :=
  if supports clientProtocol operation then List.filter (fun entry => matches entry clientProtocol clientModel) rules else [].

Lemma Apply_none rules proto op model body : applicable rules proto op model = [] -> Apply rules proto op model body = Ok (body, false).
Proof.
  unfold applicable, Apply. destruct (supports proto op); [|by rewrite orb_true_r].
  intros ->. by destruct (bool_decide (length rules = 0%nat)).
Qed.

Lemma filter_ok {P : rule -> Prop} f rules : Forall P rules -> Forall P (List.filter f rules).
Proof. rewrite !Forall_forall. intros Hall r Hr. apply list_elem_of_In, List.filter_In in Hr as [Hr _]. by apply Hall, list_elem_of_In. Qed.

(** The edited object of a valid body. *)
Lemma edit_ok matched lead ms : Forall ruleOk matched -> wellFormed (CObject lead ms) -> matched <> [] ->
  let v := foldl (fun v entry => plan entry v) (reset (Some (render (CObject lead ms))) newRequestValue) matched in
  good v /\ isObject v = true /\ Forall (fun r => knowsRule r (shape v)) matched /\ (forall p, valueOf v p = den (CObject lead ms) p).
Proof.
  intros Hr Hw Hne v. set (v0 := reset (Some (render (CObject lead ms))) newRequestValue) in *.
  destruct (plans_foldl (fun v entry => plan entry v) matched) with (v := v0) as (Hfresh & Hraw & _).
  { apply Forall_forall. intros r _. apply plan_fresh. }
  { cbn. split_and!; [done|constructor|done]. }
  change (foldl _ v0 matched) with v in Hfresh, Hraw. assert (rv_loaded v = false) as Hl by (by apply fresh_spec in Hfresh as []).
  split_and!.
  - apply fresh_good; [done|]. rewrite Hraw. intros b [= <-]. by exists (CObject lead ms).
  - unfold isObject. by rewrite Hraw.
  - apply planAll_knows.
  - intros p. rewrite (valueOf_plain v p (render (CObject lead ms))); [by rewrite denBytes_render|done|by rewrite Hl, andb_false_r].
Qed.

Lemma applyRules_root rules d : rules <> [] -> applyRules rules d [] = Some VObject.
Proof. destruct rules as [|r rules] using rev_ind; [done|]. intros _. unfold applyRules. rewrite foldl_snoc. done. Qed.

(** The text written for an edited object. *)
Lemma edit_written matched v d : Forall ruleOk matched -> matched <> [] -> good v -> Forall (fun r => knowsRule r (shape v)) matched ->
  (forall p, valueOf v p = d p) ->
  exists doc', match editAll matched v with
      | Err f => Err (EditFault f)
      | Ok o => match write o with Err f => Err (EditFault f) | Ok t => Ok (t, true) end
      end = Ok (render doc', true) /\ wellFormed doc' /\ forall p, den doc' p = applyRules matched d p.
Proof.
  intros Hrules Hne Hg Hk Hd. destruct (editAll_ok matched v Hrules Hg Hk) as (v2 & -> & Hg2 & Hv2).
  assert (forall p, valueOf v2 p = applyRules matched d p) as Hv.
  { intros p. rewrite Hv2. by apply applyRules_ext. }
  destruct (override_write_ok v2 Hg2) as (x & -> & Hwx & Hx).
  { intros E. specialize (Hv []). by rewrite valueOf_none, applyRules_root in Hv. }
  exists x. split_and!; [done|done|]. intros p. by rewrite Hx.
Qed.

(** [Apply] where some rule applies to an object. *)
Lemma Apply_document rules proto op model body doc :
  Forall ruleOk rules -> applicable rules proto op model <> [] -> objectBody body = Some doc ->
  if strEq proto OpenAIResponses && existsb (fun r => touchesContinuation r (den doc)) (applicable rules proto op model)
  then Apply rules proto op model body = Err ContinuationChanged
  else exists doc', Apply rules proto op model body = Ok (render doc', true) /\ wellFormed doc'
    /\ forall p, den doc' p = applyRules (applicable rules proto op model) (den doc) p.
Proof.
  unfold applicable. destruct (supports proto op) eqn:Esup; [|done]. intros Hrules Hne Hdoc. unfold Apply. rewrite Esup.
  set (matched := List.filter (fun entry => matches entry proto model) rules) in *.
  assert (Forall ruleOk matched) as Hm by (by apply filter_ok).
  rewrite (bool_decide_eq_false_2 (length rules = 0%nat)) by (by destruct rules). cbn [orb negb].
  rewrite (bool_decide_eq_false_2 (length matched = 0%nat)) by (by destruct matched). cbv zeta. unfold objectBody in Hdoc. cbv zeta in Hdoc.
  destruct (headIs "{" _) eqn:Eh; cbn [negb orb andb] in *; [|done]. destruct (jsonValid _) eqn:Ev; cbn [negb] in *; [|done].
  destruct (trimmed_document body Eh Ev) as (lead & ms & Ep). rewrite Ep in Hdoc. injection Hdoc as <-.
  apply parseDocument_spec in Ep as [-> Hw].
  destruct (edit_ok matched lead ms Hm Hw Hne) as (Hg & Ho & Hk & Hval). set (v := foldl _ _ matched) in *.
  destruct (strEq proto OpenAIResponses); cbn [andb]; [|by apply edit_written].
  pose proof (validateAll_ok matched v Hm Hg Ho Hk) as Hval'. rewrite (touches_ext matched _ _ Hval) in Hval'.
  destruct (existsb _ matched); [by rewrite Hval'|]. destruct Hval' as (v1 & -> & Hg1 & Hs1 & Hv1).
  apply edit_written; [done..|by rewrite Hs1|]. intros p. by rewrite Hv1.
Qed.

Lemma Apply_refused rules proto op model body : applicable rules proto op model <> [] -> objectBody body = None ->
  Apply rules proto op model body = Err BodyNotObject.
Proof.
  unfold applicable. destruct (supports proto op) eqn:Esup; [|done]. intros Hne Hdoc. unfold Apply. rewrite Esup.
  set (matched := List.filter (fun entry => matches entry proto model) rules) in *.
  rewrite (bool_decide_eq_false_2 (length rules = 0%nat)) by (by destruct rules). cbn [orb negb].
  rewrite (bool_decide_eq_false_2 (length matched = 0%nat)) by (by destruct matched). cbv zeta. unfold objectBody in Hdoc. cbv zeta in Hdoc.
  destruct (headIs "{" _) eqn:Eh; cbn [negb orb andb] in *; [|done]. destruct (jsonValid _) eqn:Ev; cbn [negb] in *; [|done].
  destruct (trimmed_document body Eh Ev) as (lead & ms & Ep). by rewrite Ep in Hdoc.
Qed.

Lemma compiled_rules value rules : decoded value -> Compile value = Ok rules -> Forall ruleOk rules.
Proof. intros Hd Hc. eapply Forall_impl; [by eapply Compile_ok|]. by intros r [? _]. Qed.

(** C13: Compiled parameter overrides do exactly what they say.  A request no rule applies to is
    left alone; a body that is no JSON object is refused; a rule that would change the
    continuation of a response is refused exactly when it would; and otherwise [Apply] never
    fails: it writes a well-formed document that means the body with, rule by rule, the paths
    removed and the fields merged, every other value keeping its bytes, whatever duplicate
    names, escapes and blanks the body has. *)
Theorem override_exact value rules proto op model body :
  decoded value -> Compile value = Ok rules ->
  match applicable rules proto op model, objectBody body with
  | [], _ => Apply rules proto op model body = Ok (body, false)
  | _ :: _, None => Apply rules proto op model body = Err BodyNotObject
  | (_ :: _) as matched, Some doc =>
      if strEq proto OpenAIResponses && existsb (fun r => touchesContinuation r (den doc)) matched
      then Apply rules proto op model body = Err ContinuationChanged
      else exists doc', Apply rules proto op model body = Ok (render doc', true) /\ wellFormed doc'
        /\ forall p, den doc' p = applyRules matched (den doc) p
  end.
Proof.
  intros Hd Hc. destruct (applicable rules proto op model) as [|r0 matched] eqn:Ea; [by apply Apply_none|].
  destruct (objectBody body) as [doc|] eqn:Eo; [|apply Apply_refused; [by rewrite Ea|done]].
  rewrite <- Ea. apply Apply_document; [by eapply compiled_rules|by rewrite Ea|done].
Qed.

(** ** What the rules cannot touch *)

Lemma removes_keep paths d k q : Forall (fun path => match path with root :: _ => root = k -> forall r, d (k :: r) = None | [] => False end) paths ->
  foldl (fun d path => removeAt path d) d paths [] = d [] /\ foldl (fun d path => removeAt path d) d paths (k :: q) = d (k :: q).
Proof.
  revert d. induction paths as [|path paths IH]; intros d Hp; [done|]. apply Forall_cons in Hp as [Hp1 Hp]. cbn [foldl].
  destruct path as [|root path]; [done|].
  assert (forall r, removeAt (root :: path) d (k :: r) = d (k :: r)) as Hk.
  { intros r. unfold removeAt. case_bool_decide as E; [|done]. apply prefix_cons_inv_1 in E. by rewrite Hp1. }
  destruct (IH (removeAt (root :: path) d)) as [-> ->].
  - eapply Forall_impl; [exact Hp|]. intros [|r0 p0]; [done|]. intros H E r. rewrite Hk. by apply H.
  - split; [|apply Hk]. unfold removeAt. by rewrite bool_decide_eq_false_2 by (by intros ?%prefix_nil_inv).
Qed.

(** A rule that neither sets a root field nor removes anything there leaves it alone. *)
Definition spares (entry : rule) (k : bytes) (d : meaning) : Prop :=
  jlookup (ru_set entry) k = None
  /\ Forall (fun path => match path with root :: _ => root = k -> forall r, d (k :: r) = None | [] => False end) (ru_remove entry).

Lemma applyRule_spares entry k d q : d [] = Some VObject -> spares entry k d ->
  applyRule entry d [] = Some VObject /\ applyRule entry d (k :: q) = d (k :: q).
Proof.
  intros Hroot [Hset Hrem]. split; [done|]. unfold applyRule. destruct (removes_keep _ d k q Hrem) as [E1 E2].
  cbn [mergeAt]. by rewrite E1, bool_decide_eq_true_2, Hset, E2.
Qed.

Lemma applyRules_spares rules k d q : d [] = Some VObject -> Forall (fun r => spares r k d) rules ->
  applyRules rules d (k :: q) = d (k :: q).
Proof.
  unfold applyRules. revert d q. induction rules as [|r rules IH]; intros d q Hroot Hs; [done|].
  apply Forall_cons in Hs as [Hs1 Hs]. cbn [foldl]. rewrite IH; [by apply applyRule_spares|done|].
  eapply Forall_impl; [exact Hs|]. intros e [He1 He2]. split; [done|]. eapply Forall_impl; [exact He2|].
  intros [|root path]; [done|]. intros H E r0. destruct (applyRule_spares r k d r0 Hroot Hs1) as [_ ->]. by apply H.
Qed.

Lemma protected_spares entry k d : protectedRule entry -> forbiddenRootField k = true -> spares entry k d.
Proof.
  intros [Hset Hrem] Hf. split.
  - induction (ru_set entry) as [|[k' v] fs IH]; cbn [jlookup]; [done|]. apply Forall_cons in Hset as [H1 Hset].
    rewrite bool_decide_eq_false_2; [by apply IH|]. intros ->. cbn [fst] in H1. congruence.
  - eapply Forall_impl; [exact Hrem|]. intros [|root path]; [done|]. intros H ->. congruence.
Qed.

Lemma den_absent doc k r : den doc [k] = None -> den doc (k :: r) = None.
Proof. cbn. destruct doc; try done. by destruct (lookupLast members k). Qed.

Lemma continuation_spares entry k doc : ruleOk entry -> touchesContinuation entry (den doc) = false -> previousResponseID k = true ->
  spares entry k (den doc).
Proof.
  intros [_ Hne] Ht Hk. unfold touchesContinuation in Ht. apply orb_false_iff in Ht as [Hset Hrem]. split.
  - clear Hrem Hne. induction (ru_set entry) as [|[k' v] fs IH]; cbn [jlookup existsb fst] in *; [done|]. apply orb_false_iff in Hset as [H1 Hset].
    rewrite bool_decide_eq_false_2; [by apply IH|]. intros ->. congruence.
  - induction (ru_remove entry) as [|path paths IH]; cbn [existsb] in *; constructor; apply Forall_cons in Hne as [Hne1 Hne]; apply orb_false_iff in Hrem as [H1 Hrem].
    + destruct path as [|root path]; [done|]. intros -> r. apply den_absent. rewrite Hk in H1. by destruct (den doc [k]).
    + by apply IH.
Qed.

Lemma saved_untouched rules proto op model d : ValidateResponsesContinuation rules = Ok tt -> strEq proto OpenAIResponses = true ->
  existsb (fun r => touchesContinuation r d) (applicable rules proto op model) = false.
Proof.
  intros Hv Hp. unfold applicable. destruct (supports proto op); [|done]. induction rules as [|r rules IH]; [done|].
  cbn [List.filter ValidateResponsesContinuation] in *. destruct (matches r proto model) eqn:Em.
  - assert (strEq (ru_clientProtocol r) "" || strEq (ru_clientProtocol r) OpenAIResponses = true) as Hr.
    { unfold matches in Em. destruct (strEq (ru_clientProtocol r) ""); [done|]. cbn [negb andb orb] in *.
      destruct (strEq (ru_clientProtocol r) proto) eqn:E; [|done]. apply strEq_true in E as ->. done. }
    rewrite Hr in Hv. unfold validateResponsesContinuation in Hv. cbn [existsb]. unfold touchesContinuation at 1.
    destruct (existsb (fun f => previousResponseID f.1) (ru_set r)); [done|]. cbn [orb].
    destruct (validateRemoved (ru_remove r) None) as [o|] eqn:Er; [|done]. rewrite IH by done. rewrite orb_false_r. clear -Er.
    induction (ru_remove r) as [|[|root path] paths IHp]; cbn [validateRemoved existsb] in *; try done.
    destruct (previousResponseID root); [done|]. by apply IHp.
  - apply IH. by destruct (strEq (ru_clientProtocol r) "" || strEq (ru_clientProtocol r) OpenAIResponses), (validateResponsesContinuation r None).
Qed.

(** A rule names a root field when it sets it or removes something there. *)
Definition names (entry : rule) (k : bytes) : Prop := k ∈ (ru_set entry).*1 \/ exists path, k :: path ∈ ru_remove entry.

Lemma unnamed_spares entry k d : protectedRule entry -> ~ names entry k -> spares entry k d.
Proof.
  intros [_ Hrem] Hn. split.
  - assert (k ∉ (ru_set entry).*1) as Hk by (intros Hk; apply Hn; by left). clear -Hk.
    induction (ru_set entry) as [|[k' v] fs IH]; cbn [jlookup]; [done|]. rewrite fmap_cons, not_elem_of_cons in Hk. destruct Hk as [Hk1 Hk2].
    rewrite bool_decide_eq_false_2; [by apply IH|]. cbn in Hk1. congruence.
  - rewrite Forall_forall in Hrem. apply Forall_forall. intros [|root path] Hp; [by apply (Hrem [] Hp)|]. intros ->. destruct Hn. right. by exists path.
Qed.

(** C30: Compiled rules never change, set or remove the root fields "model", "stream" and "store"
    of a request, under any spelling the code folds to them, nor, for a response request,
    "previous_response_id", nor a root field that no matching rule names; and rules that were
    accepted when they were saved are never refused because of the continuation. *)
Theorem override_protects value rules proto op model body :
  decoded value -> Compile value = Ok rules ->
  (forall out, Apply rules proto op model body = Ok (out, true) ->
    exists doc doc', objectBody body = Some doc /\ out = render doc' /\ wellFormed doc'
      /\ forall k q,
           (exists name, name ∈ ["model"; "stream"; "store"]%string /\ EqualFold (of_bytes k) name = true)
           \/ proto = OpenAIResponses /\ EqualFold (of_bytes k) "previous_response_id" = true
           \/ (forall r, r ∈ rules -> matches r proto model = true -> ~ names r k) ->
           den doc' (k :: q) = den doc (k :: q))
  /\ (ValidateResponsesContinuation rules = Ok tt -> Apply rules proto op model body <> Err ContinuationChanged).
Proof.
  intros Hd Hc. pose proof (Compile_ok _ _ Hd Hc) as Hall. pose proof (compiled_rules _ _ Hd Hc) as Hok.
  destruct (decide (applicable rules proto op model = [])) as [Ea|Ha]; [rewrite Apply_none by done; by split|].
  destruct (objectBody body) as [doc|] eqn:Eo; [|rewrite Apply_refused by done; by split].
  pose proof (Apply_document rules proto op model body doc Hok Ha Eo) as Hspec. split.
  - intros out Hout. destruct (strEq proto OpenAIResponses && _) eqn:Et; [congruence|].
    destruct Hspec as (doc' & E & Hw & Hden). exists doc, doc'. split_and!; [done|congruence|done|]. intros k q Hk. rewrite Hden.
    apply applyRules_spares; [by apply objectBody_root in Eo|]. apply Forall_forall. intros r Hr.
    unfold applicable in Hr, Et. destruct (supports proto op); [|by apply elem_of_nil in Hr].
    assert (ruleOk r /\ protectedRule r) as [Hr1 Hr2].
    { pose proof (filter_ok (fun entry => matches entry proto model) rules Hall) as Hf. rewrite Forall_forall in Hf. by apply Hf. }
    destruct Hk as [(name & Hname & Hk)|[[-> Hk]|Hk]].
    { apply protected_spares; [done|]. apply existsb_exists. exists name. split; [by apply list_elem_of_In|done]. }
    2:{ apply unnamed_spares; [done|]. apply list_elem_of_In, filter_In in Hr as [Hr Hm]. by apply Hk; [apply list_elem_of_In|]. }
    change (strEq OpenAIResponses OpenAIResponses) with true in Et. cbn [andb] in Et.
    apply continuation_spares; [done| |done]. apply not_true_iff_false. intros Htrue. apply not_true_iff_false in Et. apply Et.
    apply existsb_exists. exists r. split; [by apply list_elem_of_In|done].
  - intros Hsaved. destruct (strEq proto OpenAIResponses) eqn:Ep; cbn [andb] in Hspec.
    + rewrite (saved_untouched rules proto op model (den doc) Hsaved Ep) in Hspec. destruct Hspec as (doc' & -> & _). done.
    + destruct Hspec as (doc' & -> & _). done.
Qed.

End Rules.

(** * A codec and a scanner with these laws, and a run *)

Definition hexChar (n : Z) : ascii := if n <? 10 then digitChar n else ascii_of_N (Z.to_N (87 + n)).
Definition hexValue (c : ascii) : Z := if isDigit c then digitVal c else byteZ c - 87.
Definition escapes (c : ascii) : bool := Ascii.eqb c dquote || Ascii.eqb c backslash || (byteZ c <? 32).
Definition escapeByte (c : ascii) : bytes :=
  if escapes c then [backslash; "u"; "0"; "0"; hexChar (byteZ c / 16); hexChar (byteZ c mod 16)]%char else [c].
Fixpoint exQuote (s : bytes) : bytes := match s with [] => [] | c :: r => escapeByte c ++ exQuote r end.
Fixpoint exDecode (l : bytes) : bytes :=
  match l with
  | [] => []
  | c :: r =>
      if Ascii.eqb c backslash then
        match r with
        | _ :: _ :: _ :: h1 :: h2 :: r' => ascii_of_N (Z.to_N (hexValue h1 * 16 + hexValue h2)) :: exDecode r'
        | _ => []
        end
      else c :: exDecode r
  end.
#[local] Instance exCodec : StringCodec :=
  {| quoteString := fun _ => exQuote; unquoteString := fun l => Some (if utf8Valid (exDecode l) then exDecode l else []) |}.

Lemma escape_facts c : escapes c = true ->
  isHex (hexChar (byteZ c / 16)) = true /\ isHex (hexChar (byteZ c mod 16)) = true
  /\ ascii_of_N (Z.to_N (hexValue (hexChar (byteZ c / 16)) * 16 + hexValue (hexChar (byteZ c mod 16)))) = c.
Proof. destruct c as [[] [] [] [] [] [] [] []]; try done; by vm_compute. Qed.

Lemma exQuote_content s : isContent (exQuote s).
Proof.
  unfold isContent. induction s as [|c s IH]; [done|]. cbn [exQuote]. unfold escapeByte. destruct (escapes c) eqn:E.
  - destruct (escape_facts c E) as (H1 & H2 & _). cbn. rewrite H1, H2. cbn. by rewrite IH.
  - unfold escapes in E. apply orb_false_iff in E as [E1 E2]. apply orb_false_iff in E1 as [E0 E1]. cbn. by rewrite E0, E1, E2, IH.
Qed.

Lemma exDecode_quote s : exDecode (exQuote s) = s.
Proof.
  induction s as [|c s IH]; [done|]. cbn [exQuote]. unfold escapeByte. destruct (escapes c) eqn:E.
  - destruct (escape_facts c E) as (_ & _ & H3). cbn. by rewrite H3, IH.
  - unfold escapes in E. apply orb_false_iff in E as [E1 _]. apply orb_false_iff in E1 as [_ E1]. cbn. by rewrite E1, IH.
Qed.

Lemma exQuote_plain s : backslash ∉ exQuote s -> exQuote s = s.
Proof.
  induction s as [|c s IH]; [done|]. cbn [exQuote]. unfold escapeByte. destruct (escapes c); cbn.
  - intros H. destruct H. by left.
  - intros H. f_equal. apply IH. intros ?. apply H. by right.
Qed.

#[local] Instance exCodec_laws : StringCodecLaws.
Proof.
  split.
  - intros html s. apply exQuote_content.
  - intros content _. by eexists.
  - intros content s _. unfold memberName. destruct (_ || _) eqn:E.
    + cbn [unquoteString exCodec]. intros [= <-]. by destruct (utf8Valid (exDecode content)) eqn:Eu.
    + apply orb_false_iff in E as [_ E]. intros [= <-]. by apply negb_false_iff in E.
  - intros html s Hs. unfold memberName. cbn [quoteString unquoteString exCodec]. destruct (_ || _) eqn:E.
    + by rewrite exDecode_quote, Hs.
    + apply orb_false_iff in E as [E _]. apply bool_decide_eq_false in E. by rewrite exQuote_plain.
Qed.

Definition exGet (l : bytes) : option (bytes * nat) :=
  match parseValue (S (length l)) l with
  | Some (CString s, r) => Some (s, (length l - length r)%nat)
  | Some (v, r) => Some (render v, (length l - length r)%nat)
  | None => None
  end.
#[local] Instance exScanner : JsonScanner := {| jsonGet := exGet |}.

#[local] Instance exScanner_laws : JsonScannerLaws.
Proof.
  split.
  - intros s r Hs. cbn [jsonGet exScanner]. unfold exGet. cbn [parseValue quoted app].
    change (Ascii.eqb dquote "{") with false. change (Ascii.eqb dquote "[") with false. rewrite Ascii.eqb_refl.
    rewrite <- app_assoc. cbn [app]. rewrite scanString_content by done. f_equal. f_equal. cbn. rewrite !length_app. cbn. lia.
  - intros v r Hw Hr. cbn [jsonGet exScanner]. unfold exGet. destruct parse_complete as [Hc _]. destruct csize_render as [Hs _].
    rewrite Hc; [|done|rewrite length_app; specialize (Hs v Hw); lia|].
    + rewrite length_app. replace (length (render v) + length r - length r)%nat with (length (render v)) by lia.
      destruct v; by eexists.
    + destruct r as [|c r]; [done|]. cbn in Hr |- *. unfold isTokenByte. destruct Hr as [->|[->|[->| ->]]]; done.
Qed.

#[local] Instance exText : GoText := asciiText.
#[local] Instance exFloat : FloatText := {| ParseFloat := fun l => Some (mkFloat false (bool_decide (l = ["0"%char])) false l) |}.

(** One rule: merge [b] into the object [a], remove [x]. *)
Definition exConfig : json :=
  JArray [JObject [(bytes_of "set", JObject [(bytes_of "a", JObject [(bytes_of "b", JNumber (bytes_of "2"))])]);
                   (bytes_of "remove", JArray [JString (bytes_of "/x")])]].
Definition exRules : list rule :=
  [mkRule "" "" false [(bytes_of "a", JObject [(bytes_of "b", JNumber (bytes_of "2"))])] [[bytes_of "x"]]].
Definition exRequestBody : bytes :=
  encode false (JObject [(bytes_of "a", JObject [(bytes_of "c", JNumber (bytes_of "1"))]); (bytes_of "model", JString (bytes_of "m"));
                         (bytes_of "x", JNumber (bytes_of "3"))]).
Definition exEditedBody : bytes :=
  let name s := quoted (bytes_of s) in
  bytes_of "{" ++ name "model" ++ bytes_of ":" ++ name "m" ++ bytes_of "," ++ name "a" ++ bytes_of ":{" ++ name "c" ++ bytes_of ":1,"
  ++ name "b" ++ bytes_of ":2}}".

Example ex_compile : Compile exConfig = Ok exRules.
Proof. vm_compute. reflexivity. Qed.

Lemma exConfig_decoded : decoded exConfig.
Proof. vm_compute. repeat split; repeat constructor; rewrite ?elem_of_cons, ?elem_of_nil; intuition congruence. Qed.

Example ex_apply : Apply exRules OpenAICompletions OperationChatCompletion "m" exRequestBody = Ok (exEditedBody, true).
Proof. vm_compute. reflexivity. Qed.

Lemma override_exact_witness :
  exists doc', Apply exRules OpenAICompletions OperationChatCompletion "m" exRequestBody = Ok (render doc', true)
    /\ den doc' [bytes_of "a"; bytes_of "b"] = Some (VValue (bytes_of "2")) /\ den doc' [bytes_of "a"; bytes_of "c"] = Some (VValue (bytes_of "1"))
    /\ den doc' [bytes_of "x"] = None.
Proof.
  pose proof (override_exact exConfig exRules OpenAICompletions OperationChatCompletion "m" exRequestBody exConfig_decoded ex_compile) as H.
  assert (applicable exRules OpenAICompletions OperationChatCompletion "m" = exRules) as Ea by (by vm_compute).
  destruct (objectBody exRequestBody) as [doc|] eqn:Eo; [|by vm_compute in Eo].
  rewrite Ea in H. destruct H as (doc' & H1 & _ & H2). exists doc'. rewrite !H2. injection Eo as <-. by vm_compute.
Defined.

Lemma override_protects_witness :
  exists doc doc', objectBody exRequestBody = Some doc /\ Apply exRules OpenAICompletions OperationChatCompletion "m" exRequestBody = Ok (render doc', true)
    /\ den doc' [bytes_of "model"] = den doc [bytes_of "model"] /\ Apply exRules OpenAIResponses OperationResponsesCreate "m" exRequestBody <> Err ContinuationChanged.
Proof.
  destruct (override_protects exConfig exRules OpenAICompletions OperationChatCompletion "m" exRequestBody exConfig_decoded ex_compile) as [H _].
  destruct (H exEditedBody ex_apply) as (doc & doc' & H1 & E & _ & H2). exists doc, doc'. split_and!; [done|by rewrite ex_apply, E| |].
  - apply (H2 (bytes_of "model") []). left. exists "model"%string. split; [constructor|by vm_compute].
  - apply (override_protects exConfig exRules OpenAIResponses OperationResponsesCreate "m" exRequestBody exConfig_decoded ex_compile). by vm_compute.
Defined.
