(* ===== verification/ControlAuth.v ===== *)
(** Access to the control plane ([internal/control/auth.go], [auth_limiter.go]): the
    authenticator that runs before every control route, and the limiter that locks out a peer
    after repeated failures.

    The limiter's methods run under its mutex, so that a call is one step.  The slice of
    failures is compacted in place, which is unobservable: it is reachable only through the
    entry that is stored back. *)
From Stdlib Require Import Ascii.
From S2P Require Import Prelude GoStrings Execution.

Local Open Scope Z_scope.
Local Open Scope go_scope.

(** * The limiter *)

Definition authFailureWindow : Z := 30 * minute.
Definition authFailureLimit : Z := 5.
Definition authLockDuration : Z := 30 * minute.
Definition authCleanupInterval : Z := minute.

Record authFailureEntry := mkFailureEntry { fe_failures : list Z; fe_lockedUntil : Z }.
Record authDecision := mkAuthDecision { ad_authorized : bool; ad_retryAfter : Z; ad_newlyLocked : bool }.
Record authFailureLimiter := mkAuthLimiter { al_entries : gmap string authFailureEntry; al_lastCleanup : Z }.

Definition newAuthFailureLimiter : authFailureLimiter := mkAuthLimiter ∅ 0.

Definition retainRecentFailures (values : list Z) (cutoff : Z) : list Z := List.filter (fun v => cutoff <? v) values.

(** What the sweep leaves of an entry. *)
Definition cleanupEntry (now : Z) (entry : authFailureEntry) : option authFailureEntry :=
  if negb (isZeroTime (fe_lockedUntil entry)) then
    if negb (now <? fe_lockedUntil entry) then None else Some entry
  else
    match retainRecentFailures (fe_failures entry) (now - authFailureWindow) with
    | [] => None
    | recent => Some (mkFailureEntry recent (fe_lockedUntil entry))
    end.

Definition cleanup (l : authFailureLimiter) (now : Z) : authFailureLimiter :=
  if negb (isZeroTime (al_lastCleanup l)) && (now <? al_lastCleanup l + authCleanupInterval) then l
  else mkAuthLimiter (omap (cleanupEntry now) (al_entries l)) now.

Definition evaluate (l : authFailureLimiter) (now : Z) (peer : string) (credentialValid : bool) : authDecision * authFailureLimiter :=
  let l1 := cleanup l now in
  if credentialValid then (mkAuthDecision true 0 false, mkAuthLimiter (delete peer (al_entries l1)) (al_lastCleanup l1))
  else
    let entry := mget (mkFailureEntry [] 0) (al_entries l1) peer in
    if now <? fe_lockedUntil entry then (mkAuthDecision false (timeSub (fe_lockedUntil entry) now) false, l1)
    else
      let entry := if negb (isZeroTime (fe_lockedUntil entry)) then mkFailureEntry [] 0 else entry in
      let failures := retainRecentFailures (fe_failures entry) (now - authFailureWindow) ++ [now] in
      if authFailureLimit <=? Z.of_nat (length failures) then
        (mkAuthDecision false authLockDuration true,
         mkAuthLimiter (<[peer := mkFailureEntry [] (now + authLockDuration)]> (al_entries l1)) (al_lastCleanup l1))
      else
        (mkAuthDecision false 0 false,
         mkAuthLimiter (<[peer := mkFailureEntry failures (fe_lockedUntil entry)]> (al_entries l1)) (al_lastCleanup l1)).

(** ** The limiter as a history

    What the limiter promises, in terms of what happened to a peer so far, newest first. *)
Inductive event := Accepted | Failed (t : Z) | Locked (t : Z) | Refused.

Fixpoint lastLock (evs : list event) : option Z :=
  match evs with
  | [] | Accepted :: _ => None
  | Locked t :: _ => Some t
  | _ :: r => lastLock r
  end.

(** The failures of the last half hour since the peer was accepted or locked out. *)
Fixpoint recentFailures (now : Z) (evs : list event) : list Z :=
  match evs with
  | [] | Accepted :: _ | Locked _ :: _ => []
  | Failed t :: r => recentFailures now r ++ (if now - authFailureWindow <? t then [t] else [])
  | Refused :: r => recentFailures now r
  end.

Definition expected (evs : list event) (now : Z) (valid : bool) : authDecision * event :=
  if valid then (mkAuthDecision true 0 false, Accepted)
  else
    let fails :=
      if authFailureLimit <=? Z.of_nat (length (recentFailures now evs)) + 1
      then (mkAuthDecision false authLockDuration true, Locked now) else (mkAuthDecision false 0 false, Failed now) in
    match lastLock evs with
    | Some t => if now <? t + authLockDuration then (mkAuthDecision false (t + authLockDuration - now) false, Refused) else fails
    | None => fails
    end.

(** A run: calls in the order of the clock, with the decisions made and the history of every
    peer. *)
Inductive auth_run : authFailureLimiter -> (string -> list event) -> Z -> list (authDecision * authDecision) -> Prop :=
| run_start clock : 0 < clock -> auth_run newAuthFailureLimiter (fun _ => []) clock []
| run_call l h clock log now peer valid :
    auth_run l h clock log -> clock <= now ->
    auth_run (evaluate l now peer valid).2
      (fun p => if bool_decide (p = peer) then (expected (h peer) now valid).2 :: h peer else h p) now
      (((evaluate l now peer valid).1, (expected (h peer) now valid).1) :: log).

(** The failures and locks of the last half hour since the peer was last accepted. *)
Fixpoint attemptsIn (now : Z) (evs : list event) : Z :=
  match evs with
  | [] | Accepted :: _ => 0
  | Failed t :: r | Locked t :: r => (if now - authFailureWindow <? t then 1 else 0) + attemptsIn now r
  | Refused :: r => attemptsIn now r
  end.

(** ** The invariant *)

Definition event_before (clock : Z) (e : event) : Prop :=
  match e with Failed t | Locked t => 0 < t <= clock | _ => True end.

(** A lock since which the peer was only refused. *)
Fixpoint openLock (evs : list event) : option Z :=
  match evs with Refused :: r => openLock r | Locked t :: _ => Some t | _ => None end.

(** The entry of a peer says about every instant from [clock] on what the history says. *)
Definition entry_ok (clock : Z) (evs : list event) (entry : option authFailureEntry) : Prop :=
  match openLock evs with
  | Some t => 0 < t <= clock /\ (entry = None /\ t + authLockDuration <= clock \/ exists fs, entry = Some (mkFailureEntry fs (t + authLockDuration)))
  | None =>
      (forall t, lastLock evs = Some t -> t + authLockDuration <= clock)
      /\ forall now, clock <= now ->
         match entry with
         | None => recentFailures now evs = []
         | Some e => fe_lockedUntil e = 0 /\ retainRecentFailures (fe_failures e) (now - authFailureWindow) = recentFailures now evs
         end
  end.

Lemma openLock_last evs t : openLock evs = Some t -> lastLock evs = Some t /\ forall now, recentFailures now evs = [].
Proof. by induction evs as [|[| | |] r IH]; cbn; try done; intros [= ->]. Qed.

Lemma retain_app a b c : retainRecentFailures (a ++ b) c = retainRecentFailures a c ++ retainRecentFailures b c.
Proof. apply List.filter_app. Qed.

(** A later cutoff is all that counts. *)
Lemma retain_retain l c c' : c <= c' -> retainRecentFailures (retainRecentFailures l c) c' = retainRecentFailures l c'.
Proof.
  intros Hc. unfold retainRecentFailures. induction l as [|v l IH]; [done|]. cbn. destruct (Z.ltb_spec c v); cbn; [by rewrite IH|].
  destruct (Z.ltb_spec c' v); [lia|done].
Qed.

Lemma entry_ok_later clock clock' evs entry : clock <= clock' -> entry_ok clock evs entry -> entry_ok clock' evs entry.
Proof.
  unfold entry_ok. intros Hle. destruct (openLock evs) as [t|].
  - intros [Ht [[-> Hx]|Hx]]; (split; [lia|]); [left; split; [done|lia]|by right].
  - intros [Hl Hr]. split.
    + intros t Ht. specialize (Hl t Ht). lia.
    + intros now Hn. apply Hr. lia.
Qed.

Lemma cleanupEntry_ok now evs entry : entry_ok now evs entry -> entry_ok now evs (entry ≫= cleanupEntry now).
Proof.
  unfold entry_ok. destruct (openLock evs) as [t|].
  - intros [Ht Hx]. split; [done|]. destruct Hx as [[-> Hx]|[fs ->]]; [by left|]. cbn. unfold cleanupEntry. cbn [fe_lockedUntil].
    unfold isZeroTime. rewrite (proj2 (Z.eqb_neq _ _)) by (unfold authLockDuration, minute; lia). cbn [negb].
    destruct (Z.ltb_spec now (t + authLockDuration)); cbn [negb]; [right; by eexists|left; split; [done|lia]].
  - intros [Hl Hr]. split; [done|]. intros now' Hn. specialize (Hr now' Hn) as Hr'. destruct entry as [e|]; [|done]. cbn.
    destruct (Hr now (Z.le_refl _)) as [E0 _]. destruct Hr' as [_ Hr']. unfold cleanupEntry, isZeroTime. rewrite E0. cbn [negb Z.eqb].
    pose proof (retain_retain (fe_failures e) (now - authFailureWindow) (now' - authFailureWindow) ltac:(lia)) as Hrr.
    destruct (retainRecentFailures (fe_failures e) (now - authFailureWindow)) as [|x l]; cbn [fe_lockedUntil fe_failures]; [by rewrite <- Hr', <- Hrr|].
    split; [done|]. by rewrite Hrr.
Qed.

Lemma cleanup_ok l clock now evs peer : clock <= now -> entry_ok clock evs (al_entries l !! peer) -> entry_ok now evs (al_entries (cleanup l now) !! peer).
Proof.
  intros Hle He. apply (entry_ok_later _ _ _ _ Hle) in He. unfold cleanup. destruct (_ && _); [done|]. cbn. rewrite lookup_omap. by apply cleanupEntry_ok.
Qed.

(** Without an open lock the entry holds the recent failures. *)
Lemma entry_failures clock evs entry : openLock evs = None -> entry_ok clock evs entry ->
  let e := default (mkFailureEntry [] 0) entry in
  fe_lockedUntil e = 0 /\ forall now, clock <= now -> retainRecentFailures (fe_failures e) (now - authFailureWindow) = recentFailures now evs.
Proof.
  unfold entry_ok. intros ->. intros [_ Hr]. cbv zeta. destruct entry as [e|]; cbn in *.
  - split; [by apply (Hr clock)|]. intros now Hn. by apply Hr.
  - split; [done|]. intros now Hn. by rewrite Hr.
Qed.

Lemma failed_ok now evs e :
  (forall t, lastLock evs = Some t -> t + authLockDuration <= now) -> fe_lockedUntil e = 0 ->
  (forall now', now <= now' -> retainRecentFailures (fe_failures e) (now' - authFailureWindow) = recentFailures now' evs) ->
  entry_ok now (Failed now :: evs) (Some (mkFailureEntry (retainRecentFailures (fe_failures e) (now - authFailureWindow) ++ [now]) 0)).
Proof.
  intros Hl He Hr. unfold entry_ok. cbn [openLock lastLock recentFailures]. split; [done|]. intros now' Hn. split; [done|]. cbn [fe_failures].
  rewrite retain_app, retain_retain by lia. rewrite Hr by done. cbn. by destruct (now' - authFailureWindow <? now).
Qed.

Lemma auth_locked_ok now evs : 0 < now -> entry_ok now (Locked now :: evs) (Some (mkFailureEntry [] (now + authLockDuration))).
Proof. intros Hn. unfold entry_ok. cbn. split; [lia|]. right. by eexists. Qed.

(** The only failure of an entry that is empty. *)
Ltac first_failure :=
  change (negb (isZeroTime 0)) with false; cbv iota; cbn [fe_failures fe_lockedUntil];
  match goal with |- context [authFailureLimit <=? Z.of_nat (length (retainRecentFailures [] ?c ++ ?l))] =>
    change (authFailureLimit <=? Z.of_nat (length (retainRecentFailures [] c ++ l))) with false
  end;
  cbn [fst snd al_entries]; split; [done|]; rewrite lookup_insert_eq.

(** One call: the decision is the expected one, and the entry of the peer follows. *)
Lemma evaluate_ok l clock now evs peer valid :
  0 < clock -> clock <= now -> entry_ok clock evs (al_entries l !! peer) ->
  (evaluate l now peer valid).1 = (expected evs now valid).1
  /\ entry_ok now ((expected evs now valid).2 :: evs) (al_entries (evaluate l now peer valid).2 !! peer).
Proof.
  intros Hpos Hle He. apply (cleanup_ok _ _ _ _ _ Hle) in He. unfold evaluate, expected. destruct valid.
  { cbn. split; [done|]. unfold entry_ok. cbn. split; [done|]. intros now' _. by rewrite lookup_delete_eq. }
  set (l1 := cleanup l now) in *. unfold mget. destruct (openLock evs) as [t|] eqn:Eo.
  - destruct (openLock_last _ _ Eo) as [El Er]. rewrite El, Er. change (authFailureLimit <=? Z.of_nat (length (@nil Z)) + 1) with false.
    unfold entry_ok in He. rewrite Eo in He. destruct He as [Ht [[En Hx]|[fs Es]]].
    + rewrite En. cbn [from_option id fe_lockedUntil fe_failures]. rewrite (proj2 (Z.ltb_ge now 0)) by lia.
      rewrite (proj2 (Z.ltb_ge now (t + authLockDuration))) by lia. first_failure.
      apply (failed_ok now evs (mkFailureEntry [] 0)); [rewrite El; intros ? [= <-]; lia|done|]. intros now' _. by rewrite Er.
    + rewrite Es. cbn [from_option id fe_lockedUntil fe_failures]. destruct (Z.ltb_spec now (t + authLockDuration)).
      * cbn. split; [f_equal; unfold timeSub, minInt64, maxInt64, authLockDuration, minute in *; lia|].
        unfold entry_ok. cbn. rewrite Eo, Es. split; [done|]. right. by eexists.
      * unfold isZeroTime. rewrite (proj2 (Z.eqb_neq _ _)) by (unfold authLockDuration, minute in *; lia).
        cbn [negb fe_failures fe_lockedUntil]. first_failure.
        apply (failed_ok now evs (mkFailureEntry [] 0)); [rewrite El; intros ? [= <-]; lia|done|]. intros now' _. by rewrite Er.
  - destruct (entry_failures _ _ _ Eo He) as [E0 Hr]. unfold entry_ok in He. rewrite Eo in He. destruct He as [Hl _].
    set (e := default (mkFailureEntry [] 0) (al_entries l1 !! peer)) in *. rewrite E0.
    rewrite (proj2 (Z.ltb_ge now 0)) by lia. cbn [isZeroTime Z.eqb negb]. rewrite Hr, length_app by lia. cbn [length].
    rewrite Nat2Z.inj_add. change (Z.of_nat 1) with 1.
    assert (match lastLock evs with Some t => now <? t + authLockDuration | None => false end = false) as Hlock.
    { destruct (lastLock evs) as [t|]; [|done]. apply Z.ltb_ge. by apply Hl. }
    rewrite <- (Hr now) by lia. destruct (authFailureLimit <=? _).
    + destruct (lastLock evs) as [t|]; rewrite ?Hlock; cbn [fst snd al_entries]; rewrite lookup_insert_eq; (split; [done|]); apply auth_locked_ok; lia.
    + rewrite E0. destruct (lastLock evs) as [t|] eqn:El; rewrite ?Hlock; cbn [fst snd al_entries]; rewrite lookup_insert_eq; (split; [done|]);
        apply failed_ok; auto; by rewrite El.
Qed.

Lemma evaluate_other l clock now evs peer other valid : clock <= now -> other <> peer -> entry_ok clock evs (al_entries l !! other) ->
  entry_ok now evs (al_entries (evaluate l now peer valid).2 !! other).
Proof.
  intros Hle Hne He. apply (cleanup_ok _ _ _ _ _ Hle) in He. unfold evaluate.
  destruct valid; cbn; [by rewrite lookup_delete_ne|]. destruct (now <? _); [done|]. destruct (authFailureLimit <=? _); cbn; by rewrite lookup_insert_ne.
Qed.

(** ** How much a peer can try *)

Fixpoint timed (clock : Z) (evs : list event) : Prop :=
  match evs with
  | [] => True
  | e :: r => event_before clock e /\ timed (match e with Failed t | Locked t => t | _ => clock end) r
  end.

Definition history_ok (clock : Z) (evs : list event) : Prop :=
  timed clock evs /\ forall now, clock <= now -> Z.of_nat (length (recentFailures now evs)) < authFailureLimit /\ attemptsIn now evs <= authFailureLimit.

Lemma timed_later clock clock' evs : clock <= clock' -> timed clock evs -> timed clock' evs.
Proof.
  revert clock clock'. induction evs as [|e r IH]; intros c c' Hc; cbn; [done|]. intros [He Hr]. split; [destruct e; cbn in *; lia|].
  destruct e; [by eapply IH|done|done|by eapply IH].
Qed.

Lemma recent_later now now' evs : now <= now' -> (length (recentFailures now' evs) <= length (recentFailures now evs))%nat.
Proof.
  intros Hle. induction evs as [|[|t|t|] r IH]; cbn; try lia. rewrite !length_app.
  destruct (Z.ltb_spec (now - authFailureWindow) t), (Z.ltb_spec (now' - authFailureWindow) t); cbn; lia.
Qed.

Lemma attempts_old clock now evs : timed clock evs -> clock <= now - authFailureWindow -> attemptsIn now evs = 0.
Proof.
  revert clock. induction evs as [|[|t|t|] r IH]; intros c; cbn; try done; intros [He Hr] Hc.
  - rewrite (proj2 (Z.ltb_ge _ _)) by lia. rewrite (IH t); [done|done|lia].
  - rewrite (proj2 (Z.ltb_ge _ _)) by lia. rewrite (IH t); [done|done|lia].
  - by apply (IH c).
Qed.

(** Once the last lock is over, only the failures since then are recent. *)
Lemma attempts_since_lock clock now evs : timed clock evs -> (forall t, lastLock evs = Some t -> t + authLockDuration <= now) ->
  attemptsIn now evs = Z.of_nat (length (recentFailures now evs)).
Proof.
  revert clock. induction evs as [|[|t|t|] r IH]; intros c; cbn [attemptsIn recentFailures lastLock timed]; try done; intros [He Hr] Hl.
  - rewrite length_app, Nat2Z.inj_add, <- (IH t) by done. destruct (now - authFailureWindow <? t); cbn; lia.
  - specialize (Hl t eq_refl). unfold authLockDuration in Hl. unfold authFailureWindow in *.
    rewrite (proj2 (Z.ltb_ge _ _)) by lia. rewrite (attempts_old t); [done|done|unfold authFailureWindow; lia].
  - by apply (IH c).
Qed.

Lemma history_step clock now evs valid : 0 < clock -> clock <= now -> history_ok clock evs -> history_ok now ((expected evs now valid).2 :: evs).
Proof.
  intros Hpos Hle [Ht Hb]. pose proof (timed_later _ _ _ Hle Ht) as Ht'. unfold expected. destruct valid.
  { split; [by split|]. intros now' Hn. cbn. unfold authFailureLimit. lia. }
  assert ((forall t, lastLock evs = Some t -> t + authLockDuration <= now) ->
    history_ok now ((if authFailureLimit <=? Z.of_nat (length (recentFailures now evs)) + 1
      then (mkAuthDecision false authLockDuration true, Locked now) else (mkAuthDecision false 0 false, Failed now)).2 :: evs)) as Hfail.
  { intros Hl. destruct (Hb now Hle) as [Hr _].
    assert (forall now', now <= now' -> attemptsIn now' evs = Z.of_nat (length (recentFailures now' evs))
      /\ (length (recentFailures now' evs) <= length (recentFailures now evs))%nat) as Hnow.
    { intros now' Hn. split; [|by apply recent_later]. eapply attempts_since_lock; [exact Ht|]. intros t Et. specialize (Hl t Et). lia. }
    destruct (Z.leb_spec authFailureLimit (Z.of_nat (length (recentFailures now evs)) + 1)); (split; [split; [cbn; lia|done]|]);
      intros now' Hn; destruct (Hnow now' Hn) as [Ea Hlen]; cbn [attemptsIn recentFailures snd]; rewrite Ea, ?length_app;
      repeat case_match; cbn; unfold authFailureLimit in *; lia. }
  destruct (lastLock evs) as [t|] eqn:El; [|by apply Hfail]. destruct (Z.ltb_spec now (t + authLockDuration)).
  - split; [by split|]. intros now' Hn. cbn. apply Hb. lia.
  - apply Hfail. intros ? [= <-]. lia.
Qed.

Lemma auth_run_ok l h clock log : auth_run l h clock log ->
  0 < clock /\ (forall peer, entry_ok clock (h peer) (al_entries l !! peer)) /\ (forall peer, history_ok clock (h peer)) /\ Forall (fun d => d.1 = d.2) log.
Proof.
  induction 1 as [clock Hpos|l h clock log now peer valid Hrun (Hpos & He & Hh & Hlog) Hle].
  - split_and!; [done| |intros peer; split; [done|intros now _; cbn; unfold authFailureLimit; lia]|constructor].
    intros peer. unfold entry_ok. cbn. split; [done|]. intros now _. by rewrite lookup_empty.
  - destruct (evaluate_ok l clock now (h peer) peer valid Hpos Hle (He peer)) as [Hd He']. split_and!; [lia| | |by constructor].
    + intros p. case_bool_decide; [by subst|]. by eapply evaluate_other.
    + intros p. case_bool_decide; [by apply (history_step clock)|]. destruct (Hh p) as [Ht Hb]. split; [by eapply timed_later|].
      intros now' Hn. apply Hb. lia.
Qed.

(** C29: The limiter decides by the history of the peer alone: whatever calls for other peers and
    sweeps come between, a valid credential passes and clears the peer, a peer is locked out for
    exactly half an hour by its fifth failure within half an hour and told the time that is
    left, and in no half hour does a peer get more than five failures in between two accepted
    calls. *)
Theorem auth_lockout_exact l h clock log :
  auth_run l h clock log ->
  Forall (fun d => d.1 = d.2) log
  /\ (forall now peer valid, clock <= now -> (evaluate l now peer valid).1 = (expected (h peer) now valid).1)
  /\ forall peer now, clock <= now -> attemptsIn now (h peer) <= authFailureLimit.
Proof.
  intros Hrun. destruct (auth_run_ok _ _ _ _ Hrun) as (Hpos & He & Hh & Hlog). split_and!; [done| |].
  - intros now peer valid Hn. by apply (evaluate_ok l clock).
  - intros peer now Hn. by apply (Hh peer).
Qed.

(** * The authenticator *)

(** [strings.Fields]: [skip] bytes of a blank rune are left. *)
Definition spaceWidth (l : list ascii) : nat :=
  match l with
  | a :: l1 =>
      if space1 a then 1
      else match l1 with
      | b :: l2 => if space2 a b then 2 else match l2 with c :: _ => if space3 a b c then 3 else 0 | [] => 0 end
      | [] => 0
      end
  | [] => 0
  end.
Fixpoint fieldsFrom (skip : nat) (word : list ascii) (l : list ascii) : list (list ascii) :=
  let flush := match word with [] => [] | _ => [word] end in
  match l with
  | [] => flush
  | c :: r =>
      match skip with
      | S n => fieldsFrom n word r
      | O =>
          match spaceWidth l with
          | S n => flush ++ fieldsFrom n [] r
          | O => fieldsFrom 0 (word ++ [c]) r
          end
      end
  end.
Definition Fields (s : string) : list string := of_bytes <$> fieldsFrom 0 [] (bytes_of s).

Inductive controlPrincipal := PrincipalNone | PrincipalAdmin | PrincipalAccessKey (id : Z).

Record accessKeyAuthMatch := mkAuthMatch { am_AccessKeyID : Z; am_HashMatched : bool; am_PolicyAllowed : bool }.

(** What the authenticator reads of an access key of the snapshot. *)
Record controlAccessKey := mkControlKey { ck_ID : Z; ck_ExpiresAtMS : option Z; ck_AllowedPeerCIDRs : list string }.

Definition accessKeyControlRoutes : list string :=
  ["/api/auth/session"; "/api/home"; "/api/home/statistics"; "/api/models"; "/api/usage"; "/api/logs"; "/api/logs/:request_id"]%string.

(** The server: digests, the keys in force by the hash of their token, and address prefixes. *)
Class ControlServer := {
  sha256 : string -> string;
  authDigest : string;
  tokenHash : string -> string; (* [encryption.Hash] *)
  accessKeysByHash : option (gmap string controlAccessKey); (* [None]: no service, or no snapshot *)
  cidrContains : string -> string -> bool; (* [prefix.Contains] of the peer's address; false for no address *)
  foldsToBearer : string -> bool (* [strings.EqualFold(s, "Bearer")] *)
}.

Record controlRequest := mkControlRequest {
  cr_peer : option string; (* [utils.ClientIP] *)
  cr_Authorization : string;
  cr_method : string;
  cr_path : string
}.

Inductive authOutcome :=
| PeerUnknown
| AuthLocked (seconds : Z)
| Unauthorized
| Forbidden
| AccessGranted (principal : controlPrincipal).

Section Authenticate.
Context `{ControlServer}.

Definition retryAfterSeconds (remaining : Z) : Z :=
  let seconds := Z.quot (remaining + second - 1) second in if seconds <? 1 then 1 else seconds.

Definition noMatch : accessKeyAuthMatch := mkAuthMatch 0 false false.

Definition matchAccessKey (token : string) (requestStarted : Z) (peer : string) : accessKeyAuthMatch :=
  match accessKeysByHash with
  | None => noMatch
  | Some keys =>
      let fingerprint := tokenHash token in
      if strEq fingerprint "" then noMatch
      else
        match keys !! fingerprint with
        | None => noMatch
        | Some key =>
            if ck_ID key =? 0 then noMatch
            else if match ck_ExpiresAtMS key with Some e => e <=? unixMilli requestStarted | None => false end then mkAuthMatch (ck_ID key) true false
            else if negb (bool_decide (ck_AllowedPeerCIDRs key = [])) && negb (existsb (fun p => cidrContains p peer) (ck_AllowedPeerCIDRs key))
                 then mkAuthMatch (ck_ID key) true false
            else mkAuthMatch (ck_ID key) true true
        end
  end.

Definition principalCanAccessControlRoute (principal : controlPrincipal) (method path : string) : bool :=
  match principal with
  | PrincipalAdmin => true
  | PrincipalAccessKey _ => strEq method "GET" && bool_decide (path ∈ accessKeyControlRoutes)
  | PrincipalNone => false
  end.

(** The token of a well-formed header. *)
Definition bearerToken (header : string) : option string :=
  match Fields header with [scheme; token] => if foldsToBearer scheme then Some token else None | _ => None end.

(** Whether the credential is valid, and whose it is. *)
Definition validCredential (formatValid adminMatches : bool) (m : accessKeyAuthMatch) : bool :=
  let collision := adminMatches && am_HashMatched m in
  formatValid && negb collision && (adminMatches || am_PolicyAllowed m).
Definition principalOf (formatValid adminMatches : bool) (m : accessKeyAuthMatch) : controlPrincipal :=
  if validCredential formatValid adminMatches m
  then if adminMatches then PrincipalAdmin else PrincipalAccessKey (am_AccessKeyID m) else PrincipalNone.
Definition isAccessKey (p : controlPrincipal) : bool := match p with PrincipalAccessKey _ => true | _ => false end.

(** The clock is read once for the access key and once, under its lock, by the limiter. *)
Definition authenticate (l : authFailureLimiter) (requestNow now : Z) (r : controlRequest) : authOutcome * authFailureLimiter :=
  match cr_peer r with
  | None => (PeerUnknown, l)
  | Some peer =>
      let formatValid := isSome (bearerToken (cr_Authorization r)) in
      let token := default EmptyString (bearerToken (cr_Authorization r)) in
      let adminMatches := strEq (sha256 token) authDigest in
      let accessKeyMatch := matchAccessKey token requestNow peer in
      let credentialValid := validCredential formatValid adminMatches accessKeyMatch in
      let principal := principalOf formatValid adminMatches accessKeyMatch in
      let policyRejectedAccessKey := formatValid && am_HashMatched accessKeyMatch && negb adminMatches && negb (am_PolicyAllowed accessKeyMatch) in
      let '(decision, l1) :=
        if isAccessKey principal || policyRejectedAccessKey then (mkAuthDecision (isAccessKey principal) 0 false, l)
        else evaluate l now peer credentialValid in
      if 0 <? ad_retryAfter decision then (AuthLocked (retryAfterSeconds (ad_retryAfter decision)), l1)
      else if negb (ad_authorized decision) then (Unauthorized, l1)
      else if negb (principalCanAccessControlRoute principal (cr_method r) (cr_path r)) then (Forbidden, l1)
      else (AccessGranted principal, l1)
  end.

(** ** Who gets in *)

Definition keyInForce (token : string) (key : controlAccessKey) : Prop :=
  (exists keys, accessKeysByHash = Some keys /\ tokenHash token <> EmptyString /\ keys !! tokenHash token = Some key) /\ ck_ID key <> 0.
Definition keyAllowed (requestNow : Z) (peer : string) (key : controlAccessKey) : Prop :=
  (forall e, ck_ExpiresAtMS key = Some e -> unixMilli requestNow < e)
  /\ (ck_AllowedPeerCIDRs key = [] \/ Exists (fun p => cidrContains p peer = true) (ck_AllowedPeerCIDRs key)).

(** The credential a request shows: the administrator's key, unless an access key shares its
    token, or an access key in force that has not expired and is used from an allowed peer. *)
Definition grants (token : string) (requestNow : Z) (peer : string) (p : controlPrincipal) : Prop :=
  match p with
  | PrincipalAdmin => sha256 token = authDigest /\ forall key, ~ keyInForce token key
  | PrincipalAccessKey id => sha256 token <> authDigest
      /\ exists key, keyInForce token key /\ ck_ID key = id /\ keyAllowed requestNow peer key
  | PrincipalNone => False
  end.
Definition mayVisit (p : controlPrincipal) (method path : string) : Prop :=
  match p with PrincipalAdmin => True | PrincipalAccessKey _ => method = "GET"%string /\ path ∈ accessKeyControlRoutes | PrincipalNone => False end.

Lemma keyInForce_unique token key key' : keyInForce token key -> keyInForce token key' -> key = key'.
Proof. intros [(m & E & _ & Hk) _] [(m' & E' & _ & Hk') _]. congruence. Qed.

Lemma policy_spec peer prefixes : (prefixes = [] \/ Exists (fun p => cidrContains p peer = true) prefixes)
  <-> negb (bool_decide (prefixes = [])) && negb (existsb (fun p => cidrContains p peer) prefixes) = false.
Proof.
  rewrite andb_false_iff, !negb_false_iff, bool_decide_eq_true, existsb_exists. apply or_iff_compat_l.
  rewrite Exists_exists. split; intros (p & Hp & Hc); exists p; (split; [by apply list_elem_of_In|done]).
Qed.

Lemma matchAccessKey_spec token requestNow peer :
  (exists key policy, keyInForce token key /\ matchAccessKey token requestNow peer = mkAuthMatch (ck_ID key) true policy
     /\ (policy = true <-> keyAllowed requestNow peer key))
  \/ (forall key, ~ keyInForce token key) /\ matchAccessKey token requestNow peer = noMatch.
Proof.
  unfold matchAccessKey. destruct accessKeysByHash as [keys|] eqn:Ek; [|right; split; [|done]; by intros key [(m & E & _) _]; congruence].
  destruct (strEq (tokenHash token) "") eqn:Eh; [apply strEq_true in Eh; right; split; [|done]; by intros key [(m & E & Hne & _) _]|].
  apply strEq_false in Eh. destruct (keys !! tokenHash token) as [key|] eqn:El.
  2: { right. split; [|done]. intros key [(m & E & _ & Hk) _]. congruence. }
  destruct (Z.eqb_spec (ck_ID key) 0) as [E0|Hid].
  { right. split; [|done]. intros key' [(m & E & _ & Hk) Hne]. congruence. }
  assert (keyInForce token key) as Hkey by (split; [by eexists|done]). left. exists key. unfold keyAllowed.
  destruct (ck_ExpiresAtMS key) as [e|] eqn:Ee.
  - destruct (Z.leb_spec e (unixMilli requestNow)).
    + exists false. split_and!; [done|done|]. split; [done|]. intros [Hx _]. specialize (Hx e eq_refl). lia.
    + destruct (negb _ && negb _) eqn:Ec; eexists; (split_and!; [done|done|]); rewrite policy_spec, Ec; naive_solver lia.
  - destruct (negb _ && negb _) eqn:Ec; eexists; (split_and!; [done|done|]); rewrite policy_spec, Ec; naive_solver.
Qed.

Lemma evaluate_invalid l now peer : ad_authorized (evaluate l now peer false).1 = false.
Proof. unfold evaluate. by repeat case_match. Qed.

Lemma canAccess_spec p method path : principalCanAccessControlRoute p method path = true <-> mayVisit p method path.
Proof.
  destruct p; cbn; [done|done|]. by rewrite andb_true_iff, bool_decide_eq_true, strEq_true.
Qed.

(** The principal is the one the credential grants. *)
Lemma principalOf_grants token requestNow peer p :
  principalOf true (strEq (sha256 token) authDigest) (matchAccessKey token requestNow peer) = p /\ p <> PrincipalNone <-> grants token requestNow peer p.
Proof.
  unfold principalOf, validCredential.
  destruct (matchAccessKey_spec token requestNow peer) as [(key & policy & Hkey & -> & Hpol)|[Hno ->]];
    cbn [am_HashMatched am_PolicyAllowed am_AccessKeyID noMatch];
    destruct (strEq (sha256 token) authDigest) eqn:Ea; [apply strEq_true in Ea|apply strEq_false in Ea|apply strEq_true in Ea|apply strEq_false in Ea];
    cbn [andb orb negb].
  - split; [by intros [<- ?]|]. destruct p; cbn; [done|intros [_ Hg]; by destruct (Hg key)|by intros [? _]].
  - destruct policy; (split; [intros [<- Hp]|]); try done.
    + split; [done|]. exists key. split_and!; [done|done|by apply Hpol].
    + destruct p; cbn; [done|by intros [? _]|]. intros (_ & key' & Hk' & <- & _). by rewrite (keyInForce_unique _ _ _ Hkey Hk').
    + destruct p; cbn; [done|by intros [? _]|]. intros (_ & key' & Hk' & _ & Hal).
      rewrite (keyInForce_unique _ _ _ Hkey Hk') in Hpol. by apply Hpol in Hal.
  - split; [intros [<- _]; by split|]. destruct p; cbn; [done|by split|by intros [? _]].
  - split; [by intros [<- ?]|]. destruct p; cbn; [done|by intros [? _]|]. intros (_ & key & Hk & _). by destruct (Hno key).
Qed.

(** Who is admitted: a valid credential passes the limiter, and nobody else does. *)
Lemma authenticate_admits l requestNow now r peer : cr_peer r = Some peer ->
  let formatValid := isSome (bearerToken (cr_Authorization r)) in
  let token := default EmptyString (bearerToken (cr_Authorization r)) in
  let principal := principalOf formatValid (strEq (sha256 token) authDigest) (matchAccessKey token requestNow peer) in
  forall p, (authenticate l requestNow now r).1 = AccessGranted p <-> principal = p /\ mayVisit p (cr_method r) (cr_path r).
Proof.
  intros Hp formatValid token principal p. unfold authenticate. rewrite Hp. cbv zeta. fold formatValid token. fold principal.
  set (valid := validCredential formatValid _ _). set (rejected := _ && _ && _ && _).
  assert (principal <> PrincipalNone <-> valid = true) as Hvalid.
  { unfold principal, principalOf. fold valid. destruct valid; [|done]. split; [done|]. by destruct (strEq _ _). }
  assert (principal = PrincipalAdmin -> rejected = false) as Hrej.
  { unfold principal, principalOf, rejected. destruct (validCredential _ _ _); [|done]. destruct (strEq _ _); [|done]. by rewrite andb_false_r. }
  destruct principal as [| |id] eqn:Ep; cbn [isAccessKey orb].
  - assert (valid = false) as ->. { destruct valid; [|done]. by destruct (proj2 Hvalid eq_refl). }
    pose proof (evaluate_invalid l now peer) as Hn. destruct (evaluate l now peer false) as [d l1]. cbn in Hn.
    destruct rejected; cbn; [|destruct (0 <? ad_retryAfter d); cbn; [|rewrite Hn; cbn]]; (split; [done|]); by intros [<- ?].
  - rewrite Hrej by done. assert (valid = true) as -> by (by apply Hvalid). cbn. split; [by intros [= <-]|]. by intros [<- _].
  - pose proof (canAccess_spec (PrincipalAccessKey id) (cr_method r) (cr_path r)) as Hcan. cbn [principalCanAccessControlRoute] in Hcan. cbn.
    destruct (strEq _ _ && _); cbn; split.
    + intros [= <-]. split; [done|by apply Hcan].
    + by intros [<- _].
    + done.
    + intros [<- Hm]. by apply Hcan in Hm.
Qed.

(** C28: A request is admitted exactly when it shows a credential that grants a principal and the
    principal may visit the route; a token that is both the administrator's and an access
    key's admits nobody; and using an access key, allowed or not, leaves the record of failures
    of its peer as it was. *)
Theorem control_access_exact l requestNow now r :
  (forall p, (authenticate l requestNow now r).1 = AccessGranted p <-> exists peer token, cr_peer r = Some peer /\ bearerToken (cr_Authorization r) = Some token
     /\ grants token requestNow peer p /\ mayVisit p (cr_method r) (cr_path r))
  /\ (forall token key, bearerToken (cr_Authorization r) = Some token -> sha256 token <> authDigest -> keyInForce token key ->
        (authenticate l requestNow now r).2 = l).
Proof.
  destruct (cr_peer r) as [peer|] eqn:Hp; [|unfold authenticate; rewrite Hp; split; [intros p; split; [done|by intros (? & ? & ? & _)]|done]].
  split.
  - intros p. rewrite (authenticate_admits l requestNow now r peer Hp). destruct (bearerToken (cr_Authorization r)) as [token|]; cbn [isSome from_option id].
    + split.
      * intros [E Hm]. exists peer, token. split_and!; [done|done| |done]. apply principalOf_grants. split; [done|]. by intros ->.
      * intros (peer' & token' & [= <-] & [= <-] & Hg & Hm). apply principalOf_grants in Hg as [? _]. done.
    + split; [|by intros (? & ? & _ & ? & _)]. intros [<- Hm]. done.
  - intros token key Ht Hne Hkey. unfold authenticate. rewrite Hp, Ht. cbn [isSome from_option id]. cbv zeta.
    apply strEq_false in Hne. rewrite Hne. destruct (matchAccessKey_spec token requestNow peer) as [(key' & policy & _ & -> & _)|[Hno _]]; [|by destruct (Hno key)].
    destruct policy; cbn; by repeat case_match.
Qed.

End Authenticate.

(** ** Examples *)

Lemma auth_lockout_exact_witness :
  exists l h log, auth_run l h (5 * minute) log /\ Forall (fun d => d.1 = d.2) log
    /\ (evaluate l (7 * minute) "peer" false).1 = mkAuthDecision false (28 * minute) false
    /\ attemptsIn (7 * minute) (h "peer"%string) <= authFailureLimit.
Proof.
  assert (auth_run newAuthFailureLimiter (fun _ => []) minute []) as H0 by (by constructor).
  pose proof (run_call _ _ _ _ minute "peer" false H0 ltac:(by vm_compute)) as H1.
  pose proof (run_call _ _ _ _ (2 * minute) "peer" false H1 ltac:(by vm_compute)) as H2.
  pose proof (run_call _ _ _ _ (3 * minute) "peer" false H2 ltac:(by vm_compute)) as H3.
  pose proof (run_call _ _ _ _ (4 * minute) "peer" false H3 ltac:(by vm_compute)) as H4.
  pose proof (run_call _ _ _ _ (5 * minute) "peer" false H4 ltac:(by vm_compute)) as H5. clear H0 H1 H2 H3 H4.
  eexists _, _, _. split; [exact H5|]. destruct (auth_lockout_exact _ _ _ _ H5) as (Hlog & Hdec & Hmax). split_and!.
  - exact Hlog.
  - rewrite Hdec by (by vm_compute). by vm_compute.
  - apply Hmax. by vm_compute.
Defined.

(** A server with the administrator's key [root] and one access key, which may be used from
    one network. *)
#[local] Instance exServer : ControlServer := {|
  sha256 := fun s => s; authDigest := "root"; tokenHash := fun s => s;
  accessKeysByHash := Some {[ "key"%string := mkControlKey 7 None ["net"%string] ]};
  cidrContains := fun p peer => bool_decide (p = "net"%string /\ peer = "inside"%string);
  foldsToBearer := fun s => bool_decide (s = "Bearer"%string)
|}.

Lemma control_access_exact_witness :
  (authenticate newAuthFailureLimiter unixEpoch unixEpoch (mkControlRequest (Some "inside"%string) "Bearer key" "GET" "/api/usage")).1
    = AccessGranted (PrincipalAccessKey 7)
  /\ (authenticate newAuthFailureLimiter unixEpoch unixEpoch (mkControlRequest (Some "outside"%string) "Bearer key" "GET" "/api/usage")).2 = newAuthFailureLimiter.
Proof.
  split.
  - apply (control_access_exact newAuthFailureLimiter unixEpoch unixEpoch (mkControlRequest (Some "inside"%string) "Bearer key" "GET" "/api/usage")).
    exists "inside"%string, "key"%string. split_and!; [done|by vm_compute| |by vm_compute; repeat constructor].
    split; [done|]. exists (mkControlKey 7 None ["net"%string]). split_and!; [|done|].
    + split; [|done]. eexists. split_and!; [done|done|]. by vm_compute.
    + split; [done|]. right. constructor. by vm_compute.
  - apply (control_access_exact newAuthFailureLimiter unixEpoch unixEpoch (mkControlRequest (Some "outside"%string) "Bearer key" "GET" "/api/usage"))
      with (token := "key"%string) (key := mkControlKey 7 None ["net"%string]); [by vm_compute|done|].
    split; [|done]. eexists. split_and!; [done|done|]. by vm_compute.
Defined.
