(* ===== verification/SseEvents.v ===== *)
(** Server-sent events on the wire ([internal/gateway/stream_rewrite.go], the observation buffer
    of [stream_observation.go]): the gateway finds the events of an upstream stream in pieces of
    any size, shows their payloads to an observer, and forwards the bytes unchanged; where it
    must, it rewrites the payload of an event.

    [bytes.IndexByte] is [cutAt].  The observer is any function with a state of its own. *)
From Stdlib Require Import Ascii.
From S2P Require Import Prelude GoStrings JsonText.

Local Open Scope Z_scope.
Local Open Scope go_scope.

Definition CR : ascii := ascii_of_N 13.
Definition LF : ascii := ascii_of_N 10.
#[global] Arguments CR : simpl never.
#[global] Arguments LF : simpl never.

(** * The boundary scanner *)

Record sseRewriteBoundaryScanner := mkScanner {
  bs_scanOffset : nat;
  bs_lineHasContent : bool;
  bs_skipLineFeed : bool;
  bs_optionalLineFeed : bool;
  bs_previousInputBytes : Z;
  bs_previousOutputBytes : Z
}.
Definition newBoundaryScanner : sseRewriteBoundaryScanner := mkScanner 0 false false false 0 0.

Definition scannedTo (offset : nat) (content skip : bool) s :=
  mkScanner offset content skip (bs_optionalLineFeed s) (bs_previousInputBytes s) (bs_previousOutputBytes s).

(** The loop of [Find] over the bytes from [index] on: the scanner, and the end of the event. *)
Fixpoint findLoop (s : sseRewriteBoundaryScanner) (index : nat) (rest : bytes) {struct rest} : sseRewriteBoundaryScanner * option nat :=
  match rest with
  | [] => (s, None)
  | value :: r =>
      if bs_skipLineFeed s && Ascii.eqb value LF then findLoop (scannedTo (S index) (bs_lineHasContent s) false s) (S index) r
      else if Ascii.eqb value CR then
        let blankLine := negb (bs_lineHasContent s) in
        match r with
        | d :: r' =>
            if Ascii.eqb d LF then
              let s1 := scannedTo (S (S index)) false false s in
              if blankLine then (s1, Some (S (S index))) else findLoop s1 (S (S index)) r'
            else
              let s1 := scannedTo (S index) false true s in
              if blankLine then (s1, Some (S index)) else findLoop s1 (S index) r
        | [] =>
            let s1 := scannedTo (S index) false true s in
            if blankLine then (s1, Some (S index)) else (s1, None)
        end
      else if Ascii.eqb value LF then
        let blankLine := negb (bs_lineHasContent s) in
        let s1 := scannedTo (S index) false false s in
        if blankLine then (s1, Some (S index)) else findLoop s1 (S index) r
      else findLoop (scannedTo (S index) true false s) (S index) r
  end.

Definition Find (s : sseRewriteBoundaryScanner) (data : bytes) : sseRewriteBoundaryScanner * option nat :=
  let start := Nat.min (bs_scanOffset s) (length data) in findLoop s start (drop start data).

Definition AfterEvent (s : sseRewriteBoundaryScanner) (inputBytes outputBytes : Z) : sseRewriteBoundaryScanner :=
  mkScanner 0 false false (bs_skipLineFeed s) inputBytes outputBytes.

Definition clearOptionalLineFeed (s : sseRewriteBoundaryScanner) : sseRewriteBoundaryScanner :=
  mkScanner (bs_scanOffset s) (bs_lineHasContent s) (bs_skipLineFeed s) false 0 0.

(** The scanner, the bytes consumed, and whether the event before has become too large. *)
Definition ConsumeOptionalLineFeed (s : sseRewriteBoundaryScanner) (data : bytes) (final : bool) (maxEventBytes : Z)
    : sseRewriteBoundaryScanner * nat * bool :=
  if negb (bs_optionalLineFeed s) then (s, 0%nat, false)
  else
    match data with
    | [] => (if final then clearOptionalLineFeed s else s, 0%nat, false)
    | c :: _ =>
        if negb (Ascii.eqb c LF) then (clearOptionalLineFeed s, 0%nat, false)
        else (clearOptionalLineFeed s, 1%nat, (maxEventBytes <=? bs_previousInputBytes s) || (maxEventBytes <=? bs_previousOutputBytes s))
    end.

(** * Lines and fields *)

Record sseEventLine := mkLine { ln_content : bytes; ln_terminator : bytes; ln_isData : bool; ln_data : bytes }.

Definition splitField (line : bytes) : bytes * bytes :=
  let '(field, value, found) := cutAt ":" line in
  if found then (field, match value with c :: r => if Ascii.eqb c " " then r else value | [] => [] end) else (line, []).

Definition parseSSEDataLine (line : bytes) : bool * bytes :=
  match line with
  | [] => (false, [])
  | c :: _ =>
      if Ascii.eqb c ":" then (false, [])
      else let '(field, value) := splitField line in
           if bool_decide (field = bytes_of "data") then (true, value) else (false, [])
  end.

Definition parseSSEEventName (line : bytes) : option bytes :=
  let '(field, value) := splitField line in if bool_decide (field = bytes_of "event") then Some value else None.

Definition newLine (content terminator : bytes) : sseEventLine :=
  let '(isData, data) := parseSSEDataLine content in mkLine content terminator isData data.

(** [splitSSEEventLines], with the content of the current line so far. *)
Fixpoint splitFrom (content : bytes) (event : bytes) : list sseEventLine :=
  match event with
  | [] => match content with [] => [] | _ => [newLine content []] end
  | c :: r =>
      if Ascii.eqb c CR then
        match r with
        | d :: r' => if Ascii.eqb d LF then newLine content [CR; LF] :: splitFrom [] r' else newLine content [CR] :: splitFrom [] r
        | [] => newLine content [CR] :: splitFrom [] r
        end
      else if Ascii.eqb c LF then newLine content [LF] :: splitFrom [] r
      else splitFrom (content ++ [c]) r
  end.
Definition splitSSEEventLines (event : bytes) : list sseEventLine := splitFrom [] event.

Fixpoint joinLines (l : list bytes) : bytes :=
  match l with [] => [] | x :: r => match r with [] => x | _ :: _ => x ++ LF :: joinLines r end end.

(** [bytes.Split] at every line feed. *)
Fixpoint splitLF (l : bytes) : list bytes :=
  match l with
  | [] => [[]]
  | c :: r => if Ascii.eqb c LF then [] :: splitLF r else match splitLF r with s :: t => (c :: s) :: t | [] => [[c]] end
  end.

(** The last name and the data of the lines, as the loops of [observeEvent] and
    [rewriteSSEEventWithMetadata] keepPayloads them. *)
Definition eventName (lines : list sseEventLine) : bytes :=
  foldl (fun name line => default name (parseSSEEventName (ln_content line))) [] lines.
Definition dataValues (lines : list sseEventLine) : list bytes := ln_data <$> filter (fun l => ln_isData l = true) lines.

Record StreamEvent := mkStreamEvent { se_Name : bytes; se_Payload : bytes }.

Inductive sseError (E : Type) := EventTooLarge | EventIncomplete | ObserverFailed (e : E).
Arguments EventTooLarge {E}.
Arguments EventIncomplete {E}.
Arguments ObserverFailed {E} e.

Section Events.
Context `{GT : GoText} `{SC : StringCodec}.

(** [isSSEErrorPayload]: the fields of the envelope, found by name up to case, the last of a
    name counting; a type that is no string fails the decoding. *)
Fixpoint envelope (ms : cmembers) (type : bytes) (error : option bytes) : option (bytes * option bytes) :=
  match ms with
  | MNil => Some (type, error)
  | MCons key _ _ v _ _ rest =>
      match memberName key with
      | None => None
      | Some name =>
          if EqualFold (of_bytes name) "type" then
            match v with
            | CString s => match memberName s with Some t => envelope rest t error | None => None end
            | CToken t => if bool_decide (t = bytes_of "null") then envelope rest type error else None
            | _ => None
            end
          else if EqualFold (of_bytes name) "error" then envelope rest type (Some (render v))
          else envelope rest type error
      end
  end.

Definition isSSEErrorPayload (payload : bytes) : bool :=
  if jsonValid payload then
    match parseValue (S (length payload)) (spanOf isBlank payload).2 with
    | Some (CObject _ ms, _) =>
        match envelope ms [] None with
        | Some (type, error) =>
            bool_decide (type = bytes_of "error")
            || match error with
               | Some e => negb (bool_decide (e = [] \/ e = bytes_of "null" \/ e = bytes_of "{}"))
               | None => false
               end
        | None => false
        end
    | _ => false
    end
  else false.

Definition isErrorEvent (name payload : bytes) : bool := bool_decide (name = bytes_of "error") || isSSEErrorPayload payload.

(** * The observation buffer *)

(** An observer with state: whether the event is terminal, or an error. *)
Context {St E : Type} (observe : St -> StreamEvent -> bool -> result E (bool * St)).

Record sseEventObservationBuffer := mkBuffer {
  ob_pending : bytes;
  ob_pendingTerminal : bool;
  ob_maxEventBytes : Z;
  ob_scanner : sseRewriteBoundaryScanner
}.

Definition maxSSEEventBytes : Z := 10485760.
Definition normalizedSSEEventLimit (limit : Z) : Z := if 0 <? limit then limit else maxSSEEventBytes.
Definition newSSEEventObservationBuffer (maxEventBytes : Z) : sseEventObservationBuffer :=
  mkBuffer [] false (normalizedSSEEventLimit maxEventBytes) newBoundaryScanner.

Definition observeEvent (st : St) (event : bytes) : result E (bool * St) :=
  let lines := splitSSEEventLines event in
  let payload := joinLines (dataValues lines) in
  if bool_decide (payload = []) then Ok (false, st)
  else observe st (mkStreamEvent (eventName lines) payload) (isErrorEvent (eventName lines) payload).

(** The loop of [push]: the bytes forwarded, whether a terminal boundary is among them, the
    buffer and the observer.  Every round consumes a byte or returns. *)
Fixpoint pushLoop (fuel : nat) (b : sseEventObservationBuffer) (st : St) (wire : bytes) (terminal : bool)
    : result (sseError E) (bytes * bool * sseEventObservationBuffer * St) :=
  match fuel with
  | O => Err EventTooLarge
  | S n =>
      let '(sc, optionalLF, overflow) := ConsumeOptionalLineFeed (ob_scanner b) (ob_pending b) false (ob_maxEventBytes b) in
      if overflow then Err EventTooLarge
      else
        let released := ob_pendingTerminal b && negb (bs_optionalLineFeed sc) in
        let pendingTerminal := if released then false else ob_pendingTerminal b in
        let terminal := terminal || released in
        if (0 <? optionalLF)%nat then
          pushLoop n (mkBuffer (drop optionalLF (ob_pending b)) pendingTerminal (ob_maxEventBytes b) sc) st (wire ++ take optionalLF (ob_pending b)) terminal
        else
          let '(sc1, found) := Find sc (ob_pending b) in
          match found with
          | None =>
              if ob_maxEventBytes b <? Z.of_nat (length (ob_pending b)) then Err EventTooLarge
              else Ok (wire, terminal, mkBuffer (ob_pending b) pendingTerminal (ob_maxEventBytes b) sc1, st)
          | Some eventEnd =>
              if ob_maxEventBytes b <? Z.of_nat eventEnd then Err EventTooLarge
              else
                match observeEvent st (take eventEnd (ob_pending b)) with
                | Err e => Err (ObserverFailed e)
                | Ok (terminalEvent, st1) =>
                    let sc2 := AfterEvent sc1 (Z.of_nat eventEnd) (Z.of_nat eventEnd) in
                    let waits := terminalEvent && bs_optionalLineFeed sc2 in
                    pushLoop n (mkBuffer (drop eventEnd (ob_pending b)) (pendingTerminal || waits) (ob_maxEventBytes b) sc2) st1
                      (wire ++ take eventEnd (ob_pending b)) (terminal || terminalEvent && negb waits)
                end
          end
  end.

Definition push (b : sseEventObservationBuffer) (st : St) (chunk : bytes) : result (sseError E) (bytes * bool * sseEventObservationBuffer * St) :=
  let pending := ob_pending b ++ chunk in
  pushLoop (S (length pending)) (mkBuffer pending (ob_pendingTerminal b) (ob_maxEventBytes b) (ob_scanner b)) st [] false.

Definition finish (b : sseEventObservationBuffer) : result (sseError E) sseEventObservationBuffer :=
  let '(sc, optionalLF, overflow) := ConsumeOptionalLineFeed (ob_scanner b) (ob_pending b) true (ob_maxEventBytes b) in
  if overflow then Err EventTooLarge
  else
    let pending := drop optionalLF (ob_pending b) in
    let pendingTerminal := if ob_pendingTerminal b && negb (bs_optionalLineFeed sc) then false else ob_pendingTerminal b in
    if negb (bool_decide (pending = [])) then Err EventIncomplete
    else Ok (mkBuffer pending pendingTerminal (ob_maxEventBytes b) newBoundaryScanner).

(** * Rewriting an event *)

(** The parts of a body as data lines, with the terminator of the line they replace. *)
Fixpoint dataLines (terminator : bytes) (parts : list bytes) : bytes :=
  match parts with
  | [] => []
  | p :: r => bytes_of "data: " ++ p ++ match r with [] => [] | _ :: _ => terminator ++ dataLines terminator r end
  end.

Fixpoint rewriteLines (body : bytes) (first : bool) (lines : list sseEventLine) : bytes :=
  match lines with
  | [] => []
  | line :: r =>
      if ln_isData line then
        if first then dataLines (ln_terminator line) (splitLF body) ++ ln_terminator line ++ rewriteLines body false r
        else rewriteLines body first r
      else ln_content line ++ ln_terminator line ++ rewriteLines body first r
  end.

(** The rewritten text, and whether the event is terminal. *)
Definition rewriteSSEEventWithMetadata (rewrite : StreamEvent -> bool -> result E (bytes * bool)) (event : bytes) : result E (bytes * bool) :=
  let lines := splitSSEEventLines event in
  let payload := joinLines (dataValues lines) in
  if bool_decide (payload = []) || bool_decide (payload = bytes_of "[DONE]") then Ok (event, false)
  else
    try! (body, terminal) := rewrite (mkStreamEvent (eventName lines) payload) (isErrorEvent (eventName lines) payload) in
    if bool_decide (body = payload) then Ok (event, terminal) else Ok (rewriteLines body true lines, terminal).

(** * The reference: the lines of a whole stream *)

(** The complete lines; a line feed directly behind a carriage return belongs to it. *)
Fixpoint linesFrom (cur : bytes) (skip : bool) (l : bytes) : list bytes :=
  match l with
  | [] => []
  | c :: r =>
      if skip && Ascii.eqb c LF then linesFrom cur false r
      else if Ascii.eqb c CR then cur :: linesFrom [] true r
      else if Ascii.eqb c LF then cur :: linesFrom [] false r
      else linesFrom (cur ++ [c]) false r
  end.

(** The events: the lines up to a blank one. *)
Fixpoint groupLines (acc : list bytes) (lines : list bytes) : list (list bytes) :=
  match lines with
  | [] => []
  | [] :: r => acc :: groupLines [] r
  | line :: r => groupLines (acc ++ [line]) r
  end.
Definition eventsOf (skip : bool) (stream : bytes) : list (list bytes) := groupLines [] (linesFrom [] skip stream).

Definition dataOf (lines : list bytes) : list bytes := omap (fun l => let '(isData, d) := parseSSEDataLine l in if isData then Some d else None) lines.
Definition nameOf (lines : list bytes) : bytes := foldl (fun name line => default name (parseSSEEventName line)) [] lines.

Definition observeLines (st : St) (lines : list bytes) : result E (bool * St) :=
  let payload := joinLines (dataOf lines) in
  if bool_decide (payload = []) then Ok (false, st) else observe st (mkStreamEvent (nameOf lines) payload) (isErrorEvent (nameOf lines) payload).

(** The observer over all events: whether one was terminal. *)
Fixpoint observeAll (st : St) (events : list (list bytes)) : result E (bool * St) :=
  match events with
  | [] => Ok (false, st)
  | e :: r =>
      try! (t, st1) := observeLines st e in
      try! (t', st2) := observeAll st1 r in
      Ok (t || t', st2)
  end.

(** A stream in pieces: the bytes forwarded and whether a terminal boundary was among them. *)
Fixpoint pushAll (b : sseEventObservationBuffer) (st : St) (chunks : list bytes)
    : result (sseError E) (bytes * bool * sseEventObservationBuffer * St) :=
  match chunks with
  | [] => Ok ([], false, b, st)
  | c :: r =>
      try! (wire, terminal, b1, st1) := push b st c in
      try! (wire', terminal', b2, st2) := pushAll b1 st1 r in
      Ok (wire ++ wire', terminal || terminal', b2, st2)
  end.

(** * Finding an event *)

Definition freshScanner (s : sseRewriteBoundaryScanner) : Prop :=
  bs_scanOffset s = 0%nat /\ bs_lineHasContent s = false /\ bs_skipLineFeed s = false.

Lemma findLoop_flags s i rest :
  bs_optionalLineFeed (findLoop s i rest).1 = bs_optionalLineFeed s
  /\ bs_previousInputBytes (findLoop s i rest).1 = bs_previousInputBytes s
  /\ bs_previousOutputBytes (findLoop s i rest).1 = bs_previousOutputBytes s.
Proof.
  remember (length rest) as n eqn:En. assert (length rest <= n)%nat as Hn by lia. clear En. revert s i rest Hn.
  induction n as [|n IH]; intros s i rest Hn; (destruct rest as [|c r]; [done|]); cbn in Hn; [lia|]. cbn.
  destruct (bs_skipLineFeed s && Ascii.eqb c LF); [by destruct (IH (scannedTo (S i) (bs_lineHasContent s) false s) (S i) r) as (-> & -> & ->); [lia|]|].
  destruct (Ascii.eqb c CR).
  - destruct r as [|d r']; [by destruct (negb _)|]. cbn in Hn. destruct (Ascii.eqb d LF); (destruct (negb _); [done|]).
    + by destruct (IH (scannedTo (S (S i)) false false s) (S (S i)) r') as (-> & -> & ->); [lia|].
    + by destruct (IH (scannedTo (S i) false true s) (S i) (d :: r')) as (-> & -> & ->); [cbn; lia|].
  - destruct (Ascii.eqb c LF); [destruct (negb _); [done|]|].
    + by destruct (IH (scannedTo (S i) false false s) (S i) r) as (-> & -> & ->); [lia|].
    + by destruct (IH (scannedTo (S i) true false s) (S i) r) as (-> & -> & ->); [lia|].
Qed.

(** A scan can be interrupted anywhere and taken up again. *)
Lemma findLoop_resume n s i rest x s1 : (length rest <= n)%nat -> bs_scanOffset s = i -> findLoop s i rest = (s1, None) ->
  bs_scanOffset s1 = (i + length rest)%nat /\ findLoop s i (rest ++ x) = findLoop s1 (i + length rest) x.
Proof.
  revert s i rest. induction n as [|n IH]; intros s i rest Hn Hi; (destruct rest as [|c r]; cbn in Hn; [intros [= <-]; cbn; split; [lia|by rewrite Nat.add_0_r]|]); [lia|].
  cbn. destruct (bs_skipLineFeed s && Ascii.eqb c LF).
  { intros Hf. apply IH in Hf as [-> ->]; [|lia|done]. split; [lia|f_equal; lia]. }
  destruct (Ascii.eqb c CR).
  - destruct r as [|d r'].
    + destruct (negb _); [done|]. intros [= <-]. split; [cbn; lia|]. cbn [app]. rewrite Nat.add_1_r.
      destruct x as [|d x]; [done|]. cbn. by destruct (Ascii.eqb d LF).
    + cbn in Hn. cbn [app]. destruct (Ascii.eqb d LF); (destruct (negb _); [done|]); intros Hf.
      * apply IH in Hf as [-> ->]; [|lia|done]. cbn. split; [lia|f_equal; lia].
      * apply IH in Hf as [-> Hf]; [|cbn; lia|done]. cbn [app] in Hf. rewrite Hf. cbn. split; [lia|f_equal; lia].
  - destruct (Ascii.eqb c LF); [destruct (negb _); [done|]|]; intros Hf; apply IH in Hf as [-> ->]; (lia || done || (cbn; split; [lia|f_equal; lia])).
Qed.

Lemma newLine_content content t : ln_content (newLine content t) = content.
Proof. unfold newLine. by destruct (parseSSEDataLine content). Qed.

Lemma splitFrom_crlf cur r : ln_content <$> splitFrom cur ([CR; LF] ++ r) = [cur] ++ (ln_content <$> splitFrom [] r).
Proof. change (splitFrom cur ([CR; LF] ++ r)) with (newLine cur [CR; LF] :: splitFrom [] r). by rewrite fmap_cons, newLine_content. Qed.
Lemma splitFrom_lf cur r : ln_content <$> splitFrom cur ([LF] ++ r) = [cur] ++ (ln_content <$> splitFrom [] r).
Proof. change (splitFrom cur ([LF] ++ r)) with (newLine cur [LF] :: splitFrom [] r). by rewrite fmap_cons, newLine_content. Qed.
Lemma splitFrom_cr cur r : match r with d :: _ => Ascii.eqb d LF = false | [] => True end ->
  ln_content <$> splitFrom cur ([CR] ++ r) = [cur] ++ (ln_content <$> splitFrom [] r).
Proof.
  intros Hr. assert (splitFrom cur ([CR] ++ r) = newLine cur [CR] :: splitFrom [] r) as ->.
  { destruct r as [|d r]; [done|]. cbn. by rewrite Hr. }
  by rewrite fmap_cons, newLine_content.
Qed.

Definition someLine (l : bytes) : Prop := l <> [].

(** What a scan finds, in terms of the lines: the event is the lines up to the first blank one,
    and what the scanner remembers is whether a line feed may follow. *)
Definition foundLines (cur : bytes) (skip : bool) (i : nat) (rest : bytes) (r : sseRewriteBoundaryScanner * option nat) : Prop :=
  match r with
  | (s', Some e) =>
      (i < e <= i + length rest)%nat /\ exists ls, Forall someLine ls
        /\ (forall fut, linesFrom cur skip (take (e - i) rest ++ fut) = ls ++ [] :: linesFrom [] (bs_skipLineFeed s') fut)
        /\ ln_content <$> splitFrom cur (take (e - i) rest) = ls ++ [[]]
  | (_, None) => Forall someLine (linesFrom cur skip rest)
  end.

Lemma foundLines_more cur skip i rest r (taken : bytes) cur' skip' i' rest' ls0 :
  rest = taken ++ rest' -> i' = (i + length taken)%nat -> Forall someLine ls0 ->
  (forall y, linesFrom cur skip (taken ++ y) = ls0 ++ linesFrom cur' skip' y) ->
  (forall k, ln_content <$> splitFrom cur (taken ++ take k rest') = ls0 ++ (ln_content <$> splitFrom cur' (take k rest'))) ->
  foundLines cur' skip' i' rest' r -> foundLines cur skip i rest r.
Proof.
  intros -> -> H0 Hl Hs. destruct r as [s' [e|]]; cbn.
  - intros [He (ls & Hls & Hl' & Hs')]. rewrite length_app. split; [lia|]. exists (ls0 ++ ls). split_and!.
    + by apply Forall_app.
    + intros fut. rewrite take_app_ge by lia. replace (e - i - length taken)%nat with (e - (i + length taken))%nat by lia.
      by rewrite <- app_assoc, Hl, Hl', app_assoc.
    + rewrite take_app_ge by lia. rewrite Hs. replace (e - i - length taken)%nat with (e - (i + length taken))%nat by lia.
      by rewrite Hs', app_assoc.
  - intros Hf. rewrite Hl. by apply Forall_app.
Qed.

Lemma find_lines n s i cur rest : (length rest <= n)%nat -> bs_lineHasContent s = negb (bool_decide (cur = [])) ->
  (bs_skipLineFeed s = true -> match rest with c :: _ => Ascii.eqb c LF = false | [] => True end) ->
  foundLines cur (bs_skipLineFeed s) i rest (findLoop s i rest).
Proof.
  revert s i cur rest. induction n as [|n IH]; intros s i cur rest Hn Hc Hskip; (destruct rest as [|c r]; cbn in Hn; [constructor|]); [lia|].
  cbn [findLoop]. assert (bs_skipLineFeed s && Ascii.eqb c LF = false) as Hsk.
  { destruct (bs_skipLineFeed s); [|done]. by rewrite Hskip. }
  rewrite Hsk, Hc. destruct (Ascii.eqb_spec c CR) as [->|Hcr].
  - destruct r as [|d r'].
    + case_bool_decide as Ecur; cbn.
      * subst cur. split; [lia|]. exists []. replace (S i - i)%nat with 1%nat by lia. split_and!; [constructor| |done].
        intros fut. cbn. by rewrite Hsk.
      * rewrite Hsk. repeat constructor; done.
    + destruct (Ascii.eqb_spec d LF) as [->|Hlf].
      * case_bool_decide as Ecur; cbn [negb].
        -- subst cur. cbn. split; [lia|]. exists []. replace (S (S i) - i)%nat with 2%nat by lia. split_and!; [constructor| |done].
           intros fut. cbn. by rewrite Hsk.
        -- apply foundLines_more with (taken := [CR; LF]) (cur' := []) (skip' := false) (i' := S (S i)) (rest' := r') (ls0 := [cur]);
             [done|cbn; lia|by apply Forall_singleton|intros fut; cbn; by rewrite Hsk|intros k; apply splitFrom_crlf|].
           apply (IH (scannedTo (S (S i)) false false s)); [cbn in Hn; lia|done|done].
      * apply Ascii.eqb_neq in Hlf. case_bool_decide as Ecur; cbn [negb].
        -- subst cur. cbn. split; [lia|]. exists []. replace (S i - i)%nat with 1%nat by lia. split_and!; [constructor| |done].
           intros fut. cbn. by rewrite Hsk.
        -- apply foundLines_more with (taken := [CR]) (cur' := []) (skip' := true) (i' := S i) (rest' := d :: r') (ls0 := [cur]);
             [done|cbn; lia|by apply Forall_singleton|intros fut; cbn; by rewrite Hsk| |].
           { intros k. apply splitFrom_cr. by destruct k. }
           apply (IH (scannedTo (S i) false true s)); [cbn in *; lia|done|done].
  - destruct (Ascii.eqb_spec c LF) as [->|Hlf].
    + assert (bs_skipLineFeed s = false) as Hs0 by (destruct (bs_skipLineFeed s); done). rewrite Hs0.
      case_bool_decide as Ecur; cbn [negb].
      * subst cur. cbn. split; [lia|]. exists []. replace (S i - i)%nat with 1%nat by lia. split_and!; [constructor| |done].
        done.
      * apply foundLines_more with (taken := [LF]) (cur' := []) (skip' := false) (i' := S i) (rest' := r) (ls0 := [cur]);
          [done|cbn; lia|by apply Forall_singleton|done|intros k; apply splitFrom_lf|].
        apply (IH (scannedTo (S i) false false s)); [lia|done|done].
    + apply Ascii.eqb_neq in Hcr, Hlf.
      apply foundLines_more with (taken := [c]) (cur' := cur ++ [c]) (skip' := false) (i' := S i) (rest' := r) (ls0 := []);
        [done|cbn; lia|apply Forall_nil_2|intros fut; cbn; rewrite Hcr, Hlf; by destruct (bs_skipLineFeed s)|intros k; cbn; by rewrite Hcr, Hlf|].
      apply (IH (scannedTo (S i) true false s)); [lia| |done]. cbn. by destruct cur.
Qed.

(** * What the observer sees of an event *)

Lemma newLine_data content t :
  ln_isData (newLine content t) = (parseSSEDataLine content).1 /\ ln_data (newLine content t) = (parseSSEDataLine content).2.
Proof. unfold newLine. by destruct (parseSSEDataLine content). Qed.

Definition parsedLine (l : sseEventLine) : Prop :=
  ln_isData l = (parseSSEDataLine (ln_content l)).1 /\ ln_data l = (parseSSEDataLine (ln_content l)).2.

Lemma newLine_parsed content t : parsedLine (newLine content t).
Proof. unfold parsedLine. rewrite newLine_content. apply newLine_data. Qed.

Lemma splitFrom_parsed n cur l : (length l <= n)%nat -> Forall parsedLine (splitFrom cur l).
Proof.
  revert cur l. induction n as [|n IH]; intros cur [|c r] Hn; cbn in *; try lia;
    [destruct cur; repeat constructor; apply newLine_parsed|destruct cur; repeat constructor; apply newLine_parsed|].
  destruct (Ascii.eqb c CR).
  - destruct r as [|d r']; [by repeat constructor; apply newLine_parsed|]. cbn in Hn.
    destruct (Ascii.eqb d LF); (constructor; [apply newLine_parsed|apply IH; cbn; lia]).
  - destruct (Ascii.eqb c LF); [constructor; [apply newLine_parsed|]|]; apply IH; lia.
Qed.

Lemma dataValues_contents lines : Forall parsedLine lines -> dataValues lines = dataOf (ln_content <$> lines).
Proof.
  induction 1 as [|l r [Hi Hd] _ IH]; [done|]. unfold dataValues, dataOf in *. rewrite fmap_cons, filter_cons.
  destruct (parseSSEDataLine (ln_content l)) as [isData d] eqn:Ep. cbn in Hi, Hd. rewrite Hi. cbn. rewrite Ep.
  destruct isData; cbn; [rewrite <- Hd, <- IH|rewrite <- IH]; done.
Qed.

Lemma eventName_contents lines : eventName lines = nameOf (ln_content <$> lines).
Proof. unfold eventName, nameOf. generalize ([] : bytes). induction lines as [|l r IH]; intros a; [done|]. cbn. apply IH. Qed.

(** The blank line at the end adds nothing. *)
Lemma dataOf_blank ls : dataOf (ls ++ [[]]) = dataOf ls.
Proof. unfold dataOf. rewrite omap_app. cbn. apply app_nil_r. Qed.
Lemma nameOf_blank ls : nameOf (ls ++ [[]]) = nameOf ls.
Proof. unfold nameOf. by rewrite foldl_app. Qed.

Lemma observeEvent_lines st event ls : ln_content <$> splitSSEEventLines event = ls ++ [[]] -> observeEvent st event = observeLines st ls.
Proof.
  intros Hl. unfold observeEvent, observeLines. rewrite dataValues_contents, eventName_contents, Hl, dataOf_blank, nameOf_blank; [done|].
  by eapply splitFrom_parsed.
Qed.

Lemma groupLines_some acc ls r : Forall someLine ls -> groupLines acc (ls ++ [] :: r) = (acc ++ ls) :: groupLines [] r.
Proof.
  intros H. revert acc. induction H as [|l ls Hl _ IH]; intros acc; cbn; [by rewrite app_nil_r|]. destruct l; [done|].
  by rewrite IH, <- app_assoc.
Qed.

Lemma groupLines_none acc ls : Forall someLine ls -> groupLines acc ls = [].
Proof. intros H. revert acc. induction H as [|l ls Hl _ IH]; intros acc; [done|]. cbn. destruct l; [done|apply IH]. Qed.

Lemma observeAll_app st a b : observeAll st (a ++ b) =
  (try! (t, st1) := observeAll st a in try! (t', st2) := observeAll st1 b in Ok (t || t', st2)).
Proof.
  revert st. induction a as [|e a IH]; intros st; cbn; [by destruct (observeAll st b) as [[]|]|].
  destruct (observeLines st e) as [[t st1]|]; cbn; [|done]. rewrite IH. destruct (observeAll st1 a) as [[t' st2]|]; cbn; [|done].
  destruct (observeAll st2 b) as [[t2 st3]|]; cbn; [|done]. by rewrite orb_assoc.
Qed.

(** * The buffer between two pieces *)

(** The scanner stands where a scan of [p] from its start ends without an event. *)
Definition scanned (s : sseRewriteBoundaryScanner) (p : bytes) : Prop :=
  exists s0, freshScanner s0 /\ findLoop s0 0 p = (s, None) /\ (bs_optionalLineFeed s = true -> p = []).

Lemma scanned_fresh s : freshScanner s -> scanned s [].
Proof. intros H. by exists s. Qed.

Lemma scanned_clear s : scanned s [] -> scanned (clearOptionalLineFeed s) [] /\ bs_optionalLineFeed (clearOptionalLineFeed s) = false.
Proof. intros (s0 & H & [= <-] & _). split; [|done]. by apply scanned_fresh. Qed.

(** One search: it resumes where the scan stood, and finds the first event of the pending bytes. *)
Lemma find_step s p x : scanned s p -> bs_optionalLineFeed s = false ->
  match Find s (p ++ x) with
  | (s1, None) => scanned s1 (p ++ x) /\ bs_optionalLineFeed s1 = false /\ eventsOf false (p ++ x) = []
  | (s1, Some e) =>
      (0 < e <= length (p ++ x))%nat /\ scanned (AfterEvent s1 (Z.of_nat e) (Z.of_nat e)) [] /\
      exists ls, (forall fut, eventsOf false (take e (p ++ x) ++ fut) = ls :: eventsOf (bs_skipLineFeed s1) fut)
        /\ (forall st, observeEvent st (take e (p ++ x)) = observeLines st ls)
  end.
Proof.
  intros (s0 & (H0 & Hc & Hk) & Hs & _) Hopt. assert (Find s (p ++ x) = findLoop s0 0 (p ++ x)) as ->.
  { destruct (findLoop_resume (length p) s0 0 p x s) as [Ho ->]; [lia|done|done|]. unfold Find. rewrite Ho, length_app, Nat.min_l by lia.
    cbn. by rewrite drop_app_length. }
  pose proof (find_lines (length (p ++ x)) s0 0 [] (p ++ x) ltac:(lia) Hc ltac:(by rewrite Hk)) as Hf. rewrite Hk in Hf.
  destruct (findLoop_flags s0 0 (p ++ x)) as [Hfl _]. destruct (findLoop_flags s0 0 p) as [Hfp _]. rewrite Hs in Hfp. cbn in Hfp.
  destruct (findLoop s0 0 (p ++ x)) as [s1 [e|]] eqn:Efl; cbn in Hf, Hfl |- *.
  - destruct Hf as [He (ls & Hls & Hl & Hc')]. rewrite Nat.sub_0_r in Hl, Hc'. split; [lia|]. split; [by apply scanned_fresh|]. exists ls. split_and!.
    + intros fut. unfold eventsOf. rewrite Hl. by rewrite groupLines_some.
    + intros st. by apply observeEvent_lines.
  - split_and!; [|congruence|by apply groupLines_none]. exists s0. split_and!; [done|done|congruence].
Qed.

(** A run of the stream longer than the limit in which at most one event ends. *)
Definition oversized (limit : Z) (stream : bytes) : Prop :=
  exists before run after, stream = before ++ run ++ after /\ limit < Z.of_nat (length run)
    /\ (length (eventsOf false (before ++ run)) <= S (length (eventsOf false before)))%nat.

(** Whether a line feed before [pending] is skipped, as the stream has it and as the scanner has
    it: the same, or it makes no difference because another byte comes first. *)
Definition leads (skip opt : bool) (pending : bytes) : Prop :=
  skip = opt \/ exists c r, pending = c :: r /\ Ascii.eqb c LF = false.

Lemma eventsOf_other skip c r : Ascii.eqb c LF = false -> eventsOf skip (c :: r) = eventsOf false (c :: r).
Proof. intros Hc. unfold eventsOf. cbn. rewrite Hc. by destruct skip. Qed.

Lemma leads_events skip opt pending fut : leads skip opt pending -> eventsOf skip (pending ++ fut) = eventsOf opt (pending ++ fut).
Proof. intros [->|(c & r & -> & Hc)]; [done|]. cbn [app]. rewrite (eventsOf_other skip), (eventsOf_other opt); done. Qed.

Lemma leads_take skip opt pending e : leads skip opt pending -> (0 < e)%nat -> leads skip opt (take e pending).
Proof. intros [->|(c & r & -> & Hc)] He; [by left|]. right. destruct e as [|e]; [lia|]. by exists c, (take e r). Qed.

Lemma leads_app skip opt pending x : leads skip opt pending -> leads skip opt (pending ++ x).
Proof. intros [->|(c & r & -> & Hc)]; [by left|]. right. by exists c, (r ++ x). Qed.

(** The bytes forwarded so far hold the events [gs]; a terminal event waits only for a line
    feed, and the scanner then knows how long the last event was. *)
Definition tracks (W : bytes) (gs : list (list bytes)) (b : sseEventObservationBuffer) : Prop :=
  (exists skip, leads skip (bs_optionalLineFeed (ob_scanner b)) (ob_pending b) /\ forall fut, eventsOf false (W ++ fut) = gs ++ eventsOf skip fut)
  /\ (ob_pendingTerminal b = true -> bs_optionalLineFeed (ob_scanner b) = true)
  /\ (bs_optionalLineFeed (ob_scanner b) = true ->
       exists w0 ev, W = w0 ++ ev /\ bs_previousInputBytes (ob_scanner b) = Z.of_nat (length ev)
         /\ bs_previousOutputBytes (ob_scanner b) = Z.of_nat (length ev) /\ length gs = S (length (eventsOf false w0))).

Lemma eventsOf_nil skip : eventsOf skip [] = [].
Proof. done. Qed.

Lemma tracks_prefix W gs b : tracks W gs b -> eventsOf false W = gs.
Proof. intros [(skip & _ & H) _]. specialize (H []). by rewrite eventsOf_nil, !app_nil_r in H. Qed.

Definition outcome (W : bytes) (t0 : bool) (st0 : St) (text : bytes) (limit : Z)
    (r : result (sseError E) (bytes * bool * sseEventObservationBuffer * St)) : Prop :=
  match r with
  | Ok (wire, terminal, b, st) =>
      wire ++ ob_pending b = text /\ Z.of_nat (length (ob_pending b)) <= limit /\ ob_maxEventBytes b = limit
      /\ scanned (ob_scanner b) (ob_pending b) /\ eventsOf (bs_optionalLineFeed (ob_scanner b)) (ob_pending b) = []
      /\ exists gs, tracks (W ++ wire) gs b /\ observeAll st0 gs = Ok (t0 || terminal || ob_pendingTerminal b, st)
  | Err EventTooLarge => oversized limit (W ++ text)
  | Err (ObserverFailed e) => forall fut, observeAll st0 (eventsOf false (W ++ text ++ fut)) = Err e
  | Err EventIncomplete => False
  end.

(** Where no line feed is awaited, a round searches an event. *)
Lemma pushLoop_find n b st wire terminal : bs_optionalLineFeed (ob_scanner b) = false -> ob_pendingTerminal b = false ->
  pushLoop (S n) b st wire terminal =
  match Find (ob_scanner b) (ob_pending b) with
  | (sc1, None) =>
      if ob_maxEventBytes b <? Z.of_nat (length (ob_pending b)) then Err EventTooLarge
      else Ok (wire, terminal, mkBuffer (ob_pending b) false (ob_maxEventBytes b) sc1, st)
  | (sc1, Some e) =>
      if ob_maxEventBytes b <? Z.of_nat e then Err EventTooLarge
      else match observeEvent st (take e (ob_pending b)) with
           | Err er => Err (ObserverFailed er)
           | Ok (t, st1) =>
               pushLoop n (mkBuffer (drop e (ob_pending b)) (t && bs_skipLineFeed sc1) (ob_maxEventBytes b) (AfterEvent sc1 (Z.of_nat e) (Z.of_nat e)))
                 st1 (wire ++ take e (ob_pending b)) (terminal || t && negb (t && bs_skipLineFeed sc1))
           end
  end.
Proof.
  intros Ho Hp. cbn [pushLoop]. unfold ConsumeOptionalLineFeed. rewrite Ho, Hp. cbn. rewrite orb_false_r.
  by destruct (Find (ob_scanner b) (ob_pending b)) as [sc1 [e|]].
Qed.

(** A byte other than the awaited line feed only ends the waiting. *)
Lemma pushLoop_other n c r pt limit sc st wire terminal : bs_optionalLineFeed sc = true -> Ascii.eqb c LF = false ->
  pushLoop (S n) (mkBuffer (c :: r) pt limit sc) st wire terminal
  = pushLoop (S n) (mkBuffer (c :: r) false limit (clearOptionalLineFeed sc)) st wire (terminal || pt).
Proof.
  intros Ho Hc. cbn [pushLoop]. unfold ConsumeOptionalLineFeed. cbn [ob_scanner ob_pending ob_pendingTerminal ob_maxEventBytes]. rewrite Ho, Hc. cbn.
  rewrite andb_true_r, orb_false_r. by destruct pt.
Qed.

(** An event is complete: what is tracked grows by it. *)
Lemma tracks_event W gs b e ls sc1 pt : tracks W gs b -> bs_optionalLineFeed (ob_scanner b) = false -> (0 < e <= length (ob_pending b))%nat ->
  (forall fut, eventsOf false (take e (ob_pending b) ++ fut) = ls :: eventsOf (bs_skipLineFeed sc1) fut) ->
  (pt = true -> bs_skipLineFeed sc1 = true) ->
  tracks (W ++ take e (ob_pending b)) (gs ++ [ls])
    (mkBuffer (drop e (ob_pending b)) pt (ob_maxEventBytes b) (AfterEvent sc1 (Z.of_nat e) (Z.of_nat e))).
Proof.
  intros Htr Ho He Htake Hpt. pose proof (tracks_prefix _ _ _ Htr) as Hw. destruct Htr as ((skip & Hl & Ht) & _ & _). rewrite Ho in Hl. split_and!.
  - exists (bs_skipLineFeed sc1). split; [by left|]. intros fut.
    rewrite <- !app_assoc, Ht, (leads_events skip false), Htake by (apply leads_take; [done|lia]). done.
  - done.
  - intros _. exists W, (take e (ob_pending b)). cbn. rewrite length_take_le, length_app, Hw by lia. cbn. split_and!; [done|done|done|lia].
Qed.

(** The awaited line feed belongs to the event before it. *)
Lemma tracks_lineFeed W gs r pt limit sc : bs_optionalLineFeed sc = true -> tracks W gs (mkBuffer (LF :: r) pt limit sc) ->
  tracks (W ++ [LF]) gs (mkBuffer r false limit (clearOptionalLineFeed sc)).
Proof.
  intros Ho ((skip & Hl & Ht) & _). cbn in Hl. rewrite Ho in Hl. assert (skip = true) as -> by (destruct Hl as [|(c & r' & [= <- _] & ?)]; done).
  split_and!; [|done|done]. exists false. split; [by left|]. intros fut. by rewrite <- app_assoc, Ht.
Qed.

Lemma pushLoop_awaited n r pt limit sc st wire terminal W gs t0 st0 : bs_optionalLineFeed sc = true ->
  tracks (W ++ wire) gs (mkBuffer (LF :: r) pt limit sc) -> observeAll st0 gs = Ok (t0 || terminal || pt, st) ->
  (forall terminal', observeAll st0 gs = Ok (t0 || terminal', st) ->
    outcome W t0 st0 (wire ++ LF :: r) limit (pushLoop n (mkBuffer r false limit (clearOptionalLineFeed sc)) st (wire ++ [LF]) terminal')) ->
  outcome W t0 st0 (wire ++ LF :: r) limit (pushLoop (S n) (mkBuffer (LF :: r) pt limit sc) st wire terminal).
Proof.
  intros Ho Htr Hob Hrec. cbn [pushLoop]. unfold ConsumeOptionalLineFeed. cbn [ob_scanner ob_pending ob_pendingTerminal ob_maxEventBytes].
  rewrite Ho. destruct Htr as ((skip & Hl & Ht) & _ & Hlast). destruct (Hlast Ho) as (w0 & ev & HW & Hin & Hout & Hlen). cbn in Hl, Hin, Hout.
  rewrite Hin, Hout, orb_diag. cbn. destruct (Z.leb_spec limit (Z.of_nat (length ev))).
  - exists w0, (ev ++ [LF]), r. cbn. rewrite length_app. cbn. rewrite <- app_assoc, !(app_assoc w0), <- HW, <- app_assoc. split_and!; [done|lia|].
    rewrite Ho in Hl. assert (skip = true) as -> by (destruct Hl as [|(c & r' & [= <- _] & ?)]; done).
    rewrite Ht. change (eventsOf true [LF]) with (@nil (list bytes)). rewrite app_nil_r. lia.
  - destruct pt; cbn; apply Hrec; by rewrite ?orb_true_r, ?orb_false_r in *.
Qed.

(** A run of rounds from where the scan stands: by induction on the bytes left. *)
Lemma pushLoop_ok n b st wire terminal W gs t0 st0 p x :
  (length (ob_pending b) < n)%nat -> 0 < ob_maxEventBytes b -> ob_pending b = p ++ x -> scanned (ob_scanner b) p ->
  tracks (W ++ wire) gs b -> observeAll st0 gs = Ok (t0 || terminal || ob_pendingTerminal b, st) ->
  outcome W t0 st0 (wire ++ ob_pending b) (ob_maxEventBytes b) (pushLoop n b st wire terminal).
Proof.
  revert b st wire terminal gs p x. induction n as [|n IH]; intros b st wire terminal gs p x Hn Hmax Hp Hs Htr Hob; [lia|].
  assert (forall b terminal, (length (ob_pending b) < S n)%nat -> 0 < ob_maxEventBytes b -> ob_pending b = p ++ x ->
    bs_optionalLineFeed (ob_scanner b) = false -> ob_pendingTerminal b = false -> scanned (ob_scanner b) p -> tracks (W ++ wire) gs b ->
    observeAll st0 gs = Ok (t0 || terminal, st) ->
    outcome W t0 st0 (wire ++ ob_pending b) (ob_maxEventBytes b) (pushLoop (S n) b st wire terminal)) as Hfind.
  { clear b terminal Hn Hmax Hp Hs Htr Hob. intros b terminal Hn Hmax Hp Ho Hpt Hs Htr Hob.
    rewrite pushLoop_find by done. pose proof (find_step _ p x Hs Ho) as Hf. rewrite <- Hp in Hf.
    pose proof (tracks_prefix _ _ _ Htr) as Hw. destruct (proj1 Htr) as (skip & Hl & Ht). rewrite Ho in Hl.
    destruct (Find (ob_scanner b) (ob_pending b)) as [sc1 [e|]].
    - destruct Hf as (He & Hs1 & ls & Htake & Hobs). destruct (Z.ltb_spec (ob_maxEventBytes b) (Z.of_nat e)).
      + exists (W ++ wire), (take e (ob_pending b)), (drop e (ob_pending b)). rewrite take_drop, length_take_le, app_assoc by lia.
        specialize (Htake []). rewrite app_nil_r, eventsOf_nil in Htake. rewrite Ht, <- (app_nil_r (take e _)), (leads_events skip false), app_nil_r, Htake, Hw, length_app by (apply leads_take; [done|lia]).
        cbn. split_and!; [done|done|lia].
      + rewrite Hobs. destruct (observeLines st ls) as [[t st1]|er] eqn:El.
        * eapply (tracks_event _ _ _ e ls sc1 (t && bs_skipLineFeed sc1)) in Htr; [|done|lia|done|by destruct t].
          rewrite <- app_assoc in Htr. replace (wire ++ ob_pending b) with ((wire ++ take e (ob_pending b)) ++ drop e (ob_pending b)) by (by rewrite <- app_assoc, take_drop).
          apply (IH (mkBuffer (drop e (ob_pending b)) (t && bs_skipLineFeed sc1) (ob_maxEventBytes b) (AfterEvent sc1 (Z.of_nat e) (Z.of_nat e)))
            st1 (wire ++ take e (ob_pending b)) _ (gs ++ [ls]) [] (drop e (ob_pending b))); [cbn; rewrite length_drop; lia|done|done|done|exact Htr|].
          rewrite observeAll_app, Hob. cbn. rewrite El. cbn. f_equal. f_equal. by destruct t0, terminal, t, (bs_skipLineFeed sc1).
        * cbn. intros fut. rewrite <- (take_drop e (ob_pending b)), <- !app_assoc, !(app_assoc W), Ht, (leads_events skip false), Htake, observeAll_app, Hob by (apply leads_take; [done|lia]). cbn. by rewrite El.
    - destruct Hf as (Hs1 & Ho1 & Hnone). destruct (Z.ltb_spec (ob_maxEventBytes b) (Z.of_nat (length (ob_pending b)))).
      + exists (W ++ wire), (ob_pending b), []. pose proof (leads_events skip false _ [] Hl) as Hz. rewrite !app_nil_r, Hnone in Hz.
        rewrite app_nil_r, app_assoc, Ht, Hz, app_nil_r, Hw. split_and!; [done|done|lia].
      + cbn. rewrite Ho1. split_and!; try done. exists gs. rewrite orb_false_r. split; [|done]. unfold tracks. cbn. rewrite Ho1. split_and!; [by exists skip|done|done]. }
  destruct (bs_optionalLineFeed (ob_scanner b)) eqn:Ho; [|].
  - assert (p = []) as -> by (destruct Hs as (? & _ & _ & H); by apply H).
    destruct (scanned_clear _ Hs) as [Hsc Hoc]. destruct b as [pending pt limit sc]. cbn [ob_pending ob_pendingTerminal ob_maxEventBytes ob_scanner] in *.
    destruct pending as [|c r].
    + cbn [pushLoop]. unfold ConsumeOptionalLineFeed, Find. cbn [ob_scanner ob_pending ob_pendingTerminal ob_maxEventBytes].
      rewrite Ho. cbn. rewrite Nat.min_0_r, Ho, andb_false_r, orb_false_r. cbn.
      change (Z.of_nat 0) with 0. destruct (Z.ltb_spec limit 0); [lia|]. cbn. split_and!; try done. by exists gs.
    + destruct (Ascii.eqb_spec c LF) as [->|Hc%Ascii.eqb_neq].
      * apply (pushLoop_awaited n r pt limit sc st wire terminal W gs t0 st0); try done. intros terminal' Hob'.
        replace (wire ++ LF :: r) with ((wire ++ [LF]) ++ r) by (by rewrite <- app_assoc).
        apply (IH (mkBuffer r false limit (clearOptionalLineFeed sc)) st (wire ++ [LF]) terminal' gs [] r); cbn; try done; [cbn in Hn; lia| |by rewrite orb_false_r].
        rewrite app_assoc. by apply (tracks_lineFeed _ _ _ pt).
      * rewrite pushLoop_other by done. apply (Hfind (mkBuffer (c :: r) false limit (clearOptionalLineFeed sc))); try done; [|by rewrite orb_assoc].
        destruct Htr as ((skip & _ & Ht) & _). split_and!; [|done|done]. exists skip. split; [|done]. right. by exists c, r.
  - assert (ob_pendingTerminal b = false) as Hpt.
    { destruct Htr as (_ & H & _). destruct (ob_pendingTerminal b); [|done]. rewrite H in Ho; done. }
    apply Hfind; try done. by rewrite Hpt, orb_false_r in Hob.
Qed.

Definition pushed (W : bytes) (t0 : bool) (st0 st : St) (limit : Z) (b : sseEventObservationBuffer) : Prop :=
  Z.of_nat (length (ob_pending b)) <= limit /\ ob_maxEventBytes b = limit
  /\ scanned (ob_scanner b) (ob_pending b) /\ eventsOf (bs_optionalLineFeed (ob_scanner b)) (ob_pending b) = []
  /\ exists gs, tracks W gs b /\ observeAll st0 gs = Ok (t0 || ob_pendingTerminal b, st).

Lemma push_outcome W t0 st0 st limit b chunk : 0 < limit -> pushed W t0 st0 st limit b -> outcome W t0 st0 (ob_pending b ++ chunk) limit (push b st chunk).
Proof.
  intros Hl (_ & <- & Hs & _ & gs & ((skip & Hsk & Ht) & Hpt & Hlast) & Hob). unfold push.
  apply (pushLoop_ok _ (mkBuffer (ob_pending b ++ chunk) (ob_pendingTerminal b) (ob_maxEventBytes b) (ob_scanner b)) _ [] false W gs t0 st0 (ob_pending b) chunk); cbn; [lia|done|done|done| |by rewrite orb_false_r].
  rewrite app_nil_r. split_and!; [|done|done]. exists skip. split; [by apply leads_app|done].
Qed.

Lemma oversized_app limit a b : oversized limit a -> oversized limit (a ++ b).
Proof. intros (w & run & r & -> & Hrun & Hev). exists w, run, (r ++ b). by rewrite <- !app_assoc. Qed.

(** What a whole stream comes to, however it is cut. *)
Definition streamOutcome (st0 : St) (stream : bytes) (limit : Z) (W : bytes) (t0 : bool)
    (r : result (sseError E) (bytes * bool * sseEventObservationBuffer * St)) : Prop :=
  match r with
  | Ok (wire, terminal, b, st) =>
      observeAll st0 (eventsOf false stream) = Ok (t0 || terminal || ob_pendingTerminal b, st)
      /\ W ++ wire ++ ob_pending b = stream /\ Z.of_nat (length (ob_pending b)) <= limit
      /\ eventsOf (bs_optionalLineFeed (ob_scanner b)) (ob_pending b) = []
  | Err (ObserverFailed e) => observeAll st0 (eventsOf false stream) = Err e
  | Err EventTooLarge => oversized limit stream
  | Err EventIncomplete => False
  end.

Lemma pushAll_ok W t0 st0 st limit b chunks : 0 < limit -> pushed W t0 st0 st limit b ->
  streamOutcome st0 (W ++ ob_pending b ++ concat chunks) limit W t0 (pushAll b st chunks).
Proof.
  intros Hl. revert W t0 st b. induction chunks as [|c r IH]; intros W t0 st b Hb.
  - destruct Hb as (Hlen & _ & _ & Hnone & gs & ((skip & Hsk & Ht) & _) & Hob). cbn. rewrite app_nil_r, orb_false_r. split_and!; [|done|done|done].
    pose proof (leads_events skip _ _ [] Hsk) as Hz. rewrite !app_nil_r, Hnone in Hz. by rewrite Ht, Hz, app_nil_r.
  - pose proof (push_outcome _ _ _ _ _ _ c Hl Hb) as Hp. cbn [pushAll concat]. destruct (push b st c) as [[[[wire terminal] b1] st1]|[| |e]]; cbn in Hp |- *.
    + destruct Hp as (Ht & Hlen & Hlim & Hs & Hnone & gs & Htr & Hob).
      assert (pushed (W ++ wire) (t0 || terminal) st0 st1 limit b1) as Hb1 by (split_and!; [done|done|done|done|by exists gs]).
      apply IH in Hb1. rewrite <- app_assoc, (app_assoc wire), Ht, <- app_assoc in Hb1.
      destruct (pushAll b1 st1 r) as [[[[wire' terminal'] b2] st2]|[| |e]]; cbn in Hb1 |- *; try done.
      rewrite <- (app_assoc wire), orb_assoc, <- (app_assoc W) in *. exact Hb1.
    + rewrite (app_assoc (ob_pending b)), app_assoc. by apply oversized_app.
    + done.
    + rewrite (app_assoc (ob_pending b)). apply Hp.
Qed.

(** * Rewriting keeps the event *)

(** A line as it can stand in an event, and the text of lines with one terminator. *)
Definition plainByte (c : ascii) : Prop := Ascii.eqb c CR = false /\ Ascii.eqb c LF = false.
Definition plainLine (l : bytes) : Prop := Forall plainByte l.
Definition terminators : list bytes := [[LF]; [CR]; [CR; LF]].
(** Whether a line feed behind the terminator would still belong to it. *)
Definition awaitsLF (t : bytes) : bool := match t with [c] => Ascii.eqb c CR | _ => false end.
Definition textOf (t : bytes) (ls : list bytes) : bytes := concat ((fun l => l ++ t) <$> ls).

Lemma splitFrom_plain cur l r : plainLine l -> splitFrom cur (l ++ r) = splitFrom (cur ++ l) r.
Proof.
  intros H. revert cur. induction H as [|c l [Hr Hf] _ IH]; intros cur; cbn; [by rewrite app_nil_r|]. rewrite Hr, Hf, IH, <- app_assoc. done.
Qed.

Lemma linesFrom_plain cur l r : plainLine l -> linesFrom cur false (l ++ r) = linesFrom (cur ++ l) false r.
Proof.
  intros H. revert cur. induction H as [|c l [Hr Hf] _ IH]; intros cur; cbn; [by rewrite app_nil_r|]. rewrite Hr, Hf, IH, <- app_assoc. done.
Qed.

(** Text in which no line feed comes first. *)
Definition noLF (l : bytes) : Prop := match l with c :: _ => Ascii.eqb c LF = false | [] => True end.

Lemma linesFrom_noLF cur skip l : noLF l -> linesFrom cur skip l = linesFrom cur false l.
Proof. destruct l as [|c l]; [done|]. cbn. intros ->. by rewrite andb_false_r. Qed.

Lemma textOf_cr_noLF ls : Forall plainLine ls -> noLF (textOf [CR] ls).
Proof. destruct 1 as [|l ls Hl _]; [done|]. destruct Hl as [|c l [_ Hf] _]; done. Qed.

Lemma splitFrom_text t ls : t ∈ terminators -> Forall plainLine ls -> splitSSEEventLines (textOf t ls) = (fun l => newLine l t) <$> ls.
Proof.
  intros Ht H. unfold splitSSEEventLines. induction H as [|l ls Hl Hls IH]; [done|]. unfold textOf in *. rewrite !fmap_cons, <- IH.
  cbn [concat]. rewrite <- app_assoc, splitFrom_plain by done. cbn [app].
  unfold terminators in Ht. rewrite !elem_of_cons, elem_of_nil in Ht. destruct Ht as [->|[->|[->|[]]]]; [done| |done].
  pose proof (textOf_cr_noLF ls Hls) as Hn. unfold textOf in Hn. destruct (concat _) as [|d r]; [done|]. cbn in Hn |- *. by rewrite Hn.
Qed.

(** The lines of the text, whatever follows: after a lone carriage return a line feed would still
    belong to the last line. *)
Lemma linesFrom_text t ls fut : t ∈ terminators -> Forall plainLine ls -> ls <> [] ->
  linesFrom [] false (textOf t ls ++ fut) = ls ++ linesFrom [] (awaitsLF t) fut.
Proof.
  intros Ht H Hne. induction H as [|l ls Hl Hls IH]; [done|]. unfold textOf in *. rewrite fmap_cons. cbn [concat].
  rewrite <- !app_assoc, linesFrom_plain by done. cbn [app].
  assert (linesFrom l false (t ++ concat ((fun l => l ++ t) <$> ls) ++ fut) = l :: linesFrom [] (awaitsLF t) (concat ((fun l => l ++ t) <$> ls) ++ fut)) as ->.
  { unfold terminators in Ht. rewrite !elem_of_cons, elem_of_nil in Ht. by destruct Ht as [->|[->|[->|[]]]]. }
  f_equal. destruct ls as [|l2 ls]; [done|]. rewrite <- IH by done. destruct (awaitsLF t) eqn:Ha; [|reflexivity].
  destruct t as [|c [|]]; try done. cbn in Ha. apply Ascii.eqb_eq in Ha as ->. apply linesFrom_noLF.
  pose proof (textOf_cr_noLF _ Hls) as Hn. unfold textOf in Hn. destruct (concat _) as [|d r] eqn:Ec; [|done].
  by destruct l2.
Qed.

(** The lines of the rewritten event: the first data line gives way to the body, the others go. *)
Fixpoint rewrittenLines (body : bytes) (first : bool) (ls : list bytes) : list bytes :=
  match ls with
  | [] => []
  | l :: r =>
      if (parseSSEDataLine l).1 then
        if first then (app (bytes_of "data: ") <$> splitLF body) ++ rewrittenLines body false r else rewrittenLines body first r
      else l :: rewrittenLines body first r
  end.

Lemma textOf_app t a b : textOf t (a ++ b) = textOf t a ++ textOf t b.
Proof. unfold textOf. by rewrite fmap_app, concat_app. Qed.

Lemma dataLines_text t p parts : dataLines t (p :: parts) ++ t = textOf t (app (bytes_of "data: ") <$> p :: parts).
Proof.
  revert p. induction parts as [|q parts IH]; intros p; [unfold textOf; cbn; by rewrite !app_nil_r|].
  rewrite fmap_cons. specialize (IH q). unfold textOf in *. rewrite (fmap_cons (fun l => l ++ t)). cbn [concat dataLines] in *. rewrite <- IH. by rewrite <- !app_assoc.
Qed.

Lemma splitLF_cons body : exists p parts, splitLF body = p :: parts.
Proof. destruct body as [|c r]; [by exists [], []|]. cbn. destruct (Ascii.eqb c LF); [by eexists _, _|]. destruct (splitLF r); by eexists _, _. Qed.

Lemma joinLines_splitLF body : joinLines (splitLF body) = body.
Proof.
  induction body as [|c r IH]; [done|]. cbn. destruct (splitLF_cons r) as (p & parts & Hs). rewrite Hs in *. destruct (Ascii.eqb_spec c LF) as [->|].
  - cbn in *. by rewrite IH.
  - cbn in *. destruct parts; by rewrite <- IH.
Qed.

Lemma splitLF_plain body : Forall (fun c => Ascii.eqb c CR = false) body -> Forall plainLine (splitLF body).
Proof.
  induction 1 as [|c r Hc _ IH]; [constructor; [apply Forall_nil_2|done]|]. cbn. destruct (Ascii.eqb c LF) eqn:Hlf; [constructor; [apply Forall_nil_2|done]|].
  destruct (splitLF_cons r) as (p & parts & Hs). rewrite Hs in *. inversion IH; subst. constructor; [|done]. by constructor.
Qed.

Lemma rewriteLines_text t body first ls : rewriteLines body first ((fun l => newLine l t) <$> ls) = textOf t (rewrittenLines body first ls).
Proof.
  revert first. induction ls as [|l ls IH]; intros first; [done|]. rewrite fmap_cons. cbn [rewriteLines rewrittenLines].
  rewrite (proj1 (newLine_data l t)), newLine_content. assert (ln_terminator (newLine l t) = t) as -> by (unfold newLine; by destruct (parseSSEDataLine l)).
  destruct (parseSSEDataLine l).1; [|by rewrite IH, app_assoc]. destruct first; [|apply IH].
  destruct (splitLF_cons body) as (p & parts & ->). by rewrite app_assoc, dataLines_text, IH, textOf_app.
Qed.

(** What the lines say after the rewriting. *)
Lemma parse_data_line p : parseSSEDataLine (bytes_of "data: " ++ p) = (true, p).
Proof. done. Qed.

Lemma name_data_line l : (parseSSEDataLine l).1 = true -> parseSSEEventName l = None.
Proof.
  unfold parseSSEDataLine, parseSSEEventName. destruct l as [|c l]; [done|]. destruct (Ascii.eqb c ":"); [done|].
  destruct (splitField (c :: l)) as [field value]. case_bool_decide as Hd; [|done]. subst field. done.
Qed.

Lemma dataOf_app a b : dataOf (a ++ b) = dataOf a ++ dataOf b.
Proof. apply omap_app. Qed.

Lemma dataOf_parts parts : dataOf (app (bytes_of "data: ") <$> parts) = parts.
Proof. induction parts as [|p parts IH]; [done|]. rewrite fmap_cons. unfold dataOf in *. cbn [omap list_omap]. rewrite parse_data_line. by rewrite IH. Qed.

Definition otherLines (ls : list bytes) : list bytes := filter (fun l => (parseSSEDataLine l).1 = false) ls.

Lemma other_parts parts : otherLines (app (bytes_of "data: ") <$> parts) = [].
Proof. induction parts as [|p parts IH]; [done|]. unfold otherLines in *. by rewrite fmap_cons, filter_cons, parse_data_line. Qed.

Lemma rewritten_data body ls :
  dataOf (rewrittenLines body false ls) = [] /\ (dataOf ls <> [] -> dataOf (rewrittenLines body true ls) = splitLF body).
Proof.
  induction ls as [|l ls [IHf IHt]]; [done|]. cbn. destruct (parseSSEDataLine l) as [[] d] eqn:El; cbn.
  - split; [done|]. intros _. by rewrite dataOf_app, dataOf_parts, IHf, app_nil_r.
  - unfold dataOf in *. cbn. rewrite El. done.
Qed.

Lemma rewritten_other body first ls : otherLines (rewrittenLines body first ls) = otherLines ls.
Proof.
  revert first. unfold otherLines. induction ls as [|l ls IH]; intros first; [done|]. rewrite filter_cons. cbn [rewrittenLines].
  destruct (parseSSEDataLine l).1 eqn:El; [|by rewrite filter_cons, El, IH].
  destruct first; [|apply IH]. rewrite filter_app, IH. pose proof (other_parts (splitLF body)) as Ho. unfold otherLines in Ho. by rewrite Ho.
Qed.

(** The name is said by the other lines alone. *)
Lemma nameOf_other ls : nameOf ls = nameOf (otherLines ls).
Proof.
  unfold nameOf, otherLines. generalize ([] : bytes). induction ls as [|l ls IH]; intros a; [done|]. rewrite filter_cons. cbn [foldl].
  destruct (parseSSEDataLine l).1 eqn:El; [|cbn [foldl]; apply IH]. rewrite (name_data_line _ El). apply IH.
Qed.

Lemma rewritten_plain body first ls : Forall (fun c => Ascii.eqb c CR = false) body -> Forall plainLine ls -> Forall plainLine (rewrittenLines body first ls).
Proof.
  intros Hb H. revert first. induction H as [|l ls Hl _ IH]; intros first; cbn; [done|]. destruct (parseSSEDataLine l).1; [|by constructor].
  destruct first; [|apply IH]. apply Forall_app. split; [|apply IH]. apply Forall_fmap. eapply Forall_impl; [by apply splitLF_plain|].
  intros p Hp. unfold plainLine. cbn. repeat (apply Forall_cons; split; [done|]). done.
Qed.

Lemma rewritten_some body first ls : Forall someLine ls -> Forall someLine (rewrittenLines body first ls).
Proof.
  intros H. revert first. induction H as [|l ls Hl _ IH]; intros first; cbn; [done|]. destruct (parseSSEDataLine l).1; [|by constructor].
  destruct first; [|apply IH]. apply Forall_app. split; [|apply IH]. apply Forall_fmap, Forall_true. by intros.
Qed.

(** * The streams of a client *)

Lemma newBuffer_pushed st limit : 0 < normalizedSSEEventLimit limit /\ pushed [] false st st (normalizedSSEEventLimit limit) (newSSEEventObservationBuffer limit).
Proof.
  assert (0 < normalizedSSEEventLimit limit) as Hl by (unfold normalizedSSEEventLimit, maxSSEEventBytes; destruct (Z.ltb_spec 0 limit); lia).
  split; [done|]. split_and!; [cbn; lia|done|by apply scanned_fresh|done|]. exists []. split; [|done]. split_and!; [|done|done]. exists false. by split; [left|].
Qed.

Definition settled (b : sseEventObservationBuffer) : Prop :=
  (bs_optionalLineFeed (ob_scanner b) = true -> ob_pending b = []) /\ (ob_pendingTerminal b = true -> bs_optionalLineFeed (ob_scanner b) = true).

Lemma pushed_settled W t0 st0 st limit b : pushed W t0 st0 st limit b -> settled b.
Proof. intros (_ & _ & (s0 & _ & _ & H) & _ & gs & (_ & Hpt & _) & _). by split. Qed.

Lemma pushAll_settled W t0 st0 st limit b chunks : 0 < limit -> pushed W t0 st0 st limit b ->
  match pushAll b st chunks with Ok (_, _, b', _) => settled b' | Err _ => True end.
Proof.
  intros Hl. revert W t0 st b. induction chunks as [|c r IH]; intros W t0 st b Hb; [by eapply pushed_settled|].
  pose proof (push_outcome _ _ _ _ _ _ c Hl Hb) as Hp. cbn [pushAll]. destruct (push b st c) as [[[[wire terminal] b1] st1]|]; cbn in Hp |- *; [|done].
  destruct Hp as (Ht & Hlen & Hlim & Hs & Hnone & gs & Htr & Hob).
  assert (pushed (W ++ wire) (t0 || terminal) st0 st1 limit b1) as Hb1 by (split_and!; [done|done|done|done|by exists gs]).
  apply IH in Hb1. by destruct (pushAll b1 st1 r) as [[[[? ?] ?] ?]|].
Qed.

Lemma finish_settled b : settled b ->
  match finish b with
  | Ok b' => ob_pending b = [] /\ ob_pendingTerminal b' = false
  | Err e => ob_pending b <> [] /\ e = EventIncomplete
  end.
Proof.
  intros [Ho Hp]. unfold finish, ConsumeOptionalLineFeed. destruct (bs_optionalLineFeed (ob_scanner b)) eqn:Ef; cbn.
  - rewrite Ho by done. cbn. rewrite andb_true_r. split; [done|]. by destruct (ob_pendingTerminal b).
  - rewrite Ef, drop_0, andb_true_r. destruct (ob_pendingTerminal b); [by specialize (Hp eq_refl)|]. by case_bool_decide.
Qed.

Lemma contents_text t (ls : list bytes) : ln_content <$> ((fun l => newLine l t) <$> ls) = ls.
Proof. induction ls as [|l ls IH]; [done|]. by rewrite !fmap_cons, newLine_content, IH. Qed.
Lemma parsed_text t (ls : list bytes) : Forall parsedLine ((fun l => newLine l t) <$> ls).
Proof. apply Forall_fmap, Forall_true. intros l. apply newLine_parsed. Qed.

Lemma rewritten_blank body ls : rewrittenLines body true (ls ++ [[]]) = rewrittenLines body true ls ++ [[]].
Proof.
  generalize true. induction ls as [|l ls IH]; intros first; [done|]. cbn. destruct (parseSSEDataLine l).1; [|by rewrite IH].
  destruct first; [by rewrite IH, app_assoc|apply IH].
Qed.

Lemma eventsOf_text t ls fut : t ∈ terminators -> Forall plainLine ls -> Forall someLine ls ->
  eventsOf false (textOf t (ls ++ [[]]) ++ fut) = ls :: eventsOf (awaitsLF t) fut.
Proof.
  intros Ht Hp Hs. unfold eventsOf. rewrite linesFrom_text; [|done|apply Forall_app; split; [done|constructor; [apply Forall_nil_2|done]]|by destruct ls].
  rewrite <- app_assoc. by apply (groupLines_some []).
Qed.

(** C18: The gateway finds the same events however the upstream stream is cut: after any sequence
    of pieces the observer has seen exactly the events of the concatenation, in order, the bytes
    handed on followed by those kept are the stream unchanged, less than one event within the
    limit is kept, and a terminal event has been reported or waits for the line feed that may
    belong to it.  The stream ends cleanly exactly when nothing is kept.  An observer's error is
    the error the events themselves give, and an event is too large only where a stretch of the
    stream longer than the limit holds at most one event's end. *)
Theorem sse_framing_exact limit st chunks :
  let bound := normalizedSSEEventLimit limit in
  match pushAll (newSSEEventObservationBuffer limit) st chunks with
  | Ok (wire, terminal, b, st') =>
      observeAll st (eventsOf false (concat chunks)) = Ok (terminal || ob_pendingTerminal b, st')
      /\ wire ++ ob_pending b = concat chunks
      /\ Z.of_nat (length (ob_pending b)) <= bound
      /\ eventsOf (bs_optionalLineFeed (ob_scanner b)) (ob_pending b) = []
      /\ match finish b with
         | Ok b' => ob_pending b = [] /\ ob_pendingTerminal b' = false
         | Err e => ob_pending b <> [] /\ e = EventIncomplete
         end
  | Err (ObserverFailed e) => observeAll st (eventsOf false (concat chunks)) = Err e
  | Err EventTooLarge => oversized bound (concat chunks)
  | Err EventIncomplete => False
  end.
Proof.
  intros bound. destruct (newBuffer_pushed st limit) as [Hl Hb]. pose proof (pushAll_ok _ _ _ _ _ _ chunks Hl Hb) as H. fold bound in H.
  pose proof (pushAll_settled _ _ _ _ _ _ chunks Hl Hb) as Hset. cbn in H.
  destruct (pushAll _ st chunks) as [[[[wire terminal] b] st']|[| |e]]; cbn in H; [|done|done|done].
  destruct H as (Hob & Hw & Hlen & Hnone). split_and!; [done|done|done|done|]. by apply finish_settled.
Qed.

(** C39: Rewriting the payload of an event touches nothing else: where the lines of an event end
    alike, it has a payload other than [[DONE]] and the new body has no carriage return, the
    rewritten text is again exactly one event, whatever follows, with the new body as its payload,
    the old name, and every other line in its place.  (The code splits the new body at line feeds
    only, so a carriage return in it would end a line of the event.) *)
Theorem sse_rewrite_exact t ls rewrite body terminal :
  t ∈ terminators -> Forall plainLine ls -> Forall someLine ls -> Forall (fun c => Ascii.eqb c CR = false) body ->
  let payload := joinLines (dataOf ls) in
  payload <> [] -> payload <> bytes_of "[DONE]" ->
  rewrite (mkStreamEvent (nameOf ls) payload) (isErrorEvent (nameOf ls) payload) = Ok (body, terminal) ->
  exists out ls', rewriteSSEEventWithMetadata rewrite (textOf t (ls ++ [[]])) = Ok (out, terminal)
    /\ (forall fut, eventsOf false (out ++ fut) = ls' :: eventsOf (awaitsLF t) fut)
    /\ joinLines (dataOf ls') = body /\ nameOf ls' = nameOf ls /\ otherLines ls' = otherLines ls.
Proof.
  intros Ht Hp Hs Hb payload Hne Hdone Hr. unfold rewriteSSEEventWithMetadata.
  assert (Forall plainLine (ls ++ [[]])) as Hp1 by (apply Forall_app; split; [done|constructor; [apply Forall_nil_2|done]]).
  rewrite splitFrom_text, dataValues_contents, eventName_contents, contents_text, dataOf_blank, nameOf_blank by (done || apply parsed_text).
  fold payload. rewrite !bool_decide_eq_false_2 by done. cbn. rewrite Hr. cbn. case_bool_decide as Heq.
  - eexists _, ls. split; [done|]. split_and!; [|by rewrite Heq|done|done]. intros fut. by apply eventsOf_text.
  - rewrite rewriteLines_text, rewritten_blank. eexists _, (rewrittenLines body true ls). split; [done|]. split_and!.
    + intros fut. apply eventsOf_text; [done|by apply rewritten_plain|by apply rewritten_some].
    + rewrite (proj2 (rewritten_data body ls)), joinLines_splitLF; [done|]. intros Hd. apply Hne. unfold payload. by rewrite Hd.
    + by rewrite nameOf_other, rewritten_other, <- nameOf_other.
    + apply rewritten_other.
Qed.

End Events.

(** * On concrete streams *)

#[local] Instance exText : GoText := asciiText.
#[local] Instance exCodec : StringCodec := {| quoteString := fun _ l => l; unquoteString := Some |}.

(** An observer that keeps the payloads and ends at one of its own. *)
Definition keepPayloads (seen : list bytes) (e : StreamEvent) (_ : bool) : result unit (bool * list bytes) :=
  Ok (bool_decide (se_Payload e = bytes_of "end"), seen ++ [se_Payload e]).

Definition exStream : bytes := bytes_of "data: a" ++ [CR; LF; CR; LF] ++ bytes_of "data: b" ++ [LF] ++ bytes_of "data:c" ++ [LF; LF] ++ bytes_of "data: end" ++ [CR; CR].

(** Byte by byte, and the last byte still waits for a line feed. *)
Lemma bytewise :
  match pushAll keepPayloads (newSSEEventObservationBuffer 64) [] ((fun c => [c]) <$> exStream ++ [LF]) with
  | Ok (wire, terminal, b, seen) =>
      wire = exStream ++ [LF] /\ terminal = true /\ ob_pending b = [] /\ seen = [bytes_of "a"; bytes_of "b" ++ [LF] ++ bytes_of "c"; bytes_of "end"]
  | Err _ => False
  end.
Proof. vm_compute. done. Qed.

Lemma too_large : pushAll keepPayloads (newSSEEventObservationBuffer 10) [] [bytes_of "data: a"; bytes_of "bcdefg"] = Err EventTooLarge.
Proof. by vm_compute. Qed.

Definition upper (_ : StreamEvent) (_ : bool) : result unit (bytes * bool) := Ok (bytes_of "x" ++ [LF] ++ bytes_of "y", false).

(** An event of two data lines with a comment between them, rewritten to a body of two lines. *)
Lemma sse_rewrite_exact_witness :
  exists out ls', rewriteSSEEventWithMetadata upper (textOf [CR; LF] ([bytes_of "event: m"; bytes_of "data: a"; bytes_of ": c"; bytes_of "data: b"] ++ [[]])) = Ok (out, false)
    /\ (forall fut, eventsOf false (out ++ fut) = ls' :: eventsOf (awaitsLF [CR; LF]) fut)
    /\ joinLines (dataOf ls') = bytes_of "x" ++ [LF] ++ bytes_of "y" /\ nameOf ls' = bytes_of "m"
    /\ otherLines ls' = [bytes_of "event: m"; bytes_of ": c"].
Proof.
  refine (sse_rewrite_exact [CR; LF] [bytes_of "event: m"; bytes_of "data: a"; bytes_of ": c"; bytes_of "data: b"] upper _ false _ _ _ _ _ _ _);
    [by right; right; left|by repeat constructor|by repeat constructor|by repeat constructor|by vm_compute|by vm_compute|done].
Defined.

(** Lines that end differently: the carriage return of the rewritten line and the line feed of
    the blank one become one terminator, and the event has lost its end. *)
Definition mixedEvent : bytes := bytes_of "data: a" ++ [CR] ++ bytes_of "data: b" ++ [LF; LF].
Lemma rewrite_loses_boundary :
  length (eventsOf false mixedEvent) = 1%nat /\
  exists out, rewriteSSEEventWithMetadata upper mixedEvent = Ok (out, false) /\ eventsOf false out = [].
Proof. split; [by vm_compute|]. eexists. split; [by vm_compute|by vm_compute]. Qed.
