(* ===== verification/StreamObserver.v ===== *)
(** The observer of an event stream ([streamEventObserver] of [internal/gateway/stream_observation.go]
    and its use in [execution_forward.go]): what the events of an answer amount to, whatever the
    pieces in which they arrive.

    The dialect's classifiers, the extraction of usage, the text of an error summary, the check
    for credentials in a payload and the handler of the answer's identity are parameters. *)
From Stdlib Require Import Ascii.
From S2P Require Import Prelude GoStrings Execution Judge Upstream JsonText SseEvents.

Local Open Scope Z_scope.
Local Open Scope go_scope.

(** * Classification *)

Definition StreamEventContinue : Z := 0.
Definition StreamEventCompleted : Z := 1.
Definition StreamEventIncomplete : Z := 2.
Definition StreamEventFailed : Z := 3.

Definition IsTerminal (d : Z) : bool := (d =? StreamEventCompleted) || (d =? StreamEventIncomplete) || (d =? StreamEventFailed).
Definition IsProviderError (d : Z) : bool := d =? StreamEventFailed.
Definition validStreamEventDisposition (d : Z) : bool := (StreamEventContinue <=? d) && (d <=? StreamEventFailed).

Record StreamContent := mkContent { sc_Produced : bool; sc_ExplainedStop : bool }.

(** A call of a dialect may also panic. *)
Inductive called (A : Type) := Answered (a : A) | Failing | Panicking.
Arguments Answered {A} a.
Arguments Failing {A}.
Arguments Panicking {A}.

(** [safeClassifyStreamEvent]: the disposition, whether there is an error, whether it panicked. *)
Definition safeClassifyStreamEvent (classify : StreamEvent -> called Z) (e : StreamEvent) : Z * bool * bool :=
  match classify e with Answered d => (d, false, false) | Failing => (StreamEventContinue, true, false) | Panicking => (StreamEventContinue, false, true) end.
Definition safeClassifyStreamContent (classify : StreamEvent -> called StreamContent) (e : StreamEvent) : StreamContent :=
  match classify e with Answered c => c | _ => mkContent true false end.

Section Observer.
Context {U Rs : Type}.
Context (classifier : option (StreamEvent -> called Z)) (requiresTerminal : bool).
Context (contentOf : option (StreamEvent -> called StreamContent)).
Context (observeUsage : StreamEvent -> U -> U) (summarize : bytes -> string) (leaks : bytes -> bool).
Context (onResponse : option (bytes -> Rs -> result GoError Rs)).

Record streamEventObserver := mkObserver {
  ob_terminalRequired : bool;
  ob_sawTerminal : bool;
  ob_terminalForwarded : bool;
  ob_terminalDisposition : Z;
  ob_eventCount : Z;
  ob_sawContent : bool;
  ob_sawExplainedStop : bool;
  ob_firstProviderError : bool;
  ob_sawErrorEvent : bool;
  ob_firstSummary : string;
  ob_firstErrorPayload : bytes;
  ob_usage : U;
  ob_responses : Rs
}.

(** A dialect that classifies nothing requires no terminal event. *)
Definition newStreamEventObserver (u : U) (rs : Rs) : streamEventObserver :=
  mkObserver (isSome classifier && requiresTerminal) false false StreamEventContinue 0 false false false false EmptyString [] u rs.

Definition withTerminal (d : Z) (o : streamEventObserver) : streamEventObserver :=
  mkObserver (ob_terminalRequired o) true (ob_terminalForwarded o) d (ob_eventCount o) (ob_sawContent o) (ob_sawExplainedStop o)
    (ob_firstProviderError o) (ob_sawErrorEvent o) (ob_firstSummary o) (ob_firstErrorPayload o) (ob_usage o) (ob_responses o).
Definition withContent (c : StreamContent) (o : streamEventObserver) : streamEventObserver :=
  mkObserver (ob_terminalRequired o) (ob_sawTerminal o) (ob_terminalForwarded o) (ob_terminalDisposition o) (ob_eventCount o)
    (ob_sawContent o || sc_Produced c) (ob_sawExplainedStop o || sc_ExplainedStop c)
    (ob_firstProviderError o) (ob_sawErrorEvent o) (ob_firstSummary o) (ob_firstErrorPayload o) (ob_usage o) (ob_responses o).
Definition countStreamEvent (providerError : bool) (o : streamEventObserver) : streamEventObserver :=
  let eventCount := ob_eventCount o + 1 in
  mkObserver (ob_terminalRequired o) (ob_sawTerminal o) (ob_terminalForwarded o) (ob_terminalDisposition o) eventCount
    (ob_sawContent o) (ob_sawExplainedStop o) (if eventCount =? 1 then providerError else ob_firstProviderError o)
    (ob_sawErrorEvent o) (ob_firstSummary o) (ob_firstErrorPayload o) (ob_usage o) (ob_responses o).
Definition withUsage (u : U) (o : streamEventObserver) : streamEventObserver :=
  mkObserver (ob_terminalRequired o) (ob_sawTerminal o) (ob_terminalForwarded o) (ob_terminalDisposition o) (ob_eventCount o)
    (ob_sawContent o) (ob_sawExplainedStop o) (ob_firstProviderError o) (ob_sawErrorEvent o) (ob_firstSummary o) (ob_firstErrorPayload o) u (ob_responses o).
Definition withResponses (rs : Rs) (o : streamEventObserver) : streamEventObserver :=
  mkObserver (ob_terminalRequired o) (ob_sawTerminal o) (ob_terminalForwarded o) (ob_terminalDisposition o) (ob_eventCount o)
    (ob_sawContent o) (ob_sawExplainedStop o) (ob_firstProviderError o) (ob_sawErrorEvent o) (ob_firstSummary o) (ob_firstErrorPayload o) (ob_usage o) rs.
Definition observeError (payload : bytes) (summary : string) (o : streamEventObserver) : streamEventObserver :=
  let first := strEq (ob_firstSummary o) EmptyString in
  mkObserver (ob_terminalRequired o) (ob_sawTerminal o) (ob_terminalForwarded o) (ob_terminalDisposition o) (ob_eventCount o)
    (ob_sawContent o) (ob_sawExplainedStop o) (ob_firstProviderError o) true
    (if first then summary else ob_firstSummary o) (if first then payload else ob_firstErrorPayload o) (ob_usage o) (ob_responses o).
Definition markTerminalForwarded (o : streamEventObserver) : streamEventObserver * bool :=
  if negb (ob_sawTerminal o) then (o, false)
  else (mkObserver (ob_terminalRequired o) (ob_sawTerminal o) true (ob_terminalDisposition o) (ob_eventCount o)
          (ob_sawContent o) (ob_sawExplainedStop o) (ob_firstProviderError o) (ob_sawErrorEvent o) (ob_firstSummary o) (ob_firstErrorPayload o) (ob_usage o) (ob_responses o), true).

(** Whether the event is an error of the provider, and the observer, unless the classification fails. *)
Definition classify (o : streamEventObserver) (e : StreamEvent) (genericProviderError : bool) : result GoError (bool * streamEventObserver) :=
  if ob_sawTerminal o then Ok (false, o)
  else
    let '(d, failed, panicked) := match classifier with Some f => safeClassifyStreamEvent f e | None => (StreamEventContinue, false, false) end in
    if panicked || failed || negb (validStreamEventDisposition d) then Err protocolError
    else
      let o1 := if IsTerminal d then withTerminal d o else o in
      let o2 := match contentOf with Some f => withContent (safeClassifyStreamContent f e) o1 | None => o1 end in
      let providerError := genericProviderError || IsProviderError d in
      Ok (providerError, countStreamEvent providerError o2).

Definition isDone (payload : bytes) : bool := strEq (TrimSpace (of_bytes payload)) "[DONE]".
Definition observeUsageEvent (e : StreamEvent) (o : streamEventObserver) : streamEventObserver :=
  if isDone (se_Payload e) then o else withUsage (observeUsage e (ob_usage o)) o.

(** The callback of [execution_forward.go]: whether the event is the terminal one. *)
Definition observe (o : streamEventObserver) (e : StreamEvent) (genericProviderError : bool) : result GoError (bool * streamEventObserver) :=
  if leaks (se_Payload e) then Err protocolError
  else
    let wasTerminal := ob_sawTerminal o in
    try! (providerError, o1) := classify o e genericProviderError in
    try! o2 :=
      if negb wasTerminal && negb providerError
      then match onResponse with Some f => try! rs := f (se_Payload e) (ob_responses o1) in Ok (withResponses rs o1) | None => Ok o1 end
      else Ok o1 in
    let o3 :=
      if negb wasTerminal then
        let o3 := observeUsageEvent e o2 in
        if providerError then observeError (se_Payload e) (summarize (se_Payload e)) o3 else o3
      else o2 in
    Ok (negb wasTerminal && ob_sawTerminal o3, o3).

(** * The end of a stream *)

Definition endedWithoutContent (o : streamEventObserver) : bool :=
  isSome contentOf && ob_sawTerminal o && negb (ob_sawContent o) && negb (ob_sawErrorEvent o) && negb (ob_sawExplainedStop o)
  && (ob_terminalDisposition o =? StreamEventCompleted).

Definition endObservation (o : streamEventObserver) : StreamObservation :=
  if ob_sawErrorEvent o then mkStream StreamEndSSEError (ob_firstSummary o)
  else if ob_sawTerminal o && (ob_terminalDisposition o =? StreamEventIncomplete) then streamTerminalObservation StreamEndProviderIncomplete
  else mkStream StreamEndCleanEOF EmptyString.

Definition protocolFailure : GoError := mkGoError true false false false false false false (Some streamFailureProtocol).
Definition validateEOF (o : streamEventObserver) : option GoError :=
  if negb (ob_terminalRequired o) || ob_sawTerminal o then None else Some protocolFailure.

Definition observeStreamTermination (ctx : option ReqContext) (err : option GoError) (o : streamEventObserver) : StreamObservation :=
  let observation := endObservation o in
  if ob_terminalForwarded o && errIs is_UpstreamProtocol err then prioritizeStreamObservation None err observation
  else if ob_terminalForwarded o && (errIs is_Canceled err || errIs is_Canceled (ctx ≫= ctx_Err)) then observation
  else prioritizeStreamObservation ctx err observation.

(** [terminal] is the error of the executor's result: its kind and its summary. *)
Definition executionStreamObservation (ctx : option ReqContext) (terminal : option (ErrorKind * string)) (downstreamErr : option GoError)
    (o : streamEventObserver) : StreamObservation :=
  match downstreamErr, terminal with
  | Some _, _ => observeStreamTermination ctx downstreamErr o
  | None, None => endObservation o
  | None, Some (kind, summary) =>
      if strEq kind ErrorKindCanceled then observeStreamTermination ctx (Some canceledError) o
      else if strEq kind ErrorKindTimeout then streamTerminalObservation StreamEndIdleTimeout
      else if strEq kind ErrorKindProvider || strEq kind ErrorKindHTTP then
        let observation := endObservation o in
        if bool_decide (so_EndReason observation = StreamEndSSEError) then observation else mkStream StreamEndSSEError summary
      else if strEq kind ErrorKindInvalidRequest || strEq kind ErrorKindInternal then streamTerminalObservation StreamEndUpstreamProtocolError
      else streamTerminalObservation StreamEndUpstreamTerminated
  end.

(** * The reference: what a list of events amounts to *)

(** An event that is shown, with what its name and payload say of an error. *)
Definition shownEvent : Type := StreamEvent * bool.

Definition dispositionOf (e : StreamEvent) : option Z :=
  match classifier with
  | None => Some StreamEventContinue
  | Some f => match f e with Answered d => if validStreamEventDisposition d then Some d else None | _ => None end
  end.
Definition terminalEvent (x : shownEvent) : bool := from_option IsTerminal false (dispositionOf x.1).
Definition errorEvent (x : shownEvent) : bool := x.2 || from_option IsProviderError false (dispositionOf x.1).

(** The events up to the first terminal one: what comes later is passed on unobserved. *)
Fixpoint upToTerminal (evs : list shownEvent) : list shownEvent :=
  match evs with [] => [] | x :: r => x :: (if terminalEvent x then [] else upToTerminal r) end.

Definition contentSeen (f : StreamContent -> bool) (x : shownEvent) : bool :=
  match contentOf with Some g => f (safeClassifyStreamContent g x.1) | None => false end.
Fixpoint firstSummaryOf (errors : list shownEvent) : string :=
  match errors with
  | [] => EmptyString
  | x :: r => if strEq (summarize (se_Payload x.1)) EmptyString then firstSummaryOf r else summarize (se_Payload x.1)
  end.

(** Why an event ends the stream with an error: a credential in it, an answer of the classifier
    that is no disposition, or the handler of the response. *)
Definition refusedEvent (x : shownEvent) : Prop :=
  leaks (se_Payload x.1) = true \/ dispositionOf x.1 = None
  \/ exists f rs e, onResponse = Some f /\ f (se_Payload x.1) rs = Err e /\ errorEvent x = false.

Fixpoint observeShown (o : streamEventObserver) (evs : list shownEvent) : result GoError (bool * streamEventObserver) :=
  match evs with
  | [] => Ok (false, o)
  | (e, g) :: r => try! (t, o1) := observe o e g in try! (t', o2) := observeShown o1 r in Ok (t || t', o2)
  end.

(** The callback on one event after the other: what it reports of each. *)
Fixpoint reported (o : streamEventObserver) (evs : list shownEvent) : result GoError (list bool * streamEventObserver) :=
  match evs with
  | [] => Ok ([], o)
  | (e, g) :: r => try! (t, o1) := observe o e g in try! (ts, o2) := reported o1 r in Ok (t :: ts, o2)
  end.

(** Only the first terminal event is one to report. *)
Fixpoint firstTerminal (ended : bool) (evs : list shownEvent) : list bool :=
  match evs with [] => [] | x :: r => (negb ended && terminalEvent x) :: firstTerminal (ended || terminalEvent x) r end.

(** The account of the events [seen], none terminal but the last, added to an observer. *)
Record accounted (o : streamEventObserver) (seen : list shownEvent) (o' : streamEventObserver) : Prop := {
  ac_terminal : ob_sawTerminal o' = existsb terminalEvent seen;
  ac_disposition : ob_terminalDisposition o' = match List.find terminalEvent seen with Some x => default 0 (dispositionOf x.1) | None => ob_terminalDisposition o end;
  ac_count : ob_eventCount o' = ob_eventCount o + Z.of_nat (length seen);
  ac_first : ob_firstProviderError o' = (if ob_eventCount o =? 0 then match seen with x :: _ => errorEvent x | [] => ob_firstProviderError o end else ob_firstProviderError o);
  ac_content : ob_sawContent o' = ob_sawContent o || existsb (contentSeen sc_Produced) seen;
  ac_explained : ob_sawExplainedStop o' = ob_sawExplainedStop o || existsb (contentSeen sc_ExplainedStop) seen;
  ac_error : ob_sawErrorEvent o' = ob_sawErrorEvent o || existsb errorEvent seen;
  ac_summary : ob_firstSummary o' = (if strEq (ob_firstSummary o) EmptyString then firstSummaryOf (List.filter errorEvent seen) else ob_firstSummary o);
  ac_usage : ob_usage o' = foldl (fun u x => if isDone (se_Payload x.1) then u else observeUsage x.1 u) (ob_usage o) seen;
  ac_required : ob_terminalRequired o' = ob_terminalRequired o;
  ac_forwarded : ob_terminalForwarded o' = ob_terminalForwarded o
}.

Lemma classify_spec o e g : ob_sawTerminal o = false ->
  classify o e g =
  match dispositionOf e with
  | Some d =>
      let o1 := if IsTerminal d then withTerminal d o else o in
      let o2 := match contentOf with Some f => withContent (safeClassifyStreamContent f e) o1 | None => o1 end in
      Ok (g || IsProviderError d, countStreamEvent (g || IsProviderError d) o2)
  | None => Err protocolError
  end.
Proof.
  intros Ht. unfold classify, dispositionOf, safeClassifyStreamEvent. rewrite Ht. destruct classifier as [f|]; [|done].
  destruct (f e) as [d| |]; [|done|done]. cbn. by destruct (validStreamEventDisposition d).
Qed.

(** What the callback does once the event is classified. *)
Definition recorded (e : StreamEvent) (providerError : bool) (o : streamEventObserver) : streamEventObserver :=
  let o3 := observeUsageEvent e o in if providerError then observeError (se_Payload e) (summarize (se_Payload e)) o3 else o3.

Lemma recorded_accounted o e g d rs : ob_sawTerminal o = false -> dispositionOf e = Some d ->
  let o1 := if IsTerminal d then withTerminal d o else o in
  let o2 := match contentOf with Some f => withContent (safeClassifyStreamContent f e) o1 | None => o1 end in
  let o3 := countStreamEvent (g || IsProviderError d) o2 in
  accounted o [(e, g)] (recorded e (g || IsProviderError d) (match rs with Some r => withResponses r o3 | None => o3 end)).
Proof.
  intros Ht Hd o1 o2 o3. assert (terminalEvent (e, g) = IsTerminal d) as Hterm by (unfold terminalEvent; cbn; by rewrite Hd).
  assert (errorEvent (e, g) = g || IsProviderError d) as Herr by (unfold errorEvent; cbn; by rewrite Hd).
  assert ((ob_eventCount o + 1 =? 1) = (ob_eventCount o =? 0)) as Hone by (destruct (Z.eqb_spec (ob_eventCount o) 0); [by rewrite e0|apply Z.eqb_neq; lia]).
  subst o1 o2 o3. split; cbn [existsb List.find List.filter foldl length fst snd]; rewrite ?Hterm, ?Herr; unfold contentSeen, recorded, observeUsageEvent;
    destruct (isDone (se_Payload e)), contentOf as [f|], (IsTerminal d) eqn:Eterm, (g || IsProviderError d), rs; cbn; rewrite ?Hone, ?Hd, ?Ht, ?orb_false_r; try done.
  all: rewrite ?orb_true_r; try done.
  all: destruct (strEq (ob_firstSummary o) EmptyString) eqn:Efirst; [|done]; try (by apply strEq_true in Efirst).
  all: destruct (strEq (summarize (se_Payload e)) EmptyString) eqn:Esum; [by apply strEq_true in Esum|done].
Qed.

(** One event of a stream that has not ended. *)
Lemma observe_step o e g : ob_sawTerminal o = false ->
  match observe o e g with
  | Ok (t, o') => t = terminalEvent (e, g) /\ accounted o [(e, g)] o' /\ leaks (se_Payload e) = false /\ is_Some (dispositionOf e)
  | Err _ => refusedEvent (e, g)
  end.
Proof.
  intros Ht. unfold observe. destruct (leaks (se_Payload e)) eqn:El; [by left|]. rewrite classify_spec, Ht by done. cbn [negb andb].
  destruct (dispositionOf e) as [d|] eqn:Ed; [|by right; left]. cbn zeta.
  set (o3 := countStreamEvent _ _).
  assert (forall rs, let o' := recorded e (g || IsProviderError d) (match rs with Some r => withResponses r o3 | None => o3 end) in
    ob_sawTerminal o' = terminalEvent (e, g) /\ accounted o [(e, g)] o' /\ false = false /\ is_Some (Some d)) as Hok.
  { intros rs. pose proof (recorded_accounted o e g d rs Ht Ed) as Ha. cbn zeta in Ha. fold o3 in Ha. split_and!; [|done|done|done].
    rewrite (ac_terminal _ _ _ Ha). cbn. apply orb_false_r. }
  clearbody o3. destruct (g || IsProviderError d) eqn:Eerr; cbn; [apply (Hok None)|]. destruct onResponse as [f|] eqn:Ef; cbn; [|apply (Hok None)].
  destruct (f (se_Payload e) (ob_responses o3)) as [rs|er] eqn:Er; cbn; [apply (Hok (Some rs))|]. right. right.
  exists f, (ob_responses o3), er. split_and!; [done|done|]. unfold errorEvent. cbn. by rewrite Ed.
Qed.

(** After the terminal event nothing is recorded any more. *)
Lemma observeShown_ended o evs : ob_sawTerminal o = true ->
  match observeShown o evs with
  | Ok (t, o') => t = false /\ o' = o /\ Forall (fun x => leaks (se_Payload x.1) = false) evs
  | Err _ => Exists refusedEvent evs
  end.
Proof.
  intros Ht. induction evs as [|[e g] r IH]; [done|]. cbn. unfold observe. destruct (leaks (se_Payload e)) eqn:El; [by left; left|].
  unfold classify. rewrite Ht. cbn. destruct (observeShown o r) as [[t o']|]; cbn in *; [|by right].
  destruct IH as (-> & -> & H). split_and!; [done|done|by constructor].
Qed.

Lemma accounted_cons o x o1 seen o2 : 0 <= ob_eventCount o -> terminalEvent x = false -> accounted o [x] o1 -> accounted o1 seen o2 -> accounted o (x :: seen) o2.
Proof.
  intros Hn Hx [T1 D1 C1 F1 P1 X1 E1 S1 U1 R1 W1] [T2 D2 C2 F2 P2 X2 E2 S2 U2 R2 W2].
  cbn in D1, T1, C1, F1, P1, X1, E1, S1, U1. rewrite Hx in D1, T1. split; cbn [existsb List.find length foldl]; rewrite ?Hx; cbn [orb].
  - done.
  - by rewrite D2, D1.
  - lia.
  - rewrite F2. destruct (Z.eqb_spec (ob_eventCount o1) 0); [lia|]. apply F1.
  - by rewrite P2, P1, orb_false_r, orb_assoc.
  - by rewrite X2, X1, orb_false_r, orb_assoc.
  - by rewrite E2, E1, orb_false_r, orb_assoc.
  - rewrite S2, S1. cbn [List.filter]. destruct (errorEvent x); cbn [firstSummaryOf];
      destruct (strEq (ob_firstSummary o) EmptyString) eqn:Eo; rewrite ?Eo; try done.
    destruct (strEq (summarize (se_Payload x.1)) EmptyString) eqn:Ex; [done|]. by rewrite Ex.
  - by rewrite U2, U1.
  - congruence.
  - congruence.
Qed.

Lemma accounted_nil o : ob_sawTerminal o = false -> accounted o [] o.
Proof.
  intros Ht. split; cbn; rewrite ?orb_false_r; try done; [lia|by destruct (_ =? _)|].
  destruct (strEq (ob_firstSummary o) EmptyString) eqn:E; [by apply strEq_true in E|done].
Qed.

Lemma upToTerminal_find evs : List.find terminalEvent (upToTerminal evs) = List.find terminalEvent evs
  /\ existsb terminalEvent (upToTerminal evs) = existsb terminalEvent evs.
Proof. induction evs as [|x r [IHf IHe]]; [done|]. cbn. destruct (terminalEvent x) eqn:E; cbn; [done|]. by rewrite IHf, IHe. Qed.

(** A stream from its start: the account of its events up to the terminal one. *)
Lemma observeShown_spec o evs : ob_sawTerminal o = false -> 0 <= ob_eventCount o ->
  match observeShown o evs with
  | Ok (t, o') => t = existsb terminalEvent evs /\ accounted o (upToTerminal evs) o'
  | Err _ => Exists refusedEvent evs
  end.
Proof.
  revert o. induction evs as [|[e g] r IH]; intros o Ht Hn; [by split; [|apply accounted_nil]|]. cbn [observeShown upToTerminal existsb].
  pose proof (observe_step o e g Ht) as Hs. destruct (observe o e g) as [[t o1]|]; cbn; [|by left]. destruct Hs as (-> & Ha & _ & _).
  pose proof (ac_terminal _ _ _ Ha) as Ht1. pose proof (ac_count _ _ _ Ha) as Hc1. cbn in Ht1, Hc1. rewrite orb_false_r in Ht1.
  destruct (terminalEvent (e, g)) eqn:Et; cbn.
  - pose proof (observeShown_ended o1 r Ht1) as He. destruct (observeShown o1 r) as [[t' o2]|]; cbn; [|by right]. by destruct He as (-> & -> & _).
  - specialize (IH o1 Ht1 ltac:(lia)). destruct (observeShown o1 r) as [[t' o2]|]; cbn; [|by right]. destruct IH as [-> IH]. split; [done|].
    by apply accounted_cons with o1.
Qed.

Lemma reported_spec o evs t o' : observeShown o evs = Ok (t, o') -> reported o evs = Ok (firstTerminal (ob_sawTerminal o) evs, o').
Proof.
  revert o t o'. induction evs as [|[e g] r IH]; intros o t o'; cbn [observeShown reported firstTerminal]; [by intros [= _ <-]|].
  assert (match observe o e g with Ok (b, o1) => b = negb (ob_sawTerminal o) && terminalEvent (e, g)
    /\ ob_sawTerminal o1 = ob_sawTerminal o || terminalEvent (e, g) | Err _ => True end) as Hs.
  { destruct (ob_sawTerminal o) eqn:Ht.
    - unfold observe, classify. rewrite Ht. by destruct (leaks _).
    - pose proof (observe_step o e g Ht) as Hs. destruct (observe o e g) as [[b o1]|]; [|done]. destruct Hs as (-> & Ha & _).
      split; [done|]. rewrite (ac_terminal _ _ _ Ha). cbn. apply orb_false_r. }
  destruct (observe o e g) as [[b o1]|]; [|done]. destruct Hs as [-> Ht1]. cbn.
  destruct (observeShown o1 r) as [[t' o2]|] eqn:E; [|done]. cbn. intros [= _ <-]. by rewrite (IH _ _ _ E), Ht1.
Qed.

(** * Composition with the framing *)

Context `{GT : GoText} `{SC : StringCodec}.

(** The events that are shown: those with a payload. *)
Definition shown (events : list (list bytes)) : list shownEvent :=
  omap (fun ls => let payload := joinLines (dataOf ls) in
                  if bool_decide (payload = []) then None else Some (mkStreamEvent (nameOf ls) payload, isErrorEvent (nameOf ls) payload)) events.

Lemma observeAll_shown o events : observeAll observe o events = observeShown o (shown events).
Proof.
  revert o. induction events as [|ls r IH]; intros o; [done|]. unfold shown in *. cbn. unfold observeLines. case_bool_decide; cbn.
  - rewrite IH. by destruct (observeShown _ _) as [[]|].
  - destruct (observe o _ _) as [[t o1]|]; cbn; [|done]. by rewrite IH.
Qed.

Lemma terminal_disposition x : terminalEvent x = true -> is_Some (dispositionOf x.1).
Proof. unfold terminalEvent. destruct (dispositionOf x.1); [by eexists|done]. Qed.

Lemma accounted_disposition u rs seen o : accounted (newStreamEventObserver u rs) seen o ->
  forall k, ob_sawTerminal o && (ob_terminalDisposition o =? k) = bool_decide (List.find terminalEvent seen ≫= (fun x => dispositionOf x.1) = Some k).
Proof.
  intros Ha k. rewrite (ac_terminal _ _ _ Ha), (ac_disposition _ _ _ Ha). destruct (List.find terminalEvent seen) as [x|] eqn:Ef; cbn.
  - apply List.find_some in Ef as [Hin Hx]. destruct (terminal_disposition x Hx) as [d Hd]. rewrite Hd. cbn.
    assert (existsb terminalEvent seen = true) as -> by (apply existsb_exists; by exists x). cbn.
    destruct (Z.eqb_spec d k) as [->|Hk]; symmetry; [by apply bool_decide_eq_true|apply bool_decide_eq_false; congruence].
  - assert (existsb terminalEvent seen = false) as ->; [|done]. apply not_true_is_false. intros (x & Hin & Hx)%existsb_exists.
    eapply List.find_none in Ef; [|exact Hin]. congruence.
Qed.

Lemma existsb_or3 {A} (f g h : A -> bool) l : existsb (fun x => f x || g x || h x) l = existsb f l || existsb g l || existsb h l.
Proof. induction l as [|x l IH]; [done|]. cbn. rewrite IH. by destruct (f x), (g x), (h x), (existsb f l), (existsb g l). Qed.

(** C19: What the gateway concludes of a stream depends on its events alone, not on the pieces in
    which they came: the callback reports the first terminal event and no other, the events up to it are counted
    and their usage is extracted in order, the first of them decides whether the answer began
    with an error, a required terminal event is missed exactly when there is none, the end is an
    error exactly when one of them is, with the first summary, and incomplete exactly when the
    terminal event says so, and an answer counts as empty exactly when it completed without
    content, error or other explanation.  Apart from the limits of the framing, observing fails only
    on an event that has to be refused. *)
Theorem stream_observation_exact u rs limit chunks :
  let evs := shown (eventsOf false (concat chunks)) in
  let seen := upToTerminal evs in
  let disposition := List.find terminalEvent evs ≫= (fun x => dispositionOf x.1) in
  match pushAll observe (newSSEEventObservationBuffer limit) (newStreamEventObserver u rs) chunks with
  | Ok (_, terminal, b, o) =>
      reported (newStreamEventObserver u rs) evs = Ok (firstTerminal false evs, o)
      /\ terminal || ob_pendingTerminal b = existsb terminalEvent evs
      /\ ob_eventCount o = Z.of_nat (length seen)
      /\ ob_usage o = foldl (fun u x => if isDone (se_Payload x.1) then u else observeUsage x.1 u) u seen
      /\ ob_firstProviderError o = match evs with x :: _ => errorEvent x | [] => false end
      /\ (validateEOF o = None <-> isSome classifier && requiresTerminal = false \/ existsb terminalEvent evs = true)
      /\ endObservation o =
           (if existsb errorEvent seen then mkStream StreamEndSSEError (firstSummaryOf (List.filter errorEvent seen))
            else if bool_decide (disposition = Some StreamEventIncomplete) then streamTerminalObservation StreamEndProviderIncomplete
            else mkStream StreamEndCleanEOF EmptyString)
      /\ (endedWithoutContent o = true <->
           isSome contentOf = true /\ disposition = Some StreamEventCompleted
           /\ existsb (fun x => contentSeen sc_Produced x || contentSeen sc_ExplainedStop x || errorEvent x) seen = false)
  | Err (ObserverFailed _) => Exists refusedEvent evs
  | Err _ => True
  end.
Proof.
  intros evs seen disposition. destruct (newBuffer_pushed observe (newStreamEventObserver u rs) limit) as [Hl Hb].
  pose proof (pushAll_ok observe _ _ _ _ _ _ chunks Hl Hb) as H. cbn [app ob_pending newSSEEventObservationBuffer] in H.
  pose proof (observeShown_spec (newStreamEventObserver u rs) evs eq_refl ltac:(cbn; lia)) as Hs.
  destruct (pushAll _ _ _ chunks) as [[[[wire terminal] b] o]|[| |e]]; unfold streamOutcome in H; [|done|done|];
    rewrite observeAll_shown in H; fold evs in H.
  - destruct H as [Hob _]. pose proof (reported_spec _ _ _ _ Hob) as Hrep. rewrite Hob in Hs. destruct Hs as [Hterm Ha]. cbn [orb] in Hterm. fold seen in Ha. destruct (upToTerminal_find evs) as [Hf He].
    pose proof (accounted_disposition _ _ _ _ Ha) as Hd. fold seen in Hf, He. rewrite Hf in Hd. fold disposition in Hd.
    pose proof (ac_terminal _ _ _ Ha) as Ht. rewrite He in Ht. destruct Ha as [_ _ Hc Hfi Hp Hx Her Hsum Hu Hr _]. cbn in Hc, Hfi, Hp, Hx, Her, Hsum, Hu, Hr.
    split_and!; [done|done|lia|done| | | |].
    + rewrite Hfi. subst seen. by destruct evs.
    + unfold validateEOF. rewrite Hr, Ht. destruct (isSome classifier && requiresTerminal), (existsb terminalEvent evs); cbn; split; (done || naive_solver).
    + unfold endObservation. by rewrite Her, Hsum, Hd.
    + rewrite existsb_or3, <- Hp, <- Hx, <- Her, <- (bool_decide_eq_true (disposition = _)), <- Hd. unfold endedWithoutContent.
      destruct (isSome contentOf), (ob_sawTerminal o), (ob_terminalDisposition o =? _), (ob_sawContent o), (ob_sawExplainedStop o), (ob_sawErrorEvent o); cbn; naive_solver.
  - by rewrite H in Hs.
Qed.

End Observer.

(** * On a concrete stream *)

#[local] Instance observerText : GoText := asciiText.
#[local] Instance observerCodec : StringCodec := {| quoteString := fun _ l => l; unquoteString := Some |}.

Definition exClassify (e : StreamEvent) : called Z :=
  if bool_decide (se_Name e = bytes_of "stop") then Answered StreamEventCompleted
  else if bool_decide (se_Name e = bytes_of "cut") then Answered StreamEventIncomplete else Answered StreamEventContinue.
Definition exEvents : bytes := bytes_of "data: {}" ++ [LF; LF] ++ bytes_of "event: cut" ++ [CR; LF] ++ bytes_of "data: {}" ++ [CR; LF; CR; LF] ++ bytes_of "event: error" ++ [LF] ++ bytes_of "data: late" ++ [LF; LF].

(** The error after the terminal event changes nothing. *)
Lemma late_error_ignored :
  match pushAll (observe (Rs := unit) (Some exClassify) None (fun _ n => S n) of_bytes (fun _ => false) None)
          (newSSEEventObservationBuffer 0) (newStreamEventObserver (Some exClassify) true O tt) [take 30 exEvents; drop 30 exEvents] with
  | Ok (wire, terminal, b, o) =>
      wire = exEvents /\ terminal = true /\ ob_eventCount o = 2 /\ ob_usage o = 2%nat
      /\ endObservation o = streamTerminalObservation StreamEndProviderIncomplete /\ validateEOF o = None
  | Err _ => False
  end.
Proof. vm_compute. done. Qed.
